(* ===== verification/_CoqProject ===== *)
-Q . S2P
Prelude.v
RustStr.v
F64.v
Common.v
JsonValue.v
State.v
Retry.v
Condition.v
Executor.v
Template.v
Event.v
WorkflowDef.v
WorkflowValid.v
ExecState.v
Store.v
FileStore.v
FileStoreInv.v
Queue.v
Effect.v
Timer.v
TimerInv.v
Engine.v
EngineInv.v
Scenario.v
EngineProps.v
EngineSched.v
EngineOps.v
EngineUndo.v
EngineBatch.v
EngineLoop.v
Worker.v
Resilience.v
ResilienceInv.v
Chat.v
Gateway.v
GatewayInv.v
Manifest.v
ToolRegistry.v
AgentContext.v
Guardrail.v
GuardrailInv.v
Prompt.v
AgentDef.v
Agent.v
AgentInv.v
AgentProps.v
Keyless.v
Resolve.v
PluginEngine.v
PluginInv.v
Scheduler.v
Cron.v
CronInv.v
Schedule.v
ScheduleInv.v
Dispatch.v
AuditLog.v
AuditInv.v
Tenancy.v
TenancyInv.v
Events.v
EventsInv.v
Http.v
IdempotencyInv.v
TenantRoutes.v
TenantRoutesInv.v
Quota.v
RateLimit.v
Auth.v
AuthInv.v
Kms.v
KmsInv.v
Memory.v
MemoryInv.v
Frame.v
Ui.v
Market.v
MarketInv.v
MarketRoutes.v
