(* ===== verification/Prelude.v ===== *)
(** * Wovyr: a verification development

    Wovyr is a platform that runs AI agents and durable workflows.  This library
    models its core crates (src/crates/) as executable definitions and proves
    what makes them correct.  It is the root file; each other file opens with a
    comment of its own.

    ** How the parts interact

    A _workflow definition_ (wovyr-workflow/definition.rs) is loaded, validated
    and pinned by its hash.  The _engine_ (engine.rs) drives an execution of it:
    it evaluates the guards of transitions (condition.rs), fills in the inputs of
    activities (template.rs), calls the activity executor (executor.rs) with
    retries (retry.rs), and records every change as a snapshot and an event
    (event.rs) in durable stores (store.rs).  _Timers_ (timer.rs) and _schedules_
    (schedule.rs over cron.rs) start and wake executions; the _queue_ and the
    _workers_ (queue.rs, worker.rs) distribute them.

    An _agent_ (wovyr-agent) is a loop around the _gateway_ (wovyr-provider),
    which chooses among model providers with retries, failover, circuit breakers
    and caches, and around the _tool registry_ (wovyr-tools), into which the
    _plugin engine_ (wovyr-plugin) routes the capabilities of verified plugins.
    _Guardrails_ and _prompt templates_ (wovyr-agent) and the _fair scheduler_
    (wovyr-tools) serve it.  The _audit log_ (wovyr-audit) records what happened;
    _tenants_ (wovyr-tenancy) own what happens, within roles and quotas.

    ** Files, and what each group of theorems shows

    - Language and libraries: [Prelude] (machine integers, ordered maps,
      lists, sums), [RustStr] (strings and characters of the standard library), [F64]
      (floating point, and which of its steps are exact), [Effect] (outcomes of calls and
      the monad of stateful code, with its weakest preconditions), [JsonValue],
      [Common] (the error type of wovyr-common).
    - Workflow data: [State], [Retry], [Condition], [Executor], [Template],
      [Event], [WorkflowDef], [ExecState]; [WorkflowValid] shows that validation
      accepts exactly the well-formed definitions, [Condition] and [Template]
      that guards and templates mean what their grammars say.
    - Stores: [Store] (ports as classes with laws, and memory), [FileStore] with
      [FileStoreInv] (the files refine the memory), [Timer] with [TimerInv] (both
      registries refine one abstract registry), [Queue] (leases exclude).
    - The engine: [Engine] is engine.rs, function by function, over a world of
      stores, clock, executor and locks.  [EngineInv] proves the invariants of
      every operation; [EngineProps] (consistency of snapshots and logs,
      compactions included, isolation, termination, completed work is never
      redone), [EngineSched] (progress, but for transitions out of compensation
      handlers), [EngineOps] (pinning, cancellation, terminal executions),
      [EngineUndo] (rollback), [EngineBatch] (what a concurrent batch persists
      does not depend on the schedule) and [EngineLoop] (loops) are the theorems;
      [Scenario] has concrete worlds.  [Worker] adds the distributed worker.
    - Time: [Cron] with [CronInv] (the calendar, the next fire time, the syntax); [Schedule] with [ScheduleInv] (a poll starts due
      schedules once); [Dispatch] (the loops of the dispatchers).
    - Models: [Chat] (requests and responses), [Resilience] with [ResilienceInv]
      (breakers, caches), [Gateway] with [GatewayInv] (budget of a dispatch).
    - Agents: [AgentContext] (token estimates and compaction), [Guardrail] with
      [GuardrailInv] (the redactor is thorough), [Prompt] (pinned
      prompts, experiments, rendering), [AgentDef], [Agent] (the run loop) with
      [AgentInv] (a logic for the logs of a run) and [AgentProps] (budget, valid
      histories, permissions, fail-closed guardrails).
    - Tools and plugins: [ToolRegistry], [Scheduler] (bounded unfairness), [Manifest], [Keyless], [Resolve] (the
      order of dependencies), [PluginEngine] with [PluginInv] (the catalog stays sound, a
      failed call changes nothing).
    - Audit: [AuditLog] with [AuditInv] (tampering is detected, the bounded backward
      scan is the full one).
    - Tenants and the server: [Tenancy] with [TenancyInv] (roles are a ladder, the
      file refines the catalog), [Events] with [EventsInv] (the outbox holds what is
      in flight, deliveries end), [Http] (pages) and [IdempotencyInv]
      (retries are replayed), [TenantRoutes] with [TenantRoutesInv] (every route
      fails closed, is audited and keeps the catalog well formed), [Quota]
      (slots are the running runs, usage survives a restart), [RateLimit]
      (token buckets in double precision),
      [Auth] with [AuthInv] (verified principals, key stores with caches).
    - Keys and secrets: [Kms] with [KmsInv] (sealed data is its tenant's until the
      tenant is shredded, the encrypting store is a map of secrets, the vault serves
      the latest value to covering grants).
    - Memory: [Memory] with [MemoryInv].  Records, the stores in memory, in files and
      encrypting, chunking, embedding, retrieval (keyword, vector, fused, diversified,
      reranked), compaction and re-embedding; queries show what their reader may see,
      compaction deletes by id and keeps access, chunks cover their document, the encrypting store is the
      store it wraps.  Logarithm, power and square root of [f32], the tables of Unicode
      and the JSON codec are parameters; where scores are NaN the order of the sort of
      the standard library is unspecified, and no theorem depends on it.
    - Generated interfaces: [Frame] (frames, their validation and decisions, the
      policy language and the guard: verdicts follow the rules, redaction keeps the
      controls) and [Ui] (the stores of frames, activities and decisions, the guarded
      activity, the routes and the tool: what waits was presented and passed the guard
      in force for its tenant, decisions
      answer what is pending).  The runner of workflows is the class [UiWorkflows];
      the parsers of JSON, YAML and versions and the tables of Unicode are parameters.
    - The marketplace: [Market] (listings, the curation policy, the scan and the feed
      of vulnerabilities, the stores in memory and in the file, the registry over an
      abstract store) with [MarketInv] (listings stay consistent, what is served was
      admitted, a search shows what can be fetched, moderation is final, the index of
      the feed is a scan, the file is the catalog), and [MarketRoutes] (the routes of
      plugins and of the marketplace over the files of a node, read anew by every
      request: callers need their permission, the catalog in the file keeps the
      dependencies of the plugins, the marketplace does not panic).  The texts of
      JSON, YAML, versions, base64 and hexadecimal digits and the digests are
      parameters; the registry in PostgreSQL is not modelled.

    ** How definitions correspond to the code

    A definition keeps the name it has in the source; a Rust method of a type that
    shares its name with another is in a Module of the type's name ([FileStore.t],
    [InMemoryTimerStore.schedule]) or carries the type's name as a prefix
    ([RetryPolicy_default]).  A [&mut self] method is a function from the old state
    to the new one with its result; a method that may fail returns [result]; code
    over several stateful parts is a computation in the monad [M W] of [Effect].
    Traits are type classes; a class of laws states what an implementation
    promises, and theorems about clients assume the laws only.

    ** Concurrency, time and failures

    Where the code awaits several things at once (a batch of activities, a hedged
    dispatch, the tool calls of a turn) the model takes the order in which they
    finish as an argument, and the theorems hold for every order.  Code under one
    lock is one step.  Clocks are read through a class or passed as instants.  A
    store may fail at any call; the engine's theorems hold for every failure.  A
    panic is the value [Stop Panicked], so the theorems that exclude it say so.

    ** Fuel and bounds

    Loops whose recursion is not structural take fuel and answer [Exhausted] (or
    the rest of their input) when it ends: the engine's loops (the number of
    activities bounds the passes, [EngineInv] proves that the fuel suffices), the
    scans over strings (one character at least is consumed by each pass, so the
    length suffices), the search of the next cron minute (the four years the code
    itself searches), the backward scan of the audit file (its length).  Integers
    keep their width where they can overflow: sums and products wrap around as in
    a release build ([u32_wrapping_add], ...); counts that cannot reach the bound
    of [usize] are naturals.

    ** Parameters

    Third-party code is a parameter with its documented behaviour as named laws:
    JSON and YAML text (round trips), SHA-256, HMAC, Ed25519 and ECDSA (a signature
    of the holder of the key verifies), semantic versions (a total order), the
    tables of Unicode (their ASCII part), the tools, providers and executors
    themselves.  The wire format of API keys, tokens and headers are the libraries' too.
    Every law is instantiated by a concrete function in the witness of a theorem
    that assumes it.

    ** Not modelled

    - The memory backends of PostgreSQL and Qdrant: clients of other programs; the
      evaluation harness, whose scores are reported and not enforced.
    - The HTTP routes of the other domains, which hand requests on to the modelled
      components, the server's wiring and its OpenAPI document; routing, extraction
      and JSON parsing of requests are the web framework's.
    - Built-in tools, sandboxes, plugin runtimes, provider adapters, PostgreSQL and
      Redis backends: input and output, whose behaviour is another program's.
    - Runtime, configuration and telemetry (wiring from the environment, export of
      metrics), macros and re-exports, the TypeScript and Python code.
    - Within the modelled parts: calls of the operating system that the code retries
      or ignores succeed unless a definition says otherwise; handlers of the server
      run one at a time except where a theorem splits them
      ([interleaved_patches_overwrite], [late_snapshot_forgets_usage],
      [lookup_undoes_revocation]); the clock does not move within one emission of an
      event. *)
From stdpp Require Import base tactics list numbers strings gmap sorting pretty.
From Stdlib Require Import Lia ZArith Ascii.

(** ** The development's scope and hint databases *)

Declare Scope wovyr_scope.
Delimit Scope wovyr_scope with W.
Create HintDb wovyr discriminated.
Create HintDb wovyr_wp discriminated.

(** ** Machine integers: the values of [u32], [u64] and [usize] as [Z] *)

Definition u32_modulus : Z := 2 ^ 32.
Definition u64_modulus : Z := 2 ^ 64.
Definition u32_max : Z := u32_modulus - 1.
Definition u64_max : Z := u64_modulus - 1.

(** Release-profile addition and multiplication wrap around. *)
Definition u32_wrapping_add (x y : Z) : Z := (x + y) mod u32_modulus.
Definition u64_wrapping_add (x y : Z) : Z := (x + y) mod u64_modulus.
Definition u64_wrapping_mul (x y : Z) : Z := (x * y) mod u64_modulus.
Definition u64_saturating_add (x y : Z) : Z := Z.min (x + y) u64_max.
Definition u64_saturating_mul (x y : Z) : Z := Z.min (x * y) u64_max.
Definition u64_saturating_sub (x y : Z) : Z := Z.max (x - y) 0.

Definition is_u32 (x : Z) : Prop := (0 <= x < u32_modulus)%Z.
Definition is_u64 (x : Z) : Prop := (0 <= x < u64_modulus)%Z.

(** ** Ordered iteration over a [BTreeMap<String, V>] *)

Definition btree_keys {V} (m : gmap string V) : list string :=
  merge_sort String.le (elements (dom m)).

Definition btree_iter {V} (m : gmap string V) : list (string * V) :=
  omap (λ k, pair k <$> m !! k) (btree_keys m).

(** [Iterator::position]-style search that also returns the remainder. *)
Definition list_min (l : list Z) : option Z :=
  match l with
  | [] => None
  | x :: l => Some (foldr Z.min x l)
  end.

(** A textual form of the values of a countable type: the witnesses' stand-in
    for a serializer. *)
Fixpoint pos_text (p : positive) : string :=
  match p with
  | xH => ""
  | xO p => String "0"%char (pos_text p)
  | xI p => String "1"%char (pos_text p)
  end.
Fixpoint read_pos (s : string) : option positive :=
  match s with
  | "" => Some xH
  | String "0"%char s => xO <$> read_pos s
  | String "1"%char s => xI <$> read_pos s
  | _ => None
  end.
Definition countable_text `{Countable A} (a : A) : string := pos_text (encode a).
Definition read_countable `{Countable A} (s : string) : option A := read_pos s ≫= decode.

(** ** Tactics *)

(** Case analysis on the scrutinee of the first [match]/[if] in the goal. *)
Ltac case_goal :=
  match goal with
  | |- context [match ?x with _ => _ end] => destruct x eqn:?
  end.

(** Turn boolean tests into propositions. *)
Ltac to_prop :=
  repeat match goal with
  | H : andb _ _ = true |- _ => apply andb_prop in H as [? ?]
  | H : orb _ _ = false |- _ => apply orb_false_elim in H as [? ?]
  | H : negb _ = true |- _ => apply negb_true_iff in H
  | H : negb _ = false |- _ => apply negb_false_iff in H
  | H : bool_decide _ = true |- _ => apply bool_decide_eq_true in H
  | H : bool_decide _ = false |- _ => apply bool_decide_eq_false in H
  | H : Z.leb _ _ = true |- _ => apply Z.leb_le in H
  | H : Z.leb _ _ = false |- _ => apply Z.leb_gt in H
  | H : Z.ltb _ _ = true |- _ => apply Z.ltb_lt in H
  | H : Z.ltb _ _ = false |- _ => apply Z.ltb_ge in H
  | H : Z.eqb _ _ = true |- _ => apply Z.eqb_eq in H
  | H : Z.eqb _ _ = false |- _ => apply Z.eqb_neq in H
  | H : Is_true _ |- _ => apply Is_true_true in H
  end.

Ltac unfold_ints :=
  unfold u32_wrapping_add, u64_wrapping_add, u64_wrapping_mul, u64_saturating_add,
    u64_saturating_mul, u64_saturating_sub, is_u32, is_u64, u32_max, u64_max,
    u32_modulus, u64_modulus in *.

(** ** Lemmas on machine integers *)

Lemma u64_saturating_add_bounds x y :
  is_u64 x → is_u64 y → is_u64 (u64_saturating_add x y).
Proof. unfold_ints. lia. Qed.

Lemma u64_saturating_add_small x y :
  (x + y < u64_modulus)%Z → u64_saturating_add x y = (x + y)%Z.
Proof. unfold_ints. lia. Qed.

Lemma u32_wrapping_add_small x y :
  (0 <= x + y < u32_modulus)%Z → u32_wrapping_add x y = (x + y)%Z.
Proof. unfold_ints. intros. by apply Z.mod_small. Qed.

Lemma u32_wrapping_add_bounds x y : is_u32 (u32_wrapping_add x y).
Proof. unfold_ints. by apply Z.mod_pos_bound. Qed.

Lemma u64_wrapping_add_bounds x y : is_u64 (u64_wrapping_add x y).
Proof. unfold_ints. by apply Z.mod_pos_bound. Qed.

Lemma u64_wrapping_mul_bounds x y : is_u64 (u64_wrapping_mul x y).
Proof. unfold_ints. by apply Z.mod_pos_bound. Qed.

#[export] Hint Resolve u64_saturating_add_bounds u32_wrapping_add_bounds
  u64_wrapping_add_bounds u64_wrapping_mul_bounds : wovyr.

Lemma read_countable_text `{Countable A} (a : A) : read_countable (countable_text a) = Some a.
Proof.
  assert (∀ p, read_pos (pos_text p) = Some p) as Hp.
  { induction p as [p IH|p IH|]; simpl; [by rewrite IH..|done]. }
  unfold read_countable, countable_text. rewrite Hp. apply decode_encode.
Qed.

(** ** Lemmas on ordered maps *)

Lemma btree_keys_elem {V} (m : gmap string V) k :
  k ∈ btree_keys m ↔ is_Some (m !! k).
Proof.
  unfold btree_keys. rewrite merge_sort_Permutation, elem_of_elements.
  apply elem_of_dom.
Qed.

Lemma btree_keys_sorted {V} (m : gmap string V) :
  Sorted String.le (btree_keys m).
Proof. apply Sorted_merge_sort; apply _. Qed.

Lemma btree_keys_nodup {V} (m : gmap string V) : NoDup (btree_keys m).
Proof. unfold btree_keys. rewrite merge_sort_Permutation. apply NoDup_elements. Qed.

Lemma btree_iter_elem {V} (m : gmap string V) k v :
  (k, v) ∈ btree_iter m ↔ m !! k = Some v.
Proof.
  unfold btree_iter. rewrite list_elem_of_omap. split.
  - intros (k' & _ & Hv). apply fmap_Some in Hv as (v' & Hv' & [= -> ->]). done.
  - intros Hv. exists k. split; [by apply btree_keys_elem; eauto | by rewrite Hv].
Qed.

Lemma btree_iter_fmap {V V'} (f : V → V') (m : gmap string V) :
  btree_iter (f <$> m) = prod_map id f <$> btree_iter m.
Proof.
  unfold btree_iter. replace (btree_keys (f <$> m)) with (btree_keys m) by (unfold btree_keys; by rewrite dom_fmap_L).
  induction (btree_keys m) as [|k l IH]; [done|]. cbn [omap list_omap]. rewrite lookup_fmap.
  destruct (m !! k) as [v|]; simpl; [by f_equal|done].
Qed.

Lemma btree_iter_nodup {V} (m : gmap string V) : NoDup (fst <$> btree_iter m).
Proof.
  assert (fst <$> btree_iter m `sublist_of` btree_keys m) as Hs; [|exact (sublist_NoDup _ _ (btree_keys_nodup m) Hs)].
  unfold btree_iter. induction (btree_keys m) as [|k l IH]; [done|]. cbn [omap list_omap].
  destruct (m !! k); simpl; by constructor.
Qed.

Lemma foldl_insert_lookup `{Countable K} {V} (l : list (K * V)) (m : gmap K V) k v :
  NoDup (fst <$> l) →
  foldl (λ m kv, <[kv.1 := kv.2]> m) m l !! k = Some v ↔ (k, v) ∈ l ∨ k ∉ fst <$> l ∧ m !! k = Some v.
Proof.
  revert m. induction l as [|[k' v'] l IH]; intros m; simpl; [set_solver|].
  intros [Hk' Hl]%NoDup_cons. rewrite IH by done. rewrite !elem_of_cons. destruct (decide (k = k')) as [->|Hne].
  - rewrite lookup_insert_eq. split.
    + intros [Hin|[_ [= ->]]]; [|by left; left]. destruct Hk'. apply list_elem_of_fmap. by exists (k', v).
    + intros [[[= ->]|Hin]|[Hn _]]; [by right|by left|]. destruct Hn. by left.
  - rewrite lookup_insert_ne by done. naive_solver.
Qed.

(** Inserting the entries of a map one by one builds the map. *)
Lemma insert_btree_iter {V} (m : gmap string V) :
  foldl (λ m kv, <[kv.1 := kv.2]> m) ∅ (btree_iter m) = m.
Proof.
  apply map_eq. intros k. apply option_eq. intros v.
  rewrite foldl_insert_lookup by apply btree_iter_nodup. rewrite btree_iter_elem, lookup_empty. naive_solver.
Qed.

(** So does inserting its values, each under the key it carries. *)
Lemma insert_keyed_values `{Countable K} {V} (key : V → K) (l : list (K * V)) (m : gmap K V) :
  NoDup (fst <$> l) → (∀ k v, (k, v) ∈ l ↔ m !! k = Some v) → (∀ k v, m !! k = Some v → key v = k) →
  foldl (λ m v, <[key v := v]> m) ∅ (map snd l) = m.
Proof.
  intros Hl Hm Hk. trans (foldl (λ m kv, <[kv.1 := kv.2]> m) (∅ : gmap K V) l).
  - assert (∀ k v, (k, v) ∈ l → key v = k) as Hkl by (intros k v Hin; by apply Hk, Hm).
    clear Hl Hm Hk. generalize (∅ : gmap K V). induction l as [|[k v] l IH]; intros m0; [done|]. cbn.
    rewrite (Hkl k v) by set_solver. apply IH. set_solver.
  - apply map_eq. intros k. apply option_eq. intros v.
    rewrite foldl_insert_lookup, Hm, lookup_empty by done. naive_solver.
Qed.
Definition keyed {K V} `{Countable K} (key : V → K) (m : gmap K V) : Prop := ∀ k v, m !! k = Some v → key v = k.
Lemma keyed_insert `{Countable K} {V} (key : V → K) (m : gmap K V) v : keyed key m → keyed key (<[key v := v]> m).
Proof. intros Hm k v'. rewrite lookup_insert_Some. naive_solver. Qed.
Lemma keyed_delete `{Countable K} {V} (key : V → K) (m : gmap K V) k : keyed key m → keyed key (delete k m).
Proof. intros Hm k' v'. rewrite lookup_delete_Some. naive_solver. Qed.
Lemma insert_btree_values {V} (key : V → string) (m : gmap string V) :
  keyed key m → foldl (λ m v, <[key v := v]> m) ∅ (map snd (btree_iter m)) = m.
Proof. intros Hk. apply insert_keyed_values; [apply btree_iter_nodup|apply btree_iter_elem|done]. Qed.

(** ** Lemmas on lists *)

Lemma list_min_None l : list_min l = None ↔ l = [].
Proof. by destruct l. Qed.

Lemma foldr_min_spec l x :
  foldr Z.min x l ∈ x :: l ∧ ∀ y, y ∈ x :: l → (foldr Z.min x l <= y)%Z.
Proof.
  induction l as [|a l [IHin IHle]]; simpl.
  - split; [set_solver|]. intros y. rewrite list_elem_of_singleton. lia.
  - split.
    + destruct (Z.min_spec a (foldr Z.min x l)) as [[_ ->]|[_ ->]]; set_solver.
    + intros y Hy. assert (y = a ∨ y ∈ x :: l) as [->|Hy'] by set_solver.
      * lia.
      * specialize (IHle y Hy'). lia.
Qed.

Lemma list_min_spec l m :
  list_min l = Some m ↔ m ∈ l ∧ ∀ y, y ∈ l → (m <= y)%Z.
Proof.
  destruct l as [|x l]; simpl.
  - split; [done|]. intros [H _]. by apply not_elem_of_nil in H.
  - destruct (foldr_min_spec l x) as [Hin Hle]. split.
    + intros [= <-]. done.
    + intros [Hm Hmin]. f_equal. apply Z.le_antisymm; auto.
Qed.

Lemma find_Some_elem {A} (f : A → bool) (l : list A) x :
  List.find f l = Some x → x ∈ l ∧ f x = true.
Proof. intros H. apply List.find_some in H as [H ?]. by rewrite list_elem_of_In. Qed.

Lemma find_None_elem {A} (f : A → bool) (l : list A) x :
  List.find f l = None → x ∈ l → f x = false.
Proof. intros H Hx. eapply List.find_none; [done|]. by apply list_elem_of_In. Qed.

Lemma filter_elem {A} (f : A → bool) (l : list A) x :
  x ∈ List.filter f l ↔ x ∈ l ∧ f x = true.
Proof. rewrite !list_elem_of_In. apply List.filter_In. Qed.

Lemma forallb_elem {A} (f : A → bool) (l : list A) :
  forallb f l = true ↔ ∀ x, x ∈ l → f x = true.
Proof. rewrite List.forallb_forall. by setoid_rewrite list_elem_of_In. Qed.

Lemma existsb_elem {A} (f : A → bool) (l : list A) :
  existsb f l = true ↔ ∃ x, x ∈ l ∧ f x = true.
Proof. rewrite List.existsb_exists. by setoid_rewrite list_elem_of_In. Qed.

Lemma filter_sublist {A} (f : A → bool) (l : list A) : List.filter f l `sublist_of` l.
Proof. induction l as [|x l IH]; simpl; [done|]. destruct (f x); by constructor. Qed.
Lemma NoDup_filter_bool {A} (f : A → bool) (l : list A) :
  NoDup l → NoDup (List.filter f l).
Proof. intros. rewrite NoDup_ListNoDup in *. by apply List.NoDup_filter. Qed.

Lemma NoDup_fmap_filter {A B} (g : A → B) (f : A → bool) (l : list A) :
  NoDup (g <$> l) → NoDup (g <$> List.filter f l).
Proof.
  induction l as [|a l IH]; simpl; [done|].
  rewrite NoDup_cons. intros [Ha Hl]. destruct (f a); simpl; [|by apply IH].
  rewrite NoDup_cons. split; [|by apply IH].
  intros (b & Hab & Hb)%list_elem_of_fmap. apply filter_elem in Hb as [Hb _].
  apply Ha. apply list_elem_of_fmap; eauto.
Qed.

#[export] Hint Rewrite @filter_elem @forallb_elem @existsb_elem @btree_keys_elem
  @btree_iter_elem : wovyr.

Local Open Scope Z_scope.

(** ** Sums over lists

    Sums and counts of integer-valued functions over a list of keys, the
    arithmetic of the fairness proofs, and the iteration of an ordered map under
    updates of its values. *)

Section sums.
Context {A : Type}.
Implicit Types (l : list A) (f g : A → Z) (p q : A → bool).

Fixpoint sum_over f l : Z := match l with [] => 0 | a :: l => f a + sum_over f l end.
(** The sum over the elements that pass a test, and how many they are. *)
Definition sum_if p f l : Z := sum_over (λ a, if p a then f a else 0) l.
Definition count_if p l : Z := sum_if p (λ _, 1) l.

Lemma sum_over_app f l l' : sum_over f (l ++ l') = sum_over f l + sum_over f l'.
Proof. induction l as [|a l IH]; cbn; [done|]. rewrite IH. lia. Qed.

Lemma sum_over_ext f g l : (∀ a, a ∈ l → f a = g a) → sum_over f l = sum_over g l.
Proof.
  induction l as [|a l IH]; intros H; [done|]. cbn. rewrite (H a) by set_solver.
  rewrite IH; [done|]. set_solver.
Qed.

Lemma sum_over_le f g l : (∀ a, a ∈ l → f a <= g a) → sum_over f l <= sum_over g l.
Proof.
  induction l as [|a l IH]; intros H; [done|]. cbn. pose proof (H a ltac:(set_solver)).
  assert (sum_over f l <= sum_over g l) by (apply IH; set_solver). lia.
Qed.

Lemma sum_over_add f g l : sum_over (λ a, f a + g a) l = sum_over f l + sum_over g l.
Proof. induction l as [|a l IH]; cbn; [done|]. rewrite IH. lia. Qed.

Lemma sum_over_scale k f l : sum_over (λ a, k * f a) l = k * sum_over f l.
Proof. induction l as [|a l IH]; cbn; [lia|]. rewrite IH. lia. Qed.

Lemma sum_over_zero f l : (∀ a, a ∈ l → f a = 0) → sum_over f l = 0.
Proof. intros H. rewrite (sum_over_ext f (λ _, 0)) by done. clear. by induction l. Qed.

Lemma sum_over_nonneg f l : (∀ a, a ∈ l → 0 <= f a) → 0 <= sum_over f l.
Proof. intros H. rewrite <-(sum_over_zero (λ _, 0) l) by done. by apply sum_over_le. Qed.

Lemma sum_over_member f l a : a ∈ l → (∀ b, b ∈ l → 0 <= f b) → f a <= sum_over f l.
Proof.
  intros Ha Hf. apply list_elem_of_split in Ha as (l1 & l2 & ->). rewrite sum_over_app. cbn.
  pose proof (sum_over_nonneg f l1 ltac:(set_solver)).
  pose proof (sum_over_nonneg f l2 ltac:(set_solver)). lia.
Qed.

Lemma sum_over_permutation f l l' : l ≡ₚ l' → sum_over f l = sum_over f l'.
Proof. induction 1; cbn; lia. Qed.

Lemma sum_if_split p q f l :
  sum_if p f l = sum_if (λ a, p a && q a) f l + sum_if (λ a, p a && negb (q a)) f l.
Proof.
  unfold sum_if. rewrite <-sum_over_add. apply sum_over_ext. intros a _.
  destruct (p a), (q a); cbn; lia.
Qed.

Lemma count_if_length l : count_if (λ _, true) l = Z.of_nat (length l).
Proof. unfold count_if, sum_if. induction l as [|a l IH]; cbn -[Z.of_nat]; [done|]. rewrite IH. lia. Qed.

Lemma count_if_bounds p l : 0 <= count_if p l <= Z.of_nat (length l).
Proof.
  rewrite <-(count_if_length l). unfold count_if, sum_if. split.
  - apply sum_over_nonneg. intros a _. by destruct (p a).
  - apply sum_over_le. intros a _. by destruct (p a).
Qed.

Lemma count_if_zero p l a : count_if p l = 0 → a ∈ l → p a = false.
Proof.
  intros H Ha. destruct (p a) eqn:E; [|done]. exfalso.
  assert (1 <= count_if p l); [|lia].
  transitivity (if p a then 1 else 0); [by rewrite E|].
  apply (sum_over_member (λ a, if p a then 1 else 0)); [done|]. cbv beta. intros b _. by destruct (p b).
Qed.
End sums.

Section singles.
Context `{EqDecision A}.
Implicit Types (l : list A) (f : A → Z) (p : A → bool).

Lemma sum_over_single f l a : NoDup l → a ∈ l →
  sum_over (λ x, if decide (x = a) then f x else 0) l = f a.
Proof.
  intros Hnd Ha. apply list_elem_of_split in Ha as (l1 & l2 & ->).
  apply NoDup_app in Hnd as (_ & H1 & [Ha2 _]%NoDup_cons). rewrite sum_over_app. cbn.
  rewrite decide_True, !sum_over_zero by
    (done || (intros x Hx; rewrite decide_False; [done|]; intros ->; set_solver)). lia.
Qed.

(** Adding an element to the test adds its value. *)
Lemma sum_if_insert p f l a : NoDup l → a ∈ l → p a = false →
  sum_if (λ x, p x || bool_decide (x = a)) f l = sum_if p f l + f a.
Proof.
  intros Hnd Ha Hp. rewrite <-(sum_over_single f l a Hnd Ha). unfold sum_if.
  rewrite <-sum_over_add. apply sum_over_ext. intros x _.
  destruct (decide (x = a)) as [->|Hne].
  - rewrite Hp, bool_decide_eq_true_2 by done. cbn. lia.
  - rewrite bool_decide_eq_false_2, orb_false_r by done. lia.
Qed.

Lemma sum_if_except f l a : NoDup l → a ∈ l →
  sum_if (λ x, negb (bool_decide (x = a))) f l = sum_over f l - f a.
Proof.
  intros Hnd Ha. pose proof (sum_if_insert (λ x, negb (bool_decide (x = a))) f l a Hnd Ha) as H.
  cbv beta in H. rewrite (bool_decide_eq_true_2 (a = a)) in H by done. specialize (H eq_refl).
  assert (sum_if (λ x, negb (bool_decide (x = a)) || bool_decide (x = a)) f l = sum_over f l) as E.
  { apply sum_over_ext. intros x _. by destruct (bool_decide (x = a)). }
  lia.
Qed.
End singles.

(** *** Ordered maps under updates *)

Lemma btree_keys_dom {V W} (m : gmap string V) (m' : gmap string W) :
  dom m = dom m' → btree_keys m = btree_keys m'.
Proof. unfold btree_keys. by intros ->. Qed.

Lemma btree_keys_perm {V} (m : gmap string V) : btree_keys m ≡ₚ elements (dom m).
Proof. unfold btree_keys. apply merge_sort_Permutation. Qed.

Lemma btree_keys_insert_fresh {V} (m : gmap string V) k v : m !! k = None →
  btree_keys (<[k:=v]> m) ≡ₚ k :: btree_keys m.
Proof.
  intros Hk. rewrite !btree_keys_perm, dom_insert.
  apply elements_union_singleton. by apply not_elem_of_dom.
Qed.
