(* ===== verification/RustStr.v ===== *)
(** * String operations of the Rust standard library

    Strings are UTF-8 byte sequences ([String.string]: one [ascii] per byte).
    Each definition is the operation of [str]/[char] the sources call, at the
    patterns they call it with; a byte-level test of an ASCII pattern agrees
    with the [char]-level one on UTF-8 text.  Nothing in this file maps to
    repository code: it is the part of the language the components use. *)
From stdpp Require Import base tactics list numbers strings pretty.
From Stdlib Require Import Lia ZArith Ascii.
From S2P Require Import Prelude.

(** ** Bytes *)

Definition byte_of (c : ascii) : N := N_of_ascii c.
Definition byte_in (lo hi : N) (c : ascii) : bool :=
  N.leb lo (byte_of c) && N.leb (byte_of c) hi.

Definition is_ascii_digit (c : ascii) : bool := byte_in 48 57 c.
Definition is_ascii_upper (c : ascii) : bool := byte_in 65 90 c.
Definition is_ascii_lower (c : ascii) : bool := byte_in 97 122 c.
Definition is_ascii_alphanumeric (c : ascii) : bool :=
  is_ascii_digit c || is_ascii_upper c || is_ascii_lower c.
(** A UTF-8 continuation byte: not the first byte of a [char]. *)
Definition is_continuation (c : ascii) : bool := byte_in 128 191 c.

Definition ascii_lower (c : ascii) : ascii :=
  if is_ascii_upper c then ascii_of_N (byte_of c + 32) else c.

(** [str::to_ascii_lowercase] *)
Fixpoint to_ascii_lowercase (s : string) : string :=
  match s with
  | "" => ""
  | String c s => String (ascii_lower c) (to_ascii_lowercase s)
  end.

Definition str_len (s : string) : Z := Z.of_nat (String.length s).
Definition is_empty (s : string) : bool :=
  match s with "" => true | _ => false end.

(** ** Whitespace (the [White_Space] code points, UTF-8 encoded) *)

Definition ws1 (c : ascii) : bool := byte_in 9 13 c || N.eqb (byte_of c) 32.
(** U+0085 and U+00A0 *)
Definition ws2 (c1 c2 : ascii) : bool :=
  N.eqb (byte_of c1) 194 && (N.eqb (byte_of c2) 133 || N.eqb (byte_of c2) 160).
(** U+1680, U+2000..U+200A, U+2028, U+2029, U+202F, U+205F, U+3000 *)
Definition ws3 (c1 c2 c3 : ascii) : bool :=
  let b1 := byte_of c1 in let b2 := byte_of c2 in
  (N.eqb b1 225 && N.eqb b2 154 && N.eqb (byte_of c3) 128)
  || (N.eqb b1 226 && N.eqb b2 128
      && (byte_in 128 138 c3 || N.eqb (byte_of c3) 168 || N.eqb (byte_of c3) 169
          || N.eqb (byte_of c3) 175))
  || (N.eqb b1 226 && N.eqb b2 129 && N.eqb (byte_of c3) 159)
  || (N.eqb b1 227 && N.eqb b2 128 && N.eqb (byte_of c3) 128).

(** [str::trim_start] *)
Fixpoint trim_start (s : string) : string :=
  match s with
  | "" => ""
  | String c1 s1 =>
    if ws1 c1 then trim_start s1 else
    match s1 with
    | "" => s
    | String c2 s2 =>
      if ws2 c1 c2 then trim_start s2 else
      match s2 with
      | "" => s
      | String c3 s3 => if ws3 c1 c2 c3 then trim_start s3 else s
      end
    end
  end.

(** The same scan over the reversed bytes. *)
Fixpoint trim_start_rev (s : string) : string :=
  match s with
  | "" => ""
  | String c1 s1 =>
    if ws1 c1 then trim_start_rev s1 else
    match s1 with
    | "" => s
    | String c2 s2 =>
      if ws2 c2 c1 then trim_start_rev s2 else
      match s2 with
      | "" => s
      | String c3 s3 => if ws3 c3 c2 c1 then trim_start_rev s3 else s
      end
    end
  end.

Definition trim_end (s : string) : string := String.rev (trim_start_rev (String.rev s)).
(** [str::trim] *)
Definition trim (s : string) : string := trim_end (trim_start s).

(** ** Prefixes, suffixes and searching *)

(** [str::strip_prefix] *)
Fixpoint strip_prefix (p s : string) : option string :=
  match p with
  | "" => Some s
  | String a p =>
    match s with
    | "" => None
    | String b s => if Ascii.eqb a b then strip_prefix p s else None
    end
  end.

Definition starts_with (p s : string) : bool :=
  match strip_prefix p s with Some _ => true | None => false end.

(** [str::strip_suffix] *)
Definition strip_suffix (p s : string) : option string :=
  String.rev <$> strip_prefix (String.rev p) (String.rev s).

Definition ends_with (p s : string) : bool :=
  match strip_suffix p s with Some _ => true | None => false end.

(** [str::split_once]: the text before and after the first occurrence. *)
Fixpoint split_once (pat s : string) : option (string * string) :=
  match strip_prefix pat s with
  | Some rest => Some ("", rest)
  | None =>
    match s with
    | "" => None
    | String c s' => prod_map (String c) id <$> split_once pat s'
    end
  end.

(** [str::contains] of one ASCII [char]. *)
Fixpoint contains_char (a : ascii) (s : string) : bool :=
  match s with
  | "" => false
  | String c s => Ascii.eqb a c || contains_char a s
  end.

(** [str::split] at one ASCII [char]. *)
Fixpoint split_char (a : ascii) (s : string) : list string :=
  match s with
  | "" => [""]
  | String c s' =>
    if Ascii.eqb a c then "" :: split_char a s'
    else match split_char a s' with
         | [] => [String c ""]
         | w :: ws => String c w :: ws
         end
  end.

(** [str::find] of a [char] predicate, as the split point: the prefix that
    fails [f] and the rest, [None] when no character satisfies it. *)
Fixpoint split_at_find (f : ascii → bool) (s : string) : option (string * string) :=
  match s with
  | "" => None
  | String c s' =>
    if f c then Some ("", s) else prod_map (String c) id <$> split_at_find f s'
  end.

(** [str::matches(pat).count()]: non-overlapping occurrences, left to right. *)
Fixpoint matches_count_go (pat : string) (skip : nat) (s : string) : nat :=
  match s with
  | "" => 0
  | String _ s' =>
    match skip with
    | S k => matches_count_go pat k s'
    | O =>
      if starts_with pat s
      then S (matches_count_go pat (String.length pat - 1) s')
      else matches_count_go pat 0 s'
    end
  end.
Definition matches_count (pat s : string) : nat := matches_count_go pat 0 s.

(** [str::split_whitespace] *)
Fixpoint split_whitespace_go (cur : string) (s : string) : list string :=
  let flush := if is_empty cur then [] else [String.rev cur] in
  match s with
  | "" => flush
  | String c1 s1 =>
    if ws1 c1 then flush ++ split_whitespace_go "" s1 else
    match s1 with
    | "" => split_whitespace_go (String c1 cur) s1
    | String c2 s2 =>
      if ws2 c1 c2 then flush ++ split_whitespace_go "" s2 else
      match s2 with
      | "" => split_whitespace_go (String c1 cur) s1
      | String c3 s3 =>
        if ws3 c1 c2 c3 then flush ++ split_whitespace_go "" s3
        else split_whitespace_go (String c1 cur) s1
      end
    end
  end.
Definition split_whitespace (s : string) : list string := split_whitespace_go "" s.

(** ** Numbers in text *)

(** [{}] of an integer. *)
Definition show_Z (z : Z) : string := pretty z.

Definition digit_value (c : ascii) : Z := Z.of_N (byte_of c) - 48.

Fixpoint parse_digits (acc : Z) (s : string) : option Z :=
  match s with
  | "" => Some acc
  | String c s =>
    if is_ascii_digit c then parse_digits (acc * 10 + digit_value c) s else None
  end.

(** [str::parse::<uN>()]: an optional [+], at least one digit, no overflow. *)
Definition parse_unsigned (max : Z) (s : string) : option Z :=
  let body := match s with String "+" r => r | _ => s end in
  match body with
  | "" => None
  | _ => n ← parse_digits 0 body; if Z.leb n max then Some n else None
  end.
Definition parse_u32 : string → option Z := parse_unsigned u32_max.
Definition parse_u64 : string → option Z := parse_unsigned u64_max.

(** ** Lemmas *)

Lemma str_app_assoc (s t u : string) : (s +:+ t) +:+ u = s +:+ (t +:+ u).
Proof. induction s as [|c s IH]; [done|]. unfold String.app in *; simpl. by rewrite IH. Qed.

Lemma str_app_nil_r (s : string) : s +:+ "" = s.
Proof. induction s as [|c s IH]; [done|]. unfold String.app in *; simpl. by rewrite IH. Qed.

Lemma str_app_cons c (s t : string) : String c s +:+ t = String c (s +:+ t).
Proof. done. Qed.

Lemma str_app_nil (t : string) : "" +:+ t = t.
Proof. done. Qed.

Lemma str_len_app (s t : string) : str_len (s +:+ t) = (str_len s + str_len t)%Z.
Proof.
  unfold str_len. rewrite <-Nat2Z.inj_add. f_equal.
  induction s as [|c s IH]; [done|]. rewrite str_app_cons. simpl. by rewrite IH.
Qed.

Lemma strip_prefix_Some p s r : strip_prefix p s = Some r ↔ s = p +:+ r.
Proof.
  revert s. induction p as [|a p IH]; intros s; simpl.
  - rewrite str_app_nil. split; congruence.
  - rewrite str_app_cons. destruct s as [|b s]; [split; congruence|].
    destruct (Ascii.eqb_spec a b) as [->|Hab].
    + rewrite IH. split; congruence.
    + split; congruence.
Qed.

Lemma strip_prefix_app p r : strip_prefix p (p +:+ r) = Some r.
Proof. by apply strip_prefix_Some. Qed.

Lemma starts_with_spec p s : starts_with p s = true ↔ ∃ r, s = p +:+ r.
Proof.
  unfold starts_with. destruct (strip_prefix p s) as [r|] eqn:E.
  - apply strip_prefix_Some in E. split; eauto.
  - split; [done|]. intros [r ->]. by rewrite strip_prefix_app in E.
Qed.

Lemma rev_app_app (s t : string) : String.rev_app s t = String.rev s +:+ t.
Proof.
  unfold String.rev. revert t. induction s as [|c s IH]; intros t; simpl; [done|].
  rewrite IH, (IH (String c "")), str_app_assoc. done.
Qed.

Lemma rev_cons c (s : string) : String.rev (String c s) = String.rev s +:+ String c "".
Proof. unfold String.rev at 1. simpl. by rewrite rev_app_app. Qed.

Lemma rev_app_distr (s t : string) :
  String.rev (s +:+ t) = String.rev t +:+ String.rev s.
Proof.
  induction s as [|c s IH].
  - by rewrite str_app_nil, str_app_nil_r.
  - by rewrite str_app_cons, !rev_cons, IH, str_app_assoc.
Qed.

Lemma rev_involutive (s : string) : String.rev (String.rev s) = s.
Proof.
  induction s as [|c s IH]; [done|]. by rewrite rev_cons, rev_app_distr, IH.
Qed.

Lemma strip_suffix_Some p s r : strip_suffix p s = Some r ↔ s = r +:+ p.
Proof.
  unfold strip_suffix. rewrite fmap_Some. split.
  - intros (x & Hx & ->). apply strip_prefix_Some in Hx.
    rewrite <-(rev_involutive s), Hx, rev_app_distr, !rev_involutive. done.
  - intros ->. exists (String.rev r).
    split; [|by rewrite rev_involutive]. apply strip_prefix_Some.
    by rewrite rev_app_distr.
Qed.

Lemma split_once_app pat s a b :
  split_once pat s = Some (a, b) → s = a +:+ (pat +:+ b).
Proof.
  revert a b. induction s as [|c s IH]; intros a b; simpl.
  - destruct (strip_prefix pat "") as [r|] eqn:E; [|done].
    intros [= <- <-]. by apply strip_prefix_Some in E.
  - destruct (strip_prefix pat (String c s)) as [r|] eqn:E.
    + intros [= <- <-]. by apply strip_prefix_Some in E.
    + intros H. apply fmap_Some in H as ([a' b'] & H & [= -> ->]).
      by rewrite str_app_cons, <-(IH a' b').
Qed.

Lemma str_length_app s t : String.length (s +:+ t) = (String.length s + String.length t)%nat.
Proof. induction s as [|c s IH]; [done|]. rewrite str_app_cons. simpl. by rewrite IH. Qed.

Lemma str_app_inj_l (s t u : string) : s +:+ t = s +:+ u → t = u.
Proof. apply (inj (String.app s)). Qed.

Lemma str_app_inj_r (s t u : string) : s +:+ u = t +:+ u → s = t.
Proof.
  revert t. induction s as [|c s IH]; intros [|c' t] H; try done.
  - apply (f_equal String.length) in H. rewrite !str_length_app in H. simpl in H. lia.
  - apply (f_equal String.length) in H. rewrite !str_length_app in H. simpl in H. lia.
  - rewrite !str_app_cons in H. injection H as -> H. by rewrite (IH t).
Qed.

(** Joining the pieces of a split with the separator gives the text back. *)
Fixpoint join_with (sep : string) (l : list string) : string :=
  match l with
  | [] => ""
  | [w] => w
  | w :: l => w +:+ (sep +:+ join_with sep l)
  end.

Lemma split_char_cons a s : ∃ w ws, split_char a s = w :: ws.
Proof.
  induction s as [|c s (w & ws & IH)]; simpl; [eauto|].
  rewrite IH. destruct (Ascii.eqb a c); eauto.
Qed.

Lemma split_char_join a s : join_with (String a "") (split_char a s) = s.
Proof.
  induction s as [|c s IH]; [done|]. simpl.
  destruct (split_char_cons a s) as (w & ws & Hs). rewrite Hs in *.
  destruct (Ascii.eqb_spec a c) as [->|Hac].
  - change (String c (join_with (String c "") (w :: ws)) = String c s). by rewrite IH.
  - destruct ws; simpl in *; rewrite <-IH; done.
Qed.

(** ** The nesting separator: appending a separator adds a match *)

Lemma matches_count_go_le pat k s :
  matches_count_go pat k s ≤ String.length s.
Proof.
  revert k. induction s as [|c s IH]; intros k; simpl; [lia|].
  destruct k; [|specialize (IH k); lia].
  destruct (starts_with _ _); [pose proof (IH (String.length pat - 1))|pose proof (IH 0)]; lia.
Qed.

Lemma matches_count_go_sep skip s t :
  skip ≤ String.length s →
  S (matches_count_go "::" skip s) ≤ matches_count_go "::" skip (s +:+ ("::" +:+ t)).
Proof.
  revert skip. induction s as [|c s IH]; intros skip Hskip.
  - simpl in Hskip. destruct skip; [|lia].
    change (1 ≤ S (matches_count_go "::" 1 (String ":"%char t))). lia.
  - rewrite str_app_cons. destruct skip as [|k]; simpl in Hskip; [|apply (IH k); lia].
    destruct s as [|c' s].
    + cbn [matches_count_go]. destruct (starts_with "::" (String c "")) eqn:E1.
      { unfold starts_with in E1. cbn [strip_prefix] in E1. by destruct (Ascii.eqb ":" c). }
      destruct (starts_with "::" (String c ("" +:+ ("::" +:+ t)))).
      * simpl. lia.
      * apply (IH 0). lia.
    + assert (starts_with "::" (String c (String c' s +:+ ("::" +:+ t))) =
        starts_with "::" (String c (String c' s))) as Heq.
      { rewrite str_app_cons. unfold starts_with. cbn [strip_prefix].
        destruct (Ascii.eqb ":" c); [|done]. by destruct (Ascii.eqb ":" c'). }
      cbn [matches_count_go]. rewrite Heq.
      destruct (starts_with "::" (String c (String c' s))).
      * apply le_n_S. apply (IH 1). simpl. lia.
      * apply (IH 0). lia.
Qed.

Lemma matches_count_sep s t :
  S (matches_count "::" s) ≤ matches_count "::" (s +:+ ("::" +:+ t)).
Proof. apply matches_count_go_sep. lia. Qed.

(** ** Trimming removes a prefix and a suffix *)

Lemma trim_start_suffix s : ∃ u, s = u +:+ trim_start s.
Proof.
  assert (∀ n s, String.length s ≤ n → ∃ u, s = u +:+ trim_start s) as Hg; [|by eapply Hg].
  clear s. induction n as [|n IH]; intros [|c1 s1] Hn; try (by exists ""); simpl in Hn; [lia|].
  cbn [trim_start]. destruct (ws1 c1).
  { destruct (IH s1) as [u Hu]; [lia|]. exists (String c1 u). by rewrite str_app_cons, <-Hu. }
  destruct s1 as [|c2 s2]; [by exists ""|]. simpl in Hn. destruct (ws2 c1 c2).
  { destruct (IH s2) as [u Hu]; [lia|]. exists (String c1 (String c2 u)).
    by rewrite !str_app_cons, <-Hu. }
  destruct s2 as [|c3 s3]; [by exists ""|]. simpl in Hn. destruct (ws3 c1 c2 c3); [|by exists ""].
  destruct (IH s3) as [u Hu]; [lia|]. exists (String c1 (String c2 (String c3 u))).
  by rewrite !str_app_cons, <-Hu.
Qed.

Lemma trim_start_rev_suffix s : ∃ u, s = u +:+ trim_start_rev s.
Proof.
  assert (∀ n s, String.length s ≤ n → ∃ u, s = u +:+ trim_start_rev s) as Hg; [|by eapply Hg].
  clear s. induction n as [|n IH]; intros [|c1 s1] Hn; try (by exists ""); simpl in Hn; [lia|].
  cbn [trim_start_rev]. destruct (ws1 c1).
  { destruct (IH s1) as [u Hu]; [lia|]. exists (String c1 u). by rewrite str_app_cons, <-Hu. }
  destruct s1 as [|c2 s2]; [by exists ""|]. simpl in Hn. destruct (ws2 c2 c1).
  { destruct (IH s2) as [u Hu]; [lia|]. exists (String c1 (String c2 u)).
    by rewrite !str_app_cons, <-Hu. }
  destruct s2 as [|c3 s3]; [by exists ""|]. simpl in Hn. destruct (ws3 c3 c2 c1); [|by exists ""].
  destruct (IH s3) as [u Hu]; [lia|]. exists (String c1 (String c2 (String c3 u))).
  by rewrite !str_app_cons, <-Hu.
Qed.

Lemma trim_end_prefix s : ∃ u, s = trim_end s +:+ u.
Proof.
  destruct (trim_start_rev_suffix (String.rev s)) as [u Hu]. exists (String.rev u).
  unfold trim_end. by rewrite <-rev_app_distr, <-Hu, rev_involutive.
Qed.

Lemma trim_infix s : ∃ u v, s = u +:+ (trim s +:+ v).
Proof.
  destruct (trim_start_suffix s) as [u Hu]. destruct (trim_end_prefix (trim_start s)) as [v Hv].
  exists u, v. unfold trim. by rewrite <-Hv.
Qed.

Lemma split_once_None pat s a b : split_once pat s = None → s ≠ a +:+ (pat +:+ b).
Proof.
  revert a. induction s as [|c s IH]; intros a; cbn [split_once].
  - destruct (strip_prefix pat "") as [|] eqn:E; [done|]. intros _ Heq.
    destruct a; [|done]. rewrite str_app_nil in Heq. symmetry in Heq.
    rewrite <-Heq, strip_prefix_app in E. done.
  - destruct (strip_prefix pat (String c s)) as [|] eqn:E; [done|].
    intros H Heq. apply fmap_None in H. destruct a as [|c' a].
    + rewrite str_app_nil in Heq. rewrite Heq, strip_prefix_app in E. done.
    + rewrite str_app_cons in Heq. injection Heq as -> Heq. by eapply IH.
Qed.

(** ** Texts of a class of characters *)

Fixpoint str_all (f : ascii → bool) (s : string) : bool :=
  match s with
  | "" => true
  | String c s => f c && str_all f s
  end.

(** The printable ASCII characters: none of them is part of a white space. *)
Definition printable : ascii → bool := byte_in 33 126.

(** Every character but [a]. *)
Definition other_than (a : ascii) (c : ascii) : bool := negb (Ascii.eqb a c).

Lemma str_all_app f s t : str_all f (s +:+ t) = str_all f s && str_all f t.
Proof. induction s as [|c s IH]; [done|]. rewrite str_app_cons. cbn [str_all]. by rewrite IH, andb_assoc. Qed.

Lemma str_all_rev f s : str_all f (String.rev s) = str_all f s.
Proof.
  induction s as [|c s IH]; [done|]. rewrite rev_cons, str_all_app, IH. cbn [str_all].
  by rewrite andb_true_r, andb_comm.
Qed.

Lemma str_all_impl f g s : (∀ c, f c = true → g c = true) → str_all f s = true → str_all g s = true.
Proof.
  intros Hfg. induction s as [|c s IH]; [done|]. cbn [str_all].
  intros [Hc Hs]%andb_prop. by rewrite Hfg, IH.
Qed.

Lemma printable_not_ws c1 c2 c3 : printable c1 = true →
  ws1 c1 = false ∧ ws2 c1 c2 = false ∧ ws3 c1 c2 c3 = false ∧
  ws2 c2 c1 = false ∧ ws3 c3 c2 c1 = false.
Proof.
  unfold printable, ws1, ws2, ws3, byte_in. set (b1 := byte_of c1). set (b2 := byte_of c2).
  set (b3 := byte_of c3). intros [H1%N.leb_le H2%N.leb_le]%andb_prop.
  repeat match goal with |- context [N.leb ?a b1] => destruct (N.leb_spec a b1); try (exfalso; lia) end.
  repeat match goal with |- context [N.leb b1 ?a] => destruct (N.leb_spec b1 a); try (exfalso; lia) end.
  repeat match goal with |- context [N.eqb b1 ?a] => destruct (N.eqb_spec b1 a); try (exfalso; lia) end.
  cbn [andb orb]. rewrite !andb_false_r. split_and!; reflexivity.
Qed.

Lemma trim_start_printable c s : printable c = true → trim_start (String c s) = String c s.
Proof.
  intros Hc. cbn [trim_start].
  destruct (printable_not_ws c c c Hc) as (-> & _). destruct s as [|c2 s2]; [done|].
  destruct (printable_not_ws c c2 c2 Hc) as (_ & -> & _). destruct s2 as [|c3 s3]; [done|].
  by destruct (printable_not_ws c c2 c3 Hc) as (_ & _ & -> & _).
Qed.

Lemma trim_start_rev_printable c s : printable c = true → trim_start_rev (String c s) = String c s.
Proof.
  intros Hc. cbn [trim_start_rev].
  destruct (printable_not_ws c c c Hc) as (-> & _). destruct s as [|c2 s2]; [done|].
  destruct (printable_not_ws c c2 c2 Hc) as (_ & _ & _ & -> & _). destruct s2 as [|c3 s3]; [done|].
  by destruct (printable_not_ws c c2 c3 Hc) as (_ & _ & _ & _ & ->).
Qed.

(** A text that starts and ends with a printable word keeps its ends. *)
Lemma trim_words a s b : str_all printable a = true → a ≠ "" → str_all printable b = true → b ≠ "" →
  trim (a +:+ (s +:+ b)) = a +:+ (s +:+ b).
Proof.
  intros Ha Hane Hb Hbne. destruct a as [|c a]; [done|].
  apply andb_prop in Ha as [Hc _]. unfold trim, trim_end.
  rewrite str_app_cons, trim_start_printable, <-str_app_cons, !rev_app_distr by done.
  assert (∃ d b', String.rev b = String d b' ∧ printable d = true) as (d & b' & E & Hd).
  { rewrite <-str_all_rev in Hb. destruct (String.rev b) as [|d b'] eqn:E.
    - by rewrite <-(rev_involutive b), E in Hbne.
    - apply andb_prop in Hb as [Hd _]. by exists d, b'. }
  rewrite E, str_app_assoc, str_app_cons.
  rewrite trim_start_rev_printable by done.
  rewrite <-str_app_cons, <-E, <-str_app_assoc, <-!rev_app_distr, rev_involutive.
  reflexivity.
Qed.

Lemma trim_printable s : str_all printable s = true → trim s = s.
Proof.
  intros Hs. unfold trim, trim_end. rewrite <-str_all_rev in Hs.
  assert (trim_start s = s) as ->.
  { rewrite str_all_rev in Hs. destruct s as [|c s]; [done|].
    apply andb_prop in Hs as [Hc _]. by apply trim_start_printable. }
  destruct (String.rev s) as [|c s'] eqn:E; [by rewrite <-(rev_involutive s), E|].
  apply andb_prop in Hs as [Hc _]. rewrite trim_start_rev_printable, <-E by done.
  apply rev_involutive.
Qed.

Lemma split_once_first p a b : str_all (other_than p) a = true →
  split_once (String p "") (a +:+ String p b) = Some (a, b).
Proof.
  induction a as [|c a IH]; cbn [str_all].
  - intros _. rewrite str_app_nil. cbn [split_once strip_prefix]. by rewrite Ascii.eqb_refl.
  - intros [Hc Ha]%andb_prop. rewrite str_app_cons. cbn [split_once strip_prefix].
    unfold other_than in Hc. apply negb_true_iff in Hc. rewrite Hc, IH by done. done.
Qed.

Lemma split_once_other p s : str_all (other_than p) s = true → split_once (String p "") s = None.
Proof.
  induction s as [|c s IH]; cbn [str_all]; [done|].
  intros [Hc Hs]%andb_prop. cbn [split_once strip_prefix].
  unfold other_than in Hc. apply negb_true_iff in Hc. by rewrite Hc, IH.
Qed.

Lemma split_char_absent a s : str_all (other_than a) s = true → split_char a s = [s].
Proof.
  induction s as [|c s IH]; cbn [str_all split_char]; [done|].
  intros [Hc Hs]%andb_prop. unfold other_than in Hc. apply negb_true_iff in Hc. by rewrite Hc, IH.
Qed.

Lemma split_char_first a s t : str_all (other_than a) s = true →
  split_char a (s +:+ String a t) = s :: split_char a t.
Proof.
  induction s as [|c s IH]; cbn [str_all].
  - intros _. rewrite str_app_nil. cbn [split_char]. by rewrite Ascii.eqb_refl.
  - intros [Hc Hs]%andb_prop. rewrite str_app_cons. cbn [split_char].
    unfold other_than in Hc. apply negb_true_iff in Hc. by rewrite Hc, IH.
Qed.

Lemma split_char_joined a w ws : Forall (λ s, str_all (other_than a) s = true) (w :: ws) →
  split_char a (join_with (String a "") (w :: ws)) = w :: ws.
Proof.
  revert w. induction ws as [|w' ws IH]; intros w H.
  - apply Forall_cons in H as [H _]. by apply split_char_absent.
  - apply Forall_cons in H as [Hw H]. cbn [join_with]. cbn [join_with] in IH.
    rewrite str_app_cons, str_app_nil, split_char_first by done. f_equal. by apply IH.
Qed.

(** A separator is a space: what follows starts a new word. *)
Lemma split_whitespace_word cur w rest : str_all printable w = true →
  split_whitespace_go cur (w +:+ String " " rest) =
    (if is_empty (String.rev w +:+ cur) then [] else [String.rev cur +:+ w])
      ++ split_whitespace_go "" rest.
Proof.
  revert cur. induction w as [|c w IH]; intros cur; cbn [str_all].
  - intros _. rewrite str_app_nil, str_app_nil_r. cbn [split_whitespace_go].
    change (ws1 " ") with true. cbn iota. destruct cur; reflexivity.
  - intros [Hc Hw]%andb_prop. specialize (IH (String c cur) Hw).
    rewrite str_app_cons. cbn [split_whitespace_go].
    destruct (printable_not_ws c c c Hc) as (-> & _).
    assert (is_empty (String.rev (String c w) +:+ cur) = false) as ->.
    { rewrite rev_cons, str_app_assoc. destruct (String.rev w); reflexivity. }
    assert (is_empty (String.rev w +:+ String c cur) = false) as Hne.
    { destruct (String.rev w); reflexivity. }
    rewrite Hne, rev_cons, str_app_assoc in IH.
    change (String c "" +:+ w) with (String c w) in IH.
    destruct (w +:+ String " " rest) as [|c2 s2]; [exact IH|].
    destruct (printable_not_ws c c2 c2 Hc) as (_ & -> & _).
    destruct s2 as [|c3 s3]; [exact IH|].
    destruct (printable_not_ws c c2 c3 Hc) as (_ & _ & -> & _). exact IH.
Qed.

Lemma split_whitespace_joined w ws :
  Forall (λ s, str_all printable s = true ∧ s ≠ "") (w :: ws) →
  split_whitespace (join_with " " (w :: ws)) = w :: ws.
Proof.
  unfold split_whitespace. assert (∀ w, w ≠ "" → is_empty (String.rev w +:+ "") = false) as He.
  { intros [|c s]; [done|]. rewrite rev_cons, str_app_assoc. intros _. by destruct (String.rev s). }
  revert w. induction ws as [|w' ws IH]; intros w H.
  - apply Forall_cons in H as [[Hw Hne] _]. cbn [join_with].
    assert (∀ s cur, str_all printable s = true → split_whitespace_go cur s =
      if is_empty (String.rev s +:+ cur) then [] else [String.rev cur +:+ s]) as Hlast.
    { clear. induction s as [|c s IH]; intros cur; cbn [str_all].
      - intros _. rewrite str_app_nil_r. destruct cur; reflexivity.
      - intros [Hc Hs]%andb_prop. specialize (IH (String c cur) Hs). cbn [split_whitespace_go].
        destruct (printable_not_ws c c c Hc) as (-> & _).
        assert (is_empty (String.rev (String c s) +:+ cur) = false) as ->.
        { rewrite rev_cons, str_app_assoc. destruct (String.rev s); reflexivity. }
        assert (is_empty (String.rev s +:+ String c cur) = false) as Hne.
        { destruct (String.rev s); reflexivity. }
        rewrite Hne, rev_cons, str_app_assoc in IH.
    change (String c "" +:+ s) with (String c s) in IH.
        destruct s as [|c2 s2]; [exact IH|]. destruct (printable_not_ws c c2 c2 Hc) as (_ & -> & _).
        destruct s2 as [|c3 s3]; [exact IH|].
        destruct (printable_not_ws c c2 c3 Hc) as (_ & _ & -> & _). exact IH. }
    by rewrite Hlast, He.
  - apply Forall_cons in H as [[Hw Hne] H]. cbn [join_with].
    rewrite str_app_cons, str_app_nil, split_whitespace_word, He by done. cbn [app].
    f_equal. by apply IH.
Qed.

(** ** Lines *)

Definition newline : ascii := "010"%char.
Definition carriage_return : ascii := "013"%char.

Definition strip_cr (l : string) : string :=
  match strip_suffix (String carriage_return "") l with Some l' => l' | None => l end.

(** [str::lines]: a line ends at a line feed, with its carriage return; a last
    line without a line feed counts if it is not empty. *)
Definition lines (s : string) : list string :=
  let pieces := split_char newline s in
  let last := List.last pieces "" in
  map strip_cr (removelast pieces) ++ (if is_empty last then [] else [last]).

(** The text of lines, each ended by a line feed. *)
Fixpoint text_of_lines (ls : list string) : string :=
  match ls with
  | [] => ""
  | l :: ls => l +:+ String newline (text_of_lines ls)
  end.

(** A line of text: no line feed in it and no carriage return at its end. *)
Definition plain_line (l : string) : Prop :=
  str_all (other_than newline) l = true ∧ strip_cr l = l.

Lemma split_text_of_lines ls : Forall plain_line ls →
  split_char newline (text_of_lines ls) = ls ++ [""].
Proof.
  induction 1 as [|l ls [Hl _] _ IH]; [done|]. cbn [text_of_lines app].
  by rewrite split_char_first, IH.
Qed.

Lemma lines_text ls : Forall plain_line ls → lines (text_of_lines ls) = ls.
Proof.
  intros H. unfold lines. rewrite split_text_of_lines by done.
  rewrite removelast_last, last_last. cbn [is_empty]. rewrite app_nil_r.
  induction H as [|l ls [_ Hl] _ IH]; [done|]. cbn [map]. by rewrite Hl, IH.
Qed.

Lemma text_of_lines_app ls l : text_of_lines (ls ++ [l]) = text_of_lines ls +:+ (l +:+ String newline "").
Proof.
  induction ls as [|l' ls IH]; [done|]. cbn [text_of_lines app].
  by rewrite IH, str_app_assoc, str_app_cons.
Qed.

Lemma join_lines ls : ls ≠ [] → join_with (String newline "") ls +:+ String newline "" = text_of_lines ls.
Proof.
  induction ls as [|l ls IH]; [done|]. intros _. destruct ls as [|l' ls]; [done|].
  cbn [join_with text_of_lines] in *. rewrite str_app_cons, str_app_nil, str_app_assoc, str_app_cons.
  by rewrite IH.
Qed.

(** ** The text of a number *)

Lemma pretty_char_digit d : (d < 10)%N →
  is_ascii_digit (pretty_N_char d) = true ∧ digit_value (pretty_N_char d) = Z.of_N d.
Proof.
  intros Hd. assert (d ∈ [0; 1; 2; 3; 4; 5; 6; 7; 8; 9]%N) as Hin by (rewrite !elem_of_cons; lia).
  rewrite !elem_of_cons, elem_of_nil in Hin.
  repeat destruct Hin as [->|Hin]; try done.
Qed.

Lemma pretty_go_digits n s :
  str_all is_ascii_digit s = true →
  str_all is_ascii_digit (pretty_N_go n s) = true ∧
  parse_digits 0 (pretty_N_go n s) = parse_digits (Z.of_N n) s.
Proof.
  revert s. induction (N.lt_wf_0 n) as [n _ IH]; intros s Hs.
  destruct (decide (n = 0%N)) as [->|]; [by rewrite pretty_N_go_0|].
  rewrite pretty_N_go_step by lia.
  destruct (pretty_char_digit (n `mod` 10)%N) as [Hd Hv]; [by apply N.mod_lt|].
  destruct (IH (n `div` 10)%N (N.div_lt n 10 ltac:(lia) ltac:(lia)) (String (pretty_N_char (n `mod` 10)) s))
    as [H1 H2]; [by cbn [str_all]; rewrite Hd|].
  split; [done|]. rewrite H2. cbn [parse_digits]. rewrite Hd, Hv. f_equal.
  pose proof (N.div_mod n 10 ltac:(lia)). lia.
Qed.

Lemma show_Z_digits n : (0 <= n)%Z →
  str_all is_ascii_digit (show_Z n) = true ∧ show_Z n ≠ "" ∧ parse_digits 0 (show_Z n) = Some n.
Proof.
  intros Hn. unfold show_Z, pretty, pretty_Z. destruct n as [|p|p]; [done| |lia].
  unfold pretty, pretty_positive, pretty, pretty_N. rewrite decide_False by lia.
  destruct (pretty_go_digits (N.pos p) "" eq_refl) as [H1 H2].
  split; [done|]. split; [|done]. intros He. rewrite He in H2. by injection H2.
Qed.

Lemma parse_unsigned_show max n : (0 <= n <= max)%Z → parse_unsigned max (show_Z n) = Some n.
Proof.
  intros [Hn Hm]. destruct (show_Z_digits n Hn) as (Hd & Hne & Hp). unfold parse_unsigned.
  destruct (show_Z n) as [|c s]; [done|]. cbn [str_all] in Hd. apply andb_prop in Hd as [Hc _].
  assert (match String c s with String "+" r => r | _ => String c s end = String c s) as ->.
  { destruct (ascii_dec c "+") as [->|Hne']; [done|].
    destruct c as [[] [] [] [] [] [] [] []]; try done; by destruct Hne'. }
  rewrite Hp. cbn. by rewrite (proj2 (Z.leb_le _ _) Hm).
Qed.

(** ** A table as a textual form

    The examples' stand-in for a serializer of values without one: a value of
    the table is written as its position. *)
Section table.
Context {A : Type} `{EqDecision A} (l : list A).

Definition table_write (a : A) : string + string :=
  match list_find (λ a', a' = a) l with
  | Some (i, _) => inr (show_Z (Z.of_nat i))
  | None => inl "not in the table"
  end.
Definition table_read (text : string) : string + A :=
  match find (λ p : Z * A, String.eqb (show_Z p.1) text) (imap (λ i a, (Z.of_nat i, a)) l) with
  | Some (_, a) => inr a
  | None => inl "not in the table"
  end.

Lemma table_write_read a text : table_write a = inr text → table_read text = inr a.
Proof.
  unfold table_write, table_read. destruct (list_find (λ a', a' = a) l) as [[i a']|] eqn:Hf; [|done].
  apply list_find_Some in Hf as (Hi & -> & _). intros [= <-]. destruct (find _ _) as [[z a']|] eqn:He.
  - apply find_some in He as [Hz Heq]. apply String.eqb_eq in Heq. simpl in Heq.
    apply (inj _) in Heq as ->. apply list_elem_of_In, elem_of_lookup_imap in Hz as (j & a'' & [= Hij ->] & Hj).
    apply Nat2Z.inj in Hij as <-. congruence.
  - exfalso. eapply find_none in He; [|apply list_elem_of_In, elem_of_lookup_imap; by eexists _, _].
    simpl in He. by rewrite String.eqb_refl in He.
Qed.

Lemma table_write_elem a : a ∈ l → ∃ text, table_write a = inr text ∧ table_read text = inr a.
Proof.
  intros Hin. destruct (table_write a) as [e|text] eqn:Hw; [|eauto using table_write_read].
  unfold table_write in Hw. destruct (list_find (λ a', a' = a) l) as [[i a']|] eqn:Hf; [done|].
  apply list_find_None in Hf. rewrite Forall_forall in Hf. by destruct (Hf a).
Qed.
End table.

(** ** [char]s

    A [char] is the UTF-8 slice that encodes it, a [str] the sequence of its
    [char]s: what [chars()], [find] with a predicate and [trim_end_matches]
    work on.  The tables of Unicode (which code points are alphanumeric, what
    the lower case of a text is) are data of the standard library: a parameter,
    of which the ASCII part is known.  Nothing here maps to repository code. *)

Abbreviation char := string (only parsing).

Definition continues (ch : char) : bool :=
  match ch with String c _ => is_continuation c | "" => false end.

(** [str::chars], each as its slice: a continuation byte belongs to the byte
    before it. *)
Fixpoint chars (s : string) : list char :=
  match s with
  | "" => []
  | String c s =>
    match chars s with
    | [] => [String c ""]
    | ch :: cs => if continues ch then String c ch :: cs else String c "" :: ch :: cs
    end
  end.

Fixpoint text_of (cs : list char) : string :=
  match cs with [] => "" | c :: cs => c +:+ text_of cs end.

(** The first byte of a text starts a [char]. *)
Definition utf8_start (s : string) : bool := negb (continues s).

(** A slice that holds one [char]. *)
Definition one_char (ch : char) : bool :=
  match ch with
  | "" => false
  | String c rest => negb (is_continuation c) && str_all is_continuation rest
  end.

(** [char::is_whitespace] *)
Definition char_is_whitespace (ch : char) : bool :=
  match ch with
  | String c1 "" => ws1 c1
  | String c1 (String c2 "") => ws2 c1 c2
  | String c1 (String c2 (String c3 "")) => ws3 c1 c2 c3
  | _ => false
  end.

(** A [char] that is the byte [c], which satisfies [f]. *)
Definition char_sat (f : ascii → bool) (ch : char) : bool :=
  match ch with String c "" => f c | _ => false end.

Class Unicode := {
  is_alphanumeric : char → bool;
  to_lowercase : string → string }.
Class UnicodeAscii `{Unicode} := {
  ascii_alphanumeric c : N.ltb (byte_of c) 128 = true →
    is_alphanumeric (String c "") = is_ascii_alphanumeric c;
  ascii_lowercase s : str_all (λ c, N.ltb (byte_of c) 128) s = true →
    to_lowercase s = to_ascii_lowercase s }.

(** [str::split(|c| !c.is_alphanumeric())] of the [char]s, the pieces in order. *)
Fixpoint alphanumeric_runs `{Unicode} (cs : list char) (run : string) : list string :=
  match cs with
  | [] => [run]
  | c :: cs => if is_alphanumeric c then alphanumeric_runs cs (run +:+ c) else run :: alphanumeric_runs cs ""
  end.

(** [str::trim_start_matches] and [trim_end_matches] of a text: every pass
    removes one occurrence. *)
Fixpoint strip_all (fuel : nat) (pat s : string) : string :=
  match fuel with
  | O => s
  | S fuel => match strip_prefix pat s with Some rest => strip_all fuel pat rest | None => s end
  end.
Definition trim_start_matches (pat s : string) : string := strip_all (String.length s) pat s.
Definition trim_end_matches (pat s : string) : string :=
  String.rev (strip_all (String.length s) (String.rev pat) (String.rev s)).

(** [str::contains] of a text. *)
Definition contains_str (pat s : string) : bool :=
  match split_once pat s with Some _ => true | None => false end.

(** *** Prefixes of a list that satisfy a test *)

Section prefixes.
Context {A : Type} (f : A → bool).

Fixpoint take_while (l : list A) : list A :=
  match l with x :: l => if f x then x :: take_while l else [] | [] => [] end.
Fixpoint drop_while (l : list A) : list A :=
  match l with x :: l' => if f x then drop_while l' else l | [] => [] end.

Lemma take_drop_while l : take_while l ++ drop_while l = l.
Proof. induction l as [|x l IH]; [done|]. cbn. destruct (f x); [|done]. cbn. by f_equal. Qed.
Lemma take_while_all l : forallb f (take_while l) = true.
Proof. induction l as [|x l IH]; [done|]. cbn. destruct (f x) eqn:E; [|done]. cbn. by rewrite E. Qed.
Lemma drop_while_head l x l' : drop_while l = x :: l' → f x = false.
Proof.
  induction l as [|y l IH]; [done|]. cbn. destruct (f y) eqn:E; [done|]. by intros [= -> _].
Qed.
Lemma drop_while_length l : (length (drop_while l) ≤ length l)%nat.
Proof. induction l as [|x l IH]; cbn; [lia|]. destruct (f x); cbn; lia. Qed.
Lemma take_while_app l l' : forallb f l = true →
  match l' with x :: _ => f x = false | [] => True end → take_while (l ++ l') = l ∧ drop_while (l ++ l') = l'.
Proof.
  intros Hl Hx. induction l as [|y l IH].
  - destruct l' as [|x l']; [done|]. cbn. by rewrite Hx.
  - cbn in Hl. apply andb_prop in Hl as [Hy Hl]. destruct (IH Hl) as [Ht Hd]. cbn. rewrite Hy. by rewrite Ht, Hd.
Qed.
End prefixes.

(** *** The two views of a text agree *)

Lemma text_of_app cs cs' : text_of (cs ++ cs') = text_of cs +:+ text_of cs'.
Proof. induction cs as [|c cs IH]; [done|]. cbn [app text_of]. by rewrite IH, str_app_assoc. Qed.

Lemma text_of_chars s : text_of (chars s) = s.
Proof.
  induction s as [|c s IH]; [done|]. cbn [chars]. destruct (chars s) as [|ch cs]; cbn [text_of] in *.
  - by rewrite <-IH.
  - destruct (continues ch); cbn [text_of]; by rewrite <-IH.
Qed.

Lemma chars_head s : match chars s with [] => s = "" | ch :: _ => ch ≠ "" ∧ continues ch = continues s end.
Proof.
  destruct s as [|c s]; [done|]. cbn [chars]. destruct (chars s) as [|ch cs]; [done|].
  by destruct (continues ch).
Qed.

Lemma chars_tail s : Forall (λ ch, one_char ch = true) (drop 1 (chars s)) ∧
  match chars s with String _ rest :: _ => str_all is_continuation rest = true | _ => True end.
Proof.
  induction s as [|c s [IHt IHh]]; [done|]. cbn [chars]. pose proof (chars_head s) as Hh.
  destruct (chars s) as [|ch cs]; [done|]. destruct Hh as [Hne Hc]. cbn [drop] in IHt.
  destruct ch as [|d ch]; [done|]. cbn in IHh, IHt |- *.
  destruct (is_continuation d) eqn:E; cbn.
  - rewrite E, IHh. destruct cs; done.
  - split; [|done]. constructor; [|done]. cbn. by rewrite E, IHh.
Qed.

Lemma chars_one_char s : utf8_start s = true → Forall (λ ch, one_char ch = true) (chars s).
Proof.
  intros Hs. pose proof (chars_tail s) as [Ht Hh]. pose proof (chars_head s) as Hhd.
  destruct (chars s) as [|ch cs]; [done|]. destruct Hhd as [Hne Hc]. constructor; [|by cbn in Ht].
  unfold utf8_start in Hs. rewrite <-Hc in Hs. destruct ch as [|d ch]; [done|]. cbn in *. by rewrite Hs, Hh.
Qed.

Definition starts_char (cs : list char) : bool :=
  match cs with ch :: _ => negb (continues ch) | [] => true end.

Lemma chars_continuation d ch t : str_all is_continuation ch = true → starts_char (chars t) = true →
  chars (String d (ch +:+ t)) = String d ch :: chars t.
Proof.
  intros Hch Ht. revert d. induction ch as [|e ch IH]; intros d.
  - rewrite str_app_nil. cbn [chars]. destruct (chars t) as [|c cs]; [done|].
    cbn in Ht. apply negb_true_iff in Ht. by rewrite Ht.
  - cbn in Hch. apply andb_prop in Hch as [He Hch]. specialize (IH Hch e). rewrite str_app_cons.
    change (chars (String d (String e (ch +:+ t)))) with
      (match chars (String e (ch +:+ t)) with
       | [] => [String d ""]
       | c :: cs => if continues c then String d c :: cs else String d "" :: c :: cs
       end).
    rewrite IH. cbn. by rewrite He.
Qed.

Lemma chars_text_of cs : Forall (λ ch, one_char ch = true) cs → chars (text_of cs) = cs.
Proof.
  induction 1 as [|ch cs Hch Hcs IH]; [done|]. cbn [text_of]. destruct ch as [|d ch]; [done|].
  cbn in Hch. apply andb_prop in Hch as [_ Hch]. rewrite str_app_cons, chars_continuation; rewrite ?IH; try done.
  destruct Hcs as [|[|e c] cs Hc]; [done..|]. cbn in Hc |- *. by apply andb_prop in Hc as [He _].
Qed.

Lemma ascii_one_char c : is_continuation c = false → one_char (String c "") = true.
Proof. intros Hc. cbn. by rewrite Hc. Qed.

(** ** [String::from_utf8]: the byte strings that are text *)

Fixpoint utf8_valid (s : string) : bool :=
  match s with
  | "" => true
  | String a s =>
    if byte_in 0 127 a then utf8_valid s else
    match s with
    | "" => false
    | String b s =>
      if byte_in 194 223 a then is_continuation b && utf8_valid s else
      match s with
      | "" => false
      | String c s =>
        if byte_in 224 239 a then
          (if N.eqb (byte_of a) 224 then byte_in 160 191 b
           else if N.eqb (byte_of a) 237 then byte_in 128 159 b else is_continuation b)
          && is_continuation c && utf8_valid s
        else
        match s with
        | "" => false
        | String d s =>
          byte_in 240 244 a
          && (if N.eqb (byte_of a) 240 then byte_in 144 191 b
              else if N.eqb (byte_of a) 244 then byte_in 128 143 b else is_continuation b)
          && is_continuation c && is_continuation d && utf8_valid s
        end
      end
    end
  end.
Definition from_utf8 (bytes : string) : option string := if utf8_valid bytes then Some bytes else None.
Lemma from_utf8_valid s : utf8_valid s = true → from_utf8 s = Some s.
Proof. unfold from_utf8. by intros ->. Qed.
