(* ===== verification/F64.v ===== *)
(** * [f64]: IEEE-754 binary64 as the Standard Library's [spec_float]

    The arithmetic of the language's [f64] the sources use: conversions from
    and to integers, multiplication, addition, subtraction, comparison, [min], [powi],
    parsing and fixed-point formatting.  [spec_float] computes inside the
    kernel and has no NaN payload.  Nothing here maps to repository code. *)
From stdpp Require Import base tactics list numbers strings pretty.
From Stdlib Require Import Lia ZArith Ascii SpecFloat.
From S2P Require Import Prelude.
From S2P Require Import RustStr.
Local Open Scope Z_scope.

Notation f64 := spec_float.

Definition prec64 : Z := 53.
Definition emax64 : Z := 1024.

Definition f64_round (s : bool) (m : positive) (e : Z) : f64 :=
  binary_round prec64 emax64 s m e.
(** [n as f64] of an integer: round to nearest, ties to even. *)
Definition f64_of_Z (z : Z) : f64 := binary_normalize prec64 emax64 z 0 false.
Definition f64_zero : f64 := S754_zero false.
Definition f64_one : f64 := f64_of_Z 1.
Definition f64_add : f64 → f64 → f64 := SFadd prec64 emax64.
Definition f64_sub : f64 → f64 → f64 := SFsub prec64 emax64.
Definition f64_mul : f64 → f64 → f64 := SFmul prec64 emax64.
Definition f64_div : f64 → f64 → f64 := SFdiv prec64 emax64.
Definition f64_eqb : f64 → f64 → bool := SFeqb.
Definition f64_ltb : f64 → f64 → bool := SFltb.
Definition f64_leb : f64 → f64 → bool := SFleb.
Definition f64_is_nan (x : f64) : bool :=
  match x with S754_nan => true | _ => false end.
Definition f64_is_finite (x : f64) : bool :=
  match x with S754_zero _ | S754_finite _ _ _ => true | _ => false end.

(** [f64::min]: the other operand when one is NaN. *)
Definition f64_min (x y : f64) : f64 :=
  if f64_is_nan x then y else if f64_is_nan y then x
  else if f64_ltb y x then y else x.

(** The integer part of a magnitude [m * 2^e]. *)
Definition f64_trunc_abs (m : positive) (e : Z) : Z :=
  if Z.leb 0 e then Z.pos m * 2 ^ e else Z.pos m / 2 ^ (- e).

(** [x as u64]: truncation, saturating at the bounds, NaN to 0. *)
Definition f64_to_u64 (x : f64) : Z :=
  match x with
  | S754_nan | S754_zero _ => 0
  | S754_infinity s => if s then 0 else u64_max
  | S754_finite true _ _ => 0
  | S754_finite false m e => Z.min (f64_trunc_abs m e) u64_max
  end.

(** [Duration::as_secs_f64] of a duration in nanoseconds. *)
Definition as_secs_f64 (ns : Z) : f64 :=
  f64_add (f64_of_Z (ns / 10 ^ 9)) (f64_div (f64_of_Z (ns mod 10 ^ 9)) (f64_of_Z (10 ^ 9))).
(** [Duration::from_secs_f64] in nanoseconds, to nearest, ties to even; [None]
    where it panics: negative, not a number, or too long. *)
Definition from_secs_f64 (x : f64) : option Z :=
  match x with
  | S754_zero _ => Some 0
  | S754_finite false m e =>
    let ns :=
      if Z.leb 0 e then Z.pos m * 2 ^ e * 10 ^ 9
      else
        let q := Z.pos m * 10 ^ 9 / 2 ^ (- e) in
        let r := Z.pos m * 10 ^ 9 mod 2 ^ (- e) in
        if Z.ltb (2 * r) (2 ^ (- e)) then q
        else if Z.eqb (2 * r) (2 ^ (- e)) && Z.even q then q
        else q + 1 in
    if Z.ltb (ns / 10 ^ 9) (2 ^ 64) then Some ns else None
  | _ => None
  end.

(** [n as i32] of a [u32]. *)
Definition u32_as_i32 (n : Z) : Z := if Z.ltb n (2 ^ 31) then n else n - 2 ^ 32.

(** [f64::powi]: the runtime's repeated squaring (compiler-rt [__powidf2]);
    [p] is the magnitude of the exponent, low bit first. *)
Fixpoint f64_pow_pos (r a : f64) (p : positive) : f64 :=
  match p with
  | xH => f64_mul r a
  | xO p => f64_pow_pos r (f64_mul a a) p
  | xI p => f64_pow_pos (f64_mul r a) (f64_mul a a) p
  end.
Definition f64_powi (a : f64) (b : Z) : f64 :=
  match b with
  | Z0 => f64_one
  | Zpos p => f64_pow_pos f64_one a p
  | Zneg p => f64_div f64_one (f64_pow_pos f64_one a p)
  end.

(** The float nearest to the ratio [n / d]. *)
Definition float_of_ratio (prec emax : Z) (s : bool) (n d : Z) : spec_float :=
  match n with
  | Z0 => S754_zero s
  | _ =>
    let '(q, e, l) := SFdiv_core_binary prec emax n 0 d 0 in
    binary_round_aux prec emax s q e l
  end.
Definition f64_of_ratio : bool → Z → Z → f64 := float_of_ratio prec64 emax64.

(** [str::parse::<f64>()]: sign, then [inf]/[infinity]/[nan] in any case, or
    digits with an optional point and exponent. *)
Definition parse_sign (s : string) : bool * string :=
  match s with
  | String "+"%char r => (false, r)
  | String "-"%char r => (true, r)
  | _ => (false, s)
  end.

Fixpoint take_digits (s : string) : string * string :=
  match s with
  | String c r =>
    if is_ascii_digit c then prod_map (String c) id (take_digits r) else ("", s)
  | "" => ("", s)
  end.

Definition parse_exponent (s : string) : option Z :=
  match s with
  | "" => Some 0
  | String c r =>
    if Ascii.eqb (ascii_lower c) "e"%char then
      let '(neg, ds) := parse_sign r in
      if is_empty ds then None
      else n ← parse_digits 0 ds; Some (if (neg : bool) then - n else n)
    else None
  end.

(** The decimal [digits * 10^e], correctly rounded.  Past the clamps the result
    is an infinity or a zero whatever the exponent, since the digits are fewer
    than the bytes of the text. *)
Definition float_of_decimal (prec emax : Z) (neg : bool) (digits : Z) (ndigits e : Z) : spec_float :=
  if Z.eqb digits 0 then S754_zero neg
  else if Z.ltb 400 e then S754_infinity neg
  else if Z.ltb e (- (ndigits + 400)) then S754_zero neg
  else if Z.leb 0 e then float_of_ratio prec emax neg (digits * 10 ^ e) 1
  else float_of_ratio prec emax neg digits (10 ^ (- e)).
Definition f64_of_decimal : bool → Z → Z → Z → f64 := float_of_decimal prec64 emax64.

Definition parse_float (prec emax : Z) (s : string) : option spec_float :=
  let '(neg, body) := parse_sign s in
  let low := to_ascii_lowercase body in
  if bool_decide (low = "inf") || bool_decide (low = "infinity")
  then Some (S754_infinity neg)
  else if bool_decide (low = "nan") then Some S754_nan
  else
    let '(ip, rest) := take_digits body in
    let '(fp, rest) :=
      match rest with
      | String "."%char r => take_digits r
      | _ => ("", rest)
      end in
    if is_empty ip && is_empty fp then None
    else
      e ← parse_exponent rest;
      n ← parse_digits 0 (ip +:+ fp);
      Some (float_of_decimal prec emax neg n (str_len ip + str_len fp) (e - str_len fp)).
Definition parse_f64 : string → option f64 := parse_float prec64 emax64.

(** [{:.k}]: the exact value rounded to [k] decimals, ties to even. *)
Definition round_half_even (n d : Z) : Z :=
  let q := n / d in
  let r := n mod d in
  match Z.compare (2 * r) d with
  | Lt => q
  | Gt => q + 1
  | Eq => if Z.even q then q else q + 1
  end.

Definition show_scaled (neg : bool) (k : nat) (n : Z) : string :=
  let ip := n / 10 ^ Z.of_nat k in
  let fp := n mod 10 ^ Z.of_nat k in
  let digits := show_Z fp in
  let zeros := Z.to_nat (Z.of_nat k - str_len digits) in
  (if neg then "-" else "") +:+ show_Z ip
  +:+ (match k with O => "" | _ => "." +:+ Nat.iter zeros (String "0"%char) digits end).

Definition show_f64_fixed (k : nat) (x : f64) : string :=
  match x with
  | S754_nan => "NaN"
  | S754_infinity s => if s then "-inf" else "inf"
  | S754_zero s => show_scaled s k 0
  | S754_finite s m e =>
    let p := 10 ^ Z.of_nat k in
    show_scaled s k
      (if Z.leb 0 e then Z.pos m * 2 ^ e * p
       else round_half_even (Z.pos m * p) (2 ^ (- e)))
  end.

(** [{}]: the shortest decimal that reads back as the float, the nearest one to
    it among those of that length, without exponent.  [n / d] is the float's
    magnitude; [k] is the position of its first digit. *)
Definition decimal_near (n d s : Z) (x : f64) : option Z :=
  let v := if Z.leb 0 s then n * 10 ^ s else n in
  let w := if Z.leb 0 s then d else d * 10 ^ (- s) in
  let lo := v / w in
  let reads c := f64_eqb (f64_of_decimal false c (str_len (show_Z c)) (- s)) x in
  match reads lo, reads (lo + 1) with
  | true, true => Some (round_half_even v w)
  | true, false => Some lo
  | false, true => Some (lo + 1)
  | false, false => None
  end.

Fixpoint shortest_decimal (fuel : nat) (n d s : Z) (x : f64) : Z * Z :=
  match fuel with
  | O => (0, s)
  | S fuel =>
    match decimal_near n d s x with
    | Some c => (c, s)
    | None => shortest_decimal fuel n d (s + 1) x
    end
  end.

Definition show_decimal (c s : Z) : string :=
  if Z.leb s 0 then show_Z (c * 10 ^ (- s)) else show_scaled false (Z.to_nat s) c.

Definition show_f64 (x : f64) : string :=
  match x with
  | S754_nan => "NaN"
  | S754_infinity s => if s then "-inf" else "inf"
  | S754_zero s => if s then "-0" else "0"
  | S754_finite s m e =>
    let n := if Z.leb 0 e then Z.pos m * 2 ^ e else Z.pos m in
    let d := if Z.leb 0 e then 1 else 2 ^ (- e) in
    let k := str_len (show_Z (n * 10 ^ 330 / d)) - 330 in
    let '(c, sc) := shortest_decimal 18 n d (1 - k) (S754_finite false m e) in
    (if s then "-" else "") +:+ show_decimal c sc
  end.

(** ** Truncation is monotone, and exact on small integers *)

(** The value scaled by a common power of two orders like the float. *)
Definition f64_valid (x : f64) : bool := valid_binary prec64 emax64 x.

Lemma f64_to_u64_bounds x : is_u64 (f64_to_u64 x).
Proof.
  unfold f64_to_u64. destruct x as [s|[]| |[] m e]; unfold_ints; try lia.
  assert (0 <= f64_trunc_abs m e); [|lia].
  unfold f64_trunc_abs. destruct (Z.leb_spec 0 e).
  - apply Z.mul_nonneg_nonneg; [lia|]. apply Z.pow_nonneg; lia.
  - apply Z.div_pos; [lia|]. apply Z.pow_pos_nonneg; lia.
Qed.

(** *** Digits and shifts *)

Lemma digits2_pos_bounds p :
  2 ^ (Z.pos (digits2_pos p) - 1) <= Z.pos p < 2 ^ Z.pos (digits2_pos p).
Proof.
  induction p as [p IH|p IH|]; simpl digits2_pos; [| |by vm_compute];
    rewrite Pos2Z.inj_succ;
    replace (Z.succ (Z.pos (digits2_pos p)) - 1) with (Z.succ (Z.pos (digits2_pos p) - 1)) by lia;
    rewrite !Z.pow_succ_r by lia; lia.
Qed.

Lemma Zdigits2_bounds m :
  0 < m → 2 ^ (Zdigits2 m - 1) <= m < 2 ^ Zdigits2 m.
Proof. destruct m; try lia. intros _. apply digits2_pos_bounds. Qed.

Lemma Zdigits2_unique m d :
  0 < d → 2 ^ (d - 1) <= m < 2 ^ d → Zdigits2 m = d.
Proof.
  intros Hd [Hlo Hhi].
  assert (0 < m) as Hm by (pose proof (Z.pow_pos_nonneg 2 (d - 1)); lia).
  destruct (Zdigits2_bounds m Hm) as [Hlo' Hhi'].
  assert (Zdigits2 m - 1 < d) by (apply (Z.pow_lt_mono_r_iff 2); lia).
  assert (0 < Zdigits2 m) by (destruct m; simpl; lia).
  assert (d - 1 < Zdigits2 m) by (apply (Z.pow_lt_mono_r_iff 2); lia).
  lia.
Qed.

Lemma shr_1_m mrs : 0 <= shr_m mrs → shr_m (shr_1 mrs) = shr_m mrs / 2.
Proof.
  destruct mrs as [m r s]; simpl. intros Hm. rewrite <-Z.div2_div.
  destruct m as [|p|p]; [done| |lia]. by destruct p.
Qed.

Lemma iter_pos_shr_1 p mrs :
  0 <= shr_m mrs →
  shr_m (iter_pos shr_1 p mrs) = shr_m mrs / 2 ^ Z.pos p.
Proof.
  revert mrs. induction p as [p IH|p IH|]; intros mrs Hm; simpl.
  - assert (0 <= shr_m (shr_1 mrs)) by (rewrite shr_1_m; [apply Z.div_pos|]; lia).
    rewrite IH by (rewrite IH; [apply Z.div_pos; lia|done]).
    rewrite IH, shr_1_m by done.
    rewrite !Z.div_div by lia. f_equal.
    replace (Z.pos p~1) with (1 + (Z.pos p + Z.pos p)) by lia.
    rewrite !Z.pow_add_r by lia. lia.
  - rewrite IH by (rewrite IH; [apply Z.div_pos; lia|done]).
    rewrite IH, !Z.div_div by lia. f_equal.
    replace (Z.pos p~0) with (Z.pos p + Z.pos p) by lia.
    by rewrite Z.pow_add_r by lia.
  - rewrite shr_1_m by done. by rewrite Z.pow_1_r.
Qed.

Lemma shr_record_of_loc_m m l : shr_m (shr_record_of_loc m l) = m.
Proof. by destruct l as [|[]]. Qed.

(** After a [shr_fexp] the mantissa has at most 53 digits. *)
Lemma shr_fexp_digits m e l mrs e' :
  0 <= m → shr_fexp prec64 emax64 m e l = (mrs, e') → 0 <= shr_m mrs < 2 ^ 53.
Proof.
  unfold shr_fexp. intros Hm.
  set (n := fexp prec64 emax64 (Zdigits2 m + e) - e).
  assert (Zdigits2 m - 53 <= n) as Hn.
  { unfold n, fexp, prec64. lia. }
  assert (m < 2 ^ (Z.max n 0 + 53)) as Hlt.
  { destruct (decide (m = 0)) as [->|].
    - apply Z.pow_pos_nonneg; lia.
    - destruct (Zdigits2_bounds m) as [_ H]; [lia|]. eapply Z.lt_le_trans; [done|].
      apply Z.pow_le_mono_r; lia. }
  unfold shr. destruct n as [|p|p] eqn:Hp; intros [= <- <-].
  - rewrite shr_record_of_loc_m. done.
  - rewrite iter_pos_shr_1, shr_record_of_loc_m by (rewrite shr_record_of_loc_m; done).
    split; [apply Z.div_pos; lia|]. apply Z.div_lt_upper_bound; [lia|].
    rewrite <-Z.pow_add_r by lia. by replace (Z.max (Z.pos p) 0) with (Z.pos p) in Hlt by lia.
  - rewrite shr_record_of_loc_m. done.
Qed.

Lemma round_nearest_even_nonneg m l : 0 <= m → 0 <= round_nearest_even m l.
Proof. destruct l as [|[]]; simpl; try lia. destruct (Z.even m); lia. Qed.

(** Every rounded float has a mantissa of at most 53 digits. *)
Lemma binary_round_aux_digits sx mx ex lx s m e :
  0 <= mx → binary_round_aux prec64 emax64 sx mx ex lx = S754_finite s m e →
  Z.pos m < 2 ^ 53.
Proof.
  unfold binary_round_aux. intros Hmx.
  destruct (shr_fexp _ _ mx ex lx) as [mrs e1] eqn:H1.
  pose proof (shr_fexp_digits _ _ _ _ _ Hmx H1) as [Hm1 _].
  destruct (shr_fexp _ _ (round_nearest_even _ _) e1 loc_Exact) as [mrs' e2] eqn:H2.
  pose proof (shr_fexp_digits _ _ _ _ _ (round_nearest_even_nonneg _ _ Hm1) H2) as [Hm2 Hm2'].
  destruct (shr_m mrs') as [|p|p]; try done.
  destruct (e2 <=? emax64 - prec64); intros; by simplify_eq.
Qed.

(** A float whose mantissa fits 53 digits (every result of an operation). *)
Definition f64_fits (x : f64) : Prop :=
  match x with S754_finite _ m _ => Z.pos m < 2 ^ 53 | _ => True end.

Lemma pos_iter_xO mx d : Z.pos (Pos.iter xO mx d) = Z.pos mx * 2 ^ Z.pos d.
Proof.
  induction d as [|d IH] using Pos.peano_ind.
  - simpl. lia.
  - rewrite Pos.iter_succ, Pos2Z.inj_succ, Z.pow_succ_r by lia. lia.
Qed.

Lemma binary_round_fits s m e : f64_fits (binary_round prec64 emax64 s m e).
Proof.
  unfold binary_round. destruct (shl_align _ _ _) as [mz ez].
  destruct (binary_round_aux _ _ _ _ _ _) as [| | |s' m' e'] eqn:E; try done.
  simpl. eapply binary_round_aux_digits; [|done]. lia.
Qed.

Lemma f64_of_Z_fits z : f64_fits (f64_of_Z z).
Proof. destruct z; [done|apply binary_round_fits..]. Qed.

Lemma f64_mul_fits x y : f64_fits (f64_mul x y).
Proof.
  unfold f64_mul, SFmul. destruct x as [| | |sx mx ex], y as [| | |sy my ey]; try done.
  destruct (binary_round_aux _ _ _ _ _ _) as [| | |s' m' e'] eqn:E; try done.
  simpl. eapply binary_round_aux_digits; [|done]. lia.
Qed.

(** *** Integers up to [2^53] are exact *)

Lemma shr_fexp_exact m e :
  Zdigits2 m = 53 → fexp prec64 emax64 (53 + e) = e →
  shr_fexp prec64 emax64 m e loc_Exact = (Build_shr_record m false false, e).
Proof. intros Hd Hf. unfold shr_fexp. by rewrite Hd, Hf, Z.sub_diag. Qed.

Lemma f64_of_Z_exact z :
  0 < z < 2 ^ 53 →
  ∃ m e, f64_of_Z z = S754_finite false m e ∧ -53 < e <= 0 ∧
    2 ^ 52 <= Z.pos m ∧ Z.pos m = z * 2 ^ (- e).
Proof.
  intros Hz. destruct z as [|p|p]; try lia.
  set (d := Z.pos (digits2_pos p)).
  destruct (digits2_pos_bounds p) as [Hlo Hhi]. fold d in Hlo, Hhi.
  assert (0 < d <= 53) as Hd.
  { split; [done|]. assert (d - 1 < 53); [|lia]. apply (Z.pow_lt_mono_r_iff 2); lia. }
  assert (fexp prec64 emax64 (d + 0) = d - 53) as Hfexp.
  { unfold fexp, prec64, emax64, emin. lia. }
  assert (∃ mz, shl_align p 0 (d - 53) = (mz, d - 53) ∧ Z.pos mz = Z.pos p * 2 ^ (53 - d))
    as (mz & Hshl & Hmz).
  { unfold shl_align. rewrite Z.sub_0_r. destruct (d - 53) as [|q|q] eqn:Hq; [|lia|].
    - exists p. split; [done|]. replace (53 - d) with 0 by lia. lia.
    - exists (Pos.iter xO p q). split; [done|]. rewrite pos_iter_xO. repeat f_equal. lia. }
  assert (2 ^ 52 <= Z.pos mz < 2 ^ 53) as Hmzb.
  { rewrite Hmz. replace (2 ^ 53) with (2 ^ d * 2 ^ (53 - d)) by (rewrite <-Z.pow_add_r; f_equal; lia).
    replace (2 ^ 52) with (2 ^ (d - 1) * 2 ^ (53 - d)) by (rewrite <-Z.pow_add_r; f_equal; lia).
    pose proof (Z.pow_pos_nonneg 2 (53 - d)). nia. }
  exists mz, (d - 53). split; [|split; [lia|split; [lia|rewrite Hmz; repeat f_equal; lia]]].
  unfold f64_of_Z, binary_normalize, binary_round. fold d. rewrite Hfexp, Hshl.
  assert (Zdigits2 (Z.pos mz) = 53) as Hdz by (apply Zdigits2_unique; lia).
  assert (fexp prec64 emax64 (53 + (d - 53)) = d - 53) as Hf2
    by (rewrite <-Hfexp; f_equal; lia).
  unfold binary_round_aux. rewrite shr_fexp_exact by done. simpl loc_of_shr_record.
  simpl shr_m. unfold round_nearest_even. rewrite shr_fexp_exact by done. simpl shr_m.
  destruct (Z.leb_spec (d - 53) (emax64 - prec64)); [done|]. unfold emax64, prec64 in *. lia.
Qed.

Lemma f64_of_Z_2p53 : f64_of_Z (2 ^ 53) = S754_finite false (2 ^ 52) 1.
Proof. by vm_compute. Qed.

Lemma f64_of_Z_normal z :
  0 < z <= 2 ^ 53 →
  ∃ m e, f64_of_Z z = S754_finite false m e ∧ 2 ^ 52 <= Z.pos m ∧ f64_trunc_abs m e = z.
Proof.
  intros Hz. destruct (decide (z = 2 ^ 53)) as [->|].
  - eexists _, _. split; [apply f64_of_Z_2p53|]. by vm_compute.
  - destruct (f64_of_Z_exact z) as (m & e & -> & He & Hm & Hme); [lia|].
    exists m, e. split; [done|split; [done|]]. unfold f64_trunc_abs.
    destruct (Z.leb_spec 0 e).
    + assert (e = 0) as -> by lia. simpl in Hme. lia.
    + rewrite Hme, Z.div_mul; [done|]. apply Z.pow_nonzero; lia.
Qed.

Lemma f64_to_u64_of_Z z : 0 <= z <= 2 ^ 53 → f64_to_u64 (f64_of_Z z) = z.
Proof.
  intros Hz. destruct (decide (z = 0)) as [->|]; [done|].
  destruct (f64_of_Z_normal z) as (m & e & -> & _ & Ht); [lia|].
  simpl. rewrite Ht. unfold_ints. lia.
Qed.

(** *** Comparison against a normal number bounds the truncation *)

Lemma f64_trunc_abs_nonneg m e : 0 <= f64_trunc_abs m e.
Proof.
  unfold f64_trunc_abs. destruct (Z.leb_spec 0 e).
  - apply Z.mul_nonneg_nonneg; [lia|apply Z.pow_nonneg; lia].
  - apply Z.div_pos; [lia|apply Z.pow_pos_nonneg; lia].
Qed.

Lemma f64_trunc_abs_mono (m1 m2 : positive) e : Z.pos m1 <= Z.pos m2 → f64_trunc_abs m1 e <= f64_trunc_abs m2 e.
Proof.
  intros H. unfold f64_trunc_abs. destruct (Z.leb_spec 0 e).
  - apply Z.mul_le_mono_nonneg_r; [apply Z.pow_nonneg|]; lia.
  - apply Z.div_le_mono; [apply Z.pow_pos_nonneg|]; lia.
Qed.

Lemma f64_trunc_abs_lower_exp m1 e1 m2 e2 :
  Z.pos m1 < 2 ^ 53 → 2 ^ 52 <= Z.pos m2 → e1 < e2 →
  f64_trunc_abs m1 e1 <= f64_trunc_abs m2 e2.
Proof.
  intros H1 H2 He.
  assert (Z.pos m1 <= Z.pos m2 * 2 ^ (e2 - e1)) as Hm.
  { transitivity (2 ^ 52 * 2 ^ 1); [lia|].
    apply Z.mul_le_mono_nonneg; [lia..|]. apply Z.pow_le_mono_r; lia. }
  unfold f64_trunc_abs. destruct (Z.leb_spec 0 e1), (Z.leb_spec 0 e2); try lia.
  - replace (2 ^ e2) with (2 ^ (e2 - e1) * 2 ^ e1) by (rewrite <-Z.pow_add_r; f_equal; lia).
    pose proof (Z.pow_nonneg 2 e1). nia.
  - apply Z.div_le_upper_bound; [apply Z.pow_pos_nonneg; lia|].
    replace (2 ^ (- e1) * (Z.pos m2 * 2 ^ e2)) with (Z.pos m2 * 2 ^ (e2 - e1));
      [done|].
    replace (e2 - e1) with (- e1 + e2) by lia. rewrite Z.pow_add_r by lia. lia.
  - replace (- e1) with (- e2 + (e2 - e1)) by lia.
    rewrite Z.pow_add_r by lia.
    rewrite Z.mul_comm, <-Z.div_div by (try apply Z.pow_nonzero; try apply Z.pow_pos_nonneg; lia).
    apply Z.div_le_mono; [apply Z.pow_pos_nonneg; lia|].
    apply Z.div_le_upper_bound; [apply Z.pow_pos_nonneg; lia|]. lia.
Qed.

Lemma f64_min_le_normal x z :
  f64_fits x → 0 <= z <= 2 ^ 53 → f64_to_u64 (f64_min x (f64_of_Z z)) <= z.
Proof.
  intros Hx Hz. pose proof (f64_to_u64_of_Z z Hz) as Hu.
  unfold f64_min. destruct (f64_is_nan x) eqn:Hnan; [lia|].
  destruct (f64_is_nan (f64_of_Z z)) eqn:Hnan'.
  { destruct (decide (z = 0)) as [->|]; [done|].
    destruct (f64_of_Z_normal z) as (? & ? & Hn & _); [lia|]. by rewrite Hn in Hnan'. }
  destruct (f64_ltb (f64_of_Z z) x) eqn:Hlt; [lia|].
  destruct x as [s|s| |[] m e]; try done; simpl; try lia.
  - (* infinity *) destruct s; [lia|]. exfalso. revert Hlt. unfold f64_ltb, SFltb.
    destruct (decide (z = 0)) as [->|]; [done|].
    destruct (f64_of_Z_normal z) as (? & ? & -> & _); [lia|]. done.
  - revert Hlt. unfold f64_ltb, SFltb.
    destruct (decide (z = 0)) as [->|]; [done|].
    destruct (f64_of_Z_normal z) as (m' & e' & -> & Hm' & Ht); [lia|]. simpl.
    rewrite <-Ht. intros Hlt. etransitivity; [apply Z.le_min_l|].
    destruct (Z.compare_spec e' e) as [->|He|He]; [|done|by apply f64_trunc_abs_lower_exp].
    apply f64_trunc_abs_mono. rewrite Pos.compare_cont_spec in Hlt.
    destruct (Pos.compare_spec m' m); simpl in *; try done; lia.
Qed.

(** *** Comparison of small integers *)

Lemma f64_of_Z_scaled z :
  0 < z <= 2 ^ 53 →
  ∃ m e, f64_of_Z z = S754_finite false m e ∧ -53 < e ∧
    2 ^ 52 <= Z.pos m < 2 ^ 53 ∧ Z.pos m * 2 ^ (e + 53) = z * 2 ^ 53.
Proof.
  intros Hz. destruct (decide (z = 2 ^ 53)) as [->|].
  - eexists _, _. split; [apply f64_of_Z_2p53|]. by vm_compute.
  - destruct (f64_of_Z_exact z) as (m & e & Heq & He & Hm & Hme); [lia|].
    exists m, e. pose proof (f64_of_Z_fits z) as Hf. rewrite Heq in Hf.
    split; [done|split; [lia|split; [done|]]]. rewrite Hme, <-Z.mul_assoc, <-Z.pow_add_r by lia.
    repeat f_equal. lia.
Qed.

Lemma f64_ltb_of_Z a b :
  0 <= a <= 2 ^ 53 → 0 <= b <= 2 ^ 53 → f64_ltb (f64_of_Z a) (f64_of_Z b) = Z.ltb a b.
Proof.
  intros Ha Hb. destruct (decide (a = 0)) as [->|], (decide (b = 0)) as [->|]; [done| | |].
  - destruct (f64_of_Z_scaled b) as (m & e & -> & _); [lia|].
    symmetry. apply Z.ltb_lt. lia.
  - destruct (f64_of_Z_scaled a) as (m & e & -> & _); [lia|].
    symmetry. apply Z.ltb_ge. lia.
  - destruct (f64_of_Z_scaled a) as (m & e & -> & He & [Hm1 Hm2] & Hv); [lia|].
    destruct (f64_of_Z_scaled b) as (m' & e' & -> & He' & [Hm1' Hm2'] & Hv'); [lia|].
    unfold f64_ltb, SFltb. simpl.
    assert (∀ (m m' : Z) e e', -53 < e → e < e' → m < 2 ^ 53 → 2 ^ 52 <= m' →
      m * 2 ^ (e + 53) < m' * 2 ^ (e' + 53)) as Hexp.
    { intros k k' f f' ? Hf Hn Hn'. pose proof (Z.pow_pos_nonneg 2 (f + 53)).
      apply Z.lt_le_trans with (2 ^ 53 * 2 ^ (f + 53)); [nia|].
      rewrite <-Z.pow_add_r by lia.
      transitivity (2 ^ 52 * 2 ^ (f' + 53)); [rewrite <-Z.pow_add_r by lia; apply Z.pow_le_mono_r; lia|].
      pose proof (Z.pow_pos_nonneg 2 (f' + 53)). nia. }
    destruct (Z.compare_spec e e') as [->|Hlt|Hgt].
    + rewrite Pos.compare_cont_spec. pose proof (Z.pow_pos_nonneg 2 (e' + 53)).
      destruct (Pos.compare_spec m m') as [->|Hc|Hc]; simpl; symmetry;
        [apply Z.ltb_ge|apply Z.ltb_lt|apply Z.ltb_ge]; nia.
    + symmetry. apply Z.ltb_lt. pose proof (Hexp (Z.pos m) (Z.pos m') e e'). nia.
    + symmetry. apply Z.ltb_ge. pose proof (Hexp (Z.pos m') (Z.pos m) e' e). nia.
Qed.

Lemma f64_of_Z_not_nan z : f64_is_nan (f64_of_Z z) = false ∨ 2 ^ 53 < Z.abs z.
Proof.
  destruct (Z.le_gt_cases (Z.abs z) (2 ^ 53)); [left|by right].
  destruct (decide (z = 0)) as [->|]; [done|].
  destruct (decide (0 < z)).
  - destruct (f64_of_Z_scaled z) as (m & e & -> & _); [lia|done].
  - destruct z as [|p|p]; try lia.
    destruct (f64_of_Z_scaled (Z.pos p)) as (m & e & Hp & _); [lia|].
    unfold f64_of_Z, binary_normalize, binary_round in *.
    destruct (shl_align _ _ _) as [mz ez].
    unfold binary_round_aux in *.
    destruct (shr_fexp _ _ (Z.pos mz) ez loc_Exact).
    destruct (shr_fexp _ _ (round_nearest_even _ _) _ loc_Exact).
    destruct (shr_m _); try done. by destruct (_ <=? _).
Qed.

Lemma f64_min_of_Z a b :
  0 <= a <= 2 ^ 53 → 0 <= b <= 2 ^ 53 →
  f64_min (f64_of_Z a) (f64_of_Z b) = f64_of_Z (Z.min a b).
Proof.
  intros Ha Hb. unfold f64_min.
  destruct (f64_of_Z_not_nan a) as [->|]; [|lia].
  destruct (f64_of_Z_not_nan b) as [->|]; [|lia].
  rewrite f64_ltb_of_Z by done. destruct (Z.ltb_spec b a); f_equal; lia.
Qed.

Example show_f64_examples :
  map (λ t, show_f64 <$> parse_f64 t)
    ["0.1"; "-2.50"; "1e21"; "5.684341886080802e-14"; "100"; "5e-324"; "0.3"] =
  map Some ["0.1"; "-2.5"; "1000000000000000000000"; "0.00000000000005684341886080802";
    "100"; "0." +:+ Nat.iter 323 (String "0"%char) "5"; "0.3"].
Proof. by vm_compute. Qed.

(** ** [f32]: IEEE-754 binary32 as the Standard Library's [spec_float]

    The operations on vectors of [f32] the sources use.  Nothing here maps to
    repository code. *)

Notation f32 := spec_float.
Definition prec32 : Z := 24.
Definition emax32 : Z := 128.
Definition f32_zero : f32 := S754_zero false.
Definition f32_of_Z (z : Z) : f32 := binary_normalize prec32 emax32 z 0 false.
Definition f32_add : f32 → f32 → f32 := SFadd prec32 emax32.
Definition f32_mul : f32 → f32 → f32 := SFmul prec32 emax32.
Definition f32_div : f32 → f32 → f32 := SFdiv prec32 emax32.
Definition f32_sqrt : f32 → f32 := SFsqrt prec32 emax32.
Definition f32_eqb : f32 → f32 → bool := SFeqb.
Definition f32_ltb : f32 → f32 → bool := SFltb.
Definition f32_leb : f32 → f32 → bool := SFleb.
Definition f32_sub : f32 → f32 → f32 := SFsub prec32 emax32.
Definition f32_neg : f32 → f32 := SFopp.
Definition f32_one : f32 := f32_of_Z 1.
Definition f32_is_nan (x : f32) : bool := match x with S754_nan => true | _ => false end.
(** [str::parse::<f32>()] *)
Definition parse_f32 : string → option f32 := parse_float prec32 emax32.
(** A literal [n / d], rounded once. *)
Definition f32_of_ratio (n d : Z) : f32 := f32_div (f32_of_Z n) (f32_of_Z d).
(** [x as f32] of an [f64]. *)
Definition f32_of_f64 (x : f64) : f32 :=
  match x with
  | S754_finite s m e => binary_normalize prec32 emax32 (if s then Z.neg m else Z.pos m) e s
  | x => x
  end.
(** [f32::max]: the other operand when one is NaN. *)
Definition f32_max (x y : f32) : f32 :=
  if f32_is_nan x then y else if f32_is_nan y then x else if f32_ltb x y then y else x.
(** [f32::clamp]: NaN stays NaN. *)
Definition f32_clamp (lo hi x : f32) : f32 :=
  if f32_ltb x lo then lo else if f32_ltb hi x then hi else x.
(** [iter().sum()] starts from minus zero. *)
Definition f32_sum (l : list f32) : f32 := foldl f32_add (S754_zero true) l.

(** ** Exact steps of [f64] arithmetic

    Rounding keeps what it can represent; subtracting one from a float of the
    counting range goes strictly down, and is exact on integers. *)

(** *** Shifts that lose nothing *)

Lemma shr_1_even m : 0 <= m → shr_1 (Build_shr_record (2 * m) false false) = Build_shr_record m false false.
Proof. destruct m as [|p|p]; [done..|lia]. Qed.

Lemma iter_pos_shr_1_exact p m : 0 <= m →
  iter_pos shr_1 p (Build_shr_record (m * 2 ^ Z.pos p) false false) = Build_shr_record m false false.
Proof.
  revert m. induction p as [p IH|p IH|]; intros m Hm; cbn [iter_pos].
  - replace (m * 2 ^ Z.pos p~1) with (2 * (m * 2 ^ Z.pos p * 2 ^ Z.pos p)).
    + rewrite shr_1_even by (pose proof (Z.pow_nonneg 2 (Z.pos p)); nia).
      rewrite IH by (pose proof (Z.pow_nonneg 2 (Z.pos p)); nia). by apply IH.
    + replace (Z.pos p~1) with (1 + (Z.pos p + Z.pos p)) by lia. rewrite !Z.pow_add_r by lia. lia.
  - replace (m * 2 ^ Z.pos p~0) with (m * 2 ^ Z.pos p * 2 ^ Z.pos p).
    + rewrite IH by (pose proof (Z.pow_nonneg 2 (Z.pos p)); nia). by apply IH.
    + replace (Z.pos p~0) with (Z.pos p + Z.pos p) by lia. rewrite !Z.pow_add_r by lia. lia.
  - replace (m * 2 ^ 1) with (2 * m) by lia. by apply shr_1_even.
Qed.

Lemma Zdigits2_mul_pow m k : 0 < m → 0 <= k → Zdigits2 (m * 2 ^ k) = Zdigits2 m + k.
Proof.
  intros Hm Hk. destruct (Zdigits2_bounds m Hm) as [Hlo Hhi].
  assert (0 < Zdigits2 m) by (destruct m; simpl; lia).
  apply Zdigits2_unique; [lia|]. pose proof (Z.pow_pos_nonneg 2 k).
  replace (Zdigits2 m + k - 1) with (Zdigits2 m - 1 + k) by lia. rewrite !Z.pow_add_r by lia. nia.
Qed.

(** A number of 53 digits, shifted left, rounds to itself. *)
Lemma binary_round_aux_exact m k q :
  2 ^ 52 <= m < 2 ^ 53 → 0 <= k → -1074 <= q + k <= 971 →
  ∃ p, binary_round_aux prec64 emax64 false (m * 2 ^ k) q loc_Exact = S754_finite false p (q + k) ∧ Z.pos p = m.
Proof.
  intros Hm Hk Hq. assert (Zdigits2 m = 53) as Hd by (apply Zdigits2_unique; lia).
  assert (fexp prec64 emax64 (53 + (q + k)) = q + k) as Hf by (unfold fexp, prec64, emax64, emin; lia).
  assert (shr_fexp prec64 emax64 (m * 2 ^ k) q loc_Exact = (Build_shr_record m false false, q + k)) as Hs.
  { unfold shr_fexp. rewrite Zdigits2_mul_pow, Hd by lia.
    replace (53 + k + q) with (53 + (q + k)) by lia. rewrite Hf. replace (q + k - q) with k by lia.
    unfold shr. cbn [shr_record_of_loc]. destruct k as [|k|k]; [|by rewrite iter_pos_shr_1_exact by lia|lia].
    by rewrite Z.mul_1_r, Z.add_0_r. }
  unfold binary_round_aux. rewrite Hs. cbn [shr_m loc_of_shr_record round_nearest_even].
  rewrite shr_fexp_exact by (rewrite ?Hf; done). cbn [shr_m].
  destruct m as [|p|p]; try lia. exists p. split; [|done].
  destruct (Z.leb_spec (q + k) (emax64 - prec64)); [done|]. unfold emax64, prec64 in *. lia.
Qed.

(** [d * 2^q] is kept when its digits past the 53rd are zeros. *)
Lemma binary_round_exact d q m e :
  2 ^ 52 <= m < 2 ^ 53 → -1074 <= e <= 971 →
  (q <= e ∧ Z.pos d = m * 2 ^ (e - q) ∨ e <= q ∧ Z.pos d * 2 ^ (q - e) = m) →
  ∃ p, binary_round prec64 emax64 false d q = S754_finite false p e ∧ Z.pos p = m.
Proof.
  intros Hm He Hd. assert (Zdigits2 m = 53) as Hdig by (apply Zdigits2_unique; lia).
  assert (fexp prec64 emax64 (53 + e) = e) as Hf by (unfold fexp, prec64, emax64, emin; lia).
  assert (Z.pos (digits2_pos d) + q = 53 + e) as Hdd.
  { change (Z.pos (digits2_pos d)) with (Zdigits2 (Z.pos d)). destruct Hd as [[Hq ->]|[Hq Hd]].
    - rewrite Zdigits2_mul_pow, Hdig by lia. lia.
    - rewrite <-Hd, Zdigits2_mul_pow in Hdig by lia. lia. }
  unfold binary_round. rewrite Hdd, Hf. unfold shl_align.
  destruct Hd as [[Hq Hd]|[Hq Hd]].
  - assert (match e - q with Zneg k => (Pos.iter xO d k, e) | _ => (d, q) end = (d, q)) as ->
      by (destruct (e - q) eqn:E; lia || done).
    rewrite Hd. destruct (binary_round_aux_exact m (e - q) q) as (p & Hp & Hpm); [lia..|].
    exists p. split; [|done]. rewrite Hp. f_equal. lia.
  - destruct (decide (q = e)) as [->|Hne].
    + rewrite Z.sub_diag in *. replace (Z.pos d) with (m * 2 ^ 0) by lia.
      destruct (binary_round_aux_exact m 0 e) as (p & Hp & Hpm); [lia..|].
      exists p. split; [|done]. rewrite Hp. f_equal. lia.
    + destruct (e - q) as [|k|k] eqn:E; [lia..|].
      assert (Z.pos (Pos.iter xO d k) = m * 2 ^ 0) as ->.
      { rewrite pos_iter_xO. replace (Z.pos k) with (q - e) by lia. lia. }
      destruct (binary_round_aux_exact m 0 e) as (p & Hp & Hpm); [lia..|].
      exists p. split; [|done]. rewrite Hp. f_equal. lia.
Qed.

(** *** One less *)

Lemma f64_one_finite : f64_one = S754_finite false (2 ^ 52) (-52).
Proof. by vm_compute. Qed.

(** The difference that [m * 2^e - 1] rounds, at the exponent of one. *)
Lemma f64_sub_one m e : -52 <= e →
  f64_sub (S754_finite false m e) f64_one
    = binary_normalize prec64 emax64 (Z.pos m * 2 ^ (e + 52) - 2 ^ 52) (-52) false.
Proof.
  intros He. rewrite f64_one_finite. unfold f64_sub, SFsub. rewrite Z.min_r by lia. cbn [cond_Zopp].
  assert (Z.pos (fst (shl_align m e (-52))) = Z.pos m * 2 ^ (e + 52)) as ->.
  { unfold shl_align. destruct (-52 - e) as [|k|k] eqn:E; cbn [fst]; [|lia|].
    - replace (e + 52) with 0 by lia. lia.
    - rewrite pos_iter_xO. do 2 f_equal. lia. }
  done.
Qed.

(** Magnitudes compare by exponent, then by mantissa. *)
Lemma f64_ltb_finite m e m' e' :
  f64_ltb (S754_finite false m e) (S754_finite false m' e') = true ↔ e < e' ∨ e = e' ∧ Z.pos m < Z.pos m'.
Proof.
  unfold f64_ltb, SFltb. cbn [SFcompare]. destruct (Z.compare_spec e e') as [->|?|?]; [|split; [lia|done]|split; [done|lia]].
  rewrite Pos.compare_cont_spec. destruct (Pos.compare_spec m m'); simpl; split; try done; lia.
Qed.

(** A rounded negative number is below every positive one. *)
Lemma binary_round_negative_ltb p q m e :
  f64_ltb (binary_round prec64 emax64 true p q) (S754_finite false m e) = true.
Proof.
  unfold binary_round. destruct (shl_align _ _ _) as [mz ez]. unfold binary_round_aux.
  destruct (shr_fexp _ _ (Z.pos mz) ez _) as [mrs e1] eqn:H1.
  destruct (shr_fexp_digits (Z.pos mz) ez loc_Exact mrs e1) as [Hm1 _]; [lia|done|].
  destruct (shr_fexp _ _ (round_nearest_even _ _) e1 loc_Exact) as [mrs' e2] eqn:H2.
  destruct (shr_fexp_digits _ _ _ _ _ (round_nearest_even_nonneg _ (loc_of_shr_record mrs) Hm1) H2) as [Hm2 _].
  destruct (shr_m mrs') as [|p'|p']; [done| |lia]. by destruct (e2 <=? emax64 - prec64).
Qed.

(** A positive difference [d * 2^-52] of at most [53 + e + 52] digits whose low
    [e + 52] are zeros. *)
Lemma binary_round_scaled d e n :
  -52 <= e <= 0 → Z.pos d = n * 2 ^ (e + 52) → n < 2 ^ 53 →
  ∃ p e', binary_round prec64 emax64 false d (-52) = S754_finite false p e' ∧
    2 ^ 52 <= Z.pos p < 2 ^ 53 ∧ e' <= e ∧ Z.pos p = n * 2 ^ (e - e') ∧ -105 < e'.
Proof.
  intros He Hd Hn. set (D := Zdigits2 (Z.pos d)).
  pose proof (Z.pow_pos_nonneg 2 (e + 52)) as Hpow.
  assert (0 < n) as Hn0 by nia.
  set (k := Zdigits2 n). destruct (Zdigits2_bounds n Hn0) as [Hlo Hhi]. fold k in Hlo, Hhi.
  assert (0 < k <= 53) as Hk.
  { split; [unfold k; destruct n; simpl; lia|]. assert (k - 1 < 53); [|lia].
    apply (Z.pow_lt_mono_r_iff 2); lia. }
  set (m := n * 2 ^ (53 - k)).
  assert (2 ^ 52 <= m < 2 ^ 53) as Hm.
  { unfold m. replace (2 ^ 53) with (2 ^ k * 2 ^ (53 - k)) by (rewrite <-Z.pow_add_r; f_equal; lia).
    replace (2 ^ 52) with (2 ^ (k - 1) * 2 ^ (53 - k)) by (rewrite <-Z.pow_add_r; f_equal; lia).
    pose proof (Z.pow_pos_nonneg 2 (53 - k)). nia. }
  destruct (binary_round_exact d (-52) m (e + k - 53)) as (p & Hp & Hpm); [done|lia| |].
  - destruct (Z.le_ge_cases (-52) (e + k - 53)) as [Hq|Hq]; [left|right]; (split; [done|]); rewrite Hd; unfold m.
    + rewrite <-Z.mul_assoc, <-Z.pow_add_r by lia. do 2 f_equal. lia.
    + rewrite <-Z.mul_assoc, <-Z.pow_add_r by lia. do 2 f_equal. lia.
  - exists p, (e + k - 53). rewrite Hpm. split_and!; [done|lia..| |lia]. unfold m. do 2 f_equal. lia.
Qed.

(** Taking one from a float between one and the end of the counting range goes
    strictly down. *)
Lemma f64_sub_one_ltb m e :
  Z.pos m < 2 ^ 53 → -52 <= e <= 0 →
  f64_ltb (f64_sub (S754_finite false m e) f64_one) (S754_finite false m e) = true ∧
  f64_fits (f64_sub (S754_finite false m e) f64_one).
Proof.
  intros Hm He. rewrite f64_sub_one by lia.
  set (d := Z.pos m * 2 ^ (e + 52) - 2 ^ 52).
  assert (d = (Z.pos m - 2 ^ (- e)) * 2 ^ (e + 52)) as Hd.
  { unfold d. rewrite Z.mul_sub_distr_r, <-Z.pow_add_r by lia. do 2 f_equal. lia. }
  pose proof (Z.pow_pos_nonneg 2 (- e)). clearbody d.
  destruct d as [|d|d]; cbn [binary_normalize]; [done| |].
  - destruct (binary_round_scaled d e (Z.pos m - 2 ^ (- e))) as (p & e' & -> & Hp & He' & Hpv & _); [done..|lia|].
    split; [|simpl; lia]. apply f64_ltb_finite. destruct (decide (e' = e)) as [->|]; [|lia].
    right. rewrite Z.sub_diag in Hpv. lia.
  - split; [apply binary_round_negative_ltb|apply binary_round_fits].
Qed.

(** One less than an integer is the integer before it. *)
Lemma f64_sub_one_of_Z n : 1 <= n <= 2 ^ 52 → f64_sub (f64_of_Z n) f64_one = f64_of_Z (n - 1).
Proof.
  intros Hn. destruct (f64_of_Z_exact n) as (m & e & Heq & He & Hm & Hme); [lia|].
  pose proof (f64_of_Z_fits n) as Hfit. rewrite Heq in *. simpl in Hfit.
  rewrite f64_sub_one by lia.
  assert (Z.pos m * 2 ^ (e + 52) - 2 ^ 52 = (n - 1) * 2 ^ 52) as ->.
  { rewrite Hme, <-Z.mul_assoc, <-Z.pow_add_r by lia. replace (- e + (e + 52)) with 52 by lia. lia. }
  destruct (decide (n = 1)) as [->|]; [done|].
  destruct (f64_of_Z_exact (n - 1)) as (m' & e' & Heq' & He' & Hm' & Hme'); [lia|].
  pose proof (f64_of_Z_fits (n - 1)) as Hfit'. rewrite Heq' in *. simpl in Hfit'.
  destruct ((n - 1) * 2 ^ 52) as [|d|d] eqn:Ed; [lia| |lia]. cbn [binary_normalize].
  destruct (binary_round_scaled d 0 (n - 1)) as (p & e'' & -> & Hp & He'' & Hpv & _); [lia|lia|lia|].
  rewrite Z.sub_0_l in Hpv.
  assert (e'' = e') as ->.
  { assert (Zdigits2 (Z.pos p) = 53 ∧ Zdigits2 (Z.pos m') = 53) as [H1 H2]
      by (split; apply Zdigits2_unique; lia).
    rewrite Hpv, Zdigits2_mul_pow in H1 by lia. rewrite Hme', Zdigits2_mul_pow in H2 by lia. lia. }
  f_equal. apply (inj Z.pos). by rewrite Hpv, Hme'.
Qed.

(** *** Order *)

Lemma f64_below_trans x m e m' e' :
  f64_ltb x (S754_finite false m e) = true →
  f64_ltb (S754_finite false m' e') (S754_finite false m e) = false →
  f64_ltb x (S754_finite false m' e') = true.
Proof.
  intros Hx Hle. assert (e < e' ∨ e = e' ∧ Z.pos m <= Z.pos m') as Ho.
  { apply not_true_iff_false in Hle. rewrite f64_ltb_finite in Hle. lia. }
  destruct x as [s|[]| |[] mx ex]; try done.
  rewrite f64_ltb_finite in *. lia.
Qed.

(** What is a number and not at least a positive float is below it. *)
Lemma f64_not_leb_ltb m e x : f64_is_nan x = false →
  f64_leb (S754_finite false m e) x = false → f64_ltb x (S754_finite false m e) = true.
Proof.
  destruct x as [s|[]| |[] m' e']; try done. intros _.
  unfold f64_leb, SFleb, f64_ltb, SFltb. cbn [SFcompare]. rewrite (Z.compare_antisym e).
  destruct (Z.compare e e'); simpl; try done.
  rewrite !Pos.compare_cont_spec, (Pos.compare_antisym m m'). simpl. by destruct (Pos.compare m m').
Qed.
Lemma f64_leb_finite m e m' e' :
  f64_leb (S754_finite false m e) (S754_finite false m' e') = true ↔ e < e' ∨ e = e' ∧ Z.pos m <= Z.pos m'.
Proof.
  unfold f64_leb, SFleb. cbn [SFcompare].
  destruct (Z.compare_spec e e') as [->|?|?]; [|split; [lia|done]|split; [done|lia]].
  rewrite Pos.compare_cont_spec. destruct (Pos.compare_spec m m') as [->|?|?]; simpl; split; try done; lia.
Qed.
