(* ===== verification/Common.v ===== *)
(** * [wovyr-common]: the platform error type

    [crates/wovyr-common/src/error.rs]: the canonical error enum and its
    constructors.  [Result T] is [result T]; the wrapped foreign errors
    ([std::io::Error], [serde_json::Error]) are carried as their message. *)
From stdpp Require Import base tactics list sets strings.
From Stdlib Require Import ZArith.
From S2P Require Import Prelude.

Inductive Error :=
  | Config (msg : string)
  | NotFound (msg : string)
  | Invalid (msg : string)
  | Forbidden (msg : string)
  | Conflict (msg : string)
  | QuotaExceeded (msg : string)
  | Provider (message : string) (retry_after_ms : option Z)
  | Tool (msg : string)
  | Runtime (msg : string)
  | Io (err : string)
  | Json (err : string).

Definition config (msg : string) : Error := Config msg.
Definition invalid (msg : string) : Error := Invalid msg.
Definition provider (msg : string) : Error := Provider msg None.
Definition provider_with_retry_after (msg : string) (retry_after_ms : Z) : Error :=
  Provider msg (Some retry_after_ms).
Definition forbidden (msg : string) : Error := Forbidden msg.
Definition conflict (msg : string) : Error := Conflict msg.
Definition quota_exceeded (msg : string) : Error := QuotaExceeded msg.

(** [#[error("...")]]: the [Display] text of each variant. *)
Definition error_display (e : Error) : string :=
  match e with
  | Config m => "configuration error: " +:+ m
  | NotFound m => "not found: " +:+ m
  | Invalid m => "invalid input: " +:+ m
  | Forbidden m => "forbidden: " +:+ m
  | Conflict m => "conflict: " +:+ m
  | QuotaExceeded m => "quota exceeded: " +:+ m
  | Provider m _ => "provider error: " +:+ m
  | Tool m => "tool error: " +:+ m
  | Runtime m => "runtime error: " +:+ m
  | Io m => "io error: " +:+ m
  | Json m => "json error: " +:+ m
  end.

#[export] Instance Error_eq_dec : EqDecision Error.
Proof. solve_decision. Defined.

(** [Result<T>] of the workspace. *)
Inductive result (A : Type) :=
  | Ok (a : A)
  | Err (e : Error).
Arguments Ok {A} _.
Arguments Err {A} _.

#[export] Instance result_ret : MRet result := λ A a, Ok a.
#[export] Instance result_bind : MBind result := λ A B k m,
  match m with Ok a => k a | Err e => Err e end.
#[export] Instance result_fmap : FMap result := λ A B f m,
  match m with Ok a => Ok (f a) | Err e => Err e end.

Definition is_ok {A} (r : result A) : bool :=
  match r with Ok _ => true | Err _ => false end.

(** [Option::ok_or_else]. *)
Definition ok_or {A} (e : Error) (o : option A) : result A :=
  match o with Some a => Ok a | None => Err e end.

(** [iter().map(f).collect::<Result<Vec<_>>>()]: stops at the first error. *)
Fixpoint collect {A B} (f : A → result B) (l : list A) : result (list B) :=
  match l with
  | [] => Ok []
  | a :: l => b ← f a; bs ← collect f l; Ok (b :: bs)
  end.

(** ** Inversion of the monad *)

Lemma result_bind_Ok {A B} (m : result A) (k : A → result B) b :
  m ≫= k = Ok b ↔ ∃ a, m = Ok a ∧ k a = Ok b.
Proof.
  destruct m as [a|e]; simpl; split.
  - eauto.
  - by intros (? & [= ->] & ?).
  - done.
  - by intros (? & ? & ?).
Qed.

Lemma collect_Ok {A B} (f : A → result B) l bs :
  collect f l = Ok bs ↔ Forall2 (λ a b, f a = Ok b) l bs.
Proof.
  revert bs. induction l as [|a l IH]; intros bs; simpl.
  - split; [intros [= <-]; constructor|]. by inversion 1.
  - rewrite result_bind_Ok. split.
    + intros (b & Hb & (cs & Hcs & [= <-])%result_bind_Ok).
      constructor; [done|]. by apply IH.
    + inversion 1; simplify_eq. eexists. split; [done|].
      apply result_bind_Ok. eexists. split; [by apply IH|done].
Qed.

Lemma collect_is_Ok {A B} (f : A → result B) l :
  (∃ bs, collect f l = Ok bs) ↔ ∀ a, a ∈ l → ∃ b, f a = Ok b.
Proof.
  induction l as [|a l IH]; simpl.
  - split; [by intros _ a ?%not_elem_of_nil|eauto].
  - split.
    + intros (bs & (b & Hb & (cs & Hcs & _)%result_bind_Ok)%result_bind_Ok) a' Ha'.
      assert (a' = a ∨ a' ∈ l) as [->|Hl] by set_solver; [eauto|].
      apply IH; eauto.
    + intros Hall. destruct (Hall a) as [b Hb]; [set_solver|].
      destruct IH as [_ [cs Hcs]]; [intros; apply Hall; set_solver|].
      exists (b :: cs). rewrite Hb. simpl. by rewrite Hcs.
Qed.

#[export] Hint Rewrite @result_bind_Ok @collect_Ok : wovyr.
