(* ===== verification/JsonValue.v ===== *)
(** * JSON values

    The [serde_json::Value] the sources construct and match on.  Its six
    constructors are the ones the sources name; a number is an unsigned, a
    negative or a finite floating value.  Serialization ([to_string],
    [to_vec]) and the derived deserializers belong to the library: they are
    parameters of the components that call them. *)
From stdpp Require Import base tactics list numbers strings gmap.
From Stdlib Require Import Lia ZArith SpecFloat.
From S2P Require Import Prelude.
From S2P Require Import RustStr.
From S2P Require Import F64.

Inductive Number :=
  | PosInt (n : Z)
  | NegInt (n : Z)
  | Float (x : f64).

Inductive Value :=
  | Null
  | Bool (b : bool)
  | Num (n : Number)
  | Str (s : string)
  | Array (items : list Value)
  | Object (map : list (string * Value)).

(** [json!(n)] of a [u64]/[usize]. *)
Definition json_u64 (n : Z) : Value := Num (PosInt n).

(** [Number::from_f64]: only finite values are numbers. *)
Definition number_from_f64 (x : f64) : option Number :=
  if f64_is_finite x then Some (Float x) else None.

(** [Number::as_f64] *)
Definition number_as_f64 (n : Number) : f64 :=
  match n with
  | PosInt n | NegInt n => f64_of_Z n
  | Float x => x
  end.

(** [Map::get] *)
Fixpoint assoc (k : string) (l : list (string * Value)) : option Value :=
  match l with
  | [] => None
  | (k', v) :: l => if String.eqb k k' then Some v else assoc k l
  end.

(** [Value::get] with a string index. *)
Definition value_get (k : string) (v : Value) : option Value :=
  match v with Object m => assoc k m | _ => None end.

Definition as_str (v : Value) : option string :=
  match v with Str s => Some s | _ => None end.
Definition as_u64 (v : Value) : option Z :=
  match v with Num (PosInt n) => Some n | _ => None end.
Definition as_f64 (v : Value) : option f64 :=
  match v with Num n => Some (number_as_f64 n) | _ => None end.

Definition number_eqb (a b : Number) : bool :=
  match a, b with
  | PosInt x, PosInt y => Z.eqb x y
  | NegInt x, NegInt y => Z.eqb x y
  | Float x, Float y => f64_eqb x y
  | _, _ => false
  end.

(** [Value == Value]: arrays elementwise, objects as maps. *)
Fixpoint value_eqb (a b : Value) : bool :=
  match a, b with
  | Null, Null => true
  | Bool x, Bool y => Bool.eqb x y
  | Num x, Num y => number_eqb x y
  | Str x, Str y => String.eqb x y
  | Array xs, Array ys =>
    (fix go xs ys :=
       match xs, ys with
       | [], [] => true
       | x :: xs, y :: ys => value_eqb x y && go xs ys
       | _, _ => false
       end) xs ys
  | Object xs, Object ys =>
    Nat.eqb (length xs) (length ys) &&
    (fix go xs :=
       match xs with
       | [] => true
       | (k, x) :: xs =>
         match assoc k ys with Some y => value_eqb x y | None => false end && go xs
       end) xs
  | _, _ => false
  end.

(** ** Induction over nested values *)

Section value_induction.
Context (P : Value → Prop).
Context (HNull : P Null) (HBool : ∀ b, P (Bool b)) (HNum : ∀ n, P (Num n)).
Context (HStr : ∀ s, P (Str s)).
Context (HArray : ∀ l, Forall P l → P (Array l)).
Context (HObject : ∀ m, Forall (λ kv, P kv.2) m → P (Object m)).

Fixpoint Value_nested_ind (v : Value) : P v :=
  match v with
  | Null => HNull
  | Bool b => HBool b
  | Num n => HNum n
  | Str s => HStr s
  | Array l =>
    HArray l ((fix go l : Forall P l :=
      match l with
      | [] => Forall_nil_2 _
      | x :: l => Forall_cons_2 _ _ _ (Value_nested_ind x) (go l)
      end) l)
  | Object m =>
    HObject m ((fix go m : Forall (λ kv, P kv.2) m :=
      match m with
      | [] => Forall_nil_2 _
      | kv :: m => Forall_cons_2 _ kv m (Value_nested_ind kv.2) (go m)
      end) m)
  end.
End value_induction.

#[export] Instance f64_eq_dec : EqDecision f64.
Proof. solve_decision. Defined.
#[export] Instance Number_eq_dec : EqDecision Number.
Proof. solve_decision. Defined.

Definition value_eq_dec : ∀ a b : Value, {a = b} + {a ≠ b}.
Proof.
  fix go 1. intros a b.
  assert (∀ l l' : list Value, {l = l'} + {l ≠ l'}) as Hl.
  { fix gol 1. intros [|x l] [|y l']; [by left|by right|by right|].
    destruct (go x y) as [->|]; [|right; congruence].
    destruct (gol l l') as [->|]; [by left|right; congruence]. }
  assert (∀ l l' : list (string * Value), {l = l'} + {l ≠ l'}) as Hm.
  { fix gol 1. intros [|[k x] l] [|[k' y] l']; [by left|by right|by right|].
    destruct (decide (k = k')) as [->|]; [|right; congruence].
    destruct (go x y) as [->|]; [|right; congruence].
    destruct (gol l l') as [->|]; [by left|right; congruence]. }
  destruct a, b; try (by right); try (by left).
  - destruct (decide (b0 = b)) as [->|]; [by left|right; congruence].
  - destruct (decide (n = n0)) as [->|]; [by left|right; congruence].
  - destruct (decide (s = s0)) as [->|]; [by left|right; congruence].
  - destruct (Hl items items0) as [->|]; [by left|right; congruence].
  - destruct (Hm map map0) as [->|]; [by left|right; congruence].
Defined.
#[export] Instance Value_eq_dec : EqDecision Value := value_eq_dec.

(** ** Lemmas *)

Lemma assoc_Some_elem k m v : assoc k m = Some v → (k, v) ∈ m.
Proof.
  induction m as [|[k' v'] m IH]; simpl; [done|].
  destruct (String.eqb_spec k k') as [->|]; intros; simplify_eq; set_solver.
Qed.

Lemma assoc_map (f : Value → Value) k m :
  assoc k (map (λ kv, (kv.1, f kv.2)) m) = f <$> assoc k m.
Proof.
  induction m as [|[k' v'] m IH]; simpl; [done|]. by destruct (String.eqb k k').
Qed.
