(* ===== verification/State.v ===== *)
(** * Workflow and activity state machines

    [crates/wovyr-workflow/src/state.rs]: the two lifecycle enums, the
    transition matrices and the terminal states, with the reachability facts
    the engine and its status queries rely on. *)
From stdpp Require Import base tactics relations strings.
From S2P Require Import Prelude.

Module WorkflowState.
Inductive t :=
  | Created | Validated | Scheduled | Running | Waiting | Resumed
  | Compensating | Completed | Failed | Cancelled.

Definition is_terminal (s : t) : bool :=
  match s with Completed | Failed | Cancelled => true | _ => false end.

Definition can_transition (self to : t) : bool :=
  match self, to with
  | Created, Validated
  | Validated, Scheduled
  | Scheduled, Running
  | Running, Waiting
  | Waiting, Resumed
  | Resumed, Running
  | Running, Completed
  | Running, Failed
  | Running, Cancelled
  | Failed, Compensating
  | Compensating, Failed => true
  | _, _ => false
  end.

(** One allowed transition, and the states an execution can go through. *)
Definition step (s s' : t) : Prop := can_transition s s' = true.
Definition reaches : t → t → Prop := rtc step.

(** [{:?}], as used in the engine's error messages. *)
Definition debug (s : t) : string :=
  match s with
  | Created => "Created" | Validated => "Validated" | Scheduled => "Scheduled"
  | Running => "Running" | Waiting => "Waiting" | Resumed => "Resumed"
  | Compensating => "Compensating" | Completed => "Completed"
  | Failed => "Failed" | Cancelled => "Cancelled"
  end.

#[global] Instance eq_dec : EqDecision t.
Proof. solve_decision. Defined.

(** The states from which the execution can still end in [Completed]. *)
Definition live (s : t) : bool :=
  match s with
  | Created | Validated | Scheduled | Running | Waiting | Resumed => true
  | _ => false
  end.

(** A set closed under [step] contains everything reachable from it. *)
Lemma reaches_closed (P : t → Prop) s s' :
  (∀ a b, P a → step a b → P b) → P s → reaches s s' → P s'.
Proof. intros Hstep Hs. induction 1 as [|a b c Hab Hbc IH]; eauto. Qed.

(** [Completed] and [Cancelled] are absorbing: nothing else is reachable. *)
Lemma absorbing_step s s' :
  s = Completed ∨ s = Cancelled → step s s' → False.
Proof. unfold step. by destruct s, s'; intros [|]. Qed.
End WorkflowState.

Module ActivityState.
Inductive t :=
  | Created | Ready | Scheduled | Running | Completed | Failed | Retrying
  | Waiting | Skipped.

Definition can_transition (self to : t) : bool :=
  match self, to with
  | Created, Ready
  | Ready, Scheduled
  | Scheduled, Running
  | Running, Completed
  | Running, Failed
  | Failed, Retrying
  | Retrying, Scheduled
  | Created, Skipped
  | Ready, Skipped
  | Created, Waiting
  | Ready, Waiting
  | Waiting, Waiting
  | Waiting, Completed => true
  | _, _ => false
  end.

#[global] Instance eq_dec : EqDecision t.
Proof. solve_decision. Defined.

(** An activity that needs no further work in the forward direction. *)
Definition is_settled (s : t) : bool :=
  match s with Completed | Skipped => true | _ => false end.
End ActivityState.

(** ** Reachability of the workflow machine *)

(** The workflow state machine keeps failure and success apart.  From
    [Failed] (a terminal state) the only reachable states are [Failed] and
    [Compensating]; from a rolled back or rolling back execution [Completed]
    is unreachable; [Completed] and [Cancelled] reach only themselves. *)
Theorem failure_never_becomes_success s :
  (WorkflowState.reaches WorkflowState.Failed s ↔
     s = WorkflowState.Failed ∨ s = WorkflowState.Compensating) ∧
  (WorkflowState.reaches WorkflowState.Compensating s ↔
     s = WorkflowState.Failed ∨ s = WorkflowState.Compensating) ∧
  (WorkflowState.reaches WorkflowState.Completed s ↔ s = WorkflowState.Completed) ∧
  (WorkflowState.reaches WorkflowState.Cancelled s ↔ s = WorkflowState.Cancelled).
Proof.
  assert (WorkflowState.step WorkflowState.Failed WorkflowState.Compensating) as Hfc by done.
  assert (WorkflowState.step WorkflowState.Compensating WorkflowState.Failed) as Hcf by done.
  assert (∀ a b, (a = WorkflowState.Failed ∨ a = WorkflowState.Compensating) →
    WorkflowState.step a b → b = WorkflowState.Failed ∨ b = WorkflowState.Compensating)
    as Hclosed by (by intros [] []; intros [|]; auto).
  split; [|split; [|split]]; split.
  - apply (WorkflowState.reaches_closed _ WorkflowState.Failed s Hclosed). by left.
  - intros [->| ->]; [apply rtc_refl|by apply rtc_once].
  - apply (WorkflowState.reaches_closed _ WorkflowState.Compensating s Hclosed). by right.
  - intros [->| ->]; [by apply rtc_once|apply rtc_refl].
  - apply (WorkflowState.reaches_closed (λ x, x = WorkflowState.Completed) _ s); [|done].
    by intros ? [] ->.
  - intros ->. apply rtc_refl.
  - apply (WorkflowState.reaches_closed (λ x, x = WorkflowState.Cancelled) _ s); [|done].
    by intros ? [] ->.
  - intros ->. apply rtc_refl.
Qed.
