(* ===== verification/Retry.v ===== *)
(** * Retry policy and backoff

    [crates/wovyr-workflow/src/retry.rs]: the three backoff strategies, capped
    at [max_delay_ms].  Delays are computed in [f64] as the code does and
    returned in milliseconds. *)
From stdpp Require Import base tactics numbers strings.
From Stdlib Require Import Lia ZArith SpecFloat.
From S2P Require Import Prelude.
From S2P Require Import RustStr.
From S2P Require Import F64.
Local Open Scope Z_scope.

Inductive RetryStrategy := Fixed | Linear | Exponential.

Record RetryPolicy := {
  max_attempts : Z;
  strategy : RetryStrategy;
  initial_delay_ms : Z;
  max_delay_ms : Z;
  multiplier : f64;
}.

Definition default_max_attempts : Z := 3.
Definition default_initial_delay_ms : Z := 100.
Definition default_max_delay_ms : Z := 30000.
Definition default_multiplier : f64 := f64_of_Z 2.

Definition RetryPolicy_default : RetryPolicy := {|
  max_attempts := default_max_attempts;
  strategy := Exponential;
  initial_delay_ms := default_initial_delay_ms;
  max_delay_ms := default_max_delay_ms;
  multiplier := default_multiplier;
|}.

(** The uncapped delay of the strategy for the 1-based retry [n]. *)
Definition next_delay (p : RetryPolicy) (attempt : Z) : Z :=
  let n := Z.max attempt 1 in
  let ms :=
    match strategy p with
    | Fixed => f64_of_Z (initial_delay_ms p)
    | Linear => f64_mul (f64_of_Z (initial_delay_ms p)) (f64_of_Z n)
    | Exponential =>
      f64_mul (f64_of_Z (initial_delay_ms p))
        (f64_powi (multiplier p) (u32_as_i32 (n - 1)))
    end in
  let capped := f64_min ms (f64_of_Z (max_delay_ms p)) in
  f64_to_u64 capped.

(** Whatever the strategy, the multiplier (NaN, infinite or negative
    included) and the attempt number, a delay is a [u64] that never exceeds
    [max_delay_ms], for every cap an [f64] represents exactly; with the fixed
    strategy it is exactly the smaller of the base delay and the cap. *)
Theorem next_delay_capped p attempt :
  0 <= max_delay_ms p <= 2 ^ 53 →
  is_u64 (next_delay p attempt) ∧
  next_delay p attempt <= max_delay_ms p ∧
  (strategy p = Fixed → 0 <= initial_delay_ms p <= 2 ^ 53 →
   next_delay p attempt = Z.min (initial_delay_ms p) (max_delay_ms p)).
Proof.
  intros Hmax. unfold next_delay. split; [apply f64_to_u64_bounds|]. split.
  - apply f64_min_le_normal; [|done].
    destruct (strategy p); [apply f64_of_Z_fits|apply f64_mul_fits..].
  - intros -> Hinit. rewrite f64_min_of_Z by done. apply f64_to_u64_of_Z. lia.
Qed.

Definition retry_example : RetryPolicy := {|
  max_attempts := 10; strategy := Exponential; initial_delay_ms := 100;
  max_delay_ms := 1000; multiplier := f64_of_Z 2;
|}.

Example exponential_grows_and_caps :
  map (next_delay retry_example) [1; 2; 3; 4; 5; 20] = [100; 200; 400; 800; 1000; 1000].
Proof. by vm_compute. Qed.

Lemma next_delay_capped_witness :
  next_delay retry_example 20 <= 1000 ∧ next_delay retry_example 3 = 400.
Proof.
  split; [|by vm_compute].
  destruct (next_delay_capped retry_example 20) as (_ & H & _); [simpl; lia|exact H].
Defined.
