(* ===== verification/Condition.v ===== *)
(** * Guard expressions

    [crates/wovyr-workflow/src/condition.rs]: the evaluator of a transition's
    [when] guard over the workflow variables, operating on the text as the code
    does (quote-aware splitting, then operand resolution).  The grammar the
    module documents is given here as a syntax tree with a denotation, and the
    evaluator is proved to compute that denotation on every printed tree. *)
From stdpp Require Import base tactics list numbers strings gmap.
From Stdlib Require Import Lia ZArith Ascii SpecFloat.
From S2P Require Import Prelude.
From S2P Require Import RustStr.
From S2P Require Import F64.
From S2P Require Import JsonValue.

(** [Result<bool, String>] *)
Notation eval_result := (string + bool)%type.

Definition is_quote (c : ascii) : bool := Ascii.eqb c "'"%char || Ascii.eqb c "034"%char.

(** Byte slices [s[..n]] and [s[n..]]. *)
Fixpoint str_take (n : nat) (s : string) : string :=
  match n, s with S n, String c s => String c (str_take n s) | _, _ => "" end.
Fixpoint str_drop (n : nat) (s : string) : string :=
  match n, s with S n, String _ s => str_drop n s | _, _ => s end.

(** The scan of [find_op]: [quote] is the open quote, if any.  The loop bound
    [i + op.len() <= len] is implied by the match of [op] at [i]. *)
Fixpoint find_op_go (op : string) (quote : option ascii) (s : string) : option nat :=
  match s with
  | "" => None
  | String c s' =>
    match quote with
    | Some q => S <$> find_op_go op (if Ascii.eqb c q then None else Some q) s'
    | None =>
      if is_quote c then S <$> find_op_go op (Some c) s'
      else if starts_with op s then Some O
      else S <$> find_op_go op None s'
    end
  end.
Definition find_op (expr op : string) : option nat := find_op_go op None expr.

(** [split_top]: the loop consumes a separator per iteration, so it runs at
    most [length expr] times. *)
Fixpoint split_top_go (fuel : nat) (rest sep : string) : list string :=
  match fuel with
  | O => [rest]
  | S fuel =>
    match find_op rest sep with
    | Some idx => str_take idx rest
        :: split_top_go fuel (str_drop (idx + String.length sep) rest) sep
    | None => [rest]
    end
  end.
Definition split_top (expr sep : string) : list string :=
  split_top_go (S (String.length expr)) expr sep.

(** Descend into objects along the remaining path segments. *)
Fixpoint descend (current : Value) (parts : list string) : Value :=
  match parts with
  | [] => current
  | part :: parts =>
    match value_get part current with
    | Some v => descend v parts
    | None => Null
    end
  end.

Definition resolve_path (path : string) (vars : gmap string Value) : Value :=
  match split_char "."%char path with
  | [] => Null
  | head :: parts =>
    match vars !! head with
    | None => Null
    | Some current => descend current parts
    end
  end.

(** [token.starts_with(q) && token.ends_with(q) && token.len() >= 2] *)
Definition quoted_by (q : string) (token : string) : bool :=
  starts_with q token && ends_with q token && Nat.leb 2 (String.length token).

Definition resolve (token : string) (vars : gmap string Value) : Value :=
  let token := trim token in
  if quoted_by "'" token || quoted_by (String "034"%char "") token
  then Str (str_take (String.length token - 2) (str_drop 1 token))
  else if String.eqb token "true" then Bool true
  else if String.eqb token "false" then Bool false
  else if String.eqb token "null" then Null
  else
    match parse_f64 token ≫= number_from_f64 with
    | Some num => Num num
    | None => resolve_path token vars
    end.

(** [condition.rs]'s [as_f64] *)
Definition cond_as_f64 (v : Value) : option f64 :=
  match v with Num n => Some (number_as_f64 n) | _ => None end.

Definition values_equal (a b : Value) : bool :=
  match cond_as_f64 a, cond_as_f64 b with
  | Some x, Some y => f64_eqb x y
  | _, _ => value_eqb a b
  end.

Definition compare (lhs : Value) (op : string) (rhs : Value) : bool :=
  if String.eqb op "==" then values_equal lhs rhs
  else if String.eqb op "!=" then negb (values_equal lhs rhs)
  else
    match cond_as_f64 lhs, cond_as_f64 rhs with
    | Some a, Some b =>
      if String.eqb op ">" then f64_ltb b a
      else if String.eqb op "<" then f64_ltb a b
      else if String.eqb op ">=" then f64_leb b a
      else if String.eqb op "<=" then f64_leb a b
      else false
    | _, _ => false
    end.

Definition truthy (v : Value) : bool :=
  match v with
  | Null => false
  | Bool b => b
  | Str s => negb (is_empty s)
  | Num n => negb (f64_eqb (number_as_f64 n) f64_zero)
  | _ => true
  end.

Definition OPERATORS : list string := ["=="; "!="; ">="; "<="; ">"; "<"].

(** The first operator of the list that occurs at the top level, with its
    position. *)
Fixpoint find_operator (ops : list string) (expr : string) : option (string * nat) :=
  match ops with
  | [] => None
  | op :: ops =>
    match find_op expr op with
    | Some idx => Some (op, idx)
    | None => find_operator ops expr
    end
  end.

Definition eval_compare (expr : string) (vars : gmap string Value) : eval_result :=
  let expr := trim expr in
  if is_empty expr then inl "empty comparison"
  else
    match find_operator OPERATORS expr with
    | Some (op, idx) =>
      let lhs := resolve (trim (str_take idx expr)) vars in
      let rhs := resolve (trim (str_drop (idx + String.length op) expr)) vars in
      inr (compare lhs op rhs)
    | None => inr (truthy (resolve expr vars))
    end.

Fixpoint eval_and_parts (parts : list string) (vars : gmap string Value) : eval_result :=
  match parts with
  | [] => inr true
  | part :: parts =>
    match eval_compare part vars with
    | inl e => inl e
    | inr false => inr false
    | inr true => eval_and_parts parts vars
    end
  end.
Definition eval_and (expr : string) (vars : gmap string Value) : eval_result :=
  eval_and_parts (split_top expr "&&") vars.

Fixpoint eval_or_parts (parts : list string) (vars : gmap string Value) : eval_result :=
  match parts with
  | [] => inr false
  | part :: parts =>
    match eval_and part vars with
    | inl e => inl e
    | inr true => inr true
    | inr false => eval_or_parts parts vars
    end
  end.
Definition eval_or (expr : string) (vars : gmap string Value) : eval_result :=
  eval_or_parts (split_top expr "||") vars.

Definition evaluate (expr : string) (vars : gmap string Value) : eval_result :=
  let expr := trim expr in
  if is_empty expr then inr true else eval_or expr vars.

(** ** The documented grammar and its meaning *)

(** A bare token (number, keyword or path) uses identifier characters. *)
Definition token_char (c : ascii) : bool :=
  is_ascii_alphanumeric c || Ascii.eqb c "_"%char || Ascii.eqb c "."%char || Ascii.eqb c "-"%char.
Fixpoint all_chars (f : ascii → bool) (s : string) : bool :=
  match s with "" => true | String c s => f c && all_chars f s end.

Inductive operand := Quoted (s : string) | Bare (t : string).
Inductive relop := EqOp | NeOp | GeOp | LeOp | GtOp | LtOp.
Inductive comparison_expr := Test (o : operand) | Cmp (a : operand) (op : relop) (b : operand).
(** Conjunctions of comparisons, and disjunctions of conjunctions. *)
Record and_expr := AndE { and_head : comparison_expr; and_tail : list comparison_expr }.
Record or_expr := OrE { or_head : and_expr; or_tail : list and_expr }.

Definition relop_text (op : relop) : string :=
  match op with
  | EqOp => "==" | NeOp => "!=" | GeOp => ">=" | LeOp => "<=" | GtOp => ">" | LtOp => "<"
  end.

Definition operand_ok (o : operand) : bool :=
  match o with
  | Quoted s => all_chars (λ c, negb (Ascii.eqb c "'"%char)) s
  | Bare t => negb (is_empty t) && all_chars token_char t
  end.
Definition cmp_ok (c : comparison_expr) : bool :=
  match c with Test o => operand_ok o | Cmp a _ b => operand_ok a && operand_ok b end.
Definition and_ok (e : and_expr) : bool := cmp_ok (and_head e) && forallb cmp_ok (and_tail e).
Definition or_ok (e : or_expr) : bool := and_ok (or_head e) && forallb and_ok (or_tail e).

Definition print_operand (o : operand) : string :=
  match o with Quoted s => "'" +:+ (s +:+ "'") | Bare t => t end.
Definition print_cmp (c : comparison_expr) : string :=
  match c with
  | Test o => print_operand o
  | Cmp a op b => print_operand a +:+ (" " +:+ (relop_text op +:+ (" " +:+ print_operand b)))
  end.
Definition print_and (e : and_expr) : string :=
  join_with " && " (print_cmp <$> (and_head e :: and_tail e)).
Definition print_or (e : or_expr) : string :=
  join_with " || " (print_and <$> (or_head e :: or_tail e)).

(** A bare token is a keyword, a finite number, or a variable path. *)
Definition bare_value (t : string) (vars : gmap string Value) : Value :=
  if String.eqb t "true" then Bool true
  else if String.eqb t "false" then Bool false
  else if String.eqb t "null" then Null
  else match parse_f64 t ≫= number_from_f64 with
       | Some num => Num num
       | None => resolve_path t vars
       end.
Definition operand_value (o : operand) (vars : gmap string Value) : Value :=
  match o with Quoted s => Str s | Bare t => bare_value t vars end.
Definition cmp_holds (vars : gmap string Value) (c : comparison_expr) : bool :=
  match c with
  | Test o => truthy (operand_value o vars)
  | Cmp a op b => compare (operand_value a vars) (relop_text op) (operand_value b vars)
  end.
Definition and_holds (vars : gmap string Value) (e : and_expr) : bool :=
  forallb (cmp_holds vars) (and_head e :: and_tail e).
Definition or_holds (vars : gmap string Value) (e : or_expr) : bool :=
  existsb (and_holds vars) (or_head e :: or_tail e).

(** The unquoted characters of [s] satisfy [f] and every quote is closed. *)
Fixpoint scan_ok (f : ascii → bool) (q : option ascii) (s : string) : bool :=
  match s with
  | "" => match q with None => true | Some _ => false end
  | String c s =>
    match q with
    | Some q0 => scan_ok f (if Ascii.eqb c q0 then None else Some q0) s
    | None => if is_quote c then scan_ok f (Some c) s else f c && scan_ok f None s
    end
  end.

Definition op_char (c : ascii) : bool :=
  existsb (Ascii.eqb c) ["="%char; "!"%char; "<"%char; ">"%char].
Definition junction_char (c : ascii) : bool :=
  existsb (Ascii.eqb c) ["|"%char; "&"%char].

(** The pieces of a text joined with [" sep "] when split at [sep]. *)
Fixpoint padded (pre post p : string) (ps : list string) : list string :=
  match ps with
  | [] => [pre +:+ (p +:+ post)]
  | p' :: ps => (pre +:+ (p +:+ " ")) :: padded " " post p' ps
  end.

(** Printable ASCII other than the blank. *)
Definition solid (c : ascii) : bool := byte_in 33 126 c.
Definition solid_start (s : string) : bool :=
  match s with "" => false | String c _ => solid c end.
Definition solid_ends (s : string) : bool := solid_start s && solid_start (String.rev s).

(** ** Slices *)

Lemma str_take_drop n s : str_take n s +:+ str_drop n s = s.
Proof.
  revert s. induction n as [|n IH]; intros [|c s]; try done.
  simpl. by rewrite str_app_cons, IH.
Qed.

Lemma str_take_app s t : str_take (String.length s) (s +:+ t) = s.
Proof. induction s as [|c s IH]; [by destruct t|]. rewrite str_app_cons. simpl. by rewrite IH. Qed.

Lemma str_drop_app s t n : str_drop (String.length s + n) (s +:+ t) = str_drop n t.
Proof. induction s as [|c s IH]; [done|]. rewrite str_app_cons. simpl. done. Qed.

Lemma str_drop_0 s : str_drop 0 s = s.
Proof. by destruct s. Qed.


Lemma all_chars_app f s t : all_chars f (s +:+ t) = all_chars f s && all_chars f t.
Proof. induction s as [|c s IH]; [done|]. rewrite str_app_cons. simpl. by rewrite IH, andb_assoc. Qed.

(** ** What a found operator means *)

Lemma find_op_go_Some op q s i :
  find_op_go op q s = Some i → ∃ t, s = str_take i s +:+ (op +:+ t) ∧
    str_drop (i + String.length op) s = t.
Proof.
  revert q i. induction s as [|c s IH]; intros q i; simpl; [done|].
  assert (∀ q', S <$> find_op_go op q' s = Some i →
    ∃ t, String c s = str_take i (String c s) +:+ (op +:+ t) ∧
      str_drop (i + String.length op) (String c s) = t) as Hrec.
  { intros q' H. apply fmap_Some in H as (j & Hj & ->).
    apply IH in Hj as (t & Hs & Hd). exists t. simpl. rewrite str_app_cons.
    split; [by f_equal|done]. }
  destruct q as [q|]; [by apply Hrec|].
  destruct (is_quote c); [by apply Hrec|].
  destruct (starts_with op (String c s)) eqn:Hs; [|by apply Hrec].
  intros [= <-]. apply starts_with_spec in Hs as [t Ht].
  exists t. simpl. rewrite str_app_nil, Ht. split; [done|].
  change (String.length op) with (0 + String.length op)%nat.
  rewrite Nat.add_comm, str_drop_app. apply str_drop_0.
Qed.

Lemma starts_with_take op i s :
  starts_with op s = false → starts_with op (str_take i s) = false.
Proof.
  intros H. destruct (starts_with op (str_take i s)) eqn:E; [|done].
  apply starts_with_spec in E as [r Hr].
  rewrite <-H. symmetry. apply starts_with_spec.
  exists (r +:+ str_drop i s). by rewrite <-str_app_assoc, <-Hr, str_take_drop.
Qed.

(** Nothing before the first occurrence matches. *)
Lemma find_op_go_take op q s i :
  find_op_go op q s = Some i → find_op_go op q (str_take i s) = None.
Proof.
  revert q i. induction s as [|c s IH]; intros q i; simpl; [done|].
  destruct q as [q|].
  - intros H. apply fmap_Some in H as (j & Hj & ->). simpl. by rewrite (IH _ _ Hj).
  - destruct (is_quote c) eqn:Hq.
    + intros H. apply fmap_Some in H as (j & Hj & ->). simpl. by rewrite Hq, (IH _ _ Hj).
    + destruct (starts_with op (String c s)) eqn:Hs; [by intros [= <-]|].
      intros H. apply fmap_Some in H as (j & Hj & ->).
      pose proof (starts_with_take op (S j) (String c s) Hs) as Hs'.
      simpl in Hs'. simpl. by rewrite Hq, Hs', (IH _ _ Hj).
Qed.

(** The pieces of a split join back to the text, and no piece holds a
    top-level separator. *)
Lemma split_top_go_spec fuel rest sep :
  sep ≠ "" → String.length rest < fuel →
  join_with sep (split_top_go fuel rest sep) = rest ∧
  Forall (λ p, find_op p sep = None) (split_top_go fuel rest sep).
Proof.
  intros Hsep. revert rest. induction fuel as [|fuel IH]; intros rest Hlen; [lia|].
  simpl. destruct (find_op rest sep) as [i|] eqn:Hf; [|split; [done|by repeat constructor]].
  destruct (find_op_go_Some _ _ _ _ Hf) as (t & Ht & Hd). rewrite Hd.
  assert (String.length t < fuel) as Hlt.
  { rewrite Ht in Hlen. rewrite !str_length_app in Hlen. destruct sep; [done|]. simpl in Hlen. lia. }
  destruct (IH t Hlt) as [Hj Hall].
  split; [|constructor; [by eapply find_op_go_take|done]].
  remember (split_top_go fuel t sep) as l eqn:Hl.
  destruct l as [|w l].
  - destruct fuel; simpl in Hl; [done|]. by destruct (find_op t sep).
  - change (str_take i rest +:+ (sep +:+ join_with sep (w :: l)) = rest). by rewrite Hj.
Qed.

(** ** Scanning *)

Lemma scan_ok_weaken (f g : ascii → bool) q s :
  (∀ c, f c = true → g c = true) → scan_ok f q s = true → scan_ok g q s = true.
Proof.
  intros Hfg. revert q. induction s as [|c s IH]; intros q; simpl; [done|].
  destruct q; [apply IH|]. destruct (is_quote c); [apply IH|].
  intros [Hf Hs]%andb_prop. by rewrite Hfg, IH.
Qed.

Lemma scan_ok_app f q s t :
  scan_ok f q s = true → scan_ok f None t = true → scan_ok f q (s +:+ t) = true.
Proof.
  intros Hs Ht. revert q Hs. induction s as [|c s IH]; intros q; simpl.
  - by destruct q.
  - destruct q; [apply IH|]. destruct (is_quote c); [apply IH|].
    intros [Hf Hs]%andb_prop. by rewrite Hf, IH.
Qed.

Lemma find_op_skip o op q s t :
  scan_ok (λ c, negb (Ascii.eqb o c)) q s = true →
  find_op_go (String o op) q (s +:+ t) =
    (λ n, String.length s + n)%nat <$> find_op_go (String o op) None t.
Proof.
  revert q. induction s as [|c s IH]; intros q; simpl.
  - destruct q; [done|]. intros _. rewrite str_app_nil. by destruct (find_op_go _ _ t).
  - assert (∀ q', scan_ok (λ c, negb (Ascii.eqb o c)) q' s = true →
      S <$> find_op_go (String o op) q' (s +:+ t) =
      (λ n, S (String.length s + n))%nat <$> find_op_go (String o op) None t) as Hrec.
    { intros q' H. rewrite IH by done. by destruct (find_op_go _ _ t). }
    destruct q as [q|]; [apply Hrec|]. destruct (is_quote c); [apply Hrec|].
    intros [Hc Hs]%andb_prop. apply negb_true_iff in Hc.
    unfold starts_with. simpl. rewrite Hc. by apply Hrec.
Qed.

Lemma find_op_absent o op s :
  scan_ok (λ c, negb (Ascii.eqb o c)) None s = true → find_op s (String o op) = None.
Proof.
  intros H. unfold find_op. rewrite <-(str_app_nil_r s), find_op_skip by done. done.
Qed.

Lemma find_op_here o op t :
  is_quote o = false → find_op_go (String o op) None (String o op +:+ t) = Some O.
Proof.
  intros Hq. rewrite str_app_cons. cbn [find_op_go]. rewrite Hq.
  assert (starts_with (String o op) (String o (op +:+ t)) = true) as ->; [|done].
  apply starts_with_spec. by exists t.
Qed.

Lemma split_padded fuel pre post o sep p ps :
  let s := String o sep in
  let f := λ c, negb (Ascii.eqb o c) in
  is_quote o = false → f " "%char = true →
  scan_ok f None pre = true → scan_ok f None post = true → forallb (scan_ok f None) (p :: ps) = true →
  String.length (pre +:+ (join_with (" " +:+ (s +:+ " ")) (p :: ps) +:+ post)) < fuel →
  split_top_go fuel (pre +:+ (join_with (" " +:+ (s +:+ " ")) (p :: ps) +:+ post)) s
    = padded pre post p ps.
Proof.
  intros s f Hq Hf Hpre Hpost.
  assert (scan_ok f None " " = true) as Hsp by (simpl; rewrite Hf; done).
  revert pre p ps Hpre. induction fuel as [|fuel IH]; intros pre p ps Hpre Hok Hlen; [lia|].
  simpl in Hok. apply andb_prop in Hok as [Hp Hps].
  destruct ps as [|p' ps].
  - simpl. unfold s. rewrite find_op_absent; [done|].
    by apply scan_ok_app; [|apply scan_ok_app].
  - change (join_with (" " +:+ (s +:+ " ")) (p :: p' :: ps))
      with (p +:+ ((" " +:+ (s +:+ " ")) +:+ join_with (" " +:+ (s +:+ " ")) (p' :: ps))) in *.
    set (J := join_with (" " +:+ (s +:+ " ")) (p' :: ps)) in *.
    assert (pre +:+ ((p +:+ ((" " +:+ (s +:+ " ")) +:+ J)) +:+ post) =
      (pre +:+ (p +:+ " ")) +:+ (s +:+ (" " +:+ (J +:+ post)))) as Heq
      by (rewrite !str_app_assoc; done).
    rewrite Heq in *. clear Heq.
    simpl. unfold find_op. unfold s at 1. rewrite find_op_skip by (by repeat apply scan_ok_app).
    rewrite find_op_here by done. simpl.
    rewrite Nat.add_0_r, str_take_app, str_drop_app.
    replace (S (String.length sep)) with (String.length s + 0)%nat by (simpl; lia).
    rewrite str_drop_app, str_drop_0. f_equal. apply IH; [done..|].
    fold J. rewrite !str_length_app in Hlen. rewrite !str_length_app. simpl in Hlen. simpl String.length. lia.
Qed.

(** ** Trimming *)

Lemma solid_not_ws c : solid c = true → ws1 c = false.
Proof. unfold solid, ws1, byte_in. intros H. to_prop. apply N.leb_le in H, H0.
  apply orb_false_intro; [apply andb_false_iff; right; apply N.leb_gt; lia|].
  apply N.eqb_neq. lia.
Qed.

Lemma solid_not_lead c x y :
  solid c = true → ws2 c x = false ∧ ws3 c x y = false.
Proof.
  unfold solid, byte_in. intros H. to_prop. apply N.leb_le in H, H0.
  unfold ws2, ws3.
  assert (∀ k, (126 < k)%N → N.eqb (byte_of c) k = false) as Hk
    by (intros; apply N.eqb_neq; lia).
  by rewrite !Hk by lia.
Qed.

Lemma solid_not_trail c x y :
  solid c = true → ws2 x c = false ∧ ws3 y x c = false.
Proof.
  unfold solid, byte_in. intros H. to_prop. apply N.leb_le in H, H0.
  unfold ws2, ws3, byte_in.
  assert (∀ k, (126 < k)%N → N.eqb (byte_of c) k = false) as Hk
    by (intros; apply N.eqb_neq; lia).
  assert (N.leb 128 (byte_of c) = false) as Hl by (apply N.leb_gt; lia).
  rewrite !Hk, Hl by lia. by rewrite !andb_false_r.
Qed.

Lemma trim_start_solid s : solid_start s = true → trim_start s = s.
Proof.
  destruct s as [|c1 s1]; simpl; [done|]. intros H.
  rewrite solid_not_ws by done. destruct s1 as [|c2 s2]; [done|].
  destruct (solid_not_lead c1 c2 c2 H) as [-> _].
  destruct s2 as [|c3 s3]; [done|]. by destruct (solid_not_lead c1 c2 c3 H) as [_ ->].
Qed.

Lemma trim_start_rev_solid s : solid_start s = true → trim_start_rev s = s.
Proof.
  destruct s as [|c1 s1]; simpl; [done|]. intros H.
  rewrite solid_not_ws by done. destruct s1 as [|c2 s2]; [done|].
  destruct (solid_not_trail c1 c2 c2 H) as [-> _].
  destruct s2 as [|c3 s3]; [done|]. by destruct (solid_not_trail c1 c2 c3 H) as [_ ->].
Qed.

(** A pad is at most one blank on each side. *)
Definition pad (p : string) : Prop := p = "" ∨ p = " ".

Lemma trim_padded pre post s :
  pad pre → pad post → solid_ends s = true → trim (pre +:+ (s +:+ post)) = s.
Proof.
  intros Hpre Hpost [Hs He]%andb_prop.
  assert (trim_start (pre +:+ (s +:+ post)) = s +:+ post) as Ht.
  { assert (solid_start (s +:+ post) = true) by (destruct s; done).
    destruct Hpre as [-> | ->]; [by apply trim_start_solid|].
    change (trim_start (s +:+ post) = s +:+ post). by apply trim_start_solid. }
  unfold trim. rewrite Ht. unfold trim_end. rewrite rev_app_distr.
  assert (trim_start_rev (String.rev post +:+ String.rev s) = String.rev s) as ->.
  { destruct Hpost as [-> | ->]; [by apply trim_start_rev_solid|].
    change (trim_start_rev (String.rev s) = String.rev s). by apply trim_start_rev_solid. }
  apply rev_involutive.
Qed.

Lemma trim_solid s : solid_ends s = true → trim s = s.
Proof.
  intros H. rewrite <-(trim_padded "" "" s) at 2; [|by left|by left|done].
  by rewrite str_app_nil, str_app_nil_r.
Qed.

Lemma solid_start_app s t : solid_start s = true → solid_start (s +:+ t) = true.
Proof. by destruct s. Qed.

Lemma solid_ends_app s t u :
  solid_ends s = true → solid_ends t = true → solid_ends (s +:+ (u +:+ t)) = true.
Proof.
  intros [Hs _]%andb_prop [_ Ht]%andb_prop. unfold solid_ends.
  rewrite !rev_app_distr, !solid_start_app; [done|by apply solid_start_app|done].
Qed.

Lemma solid_ends_not_empty s : solid_ends s = true → is_empty s = false.
Proof. by destruct s. Qed.

(** ** Operands *)

Lemma token_char_solid c : token_char c = true → solid c = true.
Proof. destruct c as [[] [] [] [] [] [] [] []]; vm_compute; done. Qed.

Lemma token_char_plain c :
  token_char c = true → is_quote c = false ∧ op_char c = false ∧ junction_char c = false.
Proof. destruct c as [[] [] [] [] [] [] [] []]; vm_compute; done. Qed.

Lemma all_chars_impl (f g : ascii → bool) s :
  (∀ c, f c = true → g c = true) → all_chars f s = true → all_chars g s = true.
Proof.
  intros Hfg. induction s as [|c s IH]; simpl; [done|].
  intros [Hc Hs]%andb_prop. by rewrite Hfg, IH.
Qed.

Lemma all_chars_snoc f s c : all_chars f (s +:+ String c "") = all_chars f s && f c.
Proof. rewrite all_chars_app. simpl. by rewrite andb_true_r. Qed.

Lemma all_chars_rev f s : all_chars f (String.rev s) = all_chars f s.
Proof.
  induction s as [|c s IH]; [done|]. rewrite rev_cons, all_chars_snoc, IH. simpl.
  apply andb_comm.
Qed.

Lemma all_solid_ends s :
  is_empty s = false → all_chars solid s = true → solid_ends s = true.
Proof.
  intros Hne Hs. unfold solid_ends. apply andb_true_iff. split.
  - destruct s; simpl in *; [done|]. by apply andb_prop in Hs as [? _].
  - rewrite <-all_chars_rev in Hs. destruct (String.rev s) as [|c r] eqn:Hr.
    + apply (f_equal String.rev) in Hr. rewrite rev_involutive in Hr. by subst.
    + simpl in *. by apply andb_prop in Hs as [? _].
Qed.

Lemma operand_solid o : operand_ok o = true → solid_ends (print_operand o) = true.
Proof.
  destruct o as [s|t]; simpl.
  - intros _. by apply (solid_ends_app "'" "'" s).
  - intros [Hne Ht]%andb_prop. apply all_solid_ends; [by apply negb_true_iff|].
    eapply all_chars_impl; [|done]. apply token_char_solid.
Qed.

Definition plain_char (c : ascii) : bool := negb (op_char c) && negb (junction_char c).

Lemma scan_ok_quoted f s :
  all_chars (λ c, negb (Ascii.eqb c "'"%char)) s = true →
  scan_ok f (Some "'"%char) (s +:+ "'") = true.
Proof.
  induction s as [|c s IH]; [done|]. cbn [all_chars]. intros [Hc Hs]%andb_prop.
  rewrite str_app_cons. cbn [scan_ok]. apply negb_true_iff in Hc. rewrite Hc. by apply IH.
Qed.

Lemma scan_ok_token s : all_chars token_char s = true → scan_ok plain_char None s = true.
Proof.
  induction s as [|c s IH]; [done|]. simpl. intros [Hc Hs]%andb_prop.
  destruct (token_char_plain c Hc) as (-> & Hop & Hj). unfold plain_char.
  rewrite Hop, Hj. simpl. by apply IH.
Qed.

Lemma scan_ok_operand o : operand_ok o = true → scan_ok plain_char None (print_operand o) = true.
Proof.
  destruct o as [s|t]; simpl.
  - apply scan_ok_quoted.
  - intros [_ Ht]%andb_prop. by apply scan_ok_token.
Qed.

Lemma resolve_operand o vars :
  operand_ok o = true → resolve (print_operand o) vars = operand_value o vars.
Proof.
  intros Ho. unfold resolve. rewrite trim_solid by (by apply operand_solid).
  destruct o as [s|t]; cbn [print_operand operand_value].
  - assert (quoted_by "'" ("'" +:+ (s +:+ "'")) = true) as ->.
    { unfold quoted_by. apply andb_true_intro. split; [apply andb_true_intro; split|].
      - apply starts_with_spec. eauto.
      - unfold ends_with.
        rewrite (proj2 (strip_suffix_Some "'" ("'" +:+ (s +:+ "'")) ("'" +:+ s)));
          [done|by rewrite str_app_assoc].
      - rewrite !str_length_app. apply Nat.leb_le. simpl. lia. }
    cbn [orb]. f_equal. rewrite !str_length_app.
    replace (String.length "'" + (String.length s + String.length "'") - 2)%nat
      with (String.length s) by (simpl; lia).
    change (str_take (String.length s) (s +:+ "'") = s). apply str_take_app.
  - unfold bare_value. simpl in Ho. apply andb_prop in Ho as [Hne Ht].
    assert (∀ q, token_char q = false → quoted_by (String q "") t = false) as Hq.
    { intros q Hq. unfold quoted_by, starts_with. destruct t as [|c t]; [done|].
      simpl in Ht |- *. apply andb_prop in Ht as [Hc _].
      destruct (Ascii.eqb_spec q c) as [->|]; [congruence|done]. }
    by rewrite !Hq.
Qed.

(** ** Comparisons *)

Lemma find_op_plain o op s :
  (∀ c, plain_char c = true → negb (Ascii.eqb o c) = true) →
  scan_ok plain_char None s = true → find_op s (String o op) = None.
Proof. intros Ho Hs. apply find_op_absent. by eapply scan_ok_weaken. Qed.

Lemma plain_not_op o c :
  plain_char o = false → plain_char c = true → negb (Ascii.eqb o c) = true.
Proof. intros Ho Hc. apply negb_true_iff. destruct (Ascii.eqb_spec o c); congruence. Qed.

Lemma find_operator_absent s :
  scan_ok plain_char None s = true → find_operator OPERATORS s = None.
Proof.
  intros Hs. cbn [OPERATORS find_operator].
  rewrite !find_op_plain by (done || (intros c; by apply plain_not_op)). done.
Qed.

Lemma find_operator_present a op b :
  scan_ok plain_char None a = true → scan_ok plain_char None b = true →
  find_operator OPERATORS (a +:+ (" " +:+ (relop_text op +:+ (" " +:+ b)))) =
    Some (relop_text op, String.length (a +:+ " ")).
Proof.
  intros Ha Hb. rewrite <-str_app_assoc.
  assert (∀ o op', plain_char o = false →
    find_op ((a +:+ " ") +:+ (relop_text op +:+ (" " +:+ b))) (String o op') =
    (λ n, String.length (a +:+ " ") + n)%nat <$>
      find_op (relop_text op +:+ (" " +:+ b)) (String o op')) as Hskip.
  { intros o op' Ho. unfold find_op. apply find_op_skip.
    apply (scan_ok_weaken plain_char); [intros c; by apply plain_not_op|].
    by apply scan_ok_app. }
  assert (∀ o op', plain_char o = false → find_op b (String o op') = None) as Hb'
    by (intros; apply find_op_plain; [intros c; by apply plain_not_op|done]).
  cbn [OPERATORS find_operator].
  destruct op; cbn [relop_text] in *; rewrite !Hskip by done;
    generalize (String.length (a +:+ " ")); intros n; unfold find_op in *;
    rewrite !str_app_cons, !str_app_nil; cbn; rewrite ?Hb' by done; cbn;
    by rewrite Nat.add_0_r.
Qed.

Lemma cmp_solid c : cmp_ok c = true → solid_ends (print_cmp c) = true.
Proof.
  destruct c as [o|a op b]; simpl; [apply operand_solid|].
  intros [Ha Hb]%andb_prop. rewrite <-(str_app_assoc (relop_text op)), <-(str_app_assoc " ").
  apply solid_ends_app; by apply operand_solid.
Qed.

Lemma eval_compare_printed pre post c vars :
  pad pre → pad post → cmp_ok c = true →
  eval_compare (pre +:+ (print_cmp c +:+ post)) vars = inr (cmp_holds vars c).
Proof.
  intros Hpre Hpost Hc. unfold eval_compare.
  pose proof (cmp_solid c Hc) as Hsolid. rewrite trim_padded by done.
  rewrite solid_ends_not_empty by done. destruct c as [o|a op b]; simpl in Hc.
  - cbn [print_cmp]. rewrite find_operator_absent by (by apply scan_ok_operand).
    by rewrite resolve_operand.
  - apply andb_prop in Hc as [Ha Hb]. cbn [print_cmp].
    rewrite find_operator_present by (by apply scan_ok_operand).
    rewrite <-str_app_assoc, str_take_app, str_drop_app.
    replace (String.length (relop_text op)) with (String.length (relop_text op) + 0)%nat by lia.
    rewrite str_drop_app, str_drop_0.
    rewrite <-(str_app_nil (print_operand a +:+ " ")), <-(str_app_nil_r (print_operand b)).
    rewrite !trim_padded by (by left + by right + by apply operand_solid).
    by rewrite !resolve_operand.
Qed.

(** ** Conjunctions and disjunctions *)

Lemma scan_ok_relop op :
  scan_ok (λ c, negb (junction_char c)) None (relop_text op) = true.
Proof. by destruct op. Qed.

Lemma scan_ok_plain_junction q s :
  scan_ok plain_char q s = true → scan_ok (λ c, negb (junction_char c)) q s = true.
Proof. apply scan_ok_weaken. by intros c [_ ?]%andb_prop. Qed.

Lemma scan_ok_cmp c :
  cmp_ok c = true → scan_ok (λ c, negb (junction_char c)) None (print_cmp c) = true.
Proof.
  destruct c as [o|a op b]; simpl.
  - intros. by apply scan_ok_plain_junction, scan_ok_operand.
  - intros [Ha Hb]%andb_prop.
    repeat apply scan_ok_app; try done;
      try (by apply scan_ok_plain_junction, scan_ok_operand). apply scan_ok_relop.
Qed.

Lemma scan_ok_join f sep p ps :
  scan_ok f None sep = true → forallb (scan_ok f None) (p :: ps) = true →
  scan_ok f None (join_with sep (p :: ps)) = true.
Proof.
  intros Hsep. revert p. induction ps as [|p' ps IH]; intros p; simpl.
  - by intros [? _]%andb_prop.
  - intros [Hp Hps]%andb_prop. apply scan_ok_app; [done|]. apply scan_ok_app; [done|].
    by apply IH.
Qed.

Lemma forallb_fmap_impl {A B} (g : A → B) (f : A → bool) (h : B → bool) l :
  (∀ a, f a = true → h (g a) = true) → forallb f l = true → forallb h (g <$> l) = true.
Proof.
  intros Hfh. induction l as [|a l IH]; simpl; [done|].
  intros [Ha Hl]%andb_prop. rewrite Hfh by done. by apply IH.
Qed.

Lemma junction_not o c :
  junction_char o = true → negb (junction_char c) = true → negb (Ascii.eqb o c) = true.
Proof.
  intros Ho Hc. apply negb_true_iff. destruct (Ascii.eqb_spec o c) as [->|]; [|done].
  by rewrite Ho in Hc.
Qed.

Lemma and_ok_cons e : and_ok e = true → forallb cmp_ok (and_head e :: and_tail e) = true.
Proof. done. Qed.

Lemma scan_ok_and_no_or e :
  and_ok e = true → scan_ok (λ c, negb (Ascii.eqb "|"%char c)) None (print_and e) = true.
Proof.
  intros He. apply scan_ok_join; [done|].
  apply (forallb_fmap_impl print_cmp cmp_ok _ (and_head e :: and_tail e)); [|done].
  intros c Hc. eapply scan_ok_weaken; [|by apply scan_ok_cmp].
  intros c'. by apply junction_not.
Qed.

Lemma pad_scan f p : f " "%char = true → pad p → scan_ok f None p = true.
Proof. intros Hf [-> | ->]; [done|]. simpl. by rewrite Hf. Qed.

Lemma eval_and_printed pre post e vars :
  pad pre → pad post → and_ok e = true →
  eval_and (pre +:+ (print_and e +:+ post)) vars = inr (and_holds vars e).
Proof.
  intros Hpre Hpost He. unfold eval_and, split_top, print_and.
  rewrite fmap_cons. change " && " with (" " +:+ ("&&" +:+ " ")).
  rewrite (split_padded _ pre post "&"%char "&" _ (print_cmp <$> and_tail e));
    [|done|done|by apply pad_scan|by apply pad_scan| |exact (Nat.lt_succ_diag_r _)].
  2:{ apply (forallb_fmap_impl print_cmp cmp_ok _ (and_head e :: and_tail e)); [|done].
      intros c Hc. eapply scan_ok_weaken; [|by apply scan_ok_cmp]. intros c'. by apply junction_not. }
  unfold and_holds. unfold and_ok in He.
  revert pre Hpre He. generalize (and_head e) as c, (and_tail e) as cs. clear e.
  intros c cs. revert c. induction cs as [|c' cs IH]; intros c pre Hpre Hc;
    cbn [fmap list_fmap padded eval_and_parts forallb] in *.
  - apply andb_prop in Hc as [Hc _]. rewrite eval_compare_printed by done.
    by destruct (cmp_holds vars c).
  - apply andb_prop in Hc as [Hc Hcs].
    rewrite eval_compare_printed by (done || by right).
    destruct (cmp_holds vars c); [|done]. apply IH; [by right|done].
Qed.

Lemma eval_or_printed e vars :
  or_ok e = true → eval_or (print_or e) vars = inr (or_holds vars e).
Proof.
  intros He. unfold eval_or, split_top, print_or.
  rewrite fmap_cons. change " || " with (" " +:+ ("||" +:+ " ")).
  rewrite <-(str_app_nil_r (join_with _ _)), <-(str_app_nil (join_with _ _ +:+ "")).
  rewrite (split_padded _ "" "" "|"%char "|" _ (print_and <$> or_tail e));
    [|done|done|done|done| |exact (Nat.lt_succ_diag_r _)].
  2:{ apply (forallb_fmap_impl print_and and_ok _ (or_head e :: or_tail e)); [|done].
      apply scan_ok_and_no_or. }
  unfold or_holds. unfold or_ok in He. assert (pad "") as Hpre by by left.
  revert Hpre He. generalize "" at 1 2 as pre.
  generalize (or_head e) as c, (or_tail e) as cs. clear e.
  intros c cs. revert c. induction cs as [|c' cs IH]; intros c pre Hpre Hc;
    cbn [fmap list_fmap padded eval_or_parts existsb forallb] in *.
  - apply andb_prop in Hc as [Hc _]. rewrite eval_and_printed by (done || by left).
    by destruct (and_holds vars c).
  - apply andb_prop in Hc as [Hc Hcs].
    rewrite eval_and_printed by (done || by right).
    destruct (and_holds vars c); [done|]. apply IH; [by right|done].
Qed.

Lemma solid_join sep l :
  l ≠ [] → forallb solid_ends l = true → solid_ends (join_with sep l) = true.
Proof.
  induction l as [|w [|w' l] IH]; intros Hne; simpl; [done| |].
  - by intros [? _]%andb_prop.
  - intros [Hw Hl]%andb_prop. apply solid_ends_app; [done|]. by apply IH.
Qed.

Lemma or_solid e : or_ok e = true → solid_ends (print_or e) = true.
Proof.
  intros He. apply solid_join; [done|].
  apply (forallb_fmap_impl print_and and_ok _ (or_head e :: or_tail e)); [|done].
  intros a Ha. apply solid_join; [done|].
  apply (forallb_fmap_impl print_cmp cmp_ok _ (and_head a :: and_tail a)); [|done].
  apply cmp_solid.
Qed.

(** C40: the text evaluator implements the documented grammar.  Every
    disjunction of conjunctions of comparisons, printed, evaluates without
    error to its denotation over the variables, whatever operators, separators
    or blanks occur inside its quoted strings. *)
Theorem evaluate_printed e vars :
  or_ok e = true → evaluate (print_or e) vars = inr (or_holds vars e).
Proof.
  intros He. unfold evaluate. rewrite trim_solid by (by apply or_solid).
  rewrite solid_ends_not_empty by (by apply or_solid). by apply eval_or_printed.
Qed.

Definition guard_vars : gmap string Value :=
  {[ "label" := Str "a && b || c"; "input" := Object [("amount", json_u64 150)] ]}.
Definition guard_example : or_expr :=
  OrE (AndE (Cmp (Bare "input.amount") GtOp (Bare "200")) [])
      [AndE (Cmp (Bare "label") EqOp (Quoted "a && b || c")) [Test (Bare "input.amount")]].

Lemma evaluate_printed_witness :
  evaluate "input.amount > 200 || label == 'a && b || c' && input.amount" guard_vars = inr true.
Proof. apply (evaluate_printed guard_example guard_vars). vm_compute. reflexivity. Defined.

(** Splitting at a separator loses nothing and finds every top-level
    separator: the pieces joined with it are the text, and none of them holds
    one outside quotes. *)
Theorem split_top_complete expr sep :
  sep ≠ "" →
  join_with sep (split_top expr sep) = expr ∧
  ∀ p, p ∈ split_top expr sep → find_op p sep = None.
Proof.
  intros Hsep. destruct (split_top_go_spec (S (String.length expr)) expr sep Hsep) as [Hj Hp]; [lia|].
  split; [done|]. by apply Forall_forall.
Qed.

Lemma split_top_complete_witness :
  join_with "||" (split_top "a || 'x || y' || b" "||") = "a || 'x || y' || b" ∧
  split_top "a || 'x || y' || b" "||" = ["a "; " 'x || y' "; " b"].
Proof.
  split; [apply (split_top_complete "a || 'x || y' || b" "||"); discriminate|reflexivity].
Defined.
