(* ===== verification/Executor.v ===== *)
(** * Activity execution: the port the engine drives

    [crates/wovyr-workflow/src/executor.rs]: the context handed to an activity,
    the failure classification, the [ActivityExecutor] trait and the
    closure-backed executor.  The trait is the class [ActivityExecutor]: an
    executor is stateful and its answers are unconstrained, so a theorem over
    the class holds for every executor. *)
From stdpp Require Import base tactics list strings gmap.
From Stdlib Require Import ZArith.
From S2P Require Import Prelude.
From S2P Require Import JsonValue.

(** [progress] records whether the context carries a channel. *)
Record ActivityContext := {
  ctx_id : string;
  ctx_activity_type : string;
  ctx_name : option string;
  ctx_inputs : Value;
  ctx_variables : gmap string Value;
  ctx_attempt : Z;
  ctx_progress : bool;
}.

Inductive ActivityError :=
  | Retryable (msg : string)
  | Permanent (msg : string)
  | Interrupted (msg : string).

Definition is_retryable (e : ActivityError) : bool :=
  match e with Retryable _ => true | _ => false end.

Definition activity_error_display (e : ActivityError) : string :=
  match e with
  | Retryable m => "retryable: " +:+ m
  | Permanent m => "permanent: " +:+ m
  | Interrupted m => "interrupted: " +:+ m
  end.

(** One call of [execute]: the progress messages sent on the channel, in order
    (the engine reads them only when the context carries one), and the
    result. *)
Record Execution := {
  exec_progress : list string;
  exec_result : ActivityError + Value;
}.

(** The executor and the runtime around it: the activity executor, the clock
    and the timer of the async runtime, over one state [X]. *)
Class ActivityExecutor (X : Type) := execute : ActivityContext → X → X * Execution.
Class Clock (X : Type) := now_millis : X → Z.
Class Sleep (X : Type) := sleep : Z → X → X.

(** [ClosureExecutor]: handlers by activity id. *)
Record ClosureExecutor := {
  handlers : gmap string (ActivityContext → ActivityError + Value);
}.
Definition ClosureExecutor_new : ClosureExecutor := {| handlers := ∅ |}.
Definition ClosureExecutor_on (e : ClosureExecutor) (id : string)
    (handler : ActivityContext → ActivityError + Value) : ClosureExecutor :=
  {| handlers := <[id := handler]> (handlers e) |}.
#[export] Instance ClosureExecutor_execute : ActivityExecutor ClosureExecutor := λ ctx e,
  (e, {| exec_progress := [];
         exec_result :=
           match handlers e !! ctx_id ctx with
           | Some handler => handler ctx
           | None => inl (Permanent ("no handler registered for activity `"
                                     +:+ (ctx_id ctx +:+ "`")))
           end |}).
