(* ===== verification/Template.v ===== *)
(** * [${path}] placeholders

    [crates/wovyr-workflow/src/template.rs]: the resolution of activity inputs
    against the workflow variables, shared by the executors and the engine's
    [for_each] expansion.  The serialization of a non-string value embedded in
    a text is the JSON library's and is a parameter. *)
From stdpp Require Import base tactics list numbers strings gmap.
From Stdlib Require Import Lia ZArith Ascii.
From S2P Require Import Prelude.
From S2P Require Import RustStr.
From S2P Require Import F64.
From S2P Require Import JsonValue.
From S2P Require Import Executor.
From S2P Require Import Condition.

(** The serializers of [serde_json] the workflow crate calls. *)
Class SerdeJson := {
  json_to_string : Value → string;
  (** [to_vec], [None] when it fails. *)
  json_to_vec : Value → option string;
}.

Section template.
Context `{SerdeJson}.

Definition lookup (path : string) (ctx : ActivityContext) : Value :=
  match split_char "."%char path with
  | [] => Null
  | head :: parts =>
    match ctx_variables ctx !! head with
    | None => Null
    | Some current => descend current parts
    end
  end.

Definition value_to_string (v : Value) : string :=
  match v with
  | Str s => s
  | Null => ""
  | other => json_to_string other
  end.

(** The replacement loop: every iteration consumes a ["${"]. *)
Fixpoint substitute_go (fuel : nat) (rest out : string) (ctx : ActivityContext) : string :=
  match fuel with
  | O => out +:+ rest
  | S fuel =>
    match split_once "${" rest with
    | None => out +:+ rest
    | Some (before, after) =>
      let out := out +:+ before in
      match split_once "}" after with
      | Some (path, rest) =>
        let val := lookup (trim path) ctx in
        substitute_go fuel rest (out +:+ value_to_string val) ctx
      | None => out +:+ ("${" +:+ after)
      end
    end
  end.

Definition substitute (s : string) (ctx : ActivityContext) : Value :=
  let trimmed := trim s in
  match strip_prefix "${" trimmed ≫= strip_suffix "}" with
  | Some path => lookup (trim path) ctx
  | None => Str (substitute_go (S (String.length s)) s "" ctx)
  end.

Fixpoint template_resolve (value : Value) (ctx : ActivityContext) : Value :=
  match value with
  | Str s => substitute s ctx
  | Array items => Array (map (λ v, template_resolve v ctx) items)
  | Object m => Object (map (λ kv, (kv.1, template_resolve kv.2 ctx)) m)
  | other => other
  end.

(** ** Templates as literals and references *)

(** A text: literals interleaved with references, then a last literal. *)
Fixpoint print_template (parts : list (string * string)) (last : string) : string :=
  match parts with
  | [] => last
  | (lit, path) :: parts => lit +:+ ("${" +:+ (path +:+ ("}" +:+ print_template parts last)))
  end.
Fixpoint render_template (parts : list (string * string)) (last : string)
    (ctx : ActivityContext) : string :=
  match parts with
  | [] => last
  | (lit, path) :: parts =>
    lit +:+ (value_to_string (lookup path ctx) +:+ render_template parts last ctx)
  end.

Definition literal_ok (s : string) : bool := all_chars (λ c, negb (Ascii.eqb c "$"%char)) s.
Definition path_ok (s : string) : bool := negb (is_empty s) && all_chars token_char s.
Definition template_ok (parts : list (string * string)) (last : string) : bool :=
  forallb (λ p, literal_ok p.1 && path_ok p.2) parts && literal_ok last.

(** No string inside the value holds a placeholder opening. *)
Fixpoint placeholder_free (v : Value) : bool :=
  match v with
  | Str s => match split_once "${" s with None => true | Some _ => false end
  | Array items => forallb placeholder_free items
  | Object m => forallb (λ kv, placeholder_free kv.2) m
  | _ => true
  end.

Lemma split_once_absent a pat s :
  all_chars (λ c, negb (Ascii.eqb c a)) s = true → split_once (String a pat) s = None.
Proof.
  induction s as [|c s IH]; [done|]. cbn [all_chars]. intros [Hc Hs]%andb_prop.
  apply negb_true_iff in Hc. cbn [split_once strip_prefix].
  rewrite Ascii.eqb_sym, Hc. by rewrite IH.
Qed.

Lemma split_once_here a pat s t :
  all_chars (λ c, negb (Ascii.eqb c a)) s = true →
  split_once (String a pat) (s +:+ (String a pat +:+ t)) = Some (s, t).
Proof.
  induction s as [|c s IH].
  - intros _. rewrite str_app_nil.
    assert (strip_prefix (String a pat) (String a pat +:+ t) = Some t) as Hp
      by apply strip_prefix_app.
    rewrite str_app_cons in *. cbn [split_once]. by rewrite Hp.
  - cbn [all_chars]. intros [Hc Hs]%andb_prop. apply negb_true_iff in Hc.
    rewrite str_app_cons. cbn [split_once strip_prefix].
    rewrite Ascii.eqb_sym, Hc. by rewrite IH.
Qed.

Lemma path_ok_solid p : path_ok p = true → solid_ends p = true.
Proof.
  unfold path_ok. intros [Hne Hp]%andb_prop. apply all_solid_ends; [by apply negb_true_iff|].
  eapply all_chars_impl; [|done]. apply token_char_solid.
Qed.

Lemma path_ok_no_brace p :
  path_ok p = true → all_chars (λ c, negb (Ascii.eqb c "}"%char)) p = true.
Proof.
  unfold path_ok. intros [_ Hp]%andb_prop. eapply all_chars_impl; [|done].
  intros c. destruct c as [[] [] [] [] [] [] [] []]; vm_compute; done.
Qed.

Lemma substitute_go_template fuel parts last out ctx :
  template_ok parts last = true → length parts < fuel →
  substitute_go fuel (print_template parts last) out ctx =
    out +:+ render_template parts last ctx.
Proof.
  revert parts out. induction fuel as [|fuel IH]; intros parts out Hok Hlen; [lia|].
  unfold template_ok in Hok. apply andb_prop in Hok as [Hparts Hlast].
  destruct parts as [|[lit path] parts]; cbn [print_template render_template substitute_go].
  - by rewrite split_once_absent.
  - cbn [forallb fst snd] in Hparts. apply andb_prop in Hparts as [Hp Hparts].
    apply andb_prop in Hp as [Hlit Hpath].
    rewrite split_once_here by done.
    rewrite (split_once_here "}"%char "" path) by (by apply path_ok_no_brace).
    rewrite trim_solid by (by apply path_ok_solid).
    rewrite IH; [by rewrite !str_app_assoc| |simpl in Hlen; lia].
    unfold template_ok. by rewrite Hparts.
Qed.

Lemma print_template_length parts last :
  length parts ≤ String.length (print_template parts last).
Proof.
  induction parts as [|[lit path] parts IH]; cbn [print_template length]; [lia|].
  rewrite !str_length_app. cbn [String.length]. lia.
Qed.

Lemma trim_start_keeps_head c s :
  solid c = true → ∃ s', trim (String c s) = String c s' ∨ trim (String c s) = "".
Proof.
  intros Hc. unfold trim. rewrite trim_start_solid by done. unfold trim_end.
  destruct (trim_end_prefix (String c s)) as [u Hu]. unfold trim_end in Hu.
  destruct (String.rev (trim_start_rev (String.rev (String c s)))) as [|c' s'];
    [exists ""; by right|].
  rewrite str_app_cons in Hu. injection Hu as <- _. exists s'. by left.
Qed.

(** A text whose first character is printable and not [$] is never taken for
    one whole placeholder. *)
Lemma substitute_embedded c s ctx :
  solid c = true → Ascii.eqb "$"%char c = false →
  substitute (String c s) ctx = Str (substitute_go (S (String.length (String c s))) (String c s) "" ctx).
Proof.
  intros Hc Hd. unfold substitute.
  destruct (trim_start_keeps_head c s Hc) as [s' [-> | ->]]; [|done].
  cbn [strip_prefix]. by rewrite Hd.
Qed.

Lemma placeholder_free_resolve v ctx :
  placeholder_free v = true → template_resolve v ctx = v.
Proof.
  induction v as [ | | |s|l IH|m IH] using Value_nested_ind; simpl; try done.
  - intros Hs. unfold substitute.
    destruct (split_once "${" s) as [|] eqn:E; [done|].
    assert (strip_prefix "${" (trim s) ≫= strip_suffix "}" = None) as ->.
    { destruct (strip_prefix "${" (trim s)) as [r|] eqn:Ht; [|done]. exfalso.
      apply strip_prefix_Some in Ht. destruct (trim_infix s) as (u & v & Hs').
      rewrite Ht, str_app_assoc in Hs'. by eapply split_once_None. }
    cbn [substitute_go]. by rewrite E.
  - intros Hl. f_equal. induction IH as [|v l Hv _ IHl]; [done|]. simpl in *.
    apply andb_prop in Hl as [H1 H2]. by rewrite Hv, IHl.
  - intros Hm. f_equal. induction IH as [|[k v] m Hv _ IHm]; [done|]. simpl in *.
    apply andb_prop in Hm as [H1 H2]. by rewrite Hv, IHm.
Qed.
End template.

(** ** Properties *)

(** Resolving a text built from literals and [${path}] references replaces
    every reference by the text of the variable it names and keeps every
    literal: [substitute] is the concatenation the template describes, for
    texts whose first character is a printable one other than [$] (so that the
    text is not one whole placeholder). *)
Theorem substitute_renders_template `{SerdeJson} c lit parts last ctx :
  let parts' := (String c lit, parts.1) :: parts.2 in
  solid c = true → template_ok parts' last = true →
  template_resolve (Str (print_template parts' last)) ctx =
    Str (render_template parts' last ctx).
Proof.
  intros parts' Hc Hok. cbn [template_resolve].
  assert (Ascii.eqb "$"%char c = false) as Hd.
  { unfold template_ok, parts' in Hok. cbn [forallb fst all_chars literal_ok] in Hok.
    unfold literal_ok in Hok. cbn [all_chars] in Hok. rewrite Ascii.eqb_sym.
    by destruct (Ascii.eqb c "$"%char). }
  pose proof (print_template_length parts' last) as Hlen.
  pose proof (substitute_go_template) as Hgo.
  remember (print_template parts' last) as txt eqn:Htxt.
  assert (∃ s, txt = String c s) as [s Hs].
  { rewrite Htxt. unfold parts'. cbn [print_template]. rewrite str_app_cons. eauto. }
  rewrite Hs, substitute_embedded by done. rewrite <- Hs, Htxt.
  rewrite Hgo; [done|done|]. rewrite <- Htxt. lia.
Qed.

(** A value with no placeholder opening anywhere in it is left unchanged,
    whatever the variables are. *)
Theorem resolve_placeholder_free `{SerdeJson} v ctx :
  placeholder_free v = true → template_resolve v ctx = v.
Proof. apply placeholder_free_resolve. Qed.

Definition template_json : SerdeJson := {|
  json_to_string := λ v, match v with Num (PosInt n) => show_Z n | _ => "{}" end;
  json_to_vec := λ _, Some "";
|}.
Definition template_ctx : ActivityContext := {|
  ctx_id := "a"; ctx_activity_type := "tool"; ctx_name := None; ctx_inputs := Null;
  ctx_variables := {[ "input" := Object [("id", json_u64 7)]; "who" := Str "ada" ]};
  ctx_attempt := 1; ctx_progress := false;
|}.

Lemma substitute_renders_template_witness :
  @template_resolve template_json (Str "hi ${who}, ticket ${input.id}!") template_ctx =
    Str "hi ada, ticket 7!".
Proof.
  exact (@substitute_renders_template template_json "h"%char "i "
    ("who", [(", ticket ", "input.id")]) "!" template_ctx eq_refl eq_refl).
Defined.

Lemma resolve_placeholder_free_witness :
  @template_resolve template_json (Array [Str "a$b"; Object [("k", Str "}")]]) template_ctx =
    Array [Str "a$b"; Object [("k", Str "}")]].
Proof. apply (@resolve_placeholder_free template_json). by vm_compute. Defined.

(** A text that starts with one reference and ends with another is taken for a
    single placeholder: its path is [who}-${input.id], which no variable has,
    and the whole text becomes [Null]. *)
Example adjacent_references_become_null :
  @template_resolve template_json (Str "${who}-${input.id}") template_ctx = Null.
Proof. by vm_compute. Qed.
