(* ===== verification/Event.v ===== *)
(** * The workflow event log's records

    [crates/wovyr-workflow/src/event.rs]: the events an execution appends to
    its log, and the versioned envelope every durable store writes them in.
    The JSON (de)serializers of the envelope are the library's. *)
From stdpp Require Import base tactics strings.
From Stdlib Require Import Lia ZArith.
From S2P Require Import Prelude.
From S2P Require Import RustStr.
From S2P Require Import Common.
From S2P Require Import JsonValue.
Local Open Scope Z_scope.

Inductive WorkflowEvent :=
  | WorkflowCreated (workflow version : string)
  | WorkflowValidated
  | WorkflowScheduled
  | WorkflowStarted
  | ActivityReady (id : string)
  | ActivityStarted (id : string) (attempt : Z)
  | ActivityProgress (id : string) (attempt : Z) (message : string)
  | ActivityCompleted (id : string) (output : Value)
  | ActivitySkipped (id : string)
  | ActivityWaiting (id : string) (waiting_for : string)
  | TimerScheduled (id : string) (fire_at_ms : Z)
  | ActivityRetried (id : string) (attempt : Z) (delay_ms : Z) (reason : string)
  | ActivityFailed (id : string) (error : string)
  | WorkflowCompleted
  | WorkflowFailed (error : string)
  | WorkflowInterrupted (activity : string)
  | CompensationStarted
  | CompensationStepCompleted (activity compensation : string)
  | CompensationStepFailed (activity compensation error : string)
  | CompensationCompleted
  | WorkflowCancelled.

#[export] Instance WorkflowEvent_eq_dec : EqDecision WorkflowEvent.
Proof. solve_decision. Defined.

Definition EVENT_SCHEMA_VERSION : Z := 1.

Record VersionedEvent := { ve_v : Z; ve_event : WorkflowEvent }.

(** [serde_json::to_string] and [from_str] at [VersionedEvent]; an error is its
    message. *)
Class EventSerde := {
  event_to_string : VersionedEvent → string + string;
  event_from_str : string → string + VersionedEvent;
}.

(** The library's documented round trip at this type. *)
Definition EventSerde_roundtrip (s : EventSerde) : Prop :=
  ∀ ve, ∃ line, event_to_string ve = inr line ∧ event_from_str line = inr ve.

Definition encode_event `{EventSerde} (event : WorkflowEvent) : string + string :=
  event_to_string {| ve_v := EVENT_SCHEMA_VERSION; ve_event := event |}.

Definition decode_event `{EventSerde} (line : string) : result WorkflowEvent :=
  match event_from_str line with
  | inl e => Err (Json e)
  | inr versioned =>
    if Z.ltb EVENT_SCHEMA_VERSION (ve_v versioned) then
      Err (config ("workflow event log entry has schema version "
        +:+ show_Z (ve_v versioned)
        +:+ ", newer than this binary's version " +:+ show_Z EVENT_SCHEMA_VERSION
        +:+ " — upgrade the wovyr binary before reading this log"))
    else Ok (ve_event versioned)
  end.

(** An encoded event decodes to itself, and a line stamped by a newer binary
    is never decoded. *)
Lemma decode_encode_event `{EventSerde} e line :
  EventSerde_roundtrip _ → encode_event e = inr line → decode_event line = Ok e.
Proof.
  intros Hrt. unfold encode_event, decode_event.
  destruct (Hrt {| ve_v := EVENT_SCHEMA_VERSION; ve_event := e |}) as (l & -> & Hl).
  intros [= <-]. by rewrite Hl.
Qed.

Lemma decode_event_newer `{EventSerde} ve line :
  event_from_str line = inr ve → 1 < ve_v ve →
  ∃ msg, decode_event line = Err (Config msg).
Proof.
  intros Hl Hv. unfold decode_event. rewrite Hl.
  replace (Z.ltb EVENT_SCHEMA_VERSION (ve_v ve)) with true; [by eexists|].
  symmetry. by apply Z.ltb_lt.
Qed.
