(* ===== verification/WorkflowDef.v ===== *)
(** * Workflow definitions

    [crates/wovyr-workflow/src/definition.rs]: the parsed manifest, the
    [for_each] inputs and their budget arithmetic, the accessors the engine
    uses, the load-time validation with Kahn's cycle check, and the FNV-1a hash
    that pins an execution to the text it started with.  The YAML and JSON
    deserializers are parameters. *)
From stdpp Require Import base tactics relations list numbers strings gmap.
From Stdlib Require Import Lia ZArith Ascii.
From S2P Require Import Prelude.
From S2P Require Import RustStr.
From S2P Require Import F64.
From S2P Require Import Common.
From S2P Require Import JsonValue.
From S2P Require Import Retry.
Local Open Scope Z_scope.

(** ** Data *)

Record Metadata := { meta_name : string; meta_version : string }.
Definition default_version : string := "0.0.0".

Record ActivityDef := {
  act_id : string;
  act_type : string;
  act_name : option string;
  act_inputs : Value;
  act_retry : option RetryPolicy;
  act_compensate : option string;
}.

Record Transition := {
  tr_from : string;
  tr_to : string;
  tr_when : option string;
}.

Record Spec := {
  spec_variables : gmap string Value;
  spec_activities : list ActivityDef;
  spec_transitions : list Transition;
  spec_retry : option RetryPolicy;
}.

Record Definition_ := {
  def_api_version : option string;
  def_kind : option string;
  def_metadata : Metadata;
  def_spec : Spec;
  def_source_hash : option string;
}.

Record ForEachBody := {
  body_type : string;
  body_name : option string;
  body_inputs : Value;
  body_retry : option RetryPolicy;
}.

Record ForEachInputs := {
  fei_items : Value;
  fei_activity : ForEachBody;
  fei_max_concurrent : option Z;
  fei_max_items : option Z;
  fei_max_total_cost_usd : option f64;
  fei_max_total_tokens : option Z;
}.

Record ForEachSpec := {
  fe_items : Value;
  fe_body : ForEachBody;
  fe_max_concurrent : Z;
  fe_max_items : Z;
  fe_max_total_cost_usd : option f64;
  fe_max_total_tokens : option Z;
}.

Record ActivityUsage := { cost_usd : f64; total_tokens : Z }.

(** The deserializers derived by the library; an error is its message. *)
Class DefinitionSerde := {
  for_each_inputs_from_value : Value → string + ForEachInputs;
  definition_from_yaml : string → string + Definition_;
}.

(** ** [for_each] inputs *)

Definition is_for_each (activity_type : string) : bool :=
  bool_decide (activity_type = "for_each") || bool_decide (activity_type = "map").

Definition DEFAULT_FOR_EACH_CONCURRENCY : Z := 8.
Definition DEFAULT_FOR_EACH_MAX_ITEMS : Z := 1000.
Definition USAGE_OUTPUT_KEY : string := "__usage".

Definition f64_positive (x : f64) : bool := f64_ltb f64_zero x.

Definition ForEachSpec_parse `{DefinitionSerde} (activity : ActivityDef) : result ForEachSpec :=
  let prefix := "for_each activity `" +:+ act_id activity in
  match for_each_inputs_from_value (act_inputs activity) with
  | inl e =>
    Err (invalid (prefix +:+ "` has invalid inputs (" +:+ e
      +:+ "); expected {items: <${...} or array>, activity: {type, ...}}"))
  | inr parsed =>
    _ ← match fei_items parsed with
        | Str _ | Array _ => Ok ()
        | _ => Err (invalid (prefix +:+
                 "`: `items` must be a `${...}` reference or a literal array"))
        end;
    let bt := body_type (fei_activity parsed) in
    _ ← (if is_for_each bt || bool_decide (bt = "wait") || bool_decide (bt = "workflow") then
           Err (invalid (prefix +:+ "`: body type `" +:+ bt
             +:+ "` is engine-native and cannot run as a per-item body"))
         else Ok ());
    max_concurrent ←
      match fei_max_concurrent parsed with
      | Some n =>
        if Z.eqb n 0 then Err (invalid (prefix +:+ "`: max_concurrent must be at least 1"))
        else Ok n
      | None => Ok DEFAULT_FOR_EACH_CONCURRENCY
      end;
    max_items ←
      match fei_max_items parsed with
      | Some n =>
        if Z.eqb n 0 then Err (invalid (prefix +:+ "`: max_items must be at least 1"))
        else Ok n
      | None => Ok DEFAULT_FOR_EACH_MAX_ITEMS
      end;
    _ ← match fei_max_total_cost_usd parsed with
        | Some cap =>
          if negb (f64_is_finite cap) || f64_leb cap f64_zero then
            Err (invalid (prefix
              +:+ "`: max_total_cost_usd must be a finite value greater than 0 (got "
              +:+ show_f64 cap +:+ ")"))
          else Ok ()
        | None => Ok ()
        end;
    _ ← (if bool_decide (fei_max_total_tokens parsed = Some 0) then
           Err (invalid (prefix +:+ "`: max_total_tokens must be at least 1"))
         else Ok ());
    Ok {| fe_items := fei_items parsed;
          fe_body := fei_activity parsed;
          fe_max_concurrent := max_concurrent;
          fe_max_items := max_items;
          fe_max_total_cost_usd := fei_max_total_cost_usd parsed;
          fe_max_total_tokens := fei_max_total_tokens parsed |}
  end.

(** ** Usage accounting *)

Definition ActivityUsage_default : ActivityUsage := {| cost_usd := f64_zero; total_tokens := 0 |}.

Definition ActivityUsage_from_output (output : Value) : ActivityUsage :=
  match value_get USAGE_OUTPUT_KEY output with
  | None => ActivityUsage_default
  | Some usage =>
    let cost :=
      match value_get "cost_usd" usage ≫= as_f64 with
      | Some c => if f64_is_finite c && f64_leb f64_zero c then c else f64_zero
      | None => f64_zero
      end in
    let tokens := default 0 (value_get "total_tokens" usage ≫= as_u64) in
    {| cost_usd := cost; total_tokens := tokens |}
  end.

Definition ActivityUsage_add (self other : ActivityUsage) : ActivityUsage :=
  {| cost_usd := f64_add (cost_usd self) (cost_usd other);
     total_tokens := u64_saturating_add (total_tokens self) (total_tokens other) |}.

Definition ActivityUsage_exceeds (self : ActivityUsage)
    (max_total_cost_usd : option f64) (max_total_tokens : option Z) : option string :=
  let cost :=
    match max_total_cost_usd with
    | Some cap =>
      if f64_ltb cap (cost_usd self) then
        Some ("aggregate cost $" +:+ show_f64_fixed 6 (cost_usd self)
          +:+ " crossed the max_total_cost_usd budget of $" +:+ show_f64_fixed 6 cap)
      else None
    | None => None
    end in
  match cost with
  | Some why => Some why
  | None =>
    match max_total_tokens with
    | Some cap =>
      if Z.ltb cap (total_tokens self) then
        Some ("aggregate usage of " +:+ show_Z (total_tokens self)
          +:+ " tokens crossed the max_total_tokens budget of " +:+ show_Z cap)
      else None
    | None => None
    end
  end.

(** ** Accessors *)

Definition activity (d : Definition_) (id : string) : option ActivityDef :=
  List.find (λ a, String.eqb (act_id a) id) (spec_activities (def_spec d)).

Definition compensation_targets (d : Definition_) : gset string :=
  list_to_set (omap act_compensate (spec_activities (def_spec d))).

Definition inbound (d : Definition_) (id : string) : list Transition :=
  List.filter (λ t, String.eqb (tr_to t) id) (spec_transitions (def_spec d)).

Definition predecessors (d : Definition_) (id : string) : list string :=
  map tr_from (List.filter (λ t, String.eqb (tr_to t) id) (spec_transitions (def_spec d))).

Definition retry_for (d : Definition_) (id : string) : RetryPolicy :=
  match activity d id ≫= act_retry with
  | Some p => p
  | None => default RetryPolicy_default (spec_retry (def_spec d))
  end.

(** ** Validation

    [None] stands for a panic ([expect]) or an underflowing counter. *)

Fixpoint count_indegrees (ts : list Transition) (indegree : gmap string nat)
    : option (gmap string nat) :=
  match ts with
  | [] => Some indegree
  | t :: ts =>
    n ← indegree !! tr_to t;
    count_indegrees ts (<[tr_to t := S n]> indegree)
  end.

(** The loop over the edges leaving a popped node. *)
Fixpoint release (out : list Transition) (indegree : gmap string nat) (queue : list string)
    : option (gmap string nat * list string) :=
  match out with
  | [] => Some (indegree, queue)
  | t :: out =>
    n ← indegree !! tr_to t;
    match n with
    | O => None
    | S n =>
      release out (<[tr_to t := n]> indegree)
        (match n with O => tr_to t :: queue | S _ => queue end)
    end
  end.

(** [while let Some(node) = queue.pop()]: the queue is a stack, its top first. *)
Fixpoint kahn (fuel : nat) (ts : list Transition) (indegree : gmap string nat)
    (queue : list string) (visited : nat) : option nat :=
  match queue with
  | [] => Some visited
  | node :: queue =>
    match fuel with
    | O => None
    | S fuel =>
      '(indegree, queue) ← release (List.filter (λ t, String.eqb (tr_from t) node) ts)
                             indegree queue;
      kahn fuel ts indegree queue (S visited)
    end
  end.

Definition activity_ids (d : Definition_) : list string :=
  map act_id (spec_activities (def_spec d)).

Definition check_acyclic (d : Definition_) : option (result ()) :=
  let zero := list_to_map (map (λ id, (id, O)) (activity_ids d)) : gmap string nat in
  indegree ← count_indegrees (spec_transitions (def_spec d)) zero;
  let queue := reverse (omap (λ p, match p.2 with O => Some p.1 | S _ => None end)
                         (btree_iter indegree)) in
  visited ← kahn (length (spec_activities (def_spec d)))
              (spec_transitions (def_spec d)) indegree queue O;
  Some (if negb (Nat.eqb visited (length (spec_activities (def_spec d))))
        then Err (invalid "workflow graph contains a cycle")
        else Ok ()).

Fixpoint check_ids (seen : gset string) (acts : list ActivityDef) : result (gset string) :=
  match acts with
  | [] => Ok seen
  | a :: acts =>
    if is_empty (trim (act_id a)) then Err (invalid "activity id must not be empty")
    else if contains_char "["%char (act_id a) || contains_char "]"%char (act_id a) then
      Err (invalid ("activity id `" +:+ act_id a
        +:+ "` must not contain `[`/`]` (reserved for for_each item-instance ids)"))
    else if bool_decide (act_id a ∈ seen) then
      Err (invalid ("duplicate activity id `" +:+ act_id a +:+ "`"))
    else check_ids ({[act_id a]} ∪ seen) acts
  end.

Definition check_for_each `{DefinitionSerde} (a : ActivityDef) : result () :=
  if is_for_each (act_type a) then _ ← ForEachSpec_parse a; Ok () else Ok ().

Definition check_compensate (ids : gset string) (a : ActivityDef) : result () :=
  match act_compensate a with
  | Some comp =>
    if bool_decide (comp ∈ ids) then Ok ()
    else Err (invalid ("activity `" +:+ act_id a
           +:+ "` compensates with unknown activity `" +:+ comp +:+ "`"))
  | None => Ok ()
  end.

Definition check_transition (ids : gset string) (t : Transition) : result () :=
  if negb (bool_decide (tr_from t ∈ ids)) then
    Err (invalid ("transition references unknown activity `" +:+ tr_from t +:+ "`"))
  else if negb (bool_decide (tr_to t ∈ ids)) then
    Err (invalid ("transition references unknown activity `" +:+ tr_to t +:+ "`"))
  else Ok ().

Definition check_manifest `{DefinitionSerde} (d : Definition_) : result () :=
  _ ← match def_kind d with
      | Some kind =>
        if bool_decide (kind = "Workflow") then Ok ()
        else Err (invalid ("unsupported kind `" +:+ kind +:+ "`, expected `Workflow`"))
      | None => Ok ()
      end;
  _ ← (if is_empty (trim (meta_name (def_metadata d)))
       then Err (invalid "metadata.name must not be empty") else Ok ());
  _ ← match spec_activities (def_spec d) with
      | [] => Err (invalid "a workflow must declare at least one activity")
      | _ => Ok ()
      end;
  ids ← check_ids ∅ (spec_activities (def_spec d));
  _ ← collect check_for_each (spec_activities (def_spec d));
  _ ← collect (check_compensate ids) (spec_activities (def_spec d));
  _ ← collect (check_transition ids) (spec_transitions (def_spec d));
  Ok ().

Definition validate `{DefinitionSerde} (d : Definition_) : option (result ()) :=
  match check_manifest d with
  | Err e => Some (Err e)
  | Ok _ => check_acyclic d
  end.

(** ** Content hash and parsing *)

Definition hex_digit (n : Z) : ascii :=
  ascii_of_N (Z.to_N (if Z.ltb n 10 then 48 + n else 87 + n)).
(** The [n] low hexadecimal digits of [z]: [{:016x}] is [show_hex 16] on a [u64]. *)
Fixpoint show_hex (n : nat) (z : Z) (acc : string) : string :=
  match n with
  | O => acc
  | S n => show_hex n (z / 16) (String (hex_digit (z mod 16)) acc)
  end.

Definition fnv_offset : Z := 0xcbf29ce484222325.
Definition fnv_prime : Z := 0x00000100000001b3.
Definition fnv_step (h : Z) (b : ascii) : Z :=
  u64_wrapping_mul (Z.lxor h (Z.of_N (byte_of b))) fnv_prime.
Fixpoint fnv_bytes (h : Z) (text : string) : Z :=
  match text with
  | "" => h
  | String b text => fnv_bytes (fnv_step h b) text
  end.
Definition content_hash (text : string) : string := show_hex 16 (fnv_bytes fnv_offset text) "".

Definition set_source_hash (d : Definition_) (h : option string) : Definition_ :=
  {| def_api_version := def_api_version d; def_kind := def_kind d;
     def_metadata := def_metadata d; def_spec := def_spec d; def_source_hash := h |}.

Definition from_yaml `{DefinitionSerde} (yaml : string) : option (result Definition_) :=
  match definition_from_yaml yaml with
  | inl e => Some (Err (invalid ("invalid workflow manifest: " +:+ e)))
  | inr def =>
    r ← validate def;
    Some (match r with
          | Err e => Err e
          | Ok _ => Ok (set_source_hash def (Some (content_hash yaml)))
          end)
  end.
