(* ===== verification/WorkflowValid.v ===== *)
(** * Correctness of load-time validation

    The graph of a definition, Kahn's loop against it, and the meaning of
    [validate]: it never panics, always terminates, and accepts exactly the
    well-formed definitions.  Also the load-time guarantees of [for_each]
    inputs, the budget arithmetic and the content hash. *)
From stdpp Require Import base tactics relations list numbers strings gmap sets.
From Stdlib Require Import Lia ZArith Ascii.
From S2P Require Import Prelude.
From S2P Require Import RustStr.
From S2P Require Import F64.
From S2P Require Import Common.
From S2P Require Import JsonValue.
From S2P Require Import Retry.
From S2P Require Import WorkflowDef.


(** ** Counting edges *)

Definition into (v : string) (t : Transition) : bool := String.eqb (tr_to t) v.
Definition out_of (v : string) (t : Transition) : bool := String.eqb (tr_from t) v.

(** The number of edges into [v], and of those whose source is not in [done]. *)
Definition count_in (ts : list Transition) (v : string) : nat := length (List.filter (into v) ts).
Definition count_open (ts : list Transition) (done : list string) (v : string) : nat :=
  length (List.filter (λ t, into v t && negb (bool_decide (tr_from t ∈ done))) ts).

Definition edge (d : Definition_) (u v : string) : Prop :=
  ∃ t, t ∈ spec_transitions (def_spec d) ∧ tr_from t = u ∧ tr_to t = v.
Definition acyclic (d : Definition_) : Prop := ∀ x, ¬ tc (edge d) x x.

(** What a definition must satisfy to be loaded. *)
Record well_formed `{DefinitionSerde} (d : Definition_) : Prop := {
  wf_kind : default "Workflow" (def_kind d) = "Workflow";
  wf_name : is_empty (trim (meta_name (def_metadata d))) = false;
  wf_nonempty : spec_activities (def_spec d) ≠ [];
  wf_ids : NoDup (activity_ids d);
  wf_id_text : ∀ id, id ∈ activity_ids d →
    is_empty (trim id) = false ∧ contains_char "["%char id = false ∧
    contains_char "]"%char id = false;
  wf_for_each : ∀ a, a ∈ spec_activities (def_spec d) → is_for_each (act_type a) = true →
    ∃ fe, ForEachSpec_parse a = Ok fe;
  wf_compensate : ∀ a c, a ∈ spec_activities (def_spec d) → act_compensate a = Some c →
    c ∈ activity_ids d;
  wf_edges : ∀ t, t ∈ spec_transitions (def_spec d) →
    tr_from t ∈ activity_ids d ∧ tr_to t ∈ activity_ids d;
  wf_acyclic : acyclic d;
}.

(** ** The counters *)

Lemma count_open_zero ts done v :
  count_open ts done v = 0 ↔ ∀ t, t ∈ ts → tr_to t = v → tr_from t ∈ done.
Proof.
  unfold count_open. rewrite length_zero_iff_nil. split.
  - intros Hnil t Ht <-. destruct (decide (tr_from t ∈ done)) as [|Hd]; [done|]. exfalso.
    assert (t ∈ @nil Transition) as Hbad; [|by apply not_elem_of_nil in Hbad].
    rewrite <- Hnil. apply filter_elem. split; [done|]. unfold into. rewrite String.eqb_refl.
    by rewrite bool_decide_eq_false_2.
  - intros Hall. destruct (List.filter _ ts) as [|t l] eqn:E; [done|]. exfalso.
    assert (t ∈ t :: l) as Hin by set_solver. rewrite <- E in Hin.
    apply filter_elem in Hin as [Ht Hin]. to_prop. unfold into in *.
    match goal with H : String.eqb _ _ = true |- _ => apply String.eqb_eq in H end. eauto.
Qed.

Lemma count_open_nil ts v : count_open ts [] v = count_in ts v.
Proof.
  unfold count_open, count_in. f_equal. apply List.filter_ext. intros t.
  rewrite bool_decide_eq_false_2 by apply not_elem_of_nil. by rewrite andb_true_r.
Qed.

Lemma count_open_cons ts done node v :
  node ∉ done →
  count_open ts done v =
    count_open ts (node :: done) v + count_in (List.filter (out_of node) ts) v.
Proof.
  intros Hnode. unfold count_open, count_in. induction ts as [|t ts IH]; [done|]. simpl.
  unfold out_of at 1. destruct (String.eqb_spec (tr_from t) node) as [Ht|Ht]; simpl.
  - rewrite (bool_decide_eq_false_2 (tr_from t ∈ done)) by congruence.
    rewrite (bool_decide_eq_true_2 (tr_from t ∈ node :: done)) by set_solver.
    rewrite andb_false_r, andb_true_r. destruct (into v t); simpl; lia.
  - rewrite (bool_decide_ext (tr_from t ∈ node :: done) (tr_from t ∈ done)) by set_solver.
    destruct (into v t && _); simpl; lia.
Qed.

Lemma count_indegrees_spec ts m :
  (∀ t, t ∈ ts → is_Some (m !! tr_to t)) →
  ∃ m', count_indegrees ts m = Some m' ∧
    ∀ v, m' !! v = (λ n, n + count_in ts v) <$> m !! v.
Proof.
  revert m. induction ts as [|t ts IH]; intros m Hm; simpl.
  - exists m. split; [done|]. intros v. unfold count_in. simpl.
    destruct (m !! v); simpl; [f_equal; lia|done].
  - destruct (Hm t) as [n Hn]; [set_solver|]. rewrite Hn. simpl.
    destruct (IH (<[tr_to t:=S n]> m)) as (m' & Heq & Hv).
    { intros t' Ht'. destruct (decide (tr_to t' = tr_to t)) as [->|Hne].
      - rewrite lookup_insert_eq. eauto.
      - rewrite lookup_insert_ne by done. apply Hm. set_solver. }
    exists m'. split; [done|]. intros v. rewrite Hv. unfold count_in. simpl. unfold into at 2.
    destruct (String.eqb_spec (tr_to t) v) as [<-|Hne].
    + rewrite lookup_insert_eq, Hn. simpl. f_equal. lia.
    + by rewrite lookup_insert_ne.
Qed.

(** The edges leaving a node: every counter drops by its edges, and the nodes
    whose counter reaches zero are pushed, each once. *)
Lemma release_spec out m q :
  (∀ v n, m !! v = Some n → count_in out v ≤ n) →
  (∀ t, t ∈ out → is_Some (m !! tr_to t)) →
  ∃ m' new, release out m q = Some (m', new ++ q) ∧ NoDup new ∧
    (∀ v, m' !! v = (λ n, n - count_in out v) <$> m !! v) ∧
    (∀ v, v ∈ new ↔ m !! v = Some (count_in out v) ∧ 0 < count_in out v).
Proof.
  revert m q. induction out as [|t out IH]; intros m q Hle Hm; simpl.
  - exists m, []. split; [done|]. split; [constructor|]. split.
    + intros v. unfold count_in. simpl. destruct (m !! v); simpl; [f_equal; lia|done].
    + intros v. unfold count_in. simpl. split; [by intros ?%not_elem_of_nil|lia].
  - destruct (Hm t) as [n Hn]; [set_solver|]. rewrite Hn. simpl.
    assert (∀ v, count_in (t :: out) v =
      (if String.eqb (tr_to t) v then 1 else 0) + count_in out v) as Hcnt.
    { intros v. unfold count_in. simpl. unfold into at 1. by destruct (String.eqb (tr_to t) v). }
    assert (count_in (t :: out) (tr_to t) = S (count_in out (tr_to t))) as Hct
      by (by rewrite Hcnt, String.eqb_refl).
    pose proof (Hle _ _ Hn) as Hn1. rewrite Hct in Hn1.
    destruct n as [|n]; [lia|].
    destruct (IH (<[tr_to t:=n]> m) (match n with O => tr_to t :: q | S _ => q end))
      as (m' & new & Heq & Hnd & Hm' & Hnew).
    { intros v k. rewrite lookup_insert. case_decide as Hv; [subst|].
      - intros [= <-]. lia.
      - intros Hk. specialize (Hle _ _ Hk). rewrite Hcnt in Hle. lia. }
    { intros t' Ht'. rewrite lookup_insert. case_decide; [eauto|]. apply Hm. set_solver. }
    assert (∀ v, m' !! v = (λ n, n - count_in (t :: out) v) <$> m !! v) as Hm''.
    { intros v. rewrite Hm', lookup_insert, Hcnt. case_decide as Hv; [subst v|].
      - rewrite Hn, String.eqb_refl. simpl. f_equal.
      - destruct (String.eqb_spec (tr_to t) v); [done|]. by destruct (m !! v). }
    assert (∀ v, v ≠ tr_to t → count_in (t :: out) v = count_in out v) as Hother.
    { intros v Hv. rewrite Hcnt. by destruct (String.eqb_spec (tr_to t) v). }
    destruct n as [|n].
    + exists m', (new ++ [tr_to t]). rewrite Heq, <- app_assoc. split; [done|].
      assert (tr_to t ∉ new) as Hfresh.
      { rewrite Hnew, lookup_insert_eq. intros [[= Hz] ?]. lia. }
      split; [apply NoDup_app; split; [done|]; split; [set_solver|apply NoDup_singleton]|].
      split; [done|]. intros v. rewrite elem_of_app, list_elem_of_singleton, Hnew.
      rewrite lookup_insert. case_decide as Hv; [subst v|].
      * rewrite Hct, Hn. split; [intros _|by right]. split; [|lia]. do 2 f_equal. lia.
      * rewrite Hother by done. naive_solver.
    + exists m', new. rewrite Heq. split; [done|]. split; [done|]. split; [done|].
      intros v. rewrite Hnew, lookup_insert. case_decide as Hv; [subst v|].
      * rewrite Hct, Hn. split; intros [[= Hk] ?]; (split; [f_equal|]; lia).
      * by rewrite Hother.
Qed.

(** ** Kahn's loop *)

Section kahn.
Context (V : list string) (ts : list Transition).
Hypothesis ts_closed : ∀ t, t ∈ ts → tr_from t ∈ V ∧ tr_to t ∈ V.

(** [done] holds the visited nodes, latest first: every node comes after all
    its predecessors. *)
Fixpoint topological (done : list string) : Prop :=
  match done with
  | [] => True
  | v :: done => (∀ t, t ∈ ts → tr_to t = v → tr_from t ∈ done) ∧ topological done
  end.

Record kahn_inv (done : list string) (m : gmap string nat) (queue : list string) : Prop := {
  ki_map : ∀ v, m !! v = if decide (v ∈ V) then Some (count_open ts done v) else None;
  ki_nodup : NoDup (queue ++ done);
  ki_zero : ∀ v, v ∈ queue ++ done ↔ v ∈ V ∧ count_open ts done v = 0;
  ki_topological : topological done;
}.

Lemma kahn_inv_subset done m queue :
  kahn_inv done m queue → length (queue ++ done) ≤ length V.
Proof.
  intros Hinv. apply submseteq_length, NoDup_submseteq; [by apply ki_nodup in Hinv|].
  intros v Hv. by apply (ki_zero _ _ _ Hinv) in Hv as [? _].
Qed.

Lemma kahn_step done m node queue :
  kahn_inv done m (node :: queue) →
  ∃ m' queue', release (List.filter (out_of node) ts) m queue = Some (m', queue') ∧
    kahn_inv (node :: done) m' queue'.
Proof.
  intros [Hmap Hnd Hzero Htopo].
  assert (node ∉ done) as Hnode by (apply NoDup_cons in Hnd as [Hn _]; set_solver).
  assert (node ∈ V ∧ count_open ts done node = 0) as [HnV Hn0] by (apply Hzero; set_solver).
  set (out := List.filter (out_of node) ts).
  assert (∀ v, count_open ts done v = count_open ts (node :: done) v + count_in out v) as Hcount
    by (intros v; by apply count_open_cons).
  destruct (release_spec out m queue) as (m' & new & Hrel & Hnew_nd & Hm' & Hnew).
  { intros v n Hv. rewrite Hmap in Hv. case_decide; simplify_eq. rewrite Hcount. lia. }
  { intros t Ht. apply filter_elem in Ht as [Ht _]. rewrite Hmap, decide_True by
      (by apply ts_closed). eauto. }
  exists m', (new ++ queue). split; [done|].
  assert (∀ v, v ∈ new ↔ v ∈ V ∧ 0 < count_open ts done v ∧
    count_open ts (node :: done) v = 0) as Hnew'.
  { intros v. rewrite Hnew, Hmap. case_decide as HvV.
    - rewrite Hcount. split; [intros [[= Hv] ?]|intros (_ & ? & ?)];
        [split; [done|]; lia|split; [f_equal; lia|lia]].
    - split; [by intros [? _]|tauto]. }
  split.
  - intros v. rewrite Hm', Hmap. case_decide; [|done]. simpl. f_equal. rewrite Hcount. lia.
  - assert (Permutation ((new ++ queue) ++ node :: done) (new ++ (node :: queue) ++ done)) as Hp.
    { rewrite <- app_assoc. f_equiv. simpl. by rewrite <- Permutation_middle. }
    rewrite Hp. apply NoDup_app. split; [done|]. split; [|done].
    intros v Hv Hold. apply Hnew' in Hv as (_ & Hpos & _). apply Hzero in Hold as [_ H0]. lia.
  - intros v. split.
    + intros Hv. assert (v ∈ new ∨ v ∈ (node :: queue) ++ done) as [Hvn|Hvo] by set_solver.
      * apply Hnew' in Hvn as (? & _ & ?). done.
      * apply Hzero in Hvo as [HvV Hv0]. split; [done|]. specialize (Hcount v). lia.
    + intros [HvV Hv0]. destruct (decide (count_open ts done v = 0)) as [H0|H0].
      * assert (v ∈ (node :: queue) ++ done) as Hv by by apply Hzero. set_solver.
      * assert (v ∈ new) as Hv by (apply Hnew'; split; [done|]; lia). set_solver.
  - simpl. split; [|done]. by apply count_open_zero.
Qed.

(** The loop ends within [length V] iterations, having visited exactly the
    nodes of a topologically ordered list closed under "all predecessors". *)
Lemma kahn_run fuel done m queue :
  kahn_inv done m queue → length V ≤ fuel + length done →
  ∃ done' m', kahn fuel ts m queue (length done) = Some (length done') ∧
    kahn_inv done' m' [].
Proof.
  revert done m queue. induction fuel as [|fuel IH]; intros done m queue Hinv Hfuel.
  - pose proof (kahn_inv_subset _ _ _ Hinv) as Hlen. rewrite length_app in Hlen.
    destruct queue; [|simpl in Hlen; lia]. eexists _, _. split; [done|done].
  - destruct queue as [|node queue]; [by eexists _, _|]. cbn [kahn].
    destruct (kahn_step _ _ _ _ Hinv) as (m' & queue' & Hrel & Hinv').
    unfold out_of in Hrel. rewrite Hrel. simpl.
    apply (IH (node :: done) m' queue' Hinv'). simpl. lia.
Qed.

Lemma kahn_initial m :
  (∀ v, m !! v = if decide (v ∈ V) then Some (count_in ts v) else None) →
  kahn_inv [] m (reverse (omap (λ p, match p.2 with O => Some p.1 | S _ => None end)
                           (btree_iter m))).
Proof.
  intros Hm.
  assert (∀ v, v ∈ reverse (omap (λ p, match p.2 with O => Some p.1 | S _ => None end)
                           (btree_iter m)) ↔ m !! v = Some 0) as Helem.
  { intros v. rewrite elem_of_reverse, list_elem_of_omap. split.
    - intros ([k n] & Hk & Heq). destruct n; simplify_eq/=. by apply btree_iter_elem in Hk.
    - intros Hv. exists (v, 0). by rewrite btree_iter_elem. }
  split.
  - intros v. rewrite Hm. case_decide; [|done]. by rewrite count_open_nil.
  - rewrite app_nil_r, reverse_Permutation. unfold btree_iter.
    assert (∀ ks, NoDup ks → NoDup (omap (λ p : string * nat,
      match p.2 with O => Some p.1 | S _ => None end) (omap (λ k, pair k <$> m !! k) ks))) as Hg.
    { induction ks as [|k ks IH]; [by constructor|]. rewrite NoDup_cons. intros [Hk Hks]. simpl.
      destruct (m !! k) as [[|n]|]; simpl; [|by apply IH|by apply IH].
      rewrite NoDup_cons. split; [|by apply IH].
      intros ([k' n] & (k'' & Hin & Hkk)%list_elem_of_omap & Heq)%list_elem_of_omap.
      apply fmap_Some in Hkk as (? & ? & ?). destruct n; by simplify_eq/=. }
    apply Hg, btree_keys_nodup.
  - intros v. rewrite app_nil_r, Helem, Hm, count_open_nil.
    case_decide; naive_solver.
  - done.
Qed.
End kahn.

(** A topologically ordered list has no cycle among its elements. *)
Lemma topological_app ts l1 l2 : topological ts (l1 ++ l2) → topological ts l2.
Proof. induction l1 as [|v l1 IH]; [done|]. simpl. intros [_ ?]. by apply IH. Qed.

Lemma topological_tc d done u v :
  topological (spec_transitions (def_spec d)) done →
  tc (edge d) u v → ∀ l1 l2, done = l1 ++ v :: l2 → u ∈ l2.
Proof.
  intros Htopo. revert v. refine (tc_ind_r (λ v, ∀ l1 l2, done = l1 ++ v :: l2 → u ∈ l2) u _ _).
  - intros v (t & Ht & Hf & <-) l1 l2 ->.
    apply topological_app in Htopo as [Hpre _]. rewrite <- Hf. by apply Hpre.
  - intros w v _ (t & Ht & Hf & <-) IH l1 l2 ->.
    pose proof Htopo as Htopo'. apply topological_app in Htopo' as [Hpre _].
    assert (w ∈ l2) as Hw by (rewrite <- Hf; by apply Hpre).
    apply list_elem_of_split in Hw as (k1 & k2 & ->).
    assert (u ∈ k2); [|set_solver].
    apply (IH (l1 ++ tr_to t :: k1)). by rewrite <- app_assoc.
Qed.

Lemma topological_acyclic d done :
  NoDup done → topological (spec_transitions (def_spec d)) done →
  ∀ v, v ∈ done → ¬ tc (edge d) v v.
Proof.
  intros Hnd Htopo v Hv Hcyc. apply list_elem_of_split in Hv as (l1 & l2 & ->).
  assert (v ∈ l2) by (by eapply (topological_tc d); eauto).
  apply NoDup_app in Hnd as (_ & _ & Hnd). apply NoDup_cons in Hnd as [? _]. done.
Qed.

Lemma tc_edge_source d u v :
  tc (edge d) u v → ∃ t, t ∈ spec_transitions (def_spec d) ∧ tr_from t = u.
Proof. by intros [? ? (t & ? & ? & ?)|? ? ? (t & ? & ? & ?) _]; exists t. Qed.

Lemma tc_flip {A} (R : relation A) x y : tc (flip R) x y → tc R y x.
Proof.
  induction 1 as [x y Hxy|x y z Hxy _ IH]; [by apply tc_once|].
  by apply tc_r with y.
Qed.

(** In a finite acyclic graph, a set every member of which has a predecessor in
    the set is empty. *)
Lemma acyclic_no_trap d (P : string → Prop) (V : list string) v :
  acyclic d → (∀ t, t ∈ spec_transitions (def_spec d) → tr_from t ∈ V) →
  (∀ v, P v → ∃ u, edge d u v ∧ P u) → ¬ P v.
Proof.
  intros Hac HV Hpred Hv.
  assert (sn (flip (edge d)) v) as Hsn.
  { apply tc_finite_sn.
    - intros x Hx. apply (Hac x). by apply tc_flip.
    - exists V. intros x Hx. apply tc_flip in Hx.
      apply tc_edge_source in Hx as (t & Ht & <-). by apply HV. }
  induction Hsn as [v _ IH]. destruct (Hpred v Hv) as (u & Huv & Hu). by apply (IH u).
Qed.

(** ** [check_acyclic] *)

Lemma zero_map_lookup (ids : list string) v :
  (list_to_map (map (λ id, (id, O)) ids) : gmap string nat) !! v =
    if decide (v ∈ ids) then Some 0 else None.
Proof.
  induction ids as [|id ids IH]; simpl; [by rewrite lookup_empty|].
  destruct (decide (v = id)) as [->|Hne].
  - rewrite lookup_insert_eq, decide_True; [done|set_solver].
  - rewrite lookup_insert_ne, IH by done. by apply decide_ext; set_solver.
Qed.

Lemma check_acyclic_spec d :
  NoDup (activity_ids d) →
  (∀ t, t ∈ spec_transitions (def_spec d) → tr_from t ∈ activity_ids d ∧ tr_to t ∈ activity_ids d) →
  (check_acyclic d = Some (Ok ()) ∧ acyclic d) ∨
  (check_acyclic d = Some (Err (Invalid "workflow graph contains a cycle")) ∧ ¬ acyclic d).
Proof.
  intros Hnd Hclosed. unfold check_acyclic.
  set (ts := spec_transitions (def_spec d)) in *. set (V := activity_ids d) in *.
  assert (length (spec_activities (def_spec d)) = length V) as Hlen
    by (unfold V, activity_ids; by rewrite List.length_map).
  destruct (count_indegrees_spec ts (list_to_map (map (λ id, (id, O)) V)))
    as (m & -> & Hm).
  { intros t Ht. rewrite zero_map_lookup, decide_True by (by apply Hclosed). eauto. }
  cbn [mbind option_bind]. rewrite Hlen.
  assert (∀ v, m !! v = if decide (v ∈ V) then Some (count_in ts v) else None) as Hm'.
  { intros v. rewrite Hm, zero_map_lookup. by case_decide. }
  destruct (kahn_run V ts Hclosed (length V) [] m _ (kahn_initial V ts Hclosed m Hm')) as
    (done & m' & Hkahn & Hinv); [simpl; lia|].
  simpl in Hkahn. rewrite Hkahn. cbn [mbind option_bind].
  pose proof (ki_nodup _ _ _ _ _ Hinv) as Hdnd. simpl in Hdnd.
  pose proof (ki_zero _ _ _ _ _ Hinv) as Hzero. simpl in Hzero.
  destruct (Nat.eqb_spec (length done) (length V)) as [Heq|Hneq]; simpl.
  - left. split; [done|]. intros v Hcyc.
    assert (v ∈ V) as Hv.
    { destruct (tc_edge_source _ _ _ Hcyc) as (t & Ht & <-). by apply Hclosed. }
    apply (topological_acyclic d done Hdnd (ki_topological _ _ _ _ _ Hinv) v); [|done].
    assert (Permutation done V) as ->; [|done].
    apply submseteq_length_Permutation; [|lia].
    apply NoDup_submseteq; [done|]. intros x Hx. by apply Hzero in Hx as [? _].
  - right. split; [done|]. intros Hac.
    assert (∀ v, ¬ (v ∈ V ∧ v ∉ done)) as Hnone.
    { intros v. apply (acyclic_no_trap d (λ v, v ∈ V ∧ v ∉ done) V v Hac).
      - intros t Ht. by apply Hclosed.
      - intros u [Hu Hnu].
        assert (¬ ∀ t, t ∈ ts → tr_to t = u → tr_from t ∈ done) as Hopen.
        { intros Hall. apply Hnu, Hzero. split; [done|]. by apply count_open_zero. }
        destruct (List.filter (λ t, into u t && negb (bool_decide (tr_from t ∈ done))) ts)
          as [|t l] eqn:E.
        { exfalso. apply Hopen. apply count_open_zero. unfold count_open. by rewrite E. }
        assert (t ∈ t :: l) as Ht by set_solver. rewrite <- E in Ht.
        apply filter_elem in Ht as [Ht Hc]. to_prop. unfold into in *.
        assert (tr_to t = u) by by apply String.eqb_eq.
        exists (tr_from t). split; [by exists t|]. split; [by apply Hclosed|done]. }
    apply Hneq, Nat.le_antisymm.
    + apply submseteq_length, NoDup_submseteq; [done|]. intros x Hx. by apply Hzero in Hx as [? _].
    + apply submseteq_length, NoDup_submseteq; [done|]. intros x Hx.
      destruct (decide (x ∈ done)); [done|]. by destruct (Hnone x).
Qed.

(** ** [validate] *)

Lemma and_iff_compat (A A' B B' : Prop) : (A ↔ A') → (B ↔ B') → (A ∧ B ↔ A' ∧ B').
Proof. tauto. Qed.

Lemma check_ids_Ok seen acts ids :
  check_ids seen acts = Ok ids ↔
    ids = list_to_set (map act_id acts) ∪ seen ∧ NoDup (map act_id acts) ∧
    (∀ id, id ∈ map act_id acts → id ∉ seen ∧ is_empty (trim id) = false ∧
      contains_char "["%char id = false ∧ contains_char "]"%char id = false).
Proof.
  revert seen. induction acts as [|a acts IH]; intros seen.
  - simpl. rewrite union_empty_l_L. split.
    + intros [= ->]. split; [done|]. split; [constructor|]. by intros ? ?%not_elem_of_nil.
    + by intros (-> & _).
  - cbn [check_ids map list_to_set]. rewrite NoDup_cons.
    destruct (is_empty (trim (act_id a))) eqn:E1.
    { split; [done|]. intros (_ & _ & H). destruct (H (act_id a)) as (_ & ? & _); [set_solver|]. congruence. }
    destruct (contains_char "["%char (act_id a)) eqn:E2; simpl.
    { split; [done|]. intros (_ & _ & H). destruct (H (act_id a)) as (_ & _ & ? & _); [set_solver|]. congruence. }
    destruct (contains_char "]"%char (act_id a)) eqn:E3; simpl.
    { split; [done|]. intros (_ & _ & H). destruct (H (act_id a)) as (_ & _ & _ & ?); [set_solver|]. congruence. }
    case_bool_decide as E4.
    { split; [done|]. intros (_ & _ & H). destruct (H (act_id a)) as (? & _); [set_solver|done]. }
    rewrite IH. split.
    + intros (-> & Hnd & Hall). split; [set_solver|]. split.
      * split; [|done]. intros Ha. destruct (Hall _ Ha) as [? _]. set_solver.
      * intros id Hid. assert (id = act_id a ∨ id ∈ map act_id acts) as [->|Hid'] by set_solver; [done|].
        destruct (Hall _ Hid') as (Hs & ? & ? & ?). split; [set_solver|done].
    + intros (-> & [Ha Hnd] & Hall). split; [set_solver|]. split; [done|].
      intros id Hid. destruct (Hall id) as (? & ? & ? & ?); [set_solver|]. split; [|done].
      intros [->%elem_of_singleton|?]%elem_of_union; done.
Qed.

Lemma result_seq_Ok {A B} (m : result A) (k : result B) b :
  (_ ← m; k) = Ok b ↔ (∃ a, m = Ok a) ∧ k = Ok b.
Proof. destruct m; simpl; naive_solver. Qed.

Lemma check_manifest_Ok `{DefinitionSerde} d :
  check_manifest d = Ok () ↔
    default "Workflow" (def_kind d) = "Workflow" ∧
    is_empty (trim (meta_name (def_metadata d))) = false ∧
    spec_activities (def_spec d) ≠ [] ∧
    (NoDup (activity_ids d) ∧ ∀ id, id ∈ activity_ids d →
      is_empty (trim id) = false ∧ contains_char "["%char id = false ∧
      contains_char "]"%char id = false) ∧
    (∀ a, a ∈ spec_activities (def_spec d) → is_for_each (act_type a) = true →
      ∃ fe, ForEachSpec_parse a = Ok fe) ∧
    (∀ a c, a ∈ spec_activities (def_spec d) → act_compensate a = Some c → c ∈ activity_ids d) ∧
    (∀ t, t ∈ spec_transitions (def_spec d) →
      tr_from t ∈ activity_ids d ∧ tr_to t ∈ activity_ids d).
Proof.
  unfold check_manifest. rewrite !result_seq_Ok. apply and_iff_compat.
  { destruct (def_kind d) as [k|]; simpl; [|naive_solver].
    case_bool_decide; subst; naive_solver. }
  apply and_iff_compat; [by destruct (is_empty _); naive_solver|].
  apply and_iff_compat; [by destruct (spec_activities _); naive_solver|].
  rewrite result_bind_Ok. split.
  - intros (ids & Hids & Hrest). apply check_ids_Ok in Hids as (-> & Hnd & Hall).
    rewrite !result_seq_Ok in Hrest. destruct Hrest as (Hfe & Hc & Ht & _).
    rewrite collect_is_Ok in Hfe. rewrite collect_is_Ok in Hc. rewrite collect_is_Ok in Ht.
    split; [split; [done|]|].
    { intros id Hid. by apply Hall. }
    split; [|split].
    + intros a Ha Hf. destruct (Hfe a Ha) as [b Hb]. unfold check_for_each in Hb.
      rewrite Hf in Hb. apply result_seq_Ok in Hb as [? _]. done.
    + intros a c Ha Hcomp. destruct (Hc a Ha) as [b Hb]. unfold check_compensate in Hb.
      rewrite Hcomp in Hb. case_bool_decide as Hin; [|done]. set_solver.
    + intros t Hin. destruct (Ht t Hin) as [b Hb]. unfold check_transition in Hb.
      repeat case_bool_decide; simpl in Hb; try done. set_solver.
  - intros ([Hnd Hids] & Hfe & Hc & Ht).
    eexists. split; [apply check_ids_Ok; split; [done|]; split; [done|]|].
    { intros id Hid. split; [set_solver|]. by apply Hids. }
    rewrite !result_seq_Ok, !collect_is_Ok. split; [|split; [|split; [|done]]].
    + intros a Ha. unfold check_for_each. destruct (is_for_each _) eqn:E; [|eauto].
      destruct (Hfe a Ha E) as [fe ->]. by exists ().
    + intros a Ha. unfold check_compensate. destruct (act_compensate a) eqn:E; [|eauto].
      rewrite bool_decide_eq_true_2; [eauto|]. apply (Hc a) in E; [|done].
      unfold activity_ids in E. set_solver.
    + intros t Hin. unfold check_transition. destruct (Ht t Hin) as [Hf Htt].
      unfold activity_ids in *. rewrite !bool_decide_eq_true_2 by set_solver. simpl. eauto.
Qed.

Lemma validate_cases `{DefinitionSerde} d :
  (∃ e, check_manifest d = Err e ∧ validate d = Some (Err e)) ∨
  (check_manifest d = Ok () ∧ validate d = check_acyclic d).
Proof.
  unfold validate. destruct (check_manifest d) as [[]|e]; [by right|left; eauto].
Qed.

Lemma validate_Ok_well_formed `{DefinitionSerde} d :
  validate d = Some (Ok ()) → well_formed d.
Proof.
  intros Hv. destruct (validate_cases d) as [(e & _ & Hv')|[Hm Hv']]; [congruence|].
  apply check_manifest_Ok in Hm as (? & ? & ? & (Hnd & ?) & ? & ? & Hedges).
  destruct (check_acyclic_spec d Hnd Hedges) as [[_ ?]|[? _]]; [by split|congruence].
Qed.

(** ** The load-time guarantees of [for_each] *)

Record for_each_ok (fe : ForEachSpec) : Prop := {
  fo_items : match fe_items fe with Str _ | Array _ => True | _ => False end;
  fo_body : is_for_each (body_type (fe_body fe)) = false ∧
    body_type (fe_body fe) ≠ "wait" ∧ body_type (fe_body fe) ≠ "workflow";
  fo_concurrent : (fe_max_concurrent fe ≠ 0)%Z;
  fo_max_items : (fe_max_items fe ≠ 0)%Z;
  fo_cost : ∀ cap, fe_max_total_cost_usd fe = Some cap →
    f64_is_finite cap = true ∧ f64_leb cap f64_zero = false;
  fo_tokens : fe_max_total_tokens fe ≠ Some 0%Z;
}.

Lemma ForEachSpec_parse_ok `{DefinitionSerde} a fe :
  ForEachSpec_parse a = Ok fe → for_each_ok fe.
Proof.
  unfold ForEachSpec_parse. destruct (for_each_inputs_from_value _) as [|p]; [done|].
  rewrite result_seq_Ok. intros [[? Hitems] Hrest].
  rewrite result_seq_Ok in Hrest. destruct Hrest as [[? Hbody] Hrest].
  apply result_bind_Ok in Hrest as (mc & Hmc & Hrest).
  apply result_bind_Ok in Hrest as (mi & Hmi & Hrest).
  rewrite !result_seq_Ok in Hrest. destruct Hrest as ([? Hcost] & [? Htok] & [= <-]).
  split; simpl.
  - by destruct (fei_items p).
  - destruct (_ || _) eqn:E in Hbody; [done|]. to_prop. done.
  - destruct (fei_max_concurrent p) as [n|]; simplify_eq; [|done].
    destruct (Z.eqb_spec n 0); by simplify_eq.
  - destruct (fei_max_items p) as [n|]; simplify_eq; [|done].
    destruct (Z.eqb_spec n 0); by simplify_eq.
  - intros cap Hcap. rewrite Hcap in Hcost.
    destruct (_ || _) eqn:E in Hcost; [done|]. to_prop. by split.
  - case_bool_decide; done.
Qed.

Lemma ForEachSpec_parse_body `{DefinitionSerde} a fe :
  ForEachSpec_parse a = Ok fe →
  ∃ p, for_each_inputs_from_value (act_inputs a) = inr p ∧ fe_body fe = fei_activity p.
Proof.
  unfold ForEachSpec_parse. destruct (for_each_inputs_from_value _) as [|p]; [done|].
  rewrite result_seq_Ok. intros [_ Hrest].
  rewrite result_seq_Ok in Hrest. destruct Hrest as [_ Hrest].
  apply result_bind_Ok in Hrest as (mc & _ & Hrest).
  apply result_bind_Ok in Hrest as (mi & _ & Hrest).
  rewrite !result_seq_Ok in Hrest. destruct Hrest as (_ & _ & [= <-]). by exists p.
Qed.

(** ** Token accounting *)

Lemma usage_fold_tokens us u0 :
  (∀ u, u ∈ us → is_u64 (total_tokens u)) → is_u64 (total_tokens u0) →
  total_tokens (foldl ActivityUsage_add u0 us) =
    Z.min (total_tokens u0 + foldr Z.add 0%Z (map total_tokens us)) u64_max.
Proof.
  revert u0. induction us as [|u us IH]; intros u0 Hus H0; simpl.
  - unfold_ints. lia.
  - assert (is_u64 (total_tokens u)) as Hu by (apply Hus; set_solver).
    assert (∀ l : list ActivityUsage, (∀ u, u ∈ l → is_u64 (total_tokens u)) →
      (0 <= foldr Z.add 0 (map total_tokens l))%Z) as Hnn.
    { induction l as [|x l IHl]; simpl; intros Hl; [lia|].
      assert (is_u64 (total_tokens x)) as Hx by (apply Hl; set_solver).
      specialize (IHl ltac:(intros; apply Hl; set_solver)). unfold_ints. lia. }
    specialize (Hnn us ltac:(intros; apply Hus; set_solver)).
    rewrite IH; [|intros; apply Hus; set_solver|by apply u64_saturating_add_bounds].
    simpl. unfold_ints. lia.
Qed.

(** ** The content hash *)

Definition fnv_prime_inverse : Z := 0xce965057aff6957b.

Lemma fnv_step_bounds h b : is_u64 (fnv_step h b).
Proof. apply u64_wrapping_mul_bounds. Qed.

Lemma fnv_mul_inj x y :
  is_u64 x → is_u64 y →
  u64_wrapping_mul x fnv_prime = u64_wrapping_mul y fnv_prime → x = y.
Proof.
  intros Hx Hy Heq.
  assert (∀ z, is_u64 z →
    ((u64_wrapping_mul z fnv_prime) * fnv_prime_inverse) mod u64_modulus = z)%Z as Hinv.
  { intros z Hz. unfold u64_wrapping_mul. rewrite Z.mul_mod_idemp_l by done.
    replace (z * fnv_prime * fnv_prime_inverse)%Z with (z * (fnv_prime * fnv_prime_inverse))%Z by ring.
    rewrite <- Z.mul_mod_idemp_r by done.
    replace ((fnv_prime * fnv_prime_inverse) mod u64_modulus)%Z with 1%Z by (by vm_compute).
    rewrite Z.mul_1_r. by apply Z.mod_small. }
  by rewrite <- (Hinv x Hx), Heq, Hinv.
Qed.

Lemma lxor_u64 h b : is_u64 h → is_u64 (Z.lxor h (Z.of_N (byte_of b))).
Proof.
  intros [H0 H1]. assert (0 <= Z.of_N (byte_of b) < u64_modulus)%Z as [Hb0 Hb1].
  { destruct b as [[] [] [] [] [] [] [] []]; by vm_compute. }
  split; [by apply Z.lxor_nonneg|].
  destruct (decide (Z.lxor h (Z.of_N (byte_of b)) = 0)%Z) as [->|Hne]; [done|].
  assert (0 < Z.lxor h (Z.of_N (byte_of b)))%Z as Hpos.
  { assert (0 <= Z.lxor h (Z.of_N (byte_of b)))%Z by (by apply Z.lxor_nonneg). lia. }
  change u64_modulus with (2 ^ 64)%Z in *. apply Z.log2_lt_pow2; [done|].
  eapply Z.le_lt_trans; [by apply Z.log2_lxor|]. apply Z.max_lub_lt.
  - destruct (decide (h = 0)%Z) as [->|]; [done|]. apply Z.log2_lt_pow2; lia.
  - destruct (decide (Z.of_N (byte_of b) = 0)%Z) as [->|]; [done|]. apply Z.log2_lt_pow2; lia.
Qed.

Lemma lxor_cancel_r x y b : Z.lxor x b = Z.lxor y b → x = y.
Proof.
  intros H. assert (∀ z, Z.lxor (Z.lxor z b) b = z) as Hz.
  { intros z. by rewrite Z.lxor_assoc, Z.lxor_nilpotent, Z.lxor_0_r. }
  by rewrite <- (Hz x), H, Hz.
Qed.

Lemma fnv_step_inj_state h h' b :
  is_u64 h → is_u64 h' → fnv_step h b = fnv_step h' b → h = h'.
Proof.
  intros Hh Hh' Heq. eapply lxor_cancel_r. eapply fnv_mul_inj; [by apply lxor_u64..|done].
Qed.

Lemma fnv_step_inj_byte h b b' : is_u64 h → fnv_step h b = fnv_step h b' → b = b'.
Proof.
  intros Hh Heq. apply fnv_mul_inj in Heq; [|by apply lxor_u64..].
  rewrite !(Z.lxor_comm h) in Heq. apply lxor_cancel_r in Heq. apply N2Z.inj in Heq.
  unfold byte_of in Heq. by rewrite <- (ascii_N_embedding b), Heq, ascii_N_embedding.
Qed.

Lemma fnv_bytes_bounds h s : is_u64 h → is_u64 (fnv_bytes h s).
Proof. revert h. induction s; intros h Hh; simpl; [done|]. apply IHs, fnv_step_bounds. Qed.

Lemma fnv_bytes_inj h h' s :
  is_u64 h → is_u64 h' → fnv_bytes h s = fnv_bytes h' s → h = h'.
Proof.
  revert h h'. induction s as [|b s IH]; intros h h' Hh Hh'; simpl; [done|].
  intros Heq. eapply fnv_step_inj_state; [done..|].
  apply IH; [apply fnv_step_bounds..|done].
Qed.

Lemma fnv_bytes_app h s t : fnv_bytes h (s +:+ t) = fnv_bytes (fnv_bytes h s) t.
Proof. revert h. induction s; intros h; [done|]. rewrite str_app_cons. simpl. apply IHs. Qed.

Lemma hex_digit_inj x y :
  (0 <= x < 16)%Z → (0 <= y < 16)%Z → hex_digit x = hex_digit y → x = y.
Proof.
  intros Hx Hy Heq.
  assert (∀ z, (0 <= z < 16)%Z →
    (if Z.ltb (Z.of_N (byte_of (hex_digit z))) 90 then Z.of_N (byte_of (hex_digit z)) - 48
     else Z.of_N (byte_of (hex_digit z)) - 87) = z)%Z as Hinv.
  { intros z Hz.
    assert (z = 0 ∨ z = 1 ∨ z = 2 ∨ z = 3 ∨ z = 4 ∨ z = 5 ∨ z = 6 ∨ z = 7 ∨ z = 8 ∨ z = 9 ∨
      z = 10 ∨ z = 11 ∨ z = 12 ∨ z = 13 ∨ z = 14 ∨ z = 15)%Z as Hall by lia.
    repeat (destruct Hall as [->|Hall]; [by vm_compute|]). subst. by vm_compute. }
  by rewrite <- (Hinv x Hx), Heq, Hinv.
Qed.

Lemma show_hex_inj n x y s t :
  (0 <= x < 16 ^ Z.of_nat n)%Z → (0 <= y < 16 ^ Z.of_nat n)%Z →
  show_hex n x s = show_hex n y t → x = y ∧ s = t.
Proof.
  revert x y s t. induction n as [|n IH]; intros x y s t Hx Hy; cbn [show_hex].
  - simpl in Hx, Hy. intros ->. split; [lia|done].
  - rewrite Nat2Z.inj_succ, Z.pow_succ_r in Hx, Hy by lia. intros Heq.
    apply IH in Heq as [Hq Hs]; [|split; [apply Z.div_pos|apply Z.div_lt_upper_bound]; lia..].
    injection Hs as Hd ->. split; [|done].
    apply hex_digit_inj in Hd; [|by apply Z.mod_pos_bound..].
    rewrite (Z.div_mod x 16), (Z.div_mod y 16) by done. lia.
Qed.

(** ** Properties *)

(** C22: loading a definition decides well-formedness.  Validation never
    panics and always terminates, and it accepts exactly the definitions whose
    kind and name are right, whose activity ids are non-blank, bracket-free and
    pairwise distinct, whose [for_each] inputs parse, whose compensation
    handlers and transitions name declared activities, and whose graph has no
    cycle. *)
Theorem validate_iff_well_formed `{DefinitionSerde} d :
  validate d ≠ None ∧ (validate d = Some (Ok ()) ↔ well_formed d).
Proof.
  destruct (validate_cases d) as [(e & Hm & ->)|[Hm ->]].
  - split; [done|]. split; [done|]. intros [? ? ? ? ? ? ? ? _].
    assert (check_manifest d = Ok ()) by (by apply check_manifest_Ok). congruence.
  - pose proof Hm as Hm'.
    apply check_manifest_Ok in Hm' as (? & ? & ? & (Hnd & ?) & ? & ? & Hedges).
    destruct (check_acyclic_spec d Hnd Hedges) as [[-> ?]|[-> Hcyc]].
    + split; [done|]. split; [by split|done].
    + split; [done|]. split; [done|]. by intros [].
Qed.

(** The fan-out budget compares the true sum of the reported tokens: the
    saturating accumulator crosses a cap below [u64::MAX] exactly when the
    mathematical sum does, so no pathological report can wrap the counter back
    under budget. *)
Theorem token_budget_exact us cap :
  (∀ u, u ∈ us → is_u64 (total_tokens u)) → (0 <= cap < u64_max)%Z →
  ActivityUsage_exceeds (foldl ActivityUsage_add ActivityUsage_default us) None (Some cap) = None ↔
    (foldr Z.add 0%Z (map total_tokens us) <= cap)%Z.
Proof.
  intros Hus Hcap. unfold ActivityUsage_exceeds.
  rewrite usage_fold_tokens by (done || by unfold_ints).
  change (total_tokens ActivityUsage_default) with 0%Z. rewrite Z.add_0_l.
  generalize (foldr Z.add 0%Z (map total_tokens us)) as sum. intros sum. cbn [option_map].
  destruct (Z.ltb_spec cap (Z.min sum u64_max)); split; intros ?; first [done|lia].
Qed.

(** The pinning hash notices every single-byte edit: two texts that differ
    in exactly one byte never have the same content hash. *)
Theorem content_hash_detects_edit pre b b' post :
  content_hash (pre +:+ String b post) = content_hash (pre +:+ String b' post) ↔ b = b'.
Proof.
  split; [|by intros ->]. unfold content_hash. intros Heq.
  assert (∀ s, is_u64 (fnv_bytes fnv_offset s)) as Hb by (intros; by apply fnv_bytes_bounds).
  apply show_hex_inj in Heq as [Heq _]; [|apply Hb..].
  rewrite !fnv_bytes_app in Heq. simpl in Heq.
  apply fnv_bytes_inj in Heq; [|apply fnv_step_bounds..].
  by eapply fnv_step_inj_byte.
Qed.

Definition usage_of (n : Z) : ActivityUsage := {| cost_usd := f64_zero; total_tokens := n |}.

Lemma token_budget_exact_witness :
  ActivityUsage_exceeds (foldl ActivityUsage_add ActivityUsage_default
    [usage_of u64_max; usage_of 5]) None (Some 7%Z) ≠ None.
Proof.
  intros Hn. apply (token_budget_exact [usage_of u64_max; usage_of 5] 7) in Hn.
  - by vm_compute in Hn.
  - apply Forall_forall. repeat constructor; by vm_compute.
  - by vm_compute.
Defined.

Definition definition_serde_example : DefinitionSerde := {|
  for_each_inputs_from_value := λ _, inl "no loop inputs here";
  definition_from_yaml := λ _, inl "no manifest here";
|}.
Definition plain (id : string) : ActivityDef := {|
  act_id := id; act_type := "tool"; act_name := None; act_inputs := Null;
  act_retry := None; act_compensate := None;
|}.
Definition arrow (u v : string) : Transition := {| tr_from := u; tr_to := v; tr_when := None |}.
Definition graph (nodes : list ActivityDef) (edges : list Transition) : Definition_ := {|
  def_api_version := None; def_kind := None;
  def_metadata := {| meta_name := "wf"; meta_version := default_version |};
  def_spec := {| spec_variables := ∅; spec_activities := nodes; spec_transitions := edges;
                 spec_retry := None |};
  def_source_hash := None;
|}.

Example validate_diamond :
  @validate definition_serde_example
    (graph (map plain ["d"; "a"; "b"; "c"])
       [arrow "a" "b"; arrow "a" "c"; arrow "b" "d"; arrow "c" "d"]) = Some (Ok ()).
Proof. by vm_compute. Qed.

Example validate_cycle :
  @validate definition_serde_example
    (graph (map plain ["a"; "b"; "c"]) [arrow "a" "b"; arrow "b" "c"; arrow "c" "b"]) =
    Some (Err (Invalid "workflow graph contains a cycle")).
Proof. by vm_compute. Qed.
