(* ===== verification/ExecState.v ===== *)
(** * Execution snapshots

    [crates/wovyr-workflow/src/engine.rs]: the durable record of an activity,
    the full execution snapshot (live state and checkpoint payload), its
    summary, the listing filter, and the result types of the engine. *)
From stdpp Require Import base tactics list numbers strings gmap.
From Stdlib Require Import Lia ZArith.
From S2P Require Import Prelude.
From S2P Require Import JsonValue.
From S2P Require Import State.
From S2P Require Import Event.
Local Open Scope Z_scope.

Record ActivityRecord := {
  ar_state : ActivityState.t;
  ar_attempts : Z;
  ar_output : option Value;
  ar_last_error : option string;
}.

Definition ActivityRecord_default : ActivityRecord := {|
  ar_state := ActivityState.Created;
  ar_attempts := 0;
  ar_output := None;
  ar_last_error := None;
|}.

Record ExecutionState := {
  es_execution_id : string;
  es_workflow_name : string;
  es_workflow_version : string;
  es_status : WorkflowState.t;
  es_variables : gmap string Value;
  es_activities : gmap string ActivityRecord;
  es_completed_order : list string;
  es_definition_hash : option string;
  es_version : Z;
}.

#[export] Instance ActivityRecord_eq_dec : EqDecision ActivityRecord.
Proof. solve_decision. Defined.
#[export] Instance ExecutionState_eq_dec : EqDecision ExecutionState.
Proof. solve_decision. Defined.

Record ExecutionSummary := {
  sum_execution_id : string;
  sum_workflow_name : string;
  sum_workflow_version : string;
  sum_status : WorkflowState.t;
  sum_activities : gmap string ActivityState.t;
  sum_waiting_on : list string;
}.

Record ExecutionFilter := {
  filter_workflow_name : option string;
  filter_status : option WorkflowState.t;
  filter_limit : option nat;
}.

Definition filter_matches (f : ExecutionFilter) (state : ExecutionState) : bool :=
  (match filter_workflow_name f with
   | Some name => bool_decide (es_workflow_name state = name)
   | None => true
   end) &&
  (match filter_status f with
   | Some status => bool_decide (es_status state = status)
   | None => true
   end).

Definition summary (s : ExecutionState) : ExecutionSummary :=
  let activities := ar_state <$> es_activities s in
  {| sum_execution_id := es_execution_id s;
     sum_workflow_name := es_workflow_name s;
     sum_workflow_version := es_workflow_version s;
     sum_status := es_status s;
     sum_activities := activities;
     sum_waiting_on :=
       map fst (List.filter (λ p, bool_decide (p.2 = ActivityState.Waiting)) (btree_iter activities)) |}.

(** [RunOutcome], and the internal results of one activity and of a batch. *)
Inductive RunOutcome :=
  | RunCompleted
  | RunFailed (msg : string)
  | RunCompensated (msg : string)
  | RunInterrupted (msg : string).

Inductive Step :=
  | StepCompleted
  | StepFailed (msg : string)
  | StepInterrupted (msg : string).

Inductive BatchStep :=
  | AllSettled
  | BatchFailed (msg : string)
  | BatchInterrupted (activity msg : string).

Inductive IsolatedResult :=
  | IsoCompleted (output : Value)
  | IsoFailed (msg : string)
  | IsoInterrupted (msg : string).

Record IsolatedOutcome := {
  iso_id : string;
  iso_attempts : Z;
  iso_events : list WorkflowEvent;
  iso_result : IsolatedResult;
}.

Inductive Edge := Live | Dead | Pending.
#[export] Instance Edge_eq_dec : EqDecision Edge.
Proof. solve_decision. Defined.

(** ** In-place updates of a snapshot *)

Definition with_status (to : WorkflowState.t) (s : ExecutionState) : ExecutionState := {|
  es_execution_id := es_execution_id s; es_workflow_name := es_workflow_name s;
  es_workflow_version := es_workflow_version s; es_status := to;
  es_variables := es_variables s; es_activities := es_activities s;
  es_completed_order := es_completed_order s; es_definition_hash := es_definition_hash s;
  es_version := es_version s |}.
Definition with_variables (f : gmap string Value → gmap string Value) (s : ExecutionState)
    : ExecutionState := {|
  es_execution_id := es_execution_id s; es_workflow_name := es_workflow_name s;
  es_workflow_version := es_workflow_version s; es_status := es_status s;
  es_variables := f (es_variables s); es_activities := es_activities s;
  es_completed_order := es_completed_order s; es_definition_hash := es_definition_hash s;
  es_version := es_version s |}.
Definition with_activities (f : gmap string ActivityRecord → gmap string ActivityRecord)
    (s : ExecutionState) : ExecutionState := {|
  es_execution_id := es_execution_id s; es_workflow_name := es_workflow_name s;
  es_workflow_version := es_workflow_version s; es_status := es_status s;
  es_variables := es_variables s; es_activities := f (es_activities s);
  es_completed_order := es_completed_order s; es_definition_hash := es_definition_hash s;
  es_version := es_version s |}.
Definition push_completed (id : string) (s : ExecutionState) : ExecutionState := {|
  es_execution_id := es_execution_id s; es_workflow_name := es_workflow_name s;
  es_workflow_version := es_workflow_version s; es_status := es_status s;
  es_variables := es_variables s; es_activities := es_activities s;
  es_completed_order := es_completed_order s ++ [id]; es_definition_hash := es_definition_hash s;
  es_version := es_version s |}.
Definition with_version (v : Z) (s : ExecutionState) : ExecutionState := {|
  es_execution_id := es_execution_id s; es_workflow_name := es_workflow_name s;
  es_workflow_version := es_workflow_version s; es_status := es_status s;
  es_variables := es_variables s; es_activities := es_activities s;
  es_completed_order := es_completed_order s; es_definition_hash := es_definition_hash s;
  es_version := v |}.

(** The state of an activity's record, if it has one. *)
Definition state_of (s : ExecutionState) (id : string) : option ActivityState.t :=
  ar_state <$> es_activities s !! id.

Definition rec_state (to : ActivityState.t) (r : ActivityRecord) : ActivityRecord := {|
  ar_state := to; ar_attempts := ar_attempts r; ar_output := ar_output r;
  ar_last_error := ar_last_error r |}.
Definition rec_completed (attempts : Z) (output : Value) (r : ActivityRecord) : ActivityRecord := {|
  ar_state := ActivityState.Completed; ar_attempts := attempts; ar_output := Some output;
  ar_last_error := ar_last_error r |}.
Definition rec_error (to : ActivityState.t) (attempts : Z) (msg : string) (r : ActivityRecord)
    : ActivityRecord := {|
  ar_state := to; ar_attempts := attempts; ar_output := ar_output r;
  ar_last_error := Some msg |}.

(** A summary lists exactly the waiting activities, in id order. *)
Lemma summary_waiting s id :
  id ∈ sum_waiting_on (summary s) ↔ state_of s id = Some ActivityState.Waiting.
Proof.
  unfold summary, state_of. cbn [sum_waiting_on]. rewrite <- lookup_fmap. split.
  - intros ([k v] & -> & Hin)%list_elem_of_fmap.
    apply filter_elem in Hin as [Hin Hv]. to_prop. apply btree_iter_elem in Hin.
    simpl in *. by subst v.
  - intros Hs. apply list_elem_of_fmap. exists (id, ActivityState.Waiting). split; [done|].
    apply filter_elem. split; [by apply btree_iter_elem|by apply bool_decide_eq_true].
Qed.
