(* ===== verification/Store.v ===== *)
(** * Durable stores: the event log and the checkpoint store

    [crates/wovyr-workflow/src/store.rs]: the two ports as type classes over
    the state of a store, with the laws the engine relies on, and the in-memory
    store, which obeys them.  The file store is in [FileStore]. *)
From stdpp Require Import base tactics list numbers strings gmap sorting.
From Stdlib Require Import Lia ZArith Ascii.
From S2P Require Import Prelude.
From S2P Require Import RustStr.
From S2P Require Import Common.
From S2P Require Import JsonValue.
From S2P Require Import State.
From S2P Require Import Event.
From S2P Require Import ExecState.

(** ** The ports *)

(** Every call may change the store, errors included: an operation that
    failed may or may not have been applied. *)
Class EventLog (St : Type) := {
  append : string → WorkflowEvent → St → St * result Z;
  load : string → St → St * result (list WorkflowEvent);
  compact : string → Z → St → St * result ();
}.

Class CheckpointStore (St : Type) := {
  save : ExecutionState → St → St * result ();
  latest : string → St → St * result (option ExecutionState);
  list_snapshots : ExecutionFilter → St → St * result (list ExecutionState);
}.

(** [EventLog::load_page]: the default implementation. *)
Definition load_page `{EventLog St} (execution_id : string) (offset limit : Z) (s : St)
    : St * result (list WorkflowEvent) :=
  let '(s, r) := load execution_id s in
  (s, match r with
      | Ok all => Ok (take (Z.to_nat limit) (drop (Z.to_nat offset) all))
      | Err e => Err e
      end).

(** [sort_by(|a, b| a.execution_id.cmp(&b.execution_id))] is stable. *)
Definition id_le (a b : ExecutionState) : Prop :=
  String.le (es_execution_id a) (es_execution_id b).
#[export] Instance id_le_dec : RelDecision id_le.
Proof. unfold id_le. intros a b. apply _. Defined.

Definition apply_filter (snapshots : list ExecutionState) (filter : ExecutionFilter)
    : list ExecutionState :=
  let kept := List.filter (filter_matches filter) snapshots in
  let sorted := merge_sort id_le kept in
  match filter_limit filter with
  | Some limit => take limit sorted
  | None => sorted
  end.

(** What a client of the two ports may assume: an abstract log and an abstract
    snapshot per execution, of which an acknowledged write is a function, and
    an unacknowledged one either happened or did not. *)
Class StoreLaws (St : Type) `{EventLog St, CheckpointStore St} := {
  events_of : St → string → list WorkflowEvent;
  snapshot_of : St → string → option ExecutionState;
  append_law id e s :
    let '(s', r) := append id e s in
    (∀ id', snapshot_of s' id' = snapshot_of s id') ∧
    (∀ id', id' ≠ id → events_of s' id' = events_of s id') ∧
    match r with
    | Ok _ => events_of s' id = events_of s id ++ [e]
    | Err _ => events_of s' id = events_of s id ∨ events_of s' id = events_of s id ++ [e]
    end;
  save_law st s :
    let '(s', r) := save st s in
    (∀ id', events_of s' id' = events_of s id') ∧
    (∀ id', id' ≠ es_execution_id st → snapshot_of s' id' = snapshot_of s id') ∧
    match r with
    | Ok _ => snapshot_of s' (es_execution_id st) = Some st
    | Err _ => snapshot_of s' (es_execution_id st) = snapshot_of s (es_execution_id st) ∨
               snapshot_of s' (es_execution_id st) = Some st
    end;
  latest_law id s :
    let '(s', r) := latest id s in
    (∀ id', events_of s' id' = events_of s id') ∧
    (∀ id', snapshot_of s' id' = snapshot_of s id') ∧
    match r with Ok o => o = snapshot_of s id | Err _ => True end;
}.

(** Retention: a compaction drops events from the front of one log, or leaves
    the log alone (the port's default does, and so does a failed one). *)
Class CompactionLaws (St : Type) `{StoreLaws St} := {
  compact_law id keep_after_seq s :
    let '(s', _) := compact id keep_after_seq s in
    (∀ id', snapshot_of s' id' = snapshot_of s id') ∧
    (∀ id', id' ≠ id → events_of s' id' = events_of s id') ∧
    (events_of s' id = events_of s id ∨
     events_of s' id = drop (Z.to_nat keep_after_seq) (events_of s id));
}.

(** ** In-memory store *)

Module InMemoryStore.
Record t := {
  events : gmap string (list WorkflowEvent);
  checkpoints : gmap string ExecutionState;
}.
Definition new : t := {| events := ∅; checkpoints := ∅ |}.

#[global] Instance event_log : EventLog t := {
  append execution_id event s :=
    let log := default [] (events s !! execution_id) ++ [event] in
    ({| events := <[execution_id := log]> (events s); checkpoints := checkpoints s |},
     Ok (Z.of_nat (length log)));
  load execution_id s := (s, Ok (default [] (events s !! execution_id)));
  compact execution_id keep_after_seq s :=
    match events s !! execution_id with
    | Some log =>
      let drop_count := Nat.min (Z.to_nat keep_after_seq) (length log) in
      ({| events := <[execution_id := drop drop_count log]> (events s);
          checkpoints := checkpoints s |}, Ok ())
    | None => (s, Ok ())
    end;
}.

#[global] Instance checkpoint_store : CheckpointStore t := {
  save snapshot s :=
    ({| events := events s;
        checkpoints := <[es_execution_id snapshot := snapshot]> (checkpoints s) |}, Ok ());
  latest execution_id s := (s, Ok (checkpoints s !! execution_id));
  list_snapshots filter s :=
    (s, Ok (apply_filter (map snd (map_to_list (checkpoints s))) filter));
}.

#[global] Program Instance laws : StoreLaws t := {
  events_of s id := default [] (events s !! id);
  snapshot_of s id := checkpoints s !! id;
}.
Next Obligation.
  intros id e s. simpl. split; [done|]. split; [|by rewrite lookup_insert_eq].
  intros id' Hne. by rewrite lookup_insert_ne.
Qed.
Next Obligation.
  intros st s. simpl. split; [done|]. split; [|by rewrite lookup_insert_eq].
  intros id' Hne. by rewrite lookup_insert_ne.
Qed.
Next Obligation. intros id s. by simpl. Qed.

#[global] Instance compaction_laws : CompactionLaws t.
Proof.
  constructor. intros id n s. simpl. destruct (events s !! id) as [log|] eqn:Hl; simpl; rewrite ?Hl; [|by split_and!; auto].
  split; [done|]. split; [intros id' Hne; by rewrite lookup_insert_ne|]. right.
  rewrite lookup_insert_eq. simpl.
  destruct (decide (Z.to_nat n ≤ length log)); [by rewrite Nat.min_l|].
  rewrite Nat.min_r by lia. by rewrite !drop_ge by lia.
Qed.
End InMemoryStore.

(** ** Listing *)

Lemma apply_filter_elem snaps f st :
  filter_limit f = None →
  st ∈ apply_filter snaps f ↔ st ∈ snaps ∧ filter_matches f st = true.
Proof.
  intros Hl. unfold apply_filter. rewrite Hl, merge_sort_Permutation. apply filter_elem.
Qed.

#[export] Instance id_le_total : Total id_le.
Proof. intros a b. apply (total String.le). Qed.
#[export] Instance id_le_trans : Transitive id_le.
Proof. intros a b c. unfold id_le. apply transitivity. Qed.

Lemma apply_filter_sorted snaps f : Sorted id_le (apply_filter snaps f).
Proof.
  unfold apply_filter.
  assert (Sorted id_le (merge_sort id_le (List.filter (filter_matches f) snaps))) as Hs
    by (apply Sorted_merge_sort, _).
  destruct (filter_limit f) as [n|]; [|done].
  revert n. induction Hs as [|x l Hl IH Hx]; intros [|n]; simpl; constructor; [apply IH|].
  destruct Hx; destruct n; simpl; by constructor.
Qed.
