(* ===== verification/FileStore.v ===== *)
(** * The file store

    [crates/wovyr-workflow/src/store.rs], [FileStore]: events as lines of JSON
    and checkpoints as JSON files in one directory, with the cache of sequence
    numbers; and its refinement of the in-memory store.  The (de)serializers are
    the library's; calls of the operating system succeed. *)
From stdpp Require Import base tactics list numbers strings gmap sorting.
From Stdlib Require Import Lia ZArith Ascii.
From S2P Require Import Prelude.
From S2P Require Import RustStr.
From S2P Require Import Common.
From S2P Require Import JsonValue.
From S2P Require Import Event.
From S2P Require Import ExecState.
From S2P Require Import Store.
Local Open Scope Z_scope.

(** [serde_json::to_string_pretty] and [from_str] at [ExecutionState]; an error
    is its message. *)
Class SnapshotSerde := {
  snapshot_to_string : ExecutionState → string + string;
  snapshot_from_str : string → string + ExecutionState;
}.

Definition of_json {A} (r : string + A) : result A :=
  match r with inl e => Err (Json e) | inr a => Ok a end.

(** ** The store *)

Module FileStore.

(** The directory, by file name, and the cache of last sequence numbers. *)
Record t := { files : gmap string string; seqs : gmap string Z }.

(** [FileStore::new] over a directory: the cache starts empty. *)
Definition new (dir : gmap string string) : t := {| files := dir; seqs := ∅ |}.

Definition stem_char (c : ascii) : ascii :=
  if is_ascii_alphanumeric c || Ascii.eqb c "-" || Ascii.eqb c "_" then c else "_"%char.

(** Every character that is not safe becomes one underscore; the continuation
    bytes of a character are no character. *)
Fixpoint stem (execution_id : string) : string :=
  match execution_id with
  | "" => ""
  | String c s => if is_continuation c then stem s else String (stem_char c) (stem s)
  end.

Definition events_path (execution_id : string) : string := stem execution_id +:+ ".events.jsonl".
Definition checkpoint_path (execution_id : string) : string :=
  stem execution_id +:+ ".checkpoint.json".

Definition load_lines (path : string) (f : t) : list string :=
  match files f !! path with
  | Some contents => lines contents
  | None => []
  end.

Section store.
Context `{EventSerde, SnapshotSerde}.

Definition append (execution_id : string) (event : WorkflowEvent) (f : t) : t * result Z :=
  let path := events_path execution_id in
  match encode_event event with
  | inl e => (f, Err (Json e))
  | inr line =>
    let contents := default "" (files f !! path) +:+ (line +:+ String newline "") in
    let f := {| files := <[path := contents]> (files f); seqs := seqs f |} in
    let seq :=
      match seqs f !! execution_id with
      | Some last => last + 1
      | None => Z.of_nat (length (load_lines path f))
      end in
    ({| files := files f; seqs := <[execution_id := seq]> (seqs f) |}, Ok seq)
  end.

Definition load (execution_id : string) (f : t) : t * result (list WorkflowEvent) :=
  let lines := load_lines (events_path execution_id) f in
  (f, collect decode_event (List.filter (λ l, negb (is_empty (trim l))) lines)).

(** Skipping [offset] lines; [None] when the file ends before. *)
Fixpoint skip_lines (offset : Z) (ls : list string) : option (list string) :=
  if Z.leb offset 0 then Some ls
  else match ls with
       | [] => None
       | _ :: ls => skip_lines (offset - 1) ls
       end.

(** Reading events up to [limit], passing over blank lines. *)
Fixpoint read_page (limit : Z) (ls : list string) : result (list WorkflowEvent) :=
  if Z.leb limit 0 then Ok []
  else match ls with
       | [] => Ok []
       | l :: ls =>
         if is_empty (trim l) then read_page limit ls
         else
           event ← decode_event l;
           out ← read_page (limit - 1) ls;
           Ok (event :: out)
       end.

Definition load_page (execution_id : string) (offset limit : Z) (f : t)
    : t * result (list WorkflowEvent) :=
  (f, match files f !! events_path execution_id with
      | None => Ok []
      | Some contents =>
        match skip_lines offset (lines contents) with
        | None => Ok []
        | Some rest => read_page limit rest
        end
      end).

Definition compact (execution_id : string) (keep_after_seq : Z) (f : t) : t * result () :=
  let path := events_path execution_id in
  let lines := load_lines path f in
  let drop_count := Nat.min (Z.to_nat keep_after_seq) (length lines) in
  let kept := join_with (String newline "") (drop drop_count lines) in
  let kept := if is_empty kept then kept else kept +:+ String newline "" in
  ({| files := <[path := kept]> (files f); seqs := seqs f |}, Ok ()).

Definition save (snapshot : ExecutionState) (f : t) : t * result () :=
  match snapshot_to_string snapshot with
  | inl e => (f, Err (Json e))
  | inr json =>
    ({| files := <[checkpoint_path (es_execution_id snapshot) := json]> (files f);
        seqs := seqs f |}, Ok ())
  end.

Definition latest (execution_id : string) (f : t) : t * result (option ExecutionState) :=
  (f, match files f !! checkpoint_path execution_id with
      | Some contents => st ← of_json (snapshot_from_str contents); Ok (Some st)
      | None => Ok None
      end).

(** The directory is read in no particular order. *)
Definition is_checkpoint (name : string) : bool := ends_with ".checkpoint.json" name.
Definition list_snapshots (filter : ExecutionFilter) (f : t) : t * result (list ExecutionState) :=
  (f, snapshots ← collect (λ p, of_json (snapshot_from_str p.2))
                    (List.filter (λ p, is_checkpoint p.1) (map_to_list (files f)));
      Ok (apply_filter snapshots filter)).

#[global] Instance event_log : EventLog t := {
  append := append; load := load; compact := compact }.
#[global] Instance checkpoint_store : CheckpointStore t := {
  save := save; latest := latest; list_snapshots := list_snapshots }.
End store.
End FileStore.

(** ** Using a store *)

Inductive store_op :=
  | SAppend (id : string) (event : WorkflowEvent)
  | SLoad (id : string)
  | SLoadPage (id : string) (offset limit : Z)
  | SCompact (id : string) (keep_after_seq : Z)
  | SSave (snapshot : ExecutionState)
  | SLatest (id : string)
  | SList (filter : ExecutionFilter)
  | SRestart.

Inductive store_answer :=
  | ASeq (r : result Z)
  | AEvents (r : result (list WorkflowEvent))
  | AUnit (r : result ())
  | ASnapshot (r : result (option ExecutionState))
  | ASnapshots (r : result (list ExecutionState)).

Section use.
Context {St : Type} `{EventLog St, CheckpointStore St}.
Context (page : string → Z → Z → St → St * result (list WorkflowEvent)) (restart : St → St).

Definition store_step (op : store_op) (s : St) : St * store_answer :=
  match op with
  | SAppend id e => prod_map Datatypes.id ASeq (append id e s)
  | SLoad id => prod_map Datatypes.id AEvents (load id s)
  | SLoadPage id offset limit => prod_map Datatypes.id AEvents (page id offset limit s)
  | SCompact id n => prod_map Datatypes.id AUnit (compact id n s)
  | SSave st => prod_map Datatypes.id AUnit (save st s)
  | SLatest id => prod_map Datatypes.id ASnapshot (latest id s)
  | SList f => prod_map Datatypes.id ASnapshots (list_snapshots f s)
  | SRestart => (restart s, AUnit (Ok ()))
  end.

Fixpoint answers (ops : list store_op) (s : St) : list store_answer :=
  match ops with
  | [] => []
  | op :: ops => let '(s, a) := store_step op s in a :: answers ops s
  end.
End use.

(** The answers of a file store, reopened at a restart, and of a store in
    memory, which has nothing to reopen. *)
Definition file_answers `{EventSerde, SnapshotSerde} : list store_op → FileStore.t → list store_answer :=
  answers FileStore.load_page (λ f, FileStore.new (FileStore.files f)).
Definition memory_answers : list store_op → InMemoryStore.t → list store_answer :=
  answers load_page (λ m, m).

(** An answer up to sequence numbers. *)
Definition unnumbered (a : store_answer) : store_answer :=
  match a with ASeq (Ok _) => ASeq (Ok 0) | _ => a end.
