(* ===== verification/FileStoreInv.v ===== *)
(** * The file store refines the store in memory

    For executions whose ids have file names of their own, the file store
    answers as the in-memory store does, restarts included. *)
From stdpp Require Import base tactics list numbers strings gmap sorting.
From Stdlib Require Import Lia ZArith Ascii.
From S2P Require Import Prelude.
From S2P Require Import RustStr.
From S2P Require Import Common.
From S2P Require Import JsonValue.
From S2P Require Import Event.
From S2P Require Import ExecState.
From S2P Require Import Store.
From S2P Require Import FileStore.
Local Open Scope Z_scope.

(** ** File names *)

Lemma str_app_suffix_ne s t (u v : string) c d u' v' :
  String.rev u = String c u' → String.rev v = String d v' → c ≠ d → s +:+ u ≠ t +:+ v.
Proof.
  intros Hu Hv Hne E. apply (f_equal String.rev) in E.
  rewrite !rev_app_distr, Hu, Hv, !str_app_cons in E. by injection E.
Qed.

Lemma events_not_checkpoint a b : FileStore.events_path a ≠ FileStore.checkpoint_path b.
Proof. by eapply (str_app_suffix_ne _ _ _ _ "l" "n"); [vm_compute; reflexivity..|]. Qed.

Lemma is_checkpoint_spec name :
  FileStore.is_checkpoint name = true ↔ ∃ s, name = s +:+ ".checkpoint.json".
Proof.
  unfold FileStore.is_checkpoint, ends_with. split.
  - destruct (strip_suffix _ name) as [s|] eqn:E; [|done]. intros _. exists s.
    by apply strip_suffix_Some.
  - intros [s E]. apply strip_suffix_Some in E. by rewrite E.
Qed.

Lemma events_path_no_checkpoint id : FileStore.is_checkpoint (FileStore.events_path id) = false.
Proof.
  apply not_true_is_false. intros [s E]%is_checkpoint_spec. revert E.
  by eapply (str_app_suffix_ne _ _ _ _ "l" "n"); [vm_compute; reflexivity..|].
Qed.

Lemma paths_of_stems a b :
  (FileStore.events_path a = FileStore.events_path b → FileStore.stem a = FileStore.stem b) ∧
  (FileStore.checkpoint_path a = FileStore.checkpoint_path b → FileStore.stem a = FileStore.stem b).
Proof. split; intros E; by apply str_app_inj_r in E. Qed.

(** ** Lines of JSON *)

(** A line as [serde_json::to_string] writes an object: braces around it, and
    no line feed (control characters in strings are escaped). *)
Definition json_line (line : string) : Prop :=
  str_all (other_than newline) line = true ∧ ∃ body, line = String "{" (body +:+ "}").

Lemma json_line_plain line : json_line line → plain_line line ∧ is_empty (trim line) = false ∧ line ≠ "".
Proof.
  intros [Hn [body ->]]. split_and!; [split|..]; [done| | |done].
  - unfold strip_cr. destruct (strip_suffix _ _) as [l|] eqn:E; [|done].
    apply strip_suffix_Some in E. exfalso. revert E.
    change (String "{" (body +:+ "}")) with ("{" +:+ (body +:+ "}")). rewrite <-str_app_assoc.
    by eapply (str_app_suffix_ne _ _ _ _ "}" carriage_return); [vm_compute; reflexivity..|].
  - change (String "{" (body +:+ "}")) with ("{" +:+ (body +:+ "}")).
    rewrite trim_words; [done|by vm_compute|done|by vm_compute|done].
Qed.

(** ** Listing *)

Lemma apply_filter_perm l1 l2 f :
  NoDup (map es_execution_id l1) → Permutation l1 l2 → apply_filter l1 f = apply_filter l2 f.
Proof.
  intros Hnd Hp. unfold apply_filter.
  enough (merge_sort id_le (List.filter (filter_matches f) l1) =
          merge_sort id_le (List.filter (filter_matches f) l2)) as -> by done.
  assert (Permutation (List.filter (filter_matches f) l1) (List.filter (filter_matches f) l2)) as Hpf.
  { clear Hnd. induction Hp; simpl; repeat case_match; try done; eauto using Permutation;
      by econstructor. }
  apply (Sorted_unique_strong id_le); [|by apply Sorted_merge_sort, _..|].
  - intros a b. rewrite !merge_sort_Permutation, Hpf. intros Ha Hb Hab Hba.
    apply filter_elem in Ha as [Ha _], Hb as [Hb _]. rewrite <-Hp in Ha, Hb.
    assert (es_execution_id a = es_execution_id b) as E by (by apply (anti_symm String.le)).
    apply list_elem_of_lookup in Ha as [i Ha], Hb as [j Hb].
    assert (i = j) as ->; [|congruence].
    eapply NoDup_lookup; [exact Hnd| |]; rewrite list_lookup_fmap; [by rewrite Ha|by rewrite Hb, E].
  - by rewrite !merge_sort_Permutation.
Qed.

(** ** The refinement *)

Section refinement.
Context `{EventSerde, SnapshotSerde}.
(** Executions with file names of their own. *)
Context (ids : string → Prop) (Hstem : ∀ a b, ids a → ids b → FileStore.stem a = FileStore.stem b → a = b).

(** The serializer writes the event as a line that reads back. *)
Definition event_line (e : WorkflowEvent) (line : string) : Prop :=
  json_line line ∧ decode_event line = Ok e.
Definition event_writes (e : WorkflowEvent) : Prop := ∃ line, encode_event e = inr line ∧ event_line e line.
Definition snapshot_json (st : ExecutionState) (json : string) : Prop := snapshot_from_str json = inr st.
Definition snapshot_writes (st : ExecutionState) : Prop :=
  ∃ json, snapshot_to_string st = inr json ∧ snapshot_json st json.

Definition op_ok (op : store_op) : Prop :=
  match op with
  | SAppend id e => ids id ∧ event_writes e
  | SSave st => ids (es_execution_id st) ∧ snapshot_writes st
  | SLoadPage id offset limit => ids id ∧ 0 <= offset ∧ 0 <= limit
  | SLoad id | SCompact id _ | SLatest id => ids id
  | SList _ | SRestart => True
  end.

Definition log_text (log : list WorkflowEvent) (text : string) : Prop :=
  ∃ ls, text = text_of_lines ls ∧ Forall2 event_line log ls.

Definition log_of (m : InMemoryStore.t) (id : string) : list WorkflowEvent :=
  default [] (InMemoryStore.events m !! id).

Record represents (f : FileStore.t) (m : InMemoryStore.t) : Prop := {
  rep_log id : ids id → log_text (log_of m id) (default "" (FileStore.files f !! FileStore.events_path id));
  rep_checkpoint id : ids id →
    match InMemoryStore.checkpoints m !! id with
    | Some st => es_execution_id st = id ∧
        ∃ json, FileStore.files f !! FileStore.checkpoint_path id = Some json ∧ snapshot_json st json
    | None => FileStore.files f !! FileStore.checkpoint_path id = None
    end;
  rep_ids id st : InMemoryStore.checkpoints m !! id = Some st → ids id;
  rep_names name text : FileStore.files f !! name = Some text → FileStore.is_checkpoint name = true →
    ∃ id, ids id ∧ name = FileStore.checkpoint_path id;
}.

(** The cached sequence numbers are the lengths of the logs. *)
Definition numbered (f : FileStore.t) (m : InMemoryStore.t) : Prop :=
  ∀ id n, ids id → FileStore.seqs f !! id = Some n → n = Z.of_nat (length (log_of m id)).

Lemma event_lines_plain log ls : Forall2 event_line log ls → Forall plain_line ls.
Proof. induction 1 as [|e l log ls [Hl _] _ IH]; constructor; [|done]. by apply json_line_plain. Qed.

(** The lines of a represented log, whether its file exists or not. *)
Lemma represented_lines f m id : represents f m → ids id →
  Forall2 event_line (log_of m id) (FileStore.load_lines (FileStore.events_path id) f).
Proof.
  intros Hrep Hid. destruct (rep_log _ _ Hrep id Hid) as (ls & Htext & Hls).
  unfold FileStore.load_lines. destruct (FileStore.files f !! FileStore.events_path id); simpl in Htext.
  - subst. rewrite lines_text; [done|by eapply event_lines_plain].
  - destruct ls as [|l ls]; [done|]. simpl in Htext. by destruct l.
Qed.

Lemma collect_lines log ls : Forall2 event_line log ls →
  collect decode_event (List.filter (λ l, negb (is_empty (trim l))) ls) = Ok log.
Proof.
  intros Hls. apply collect_Ok. induction Hls as [|e l log ls [Hl He] _ IH]; [constructor|].
  simpl. destruct (json_line_plain l Hl) as (_ & -> & _). by constructor.
Qed.

Lemma skip_lines_drop offset ls : 0 <= offset →
  default [] (FileStore.skip_lines offset ls) = drop (Z.to_nat offset) ls.
Proof.
  revert offset. induction ls as [|l ls IH]; intros offset Ho; cbn [FileStore.skip_lines];
    destruct (Z.leb_spec offset 0).
  1,3: by replace offset with 0 by lia.
  - by rewrite drop_nil.
  - rewrite IH by lia. by replace (Z.to_nat offset) with (S (Z.to_nat (offset - 1))) by lia.
Qed.

Lemma read_page_take limit log ls : 0 <= limit → Forall2 event_line log ls →
  FileStore.read_page limit ls = Ok (take (Z.to_nat limit) log).
Proof.
  intros Hlim Hls. revert limit Hlim. induction Hls as [|e l log ls [Hl He] _ IH]; intros limit Hlim;
    cbn [FileStore.read_page]; destruct (Z.leb_spec limit 0).
  1,3: by replace limit with 0 by lia.
  - by rewrite take_nil.
  - destruct (json_line_plain l Hl) as (_ & -> & _). rewrite He. cbn [mbind result_bind].
    rewrite IH by lia. cbn [mbind result_bind].
    by replace (Z.to_nat limit) with (S (Z.to_nat (limit - 1))) by lia.
Qed.

(** A new text of one log: the rest of the store stays as it is. *)
Lemma represents_log f m id log text seqs :
  represents f m → ids id → log_text log text →
  represents {| FileStore.files := <[FileStore.events_path id := text]> (FileStore.files f);
                FileStore.seqs := seqs |}
             {| InMemoryStore.events := <[id := log]> (InMemoryStore.events m);
                InMemoryStore.checkpoints := InMemoryStore.checkpoints m |}.
Proof using Hstem.
  intros [Hlog Hcp Hids Hnames] Hid Htext. split; cbn.
  - intros id' Hid'. unfold log_of. cbn. destruct (decide (id' = id)) as [->|Hne].
    + by rewrite !lookup_insert_eq.
    + rewrite !lookup_insert_ne; [by apply Hlog| |done].
      intros E%paths_of_stems. apply Hne. symmetry. by apply Hstem.
  - intros id' Hid'. rewrite lookup_insert_ne by apply events_not_checkpoint. by apply Hcp.
  - done.
  - intros name text' Hl Hn. destruct (decide (name = FileStore.events_path id)) as [->|Hne].
    + by rewrite events_path_no_checkpoint in Hn.
    + rewrite lookup_insert_ne in Hl by done. by eapply Hnames.
Qed.

Lemma represents_seqs f m seqs :
  represents f m → represents {| FileStore.files := FileStore.files f; FileStore.seqs := seqs |} m.
Proof. by intros []. Qed.

Lemma append_step id e f m : represents f m → ids id → event_writes e →
  let '(f', r) := FileStore.append id e f in
  let '(m', r') := append id e m in
  represents f' m' ∧ (∃ n, r = Ok n) ∧ (numbered f m → numbered f' m' ∧ r = r').
Proof using Hstem.
  intros Hrep Hid (line & Henc & Hline).
  destruct (rep_log _ _ Hrep id Hid) as (ls & Htext & Hls).
  assert (log_text (log_of m id ++ [e])
    (default "" (FileStore.files f !! FileStore.events_path id) +:+ (line +:+ String newline ""))) as Hlog.
  { exists (ls ++ [line]). split; [by rewrite text_of_lines_app, Htext|].
    apply Forall2_app; [done|by constructor]. }
  unfold FileStore.append. rewrite Henc. cbn.
  split; [|split; [by eexists|intros Hnum]].
  - by apply represents_log.
  - set (seq := match FileStore.seqs f !! id with Some last => last + 1 | None => _ end).
    assert (seq = Z.of_nat (length (log_of m id ++ [e]))) as Hseq.
    { unfold seq. destruct (FileStore.seqs f !! id) as [last|] eqn:Hl.
      - rewrite (Hnum id last Hid Hl), length_app. cbn [length]. lia.
      - unfold FileStore.load_lines. cbn. rewrite lookup_insert_eq, Htext, <-text_of_lines_app.
        rewrite lines_text; [|eapply event_lines_plain; apply Forall2_app; [done|by constructor]].
        by rewrite !length_app, (Forall2_length _ _ _ Hls). }
    split; [|by rewrite Hseq]. intros id' n Hid'. cbn. unfold log_of. cbn.
    destruct (decide (id' = id)) as [->|Hne].
    + rewrite !lookup_insert_eq. intros [= <-]. done.
    + rewrite !lookup_insert_ne by done. by apply Hnum.
Qed.

Lemma compact_step id keep f m : represents f m → ids id →
  let '(f', r) := FileStore.compact id keep f in
  let '(m', r') := compact id keep m in
  represents f' m' ∧ r = r'.
Proof using Hstem.
  intros Hrep Hid. pose proof (represented_lines f m id Hrep Hid) as Hls.
  unfold FileStore.compact. set (ls := FileStore.load_lines _ f) in *.
  set (n := Nat.min (Z.to_nat keep) (length ls)).
  set (kept := if is_empty _ then _ else _).
  assert (log_text (drop n (log_of m id)) kept) as Htext.
  { exists (drop n ls). split; [|by apply Forall2_drop]. unfold kept.
    destruct (drop n ls) as [|l rest] eqn:E; [done|].
    assert (is_empty (join_with (String newline "") (l :: rest)) = false) as ->.
    { pose proof (Forall2_drop event_line _ _ n Hls) as Hd. rewrite E in Hd.
      inversion_clear Hd as [|e' l' log' rest' [Hj _] _].
      destruct (json_line_plain l Hj) as (_ & _ & Hne). by destruct l, rest. }
    by apply join_lines. }
  cbn. destruct (InMemoryStore.events m !! id) as [log|] eqn:Hm.
  - split; [|done]. unfold log_of in *. rewrite Hm in *. unfold default, Datatypes.id in *.
    assert (n = Nat.min (Z.to_nat keep) (length log)) as <-
      by (unfold n; by rewrite (Forall2_length _ _ _ Hls)).
    by apply represents_log.
  - split; [|done]. destruct m as [events checkpoints]. cbn in Hm.
    destruct (represents_log f {| InMemoryStore.events := events; InMemoryStore.checkpoints := checkpoints |}
      id [] kept (FileStore.seqs f) Hrep Hid) as [Hlog Hcp Hids Hnames].
    { unfold log_of in Htext. cbn in Htext. rewrite Hm in Htext. cbn in Htext.
      by rewrite drop_nil in Htext. }
    split; [|done..]. intros id' Hid'. specialize (Hlog id' Hid'). unfold log_of in *. cbn in *.
    destruct (decide (id' = id)) as [->|Hne].
    { rewrite (lookup_insert_eq events) in Hlog. by rewrite Hm. }
    by rewrite (lookup_insert_ne events) in Hlog by done.
Qed.

Lemma save_step st f m : represents f m → ids (es_execution_id st) → snapshot_writes st →
  let '(f', r) := FileStore.save st f in
  let '(m', r') := save st m in
  represents f' m' ∧ r = r'.
Proof using Hstem.
  intros [Hlog Hcp Hids Hnames] Hid (json & Hto & Hjson). unfold FileStore.save. rewrite Hto. cbn.
  split; [|done]. split; cbn.
  - intros id' Hid'. rewrite lookup_insert_ne; [by apply Hlog|].
    intros E. symmetry in E. by apply events_not_checkpoint in E.
  - intros id' Hid'. destruct (decide (id' = es_execution_id st)) as [->|Hne].
    + rewrite !lookup_insert_eq. eauto.
    + rewrite !lookup_insert_ne; [by apply Hcp| |done].
      intros E%paths_of_stems. apply Hne. symmetry. by apply Hstem.
  - intros id' st'. destruct (decide (id' = es_execution_id st)) as [->|Hne]; [done|].
    rewrite lookup_insert_ne by done. apply Hids.
  - intros name text. destruct (decide (name = FileStore.checkpoint_path (es_execution_id st))) as [->|Hne].
    + eauto.
    + rewrite lookup_insert_ne by done. apply Hnames.
Qed.

Lemma keyed_by_id (l : list (string * ExecutionState)) :
  (∀ p, p ∈ l → es_execution_id p.2 = p.1) → es_execution_id <$> map snd l = map fst l.
Proof.
  induction l as [|p l IH]; intros Hl; [done|]. cbn. rewrite IH, Hl; [done|by left|].
  intros q Hq. apply Hl. by right.
Qed.

(** The checkpoints of the directory are the snapshots of the store in memory. *)
Lemma listed_snapshots f m : represents f m →
  ∃ snapshots, collect (λ p, of_json (snapshot_from_str p.2))
      (List.filter (λ p, FileStore.is_checkpoint p.1) (map_to_list (FileStore.files f))) = Ok snapshots ∧
    NoDup (map es_execution_id snapshots) ∧
    Permutation snapshots (map snd (map_to_list (InMemoryStore.checkpoints m))).
Proof using Hstem.
  intros [_ Hcp Hids Hnames].
  set (entries := List.filter _ _).
  assert (∀ p, p ∈ entries → ∃ st, snapshot_json st p.2 ∧
    p.1 = FileStore.checkpoint_path (es_execution_id st) ∧
    InMemoryStore.checkpoints m !! es_execution_id st = Some st) as Hentry.
  { intros [name text] [Hin Hc]%filter_elem. apply elem_of_map_to_list in Hin.
    destruct (Hnames name text Hin Hc) as (id & Hid & ->). specialize (Hcp id Hid).
    destruct (InMemoryStore.checkpoints m !! id) as [st|] eqn:Hm; [|by rewrite Hin in Hcp].
    destruct Hcp as (<- & json & Hj & Hst). rewrite Hin in Hj. injection Hj as ->. by exists st. }
  assert (∃ snapshots, Forall2 (λ p st, snapshot_json st p.2 ∧
    p.1 = FileStore.checkpoint_path (es_execution_id st) ∧
    InMemoryStore.checkpoints m !! es_execution_id st = Some st) entries snapshots) as [snaps Hs].
  { clearbody entries. clear -Hentry. induction entries as [|p l IH]; [by exists []|].
    destruct (Hentry p) as [st Hst]; [by left|]. destruct IH as [ss Hss]; [intros; apply Hentry; by right|].
    exists (st :: ss). by constructor. }
  assert (NoDup (map es_execution_id snaps)) as Hnd.
  { apply (NoDup_fmap_1 FileStore.checkpoint_path).
    assert (FileStore.checkpoint_path <$> map es_execution_id snaps = map fst entries) as ->.
    { clear -Hs. induction Hs as [|p st l l' (_ & Hp & _) _ IH]; [done|]. cbn. by rewrite Hp, IH. }
    apply NoDup_fmap_filter, NoDup_fst_map_to_list. }
  exists snaps. split; [|split; [done|]].
  - apply collect_Ok. eapply Forall2_impl; [exact Hs|]. intros p st (Hj & _). unfold of_json.
    unfold snapshot_json in Hj. by rewrite Hj.
  - assert (∀ id st, InMemoryStore.checkpoints m !! id = Some st → es_execution_id st = id) as Hkey.
    { intros id st Hm. specialize (Hcp id (Hids id st Hm)). rewrite Hm in Hcp. apply Hcp. }
    apply NoDup_Permutation.
    + by apply (NoDup_fmap_1 es_execution_id).
    + apply (NoDup_fmap_1 es_execution_id).
      assert (es_execution_id <$> map snd (map_to_list (InMemoryStore.checkpoints m))
        = map fst (map_to_list (InMemoryStore.checkpoints m))) as ->; [|apply NoDup_fst_map_to_list].
      apply keyed_by_id. intros [id st] Hin%elem_of_map_to_list. by apply Hkey.
    + intros st. split.
      * intros Hin. apply list_elem_of_lookup in Hin as [i Hi].
        destruct (Forall2_lookup_r _ _ _ _ _ Hs Hi) as (p & _ & _ & _ & Hm).
        apply list_elem_of_fmap. exists (es_execution_id st, st). split; [done|].
        by apply elem_of_map_to_list.
      * intros ([id st'] & -> & Hin)%list_elem_of_fmap. apply elem_of_map_to_list in Hin.
        specialize (Hcp id (Hids id st' Hin)). rewrite Hin in Hcp. destruct Hcp as (Hid & json & Hj & Hst).
        assert ((FileStore.checkpoint_path id, json) ∈ entries) as He.
        { apply filter_elem. split; [by apply elem_of_map_to_list|]. apply is_checkpoint_spec. by eexists. }
        apply list_elem_of_lookup in He as [i Hi].
        destruct (Forall2_lookup_l _ _ _ _ _ Hs Hi) as (st & Hsi & Hst' & _).
        unfold snapshot_json in *. cbn in Hst'. rewrite Hst in Hst'. injection Hst' as <-.
        by eapply list_elem_of_lookup_2.
Qed.

Lemma store_step_refines op f m : represents f m → op_ok op →
  let '(f', a) := store_step FileStore.load_page (λ f, FileStore.new (FileStore.files f)) op f in
  let '(m', b) := store_step load_page (λ m, m) op m in
  represents f' m' ∧ unnumbered a = unnumbered b ∧
  (numbered f m → (match op with SCompact _ _ => False | _ => True end) → numbered f' m' ∧ a = b).
Proof using Hstem.
  intros Hrep Hok. destruct op as [id e|id|id offset limit|id keep|st|id|flt|]; cbn [store_step op_ok] in *.
  - destruct Hok as [Hid He]. pose proof (append_step id e f m Hrep Hid He) as Hs.
    change (append id e f) with (FileStore.append id e f). cbn in Hs |- *.
    destruct (FileStore.append id e f) as [f' r]. cbn in Hs |- *.
    destruct Hs as (Hr & [n ->] & Hnum). split_and!; [done|done|]. intros Hn _.
    destruct (Hnum Hn) as [Hn' [= ->]]. done.
  - cbn. rewrite (collect_lines (log_of m id)) by (by apply represented_lines). by split_and!.
  - destruct Hok as (Hid & Ho & Hl). pose proof (represented_lines f m id Hrep Hid) as Hls.
    assert (FileStore.load_page id offset limit f =
      (f, Ok (take (Z.to_nat limit) (drop (Z.to_nat offset) (log_of m id))))) as Hpage.
    { unfold FileStore.load_page. f_equal. unfold FileStore.load_lines in Hls.
      destruct (FileStore.files f !! _) as [text|].
      - pose proof (skip_lines_drop offset (lines text) Ho) as Hskip.
        apply (Forall2_drop _ _ _ (Z.to_nat offset)) in Hls. rewrite <-Hskip in Hls.
        destruct (FileStore.skip_lines offset (lines text)) as [rest|]; simpl in Hls.
        + by apply read_page_take.
        + apply Forall2_nil_inv_r in Hls as ->. by rewrite take_nil.
      - apply Forall2_nil_inv_r in Hls as ->. by rewrite drop_nil, take_nil. }
    rewrite Hpage. cbn. by split_and!.
  - pose proof (compact_step id keep f m Hrep Hok) as Hs.
    change (compact id keep f) with (FileStore.compact id keep f). cbn in Hs |- *.
    destruct (InMemoryStore.events m !! id); cbn in *; destruct Hs as [Hr _]; by split_and!.
  - destruct Hok as [Hid Hst]. pose proof (save_step st f m Hrep Hid Hst) as Hs.
    change (save st f) with (FileStore.save st f). destruct Hst as (json & Hto & _).
    unfold FileStore.save in *. rewrite Hto in *. cbn in *. destruct Hs as [Hr _]. by split_and!.
  - cbn. pose proof (rep_checkpoint _ _ Hrep id Hok) as Hcp.
    destruct (InMemoryStore.checkpoints m !! id) as [st|].
    + destruct Hcp as (_ & json & -> & Hj). unfold snapshot_json in Hj. rewrite Hj. by split_and!.
    + rewrite Hcp. by split_and!.
  - destruct (listed_snapshots f m Hrep) as (snaps & Hc & Hnd & Hp).
    cbn. unfold FileStore.list_snapshots. rewrite Hc. cbn. rewrite (apply_filter_perm _ _ flt Hnd Hp).
    by split_and!.
  - cbn. split_and!; [by apply represents_seqs|done|]. intros _ _. split; [|done].
    intros id n _ Hl. cbn in Hl. by rewrite lookup_empty in Hl.
Qed.
End refinement.

Section sequences.
Context `{EventSerde, SnapshotSerde}.

Lemma answers_refine ids ops f m :
  (∀ a b, ids a → ids b → FileStore.stem a = FileStore.stem b → a = b) →
  represents ids f m → Forall (op_ok ids) ops →
  map unnumbered (file_answers ops f) = map unnumbered (memory_answers ops m) ∧
  (numbered ids f m → (∀ id n, SCompact id n ∉ ops) → file_answers ops f = memory_answers ops m).
Proof.
  intros Hstem Hrep Hops. revert f m Hrep. induction Hops as [|op ops Hop _ IH]; intros f m Hrep; [done|].
  pose proof (store_step_refines ids Hstem op f m Hrep Hop) as Hstep.
  unfold file_answers, memory_answers in *. cbn [answers].
  destruct (store_step FileStore.load_page _ op f) as [f' a].
  destruct (store_step load_page _ op m) as [m' b].
  destruct Hstep as (Hrep' & Hab & Hnum). destruct (IH f' m' Hrep') as [IH1 IH2].
  cbn [map]. split; [by rewrite Hab, IH1|]. intros Hn Hnc.
  destruct (Hnum Hn) as [Hn' ->].
  { destruct op; try done. eapply Hnc. by left. }
  rewrite IH2; [done..|]. intros id n Hin. eapply Hnc. by right.
Qed.

(** C21: the file store refines the store in memory.  For executions whose ids
    are mapped to different file names, and events and snapshots that the
    serializer writes and reads back, a file store over an empty directory
    answers any sequence of appends, loads, page loads, compactions,
    checkpoints, lookups and listings as the in-memory store does, even when it
    is closed and reopened in between; the sequence numbers of appended events
    agree too as long as nothing is compacted. *)
Theorem file_store_refines_memory (ids : string → Prop) ops :
  (∀ a b, ids a → ids b → FileStore.stem a = FileStore.stem b → a = b) →
  Forall (op_ok ids) ops →
  map unnumbered (file_answers ops (FileStore.new ∅)) =
    map unnumbered (memory_answers ops InMemoryStore.new) ∧
  ((∀ id n, SCompact id n ∉ ops) →
   file_answers ops (FileStore.new ∅) = memory_answers ops InMemoryStore.new).
Proof.
  intros Hstem Hops.
  assert (represents ids (FileStore.new ∅) InMemoryStore.new) as Hrep.
  { split; cbn.
    - intros id _. exists []. by rewrite lookup_empty.
    - intros id _. by rewrite !lookup_empty.
    - intros id st. by rewrite lookup_empty.
    - intros name text. by rewrite lookup_empty. }
  destruct (answers_refine ids ops _ _ Hstem Hrep Hops) as [H1 H2]. split; [done|].
  apply H2. intros id n _ Hl. cbn in Hl. by rewrite lookup_empty in Hl.
Qed.
End sequences.

(** ** An example *)

Definition in_braces (s : string) : string := String "{" (s +:+ "}").
Definition out_of_braces (s : string) : option string :=
  s ← strip_prefix "{" s; strip_suffix "}" s.

Lemma out_of_braces_in s : out_of_braces (in_braces s) = Some s.
Proof.
  unfold out_of_braces, in_braces. change (strip_prefix "{" (String "{" (s +:+ "}"))) with (Some (s +:+ "}")).
  by apply strip_suffix_Some.
Qed.

(** A serializer of one kind of event and of snapshots of new executions. *)
Definition event_serde_example : EventSerde := {|
  event_to_string ve :=
    match ve_event ve with ActivityReady id => inr (in_braces id) | _ => inl "unsupported" end;
  event_from_str s :=
    match out_of_braces s with
    | Some id => inr {| ve_v := 1; ve_event := ActivityReady id |}
    | None => inl "expected an object"
    end |}.

Definition created (id : string) : ExecutionState := {|
  es_execution_id := id; es_workflow_name := "w"; es_workflow_version := "1";
  es_status := State.WorkflowState.Created; es_variables := ∅; es_activities := ∅;
  es_completed_order := []; es_definition_hash := None; es_version := 1 |}.
Definition snapshot_serde_example : SnapshotSerde := {|
  snapshot_to_string st := inr (in_braces (es_execution_id st));
  snapshot_from_str s :=
    match out_of_braces s with Some id => inr (created id) | None => inl "expected an object" end |}.

Definition any_execution : ExecutionFilter :=
  {| filter_workflow_name := None; filter_status := None; filter_limit := None |}.

Definition store_ops_example : list store_op :=
  [SAppend "a" (ActivityReady "x"); SAppend "b/1" (ActivityReady "x"); SSave (created "b/1");
   SRestart; SAppend "a" (ActivityReady "y"); SLoad "a"; SLoadPage "a" 1 5; SSave (created "a");
   SList any_execution; SLatest "b/1"].

Lemma file_store_refines_memory_witness :
  @file_answers event_serde_example snapshot_serde_example store_ops_example (FileStore.new ∅) =
    memory_answers store_ops_example InMemoryStore.new ∧
  memory_answers store_ops_example InMemoryStore.new =
    [ASeq (Ok 1); ASeq (Ok 1); AUnit (Ok ()); AUnit (Ok ()); ASeq (Ok 2);
     AEvents (Ok [ActivityReady "x"; ActivityReady "y"]); AEvents (Ok [ActivityReady "y"]);
     AUnit (Ok ()); ASnapshots (Ok [created "a"; created "b/1"]); ASnapshot (Ok (Some (created "b/1")))].
Proof.
  assert (∀ id, str_all (other_than newline) id = true →
    @event_writes event_serde_example (ActivityReady id)) as Hev.
  { intros id Hid. exists (in_braces id). split; [reflexivity|]. split.
    - split; [|by exists id]. cbn. rewrite str_all_app, Hid. reflexivity.
    - unfold decode_event. cbn [event_from_str event_serde_example]. rewrite out_of_braces_in. reflexivity. }
  assert (∀ id, @snapshot_writes snapshot_serde_example (created id)) as Hsn.
  { intros id. exists (in_braces id). split; [reflexivity|].
    unfold snapshot_json. cbn [snapshot_from_str snapshot_serde_example es_execution_id created].
    rewrite out_of_braces_in. reflexivity. }
  split; [|vm_compute; reflexivity].
  apply (@file_store_refines_memory event_serde_example snapshot_serde_example
           (λ id, id = "a" ∨ id = "b/1") store_ops_example).
  - intros a b [->| ->] [->| ->] E; try reflexivity; vm_compute in E; discriminate.
  - unfold store_ops_example. repeat (apply Forall_cons; split); try apply Forall_nil; cbn [op_ok];
      repeat split; try (left; reflexivity); try (right; reflexivity); try lia;
      try (apply Hev; reflexivity); apply Hsn.
  - intros id n Hin. unfold store_ops_example in Hin.
    repeat (apply elem_of_cons in Hin as [Hin|Hin]; [discriminate|]). by apply elem_of_nil in Hin.
Defined.

(** Distinct ids may share their files: two executions, one log. *)
Example stems_collide : FileStore.stem "a/b" = FileStore.stem "a b".
Proof. reflexivity. Qed.
