(* ===== verification/Queue.v ===== *)
(** * The distributed work queue

    [crates/wovyr-workflow/src/queue.rs]: partitions, the queue port with its
    laws, and the in-memory queue with its leases.  Each operation takes the
    instant at which it reads the clock. *)
From stdpp Require Import base tactics list numbers strings gmap sorting.
From Stdlib Require Import Lia ZArith Ascii.
From S2P Require Import Prelude.
From S2P Require Import Common.
From S2P Require Import WorkflowDef.
Local Open Scope Z_scope.

(** ** Partitions *)

Definition shard_of (execution_id : string) (total : Z) : Z :=
  if Z.leb total 1 then 0 else fnv_bytes fnv_offset execution_id mod total.

Record PartitionAssignment := { total : Z; owned : list Z }.

(** The numbers [0..n]. *)
Definition range (n : Z) : list Z := seqZ 0 n.

Definition for_pool (pool_index pool_count total : Z) : PartitionAssignment := {|
  total := total;
  owned := List.filter (λ p, Z.eqb pool_count 0 || Z.eqb (p mod pool_count) pool_index) (range total);
|}.

Definition owns (a : PartitionAssignment) (shard : Z) : bool :=
  existsb (Z.eqb shard) (owned a).

(** ** The port *)

Class WorkQueue (Q : Type) := {
  enqueue : string → Z → Q → Q * result ();
  lease : string → Z → Z → Q → Q * result (option string);
  lease_sharded : string → PartitionAssignment → Z → Z → Q → Q * result (option string);
  renew : string → string → Z → Z → Q → Q * result ();
  remove : string → Z → Q → Q * result ();
}.

(** What a worker may assume: the set of queued executions, which only
    [enqueue] and [remove] change (a failed call may or may not have). *)
Class WorkQueueLaws (Q : Type) `{WorkQueue Q} := {
  queued : Q → gset string;
  enqueue_law id now q :
    let '(q', r) := enqueue id now q in
    queued q' = {[id]} ∪ queued q ∨ (r ≠ Ok () ∧ queued q' = queued q);
  lease_law w ttl now q :
    let '(q', r) := lease w ttl now q in
    queued q' = queued q ∧ ∀ id, r = Ok (Some id) → id ∈ queued q;
  lease_sharded_law w a ttl now q :
    let '(q', r) := lease_sharded w a ttl now q in
    queued q' = queued q ∧
    ∀ id, r = Ok (Some id) → id ∈ queued q ∧ owns a (shard_of id (total a)) = true;
  renew_law id w ttl now q : queued (renew id w ttl now q).1 = queued q;
  remove_law id now q :
    let '(q', r) := remove id now q in
    queued q' = queued q ∖ {[id]} ∨ (r ≠ Ok () ∧ queued q' = queued q);
}.

(** ** The in-memory queue *)

Record Lease := { worker : option string; expires_at : option Z }.
#[export] Instance Lease_eq_dec : EqDecision Lease.
Proof. solve_decision. Defined.

Module InMemoryWorkQueue.
Notation t := (gmap string Lease).
Definition new : t := ∅.

(** Free, or its lease has expired. *)
Definition available (now : Z) (l : Lease) : bool :=
  match worker l with
  | None => true
  | Some _ => match expires_at l with Some e => Z.leb e now | None => false end
  end.

Definition lease_where (w : string) (ttl now : Z) (accepts : string → bool) (q : t)
    : t * option string :=
  match List.find (λ kv, available now kv.2 && accepts kv.1) (btree_iter q) with
  | None => (q, None)
  | Some (id, _) =>
    (<[id := {| worker := Some w; expires_at := Some (now + ttl) |}]> q, Some id)
  end.

#[global] Instance work_queue : WorkQueue t := {
  enqueue id now q :=
    (match q !! id with
     | Some _ => q
     | None => <[id := {| worker := None; expires_at := None |}]> q
     end, Ok ());
  lease w ttl now q := prod_map id Ok (lease_where w ttl now (λ _, true) q);
  lease_sharded w a ttl now q :=
    prod_map id Ok (lease_where w ttl now (λ id, owns a (shard_of id (total a))) q);
  renew id w ttl now q :=
    (match q !! id with
     | Some l =>
       if bool_decide (worker l = Some w)
       then <[id := {| worker := worker l; expires_at := Some (now + ttl) |}]> q
       else q
     | None => q
     end, Ok ());
  remove id now q := (delete id q, Ok ());
}.

Lemma lease_where_Some w ttl now accepts q q' id :
  lease_where w ttl now accepts q = (q', Some id) →
  (∃ l, q !! id = Some l ∧ available now l = true) ∧ accepts id = true ∧
  q' = <[id := {| worker := Some w; expires_at := Some (now + ttl) |}]> q.
Proof.
  unfold lease_where. destruct (List.find _ _) as [[k l]|] eqn:Hf; [|done].
  intros [= <- <-]. apply find_Some_elem in Hf as [Hin Hb]. apply btree_iter_elem in Hin.
  simpl in Hb. to_prop. eauto.
Qed.

Lemma lease_where_None w ttl now accepts q q' :
  lease_where w ttl now accepts q = (q', None) →
  q' = q ∧ ∀ id l, q !! id = Some l → available now l = true → accepts id = false.
Proof.
  unfold lease_where. destruct (List.find _ _) as [[k l]|] eqn:Hf; [done|].
  intros [= <-]. split; [done|]. intros id l Hl Ha.
  apply btree_iter_elem in Hl. apply (find_None_elem _ _ _ Hf) in Hl. simpl in Hl.
  rewrite Ha in Hl. done.
Qed.

#[global] Program Instance laws : WorkQueueLaws t := { queued q := dom q }.
Next Obligation.
  intros id now q. simpl. left. destruct (q !! id) eqn:E; [|set_solver].
  apply elem_of_dom_2 in E. set_solver.
Qed.
Next Obligation.
  intros w ttl now q. unfold lease, work_queue. destruct (lease_where _ _ _ _ q) as [q' [id|]] eqn:E;
    simpl; unfold Datatypes.id.
  - apply lease_where_Some in E as ((l & Hl & _) & _ & ->). apply elem_of_dom_2 in Hl.
    split; [set_solver|]. by intros ? [= <-].
  - by apply lease_where_None in E as [-> _].
Qed.
Next Obligation.
  intros w a ttl now q. unfold lease_sharded, work_queue.
  destruct (lease_where _ _ _ _ q) as [q' [id|]] eqn:E; simpl; unfold Datatypes.id.
  - apply lease_where_Some in E as ((l & Hl & _) & Ha & ->). apply elem_of_dom_2 in Hl.
    split; [set_solver|]. by intros ? [= <-].
  - by apply lease_where_None in E as [-> _].
Qed.
Next Obligation.
  intros id w ttl now q. simpl. destruct (q !! id) eqn:E; [|done].
  case_bool_decide; [|done]. apply elem_of_dom_2 in E. set_solver.
Qed.
Next Obligation. intros id now q. left. apply (dom_delete_L q id). Qed.
End InMemoryWorkQueue.

(** ** Sequences of queue operations *)

Inductive queue_op :=
  | QEnqueue (id : string)
  | QLease (w : string) (ttl : Z)
  | QLeaseSharded (w : string) (a : PartitionAssignment) (ttl : Z)
  | QRenew (id w : string) (ttl : Z)
  | QRemove (id : string).

(** One operation at instant [now], with the execution it leases, if any. *)
Definition queue_step (now : Z) (op : queue_op) (q : InMemoryWorkQueue.t)
    : InMemoryWorkQueue.t * option string :=
  let granted (r : InMemoryWorkQueue.t * result (option string)) :=
    (r.1, match r.2 with Ok o => o | Err _ => None end) in
  match op with
  | QEnqueue id => ((enqueue id now q).1, None)
  | QLease w ttl => granted (lease w ttl now q)
  | QLeaseSharded w a ttl => granted (lease_sharded w a ttl now q)
  | QRenew id w ttl => ((renew id w ttl now q).1, None)
  | QRemove id => ((remove id now q).1, None)
  end.

(** The leases a sequence grants. *)
Fixpoint leases (ops : list (Z * queue_op)) (q : InMemoryWorkQueue.t) : list string :=
  match ops with
  | [] => []
  | (now, op) :: ops =>
    let '(q, granted) := queue_step now op q in
    match granted with Some id => id :: leases ops q | None => leases ops q end
  end.

(** [id] is leased at least until [deadline]. *)
Definition held (id : string) (deadline : Z) (q : InMemoryWorkQueue.t) : Prop :=
  ∃ w e, q !! id = Some {| worker := Some w; expires_at := Some e |} ∧ deadline <= e.

(** The operations that end a lease early. *)
Definition gives_up (id : string) (deadline now : Z) (op : queue_op) : bool :=
  match op with
  | QRemove id' => String.eqb id' id
  | QRenew id' _ ttl => String.eqb id' id && Z.ltb (now + ttl) deadline
  | _ => false
  end.

Lemma held_not_available id deadline now q w ttl accepts q' id' :
  held id deadline q → now < deadline →
  InMemoryWorkQueue.lease_where w ttl now accepts q = (q', Some id') →
  id' ≠ id ∧ held id deadline q'.
Proof.
  intros (w0 & e & He & Hd) Hnow Hl.
  apply InMemoryWorkQueue.lease_where_Some in Hl as ((l & Hl & Ha) & _ & ->).
  assert (id' ≠ id) as Hne.
  { intros ->. rewrite He in Hl. injection Hl as <-. simpl in Ha. apply Z.leb_le in Ha. lia. }
  split; [done|]. exists w0, e. by rewrite lookup_insert_ne.
Qed.

Lemma held_step id deadline now op q q' granted :
  held id deadline q → now < deadline → gives_up id deadline now op = false →
  queue_step now op q = (q', granted) → granted ≠ Some id ∧ held id deadline q'.
Proof.
  intros Hh Hnow Hg. pose proof Hh as (w0 & e & He & Hd).
  assert (∀ w ttl accepts, (let r := prod_map Datatypes.id (@Ok (option string))
      (InMemoryWorkQueue.lease_where w ttl now accepts q) in
      (r.1, match r.2 with Ok o => o | Err _ => None end)) = (q', granted) →
    granted ≠ Some id ∧ held id deadline q') as Hlease.
  { intros w ttl accepts. destruct (InMemoryWorkQueue.lease_where w ttl now accepts q) as [q1 [i|]] eqn:Hl;
      simpl; unfold Datatypes.id; intros [= <- <-].
    - destruct (held_not_available _ _ _ _ _ _ _ _ _ Hh Hnow Hl) as [Hne ?]. split; [congruence|done].
    - by apply InMemoryWorkQueue.lease_where_None in Hl as [-> _]. }
  destruct op as [id'|w ttl|w a ttl|id' w ttl|id']; simpl in Hg |- *.
  - intros [= <- <-]. split; [done|]. exists w0, e. split; [|done]. unfold enqueue. simpl.
    destruct (q !! id') eqn:E; [done|]. rewrite lookup_insert_ne; [done|]. intros ->. congruence.
  - apply Hlease.
  - apply Hlease.
  - intros [= <- <-]. split; [done|]. destruct (q !! id') as [l|] eqn:E; [|done].
    case_bool_decide as Hw; [|done]. destruct (decide (id' = id)) as [->|Hne].
    + rewrite He in E. injection E as <-. simpl. exists w0, (now + ttl).
      rewrite lookup_insert_eq. split; [done|].
      rewrite String.eqb_refl in Hg. simpl in Hg. apply Z.ltb_ge in Hg. lia.
    + exists w0, e. by rewrite lookup_insert_ne.
  - intros [= <- <-]. split; [done|]. apply String.eqb_neq in Hg.
    exists w0, e. by rewrite lookup_delete_ne.
Qed.

(** ** Order of the candidates *)

Lemma find_first {A} (f : A → bool) l x :
  List.find f l = Some x → ∃ l1 l2, l = l1 ++ x :: l2 ∧ ∀ y, y ∈ l1 → f y = false.
Proof.
  induction l as [|a l IH]; simpl; [done|]. destruct (f a) eqn:Ha.
  - intros [= <-]. exists [], l. split; [done|]. by intros y ?%not_elem_of_nil.
  - intros (l1 & l2 & -> & Hl)%IH. exists (a :: l1), l2. split; [done|].
    intros y [->|?]%elem_of_cons; auto.
Qed.

Lemma btree_iter_keys {V} (m : gmap string V) : map fst (btree_iter m) = btree_keys m.
Proof.
  unfold btree_iter. assert (∀ k, k ∈ btree_keys m → is_Some (m !! k)) as Hk.
  { intros k. apply btree_keys_elem. }
  induction (btree_keys m) as [|k l IH]; [done|]. simpl.
  destruct (Hk k) as [v Hv]; [set_solver|]. rewrite Hv. simpl. f_equal. apply IH. set_solver.
Qed.

(** The first entry in iteration order has the least key. *)
Lemma btree_find_least {V} (m : gmap string V) f k v k' v' :
  List.find f (btree_iter m) = Some (k, v) → m !! k' = Some v' → f (k', v') = true →
  String.le k k'.
Proof.
  intros Hf Hm Hb. apply find_first in Hf as (l1 & l2 & Hl & Hno).
  pose proof (btree_keys_sorted m) as Hs. rewrite <- btree_iter_keys, Hl, map_app in Hs. simpl in Hs.
  apply btree_iter_elem in Hm. rewrite Hl in Hm. apply elem_of_app in Hm as [Hm|Hm].
  { apply Hno in Hm. congruence. }
  apply elem_of_cons in Hm as [[= -> ->]|Hm]; [reflexivity|].
  apply Sorted_StronglySorted in Hs; [|apply _].
  apply StronglySorted_app_1_r in Hs. inversion Hs as [|? ? _ Hall]; subst.
  rewrite Forall_forall in Hall. apply Hall. apply list_elem_of_fmap. by exists (k', v').
Qed.

(** ** Properties *)

(** Worker pools split the work.  When partitions are striped over
    [pool_count] pools, every execution belongs to a partition of exactly one
    pool: no execution is leased by two pools and none is left out. *)
Theorem pools_partition_executions id pool_count total :
  0 < pool_count → 1 <= total →
  ∃ i, 0 <= i < pool_count ∧ owns (for_pool i pool_count total) (shard_of id total) = true ∧
    ∀ j, 0 <= j < pool_count → owns (for_pool j pool_count total) (shard_of id total) = true → j = i.
Proof.
  intros Hp Ht.
  assert (0 <= shard_of id total < total) as Hs.
  { unfold shard_of. destruct (Z.leb_spec total 1); [lia|]. apply Z.mod_pos_bound. lia. }
  assert (∀ j, owns (for_pool j pool_count total) (shard_of id total) = true ↔
    shard_of id total mod pool_count = j) as Howns.
  { intros j. unfold owns, for_pool. simpl. rewrite existsb_elem. split.
    - intros (p & Hin & Heq%Z.eqb_eq). apply filter_elem in Hin as [_ Hb].
      apply orb_prop in Hb as [Hb|Hb]; [apply Z.eqb_eq in Hb; lia|].
      apply Z.eqb_eq in Hb. congruence.
    - intros Hj. exists (shard_of id total). split; [|apply Z.eqb_refl].
      apply filter_elem. split; [apply elem_of_seqZ; lia|].
      apply orb_true_iff. right. by apply Z.eqb_eq. }
  exists (shard_of id total mod pool_count). split; [by apply Z.mod_pos_bound|].
  split; [by apply Howns|]. intros j _ Hj. symmetry. by apply Howns.
Qed.

Lemma pools_partition_executions_witness :
  ∃ i, 0 <= i < 3 ∧ owns (for_pool i 3 16) (shard_of "order-42" 16) = true ∧
    ∀ j, 0 <= j < 3 → owns (for_pool j 3 16) (shard_of "order-42" 16) = true → j = i.
Proof. apply (pools_partition_executions "order-42" 3 16); lia. Defined.

(** C32: a lease is exclusive.  Once an execution is leased at [now] for [ttl],
    no sequence of operations of any workers before [now + ttl] grants it
    again, unless it is removed from the queue or its lease is renewed to end
    sooner. *)
Theorem lease_is_exclusive w ttl now (q q' : InMemoryWorkQueue.t) id ops :
  lease w ttl now q = (q', Ok (Some id)) →
  (∀ t op, (t, op) ∈ ops → t < now + ttl ∧ gives_up id (now + ttl) t op = false) →
  id ∉ leases ops q'.
Proof.
  intros Hl Hops.
  assert (held id (now + ttl) q') as Hh.
  { unfold lease in Hl. simpl in Hl.
    destruct (InMemoryWorkQueue.lease_where _ _ _ _ q) as [q1 o] eqn:E. injection Hl as Hq ->.
    unfold Datatypes.id in Hq. subst q1.
    apply InMemoryWorkQueue.lease_where_Some in E as (_ & _ & ->).
    exists w, (now + ttl). rewrite lookup_insert_eq. split; [done|lia]. }
  clear Hl. revert q' Hh. induction ops as [|[t op] ops IH]; intros q' Hh; simpl.
  { apply not_elem_of_nil. }
  destruct (Hops t op) as [Ht Hg]; [set_solver|].
  destruct (queue_step t op q') as [q1 granted] eqn:E.
  destruct (held_step _ _ _ _ _ _ _ Hh Ht Hg E) as [Hne Hh1].
  assert (id ∉ leases ops q1) as Hno by (apply IH; [set_solver|done]).
  destruct granted as [i|]; [|done]. rewrite not_elem_of_cons. split; [congruence|done].
Qed.

Definition queue_example : InMemoryWorkQueue.t :=
  (enqueue "b" 0 (enqueue "a" 0 InMemoryWorkQueue.new).1).1.

Lemma lease_is_exclusive_witness :
  leases [(5, QLease "w2" 30); (10, QRenew "a" "w2" 1); (29, QLease "w3" 30)]
    (lease "w1" 30 0 queue_example).1 = ["b"] ∧
  "a" ∉ leases [(5, QLease "w2" 30); (10, QRenew "b" "w2" 1); (29, QLease "w3" 30)]
    (lease "w1" 30 0 queue_example).1.
Proof.
  split; [by vm_compute|].
  apply (lease_is_exclusive "w1" 30 0 queue_example); [by vm_compute|].
  intros t op Hin. repeat (apply elem_of_cons in Hin as [[= -> ->]|Hin]; [by split|]).
  by apply not_elem_of_nil in Hin.
Defined.

(** A lease finds work when there is some.  [lease_sharded] grants the
    least execution in id order that is free or whose lease has expired and
    that lies in an owned partition, and records the new holder and deadline;
    it grants nothing, and changes nothing, only when there is no such
    execution.  In particular an execution whose worker died can be leased
    again once its lease has run out. *)
Theorem lease_grants_least_available w a ttl now (q : InMemoryWorkQueue.t) :
  let candidate := λ id, ∃ l, q !! id = Some l ∧ owns a (shard_of id (total a)) = true ∧
    (worker l = None ∨ ∃ e, expires_at l = Some e ∧ e <= now) in
  match lease_sharded w a ttl now q with
  | (q', Ok (Some id)) => candidate id ∧ (∀ id', candidate id' → String.le id id') ∧
      q' = <[id := {| worker := Some w; expires_at := Some (now + ttl) |}]> q
  | (q', Ok None) => q' = q ∧ ∀ id, ¬ candidate id
  | (_, Err _) => False
  end.
Proof.
  intros candidate.
  assert (∀ l, InMemoryWorkQueue.available now l = true ↔
    worker l = None ∨ ∃ e, expires_at l = Some e ∧ e <= now) as Hav.
  { intros [[v|] [e|]]; unfold InMemoryWorkQueue.available; simpl; rewrite ?Z.leb_le; naive_solver. }
  unfold lease_sharded. simpl. unfold InMemoryWorkQueue.lease_where.
  set (f := λ kv : string * Lease, _ && _).
  destruct (List.find f (btree_iter q)) as [[id l]|] eqn:Hf; simpl; unfold Datatypes.id.
  - pose proof Hf as [Hin Hb]%find_Some_elem. apply btree_iter_elem in Hin.
    apply andb_prop in Hb as [Ha Ho]. simpl in Ha, Ho. split; [|split; [|done]].
    + exists l. split; [done|]. split; [done|]. by apply Hav.
    + intros id' (l' & Hl' & Ho' & Ha'%Hav).
      apply (btree_find_least q f id l id' l' Hf Hl'). unfold f. simpl. by rewrite Ha', Ho'.
  - split; [done|]. intros id (l & Hl & Ho & Ha%Hav). apply btree_iter_elem in Hl.
    apply (find_None_elem _ _ _ Hf) in Hl. unfold f in Hl. simpl in Hl. by rewrite Ha, Ho in Hl.
Qed.
