(* ===== verification/Effect.v ===== *)
(** * Outcomes of a call

    A call of the engine returns a value, returns an error, panics, waits
    forever for a lock it holds itself, or (in this model only) runs out of the
    fuel of a loop.  The last two never happen: [EngineInv] proves it. *)
From stdpp Require Import base tactics list.
From S2P Require Import Prelude.
From S2P Require Import Common.

Inductive stop :=
  | Throw (e : Error)
  | Panicked
  | Deadlocked
  | Exhausted.

Inductive outcome (A : Type) :=
  | Ret (a : A)
  | Stop (s : stop).
Arguments Ret {A} _.
Arguments Stop {A} _.

Definition of_result {A} (r : result A) : outcome A :=
  match r with Ok a => Ret a | Err e => Stop (Throw e) end.

(** [Option::expect] and indexing: a missing value panics. *)
Definition expect {A} (o : option A) : outcome A :=
  match o with Some a => Ret a | None => Stop Panicked end.

Section monad.
Context {W : Type}.

Definition M (A : Type) : Type := W → W * outcome A.

#[global] Instance M_ret : MRet M := λ A a w, (w, Ret a).
#[global] Instance M_bind : MBind M := λ A B k m w,
  match m w with
  | (w', Ret a) => k a w'
  | (w', Stop s) => (w', Stop s)
  end.

Definition fail {A} (s : stop) : M A := λ w, (w, Stop s).
Definition throw {A} (e : Error) : M A := fail (Throw e).
Definition lift {A} (o : outcome A) : M A := λ w, (w, o).
Definition gets {A} (f : W → A) : M A := λ w, (w, Ret (f w)).
Definition modify (f : W → W) : M () := λ w, (f w, Ret ()).

(** A call whose error is handled by its caller. *)
Definition catch {A} (m : M A) : M (result A) := λ w,
  match m w with
  | (w', Ret a) => (w', Ret (Ok a))
  | (w', Stop (Throw e)) => (w', Ret (Err e))
  | (w', Stop s) => (w', Stop s)
  end.

(** [wp m Q E w]: from [w], [m] returns a value and a world satisfying [Q], or
    stops in a way and a world satisfying [E]. *)
Definition wp {A} (m : M A) (Q : A → W → Prop) (E : stop → W → Prop) (w : W) : Prop :=
  match m w with
  | (w', Ret a) => Q a w'
  | (w', Stop s) => E s w'
  end.

Lemma wp_ret {A} (a : A) Q E w : Q a w → wp (mret a) Q E w.
Proof. done. Qed.

Lemma wp_bind {A B} (m : M A) (k : A → M B) Q E w :
  wp m (λ a w', wp (k a) Q E w') E w → wp (m ≫= k) Q E w.
Proof. unfold wp, mbind, M_bind. by destruct (m w) as [w' [a|s]]. Qed.

Lemma wp_mono {A} (m : M A) (Q Q' : A → W → Prop) (E E' : stop → W → Prop) w :
  wp m Q E w → (∀ a w', Q a w' → Q' a w') → (∀ s w', E s w' → E' s w') → wp m Q' E' w.
Proof. unfold wp. destruct (m w) as [w' [a|s]]; auto. Qed.

Lemma wp_call {A B} (m : M A) (k : A → M B) R Q E w :
  wp m R E w → (∀ a w', R a w' → wp (k a) Q E w') → wp (m ≫= k) Q E w.
Proof. intros Hm Hk. apply wp_bind. by eapply wp_mono. Qed.

Lemma wp_fail {A} s (Q : A → W → Prop) E w : E s w → wp (fail s) Q E w.
Proof. done. Qed.

Lemma wp_lift {A} (o : outcome A) Q E w :
  match o with Ret a => Q a w | Stop s => E s w end → wp (lift o) Q E w.
Proof. done. Qed.

Lemma wp_lift_bind {A B} (o : outcome A) (k : A → M B) Q E w :
  match o with Ret a => wp (k a) Q E w | Stop s => E s w end → wp (lift o ≫= k) Q E w.
Proof. intros Ho. apply wp_bind. unfold wp at 1, lift. by destruct o. Qed.

Lemma wp_gets_bind {A B} (f : W → A) (k : A → M B) Q E w :
  wp (k (f w)) Q E w → wp (gets f ≫= k) Q E w.
Proof. intros Hk. by apply wp_bind. Qed.

Lemma wp_assoc {A B C} (m : M A) (k : A → M B) (f : B → M C) Q E w :
  wp (m ≫= λ a, k a ≫= f) Q E w → wp ((m ≫= k) ≫= f) Q E w.
Proof. unfold wp, mbind, M_bind. by destruct (m w) as [w' [a|s]]. Qed.

Lemma M_assoc {A B C} (m : M A) (k : A → M B) (f : B → M C) w : ((m ≫= k) ≫= f) w = (m ≫= λ a, k a ≫= f) w.
Proof. unfold mbind, M_bind. by destruct (m w) as [w' [a|s]]. Qed.

Lemma wp_catch {A} (m : M A) (Q : result A → W → Prop) E w :
  wp m (λ a, Q (Ok a)) (λ s w', match s with Throw e => Q (Err e) w' | _ => E s w' end) w → wp (catch m) Q E w.
Proof. unfold wp, catch. destruct (m w) as [w' [a|[]]]; auto. Qed.

(** Inversion of a successful run. *)
Lemma bind_Ret_inv {A B} (m : M A) (k : A → M B) w w' b :
  (m ≫= k) w = (w', Ret b) ↔ ∃ w1 a, m w = (w1, Ret a) ∧ k a w1 = (w', Ret b).
Proof.
  unfold mbind, M_bind. destruct (m w) as [w1 [a|s]]; split.
  - eauto.
  - by intros (? & ? & [= -> ->] & ?).
  - done.
  - by intros (? & ? & ? & ?).
Qed.
End monad.
Arguments M : clear implicits.

(** A call on a part of the world. *)
Definition zoom {S W A} (get : S → W) (set : W → S → S) (m : M W A) : M S A := λ s,
  let '(w, r) := m (get s) in (set w s, r).

#[export] Instance outcome_ret : MRet outcome := λ A a, Ret a.
#[export] Instance outcome_bind : MBind outcome := λ A B k m,
  match m with Ret a => k a | Stop s => Stop s end.
