(* ===== verification/Timer.v ===== *)
(** * Durable wall-clock timers: the registries

    [crates/wovyr-workflow/src/timer.rs]: a pending timer, the [TimerStore]
    port, the in-memory registry with its deadline index, the file-backed
    registry, the manual clock and the duration syntax of a [wait].  The
    dispatcher, which drives the engine, is in [Dispatch]. *)
From stdpp Require Import base tactics list numbers strings gmap sorting.
From Stdlib Require Import Lia ZArith Ascii.
From S2P Require Import Prelude.
From S2P Require Import RustStr.
From S2P Require Import Common.
From S2P Require Import JsonValue.
From S2P Require Import Effect.
Local Open Scope Z_scope.

(** ** Data *)

Record PendingTimer := {
  pt_execution_id : string;
  pt_timer_id : string;
  pt_fire_at_ms : Z;
}.
#[export] Instance PendingTimer_eq_dec : EqDecision PendingTimer.
Proof. solve_decision. Defined.

Class TimerStore (T : Type) := {
  schedule : PendingTimer → T → T * outcome ();
  cancel_timer : string → string → T → T * outcome ();
  due : Z → T → T * outcome (list PendingTimer);
  next_deadline : T → T * outcome (option Z);
}.

(** [TimerStore::next_deadline]: the default implementation. *)
Definition next_deadline_of_due {T} (due : Z → T → T * outcome (list PendingTimer)) (t : T)
    : T * outcome (option Z) :=
  match due u64_max t with
  | (t, Ret l) => (t, Ret (list_min (map pt_fire_at_ms l)))
  | (t, Stop s) => (t, Stop s)
  end.

(** A [ManualClock]: the shared instant. *)
Record ManualClock := { clock_ms : Z }.
Definition ManualClock_new (start_ms : Z) : ManualClock := {| clock_ms := start_ms |}.
Definition ManualClock_advance (delta_ms : Z) (c : ManualClock) : ManualClock :=
  {| clock_ms := u64_wrapping_add (clock_ms c) delta_ms |}.
Definition ManualClock_set (ms : Z) (c : ManualClock) : ManualClock := {| clock_ms := ms |}.

(** ** Deadline order: deadline, then execution id, then timer id *)

Definition deadline_key : Type := Z * string * string.
Definition key_of (t : PendingTimer) : string * string := (pt_execution_id t, pt_timer_id t).
Definition deadline_of (t : PendingTimer) : deadline_key :=
  (pt_fire_at_ms t, pt_execution_id t, pt_timer_id t).

Definition deadline_le (a b : deadline_key) : Prop :=
  let '(x, e, i) := a in
  let '(y, f, j) := b in
  x < y ∨ (x = y ∧ ((e ≠ f ∧ String.le e f) ∨ (e = f ∧ String.le i j))).
#[export] Instance deadline_le_dec : RelDecision deadline_le.
Proof. intros [[x e] i] [[y f] j]. unfold deadline_le. apply _. Defined.
Definition deadline_lt (a b : deadline_key) : bool := bool_decide (deadline_le a b ∧ a ≠ b).

Definition timer_le (a b : PendingTimer) : Prop := deadline_le (deadline_of a) (deadline_of b).
#[export] Instance timer_le_dec : RelDecision timer_le.
Proof. intros a b. unfold timer_le. apply _. Defined.

(** ** In-memory registry *)

Module InMemoryTimerStore.
Record t := {
  by_key : gmap (string * string) PendingTimer;
  by_deadline : gset deadline_key;
}.
Definition new : t := {| by_key := ∅; by_deadline := ∅ |}.

Definition schedule (timer : PendingTimer) (g : t) : t :=
  let key := key_of timer in
  let cleared :=
    match by_key g !! key with
    | Some old => by_deadline g ∖ {[(pt_fire_at_ms old, key.1, key.2)]}
    | None => by_deadline g
    end in
  {| by_deadline := {[(pt_fire_at_ms timer, key.1, key.2)]} ∪ cleared;
     by_key := <[key := timer]> (by_key g) |}.

Definition cancel (execution_id timer_id : string) (g : t) : t :=
  let key := (execution_id, timer_id) in
  match by_key g !! key with
  | Some old =>
    {| by_key := delete key (by_key g);
       by_deadline := by_deadline g ∖ {[(pt_fire_at_ms old, key.1, key.2)]} |}
  | None => g
  end.

(** A [BTreeSet] in iteration order. *)
Definition in_order (d : gset deadline_key) : list deadline_key :=
  merge_sort deadline_le (elements d).

(** [range(..upper)], then an index into the primary map that panics on a
    missing key. *)
Fixpoint index_all (m : gmap (string * string) PendingTimer) (ks : list deadline_key)
    : option (list PendingTimer) :=
  match ks with
  | [] => Some []
  | (_, exec, timer) :: ks => p ← m !! (exec, timer); ps ← index_all m ks; Some (p :: ps)
  end.

Definition due (now_ms : Z) (g : t) : outcome (list PendingTimer) :=
  let upper := (u64_saturating_add now_ms 1, "", "") in
  expect (index_all (by_key g)
            (List.filter (λ k, deadline_lt k upper) (in_order (by_deadline g)))).

Definition next_deadline (g : t) : option Z :=
  match in_order (by_deadline g) with
  | [] => None
  | (ms, _, _) :: _ => Some ms
  end.

#[global] Instance timer_store : TimerStore t := {
  schedule timer g := (schedule timer g, Ret ());
  cancel_timer e i g := (cancel e i g, Ret ());
  due now g := (g, due now g);
  next_deadline g := (g, Ret (next_deadline g));
}.
End InMemoryTimerStore.

(** ** File-backed registry

    The whole registry is one JSON file: [None] is a missing file.  The file
    system itself does not fail in this model; the JSON text does. *)

Class TimerSerde := {
  timers_to_string : list PendingTimer → string + string;
  timers_from_str : string → string + list PendingTimer;
}.

Module FileTimerStore.
Section file.
Context `{TimerSerde}.

Definition t : Type := option string.

Definition load_all (file : t) : outcome (list PendingTimer) :=
  match file with
  | None => Ret []
  | Some s =>
    match timers_from_str s with
    | inr timers => Ret timers
    | inl e => Stop (Throw (Json e))
    end
  end.

Definition save_all (timers : list PendingTimer) (file : t) : t * outcome () :=
  match timers_to_string timers with
  | inr json => (Some json, Ret ())
  | inl e => (file, Stop (Throw (Json e)))
  end.

Definition other (execution_id timer_id : string) (t : PendingTimer) : bool :=
  negb (String.eqb (pt_execution_id t) execution_id && String.eqb (pt_timer_id t) timer_id).

Definition schedule (timer : PendingTimer) (file : t) : t * outcome () :=
  match load_all file with
  | Ret timers =>
    save_all (List.filter (other (pt_execution_id timer) (pt_timer_id timer)) timers ++ [timer]) file
  | Stop s => (file, Stop s)
  end.

Definition cancel (execution_id timer_id : string) (file : t) : t * outcome () :=
  match load_all file with
  | Ret timers =>
    let kept := List.filter (other execution_id timer_id) timers in
    if Nat.eqb (length kept) (length timers) then (file, Ret ()) else save_all kept file
  | Stop s => (file, Stop s)
  end.

(** [sort_by] on deadline, execution id, timer id (stable). *)
Definition due (now_ms : Z) (file : t) : t * outcome (list PendingTimer) :=
  match load_all file with
  | Ret timers =>
    (file, Ret (merge_sort timer_le (List.filter (λ t, Z.leb (pt_fire_at_ms t) now_ms) timers)))
  | Stop s => (file, Stop s)
  end.

#[global] Instance timer_store : TimerStore t := {
  schedule := schedule;
  cancel_timer := cancel;
  due := due;
  next_deadline := next_deadline_of_due due;
}.
End file.
End FileTimerStore.

(** ** What the engine relies on *)

(** A registry answers, fails or panics; it does not block. *)
Definition settles {A} (o : outcome A) : Prop :=
  match o with Stop Deadlocked | Stop Exhausted => False | _ => True end.

Class TimerStoreLaws (T : Type) `{TimerStore T} := {
  schedule_settles t s : settles (schedule t s).2;
  cancel_settles e i s : settles (cancel_timer e i s).2;
  due_settles now s : settles (due now s).2;
}.

#[export] Instance memory_timer_laws : TimerStoreLaws InMemoryTimerStore.t.
Proof.
  split; [done..|]. intros now s. simpl. unfold InMemoryTimerStore.due, expect.
  by destruct (InMemoryTimerStore.index_all _ _).
Qed.

#[export] Instance file_timer_laws `{TimerSerde} : TimerStoreLaws FileTimerStore.t.
Proof.
  split; [intros t s|intros e i s|intros now s]; simpl;
    unfold FileTimerStore.schedule, FileTimerStore.cancel, FileTimerStore.due,
      FileTimerStore.load_all, FileTimerStore.save_all;
    (destruct s as [s|]; [destruct (timers_from_str s)|]); simpl;
    repeat (case_match; simpl); done.
Qed.

(** ** Durations of a [wait] *)

Definition parse_duration_ms (value : Value) : result Z :=
  match as_u64 value with
  | Some n => Ok n
  | None =>
    s ← ok_or (Invalid "timer `after` must be a number (ms) or a string") (as_str value);
    let s := trim s in
    '(num, unit) ← ok_or (Invalid ("timer duration `" +:+ s +:+ "` needs a unit (ms/s/m/h/d)"))
                     (split_at_find (λ c, negb (is_ascii_digit c)) s);
    n ← ok_or (Invalid ("invalid timer duration `" +:+ s +:+ "`")) (parse_u64 num);
    let other := trim unit in
    mult ← (if String.eqb other "ms" then Ok 1
            else if String.eqb other "s" then Ok 1000
            else if String.eqb other "m" then Ok 60000
            else if String.eqb other "h" then Ok 3600000
            else if String.eqb other "d" then Ok 86400000
            else Err (Invalid ("unknown timer duration unit `" +:+ other
                               +:+ "` (use ms/s/m/h/d)")));
    Ok (u64_saturating_mul n mult)
  end.

Example parses_duration_units :
  map parse_duration_ms [Str "500ms"; Str " 5s "; Str "2 h"; Str "30d"; json_u64 1234; Str "5x"] =
    [Ok 500; Ok 5000; Ok 7200000; Ok 2592000000; Ok 1234;
     Err (Invalid "unknown timer duration unit `x` (use ms/s/m/h/d)")].
Proof. by vm_compute. Qed.
