(* ===== verification/TimerInv.v ===== *)
(** * The timer registries refine one abstract registry

    The abstract registry is a finite map from [(execution id, timer id)] to a
    deadline.  The deadline index of the in-memory store never drifts from its
    primary map, so its range scan and its first entry are the due timers and
    the earliest deadline of the abstract registry; the file store computes the
    same due list from an unordered file. *)
From stdpp Require Import base tactics list numbers strings gmap sorting sets.
From Stdlib Require Import Lia ZArith.
From S2P Require Import Prelude.
From S2P Require Import RustStr.
From S2P Require Import Common.
From S2P Require Import JsonValue.
From S2P Require Import Effect.
From S2P Require Import Timer.
Local Open Scope Z_scope.

(** ** The abstract registry *)

Notation registry := (gmap (string * string) PendingTimer).

Inductive timer_op :=
  | OpSchedule (t : PendingTimer)
  | OpCancel (execution_id timer_id : string).

Definition registry_op (r : registry) (op : timer_op) : registry :=
  match op with
  | OpSchedule t => <[key_of t := t]> r
  | OpCancel e i => delete (e, i) r
  end.

(** Pending timers due at [now], by deadline, execution id, timer id. *)
Definition registry_due (now : Z) (r : registry) : list PendingTimer :=
  merge_sort timer_le (List.filter (λ t, Z.leb (pt_fire_at_ms t) now) (map snd (map_to_list r))).
Definition registry_next (r : registry) : option Z :=
  list_min (map pt_fire_at_ms (map snd (map_to_list r))).

Definition memory_op (g : InMemoryTimerStore.t) (op : timer_op) : InMemoryTimerStore.t :=
  match op with
  | OpSchedule t => (schedule t g).1
  | OpCancel e i => (cancel_timer e i g).1
  end.

(** ** The deadline order *)

#[export] Instance deadline_le_trans : Transitive deadline_le.
Proof.
  intros [[x e] i] [[y f] j] [[z g] k]. unfold deadline_le.
  intros [?|[-> [[Hne Hle]|[-> Hle]]]] [?|[-> [[Hne' Hle']|[-> Hle']]]]; try (left; lia).
  - right. split; [done|]. left. split; [|by etrans].
    intros ->. by apply Hne, (anti_symm String.le).
  - right. split; [done|]. left. done.
  - right. split; [done|]. left. done.
  - right. split; [done|]. right. split; [done|]. by etrans.
Qed.

#[export] Instance deadline_le_antisymm : AntiSymm (=) deadline_le.
Proof.
  intros [[x e] i] [[y f] j]. unfold deadline_le.
  intros [?|[-> [[Hne Hle]|[-> Hle]]]] [?|[? [[Hne' Hle']|[? Hle']]]]; try lia; try congruence.
  - by destruct Hne; apply (anti_symm String.le).
  - f_equal. by apply (anti_symm String.le).
Qed.

#[export] Instance deadline_le_total : Total deadline_le.
Proof.
  intros [[x e] i] [[y f] j]. unfold deadline_le.
  destruct (Z.lt_trichotomy x y) as [?|[->|?]]; [by do 2 left| |by right; left].
  destruct (decide (e = f)) as [->|Hne].
  - destruct (total String.le i j); [left|right]; right; split; auto.
  - destruct (total String.le e f); [left|right]; right; split; auto.
Qed.

Lemma deadline_of_inj a b : deadline_of a = deadline_of b → a = b.
Proof. destruct a, b. unfold deadline_of. simpl. congruence. Qed.

#[export] Instance timer_le_trans : Transitive timer_le.
Proof. intros a b c. unfold timer_le. apply transitivity. Qed.
#[export] Instance timer_le_total : Total timer_le.
Proof. intros a b. apply (total deadline_le). Qed.
#[export] Instance timer_le_antisymm : AntiSymm (=) timer_le.
Proof. intros a b H1 H2. by apply deadline_of_inj, (anti_symm deadline_le). Qed.

(** [(u, "", "")] bounds exactly the entries with a smaller deadline. *)
Lemma deadline_lt_upper x e i u : deadline_lt (x, e, i) (u, "", "") = Z.ltb x u.
Proof.
  unfold deadline_lt, deadline_le. case_bool_decide as H; symmetry.
  - destruct H as [[Hlt|[-> [[Hne Hle]|[-> Hle]]]] Hneq]; [by apply Z.ltb_lt|exfalso..].
    + apply Hne. apply (anti_symm String.le); [done|]. by destruct e.
    + apply Hneq. f_equal. apply (anti_symm String.le); [done|]. by destruct i.
  - apply Z.ltb_ge. apply Z.nlt_ge. intros Hlt. apply H. split; [by left|]. intros [=]. lia.
Qed.

(** ** The index of the in-memory registry *)

Record index_ok (g : InMemoryTimerStore.t) : Prop := {
  io_key : ∀ k p, InMemoryTimerStore.by_key g !! k = Some p → key_of p = k;
  io_deadline : ∀ d, d ∈ InMemoryTimerStore.by_deadline g ↔
    ∃ p, InMemoryTimerStore.by_key g !! (d.1.2, d.2) = Some p ∧ deadline_of p = d;
}.

Lemma index_ok_new : index_ok InMemoryTimerStore.new.
Proof.
  split; simpl.
  - intros k p Hk. by rewrite lookup_empty in Hk.
  - intros d. split; [set_solver|]. intros (p & Hp & _). by rewrite lookup_empty in Hp.
Qed.

Lemma index_ok_schedule t g :
  index_ok g → index_ok (InMemoryTimerStore.schedule t g).
Proof.
  intros [Hk Hd]. split; simpl.
  - intros k p. rewrite lookup_insert_Some. intros [[<- <-]|[_ ?]]; [done|by apply Hk].
  - intros [[x e] i]. simpl. rewrite elem_of_union, elem_of_singleton, lookup_insert.
    case_decide as Heq.
    + unfold key_of in Heq. injection Heq as He Hi. split.
      * intros [Hx|Hx]; [exists t; split; [done|]; unfold deadline_of; by rewrite Hx, He, Hi|].
        exfalso. destruct (InMemoryTimerStore.by_key g !! key_of t) as [old|] eqn:Hold.
        -- apply elem_of_difference in Hx as [Hx Hn].
           apply Hd in Hx as (p & Hp & Hpd). simpl in Hp.
           unfold key_of in Hold. rewrite He, Hi in Hold. rewrite Hold in Hp.
           injection Hp as ->. apply Hn, elem_of_singleton. unfold key_of. simpl.
           rewrite He, Hi. unfold deadline_of in Hpd. congruence.
        -- apply Hd in Hx as (p & Hp & _). simpl in Hp. unfold key_of in Hold.
           rewrite He, Hi in Hold. congruence.
      * intros (p & [= <-] & Hp). left. unfold deadline_of in Hp. unfold key_of. simpl. congruence.
    + assert ((x, e, i) ∈ InMemoryTimerStore.by_deadline g ↔
        ((x, e, i) = (pt_fire_at_ms t, (key_of t).1, (key_of t).2) ∨
         (x, e, i) ∈ match InMemoryTimerStore.by_key g !! key_of t with
           | Some old => InMemoryTimerStore.by_deadline g ∖ {[(pt_fire_at_ms old, (key_of t).1, (key_of t).2)]}
           | None => InMemoryTimerStore.by_deadline g end)) as <-.
      { assert (∀ y, (x, e, i) ≠ (y, (key_of t).1, (key_of t).2)) as Hne.
        { intros y [= _ -> ->]. by apply Heq. }
        specialize (Hne (pt_fire_at_ms t)) as Hne1.
        destruct (InMemoryTimerStore.by_key g !! key_of t) as [old|]; [|naive_solver].
        specialize (Hne (pt_fire_at_ms old)). set_solver. }
      apply Hd.
Qed.

Lemma index_ok_cancel e i g :
  index_ok g → index_ok (InMemoryTimerStore.cancel e i g).
Proof.
  intros Hok. pose proof Hok as [Hk Hd]. unfold InMemoryTimerStore.cancel.
  destruct (InMemoryTimerStore.by_key g !! (e, i)) as [old|] eqn:Hold; [|done].
  pose proof (Hk _ _ Hold) as Hkey. unfold key_of in Hkey. injection Hkey as He Hi.
  split; simpl.
  - intros k p. rewrite lookup_delete_Some. intros [_ ?]. by apply Hk.
  - intros [[x e'] i']. rewrite elem_of_difference, elem_of_singleton, Hd. simpl.
    rewrite lookup_delete. case_decide as Heq.
    + injection Heq as <- <-. split; [|by intros (? & ? & ?)].
      intros [(p & Hp & Hpd) Hn]. rewrite Hold in Hp. injection Hp as <-.
      exfalso. apply Hn. unfold deadline_of in Hpd. congruence.
    + split; [by intros [? _]|]. intros Hp. split; [done|]. intros [= _ -> ->]. done.
Qed.

Lemma memory_ops_ok ops :
  index_ok (foldl memory_op InMemoryTimerStore.new ops) ∧
  InMemoryTimerStore.by_key (foldl memory_op InMemoryTimerStore.new ops) = foldl registry_op ∅ ops.
Proof.
  induction ops as [|op ops [IH1 IH2]] using rev_ind; [split; [apply index_ok_new|done]|].
  rewrite !foldl_app. simpl. rewrite <- IH2. destruct op as [t|e i]; simpl.
  - split; [by apply index_ok_schedule|done].
  - split; [by apply index_ok_cancel|]. unfold InMemoryTimerStore.cancel.
    destruct (_ !! (e, i)) eqn:Hold; [done|]. symmetry. by apply delete_id.
Qed.

(** ** Range scans *)

Lemma index_all_Some m ks :
  (∀ d, d ∈ ks → ∃ p, m !! (d.1.2, d.2) = Some p ∧ deadline_of p = d) →
  ∃ ps, InMemoryTimerStore.index_all m ks = Some ps ∧ map deadline_of ps = ks ∧
    ∀ p, p ∈ ps → m !! key_of p = Some p.
Proof.
  induction ks as [|[[x e] i] ks IH]; intros Hks; simpl.
  - exists []. split; [done|]. split; [done|]. by intros ? ?%not_elem_of_nil.
  - destruct (Hks (x, e, i)) as (p & Hp & Hpd); [set_solver|]. simpl in Hp. rewrite Hp. simpl.
    destruct IH as (ps & -> & Hmap & Hin); [intros; apply Hks; set_solver|]. simpl.
    exists (p :: ps). split; [done|]. split; [by rewrite <- Hmap, <- Hpd|].
    intros q Hq. assert (q = p ∨ q ∈ ps) as [->|?] by set_solver; [|by apply Hin].
    unfold deadline_of in Hpd. unfold key_of. congruence.
Qed.

Lemma sorted_filter_elem {A} (R : relation A) `{!Transitive R} (f : A → bool) l :
  Sorted R l → Sorted R (List.filter f l).
Proof.
  intros Hl%Sorted_StronglySorted; [|done]. apply StronglySorted_Sorted.
  induction Hl as [|x l Hl IH Hx]; simpl; [constructor|].
  destruct (f x); [|done]. constructor; [done|].
  apply Forall_forall. intros y Hy. apply filter_elem in Hy as [Hy _].
  rewrite Forall_forall in Hx. by apply Hx.
Qed.

Lemma Sorted_map_deadline ps : Sorted deadline_le (map deadline_of ps) → Sorted timer_le ps.
Proof.
  induction ps as [|p ps IH]; simpl; [constructor|]. inversion 1 as [|? ? Hs Hh]; subst.
  constructor; [by apply IH|]. destruct ps; [constructor|]. simpl in Hh.
  inversion Hh; subst. by constructor.
Qed.

Lemma NoDup_map_snd_filter (f : PendingTimer → bool) (m : registry) :
  (∀ k p, m !! k = Some p → key_of p = k) →
  NoDup (List.filter f (map snd (map_to_list m))).
Proof.
  intros Hk. apply NoDup_filter_bool. apply NoDup_fmap_2_strong; [|apply NoDup_map_to_list].
  intros [k p] [k' p'] Hp Hp'. simpl. intros ->.
  apply elem_of_map_to_list in Hp, Hp'. f_equal. rewrite <- (Hk _ _ Hp). by apply Hk.
Qed.

(** A scan of the index is the abstract due list. *)
Lemma memory_due now g :
  index_ok g → 0 <= now < u64_max →
  InMemoryTimerStore.due now g = Ret (registry_due now (InMemoryTimerStore.by_key g)).
Proof.
  intros [Hk Hd] Hnow. unfold InMemoryTimerStore.due.
  set (ks := List.filter _ _).
  assert (∀ d, d ∈ ks ↔ d ∈ InMemoryTimerStore.by_deadline g ∧ d.1.1 <= now) as Hks.
  { intros [[x e] i]. unfold ks, InMemoryTimerStore.in_order.
    rewrite filter_elem, merge_sort_Permutation, elem_of_elements, deadline_lt_upper.
    rewrite u64_saturating_add_small by (unfold_ints; lia). simpl.
    rewrite Z.ltb_lt. split; intros [? ?]; (split; [done|lia]). }
  assert (NoDup ks) as Hnd.
  { apply NoDup_filter_bool. unfold InMemoryTimerStore.in_order.
    rewrite merge_sort_Permutation. apply NoDup_elements. }
  destruct (index_all_Some (InMemoryTimerStore.by_key g) ks) as (ps & -> & Hmap & Hin).
  { intros d Hin. apply Hks in Hin as [Hin _]. by apply Hd. }
  simpl. f_equal. apply (Sorted_unique timer_le).
  - apply Sorted_map_deadline. rewrite Hmap. apply sorted_filter_elem; [apply _|].
    apply Sorted_merge_sort, _.
  - apply Sorted_merge_sort, _.
  - unfold registry_due. rewrite merge_sort_Permutation. apply NoDup_Permutation.
    + rewrite <- Hmap in Hnd. by apply NoDup_fmap_1 in Hnd.
    + by apply NoDup_map_snd_filter.
    + intros p. rewrite filter_elem, Z.leb_le. split.
      * intros Hp. split.
        -- apply list_elem_of_fmap. exists (key_of p, p). split; [done|].
           by apply elem_of_map_to_list, Hin.
        -- assert (deadline_of p ∈ ks) as Hpk by (rewrite <- Hmap; by apply list_elem_of_fmap_2).
           by apply Hks in Hpk as [_ ?].
      * intros [Hp Hle]. apply list_elem_of_fmap in Hp as ([k q] & -> & Hq). simpl in *.
        apply elem_of_map_to_list in Hq. pose proof (Hk _ _ Hq) as <-.
        assert (deadline_of q ∈ ks) as Hqk.
        { apply Hks. split; [|done]. apply Hd. exists q. by split. }
        rewrite <- Hmap in Hqk. apply list_elem_of_fmap in Hqk as (q' & Hqq & Hq').
        apply deadline_of_inj in Hqq. by subst.
Qed.

Lemma memory_next g :
  index_ok g → InMemoryTimerStore.next_deadline g = registry_next (InMemoryTimerStore.by_key g).
Proof.
  intros [Hk Hd]. unfold InMemoryTimerStore.next_deadline, registry_next.
  set (l := InMemoryTimerStore.in_order _).
  assert (Sorted deadline_le l) as Hs by (apply Sorted_merge_sort, _).
  assert (∀ d, d ∈ l ↔ d ∈ InMemoryTimerStore.by_deadline g) as Hl.
  { intros d. unfold l, InMemoryTimerStore.in_order.
    by rewrite merge_sort_Permutation, elem_of_elements. }
  assert (∀ ms, (∃ d, d ∈ l ∧ d.1.1 = ms) ↔
    ms ∈ map pt_fire_at_ms (map snd (map_to_list (InMemoryTimerStore.by_key g)))) as Hms.
  { intros ms. split.
    - intros (d & Hdl & <-). apply Hl, Hd in Hdl as (p & Hp & <-).
      apply list_elem_of_fmap. exists p. split; [done|]. apply list_elem_of_fmap.
      exists (key_of p, p). split; [done|]. by apply elem_of_map_to_list.
    - intros (p & -> & ([k q] & -> & Hq)%list_elem_of_fmap)%list_elem_of_fmap. simpl.
      apply elem_of_map_to_list in Hq. exists (deadline_of q). split; [|done].
      apply Hl, Hd. exists q. split; [|done]. by rewrite <- (Hk _ _ Hq) in Hq. }
  destruct l as [|[[ms e] i] l'] eqn:El.
  - symmetry. apply list_min_None.
    destruct (map pt_fire_at_ms _) as [|ms ?]; [done|]. exfalso.
    destruct (proj2 (Hms ms)) as (d & Hdl & _); [set_solver|]. by apply not_elem_of_nil in Hdl.
  - symmetry. apply list_min_spec. split.
    + apply Hms. exists (ms, e, i). split; [set_solver|done].
    + intros ms' Hms'. apply Hms in Hms' as ([[x f] j] & Hdl & <-). simpl.
      apply Sorted_StronglySorted in Hs; [|apply _].
      inversion Hs as [|? ? _ Hall]; subst.
      assert ((x, f, j) = (ms, e, i) ∨ (x, f, j) ∈ l') as [[= -> _ _]|Hin] by set_solver; [lia|].
      rewrite Forall_forall in Hall. destruct (Hall _ Hin) as [?|[? _]]; lia.
Qed.

(** ** The file-backed registry *)

(** The JSON library's round trip on registries. *)
Definition TimerSerde_roundtrip (s : TimerSerde) : Prop :=
  ∀ l, ∃ json, timers_to_string l = inr json ∧ timers_from_str json = inr l.

Definition file_op `{TimerSerde} (f : FileTimerStore.t) (op : timer_op) : FileTimerStore.t :=
  match op with
  | OpSchedule t => (schedule t f).1
  | OpCancel e i => (cancel_timer e i f).1
  end.

(** The file holds the pending timers of the registry, each once. *)
Definition file_holds `{TimerSerde} (f : FileTimerStore.t) (r : registry) : Prop :=
  ∃ l, FileTimerStore.load_all f = Ret l ∧ NoDup (map key_of l) ∧
    ∀ k p, r !! k = Some p ↔ p ∈ l ∧ key_of p = k.

Lemma save_all_holds `{TimerSerde} l f :
  TimerSerde_roundtrip _ → FileTimerStore.load_all (FileTimerStore.save_all l f).1 = Ret l.
Proof.
  intros Hrt. unfold FileTimerStore.save_all. destruct (Hrt l) as (json & -> & Hj). simpl.
  by rewrite Hj.
Qed.

Lemma other_spec e i p : FileTimerStore.other e i p = true ↔ key_of p ≠ (e, i).
Proof.
  unfold FileTimerStore.other, key_of.
  destruct (String.eqb_spec (pt_execution_id p) e), (String.eqb_spec (pt_timer_id p) i);
    simpl; split; congruence.
Qed.

Lemma filter_other_full e i l :
  length (List.filter (FileTimerStore.other e i) l) = length l →
  List.filter (FileTimerStore.other e i) l = l.
Proof.
  induction l as [|p l IH]; simpl; [done|]. destruct (FileTimerStore.other e i p); simpl.
  - intros [= Hl]. by rewrite IH.
  - intros Hl. pose proof (List.filter_length_le (FileTimerStore.other e i) l). lia.
Qed.

Lemma file_op_holds `{TimerSerde} op f r :
  TimerSerde_roundtrip _ → file_holds f r → file_holds (file_op f op) (registry_op r op).
Proof.
  intros Hrt (l & Hload & Hnd & Hl). destruct op as [t|e i]; simpl.
  - unfold FileTimerStore.schedule. rewrite Hload.
    eexists. split; [by apply save_all_holds|]. split.
    + rewrite List.map_app. apply NoDup_app. split; [by apply NoDup_fmap_filter|].
      split; [|apply NoDup_singleton].
      intros k Hk. simpl. rewrite list_elem_of_singleton.
      apply list_elem_of_fmap in Hk as (p & -> & Hp). apply filter_elem in Hp as [_ Hp].
      by apply other_spec in Hp.
    + intros k p. rewrite elem_of_app, list_elem_of_singleton, filter_elem, other_spec.
      change (pt_execution_id t, pt_timer_id t) with (key_of t).
      rewrite lookup_insert_Some, Hl. naive_solver.
  - unfold FileTimerStore.cancel. rewrite Hload.
    set (kept := List.filter (FileTimerStore.other e i) l).
    assert (NoDup (map key_of kept) ∧
      ∀ k p, delete (e, i) r !! k = Some p ↔ p ∈ kept ∧ key_of p = k) as Hkept.
    { split; [by apply NoDup_fmap_filter|]. intros k p. unfold kept.
      rewrite filter_elem, other_spec, lookup_delete_Some, Hl. naive_solver. }
    destruct (Nat.eqb_spec (length kept) (length l)) as [Heq|_].
    + exists l. split; [done|]. unfold kept in Hkept. by rewrite filter_other_full in Hkept.
    + exists kept. split; [by apply save_all_holds|done].
Qed.

Lemma file_holds_due `{TimerSerde} now f r :
  file_holds f r → (due now f).2 = Ret (registry_due now r).
Proof.
  intros (l & Hload & Hnd & Hl). simpl. unfold FileTimerStore.due. rewrite Hload. simpl. f_equal.
  apply (Sorted_unique timer_le); [apply Sorted_merge_sort, _..|].
  unfold registry_due. rewrite !merge_sort_Permutation. apply NoDup_Permutation.
  - apply NoDup_filter_bool. by apply NoDup_fmap_1 in Hnd.
  - apply NoDup_map_snd_filter. intros k p Hp. by apply Hl in Hp as [_ ?].
  - intros p. rewrite !filter_elem. apply and_iff_compat_r. split.
    + intros Hp. apply list_elem_of_fmap. exists (key_of p, p). split; [done|].
      apply elem_of_map_to_list. by apply Hl.
    + intros ([k q] & -> & Hq)%list_elem_of_fmap. apply elem_of_map_to_list, Hl in Hq. by destruct Hq.
Qed.

(** ** Properties *)

(** After any sequence of registrations and cancellations, the in-memory
    registry's index scan returns exactly the pending timers whose deadline has
    passed, by deadline, execution id and timer id (at every instant before the
    last representable millisecond), and its first index entry is the earliest
    pending deadline: the deadline index never drifts from the primary map, and
    the scan never panics on a missing key. *)
Theorem memory_timers_refine_registry ops now :
  (0 <= now < u64_max)%Z →
  let g := foldl memory_op InMemoryTimerStore.new ops in
  let r := foldl registry_op ∅ ops in
  (due now g).2 = Ret (registry_due now r) ∧
  (next_deadline g).2 = Ret (registry_next r).
Proof.
  intros Hnow g r. destruct (memory_ops_ok ops) as [Hok Hr]. fold g in Hok, Hr. fold r in Hr.
  simpl. rewrite <- Hr. split; [by apply memory_due|]. f_equal. by apply memory_next.
Qed.

(** After any sequence of registrations and cancellations, the file-backed
    registry returns the same due list, in the same order, as the abstract
    registry (and hence as the in-memory one), given the JSON round trip. *)
Theorem file_timers_refine_registry `{TimerSerde} ops now :
  TimerSerde_roundtrip _ →
  (due now (foldl file_op None ops)).2 = Ret (registry_due now (foldl registry_op ∅ ops)).
Proof.
  intros Hrt. apply file_holds_due.
  induction ops as [|op ops IH] using rev_ind; simpl.
  - exists []. split; [done|]. split; [constructor|]. intros k p.
    rewrite lookup_empty. split; [done|]. by intros [?%not_elem_of_nil _].
  - rewrite !foldl_app. simpl. by apply file_op_holds.
Qed.

Definition timer_example (e i : string) (ms : Z) : PendingTimer :=
  {| pt_execution_id := e; pt_timer_id := i; pt_fire_at_ms := ms |}.
Definition timer_ops_example : list timer_op :=
  [OpSchedule (timer_example "b" "t" 30); OpSchedule (timer_example "a" "t" 20);
   OpSchedule (timer_example "a" "u" 50); OpSchedule (timer_example "a" "t" 40);
   OpSchedule (timer_example "c" "t" 10); OpCancel "c" "t"].

Lemma memory_timers_refine_registry_witness :
  (due 45 (foldl memory_op InMemoryTimerStore.new timer_ops_example)).2 =
    Ret [timer_example "b" "t" 30; timer_example "a" "t" 40] ∧
  (next_deadline (foldl memory_op InMemoryTimerStore.new timer_ops_example)).2 = Ret (Some 30).
Proof.
  destruct (memory_timers_refine_registry timer_ops_example 45) as [H1 H2];
    [by vm_compute|].
  split; [rewrite H1; by vm_compute|rewrite H2; by vm_compute].
Defined.

#[export] Program Instance PendingTimer_countable : Countable PendingTimer :=
  inj_countable' (λ t, (pt_execution_id t, pt_timer_id t, pt_fire_at_ms t))
    (λ p, {| pt_execution_id := p.1.1; pt_timer_id := p.1.2; pt_fire_at_ms := p.2 |}) _.
Next Obligation. by intros []. Qed.

Definition timer_serde_example : TimerSerde := {|
  timers_to_string := λ l, inr (countable_text l);
  timers_from_str := λ s,
    match read_countable s with Some l => inr l | None => inl "expected value" end;
|}.
Lemma timer_serde_example_roundtrip : TimerSerde_roundtrip timer_serde_example.
Proof. intros l. eexists. split; [done|]. simpl. by rewrite read_countable_text. Qed.

Lemma file_timers_refine_registry_witness :
  (@due _ (@FileTimerStore.timer_store timer_serde_example) 45
     (foldl (@file_op timer_serde_example) None timer_ops_example)).2 =
    Ret [timer_example "b" "t" 30; timer_example "a" "t" 40].
Proof.
  rewrite (@file_timers_refine_registry timer_serde_example timer_ops_example 45
             timer_serde_example_roundtrip).
  by vm_compute.
Defined.

(** A timer at the last representable millisecond is never due: the exclusive
    bound [now.saturating_add(1)] saturates onto the deadline itself. *)
Example last_millisecond_never_due :
  let t := timer_example "e" "t" u64_max in
  (due u64_max (foldl memory_op InMemoryTimerStore.new [OpSchedule t])).2 = Ret [] ∧
  registry_due u64_max (foldl registry_op ∅ [OpSchedule t]) = [t].
Proof. split; by vm_compute. Qed.
