(* ===== verification/Engine.v ===== *)
(** * The workflow engine

    [crates/wovyr-workflow/src/engine.rs]: the whole engine, from [start] to
    [compensate], over the stores, the timer registry, the executor and the
    clock of a [World].  A [&mut ExecutionState] is a state threaded through
    the result; a concurrent batch is a set of tasks that an arbitrary schedule
    interleaves; recursive sub-workflow calls go through [Calls]. *)
From stdpp Require Import base tactics list numbers strings gmap.
From Stdlib Require Import Lia ZArith Ascii.
From S2P Require Import Prelude.
From S2P Require Import RustStr.
From S2P Require Import Common.
From S2P Require Import JsonValue.
From S2P Require Import State.
From S2P Require Import Retry.
From S2P Require Import Condition.
From S2P Require Import Executor.
From S2P Require Import Template.
From S2P Require Import Event.
From S2P Require Import WorkflowDef.
From S2P Require Import ExecState.
From S2P Require Import Store.
From S2P Require Import Effect.
From S2P Require Import Timer.
Local Open Scope Z_scope.

(** ** The world an engine call runs in *)

(** [w_sched] holds the choices the async runtime still has to make (any list
    of numbers is a schedule; an exhausted one keeps answering 0), and
    [w_calls] records the executor calls made so far, each with the execution it
    was made for. *)
Record World (St T X : Type) := {
  w_store : St;
  w_timers : option T;
  w_env : X;
  w_locks : gset string;
  w_sched : list nat;
  w_calls : list (string * ActivityContext);
}.
Arguments w_store {St T X} _.
Arguments w_timers {St T X} _.
Arguments w_env {St T X} _.
Arguments w_locks {St T X} _.
Arguments w_sched {St T X} _.
Arguments w_calls {St T X} _.

(** The engine's configuration; the shared ports are in the world. *)
Record Engine := {
  subworkflows : option (string → option Definition_);
  max_subworkflow_depth : nat;
  max_activity_output_bytes : Z;
}.
Definition DEFAULT_MAX_SUBWORKFLOW_DEPTH : nat := 16.
Definition DEFAULT_MAX_ACTIVITY_OUTPUT_BYTES : Z := 1024 * 1024.
Definition Engine_new : Engine := {|
  subworkflows := None;
  max_subworkflow_depth := DEFAULT_MAX_SUBWORKFLOW_DEPTH;
  max_activity_output_bytes := DEFAULT_MAX_ACTIVITY_OUTPUT_BYTES;
|}.

(** What a [wait] activity is blocked on. *)
Inductive TimerDeadline := After (ms : Z) | At (ms : Z).
Record TimerWait := { tw_id : string; tw_deadline : option TimerDeadline }.
Inductive WaitSpec := WaitEvent (name : string) | WaitTimer (tw : TimerWait).

Definition WaitSpec_from_inputs (activity_id : string) (inputs : Value) : result WaitSpec :=
  match value_get "event" inputs ≫= as_str with
  | Some name => Ok (WaitEvent name)
  | None =>
    match value_get "timer" inputs with
    | Some (Str id) => Ok (WaitTimer {| tw_id := id; tw_deadline := None |})
    | Some (Object map) =>
      let id := default activity_id (assoc "id" map ≫= as_str) in
      deadline ←
        match assoc "after" map with
        | Some after => ms ← parse_duration_ms after; Ok (After ms)
        | None =>
          match assoc "at" map ≫= as_u64 with
          | Some ms => Ok (At ms)
          | None => Err (Invalid
              "a `timer` object needs an `after` duration or an `at` epoch-ms instant")
          end
        end;
      Ok (WaitTimer {| tw_id := id; tw_deadline := Some deadline |})
    | _ => Err (Invalid "a `wait` activity needs an `event` or `timer` input")
    end
  end.

Definition variable_key (spec : WaitSpec) : string :=
  match spec with
  | WaitEvent name => "event." +:+ name
  | WaitTimer tw => "timer." +:+ tw_id tw
  end.

Definition describe (spec : WaitSpec) : string :=
  match spec with
  | WaitEvent name => "event '" +:+ name +:+ "'"
  | WaitTimer tw =>
    match tw_deadline tw with
    | Some (After ms) => "timer '" +:+ tw_id tw +:+ "' (after " +:+ show_Z ms +:+ "ms)"
    | Some (At ms) => "timer '" +:+ tw_id tw +:+ "' (at " +:+ show_Z ms +:+ ")"
    | None => "timer '" +:+ tw_id tw +:+ "'"
    end
  end.

Definition instance_id (parent_id : string) (index : nat) : string :=
  parent_id +:+ "[" +:+ show_Z (Z.of_nat index) +:+ "]".

Definition json_kind (value : Value) : string :=
  match value with
  | Null => "null"
  | Bool _ => "a boolean"
  | Num _ => "a number"
  | Str _ => "a string"
  | Array _ => "an array"
  | Object _ => "an object"
  end.

Definition child_result (child : ExecutionState) : Value :=
  Object (List.filter (λ kv, negb (starts_with "__" kv.1) && negb (String.eqb kv.1 "input"))
            (btree_iter (es_variables child))).

Definition child_id (parent id : string) : string := parent +:+ ("::" +:+ id).

(** ** Tasks of a concurrent batch *)

(** A task runs [run_attempts] for one activity; [task_attempt] is the number
    of the attempt last made and [task_events] the events it will commit. *)
Record Task := {
  task_id : string;
  task_activity : ActivityDef;
  task_policy : RetryPolicy;
  task_variables : gmap string Value;
  task_attempt : Z;
  task_events : list WorkflowEvent;
}.

(** A [JoinSet]: the tasks still running and the outcomes not yet joined. *)
Record JoinSet := {
  js_running : list (nat * Task);
  js_done : list (nat * IsolatedOutcome);
}.

(** The aggregate of a fan-out while it runs. *)
Record FanOut := {
  fo_spent : ActivityUsage;
  fo_over_budget : option string;
  fo_slots : gmap nat IsolatedOutcome;
}.

(** The failure and the suspension of committed outcomes, the first of each. *)
Record CommitResult (A : Type) := { cr_failure : option string; cr_interrupt : option A }.
Arguments cr_failure {A} _.
Arguments cr_interrupt {A} _.

Definition or_first {A} (o : option A) (a : A) : option A :=
  match o with Some _ => o | None => Some a end.

Section engine.
Context {St T X : Type}.
Context `{EventLog St, CheckpointStore St, TimerStore T}.
Context `{ActivityExecutor X, Clock X, Sleep X}.
Context `{SerdeJson, DefinitionSerde}.
Context (eng : Engine).

Notation World := (World St T X).
Notation M := (M World).

(** ** Ports *)

Definition on_store {A} (f : St → St * result A) : M A := λ w,
  let '(s, r) := f (w_store w) in
  ({| w_store := s; w_timers := w_timers w; w_env := w_env w; w_locks := w_locks w;
      w_sched := w_sched w; w_calls := w_calls w |}, of_result r).

Definition set_timers (t : option T) (w : World) : World := {|
  w_store := w_store w; w_timers := t; w_env := w_env w; w_locks := w_locks w;
  w_sched := w_sched w; w_calls := w_calls w |}.
Definition set_env (x : X) (w : World) : World := {|
  w_store := w_store w; w_timers := w_timers w; w_env := x; w_locks := w_locks w;
  w_sched := w_sched w; w_calls := w_calls w |}.
Definition set_locks (l : gset string) (w : World) : World := {|
  w_store := w_store w; w_timers := w_timers w; w_env := w_env w; w_locks := l;
  w_sched := w_sched w; w_calls := w_calls w |}.

(** A call on the timer store the engine has ([None] when it has none). *)
Definition on_timers {A} (f : T → T * outcome A) : M (option A) := λ w,
  match w_timers w with
  | None => (w, Ret None)
  | Some t =>
    let '(t, r) := f t in
    (set_timers (Some t) w, a ← r; Ret (Some a))
  end.

Definition call_executor (execution_id : string) (ctx : ActivityContext) : M Execution := λ w,
  let '(x, ex) := execute ctx (w_env w) in
  ({| w_store := w_store w; w_timers := w_timers w; w_env := x; w_locks := w_locks w;
      w_sched := w_sched w; w_calls := w_calls w ++ [(execution_id, ctx)] |}, Ret ex).

Definition sleep_ms (ms : Z) : M () := modify (λ w, set_env (sleep ms (w_env w)) w).

Definition next_choice : M nat := λ w,
  ({| w_store := w_store w; w_timers := w_timers w; w_env := w_env w; w_locks := w_locks w;
      w_sched := tl (w_sched w); w_calls := w_calls w |}, Ret (hd O (w_sched w))).

(** [lock_execution]: the guard lives until the end of [body]. *)
Definition with_lock {A} (execution_id : string) (body : M A) : M A := λ w,
  if decide (execution_id ∈ w_locks w) then (w, Stop Deadlocked)
  else
    let '(w', r) := body (set_locks ({[execution_id]} ∪ w_locks w) w) in
    (set_locks (w_locks w' ∖ {[execution_id]}) w', r).

(** ** Events, checkpoints and transitions *)

Definition emit (state : ExecutionState) (event : WorkflowEvent) : M ExecutionState :=
  _ ← on_store (append (es_execution_id state) event);
  mret (with_version (u64_wrapping_add (es_version state) 1) state).

Definition checkpoint (state : ExecutionState) : M () := on_store (save state).

Definition transition (state : ExecutionState) (to : WorkflowState.t) (event : WorkflowEvent)
    : M ExecutionState :=
  if WorkflowState.can_transition (es_status state) to
  then emit (with_status to state) event
  else throw (Runtime ("invalid workflow transition " +:+ WorkflowState.debug (es_status state)
                       +:+ " -> " +:+ WorkflowState.debug to)).

(** Emit, then persist. *)
Definition emit_checkpoint (state : ExecutionState) (event : WorkflowEvent) : M ExecutionState :=
  state ← emit state event;
  _ ← checkpoint state;
  mret state.

Definition set_activity (id : string) (to : ActivityState.t) : ExecutionState → ExecutionState :=
  with_activities (alter (rec_state to) id).

(** [state.activities[id]] and [get_mut(id).expect(..)]: panic when missing. *)
Definition record (state : ExecutionState) (id : string) : outcome ActivityRecord :=
  expect (es_activities state !! id).
Definition update_record (id : string) (f : ActivityRecord → ActivityRecord)
    (state : ExecutionState) : outcome ExecutionState :=
  r ← record state id;
  Ret (with_activities (insert id (f r)) state).

Definition check_output_size (id : string) (output : Value) : option string :=
  let size := match json_to_vec output with Some b => str_len b | None => 0 end in
  if Z.ltb (max_activity_output_bytes eng) size then
    Some ("activity `" +:+ id +:+ "` output is " +:+ show_Z size +:+ " bytes, over the "
      +:+ show_Z (max_activity_output_bytes eng)
      +:+ "-byte cap (WFL-303) — every future checkpoint of this execution re-serializes the full state, so this would bloat all of them; keep outputs small, or store the large payload externally (object storage, a blob store) and pass a reference instead")
  else None.

Definition terminal_activity_failure (state : ExecutionState) (id : string) (attempt : Z)
    (msg : string) : M (ExecutionState * Step) :=
  state ← lift (update_record id (rec_error ActivityState.Failed attempt msg) state);
  state ← emit_checkpoint state (ActivityFailed id msg);
  mret (state, StepFailed ("activity `" +:+ id +:+ "` failed: " +:+ msg)).

(** ** Scheduling *)

Definition is_handler (d : Definition_) (id : string) : bool :=
  bool_decide (id ∈ compensation_targets d).

Definition classify_edge (t : Transition) (state : ExecutionState) : Edge :=
  match state_of state (tr_from t) with
  | Some ActivityState.Completed =>
    match evaluate (default "" (tr_when t)) (es_variables state) with
    | inr true => Live
    | _ => Dead
    end
  | Some ActivityState.Skipped | Some ActivityState.Failed => Dead
  | _ => Pending
  end.

Definition edges_of (d : Definition_) (state : ExecutionState) (id : string) : list Edge :=
  map (λ t, classify_edge t state) (inbound d id).

Definition runnable (s : ActivityState.t) : bool :=
  match s with
  | ActivityState.Created | ActivityState.Ready | ActivityState.Retrying
  | ActivityState.Waiting => true
  | _ => false
  end.
Definition skippable (s : ActivityState.t) : bool :=
  match s with
  | ActivityState.Created | ActivityState.Ready | ActivityState.Retrying => true
  | _ => false
  end.

Definition is_ready (d : Definition_) (state : ExecutionState) (id : string) : outcome bool :=
  r ← record state id;
  if negb (runnable (ar_state r)) then Ret false
  else
    let edges := edges_of d state id in
    Ret (match edges with
         | [] => true
         | _ => negb (bool_decide (Pending ∈ edges)) && bool_decide (Live ∈ edges)
         end).

Fixpoint forward_complete_go (d : Definition_) (state : ExecutionState) (acts : list ActivityDef)
    : outcome bool :=
  match acts with
  | [] => Ret true
  | a :: acts =>
    if is_handler d (act_id a) then forward_complete_go d state acts
    else
      r ← record state (act_id a);
      if ActivityState.is_settled (ar_state r) then forward_complete_go d state acts
      else Ret false
  end.
Definition forward_complete (d : Definition_) (state : ExecutionState) : outcome bool :=
  forward_complete_go d state (spec_activities (def_spec d)).

Fixpoint next_ready_go (d : Definition_) (state : ExecutionState) (acts : list ActivityDef)
    : outcome (option string) :=
  match acts with
  | [] => Ret None
  | a :: acts =>
    if is_handler d (act_id a) then next_ready_go d state acts
    else
      ready ← is_ready d state (act_id a);
      if (ready : bool) then Ret (Some (act_id a)) else next_ready_go d state acts
  end.
Definition next_ready (d : Definition_) (state : ExecutionState) : outcome (option string) :=
  next_ready_go d state (spec_activities (def_spec d)).

(** The types the concurrent batch leaves to the sequential path. *)
Definition batchable (d : Definition_) (a : ActivityDef) : bool :=
  negb (is_handler d (act_id a)) && negb (String.eqb (act_type a) "wait") &&
  negb (String.eqb (act_type a) "workflow") && negb (is_for_each (act_type a)).

Fixpoint ready_batch_go (d : Definition_) (state : ExecutionState) (acts : list ActivityDef)
    : outcome (list string) :=
  match acts with
  | [] => Ret []
  | a :: acts =>
    if batchable d a then
      ready ← is_ready d state (act_id a);
      ids ← ready_batch_go d state acts;
      Ret (if (ready : bool) then act_id a :: ids else ids)
    else ready_batch_go d state acts
  end.
Definition ready_batch (d : Definition_) (state : ExecutionState) : outcome (list string) :=
  ready_batch_go d state (spec_activities (def_spec d)).

(** The scan of one iteration of [apply_skips]. *)
Fixpoint find_skip (d : Definition_) (state : ExecutionState) (acts : list ActivityDef)
    : outcome (option string) :=
  match acts with
  | [] => Ret None
  | a :: acts =>
    if is_handler d (act_id a) then find_skip d state acts
    else
      r ← record state (act_id a);
      if negb (skippable (ar_state r)) then find_skip d state acts
      else
        match edges_of d state (act_id a) with
        | [] => find_skip d state acts
        | edges =>
          if forallb (λ e, bool_decide (e = Dead)) edges then Ret (Some (act_id a))
          else find_skip d state acts
        end
  end.

Fixpoint apply_skips_go (fuel : nat) (d : Definition_) (state : ExecutionState)
    : M ExecutionState :=
  match fuel with
  | O => fail Exhausted
  | S fuel =>
    to_skip ← lift (find_skip d state (spec_activities (def_spec d)));
    match to_skip with
    | None => mret state
    | Some id =>
      state ← emit_checkpoint (set_activity id ActivityState.Skipped state) (ActivitySkipped id);
      apply_skips_go fuel d state
    end
  end.
Definition apply_skips (d : Definition_) (state : ExecutionState) : M ExecutionState :=
  apply_skips_go (S (length (spec_activities (def_spec d)))) d state.

(** ** One attempt, alone or as a task *)

Definition context_of (a : ActivityDef) (vars : gmap string Value) (attempt : Z) (progress : bool)
    : ActivityContext := {|
  ctx_id := act_id a;
  ctx_activity_type := act_type a;
  ctx_name := act_name a;
  ctx_inputs := act_inputs a;
  ctx_variables := vars;
  ctx_attempt := attempt;
  ctx_progress := progress |}.

Definition exhausted_msg (attempt : Z) (msg : string) : string :=
  "retries exhausted after " +:+ show_Z attempt +:+ " attempts: " +:+ msg.

(** More loop iterations than a policy allows attempts. *)
Definition attempt_fuel (p : RetryPolicy) : nat := S (Z.to_nat (max_attempts p)).

(** One iteration of the loop of [run_attempts]. *)
Definition attempt_step (execution_id : string) (t : Task) : M (Task + IsolatedOutcome) :=
  let attempt := u32_wrapping_add (task_attempt t) 1 in
  let events := task_events t ++ [ActivityStarted (task_id t) attempt] in
  let a := task_activity t in
  let ctx := {|
    ctx_id := task_id t; ctx_activity_type := act_type a; ctx_name := act_name a;
    ctx_inputs := act_inputs a; ctx_variables := task_variables t; ctx_attempt := attempt;
    ctx_progress := false |} in
  let finished result := inr {|
    iso_id := task_id t; iso_attempts := attempt; iso_events := events;
    iso_result := result |} in
  ex ← call_executor execution_id ctx;
  match exec_result ex with
  | inr output => mret (finished (IsoCompleted output))
  | inl (Interrupted msg) => mret (finished (IsoInterrupted msg))
  | inl (Permanent msg) => mret (finished (IsoFailed msg))
  | inl (Retryable msg) =>
    if Z.leb (max_attempts (task_policy t)) attempt
    then mret (finished (IsoFailed (exhausted_msg attempt msg)))
    else
      let delay := next_delay (task_policy t) attempt in
      _ ← sleep_ms delay;
      mret (inl {|
        task_id := task_id t; task_activity := a; task_policy := task_policy t;
        task_variables := task_variables t; task_attempt := attempt;
        task_events := events ++ [ActivityRetried (task_id t) attempt delay msg] |})
  end.

Definition spawn (index : nat) (t : Task) (set : JoinSet) : JoinSet :=
  {| js_running := js_running set ++ [(index, t)]; js_done := js_done set |}.

Definition join_fuel (set : JoinSet) : nat :=
  S (sum_list (map (λ it, attempt_fuel (task_policy it.2)) (js_running set))).

(** [join_next]: the runtime runs tasks, in any interleaving, until one of the
    finished ones is handed over. *)
Fixpoint join_next_go (fuel : nat) (execution_id : string) (set : JoinSet)
    : M (option (nat * IsolatedOutcome) * JoinSet) :=
  match fuel with
  | O => fail Exhausted
  | S fuel =>
    let dn := length (js_done set) in
    let n := (dn + length (js_running set))%nat in
    if Nat.eqb n 0 then mret (None, set)
    else
      choice ← next_choice;
      let i := Nat.modulo choice n in
      match js_done set !! i with
      | Some joined =>
        mret (Some joined,
          {| js_running := js_running set; js_done := delete i (js_done set) |})
      | None =>
        match js_running set !! (i - dn)%nat with
        | None => fail Panicked
        | Some (index, t) =>
          r ← attempt_step execution_id t;
          join_next_go fuel execution_id
            match r with
            | inl t' =>
              {| js_running := <[(i - dn)%nat := (index, t')]> (js_running set);
                 js_done := js_done set |}
            | inr o =>
              {| js_running := delete (i - dn)%nat (js_running set);
                 js_done := js_done set ++ [(index, o)] |}
            end
        end
      end
  end.
Definition join_next (execution_id : string) (set : JoinSet)
    : M (option (nat * IsolatedOutcome) * JoinSet) :=
  join_next_go (join_fuel set) execution_id set.

(** ** Sequential execution of one activity *)

Fixpoint emit_all (state : ExecutionState) (events : list WorkflowEvent) : M ExecutionState :=
  match events with
  | [] => mret state
  | e :: events => state ← emit state e; emit_all state events
  end.

(** Record an activity's completion in the snapshot: its record, its output as
    a variable, and its place on the compensation stack. *)
Definition complete_activity (id : string) (output : Value) (f : ActivityRecord → ActivityRecord)
    (state : ExecutionState) : outcome ExecutionState :=
  state ← update_record id f state;
  Ret (push_completed id (with_variables (insert id output) state)).

Fixpoint run_activity_go (fuel : nat) (activity : ActivityDef) (policy : RetryPolicy)
    (state : ExecutionState) : M (ExecutionState * Step) :=
  match fuel with
  | O => fail Exhausted
  | S fuel =>
    let id := act_id activity in
    r ← lift (record state id);
    let attempt := u32_wrapping_add (ar_attempts r) 1 in
    let state := set_activity id ActivityState.Running state in
    state ← emit state (ActivityStarted id attempt);
    ex ← call_executor (es_execution_id state)
           (context_of activity (es_variables state) attempt true);
    state ← emit_all state (map (ActivityProgress id attempt) (exec_progress ex));
    match exec_result ex with
    | inr output =>
      match check_output_size id output with
      | Some msg => terminal_activity_failure state id attempt msg
      | None =>
        state ← lift (complete_activity id output (rec_completed attempt output) state);
        state ← emit_checkpoint state (ActivityCompleted id output);
        mret (state, StepCompleted)
      end
    | inl (Interrupted msg) =>
      state ← lift (update_record id (rec_state ActivityState.Ready) state);
      _ ← checkpoint state;
      mret (state, StepInterrupted msg)
    | inl (Permanent msg) => terminal_activity_failure state id attempt msg
    | inl (Retryable msg) =>
      if Z.leb (max_attempts policy) attempt
      then terminal_activity_failure state id attempt (exhausted_msg attempt msg)
      else
        let delay := next_delay policy attempt in
        state ← lift (update_record id (rec_error ActivityState.Retrying attempt msg) state);
        state ← emit_checkpoint state (ActivityRetried id attempt delay msg);
        _ ← sleep_ms delay;
        run_activity_go fuel activity policy state
    end
  end.

(** ** [wait] activities *)

Definition timer_marker (id : string) : string := "__timer_set." +:+ id.

(** The durable registration of a wall-clock deadline, once per timer id. *)
Definition register_deadline (id : string) (tw : TimerWait) (deadline : TimerDeadline)
    (state : ExecutionState) : M ExecutionState :=
  let marker := timer_marker (tw_id tw) in
  match es_variables state !! marker with
  | Some _ => mret state
  | None =>
    attached ← gets w_timers;
    match attached with
    | None =>
      throw (Invalid ("wait activity `" +:+ id
        +:+ "` declares a wall-clock timer but the engine has no timer store; attach one with Engine::with_timer_store"))
    | Some _ =>
      now ← gets (λ w, now_millis (w_env w));
      let fire_at :=
        match deadline with
        | After ms => u64_saturating_add now ms
        | At ms => ms
        end in
      _ ← on_timers (schedule {| pt_execution_id := es_execution_id state;
                                  pt_timer_id := tw_id tw; pt_fire_at_ms := fire_at |});
      let state := with_variables (insert marker (json_u64 fire_at)) state in
      emit state (TimerScheduled (tw_id tw) fire_at)
    end
  end.

Definition run_wait (state : ExecutionState) (activity : ActivityDef) : M (ExecutionState * Step) :=
  let id := act_id activity in
  spec ← lift (of_result (WaitSpec_from_inputs id (act_inputs activity)));
  match es_variables state !! variable_key spec with
  | Some payload =>
    state ← lift (update_record id (λ r, rec_completed (ar_attempts r) payload r) state);
    let state := push_completed id (with_variables (insert id payload) state) in
    state ←
      match spec with
      | WaitTimer tw =>
        match tw_deadline tw with
        | Some _ =>
          let state := with_variables (delete (timer_marker (tw_id tw))) state in
          _ ← on_timers (cancel_timer (es_execution_id state) (tw_id tw));
          mret state
        | None => mret state
        end
      | WaitEvent _ => mret state
      end;
    state ← emit_checkpoint state (ActivityCompleted id payload);
    mret (state, StepCompleted)
  | None =>
    state ←
      match spec with
      | WaitTimer tw =>
        match tw_deadline tw with
        | Some deadline => register_deadline id tw deadline state
        | None => mret state
        end
      | WaitEvent _ => mret state
      end;
    let state := set_activity id ActivityState.Waiting state in
    state ← emit_checkpoint state (ActivityWaiting id (describe spec));
    mret (state, StepInterrupted ("waiting for " +:+ describe spec))
  end.

(** ** [workflow] activities *)

(** The engine operations a [workflow] activity calls on its child. *)
Record Calls := {
  call_resume : Definition_ → string → M (RunOutcome * ExecutionState);
  call_run : Definition_ → string → Value → M (RunOutcome * ExecutionState);
}.

Definition query (execution_id : string) : M (option ExecutionState) :=
  on_store (latest execution_id).

Definition run_subworkflow (calls : Calls) (state : ExecutionState) (activity : ActivityDef)
    : M (ExecutionState * Step) :=
  let id := act_id activity in
  match subworkflows eng with
  | None =>
    throw (Invalid ("workflow activity `" +:+ id
      +:+ "` requires a child-workflow resolver; attach one with Engine::with_subworkflows"))
  | Some resolver =>
    match act_name activity with
    | None =>
      throw (Invalid ("workflow activity `" +:+ id
        +:+ "` needs a `name` (the child workflow name)"))
    | Some child_name =>
      match resolver child_name with
      | None =>
        throw (Invalid ("unknown child workflow `" +:+ child_name +:+ "` for activity `"
          +:+ id +:+ "`"))
      | Some child_def =>
        let cid := child_id (es_execution_id state) id in
        let depth := matches_count "::" cid in
        if Nat.ltb (max_subworkflow_depth eng) depth then
          r ← lift (record state id);
          let attempt := u32_wrapping_add (ar_attempts r) 1 in
          terminal_activity_failure state id attempt
            ("sub-workflow nesting depth " +:+ show_Z (Z.of_nat depth)
             +:+ " exceeded the maximum of " +:+ show_Z (Z.of_nat (max_subworkflow_depth eng))
             +:+ " at activity `" +:+ id +:+ "` (child `" +:+ child_name
             +:+ "`) — likely a recursive or mutually-recursive workflow")
        else
          started ← query cid;
          '(outcome, child_state) ←
            match started with
            | Some _ => call_resume calls child_def cid
            | None => call_run calls child_def cid (act_inputs activity)
            end;
          match outcome with
          | RunCompleted =>
            let result := child_result child_state in
            state ← lift (complete_activity id result
                            (λ r, rec_completed (ar_attempts r) result r) state);
            state ← emit_checkpoint state (ActivityCompleted id result);
            mret (state, StepCompleted)
          | RunFailed msg | RunCompensated msg =>
            r ← lift (record state id);
            let attempt := u32_wrapping_add (ar_attempts r) 1 in
            terminal_activity_failure state id attempt
              ("child workflow `" +:+ child_name +:+ "` (" +:+ cid +:+ ") failed: " +:+ msg)
          | RunInterrupted msg =>
            let state := set_activity id ActivityState.Ready state in
            _ ← checkpoint state;
            mret (state, StepInterrupted ("child workflow `" +:+ child_name
                           +:+ "` suspended: " +:+ msg))
          end
      end
    end
  end.

(** ** [for_each] activities *)

Definition complete_for_each (state : ExecutionState) (id : string) (outputs : list Value)
    : M (ExecutionState * Step) :=
  let output := Array outputs in
  match check_output_size id output with
  | Some msg =>
    r ← lift (record state id);
    terminal_activity_failure state id (u32_wrapping_add (ar_attempts r) 1) msg
  | None =>
    state ← lift (complete_activity id output
                    (λ r, rec_completed (u32_wrapping_add (ar_attempts r) 1) output r) state);
    state ← emit_checkpoint state (ActivityCompleted id output);
    mret (state, StepCompleted)
  end.

Definition for_each_marker (id : string) : string := "__for_each." +:+ id.

(** The collection, resolved once and recorded; [inr] is the activity's failure. *)
Definition expand (state : ExecutionState) (activity : ActivityDef) (spec : ForEachSpec)
    : M (ExecutionState * (list Value + Step)) :=
  let id := act_id activity in
  let resolve_items :=
    r ← lift (record state id);
    let attempt := u32_wrapping_add (ar_attempts r) 1 in
    let probe := {|
      ctx_id := id; ctx_activity_type := act_type activity; ctx_name := act_name activity;
      ctx_inputs := Null; ctx_variables := es_variables state; ctx_attempt := attempt;
      ctx_progress := false |} in
    match template_resolve (fe_items spec) probe with
    | Array items =>
      if Z.ltb (fe_max_items spec) (Z.of_nat (length items)) then
        '(state, step) ← terminal_activity_failure state id attempt
          ("for_each `items` resolved to " +:+ show_Z (Z.of_nat (length items))
           +:+ " elements, over the max_items bound of " +:+ show_Z (fe_max_items spec)
           +:+ " — raise `max_items` if this fan-out is intended");
        mret (state, inr step)
      else
        let state := with_variables (insert (for_each_marker id) (Array items)) state in
        _ ← checkpoint state;
        mret (state, inl items)
    | resolved =>
      '(state, step) ← terminal_activity_failure state id attempt
        ("for_each `items` must resolve to an array, got " +:+ json_kind resolved);
      mret (state, inr step)
    end in
  match es_variables state !! for_each_marker id with
  | Some (Array items) => mret (state, inl items)
  | _ => resolve_items
  end.

(** The durable record of every instance: [entry(..).or_default()]. *)
Fixpoint ensure_instances (id : string) (indices : list nat) (state : ExecutionState)
    : ExecutionState :=
  match indices with
  | [] => state
  | i :: indices =>
    ensure_instances id indices
      (with_activities (λ m, match m !! instance_id id i with
                             | Some _ => m
                             | None => <[instance_id id i := ActivityRecord_default]> m
                             end) state)
  end.

Fixpoint pending_instances (id : string) (state : ExecutionState) (indices : list nat)
    : outcome (list nat) :=
  match indices with
  | [] => Ret []
  | i :: indices =>
    r ← record state (instance_id id i);
    rest ← pending_instances id state indices;
    Ret (if decide (ar_state r = ActivityState.Completed) then rest else i :: rest)
  end.

Definition instance_task (id : string) (spec : ForEachSpec) (policy : RetryPolicy)
    (snapshot : gmap string Value) (items : list Value) (state : ExecutionState) (index : nat)
    : outcome Task :=
  item ← expect (items !! index);
  r ← record state (instance_id id index);
  Ret {|
    task_id := instance_id id index;
    task_activity := {|
      act_id := instance_id id index; act_type := body_type (fe_body spec);
      act_name := body_name (fe_body spec); act_inputs := body_inputs (fe_body spec);
      act_retry := None; act_compensate := None |};
    task_policy := policy;
    task_variables := <["item_index" := json_u64 (Z.of_nat index)]> (<["item" := item]> snapshot);
    task_attempt := ar_attempts r;
    task_events := [] |}.

(** The first [n] elements (a [u64] bound) and the rest. *)
Fixpoint split_at {A} (n : Z) (l : list A) : list A * list A :=
  match l with
  | [] => ([], [])
  | x :: l' => if Z.leb n 0 then ([], l) else prod_map (cons x) id (split_at (n - 1) l')
  end.

Fixpoint spawn_all (make : nat → outcome Task) (indices : list nat) (set : JoinSet)
    : outcome JoinSet :=
  match indices with
  | [] => Ret set
  | i :: indices => t ← make i; spawn_all make indices (spawn i t set)
  end.

Fixpoint for_each_join (fuel : nat) (execution_id : string) (spec : ForEachSpec)
    (make : nat → outcome Task) (set : JoinSet) (queue : list nat) (fan : FanOut) : M FanOut :=
  match fuel with
  | O => fail Exhausted
  | S fuel =>
    '(joined, set) ← join_next execution_id set;
    match joined with
    | None => mret fan
    | Some (index, outcome) =>
      let spent :=
        match iso_result outcome with
        | IsoCompleted output => ActivityUsage_add (fo_spent fan) (ActivityUsage_from_output output)
        | _ => fo_spent fan
        end in
      let over_budget :=
        match fo_over_budget fan with
        | None => ActivityUsage_exceeds spent (fe_max_total_cost_usd spec) (fe_max_total_tokens spec)
        | over => over
        end in
      let fan := {| fo_spent := spent; fo_over_budget := over_budget;
                    fo_slots := <[index := outcome]> (fo_slots fan) |} in
      match over_budget, queue with
      | None, next :: queue =>
        t ← lift (make next);
        for_each_join fuel execution_id spec make (spawn next t set) queue fan
      | _, _ => for_each_join fuel execution_id spec make set queue fan
      end
    end
  end.

(** Phase 2 for one joined instance. *)
Definition commit_instance (state : ExecutionState) (cr : CommitResult string)
    (index : nat) (outcome : IsolatedOutcome) : M (ExecutionState * CommitResult string) :=
  let inst := iso_id outcome in
  let attempts := iso_attempts outcome in
  let state := set_activity inst ActivityState.Running state in
  state ← emit_all state (iso_events outcome);
  match iso_result outcome with
  | IsoCompleted output =>
    state ← lift (update_record inst (rec_completed attempts output) state);
    state ← emit_checkpoint state (ActivityCompleted inst output);
    mret (state, cr)
  | IsoFailed msg =>
    state ← lift (update_record inst (rec_error ActivityState.Failed attempts msg) state);
    state ← emit_checkpoint state (ActivityFailed inst msg);
    mret (state, {|
      cr_failure := or_first (cr_failure cr)
                      ("item " +:+ show_Z (Z.of_nat index) +:+ " failed: " +:+ msg);
      cr_interrupt := cr_interrupt cr |})
  | IsoInterrupted msg =>
    let state := set_activity inst ActivityState.Ready state in
    _ ← checkpoint state;
    mret (state, {|
      cr_failure := cr_failure cr;
      cr_interrupt := or_first (cr_interrupt cr)
                        ("item " +:+ show_Z (Z.of_nat index) +:+ " suspended: " +:+ msg) |})
  end.

Fixpoint commit_instances (state : ExecutionState) (cr : CommitResult string)
    (slots : list (nat * IsolatedOutcome)) : M (ExecutionState * CommitResult string) :=
  match slots with
  | [] => mret (state, cr)
  | (index, outcome) :: slots =>
    '(state, cr) ← commit_instance state cr index outcome;
    commit_instances state cr slots
  end.

(** The slots of a map with keys below [n], in key order. *)
Definition slots_in_order (n : nat) (slots : gmap nat IsolatedOutcome)
    : list (nat * IsolatedOutcome) :=
  omap (λ i, pair i <$> slots !! i) (seq 0 n).

Fixpoint instance_outputs (id : string) (state : ExecutionState) (indices : list nat)
    : outcome (list Value) :=
  match indices with
  | [] => Ret []
  | i :: indices =>
    r ← record state (instance_id id i);
    rest ← instance_outputs id state indices;
    Ret (default Null (ar_output r) :: rest)
  end.

Definition body_policy (d : Definition_) (spec : ForEachSpec) : RetryPolicy :=
  match body_retry (fe_body spec) with
  | Some p => p
  | None => default RetryPolicy_default (spec_retry (def_spec d))
  end.

Definition run_for_each (d : Definition_) (state : ExecutionState) (activity : ActivityDef)
    : M (ExecutionState * Step) :=
  let id := act_id activity in
  spec ← lift (of_result (ForEachSpec_parse activity));
  '(state, expanded) ← expand state activity spec;
  match expanded with
  | inr step => mret (state, step)
  | inl [] =>
    complete_for_each (with_variables (delete (for_each_marker id)) state) id []
  | inl items =>
    let indices := seq 0 (length items) in
    let state := ensure_instances id indices state in
    pending ← lift (pending_instances id state indices);
    let make := instance_task id spec (body_policy d spec) (es_variables state) items state in
    let '(first, queue) := split_at (fe_max_concurrent spec) pending in
    set ← lift (spawn_all make first {| js_running := []; js_done := [] |});
    fan ← for_each_join (S (length pending)) (es_execution_id state) spec make set queue
            {| fo_spent := ActivityUsage_default; fo_over_budget := None; fo_slots := ∅ |};
    '(state, cr) ← commit_instances state {| cr_failure := None; cr_interrupt := None |}
                     (slots_in_order (length items) (fo_slots fan));
    match cr_failure cr, fo_over_budget fan, cr_interrupt cr with
    | Some msg, _, _ =>
      r ← lift (record state id);
      terminal_activity_failure state id (u32_wrapping_add (ar_attempts r) 1) msg
    | None, Some msg, _ =>
      r ← lift (record state id);
      terminal_activity_failure state id (u32_wrapping_add (ar_attempts r) 1)
        ("for_each `" +:+ id +:+ "`: " +:+ msg +:+ " after "
         +:+ show_Z (Z.of_nat (size (fo_slots fan))) +:+ " of "
         +:+ show_Z (Z.of_nat (length items))
         +:+ " items — raise the budget if this fan-out is intended (the remaining items were never started)")
    | None, None, Some msg =>
      let state := set_activity id ActivityState.Ready state in
      _ ← checkpoint state;
      mret (state, StepInterrupted ("for_each `" +:+ id +:+ "`: " +:+ msg))
    | None, None, None =>
      outputs ← lift (instance_outputs id state indices);
      complete_for_each (with_variables (delete (for_each_marker id)) state) id outputs
    end
  end.

(** ** The dispatch of one activity *)

Definition run_activity (calls : Calls) (d : Definition_) (state : ExecutionState) (id : string)
    : M (ExecutionState * Step) :=
  act ← lift (expect (activity d id));
  if String.eqb (act_type act) "wait" then run_wait state act
  else if String.eqb (act_type act) "workflow" then run_subworkflow calls state act
  else if is_for_each (act_type act) then run_for_each d state act
  else
    let policy := retry_for d id in
    run_activity_go (attempt_fuel policy) act policy state.

(** ** A concurrent batch *)

Definition batch_task (d : Definition_) (state : ExecutionState) (snapshot : gmap string Value)
    (id : string) : outcome Task :=
  act ← expect (activity d id);
  r ← record state id;
  Ret {| task_id := id; task_activity := act; task_policy := retry_for d id;
         task_variables := snapshot; task_attempt := ar_attempts r; task_events := [] |}.

Fixpoint spawn_batch (d : Definition_) (state : ExecutionState) (batch : list string) (idx : nat)
    (set : JoinSet) : outcome JoinSet :=
  match batch with
  | [] => Ret set
  | id :: batch =>
    t ← batch_task d state (es_variables state) id;
    spawn_batch d state batch (S idx) (spawn idx t set)
  end.

(** Restore declaration order. *)
Fixpoint join_all (fuel : nat) (execution_id : string) (set : JoinSet)
    (slots : list (option IsolatedOutcome)) : M (list (option IsolatedOutcome)) :=
  match fuel with
  | O => fail Exhausted
  | S fuel =>
    '(joined, set) ← join_next execution_id set;
    match joined with
    | None => mret slots
    | Some (idx, outcome) =>
      if Nat.ltb idx (length slots)
      then join_all fuel execution_id set (<[idx := Some outcome]> slots)
      else fail Panicked
    end
  end.

(** Phase 2 for one member. *)
Definition commit_member (state : ExecutionState) (cr : CommitResult (string * string))
    (outcome : IsolatedOutcome) : M (ExecutionState * CommitResult (string * string)) :=
  let id := iso_id outcome in
  let attempts := iso_attempts outcome in
  let state := set_activity id ActivityState.Running state in
  state ← emit_all state (iso_events outcome);
  match iso_result outcome with
  | IsoCompleted output =>
    state ← lift (complete_activity id output (rec_completed attempts output) state);
    state ← emit_checkpoint state (ActivityCompleted id output);
    mret (state, cr)
  | IsoFailed msg =>
    state ← lift (update_record id (rec_error ActivityState.Failed attempts msg) state);
    state ← emit_checkpoint state (ActivityFailed id msg);
    mret (state, {|
      cr_failure := or_first (cr_failure cr) ("activity `" +:+ id +:+ "` failed: " +:+ msg);
      cr_interrupt := cr_interrupt cr |})
  | IsoInterrupted msg =>
    let state := set_activity id ActivityState.Ready state in
    _ ← checkpoint state;
    mret (state, {|
      cr_failure := cr_failure cr;
      cr_interrupt := or_first (cr_interrupt cr) (id, msg) |})
  end.

Fixpoint commit_members (state : ExecutionState) (cr : CommitResult (string * string))
    (slots : list (option IsolatedOutcome)) : M (ExecutionState * CommitResult (string * string)) :=
  match slots with
  | [] => mret (state, cr)
  | slot :: slots =>
    outcome ← lift (expect slot);
    '(state, cr) ← commit_member state cr outcome;
    commit_members state cr slots
  end.

Definition run_ready_batch (d : Definition_) (state : ExecutionState) (batch : list string)
    : M (ExecutionState * BatchStep) :=
  set ← lift (spawn_batch d state batch 0 {| js_running := []; js_done := [] |});
  slots ← join_all (S (length batch)) (es_execution_id state) set (map (λ _, None) batch);
  '(state, cr) ← commit_members state {| cr_failure := None; cr_interrupt := None |} slots;
  match cr_failure cr, cr_interrupt cr with
  | Some msg, _ => mret (state, BatchFailed msg)
  | None, Some (act, msg) => mret (state, BatchInterrupted act msg)
  | None, None => mret (state, AllSettled)
  end.

(** ** Compensation *)

Fixpoint run_compensation_go (fuel : nat) (activity : ActivityDef) (policy : RetryPolicy)
    (attempt : Z) (state : ExecutionState) : M (ExecutionState * option string) :=
  match fuel with
  | O => fail Exhausted
  | S fuel =>
    let comp_id := act_id activity in
    let attempt := u32_wrapping_add attempt 1 in
    ex ← call_executor (es_execution_id state)
           (context_of activity (es_variables state) attempt false);
    match exec_result ex with
    | inr output =>
      state ← lift (update_record comp_id (rec_completed attempt output) state);
      mret (with_variables (insert comp_id output) state, None)
    | inl e =>
      if is_retryable e && Z.ltb attempt (max_attempts policy) then
        _ ← sleep_ms (next_delay policy attempt);
        run_compensation_go fuel activity policy attempt state
      else mret (state, Some (activity_error_display e))
    end
  end.
Definition run_compensation (d : Definition_) (state : ExecutionState) (comp_id : string)
    : M (ExecutionState * option string) :=
  act ← lift (expect (activity d comp_id));
  let policy := retry_for d comp_id in
  run_compensation_go (attempt_fuel policy) act policy 0 state.

Definition compensation_plan (d : Definition_) (order : list string) : list (string * string) :=
  omap (λ id, pair id <$> (activity d id ≫= act_compensate)) (reverse order).

Fixpoint compensate_steps (d : Definition_) (error : string) (plan : list (string * string))
    (state : ExecutionState) : M (ExecutionState * RunOutcome) :=
  match plan with
  | [] =>
    state ← transition state WorkflowState.Failed CompensationCompleted;
    _ ← checkpoint state;
    mret (state, RunCompensated error)
  | (activity_id, comp_id) :: plan =>
    '(state, failed) ← run_compensation d state comp_id;
    match failed with
    | None =>
      state ← emit_checkpoint state (CompensationStepCompleted activity_id comp_id);
      compensate_steps d error plan state
    | Some comp_err =>
      state ← emit_checkpoint state (CompensationStepFailed activity_id comp_id comp_err);
      mret (state, RunFailed ("compensation failed: " +:+ comp_err
                              +:+ " (original failure: " +:+ error +:+ ")"))
    end
  end.

Definition compensate (d : Definition_) (state : ExecutionState) (error : string)
    : M (ExecutionState * RunOutcome) :=
  state ← (if decide (es_status state = WorkflowState.Running) then
             state ← transition state WorkflowState.Failed (WorkflowFailed error);
             _ ← checkpoint state;
             mret state
           else mret state);
  match compensation_plan d (es_completed_order state) with
  | [] => mret (state, RunFailed error)
  | plan =>
    state ← transition state WorkflowState.Compensating CompensationStarted;
    _ ← checkpoint state;
    compensate_steps d error plan state
  end.

(** ** The scheduling loop *)

Fixpoint drive_go (fuel : nat) (calls : Calls) (d : Definition_) (state : ExecutionState)
    : M (RunOutcome * ExecutionState) :=
  match fuel with
  | O => fail Exhausted
  | S fuel =>
    state ← apply_skips d state;
    complete ← lift (forward_complete d state);
    if (complete : bool) then
      state ← transition state WorkflowState.Completed WorkflowCompleted;
      _ ← checkpoint state;
      mret (RunCompleted, state)
    else
      batch ← lift (ready_batch d state);
      if Nat.ltb 1 (length batch) then
        '(state, step) ← run_ready_batch d state batch;
        match step with
        | AllSettled => drive_go fuel calls d state
        | BatchFailed msg =>
          '(state, outcome) ← compensate d state msg;
          mret (outcome, state)
        | BatchInterrupted act msg =>
          state ← emit_checkpoint state (WorkflowInterrupted act);
          mret (RunInterrupted msg, state)
        end
      else
        next ← lift (next_ready d state);
        match next with
        | None =>
          '(state, outcome) ← compensate d state
            "workflow is blocked: no runnable activities remain";
          mret (outcome, state)
        | Some id =>
          '(state, step) ← run_activity calls d state id;
          match step with
          | StepCompleted => drive_go fuel calls d state
          | StepFailed msg =>
            '(state, outcome) ← compensate d state msg;
            mret (outcome, state)
          | StepInterrupted msg =>
            state ← emit_checkpoint state (WorkflowInterrupted id);
            mret (RunInterrupted msg, state)
          end
        end
  end.
Definition drive (calls : Calls) (d : Definition_) (state : ExecutionState)
    : M (RunOutcome * ExecutionState) :=
  drive_go (S (length (spec_activities (def_spec d)))) calls d state.

(** ** The public operations *)

Definition assert_pinned_definition (d : Definition_) (state : ExecutionState) : result () :=
  match es_definition_hash state with
  | None => Ok ()
  | Some pinned =>
    let drifted :=
      match def_source_hash d with
      | Some current => negb (String.eqb current pinned)
      | None => false
      end in
    if drifted || negb (String.eqb (meta_version (def_metadata d)) (es_workflow_version state)) then
      Err (Invalid ("definition for workflow `" +:+ es_workflow_name state
        +:+ "` changed since execution `" +:+ es_execution_id state
        +:+ "` started (pinned version " +:+ es_workflow_version state
        +:+ ", current version " +:+ meta_version (def_metadata d)
        +:+ "); resume it with the original definition"))
    else Ok ()
  end.

Definition initial_variables (d : Definition_) (execution_id : string) (input : Value)
    : gmap string Value :=
  let variables := <["input" := input]> (spec_variables (def_spec d)) in
  let variables :=
    match input with
    | Object map => foldl (λ m kv, <[kv.1 := kv.2]> m) variables map
    | _ => variables
    end in
  <["__execution_id" := Str execution_id]> variables.

Definition initial_state (d : Definition_) (execution_id : string) (input : Value)
    : ExecutionState := {|
  es_execution_id := execution_id;
  es_workflow_name := meta_name (def_metadata d);
  es_workflow_version := meta_version (def_metadata d);
  es_status := WorkflowState.Created;
  es_variables := initial_variables d execution_id input;
  es_activities := list_to_map (map (λ id, (id, ActivityRecord_default)) (activity_ids d));
  es_completed_order := [];
  es_definition_hash := def_source_hash d;
  es_version := 0 |}.

Definition start (d : Definition_) (execution_id : string) (input : Value) : M ExecutionState :=
  let state := initial_state d execution_id input in
  state ← emit state (WorkflowCreated (meta_name (def_metadata d)) (meta_version (def_metadata d)));
  state ← transition state WorkflowState.Validated WorkflowValidated;
  state ← transition state WorkflowState.Scheduled WorkflowScheduled;
  state ← transition state WorkflowState.Running WorkflowStarted;
  _ ← checkpoint state;
  mret state.

Definition run_with (calls : Calls) (d : Definition_) (execution_id : string) (input : Value)
    : M (RunOutcome * ExecutionState) :=
  state ← start d execution_id input;
  with_lock execution_id (drive calls d state).

Definition no_checkpoint (execution_id : string) : Error :=
  NotFound ("no checkpoint for execution `" +:+ execution_id +:+ "`").

Definition resume_unlocked (calls : Calls) (d : Definition_) (execution_id : string)
    : M (RunOutcome * ExecutionState) :=
  found ← query execution_id;
  state ← lift (of_result (ok_or (no_checkpoint execution_id) found));
  _ ← lift (of_result (assert_pinned_definition d state));
  match es_status state with
  | WorkflowState.Completed => mret (RunCompleted, state)
  | WorkflowState.Failed => mret (RunFailed "workflow previously failed", state)
  | WorkflowState.Cancelled => mret (RunFailed "workflow was cancelled", state)
  | _ => drive calls d state
  end.

Definition resume_with (calls : Calls) (d : Definition_) (execution_id : string)
    : M (RunOutcome * ExecutionState) :=
  with_lock execution_id (resume_unlocked calls d execution_id).

(** The engine calling itself on child executions, to a nesting depth; the
    depth guard keeps the nesting below [max_subworkflow_depth] plus one. *)
Fixpoint calls_at (depth : nat) : Calls :=
  match depth with
  | O => {| call_resume := λ _ _, fail Exhausted; call_run := λ _ _ _, fail Exhausted |}
  | S depth =>
    {| call_resume := resume_with (calls_at depth); call_run := run_with (calls_at depth) |}
  end.
Definition engine_calls : Calls := calls_at (S (max_subworkflow_depth eng)).

Definition run : Definition_ → string → Value → M (RunOutcome * ExecutionState) :=
  run_with engine_calls.
Definition resume : Definition_ → string → M (RunOutcome * ExecutionState) :=
  resume_with engine_calls.

Definition deliver (d : Definition_) (execution_id key : string) (payload : Value)
    : M (RunOutcome * ExecutionState) :=
  with_lock execution_id (
    found ← query execution_id;
    state ← lift (of_result (ok_or (no_checkpoint execution_id) found));
    _ ← checkpoint (with_variables (insert key payload) state);
    resume_unlocked engine_calls d execution_id).

Definition signal_event (d : Definition_) (execution_id name : string) (payload : Value)
    : M (RunOutcome * ExecutionState) :=
  deliver d execution_id ("event." +:+ name) payload.

Definition fire_timer (d : Definition_) (execution_id timer : string)
    : M (RunOutcome * ExecutionState) :=
  deliver d execution_id ("timer." +:+ timer) (Bool true).

Definition cancelled_record (r : ActivityRecord) : ActivityRecord :=
  match ar_state r with
  | ActivityState.Completed | ActivityState.Failed | ActivityState.Skipped => r
  | _ => rec_state ActivityState.Skipped r
  end.

Definition cancel (execution_id : string) : M ExecutionState :=
  found ← query execution_id;
  state ← lift (of_result (ok_or
            (NotFound ("execution `" +:+ execution_id +:+ "` not found")) found));
  if WorkflowState.is_terminal (es_status state) then
    throw (conflict ("execution `" +:+ execution_id +:+ "` is already "
      +:+ WorkflowState.debug (es_status state) +:+ " and cannot be cancelled"))
  else
    let state := with_activities (fmap cancelled_record) state in
    state ← transition state WorkflowState.Cancelled WorkflowCancelled;
    _ ← checkpoint state;
    mret state.

Definition status (execution_id : string) : M (option ExecutionSummary) :=
  found ← query execution_id;
  mret (summary <$> found).

Definition list_executions (filter : ExecutionFilter) : M (list ExecutionSummary) :=
  snapshots ← on_store (list_snapshots filter);
  mret (map summary snapshots).

Definition history (execution_id : string) : M (list WorkflowEvent) :=
  on_store (load execution_id).
Definition history_page (execution_id : string) (offset limit : Z) : M (list WorkflowEvent) :=
  on_store (load_page execution_id offset limit).
Definition compact_history (execution_id : string) (keep_after_seq : Z) : M () :=
  on_store (compact execution_id keep_after_seq).
End engine.
