(* ===== verification/EngineInv.v ===== *)
(** * Invariants of the engine

    What every operation of the engine preserves, whatever the executor, the
    clock, the schedule, and wherever a store call fails: the snapshots a
    lawful store holds stay consistent with the event log, no call is made for
    an activity whose completion is protected, other executions are untouched,
    locks are given back, and every loop ends within its fuel. *)
From stdpp Require Import base tactics list numbers strings gmap pretty.
From Stdlib Require Import Lia ZArith Ascii.
From S2P Require Import Prelude.
From S2P Require Import RustStr.
From S2P Require Import Common.
From S2P Require Import JsonValue.
From S2P Require Import State.
From S2P Require Import Retry.
From S2P Require Import Condition.
From S2P Require Import Executor.
From S2P Require Import Template.
From S2P Require Import Event.
From S2P Require Import WorkflowDef.
From S2P Require Import WorkflowValid.
From S2P Require Import ExecState.
From S2P Require Import Store.
From S2P Require Import Effect.
From S2P Require Import Timer.
From S2P Require Import Engine.

(** ** Derived execution ids *)

(** [below c x]: [x] is the id of a sub-workflow of [c], at any depth. *)
Definition below (c x : string) : Prop := ∃ t, x = c +:+ ("::" +:+ t).
Definition within (c x : string) : Prop := x = c ∨ below c x.

Lemma below_child c id : below c (child_id c id).
Proof. by exists id. Qed.

Lemma below_trans a b c : below a b → below b c → below a c.
Proof.
  intros [s ->] [t ->]. exists (s +:+ ("::" +:+ t)). by rewrite !str_app_assoc.
Qed.

Lemma below_irrefl c : ¬ below c c.
Proof.
  intros [t Ht]. apply (f_equal String.length) in Ht. rewrite !str_length_app in Ht.
  simpl in Ht. lia.
Qed.

Lemma within_below a b c : below a b → within b c → below a c.
Proof. intros Hab [->|Hbc]; [done|]. by eapply below_trans. Qed.

(** ** Consistent snapshots *)

(** [pl] are the events about to be logged: a completion is pushed on the
    snapshot just before its event is appended. *)
Record core (pl : list WorkflowEvent) (st : ExecutionState) (l : list WorkflowEvent) : Prop := {
  core_nodup : NoDup (es_completed_order st);
  core_completed : ∀ id, id ∈ es_completed_order st →
    state_of st id = Some ActivityState.Completed;
  core_logged : ∀ id, id ∈ es_completed_order st → ∃ out, ActivityCompleted id out ∈ l ++ pl;
  core_version : (0 <= es_version st <= Z.of_nat (length l))%Z;
}.

Definition in_flight (s : ActivityState.t) : bool :=
  match s with ActivityState.Scheduled | ActivityState.Running => true | _ => false end.

(** No activity outside [but] is recorded as scheduled or running. *)
Definition clean_but (but : string → Prop) (st : ExecutionState) : Prop :=
  ∀ id s, ¬ but id → state_of st id = Some s → in_flight s = false.
Definition clean (st : ExecutionState) : Prop :=
  ∀ id s, state_of st id = Some s → in_flight s = false.

(** A consistent snapshot, against the log of its execution. *)
Definition good (st : ExecutionState) (l : list WorkflowEvent) : Prop := core [] st l ∧ clean st.

(** Only the activities in [touched] changed state, and completed ones did not. *)
Record evolves (touched : string → Prop) (st st' : ExecutionState) : Prop := {
  ev_id : es_execution_id st' = es_execution_id st;
  ev_completed : ∀ id, state_of st id = Some ActivityState.Completed →
    state_of st' id = Some ActivityState.Completed;
  ev_outside : ∀ id, ¬ touched id → state_of st' id = state_of st id;
}.

Lemma evolves_refl T st : evolves T st st.
Proof. by split. Qed.

Lemma evolves_trans T st1 st2 st3 : evolves T st1 st2 → evolves T st2 st3 → evolves T st1 st3.
Proof.
  intros [Hi1 Hc1 Ho1] [Hi2 Hc2 Ho2]. split.
  - congruence.
  - auto.
  - intros id Hid. rewrite Ho2, Ho1 by done. done.
Qed.

Lemma evolves_mono (T T' : string → Prop) st st' :
  (∀ id, T id → T' id) → evolves T st st' → evolves T' st st'.
Proof. intros HT [Hi Hc Ho]. split; [done..|]. intros id Hid. apply Ho. auto. Qed.

(** Pushing on the stack and setting variables are invisible to [evolves]. *)
Lemma evolves_push P st st1 id f :
  evolves P st st1 → evolves P st (push_completed id (with_variables f st1)).
Proof. by intros [? ? ?]. Qed.

(** ** Updates of a snapshot *)

Lemma state_of_insert st id r id' :
  state_of (with_activities (insert id r) st) id' =
    if decide (id = id') then Some (ar_state r) else state_of st id'.
Proof. unfold state_of. simpl. rewrite lookup_insert. by case_decide. Qed.

Lemma state_of_set_activity st id to id' :
  state_of (set_activity id to st) id' =
    if decide (id = id') then (λ _, to) <$> state_of st id else state_of st id'.
Proof.
  unfold state_of, set_activity. simpl. rewrite lookup_alter. case_decide as Heq; [|done].
  subst. destruct (es_activities st !! id'); done.
Qed.

Lemma update_record_Ret id f st st' :
  update_record id f st = Ret st' ↔
    ∃ r, es_activities st !! id = Some r ∧ st' = with_activities (insert id (f r)) st.
Proof.
  unfold update_record, record. destruct (es_activities st !! id) as [r|]; simpl; split.
  - intros [= <-]. eauto.
  - by intros (? & [= <-] & ->).
  - done.
  - by intros (? & ? & _).
Qed.

Lemma update_record_stop id f st s : update_record id f st = Stop s → s = Panicked.
Proof.
  unfold update_record, record. destruct (es_activities st !! id); simpl; congruence.
Qed.

Lemma record_Ret st id r : record st id = Ret r ↔ es_activities st !! id = Some r.
Proof. unfold record. destruct (es_activities st !! id); simpl; split; congruence. Qed.

Lemma record_stop st id s : record st id = Stop s → s = Panicked.
Proof. unfold record. destruct (es_activities st !! id); simpl; congruence. Qed.

(** One activity, not completed before, gets a new record. *)
Lemma evolves_insert (T : string → Prop) st id r :
  T id → state_of st id ≠ Some ActivityState.Completed →
  evolves T st (with_activities (insert id r) st).
Proof.
  intros HT Hid. split; [done|..].
  - intros id' Hc. rewrite state_of_insert. case_decide; [|done]. congruence.
  - intros id' Hn. rewrite state_of_insert. case_decide; [|done]. by subst.
Qed.

Lemma evolves_set_activity (T : string → Prop) st id to :
  T id → state_of st id ≠ Some ActivityState.Completed →
  evolves T st (set_activity id to st).
Proof.
  intros HT Hid. split; [done|..].
  - intros id' Hc. rewrite state_of_set_activity. case_decide; [|done]. congruence.
  - intros id' Hn. rewrite state_of_set_activity. case_decide; [|done]. by subst.
Qed.

(** Changes that leave the activities and the compensation stack alone. *)
Record same_activities (st st' : ExecutionState) : Prop := {
  sa_id : es_execution_id st' = es_execution_id st;
  sa_acts : es_activities st' = es_activities st;
  sa_order : es_completed_order st' = es_completed_order st;
}.

Lemma same_activities_refl st : same_activities st st.
Proof. by split. Qed.
Lemma same_activities_trans s1 s2 s3 :
  same_activities s1 s2 → same_activities s2 s3 → same_activities s1 s3.
Proof. intros [] []. split; congruence. Qed.
Lemma same_state_of st st' id : same_activities st st' → state_of st' id = state_of st id.
Proof. intros [_ Ha _]. unfold state_of. by rewrite Ha. Qed.
Lemma same_evolves T st st' : same_activities st st' → evolves T st st'.
Proof.
  intros Hs. split; [by apply sa_id| |]; intros id; rewrite (same_state_of st st') by done; done.
Qed.
Lemma same_clean_but but st st' : same_activities st st' → clean_but but st → clean_but but st'.
Proof. intros Hs Hc id s Hb. rewrite (same_state_of st st') by done. by apply Hc. Qed.
Lemma same_with_version v st : same_activities st (with_version v st).
Proof. done. Qed.
Lemma same_with_variables f st : same_activities st (with_variables f st).
Proof. done. Qed.
Lemma same_with_status to st : same_activities st (with_status to st).
Proof. done. Qed.
#[export] Hint Resolve same_activities_refl same_with_version same_with_variables
  same_with_status : wovyr.

Lemma core_same pl st st' l :
  same_activities st st' → es_version st' = es_version st → core pl st l → core pl st' l.
Proof.
  intros Hs Hv [Hn Hc Hl Hve]. pose proof (sa_order _ _ Hs) as Ho. split; rewrite ?Ho, ?Hv; try done.
  intros id Hid. rewrite (same_state_of st st') by done. by apply Hc.
Qed.

Lemma core_prefix st l l' : core [] st l → l `prefix_of` l' → core [] st l'.
Proof.
  intros [Hn Hc Hl Hv] [k ->]. split; try done.
  - intros id Hid. destruct (Hl id Hid) as [out Hout]. exists out.
    rewrite app_nil_r in *. set_solver.
  - rewrite length_app. lia.
Qed.

(** Appending the announced event, or any event, re-establishes the core. *)
Lemma core_emit pl st l e :
  core pl st l → (pl = [] ∨ pl = [e]) →
  core [] (with_version (u64_wrapping_add (es_version st) 1) st) (l ++ [e]).
Proof.
  intros [Hn Hc Hl Hv] Hpl. split; try done.
  - intros id Hid. destruct (Hl id Hid) as [out Hout]. exists out.
    rewrite app_nil_r. destruct Hpl as [-> | ->]; [|done]. rewrite app_nil_r in Hout. set_solver.
  - simpl. rewrite length_app. simpl. unfold_ints.
    pose proof (Z.mod_le (es_version st + 1) (2 ^ 64)).
    pose proof (Z.mod_pos_bound (es_version st + 1) (2 ^ 64)). lia.
Qed.

Lemma core_not_in_order pl st l id :
  core pl st l → state_of st id ≠ Some ActivityState.Completed → id ∉ es_completed_order st.
Proof. intros Hc Hid Hin. by apply Hid, (core_completed _ _ _ Hc). Qed.

Lemma core_evolves pl T st st' l :
  evolves T st st' → es_completed_order st' = es_completed_order st →
  es_version st' = es_version st → core pl st l → core pl st' l.
Proof.
  intros He Ho Hv [Hn Hc Hl Hve]. split; rewrite ?Ho, ?Hv; try done.
  intros id Hid. by apply (ev_completed _ _ _ He), Hc.
Qed.

Lemma core_insert pl st l id r :
  state_of st id ≠ Some ActivityState.Completed → core pl st l →
  core pl (with_activities (insert id r) st) l.
Proof. intros Hid. apply (core_evolves _ (λ _, True) st); [by apply evolves_insert|done..]. Qed.

Lemma core_set_activity pl st l id to :
  state_of st id ≠ Some ActivityState.Completed → core pl st l →
  core pl (set_activity id to st) l.
Proof. intros Hid. apply (core_evolves _ (λ _, True) st); [by apply evolves_set_activity|done..]. Qed.

(** A completion: the record, the variable, the stack; its event is announced. *)
Lemma core_complete st l id out r f :
  state_of st id ≠ Some ActivityState.Completed → ar_state r = ActivityState.Completed →
  core [] st l →
  core [ActivityCompleted id out]
    (push_completed id (with_variables f (with_activities (insert id r) st))) l.
Proof.
  intros Hid Hr Hcore. pose proof (core_not_in_order _ _ _ _ Hcore Hid) as Hni.
  destruct Hcore as [Hn Hc Hl Hv]. split; simpl; try done.
  - apply NoDup_app. split; [done|]. split; [|apply NoDup_singleton]. set_solver.
  - intros id' Hin. assert (state_of (push_completed id
      (with_variables f (with_activities (insert id r) st))) id' =
      state_of (with_activities (insert id r) st) id') as -> by done.
    rewrite state_of_insert. case_decide; [congruence|]. apply Hc. set_solver.
  - intros id' Hin. apply elem_of_app in Hin as [Hin|Hin].
    + destruct (Hl id' Hin) as [out' Hout]. exists out'. rewrite app_nil_r in Hout. set_solver.
    + apply list_elem_of_singleton in Hin as ->. exists out. set_solver.
Qed.

Lemma clean_but_insert (but : string → Prop) st id r :
  in_flight (ar_state r) = false ∨ but id → clean_but but st →
  clean_but but (with_activities (insert id r) st).
Proof.
  intros Hr Hc id' s Hb. rewrite state_of_insert. case_decide; [|by apply Hc].
  intros [= <-]. subst. by destruct Hr.
Qed.

(** Overwriting the one activity in flight leaves none. *)
Lemma clean_insert st id r :
  in_flight (ar_state r) = false → clean_but (eq id) st → clean (with_activities (insert id r) st).
Proof.
  intros Hr Hc id' s. rewrite state_of_insert. case_decide as Heq; [by intros [= <-]|].
  by apply Hc.
Qed.

Lemma clean_set_activity st id to :
  in_flight to = false → clean_but (eq id) st → clean (set_activity id to st).
Proof.
  intros Hr Hc id' s. rewrite state_of_set_activity. case_decide as Heq; [|by apply Hc].
  destruct (state_of st id); [by intros [= <-]|done].
Qed.

Lemma clean_but_set_activity st id to : clean st → clean_but (eq id) (set_activity id to st).
Proof.
  intros Hc id' s Hb. rewrite state_of_set_activity. case_decide; [done|]. by apply Hc.
Qed.

Lemma clean_weaken but st : clean st → clean_but but st.
Proof. intros Hc id s _. by apply Hc. Qed.

(** ** Skipping dead branches *)

Definition settled (st : ExecutionState) (id : string) : bool :=
  match state_of st id with Some s => ActivityState.is_settled s | None => false end.

Definition unsettled (d : Definition_) (st : ExecutionState) : nat :=
  length (List.filter (λ id, negb (settled st id)) (activity_ids d)).

Lemma unsettled_le d st : unsettled d st ≤ length (spec_activities (def_spec d)).
Proof.
  unfold unsettled. etrans; [apply List.filter_length_le|].
  unfold activity_ids. by rewrite List.length_map.
Qed.

Lemma unsettled_mono d st st' :
  (∀ id, id ∈ activity_ids d → settled st id = true → settled st' id = true) →
  unsettled d st' ≤ unsettled d st.
Proof.
  unfold unsettled. induction (activity_ids d) as [|id ids IH]; intros Hs; simpl; [done|].
  specialize (IH ltac:(intros; apply Hs; set_solver)).
  destruct (settled st id) eqn:E1; simpl.
  - rewrite (Hs id) by (done || set_solver). done.
  - destruct (settled st' id); simpl; lia.
Qed.

Lemma unsettled_lt d st st' id :
  (∀ id, id ∈ activity_ids d → settled st id = true → settled st' id = true) →
  id ∈ activity_ids d → settled st id = false → settled st' id = true →
  unsettled d st' < unsettled d st.
Proof.
  intros Hs Hid H0 H1. unfold unsettled.
  apply list_elem_of_split in Hid as (l1 & l2 & Hl). rewrite Hl in *.
  rewrite !List.filter_app, !length_app. simpl. rewrite H0, H1. simpl.
  assert (∀ l, (∀ x, x ∈ l → x ∈ l1 ++ id :: l2) →
    length (List.filter (λ id, negb (settled st' id)) l) ≤
    length (List.filter (λ id, negb (settled st id)) l)) as Hle.
  { induction l as [|x l IHl]; intros Hsub; simpl; [done|].
    specialize (IHl ltac:(intros; apply Hsub; set_solver)).
    destruct (settled st x) eqn:E1; simpl.
    - rewrite (Hs x) by (done || apply Hsub; set_solver). done.
    - destruct (settled st' x); simpl; lia. }
  pose proof (Hle l1 ltac:(set_solver)). pose proof (Hle l2 ltac:(set_solver)). lia.
Qed.

Lemma evolves_settles (P : string → Prop) (ids : list string) st st' :
  evolves P st st' → (∀ id, id ∈ ids → P id → settled st id = false) →
  ∀ id, id ∈ ids → settled st id = true → settled st' id = true.
Proof.
  intros He HP id Hid Hs. unfold settled in *. destruct (state_of st id) as [s|] eqn:E; [|done].
  destruct s; try done.
  - by rewrite (ev_completed _ _ _ He id E).
  - rewrite (ev_outside _ _ _ He id); [by rewrite E|]. intros Hp.
    specialize (HP id Hid Hp). by rewrite E in HP.
Qed.

(** What the scan found: a dead activity, or that there is none. *)
Definition dead_branch (d : Definition_) (st : ExecutionState) (id : string) : Prop :=
  is_handler d id = false ∧ (∃ s, state_of st id = Some s ∧ skippable s = true) ∧
  edges_of d st id ≠ [] ∧ (∀ e, e ∈ edges_of d st id → e = Dead).
Definition not_dead (d : Definition_) (st : ExecutionState) (id : string) : Prop :=
  is_handler d id = false → ∃ s, state_of st id = Some s ∧
    (skippable s = true → edges_of d st id = [] ∨ ∃ e, e ∈ edges_of d st id ∧ e ≠ Dead).

Definition skip_found (d : Definition_) (st : ExecutionState) (ids : list string)
    (o : outcome (option string)) : Prop :=
  match o with
  | Ret (Some id) => id ∈ ids ∧ dead_branch d st id
  | Ret None => ∀ id, id ∈ ids → not_dead d st id
  | Stop s => s = Panicked
  end.

Lemma skip_found_cons d st id ids o :
  skip_found d st ids o → not_dead d st id → skip_found d st (id :: ids) o.
Proof.
  destruct o as [[id'|]|s]; simpl; try done.
  - intros [Hin Hd] _. split; [set_solver|done].
  - intros Ho Ha id' Hin. assert (id' = id ∨ id' ∈ ids) as [->|?] by set_solver; auto.
Qed.

Lemma find_skip_spec d st acts : skip_found d st (map act_id acts) (find_skip d st acts).
Proof.
  induction acts as [|a acts IH]; cbn [find_skip map].
  { by intros id ?%not_elem_of_nil. }
  destruct (is_handler d (act_id a)) eqn:Hh.
  { apply skip_found_cons; [done|]. by intros ?; rewrite Hh in *. }
  destruct (record st (act_id a)) as [r|s] eqn:Hr; cbn [mbind outcome_bind];
    [|by apply record_stop in Hr].
  apply record_Ret in Hr.
  assert (state_of st (act_id a) = Some (ar_state r)) as Hst by (unfold state_of; by rewrite Hr).
  destruct (skippable (ar_state r)) eqn:Hk; cbn [negb].
  2: { apply skip_found_cons; [done|]. intros _. exists (ar_state r). by rewrite Hk. }
  destruct (edges_of d st (act_id a)) as [|e es] eqn:He.
  { apply skip_found_cons; [done|]. intros _. eauto. }
  destruct (forallb _ (e :: es)) eqn:Hf.
  - split; [set_solver|]. split; [done|]. split; [eauto|]. rewrite He. split; [done|].
    intros e' He'. rewrite forallb_elem in Hf. apply Hf in He'. by to_prop.
  - apply skip_found_cons; [done|]. intros _. exists (ar_state r). split; [done|]. intros _. right.
    rewrite He. apply not_true_iff_false in Hf.
    destruct (decide (Exists (λ x, x ≠ Dead) (e :: es))) as [Hex|Hno].
    + by apply Exists_exists in Hex.
    + destruct Hf. apply forallb_elem. intros x Hx. apply bool_decide_eq_true.
      destruct (decide (x = Dead)); [done|]. destruct Hno. apply Exists_exists. eauto.
Qed.

(** ** What the scheduler picks *)

Lemma is_ready_true d st id :
  is_ready d st id = Ret true → ∃ s, state_of st id = Some s ∧ runnable s = true.
Proof.
  unfold is_ready. destruct (record st id) as [r|s] eqn:Hr; simpl; [|done].
  apply record_Ret in Hr. destruct (runnable (ar_state r)) eqn:E; simpl; [|done].
  intros _. exists (ar_state r). unfold state_of. by rewrite Hr.
Qed.

Lemma is_ready_stop d st id s : is_ready d st id = Stop s → s = Panicked.
Proof.
  unfold is_ready. destruct (record st id) as [r|s'] eqn:Hr; simpl; [by destruct (negb _)|].
  intros [= <-]. by eapply record_stop.
Qed.

Definition picked (d : Definition_) (st : ExecutionState) (id : string) : Prop :=
  id ∈ activity_ids d ∧ is_handler d id = false ∧ is_ready d st id = Ret true.

Lemma picked_not_completed d st id :
  picked d st id → state_of st id ≠ Some ActivityState.Completed ∧ settled st id = false.
Proof.
  intros (_ & _ & (s & Hs & Hr)%is_ready_true). unfold settled. rewrite Hs.
  split; [intros [= ->]; done|by destruct s].
Qed.

Lemma next_ready_spec d st :
  match next_ready d st with
  | Ret (Some id) => picked d st id
  | Ret None => ∀ id, id ∈ activity_ids d → is_handler d id = false → is_ready d st id = Ret false
  | Stop s => s = Panicked
  end.
Proof.
  unfold next_ready, picked, activity_ids.
  induction (spec_activities (def_spec d)) as [|a acts IH]; simpl.
  { by intros ? ?%not_elem_of_nil. }
  assert (∀ o, match o with
    | Ret (Some id) => id ∈ map act_id acts ∧ is_handler d id = false ∧ is_ready d st id = Ret true
    | Ret None => ∀ id, id ∈ map act_id acts → is_handler d id = false → is_ready d st id = Ret false
    | Stop s => s = Panicked
    end → (is_handler d (act_id a) = false → is_ready d st (act_id a) = Ret false) →
    match o with
    | Ret (Some id) => id ∈ act_id a :: map act_id acts ∧ is_handler d id = false ∧
        is_ready d st id = Ret true
    | Ret None => ∀ id, id ∈ act_id a :: map act_id acts → is_handler d id = false →
        is_ready d st id = Ret false
    | Stop s => s = Panicked
    end) as Hweak.
  { intros [[id|]|s] Ho Ha; try done.
    - destruct Ho as [? ?]. split; [set_solver|done].
    - intros id Hin. assert (id = act_id a ∨ id ∈ map act_id acts) as [->|?] by set_solver; auto. }
  destruct (is_handler d (act_id a)) eqn:Hh; [by apply Hweak|].
  destruct (is_ready d st (act_id a)) as [[|]|s] eqn:Hr; simpl.
  - split; [set_solver|done].
  - by apply Hweak.
  - by eapply is_ready_stop.
Qed.

Lemma ready_batch_spec d st :
  NoDup (activity_ids d) →
  match ready_batch d st with
  | Ret ids => NoDup ids ∧ ∀ id, id ∈ ids → picked d st id
  | Stop s => s = Panicked
  end.
Proof.
  unfold ready_batch, picked, activity_ids. intros Hnd.
  assert (match ready_batch_go d st (spec_activities (def_spec d)) with
    | Ret ids => NoDup ids ∧ ∀ id, id ∈ ids →
        id ∈ map act_id (spec_activities (def_spec d)) ∧ is_handler d id = false ∧ is_ready d st id = Ret true
    | Stop s => s = Panicked end); [|done].
  induction (spec_activities (def_spec d)) as [|a acts IH]; simpl.
  { split; [constructor|]. by intros ? ?%not_elem_of_nil. }
  simpl in Hnd. apply NoDup_cons in Hnd as [Hn Hnd]. specialize (IH Hnd).
  assert (∀ ids, NoDup ids ∧ (∀ id, id ∈ ids → id ∈ map act_id acts ∧ is_handler d id = false ∧
      is_ready d st id = Ret true) →
    NoDup ids ∧ (∀ id, id ∈ ids → id ∈ act_id a :: map act_id acts ∧ is_handler d id = false ∧
      is_ready d st id = Ret true)) as Hweak.
  { intros ids [? Hin]. split; [done|]. intros id Hid. destruct (Hin id Hid) as [? ?].
    split; [set_solver|done]. }
  destruct (batchable d a) eqn:Hb.
  - destruct (is_ready d st (act_id a)) as [ready|s] eqn:Hr; simpl; [|by eapply is_ready_stop].
    destruct (ready_batch_go d st acts) as [ids|s]; simpl; [|done].
    destruct ready; [|by apply Hweak]. destruct IH as [Hnd' Hin].
    assert (is_handler d (act_id a) = false) as Hh.
    { unfold batchable in Hb. by destruct (is_handler d (act_id a)). }
    split.
    + apply NoDup_cons. split; [|done]. intros Hid. by apply Hin in Hid as [? _].
    + intros id Hid. assert (id = act_id a ∨ id ∈ ids) as [->|Hid'] by set_solver.
      * split; [set_solver|done].
      * destruct (Hin id Hid') as [? ?]. split; [set_solver|done].
  - destruct (ready_batch_go d st acts) as [ids|s]; [by apply Hweak|done].
Qed.

(** Attempts still allowed: the counter wraps around at [u32::MAX], once. *)
Definition attempts_left (max attempt : Z) : nat :=
  Z.to_nat (if decide (0 <= attempt < max)%Z then max - attempt else max + 1).

Lemma attempts_left_fuel p attempt :
  (0 <= max_attempts p)%Z → attempts_left (max_attempts p) attempt ≤ attempt_fuel p.
Proof. unfold attempts_left, attempt_fuel. intros. case_decide; lia. Qed.

Lemma attempts_left_pos max attempt : (0 <= max)%Z → 0 < attempts_left max attempt.
Proof. unfold attempts_left. intros. case_decide; lia. Qed.

Lemma attempts_left_lt max attempt :
  is_u32 max → (u32_wrapping_add attempt 1 < max)%Z →
  attempts_left max (u32_wrapping_add attempt 1) < attempts_left max attempt.
Proof.
  intros Hmax Hlt. pose proof (u32_wrapping_add_bounds attempt 1) as Hb.
  unfold attempts_left. rewrite (decide_True (P := (0 <= u32_wrapping_add attempt 1 < max)%Z))
    by (unfold_ints; lia).
  case_decide as Ha; [|unfold_ints; lia].
  rewrite u32_wrapping_add_small in * by (unfold_ints; lia). lia.
Qed.

(** ** Instances of a [for_each] *)

Definition instance_of (id x : string) : Prop := ∃ i, x = instance_id id i.
Definition for_each_touched (id x : string) : Prop := x = id ∨ instance_of id x.

Lemma instance_id_inj id i j : instance_id id i = instance_id id j → i = j.
Proof.
  unfold instance_id. intros H. apply str_app_inj_l, str_app_inj_l, str_app_inj_r in H.
  apply (inj pretty) in H. lia.
Qed.

Lemma instance_id_ne id i : instance_id id i ≠ id.
Proof.
  intros H. apply (f_equal String.length) in H. unfold instance_id in H.
  rewrite !str_length_app in H. simpl in H. lia.
Qed.

(** ** Completion *)

Lemma forward_complete_spec d st :
  match forward_complete d st with
  | Ret b => b = true ↔ ∀ id, id ∈ activity_ids d → is_handler d id = false → settled st id = true
  | Stop s => s = Panicked
  end.
Proof.
  unfold forward_complete, activity_ids, settled, state_of.
  induction (spec_activities (def_spec d)) as [|a acts IH]; simpl.
  { split; [by intros _ ? ?%not_elem_of_nil|done]. }
  assert (∀ o, match o with
      | Ret b => b = true ↔ ∀ id, id ∈ map act_id acts → is_handler d id = false →
          match ar_state <$> es_activities st !! id with
          | Some s => ActivityState.is_settled s | None => false end = true
      | Stop s => s = Panicked end →
    (is_handler d (act_id a) = false → match ar_state <$> es_activities st !! act_id a with
          | Some s => ActivityState.is_settled s | None => false end = true) →
    match o with
      | Ret b => b = true ↔ ∀ id, id ∈ act_id a :: map act_id acts → is_handler d id = false →
          match ar_state <$> es_activities st !! id with
          | Some s => ActivityState.is_settled s | None => false end = true
      | Stop s => s = Panicked end) as Hweak.
  { intros [b|s] Ho Ha; [|done]. rewrite Ho. split.
    - intros Hall id Hin. assert (id = act_id a ∨ id ∈ map act_id acts) as [->|?] by set_solver; auto.
    - intros Hall id Hin. apply Hall. set_solver. }
  destruct (is_handler d (act_id a)) eqn:Hh; [by apply Hweak|].
  destruct (record st (act_id a)) as [r|s] eqn:Hr; simpl; [|by apply record_stop in Hr].
  apply record_Ret in Hr. destruct (ActivityState.is_settled (ar_state r)) eqn:Hs.
  - apply Hweak; [done|]. intros _. by rewrite Hr.
  - split; [done|]. intros Hall. specialize (Hall (act_id a) ltac:(set_solver) Hh).
    rewrite Hr in Hall. simpl in Hall. congruence.
Qed.

(** Every activity outside compensation is completed or skipped. *)
Definition all_settled (d : Definition_) (st : ExecutionState) : Prop :=
  ∀ id, id ∈ activity_ids d → is_handler d id = false → settled st id = true.

Lemma settled_completed st id :
  state_of st id = Some ActivityState.Completed → settled st id = true.
Proof. unfold settled. by intros ->. Qed.

(** ** What holds during an operation *)

Section inv.
Context {St T X : Type}.
Context `{HEL : EventLog St, HCS : CheckpointStore St, HTS : TimerStore T}.
Context `{HAE : ActivityExecutor X, HCL : Clock X, HSL : Sleep X}.
Context `{HSJ : SerdeJson, HDS : DefinitionSerde}.
Context `{HLAWS : !StoreLaws St, HTL : !TimerStoreLaws T}.
Context (eng : Engine).

Notation World := (World St T X).
Notation M := (M World).

Definition log (w : World) (id : string) : list WorkflowEvent := events_of (w_store w) id.
Definition snap (w : World) (id : string) : option ExecutionState := snapshot_of (w_store w) id.

(** Every snapshot of the store is filed under its id and consistent. *)
Definition stored (w : World) : Prop :=
  ∀ id st, snap w id = Some st → es_execution_id st = id ∧ good st (log w id).

(** What an operation on execution [c], started in [w0], has done so far:
    [keep] are the activities of [c] no call may be made for. *)
Record during (c : string) (keep : string → Prop) (w0 w : World) : Prop := {
  du_stored : stored w;
  du_logs : ∀ id, log w0 id `prefix_of` log w id;
  du_frame : ∀ id, ¬ within c id → log w id = log w0 id ∧ snap w id = snap w0 id;
  du_locks : w_locks w = w_locks w0;
  du_calls : ∃ new, w_calls w = w_calls w0 ++ new ∧
    ∀ e ctx, (e, ctx) ∈ new → within c e ∧ (e = c → ¬ keep (ctx_id ctx));
}.

(** Ways to stop that a caller can observe. *)
Definition proper (s : stop) : Prop := s ≠ Deadlocked ∧ s ≠ Exhausted.

Lemma during_refl c keep w : stored w → during c keep w w.
Proof.
  intros Hs. split; try done. exists []. split; [by rewrite app_nil_r|].
  by intros ? ? ?%not_elem_of_nil.
Qed.

(** The worlds differ in what the engine's invariants do not mention. *)
Lemma during_same c keep w0 w w' :
  during c keep w0 w → w_store w' = w_store w → w_locks w' = w_locks w → w_calls w' = w_calls w →
  during c keep w0 w'.
Proof.
  intros [Hs Hl Hf Hlk Hc] Hst Hlocks Hcalls.
  assert (∀ id, log w' id = log w id) as Hlog by (intros; unfold log; by rewrite Hst).
  assert (∀ id, snap w' id = snap w id) as Hsnap by (intros; unfold snap; by rewrite Hst).
  split.
  - intros id st. rewrite Hlog, Hsnap. apply Hs.
  - intros id. by rewrite Hlog.
  - intros id Hid. rewrite Hlog, Hsnap. by apply Hf.
  - congruence.
  - by rewrite Hcalls.
Qed.

Lemma during_trans c keep w0 w1 w2 :
  during c keep w0 w1 → during c keep w1 w2 → during c keep w0 w2.
Proof.
  intros [Hs Hl Hf Hlk (new & Hc & Hnew)] [Hs' Hl' Hf' Hlk' (new' & Hc' & Hnew')]. split.
  - done.
  - intros id. etrans; [apply Hl|apply Hl'].
  - intros id Hid. destruct (Hf' id Hid) as [-> ->]. by apply Hf.
  - congruence.
  - exists (new ++ new'). rewrite Hc', Hc, app_assoc. split; [done|].
    intros e ctx [Hin|Hin]%elem_of_app; [by apply Hnew|by apply Hnew'].
Qed.

(** A whole operation on a sub-workflow is a step of the parent's. *)
Lemma during_child c keep keep' cid w0 w w' :
  during c keep w0 w → below c cid → during cid keep' w w' →
  during c keep w0 w' ∧ snap w' c = snap w c ∧ log w' c = log w c.
Proof.
  intros [Hs Hl Hf Hlk (new & Hc & Hnew)] Hb [Hs' Hl' Hf' Hlk' (new' & Hc' & Hnew')].
  assert (∀ id, within cid id → below c id) as Hin by (intros; by eapply within_below).
  assert (¬ within cid c) as Hcc by (intros Hw; by apply (below_irrefl c), Hin).
  split; [|by destruct (Hf' c Hcc)]. split.
  - done.
  - intros id. etrans; [apply Hl|apply Hl'].
  - intros id Hid. assert (¬ within cid id) as Hid' by (intros Hw; apply Hid; right; auto).
    destruct (Hf' id Hid') as [-> ->]. by apply Hf.
  - congruence.
  - exists (new ++ new'). rewrite Hc', Hc, app_assoc. split; [done|].
    intros e ctx [Hin'|Hin']%elem_of_app; [by apply Hnew|].
    apply Hnew' in Hin' as [Hw _]. split; [right; auto|].
    intros ->. by destruct (below_irrefl c); apply Hin.
Qed.

Section one.
Context (c : string) (keep : string → Prop) (w0 : World).
Notation I := (during c keep w0).
Notation E := (λ s w, I w ∧ proper s).

Lemma during_log w : I w → log w0 c `prefix_of` log w c.
Proof. intros [_ Hl _ _ _]. apply Hl. Qed.

Lemma stored_append w s' (e : WorkflowEvent) :
  I w →
  (∀ id, snapshot_of s' id = snap w id) →
  (∀ id, id ≠ c → events_of s' id = log w id) →
  (events_of s' c = log w c ∨ events_of s' c = log w c ++ [e]) →
  I {| w_store := s'; w_timers := w_timers w; w_env := w_env w; w_locks := w_locks w;
       w_sched := w_sched w; w_calls := w_calls w |}.
Proof.
  intros [Hs Hl Hf Hlk Hc] Hsnap Hother Hc'.
  assert (∀ id, log w id `prefix_of` events_of s' id) as Hgrow.
  { intros id. destruct (decide (id = c)) as [->|Hne]; [|by rewrite Hother].
    destruct Hc' as [-> | ->]; [done|by apply prefix_app_r]. }
  split; unfold snap, log in *; simpl; try done.
  - intros id st. unfold snap, log. simpl. rewrite Hsnap. intros Hst.
    apply Hs in Hst as [? [? ?]]. split; [done|]. split; [|done]. eapply core_prefix; [done|apply Hgrow].
  - intros id. etrans; [apply Hl|apply Hgrow].
  - intros id Hid. rewrite Hsnap, Hother by (intros ->; apply Hid; by left). by apply Hf.
Qed.

(** *** Ports *)

Lemma wp_append (e : WorkflowEvent) w :
  I w →
  wp (on_store (append c e)) (λ _ w', I w' ∧ snap w' c = snap w c ∧ log w' c = log w c ++ [e]) E w.
Proof.
  intros HI. unfold wp, on_store. pose proof (append_law c e (w_store w)) as Hlaw.
  destruct (append c e (w_store w)) as [s' r]. destruct Hlaw as (Hsnap & Hother & Hr).
  destruct r as [n|err]; simpl.
  - split; [|split]; [|apply Hsnap|done].
    eapply stored_append; try done. by right.
  - split; [|done]. by eapply stored_append.
Qed.

Lemma wp_emit pl st e w :
  I w → es_execution_id st = c → core pl st (log w c) → pl = [] ∨ pl = [e] →
  wp (emit st e) (λ st' w', I w' ∧ snap w' c = snap w c ∧
    same_activities st st' ∧ es_variables st' = es_variables st ∧ es_status st' = es_status st ∧
    core [] st' (log w' c)) E w.
Proof.
  intros HI Hid Hcore Hpl. unfold emit. rewrite Hid.
  eapply wp_call; [by apply wp_append|]. intros n w' (HI' & Hsnap & Hlog).
  apply wp_ret. split; [done|]. split; [done|]. split; [done|]. split; [done|]. split; [done|].
  rewrite Hlog. by eapply core_emit.
Qed.

Lemma wp_checkpoint st w :
  I w → es_execution_id st = c → good st (log w c) →
  wp (checkpoint st) (λ _ w', I w' ∧ snap w' c = Some st ∧ log w' c = log w c) E w.
Proof.
  intros HI Hid Hgood. unfold checkpoint, wp, on_store.
  pose proof (save_law st (w_store w)) as Hlaw.
  destruct (save st (w_store w)) as [s' r]. destruct Hlaw as (Hev & Hother & Hr).
  rewrite Hid in Hr, Hother.
  assert ((snapshot_of s' c = snap w c ∨ snapshot_of s' c = Some st) →
    I {| w_store := s'; w_timers := w_timers w; w_env := w_env w; w_locks := w_locks w;
         w_sched := w_sched w; w_calls := w_calls w |}) as HI'.
  { intros Hc. destruct HI as [Hs Hl Hf Hlk Hca]. unfold log, snap in *.
    split; unfold log, snap; simpl; try done.
    - intros id st'. unfold snap, log. simpl. rewrite Hev.
      destruct (decide (id = c)) as [->|Hne]; [|rewrite Hother by done; apply Hs].
      destruct Hc as [-> | ->]; [apply Hs|]. by intros [= <-].
    - intros id. rewrite Hev. apply Hl.
    - intros id Hn. rewrite Hev, Hother by (intros ->; apply Hn; by left). by apply Hf. }
  unfold log, snap in *. destruct r as [[]|err]; simpl.
  - split; [apply HI'; by right|]. split; [done|apply Hev].
  - split; [by apply HI'|done].
Qed.

Lemma wp_latest id w :
  I w → wp (on_store (latest id))
    (λ o w', I w' ∧ o = snap w id ∧ snap w' c = snap w c ∧ log w' c = log w c) E w.
Proof.
  intros HI. unfold wp, on_store. pose proof (latest_law id (w_store w)) as Hlaw.
  destruct (latest id (w_store w)) as [s' r]. destruct Hlaw as (Hev & Hsn & Hr).
  assert (I {| w_store := s'; w_timers := w_timers w; w_env := w_env w; w_locks := w_locks w;
         w_sched := w_sched w; w_calls := w_calls w |}) as HI'.
  { destruct HI as [Hs Hl Hf Hlk Hca]. unfold log, snap in *.
    split; unfold log, snap; simpl; try done.
    - intros id' st'. unfold snap, log. simpl. rewrite Hev, Hsn. apply Hs.
    - intros id'. rewrite Hev. apply Hl.
    - intros id' Hn. rewrite Hev, Hsn. by apply Hf. }
  destruct r as [o|err]; simpl; [|done].
  split; [done|]. split; [done|]. unfold snap, log. simpl. by rewrite Hsn, Hev.
Qed.

Lemma wp_call_executor ctx w :
  I w → ¬ keep (ctx_id ctx) →
  wp (call_executor c ctx) (λ _ w', I w' ∧ snap w' c = snap w c ∧ log w' c = log w c) E w.
Proof.
  intros [Hs Hl Hf Hlk (new & Hc & Hnew)] Hk. unfold wp, call_executor.
  destruct (execute ctx (w_env w)) as [x ex]. split; [|done]. split; simpl; try done.
  exists (new ++ [(c, ctx)]). rewrite Hc, app_assoc. split; [done|].
  intros e ctx' [Hin|Hin]%elem_of_app; [by apply Hnew|].
  apply list_elem_of_singleton in Hin as [= -> ->]. split; [by left|done].
Qed.

Lemma wp_sleep ms w :
  I w → wp (sleep_ms ms) (λ _ w', I w' ∧ snap w' c = snap w c ∧ log w' c = log w c) E w.
Proof. intros HI. split; [|done]. by eapply during_same. Qed.

Lemma wp_next_choice w :
  I w → wp next_choice (λ _ w', I w' ∧ snap w' c = snap w c ∧ log w' c = log w c) E w.
Proof. intros HI. split; [|done]. by eapply during_same. Qed.

(** *** Steps on the snapshot *)

(** The outcome of a step that started from [st]: persisted, consistent, and
    different from [st] only in the activities of [P]. *)
Record stepped (P : string → Prop) (st st' : ExecutionState) (w : World) : Prop := {
  sp_during : I w;
  sp_snap : snap w c = Some st';
  sp_evolves : evolves P st st';
  sp_good : good st' (log w c);
  sp_status : es_status st' = es_status st;
}.

Lemma wp_emit_checkpoint pl st e w :
  I w → es_execution_id st = c → core pl st (log w c) → pl = [] ∨ pl = [e] → clean st →
  wp (emit_checkpoint st e) (λ st' w', I w' ∧ snap w' c = Some st' ∧
    same_activities st st' ∧ es_variables st' = es_variables st ∧ es_status st' = es_status st ∧
    good st' (log w' c)) E w.
Proof.
  intros HI Hid Hcore Hpl Hcl. unfold emit_checkpoint.
  eapply wp_call; [by eapply wp_emit|]. intros st' w' (HI' & _ & Hsame & Hv & Hs & Hcore').
  assert (good st' (log w' c)) as Hg.
  { split; [done|]. intros id s. rewrite (same_state_of st st') by done. apply Hcl. }
  eapply wp_call; [apply wp_checkpoint; [done| |done]; by rewrite (sa_id _ _ Hsame)|].
  intros [] w'' (HI'' & Hsn & Hlog). apply wp_ret. rewrite Hlog. done.
Qed.

Lemma wp_emit_all st es w :
  I w → es_execution_id st = c → core [] st (log w c) →
  wp (emit_all st es) (λ st' w', I w' ∧ snap w' c = snap w c ∧ same_activities st st' ∧
    es_variables st' = es_variables st ∧ es_status st' = es_status st ∧ core [] st' (log w' c)) E w.
Proof.
  revert st w. induction es as [|e es IH]; intros st w HI Hid Hcore; simpl.
  - by apply wp_ret.
  - eapply wp_call; [eapply wp_emit; [done..|by left]|].
    intros st1 w1 (HI1 & Hsn1 & Hs1 & Hv1 & Hst1 & Hc1).
    eapply wp_mono; [apply IH; [done| |done]; by rewrite (sa_id _ _ Hs1)| |done].
    intros st2 w2 (HI2 & Hsn2 & Hs2 & Hv2 & Hst2 & Hc2).
    split; [done|]. split; [congruence|]. split; [by eapply same_activities_trans|].
    split; [congruence|]. split; [congruence|done].
Qed.

(** The record of one activity is rewritten, an event logged, all persisted. *)
Lemma wp_update_checkpoint {A} st id f e w (k : ExecutionState → M A) Q (P : string → Prop) :
  I w → es_execution_id st = c → core [] st (log w c) → clean_but (eq id) st →
  state_of st id ≠ Some ActivityState.Completed → P id →
  (∀ r, in_flight (ar_state (f r)) = false) →
  (∀ st' w', stepped P st st' w' → (∀ r, es_activities st !! id = Some r →
     es_activities st' !! id = Some (f r)) → wp (k st') Q E w') →
  wp (st' ← lift (update_record id f st); st' ← emit_checkpoint st' e; k st') Q E w.
Proof.
  intros HI Hid Hcore Hcl Hnc HT Hf Hk. apply wp_lift_bind.
  destruct (update_record id f st) as [st1|s] eqn:Hup;
    [|apply update_record_stop in Hup as ->; done].
  apply update_record_Ret in Hup as (r & Hr & ->).
  eapply wp_call; [eapply (wp_emit_checkpoint []); [done|done| |by left|]|].
  - by apply core_insert.
  - by apply clean_insert.
  - intros st' w' (HI' & Hsn & Hsame & _ & Hst & Hg). apply Hk.
    + split; try done. eapply evolves_trans; [by apply evolves_insert|by apply same_evolves].
    + intros r' Hr'. rewrite (sa_acts _ _ Hsame). simpl. rewrite lookup_insert_eq. congruence.
Qed.

Lemma wp_terminal_failure st id attempt msg w (P : string → Prop) :
  I w → es_execution_id st = c → core [] st (log w c) → clean_but (eq id) st →
  state_of st id ≠ Some ActivityState.Completed → P id →
  wp (terminal_activity_failure st id attempt msg) (λ '(st', step) w',
    stepped P st st' w' ∧ ∃ m, step = StepFailed m) E w.
Proof.
  intros. unfold terminal_activity_failure.
  eapply wp_update_checkpoint; try done. intros st' w' Hst _. apply wp_ret. eauto.
Qed.

Lemma wp_complete_checkpoint {A} st id out f w (k : ExecutionState → M A) Q (P : string → Prop) :
  I w → es_execution_id st = c → core [] st (log w c) → clean_but (eq id) st →
  state_of st id ≠ Some ActivityState.Completed → P id →
  (∀ r, ar_state (f r) = ActivityState.Completed) →
  (∀ st' w', stepped P st st' w' → state_of st' id = Some ActivityState.Completed →
     wp (k st') Q E w') →
  wp (st' ← lift (complete_activity id out f st);
      st' ← emit_checkpoint st' (ActivityCompleted id out); k st') Q E w.
Proof.
  intros HI Hid Hcore Hcl Hnc HP Hf Hk. apply wp_lift_bind. unfold complete_activity.
  destruct (update_record id f st) as [st1|s] eqn:Hup; cbn [mbind outcome_bind];
    [|apply update_record_stop in Hup as ->; done].
  apply update_record_Ret in Hup as (r & Hr & ->).
  eapply wp_call; [eapply (wp_emit_checkpoint [ActivityCompleted id out]);
    [done|done| |by right|]|].
  - by apply core_complete.
  - intros id' s'. change (state_of (with_activities (insert id (f r)) st) id' = Some s' →
      in_flight s' = false). apply clean_insert; [by rewrite Hf|done].
  - intros st' w' (HI' & Hsn & Hsame & _ & Hst & Hg). apply Hk.
    + split; try done. eapply evolves_trans; [by apply (evolves_insert P st id (f r))|].
      split; [by rewrite (sa_id _ _ Hsame)|..]; intros id'; rewrite (same_state_of _ st') by done; done.
    + rewrite (same_state_of _ st') by done.
      change (state_of (with_activities (insert id (f r)) st) id = Some ActivityState.Completed).
      by rewrite state_of_insert, decide_True, Hf.
Qed.

Lemma stepped_refl P st w :
  I w → snap w c = Some st → good st (log w c) → stepped P st st w.
Proof. intros. by split; try apply evolves_refl. Qed.

Lemma stepped_trans P st1 st2 st3 w1 w2 :
  stepped P st1 st2 w1 → stepped P st2 st3 w2 → stepped P st1 st3 w2.
Proof.
  intros [_ _ He1 _ Hs1] [? ? He2 ? Hs2]. split; try done; [|congruence].
  by eapply evolves_trans.
Qed.

Lemma stepped_mono (P P' : string → Prop) st st' w :
  (∀ id, P id → P' id) → stepped P st st' w → stepped P' st st' w.
Proof. intros HP [? ? ? ? ?]. split; try done. by eapply evolves_mono. Qed.

Lemma stepped_id P st st' w :
  stepped P st st' w → es_execution_id st = c → es_execution_id st' = c.
Proof. intros [_ _ He _ _] <-. apply (ev_id _ _ _ He). Qed.

Notation anything := (λ _ : string, True).

Lemma wp_apply_skips_go fuel d st w :
  I w → es_execution_id st = c → snap w c = Some st → good st (log w c) →
  unsettled d st < fuel →
  wp (apply_skips_go fuel d st) (λ st' w', stepped anything st st' w' ∧
    unsettled d st' ≤ unsettled d st ∧
    ∀ id, id ∈ activity_ids d → not_dead d st' id) E w.
Proof.
  revert st w. induction fuel as [|fuel IH]; intros st w HI Hid Hsn Hg Hf; [lia|]. simpl.
  pose proof (find_skip_spec d st (spec_activities (def_spec d))) as Hskip.
  apply wp_lift_bind. destruct (find_skip d st _) as [[id|]|s]; simpl in Hskip.
  - destruct Hskip as (Hin & Hh & (s & Hs & Hsk) & Hedges).
    assert (state_of st id ≠ Some ActivityState.Completed) as Hnc
      by (rewrite Hs; intros [= ->]; done).
    destruct Hg as [Hcore Hcl].
    eapply wp_call.
    { eapply (wp_emit_checkpoint []); [done|done| |by left|].
      - by apply core_set_activity.
      - apply clean_set_activity; [done|]. intros id' s' _. apply Hcl. }
    intros st1 w1 (HI1 & Hsn1 & Hsame & _ & Hst & Hg1).
    assert (stepped anything st st1 w1) as Hstep1.
    { split; try done. eapply evolves_trans; [by apply evolves_set_activity|by apply same_evolves]. }
    assert (state_of st1 id = Some ActivityState.Skipped) as Hid1.
    { rewrite (same_state_of _ st1) by done.
      by rewrite state_of_set_activity, decide_True, Hs. }
    assert (unsettled d st1 < unsettled d st) as Hlt.
    { apply unsettled_lt with id; [|done| |].
      - apply (evolves_settles (eq id)); [|intros id' _ <-].
        + eapply evolves_trans; [by apply (evolves_set_activity (eq id))|by apply same_evolves].
        + unfold settled. rewrite Hs. by destruct s.
      - unfold settled. rewrite Hs. by destruct s.
      - unfold settled. by rewrite Hid1. }
    eapply wp_mono; [apply IH| |done].
    + done.
    + by eapply stepped_id.
    + done.
    + done.
    + lia.
    + intros st2 w2 (Hstep2 & Hle & Hnd). split; [by eapply stepped_trans|]. split; [lia|done].
  - apply wp_ret. split; [by apply stepped_refl|done].
  - by subst.
Qed.

Lemma wp_apply_skips d st w :
  I w → es_execution_id st = c → snap w c = Some st → good st (log w c) →
  wp (apply_skips d st) (λ st' w', stepped anything st st' w' ∧
    unsettled d st' ≤ unsettled d st ∧
    ∀ id, id ∈ activity_ids d → not_dead d st' id) E w.
Proof.
  intros. apply wp_apply_skips_go; try done. pose proof (unsettled_le d st). lia.
Qed.

(** *** One activity, sequentially *)

Lemma wp_run_activity_go fuel act policy st w :
  I w → es_execution_id st = c → good st (log w c) → is_u32 (max_attempts policy) →
  state_of st (act_id act) ≠ Some ActivityState.Completed → ¬ keep (act_id act) →
  (∀ r, es_activities st !! act_id act = Some r →
     attempts_left (max_attempts policy) (ar_attempts r) ≤ fuel) →
  0 < fuel →
  wp (run_activity_go eng fuel act policy st) (λ '(st', step) w',
    stepped (eq (act_id act)) st st' w' ∧
    (step = StepCompleted → state_of st' (act_id act) = Some ActivityState.Completed)) E w.
Proof.
  intros HI Hid Hg Hp Hnc Hk Hleft Hfuel. revert st w HI Hid Hg Hnc Hleft.
  set (id := act_id act). induction fuel as [|fuel IH]; intros st w HI Hid Hg Hnc Hleft; [lia|].
  cbn [run_activity_go]. fold id. apply wp_lift_bind.
  destruct (record st id) as [r|s] eqn:Hr; [|apply record_stop in Hr as ->; done].
  apply record_Ret in Hr. specialize (Hleft r Hr). destruct Hg as [Hcore Hcl].
  set (attempt := u32_wrapping_add (ar_attempts r) 1).
  set (st1 := set_activity id ActivityState.Running st).
  assert (state_of st1 id = Some ActivityState.Running) as Hrun.
  { unfold st1. rewrite state_of_set_activity, decide_True by done. unfold state_of. by rewrite Hr. }
  assert (core [] st1 (log w c)) as Hcore1 by by apply core_set_activity.
  assert (clean_but (eq id) st1) as Hcl1 by by apply clean_but_set_activity.
  eapply wp_call; [apply (wp_emit []); [done..|by left]|].
  intros st2 w2 (HI2 & _ & Hsame2 & _ & Hst2 & Hcore2).
  rewrite (sa_id _ _ Hsame2). change (es_execution_id st1) with (es_execution_id st). rewrite Hid.
  eapply wp_call; [by apply wp_call_executor|]. intros ex w3 (HI3 & _ & Hlog3).
  eapply wp_call; [apply wp_emit_all; [done|by rewrite (sa_id _ _ Hsame2)|by rewrite Hlog3]|].
  intros st4 w4 (HI4 & _ & Hsame4 & _ & Hst4 & Hcore4).
  assert (same_activities st1 st4) as Hsame by by eapply same_activities_trans.
  assert (es_execution_id st4 = c) as Hid4 by (by rewrite (sa_id _ _ Hsame)).
  assert (state_of st4 id = Some ActivityState.Running) as Hrun4 by by rewrite (same_state_of st1).
  assert (state_of st4 id ≠ Some ActivityState.Completed) as Hnc4 by congruence.
  assert (clean_but (eq id) st4) as Hcl4 by (by eapply same_clean_but).
  assert (evolves (eq id) st st4) as Hev.
  { eapply evolves_trans; [by apply evolves_set_activity|by apply same_evolves]. }
  assert (es_status st4 = es_status st) as Hstat by (rewrite Hst4, Hst2; done).
  assert (∀ st' w', stepped (eq id) st4 st' w' → stepped (eq id) st st' w') as Hback.
  { intros st' w' [? ? ? ? ?]. split; try done; [by eapply evolves_trans|congruence]. }
  assert (∀ msg, wp (terminal_activity_failure st4 id attempt msg) (λ '(st', step) w',
    stepped (eq id) st st' w' ∧
    (step = StepCompleted → state_of st' id = Some ActivityState.Completed)) E w4) as Hterm.
  { intros msg. eapply wp_mono; [by eapply (wp_terminal_failure _ _ _ _ _ (eq id))| |done].
    intros [st' step] w' (Hstep & m & ->). split; [by apply Hback|done]. }
  destruct (exec_result ex) as [[msg|msg|msg]|output].
  - destruct (Z.leb_spec (max_attempts policy) attempt) as [Hle|Hlt]; [apply Hterm|].
    eapply (wp_update_checkpoint _ id _ _ _ _ _ (eq id)); try done.
    intros st5 w5 Hstep5 Hst5. apply Hback in Hstep5.
    eapply wp_call; [apply wp_sleep; apply Hstep5|]. intros [] w6 (HI6 & Hsn6 & Hlog6).
    assert (stepped (eq id) st st5 w6) as Hstep6.
    { destruct Hstep5 as [? ? ? ? ?]. split; try done; by rewrite ?Hsn6, ?Hlog6. }
    pose proof (attempts_left_lt _ _ Hp Hlt) as Hdec.
    assert (∃ r4, es_activities st4 !! id = Some r4) as [r4 Hr4].
    { unfold state_of in Hrun4. by apply fmap_Some in Hrun4 as (r4 & ? & _); exists r4. }
    pose proof (Hst5 r4 Hr4) as Hst5'.
    eapply wp_mono; [apply IH| |done].
    + pose proof (attempts_left_pos (max_attempts policy) attempt (proj1 Hp)) as Hpos.
      fold attempt in Hdec. lia.
    + done.
    + by eapply stepped_id.
    + eapply sp_good, Hstep6.
    + unfold state_of. rewrite Hst5'. simpl. congruence.
    + intros r' Hr'. rewrite Hst5' in Hr'. injection Hr' as <-. simpl. fold attempt in Hdec. lia.
    + intros [st' step] w' [Hstep Hdone]. split; [by eapply stepped_trans|done].
  - apply Hterm.
  - apply wp_lift_bind.
    destruct (update_record id (rec_state ActivityState.Ready) st4) as [st5|s] eqn:Hup;
      [|apply update_record_stop in Hup as ->; done].
    apply update_record_Ret in Hup as (r4 & Hr4 & ->).
    eapply wp_call; [apply wp_checkpoint; [done|done|split]|].
    + by apply core_insert.
    + by apply clean_insert.
    + intros [] w5 (HI5 & Hsn5 & Hlog5). apply wp_ret. split; [|done]. apply Hback.
      split; try done; [by apply evolves_insert|]. rewrite Hlog5. split; [by apply core_insert|by apply clean_insert].
  - destruct (check_output_size eng id output); [apply Hterm|].
    eapply (wp_complete_checkpoint _ id _ _ _ _ _ (eq id)); try done.
    intros st5 w5 Hstep5 Hst5. apply wp_ret. split; [by apply Hback|done].
Qed.

(** *** [wait] *)

Lemma wp_on_timers {A} (f : T → T * outcome A) w :
  I w → (∀ t, settles (f t).2) →
  wp (on_timers f) (λ _ w', I w' ∧ snap w' c = snap w c ∧ log w' c = log w c) E w.
Proof.
  intros HI Hf. unfold wp, on_timers. destruct (w_timers w) as [t|]; [|done].
  specialize (Hf t). destruct (f t) as [t' [a|s]]; simpl in *.
  - split; [|done]. by eapply during_same.
  - split; [by eapply during_same|]. by destruct s.
Qed.

Lemma wp_register_deadline id tw deadline st w :
  I w → es_execution_id st = c → core [] st (log w c) →
  wp (register_deadline id tw deadline st) (λ st' w', I w' ∧
    same_activities st st' ∧ es_status st' = es_status st ∧ core [] st' (log w' c)) E w.
Proof.
  intros HI Hid Hcore. unfold register_deadline.
  destruct (es_variables st !! timer_marker (tw_id tw)); [by apply wp_ret|].
  apply wp_gets_bind. destruct (w_timers w); [|done].
  apply wp_gets_bind.
  eapply wp_call; [apply wp_on_timers; [done|intros; apply schedule_settles]|].
  intros o w1 (HI1 & _ & Hlog1).
  eapply wp_mono; [apply (wp_emit []); [done|done| |by left]| |done].
  - rewrite Hlog1. by eapply (core_same _ st).
  - intros st2 w2 (HI2 & _ & Hsame & _ & Hs & Hc). split; [done|]. split; [|done].
    by eapply same_activities_trans; [apply same_with_variables|].
Qed.

Lemma wp_run_wait act st w :
  I w → es_execution_id st = c → good st (log w c) →
  state_of st (act_id act) ≠ Some ActivityState.Completed →
  wp (run_wait st act) (λ '(st', step) w',
    stepped (eq (act_id act)) st st' w' ∧
    (step = StepCompleted → state_of st' (act_id act) = Some ActivityState.Completed)) E w.
Proof.
  intros HI Hid [Hcore Hcl] Hnc. set (id := act_id act) in *. unfold run_wait. fold id.
  apply wp_lift_bind. destruct (WaitSpec_from_inputs id (act_inputs act)) as [spec|e]; [|done].
  cbn [of_result]. destruct (es_variables st !! variable_key spec) as [payload|] eqn:Hv.
  - apply wp_lift_bind.
    destruct (update_record id _ st) as [st1|s] eqn:Hup;
      [|apply update_record_stop in Hup as ->; done].
    apply update_record_Ret in Hup as (r & Hr & ->).
    set (st1 := with_activities _ st).
    set (st2 := push_completed id (with_variables (insert id payload) st1)).
    eapply (wp_call _ _ (λ st3 w3, I w3 ∧ same_activities st2 st3 ∧
      es_status st3 = es_status st ∧ es_version st3 = es_version st ∧ log w3 c = log w c)).
    { destruct spec as [name|tw]; [by apply wp_ret|].
      destruct (tw_deadline tw); [|by apply wp_ret].
      eapply wp_call; [apply wp_on_timers; [done|intros; apply cancel_settles]|].
      intros o w1 (HI1 & _ & Hlog1). by apply wp_ret. }
    intros st3 w3 (HI3 & Hsame3 & Hs3 & Hv3 & Hlog3).
    assert (core [ActivityCompleted id payload] st2 (log w c)) as Hcore2
      by by apply core_complete.
    eapply wp_call.
    { eapply (wp_emit_checkpoint [ActivityCompleted id payload]); [done| | |by right|].
      - by rewrite (sa_id _ _ Hsame3).
      - rewrite Hlog3. by eapply core_same.
      - intros id' s. rewrite (same_state_of st2) by done.
        change (state_of st1 id' = Some s → in_flight s = false).
        apply clean_insert; [done|]. intros id'' s'' _. apply Hcl. }
    intros st4 w4 (HI4 & Hsn4 & Hsame4 & _ & Hs4 & Hg4). apply wp_ret.
    assert (same_activities st2 st4) as Hsame by by eapply same_activities_trans.
    split.
    + split; try done; [|congruence]. eapply evolves_trans; [|by apply same_evolves].
      by apply evolves_push, evolves_insert.
    + intros _. rewrite (same_state_of st2) by done.
      change (state_of st1 id = Some ActivityState.Completed). unfold st1.
      by rewrite state_of_insert, decide_True.
  - eapply (wp_call _ _ (λ st3 w3, I w3 ∧ same_activities st st3 ∧
      es_status st3 = es_status st ∧ core [] st3 (log w3 c))).
    { destruct spec as [name|tw]; [by apply wp_ret|].
      destruct (tw_deadline tw); [|by apply wp_ret]. by apply wp_register_deadline. }
    intros st3 w3 (HI3 & Hsame3 & Hs3 & Hc3).
    assert (state_of st3 id ≠ Some ActivityState.Completed) as Hnc3
      by by rewrite (same_state_of st).
    eapply wp_call.
    { eapply (wp_emit_checkpoint []); [done| | |by left|].
      - simpl. by rewrite (sa_id _ _ Hsame3).
      - by apply core_set_activity.
      - apply clean_set_activity; [done|]. eapply same_clean_but; [done|].
        intros id' s _. apply Hcl. }
    intros st4 w4 (HI4 & Hsn4 & Hsame4 & _ & Hs4 & Hg4). apply wp_ret. split; [|done].
    split; try done; [|rewrite Hs4; done].
    eapply evolves_trans; [by apply same_evolves|].
    eapply evolves_trans; [by apply (evolves_set_activity (eq id))|by apply same_evolves].
Qed.

(** *** Concurrent tasks *)

(** [names i] is the activity task [i] runs. *)
Definition task_ok (names : nat → option string) (it : nat * Task) : Prop :=
  names it.1 = Some (task_id it.2) ∧ ¬ keep (task_id it.2) ∧
  is_u32 (max_attempts (task_policy it.2)).
Definition set_ok (names : nat → option string) (set : JoinSet) : Prop :=
  Forall (task_ok names) (js_running set) ∧
  Forall (λ io, names io.1 = Some (iso_id io.2)) (js_done set).
Definition set_size (set : JoinSet) : nat := length (js_running set) + length (js_done set).

Definition task_left (t : Task) : nat :=
  attempts_left (max_attempts (task_policy t)) (task_attempt t).
Definition set_left (set : JoinSet) : nat := sum_list (map (λ it, task_left it.2) (js_running set)).

Lemma wp_attempt_step t w :
  I w → ¬ keep (task_id t) → is_u32 (max_attempts (task_policy t)) →
  wp (attempt_step c t) (λ r w', I w' ∧ snap w' c = snap w c ∧ log w' c = log w c ∧
    match r with
    | inl t' => task_id t' = task_id t ∧ task_policy t' = task_policy t ∧
        task_left t' < task_left t
    | inr o => iso_id o = task_id t
    end) E w.
Proof.
  intros HI Hk Hp. unfold attempt_step.
  eapply wp_call; [by apply wp_call_executor|]. intros ex w1 (HI1 & Hsn1 & Hl1).
  destruct (exec_result ex) as [[msg|msg|msg]|output]; try by apply wp_ret.
  destruct (Z.leb_spec (max_attempts (task_policy t)) (u32_wrapping_add (task_attempt t) 1));
    [by apply wp_ret|].
  eapply wp_call; [by apply wp_sleep|]. intros [] w2 (HI2 & Hsn2 & Hl2).
  apply wp_ret. split; [done|]. split; [congruence|]. split; [congruence|].
  split; [done|]. split; [done|]. by apply attempts_left_lt.
Qed.

Lemma sum_list_insert (f : nat * Task → nat) l i x y :
  l !! i = Some x → sum_list (map f (<[i := y]> l)) + f x = sum_list (map f l) + f y.
Proof.
  revert i. induction l as [|z l IH]; intros [|i] Hi; simpl in *; try done.
  - injection Hi as ->. lia.
  - specialize (IH i Hi). lia.
Qed.

Lemma sum_list_delete (f : nat * Task → nat) l i x :
  l !! i = Some x → sum_list (map f (delete i l)) + f x = sum_list (map f l).
Proof.
  revert i. induction l as [|z l IH]; intros [|i] Hi; simpl in *; try done.
  - injection Hi as ->. lia.
  - specialize (IH i Hi). lia.
Qed.

Lemma wp_join_next_go names fuel set w :
  I w → set_ok names set → set_left set < fuel →
  wp (join_next_go fuel c set) (λ '(o, set') w', I w' ∧ snap w' c = snap w c ∧ log w' c = log w c ∧
    match o with
    | None => set_size set = 0
    | Some (i, outcome) => names i = Some (iso_id outcome) ∧ set_ok names set' ∧
        S (set_size set') = set_size set
    end) E w.
Proof.
  revert set w. induction fuel as [|fuel IH]; intros set w HI Hok Hf; [lia|]. cbn [join_next_go].
  destruct (Nat.eqb_spec (length (js_done set) + length (js_running set)) 0) as [H0|Hn0].
  { apply wp_ret. split; [done|]. split; [done|]. split; [done|]. unfold set_size. lia. }
  eapply wp_call; [by apply wp_next_choice|]. intros choice w1 (HI1 & Hsn1 & Hl1).
  set (i := Nat.modulo choice _).
  assert (i < length (js_done set) + length (js_running set)) as Hi
    by by apply Nat.mod_upper_bound.
  destruct Hok as [Hrun Hdone].
  destruct (js_done set !! i) as [[j o]|] eqn:Hd.
  { apply wp_ret. split; [done|]. split; [done|]. split; [done|].
    pose proof (Forall_lookup_1 _ _ _ _ Hdone Hd) as Hname. split; [done|]. split.
    - split; simpl; [done|]. by apply Forall_delete.
    - unfold set_size. simpl. apply lookup_lt_Some in Hd as Hlt.
      rewrite length_delete by eauto. lia. }
  apply lookup_ge_None in Hd.
  destruct (js_running set !! (i - length (js_done set))) as [[j t]|] eqn:Hr.
  2: { apply lookup_ge_None in Hr. lia. }
  pose proof (Forall_lookup_1 _ _ _ _ Hrun Hr) as (Hname & Hk & Hp). simpl in *.
  eapply wp_call; [by apply wp_attempt_step|]. intros r w2 (HI2 & Hsn2 & Hl2 & Hr2).
  assert (0 < task_left t) as Hpos by (apply attempts_left_pos, Hp).
  destruct r as [t'|o].
  - destruct Hr2 as (Hid & Hpol & Hlt).
    eapply wp_mono; [apply IH; [done|split; simpl; [|done]|]| |done].
    + apply Forall_insert; [done|]. split; simpl; [by rewrite Hid|]. by rewrite Hid, Hpol.
    + unfold set_left in *. simpl.
      pose proof (sum_list_insert (λ it, task_left it.2) _ _ _ (j, t') Hr). simpl in *. lia.
    + intros [o set'] w3 (HI3 & Hsn3 & Hl3 & Ho). split; [done|]. split; [congruence|].
      split; [congruence|]. unfold set_size in *. simpl in *. by rewrite length_insert in Ho.
  - assert (length (delete (i - length (js_done set)) (js_running set)) + 1 =
      length (js_running set)) as Hlen.
    { rewrite length_delete by eauto. apply lookup_lt_Some in Hr. lia. }
    eapply wp_mono; [apply IH; [done|split; simpl|]| |done].
    + by apply Forall_delete.
    + apply Forall_app. split; [done|]. apply Forall_singleton. simpl. congruence.
    + unfold set_left in *. simpl.
      pose proof (sum_list_delete (λ it, task_left it.2) _ _ _ Hr). simpl in *. lia.
    + intros [o' set'] w3 (HI3 & Hsn3 & Hl3 & Ho). split; [done|]. split; [congruence|].
      split; [congruence|]. unfold set_size in *. simpl in *. rewrite length_app in Ho. simpl in Ho.
      destruct o' as [[j' o']|]; [|lia]. destruct Ho as (? & ? & ?). split; [done|]. split; [done|]. lia.
Qed.

Lemma set_left_fuel names set : set_ok names set → set_left set < join_fuel set.
Proof.
  intros [Hrun _]. unfold set_left, join_fuel. apply Nat.lt_succ_r.
  induction Hrun as [|it l (_ & _ & Hp) _ IH]; cbn [map sum_list sum_list_with]; [done|].
  pose proof (attempts_left_fuel (task_policy it.2) (task_attempt it.2) (proj1 Hp)).
  unfold task_left at 1, id. apply Nat.add_le_mono; [done|exact IH].
Qed.

Lemma wp_join_next names set w :
  I w → set_ok names set →
  wp (join_next c set) (λ '(o, set') w', I w' ∧ snap w' c = snap w c ∧ log w' c = log w c ∧
    match o with
    | None => set_size set = 0
    | Some (i, outcome) => names i = Some (iso_id outcome) ∧ set_ok names set' ∧
        S (set_size set') = set_size set
    end) E w.
Proof. intros HI Hok. apply wp_join_next_go; try done. by eapply set_left_fuel. Qed.

(** *** The concurrent batch *)

Lemma wp_join_all names fuel set slots w :
  I w → set_ok names set → set_size set < fuel →
  (∀ i o, slots !! i = Some (Some o) → names i = Some (iso_id o)) →
  wp (join_all fuel c set slots) (λ slots' w', I w' ∧ snap w' c = snap w c ∧ log w' c = log w c ∧
    length slots' = length slots ∧
    ∀ i o, slots' !! i = Some (Some o) → names i = Some (iso_id o)) E w.
Proof.
  revert set slots w. induction fuel as [|fuel IH]; intros set slots w HI Hok Hf Hslots; [lia|].
  cbn [join_all]. eapply wp_call; [by eapply wp_join_next|].
  intros [[[i o]|] set'] w1 (HI1 & Hsn1 & Hl1 & Ho); [|by apply wp_ret].
  destruct Ho as (Hname & Hok' & Hsize).
  destruct (Nat.ltb_spec i (length slots)); [|done].
  eapply wp_mono; [apply (IH set'); [done|done|lia|]| |done].
  - intros j o' Hj. destruct (decide (i = j)) as [->|Hne].
    + rewrite list_lookup_insert_eq in Hj by done. by injection Hj as <-.
    + rewrite list_lookup_insert_ne in Hj by done. by apply Hslots.
  - intros slots' w2 (HI2 & Hsn2 & Hl2 & Hlen & Hslots').
    rewrite length_insert in Hlen. split; [done|]. split; [congruence|]. split; [congruence|].
    split; [done|done].
Qed.

(** What committing one outcome does: its activity settles, or reports. *)
Lemma wp_commit_member st cr o w (P : string → Prop) :
  I w → es_execution_id st = c → good st (log w c) →
  state_of st (iso_id o) ≠ Some ActivityState.Completed → P (iso_id o) →
  wp (commit_member st cr o) (λ '(st', cr') w', stepped P st st' w' ∧
    (∀ id, id ≠ iso_id o → state_of st' id = state_of st id) ∧
    (cr_failure cr' = None → cr_interrupt cr' = None →
     cr_failure cr = None ∧ cr_interrupt cr = None ∧
     state_of st' (iso_id o) = Some ActivityState.Completed)) E w.
Proof.
  intros HI Hid [Hcore Hcl] Hnc HP. unfold commit_member. set (id := iso_id o) in *.
  set (st1 := set_activity id ActivityState.Running st).
  assert (state_of st1 id ≠ Some ActivityState.Completed) as Hnc1.
  { unfold st1. rewrite state_of_set_activity, decide_True by done. by destruct (state_of st id). }
  eapply wp_call; [apply wp_emit_all; [done|done|by apply core_set_activity]|].
  intros st2 w2 (HI2 & _ & Hsame2 & _ & Hs2 & Hcore2).
  assert (es_execution_id st2 = c) as Hid2 by (by rewrite (sa_id _ _ Hsame2)).
  assert (state_of st2 id ≠ Some ActivityState.Completed) as Hnc2 by by rewrite (same_state_of st1).
  assert (clean_but (eq id) st2) as Hcl2.
  { eapply same_clean_but; [done|]. by apply clean_but_set_activity. }
  assert (∀ Q, Q id → evolves Q st st2) as Hev.
  { intros Q HQ. eapply evolves_trans; [by apply evolves_set_activity|by apply same_evolves]. }
  assert (∀ st' w', stepped (eq id) st2 st' w' → stepped P st st' w' ∧
    ∀ id', id' ≠ id → state_of st' id' = state_of st id') as Hback.
  { intros st' w' [? ? He ? Hst]. split.
    - split; try done; [|rewrite Hst, Hs2; done]. eapply evolves_trans; [by apply Hev|].
      eapply evolves_mono; [|done]. by intros ? <-.
    - intros id' Hne. rewrite (ev_outside _ _ _ He) by congruence.
      apply (ev_outside _ _ _ (Hev (eq id) eq_refl)). congruence. }
  destruct (iso_result o) as [output|msg|msg].
  - eapply (wp_complete_checkpoint _ id _ _ _ _ _ (eq id)); try done.
    intros st' w' Hst Hdone. apply wp_ret. apply Hback in Hst as [? ?].
    split; [done|]. split; [done|]. by intros ? ?.
  - eapply (wp_update_checkpoint _ id _ _ _ _ _ (eq id)); try done.
    intros st' w' Hst _. apply wp_ret. apply Hback in Hst as [? ?].
    split; [done|]. split; [done|]. simpl. by destruct (cr_failure cr).
  - set (st3 := set_activity id ActivityState.Ready st2).
    assert (good st3 (log w2 c)) as Hg3.
    { split; [by apply core_set_activity|by apply clean_set_activity]. }
    eapply wp_call; [by apply wp_checkpoint|]. intros [] w3 (HI3 & Hsn3 & Hl3). apply wp_ret.
    assert (stepped (eq id) st2 st3 w3) as Hst3.
    { split; try done; [by apply evolves_set_activity|by rewrite Hl3]. }
    apply Hback in Hst3 as [? ?]. split; [done|]. split; [done|]. simpl. by destruct (cr_interrupt cr).
Qed.

Lemma wp_commit_members st cr slots batch w (P : string → Prop) :
  I w → es_execution_id st = c → snap w c = Some st → good st (log w c) →
  length slots = length batch →
  (∀ i o, slots !! i = Some (Some o) → batch !! i = Some (iso_id o)) → NoDup batch →
  (∀ id, id ∈ batch → state_of st id ≠ Some ActivityState.Completed ∧ P id) →
  wp (commit_members st cr slots) (λ '(st', cr') w', stepped P st st' w' ∧
    (cr_failure cr' = None → cr_interrupt cr' = None →
     cr_failure cr = None ∧ cr_interrupt cr = None ∧
     ∀ id, id ∈ batch → state_of st' id = Some ActivityState.Completed)) E w.
Proof.
  revert st cr batch w. induction slots as [|slot slots IH];
    intros st cr batch w HI Hid Hsn Hg Hlen Hnames Hnd Hbatch; simpl.
  - apply wp_ret. split; [by apply stepped_refl|]. intros ? ?. split; [done|]. split; [done|].
    destruct batch; [|done]. by intros ? ?%not_elem_of_nil.
  - destruct batch as [|id batch]; [done|]. simpl in Hlen.
    apply wp_lift_bind. destruct slot as [o|]; [|done]. simpl.
    assert (iso_id o = id) as Hoid by (specialize (Hnames 0 o eq_refl); simpl in Hnames; congruence).
    apply NoDup_cons in Hnd as [Hnin Hnd].
    destruct (Hbatch id) as [Hnc HP]; [set_solver|].
    eapply wp_call; [apply (wp_commit_member _ _ _ _ P); by rewrite ?Hoid|].
    rewrite Hoid. intros [st1 cr1] w1 (Hst1 & Hother & Hcr1).
    eapply wp_mono; [apply (IH st1 cr1 batch)| |done].
    + by eapply sp_during.
    + by eapply stepped_id.
    + by eapply sp_snap.
    + by eapply sp_good.
    + lia.
    + intros i o' Hi. by apply (Hnames (S i)).
    + done.
    + intros id' Hid'. destruct (Hbatch id') as [? ?]; [set_solver|]. split; [|done].
      rewrite Hother; [done|]. by intros ->.
    + intros [st2 cr2] w2 (Hst2 & Hcr2). split; [by eapply stepped_trans|].
      intros Hf Hi. destruct (Hcr2 Hf Hi) as (Hf1 & Hi1 & Hall).
      destruct (Hcr1 Hf1 Hi1) as (? & ? & Hdone). split; [done|]. split; [done|].
      intros id' Hid'. assert (id' = id ∨ id' ∈ batch) as [->|?] by set_solver; [|by apply Hall].
      by apply (ev_completed _ _ _ (sp_evolves _ _ _ _ Hst2)).
Qed.

Lemma spawn_ok names i t set :
  set_ok names set → task_ok names (i, t) → set_ok names (spawn i t set).
Proof.
  intros [Hrun Hdone] Ht. split; simpl; [|done]. apply Forall_app. split; [done|].
  by apply Forall_singleton.
Qed.

Lemma spawn_batch_ok d st batch set idx names :
  set_ok names set → (∀ i id, batch !! i = Some id → names (idx + i) = Some id) →
  (∀ id, id ∈ batch → ¬ keep id) → (∀ id, is_u32 (max_attempts (retry_for d id))) →
  match spawn_batch d st batch idx set with
  | Ret set' => set_ok names set' ∧ set_size set' = set_size set + length batch
  | Stop s => s = Panicked
  end.
Proof.
  revert idx set. induction batch as [|id batch IH]; intros idx set Hok Hn Hk Hp; simpl.
  - split; [done|lia].
  - unfold batch_task. destruct (activity d id) as [a|]; simpl; [|done].
    destruct (record st id) as [r|s] eqn:Hr; simpl; [|by apply record_stop in Hr].
    set (t := {| task_id := id; task_activity := a; task_policy := retry_for d id;
                 task_variables := es_variables st; task_attempt := ar_attempts r;
                 task_events := [] |}).
    assert (task_ok names (idx, t)) as Ht.
    { split; [|split]; simpl; [|apply Hk; set_solver|done].
      rewrite <- (Nat.add_0_r idx). by apply Hn. }
    specialize (IH (S idx) (spawn idx t set)).
    destruct (spawn_batch d st batch (S idx) (spawn idx t set)) as [set'|s]; [|apply IH].
    + assert (set_size (spawn idx t set) = S (set_size set)) as Hs.
      { unfold set_size, spawn. simpl. rewrite length_app. simpl. lia. }
      destruct IH as [? Hs']; [..|split; [done|lia]].
      * by apply spawn_ok.
      * intros i id' Hi. rewrite Nat.add_succ_comm. by apply Hn.
      * intros id' Hid'. apply Hk. set_solver.
      * done.
    + by apply spawn_ok.
    + intros i id' Hi. rewrite Nat.add_succ_comm. by apply Hn.
    + intros id' Hid'. apply Hk. set_solver.
    + done.
Qed.

Lemma wp_run_ready_batch d st batch w :
  I w → es_execution_id st = c → snap w c = Some st → good st (log w c) →
  NoDup batch → (∀ id, is_u32 (max_attempts (retry_for d id))) →
  (∀ id, id ∈ batch → state_of st id ≠ Some ActivityState.Completed ∧ ¬ keep id) →
  wp (run_ready_batch d st batch) (λ '(st', step) w',
    stepped (λ id, id ∈ batch) st st' w' ∧
    (step = AllSettled → ∀ id, id ∈ batch → state_of st' id = Some ActivityState.Completed)) E w.
Proof.
  intros HI Hid Hsn Hg Hnd Hp Hbatch. unfold run_ready_batch. apply wp_lift_bind.
  pose proof (spawn_batch_ok d st batch {| js_running := []; js_done := [] |} 0 (λ i, batch !! i)) as Hset.
  destruct (spawn_batch d st batch 0 _) as [set|s].
  2: { rewrite Hset; [done|..]; try done. intros id Hin. by apply Hbatch. }
  destruct Hset as [Hok Hsize]; [done|done|intros id Hin; by apply Hbatch|done|].
  rewrite Hid. eapply wp_call.
  { apply (wp_join_all (λ i, batch !! i)); [done|done| |].
    - rewrite Hsize. unfold set_size. simpl. lia.
    - intros i o Hi. change (map (λ _ : string, None) batch) with
        ((λ _ : string, @None IsolatedOutcome) <$> batch) in Hi.
      apply list_lookup_fmap_Some in Hi as (? & ? & ?). done. }
  intros slots w1 (HI1 & Hsn1 & Hl1 & Hlen & Hslots). rewrite List.length_map in Hlen.
  eapply wp_call.
  { apply (wp_commit_members _ _ _ batch _ (λ id, id ∈ batch)); try done.
    - congruence.
    - by rewrite Hl1.
    - intros id Hin. split; [by apply Hbatch|done]. }
  intros [st' cr] w2 (Hst & Hcr).
  destruct (cr_failure cr) as [msg|] eqn:Ef; [by apply wp_ret|].
  destruct (cr_interrupt cr) as [[a msg]|] eqn:Ei; [by apply wp_ret|].
  apply wp_ret. split; [done|]. intros _. by apply Hcr.
Qed.

(** *** [for_each] *)

(** Like [stepped], but maybe not persisted yet. *)
Record advanced (P : string → Prop) (st st' : ExecutionState) (w : World) : Prop := {
  ad_during : I w;
  ad_evolves : evolves P st st';
  ad_good : good st' (log w c);
  ad_status : es_status st' = es_status st;
}.

Lemma advanced_stepped P st1 st2 st3 w1 w2 :
  advanced P st1 st2 w1 → stepped P st2 st3 w2 → stepped P st1 st3 w2.
Proof.
  intros [_ He1 _ Hs1] [? ? He2 ? Hs2]. split; try done; [|congruence]. by eapply evolves_trans.
Qed.

Lemma advanced_trans P st1 st2 st3 w1 w2 :
  advanced P st1 st2 w1 → advanced P st2 st3 w2 → advanced P st1 st3 w2.
Proof.
  intros [_ He1 _ Hs1] [? He2 ? Hs2]. split; try done; [|congruence]. by eapply evolves_trans.
Qed.

Lemma advanced_id P st st' w :
  advanced P st st' w → es_execution_id st = c → es_execution_id st' = c.
Proof. intros [_ He _ _] <-. apply (ev_id _ _ _ He). Qed.

Lemma advanced_refl P st w : I w → good st (log w c) → advanced P st st w.
Proof. intros. by split; try apply evolves_refl. Qed.

Lemma good_same st st' l :
  same_activities st st' → es_version st' = es_version st → good st l → good st' l.
Proof.
  intros Hs Hv [Hc Hcl]. split; [by eapply core_same|].
  intros id s. rewrite (same_state_of st st') by done. apply Hcl.
Qed.

Lemma wp_complete_for_each st id outputs w (P : string → Prop) :
  I w → es_execution_id st = c → good st (log w c) →
  state_of st id ≠ Some ActivityState.Completed → P id →
  wp (complete_for_each eng st id outputs) (λ '(st', step) w', stepped P st st' w' ∧
    (step = StepCompleted → state_of st' id = Some ActivityState.Completed)) E w.
Proof.
  intros HI Hid [Hcore Hcl] Hnc HP. unfold complete_for_each.
  assert (clean_but (eq id) st) as Hcb by by apply clean_weaken.
  destruct (check_output_size eng id (Array outputs)) as [msg|].
  - apply wp_lift_bind. destruct (record st id) as [r|s] eqn:Hr;
      [|apply record_stop in Hr as ->; done].
    eapply wp_mono; [by apply (wp_terminal_failure _ _ _ _ _ P)| |done].
    intros [st' step] w' (Hstep & m & ->). done.
  - eapply (wp_complete_checkpoint _ id _ _ _ _ _ P); try done.
Qed.

Lemma wp_expand st act spec w :
  I w → es_execution_id st = c → good st (log w c) →
  state_of st (act_id act) ≠ Some ActivityState.Completed →
  wp (expand st act spec) (λ '(st', r) w',
    match r with
    | inl _ => I w' ∧ same_activities st st' ∧ es_status st' = es_status st ∧ good st' (log w' c)
    | inr step => stepped (eq (act_id act)) st st' w' ∧ ∃ m, step = StepFailed m
    end) E w.
Proof.
  intros HI Hid Hg Hnc. set (id := act_id act) in *. unfold expand. fold id.
  pose proof Hg as [Hcore Hcl].
  assert (clean_but (eq id) st) as Hcb by by apply clean_weaken.
  set (body := mbind _ _).
  assert (wp body (λ '(st', r) w',
    match r with
    | inl _ => I w' ∧ same_activities st st' ∧ es_status st' = es_status st ∧ good st' (log w' c)
    | inr step => stepped (eq id) st st' w' ∧ ∃ m, step = StepFailed m
    end) E w) as Hbody.
  { unfold body. apply wp_lift_bind. destruct (record st id) as [r|s] eqn:Hr;
      [|apply record_stop in Hr as ->; done].
    assert (∀ msg, wp ('(st', step) ← terminal_activity_failure st id
        (u32_wrapping_add (ar_attempts r) 1) msg; mret (M := M) (st', @inr (list Value) Step step)) (λ '(st', r) w',
      match r with
      | inl _ => I w' ∧ same_activities st st' ∧ es_status st' = es_status st ∧ good st' (log w' c)
      | inr step => stepped (eq id) st st' w' ∧ ∃ m, step = StepFailed m
      end : Prop) E w) as Hfail.
    { intros msg. eapply wp_call; [by apply (wp_terminal_failure _ _ _ _ _ (eq id))|].
      intros [st' step] w' Hstep. by apply wp_ret. }
    destruct (template_resolve _ _); try apply Hfail.
    case_match; [apply Hfail|].
    eapply wp_call; [apply wp_checkpoint; [done|done|]|].
    { by apply (good_same st). }
    intros [] w' (HI' & _ & Hl'). apply wp_ret. split; [done|]. split; [done|]. split; [done|].
    rewrite Hl'. by apply (good_same st). }
  destruct (es_variables st !! for_each_marker id) as [[]|]; try exact Hbody.
  by apply wp_ret.
Qed.

Lemma ensure_instances_spec id l st :
  let st' := ensure_instances id l st in
  es_execution_id st' = es_execution_id st ∧ es_completed_order st' = es_completed_order st ∧
  es_version st' = es_version st ∧ es_status st' = es_status st ∧
  (∀ x s, state_of st x = Some s → state_of st' x = Some s) ∧
  (∀ x, state_of st x = None → state_of st' x = None ∨
     (state_of st' x = Some ActivityState.Created ∧ instance_of id x)).
Proof.
  revert st. induction l as [|i l IH]; intros st; simpl.
  { repeat split; try done. intros x ->. by left. }
  set (st1 := with_activities _ st). destruct (IH st1) as (Hi & Ho & Hv & Hs & Hsome & Hnone).
  repeat (split; [done|]).
  assert (∀ x, state_of st1 x = match state_of st x with
    | Some s => Some s
    | None => if decide (x = instance_id id i) then Some ActivityState.Created else None
    end) as Hst1.
  { intros x. unfold st1, state_of. simpl.
    destruct (es_activities st !! instance_id id i) as [r|] eqn:E.
    - destruct (es_activities st !! x) eqn:Ex; simpl; [done|]. case_decide; [|done]. congruence.
    - rewrite lookup_insert. case_decide as Hx; [subst; rewrite E; simpl; by rewrite decide_True|].
      destruct (es_activities st !! x); simpl; [done|]. by rewrite decide_False. }
  split.
  - intros x s Hx. apply Hsome. by rewrite Hst1, Hx.
  - intros x Hx. specialize (Hst1 x). rewrite Hx in Hst1. case_decide as Hxi.
    + right. split; [by apply Hsome|]. by exists i.
    + by apply Hnone.
Qed.

Lemma ensure_instances_advanced id l st w :
  I w → good st (log w c) → advanced (instance_of id) st (ensure_instances id l st) w.
Proof.
  intros HI [Hcore Hcl]. destruct (ensure_instances_spec id l st) as (Hi & Ho & Hv & Hs & Hsome & Hnone).
  set (st' := ensure_instances id l st) in *.
  assert (evolves (instance_of id) st st') as He.
  { split; [done|auto|]. intros x Hx. destruct (state_of st x) as [s|] eqn:E; [by apply Hsome|].
    by destruct (Hnone x E) as [|[_ Hi']]. }
  split; try done. split; [by eapply core_evolves|].
  intros x s Hx. destruct (state_of st x) as [s'|] eqn:E.
  - pose proof (Hsome x s' E) as Hx'. rewrite Hx in Hx'. injection Hx' as ->. by apply (Hcl x).
  - destruct (Hnone x E) as [Hn|[Hc _]]; [congruence|]. rewrite Hx in Hc. by injection Hc as ->.
Qed.

Lemma pending_instances_spec id st l :
  match pending_instances id st l with
  | Ret p => p `sublist_of` l ∧
      ∀ i, i ∈ p → state_of st (instance_id id i) ≠ Some ActivityState.Completed
  | Stop s => s = Panicked
  end.
Proof.
  induction l as [|i l IH]; simpl; [split; [done|by intros ? ?%not_elem_of_nil]|].
  destruct (record st (instance_id id i)) as [r|s] eqn:Hr; simpl; [|by apply record_stop in Hr].
  destruct (pending_instances id st l) as [p|s]; simpl; [|done]. destruct IH as [Hsub Hp].
  apply record_Ret in Hr. case_decide as Hd.
  - split; [by apply sublist_cons|done].
  - split; [by apply sublist_skip|]. intros j Hj.
    assert (j = i ∨ j ∈ p) as [->|?] by set_solver; [|by apply Hp].
    unfold state_of. rewrite Hr. simpl. congruence.
Qed.

Lemma instance_task_spec id spec policy snapshot items st i :
  match instance_task id spec policy snapshot items st i with
  | Ret t => task_id t = instance_id id i ∧ task_policy t = policy
  | Stop s => s = Panicked
  end.
Proof.
  unfold instance_task. destruct (items !! i); simpl; [|done].
  destruct (record st (instance_id id i)) as [r|s] eqn:Hr; simpl; [done|].
  by apply record_stop in Hr.
Qed.

Lemma split_at_app {A} n (l : list A) : (split_at n l).1 ++ (split_at n l).2 = l.
Proof.
  revert n. induction l as [|x l IH]; intros n; simpl; [done|].
  destruct (Z.leb n 0); [done|]. specialize (IH (n - 1)%Z).
  destruct (split_at (n - 1) l); simpl in *. by rewrite IH.
Qed.

Section fan_out.
Context (id : string) (pending : list nat) (make : nat → outcome Task).
Hypothesis pending_keep : ∀ i, i ∈ pending → ¬ keep (instance_id id i).
Hypothesis make_ok : ∀ i, match make i with
  | Ret t => task_id t = instance_id id i ∧ is_u32 (max_attempts (task_policy t))
  | Stop s => s = Panicked
  end.

Definition fan_names (i : nat) : option string :=
  if decide (i ∈ pending) then Some (instance_id id i) else None.

Lemma make_spawn_ok i t set :
  i ∈ pending → make i = Ret t → set_ok fan_names set → set_ok fan_names (spawn i t set).
Proof.
  intros Hi Hm Hok. apply spawn_ok; [done|]. specialize (make_ok i). rewrite Hm in make_ok.
  destruct make_ok as [Hid Hp]. split; simpl; [|split; [|done]].
  - unfold fan_names. rewrite decide_True by done. congruence.
  - rewrite Hid. by apply pending_keep.
Qed.

Lemma spawn_all_ok l set :
  (∀ i, i ∈ l → i ∈ pending) → set_ok fan_names set →
  match spawn_all make l set with
  | Ret set' => set_ok fan_names set' ∧ set_size set' = set_size set + length l
  | Stop s => s = Panicked
  end.
Proof.
  revert set. induction l as [|i l IH]; intros set Hl Hok; simpl; [split; [done|lia]|].
  destruct (make i) as [t|s] eqn:Hm; simpl.
  - specialize (IH (spawn i t set)). destruct (spawn_all make l (spawn i t set)) as [set'|s].
    + destruct IH as [? Hs]; [set_solver|apply make_spawn_ok; [set_solver|done|done]|].
      split; [done|]. rewrite Hs. unfold set_size, spawn. simpl. rewrite length_app. simpl. lia.
    + apply IH; [set_solver|apply make_spawn_ok; [set_solver|done|done]].
  - specialize (make_ok i). by rewrite Hm in make_ok.
Qed.

Lemma wp_for_each_join fuel spec set queue fan w :
  I w → set_ok fan_names set → (∀ i, i ∈ queue → i ∈ pending) →
  set_size set + length queue < fuel →
  (∀ i o, fo_slots fan !! i = Some o → fan_names i = Some (iso_id o)) →
  wp (for_each_join fuel c spec make set queue fan) (λ fan' w', I w' ∧ log w' c = log w c ∧
    ∀ i o, fo_slots fan' !! i = Some o → fan_names i = Some (iso_id o)) E w.
Proof.
  revert set queue fan w.
  induction fuel as [|fuel IH]; intros set queue fan w HI Hok Hq Hf Hslots; [lia|].
  cbn [for_each_join]. eapply wp_call; [by eapply wp_join_next|].
  intros [[[i o]|] set'] w1 (HI1 & Hsn1 & Hl1 & Ho); [|by apply wp_ret].
  destruct Ho as (Hname & Hok' & Hsize).
  set (fan1 := {| fo_spent := _ |}).
  assert (∀ j o', fo_slots fan1 !! j = Some o' → fan_names j = Some (iso_id o')) as Hslots1.
  { intros j o'. unfold fan1. simpl. rewrite lookup_insert_Some.
    intros [[<- <-]|[_ Hj]]; [done|by apply Hslots]. }
  clearbody fan1.
  assert (∀ set2 queue2, set_ok fan_names set2 → (∀ i, i ∈ queue2 → i ∈ pending) →
    set_size set2 + length queue2 < fuel →
    wp (for_each_join fuel c spec make set2 queue2 fan1) (λ fan' w', I w' ∧ log w' c = log w c ∧
      ∀ i o, fo_slots fan' !! i = Some o → fan_names i = Some (iso_id o)) E w1) as Hnext.
  { intros set2 queue2 Hok2 Hq2 Hlt. eapply wp_mono; [by apply IH| |done].
    intros fan' w2 (HI2 & Hl2 & Hs2). split; [done|]. split; [congruence|done]. }
  destruct (match fo_over_budget fan with Some _ => _ | None => _ end) as [over|].
  { apply Hnext; [done|done|lia]. }
  destruct queue as [|next queue]; [apply Hnext; [done|done|simpl in *; lia]|].
  apply wp_lift_bind. destruct (make next) as [t|s] eqn:Hm.
  - apply Hnext; [apply make_spawn_ok; [set_solver|done|done]|set_solver|].
    unfold set_size, spawn in *. simpl in *. rewrite length_app. simpl. lia.
  - specialize (make_ok next). rewrite Hm in make_ok. by subst.
Qed.
End fan_out.

Lemma wp_commit_instance st cr i o w (P : string → Prop) :
  I w → es_execution_id st = c → good st (log w c) →
  state_of st (iso_id o) ≠ Some ActivityState.Completed → P (iso_id o) →
  wp (commit_instance st cr i o) (λ '(st', cr') w', advanced P st st' w' ∧
    ∀ x, x ≠ iso_id o → state_of st' x = state_of st x) E w.
Proof.
  intros HI Hid [Hcore Hcl] Hnc HP. unfold commit_instance. set (id := iso_id o) in *.
  set (st1 := set_activity id ActivityState.Running st).
  assert (state_of st1 id ≠ Some ActivityState.Completed) as Hnc1.
  { unfold st1. rewrite state_of_set_activity, decide_True by done. by destruct (state_of st id). }
  eapply wp_call; [apply wp_emit_all; [done|done|by apply core_set_activity]|].
  intros st2 w2 (HI2 & _ & Hsame2 & _ & Hs2 & Hcore2).
  assert (es_execution_id st2 = c) as Hid2 by (by rewrite (sa_id _ _ Hsame2)).
  assert (state_of st2 id ≠ Some ActivityState.Completed) as Hnc2 by by rewrite (same_state_of st1).
  assert (clean_but (eq id) st2) as Hcl2.
  { eapply same_clean_but; [done|]. by apply clean_but_set_activity. }
  assert (∀ st' w', stepped (eq id) st2 st' w' → advanced P st st' w' ∧
    ∀ x, x ≠ id → state_of st' x = state_of st x) as Hback.
  { intros st' w' [? ? He ? Hst].
    assert (evolves (eq id) st st') as Hev.
    { eapply evolves_trans; [|done].
      eapply evolves_trans; [by apply (evolves_set_activity (eq id))|by apply same_evolves]. }
    split.
    - split; try done; [|rewrite Hst, Hs2; done]. eapply evolves_mono; [|done]. by intros ? <-.
    - intros x Hne. apply (ev_outside _ _ _ Hev). congruence. }
  destruct (iso_result o) as [output|msg|msg].
  - eapply (wp_update_checkpoint _ id _ _ _ _ _ (eq id)); try done.
    intros st' w' Hst _. apply wp_ret. by eapply Hback.
  - eapply (wp_update_checkpoint _ id _ _ _ _ _ (eq id)); try done.
    intros st' w' Hst _. apply wp_ret. by eapply Hback.
  - set (st3 := set_activity id ActivityState.Ready st2).
    assert (good st3 (log w2 c)) as Hg3.
    { split; [by apply core_set_activity|by apply clean_set_activity]. }
    eapply wp_call; [by apply wp_checkpoint|]. intros [] w3 (HI3 & Hsn3 & Hl3). apply wp_ret.
    apply Hback. split; try done; [by apply evolves_set_activity|by rewrite Hl3].
Qed.

Lemma wp_commit_instances id st cr slots w :
  I w → es_execution_id st = c → good st (log w c) → NoDup (map fst slots) →
  (∀ i o, (i, o) ∈ slots → iso_id o = instance_id id i ∧
     state_of st (instance_id id i) ≠ Some ActivityState.Completed) →
  wp (commit_instances st cr slots) (λ '(st', cr') w', advanced (instance_of id) st st' w') E w.
Proof.
  revert st cr w. induction slots as [|[i o] slots IH]; intros st cr w HI Hid Hg Hnd Hslots; simpl.
  - apply wp_ret. by apply advanced_refl.
  - simpl in Hnd. apply NoDup_cons in Hnd as [Hni Hnd].
    destruct (Hslots i o) as [Ho Hnc]; [set_solver|].
    eapply wp_call.
    { apply (wp_commit_instance _ _ _ _ _ (instance_of id)); rewrite ?Ho; try done. by exists i. }
    intros [st1 cr1] w1 (Hst1 & Hother). rewrite Ho in Hother.
    eapply wp_mono; [apply IH| |done].
    + by eapply ad_during.
    + by eapply advanced_id.
    + by eapply ad_good.
    + done.
    + intros j o' Hj. destruct (Hslots j o') as [? Hncj]; [set_solver|]. split; [done|].
      rewrite Hother; [done|]. intros Heq. apply instance_id_inj in Heq as ->.
      apply Hni. apply list_elem_of_fmap. by exists (i, o').
    + intros [st2 cr2] w2 Hst2. by eapply advanced_trans.
Qed.

Lemma slots_in_order_elem n slots i o :
  (i, o) ∈ slots_in_order n slots → slots !! i = Some o.
Proof.
  unfold slots_in_order. intros (j & _ & Hj)%list_elem_of_omap.
  apply fmap_Some in Hj as (o' & Ho & [= -> ->]). done.
Qed.

Lemma slots_in_order_nodup n slots : NoDup (map fst (slots_in_order n slots)).
Proof.
  unfold slots_in_order. pose proof (NoDup_seq 0 n) as Hnd.
  induction Hnd as [|i l Hi Hnd IH]; simpl; [constructor|].
  destruct (slots !! i) as [o|]; simpl; [|done]. apply NoDup_cons. split; [|done].
  intros ([j o'] & Hj & Hin)%list_elem_of_fmap. simpl in Hj. subst j.
  apply list_elem_of_omap in Hin as (k & Hk & Hko). apply fmap_Some in Hko as (? & _ & [= -> _]). done.
Qed.

(** The protected activities are completed, so whatever is picked is not one. *)
Definition protected (st : ExecutionState) : Prop :=
  ∀ x, keep x → state_of st x = Some ActivityState.Completed.

Lemma protected_evolves P st st' : evolves P st st' → protected st → protected st'.
Proof. intros He Hp x Hx. by apply (ev_completed _ _ _ He), Hp. Qed.

Lemma protected_not_keep st x :
  protected st → state_of st x ≠ Some ActivityState.Completed → ¬ keep x.
Proof. intros Hp Hn Hk. by apply Hn, Hp. Qed.

Lemma advanced_mono (P P' : string → Prop) st st' w :
  (∀ id, P id → P' id) → advanced P st st' w → advanced P' st st' w.
Proof. intros HP [? ? ? ?]. split; try done. by eapply evolves_mono. Qed.

Lemma advanced_same P st st' w :
  I w → same_activities st st' → es_status st' = es_status st → good st' (log w c) →
  advanced P st st' w.
Proof. intros. split; try done. by apply same_evolves. Qed.

(** The part of [run_for_each] after the expansion of a non-empty collection. *)
Lemma wp_fan_out {A} d st act spec items w
    (k : FanOut → ExecutionState → CommitResult string → M A) Q :
  I w → es_execution_id st = c → good st (log w c) →
  state_of st (act_id act) ≠ Some ActivityState.Completed → protected st →
  is_u32 (max_attempts (body_policy d spec)) →
  let id := act_id act in
  let indices := seq 0 (length items) in
  let st1 := ensure_instances id indices st in
  (∀ fan st2 cr w2, advanced (instance_of id) st st2 w2 → wp (k fan st2 cr) Q E w2) →
  wp (pending ← lift (pending_instances id st1 indices);
      let make := instance_task id spec (body_policy d spec) (es_variables st1) items st1 in
      let '(first, queue) := split_at (fe_max_concurrent spec) pending in
      set ← lift (spawn_all make first {| js_running := []; js_done := [] |});
      fan ← for_each_join (S (length pending)) (es_execution_id st1) spec make set queue
              {| fo_spent := ActivityUsage_default; fo_over_budget := None; fo_slots := ∅ |};
      '(st2, cr) ← commit_instances st1 {| cr_failure := None; cr_interrupt := None |}
                     (slots_in_order (length items) (fo_slots fan));
      k fan st2 cr) Q E w.
Proof.
  intros HI Hid Hg Hnc Hprot Hpol id indices st1 Hk. apply wp_lift_bind.
  pose proof (pending_instances_spec id st1 indices) as Hpspec.
  destruct (pending_instances id st1 indices) as [pending|s]; [|by subst]. cbv zeta.
  set (make := instance_task id spec (body_policy d spec) (es_variables st1) items st1).
  pose proof (ensure_instances_advanced id indices st w HI Hg) as Had. fold st1 in Had.
  assert (es_execution_id st1 = c) as Hid1 by by eapply advanced_id.
  destruct Hpspec as [_ Hpn].
  assert (∀ i, i ∈ pending → ¬ keep (instance_id id i)) as Hpk.
  { intros i Hi. eapply protected_not_keep; [|by apply Hpn].
    eapply protected_evolves; [by eapply ad_evolves|done]. }
  assert (∀ i, match make i with
    | Ret t => task_id t = instance_id id i ∧ is_u32 (max_attempts (task_policy t))
    | Stop s => s = Panicked end) as Hmake.
  { intros i. pose proof (instance_task_spec id spec (body_policy d spec) (es_variables st1) items st1 i) as Ht.
    unfold make. destruct (instance_task _ _ _ _ _ _ _); [|done].
    destruct Ht as [? ->]. done. }
  pose proof (split_at_app (fe_max_concurrent spec) pending) as Hsplit.
  destruct (split_at (fe_max_concurrent spec) pending) as [first queue]. simpl in Hsplit.
  assert (∀ i, (i ∈ first ∨ i ∈ queue) → i ∈ pending) as Hin
    by (intros i Hi; rewrite <- Hsplit; set_solver).
  apply wp_lift_bind.
  pose proof (spawn_all_ok id pending make Hpk Hmake first
    {| js_running := []; js_done := [] |}) as Hspawn.
  destruct (spawn_all make first _) as [set|s].
  2: { rewrite Hspawn; [done|auto|done]. }
  destruct Hspawn as [Hok Hsize]; [auto|done|].
  rewrite Hid1. eapply wp_call.
  { apply (wp_for_each_join id pending make Hpk Hmake); [done|done|auto| |].
    - rewrite Hsize. apply (f_equal length) in Hsplit. rewrite length_app in Hsplit.
      unfold set_size. simpl. lia.
    - intros i o. simpl. by rewrite lookup_empty. }
  intros fan w1 (HI1 & Hl1 & Hslots).
  eapply wp_call.
  { apply (wp_commit_instances id); [done|done| | |].
    - rewrite Hl1. by eapply ad_good.
    - apply slots_in_order_nodup.
    - intros i o Hio%slots_in_order_elem. apply Hslots in Hio. unfold fan_names in Hio.
      case_decide as Hi; [|done]. split; [congruence|]. by apply Hpn. }
  intros [st2 cr] w2 Had2. apply Hk. by eapply advanced_trans.
Qed.

Lemma wp_run_for_each d st act w :
  I w → es_execution_id st = c → good st (log w c) →
  state_of st (act_id act) ≠ Some ActivityState.Completed → protected st →
  (∀ spec, ForEachSpec_parse act = Ok spec → is_u32 (max_attempts (body_policy d spec))) →
  wp (run_for_each eng d st act) (λ '(st', step) w',
    stepped (for_each_touched (act_id act)) st st' w' ∧
    (step = StepCompleted → state_of st' (act_id act) = Some ActivityState.Completed)) E w.
Proof.
  intros HI Hid Hg Hnc Hprot Hpol. set (id := act_id act) in *. unfold run_for_each. fold id.
  apply wp_lift_bind. destruct (ForEachSpec_parse act) as [spec|e] eqn:Hspec; [|done]. simpl.
  specialize (Hpol spec eq_refl).
  assert (∀ x, id = x → for_each_touched id x) as Hown by (intros x <-; by left).
  eapply wp_call; [by apply wp_expand|]. fold id. intros [st1 r] w1 Hexp.
  destruct r as [items|step].
  2: { apply wp_ret. destruct Hexp as (Hst & m & ->). split; [|done].
       eapply stepped_mono; [|done]. done. }
  destruct Hexp as (HI1 & Hsame1 & Hs1 & Hg1).
  assert (es_execution_id st1 = c) as Hid1 by (by rewrite (sa_id _ _ Hsame1)).
  assert (state_of st1 id ≠ Some ActivityState.Completed) as Hnc1 by by rewrite (same_state_of st).
  assert (protected st1) as Hprot1 by (apply (protected_evolves (λ _, True) st); [by apply same_evolves|done]).
  pose proof (advanced_same (for_each_touched id) _ _ _ HI1 Hsame1 Hs1 Hg1) as Had1.
  (* every way to finish from a committed snapshot *)
  assert (∀ st2 w2, advanced (for_each_touched id) st st2 w2 →
    state_of st2 id ≠ Some ActivityState.Completed →
    (∀ msg, wp (r ← lift (record st2 id);
       terminal_activity_failure st2 id (u32_wrapping_add (ar_attempts r) 1) msg)
       (λ '(st', step) w', stepped (for_each_touched id) st st' w' ∧
          (step = StepCompleted → state_of st' id = Some ActivityState.Completed)) E w2) ∧
    (∀ outputs, wp (complete_for_each eng (with_variables (delete (for_each_marker id)) st2) id outputs)
       (λ '(st', step) w', stepped (for_each_touched id) st st' w' ∧
          (step = StepCompleted → state_of st' id = Some ActivityState.Completed)) E w2) ∧
    (∀ msg, wp (_ ← checkpoint (set_activity id ActivityState.Ready st2);
       mret (set_activity id ActivityState.Ready st2, StepInterrupted msg))
       (λ '(st', step) w', stepped (for_each_touched id) st st' w' ∧
          (step = StepCompleted → state_of st' id = Some ActivityState.Completed)) E w2)) as Hfin.
  { intros st2 w2 Had2 Hnc2. pose proof Had2 as [HI2 _ Hg2 _].
    assert (es_execution_id st2 = c) as Hid2 by by eapply advanced_id.
    pose proof Hg2 as [Hcore2 Hcl2].
    split; [|split].
    - intros msg. apply wp_lift_bind. destruct (record st2 id) as [r|s] eqn:Hr;
        [|apply record_stop in Hr as ->; done].
      eapply wp_mono; [apply (wp_terminal_failure _ _ _ _ _ (for_each_touched id)); try done| |done].
      + by apply clean_weaken.
      + by left.
      + intros [st' step] w' (Hst & m & ->). split; [by eapply advanced_stepped|done].
    - intros outputs. eapply wp_mono;
        [apply (wp_complete_for_each _ _ _ _ (for_each_touched id)); try done| |done].
      + by apply (good_same st2).
      + by left.
      + intros [st' step] w' [Hst Hdone]. split; [|done].
        eapply advanced_stepped; [done|]. destruct Hst as [? ? He ? ?]. split; try done.
        by destruct He.
    - intros msg. assert (good (set_activity id ActivityState.Ready st2) (log w2 c)) as Hg3.
      { split; [by apply core_set_activity|]. apply clean_set_activity; [done|by apply clean_weaken]. }
      eapply wp_call; [by apply wp_checkpoint|]. intros [] w3 (HI3 & Hsn3 & Hl3). apply wp_ret.
      split; [|done]. eapply advanced_stepped; [done|].
      split; try done; [apply evolves_set_activity; [by left|done]|by rewrite Hl3]. }
  destruct items as [|item items]; [by apply Hfin|].
  eapply (wp_fan_out d st1 act spec (item :: items)); try done.
  intros fan st2 cr w2 Had2. fold id in Had2.
  assert (advanced (for_each_touched id) st st2 w2) as Had.
  { eapply advanced_trans; [done|]. eapply advanced_mono; [|done]. by right. }
  assert (state_of st2 id ≠ Some ActivityState.Completed) as Hnc2.
  { rewrite (ev_outside _ _ _ (ad_evolves _ _ _ _ Had2)); [done|].
    intros [i Hi]. by apply (instance_id_ne id i). }
  destruct (Hfin st2 w2 Had Hnc2) as (Hfail & Hcomplete & Hready).
  destruct (cr_failure cr) as [msg|]; [apply Hfail|].
  destruct (fo_over_budget fan) as [msg|]; [apply Hfail|].
  destruct (cr_interrupt cr) as [msg|]; [apply Hready|].
  apply wp_lift_bind.
  assert (∀ l, match instance_outputs id st2 l with Stop s => s = Panicked | Ret _ => True end) as Hout.
  { induction l as [|i l IH]; simpl; [done|].
    destruct (record st2 (instance_id id i)) as [r|s] eqn:Hr; simpl; [|by apply record_stop in Hr].
    by destruct (instance_outputs id st2 l). }
  specialize (Hout (seq 0 (length (item :: items)))).
  destruct (instance_outputs id st2 _) as [outputs|s]; [apply Hcomplete|subst; split; [by eapply ad_during|done]].
Qed.
End one.

(** *** Definitions that were loaded *)

(** A loaded definition is well formed and its retry limits are [u32]s. *)
Record loaded (d : Definition_) : Prop := {
  ld_well_formed : well_formed d;
  ld_retry : ∀ id, is_u32 (max_attempts (retry_for d id));
  ld_body : ∀ a spec, a ∈ spec_activities (def_spec d) → ForEachSpec_parse a = Ok spec →
    is_u32 (max_attempts (body_policy d spec));
}.

(** [calls] performs whole operations on the executions whose nesting is
    within the cap and at most [n] levels below it. *)
Definition serves (calls : Calls) (n : nat) : Prop :=
  ∀ d cid w, loaded d → matches_count "::" cid ≤ max_subworkflow_depth eng →
    max_subworkflow_depth eng < matches_count "::" cid + n →
    stored w → (∀ x, within cid x → x ∉ w_locks w) →
    wp (call_resume calls d cid) (λ _ w', during cid (λ _, False) w w')
      (λ s w', during cid (λ _, False) w w' ∧ proper s) w ∧
    ∀ input, wp (call_run calls d cid input) (λ _ w', during cid (λ _, False) w w')
      (λ s w', during cid (λ _, False) w w' ∧ proper s) w.

Definition resolver_loaded : Prop := ∀ resolver name d,
  subworkflows eng = Some resolver → resolver name = Some d → loaded d.

Lemma activity_Some d id a : activity d id = Some a → a ∈ spec_activities (def_spec d) ∧ act_id a = id.
Proof. intros Ha. apply find_Some_elem in Ha as [? Heq]. by apply String.eqb_eq in Heq. Qed.

Lemma is_handler_spec d id : is_handler d id = true ↔
  ∃ a, a ∈ spec_activities (def_spec d) ∧ act_compensate a = Some id.
Proof.
  unfold is_handler, compensation_targets. rewrite bool_decide_eq_true, elem_of_list_to_set.
  apply list_elem_of_omap.
Qed.

Section run.
Context (c : string) (keep : string → Prop) (w0 : World).
Notation I := (during c keep w0).
Notation E := (λ s w, I w ∧ proper s).
Notation stepped := (stepped c keep w0).
Notation advanced := (advanced c keep w0).
Notation anything := (λ _ : string, True).
Hypothesis unlocked : ∀ x, below c x → x ∉ w_locks w0.
Hypothesis resolver_ok : resolver_loaded.

Lemma wp_run_subworkflow calls n st act w :
  serves calls n → max_subworkflow_depth eng ≤ matches_count "::" c + n →
  I w → es_execution_id st = c → snap w c = Some st → good st (log w c) →
  state_of st (act_id act) ≠ Some ActivityState.Completed →
  wp (run_subworkflow eng calls st act) (λ '(st', step) w',
    stepped (eq (act_id act)) st st' w' ∧
    (step = StepCompleted → state_of st' (act_id act) = Some ActivityState.Completed)) E w.
Proof.
  intros Hserves Hn HI Hid Hsn Hg Hnc. set (id := act_id act) in *. unfold run_subworkflow. fold id.
  destruct (subworkflows eng) as [resolver|] eqn:Hres; [|done].
  destruct (act_name act) as [child_name|]; [|done].
  destruct (resolver child_name) as [child_def|] eqn:Hchild; [|done].
  pose proof (resolver_ok _ _ _ Hres Hchild) as Hloaded. rewrite Hid.
  set (cid := child_id c id). pose proof Hg as [Hcore Hcl].
  assert (below c cid) as Hbelow by apply below_child.
  assert (∀ st1 w1, I w1 → es_execution_id st1 = c → good st1 (log w1 c) →
    st1 = st → ∀ msg,
    wp (r ← lift (record st1 id); terminal_activity_failure st1 id (u32_wrapping_add (ar_attempts r) 1) msg)
    (λ '(st', step) w', stepped (eq id) st st' w' ∧
      (step = StepCompleted → state_of st' id = Some ActivityState.Completed)) E w1) as Hfail.
  { intros st1 w1 HI1 Hid1 [Hc1 Hcl1] -> msg. apply wp_lift_bind.
    destruct (record st id) as [r|s] eqn:Hr; [|apply record_stop in Hr as ->; done].
    eapply wp_mono; [apply (wp_terminal_failure c keep w0 st id _ msg w1 (eq id)); try done| |done].
    - by apply clean_weaken.
    - intros [st' step] w' (Hst & m & ->). done. }
  destruct (Nat.ltb_spec (max_subworkflow_depth eng) (matches_count "::" cid)) as [Hdeep|Hdepth];
    [by apply Hfail|].
  unfold query. eapply wp_call; [by apply wp_latest|]. intros started w1 (HI1 & _ & Hsn1 & Hl1).
  assert (max_subworkflow_depth eng < matches_count "::" cid + n) as Hlevel.
  { pose proof (matches_count_sep c id). unfold cid, child_id. lia. }
  destruct (Hserves child_def cid w1 Hloaded Hdepth Hlevel) as [Hresume Hrun].
  { apply HI1. }
  { intros x Hx. rewrite (du_locks _ _ _ _ HI1). apply unlocked. by eapply within_below. }
  eapply (wp_call _ _ (λ _ w2, during cid (λ _, False) w1 w2)).
  { eapply (wp_mono _ _ _ (λ s w2, during cid (λ _, False) w1 w2 ∧ proper s)).
    - destruct started; [apply Hresume|apply Hrun].
    - done.
    - intros s w2 [Hd Hp]. split; [|done]. by eapply during_child. }
  intros [outcome child_st] w2 Hd.
  destruct (during_child _ _ _ _ _ _ _ HI1 Hbelow Hd) as (HI2 & Hsn2 & Hl2).
  assert (good st (log w2 c)) as Hg2 by (by rewrite Hl2, Hl1).
  assert (clean_but (eq id) st) as Hcb by by apply clean_weaken.
  destruct outcome as [|msg|msg|msg]; [|by apply Hfail|by apply Hfail|].
  - eapply (wp_complete_checkpoint _ _ _ _ id _ _ _ _ _ (eq id)); try done. apply Hg2.
  - assert (good (set_activity id ActivityState.Ready st) (log w2 c)) as Hg3.
    { destruct Hg2. split; [by apply core_set_activity|by apply clean_set_activity]. }
    eapply wp_call; [by apply wp_checkpoint|]. intros [] w3 (HI3 & Hsn3 & Hl3). apply wp_ret.
    split; [|done]. split; try done; [by apply evolves_set_activity|by rewrite Hl3].
Qed.

(** *** Any activity *)

Lemma wp_run_activity calls n d st id w :
  serves calls n → max_subworkflow_depth eng ≤ matches_count "::" c + n →
  loaded d → I w → es_execution_id st = c → snap w c = Some st → good st (log w c) →
  state_of st id ≠ Some ActivityState.Completed → protected keep st →
  wp (run_activity eng calls d st id) (λ '(st', step) w',
    stepped (for_each_touched id) st st' w' ∧
    (step = StepCompleted → state_of st' id = Some ActivityState.Completed)) E w.
Proof.
  intros Hserves Hn Hload HI Hid Hsn Hg Hnc Hprot. unfold run_activity. apply wp_lift_bind.
  destruct (activity d id) as [act|] eqn:Hact; cbn [expect]; [|done].
  apply activity_Some in Hact as [Hin <-].
  assert (∀ m : M (ExecutionState * Step),
    wp m (λ '(st', step) w', stepped (eq (act_id act)) st st' w' ∧
      (step = StepCompleted → state_of st' (act_id act) = Some ActivityState.Completed)) E w →
    wp m (λ '(st', step) w', stepped (for_each_touched (act_id act)) st st' w' ∧
      (step = StepCompleted → state_of st' (act_id act) = Some ActivityState.Completed)) E w) as Hmono.
  { intros m Hm. eapply wp_mono; [done| |done]. intros [st' step] w' [Hst Hdone]. split; [|done].
    eapply stepped_mono; [|done]. intros x <-. by left. }
  destruct (String.eqb (act_type act) "wait"); [apply Hmono; by apply wp_run_wait|].
  destruct (String.eqb (act_type act) "workflow"); [apply Hmono; by eapply wp_run_subworkflow|].
  destruct (is_for_each (act_type act)).
  - apply wp_run_for_each; try done. intros spec. by apply ld_body.
  - pose proof (ld_retry d Hload (act_id act)) as Hp. apply Hmono.
    apply (wp_run_activity_go c keep w0 _ act (retry_for d (act_id act)) st w); try done.
    + by eapply protected_not_keep.
    + intros r _. apply attempts_left_fuel, Hp.
    + unfold attempt_fuel. lia.
Qed.

(** *** Compensation *)

(** A persisted snapshot reached from [st]; the workflow status may differ. *)
Record reached (st st' : ExecutionState) (w : World) : Prop := {
  re_during : I w;
  re_snap : snap w c = Some st';
  re_evolves : evolves anything st st';
  re_good : good st' (log w c);
}.

Lemma stepped_reached P st st' w : stepped P st st' w → reached st st' w.
Proof. intros [? ? ? ? ?]. split; try done. by eapply evolves_mono. Qed.

Lemma reached_trans st1 st2 st3 w1 w2 :
  reached st1 st2 w1 → reached st2 st3 w2 → reached st1 st3 w2.
Proof. intros [_ _ He1 _] [? ? He2 ?]. split; try done. by eapply evolves_trans. Qed.

Lemma reached_id st st' w : reached st st' w → es_execution_id st = c → es_execution_id st' = c.
Proof. intros [_ _ He _] <-. apply (ev_id _ _ _ He). Qed.

Lemma wp_transition_checkpoint {A} st to e w (k : ExecutionState → M A) Q :
  I w → es_execution_id st = c → good st (log w c) →
  (∀ st' w', reached st st' w' → es_status st' = to → same_activities st st' → wp (k st') Q E w') →
  wp (st' ← transition st to e; _ ← checkpoint st'; k st') Q E w.
Proof.
  intros HI Hid [Hcore Hcl] Hk. unfold transition.
  destruct (WorkflowState.can_transition _ _); [|done].
  eapply wp_call; [eapply (wp_emit _ _ _ []); [done|done| |by left]|].
  { by apply (core_same _ st). }
  intros st1 w1 (HI1 & _ & Hsame1 & _ & Hs1 & Hc1).
  assert (same_activities st st1) as Hsame
    by (eapply same_activities_trans; [apply (same_with_status to)|done]).
  assert (good st1 (log w1 c)) as Hg1.
  { split; [done|]. intros id s. rewrite (same_state_of st) by done. apply Hcl. }
  eapply wp_call; [apply wp_checkpoint; [done| |done]; by rewrite (sa_id _ _ Hsame)|].
  intros [] w2 (HI2 & Hsn2 & Hl2). apply Hk; [|done|done].
  split; try done; [by apply same_evolves|by rewrite Hl2].
Qed.

(** A record that becomes completed never breaks anything. *)
Lemma evolves_complete P st id r :
  P id → ar_state r = ActivityState.Completed → evolves P st (with_activities (insert id r) st).
Proof.
  intros HP Hr. split; [done|..]; intros id'; rewrite state_of_insert; case_decide; subst; try done.
  congruence.
Qed.

Lemma wp_run_compensation_go fuel act policy attempt st w :
  I w → es_execution_id st = c → good st (log w c) → is_u32 (max_attempts policy) →
  ¬ keep (act_id act) → attempts_left (max_attempts policy) attempt ≤ fuel → 0 < fuel →
  wp (run_compensation_go fuel act policy attempt st)
    (λ '(st', _) w', advanced anything st st' w') E w.
Proof.
  intros HI Hid Hg Hp Hk. revert attempt w HI Hg.
  induction fuel as [|fuel IH]; intros attempt w HI Hg Hleft Hf; [lia|]. cbn [run_compensation_go].
  rewrite Hid. eapply wp_call; [by apply wp_call_executor|]. intros ex w1 (HI1 & _ & Hl1).
  pose proof Hg as [Hcore Hcl].
  destruct (exec_result ex) as [e|output].
  - destruct (is_retryable e && _) eqn:Hretry;
      [|apply wp_ret; apply advanced_refl; [done|by rewrite Hl1]].
    apply andb_prop in Hretry as [_ Hlt%Z.ltb_lt].
    eapply wp_call; [by apply wp_sleep|]. intros [] w2 (HI2 & _ & Hl2).
    pose proof (attempts_left_lt _ _ Hp Hlt) as Hdec.
    pose proof (attempts_left_pos (max_attempts policy) (u32_wrapping_add attempt 1) (proj1 Hp)).
    apply IH; [done|by rewrite Hl2, Hl1|lia|lia].
  - apply wp_lift_bind. destruct (update_record (act_id act) _ st) as [st1|s] eqn:Hup;
      [|apply update_record_stop in Hup as ->; done].
    apply update_record_Ret in Hup as (r & Hr & ->). apply wp_ret.
    set (st1 := with_activities _ st).
    assert (evolves anything st st1) as He by by apply evolves_complete.
    assert (good st1 (log w1 c)) as Hg1.
    { rewrite Hl1. split; [by eapply core_evolves|].
      intros id s. unfold st1. rewrite state_of_insert. case_decide; [by intros [= <-]|apply Hcl]. }
    split; [done| |by apply (good_same st1)|done]. by destruct He.
Qed.

Lemma wp_run_compensation d st comp_id w :
  loaded d → ¬ keep comp_id → I w → es_execution_id st = c → good st (log w c) →
  wp (run_compensation d st comp_id) (λ '(st', _) w', advanced anything st st' w') E w.
Proof.
  intros Hload Hk HI Hid Hg. unfold run_compensation. apply wp_lift_bind.
  destruct (activity d comp_id) as [act|] eqn:Hact; cbn [expect]; [|done].
  apply activity_Some in Hact as [_ <-]. pose proof (ld_retry d Hload (act_id act)) as Hp.
  apply wp_run_compensation_go; try done.
  - apply attempts_left_fuel, Hp.
  - unfold attempt_fuel. lia.
Qed.

Lemma compensation_plan_elem d order a h :
  (a, h) ∈ compensation_plan d order → is_handler d h = true ∧ a ∈ order.
Proof.
  unfold compensation_plan. intros (id & Hid & Hh)%list_elem_of_omap.
  apply fmap_Some in Hh as (h' & Hh & [= -> ->]). rewrite elem_of_reverse in Hid. split; [|done].
  apply bind_Some in Hh as (act & Hact & Hcomp). apply activity_Some in Hact as [Hin _].
  apply is_handler_spec. eauto.
Qed.

(** What a finished rollback says about the workflow status. *)
Definition outcome_status (before : WorkflowState.t) (o : RunOutcome) (after : WorkflowState.t) : Prop :=
  match o with
  | RunCompleted => after = WorkflowState.Completed
  | RunCompensated _ => after = WorkflowState.Failed
  | RunFailed _ => after = WorkflowState.Failed ∨ after = WorkflowState.Compensating ∨ after = before
  | RunInterrupted _ => after = before
  end.

(** No protected activity is a compensation handler of [d]. *)
Definition spares (d : Definition_) : Prop := ∀ x, keep x → is_handler d x = false.

Lemma wp_compensate_steps d error plan st before w :
  loaded d → spares d → (∀ a h, (a, h) ∈ plan → is_handler d h = true) →
  I w → es_execution_id st = c → snap w c = Some st → good st (log w c) →
  es_status st = WorkflowState.Compensating →
  wp (compensate_steps d error plan st) (λ '(st', o) w', reached st st' w' ∧
    outcome_status before o (es_status st') ∧ o ≠ RunCompleted) E w.
Proof.
  intros Hload Hspare. revert st w. induction plan as [|[a h] plan IH]; intros st w Hplan HI Hid Hsn Hg Hst;
    cbn [compensate_steps].
  - by apply wp_transition_checkpoint.
  - assert (¬ keep h) as Hk.
    { intros Hk. apply Hspare in Hk. rewrite (Hplan a h) in Hk; [done|set_solver]. }
    eapply wp_call; [by apply wp_run_compensation|]. intros [st1 failed] w1 [HI1 He1 Hg1 Hs1].
    pose proof Hg1 as [Hc1 Hcl1].
    assert (es_execution_id st1 = c) as Hid1 by (rewrite (ev_id _ _ _ He1); done).
    assert (∀ e, wp (emit_checkpoint st1 e) (λ st2 w2, reached st st2 w2 ∧
      es_status st2 = WorkflowState.Compensating) E w1) as Hemit.
    { intros e. eapply wp_mono; [eapply (wp_emit_checkpoint _ _ _ []); [done|done|done|by left|done]| |done].
      intros st2 w2 (HI2 & Hsn2 & Hsame2 & _ & Hs2 & Hg2). split; [|congruence].
      split; try done. eapply evolves_trans; [done|by apply same_evolves]. }
    destruct failed as [err|].
    + eapply wp_call; [apply Hemit|]. intros st2 w2 [Hre Hs2]. apply wp_ret.
      split; [done|]. split; [by right; left|done].
    + eapply wp_call; [apply Hemit|]. intros st2 w2 [Hre Hs2].
      eapply wp_mono; [apply IH| |done].
      * intros a' h' Hin. apply (Hplan a'). set_solver.
      * by eapply re_during.
      * by eapply reached_id.
      * by eapply re_snap.
      * by eapply re_good.
      * done.
      * intros [st3 o] w3 (Hre3 & ? & ?). split; [by eapply reached_trans|done].
Qed.

Lemma reached_refl st w :
  I w → snap w c = Some st → good st (log w c) → reached st st w.
Proof. intros. by split; try apply evolves_refl. Qed.

Lemma wp_compensate d st error w :
  loaded d → spares d → I w → es_execution_id st = c → snap w c = Some st → good st (log w c) →
  wp (compensate d st error) (λ '(st', o) w', reached st st' w' ∧
    outcome_status (es_status st) o (es_status st') ∧ o ≠ RunCompleted) E w.
Proof.
  intros Hload Hspare HI Hid Hsn Hg. unfold compensate.
  eapply (wp_call _ _ (λ st1 w1, reached st st1 w1 ∧
    (es_status st1 = WorkflowState.Failed ∨ es_status st1 = es_status st))).
  { case_decide.
    - apply wp_transition_checkpoint; try done. intros st' w' Hre Hs _. apply wp_ret. auto.
    - apply wp_ret. split; [by apply reached_refl|by right]. }
  intros st1 w1 (Hre1 & Hs1).
  destruct (compensation_plan d (es_completed_order st1)) as [|p plan] eqn:Hplan.
  - apply wp_ret. split; [done|]. split; [|done]. destruct Hs1; simpl; auto.
  - apply wp_transition_checkpoint; [by eapply re_during|by eapply reached_id|by eapply re_good|].
    intros st2 w2 Hre2 Hs2 Hsame2.
    eapply wp_mono; [apply (wp_compensate_steps d error _ st2 (es_status st))| |done]; try done.
    + intros a h Hin. rewrite <- Hplan in Hin. by apply compensation_plan_elem in Hin as [? _].
    + by eapply re_during.
    + eapply reached_id; [done|]. by eapply reached_id.
    + by eapply re_snap.
    + by eapply re_good.
    + intros [st3 o] w3 (Hre3 & ? & ?). split; [|done].
      eapply reached_trans; [done|]. by eapply reached_trans.
Qed.

(** *** The scheduling loop *)

Lemma brackets_not_declared d id i :
  loaded d → instance_id id i ∉ activity_ids d.
Proof.
  intros Hload Hin. apply (wf_id_text _ (ld_well_formed d Hload)) in Hin as (_ & Hb & _).
  assert (∀ s t, contains_char "["%char (s +:+ String "["%char t) = true) as Hc.
  { induction s as [|c' s IH]; intros t; [done|]. rewrite str_app_cons. simpl. rewrite IH.
    apply orb_true_r. }
  change (contains_char "["%char (id +:+ String "["%char (show_Z (Z.of_nat i) +:+ "]")) = false) in Hb.
  by rewrite Hc in Hb.
Qed.

Definition drive_post (d : Definition_) (st : ExecutionState) (r : RunOutcome * ExecutionState)
    (w : World) : Prop :=
  reached st r.2 w ∧ outcome_status (es_status st) r.1 (es_status r.2) ∧
  (r.1 = RunCompleted → all_settled d r.2).

Lemma drive_post_from d st1 st2 w1 r w2 :
  reached st1 st2 w1 → es_status st2 = es_status st1 → drive_post d st2 r w2 → drive_post d st1 r w2.
Proof.
  intros Hre Hs (Hre2 & Ho & Hc). split; [by eapply reached_trans|]. by rewrite Hs in Ho.
Qed.

Lemma wp_interrupt d st e msg w :
  I w → es_execution_id st = c → good st (log w c) →
  wp (st' ← emit_checkpoint st e; mret (RunInterrupted msg, st')) (drive_post d st) E w.
Proof.
  intros HI Hid [Hcore Hcl].
  eapply wp_call; [eapply (wp_emit_checkpoint _ _ _ []); [done|done|done|by left|done]|].
  intros st' w' (HI' & Hsn' & Hsame & _ & Hs & Hg'). apply wp_ret.
  split; [|done]. split; try done. by apply same_evolves.
Qed.

Lemma wp_compensated d st error w :
  loaded d → spares d → I w → es_execution_id st = c → snap w c = Some st → good st (log w c) →
  wp ('(st', o) ← compensate d st error; mret (o, st')) (drive_post d st) E w.
Proof.
  intros. eapply wp_call; [by apply wp_compensate|]. intros [st' o] w' (Hre & Ho & Hne).
  apply wp_ret. done.
Qed.

Lemma wp_drive_go fuel calls n d st w :
  serves calls n → max_subworkflow_depth eng ≤ matches_count "::" c + n → loaded d → spares d →
  I w → es_execution_id st = c → snap w c = Some st → good st (log w c) → protected keep st →
  unsettled d st < fuel →
  wp (drive_go eng fuel calls d st) (drive_post d st) E w.
Proof.
  intros Hserves Hn Hload Hspare. revert st w.
  induction fuel as [|fuel IH]; intros st w HI Hid Hsn Hg Hprot Hf; [lia|]. cbn [drive_go].
  eapply wp_call; [by apply wp_apply_skips|]. intros st1 w1 (Hst1 & Hle1 & Hnd).
  pose proof (stepped_reached _ _ _ _ Hst1) as Hre1.
  assert (es_execution_id st1 = c) as Hid1 by by eapply stepped_id.
  pose proof Hst1 as [HI1 Hsn1 He1 Hg1 Hs1].
  assert (protected keep st1) as Hprot1 by by eapply protected_evolves.
  apply (wp_mono _ (drive_post d st1) _ (λ s w, during c keep w0 w ∧ proper s));
    [|intros r w2; by eapply drive_post_from|done].
  (* one more activity settled: go around *)
  assert (∀ P st2 w2, stepped P st1 st2 w2 →
    (∀ id, id ∈ activity_ids d → P id → settled st1 id = false) →
    (∃ id, id ∈ activity_ids d ∧ settled st1 id = false ∧
       state_of st2 id = Some ActivityState.Completed) →
    wp (drive_go eng fuel calls d st2) (drive_post d st1) E w2) as Hagain.
  { intros P st2 w2 Hst2 HP (id & Hin & H0 & H1).
    pose proof (stepped_reached _ _ _ _ Hst2) as Hre2. pose proof Hst2 as [HI2 Hsn2 He2 Hg2 Hs2].
    assert (unsettled d st2 < unsettled d st1) as Hlt.
    { apply (unsettled_lt d st1 st2 id); [|done|done|by apply settled_completed]. by eapply evolves_settles. }
    eapply wp_mono; [apply IH; try done|intros r w3; by eapply drive_post_from|done].
    - by eapply stepped_id.
    - by eapply protected_evolves.
    - lia. }
  apply wp_lift_bind. pose proof (forward_complete_spec d st1) as Hfc.
  destruct (forward_complete d st1) as [b|s]; [|by subst]. destruct b.
  { apply wp_transition_checkpoint; try done. intros st2 w2 Hre2 Hs2 Hsame2. apply wp_ret.
    split; [done|]. split; [done|]. intros _ id Hin Hh. simpl.
    unfold settled. rewrite (same_state_of st1) by done. by apply Hfc. }
  clear Hfc. apply wp_lift_bind.
  pose proof (ready_batch_spec d st1 (wf_ids _ (ld_well_formed d Hload))) as Hbatch.
  destruct (ready_batch d st1) as [batch|s]; [|by subst]. destruct Hbatch as [Hbnd Hpick].
  destruct (Nat.ltb_spec 1 (length batch)) as [Hlen|_].
  - eapply wp_call.
    { apply wp_run_ready_batch; try done; [apply Hload|].
      intros id Hin. apply Hpick in Hin as Hp. apply picked_not_completed in Hp as [Hnc _].
      split; [done|]. by eapply protected_not_keep. }
    intros [st2 step] w2 [Hst2 Hdone].
    pose proof (stepped_reached _ _ _ _ Hst2) as Hre2. pose proof Hst2 as [HI2 Hsn2 He2 Hg2 Hs2].
    assert (es_execution_id st2 = c) as Hid2 by by eapply stepped_id.
    destruct step as [|msg|a msg].
    + eapply Hagain; [done| |].
      * intros id _ Hin. by apply Hpick in Hin as [_ ?]%picked_not_completed.
      * destruct batch as [|id batch]; [simpl in Hlen; lia|]. exists id.
        destruct (Hpick id) as (Hin & Hh & Hr); [set_solver|].
        destruct (picked_not_completed d st1 id) as [_ Hs0]; [done|].
        split; [done|]. split; [done|]. apply Hdone; [done|set_solver].
    + eapply wp_mono; [by apply wp_compensated|intros r w3; by eapply drive_post_from|done].
    + eapply wp_mono; [by apply wp_interrupt|intros r w3; by eapply drive_post_from|done].
  - apply wp_lift_bind. pose proof (next_ready_spec d st1) as Hnext.
    destruct (next_ready d st1) as [[id|]|s]; [| |by subst].
    2: { by apply wp_compensated. }
    destruct (picked_not_completed d st1 id Hnext) as [Hnc Hs0].
    eapply wp_call; [by eapply wp_run_activity|]. intros [st2 step] w2 [Hst2 Hdone].
    pose proof (stepped_reached _ _ _ _ Hst2) as Hre2. pose proof Hst2 as [HI2 Hsn2 He2 Hg2 Hs2].
    assert (es_execution_id st2 = c) as Hid2 by by eapply stepped_id.
    destruct step as [|msg|msg].
    + eapply Hagain; [done| |].
      * intros x Hx [->|[i ->]]; [done|]. by apply brackets_not_declared in Hx.
      * exists id. split; [apply Hnext|]. split; [done|]. by apply Hdone.
    + eapply wp_mono; [by apply wp_compensated|intros r w3; by eapply drive_post_from|done].
    + eapply wp_mono; [by apply wp_interrupt|intros r w3; by eapply drive_post_from|done].
Qed.

Lemma wp_drive calls n d st w :
  serves calls n → max_subworkflow_depth eng ≤ matches_count "::" c + n → loaded d → spares d →
  I w → es_execution_id st = c → snap w c = Some st → good st (log w c) → protected keep st →
  wp (drive eng calls d st) (drive_post d st) E w.
Proof.
  intros. eapply wp_drive_go; try done. pose proof (unsettled_le d st). lia.
Qed.
End run.

(** *** Whole operations *)

Notation nothing := (λ _ : string, False).

(** The guard's world and the caller's differ in the lock, which is given back. *)
Lemma wp_with_lock {A} c keep (body : M A) Q w :
  c ∉ w_locks w → stored w →
  wp body (λ a w', during c keep (set_locks ({[c]} ∪ w_locks w) w) w' ∧ Q a (log w' c) (snap w' c))
    (λ s w', during c keep (set_locks ({[c]} ∪ w_locks w) w) w' ∧ proper s)
    (set_locks ({[c]} ∪ w_locks w) w) →
  wp (with_lock c body) (λ a w', during c keep w w' ∧ Q a (log w' c) (snap w' c))
    (λ s w', during c keep w w' ∧ proper s) w.
Proof.
  intros Hc Hs Hbody.
  assert (∀ w2, during c keep (set_locks ({[c]} ∪ w_locks w) w) w2 →
    during c keep w (set_locks (w_locks w2 ∖ {[c]}) w2)) as Hdu.
  { intros w2 [Hs2 Hl2 Hf2 Hlk2 Hca2]. split; try done. simpl. rewrite Hlk2. simpl. set_solver. }
  unfold wp, with_lock in *. rewrite decide_False by done.
  destruct (body _) as [w2 [a|s]]; destruct Hbody as [Hd Ho]; split; try done; by apply Hdu.
Qed.

Lemma initial_good d c input : good (initial_state d c input) [].
Proof.
  split; [split; simpl; try done|].
  - constructor.
  - by intros id ?%not_elem_of_nil.
  - by intros id ?%not_elem_of_nil.
  - intros id s. unfold state_of. simpl. intros Hs. apply fmap_Some in Hs as (r & Hr & ->).
    apply elem_of_list_to_map_2, list_elem_of_fmap in Hr as (x & [= -> ->] & _). done.
Qed.

Section start.
Context (c : string) (w0 : World).
Notation E := (λ s w, during c nothing w0 w ∧ proper s).

Lemma wp_start d input w :
  during c nothing w0 w →
  wp (start d c input) (λ st w', during c nothing w0 w' ∧ es_execution_id st = c ∧
    snap w' c = Some st ∧ good st (log w' c) ∧ es_status st = WorkflowState.Running ∧
    same_activities (initial_state d c input) st ∧
    es_variables st = initial_variables d c input) E w.
Proof.
  intros HI. unfold start.
  pose proof (initial_good d c input) as [Hcore Hcl]. set (st0 := initial_state d c input) in *.
  assert (core [] st0 (log w c)) as Hcore0 by (eapply core_prefix; [done|apply prefix_nil]).
  eapply wp_call; [eapply (wp_emit _ _ _ []); [done|done|done|by left]|].
  intros st1 w1 (HI1 & _ & Hsame1 & Hv1 & Hs1 & Hc1).
  assert (∀ st w1 to e, during c nothing w0 w1 → same_activities st0 st →
    es_variables st = initial_variables d c input → core [] st (log w1 c) →
    WorkflowState.can_transition (es_status st) to = true →
    wp (transition st to e) (λ st' w', during c nothing w0 w' ∧ same_activities st0 st' ∧
      es_variables st' = initial_variables d c input ∧ core [] st' (log w' c) ∧
      es_status st' = to) E w1) as Htr.
  { intros st w' to e HI' Hsame Hv Hc Hcan. unfold transition. rewrite Hcan.
    eapply wp_mono; [eapply (wp_emit _ _ _ []); [done| |by apply (core_same _ st)|by left]| |done].
    - simpl. by rewrite (sa_id _ _ Hsame).
    - intros st' w'' (HI'' & _ & Hsame' & Hv' & Hs' & Hc'). split; [done|].
      split; [by eapply same_activities_trans; [done|eapply same_activities_trans; [apply (same_with_status to)|]]|].
      simpl in Hv', Hs'. split; [congruence|done]. }
  eapply wp_call; [apply Htr; try done; by rewrite Hs1|].
  intros st2 w2 (HI2 & Hsame2 & Hv2 & Hc2 & Hs2).
  eapply wp_call; [apply Htr; try done; by rewrite Hs2|].
  intros st3 w3 (HI3 & Hsame3 & Hv3 & Hc3 & Hs3).
  eapply wp_call; [apply Htr; try done; by rewrite Hs3|].
  intros st4 w4 (HI4 & Hsame4 & Hv4 & Hc4 & Hs4).
  assert (good st4 (log w4 c)) as Hg4.
  { split; [done|]. intros id s. rewrite (same_state_of st0) by done. apply Hcl. }
  assert (es_execution_id st4 = c) as Hid4 by (by rewrite (sa_id _ _ Hsame4)).
  eapply wp_call; [by apply wp_checkpoint|]. intros [] w5 (HI5 & Hsn5 & Hl5). apply wp_ret.
  by rewrite Hl5.
Qed.
End start.

Definition subtree_free (c : string) (w : World) : Prop := ∀ x, within c x → x ∉ w_locks w.

Lemma below_free c w : subtree_free c w →
  ∀ x, below c x → x ∉ w_locks (set_locks ({[c]} ∪ w_locks w) w).
Proof.
  intros Hfree x Hx. simpl. rewrite not_elem_of_union, not_elem_of_singleton. split.
  - intros ->. by apply (below_irrefl c).
  - apply Hfree. by right.
Qed.

(** What a resumed or started execution returns: the persisted snapshot, with
    a status that matches the outcome; an execution that completes now ([fresh]:
    it had not before) has settled all its activities. *)
Definition returned (d : Definition_) (fresh : Prop) (r : RunOutcome * ExecutionState)
    (l : list WorkflowEvent) (sn : option ExecutionState) : Prop :=
  sn = Some r.2 ∧ good r.2 l ∧
  match r.1 with
  | RunCompleted => es_status r.2 = WorkflowState.Completed ∧ (fresh → all_settled d r.2)
  | RunCompensated _ => es_status r.2 = WorkflowState.Failed
  | RunFailed _ => es_status r.2 ≠ WorkflowState.Completed
  | RunInterrupted _ => WorkflowState.is_terminal (es_status r.2) = false
  end.

Definition not_completed (w : World) (c : string) : Prop :=
  ∀ st, snap w c = Some st → es_status st ≠ WorkflowState.Completed.

Lemma drive_returned c keep w0 d st r w fresh :
  drive_post c keep w0 d st r w → WorkflowState.is_terminal (es_status st) = false →
  returned d fresh r (log w c) (snap w c).
Proof.
  intros ([_ Hsn _ Hg] & Ho & Hall) Ht. split; [done|]. split; [done|].
  destruct r as [[|msg|msg|msg] st']; simpl in *; try done.
  - split; [done|]. auto.
  - destruct Ho as [-> |[-> | ->]]; try done. intros Heq. by rewrite Heq in Ht.
  - by rewrite Ho.
Qed.

Lemma returned_mono d (fresh fresh' : Prop) r l sn :
  (fresh' → fresh) → returned d fresh r l sn → returned d fresh' r l sn.
Proof.
  intros Hf (Hsn & Hg & Hr). split; [done|]. split; [done|].
  destruct (r.1); [|done..]. destruct Hr as [? Hall]. split; [done|]. auto.
Qed.

Section operations.
Hypothesis resolver_ok : resolver_loaded.

Lemma wp_resume_unlocked calls n c keep d w0 w :
  serves calls n → max_subworkflow_depth eng ≤ matches_count "::" c + n → loaded d →
  spares keep d → (∀ x, below c x → x ∉ w_locks w0) → during c keep w0 w →
  (∀ st, snap w c = Some st → protected keep st) →
  wp (resume_unlocked eng calls d c) (λ r w', during c keep w0 w' ∧
    returned d (not_completed w c) r (log w' c) (snap w' c)) (λ s w', during c keep w0 w' ∧ proper s) w.
Proof.
  intros Hserves Hn Hload Hspare Hfree HI Hprot. unfold resume_unlocked, query.
  eapply wp_call; [by apply wp_latest|]. intros found w1 (HI1 & -> & Hsn1 & Hl1).
  apply wp_lift_bind. destruct (snap w c) as [st|] eqn:Hsn; simpl; [|done].
  specialize (Hprot st eq_refl). rewrite <- Hsn1 in Hsn. rename Hsn into Hsn'.
  assert (snap w1 c = Some st) as Hsn by congruence.
  destruct (du_stored _ _ _ _ HI1 c st Hsn) as [Hid Hg].
  apply wp_lift_bind. destruct (assert_pinned_definition d st); simpl; [|done].
  assert (WorkflowState.is_terminal (es_status st) = false →
    wp (drive eng calls d st) (λ r w', during c keep w0 w' ∧ returned d (not_completed w c) r (log w' c) (snap w' c))
      (λ s w', during c keep w0 w' ∧ proper s) w1) as Hdrive.
  { intros Ht. eapply wp_mono; [by eapply wp_drive| |done].
    intros r w2 Hpost. split; [apply Hpost|by eapply drive_returned]. }
  destruct (es_status st) eqn:Hst; try (by apply Hdrive); apply wp_ret; split; try done;
    (split; [done|]; split; [done|]); simpl; rewrite Hst; try done.
  split; [done|]. intros Hfresh. exfalso. apply (Hfresh st); [congruence|done].
Qed.

Lemma wp_resume_with calls n c keep d w :
  serves calls n → max_subworkflow_depth eng ≤ matches_count "::" c + n → loaded d →
  spares keep d → stored w → subtree_free c w →
  (∀ st, snap w c = Some st → protected keep st) →
  wp (resume_with eng calls d c)
    (λ r w', during c keep w w' ∧ returned d (not_completed w c) r (log w' c) (snap w' c))
    (λ s w', during c keep w w' ∧ proper s) w.
Proof.
  intros Hserves Hn Hload Hspare Hs Hfree Hprot. unfold resume_with.
  apply wp_with_lock; [apply Hfree; by left|done|].
  change (not_completed w c) with (not_completed (set_locks ({[c]} ∪ w_locks w) w) c).
  eapply wp_resume_unlocked; try done; [by apply below_free|by apply during_refl].
Qed.

Lemma wp_run_with calls n c d input w :
  serves calls n → max_subworkflow_depth eng ≤ matches_count "::" c + n → loaded d →
  stored w → subtree_free c w →
  wp (run_with eng calls d c input) (λ r w', during c nothing w w' ∧
    returned d True r (log w' c) (snap w' c)) (λ s w', during c nothing w w' ∧ proper s) w.
Proof.
  intros Hserves Hn Hload Hs Hfree. unfold run_with.
  eapply wp_call; [apply wp_start; by apply during_refl|].
  intros st w1 (HI1 & Hid1 & Hsn1 & Hg1 & Hs1 & _).
  assert (subtree_free c w1) as Hfree1 by (intros x Hx; rewrite (du_locks _ _ _ _ HI1); by apply Hfree).
  eapply (wp_mono _ (λ r w2, during c nothing w1 w2 ∧ returned d True r (log w2 c) (snap w2 c)) _
    (λ s w2, during c nothing w1 w2 ∧ proper s)).
  - apply wp_with_lock; [apply Hfree1; by left|apply HI1|].
    eapply wp_mono; [eapply (wp_drive c nothing (set_locks ({[c]} ∪ w_locks w1) w1)); try done| |done].
    + by apply below_free.
    + by intros x.
    + apply during_refl, HI1.
    + by intros x.
    + intros r w2 Hpost. split; [apply Hpost|]. eapply drive_returned; [done|]. by rewrite Hs1.
  - intros r w2 [Hd Hr]. split; [|done]. by eapply during_trans.
  - intros s w2 [Hd Hp]. split; [|done]. by eapply during_trans.
Qed.

(** The nesting the guard allows is the nesting the fuel provides. *)
Lemma calls_at_serves n : serves (calls_at eng n) n.
Proof.
  induction n as [|n IH]; intros d cid w Hload Hdepth Hlevel Hs Hfree; [lia|]. cbn [calls_at].
  assert (max_subworkflow_depth eng ≤ matches_count "::" cid + n) as Hn by lia. split.
  - eapply wp_mono; [eapply (wp_resume_with _ n cid nothing); try done; [by intros x|by intros st _ x]| |done].
    by intros r w' [? _].
  - intros input. eapply wp_mono; [by eapply (wp_run_with _ n cid)| |done]. by intros r w' [? _].
Qed.

Lemma engine_calls_serve c :
  serves (engine_calls eng) (S (max_subworkflow_depth eng)) ∧
  max_subworkflow_depth eng ≤ matches_count "::" c + S (max_subworkflow_depth eng).
Proof. split; [apply calls_at_serves|lia]. Qed.

Lemma wp_run c d input w :
  loaded d → stored w → subtree_free c w →
  wp (run eng d c input)
    (λ r w', during c nothing w w' ∧ returned d True r (log w' c) (snap w' c))
    (λ s w', during c nothing w w' ∧ proper s) w.
Proof.
  intros. destruct (engine_calls_serve c). by eapply wp_run_with.
Qed.

Lemma wp_resume c keep d w :
  loaded d → spares keep d → stored w → subtree_free c w →
  (∀ st, snap w c = Some st → protected keep st) →
  wp (resume eng d c)
    (λ r w', during c keep w w' ∧ returned d (not_completed w c) r (log w' c) (snap w' c))
    (λ s w', during c keep w w' ∧ proper s) w.
Proof.
  intros. destruct (engine_calls_serve c). by eapply wp_resume_with.
Qed.

Lemma wp_deliver c keep d key payload w :
  loaded d → spares keep d → stored w → subtree_free c w →
  (∀ st, snap w c = Some st → protected keep st) →
  wp (deliver eng d c key payload)
    (λ r w', during c keep w w' ∧ returned d (not_completed w c) r (log w' c) (snap w' c))
    (λ s w', during c keep w w' ∧ proper s) w.
Proof.
  intros Hload Hspare Hs Hfree Hprot. destruct (engine_calls_serve c) as [Hserves Hn].
  unfold deliver. apply wp_with_lock; [apply Hfree; by left|done|].
  set (w0 := set_locks ({[c]} ∪ w_locks w) w).
  assert (during c keep w0 w0) as HI by by apply during_refl.
  unfold query. eapply wp_call; [by apply wp_latest|]. intros found w1 (HI1 & -> & Hsn1 & Hl1).
  apply wp_lift_bind. destruct (snap w0 c) as [st|] eqn:Hsn; simpl; [|done].
  destruct (du_stored _ _ _ _ HI1 c st) as [Hid Hg]; [congruence|].
  eapply wp_call; [apply wp_checkpoint; [done|done|by apply (good_same st)]|].
  intros [] w2 (HI2 & Hsn2 & Hl2).
  eapply wp_mono; [eapply (wp_resume_unlocked _ _ c keep d w0 w2); try done| |done].
  - by apply below_free.
  - intros st' Hst'. rewrite Hsn2 in Hst'. injection Hst' as <-. exact (Hprot st Hsn).
  - intros r w3 [Hd Hr]. split; [done|]. eapply returned_mono; [|done].
    intros Hfresh st'. rewrite Hsn2. intros [= <-]. exact (Hfresh st Hsn).
Qed.

Lemma cancelled_state st id :
  state_of (with_activities (fmap cancelled_record) st) id =
    (λ s, match s with
          | ActivityState.Completed | ActivityState.Failed | ActivityState.Skipped => s
          | _ => ActivityState.Skipped
          end) <$> state_of st id.
Proof.
  unfold state_of. simpl. rewrite lookup_fmap. destruct (es_activities st !! id) as [r|]; [|done].
  simpl. unfold cancelled_record. by destruct (ar_state r) eqn:E; simpl; rewrite ?E.
Qed.

Lemma wp_cancel c w :
  stored w →
  wp (cancel c) (λ st w', during c nothing w w' ∧ snap w' c = Some st ∧ good st (log w' c) ∧
      es_status st = WorkflowState.Cancelled ∧
      ∃ st0, snap w c = Some st0 ∧ WorkflowState.is_terminal (es_status st0) = false ∧
        same_activities (with_activities (fmap cancelled_record) st0) st)
    (λ s w', during c nothing w w' ∧ proper s) w.
Proof.
  intros Hs. assert (during c nothing w w) as HI by by apply during_refl.
  unfold cancel, query. eapply wp_call; [by apply wp_latest|]. intros found w1 (HI1 & -> & Hsn1 & Hl1).
  apply wp_lift_bind. destruct (snap w c) as [st|] eqn:Hsn; simpl; [|done].
  destruct (du_stored _ _ _ _ HI1 c st) as [Hid Hg]; [congruence|].
  destruct (WorkflowState.is_terminal (es_status st)) eqn:Hterm; [done|].
  set (st1 := with_activities (fmap cancelled_record) st).
  assert (good st1 (log w1 c)) as Hg1.
  { destruct Hg as [Hcore Hcl]. split.
    - destruct Hcore as [Hn Hc Hl Hv]. split; try done. intros id Hin. unfold st1.
      rewrite cancelled_state, Hc by done. done.
    - intros id s. unfold st1. rewrite cancelled_state. intros (s' & Hs' & ->)%fmap_Some.
      apply Hcl in Hs'. by destruct s'. }
  apply wp_transition_checkpoint with (w0 := w) (c := c) (keep := nothing); try done.
  intros st2 w2 [HI2 Hsn2 He2 Hg2] Hs2 Hsame2. apply wp_ret.
  split; [done|]. split; [done|]. split; [done|]. split; [done|]. eauto.
Qed.
End operations.
End inv.
