(* ===== verification/Scenario.v ===== *)
(** * Concrete worlds

    A store that crashes after a given number of writes, a runtime with a
    closure executor and a clock, and small workflows to run on them.  They
    instantiate the ports of the engine, so its theorems are about something. *)
From stdpp Require Import base tactics list numbers strings gmap.
From Stdlib Require Import Lia ZArith Ascii.
From S2P Require Import Prelude.
From S2P Require Import RustStr.
From S2P Require Import Common.
From S2P Require Import JsonValue.
From S2P Require Import State.
From S2P Require Import Retry.
From S2P Require Import Executor.
From S2P Require Import Template.
From S2P Require Import Event.
From S2P Require Import WorkflowDef.
From S2P Require Import WorkflowValid.
From S2P Require Import ExecState.
From S2P Require Import Store.
From S2P Require Import Effect.
From S2P Require Import Timer.
From S2P Require Import Engine.
From S2P Require Import EngineInv.
Local Open Scope Z_scope.

(** ** A store that stops accepting writes *)

Module CrashingStore.
Record t := { inner : InMemoryStore.t; writes_left : nat }.

Definition write {A} (f : InMemoryStore.t → InMemoryStore.t * result A) (s : t) : t * result A :=
  match writes_left s with
  | O => (s, Err (Runtime "store unavailable"))
  | S n => let '(i, r) := f (inner s) in ({| inner := i; writes_left := n |}, r)
  end.
Definition read {A} (f : InMemoryStore.t → InMemoryStore.t * result A) (s : t) : t * result A :=
  let '(i, r) := f (inner s) in ({| inner := i; writes_left := writes_left s |}, r).

#[global] Instance event_log : EventLog t := {
  append id e := write (append id e);
  load id := read (load id);
  compact id n := write (compact id n);
}.
#[global] Instance checkpoint_store : CheckpointStore t := {
  save st := write (save st);
  latest id := read (latest id);
  list_snapshots f := read (list_snapshots f);
}.
#[global] Program Instance laws : StoreLaws t := {
  events_of s id := events_of (inner s) id;
  snapshot_of s id := snapshot_of (inner s) id;
}.
Next Obligation.
  intros id e s. simpl. unfold write. destruct (writes_left s); simpl; [by auto|].
  exact (append_law id e (inner s)).
Qed.
Next Obligation.
  intros st s. simpl. unfold write. destruct (writes_left s); simpl; [by auto|].
  exact (save_law st (inner s)).
Qed.
Next Obligation. intros id s. by simpl. Qed.

#[global] Instance compaction_laws : CompactionLaws t.
Proof.
  constructor. intros id n s. simpl. unfold write. destruct (writes_left s); simpl; [by split_and!; auto|].
  pose proof (compact_law id n (inner s)) as Hlaw. simpl in *.
  by destruct (InMemoryStore.events (inner s) !! id).
Qed.
End CrashingStore.

(** ** A runtime *)

Record Runtime := { rt_executor : ClosureExecutor; rt_now : Z }.
#[export] Instance Runtime_execute : ActivityExecutor Runtime := λ ctx rt,
  let '(e, ex) := execute ctx (rt_executor rt) in ({| rt_executor := e; rt_now := rt_now rt |}, ex).
#[export] Instance Runtime_clock : Clock Runtime := rt_now.
#[export] Instance Runtime_sleep : Sleep Runtime := λ ms rt,
  {| rt_executor := rt_executor rt; rt_now := u64_saturating_add (rt_now rt) ms |}.

#[export] Instance scenario_json : SerdeJson := template_json.

(** The inputs of a loop: its items, and a body of a type and nothing else. *)
Definition loop_inputs (v : Value) : string + ForEachInputs :=
  match value_get "items" v, (value_get "activity" v ≫= value_get "type") ≫= as_str with
  | Some items, Some type => inr {|
      fei_items := items;
      fei_activity := {| body_type := type; body_name := None; body_inputs := Null;
                         body_retry := None |};
      fei_max_concurrent := value_get "max_concurrent" v ≫= as_u64; fei_max_items := None;
      fei_max_total_cost_usd := None; fei_max_total_tokens := None |}
  | _, _ => inl "missing field"
  end.
#[export] Instance scenario_definitions : DefinitionSerde := {|
  for_each_inputs_from_value := loop_inputs;
  definition_from_yaml := λ _, inl "no manifest here";
|}.

Notation SWorld := (World CrashingStore.t InMemoryTimerStore.t Runtime).

(** An empty world whose store accepts [writes] writes. *)
Definition fresh (writes : nat) (e : ClosureExecutor) (sched : list nat) : SWorld := {|
  w_store := {| CrashingStore.inner := InMemoryStore.new; CrashingStore.writes_left := writes |};
  w_timers := Some InMemoryTimerStore.new;
  w_env := {| rt_executor := e; rt_now := 1000 |};
  w_locks := ∅; w_sched := sched; w_calls := [] |}.

Lemma fresh_stored writes e sched : stored (fresh writes e sched).
Proof. by intros id st. Qed.

(** ** Workflows *)

Definition typed (id type : string) (name : option string) (inputs : Value) : ActivityDef := {|
  act_id := id; act_type := type; act_name := name; act_inputs := inputs;
  act_retry := None; act_compensate := None |}.
Definition undone_by (comp : string) (a : ActivityDef) : ActivityDef := {|
  act_id := act_id a; act_type := act_type a; act_name := act_name a; act_inputs := act_inputs a;
  act_retry := act_retry a; act_compensate := Some comp |}.

(** A definition without retry policies is loaded once it validates. *)
Lemma validated_loaded d :
  validate d = Some (Ok ()) → spec_retry (def_spec d) = None →
  forallb (λ a, bool_decide (act_retry a = None)) (spec_activities (def_spec d)) = true →
  loaded d.
Proof.
  intros Hv Hr Ha. rewrite forallb_forall in Ha.
  split; [by apply validate_Ok_well_formed| |].
  - intros id. unfold retry_for. destruct (activity d id) as [a|] eqn:Hact; simpl; rewrite Hr; [|done].
    apply activity_Some in Hact as [Hin _]. apply list_elem_of_In in Hin.
    apply Ha in Hin. to_prop. by rewrite Hin.
  - intros a spec _ Hp. apply ForEachSpec_parse_body in Hp as (p & Hp & Hb).
    unfold body_policy. rewrite Hb. simpl in Hp. unfold loop_inputs in Hp.
    repeat (case_match; simplify_eq). simpl. by rewrite Hr.
Qed.

(** A saga: each step has a handler that undoes it. *)
Definition saga : Definition_ :=
  graph [undone_by "release" (plain "reserve"); undone_by "refund" (plain "charge"); plain "ship";
         plain "refund"; plain "release"]
    [arrow "reserve" "charge"; arrow "charge" "ship"].

(** A branch that waits for an event, in between two steps. *)
Definition approval : Definition_ :=
  graph [plain "prepare"; typed "approve" "wait" None (Object [("event", Str "ok")]); plain "publish"]
    [arrow "prepare" "approve"; arrow "approve" "publish"].

(** Two texts of it. *)
Definition approval_v1 : Definition_ := set_source_hash approval (Some (content_hash "v1")).
Definition approval_v2 : Definition_ := set_source_hash approval (Some (content_hash "v2")).

(** Three branches that run together, and a join. *)
Definition diamond : Definition_ :=
  graph [plain "a"; plain "b"; plain "c"; plain "d"]
    [arrow "a" "d"; arrow "b" "d"; arrow "c" "d"].

(** A choice between [b] and [c]. *)
Definition choice : Definition_ :=
  graph [plain "a"; plain "b"; plain "c"; plain "d"]
    [{| tr_from := "a"; tr_to := "b"; tr_when := Some "a > 1" |};
     {| tr_from := "a"; tr_to := "c"; tr_when := Some "a <= 1" |}; arrow "b" "d"; arrow "c" "d"].
Definition choice_after_a : ExecutionState :=
  with_variables (insert "a" (json_u64 1))
    (set_activity "a" ActivityState.Completed (initial_state choice "e1" Null)).

(** A loop over a literal collection. *)
Definition loop : Definition_ :=
  graph [typed "each" "for_each" None
           (Object [("items", Array [json_u64 4; json_u64 5; json_u64 6]);
                    ("activity", Object [("type", Str "tool")]);
                    ("max_concurrent", json_u64 2)])] [].

(** A workflow whose only step is the child workflow [approval]. *)
Definition parent : Definition_ := graph [typed "sub" "workflow" (Some "approval") (Object [])] [].

Definition scenario_engine : Engine := {|
  subworkflows := Some (λ name, if String.eqb name "approval" then Some approval else None);
  max_subworkflow_depth := DEFAULT_MAX_SUBWORKFLOW_DEPTH;
  max_activity_output_bytes := DEFAULT_MAX_ACTIVITY_OUTPUT_BYTES |}.

(** Every handler answers with the attempt it is at, [ship] refuses, and [b]
    and the loop's instances need a second attempt. *)
Definition answer (ctx : ActivityContext) : ActivityError + Value := inr (json_u64 (ctx_attempt ctx)).
Definition second_attempt (ctx : ActivityContext) : ActivityError + Value :=
  if Z.ltb (ctx_attempt ctx) 2 then inl (Retryable "busy") else answer ctx.
Definition handlers_for_all : ClosureExecutor :=
  ClosureExecutor_on (foldl (λ e id, ClosureExecutor_on e id answer) ClosureExecutor_new
    ["reserve"; "charge"; "refund"; "release"; "prepare"; "publish"; "a"; "b"; "c"; "d";
     "each[0]"; "each[1]"; "each[2]"])
    "ship" (λ _, inl (Permanent "no stock")).

Lemma saga_loaded : loaded saga.
Proof. apply validated_loaded; by vm_compute. Qed.
Lemma approval_loaded : loaded approval.
Proof. apply validated_loaded; by vm_compute. Qed.
Lemma approval_v1_loaded : loaded approval_v1.
Proof. apply validated_loaded; by vm_compute. Qed.
Lemma approval_v2_loaded : loaded approval_v2.
Proof. apply validated_loaded; by vm_compute. Qed.
Lemma diamond_loaded : loaded diamond.
Proof. apply validated_loaded; by vm_compute. Qed.
Lemma choice_loaded : loaded choice.
Proof. apply validated_loaded; by vm_compute. Qed.
Lemma loop_loaded : loaded loop.
Proof. apply validated_loaded; by vm_compute. Qed.
Lemma parent_loaded : loaded parent.
Proof. apply validated_loaded; by vm_compute. Qed.
Lemma scenario_resolver_loaded : resolver_loaded scenario_engine.
Proof.
  intros resolver name d [= <-]. destruct (String.eqb name "approval"); [|done].
  intros [= <-]. apply approval_loaded.
Qed.

(** A world once its store is back. *)
Definition recovered (w : SWorld) : SWorld := {|
  w_store := {| CrashingStore.inner := CrashingStore.inner (w_store w);
                CrashingStore.writes_left := 100 |};
  w_timers := w_timers w; w_env := w_env w; w_locks := w_locks w; w_sched := w_sched w;
  w_calls := w_calls w |}.

Lemma recovered_stored w : stored w → stored (recovered w).
Proof. done. Qed.
Lemma recovered_locks w : w_locks (recovered w) = w_locks w.
Proof. done. Qed.

(** The operations of a list are on loaded definitions. *)
Ltac all_loaded :=
  repeat first
    [ exact I | exact scenario_resolver_loaded | exact saga_loaded | exact diamond_loaded
    | exact approval_loaded | exact approval_v1_loaded | exact approval_v2_loaded | exact choice_loaded | exact loop_loaded | exact parent_loaded
    | apply Forall_nil_2 | apply Forall_cons_2 ].
