(* ===== verification/EngineProps.v ===== *)
(** * What the engine guarantees

    The properties of whole operations, stated over any lawful store (one that
    may fail at any call), any executor, clock and schedule, and the concrete
    worlds that instantiate them. *)
From stdpp Require Import base tactics list numbers strings gmap.
From Stdlib Require Import Lia ZArith Ascii.
From S2P Require Import Prelude.
From S2P Require Import RustStr.
From S2P Require Import F64.
From S2P Require Import Common.
From S2P Require Import JsonValue.
From S2P Require Import State.
From S2P Require Import Retry.
From S2P Require Import Condition.
From S2P Require Import Executor.
From S2P Require Import Template.
From S2P Require Import Event.
From S2P Require Import WorkflowDef.
From S2P Require Import WorkflowValid.
From S2P Require Import ExecState.
From S2P Require Import Store.
From S2P Require Import Effect.
From S2P Require Import Timer.
From S2P Require Import Engine.
From S2P Require Import EngineInv.
From S2P Require Import Scenario.

(** ** Sequences of operations *)

(** Everything a caller may ask of an engine that can change anything; the
    queries ([query], [status], [list], [history]) only read. *)

Inductive operation :=
  | ORun (d : Definition_) (id : string) (input : Value)
  | OStart (d : Definition_) (id : string) (input : Value)
  | OResume (d : Definition_) (id : string)
  | OSignal (d : Definition_) (id name : string) (payload : Value)
  | OFire (d : Definition_) (id timer : string)
  | OCancel (id : string)
  | OCompact (id : string) (keep_after_seq : Z).

Definition target (op : operation) : string :=
  match op with
  | ORun _ id _ | OStart _ id _ | OResume _ id | OSignal _ id _ _ | OFire _ id _ | OCancel id
  | OCompact id _ => id
  end.
Definition definition_of (op : operation) : option Definition_ :=
  match op with
  | ORun d _ _ | OStart d _ _ | OResume d _ | OSignal d _ _ _ | OFire d _ _ => Some d
  | OCancel _ | OCompact _ _ => None
  end.

(** Retention apart, the operations that drive or mark an execution. *)
Definition compacts (op : operation) : bool :=
  match op with OCompact _ _ => true | _ => false end.

(** How many events of [id] the compactions among [ops] ask to drop. *)
Definition prunable (id : string) (ops : list operation) : nat :=
  sum_list (map (λ op, match op with
    | OCompact i keep_after_seq => if decide (i = id) then Z.to_nat keep_after_seq else 0
    | _ => 0
    end) ops).

Section props.
Context {St T X : Type}.
Context `{HEL : EventLog St, HCS : CheckpointStore St, HTS : TimerStore T}.
Context `{HAE : ActivityExecutor X, HCL : Clock X, HSL : Sleep X}.
Context `{HSJ : SerdeJson, HDS : DefinitionSerde}.
Context `{HLAWS : !StoreLaws St, HTL : !TimerStoreLaws T}.

Definition perform (eng : Engine) (op : operation) : M (World St T X) () :=
  match op with
  | ORun d id input => _ ← run eng d id input; mret ()
  | OStart d id input => _ ← start d id input; mret ()
  | OResume d id => _ ← resume eng d id; mret ()
  | OSignal d id name payload => _ ← signal_event eng d id name payload; mret ()
  | OFire d id timer => _ ← fire_timer eng d id timer; mret ()
  | OCancel id => _ ← cancel id; mret ()
  | OCompact id keep_after_seq => compact_history id keep_after_seq
  end.

(** Errors, panics and failed store calls included: the next operation starts
    from the world the last one left. *)
Definition perform_all (eng : Engine) (ops : list operation) (w : World St T X) : World St T X :=
  foldl (λ w op, (perform eng op w).1) w ops.

Definition operation_loaded (op : operation) : Prop :=
  match definition_of op with Some d => loaded d | None => True end.

Notation nothing := (λ _ : string, False).

Lemma wp_forget {A W} (m : M W A) (Q : W → Prop) E w :
  wp m (λ _ w', Q w') E w → wp (_ ← m; mret ()) (λ _ w', Q w') E w.
Proof. intros Hm. by eapply wp_call. Qed.

Lemma wp_perform eng op w :
  compacts op = false →
  resolver_loaded eng → operation_loaded op → stored w → subtree_free (target op) w →
  wp (perform eng op) (λ _ w', during (target op) nothing w w')
    (λ s w', during (target op) nothing w w' ∧ proper s) w.
Proof.
  intros Hop Hres Hload Hs Hfree.
  destruct op as [d id input|d id input|d id|d id name payload|d id timer|id|]; simpl in *;
    try discriminate Hop; apply wp_forget.
  - eapply wp_mono; [by apply wp_run| |done]. by intros r w' [? _].
  - eapply wp_mono; [apply wp_start; by apply during_refl| |done]. by intros r w' [? _].
  - eapply wp_mono; [apply (wp_resume eng Hres id nothing); try done; [by intros x|by intros st _ x]| |done].
    by intros r w' [? _].
  - eapply wp_mono; [apply (wp_deliver eng Hres id nothing); try done; [by intros x|by intros st _ x]| |done].
    by intros r w' [? _].
  - eapply wp_mono; [apply (wp_deliver eng Hres id nothing); try done; [by intros x|by intros st _ x]| |done].
    by intros r w' [? _].
  - eapply wp_mono; [by apply wp_cancel| |done]. by intros r w' [? _].
Qed.

Lemma perform_during eng op w w' o :
  compacts op = false →
  resolver_loaded eng → operation_loaded op → stored w → subtree_free (target op) w →
  perform eng op w = (w', o) →
  during (target op) nothing w w' ∧ (∀ s, o = Stop s → proper s).
Proof.
  intros Hop Hres Hload Hs Hfree Hp. pose proof (wp_perform eng op w Hop Hres Hload Hs Hfree) as Hwp.
  unfold wp in Hwp. rewrite Hp in Hwp. destruct o as [a|s].
  - by split.
  - destruct Hwp as [? ?]. split; [done|]. by intros s' [= <-].
Qed.

(** A compaction only calls the store. *)
Lemma perform_compact eng id n w w' o :
  perform eng (OCompact id n) w = (w', o) →
  w_store w' = (compact id n (w_store w)).1 ∧ w_locks w' = w_locks w ∧ w_calls w' = w_calls w ∧
  (∀ s, o = Stop s → proper s).
Proof.
  simpl. unfold compact_history, on_store. destruct (compact id n (w_store w)) as [s r].
  intros [= <- <-]. split_and!; [done..|]. intros s'. by destruct r; intros [= <-].
Qed.

End props.

(** ** Retention *)

Section retention.
Context {St T X : Type}.
Context `{HEL : EventLog St, HCS : CheckpointStore St, HTS : TimerStore T}.
Context `{HAE : ActivityExecutor X, HCL : Clock X, HSL : Sleep X}.
Context `{HSJ : SerdeJson, HDS : DefinitionSerde}.
Context `{HLAWS : !StoreLaws St, HTL : !TimerStoreLaws T}.

(** The store as it would be read with [pruned] put back in front of its logs. *)
Definition with_pruned (pruned : string → list WorkflowEvent) : StoreLaws St.
Proof.
  refine {| events_of s id := pruned id ++ events_of s id; snapshot_of := snapshot_of |}.
  - intros id e s. pose proof (append_law id e s) as Hlaw. destruct (append id e s) as [s' [n|err]];
      destruct Hlaw as (? & Hother & Hr); (split; [done|]); split.
    1, 3: by intros id' ?; rewrite Hother.
    + by rewrite Hr, app_assoc.
    + destruct Hr as [->| ->]; rewrite ?app_assoc; auto.
  - intros st s. pose proof (save_law st s) as Hlaw. destruct (save st s) as [s' r].
    destruct Hlaw as (Hl & ?). split; [by intros id; rewrite Hl|done].
  - intros id s. pose proof (latest_law id s) as Hlaw. destruct (latest id s) as [s' r].
    destruct Hlaw as (Hl & ?). split; [by intros id'; rewrite Hl|done].
Defined.

(** Every snapshot is consistent with its log and what was pruned from it. *)
Definition consistent (pruned : string → list WorkflowEvent) (w : World St T X) : Prop :=
  ∀ id st, snap w id = Some st → es_execution_id st = id ∧ good st (pruned id ++ log w id).

Lemma perform_consistent eng op pruned w :
  compacts op = false → resolver_loaded eng → operation_loaded op →
  consistent pruned w → w_locks w = ∅ →
  let w' := (perform eng op w).1 in
  consistent pruned w' ∧ w_locks w' = ∅ ∧ ∀ id, log w id `prefix_of` log w' id.
Proof.
  intros Hop Hres Hload Hs Hl. destruct (perform eng op w) as [w' o] eqn:Hp.
  destruct (perform_during (HLAWS := with_pruned pruned) eng op w w' o) as [[Hs1 Hlog1 _ Hlk1 _] _];
    try done. { intros x _. rewrite Hl. set_solver. }
  simpl. split; [exact Hs1|]. split; [congruence|]. intros id. exact (prefix_app_inv _ _ _ (Hlog1 id)).
Qed.

(** The event was in the log of [id] before some operation of [ops]. *)
Definition was_logged (eng : Engine) (ops : list operation) (w : World St T X) (id : string)
    (e : WorkflowEvent) : Prop :=
  ∃ before after, ops = before ++ after ∧ e ∈ log (perform_all eng before w) id.

Lemma perform_compact_consistent `{!CompactionLaws St} eng id n pruned w :
  consistent pruned w →
  let w' := (perform eng (OCompact id n) w).1 in
  ∃ cut, consistent (λ x, pruned x ++ cut x) w' ∧ w_locks w' = w_locks w ∧
    ∀ x, log w x = cut x ++ log w' x ∧ length (cut x) ≤ prunable x [OCompact id n].
Proof.
  intros Hs. destruct (perform eng (OCompact id n) w) as [w1 o] eqn:Hp.
  apply perform_compact in Hp as (Hst & Hlk & _ & _). simpl.
  pose proof (compact_law id n (w_store w)) as Hlaw.
  rewrite (surjective_pairing (compact _ _ _)), <- Hst in Hlaw. destruct Hlaw as (Hsnap & Hother & Hlog).
  assert (∃ cut, length cut ≤ Z.to_nat n ∧ log w id = cut ++ log w1 id) as (cut & Hn & Hcut).
  { unfold log. destruct Hlog as [->| ->]; [exists []; by split; [simpl; lia|]|].
    exists (take (Z.to_nat n) (events_of (w_store w) id)).
    split; [rewrite length_take; lia|by rewrite take_drop]. }
  set (q := λ x, if decide (id = x) then cut else []).
  assert (∀ x, log w x = q x ++ log w1 x) as Hq.
  { intros x. unfold q. destruct (decide (id = x)) as [<-|]; [done|]. symmetry. by apply Hother. }
  exists q. split; [|split; [done|]].
  - intros x st Hx. unfold snap in Hx. rewrite Hsnap in Hx. rewrite <- app_assoc, <- Hq. by apply Hs.
  - intros x. split; [done|]. unfold prunable, q. simpl. destruct (decide (id = x)); simpl; lia.
Qed.

Lemma perform_step `{!CompactionLaws St} eng op pruned w :
  resolver_loaded eng → operation_loaded op → consistent pruned w → w_locks w = ∅ →
  let w' := (perform eng op w).1 in
  ∃ cut, consistent (λ x, pruned x ++ cut x) w' ∧ w_locks w' = ∅ ∧
    ∀ x, log w x `prefix_of` cut x ++ log w' x ∧ length (cut x) ≤ prunable x [op] ∧
      cut x `prefix_of` log w x.
Proof.
  intros Hres Hop Hs Hl. destruct (compacts op) eqn:Hc.
  - destruct op as [| | | | | |id n]; try discriminate Hc.
    destruct (perform_compact_consistent eng id n pruned w Hs) as (cut & Hs' & Hl' & Hcut).
    exists cut. split; [done|]. split; [by rewrite Hl'|]. intros x. destruct (Hcut x) as [-> ?].
    split; [done|]. split; [done|]. by apply prefix_app_r.
  - destruct (perform_consistent eng op pruned w Hc Hres Hop Hs Hl) as (Hs' & Hl' & Hgrow).
    exists (λ _, []). split; [intros x; rewrite app_nil_r; apply Hs'|]. split; [done|].
    intros x. split; [apply Hgrow|]. split; [simpl; lia|apply prefix_nil].
Qed.

Lemma perform_all_consistent `{!CompactionLaws St} eng ops pruned w :
  resolver_loaded eng → Forall operation_loaded ops → consistent pruned w → w_locks w = ∅ →
  let w' := perform_all eng ops w in
  ∃ more, consistent (λ x, pruned x ++ more x) w' ∧ w_locks w' = ∅ ∧
    ∀ x, log w x `prefix_of` more x ++ log w' x ∧ length (more x) ≤ prunable x ops ∧
      ∀ e, e ∈ more x → was_logged eng ops w x e.
Proof.
  intros Hres Hops. revert pruned w. induction Hops as [|op ops Hop _ IH]; intros p w Hs Hl.
  { exists (λ _, []). split; [intros x; rewrite app_nil_r; apply Hs|]. split; [done|].
    intros x. split; [done|]. split; [done|]. by intros e ?%not_elem_of_nil. }
  destruct (perform_step eng op p w Hres Hop Hs Hl) as (cut & Hs1 & Hl1 & Hcut).
  destruct (IH _ _ Hs1 Hl1) as (more & Hs' & Hl' & Hm).
  exists (λ x, cut x ++ more x). split; [|split; [done|]].
  { intros x st Hx. rewrite app_assoc. by apply Hs'. }
  intros x. destruct (Hcut x) as (Hpre1 & Hlen1 & Hold), (Hm x) as (Hpre & Hlen & Hwas).
  rewrite <- app_assoc. split; [by etrans; [exact Hpre1|apply prefix_app]|]. split.
  { rewrite length_app. unfold prunable in *. simpl in *. lia. }
  intros e [He|He]%elem_of_app.
  - exists [], (op :: ops). split; [done|]. by eapply elem_of_prefix.
  - destruct (Hwas e He) as (before & after & -> & Hin). by exists (op :: before), after.
Qed.

Lemma perform_all_stored eng ops w :
  Forall (λ op, compacts op = false) ops →
  resolver_loaded eng → Forall operation_loaded ops → stored w → w_locks w = ∅ →
  stored (perform_all eng ops w) ∧ w_locks (perform_all eng ops w) = ∅.
Proof.
  intros Hc Hres Hops. revert w. induction Hops as [|op ops Hop _ IH]; intros w Hs Hl; [done|].
  apply Forall_cons in Hc as [Hc Hcs]. simpl.
  destruct (perform_consistent eng op (λ _, []) w Hc Hres Hop Hs Hl) as (Hs1 & Hl1 & _). by apply IH.
Qed.
End retention.

(** A saga whose store fails after eight writes, in the middle of [charge]; and
    the same world once the store is back. *)
Definition crashed_saga : SWorld :=
  recovered (perform_all scenario_engine [ORun saga "e1" Null] (fresh 8 handlers_for_all [])).

Lemma crashed_saga_stored : stored crashed_saga ∧ subtree_free "e1" crashed_saga.
Proof.
  destruct (perform_all_stored scenario_engine [ORun saga "e1" Null] (fresh 8 handlers_for_all []))
    as (Hs & Hl); [by repeat constructor|all_loaded..|apply fresh_stored|reflexivity|].
  split; [exact (recovered_stored _ Hs)|]. intros x _. unfold crashed_saga. rewrite recovered_locks, Hl. apply not_elem_of_empty.
Qed.

(** A world reached by operations on loaded definitions from an empty one. *)
Lemma reached_stored ops writes sched :
  Forall (λ op, compacts op = false) ops → Forall operation_loaded ops →
  let w := perform_all scenario_engine ops (fresh writes handlers_for_all sched) in
  stored w ∧ ∀ c, c ∉ w_locks w.
Proof.
  intros Hc Hops w.
  destruct (perform_all_stored scenario_engine ops (fresh writes handlers_for_all sched))
    as (Hs & Hl); [exact Hc|exact scenario_resolver_loaded|exact Hops|apply fresh_stored|reflexivity|].
  split; [exact Hs|]. intros c. subst w. rewrite Hl. apply not_elem_of_empty.
Qed.

(** ** Properties *)

(** C1: whatever sequence of engine operations on loaded definitions is
    performed (resumes, signals, cancellations and compactions of the event
    logs), from a store whose snapshots are consistent, and wherever a store
    call, a timer call or an activity fails on the way (a crash included), every
    snapshot the store holds afterwards is consistent: it is filed under its
    own id, its compensation stack lists completed activities without
    repetition, the completion event of each was logged, its version does not
    exceed the number of logged events, and no activity is recorded as
    scheduled or running.  What was logged is the events of [pruned] followed
    by those the store still holds: the pruned events were in the log at some
    point on the way, a log only ever loses events from its front, at most as
    many as its compactions asked for (none without a compaction), and apart
    from that it only grows.  Every execution lock is given back. *)
Theorem snapshots_stay_consistent {St T X} `{CompactionLaws St, TimerStoreLaws T}
    `{ActivityExecutor X, Clock X, Sleep X, SerdeJson, DefinitionSerde}
    (eng : Engine) (ops : list operation) (w : World St T X) :
  resolver_loaded eng → Forall operation_loaded ops → stored w → w_locks w = ∅ →
  let w' := perform_all eng ops w in
  ∃ pruned : string → list WorkflowEvent,
    (∀ id st, snap w' id = Some st →
       es_execution_id st = id ∧ good st (pruned id ++ log w' id)) ∧
    w_locks w' = ∅ ∧
    ∀ id, log w id `prefix_of` pruned id ++ log w' id ∧ length (pruned id) ≤ prunable id ops ∧
      ∀ e, e ∈ pruned id → was_logged eng ops w id e.
Proof. intros Hres Hops Hs Hl. exact (perform_all_consistent eng ops (λ _, []) w Hres Hops Hs Hl). Qed.

Lemma snapshots_stay_consistent_witness :
  let ops := [ORun saga "e1" Null; OCompact "e1" 3; OResume saga "e1"; OCancel "e1"] in
  let w' := perform_all scenario_engine ops (fresh 12 handlers_for_all []) in
  ∃ pruned, (∀ id st, snap w' id = Some st →
      es_execution_id st = id ∧ good st (pruned id ++ log w' id)) ∧
    length (pruned "e1") ≤ 3 ∧ pruned "e2" = [].
Proof.
  intros ops w'.
  destruct (snapshots_stay_consistent scenario_engine ops (fresh 12 handlers_for_all []))
    as (pruned & Hs & _ & Hl); [apply scenario_resolver_loaded|all_loaded|apply fresh_stored|done|].
  exists pruned. split; [exact Hs|]. split; [apply (Hl "e1")|].
  apply nil_length_inv. pose proof (proj1 (proj2 (Hl "e2"))) as Hlen. change (prunable "e2" ops) with 0 in Hlen. lia.
Defined.

(** C2: every engine operation on loaded definitions comes to an end.  From a
    consistent store in which no lock of the execution or of its sub-workflows
    is held, no loop runs out of its fuel (the retry loops, the joins of a
    concurrent batch under any schedule, the skip and scheduling loops and the
    nesting of sub-workflows included), and the operation never waits for a
    lock it holds itself: it returns, returns an error, or panics. *)
Theorem operations_terminate {St T X} `{StoreLaws St, TimerStoreLaws T}
    `{ActivityExecutor X, Clock X, Sleep X, SerdeJson, DefinitionSerde}
    (eng : Engine) (op : operation) (w : World St T X) :
  resolver_loaded eng → operation_loaded op → stored w → subtree_free (target op) w →
  (perform eng op w).2 ≠ Stop Exhausted ∧ (perform eng op w).2 ≠ Stop Deadlocked.
Proof.
  intros Hres Hload Hs Hfree. destruct (perform eng op w) as [w' o] eqn:Hp.
  assert (∀ s, o = Stop s → proper s) as Hproper.
  { destruct (compacts op) eqn:Hc; [|by destruct (perform_during eng op w w' o) as [_ Hproper]].
    destruct op; try discriminate Hc. by apply perform_compact in Hp as (_ & _ & _ & ?). }
  simpl. split; intros ->; by destruct (Hproper _ eq_refl).
Qed.

Lemma operations_terminate_witness :
  (perform scenario_engine (ORun diamond "e1" Null) (fresh 8 handlers_for_all [7; 2; 1])).2
    ≠ Stop Exhausted.
Proof.
  apply (operations_terminate scenario_engine (ORun diamond "e1" Null)
           (fresh 8 handlers_for_all [7; 2; 1]));
    [apply scenario_resolver_loaded|apply diamond_loaded|apply fresh_stored|by intros x].
Defined.

(** C4: an operation on one execution touches no other: the snapshots and the
    logs of executions that are neither it nor one of its sub-workflows are
    unchanged, and every executor call is made for it or for one of them. *)
Theorem operations_are_isolated {St T X} `{CompactionLaws St, TimerStoreLaws T}
    `{ActivityExecutor X, Clock X, Sleep X, SerdeJson, DefinitionSerde}
    (eng : Engine) (op : operation) (w : World St T X) id :
  resolver_loaded eng → operation_loaded op → stored w → subtree_free (target op) w →
  ¬ within (target op) id →
  let w' := (perform eng op w).1 in
  snap w' id = snap w id ∧ log w' id = log w id ∧
  ∃ new, w_calls w' = w_calls w ++ new ∧ ∀ e ctx, (e, ctx) ∈ new → within (target op) e.
Proof.
  intros Hres Hload Hs Hfree Hid. destruct (perform eng op w) as [w' o] eqn:Hp.
  destruct (compacts op) eqn:Hop.
  { destruct op as [| | | | | |c n]; try discriminate Hop. simpl in *.
    apply (perform_compact eng) in Hp as (Hst & _ & Hcalls & _). unfold snap, log. simpl. rewrite Hst.
    pose proof (compact_law c n (w_store w)) as Hlaw. destruct (compact c n (w_store w)) as [s r].
    destruct Hlaw as (Hsnap & Hother & _). simpl. split; [apply Hsnap|].
    split; [apply Hother; intros ->; apply Hid; by left|]. exists [].
    rewrite Hcalls, app_nil_r. split; [done|]. by intros e ctx ?%not_elem_of_nil. }
  destruct (perform_during eng op w w' o) as [[_ _ Hf _ (new & Hc & Hnew)] _]; try done. simpl.
  destruct (Hf id Hid) as [-> ->]. split; [done|]. split; [done|].
  exists new. split; [done|]. intros e ctx Hin. by apply Hnew in Hin as [? _].
Qed.

Lemma operations_are_isolated_witness :
  log (perform scenario_engine (ORun parent "e1" Null) (fresh 50 handlers_for_all [])).1 "e2" =
  log (fresh 50 handlers_for_all []) "e2".
Proof.
  apply (operations_are_isolated scenario_engine (ORun parent "e1" Null)
           (fresh 50 handlers_for_all []) "e2");
    [apply scenario_resolver_loaded|apply parent_loaded|apply fresh_stored|by intros x|].
  intros [?|[t ?]]; done.
Defined.

(** C3: completed work is never repeated.  Resuming an execution makes no
    executor call for an activity its snapshot records as completed (a
    compensation handler apart, which runs only during rollback), whatever
    happens during the resume. *)
Theorem completed_never_rerun {St T X} `{StoreLaws St, TimerStoreLaws T}
    `{ActivityExecutor X, Clock X, Sleep X, SerdeJson, DefinitionSerde}
    (eng : Engine) d c (w w' : World St T X) o st :
  resolver_loaded eng → loaded d → stored w → subtree_free c w →
  snap w c = Some st → resume eng d c w = (w', o) →
  ∃ new, w_calls w' = w_calls w ++ new ∧
    ∀ ctx, (c, ctx) ∈ new → is_handler d (ctx_id ctx) = false →
      state_of st (ctx_id ctx) ≠ Some ActivityState.Completed.
Proof.
  intros Hres Hload Hs Hfree Hsn Hr.
  set (keep := λ x, is_handler d x = false ∧ state_of st x = Some ActivityState.Completed).
  pose proof (wp_resume eng Hres c keep d w Hload) as Hwp. unfold wp in Hwp. rewrite Hr in Hwp.
  assert (during c keep w w') as [_ _ _ _ (new & Hc & Hnew)].
  { destruct o as [a|s]; destruct Hwp as [Hd _]; try done; try (by intros x [? _]);
      rewrite Hsn; intros st' [= <-] x [_ ?]; done. }
  exists new. split; [done|]. intros ctx Hin Hh Hst.
  apply Hnew in Hin as [_ Hk]. by apply Hk.
Qed.

Lemma completed_never_rerun_witness :
  ∃ st new, snap crashed_saga "e1" = Some st ∧
    state_of st "reserve" = Some ActivityState.Completed ∧
    w_calls (resume scenario_engine saga "e1" crashed_saga).1 =
      w_calls crashed_saga ++ new ∧
    ∀ ctx, ("e1", ctx) ∈ new → is_handler saga (ctx_id ctx) = false →
      state_of st (ctx_id ctx) ≠ Some ActivityState.Completed.
Proof.
  destruct (snap crashed_saga "e1") as [st|] eqn:Hsn; [|by vm_compute in Hsn].
  assert (snap crashed_saga "e1" ≫= (λ s, state_of s "reserve")
    = Some ActivityState.Completed) as Hres by by vm_compute.
  rewrite Hsn in Hres. exists st.
  destruct (resume scenario_engine saga "e1" crashed_saga) as [w' o] eqn:Hr.
  destruct (completed_never_rerun scenario_engine saga "e1" crashed_saga w' o st)
    as [new Hnew]; [apply scenario_resolver_loaded|apply saga_loaded| | |exact Hsn|exact Hr|].
  - apply crashed_saga_stored.
  - apply crashed_saga_stored.
  - exists new. split; [reflexivity|]. split; [exact Hres|exact Hnew].
Defined.

(** What a resume returns is what it persisted, and the outcome tells the
    truth about it: the returned snapshot is the stored one and is consistent
    with the log; [Completed] means the workflow is in the [Completed] state,
    and, when it was not completed before, that every activity outside
    compensation is completed or skipped; [Compensated] means [Failed]; a failed
    run is never recorded as completed; and an interrupted one can still be
    resumed. *)
Theorem resume_returns_persisted {St T X} `{StoreLaws St, TimerStoreLaws T}
    `{ActivityExecutor X, Clock X, Sleep X, SerdeJson, DefinitionSerde}
    (eng : Engine) d c (w w' : World St T X) outcome st' :
  resolver_loaded eng → loaded d → stored w → subtree_free c w →
  resume eng d c w = (w', Ret (outcome, st')) →
  snap w' c = Some st' ∧ good st' (log w' c) ∧
  match outcome with
  | RunCompleted => es_status st' = WorkflowState.Completed ∧
      (not_completed w c → all_settled d st')
  | RunCompensated _ => es_status st' = WorkflowState.Failed
  | RunFailed _ => es_status st' ≠ WorkflowState.Completed
  | RunInterrupted _ => WorkflowState.is_terminal (es_status st') = false
  end.
Proof.
  intros Hres Hload Hs Hfree Hr.
  pose proof (wp_resume eng Hres c (λ _, False) d w Hload) as Hwp. unfold wp in Hwp.
  rewrite Hr in Hwp. destruct Hwp as [_ Hret]; try done; [by intros x|by intros ? _ x].
Qed.

Lemma resume_returns_persisted_witness :
  let w := crashed_saga in
  match resume scenario_engine saga "e1" w with
  | (w', Ret (outcome, st')) => (∃ msg, outcome = RunCompensated msg) ∧
      snap w' "e1" = Some st' ∧ es_status st' = WorkflowState.Failed
  | _ => False
  end.
Proof.
  intros w. destruct (resume scenario_engine saga "e1" w) as [w' [[outcome st']|s]] eqn:Hr;
    [|by vm_compute in Hr].
  assert (∃ msg, outcome = RunCompensated msg) as [msg ->].
  { apply (f_equal (λ r, match r.2 with Ret (o, _) => Some o | _ => None end)) in Hr.
    vm_compute in Hr. injection Hr as <-. by eexists. }
  destruct (resume_returns_persisted scenario_engine saga "e1" w w' (RunCompensated msg) st')
    as (Hsn & _ & Hst); [apply scenario_resolver_loaded|apply saga_loaded| | |exact Hr|].
  - apply crashed_saga_stored.
  - apply crashed_saga_stored.
  - split; [by eexists|]. split; [exact Hsn|exact Hst].
Defined.
