(* ===== verification/EngineSched.v ===== *)
(** * The scheduler makes progress

    What the scheduling loop can do at a state: an activity is picked exactly
    when its predecessors allow it, and on an acyclic definition some activity
    can always be picked until all are settled. *)
From stdpp Require Import base tactics list numbers strings gmap relations.
From Stdlib Require Import Lia ZArith Ascii.
From S2P Require Import Prelude.
From S2P Require Import Common.
From S2P Require Import JsonValue.
From S2P Require Import State.
From S2P Require Import Condition.
From S2P Require Import Executor.
From S2P Require Import Template.
From S2P Require Import Event.
From S2P Require Import WorkflowDef.
From S2P Require Import WorkflowValid.
From S2P Require Import ExecState.
From S2P Require Import Store.
From S2P Require Import Effect.
From S2P Require Import Timer.
From S2P Require Import Engine.
From S2P Require Import EngineInv.
From S2P Require Import Scenario.

(** ** Inversion of the emitting operations *)

Section inversion.
Context {St T X : Type}.
Context `{HEL : EventLog St, HCS : CheckpointStore St}.
Notation M := (M (World St T X)).

Lemma emit_Ret (st st' : ExecutionState) e (w w' : World St T X) :
  emit st e w = (w', Ret st') → st' = with_version (u64_wrapping_add (es_version st) 1) st.
Proof. unfold emit. intros (w1 & n & _ & [= <- <-])%bind_Ret_inv. done. Qed.

Lemma emit_checkpoint_Ret (st st' : ExecutionState) e (w w' : World St T X) :
  emit_checkpoint st e w = (w', Ret st') →
  st' = with_version (u64_wrapping_add (es_version st) 1) st.
Proof.
  unfold emit_checkpoint. intros (w1 & st1 & He & Hr)%bind_Ret_inv.
  apply bind_Ret_inv in Hr as (w2 & u & _ & [= <- <-]). by eapply emit_Ret.
Qed.
End inversion.

(** ** Edges *)

Lemma edges_of_elem d st id e :
  e ∈ edges_of d st id ↔ ∃ t, t ∈ spec_transitions (def_spec d) ∧ tr_to t = id ∧ classify_edge t st = e.
Proof.
  unfold edges_of, inbound. rewrite list_elem_of_fmap. split.
  - intros (t & -> & [Hin Ht]%filter_elem). exists t. split; [done|]. by apply String.eqb_eq in Ht.
  - intros (t & Hin & Ht & <-). exists t. split; [done|]. apply filter_elem. split; [done|].
    by apply String.eqb_eq.
Qed.

Lemma classify_pending t st :
  classify_edge t st = Pending →
  ∀ s, state_of st (tr_from t) = Some s →
  s ≠ ActivityState.Completed ∧ s ≠ ActivityState.Skipped ∧ s ≠ ActivityState.Failed.
Proof.
  unfold classify_edge. intros Hp s Hs. rewrite Hs in Hp.
  destruct s; try done. by repeat case_match.
Qed.

(** The states between which an edge's class cannot change from [Live]. *)
Lemma live_stays st st' d id :
  es_variables st' = es_variables st →
  (∀ x, state_of st x = Some ActivityState.Completed → state_of st' x = Some ActivityState.Completed) →
  Live ∈ edges_of d st id → Live ∈ edges_of d st' id.
Proof.
  intros Hv Hc (t & Hin & Ht & Hl)%edges_of_elem. apply edges_of_elem. exists t.
  split; [done|]. split; [done|]. revert Hl. unfold classify_edge.
  destruct (state_of st (tr_from t)) as [s|] eqn:Hs; [|done]. destruct s; try done.
  rewrite (Hc _ Hs), Hv. done.
Qed.

Lemma is_ready_spec d st id s :
  state_of st id = Some s →
  is_ready d st id = Ret (runnable s &&
    (bool_decide (edges_of d st id = []) ||
     (negb (bool_decide (Pending ∈ edges_of d st id)) && bool_decide (Live ∈ edges_of d st id)))).
Proof.
  unfold state_of. intros (r & Hr & ->)%fmap_Some. unfold is_ready, record. rewrite Hr. simpl.
  destruct (runnable (ar_state r)); [|done]. simpl. by destruct (edges_of d st id).
Qed.

(** ** What [apply_skips] leaves *)

Definition skipped_from (st st' : ExecutionState) : Prop :=
  es_variables st' = es_variables st ∧
  ∀ id, state_of st' id = state_of st id ∨
    (∃ s, state_of st id = Some s ∧ skippable s = true ∧
          state_of st' id = Some ActivityState.Skipped).

Lemma skipped_from_refl st : skipped_from st st.
Proof. split; [done|]. by left. Qed.

Lemma skipped_from_step d st st1 st2 id v :
  dead_branch d st id → st1 = with_version v (set_activity id ActivityState.Skipped st) →
  skipped_from st1 st2 → skipped_from st st2.
Proof.
  intros (_ & (s & Hs & Hk) & _) -> [Hv Hst]. split; [done|]. intros x.
  assert (state_of (with_version v (set_activity id ActivityState.Skipped st)) x =
    if decide (id = x) then Some ActivityState.Skipped else state_of st x) as Hx.
  { change (state_of (set_activity id ActivityState.Skipped st) x = if decide (id = x)
      then Some ActivityState.Skipped else state_of st x).
    rewrite state_of_set_activity. case_decide; [|done]. by rewrite Hs. }
  destruct (Hst x) as [Heq|(s' & Hs' & Hk' & Hx')]; rewrite Hx in *; case_decide; subst; eauto.
Qed.

Lemma apply_skips_go_Ret {St T X} `{EventLog St, CheckpointStore St} fuel d st st'
    (w w' : World St T X) :
  apply_skips_go fuel d st w = (w', Ret st') →
  skipped_from st st' ∧ ∀ id, id ∈ activity_ids d → not_dead d st' id.
Proof.
  revert st w. induction fuel as [|fuel IH]; intros st w; simpl; [done|].
  intros (w1 & o & [= <- Ho] & Hr)%bind_Ret_inv.
  pose proof (find_skip_spec d st (spec_activities (def_spec d))) as Hskip. rewrite Ho in Hskip.
  destruct o as [id|]; simpl in Hskip.
  - apply bind_Ret_inv in Hr as (w2 & st1 & He & Hr). apply emit_checkpoint_Ret in He.
    destruct (IH _ _ Hr) as [Hs Hn]. split; [|done]. eapply skipped_from_step; [apply Hskip|done|done].
  - injection Hr as <- <-. split; [apply skipped_from_refl|done].
Qed.

(** ** Progress *)

(** States from which an activity is not in the middle of anything and has not
    failed. *)
Definition at_rest (s : ActivityState.t) : bool :=
  match s with
  | ActivityState.Failed | ActivityState.Scheduled | ActivityState.Running => false
  | _ => true
  end.

(** Every activity that is to run forward has a record at rest, and one that
    waits was let through by a guard that still holds. *)
Definition resting (d : Definition_) (st : ExecutionState) : Prop :=
  ∀ id, id ∈ activity_ids d → is_handler d id = false →
    ∃ s, state_of st id = Some s ∧ at_rest s = true ∧
      (s = ActivityState.Waiting → edges_of d st id = [] ∨ Live ∈ edges_of d st id).

Lemma skipped_resting d st st' : skipped_from st st' → resting d st → resting d st'.
Proof.
  intros [Hv Hst] Hrest id Hin Hh. destruct (Hrest id Hin Hh) as (s & Hs & Hr & Hw).
  destruct (Hst id) as [Heq|(s' & Hs' & Hk & Hx)].
  - exists s. rewrite Heq. split; [done|]. split; [done|]. intros Hwait.
    destruct (Hw Hwait) as [Hnil|Hl].
    + left. destruct (edges_of d st' id) as [|e es] eqn:He; [done|].
      assert (e ∈ edges_of d st' id) as (t & Ht & Hto & _)%edges_of_elem by (rewrite He; set_solver).
      assert (classify_edge t st ∈ edges_of d st id) as Hin' by (apply edges_of_elem; eauto).
      rewrite Hnil in Hin'. by apply not_elem_of_nil in Hin'.
    + right. eapply live_stays; [done| |done]. intros x Hx.
      destruct (Hst x) as [->|(s' & Hs' & Hk & _)]; [done|]. rewrite Hx in Hs'.
      injection Hs' as <-. done.
  - exists ActivityState.Skipped. split; [done|]. by split.
Qed.

Lemma edge_decided d st t :
  resting d st → tr_from t ∈ activity_ids d → is_handler d (tr_from t) = false →
  settled st (tr_from t) = true → classify_edge t st ≠ Pending.
Proof.
  intros Hrest Hin Hh Hset Hp. destruct (Hrest _ Hin Hh) as (s & Hs & _).
  pose proof (classify_pending _ _ Hp s Hs) as (? & ? & ?).
  unfold settled in Hset. rewrite Hs in Hset. by destruct s.
Qed.

(** An activity still to run whose inbound transition leaves a compensation
    handler and is undecided: the engine does not run handlers forward, so it
    waits for ever. *)
Definition waits_for_handler (d : Definition_) (st : ExecutionState) (t : Transition) : Prop :=
  is_handler d (tr_from t) = true ∧ is_handler d (tr_to t) = false ∧
  settled st (tr_to t) = false ∧ classify_edge t st = Pending.
#[export] Instance waits_for_handler_dec d st t : Decision (waits_for_handler d st t).
Proof. unfold waits_for_handler. apply _. Defined.

(** The activities still to run, none of which is ready, all have one such
    predecessor. *)
Lemma stuck_predecessor `{DefinitionSerde} d st v :
  well_formed d →
  (∀ t, t ∈ spec_transitions (def_spec d) → ¬ waits_for_handler d st t) →
  resting d st → (∀ id, id ∈ activity_ids d → not_dead d st id) →
  (∀ id, id ∈ activity_ids d → is_handler d id = false → is_ready d st id = Ret false) →
  v ∈ activity_ids d → is_handler d v = false → settled st v = false →
  ∃ u, edge d u v ∧ u ∈ activity_ids d ∧ is_handler d u = false ∧ settled st u = false.
Proof.
  intros Hwf Hsrc Hrest Hnd Hready Hv Hh Hset.
  destruct (Hrest v Hv Hh) as (s & Hs & Hr & Hw).
  pose proof (Hready v Hv Hh) as Hno. rewrite (is_ready_spec _ _ _ s Hs) in Hno.
  assert (runnable s = true) as Hrun.
  { unfold settled in Hset. rewrite Hs in Hset. by destruct s. }
  rewrite Hrun in Hno. simpl in Hno. injection Hno as Hno.
  apply orb_false_elim in Hno as [Hnil%bool_decide_eq_false Hno].
  assert (∃ e, e ∈ edges_of d st v ∧ e ≠ Dead) as (e & He & Hne).
  { destruct (Hnd v Hv Hh) as (s' & Hs' & Hk). rewrite Hs in Hs'. injection Hs' as <-.
    destruct (skippable s) eqn:Hsk.
    - destruct (Hk eq_refl) as [?|?]; [done|done].
    - assert (s = ActivityState.Waiting) as Hwait by by destruct s.
      destruct (Hw Hwait) as [?|Hl]; [done|]. by exists Live. }
  assert (Pending ∈ edges_of d st v) as (t & Ht & Hto & Hp)%edges_of_elem.
  { destruct e; try done. apply andb_false_iff in Hno as [Hno|Hno].
    - apply negb_false_iff in Hno. by apply bool_decide_eq_true in Hno.
    - by apply bool_decide_eq_false in Hno. }
  exists (tr_from t). destruct (wf_edges d Hwf t Ht) as [Hfrom _].
  assert (is_handler d (tr_from t) = false) as Hhf.
  { destruct (is_handler d (tr_from t)) eqn:Hhf; [|done]. destruct (Hsrc t Ht). by subst v. }
  split; [by exists t|]. split; [done|]. split; [done|].
  destruct (settled st (tr_from t)) eqn:Hst; [|done].
  exfalso. by apply (edge_decided d st t Hrest Hfrom Hhf).
Qed.

(** Every activity to run forward has a record. *)
Definition recorded (d : Definition_) (st : ExecutionState) : Prop :=
  ∀ id, id ∈ activity_ids d → is_handler d id = false → ∃ s, state_of st id = Some s.

Lemma resting_recorded d st : resting d st → recorded d st.
Proof. intros Hr id Hin Hh. destruct (Hr id Hin Hh) as (s & Hs & _). eauto. Qed.

Definition ready (d : Definition_) (st : ExecutionState) (id : string) : bool :=
  match is_ready d st id with Ret b => b | Stop _ => false end.

Lemma is_ready_ready d st id s : state_of st id = Some s → is_ready d st id = Ret (ready d st id).
Proof. intros Hs. unfold ready. by rewrite (is_ready_spec _ _ _ _ Hs). Qed.

(** The scans in terms of [ready]. *)
Definition candidates (d : Definition_) (st : ExecutionState) : list ActivityDef :=
  List.filter (λ a, negb (is_handler d (act_id a)) && ready d st (act_id a))
    (spec_activities (def_spec d)).

Lemma next_ready_eq d st :
  recorded d st → next_ready d st = Ret (act_id <$> head (candidates d st)).
Proof.
  unfold recorded, next_ready, candidates, activity_ids. intros Hrec.
  induction (spec_activities (def_spec d)) as [|a acts IH]; [done|]. simpl.
  assert (∀ id, id ∈ map act_id acts → is_handler d id = false → ∃ s, state_of st id = Some s)
    as Hrec' by (intros id Hin; apply Hrec; simpl; set_solver).
  destruct (is_handler d (act_id a)) eqn:Hh; simpl; [by apply IH|].
  destruct (Hrec (act_id a)) as (s & Hs); [simpl; set_solver|done|].
  rewrite (is_ready_ready _ _ _ _ Hs). simpl.
  destruct (ready d st (act_id a)); [done|by apply IH].
Qed.

Lemma ready_batch_eq d st :
  recorded d st →
  ready_batch d st = Ret (map act_id (List.filter (batchable d) (candidates d st))).
Proof.
  unfold recorded, ready_batch, candidates, activity_ids. intros Hrec.
  induction (spec_activities (def_spec d)) as [|a acts IH]; [done|]. simpl.
  assert (∀ id, id ∈ map act_id acts → is_handler d id = false → ∃ s, state_of st id = Some s)
    as Hrec' by (intros id Hin; apply Hrec; simpl; set_solver).
  rewrite (IH Hrec'). destruct (is_handler d (act_id a)) eqn:Hh; simpl.
  { assert (batchable d a = false) as -> by (unfold batchable; by rewrite Hh). done. }
  destruct (Hrec (act_id a)) as (s & Hs); [simpl; set_solver|done|].
  rewrite (is_ready_ready _ _ _ _ Hs). simpl.
  destruct (ready d st (act_id a)); simpl; by destruct (batchable d a).
Qed.

Lemma forward_complete_eq d st :
  recorded d st →
  ∃ b, forward_complete d st = Ret b ∧
    (b = true ↔ ∀ id, id ∈ activity_ids d → is_handler d id = false → settled st id = true).
Proof.
  intros Hrec. pose proof (forward_complete_spec d st) as Hspec.
  destruct (forward_complete d st) as [b|s] eqn:Hfc; [eauto|]. exfalso.
  assert (∀ acts, (∀ a, a ∈ acts → a ∈ spec_activities (def_spec d)) →
    forward_complete_go d st acts ≠ Stop s) as Hno; [|by eapply Hno].
  induction acts as [|a acts IH]; intros Hin; [done|]. simpl.
  destruct (is_handler d (act_id a)) eqn:Hh; [apply IH; set_solver|].
  destruct (Hrec (act_id a)) as (s' & Hs'); [apply list_elem_of_fmap; set_solver|done|].
  unfold state_of in Hs'. apply fmap_Some in Hs' as (r & Hr & _). unfold record. rewrite Hr. simpl.
  destruct (ActivityState.is_settled _); [apply IH; set_solver|done].
Qed.

Lemma candidates_elem d st a :
  a ∈ candidates d st ↔ a ∈ spec_activities (def_spec d) ∧
    is_handler d (act_id a) = false ∧ ready d st (act_id a) = true.
Proof.
  unfold candidates. rewrite filter_elem. split.
  - intros [Hin Hb]. by to_prop.
  - intros (Hin & Hh & Hr). by rewrite Hh, Hr.
Qed.

Lemma no_candidate_complete `{DefinitionSerde} d st :
  well_formed d →
  (∀ t, t ∈ spec_transitions (def_spec d) → ¬ waits_for_handler d st t) →
  resting d st → (∀ id, id ∈ activity_ids d → not_dead d st id) →
  (∀ id, id ∈ activity_ids d → is_handler d id = false → ready d st id = false) →
  forward_complete d st = Ret true.
Proof.
  intros Hwf Hsrc Hrest Hnd Hno.
  destruct (forward_complete_eq d st (resting_recorded _ _ Hrest)) as (b & -> & Hb).
  f_equal. apply Hb. intros v Hv Hh. destruct (settled st v) eqn:Hset; [done|]. exfalso.
  apply (acyclic_no_trap d
    (λ x, x ∈ activity_ids d ∧ is_handler d x = false ∧ settled st x = false) (activity_ids d) v);
    [apply Hwf|intros t Ht; by apply (wf_edges d Hwf)| |done].
  intros x (Hx & Hhx & Hsx). apply (stuck_predecessor d st x); try done.
  intros id Hid Hhid. destruct (Hrest id Hid Hhid) as (s & Hs & _).
  rewrite (is_ready_ready _ _ _ _ Hs). f_equal. by apply Hno.
Qed.

(** ** Properties *)

(** C7: the scheduler gets stuck only on a compensation handler.  On a
    well-formed definition, at a snapshot in which no activity has failed or is
    in the middle of an attempt and every waiting one still has a live inbound
    edge, once [apply_skips] has disabled the dead branches either every
    forward activity is settled, or the scheduler finds an activity to run, or
    some transition of the definition leaves a compensation handler and leads
    to a forward activity that is still to run; handlers do not run forward, so
    that transition stays undecided.  Without such a transition the failure
    "workflow is blocked" cannot happen there; [validate] accepts definitions
    that have one. *)
Theorem scheduler_progress {St T X} `{EventLog St, CheckpointStore St, DefinitionSerde}
    d st st' (w w' : World St T X) :
  well_formed d →
  resting d st → apply_skips d st w = (w', Ret st') →
  forward_complete d st' = Ret true ∨ (∃ id, next_ready d st' = Ret (Some id)) ∨
  ∃ t, t ∈ spec_transitions (def_spec d) ∧ waits_for_handler d st' t.
Proof.
  intros Hwf Hrest [Hskip Hnd]%apply_skips_go_Ret.
  apply (skipped_resting d) in Hskip as Hrest'; [|done].
  destruct (decide (Exists (waits_for_handler d st') (spec_transitions (def_spec d)))) as [Hex|Hno].
  { right; right. by apply Exists_exists in Hex. }
  rewrite next_ready_eq by by apply resting_recorded.
  destruct (candidates d st') as [|a l] eqn:Hc; [left|right; left; by exists (act_id a)].
  apply no_candidate_complete; try done.
  { intros t Ht Hwait. apply Hno, Exists_exists. eauto. }
  intros id Hin Hh.
  destruct (ready d st' id) eqn:Hr; [|done].
  apply list_elem_of_fmap in Hin as (a & -> & Ha).
  assert (a ∈ candidates d st') as Hbad by by apply candidates_elem.
  rewrite Hc in Hbad. by apply not_elem_of_nil in Hbad.
Qed.

Lemma choice_resting : resting choice choice_after_a.
Proof.
  intros id Hin _. change (id ∈ ["a"; "b"; "c"; "d"]) in Hin.
  assert (id = "a" ∨ id = "b" ∨ id = "c" ∨ id = "d") as [-> |[-> |[-> | ->]]] by set_solver;
    eexists; (split; [by vm_compute|by split]).
Qed.

Lemma scheduler_progress_witness :
  match apply_skips choice choice_after_a (fresh 10 handlers_for_all []) with
  | (_, Ret st') => state_of st' "b" = Some ActivityState.Skipped ∧
      (forward_complete choice st' = Ret true ∨ (∃ id, next_ready choice st' = Ret (Some id)) ∨
       ∃ t, t ∈ spec_transitions (def_spec choice) ∧ waits_for_handler choice st' t)
  | _ => False
  end.
Proof.
  destruct (apply_skips choice choice_after_a (fresh 10 handlers_for_all [])) as [w' [st'|s]] eqn:Hr.
  - split.
    + apply (f_equal (λ r, match r.2 with Ret st => state_of st "b" | _ => None end)) in Hr.
      vm_compute in Hr. by rewrite Hr.
    + apply (scheduler_progress choice choice_after_a st' (fresh 10 handlers_for_all []) w');
        [apply choice_loaded|apply choice_resting|exact Hr].
  - apply (f_equal (λ r, match r.2 with Ret st => true | _ => false end)) in Hr.
    by vm_compute in Hr.
Defined.

(** A definition with a step after a handler passes validation, and none of its
    runs can succeed: the step is blocked and the rollback begins. *)
Definition after_handler : Definition_ :=
  graph [undone_by "release" (plain "reserve"); plain "release"; plain "a"] [arrow "release" "a"].
Lemma validated_workflow_blocks_on_its_handler :
  validate after_handler = Some (Ok ()) ∧
  match (run scenario_engine after_handler "e1" Null (fresh 50 handlers_for_all [])).2 with
  | Ret (outcome, _) => outcome = RunCompensated "workflow is blocked: no runnable activities remain"
  | Stop _ => False
  end.
Proof. split; by vm_compute. Qed.

(** An activity may run: it has not started, is to be retried or waits, and
    either no transition enters it, or every transition into it comes from a
    decided activity and one of them from a completed one whose guard holds. *)
Definition may_run (d : Definition_) (st : ExecutionState) (id : string) : Prop :=
  (∃ s, state_of st id = Some s ∧ runnable s = true) ∧
  let into := λ t, t ∈ spec_transitions (def_spec d) ∧ tr_to t = id in
  ((∀ t, ¬ into t) ∨
   (∀ t, into t → ∃ s, state_of st (tr_from t) = Some s ∧
      (s = ActivityState.Completed ∨ s = ActivityState.Skipped ∨ s = ActivityState.Failed)) ∧
   ∃ t, into t ∧ state_of st (tr_from t) = Some ActivityState.Completed ∧
      evaluate (default "" (tr_when t)) (es_variables st) = inr true).

Lemma classify_live t st :
  classify_edge t st = Live ↔ state_of st (tr_from t) = Some ActivityState.Completed ∧
    evaluate (default "" (tr_when t)) (es_variables st) = inr true.
Proof.
  unfold classify_edge. split.
  - destruct (state_of st (tr_from t)) as [[]|]; try done. by repeat case_match.
  - by intros [-> ->].
Qed.

Lemma classify_pending_iff t st :
  classify_edge t st ≠ Pending ↔ ∃ s, state_of st (tr_from t) = Some s ∧
    (s = ActivityState.Completed ∨ s = ActivityState.Skipped ∨ s = ActivityState.Failed).
Proof.
  unfold classify_edge. split.
  - destruct (state_of st (tr_from t)) as [[]|]; try done; eauto 6.
  - intros (s & -> & [-> | [-> | ->]]); by repeat case_match.
Qed.

Lemma ready_may_run d st id : ready d st id = true ↔ may_run d st id.
Proof.
  unfold ready, may_run. destruct (state_of st id) as [s|] eqn:Hs.
  2: { split; [|by intros [(s & [=] & _) _]].
       destruct (is_ready d st id) as [[|]|] eqn:Hr; [|done..].
       apply is_ready_true in Hr as (s & Hs' & _). congruence. }
  rewrite (is_ready_spec _ _ _ _ Hs), andb_true_iff, orb_true_iff, andb_true_iff.
  rewrite negb_true_iff, bool_decide_eq_false, !bool_decide_eq_true.
  assert ((∃ s', Some s = Some s' ∧ runnable s' = true) ↔ runnable s = true) as ->.
  { split; [by intros (s' & [= <-] & ?)|eauto]. }
  assert (edges_of d st id = [] ↔
    ∀ t, ¬ (t ∈ spec_transitions (def_spec d) ∧ tr_to t = id)) as ->.
  { split.
    - intros Hnil t [Ht Hto]. apply (not_elem_of_nil (classify_edge t st)). rewrite <- Hnil.
      apply edges_of_elem. eauto.
    - intros Hno. apply elem_of_nil_inv. intros e (t & Ht & Hto & _)%edges_of_elem.
      by apply (Hno t). }
  assert (Pending ∉ edges_of d st id ↔
    ∀ t, t ∈ spec_transitions (def_spec d) ∧ tr_to t = id → classify_edge t st ≠ Pending) as ->.
  { rewrite edges_of_elem. naive_solver. }
  rewrite edges_of_elem. setoid_rewrite classify_pending_iff. setoid_rewrite classify_live.
  naive_solver.
Qed.

Lemma head_filter {A} (f : A → bool) l a :
  head (List.filter f l) = Some a → ∃ l1 l2, l = l1 ++ a :: l2 ∧ f a = true ∧ ∀ b, b ∈ l1 → f b = false.
Proof.
  induction l as [|x l IH]; simpl; [done|]. destruct (f x) eqn:Hx; simpl.
  - intros [= <-]. exists [], l. split; [done|]. split; [done|]. by intros b ?%not_elem_of_nil.
  - intros (l1 & l2 & -> & Ha & Hl)%IH. exists (x :: l1), l2. split; [done|]. split; [done|].
    intros b Hb. assert (b = x ∨ b ∈ l1) as [->|?] by set_solver; auto.
Qed.

(** The two scans compute the declarative notion of readiness.  When every
    forward activity has a record, [next_ready] returns the first activity in
    declaration order that may run and is no compensation handler, and nothing
    only when there is none; [ready_batch] returns, in declaration order, all of
    those whose type the concurrent batch handles. *)
Theorem scheduler_picks_exactly_ready d st :
  recorded d st →
  let forward := λ a, is_handler d (act_id a) = false ∧ may_run d st (act_id a) in
  (∃ o, next_ready d st = Ret o ∧
    match o with
    | Some id => ∃ before a after, spec_activities (def_spec d) = before ++ a :: after ∧
        id = act_id a ∧ forward a ∧ ∀ b, b ∈ before → ¬ forward b
    | None => ∀ a, a ∈ spec_activities (def_spec d) → ¬ forward a
    end) ∧
  (∃ acts, ready_batch d st = Ret (map act_id acts) ∧
    acts `sublist_of` spec_activities (def_spec d) ∧
    ∀ a, a ∈ acts ↔ a ∈ spec_activities (def_spec d) ∧ batchable d a = true ∧
      may_run d st (act_id a)).
Proof.
  intros Hrec forward.
  assert (∀ a, forward a ↔ negb (is_handler d (act_id a)) && ready d st (act_id a) = true) as Hf.
  { intros a. unfold forward. by rewrite andb_true_iff, negb_true_iff, ready_may_run. }
  split.
  - eexists. split; [by apply next_ready_eq|].
    destruct (head (candidates d st)) as [a|] eqn:Hh; simpl.
    + apply head_filter in Hh as (l1 & l2 & Hl & Ha & Hb). exists l1, a, l2.
      split; [done|]. split; [done|]. split; [by apply Hf|].
      intros b Hin%Hb. rewrite Hf. by rewrite Hin.
    + intros a Ha Hfa%Hf. destruct (candidates d st) as [|x l] eqn:Hc; [|done].
      assert (a ∈ candidates d st) as Hbad by by apply filter_elem.
      rewrite Hc in Hbad. by apply not_elem_of_nil in Hbad.
  - eexists. split; [by apply ready_batch_eq|]. split.
    + etrans; apply filter_sublist.
    + intros a. rewrite filter_elem, candidates_elem, ready_may_run. split; [tauto|].
      intros (? & Hb & ?). split; [|done]. split; [done|]. split; [|done].
      unfold batchable in Hb. by to_prop.
Qed.

Lemma scheduler_picks_exactly_ready_witness :
  ∃ acts, ready_batch choice choice_after_a = Ret (map act_id acts) ∧
    ∀ a, a ∈ acts ↔ a ∈ spec_activities (def_spec choice) ∧ batchable choice a = true ∧
      may_run choice choice_after_a (act_id a).
Proof.
  destruct (scheduler_picks_exactly_ready choice choice_after_a) as [_ (acts & Hb & _ & Ha)].
  - apply resting_recorded, choice_resting.
  - exists acts. split; [exact Hb|exact Ha].
Defined.
