(* ===== verification/EngineOps.v ===== *)
(** * Pinning, cancellation and terminal executions

    What the public operations do on an execution they must not drive. *)
From stdpp Require Import base tactics list numbers strings gmap.
From Stdlib Require Import Lia ZArith Ascii.
From S2P Require Import Prelude.
From S2P Require Import Common.
From S2P Require Import JsonValue.
From S2P Require Import State.
From S2P Require Import Executor.
From S2P Require Import Template.
From S2P Require Import Event.
From S2P Require Import WorkflowDef.
From S2P Require Import ExecState.
From S2P Require Import Store.
From S2P Require Import Effect.
From S2P Require Import Timer.
From S2P Require Import Engine.
From S2P Require Import EngineInv.
From S2P Require Import Scenario.
From S2P Require Import EngineProps.

(** The definition is not the one the execution was started with. *)
Definition drifted (d : Definition_) (st : ExecutionState) : Prop :=
  ∃ pinned, es_definition_hash st = Some pinned ∧
    ((∃ current, def_source_hash d = Some current ∧ current ≠ pinned) ∨
     meta_version (def_metadata d) ≠ es_workflow_version st).

Lemma assert_pinned_spec d st :
  (∃ msg, assert_pinned_definition d st = Err (Invalid msg)) ↔ drifted d st.
Proof.
  unfold assert_pinned_definition, drifted. destruct (es_definition_hash st) as [p|].
  2: { split; [by intros [? ?]|by intros (? & ? & _)]. }
  split.
  - intros [msg Hmsg]. exists p. split; [done|].
    destruct (orb _ _) eqn:Ho; [|done]. apply orb_prop in Ho as [Ho|Ho].
    + left. destruct (def_source_hash d) as [cur|]; [|done]. exists cur. split; [done|].
      intros ->. by rewrite String.eqb_refl in Ho.
    + right. intros Heq. by rewrite Heq, String.eqb_refl in Ho.
  - intros (? & [= <-] & Hd).
    destruct (orb _ _) eqn:Ho; [by eexists|]. exfalso.
    apply orb_false_elim in Ho as [Ho1 Ho2].
    apply negb_false_iff, String.eqb_eq in Ho2. destruct Hd as [(cur & Hc & Hne)|?]; [|done].
    rewrite Hc in Ho1. apply negb_false_iff, String.eqb_eq in Ho1. done.
Qed.

(** The operations that continue an execution that exists. *)
Definition continues (op : operation) (c : string) : Prop :=
  match op with
  | OResume _ id | OSignal _ id _ _ | OFire _ id _ => id = c
  | _ => False
  end.

Section quiet.
Context {St T X : Type}.
Context `{HEL : EventLog St, HCS : CheckpointStore St, HTS : TimerStore T}.
Context `{HAE : ActivityExecutor X, HCL : Clock X, HSL : Sleep X}.
Context `{HSJ : SerdeJson, HDS : DefinitionSerde}.
Context `{HLAWS : !StoreLaws St}.
Context (eng : Engine) (c : string) (st : ExecutionState) (w0 : World St T X).

(** Nothing happened, except that signals may have been stored in the
    variables of [c]. *)
Record quiet (w : World St T X) : Prop := {
  qu_logs : ∀ id, log w id = log w0 id;
  qu_snaps : ∀ id, id ≠ c → snap w id = snap w0 id;
  qu_snap : ∃ f, snap w c = Some (with_variables f st);
  qu_calls : w_calls w = w_calls w0;
  qu_env : w_env w = w_env w0;
}.

Lemma query_spec w :
  wp (query c) (λ o w', (quiet w → quiet w') ∧ o = snap w c ∧ snap w' c = snap w c)
    (λ s w', ((quiet w → quiet w') ∧ ∃ e, s = Throw e) ∧ snap w' c = snap w c) w.
Proof.
  unfold query, wp, on_store.
  pose proof (latest_law c (w_store w)) as Hlaw.
  destruct (latest c (w_store w)) as [s r]; destruct Hlaw as (Hle & Hsn & Ho); simpl.
  assert (quiet w → quiet {| w_store := s; w_timers := w_timers w; w_env := w_env w;
    w_locks := w_locks w; w_sched := w_sched w; w_calls := w_calls w |}) as Hq.
  { intros [Hl Hs Hc Hca He]. split; try done; unfold log, snap in *; simpl.
    - intros id. by rewrite Hle.
    - intros id Hid. by rewrite Hsn, Hs.
    - by rewrite Hsn. }
  destruct r as [o|e]; simpl.
  - split; [done|]. split; [done|apply Hsn].
  - split; [|apply Hsn]. split; [done|by eexists].
Qed.

Lemma quiet_query w :
  quiet w → wp (query c) (λ o w', quiet w' ∧ o = snap w c ∧ snap w' c = snap w c) (λ s w', quiet w' ∧ ∃ e, s = Throw e) w.
Proof.
  intros Hq. eapply wp_mono; [apply query_spec| |].
  - intros o w' (Hq' & ? & ?). auto.
  - intros s w' ((Hq' & ?) & _). auto.
Qed.

Lemma quiet_save f w :
  quiet w → es_execution_id st = c →
  wp (checkpoint (with_variables f st)) (λ _ w', quiet w' ∧ snap w' c = Some (with_variables f st))
    (λ s w', quiet w' ∧ ∃ e, s = Throw e) w.
Proof.
  intros [Hl Hs Hc Hca He] Hid. unfold checkpoint, wp, on_store.
  pose proof (save_law (with_variables f st) (w_store w)) as Hlaw. simpl in Hlaw. rewrite Hid in Hlaw.
  destruct (save _ (w_store w)) as [s [u|e]]; destruct Hlaw as (Hle & Hsn & Ho); simpl.
  - split; [|done]. split; try done; unfold log, snap in *; simpl.
    + intros id. by rewrite Hle.
    + intros id Hne. by rewrite Hsn, Hs.
    + eauto.
  - split; [|by eexists]. split; try done; unfold log, snap in *; simpl.
    + intros id. by rewrite Hle.
    + intros id Hne. by rewrite Hsn, Hs.
    + destruct Ho as [-> | ->]; eauto.
Qed.

Lemma quiet_with_lock {A} (body : M (World St T X) A) (Q : A → World St T X → Prop) w :
  c ∉ w_locks w → quiet w → (∀ l w', quiet w' → quiet (set_locks l w')) →
  (∀ l, wp body (λ a w', quiet w' ∧ ∀ l, Q a (set_locks l w')) (λ s w', quiet w' ∧ ∃ e, s = Throw e)
     (set_locks l w)) →
  wp (with_lock c body) (λ a w', quiet w' ∧ Q a w') (λ s w', quiet w' ∧ ∃ e, s = Throw e) w.
Proof.
  intros Hc Hq Hlocks Hbody. unfold wp, with_lock. rewrite decide_False by done.
  specialize (Hbody ({[c]} ∪ w_locks w)). unfold wp in Hbody.
  destruct (body _) as [w' [a|s]]; destruct Hbody as [Hq' Ha]; (split; [by apply Hlocks|]); auto.
Qed.

Lemma quiet_set_locks l w : quiet w → quiet (set_locks l w).
Proof. by intros [? ? ? ? ?]. Qed.
Lemma quiet_refl : snap w0 c = Some st → quiet w0.
Proof. intros Hs. split; try done. exists id. rewrite Hs. by destruct st. Qed.

(** What a resume does once the snapshot is read; [P] tells which results it
    may give. *)
Lemma quiet_resume calls d w (P : RunOutcome → Prop) :
  quiet w →
  (∀ f, match assert_pinned_definition d (with_variables f st) with Ok _ => True | Err _ => False end →
     match es_status st with
     | WorkflowState.Completed => P RunCompleted
     | WorkflowState.Failed | WorkflowState.Cancelled => ∀ m, P (RunFailed m)
     | _ => False
     end) →
  wp (resume_unlocked eng calls d c)
    (λ r w', quiet w' ∧ snap w' c = Some r.2 ∧ P r.1) (λ s w', quiet w' ∧ ∃ e, s = Throw e) w.
Proof.
  intros Hq HP. unfold resume_unlocked.
  eapply wp_call; [by apply quiet_query|]. intros o w1 (Hq1 & -> & Hs1).
  destruct (qu_snap _ Hq) as [f Hf]. rewrite Hf in *. specialize (HP f).
  apply wp_lift_bind. simpl.
  apply wp_lift_bind. destruct (assert_pinned_definition d _); simpl; [|by eauto].
  specialize (HP I). destruct (es_status st); try done; apply wp_ret; simpl; auto.
Qed.

(** [R] is what an answer other than an error tells. *)
Lemma continues_quiet op (R : Prop) :
  continues op c → c ∉ w_locks w0 → stored w0 → snap w0 c = Some st →
  (∀ d f, definition_of op = Some d →
     match assert_pinned_definition d (with_variables f st) with
     | Ok _ =>
       match es_status st with
       | WorkflowState.Completed | WorkflowState.Failed | WorkflowState.Cancelled => R
       | _ => False
       end
     | Err _ => True
     end) →
  wp (perform eng op) (λ _ w', quiet w' ∧ R) (λ s w', quiet w' ∧ ∃ e, s = Throw e) w0.
Proof.
  intros Hop Hc Hs Hsn HP. pose proof (quiet_refl Hsn) as Hq.
  assert (es_execution_id st = c) as Hid by by apply (Hs c).
  assert (∀ calls d w, definition_of op = Some d → quiet w →
    wp (resume_unlocked eng calls d c) (λ r w', quiet w' ∧ (gset string → R))
      (λ s w', quiet w' ∧ ∃ e, s = Throw e) w) as Hres.
  { intros calls d w Hd Hqw.
    eapply wp_mono; [apply (quiet_resume calls d w (λ _, R))| |done]; [done| |].
    - intros f Hok. specialize (HP d f Hd).
      destruct (assert_pinned_definition _ _); [|done]. by destruct (es_status st).
    - by intros r w' (? & _ & ?). }
  assert (∀ key payload d, definition_of op = Some d →
    wp (deliver eng d c key payload) (λ r w', quiet w' ∧ R) (λ s w', quiet w' ∧ ∃ e, s = Throw e) w0)
    as Hdel.
  { intros key payload d Hd. unfold deliver.
    apply (quiet_with_lock _ (λ _ _, R)); [done|done|by intros; apply quiet_set_locks|]. intros l.
    eapply wp_call; [by apply quiet_query, quiet_set_locks|]. intros o w1 (Hq1 & -> & Hs1).
    change (snap (set_locks l w0) c) with (snap w0 c). rewrite Hsn. apply wp_lift_bind. simpl.
    eapply wp_call; [by apply quiet_save|]. intros u w2 [Hq2 _]. by apply Hres. }
  destruct op as [d i input|d i input|d i|d i name payload|d i timer|i|i n]; simpl in Hop; try done; subst i;
    simpl; (eapply (wp_call _ _ (λ _ w', quiet w' ∧ R)); [|by intros a w' [? ?]; apply wp_ret]).
  - unfold resume, resume_with.
    apply (quiet_with_lock _ (λ _ _, R)); [done|done|by intros; apply quiet_set_locks|]. intros l.
    apply Hres; [done|]. by apply quiet_set_locks.
  - by apply Hdel.
  - by apply Hdel.
Qed.
End quiet.

(** ** Properties *)

(** An execution only ever runs the definition it was started with.
    Resuming it, or delivering a signal or a timer to it, with a definition
    whose content hash or version is not the pinned one is an error; no activity
    is executed, no event is logged, no snapshot of another execution changes,
    and its own changes at most in the variables (a signal is stored before the
    definition is compared). *)
Theorem drifted_definition_refused {St T X} `{StoreLaws St, TimerStore T}
    `{ActivityExecutor X, Clock X, Sleep X, SerdeJson, DefinitionSerde}
    (eng : Engine) op c st (w w' : World St T X) o :
  continues op c → stored w → c ∉ w_locks w → snap w c = Some st →
  (∀ d, definition_of op = Some d → drifted d st) →
  perform eng op w = (w', o) →
  (∃ e, o = Stop (Throw e)) ∧ quiet c st w w'.
Proof.
  intros Hop Hs Hc Hsn Hd Hp.
  pose proof (continues_quiet eng c st w op False Hop Hc Hs Hsn) as Hwp.
  unfold wp in Hwp. rewrite Hp in Hwp.
  assert (match o with Ret _ => quiet c st w w' ∧ False
    | Stop s => quiet c st w w' ∧ ∃ e, s = Throw e end) as Ho.
  { apply Hwp. intros d f Hdef. destruct (proj2 (assert_pinned_spec d (with_variables f st)))
      as [msg ->]; [|done]. by apply Hd. }
  destruct o as [u|s]; destruct Ho as [Hq Hr]; [done|]. destruct Hr as [e ->]. eauto.
Qed.

Lemma drifted_definition_refused_witness :
  let w := perform_all scenario_engine [ORun approval_v1 "e1" Null] (fresh 50 handlers_for_all []) in
  (∃ e, (perform scenario_engine (OSignal approval_v2 "e1" "ok" Null) w).2 = Stop (Throw e)) ∧
  w_calls (perform scenario_engine (OSignal approval_v2 "e1" "ok" Null) w).1 = w_calls w.
Proof.
  intros w. destruct (reached_stored [ORun approval_v1 "e1" Null] 50 []) as [Hs Hl]; [by repeat constructor|all_loaded|].
  fold w in Hs, Hl.
  assert ((λ st, (es_definition_hash st, es_execution_id st)) <$> snap w "e1" =
    Some (def_source_hash approval_v1, "e1"%string)) as Hh by by vm_compute.
  destruct (snap w "e1") as [st|] eqn:Hsn; [|discriminate Hh]. injection Hh as Hh Hid.
  destruct (perform scenario_engine (OSignal approval_v2 "e1" "ok" Null) w) as [w' o] eqn:Hp.
  destruct (drifted_definition_refused scenario_engine (OSignal approval_v2 "e1" "ok" Null) "e1" st
    w w' o) as [He Hq]; [reflexivity|exact Hs|apply Hl|exact Hsn| |exact Hp|].
  - intros d [= <-]. eexists. split; [exact Hh|]. left. eexists. split; [reflexivity|].
    by vm_compute.
  - split; [exact He|exact (qu_calls _ _ _ _ Hq)].
Defined.

(** A terminal execution is inert.  Once an execution is completed, failed
    or cancelled, resuming it, signalling it or firing a timer for it executes
    no activity, logs no event, and keeps its status, activities and the
    snapshots of every other execution; and cancelling it is refused without any
    effect at all. *)
Theorem terminal_execution_inert {St T X} `{StoreLaws St, TimerStore T}
    `{ActivityExecutor X, Clock X, Sleep X, SerdeJson, DefinitionSerde}
    (eng : Engine) op c st (w w' : World St T X) o :
  continues op c ∨ op = OCancel c → stored w → c ∉ w_locks w → snap w c = Some st →
  WorkflowState.is_terminal (es_status st) = true →
  perform eng op w = (w', o) →
  quiet c st w w' ∧
  (op = OCancel c → snap w' c = Some st ∧ ∃ e, o = Stop (Throw e)).
Proof.
  intros [Hop| ->] Hs Hc Hsn Ht Hp.
  - split; [|by intros ->].
    pose proof (continues_quiet eng c st w op True Hop Hc Hs Hsn) as Hwp.
    unfold wp in Hwp. rewrite Hp in Hwp.
    destruct o as [u|s]; apply Hwp; intros d f _; destruct (assert_pinned_definition _ _); try done;
      by destruct (es_status st).
  - assert (wp (perform eng (OCancel c)) (λ _ _, False)
      (λ s w', (quiet c st w w' ∧ ∃ e, s = Throw e) ∧ snap w' c = Some st) w) as Hwp.
    { simpl. eapply (wp_call _ _ (λ _ _, False)); [|done]. unfold cancel.
      pose proof (quiet_refl c st w Hsn) as Hq.
      eapply wp_call; [eapply wp_mono; [by apply (query_spec c st w)|by intros found w1 Hf; apply Hf|]|].
      - intros s w1 ((Hq1 & Hs1) & Hs2). split; [auto|congruence].
      - intros found w1 (Hq1 & -> & Hs1). rewrite Hsn. apply wp_lift_bind. simpl. rewrite Ht.
        apply wp_fail. split; [split; [by apply Hq1|by eexists]|congruence]. }
    unfold wp in Hwp. rewrite Hp in Hwp. destruct o as [u|s]; [done|].
    destruct Hwp as ((Hq & e & ->) & Hs'). split; [done|]. intros _. split; [done|by eexists].
Qed.

Lemma terminal_execution_inert_witness :
  let w := perform_all scenario_engine [ORun saga "e1" Null] (fresh 50 handlers_for_all []) in
  w_calls (perform scenario_engine (OResume saga "e1") w).1 = w_calls w ∧ length (w_calls w) = 5.
Proof.
  intros w. destruct (reached_stored [ORun saga "e1" Null] 50 []) as [Hs Hl]; [by repeat constructor|all_loaded|].
  fold w in Hs, Hl.
  assert (WorkflowState.is_terminal ∘ es_status <$> snap w "e1" = Some true) as Ht by by vm_compute.
  destruct (snap w "e1") as [st|] eqn:Hsn; [|discriminate Ht]. injection Ht as Ht.
  destruct (perform scenario_engine (OResume saga "e1") w) as [w' o] eqn:Hp.
  destruct (terminal_execution_inert scenario_engine (OResume saga "e1") "e1" st w w' o)
    as [Hq _]; [left; reflexivity|exact Hs|apply Hl|exact Hsn|exact Ht|exact Hp|].
  split; [exact (qu_calls _ _ _ _ Hq)|by vm_compute].
Defined.

(** Calls on the store are no executor calls. *)
Lemma on_store_calls {St T X A} (f : St → St * result A) (w : World St T X) :
  wp (on_store f) (λ _ w', w_calls w' = w_calls w) (λ _ w', w_calls w' = w_calls w) w.
Proof. unfold wp, on_store. by destruct (f (w_store w)) as [s [a|e]]. Qed.

Lemma cancel_calls {St T X} `{EventLog St, CheckpointStore St} c (w : World St T X) :
  wp (cancel c) (λ _ w', w_calls w' = w_calls w) (λ _ w', w_calls w' = w_calls w) w.
Proof.
  unfold cancel, query. eapply wp_call; [apply on_store_calls|]. intros o w1 Hw1.
  apply wp_lift_bind. destruct o as [st|]; [|done]. simpl. destruct (WorkflowState.is_terminal _); [done|].
  eapply wp_call with (R := λ _ w', w_calls w' = w_calls w).
  - unfold transition. destruct (WorkflowState.can_transition _ _); [|done]. unfold emit.
    eapply wp_call; [eapply wp_mono; [apply on_store_calls|..]|].
    + intros n w2 Hw2. exact Hw2.
    + intros s w2 Hw2. congruence.
    + intros n w2 Hw2. apply wp_ret. congruence.
  - intros st2 w2 Hw2. unfold checkpoint. eapply wp_call; [eapply wp_mono; [apply on_store_calls|..]|].
    + intros u w3 Hw3. exact Hw3.
    + intros s w3 Hw3. congruence.
    + intros u w3 Hw3. apply wp_ret. congruence.
Qed.

(** Cancelling settles an execution for good.  A successful cancel persists
    the snapshot it returns, [Cancelled], with every activity completed, failed
    or skipped, the finished ones exactly as they were, and nothing executed;
    it succeeds only on an execution that was not terminal. *)
Theorem cancel_settles {St T X} `{StoreLaws St, TimerStoreLaws T}
    `{ActivityExecutor X, Clock X, Sleep X, SerdeJson, DefinitionSerde}
    c st (w w' : World St T X) :
  stored w → cancel c w = (w', Ret st) →
  snap w' c = Some st ∧ es_status st = WorkflowState.Cancelled ∧ w_calls w' = w_calls w ∧
  ∃ st0, snap w c = Some st0 ∧ WorkflowState.is_terminal (es_status st0) = false ∧
    ∀ id, state_of st id =
      (λ s, match s with
            | ActivityState.Completed | ActivityState.Failed => s
            | _ => ActivityState.Skipped
            end) <$> state_of st0 id.
Proof.
  intros Hs Hc. pose proof (wp_cancel c w Hs) as Hwp. unfold wp in Hwp. rewrite Hc in Hwp.
  destruct Hwp as (Hd & Hsn & _ & Hst & st0 & Hsn0 & Ht & Hsame).
  split; [done|]. split; [done|]. split.
  - pose proof (cancel_calls c w) as Hcalls. unfold wp in Hcalls. by rewrite Hc in Hcalls.
  - exists st0. split; [done|]. split; [done|]. intros id.
    rewrite (same_state_of _ _ id Hsame), cancelled_state.
    destruct (state_of st0 id) as [[]|]; done.
Qed.

Lemma cancel_settles_witness :
  let w := perform_all scenario_engine [ORun approval "e1" Null] (fresh 50 handlers_for_all []) in
  match cancel "e1" w with
  | (w', Ret st) => es_status st = WorkflowState.Cancelled ∧ w_calls w' = w_calls w ∧
      state_of st "approve" = Some ActivityState.Skipped
  | _ => False
  end.
Proof.
  intros w. destruct (reached_stored [ORun approval "e1" Null] 50 []) as [Hs Hl]; [by repeat constructor|all_loaded|].
  fold w in Hs, Hl.
  destruct (cancel "e1" w) as [w' [st|s]] eqn:Hc.
  - destruct (cancel_settles "e1" st w w' Hs Hc) as (_ & Hst & Hca & _).
    split; [exact Hst|]. split; [exact Hca|].
    apply (f_equal (λ r, match r.2 with Ret st => state_of st "approve" | _ => None end)) in Hc.
    vm_compute in Hc. symmetry. exact Hc.
  - apply (f_equal (λ r, match r.2 with Ret st => true | _ => false end)) in Hc.
    vm_compute in Hc. discriminate Hc.
Defined.
