(* ===== verification/EngineUndo.v ===== *)
(** * Rollback

    Compensation runs the handlers of the completed activities in the reverse
    order of completion, one at a time, and the log tells which. *)
From stdpp Require Import base tactics list numbers strings gmap.
From Stdlib Require Import Lia ZArith Ascii.
From S2P Require Import Prelude.
From S2P Require Import Common.
From S2P Require Import JsonValue.
From S2P Require Import State.
From S2P Require Import Retry.
From S2P Require Import Executor.
From S2P Require Import Template.
From S2P Require Import Event.
From S2P Require Import WorkflowDef.
From S2P Require Import ExecState.
From S2P Require Import Store.
From S2P Require Import Effect.
From S2P Require Import Timer.
From S2P Require Import Engine.
From S2P Require Import EngineInv.
From S2P Require Import Scenario.

Definition anyhow {W} : stop → W → Prop := λ _ _, True.

Section trace.
Context {St T X : Type}.
Context `{HEL : EventLog St, HCS : CheckpointStore St}.
Context `{HAE : ActivityExecutor X, HSL : Sleep X}.
Context `{HLAWS : !StoreLaws St}.
Context (c : string).
Notation World := (World St T X).

(** The events and the calls a piece of code adds. *)
Record adds (es : list WorkflowEvent) (ctxs : list ActivityContext) (w w' : World) : Prop := {
  ad_log : log w' c = log w c ++ es;
  ad_calls : w_calls w' = w_calls w ++ map (pair c) ctxs;
}.

Lemma adds_nil w : adds [] [] w w.
Proof. split; by rewrite app_nil_r. Qed.
Lemma adds_trans es1 es2 k1 k2 w1 w2 w3 :
  adds es1 k1 w1 w2 → adds es2 k2 w2 w3 → adds (es1 ++ es2) (k1 ++ k2) w1 w3.
Proof.
  intros [Hl1 Hc1] [Hl2 Hc2]. split.
  - by rewrite Hl2, Hl1, app_assoc.
  - by rewrite Hc2, Hc1, map_app, app_assoc.
Qed.

Lemma adds_append e w :
  wp (on_store (append c e)) (λ _ w', adds [e] [] w w') anyhow w.
Proof.
  unfold wp, on_store. pose proof (append_law c e (w_store w)) as Hlaw.
  destruct (append c e (w_store w)) as [s [n|]]; [|done]. destruct Hlaw as (_ & _ & Hl).
  split; [done|]. simpl. by rewrite app_nil_r.
Qed.

Lemma adds_emit st e w :
  es_execution_id st = c →
  wp (emit st e) (λ st' w', adds [e] [] w w' ∧
    st' = with_version (u64_wrapping_add (es_version st) 1) st) anyhow w.
Proof.
  intros Hid. unfold emit. rewrite Hid. eapply wp_call; [apply adds_append|]. intros n w' Ha. by apply wp_ret.
Qed.

Lemma adds_checkpoint st w : wp (checkpoint st) (λ _ w', adds [] [] w w') anyhow w.
Proof.
  unfold checkpoint, wp, on_store. pose proof (save_law st (w_store w)) as Hlaw.
  destruct (save st (w_store w)) as [s [n|]]; [|done]. destruct Hlaw as (Hl & _ & _).
  split; simpl; rewrite app_nil_r; [apply Hl|done].
Qed.

Lemma adds_emit_checkpoint st e w :
  es_execution_id st = c →
  wp (emit_checkpoint st e) (λ st' w', adds [e] [] w w' ∧
    st' = with_version (u64_wrapping_add (es_version st) 1) st) anyhow w.
Proof.
  intros Hid. unfold emit_checkpoint. eapply wp_call; [by apply adds_emit|].
  intros st1 w1 [Ha Hst]. eapply wp_call; [apply adds_checkpoint|]. intros u w2 Ha2.
  apply wp_ret. split; [|done]. exact (adds_trans [e] [] [] [] _ _ _ Ha Ha2).
Qed.

Lemma adds_transition {A} st to e w (k : ExecutionState → M World A) Q :
  es_execution_id st = c →
  (∀ st' w', adds [e] [] w w' → es_execution_id st' = c → es_status st' = to →
     es_completed_order st' = es_completed_order st → wp (k st') Q anyhow w') →
  wp (st' ← transition st to e; _ ← checkpoint st'; k st') Q anyhow w.
Proof.
  intros Hid Hk. unfold transition. destruct (WorkflowState.can_transition _ _); [|done].
  eapply wp_call; [by apply adds_emit|]. intros st1 w1 [Ha Hst].
  eapply wp_call; [apply adds_checkpoint|]. intros u w2 Ha2.
  apply Hk; try by subst st1. exact (adds_trans [e] [] [] [] _ _ _ Ha Ha2).
Qed.

(** ** One handler *)

(** The calls of one handler: attempts [from + 1], [from + 2], ... of [h], at
    least one. *)
Fixpoint attempts_of (h : string) (from : Z) (ctxs : list ActivityContext) : Prop :=
  match ctxs with
  | [] => True
  | ctx :: ctxs =>
    ctx_id ctx = h ∧ ctx_attempt ctx = u32_wrapping_add from 1 ∧
    attempts_of h (u32_wrapping_add from 1) ctxs
  end.
Definition handler_calls (h : string) (ctxs : list ActivityContext) : Prop :=
  ctxs ≠ [] ∧ attempts_of h 0 ctxs.

Lemma adds_call ctx w :
  wp (call_executor c ctx) (λ _ w', adds [] [ctx] w w') anyhow w.
Proof.
  unfold wp, call_executor. destruct (execute ctx (w_env w)) as [x ex].
  split; simpl; [by rewrite app_nil_r|done].
Qed.
Lemma adds_sleep ms w : wp (sleep_ms ms) (λ _ w', adds [] [] w w') anyhow w.
Proof. split; by rewrite app_nil_r. Qed.

Lemma run_compensation_go_adds fuel act policy from st w :
  es_execution_id st = c →
  wp (run_compensation_go fuel act policy from st) (λ '(st', failed) w',
    es_execution_id st' = c ∧ es_status st' = es_status st ∧
    ∃ ctxs, adds [] ctxs w w' ∧ ctxs ≠ [] ∧ attempts_of (act_id act) from ctxs) anyhow w.
Proof.
  revert from w. induction fuel as [|fuel IH]; intros from w Hid; [done|]. cbn [run_compensation_go].
  rewrite Hid. eapply wp_call; [apply adds_call|]. intros ex w1 Ha.
  set (ctx := context_of act (es_variables st) (u32_wrapping_add from 1) false) in *.
  destruct (exec_result ex) as [e|output].
  - destruct (is_retryable e && _).
    + eapply wp_call; [apply adds_sleep|]. intros u w2 Ha2.
      eapply wp_mono; [by apply IH| |done]. intros [st' failed] w3 (Hi & Hs & ctxs & Ha3 & _ & Hat).
      split; [done|]. split; [done|]. exists (ctx :: ctxs). split; [|done].
      exact (adds_trans [] ([] ++ []) [ctx] ([] ++ ctxs) _ _ _ Ha (adds_trans _ _ _ _ _ _ _ Ha2 Ha3)).
    + apply wp_ret. split; [done|]. split; [done|]. by exists [ctx].
  - apply wp_lift_bind.
    destruct (update_record _ _ st) as [st1|s] eqn:Hup; [|done].
    apply update_record_Ret in Hup as (r & _ & ->). apply wp_ret.
    split; [done|]. split; [done|]. by exists [ctx].
Qed.

Lemma run_compensation_adds d comp st w :
  es_execution_id st = c →
  wp (run_compensation d st comp) (λ '(st', failed) w',
    es_execution_id st' = c ∧ es_status st' = es_status st ∧
    ∃ ctxs, adds [] ctxs w w' ∧ handler_calls comp ctxs) anyhow w.
Proof.
  intros Hid. unfold run_compensation. apply wp_lift_bind.
  destruct (activity d comp) as [a|] eqn:Ha; [|done].
  apply activity_Some in Ha as [_ <-].
  eapply wp_mono; [by apply run_compensation_go_adds| |done].
  intros [st' failed] w' (? & ? & ctxs & ? & ? & ?). split; [done|]. split; [done|].
  by exists ctxs.
Qed.

(** ** The whole rollback *)

Definition step_done (p : string * string) : WorkflowEvent := CompensationStepCompleted p.1 p.2.

(** Which steps ran, what was logged and called for them. *)
Definition rolled_back (plan : list (string * string)) (error : string) (status : WorkflowState.t)
    (o : RunOutcome) (es : list WorkflowEvent) (ctxs : list ActivityContext) : Prop :=
  ∃ done rest groups, plan = done ++ rest ∧ ctxs = concat groups ∧
    match rest with
    | [] => o = RunCompensated error ∧ status = WorkflowState.Failed ∧
        es = map step_done done ++ [CompensationCompleted] ∧
        Forall2 (λ p g, handler_calls p.2 g) done groups
    | (a, h) :: _ => ∃ e, o = RunFailed ("compensation failed: " +:+ e
                                 +:+ " (original failure: " +:+ error +:+ ")") ∧
        status = WorkflowState.Compensating ∧
        es = map step_done done ++ [CompensationStepFailed a h e] ∧
        Forall2 (λ p g, handler_calls p.2 g) (done ++ [(a, h)]) groups
    end.

Lemma rolled_back_cons p plan error status o es ctxs g :
  handler_calls p.2 g → rolled_back plan error status o es ctxs →
  rolled_back (p :: plan) error status o (step_done p :: es) (g ++ ctxs).
Proof.
  intros Hg (dn & rest & groups & -> & -> & Hrest). exists (p :: dn), rest, (g :: groups).
  split; [done|]. split; [done|]. destruct rest as [|[a h] rest].
  - destruct Hrest as (-> & -> & -> & Hf). repeat split. by constructor.
  - destruct Hrest as (e & -> & -> & -> & Hf). exists e. repeat split. by constructor.
Qed.

Lemma compensate_steps_adds d error plan st w :
  es_execution_id st = c → es_status st = WorkflowState.Compensating →
  wp (compensate_steps d error plan st) (λ '(st', o) w',
    ∃ es ctxs, adds es ctxs w w' ∧ rolled_back plan error (es_status st') o es ctxs) anyhow w.
Proof.
  revert st w. induction plan as [|[a h] plan IH]; intros st w Hid Hst; cbn [compensate_steps].
  - apply adds_transition; [done|]. intros st1 w1 Ha Hid1 Hs1 _. apply wp_ret.
    exists [CompensationCompleted], []. split; [done|]. exists [], [], [].
    repeat split; [done|constructor].
  - eapply wp_call; [by apply run_compensation_adds|].
    intros [st1 failed] w1 (Hid1 & Hs1 & ctxs & Ha1 & Hh).
    destruct failed as [e|].
    + eapply wp_call; [by apply adds_emit_checkpoint|]. intros st2 w2 [Ha2 ->]. apply wp_ret.
      eexists _, _. split; [exact (adds_trans _ _ _ _ _ _ _ Ha1 Ha2)|].
      exists [], ((a, h) :: plan), [ctxs]. split; [done|]. split; [done|]. exists e.
      split; [done|]. split; [by rewrite <- Hst|]. split; [done|]. constructor; [exact Hh|constructor].
    + eapply wp_call; [by apply adds_emit_checkpoint|]. intros st2 w2 [Ha2 ->].
      eapply wp_mono; [apply IH| |done]; [done|by rewrite <- Hst|].
      intros [st' o] w' (es & k & Ha3 & Hr). eexists _, _.
      split; [exact (adds_trans _ _ _ _ _ _ _ Ha1 (adds_trans _ _ _ _ _ _ _ Ha2 Ha3))|].
      by apply (rolled_back_cons (a, h)).
Qed.
End trace.

(** ** Properties *)

(** C6: a failed workflow is rolled back in the reverse order of completion.
    When [compensate] returns, the log of the execution has grown by the
    failure and, if some completed activity declares a handler, by
    [CompensationStarted] and one step per such activity, last completed first,
    up to and including the first handler that fails; the executor was called
    for exactly those handlers, in that order, each with attempts 1, 2, ...; and
    the outcome is [Compensated] with status [Failed] exactly when every step
    succeeded. *)
Theorem rollback_reverses_completion {St T X} `{StoreLaws St, ActivityExecutor X, Sleep X}
    d st error (w w' : World St T X) st' o :
  es_status st = WorkflowState.Running →
  compensate d st error w = (w', Ret (st', o)) →
  let c := es_execution_id st in
  let plan := omap (λ id, pair id <$> (activity d id ≫= act_compensate))
                (reverse (es_completed_order st)) in
  ∃ es ctxs,
    log w' c = log w c ++ WorkflowFailed error :: es ∧
    w_calls w' = w_calls w ++ map (pair c) ctxs ∧
    match plan with
    | [] => es = [] ∧ ctxs = [] ∧ o = RunFailed error ∧ es_status st' = WorkflowState.Failed
    | _ => ∃ steps, es = CompensationStarted :: steps ∧
        rolled_back plan error (es_status st') o steps ctxs
    end.
Proof.
  intros Hrun Hc c plan.
  assert (wp (compensate d st error) (λ '(st', o) w', ∃ es ctxs,
    adds c (WorkflowFailed error :: es) ctxs w w' ∧
    match plan with
    | [] => es = [] ∧ ctxs = [] ∧ o = RunFailed error ∧ es_status st' = WorkflowState.Failed
    | _ => ∃ steps, es = CompensationStarted :: steps ∧
        rolled_back plan error (es_status st') o steps ctxs
    end) anyhow w) as Hwp.
  { unfold compensate. rewrite decide_True by done.
    apply wp_bind, (adds_transition c); [done|]. intros st1 w1 Ha1 Hid1 Hs1 Ho1. apply wp_ret.
    unfold compensation_plan. rewrite Ho1. fold plan. destruct plan as [|p plan'] eqn:Hp.
    - apply wp_ret. exists [], []. done.
    - apply (adds_transition c); [done|]. intros st2 w2 Ha2 Hid2 Hs2 _.
      eapply wp_mono; [by apply (compensate_steps_adds c)| |done].
      intros [st3 o3] w3 (es & ctxs & Ha3 & Hr). exists (CompensationStarted :: es), ctxs.
      split; [|eauto].
      exact (adds_trans c _ _ _ _ _ _ _ Ha1 (adds_trans c _ _ _ _ _ _ _ Ha2 Ha3)). }
  unfold wp in Hwp. rewrite Hc in Hwp. destruct Hwp as (es & ctxs & [Hl Hk] & Hm).
  by exists es, ctxs.
Qed.

(** The failure of [ship] in the saga undoes [charge], then [reserve]. *)
Lemma rollback_reverses_completion_witness :
  let st := with_status WorkflowState.Running (push_completed "charge" (push_completed "reserve"
              (initial_state saga "e1" Null))) in
  match compensate saga st "no stock" (fresh 50 handlers_for_all []) with
  | (w', Ret (st', o)) =>
      omap (λ id, pair id <$> (activity saga id ≫= act_compensate)) (reverse (es_completed_order st))
        = [("charge", "refund"); ("reserve", "release")] ∧
      ∃ steps ctxs, log w' "e1" = WorkflowFailed "no stock" :: CompensationStarted :: steps ∧
        w_calls w' = map (pair "e1") ctxs ∧
        rolled_back [("charge", "refund"); ("reserve", "release")] "no stock" (es_status st') o
          steps ctxs
  | _ => False
  end.
Proof.
  intros st. destruct (compensate saga st "no stock" (fresh 50 handlers_for_all []))
    as [w' [[st' o]|s]] eqn:Hc.
  - split; [by vm_compute|].
    destruct (rollback_reverses_completion saga st "no stock" (fresh 50 handlers_for_all []) w' st' o)
      as (es & ctxs & Hl & Hk & steps & -> & Hr); [reflexivity|exact Hc|].
    exists steps, ctxs. split; [exact Hl|]. split; [exact Hk|exact Hr].
  - apply (f_equal (λ r, match r.2 with Ret st => true | _ => false end)) in Hc.
    vm_compute in Hc. discriminate Hc.
Defined.
