(* ===== verification/EngineBatch.v ===== *)
(** * Concurrent batches do not depend on the schedule

    The tasks of a batch interleave under any schedule; when what an activity
    answers depends on its context only, every schedule commits the same
    outcomes in declaration order, the ones the activities' own retry loops
    would reach alone. *)
From stdpp Require Import base tactics list numbers strings gmap.
From Stdlib Require Import Lia ZArith Ascii.
From S2P Require Import Prelude.
From S2P Require Import Common.
From S2P Require Import JsonValue.
From S2P Require Import State.
From S2P Require Import Retry.
From S2P Require Import Executor.
From S2P Require Import Template.
From S2P Require Import Event.
From S2P Require Import WorkflowDef.
From S2P Require Import ExecState.
From S2P Require Import Store.
From S2P Require Import Effect.
From S2P Require Import Timer.
From S2P Require Import Engine.
From S2P Require Import EngineInv.
From S2P Require Import Scenario.

(** ** The pieces of a batch *)

Section reference.
Context {St T X : Type}.
Context `{HEL : EventLog St, HCS : CheckpointStore St}.
Context `{HAE : ActivityExecutor X, HSL : Sleep X}.
Notation M := (M (World St T X)).

(** [run_attempts] of one task, on its own and to its end. *)
Fixpoint run_attempts (fuel : nat) (execution_id : string) (t : Task) : M IsolatedOutcome :=
  match fuel with
  | O => fail Exhausted
  | S fuel =>
    r ← attempt_step execution_id t;
    match r with
    | inl t => run_attempts fuel execution_id t
    | inr o => mret o
    end
  end.

(** The tasks of a batch, on the variables before it. *)
Fixpoint batch_tasks (d : Definition_) (st : ExecutionState) (batch : list string)
    : outcome (list Task) :=
  match batch with
  | [] => Ret []
  | id :: batch =>
    t ← batch_task d st (es_variables st) id;
    ts ← batch_tasks d st batch;
    Ret (t :: ts)
  end.

(** Commit the outcomes and tell how the batch ended. *)
Definition commit_outcomes (st : ExecutionState) (slots : list (option IsolatedOutcome))
    : M (ExecutionState * BatchStep) :=
  '(state, cr) ← commit_members st {| cr_failure := None; cr_interrupt := None |} slots;
  match cr_failure cr, cr_interrupt cr with
  | Some msg, _ => mret (state, BatchFailed msg)
  | None, Some (act, msg) => mret (state, BatchInterrupted act msg)
  | None, None => mret (state, AllSettled)
  end.
End reference.

Lemma spawn_batch_tasks d st batch idx set :
  spawn_batch d st batch idx set =
    (ts ← batch_tasks d st batch;
     Ret {| js_running := js_running set ++ zip (seq idx (length ts)) ts; js_done := js_done set |}).
Proof.
  revert idx set. induction batch as [|id batch IH]; intros idx set; simpl.
  - rewrite app_nil_r. by destruct set.
  - destruct (batch_task d st (es_variables st) id) as [t|s]; simpl; [|done].
    rewrite IH. destruct (batch_tasks d st batch) as [ts|s]; simpl; [|done].
    by rewrite <- app_assoc.
Qed.

(** ** Code that looks at the store only *)

Section store_only.
Context {St T X : Type}.
Context `{HEL : EventLog St, HCS : CheckpointStore St}.
Notation M := (M (World St T X)).

Definition store_only {A} (m : M A) : Prop := ∀ w1 w2 : World St T X, w_store w1 = w_store w2 →
  (m w1).2 = (m w2).2 ∧ w_store (m w1).1 = w_store (m w2).1.

Lemma store_only_ret {A} (a : A) : store_only (mret a).
Proof. by intros w1 w2 Hw. Qed.
Lemma store_only_lift {A} (o : outcome A) : store_only (lift o).
Proof. by intros w1 w2 Hw. Qed.
Lemma store_only_on_store {A} (f : St → St * result A) : store_only (on_store f).
Proof. intros w1 w2 Hw. unfold on_store. rewrite Hw. by destruct (f (w_store w2)). Qed.
Lemma store_only_bind {A B} (m : M A) (k : A → M B) :
  store_only m → (∀ a, store_only (k a)) → store_only (m ≫= k).
Proof.
  intros Hm Hk w1 w2 Hw. destruct (Hm w1 w2 Hw) as [Ho Hs]. unfold mbind, M_bind.
  destruct (m w1) as [w1' o1], (m w2) as [w2' o2]. simpl in *. subst o2.
  destruct o1 as [a|s]; [by apply Hk|done].
Qed.

Create HintDb store_only.
#[local] Hint Resolve store_only_ret store_only_lift store_only_on_store : store_only.
#[local] Hint Extern 1 (store_only (mbind _ _)) => apply store_only_bind; [|intros ?] : store_only.
#[local] Hint Extern 2 (store_only (match ?x with _ => _ end)) => destruct x : store_only.

Lemma store_only_emit st e : store_only (emit st e).
Proof. unfold emit. eauto with store_only. Qed.
Lemma store_only_checkpoint st : store_only (checkpoint st).
Proof. apply store_only_on_store. Qed.
#[local] Hint Resolve store_only_emit store_only_checkpoint : store_only.
Lemma store_only_emit_checkpoint st e : store_only (emit_checkpoint st e).
Proof. unfold emit_checkpoint. eauto with store_only. Qed.
Lemma store_only_emit_all st es : store_only (emit_all st es).
Proof. revert st. induction es; intros st; simpl; eauto with store_only. Qed.
#[local] Hint Resolve store_only_emit_checkpoint store_only_emit_all : store_only.
Lemma store_only_commit_member st cr o : store_only (commit_member st cr o).
Proof. unfold commit_member. destruct (iso_result o); eauto 10 with store_only. Qed.
#[local] Hint Resolve store_only_commit_member : store_only.
Lemma store_only_commit_members st cr slots : store_only (commit_members st cr slots).
Proof. revert st cr. induction slots; intros st cr; simpl; eauto 10 with store_only. Qed.
Lemma store_only_commit_outcomes st slots : store_only (commit_outcomes st slots).
Proof.
  apply store_only_bind; [apply store_only_commit_members|]. intros [st' cr].
  destruct (cr_failure cr); eauto with store_only.
Qed.
End store_only.

(** ** Running code that cannot stop *)

Definition never {W} : stop → W → Prop := λ _ _, False.

Lemma run_never {W A} (m : M W A) Q w :
  wp m Q never w → ∃ a w', m w = (w', Ret a) ∧ Q a w'.
Proof. unfold wp. destruct (m w) as [w' [a|s]]; [eauto|done]. Qed.
Lemma bind_run {W A B} (m : M W A) (k : A → M W B) w w' a :
  m w = (w', Ret a) → (m ≫= k) w = k a w'.
Proof. unfold mbind, M_bind. by intros ->. Qed.
Lemma lift_bind {W A B} (o : outcome A) (k : A → M W B) w :
  (lift o ≫= k) w = match o with Ret a => k a w | Stop s => (w, Stop s) end.
Proof. by destruct o. Qed.

(** ** Executors that are functions of the context *)

Section pure.
Context {St T X : Type}.
Context `{HEL : EventLog St, HCS : CheckpointStore St}.
Context `{HAE : ActivityExecutor X, HSL : Sleep X}.
Notation World := (World St T X).
Context (env_ok : X → Prop) (f : ActivityContext → ActivityError + Value).
Hypothesis execute_pure : ∀ ctx x, env_ok x →
  env_ok (execute ctx x).1 ∧ exec_result (execute ctx x).2 = f ctx.
Hypothesis sleep_pure : ∀ ms x, env_ok x → env_ok (sleep ms x).
Context (c : string) (s0 : St).

Definition idle (w : World) : Prop := w_store w = s0 ∧ env_ok (w_env w).

(** The attempt a task makes next. *)
Definition task_next (t : Task) : Task + IsolatedOutcome :=
  let attempt := u32_wrapping_add (task_attempt t) 1 in
  let events := task_events t ++ [ActivityStarted (task_id t) attempt] in
  let a := task_activity t in
  let finished result := inr {|
    iso_id := task_id t; iso_attempts := attempt; iso_events := events; iso_result := result |} in
  match f {| ctx_id := task_id t; ctx_activity_type := act_type a; ctx_name := act_name a;
             ctx_inputs := act_inputs a; ctx_variables := task_variables t;
             ctx_attempt := attempt; ctx_progress := false |} with
  | inr output => finished (IsoCompleted output)
  | inl (Interrupted msg) => finished (IsoInterrupted msg)
  | inl (Permanent msg) => finished (IsoFailed msg)
  | inl (Retryable msg) =>
    if Z.leb (max_attempts (task_policy t)) attempt
    then finished (IsoFailed (exhausted_msg attempt msg))
    else inl {| task_id := task_id t; task_activity := a; task_policy := task_policy t;
                task_variables := task_variables t; task_attempt := attempt;
                task_events := events ++
                  [ActivityRetried (task_id t) attempt (next_delay (task_policy t) attempt) msg] |}
  end.

Lemma attempt_step_pure t w :
  idle w → wp (attempt_step c t) (λ r w', idle w' ∧ r = task_next t) never w.
Proof.
  intros [Hs He]. unfold attempt_step, task_next, call_executor.
  set (ctx := {| ctx_id := task_id t |}). pose proof (execute_pure ctx (w_env w) He) as [He' Hf].
  apply wp_bind. unfold wp at 1. destruct (execute ctx (w_env w)) as [x ex]. simpl in He', Hf.
  rewrite Hf. destruct (f ctx) as [[msg|msg|msg]|output]; [|by apply wp_ret..].
  destruct (Z.leb _ _); [by apply wp_ret|]. apply wp_bind. unfold sleep_ms, modify. unfold wp at 1.
  apply wp_ret. split; [|done]. split; [done|]. by apply sleep_pure.
Qed.

(** The outcome of a task, whoever runs it and when. *)
Inductive settles : Task → IsolatedOutcome → Prop :=
  | settles_now t o : task_next t = inr o → settles t o
  | settles_later t t' o : task_next t = inl t' → settles t' o → settles t o.

Lemma task_next_left t t' :
  is_u32 (max_attempts (task_policy t)) → task_next t = inl t' →
  task_left t' < task_left t ∧ task_policy t' = task_policy t.
Proof.
  intros Hp. unfold task_next. destruct (f _) as [[msg|msg|msg]|output]; try done.
  destruct (Z.leb_spec (max_attempts (task_policy t)) (u32_wrapping_add (task_attempt t) 1));
    [done|]. intros [= <-]. split; [|done]. by apply attempts_left_lt.
Qed.

Lemma settles_total t : is_u32 (max_attempts (task_policy t)) → ∃ o, settles t o.
Proof.
  remember (task_left t) as n eqn:Hn. revert t Hn.
  induction n as [n IH] using lt_wf_ind. intros t -> Hp.
  destruct (task_next t) as [t'|o] eqn:Hnext; [|exists o; by apply settles_now].
  destruct (task_next_left t t' Hp Hnext) as [Hlt Hpol].
  destruct (IH (task_left t') Hlt t' eq_refl) as [o Ho]; [by rewrite Hpol|].
  exists o. by eapply settles_later.
Qed.

Lemma run_attempts_settles fuel t o w :
  idle w → is_u32 (max_attempts (task_policy t)) → task_left t ≤ fuel → settles t o →
  wp (run_attempts fuel c t) (λ o' w', idle w' ∧ o' = o) never w.
Proof.
  revert t w. induction fuel as [|fuel IH]; intros t w Hi Hp Hf Ho.
  { pose proof (attempts_left_pos (max_attempts (task_policy t)) (task_attempt t) (proj1 Hp)).
    unfold task_left in Hf. lia. }
  cbn [run_attempts]. eapply wp_call; [by apply attempt_step_pure|]. intros r w1 [Hi1 ->].
  destruct Ho as [t o Hn|t t' o Hn Ho]; rewrite Hn; [by apply wp_ret|].
  destruct (task_next_left t t' Hp Hn) as [Hlt Hpol].
  apply IH; [done|by rewrite Hpol|lia|done].
Qed.

(** *** Joining *)

(** Task [i] of the set owes the outcome [target i]. *)
Definition owed (target : nat → IsolatedOutcome) (set : JoinSet) : Prop :=
  Forall (λ it, settles it.2 (target it.1) ∧ is_u32 (max_attempts (task_policy it.2))) (js_running set) ∧
  Forall (λ io, io.2 = target io.1) (js_done set).
Definition keys (set : JoinSet) : list nat := map fst (js_done set) ++ map fst (js_running set).

Lemma delete_permutation {A} (l : list (nat * A)) i x :
  l !! i = Some x → map fst l ≡ₚ x.1 :: map fst (delete i l).
Proof.
  revert i. induction l as [|y l IH]; intros [|i] Hi; simpl in *; try done.
  - by injection Hi as ->.
  - rewrite (IH i Hi). constructor.
Qed.
Lemma insert_keys {A} (l : list (nat * A)) i j x y :
  l !! i = Some (j, x) → map fst (<[i := (j, y)]> l) = map fst l.
Proof.
  revert i. induction l as [|z l IH]; intros [|i] Hi; simpl in *; try done.
  - by injection Hi as ->.
  - by rewrite IH.
Qed.

Lemma join_next_go_owed target fuel set w :
  idle w → owed target set → set_left set < fuel →
  wp (join_next_go fuel c set) (λ '(joined, set') w', idle w' ∧
    match joined with
    | None => keys set = []
    | Some (i, o) => o = target i ∧ owed target set' ∧ keys set ≡ₚ i :: keys set'
    end) never w.
Proof.
  revert set w. induction fuel as [|fuel IH]; intros set w Hi [Hrun Hdone] Hf; [lia|].
  cbn [join_next_go].
  destruct (Nat.eqb_spec (length (js_done set) + length (js_running set)) 0) as [H0|Hn0].
  { apply wp_ret. split; [done|]. unfold keys. destruct (js_done set), (js_running set); done. }
  apply wp_bind. unfold next_choice, wp at 1.
  set (i := Nat.modulo _ _).
  assert (i < length (js_done set) + length (js_running set)) as Hlt by by apply Nat.mod_upper_bound.
  destruct (js_done set !! i) as [[j o]|] eqn:Hd.
  { apply wp_ret. split; [done|]. pose proof (Forall_lookup_1 _ _ _ _ Hdone Hd) as Ho.
    split; [done|]. split; [split; [done|by apply Forall_delete]|].
    unfold keys. simpl. by rewrite (delete_permutation _ _ _ Hd). }
  apply lookup_ge_None in Hd.
  destruct (js_running set !! (i - length (js_done set))) as [[j t]|] eqn:Hr.
  2: { apply lookup_ge_None in Hr. lia. }
  pose proof (Forall_lookup_1 _ _ _ _ Hrun Hr) as [Ho Hp]. simpl in Ho, Hp.
  assert (0 < task_left t) as Hpos by (apply attempts_left_pos, Hp).
  eapply wp_call; [apply attempt_step_pure; exact Hi|]. intros r w1 [Hi1 ->].
  destruct (task_next t) as [t'|o] eqn:Hn.
  - destruct (task_next_left t t' Hp Hn) as [Hl Hpol].
    inversion Ho as [? ? Hn'|? ? ? Hn' Ho']; subst; [congruence|].
    assert (t'0 = t') as -> by congruence.
    eapply wp_mono; [apply IH; [done|split; simpl; [|done]|]| |done].
    + apply Forall_insert; [done|]. simpl. by rewrite Hpol.
    + unfold set_left in *. simpl.
      pose proof (sum_list_insert (λ it, task_left it.2) _ _ _ (j, t') Hr). simpl in *. lia.
    + intros [joined set'] w3 [Hi3 Hj]. split; [done|]. unfold keys in *. simpl in *.
      by rewrite (insert_keys _ _ _ _ _ Hr) in Hj.
  - inversion Ho as [? ? Hn'|? ? ? Hn' Ho']; subst; [|congruence].
    assert (target j = o) as <- by congruence.
    eapply wp_mono; [apply IH; [done|split; simpl|]| |done].
    + by apply Forall_delete.
    + apply Forall_app. split; [done|]. by apply Forall_singleton.
    + unfold set_left in *. simpl.
      pose proof (sum_list_delete (λ it, task_left it.2) _ _ _ Hr). simpl in *. lia.
    + intros [joined set'] w3 [Hi3 Hj]. split; [done|].
      assert (map fst (js_done set) ++ map fst (js_running set) ≡ₚ
        (map fst (js_done set) ++ [j]) ++ map fst (delete (i - length (js_done set)) (js_running set)))
        as Hperm by (rewrite (delete_permutation _ _ _ Hr); simpl; by rewrite <- app_assoc).
      unfold keys in *. simpl in Hj. rewrite map_app in Hj. simpl in Hj.
      destruct joined as [[i' o']|].
      * destruct Hj as (? & ? & Hk). split; [done|]. split; [done|]. by rewrite Hperm.
      * rewrite Hj in Hperm. by apply Permutation_nil_r in Hperm.
Qed.

Lemma owed_fuel target set : owed target set → set_left set < join_fuel set.
Proof.
  intros [Hrun _]. unfold set_left, join_fuel. apply Nat.lt_succ_r.
  induction Hrun as [|it l [_ Hp] _ IH]; cbn [map sum_list sum_list_with]; [done|].
  pose proof (attempts_left_fuel (task_policy it.2) (task_attempt it.2) (proj1 Hp)).
  unfold task_left at 1, id. apply Nat.add_le_mono; [done|exact IH].
Qed.

Lemma join_all_owed target fuel set slots w :
  idle w → owed target set → length (keys set) < fuel → (∀ i, i ∈ keys set → i < length slots) →
  wp (join_all fuel c set slots) (λ slots' w', idle w' ∧ length slots' = length slots ∧
    ∀ i, i < length slots →
      slots' !! i = if decide (i ∈ keys set) then Some (Some (target i)) else slots !! i) never w.
Proof.
  revert set slots w. induction fuel as [|fuel IH]; intros set slots w Hi Ho Hf Hk; [lia|].
  cbn [join_all]. eapply wp_call.
  { apply (join_next_go_owed target); [done|done|by eapply owed_fuel]. }
  intros [[[i o]|] set'] w1 [Hi1 Hj].
  - destruct Hj as (-> & Ho' & Hperm).
    assert (i < length slots) as Hlt by (apply Hk; rewrite Hperm; set_solver).
    rewrite (proj2 (Nat.ltb_lt _ _) Hlt).
    eapply wp_mono; [apply IH; [done|done| |]| |done].
    + rewrite Hperm in Hf. simpl in Hf. lia.
    + intros j Hj. rewrite length_insert. apply Hk. rewrite Hperm. set_solver.
    + intros slots' w2 (Hi2 & Hlen & Hs). rewrite length_insert in Hlen. split; [done|].
      split; [done|]. intros j Hj. rewrite length_insert in Hs. rewrite (Hs j Hj).
      assert (j ∈ keys set ↔ j = i ∨ j ∈ keys set') as Hin by (rewrite Hperm; set_solver).
      destruct (decide (j ∈ keys set')), (decide (j ∈ keys set)); try tauto.
      * assert (j = i) as -> by tauto. by rewrite list_lookup_insert_eq.
      * rewrite list_lookup_insert_ne; [done|]. intros ->. tauto.
  - apply wp_ret. split; [done|]. split; [done|]. intros i _. rewrite Hj.
    rewrite decide_False; [done|]. apply not_elem_of_nil.
Qed.

(** *** The whole batch *)

Lemma settles_all ts :
  Forall (λ t, is_u32 (max_attempts (task_policy t))) ts → ∃ os, Forall2 settles ts os.
Proof.
  induction 1 as [|t ts Hp _ [os IH]]; [by exists []|].
  destruct (settles_total t Hp) as [o Ho]. exists (o :: os). by constructor.
Qed.

Lemma zip_seq_owed ts os n :
  Forall2 settles ts os → Forall (λ t, is_u32 (max_attempts (task_policy t))) ts →
  ∀ target, (∀ i o, os !! i = Some o → target (n + i) = o) →
  Forall (λ it, settles it.2 (target it.1) ∧ is_u32 (max_attempts (task_policy it.2)))
    (zip (seq n (length ts)) ts).
Proof.
  intros Hs. revert n. induction Hs as [|t o ts os Ho Hs IH]; intros n Hp target Ht; simpl; [done|].
  apply Forall_cons in Hp as [Hp Hps]. constructor.
  - simpl. rewrite <- (Nat.add_0_r n), (Ht 0 o eq_refl). done.
  - apply IH; [done|]. intros i o' Hi. rewrite Nat.add_succ_comm. by apply Ht.
Qed.

Lemma batch_tasks_length d st batch ts :
  batch_tasks d st batch = Ret ts → length ts = length batch.
Proof.
  revert ts. induction batch as [|id batch IH]; intros ts; simpl; [by intros [= <-]|].
  destruct (batch_task _ _ _ id) as [t|s]; simpl; [|done].
  destruct (batch_tasks d st batch) as [ts'|s]; simpl; [|done]. intros [= <-]. simpl. f_equal. auto.
Qed.

Lemma batch_tasks_policies d st batch ts :
  (∀ id, is_u32 (max_attempts (retry_for d id))) → batch_tasks d st batch = Ret ts →
  Forall (λ t, is_u32 (max_attempts (task_policy t))) ts.
Proof.
  intros Hp. revert ts. induction batch as [|id batch IH]; intros ts; simpl; [by intros [= <-]|].
  unfold batch_task. destruct (activity d id) as [a|]; simpl; [|done].
  destruct (record st id) as [r|s]; simpl; [|done].
  destruct (batch_tasks d st batch) as [ts'|s]; simpl; [|done]. intros [= <-].
  constructor; [apply Hp|auto].
Qed.

(** Joining a batch leaves the outcomes of its tasks, in order. *)
Lemma join_batch ts os w :
  idle w → Forall (λ t, is_u32 (max_attempts (task_policy t))) ts → Forall2 settles ts os →
  wp (join_all (S (length ts)) c
        {| js_running := zip (seq 0 (length ts)) ts; js_done := [] |} (map (λ _, None) ts))
    (λ slots w', idle w' ∧ slots = map Some os) never w.
Proof.
  intros Hi Hp Hs. pose proof (Forall2_length _ _ _ Hs) as Hlen.
  set (d0 := {| iso_id := ""; iso_attempts := 0; iso_events := []; iso_result := IsoFailed "" |}).
  set (target := λ i, default d0 (os !! i)).
  assert (keys {| js_running := zip (seq 0 (length ts)) ts; js_done := [] |} = seq 0 (length ts))
    as Hkeys.
  { unfold keys. simpl. apply (fst_zip (seq 0 (length ts)) ts). by rewrite length_seq. }
  eapply wp_mono; [apply (join_all_owed target); [done|split; [|done]| |]| |done].
  - apply (zip_seq_owed ts os 0); [done|done|]. intros i o Ho. unfold target. simpl. by rewrite Ho.
  - rewrite Hkeys, length_seq. lia.
  - intros i. rewrite Hkeys, List.length_map, elem_of_seq. lia.
  - intros slots w' (Hi' & Hl & Hsl). split; [done|]. rewrite List.length_map in Hl, Hsl.
    apply list_eq_same_length with (length ts); [by rewrite List.length_map|done|].
    intros i x y Hlt Hx Hy. rewrite (Hsl i Hlt), decide_True in Hx.
    2: { rewrite Hkeys. apply elem_of_seq. lia. }
    injection Hx as <-. change (map Some os) with (Some <$> os) in Hy.
    apply list_lookup_fmap_Some in Hy as (o & -> & Ho). unfold target. by rewrite Ho.
Qed.
(** Whatever its world, a batch commits the outcomes its tasks settle to. *)
Lemma run_ready_batch_commits d st batch ts os w :
  idle w → (∀ id, is_u32 (max_attempts (retry_for d id))) → es_execution_id st = c →
  batch_tasks d st batch = Ret ts → Forall2 settles ts os →
  ∃ w', idle w' ∧ run_ready_batch d st batch w = commit_outcomes st (map Some os) w'.
Proof.
  intros Hi Hp Hc Hts Hos. pose proof (batch_tasks_policies d st batch ts Hp Hts) as Hpol.
  pose proof (batch_tasks_length d st batch ts Hts) as Hlen.
  change (run_ready_batch d st batch) with
    (set ← lift (spawn_batch d st batch 0 {| js_running := []; js_done := [] |});
     slots ← join_all (S (length batch)) (es_execution_id st) set (map (λ _, None) batch);
     commit_outcomes st slots : Effect.M World (ExecutionState * BatchStep)).
  rewrite spawn_batch_tasks, lift_bind, Hts, Hc. simpl.
  assert (map (λ _, None) batch = map (λ _, @None IsolatedOutcome) ts) as ->.
  { clear -Hlen. revert ts Hlen. induction batch; intros [|t ts] Hl; simpl in *; try done.
    f_equal. apply IHbatch. by injection Hl. }
  rewrite <- Hlen.
  destruct (run_never _ _ _ (join_batch ts os w Hi Hpol Hos)) as (slots & w1 & Hrun & Hi1 & ->).
  exists w1. split; [done|]. exact (bind_run _ _ _ _ _ Hrun).
Qed.

(** A task run on its own reaches the outcome it settles to. *)
Lemma settles_alone t o w :
  idle w → is_u32 (max_attempts (task_policy t)) → settles t o →
  ∃ w', run_attempts (attempt_fuel (task_policy t)) c t w = (w', Ret o) ∧ w_store w' = w_store w.
Proof.
  intros Hi Hp Ho. pose proof (attempts_left_fuel (task_policy t) (task_attempt t) (proj1 Hp)) as Hf.
  destruct (run_never _ _ _ (run_attempts_settles _ t o w Hi Hp Hf Ho)) as (o' & w' & Hrun & [Hs _] & ->).
  exists w'. split; [done|]. by rewrite Hs, (proj1 Hi).
Qed.
End pure.

(** ** Properties *)

(** C5: what a concurrent batch persists does not depend on the schedule.
    Suppose that what the executor answers is a function of the context it is
    given, whatever state it keeps, and that the attempt limits of the
    definition are 32-bit numbers.  Then a batch run from two worlds that differ
    in their schedules, executor states, clocks and timers but hold the same
    store returns the same snapshot and the same verdict, and leaves the same
    event log and checkpoints.  What is committed are the outcomes, in
    declaration order, that the retry loop of each activity reaches when it is
    run alone on the variables from before the batch. *)
Theorem batches_do_not_depend_on_the_schedule {St T X} `{EventLog St, CheckpointStore St}
    `{ActivityExecutor X, Sleep X}
    (env_ok : X → Prop) (f : ActivityContext → ActivityError + Value)
    d st batch (w1 w2 : World St T X) :
  (∀ ctx x, env_ok x → env_ok (execute ctx x).1 ∧ exec_result (execute ctx x).2 = f ctx) →
  (∀ ms x, env_ok x → env_ok (sleep ms x)) →
  (∀ id, is_u32 (max_attempts (retry_for d id))) →
  w_store w1 = w_store w2 → env_ok (w_env w1) → env_ok (w_env w2) →
  (run_ready_batch d st batch w1).2 = (run_ready_batch d st batch w2).2 ∧
  w_store (run_ready_batch d st batch w1).1 = w_store (run_ready_batch d st batch w2).1 ∧
  ∀ ts, batch_tasks d st batch = Ret ts → ∃ os,
    Forall2 (λ t o, ∀ w : World St T X, env_ok (w_env w) → ∃ w',
      run_attempts (attempt_fuel (task_policy t)) (es_execution_id st) t w = (w', Ret o) ∧
      w_store w' = w_store w) ts os ∧
    (run_ready_batch d st batch w1).2 = (commit_outcomes st (map Some os) w1).2 ∧
    w_store (run_ready_batch d st batch w1).1 = w_store (commit_outcomes st (map Some os) w1).1.
Proof.
  intros Hexec Hsleep Hp Hstore He1 He2. set (c := es_execution_id st).
  destruct (batch_tasks d st batch) as [ts|s] eqn:Hts.
  2: { unfold run_ready_batch. rewrite spawn_batch_tasks, !lift_bind, Hts. done. }
  pose proof (batch_tasks_policies d st batch ts Hp Hts) as Hpol.
  destruct (settles_all f ts Hpol) as [os Hos].
  assert (∀ w : World St T X, w_store w = w_store w1 → env_ok (w_env w) →
    (run_ready_batch d st batch w).2 = (commit_outcomes st (map Some os) w1).2 ∧
    w_store (run_ready_batch d st batch w).1 = w_store (commit_outcomes st (map Some os) w1).1) as Hcommit.
  { intros w Hs He. destruct (run_ready_batch_commits env_ok f Hexec Hsleep c (w_store w1)
      d st batch ts os w (conj Hs He) Hp eq_refl Hts Hos) as (w' & [Hs' _] & ->).
    by apply store_only_commit_outcomes. }
  destruct (Hcommit w1 eq_refl He1) as [H11 H12], (Hcommit w2 (eq_sym Hstore) He2) as [H21 H22].
  split; [congruence|]. split; [congruence|]. intros ts' [= <-]. exists os. split; [|done].
  apply Forall2_same_length_lookup_2; [by eapply Forall2_length|]. intros i t o Ht Ho w Hw.
  apply (settles_alone env_ok f Hexec Hsleep c (w_store w) t o w); [by split|by eapply (Forall_lookup_1 _ _ _ _ Hpol)|].
  by eapply (Forall2_lookup_lr _ _ _ _ _ _ Hos).
Qed.

(** The diamond's branches, of which [b] needs a second attempt. *)
Definition busy_diamond : ClosureExecutor := ClosureExecutor_on handlers_for_all "b" second_attempt.

Lemma batches_do_not_depend_on_the_schedule_witness :
  let st := initial_state diamond "e1" Null in
  let one := run_ready_batch diamond st ["a"; "b"; "c"] (fresh 50 busy_diamond [5; 1; 1; 2; 0]) in
  let other := run_ready_batch diamond st ["a"; "b"; "c"] (fresh 50 busy_diamond []) in
  one.2 = other.2 ∧ w_store one.1 = w_store other.1 ∧
  map (λ call, (ctx_id call.2, ctx_attempt call.2)) (w_calls one.1) ≠
  map (λ call, (ctx_id call.2, ctx_attempt call.2)) (w_calls other.1).
Proof.
  intros st one other.
  destruct (batches_do_not_depend_on_the_schedule (λ x, rt_executor x = busy_diamond)
    (λ ctx, exec_result (execute ctx busy_diamond).2) diamond st ["a"; "b"; "c"]
    (fresh 50 busy_diamond [5; 1; 1; 2; 0]) (fresh 50 busy_diamond [])) as (Ho & Hs & _).
  - intros ctx x Hx. unfold execute, Runtime_execute. rewrite Hx. by split.
  - by intros ms x Hx.
  - apply diamond_loaded.
  - reflexivity.
  - reflexivity.
  - reflexivity.
  - split; [exact Ho|]. split; [exact Hs|]. by vm_compute.
Defined.
