(* ===== verification/EngineLoop.v ===== *)
(** * A loop collects the output of every item

    [for_each] completes only when every item of its collection has a completed
    instance, and its output lists theirs in item order. *)
From stdpp Require Import base tactics list numbers strings gmap.
From Stdlib Require Import Lia ZArith Ascii.
From S2P Require Import Prelude.
From S2P Require Import RustStr.
From S2P Require Import Common.
From S2P Require Import JsonValue.
From S2P Require Import State.
From S2P Require Import Retry.
From S2P Require Import Executor.
From S2P Require Import Template.
From S2P Require Import Event.
From S2P Require Import WorkflowDef.
From S2P Require Import WorkflowValid.
From S2P Require Import ExecState.
From S2P Require Import Store.
From S2P Require Import Effect.
From S2P Require Import Timer.
From S2P Require Import Engine.
From S2P Require Import EngineInv.
From S2P Require Import EngineUndo.
From S2P Require Import EngineBatch.
From S2P Require Import Scenario.

Section loop.
Context {St T X : Type}.
Context `{HEL : EventLog St, HCS : CheckpointStore St}.
Context `{HAE : ActivityExecutor X, HSL : Sleep X}.
Context `{HSJ : SerdeJson, HDS : DefinitionSerde}.
Notation World := (World St T X).

(** What [m] returns satisfies [Q], when it returns. *)
Definition yields {A} (m : M World A) (Q : A → Prop) : Prop := ∀ w, wp m (λ a _, Q a) anyhow w.

Lemma yields_ret {A} (a : A) (Q : A → Prop) : Q a → yields (mret a) Q.
Proof. by intros Ha w. Qed.
Lemma yields_bind {A B} (m : M World A) (k : A → M World B) R Q :
  yields m R → (∀ a, R a → yields (k a) Q) → yields (m ≫= k) Q.
Proof. intros Hm Hk w. eapply wp_call; [apply Hm|]. intros a w' Ha. by apply Hk. Qed.
Lemma yields_lift {A B} (o : outcome A) (k : A → M World B) Q :
  (∀ a, o = Ret a → yields (k a) Q) → yields (lift o ≫= k) Q.
Proof. intros Hk w. apply wp_lift_bind. destruct o as [a|s]; [by apply Hk|done]. Qed.
Lemma yields_any {A} (m : M World A) : yields m (λ _, True).
Proof. intros w. unfold wp. by destruct (m w) as [w' [a|s]]. Qed.
Lemma yields_mono {A} (m : M World A) (R Q : A → Prop) :
  yields m R → (∀ a, R a → Q a) → yields m Q.
Proof. intros Hm HQ w. eapply wp_mono; [apply Hm|intros a w' Ha; by apply HQ|done]. Qed.

(** ** Events leave records and variables alone *)

Definition same_data (st st' : ExecutionState) : Prop :=
  es_activities st' = es_activities st ∧ es_variables st' = es_variables st.

Lemma emit_same st e : yields (emit st e) (same_data st).
Proof. unfold emit. eapply yields_bind; [apply yields_any|]. intros n _. by apply yields_ret. Qed.
Lemma emit_checkpoint_same st e : yields (emit_checkpoint st e) (same_data st).
Proof.
  unfold emit_checkpoint. eapply yields_bind; [apply emit_same|]. intros st1 H1.
  eapply yields_bind; [apply yields_any|]. intros u _. by apply yields_ret.
Qed.
Lemma emit_all_same st es : yields (emit_all st es) (same_data st).
Proof.
  revert st. induction es as [|e es IH]; intros st; simpl; [by apply yields_ret|].
  eapply yields_bind; [apply emit_same|]. intros st1 [Ha Hv]. eapply yields_mono; [apply IH|].
  intros st2 [Ha2 Hv2]. split; congruence.
Qed.

(** ** Joining the instances *)

Section window.
Context (name : nat → string) (c : string).

Definition named (set : JoinSet) : Prop :=
  Forall (λ it, task_id it.2 = name it.1) (js_running set) ∧
  Forall (λ io, iso_id io.2 = name io.1) (js_done set).

Lemma attempt_step_named t :
  yields (attempt_step c t) (λ r, match r with
    | inl t' => task_id t' = task_id t
    | inr o => iso_id o = task_id t
    end).
Proof.
  unfold attempt_step. eapply yields_bind; [apply yields_any|]. intros ex _.
  destruct (exec_result ex) as [[msg|msg|msg]|output]; try by apply yields_ret.
  destruct (Z.leb _ _); [by apply yields_ret|].
  eapply yields_bind; [apply yields_any|]. intros u _. by apply yields_ret.
Qed.

Lemma join_next_go_named fuel set :
  named set →
  yields (join_next_go fuel c set) (λ '(joined, set'),
    match joined with
    | None => keys set = []
    | Some (i, o) => iso_id o = name i ∧ named set' ∧ keys set ≡ₚ i :: keys set'
    end).
Proof.
  revert set. induction fuel as [|fuel IH]; intros set [Hrun Hdone]; [done|]. cbn [join_next_go].
  destruct (Nat.eqb_spec (length (js_done set) + length (js_running set)) 0) as [H0|_].
  { apply yields_ret. unfold keys. destruct (js_done set), (js_running set); done. }
  eapply yields_bind; [apply yields_any|]. intros choice _. set (i := Nat.modulo _ _).
  destruct (js_done set !! i) as [[j o]|] eqn:Hd.
  { apply yields_ret. split; [by apply (Forall_lookup_1 _ _ _ _ Hdone Hd)|].
    split; [split; [done|by apply Forall_delete]|].
    unfold keys. simpl. by rewrite (delete_permutation _ _ _ Hd). }
  destruct (js_running set !! (i - length (js_done set))) as [[j t]|] eqn:Hr; [|done].
  pose proof (Forall_lookup_1 _ _ _ _ Hrun Hr) as Hn. simpl in Hn.
  eapply yields_bind; [apply attempt_step_named|]. intros [t'|o] Hr'.
  - eapply yields_mono; [apply IH; split; simpl; [|done]|].
    + apply Forall_insert; [done|]. simpl. congruence.
    + intros [joined set']. unfold keys. simpl. by rewrite (insert_keys _ _ _ _ _ Hr).
  - eapply yields_mono; [apply IH; split; simpl|].
    + by apply Forall_delete.
    + apply Forall_app. split; [done|]. apply Forall_singleton. simpl. congruence.
    + intros [joined set'] Hj.
      assert (keys set ≡ₚ (map fst (js_done set) ++ [j]) ++
        map fst (delete (i - length (js_done set)) (js_running set))) as Hperm.
      { unfold keys. rewrite (delete_permutation _ _ _ Hr). simpl. by rewrite <- app_assoc. }
      unfold keys in *. simpl in Hj. rewrite map_app in Hj. simpl in Hj.
      destruct joined as [[i' o']|].
      * destruct Hj as (? & ? & Hk). split; [done|]. split; [done|]. by rewrite Hperm.
      * rewrite Hj in Hperm. by apply Permutation_nil_r in Hperm.
Qed.

(** When the fan-out stops within its budget, every pending item has joined. *)
Context (pending : list nat) (make : nat → outcome Task).
Hypothesis make_named : ∀ i t, make i = Ret t → task_id t = name i.

Definition collected (slots : gmap nat IsolatedOutcome) : Prop :=
  ∀ i o, slots !! i = Some o → i ∈ pending ∧ iso_id o = name i.

Lemma for_each_join_collects fuel spec set queue fan :
  named set → (∀ i, i ∈ keys set ++ queue → i ∈ pending) → collected (fo_slots fan) →
  (fo_over_budget fan = None → (queue ≠ [] → keys set ≠ []) ∧
     ∀ i, i ∈ pending → i ∈ keys set ++ queue ∨ is_Some (fo_slots fan !! i)) →
  yields (for_each_join fuel c spec make set queue fan) (λ fan',
    collected (fo_slots fan') ∧
    (fo_over_budget fan' = None → ∀ i, i ∈ pending → is_Some (fo_slots fan' !! i))).
Proof.
  revert set queue fan. induction fuel as [|fuel IH]; intros set queue fan Hn Hin Hc Hinv; [done|].
  cbn [for_each_join]. eapply yields_bind; [apply (join_next_go_named _ _ Hn)|].
  intros [[[i o]|] set'] Hj.
  2: { apply yields_ret. split; [done|]. intros Ho j Hpj. destruct (Hinv Ho) as [Hq Hall].
       rewrite Hj in Hq, Hall. destruct queue as [|x queue]; [|by destruct Hq].
       destruct (Hall j Hpj) as [Hbad|?]; [by apply not_elem_of_nil in Hbad|done]. }
  destruct Hj as (Hio & Hn' & Hperm).
  assert (∀ x, x ∈ keys set ↔ x = i ∨ x ∈ keys set') as Hkeys by (intros x; rewrite Hperm; set_solver).
  set (fan1 := {| fo_spent := _ |}).
  assert (collected (fo_slots fan1)) as Hc1.
  { intros j o' Hjo. simpl in Hjo. apply lookup_insert_Some in Hjo as [[<- <-]|[_ Hjo]]; [|by apply Hc].
    split; [|done]. apply Hin. set_solver. }
  assert (∀ j, j ∈ keys set ++ queue ∨ is_Some (fo_slots fan !! j) →
    j ∈ keys set' ++ queue ∨ is_Some (fo_slots fan1 !! j)) as Hmove.
  { intros j Hj. simpl. destruct (decide (i = j)) as [->|Hne].
    - right. by rewrite lookup_insert_eq.
    - rewrite lookup_insert_ne by done. rewrite elem_of_app, Hkeys in Hj. set_solver. }
  set (over := match fo_over_budget fan with Some _ => _ | None => _ end) in *.
  assert (fo_over_budget fan1 = over) as Hover by done.
  assert (over = None → fo_over_budget fan = None) as Hbefore.
  { unfold over. by destruct (fo_over_budget fan). }
  clearbody fan1 over.
  destruct over as [msg|].
  { apply IH; [done| |done|].
    - intros x Hx. apply Hin. rewrite elem_of_app, Hkeys. set_solver.
    - by rewrite Hover. }
  destruct (Hinv (Hbefore eq_refl)) as [_ Hall].
  destruct queue as [|next queue].
  { apply IH; [done| |done|].
    - intros x Hx. apply Hin. rewrite elem_of_app, Hkeys. set_solver.
    - intros _. split; [done|]. intros j Hj. by apply Hmove, Hall. }
  apply yields_lift. intros t Ht.
  assert (keys (spawn next t set') = keys set' ++ [next]) as Hks.
  { unfold keys, spawn. simpl. by rewrite map_app, app_assoc. }
  apply IH; [|rewrite Hks|done|rewrite Hks].
  - destruct Hn' as [Hrun Hdone]. split; simpl; [|done]. apply Forall_app. split; [done|].
    apply Forall_singleton. simpl. by apply make_named.
  - intros x Hx. apply Hin. rewrite elem_of_app, Hkeys. set_solver.
  - intros _. split; [intros _ Hbad; by apply app_eq_nil in Hbad as [_ Hbad]|].
    intros j Hj. specialize (Hmove j (Hall j Hj)). set_solver.
Qed.

Lemma spawn_all_keys l set :
  match spawn_all make l set with
  | Ret set' => (named set → named set') ∧ keys set' = keys set ++ l
  | Stop _ => True
  end.
Proof.
  revert set. induction l as [|i l IH]; intros set; simpl; [by rewrite app_nil_r|].
  destruct (make i) as [t|s] eqn:Hm; simpl; [|done].
  specialize (IH (spawn i t set)). destruct (spawn_all make l (spawn i t set)) as [set'|s]; [|done].
  destruct IH as [Hn Hk]. split.
  - intros [Hrun Hdone]. apply Hn. split; simpl; [|done]. apply Forall_app. split; [done|].
    apply Forall_singleton. simpl. by apply make_named.
  - rewrite Hk. unfold keys, spawn. simpl. rewrite map_app. simpl. by rewrite <- !app_assoc.
Qed.
End window.

(** ** Committing the instances *)

(** The record of [x] is completed with the output [out]. *)
Definition has_output (st : ExecutionState) (x : string) (out : Value) : Prop :=
  ∃ r, es_activities st !! x = Some r ∧ ar_state r = ActivityState.Completed ∧
    ar_output r = Some out.

Definition untouched (names : string → Prop) (st st' : ExecutionState) : Prop :=
  es_variables st' = es_variables st ∧
  ∀ x, ¬ names x → es_activities st' !! x = es_activities st !! x.

Lemma same_untouched names st st' : same_data st st' → untouched names st st'.
Proof. intros [Ha Hv]. split; [done|]. intros x _. by rewrite Ha. Qed.
Lemma untouched_trans names st1 st2 st3 :
  untouched names st1 st2 → untouched names st2 st3 → untouched names st1 st3.
Proof.
  intros [Hv1 Ha1] [Hv2 Ha2]. split; [congruence|]. intros x Hx. by rewrite Ha2, Ha1.
Qed.
Lemma untouched_mono (names names' : string → Prop) st st' :
  (∀ x, names x → names' x) → untouched names st st' → untouched names' st st'.
Proof. intros Hn [Hv Ha]. split; [done|]. intros x Hx. apply Ha. auto. Qed.
Lemma untouched_set_activity id to st : untouched (eq id) st (set_activity id to st).
Proof. split; [done|]. intros x Hx. simpl. by rewrite lookup_alter_ne. Qed.
Lemma untouched_update id f st st' :
  update_record id f st = Ret st' → untouched (eq id) st st'.
Proof.
  intros (r & _ & ->)%update_record_Ret. split; [done|]. intros x Hx. simpl.
  by rewrite lookup_insert_ne.
Qed.

Lemma commit_instance_yields st cr i o :
  yields (commit_instance st cr i o) (λ '(st', cr'), untouched (eq (iso_id o)) st st' ∧
    (cr_failure cr' = None → cr_interrupt cr' = None →
     cr_failure cr = None ∧ cr_interrupt cr = None ∧ ∃ out, has_output st' (iso_id o) out)).
Proof.
  unfold commit_instance. set (id := iso_id o).
  eapply yields_bind; [apply emit_all_same|]. intros st2 Hs2.
  assert (untouched (eq id) st st2) as Hu2.
  { eapply untouched_trans; [apply untouched_set_activity|by apply same_untouched]. }
  destruct (iso_result o) as [output|msg|msg].
  - apply yields_lift. intros st3 Hup. pose proof (untouched_update _ _ _ _ Hup) as Hu3.
    apply update_record_Ret in Hup as (r & _ & ->).
    eapply yields_bind; [apply emit_checkpoint_same|]. intros st4 Hs4. apply yields_ret.
    split; [do 2 (eapply untouched_trans; [done|]); by apply same_untouched|].
    intros Hf Hi. split; [done|]. split; [done|]. exists output, (rec_completed (iso_attempts o) output r).
    split; [|done]. rewrite (proj1 Hs4). simpl. apply lookup_insert_eq.
  - apply yields_lift. intros st3 Hup. pose proof (untouched_update _ _ _ _ Hup) as Hu3.
    eapply yields_bind; [apply emit_checkpoint_same|]. intros st4 Hs4. apply yields_ret.
    split; [do 2 (eapply untouched_trans; [done|]); by apply same_untouched|].
    simpl. by destruct (cr_failure cr).
  - eapply yields_bind; [apply yields_any|]. intros u _. apply yields_ret.
    split; [eapply untouched_trans; [done|apply untouched_set_activity]|].
    simpl. by destruct (cr_interrupt cr).
Qed.

Lemma has_output_untouched (names : string → Prop) st st' x out :
  untouched names st st' → ¬ names x → has_output st x out → has_output st' x out.
Proof. intros [_ Ha] Hx (r & Hr & ?). exists r. by rewrite Ha. Qed.

Lemma commit_instances_yields id st cr slots :
  NoDup (map fst slots) → (∀ i o, (i, o) ∈ slots → iso_id o = instance_id id i) →
  yields (commit_instances st cr slots) (λ '(st', cr'),
    untouched (λ x, ∃ i, i ∈ map fst slots ∧ x = instance_id id i) st st' ∧
    (cr_failure cr' = None → cr_interrupt cr' = None →
     cr_failure cr = None ∧ cr_interrupt cr = None ∧
     ∀ i, i ∈ map fst slots → ∃ out, has_output st' (instance_id id i) out)).
Proof.
  revert st cr. induction slots as [|[i o] slots IH]; intros st cr Hnd Hn; simpl.
  { apply yields_ret. split; [by apply same_untouched|]. intros ? ?. split; [done|]. split; [done|].
    by intros i ?%not_elem_of_nil. }
  simpl in Hnd. apply NoDup_cons in Hnd as [Hi Hnd].
  assert (iso_id o = instance_id id i) as Ho by (apply Hn; set_solver).
  eapply yields_bind; [apply commit_instance_yields|]. rewrite Ho. intros [st1 cr1] [Hu1 Hcr1].
  eapply yields_mono; [apply IH; [done|set_solver]|]. intros [st2 cr2] [Hu2 Hcr2]. split.
  - eapply untouched_trans; (eapply untouched_mono; [|done]).
    + intros x <-. exists i. set_solver.
    + intros x (j & Hj & ->). exists j. set_solver.
  - intros Hf Hint. destruct (Hcr2 Hf Hint) as (Hf1 & Hi1 & Hall).
    destruct (Hcr1 Hf1 Hi1) as (? & ? & out & Hout). split; [done|]. split; [done|].
    intros j Hj. destruct (decide (j ∈ map fst slots)) as [Hin|Hnin]; [by apply Hall|].
    assert (j = i) as -> by set_solver. exists out.
    eapply has_output_untouched; [exact Hu2| |done].
    intros (k & Hk & Heq). apply instance_id_inj in Heq as <-. done.
Qed.

(** ** Instances *)

Lemma ensure_instances_records id l st :
  es_variables (ensure_instances id l st) = es_variables st ∧
  (∀ x r, es_activities st !! x = Some r → es_activities (ensure_instances id l st) !! x = Some r).
Proof.
  revert st. induction l as [|i l IH]; intros st; simpl; [done|].
  set (st1 := with_activities _ st). destruct (IH st1) as [Hv Hr]. split; [done|].
  intros x r Hx. apply Hr. unfold st1. simpl.
  destruct (es_activities st !! instance_id id i) eqn:E; [done|].
  rewrite lookup_insert_ne; [done|]. intros <-. congruence.
Qed.

Lemma pending_instances_complete id st l p :
  pending_instances id st l = Ret p →
  p `sublist_of` l ∧
  ∀ i, i ∈ l → i ∈ p ∨ ∃ r, es_activities st !! instance_id id i = Some r ∧
                            ar_state r = ActivityState.Completed.
Proof.
  revert p. induction l as [|i l IH]; intros p; simpl.
  { intros [= <-]. split; [done|]. by intros i ?%not_elem_of_nil. }
  destruct (record st (instance_id id i)) as [r|s] eqn:Hr; simpl; [|done].
  apply record_Ret in Hr. destruct (pending_instances id st l) as [p'|s]; simpl; [|done].
  destruct (IH p' eq_refl) as [Hsub Hall]. intros [= <-]. case_decide as Hd.
  - split; [by constructor|]. intros j [->|Hj]%elem_of_cons; [right; eauto|auto].
  - split; [by constructor|]. intros j [->|Hj]%elem_of_cons; [left; set_solver|].
    destruct (Hall j Hj) as [?|?]; [left; set_solver|by right].
Qed.

Lemma instance_outputs_spec id st l outs :
  instance_outputs id st l = Ret outs →
  length outs = length l ∧ ∀ k i out, l !! k = Some i → outs !! k = Some out →
    ∃ r, es_activities st !! instance_id id i = Some r ∧ out = default Null (ar_output r).
Proof.
  revert outs. induction l as [|i l IH]; intros outs; simpl; [by intros [= <-]|].
  destruct (record st (instance_id id i)) as [r|s] eqn:Hr; simpl; [|done].
  apply record_Ret in Hr. destruct (instance_outputs id st l) as [outs'|s]; simpl; [|done].
  intros [= <-]. destruct (IH outs' eq_refl) as [Hlen Hall]. split; [by simpl; f_equal|].
  intros [|k] j out; simpl; [|by apply Hall]. intros [= <-] [= <-]. eauto.
Qed.

Lemma split_at_first {A} n (l : list A) : (0 < n)%Z → l ≠ [] → (split_at n l).1 ≠ [].
Proof. destruct l as [|x l]; [done|]. intros Hn _. simpl. by rewrite (proj2 (Z.leb_gt _ _)). Qed.

(** ** The whole loop *)

(** The collection of a loop: the one recorded when it was first expanded, or
    else what its [items] resolve to now. *)
Definition collection (st : ExecutionState) (act : ActivityDef) (items : list Value) : Prop :=
  es_variables st !! for_each_marker (act_id act) = Some (Array items) ∨
  ∃ spec ctx, ForEachSpec_parse act = Ok spec ∧ ctx_variables ctx = es_variables st ∧
    template_resolve (fe_items spec) ctx = Array items ∧
    (Z.of_nat (length items) <= fe_max_items spec)%Z.

Lemma terminal_failure_yields st id attempt msg :
  yields (terminal_activity_failure st id attempt msg) (λ r, ∃ m, r.2 = StepFailed m).
Proof.
  unfold terminal_activity_failure. apply yields_lift. intros st1 _.
  eapply yields_bind; [apply yields_any|]. intros st2 _. apply yields_ret. by eexists.
Qed.

Lemma expand_yields st act spec :
  ForEachSpec_parse act = Ok spec →
  yields (expand st act spec) (λ '(st', r),
    match r with
    | inl items => es_activities st' = es_activities st ∧ collection st act items
    | inr step => ∃ m, step = StepFailed m
    end).
Proof.
  intros Hspec. unfold expand. set (id := act_id act).
  assert (∀ attempt msg, yields ('(st', step) ← terminal_activity_failure st id attempt msg;
      mret (M := M World) (st', @inr (list Value) Step step)) (λ '(st', r),
    match r with
    | inl items => es_activities st' = es_activities st ∧ collection st act items
    | inr step => ∃ m, step = StepFailed m
    end)) as Hfail.
  { intros attempt msg. eapply yields_bind; [apply terminal_failure_yields|].
    intros [st' step] Hstep. by apply yields_ret. }
  set (body := mbind _ _).
  assert (yields body (λ '(st', r),
    match r with
    | inl items => es_activities st' = es_activities st ∧ collection st act items
    | inr step => ∃ m, step = StepFailed m
    end)) as Hbody.
  { unfold body. apply yields_lift. intros r _. set (probe := {| ctx_id := id |}).
    destruct (template_resolve (fe_items spec) probe) as [| | | |items|] eqn:Hres; try apply Hfail.
    destruct (Z.ltb_spec (fe_max_items spec) (Z.of_nat (length items))); [apply Hfail|].
    eapply yields_bind; [apply yields_any|]. intros u _. apply yields_ret. split; [done|].
    right. by exists spec, probe. }
  destruct (es_variables st !! for_each_marker id) as [[]|] eqn:Hm; try exact Hbody.
  apply yields_ret. split; [done|]. by left.
Qed.

Definition completed_with (st : ExecutionState) (id : string) (outs : list Value) (st' : ExecutionState)
    : Prop :=
  es_variables st' = <[id := Array outs]> (es_variables st) ∧
  state_of st' id = Some ActivityState.Completed ∧
  ∀ x, x ≠ id → es_activities st' !! x = es_activities st !! x.

Lemma complete_for_each_yields eng st id outs :
  yields (complete_for_each eng st id outs) (λ '(st', step),
    step = StepCompleted → completed_with st id outs st').
Proof.
  unfold complete_for_each. destruct (check_output_size _ _ _) as [msg|].
  - apply yields_lift. intros r _. eapply yields_mono; [apply terminal_failure_yields|].
    intros [st' step] [m Hm]. simpl in Hm. by subst.
  - apply yields_lift. intros st1 Hc. unfold complete_activity in Hc.
    destruct (update_record _ _ st) as [st0|s] eqn:Hup; simpl in Hc; [|done].
    injection Hc as <-. apply update_record_Ret in Hup as (r & _ & ->).
    eapply yields_bind; [apply emit_checkpoint_same|]. intros st2 [Ha Hv]. apply yields_ret.
    intros _. split; [by rewrite Hv|]. unfold state_of. rewrite Ha. simpl. split.
    + by rewrite lookup_insert_eq.
    + intros x Hx. by rewrite lookup_insert_ne.
Qed.

(** What a completed loop looks like. *)
Definition loop_completed (st : ExecutionState) (act : ActivityDef) (st' : ExecutionState) : Prop :=
  let id := act_id act in
  ∃ items outs, collection st act items ∧ length outs = length items ∧
    es_variables st' !! id = Some (Array outs) ∧
    es_variables st' !! for_each_marker id = None ∧
    state_of st' id = Some ActivityState.Completed ∧
    ∀ i out, outs !! i = Some out → ∃ r, es_activities st' !! instance_id id i = Some r ∧
      ar_state r = ActivityState.Completed ∧ out = default Null (ar_output r).

Lemma marker_ne id : for_each_marker id ≠ id.
Proof.
  intros Heq. apply (f_equal String.length) in Heq. unfold for_each_marker in Heq.
  rewrite str_length_app in Heq. simpl in Heq. lia.
Qed.

Lemma completed_loop st act items outs st1 st' :
  collection st act items → length outs = length items →
  (∀ i out, outs !! i = Some out → ∃ r, es_activities st1 !! instance_id (act_id act) i = Some r ∧
     ar_state r = ActivityState.Completed ∧ out = default Null (ar_output r)) →
  completed_with (with_variables (delete (for_each_marker (act_id act))) st1) (act_id act) outs st' →
  loop_completed st act st'.
Proof.
  intros Hc Hlen Hall (Hv & Hs & Ha). exists items, outs. split; [done|]. split; [done|].
  rewrite Hv. split; [apply lookup_insert_eq|]. split.
  { rewrite lookup_insert_ne by (intros Heq; by apply (marker_ne (act_id act))).
    simpl. apply lookup_delete_eq. }
  split; [done|]. intros i out Hi. destruct (Hall i out Hi) as (r & Hr & ?). exists r.
  split; [|done]. rewrite Ha; [exact Hr|]. apply instance_id_ne.
Qed.

Lemma slots_in_order_keys n slots i o :
  slots !! i = Some o → i < n → (i, o) ∈ slots_in_order n slots.
Proof.
  intros Hs Hi. unfold slots_in_order. apply list_elem_of_omap. exists i.
  split; [apply elem_of_seq; lia|]. by rewrite Hs.
Qed.

(** The window over the pending items collects an outcome for each of them. *)
Lemma window_collects c id spec make pending set :
  (0 < fe_max_concurrent spec)%Z →
  (∀ i t, make i = Ret t → task_id t = instance_id id i) →
  spawn_all make (split_at (fe_max_concurrent spec) pending).1 {| js_running := []; js_done := [] |}
    = Ret set →
  yields (for_each_join (S (length pending)) c spec make set
            (split_at (fe_max_concurrent spec) pending).2
            {| fo_spent := ActivityUsage_default; fo_over_budget := None; fo_slots := ∅ |})
    (λ fan, collected (instance_id id) pending (fo_slots fan) ∧
      (fo_over_budget fan = None → ∀ i, i ∈ pending → is_Some (fo_slots fan !! i))).
Proof.
  intros Hn Hmake Hset. pose proof (split_at_app (fe_max_concurrent spec) pending) as Happ.
  pose proof (spawn_all_keys (instance_id id) make Hmake
    (split_at (fe_max_concurrent spec) pending).1 {| js_running := []; js_done := [] |}) as Hk.
  rewrite Hset in Hk. destruct Hk as [Hnamed Hkeys].
  change (keys {| js_running := []; js_done := [] |}) with (@nil nat) in Hkeys. simpl in Hkeys.
  apply for_each_join_collects; try done.
  - apply Hnamed. by split.
  - intros i. by rewrite Hkeys, Happ.
  - intros _. rewrite Hkeys, Happ. split; [|by left].
    intros Hq. apply split_at_first; [done|]. intros ->. by simpl in Hq.
Qed.

Lemma run_for_each_yields eng d st act :
  (∀ spec, ForEachSpec_parse act = Ok spec → (0 <= fe_max_concurrent spec)%Z) →
  yields (run_for_each eng d st act) (λ '(st', step), step = StepCompleted → loop_completed st act st').
Proof.
  intros Hconc. unfold run_for_each. set (id := act_id act).
  apply yields_lift. intros spec Hspec.
  assert (ForEachSpec_parse act = Ok spec) as Hparse.
  { destruct (ForEachSpec_parse act); simpl in Hspec; by simplify_eq. }
  assert (0 < fe_max_concurrent spec)%Z as Hpos.
  { pose proof (fo_concurrent _ (ForEachSpec_parse_ok _ _ Hparse)). specialize (Hconc spec Hparse). lia. }
  eapply yields_bind; [by apply expand_yields|]. intros [st1 [items|step]] Hex.
  2: { destruct Hex as [m ->]. by apply yields_ret. }
  destruct Hex as [Hacts1 Hcoll].
  assert (∀ attempt msg st2, yields (terminal_activity_failure st2 id attempt msg)
    (λ '(st', step), step = StepCompleted → loop_completed st act st')) as Hfail.
  { intros attempt msg st2. eapply yields_mono; [apply terminal_failure_yields|].
    intros [st' step] [m Hm]. simpl in Hm. by subst. }
  destruct items as [|item items].
  { eapply yields_mono; [apply complete_for_each_yields|]. intros [st' step] Hdone Hstep.
    by apply (completed_loop st act [] [] st1 st'), Hdone. }
  set (all := item :: items) in *. set (indices := seq 0 (length all)).
  set (st2 := ensure_instances id indices st1).
  apply yields_lift. intros pending Hpend.
  apply pending_instances_complete in Hpend as [Hsub Hpend].
  destruct (split_at (fe_max_concurrent spec) pending) as [first queue] eqn:Hsplit.
  apply yields_lift. intros set Hset.
  eapply yields_bind.
  { pose proof (window_collects (es_execution_id st2) id spec
      (instance_task id spec (body_policy d spec) (es_variables st2) all st2) pending set Hpos) as Hwin.
    rewrite Hsplit in Hwin. apply Hwin; [|done]. intros i t Ht.
    pose proof (instance_task_spec id spec (body_policy d spec) (es_variables st2) all st2 i) as Hspec'.
    rewrite Ht in Hspec'. apply Hspec'. }
  intros fan [Hcol Hjoined].
  eapply yields_bind.
  { apply (commit_instances_yields id); [apply slots_in_order_nodup|].
    intros i o Hin. by apply Hcol, (slots_in_order_elem (length all)). }
  intros [st3 cr] [Hu3 Hcr].
  destruct (cr_failure cr) as [msg|] eqn:Hf.
  { apply yields_lift. intros r _. apply Hfail. }
  destruct (fo_over_budget fan) as [msg|] eqn:Hover.
  { apply yields_lift. intros r _. apply Hfail. }
  destruct (cr_interrupt cr) as [msg|] eqn:Hi.
  { eapply yields_bind; [apply yields_any|]. intros u _. by apply yields_ret. }
  apply yields_lift. intros outs Houts. apply instance_outputs_spec in Houts as [Hlen Houts].
  eapply yields_mono; [apply complete_for_each_yields|]. intros [st' step] Hdone Hstep.
  unfold indices in Hlen. rewrite length_seq in Hlen.
  apply (completed_loop st act all outs st3 st'); [done|done| |by apply Hdone].
  intros i out Hout. apply lookup_lt_Some in Hout as Hlt. rewrite Hlen in Hlt.
  destruct (Houts i i out) as (r & Hr & ->); [by apply lookup_seq_lt|done|].
  exists r. split; [done|]. split; [|done].
  destruct (Hcr eq_refl eq_refl) as (_ & _ & Hall).
  destruct (decide (i ∈ map fst (slots_in_order (length all) (fo_slots fan)))) as [Hin|Hnin].
  - destruct (Hall i Hin) as (out' & r' & Hr' & Hs & _). fold id in Hr. congruence.
  - destruct (Hpend i) as [Hp|(r' & Hr' & Hs)]; [apply elem_of_seq; lia| |].
    + exfalso. destruct (Hjoined eq_refl i Hp) as [o Ho]. apply Hnin.
      apply list_elem_of_fmap. exists (i, o). split; [done|]. by apply slots_in_order_keys.
    + destruct Hu3 as [_ Hu3]. rewrite Hu3 in Hr.
      * fold id in Hr. congruence.
      * intros (j & Hj & Heq). apply instance_id_inj in Heq as <-. done.
Qed.
End loop.

(** ** Properties *)

(** A loop collects the output of every item, in order.  When a [for_each]
    activity completes, its collection (the one recorded when the loop was first
    expanded, or else what its [items] resolve to, within [max_items]) has one
    output per item; the instance of every item is recorded as completed and
    the [i]-th output is its; the array is exposed as the activity's variable and
    the loop's marker is gone.  This holds for any executor, schedule,
    concurrency bound and number of earlier interrupted runs. *)
Theorem for_each_collects_in_order {St T X} `{EventLog St, CheckpointStore St}
    `{ActivityExecutor X, Sleep X, SerdeJson, DefinitionSerde}
    eng d st act (w w' : World St T X) st' :
  (∀ spec, ForEachSpec_parse act = Ok spec → (0 <= fe_max_concurrent spec)%Z) →
  run_for_each eng d st act w = (w', Ret (st', StepCompleted)) →
  loop_completed st act st'.
Proof.
  intros Hc Hr. pose proof (run_for_each_yields eng d st act Hc w) as Hwp.
  unfold wp in Hwp. rewrite Hr in Hwp. by apply Hwp.
Qed.

Lemma for_each_collects_in_order_witness :
  match run_for_each scenario_engine loop (initial_state loop "e1" Null)
          (hd (plain "") (spec_activities (def_spec loop))) (fresh 50 handlers_for_all [3; 0; 2; 1]) with
  | (_, Ret (st', StepCompleted)) =>
      es_variables st' !! "each" = Some (Array [json_u64 1; json_u64 1; json_u64 1]) ∧
      loop_completed (initial_state loop "e1" Null) (hd (plain "") (spec_activities (def_spec loop))) st'
  | _ => False
  end.
Proof.
  destruct (run_for_each _ _ _ _ _) as [w' [[st' [|m|m]]|s]] eqn:Hr;
    pose proof (f_equal (λ r, match r.2 with
      | Ret (st', StepCompleted) => es_variables st' !! "each" | _ => None end) Hr) as Hv;
    vm_compute in Hv; try discriminate Hv.
  split; [symmetry; exact Hv|].
  apply (for_each_collects_in_order scenario_engine loop (initial_state loop "e1" Null)
    (hd (plain "") (spec_activities (def_spec loop))) (fresh 50 handlers_for_all [3; 0; 2; 1]) w' st');
    [|exact Hr].
  intros spec [= <-]. by vm_compute.
Defined.
