(* ===== verification/Worker.v ===== *)
(** * The distributed worker

    [crates/wovyr-workflow/src/worker.rs]: lease an execution, drive it with the
    engine to its next stop, take it off the queue. *)
From stdpp Require Import base tactics list numbers strings gmap.
From Stdlib Require Import Lia ZArith Ascii.
From S2P Require Import Prelude.
From S2P Require Import Common.
From S2P Require Import JsonValue.
From S2P Require Import State.
From S2P Require Import Executor.
From S2P Require Import Template.
From S2P Require Import WorkflowDef.
From S2P Require Import ExecState.
From S2P Require Import Store.
From S2P Require Import Queue.
From S2P Require Import Effect.
From S2P Require Import Timer.
From S2P Require Import Engine.
From S2P Require Import EngineInv.
From S2P Require Import Scenario.

(** [Instant::now()] *)
Class Monotonic (X : Type) := instant_now : X → Z.

Record Worker := {
  wk_id : string;
  wk_resolver : string → option Definition_;
  wk_lease_ttl : Z;
  wk_partitions : option PartitionAssignment;
}.
Definition Worker_new (id : string) (resolver : string → option Definition_) : Worker := {|
  wk_id := id; wk_resolver := resolver; wk_lease_ttl := 30000; wk_partitions := None |}.
Definition with_lease_ttl (ttl : Z) (w : Worker) : Worker := {|
  wk_id := wk_id w; wk_resolver := wk_resolver w; wk_lease_ttl := ttl;
  wk_partitions := wk_partitions w |}.
Definition with_partitions (a : PartitionAssignment) (w : Worker) : Worker := {|
  wk_id := wk_id w; wk_resolver := wk_resolver w; wk_lease_ttl := wk_lease_ttl w;
  wk_partitions := Some a |}.

Section worker.
Context {St T X Q : Type}.
Context `{HEL : EventLog St, HCS : CheckpointStore St, HTS : TimerStore T, HWQ : WorkQueue Q}.
Context `{HAE : ActivityExecutor X, HCL : Clock X, HSL : Sleep X, HMO : Monotonic X}.
Context `{HSJ : SerdeJson, HDS : DefinitionSerde}.
Context (eng : Engine) (self : Worker).

(** The shared queue and the engine's world. *)
Notation WW := (Q * World St T X)%type.

Definition in_engine {A} (m : M (World St T X) A) : M WW A := λ qw,
  let '(w, o) := m qw.2 in ((qw.1, w), o).
Definition on_queue {A} (f : Z → Q → Q * result A) : M WW A := λ qw,
  let '(q, r) := f (instant_now (w_env qw.2)) qw.1 in ((q, qw.2), of_result r).

Definition step : M WW (option (string * RunOutcome)) :=
  leased ← match wk_partitions self with
           | Some a => on_queue (λ now, lease_sharded (wk_id self) a (wk_lease_ttl self) now)
           | None => on_queue (λ now, lease (wk_id self) (wk_lease_ttl self) now)
           end;
  match leased with
  | None => mret None
  | Some execution_id =>
    found ← in_engine (query execution_id);
    state ← lift (of_result (ok_or
              (NotFound ("no checkpoint for `" +:+ execution_id +:+ "`")) found));
    def ← lift (of_result (ok_or
            (NotFound ("worker has no definition for workflow `" +:+ es_workflow_name state +:+ "`"))
            (wk_resolver self (es_workflow_name state))));
    '(outcome, _) ← in_engine (resume eng def execution_id);
    _ ← on_queue (λ now, remove execution_id now);
    mret (Some (execution_id, outcome))
  end.

Fixpoint run_until_idle_go (fuel : nat) (processed : nat) : M WW nat :=
  match fuel with
  | O => fail Exhausted
  | S fuel =>
    r ← step;
    match r with
    | None => mret processed
    | Some _ => run_until_idle_go fuel (S processed)
    end
  end.

(** ** Proofs *)

Context `{HLAWS : !StoreLaws St, HTL : !TimerStoreLaws T, HQL : !WorkQueueLaws Q}.

(** The loop ends once the queue is empty; every round takes one execution off. *)
Definition run_until_idle : M WW nat := λ qw,
  run_until_idle_go (S (size (queued qw.1))) 0 qw.

Lemma wp_in_engine {A} (m : M (World St T X) A) R E q w :
  wp m (λ a w', R a (q, w')) (λ s w', E s (q, w')) w → wp (in_engine m) R E (q, w).
Proof. unfold wp, in_engine. simpl. by destruct (m w) as [w' [a|s]]. Qed.

(** What has been driven: the persisted snapshot of a resume that returned. *)
Definition driven (w : World St T X) (e : string) (outcome : RunOutcome) : Prop :=
  ∃ st, snap w e = Some st ∧ good st (log w e) ∧
    match outcome with
    | RunCompleted => es_status st = WorkflowState.Completed
    | RunCompensated _ => es_status st = WorkflowState.Failed
    | RunFailed _ => es_status st ≠ WorkflowState.Completed
    | RunInterrupted _ => WorkflowState.is_terminal (es_status st) = false
    end.

(** The worlds a worker may be in: consistent snapshots, no lock held. *)
Definition ready_world (w : World St T X) : Prop := stored w ∧ w_locks w = ∅.

Lemma during_ready e keep w w' : during e keep w w' → ready_world w → ready_world w'.
Proof. intros [Hs _ _ Hl _] [_ Hw]. split; [done|congruence]. Qed.

Lemma returned_driven d (P : Prop) e w r :
  returned d P r (log w e) (snap w e) → driven w e r.1.
Proof.
  intros (Hsn & Hg & Ho). exists r.2. split; [done|]. split; [done|].
  by destruct (r.1); try apply Ho.
Qed.

Definition stop_free (w : World St T X) (q q' : Q) (s : stop) (w' : World St T X) : Prop :=
  ready_world w' ∧ proper s ∧
  (queued q' = queued q ∨ ∃ e outcome, e ∈ queued q ∧ queued q' = queued q ∖ {[e]} ∧
     driven w' e outcome).

Lemma wp_lease q w (HE : ready_world w) :
  wp match wk_partitions self with
     | Some a => on_queue (λ now, lease_sharded (wk_id self) a (wk_lease_ttl self) now)
     | None => on_queue (λ now, lease (wk_id self) (wk_lease_ttl self) now)
     end
    (λ o qw, qw.2 = w ∧ queued qw.1 = queued q ∧ ∀ e, o = Some e → e ∈ queued q)
    (λ s qw, stop_free w q qw.1 s qw.2) (q, w).
Proof.
  destruct (wk_partitions self) as [a|]; unfold wp, on_queue; simpl.
  - pose proof (lease_sharded_law (wk_id self) a (wk_lease_ttl self) (instant_now (w_env w)) q) as Hl.
    destruct (lease_sharded _ _ _ _ q) as [q' [o|e]]; destruct Hl as [Hq Ho]; simpl.
    + split; [done|]. split; [done|]. intros e ->. by apply Ho.
    + split; [done|]. split; [done|]. by left.
  - pose proof (lease_law (wk_id self) (wk_lease_ttl self) (instant_now (w_env w)) q) as Hl.
    destruct (lease _ _ _ q) as [q' [o|e]]; destruct Hl as [Hq Ho]; simpl.
    + split; [done|]. split; [done|]. intros e ->. by apply Ho.
    + split; [done|]. split; [done|]. by left.
Qed.

Lemma wp_step q w :
  resolver_loaded eng → (∀ name d, wk_resolver self name = Some d → loaded d) → ready_world w →
  wp step (λ r qw, ready_world qw.2 ∧
      match r with
      | None => qw.2 = w ∧ queued qw.1 = queued q
      | Some (e, outcome) => e ∈ queued q ∧ queued qw.1 = queued q ∖ {[e]} ∧ driven qw.2 e outcome
      end)
    (λ s qw, stop_free w q qw.1 s qw.2) (q, w).
Proof.
  intros Hres Hself Hw. unfold step. eapply wp_call; [by apply wp_lease|].
  intros [e|] [q1 w1] (Heq & Hq & He); simpl in Heq; subst w1; [|by apply wp_ret].
  specialize (He e eq_refl). simpl in Hq.
  pose proof Hw as [Hs Hl].
  assert (subtree_free e w) as Hfree by (intros x _; rewrite Hl; set_solver).
  assert (during e (λ _, False) w w) as HI by by apply during_refl.
  set (nothing := λ _ : string, False) in *.
  assert (∀ s w', during e nothing w w' ∧ proper s → stop_free w q q1 s w') as Hstop.
  { intros s w' [Hd Hp]. split; [by eapply during_ready|]. split; [done|]. by left. }
  eapply (wp_call _ _ (λ o qw, qw.1 = q1 ∧ during e nothing w qw.2 ∧ o = snap w e)).
  { apply wp_in_engine. eapply wp_mono; [by apply (wp_latest e nothing w e w HI)| |by auto].
    intros o w1 (? & ? & _). done. }
  intros found [q2 w2] (Hq2 & HI2 & ->). simpl in Hq2, HI2. subst q2.
  apply wp_lift_bind. destruct (snap w e) as [st|] eqn:Hsn; simpl; [|by apply Hstop].
  apply wp_lift_bind. destruct (wk_resolver self (es_workflow_name st)) as [d|] eqn:Hd; simpl;
    [|by apply Hstop].
  pose proof (during_ready _ _ _ _ HI2 Hw) as Hw2.
  eapply (wp_call _ _ (λ r qw, qw.1 = q1 ∧ ready_world qw.2 ∧ driven qw.2 e r.1)).
  { apply wp_in_engine. eapply wp_mono.
    - apply (wp_resume eng Hres e nothing d w2); [by eapply Hself|by intros x|apply HI2| |by intros ? _ x].
      intros x _. rewrite (proj2 Hw2). set_solver.
    - intros r w3 [Hd3 Hr]. split; [done|]. split; [by eapply during_ready|].
      by eapply returned_driven.
    - intros s w3 [Hd3 Hp]. apply Hstop. split; [|done]. by eapply during_trans. }
  intros [outcome st'] [q3 w3] (Hq3 & Hw3 & Hdr). simpl in *. subst q3.
  apply wp_bind. unfold wp at 1, on_queue. simpl.
  pose proof (remove_law e (instant_now (w_env w3)) q1) as Hrm.
  destruct (remove _ _ q1) as [q4 [u|err]]; simpl.
  - destruct Hrm as [Hrm|[Hbad _]]; [|by destruct u].
    apply wp_ret. simpl. rewrite Hrm, Hq. done.
  - split; [done|]. split; [done|]. destruct Hrm as [Hrm|[_ Hrm]].
    + right. exists e, outcome. rewrite Hrm, Hq. done.
    + left. congruence.
Qed.

Lemma wp_run_until_idle_go fuel n q w :
  resolver_loaded eng → (∀ name d, wk_resolver self name = Some d → loaded d) → ready_world w →
  size (queued q) < fuel →
  wp (run_until_idle_go fuel n)
    (λ k qw, ready_world qw.2 ∧ queued qw.1 ⊆ queued q ∧ k + size (queued qw.1) = n + size (queued q))
    (λ s qw, ready_world qw.2 ∧ proper s ∧ queued qw.1 ⊆ queued q) (q, w).
Proof.
  intros Hres Hself. revert n q w. induction fuel as [|fuel IH]; intros n q w Hw Hf; [lia|].
  cbn [run_until_idle_go].
  eapply wp_call; [eapply wp_mono; [by apply wp_step|intros r qw Hr; exact Hr|]|].
  - intros s qw (Hw' & Hp & Hq). split; [done|]. split; [done|].
    destruct Hq as [->|(e & o & _ & -> & _)]; set_solver.
  - intros [[e o]|] [q1 w1] [Hw1 Hr]; simpl in *.
    + destruct Hr as (He & Hq1 & _).
      assert (S (size (queued q1)) = size (queued q)) as Hsz.
      { rewrite Hq1, size_difference by set_solver. rewrite size_singleton.
        assert (size (queued q) ≠ 0) by (intros H0; apply size_empty_inv in H0; set_solver). lia. }
      eapply wp_mono; [apply (IH (S n) q1 w1 Hw1); lia| |].
      * intros k [q2 w2] (? & Hsub & Hk). simpl in *. split; [done|]. split; [set_solver|lia].
      * intros s [q2 w2] (? & ? & Hsub). simpl in *. split; [done|]. split; [done|set_solver].
    + destruct Hr as [_ Hq1]. apply wp_ret. simpl. split; [done|]. split; [set_solver|].
      by rewrite Hq1.
Qed.
End worker.

(** ** Properties *)

(** C31: a worker never loses work and never drives what nobody queued.  One
    [step] over a lawful queue and store, whatever fails on the way, leaves the
    set of queued executions as it was, except for at most one: the leased
    execution, and only after its resume has returned and persisted the
    snapshot that agrees with the outcome.  A step that reports an execution
    has taken it off the queue; a step that reports none has changed nothing in
    the world; and a step that fails before the resume returns leaves the
    execution queued, for another worker to lease. *)
Theorem worker_never_loses_work {St T X Q} `{StoreLaws St, TimerStoreLaws T, WorkQueueLaws Q}
    `{ActivityExecutor X, Clock X, Sleep X, Monotonic X, SerdeJson, DefinitionSerde}
    eng self (q q' : Q) (w w' : World St T X) o :
  resolver_loaded eng → (∀ name d, wk_resolver self name = Some d → loaded d) → ready_world w →
  step eng self (q, w) = ((q', w'), o) →
  ready_world w' ∧
  match o with
  | Ret None => w' = w ∧ queued q' = queued q
  | Ret (Some (e, outcome)) => e ∈ queued q ∧ queued q' = queued q ∖ {[e]} ∧ driven w' e outcome
  | Stop s => proper s ∧
      (queued q' = queued q ∨ ∃ e outcome, e ∈ queued q ∧ queued q' = queued q ∖ {[e]} ∧
         driven w' e outcome)
  end.
Proof.
  intros Hres Hself Hw Hs. pose proof (wp_step eng self q w Hres Hself Hw) as Hwp.
  unfold wp in Hwp. rewrite Hs in Hwp. destruct o as [[[e outcome]|]|s]; simpl in Hwp.
  - by destruct Hwp as [? ?].
  - by destruct Hwp as [? ?].
  - by destruct Hwp as (? & ? & ?).
Qed.

(** [run_until_idle] ends: it runs at most one round per queued execution
    and then reports how many it took off the queue; an error stops it early,
    with the rest still queued. *)
Theorem run_until_idle_terminates {St T X Q} `{StoreLaws St, TimerStoreLaws T, WorkQueueLaws Q}
    `{ActivityExecutor X, Clock X, Sleep X, Monotonic X, SerdeJson, DefinitionSerde}
    eng self (q q' : Q) (w w' : World St T X) o :
  resolver_loaded eng → (∀ name d, wk_resolver self name = Some d → loaded d) → ready_world w →
  run_until_idle eng self (q, w) = ((q', w'), o) →
  o ≠ Stop Exhausted ∧ queued q' ⊆ queued q ∧
  ∀ n, o = Ret n → n + size (queued q') = size (queued q).
Proof.
  intros Hres Hself Hw Hr. unfold run_until_idle in Hr. cbn [fst] in Hr.
  pose proof (wp_run_until_idle_go eng self (S (size (queued q))) 0 q w Hres Hself Hw
    (Nat.lt_succ_diag_r _)) as Hwp.
  unfold wp in Hwp. rewrite Hr in Hwp. destruct o as [n|s]; simpl in Hwp.
  - destruct Hwp as (_ & Hsub & Hn). split; [done|]. split; [done|]. by intros ? [= <-].
  - destruct Hwp as (_ & [_ Hp] & Hsub). split; [congruence|]. by split.
Qed.

(** A queue of two executions; one has a child workflow. *)
#[export] Instance Runtime_monotonic : Monotonic Runtime := rt_now.

Definition submitted : InMemoryWorkQueue.t * SWorld :=
  ((enqueue "e2" 0 (enqueue "e1" 0 InMemoryWorkQueue.new).1).1,
   (start parent "e2" Null (start diamond "e1" Null (fresh 100 handlers_for_all [])).1).1).
Definition scenario_worker : Worker := Worker_new "w1" (λ _, Some diamond).

Lemma start_stored d id input (w : SWorld) :
  ready_world w → ready_world (start d id input w).1.
Proof.
  intros Hw. pose proof (wp_start id w d input w (during_refl _ _ _ (proj1 Hw))) as Hwp.
  unfold wp in Hwp. destruct (start d id input w) as [w' [st|s]];
    destruct Hwp as [Hd _]; by eapply during_ready.
Qed.

Lemma submitted_ready : ready_world submitted.2.
Proof. apply start_stored, start_stored. split; [apply fresh_stored|reflexivity]. Qed.

Lemma worker_never_loses_work_witness :
  match step scenario_engine scenario_worker submitted with
  | ((q', w'), Ret (Some (e, outcome))) => e = "e1" ∧ outcome = RunCompleted ∧
      queued q' = queued submitted.1 ∖ {[e]} ∧ driven w' e outcome
  | _ => False
  end.
Proof.
  destruct (step scenario_engine scenario_worker submitted) as [[q' w'] o] eqn:Hs.
  assert (o = Ret (Some ("e1", RunCompleted))) as ->.
  { apply (f_equal snd) in Hs. simpl in Hs. rewrite <- Hs. by vm_compute. }
  split; [reflexivity|]. split; [reflexivity|].
  destruct submitted as [q w] eqn:Hsub.
  destruct (worker_never_loses_work scenario_engine scenario_worker q q' w w'
    (Ret (Some ("e1", RunCompleted)))) as (_ & _ & Hq & Hd);
    [exact scenario_resolver_loaded| | |exact Hs|split; [exact Hq|exact Hd]].
  - intros name d [= <-]. apply diamond_loaded.
  - pose proof submitted_ready as Hr. by rewrite Hsub in Hr.
Defined.

Lemma run_until_idle_terminates_witness :
  (run_until_idle scenario_engine scenario_worker submitted).2 ≠ Stop Exhausted.
Proof.
  destruct submitted as [q w] eqn:Hsub.
  destruct (run_until_idle scenario_engine scenario_worker (q, w)) as [[q' w'] o] eqn:Hr.
  apply (run_until_idle_terminates scenario_engine scenario_worker q q' w w' o);
    [exact scenario_resolver_loaded| | |exact Hr].
  - intros name d [= <-]. apply diamond_loaded.
  - pose proof submitted_ready as Hw. by rewrite Hsub in Hw.
Defined.
