(* ===== verification/Resilience.v ===== *)
(** * Gateway resilience

    crates/wovyr-provider/src/resilience.rs (and [cosine_similarity] of
    embeddings.rs): backoff and jitter, the circuit breakers in process and over
    a shared key-value store, the exact response cache and the semantic one.
    Every method locks the state it works on for its whole body, so it is a
    function on that state; instants are arguments. *)
From stdpp Require Import base tactics list numbers strings gmap.
From Stdlib Require Import Lia ZArith SpecFloat.
From S2P Require Import Prelude.
From S2P Require Import RustStr.
From S2P Require Import F64.
From S2P Require Import Common.
Local Open Scope Z_scope.

(** ** Retries *)

Record RetryConfig := { max_attempts : Z; base_delay_ms : Z; max_delay_ms : Z }.
Definition RetryConfig_default : RetryConfig :=
  {| max_attempts := 3; base_delay_ms := 200; max_delay_ms := 4000 |}.

Definition exp_cap_ms (c : RetryConfig) (attempt : Z) : Z :=
  let exp := f64_mul (f64_of_Z (base_delay_ms c))
    (f64_powi (f64_of_Z 2) (u32_as_i32 (Z.max (attempt - 1) 0))) in
  f64_to_u64 (f64_min exp (f64_of_Z (max_delay_ms c))).

Definition backoff (c : RetryConfig) (attempt : Z) : Z := exp_cap_ms c attempt.

(** [trait Jitter]: a draw below a bound, from whatever state the source has. *)
Class Jitter (J : Type) := { jitter_ms : Z → J → J * Z }.

Definition backoff_with_jitter `{Jitter J} (c : RetryConfig) (attempt : Z) (j : J) : J * Z :=
  jitter_ms (exp_cap_ms c attempt) j.

Record FixedJitter := { fixed_ms : Z }.
#[export] Instance fixed_jitter : Jitter FixedJitter := {|
  jitter_ms bound_ms j := (j, Z.min bound_ms (fixed_ms j)) |}.

(** [RandomJitter] draws from a generator, a parameter: [gen lo hi]. *)
Record RandomJitter (G : Type) := { gen_range : Z → Z → G → G * Z; rng : G }.
Arguments gen_range {G} _.
Arguments rng {G} _.
#[export] Instance random_jitter G : Jitter (RandomJitter G) := {|
  jitter_ms bound_ms j :=
    if Z.eqb bound_ms 0 then (j, 0) else
    let '(g, n) := gen_range j 0 bound_ms (rng j) in
    ({| gen_range := gen_range j; rng := g |}, n) |}.

(** [parse_retry_after_ms], of the header's text if it has one. *)
Definition parse_retry_after_ms (header : option string) : option Z :=
  s ← header; secs ← parse_u64 (trim s); Some (u64_saturating_mul secs 1000).

(** ** Configuration *)

Inductive CacheMode := Off | Exact | Semantic.
Record CacheConfig := {
  mode : CacheMode; ttl_ms : Z; similarity_threshold : f32; max_entries : nat }.
Definition CacheConfig_default : CacheConfig := {|
  mode := Off; ttl_ms := 3600000;
  similarity_threshold := f32_div (f32_of_Z 95) (f32_of_Z 100);
  max_entries := Z.to_nat 10000 |}.

Record HedgeConfig := { enabled : bool; delay_ms : Z; max_parallel : nat }.
Definition HedgeConfig_default : HedgeConfig :=
  {| enabled := false; delay_ms := 800; max_parallel := 2 |}.

Record CostEvent := {
  ce_provider : string;
  ce_model : string;
  ce_prompt_tokens : Z;
  ce_completion_tokens : Z;
  ce_cost_usd : f64;
  ce_cache : option string;
  ce_estimated_savings_usd : f64 }.

(** ** Circuit breakers *)

Record BreakerConfig := {
  failure_threshold : Z; open_duration_ms : Z; half_open_max_calls : Z }.
Definition BreakerConfig_default : BreakerConfig :=
  {| failure_threshold := 5; open_duration_ms := 15000; half_open_max_calls := 1 |}.

Inductive BreakerStatus := Closed | Open | HalfOpen.
#[export] Instance BreakerStatus_eq_dec : EqDecision BreakerStatus.
Proof. solve_decision. Defined.

(** [trait CircuitBreaker]: the methods, on the state [B] they work on. *)
Class CircuitBreaker (B : Type) := {
  allow : Z → B → B * bool;
  on_success : B → B;
  on_failure : Z → B → B }.

Record LocalCircuitBreaker := {
  cfg : BreakerConfig;
  status : BreakerStatus;
  consecutive_failures : Z;
  open_until_ms : Z;
  half_open_calls : Z }.

Definition LocalCircuitBreaker_new (c : BreakerConfig) : LocalCircuitBreaker := {|
  cfg := c; status := Closed; consecutive_failures := 0; open_until_ms := 0; half_open_calls := 0 |}.

Definition local_allow (now_ms : Z) (s : LocalCircuitBreaker) : LocalCircuitBreaker * bool :=
  match status s with
  | Closed => (s, true)
  | Open =>
    if Z.leb (open_until_ms s) now_ms then
      ({| cfg := cfg s; status := HalfOpen; consecutive_failures := consecutive_failures s;
          open_until_ms := open_until_ms s; half_open_calls := 1 |}, true)
    else (s, false)
  | HalfOpen =>
    if Z.ltb (half_open_calls s) (half_open_max_calls (cfg s)) then
      ({| cfg := cfg s; status := HalfOpen; consecutive_failures := consecutive_failures s;
          open_until_ms := open_until_ms s;
          half_open_calls := u32_wrapping_add (half_open_calls s) 1 |}, true)
    else (s, false)
  end.

Definition local_on_success (s : LocalCircuitBreaker) : LocalCircuitBreaker := {|
  cfg := cfg s; status := Closed; consecutive_failures := 0;
  open_until_ms := open_until_ms s; half_open_calls := 0 |}.

Definition local_on_failure (now_ms : Z) (s : LocalCircuitBreaker) : LocalCircuitBreaker :=
  let failures := u32_wrapping_add (consecutive_failures s) 1 in
  if bool_decide (status s = HalfOpen) || Z.leb (failure_threshold (cfg s)) failures then
    {| cfg := cfg s; status := Open; consecutive_failures := failures;
       open_until_ms := u64_wrapping_add now_ms (open_duration_ms (cfg s)); half_open_calls := 0 |}
  else
    {| cfg := cfg s; status := status s; consecutive_failures := failures;
       open_until_ms := open_until_ms s; half_open_calls := half_open_calls s |}.

#[export] Instance local_circuit_breaker : CircuitBreaker LocalCircuitBreaker := {|
  allow := local_allow; on_success := local_on_success; on_failure := local_on_failure |}.

(** [trait BreakerKv]: the operations of the shared store. *)
Class BreakerKv (K : Type) := {
  incr : string → Z → K → K * result Z;
  get_i64 : string → K → result (option Z);
  set_i64 : string → Z → Z → K → K * result ();
  del : list string → K → K * result () }.

(** Conversions between the widths the counters have. *)
Definition u64_as_i64 (z : Z) : Z := if Z.ltb z (2 ^ 63) then z else z - 2 ^ 64.
Definition i64_as_u64 (z : Z) : Z := z mod 2 ^ 64.
Definition i64_as_u32 (z : Z) : Z := z mod 2 ^ 32.

Record SharedCircuitBreaker (K : Type) := { shared_cfg : BreakerConfig; kv : K; prefix : string }.
Arguments shared_cfg {K} _.
Arguments kv {K} _.
Arguments prefix {K} _.

Section shared.
Context `{BreakerKv K}.

Definition SharedCircuitBreaker_new (c : BreakerConfig) (k : K) (p : string) : SharedCircuitBreaker K :=
  {| shared_cfg := c; kv := k; prefix := p |}.
Definition set_kv (k : K) (s : SharedCircuitBreaker K) : SharedCircuitBreaker K :=
  {| shared_cfg := shared_cfg s; kv := k; prefix := prefix s |}.

Definition k_fails (s : SharedCircuitBreaker K) : string := prefix s +:+ ":fails".
Definition k_open (s : SharedCircuitBreaker K) : string := prefix s +:+ ":open".
Definition k_half (s : SharedCircuitBreaker K) : string := prefix s +:+ ":half".
Definition fails_ttl_ms (s : SharedCircuitBreaker K) : Z :=
  Z.max (u64_saturating_mul (open_duration_ms (shared_cfg s)) 4) 30000.

Definition shared_allow (now_ms : Z) (s : SharedCircuitBreaker K) : SharedCircuitBreaker K * bool :=
  match get_i64 (k_open s) (kv s) with
  | Ok None => (s, true)
  | Ok (Some open_until) =>
    if Z.ltb now_ms (i64_as_u64 open_until) then (s, false)
    else
      match incr (k_half s) (open_duration_ms (shared_cfg s)) (kv s) with
      | (k, Ok n) => (set_kv k s, Z.leb (i64_as_u32 n) (half_open_max_calls (shared_cfg s)))
      | (k, Err _) => (set_kv k s, true)
      end
  | Err _ => (s, true)
  end.

Definition shared_on_success (s : SharedCircuitBreaker K) : SharedCircuitBreaker K :=
  set_kv (del [k_fails s; k_open s; k_half s] (kv s)).1 s.

Definition shared_on_failure (now_ms : Z) (s : SharedCircuitBreaker K) : SharedCircuitBreaker K :=
  match incr (k_fails s) (fails_ttl_ms s) (kv s) with
  | (k, Err _) => set_kv k s
  | (k, Ok n) =>
    let fails := i64_as_u32 n in
    let in_half_open :=
      match get_i64 (k_open s) k with
      | Ok (Some open_until) => Z.leb (i64_as_u64 open_until) now_ms
      | _ => false
      end in
    if in_half_open || Z.leb (failure_threshold (shared_cfg s)) fails then
      let open_until := u64_wrapping_add now_ms (open_duration_ms (shared_cfg s)) in
      let k := (set_i64 (k_open s) (u64_as_i64 open_until) (fails_ttl_ms s) k).1 in
      set_kv (del [k_half s] k).1 s
    else set_kv k s
  end.

#[export] Instance shared_circuit_breaker : CircuitBreaker (SharedCircuitBreaker K) := {|
  allow := shared_allow; on_success := shared_on_success; on_failure := shared_on_failure |}.
End shared.

Module InMemoryKv.
Definition t : Type := gmap string Z.
Definition new : t := ∅.
Definition incr (key : string) (_ttl_ms : Z) (m : t) : t * result Z :=
  let v := default 0 (m !! key) + 1 in (<[key := v]> m, Ok v).
#[global] Instance breaker_kv : BreakerKv t := {|
  Resilience.incr := incr;
  get_i64 key m := Ok (m !! key);
  set_i64 key value _ttl_ms m := (<[key := value]> m, Ok ());
  del keys m := (foldl (λ m k, delete k m) m keys, Ok ()) |}.
End InMemoryKv.

(** ** The exact cache *)

Record CacheEntry (R : Type) := { response : R; created_ms : Z; last_access : Z }.
Arguments response {R} _.
Arguments created_ms {R} _.
Arguments last_access {R} _.

Module ExactCache.
Record t (R : Type) := { entries : gmap string (CacheEntry R); tick : Z; cap : nat }.
Arguments entries {R} _.
Arguments tick {R} _.
Arguments cap {R} _.

Section cache.
Context {R : Type}.

Definition new (max_entries : nat) : t R := {| entries := ∅; tick := 0; cap := max_entries |}.

Definition next_tick (c : t R) : t R * Z :=
  let n := u64_saturating_add (tick c) 1 in
  ({| entries := entries c; tick := n; cap := cap c |}, n).
Definition set_entries (m : gmap string (CacheEntry R)) (c : t R) : t R :=
  {| entries := m; tick := tick c; cap := cap c |}.

Definition expired (now_ms ttl_ms : Z) (e : CacheEntry R) : bool :=
  Z.ltb ttl_ms (u64_saturating_sub now_ms (created_ms e)).

Definition get (key : string) (now_ms ttl_ms : Z) (c : t R) : t R * option R :=
  match entries c !! key with
  | Some e =>
    if expired now_ms ttl_ms e then (set_entries (delete key (entries c)) c, None)
    else
      let '(c, n) := next_tick c in
      let e := {| response := response e; created_ms := created_ms e; last_access := n |} in
      (set_entries (<[key := e]> (entries c)) c, Some (response e))
  | None => (c, None)
  end.

(** [min_by_key] over the map: the first of the smallest in its order (the ticks
    differ, so which order that is does not matter). *)
Definition lru_victim (m : gmap string (CacheEntry R)) : option string :=
  fst <$> foldl (λ best ke,
    match best with
    | Some b => if Z.ltb (last_access ke.2) (last_access b.2) then Some ke else Some b
    | None => Some ke
    end) None (map_to_list m).

Fixpoint evict (fuel : nat) (cap : nat) (m : gmap string (CacheEntry R)) : gmap string (CacheEntry R) :=
  match fuel with
  | O => m
  | S fuel =>
    if Nat.ltb cap (size m) then
      match lru_victim m with
      | Some k => evict fuel cap (delete k m)
      | None => m
      end
    else m
  end.

Definition insert (key : string) (r : R) (now_ms ttl_ms : Z) (c : t R) : t R :=
  if Nat.eqb (cap c) 0 then c else
  let c := set_entries (filter (λ ke, expired now_ms ttl_ms ke.2 = false) (entries c)) c in
  let '(c, n) := next_tick c in
  let m := <[key := {| response := r; created_ms := now_ms; last_access := n |}]> (entries c) in
  set_entries (evict (size m) (cap c) m) c.
End cache.
End ExactCache.

(** ** The semantic cache *)

Fixpoint dot_and_norms (acc : f32 * f32 * f32) (a b : list f32) : f32 * f32 * f32 :=
  match a, b with
  | x :: a, y :: b =>
    let '(dot, norm_a, norm_b) := acc in
    dot_and_norms (f32_add dot (f32_mul x y), f32_add norm_a (f32_mul x x), f32_add norm_b (f32_mul y y)) a b
  | _, _ => acc
  end.

Definition cosine_similarity (a b : list f32) : f32 :=
  if negb (Nat.eqb (length a) (length b)) || Nat.eqb (length a) 0 then f32_zero else
  let '(dot, norm_a, norm_b) := dot_and_norms (f32_zero, f32_zero, f32_zero) a b in
  let denom := f32_mul (f32_sqrt norm_a) (f32_sqrt norm_b) in
  if f32_eqb denom f32_zero then f32_zero else f32_div dot denom.

Record SemanticEntry (R : Type) := {
  embedding : list f32;
  se_param_key : string;
  embedding_model : string;
  se_response : R;
  se_created_ms : Z }.
Arguments embedding {R} _.
Arguments se_param_key {R} _.
Arguments embedding_model {R} _.
Arguments se_response {R} _.
Arguments se_created_ms {R} _.

(** [trait SemanticCacheStore]. *)
Class SemanticCacheStore (R C : Type) := {
  lookup_semantic : string → string → list f32 → f32 → Z → Z → C → C * result (option R);
  store_semantic : string → string → list f32 → R → Z → C → C * result () }.

Module InMemorySemanticCache.
Record t (R : Type) := { entries : list (SemanticEntry R); cap : nat }.
Arguments entries {R} _.
Arguments cap {R} _.

Section cache.
Context {R : Type}.

Definition with_max_entries (max_entries : nat) : t R := {| entries := []; cap := max_entries |}.

(** An entry that may be served to this request at all. *)
Definition compatible (param_key model : string) (ttl_ms now_ms : Z) (e : SemanticEntry R) : bool :=
  String.eqb (se_param_key e) param_key && String.eqb (embedding_model e) model &&
  negb (Z.ltb ttl_ms (u64_saturating_sub now_ms (se_created_ms e))).

Definition better (emb : list f32) (threshold : f32) (best : option (f32 * SemanticEntry R))
    (e : SemanticEntry R) : option (f32 * SemanticEntry R) :=
  let sim := cosine_similarity emb (embedding e) in
  if f32_leb threshold sim && match best with Some b => f32_ltb b.1 sim | None => true end
  then Some (sim, e) else best.

Definition lookup (param_key model : string) (emb : list f32) (threshold : f32) (ttl_ms now_ms : Z)
    (c : t R) : option R :=
  se_response ∘ snd <$>
    foldl (λ best e, if compatible param_key model ttl_ms now_ms e then better emb threshold best e else best)
      None (entries c).

(** The position of the first of the oldest entries. *)
Definition oldest (es : list (SemanticEntry R)) : option nat :=
  fst <$> foldl (λ best ie,
    match best with
    | Some b => if Z.ltb (se_created_ms ie.2) (se_created_ms b.2) then Some ie else Some b
    | None => Some ie
    end) None (imap pair es).

Fixpoint evict (fuel cap : nat) (es : list (SemanticEntry R)) : list (SemanticEntry R) :=
  match fuel with
  | O => es
  | S fuel =>
    if Nat.ltb cap (length es) then
      match oldest es with
      | Some i => evict fuel cap (delete i es)
      | None => es
      end
    else es
  end.

Definition store (param_key model : string) (emb : list f32) (r : R) (now_ms : Z) (c : t R) : t R :=
  if Nat.eqb (cap c) 0 then c else
  let es := entries c ++ [{| embedding := emb; se_param_key := param_key; embedding_model := model;
                             se_response := r; se_created_ms := now_ms |}] in
  {| entries := evict (length es) (cap c) es; cap := cap c |}.

#[global] Instance semantic_cache_store : SemanticCacheStore R (t R) := {|
  lookup_semantic k m e th ttl now c := (c, Ok (lookup k m e th ttl now c));
  store_semantic k m e r now c := (store k m e r now c, Ok ()) |}.
End cache.
End InMemorySemanticCache.
