(* ===== verification/ResilienceInv.v ===== *)
(** * Correctness of the resilience primitives

    The shared breaker over a key-value store behaves as the breaker in process;
    the exact cache is a least-recently-used list with expiry; what the semantic
    cache serves is compatible, fresh and the most similar. *)
From stdpp Require Import base tactics list numbers strings gmap sorting.
From Stdlib Require Import Lia ZArith.
From S2P Require Import Prelude.
From S2P Require Import RustStr.
From S2P Require Import F64.
From S2P Require Import Common.
From S2P Require Import Resilience.
Local Open Scope Z_scope.

(** ** Breakers *)

Inductive breaker_call := Allow (now_ms : Z) | Success | Failure (now_ms : Z).

Fixpoint verdicts `{CircuitBreaker B} (calls : list breaker_call) (b : B) : list bool :=
  match calls with
  | [] => []
  | Allow now :: calls => let '(b, v) := allow now b in v :: verdicts calls b
  | Success :: calls => verdicts calls (on_success b)
  | Failure now :: calls => verdicts calls (on_failure now b)
  end.

(** The calls of a monotonic clock. *)
Fixpoint clocked (t : Z) (calls : list breaker_call) : Prop :=
  match calls with
  | [] => True
  | Success :: calls => clocked t calls
  | Allow now :: calls | Failure now :: calls => t <= now ∧ is_u64 now ∧ clocked now calls
  end.

Lemma i64_u64_roundtrip u : is_u64 u → i64_as_u64 (u64_as_i64 u) = u.
Proof.
  unfold is_u64, u64_modulus, i64_as_u64, u64_as_i64. intros Hu.
  destruct (Z.ltb_spec u (2 ^ 63)); [by apply Z.mod_small|].
  replace (u - 2 ^ 64) with (u + (-1) * 2 ^ 64) by lia. rewrite Z.mod_add by lia. by apply Z.mod_small.
Qed.

Section breakers.
Context (c : BreakerConfig) (p : string).
Context (Hmax : 1 <= half_open_max_calls c < u32_modulus).
Notation Shared := (SharedCircuitBreaker InMemoryKv.t).

Record agree (now n : Z) (l : LocalCircuitBreaker) (s : Shared) : Prop := {
  agree_cfg : cfg l = c ∧ shared_cfg s = c;
  agree_prefix : prefix s = p;
  agree_fails : default 0 (kv s !! k_fails s) = consecutive_failures l;
  agree_room : 0 <= consecutive_failures l ∧ consecutive_failures l + n < u32_modulus;
  agree_status :
    match status l with
    | Closed => kv s !! k_open s = None ∧ kv s !! k_half s = None
    | Open => kv s !! k_open s = Some (u64_as_i64 (open_until_ms l)) ∧ is_u64 (open_until_ms l) ∧
        kv s !! k_half s = None ∧ failure_threshold c <= consecutive_failures l
    | HalfOpen => kv s !! k_open s = Some (u64_as_i64 (open_until_ms l)) ∧ is_u64 (open_until_ms l) ∧
        open_until_ms l <= now ∧ failure_threshold c <= consecutive_failures l ∧
        ∃ h, kv s !! k_half s = Some h ∧ 1 <= h ∧ h + n < u32_modulus ∧
          half_open_calls l = Z.min h (half_open_max_calls c)
    end }.

Lemma breaker_keys (s : Shared) :
  k_fails s ≠ k_open s ∧ k_fails s ≠ k_half s ∧ k_open s ≠ k_half s.
Proof. split_and!; intros H%str_app_inj_l; done. Qed.

Ltac simpl_breaker :=
  unfold InMemoryKv.t in *;
  cbn [kv shared_cfg prefix set_kv cfg status consecutive_failures open_until_ms half_open_calls foldl fst snd];
  repeat match goal with
  | |- context [k_fails (set_kv ?k ?s)] => change (k_fails (set_kv k s)) with (k_fails s)
  | |- context [k_open (set_kv ?k ?s)] => change (k_open (set_kv k s)) with (k_open s)
  | |- context [k_half (set_kv ?k ?s)] => change (k_half (set_kv k s)) with (k_half s)
  end.

Lemma agree_allow now t n l s : 0 <= n → agree t (Z.succ n) l s → t <= now → is_u64 now →
  (local_allow now l).2 = (shared_allow now s).2 ∧
  agree now n (local_allow now l).1 (shared_allow now s).1.
Proof.
  intros Hn [[Hc Hc'] Hp Hf Hr Hs] Ht Hnow. destruct (breaker_keys s) as (K1 & K2 & K3).
  unfold local_allow, shared_allow. cbn [get_i64 InMemoryKv.breaker_kv].
  destruct (status l) eqn:Est.
  - destruct Hs as [Ho Hh]. rewrite Ho. cbn [fst snd]. split; [done|]. split; try done; [lia|]. by rewrite Est.
  - destruct Hs as (Ho & Hu & Hh & Hthr). rewrite Ho, i64_u64_roundtrip by done.
    rewrite Z.ltb_antisym. destruct (Z.leb_spec (open_until_ms l) now) as [Hle|Hgt]; cbn [negb].
    + cbn [incr InMemoryKv.breaker_kv]. unfold InMemoryKv.incr. rewrite Hh, Hc'. cbn [fst snd from_option id].
      change (i64_as_u32 (0 + 1)) with 1.
      split; [symmetry; apply Z.leb_le; lia|]. split; simpl_breaker; try done.
      * by rewrite lookup_insert_ne.
      * lia.
      * rewrite lookup_insert_ne by done. rewrite lookup_insert_eq. split_and!; try done.
        exists 1. split_and!; (done || lia).
    + cbn [fst snd]. split; [done|]. split; try done; [lia|]. by rewrite Est.
  - destruct Hs as (Ho & Hu & Hle & Hthr & h & Hh & Hh1 & Hhn & Hcalls).
    rewrite Ho, i64_u64_roundtrip by done. rewrite (proj2 (Z.ltb_ge now (open_until_ms l))) by lia.
    cbn [incr InMemoryKv.breaker_kv]. unfold InMemoryKv.incr. rewrite Hh, Hc, Hc', Hcalls.
    cbn [from_option id].
    assert (i64_as_u32 (h + 1) = h + 1) as ->.
    { unfold i64_as_u32. apply Z.mod_small. unfold u32_modulus in *. lia. }
    destruct (Z.ltb_spec (Z.min h (half_open_max_calls c)) (half_open_max_calls c)).
    + cbn [fst snd]. split; [symmetry; apply Z.leb_le; lia|]. split; simpl_breaker; try done.
      * by rewrite lookup_insert_ne.
      * lia.
      * rewrite lookup_insert_ne, lookup_insert_eq by done. split_and!; try (done || lia).
        exists (h + 1). split_and!; [done|lia..|].
        rewrite u32_wrapping_add_small by (unfold u32_modulus in *; lia). lia.
    + cbn [fst snd]. split; [symmetry; apply Z.leb_gt; lia|]. split; simpl_breaker; try done.
      * by rewrite lookup_insert_ne.
      * lia.
      * rewrite Est, lookup_insert_ne, lookup_insert_eq by done. split_and!; try (done || lia).
        exists (h + 1). split_and!; [done|lia..].
Qed.

Lemma agree_success t n l s : 0 <= n < u32_modulus → agree t (Z.succ n) l s →
  agree t n (local_on_success l) (shared_on_success s).
Proof.
  intros Hn [[Hc Hc'] Hp Hf Hr Hs]. destruct (breaker_keys s) as (K1 & K2 & K3).
  unfold shared_on_success, local_on_success. cbn [del InMemoryKv.breaker_kv foldl fst]. split; simpl_breaker; try done.
  - rewrite !lookup_delete_ne by done. by rewrite lookup_delete_eq.
  - lia.
  - rewrite lookup_delete_ne, !lookup_delete_eq by done. done.
Qed.

Lemma agree_failure now t n l s : 0 <= n → agree t (Z.succ n) l s → t <= now → is_u64 now →
  agree now n (local_on_failure now l) (shared_on_failure now s).
Proof.
  intros Hn [[Hc Hc'] Hp Hf Hr Hs] Ht Hnow. destruct (breaker_keys s) as (K1 & K2 & K3).
  unfold local_on_failure, shared_on_failure. cbn [incr get_i64 set_i64 del InMemoryKv.breaker_kv].
  unfold InMemoryKv.incr. rewrite Hf, Hc, Hc'.
  rewrite u32_wrapping_add_small by (unfold u32_modulus in *; lia).
  assert (i64_as_u32 (consecutive_failures l + 1) = consecutive_failures l + 1) as ->.
  { unfold i64_as_u32. apply Z.mod_small. unfold u32_modulus in *. lia. }
  unfold InMemoryKv.t in *. rewrite lookup_insert_ne by done.
  set (reopen := Z.leb (failure_threshold c) (consecutive_failures l + 1)).
  assert (∀ h, reopen || h = h || reopen) as Hcomm by (intros h; apply orb_comm).
  assert (match kv s !! k_open s with
          | Some u => Z.leb (i64_as_u64 u) now | None => false end || reopen =
    (bool_decide (status l = HalfOpen) || reopen)) as Hcond.
  { destruct (status l); [destruct Hs as [-> _]; done| |].
    - destruct Hs as (-> & Hu & _ & Hthr). unfold reopen.
      rewrite (proj2 (Z.leb_le (failure_threshold c) _)) by lia. by rewrite !orb_true_r.
    - destruct Hs as (-> & Hu & Hle & _). rewrite i64_u64_roundtrip by done.
      by rewrite (proj2 (Z.leb_le _ _)) by lia. }
  rewrite Hcond. clear Hcomm Hcond.
  destruct (bool_decide (status l = HalfOpen) || reopen) eqn:Eo.
  - split; simpl_breaker; try done.
    + rewrite lookup_delete_ne, lookup_insert_ne by done. by rewrite lookup_insert_eq.
    + lia.
    + rewrite lookup_delete_ne, lookup_insert_eq, lookup_delete_eq by done. split_and!; try done.
      * apply u64_wrapping_add_bounds.
      * unfold reopen in Eo. apply orb_true_iff in Eo as [Eo|Eo].
        -- apply bool_decide_eq_true in Eo. rewrite Eo in Hs. lia.
        -- apply Z.leb_le in Eo. lia.
  - apply orb_false_iff in Eo as [Eh Er]. apply bool_decide_eq_false in Eh. apply Z.leb_gt in Er.
    split; simpl_breaker; try done.
    + by rewrite lookup_insert_eq.
    + lia.
    + rewrite !lookup_insert_ne by done. destruct (status l); [done| |done].
      destruct Hs as (? & ? & ? & ?). split_and!; (done || lia).
Qed.

Lemma agree_verdicts calls t l s :
  agree t (Z.of_nat (length calls)) l s → clocked t calls →
  Z.of_nat (length calls) < u32_modulus → verdicts calls l = verdicts calls s.
Proof.
  revert t l s. induction calls as [|[now| |now] calls IH]; intros t l s Ha Ht Hn; [done|..];
    cbn [length verdicts clocked] in *; rewrite Nat2Z.inj_succ in Ha, Hn.
  - destruct Ht as (Ht & Hnow & Hc). destruct (agree_allow now t _ l s (Nat2Z.is_nonneg _) Ha Ht Hnow) as [Hv Ha'].
    cbn [allow local_circuit_breaker shared_circuit_breaker].
    destruct (local_allow now l) as [l' v], (shared_allow now s) as [s' v']. cbn in Hv, Ha'. subst v'.
    f_equal. apply (IH now); [done|done|lia].
  - apply (IH t); [apply agree_success; [lia|done]|done|lia].
  - destruct Ht as (Ht & Hnow & Hc). apply (IH now); [apply (agree_failure now t); (done || lia)|done|lia].
Qed.
End breakers.

(** The breaker shared through a key-value store is the breaker in process.
    For every configuration that lets at least one trial through, every key
    prefix and every sequence of calls along a monotonic clock, a new shared
    breaker over the in-memory store allows and refuses exactly the requests
    that a new local one does. *)
Theorem shared_breaker_is_local c p calls :
  1 <= half_open_max_calls c < u32_modulus → clocked 0 calls →
  Z.of_nat (length calls) < u32_modulus →
  verdicts calls (SharedCircuitBreaker_new c InMemoryKv.new p) =
    verdicts calls (LocalCircuitBreaker_new c).
Proof.
  intros Hmax Hc Hn. symmetry. apply (agree_verdicts c p Hmax calls 0); [|done..].
  by split; cbn.
Qed.

(** ** The exact cache as a list *)

Section lru.
Context {R : Type}.

(** The abstract cache: entries (key, response, creation time), the most recently
    used first. *)
Definition lru : Type := list (string * (R * Z)).
Definition fresh (now ttl : Z) (x : string * (R * Z)) : bool :=
  Z.leb (u64_saturating_sub now x.2.2) ttl.
Definition others (key : string) (l : lru) : lru := List.filter (λ x, negb (String.eqb key x.1)) l.

Definition lru_get (key : string) (now ttl : Z) (l : lru) : lru * option R :=
  match List.find (λ x, String.eqb key x.1) l with
  | Some x => if fresh now ttl x then (x :: others key l, Some x.2.1) else (others key l, None)
  | None => (l, None)
  end.
Definition lru_insert (cap : nat) (key : string) (r : R) (now ttl : Z) (l : lru) : lru :=
  if Nat.eqb cap 0 then l
  else take cap ((key, (r, now)) :: others key (List.filter (fresh now ttl) l)).

Inductive cache_call := Get (key : string) (now ttl : Z) | Insert (key : string) (r : R) (now ttl : Z).

Fixpoint cache_answers (calls : list cache_call) (c : ExactCache.t R) : list (option R) :=
  match calls with
  | [] => []
  | Get k now ttl :: calls => let '(c, r) := ExactCache.get k now ttl c in r :: cache_answers calls c
  | Insert k r now ttl :: calls => cache_answers calls (ExactCache.insert k r now ttl c)
  end.
Fixpoint lru_answers (cap : nat) (calls : list cache_call) (l : lru) : list (option R) :=
  match calls with
  | [] => []
  | Get k now ttl :: calls => let '(l, r) := lru_get k now ttl l in r :: lru_answers cap calls l
  | Insert k r now ttl :: calls => lru_answers cap calls (lru_insert cap k r now ttl l)
  end.

(** The map holds the list's entries, stamped in decreasing order. *)
Notation stamped := (list (string * CacheEntry R)).
Definition unstamped (x : string * CacheEntry R) : string * (R * Z) :=
  (x.1, (response x.2, created_ms x.2)).
Definition stamps_desc : stamped → Prop := StronglySorted (λ x y, last_access y.2 < last_access x.2).

Record holds_list (c : ExactCache.t R) (s : stamped) : Prop := {
  hl_lookup k e : ExactCache.entries c !! k = Some e ↔ (k, e) ∈ s;
  hl_keys : NoDup s.*1;
  hl_desc : stamps_desc s;
  hl_tick x : x ∈ s → last_access x.2 <= ExactCache.tick c;
  hl_size : size (ExactCache.entries c) = length s }.

Definition without (key : string) (s : stamped) : stamped := List.filter (λ x, negb (String.eqb key x.1)) s.

Lemma map_filter_unstamped (f : string * (R * Z) → bool) (s : stamped) :
  unstamped <$> List.filter (f ∘ unstamped) s = List.filter f (unstamped <$> s).
Proof. induction s as [|x s IH]; [done|]. cbn. destruct (f _); cbn; by rewrite IH. Qed.

Lemma unstamped_without key s : unstamped <$> without key s = others key (unstamped <$> s).
Proof. apply (map_filter_unstamped (λ x, negb (String.eqb key x.1))). Qed.

Lemma find_unstamped key s :
  List.find (λ x, String.eqb key x.1) (unstamped <$> s) =
    unstamped <$> List.find (λ x : string * CacheEntry R, String.eqb key x.1) s.
Proof. induction s as [|x s IH]; [done|]. cbn. by destruct (String.eqb key x.1). Qed.

Lemma find_lookup c s key : holds_list c s →
  List.find (λ x, String.eqb key x.1) s = pair key <$> ExactCache.entries c !! key.
Proof.
  intros Hs. destruct (List.find _ s) as [[k e]|] eqn:Hf.
  - apply find_Some_elem in Hf as [Hin Hk]. cbn in Hk. apply String.eqb_eq in Hk as <-.
    apply (hl_lookup c s Hs) in Hin. by rewrite Hin.
  - destruct (ExactCache.entries c !! key) as [e|] eqn:E; [|done]. exfalso.
    apply (hl_lookup c s Hs) in E. pose proof (find_None_elem _ _ _ Hf E) as H. cbn in H.
    by rewrite String.eqb_refl in H.
Qed.

Lemma without_elem key s k e : (k, e) ∈ without key s ↔ (k, e) ∈ s ∧ k ≠ key.
Proof.
  unfold without. rewrite filter_elem, negb_true_iff. cbn. rewrite String.eqb_neq. naive_solver.
Qed.

Lemma stamps_desc_filter (f : string * CacheEntry R → bool) s : stamps_desc s → stamps_desc (List.filter f s).
Proof.
  unfold stamps_desc. induction 1 as [|x s _ IH Hall]; cbn; [constructor|]. destruct (f x); [|done].
  constructor; [done|]. apply Forall_forall. intros y [Hy _]%filter_elem. rewrite Forall_forall in Hall. auto.
Qed.

(** A list of the entries gives the size of the map. *)
Lemma stamped_size (m : gmap string (CacheEntry R)) s :
  (∀ k e, m !! k = Some e ↔ (k, e) ∈ s) → NoDup s.*1 → size m = length s.
Proof.
  intros Hm Hnd. rewrite <-(length_map_to_list m). apply Permutation_length.
  apply NoDup_Permutation; [apply NoDup_map_to_list|by eapply NoDup_fmap_1|].
  intros [k e]. by rewrite elem_of_map_to_list, Hm.
Qed.

Lemma holds_filter c s (f : string * CacheEntry R → bool) m :
  holds_list c s → (∀ k e, m !! k = Some e ↔ ExactCache.entries c !! k = Some e ∧ f (k, e) = true) →
  holds_list (ExactCache.set_entries m c) (List.filter f s).
Proof.
  intros Hs Hm. assert (∀ k e, m !! k = Some e ↔ (k, e) ∈ List.filter f s) as Hl.
  { intros k e. by rewrite filter_elem, Hm, (hl_lookup c s Hs). }
  assert (NoDup (List.filter f s).*1) as Hnd by (by apply NoDup_fmap_filter, Hs).
  split; cbn; try done.
  - by apply stamps_desc_filter, Hs.
  - intros x [Hx _]%filter_elem. by apply Hs.
  - by apply stamped_size.
Qed.

Lemma holds_without c s key : holds_list c s →
  holds_list (ExactCache.set_entries (delete key (ExactCache.entries c)) c) (without key s).
Proof.
  intros Hs. apply holds_filter; [done|]. intros k e. cbn. rewrite lookup_delete_Some, negb_true_iff, String.eqb_neq.
  naive_solver.
Qed.

Lemma holds_push c s key e n : holds_list c s → key ∉ s.*1 → ExactCache.tick c < n → last_access e = n →
  holds_list {| ExactCache.entries := <[key:=e]> (ExactCache.entries c); ExactCache.tick := n;
                ExactCache.cap := ExactCache.cap c |} ((key, e) :: s).
Proof.
  intros Hs Hk Hn He.
  assert (∀ k e0, <[key:=e]> (ExactCache.entries c) !! k = Some e0 ↔ (k, e0) ∈ (key, e) :: s) as Hl.
  { intros k e0. rewrite lookup_insert_Some, elem_of_cons, (hl_lookup c s Hs). split.
    - intros [[-> ->]|[Hne Hin]]; [by left|by right].
    - intros [[= -> ->]|Hin]; [by left|]. right. split; [|done]. intros ->. apply Hk.
      apply list_elem_of_fmap. by exists (k, e0). }
  assert (NoDup ((key, e) :: s).*1) as Hnd by (cbn; constructor; [done|apply Hs]).
  split; cbn; try done.
  - constructor; [apply Hs|]. apply Forall_forall. intros x Hx. cbn. pose proof (hl_tick c s Hs x Hx). lia.
  - intros x [->|Hx]%elem_of_cons; [cbn; lia|]. pose proof (hl_tick c s Hs x Hx). lia.
  - exact (stamped_size _ ((key, e) :: s) Hl Hnd).
Qed.

Lemma victim_spec (l : stamped) :
  match foldl (λ best ke, match best with
                          | Some b => if Z.ltb (last_access ke.2) (last_access b.2) then Some ke else Some b
                          | None => Some ke
                          end) None l with
  | None => l = []
  | Some b => b ∈ l ∧ ∀ x, x ∈ l → last_access b.2 <= last_access x.2
  end.
Proof.
  induction l as [|x l IH] using rev_ind; [done|]. rewrite foldl_app. cbn [foldl].
  destruct (foldl _ None l) as [b|].
  - destruct IH as [Hb Hmin]. destruct (Z.ltb_spec (last_access x.2) (last_access b.2)).
    + split; [set_solver|]. intros y [Hy| ->%list_elem_of_singleton]%elem_of_app; [|lia].
      specialize (Hmin y Hy). lia.
    + split; [set_solver|]. intros y [Hy| ->%list_elem_of_singleton]%elem_of_app; [by apply Hmin|lia].
  - subst l. split; [set_solver|]. intros y ->%list_elem_of_singleton. lia.
Qed.

Lemma lru_victim_last c s x : holds_list c (s ++ [x]) → ExactCache.lru_victim (ExactCache.entries c) = Some x.1.
Proof.
  intros Hs. unfold ExactCache.lru_victim. pose proof (victim_spec (map_to_list (ExactCache.entries c))) as H.
  assert (x ∈ s ++ [x]) as Hx by set_solver.
  assert (x ∈ map_to_list (ExactCache.entries c)) as Hx'.
  { destruct x as [k e]. by apply elem_of_map_to_list, (hl_lookup c _ Hs). }
  destruct (foldl _ None _) as [[k e]|]; [|rewrite H in Hx'; by apply not_elem_of_nil in Hx'].
  destruct H as [Hin Hmin]. specialize (Hmin x Hx'). cbn in Hmin.
  apply elem_of_map_to_list, (hl_lookup c _ Hs), elem_of_app in Hin as [Hin|Hin].
  - pose proof (hl_desc c _ Hs) as Hd. apply StronglySorted_app_1_elem_of with (x1 := (k, e)) (x2 := x) in Hd;
      [cbn in Hd; lia|done|by left].
  - apply list_elem_of_singleton in Hin as <-. done.
Qed.

Lemma without_last (s : stamped) x : NoDup (s ++ [x]).*1 → without x.1 (s ++ [x]) = s.
Proof.
  rewrite fmap_app. intros (_ & Hno & _)%NoDup_app. unfold without. rewrite List.filter_app. cbn.
  rewrite String.eqb_refl. cbn. rewrite app_nil_r.
  assert (∀ y, y ∈ s → y.1 ≠ x.1) as H.
  { intros y Hy E. apply (Hno y.1); [by apply list_elem_of_fmap_2|]. rewrite E. by left. }
  clear Hno. induction s as [|y s IH]; [done|]. cbn.
  rewrite (proj2 (String.eqb_neq x.1 y.1)) by (intros E; apply (H y); [by left|done]). cbn.
  f_equal. apply IH. set_solver.
Qed.

Lemma holds_evict fuel c s : holds_list c s → (length s <= fuel)%nat → (0 < ExactCache.cap c)%nat →
  holds_list (ExactCache.set_entries (ExactCache.evict fuel (ExactCache.cap c) (ExactCache.entries c)) c)
    (take (ExactCache.cap c) s).
Proof.
  revert c s. induction fuel as [|fuel IH]; intros c s Hs Hf Hc.
  { destruct s; [|cbn in Hf; lia]. rewrite take_nil. by destruct c. }
  cbn [ExactCache.evict]. rewrite (hl_size c s Hs).
  destruct (Nat.ltb_spec (ExactCache.cap c) (length s)) as [Hlt|Hge].
  - destruct s as [|x s _] using rev_ind; [cbn in Hlt; lia|]. rewrite (lru_victim_last c s x Hs).
    pose proof (holds_without c _ x.1 Hs) as Hw. rewrite (without_last s x (hl_keys c _ Hs)) in Hw.
    rewrite length_app in Hlt, Hf. cbn in Hlt, Hf.
    specialize (IH _ _ Hw ltac:(lia) Hc). cbn in IH. rewrite take_app_le by lia. exact IH.
  - rewrite take_ge by done. by destruct c.
Qed.

Lemma holds_new cap : holds_list (ExactCache.new cap) [].
Proof.
  split; cbn; try done; [|constructor|constructor|].
  - intros k e. rewrite lookup_empty. split; [done|by intros ?%not_elem_of_nil].
  - by intros x ?%not_elem_of_nil.
Qed.

(** ** Each call on the list *)

Lemma fresh_unstamped now ttl (x : string * CacheEntry R) :
  fresh now ttl (unstamped x) = negb (ExactCache.expired now ttl x.2).
Proof. unfold fresh, ExactCache.expired. cbn. by rewrite Z.ltb_antisym, negb_involutive. Qed.

Lemma next_tick_small (c : ExactCache.t R) : 0 <= ExactCache.tick c < u64_max →
  ExactCache.next_tick c =
    ({| ExactCache.entries := ExactCache.entries c; ExactCache.tick := ExactCache.tick c + 1;
        ExactCache.cap := ExactCache.cap c |}, ExactCache.tick c + 1).
Proof.
  intros Ht. unfold ExactCache.next_tick. rewrite u64_saturating_add_small; [done|].
  unfold u64_max, u64_modulus in *. lia.
Qed.

Lemma not_in_without key (s : stamped) : key ∉ (without key s).*1.
Proof.
  intros ([k e] & -> & Hin)%list_elem_of_fmap. cbn in Hin. by apply without_elem in Hin as [_ ?].
Qed.

Lemma get_lru c s key now ttl : holds_list c s → 0 <= ExactCache.tick c < u64_max →
  (length s <= ExactCache.cap c)%nat →
  let '(c', r) := ExactCache.get key now ttl c in
  ∃ s', holds_list c' s' ∧ (length s' <= ExactCache.cap c')%nat ∧ ExactCache.cap c' = ExactCache.cap c ∧
    ExactCache.tick c <= ExactCache.tick c' <= ExactCache.tick c + 1 ∧
    lru_get key now ttl (unstamped <$> s) = (unstamped <$> s', r).
Proof.
  intros Hs Ht Hcap. unfold ExactCache.get, lru_get. rewrite find_unstamped, (find_lookup c s key Hs).
  destruct (ExactCache.entries c !! key) as [e|] eqn:He; cbn [fmap option_fmap option_map].
  2: { exists s. split_and!; (done || lia). }
  rewrite fresh_unstamped. cbn [snd].
  assert (length (without key s) < length s)%nat as Hlen.
  { pose proof (holds_without c s key Hs) as Hw. rewrite <-(hl_size _ _ Hw), <-(hl_size _ _ Hs). cbn.
    rewrite map_size_delete_Some by (by eexists). rewrite (hl_size _ _ Hs).
    apply (hl_lookup c s Hs) in He. destruct s; [by apply not_elem_of_nil in He|cbn; lia]. }
  destruct (ExactCache.expired now ttl e); cbn [negb].
  - exists (without key s). split_and!; [by apply holds_without|cbn; lia|done|cbn; lia..|].
    by rewrite unstamped_without.
  - rewrite next_tick_small by done. cbn.
    exists ((key, {| response := response e; created_ms := created_ms e;
                     last_access := ExactCache.tick c + 1 |}) :: without key s).
    split_and!; [|cbn; lia|done|lia..|by rewrite <-unstamped_without].
    pose proof (holds_push _ _ key {| response := response e; created_ms := created_ms e;
      last_access := ExactCache.tick c + 1 |} (ExactCache.tick c + 1) (holds_without c s key Hs)
      (not_in_without key s) ltac:(cbn; lia) eq_refl) as Hp.
    cbn in Hp. by rewrite insert_delete_eq in Hp.
Qed.

Lemma insert_lru c s key r now ttl : holds_list c s → 0 <= ExactCache.tick c < u64_max →
  (length s <= ExactCache.cap c)%nat →
  let c' := ExactCache.insert key r now ttl c in
  ∃ s', holds_list c' s' ∧ (length s' <= ExactCache.cap c')%nat ∧ ExactCache.cap c' = ExactCache.cap c ∧
    ExactCache.tick c <= ExactCache.tick c' <= ExactCache.tick c + 1 ∧
    lru_insert (ExactCache.cap c) key r now ttl (unstamped <$> s) = unstamped <$> s'.
Proof.
  intros Hs Ht Hcap. cbv zeta. unfold ExactCache.insert, lru_insert.
  destruct (Nat.eqb_spec (ExactCache.cap c) 0) as [H0|H0].
  { exists s. split_and!; (done || lia). }
  set (live := λ x : string * CacheEntry R, negb (ExactCache.expired now ttl x.2)).
  assert (holds_list (ExactCache.set_entries
    (filter (λ ke, ExactCache.expired now ttl ke.2 = false) (ExactCache.entries c)) c) (List.filter live s)) as Hlive.
  { apply holds_filter; [done|]. intros k e. unfold live. by rewrite map_lookup_filter_Some, negb_true_iff. }
  rewrite next_tick_small by done. cbn [ExactCache.entries ExactCache.tick ExactCache.cap ExactCache.set_entries].
  set (e := {| response := r; created_ms := now; last_access := ExactCache.tick c + 1 |}).
  pose proof (holds_push _ _ key e (ExactCache.tick c + 1) (holds_without _ _ key Hlive)
    (not_in_without key _) ltac:(cbn; lia) eq_refl) as Hp.
  cbn [ExactCache.entries ExactCache.tick ExactCache.cap ExactCache.set_entries] in Hp.
  rewrite insert_delete_eq in Hp.
  pose proof (hl_size _ _ Hp) as Hsz. cbn [ExactCache.entries] in Hsz. rewrite Hsz.
  pose proof (holds_evict _ _ _ Hp (Nat.le_refl _) ltac:(cbn; lia)) as He. cbn [ExactCache.cap ExactCache.entries] in He.
  eexists. split; [exact He|]. split_and!; [rewrite length_take; cbn; lia|done|cbn; lia..|].
  rewrite fmap_take. f_equal. cbn [fmap list_fmap]. f_equal. rewrite unstamped_without. f_equal.
  rewrite <-map_filter_unstamped. f_equal. clear. induction s as [|x s IH]; [done|]. cbn.
  unfold live at 1. rewrite fresh_unstamped. by destruct (negb _); rewrite IH.
Qed.
End lru.

(** The exact cache is a bounded least-recently-used list with expiry.  For
    every capacity and every sequence of lookups and insertions (fewer than
    2^64), at any instants and with any lifetimes, the cache answers as the list
    that moves what is used to its front, forgets what has expired and keeps the
    [cap] most recently used. *)
Theorem exact_cache_is_lru {R} cap (calls : list (cache_call (R := R))) :
  Z.of_nat (length calls) < u64_max →
  cache_answers calls (ExactCache.new cap) = lru_answers cap calls [].
Proof.
  intros Hn. assert (∃ c s, c = ExactCache.new (R := R) cap ∧ holds_list c s ∧ [] = unstamped <$> s ∧
    (length s <= ExactCache.cap c)%nat ∧ ExactCache.cap c = cap ∧
    0 <= ExactCache.tick c ∧ ExactCache.tick c + Z.of_nat (length calls) < u64_max) as
    (c & s & <- & Hs & -> & Hl & Hc & Ht0 & Ht).
  { exists (ExactCache.new cap), []. split_and!; try (done || (cbn; lia)). apply holds_new. }
  clear Hn. revert c s Hs Hl Hc Ht0 Ht. induction calls as [|[k now ttl|k r now ttl] calls IH];
    intros c s Hs Hl Hc Ht0 Ht; [done|..]; cbn [length cache_answers lru_answers] in *; rewrite Nat2Z.inj_succ in Ht.
  - pose proof (get_lru c s k now ttl Hs ltac:(lia) Hl) as Hg.
    destruct (ExactCache.get k now ttl c) as [c' r]. destruct Hg as (s' & Hs' & Hl' & Hc' & Ht' & ->).
    f_equal. apply IH; (done || congruence || lia).
  - pose proof (insert_lru c s k r now ttl Hs ltac:(lia) Hl) as (s' & Hs' & Hl' & Hc' & Ht' & He).
    rewrite Hc in He. rewrite He. apply IH; (done || congruence || lia).
Qed.

(** ** The semantic cache *)

Section semantic.
Context {R : Type}.
Implicit Types (e : SemanticEntry R) (es : list (SemanticEntry R)).
Import InMemorySemanticCache.

(** An entry that may be served: compatible and similar enough. *)
Definition servable (key model : string) (emb : list f32) (threshold : f32) (ttl now : Z) e : bool :=
  compatible key model ttl now e && f32_leb threshold (cosine_similarity emb (embedding e)).

Lemma best_servable key model emb threshold ttl now es :
  match foldl (λ best e, if compatible key model ttl now e then better emb threshold best e else best) None es with
  | Some b => b.2 ∈ es ∧ servable key model emb threshold ttl now b.2 = true
  | None => ∀ e, e ∈ es → servable key model emb threshold ttl now e = false
  end.
Proof.
  induction es as [|e es IH] using rev_ind; [by intros e ?%not_elem_of_nil|].
  rewrite foldl_app. cbn [foldl].
  destruct (foldl _ None es) as [b|].
  - destruct IH as [Hb Hs]. destruct (compatible key model ttl now e) eqn:Hc; [|set_solver].
    unfold better. destruct (f32_leb threshold _) eqn:Hle; [|set_solver].
    destruct (f32_ltb b.1 _); cbn; [|set_solver]. split; [set_solver|]. unfold servable. by rewrite Hc, Hle.
  - destruct (compatible key model ttl now e) eqn:Hc.
    + unfold better. destruct (f32_leb threshold _) eqn:Hle; cbn.
      * split; [set_solver|]. unfold servable. by rewrite Hc, Hle.
      * intros x [Hx| ->%list_elem_of_singleton]%elem_of_app; [by apply IH|]. unfold servable. by rewrite Hc, Hle.
    + intros x [Hx| ->%list_elem_of_singleton]%elem_of_app; [by apply IH|]. unfold servable. by rewrite Hc.
Qed.

(** A lookup serves a stored response that was stored for the same parameters
    and embedding model, has not expired and is similar enough; it misses only
    if there is none. *)
Lemma lookup_servable key model emb threshold ttl now (c : t R) :
  match lookup key model emb threshold ttl now c with
  | Some r => ∃ e, e ∈ entries c ∧ se_response e = r ∧ servable key model emb threshold ttl now e = true
  | None => ∀ e, e ∈ entries c → servable key model emb threshold ttl now e = false
  end.
Proof.
  unfold lookup. pose proof (best_servable key model emb threshold ttl now (entries c)) as H.
  destruct (foldl _ None _) as [[sim e]|]; cbn; [|done]. destruct H as [He Hs]. by exists e.
Qed.

Lemma oldest_lt es i : oldest es = Some i → (i < length es)%nat.
Proof.
  unfold oldest. intros (x & Hf & ->)%fmap_Some.
  assert (x ∈ imap pair es) as Hx.
  { revert x Hf. generalize (imap pair es). intros l. induction l as [|y l IH] using rev_ind; [done|].
    intros x. rewrite foldl_app. cbn. destruct (foldl _ None l) as [b|].
    - destruct (Z.ltb _ _); intros [= <-]; [set_solver|]. apply elem_of_app. left. by apply IH.
    - intros [= <-]. set_solver. }
  apply list_elem_of_lookup in Hx as [k Hk]. rewrite list_lookup_imap in Hk.
  apply fmap_Some in Hk as (e & He & ->). cbn. by apply lookup_lt_Some in He.
Qed.

Lemma oldest_some es : es ≠ [] → is_Some (oldest es).
Proof.
  unfold oldest. intros He. rewrite fmap_is_Some. destruct es as [|e es]; [done|]. cbn.
  generalize (0%nat, e) as b. clear He. generalize (imap (pair ∘ S) es). intros l.
  induction l as [|y l IH]; intros b; cbn; [by eexists|].
  destruct (Z.ltb _ _); apply IH.
Qed.

Lemma evict_length fuel cap es : (length es <= fuel)%nat → (length (evict fuel cap es) <= cap)%nat.
Proof.
  revert es. induction fuel as [|fuel IH]; intros es Hf; cbn [evict]; [lia|].
  destruct (Nat.ltb_spec cap (length es)); [|done].
  destruct (oldest_some es) as [i Hi]; [intros ->; cbn in *; lia|]. rewrite Hi. apply IH.
  pose proof (oldest_lt es i Hi). rewrite length_delete by (by apply lookup_lt_is_Some_2). lia.
Qed.

(** The store never holds more than its bound. *)
Lemma store_bounded key model emb r now (c : t R) : (length (entries c) <= cap c)%nat →
  (length (entries (store key model emb r now c)) <= cap c)%nat.
Proof.
  intros Hc. unfold store. destruct (Nat.eqb (cap c) 0); [done|]. by apply evict_length.
Qed.
End semantic.

(** ** Backoff *)

(** No delay is longer than the configured one, jitter included. *)
Lemma backoff_capped c attempt : 0 <= max_delay_ms c <= 2 ^ 53 →
  is_u64 (backoff c attempt) ∧ backoff c attempt <= max_delay_ms c.
Proof.
  intros Hc. unfold backoff, exp_cap_ms. split; [apply f64_to_u64_bounds|].
  apply f64_min_le_normal; [apply f64_mul_fits|done].
Qed.

(** ** Witnesses *)

Lemma shared_breaker_is_local_witness :
  verdicts [Failure 1; Failure 2; Allow 3; Allow 20000; Allow 20001; Success; Allow 20002]
    (SharedCircuitBreaker_new {| failure_threshold := 2; open_duration_ms := 15000; half_open_max_calls := 1 |}
       InMemoryKv.new "wovyr:breaker:openai") = [false; true; false; true].
Proof.
  rewrite (shared_breaker_is_local
    {| failure_threshold := 2; open_duration_ms := 15000; half_open_max_calls := 1 |} "wovyr:breaker:openai");
    [reflexivity|split; vm_compute; congruence|vm_compute; repeat split; congruence|reflexivity].
Defined.

Lemma exact_cache_is_lru_witness :
  cache_answers [Insert "a" 1 0 10; Insert "b" 2 1 10; Get "a" 2 10; Insert "c" 3 3 10; Get "b" 4 10;
    Get "a" 5 10; Get "a" 12 10] (ExactCache.new 2) = [Some 1; None; Some 1; None].
Proof.
  rewrite exact_cache_is_lru; [reflexivity|reflexivity].
Defined.
