(* ===== verification/Chat.v ===== *)
(** * Chat requests and responses

    The vendor-neutral types of crates/wovyr-provider (types.rs, provider.rs,
    embeddings.rs) and the token accounting of crates/wovyr-common/src/usage.rs,
    with their constructors and the [AIProvider] port. *)
From stdpp Require Import base tactics list numbers strings.
From Stdlib Require Import ZArith.
From S2P Require Import Prelude.
From S2P Require Import RustStr.
From S2P Require Import F64.
From S2P Require Import Common.
From S2P Require Import JsonValue.
Local Open Scope Z_scope.

(** ** Usage *)

Record Usage := {
  prompt_tokens : Z; completion_tokens : Z; total_tokens : Z; cost_usd : f64 }.
Definition Usage_default : Usage :=
  {| prompt_tokens := 0; completion_tokens := 0; total_tokens := 0; cost_usd := f64_zero |}.
Definition Usage_new (p c : Z) (cost : f64) : Usage := {|
  prompt_tokens := p; completion_tokens := c; total_tokens := u32_wrapping_add p c; cost_usd := cost |}.
Definition Usage_add (u other : Usage) : Usage := {|
  prompt_tokens := u32_wrapping_add (prompt_tokens u) (prompt_tokens other);
  completion_tokens := u32_wrapping_add (completion_tokens u) (completion_tokens other);
  total_tokens := u32_wrapping_add (total_tokens u) (total_tokens other);
  cost_usd := f64_add (cost_usd u) (cost_usd other) |}.

(** ** Messages *)

Inductive Role := RSystem | RUser | RAssistant | RTool.
#[export] Instance Role_eq_dec : EqDecision Role.
Proof. solve_decision. Defined.

Inductive ContentPart :=
  | TextPart (text : string)
  | ImageUrl (url : string)
  | Image (media_type data : string)
  | Audio (media_type data : string).
Definition image_base64 (media_type data : string) : ContentPart := Image media_type data.

Record ToolCall := { tc_id : string; tc_name : string; tc_arguments : string }.

Record Message := {
  role : Role;
  content : option string;
  parts : list ContentPart;
  tool_calls : list ToolCall;
  tool_call_id : option string;
  m_name : option string }.

Definition text (r : Role) (c : string) : Message := {|
  role := r; content := Some c; parts := []; tool_calls := []; tool_call_id := None; m_name := None |}.
Definition system : string → Message := text RSystem.
Definition user : string → Message := text RUser.
Definition assistant : string → Message := text RAssistant.
Definition tool_result (id name c : string) : Message := {|
  role := RTool; content := Some c; parts := []; tool_calls := []; tool_call_id := Some id;
  m_name := Some name |}.
Definition user_with_parts (ps : list ContentPart) : Message := {|
  role := RUser; content := None; parts := ps; tool_calls := []; tool_call_id := None; m_name := None |}.
Definition with_part (p : ContentPart) (m : Message) : Message := {|
  role := role m; content := content m; parts := parts m ++ [p]; tool_calls := tool_calls m;
  tool_call_id := tool_call_id m; m_name := m_name m |}.

(** ** Requests and responses *)

Record ToolSpec := {
  ts_name : string; ts_description : string; ts_parameters : Value; ts_strict : bool }.
Inductive ToolChoice := ChoiceAuto | ChoiceNone | ChoiceRequired | ChoiceTool (name : string).
Inductive ResponseFormat := JsonObject | JsonSchema (name : string) (schema : Value).

Record ChatRequest := {
  model : string;
  messages : list Message;
  temperature : option f32;
  max_tokens : option Z;
  tools : list ToolSpec;
  tool_choice : option ToolChoice;
  response_format : option ResponseFormat }.
Definition ChatRequest_new (m : string) (ms : list Message) : ChatRequest := {|
  model := m; messages := ms; temperature := None; max_tokens := None; tools := [];
  tool_choice := None; response_format := None |}.

Record ChatResponse := {
  message : Message; served_model : string; usage : Usage; finish_reason : string }.

Record EmbeddingRequest := { er_model : string; er_input : list string }.
Record EmbeddingResponse := {
  em_model : string; em_vectors : list (list f32); em_usage : Usage }.

Inductive ChatStreamEvent :=
  | Delta (text : string)
  | ToolCallDelta (index : nat) (id name arguments : string)
  | ReasoningDelta (text : string)
  | Done (response : ChatResponse).

(** ** The provider port *)

(** [trait AIProvider], on the state [P] of a provider (its connection and
    whatever it talks to). *)
Class AIProvider (P : Type) := {
  name : P → string;
  chat : ChatRequest → P → P * result ChatResponse;
  chat_stream : ChatRequest → P → P * result (list (result ChatStreamEvent));
  supports_embeddings : P → bool;
  embed : EmbeddingRequest → P → P * result EmbeddingResponse }.

(** The trait's default [chat_stream] and [embed]. *)
Definition whole_reply_stream (r : ChatResponse) : list (result ChatStreamEvent) :=
  match content (message r) with
  | Some c => if is_empty c then [Ok (Done r)] else [Ok (Delta c); Ok (Done r)]
  | None => [Ok (Done r)]
  end.
Definition embed_unsupported (provider_name : string) : result EmbeddingResponse :=
  Err (provider ("provider `" +:+ (provider_name +:+ "` does not support embeddings"))).
