(* ===== verification/Gateway.v ===== *)
(** * The LLM gateway

    crates/wovyr-provider/src/gateway.rs: model resolution, and the dispatch of
    a chat request over a list of providers with caching, retry, failover,
    circuit breaking and hedging.  The gateway's interior state is the world of
    a monad; [w_sent] records the requests in the order they leave. *)
From stdpp Require Import base tactics list numbers strings gmap.
From Stdlib Require Import Lia ZArith Ascii.
From S2P Require Import Prelude.
From S2P Require Import RustStr.
From S2P Require Import F64.
From S2P Require Import Common.
From S2P Require Import Effect.
From S2P Require Import JsonValue.
From S2P Require Import Resilience.
From S2P Require Import Chat.
Local Open Scope Z_scope.

Record ModelSelector := { capability : string; class : string }.
Definition ModelSelector_default : ModelSelector := {| capability := "chat"; class := "fast" |}.

(** The texts that derived code and serde_json write: parameters. *)
Class ChatText := {
  messages_json : list Message → string + string;
  tools_json : list ToolSpec → string + string;
  debug_temperature : option f32 → string;
  debug_tool_choice : option ToolChoice → string;
  debug_response_format : option ResponseFormat → string }.

(** The monotonic clock the gateway reads and sleeps on. *)
Class Monotonic (E : Type) := {
  elapsed_ms : E → E * Z;
  sleep_ms : Z → E → E }.

(** What the gateway relies on: a clock never goes back. *)
Class MonotonicLaws (E : Type) `{Monotonic E} := {
  reads : E → Z;
  elapsed_law e : (elapsed_ms e).2 = reads e;
  elapsed_mono e : reads e <= reads (elapsed_ms e).1;
  sleep_mono d e : reads e <= reads (sleep_ms d e) }.

Record Gateway := {
  retry : RetryConfig;
  max_failovers : Z;
  cache_cfg : CacheConfig;
  embedding_model : option string;
  hedge_cfg : HedgeConfig;
  has_observer : bool }.

Definition Gateway_default : Gateway := {|
  retry := RetryConfig_default; max_failovers := 2; cache_cfg := CacheConfig_default;
  embedding_model := None; hedge_cfg := HedgeConfig_default; has_observer := false |}.

Record World (P B C J E : Type) := {
  w_providers : list P;
  w_embedder : option P;
  w_breakers : list B;
  w_cache : ExactCache.t ChatResponse;
  w_semantic : C;
  w_costs : list CostEvent;
  w_jitter : J;
  w_clock : E;
  w_sent : list nat }.
Arguments w_providers {P B C J E} _.
Arguments w_embedder {P B C J E} _.
Arguments w_breakers {P B C J E} _.
Arguments w_cache {P B C J E} _.
Arguments w_semantic {P B C J E} _.
Arguments w_costs {P B C J E} _.
Arguments w_jitter {P B C J E} _.
Arguments w_clock {P B C J E} _.
Arguments w_sent {P B C J E} _.

(** ** Keys and classifications *)

Definition is_transient (e : Error) : bool := match e with Provider _ _ => true | _ => false end.
Definition retry_after (e : Error) : option Z := match e with Provider _ r => r | _ => None end.

Definition no_healthy_providers : Error := provider "no healthy providers available".

Definition zero_cost (r : ChatResponse) : ChatResponse := {|
  message := message r; served_model := served_model r;
  usage := {| prompt_tokens := prompt_tokens (usage r); completion_tokens := completion_tokens (usage r);
              total_tokens := total_tokens (usage r); cost_usd := f64_zero |};
  finish_reason := finish_reason r |}.

Definition contents_of (r : Role) (ms : list Message) : string :=
  join_with (String "010"%char "") (omap content (List.filter (λ m, bool_decide (role m = r)) ms)).
Definition canonical_request (req : ChatRequest) : string := contents_of RUser (messages req).

Definition or_default (r : string + string) : string := match r with inr s => s | inl _ => "" end.
Definition debug_max_tokens (n : option Z) : string :=
  match n with Some n => "Some(" +:+ (show_Z n +:+ ")") | None => "None" end.

Section keys.
Context `{ChatText}.

Definition param_key (req : ChatRequest) : string :=
  join_with "|" [model req; debug_temperature (temperature req); debug_tool_choice (tool_choice req);
    debug_response_format (response_format req); "sys:" +:+ contents_of RSystem (messages req);
    "tools:" +:+ or_default (tools_json (tools req))].

Definition cache_key (req : ChatRequest) : string :=
  join_with "|" [model req; debug_temperature (temperature req); debug_max_tokens (max_tokens req);
    debug_tool_choice (tool_choice req); debug_response_format (response_format req);
    or_default (messages_json (messages req)); or_default (tools_json (tools req))].
End keys.

(** ** The gateway's calls *)

Section gateway.
Context `{AIProvider P, CircuitBreaker B, SemanticCacheStore ChatResponse C, Jitter J, Monotonic E, ChatText}.
Context (gw : Gateway).
Notation W := (World P B C J E).

Definition set_providers (x : list P) (w : W) : W := {|
  w_providers := x; w_embedder := w_embedder w; w_breakers := w_breakers w; w_cache := w_cache w;
  w_semantic := w_semantic w; w_costs := w_costs w; w_jitter := w_jitter w; w_clock := w_clock w; w_sent := w_sent w |}.
Definition set_embedder (x : option P) (w : W) : W := {|
  w_providers := w_providers w; w_embedder := x; w_breakers := w_breakers w; w_cache := w_cache w;
  w_semantic := w_semantic w; w_costs := w_costs w; w_jitter := w_jitter w; w_clock := w_clock w; w_sent := w_sent w |}.
Definition set_breakers (x : list B) (w : W) : W := {|
  w_providers := w_providers w; w_embedder := w_embedder w; w_breakers := x; w_cache := w_cache w;
  w_semantic := w_semantic w; w_costs := w_costs w; w_jitter := w_jitter w; w_clock := w_clock w; w_sent := w_sent w |}.
Definition set_cache (x : ExactCache.t ChatResponse) (w : W) : W := {|
  w_providers := w_providers w; w_embedder := w_embedder w; w_breakers := w_breakers w; w_cache := x;
  w_semantic := w_semantic w; w_costs := w_costs w; w_jitter := w_jitter w; w_clock := w_clock w; w_sent := w_sent w |}.
Definition set_semantic (x : C) (w : W) : W := {|
  w_providers := w_providers w; w_embedder := w_embedder w; w_breakers := w_breakers w; w_cache := w_cache w;
  w_semantic := x; w_costs := w_costs w; w_jitter := w_jitter w; w_clock := w_clock w; w_sent := w_sent w |}.
Definition set_costs (x : list CostEvent) (w : W) : W := {|
  w_providers := w_providers w; w_embedder := w_embedder w; w_breakers := w_breakers w; w_cache := w_cache w;
  w_semantic := w_semantic w; w_costs := x; w_jitter := w_jitter w; w_clock := w_clock w; w_sent := w_sent w |}.
Definition set_jitter (x : J) (w : W) : W := {|
  w_providers := w_providers w; w_embedder := w_embedder w; w_breakers := w_breakers w; w_cache := w_cache w;
  w_semantic := w_semantic w; w_costs := w_costs w; w_jitter := x; w_clock := w_clock w; w_sent := w_sent w |}.
Definition set_clock (x : E) (w : W) : W := {|
  w_providers := w_providers w; w_embedder := w_embedder w; w_breakers := w_breakers w; w_cache := w_cache w;
  w_semantic := w_semantic w; w_costs := w_costs w; w_jitter := w_jitter w; w_clock := x; w_sent := w_sent w |}.
Definition set_sent (x : list nat) (w : W) : W := {|
  w_providers := w_providers w; w_embedder := w_embedder w; w_breakers := w_breakers w; w_cache := w_cache w;
  w_semantic := w_semantic w; w_costs := w_costs w; w_jitter := w_jitter w; w_clock := w_clock w; w_sent := x |}.

Definition provider_name (w : W) : string :=
  match w_providers w with p :: _ => name p | [] => "none" end.

Definition resolve_model (pinned : option string) (sel : ModelSelector) (w : W) : string :=
  match pinned with
  | Some m => m
  | None =>
    let p := provider_name w in
    if String.eqb p "openai" then
      if String.eqb (class sel) "balanced" || String.eqb (class sel) "frontier" then "gpt-4o" else "gpt-4o-mini"
    else if String.eqb p "anthropic" then
      if String.eqb (class sel) "frontier" then "claude-opus-4-8"
      else if String.eqb (class sel) "balanced" then "claude-sonnet-5" else "claude-haiku-4-5"
    else join_with "-" [p; capability sel; class sel]
  end.

Definition embed_provider (w : W) : option P :=
  match w_embedder w with Some p => Some p | None => head (w_providers w) end.
Definition can_embed (w : W) : bool := match embed_provider w with Some p => supports_embeddings p | None => false end.

Definition resolve_embedding_model (pinned : option string) (w : W) : string :=
  match pinned with
  | Some m => m
  | None =>
    match embedding_model gw with
    | Some m => m
    | None =>
      let n := match embed_provider w with Some p => name p | None => "none" end in
      if String.eqb n "openai" then "text-embedding-3-small" else n +:+ "-embeddings"
    end
  end.

Definition now_ms : M W Z := λ w,
  let '(e, t) := elapsed_ms (w_clock w) in (set_clock e w, Ret t).
Definition sleep_for (ms : Z) : M W () := modify (λ w, set_clock (sleep_ms ms (w_clock w)) w).

(** [self.breakers[i]]: indexing panics out of range. *)
Definition breaker_allow (i : nat) : M W bool :=
  now ← now_ms;
  b ← gets (λ w, w_breakers w !! i) ≫= λ o, lift (expect o);
  let '(b, v) := allow now b in
  _ ← modify (λ w, set_breakers (<[i := b]> (w_breakers w)) w);
  mret v.
Definition breaker_success (i : nat) : M W () :=
  b ← gets (λ w, w_breakers w !! i) ≫= λ o, lift (expect o);
  modify (λ w, set_breakers (<[i := on_success b]> (w_breakers w)) w).
Definition breaker_failure (i : nat) : M W () :=
  now ← now_ms;
  b ← gets (λ w, w_breakers w !! i) ≫= λ o, lift (expect o);
  modify (λ w, set_breakers (<[i := on_failure now b]> (w_breakers w)) w).

(** [self.providers[i].chat(request)]: the request leaves, the reply is awaited. *)
Definition send (i : nat) : M W () := modify (λ w, set_sent (w_sent w ++ [i]) w).
Definition reply (i : nat) (req : ChatRequest) : M W (result ChatResponse) :=
  p ← gets (λ w, w_providers w !! i) ≫= λ o, lift (expect o);
  let '(p, r) := chat req p in
  _ ← modify (λ w, set_providers (<[i := p]> (w_providers w)) w);
  mret r.

(** One attempt's end, in [try_provider]: the result of the whole call, or the
    delay before the next attempt. *)
Definition attempt_end (i : nat) (attempt : Z) (r : result ChatResponse)
    : M W ((ChatResponse + (Error * bool)) + Z) :=
  match r with
  | Ok response => _ ← breaker_success i; mret (inl (inl response))
  | Err err =>
    if negb (is_transient err) then mret (inl (inr (err, false)))
    else
      _ ← breaker_failure i;
      if Z.ltb attempt (Resilience.max_attempts (retry gw)) then
        match retry_after err with
        | Some ms => mret (inr ms)
        | None =>
          j ← gets w_jitter;
          let '(j, ms) := backoff_with_jitter (retry gw) attempt j in
          _ ← modify (set_jitter j);
          mret (inr ms)
        end
      else mret (inl (inr (err, true)))
  end.

(** [try_provider]; [fuel] is the number of attempts allowed. *)
Fixpoint try_provider_go (fuel : nat) (i : nat) (req : ChatRequest) (attempt : Z)
    : M W (ChatResponse + (Error * bool)) :=
  match fuel with
  | O => fail Exhausted
  | S fuel =>
    let attempt := attempt + 1 in
    _ ← send i;
    r ← reply i req;
    o ← attempt_end i attempt r;
    match o with
    | inl result => mret result
    | inr delay => _ ← sleep_for delay; try_provider_go fuel i req attempt
    end
  end.
Definition attempts : nat := Z.to_nat (Z.max 1 (Resilience.max_attempts (retry gw))).
Definition try_provider (i : nat) (req : ChatRequest) : M W (ChatResponse + (Error * bool)) :=
  try_provider_go attempts i req 0.

Definition gave_up (last_err : option Error) : Error := default no_healthy_providers last_err.

(** [dispatch_sequential]: the loop over the providers from [i] on. *)
Fixpoint sequential_go (req : ChatRequest) (cands : list nat) (hops : Z) (last_err : option Error)
    : M W ChatResponse :=
  match cands with
  | [] => throw (gave_up last_err)
  | i :: cands =>
    if Z.ltb (max_failovers gw) hops then throw (gave_up last_err) else
    ok ← breaker_allow i;
    if negb ok then sequential_go req cands hops last_err else
    r ← try_provider i req;
    match r with
    | inl response => mret response
    | inr (err, transient) =>
      if negb transient then throw err else sequential_go req cands (hops + 1) (Some err)
    end
  end.
Definition dispatch_sequential (req : ChatRequest) : M W ChatResponse :=
  n ← gets (λ w, length (w_providers w));
  sequential_go req (seq 0 n) 0 None.

(** ** Hedged dispatch *)

(** A launched [try_provider]: waiting for a reply, or for the end of a delay. *)
Inductive phase := Calling | Waiting.
Record InFlight := { if_index : nat; if_attempt : Z; if_phase : phase }.

(** What the runtime delivers: the reply to, or the wake-up of, the call at a
    position in flight, or the end of the hedge delay.  These waits overlap, so
    the time they take is left to the clock's readings. *)
Inductive arrival := Replied (position : nat) | Woken (position : nat) | DelayElapsed.

Record Hedge := { inflight : list InFlight; next : nat; launched : Z; last_err : option Error }.

(** The [while] loop that launches at most one candidate. *)
Fixpoint launch_one (fuel : nat) (n : nat) (h : Hedge) : M W Hedge :=
  match fuel with
  | O => mret h
  | S fuel =>
    if Nat.ltb (length (inflight h)) (max_parallel (hedge_cfg gw)) &&
       Z.leb (launched h) (max_failovers gw) && Nat.ltb (next h) n then
      let i := next h in
      ok ← breaker_allow i;
      if negb ok then
        launch_one fuel n {| inflight := inflight h; next := S i; launched := launched h; last_err := last_err h |}
      else
        _ ← send i;
        mret {| inflight := inflight h ++ [{| if_index := i; if_attempt := 1; if_phase := Calling |}];
                next := S i; launched := launched h + 1; last_err := last_err h |}
    else mret h
  end.

Definition can_hedge (n : nat) (h : Hedge) : bool :=
  Nat.ltb (length (inflight h)) (max_parallel (hedge_cfg gw)) &&
  Z.leb (launched h) (max_failovers gw) && Nat.ltb (next h) n.

Definition set_inflight (l : list InFlight) (h : Hedge) : Hedge :=
  {| inflight := l; next := next h; launched := launched h; last_err := last_err h |}.

(** The loop, along the arrivals; when they run out the call is still pending. *)
Fixpoint hedge_go (n : nat) (req : ChatRequest) (h : Hedge) (arrivals : list arrival) : M W ChatResponse :=
  match arrivals with
  | [] => fail Exhausted
  | a :: arrivals =>
    let relaunch h :=
      h ← launch_one n n h;
      match inflight h with
      | [] => throw (gave_up (last_err h))
      | _ => hedge_go n req h arrivals
      end in
    match a with
    | DelayElapsed =>
      if can_hedge n h then relaunch h else hedge_go n req h arrivals
    | Woken j =>
      match inflight h !! j with
      | Some {| if_index := i; if_attempt := k; if_phase := Waiting |} =>
        _ ← send i;
        hedge_go n req
          (set_inflight (<[j := {| if_index := i; if_attempt := k + 1; if_phase := Calling |}]> (inflight h)) h)
          arrivals
      | _ => hedge_go n req h arrivals
      end
    | Replied j =>
      match inflight h !! j with
      | Some {| if_index := i; if_attempt := k; if_phase := Calling |} =>
        r ← reply i req;
        o ← attempt_end i k r;
        match o with
        | inr _ =>
          hedge_go n req
            (set_inflight (<[j := {| if_index := i; if_attempt := k; if_phase := Waiting |}]> (inflight h)) h)
            arrivals
        | inl (inl response) => mret response
        | inl (inr (err, transient)) =>
          if negb transient then throw err
          else relaunch {| inflight := delete j (inflight h); next := next h; launched := launched h;
                           last_err := Some err |}
        end
      | _ => hedge_go n req h arrivals
      end
    end
  end.

Definition dispatch_hedged (req : ChatRequest) (arrivals : list arrival) : M W ChatResponse :=
  n ← gets (λ w, length (w_providers w));
  h ← launch_one n n {| inflight := []; next := 0; launched := 0; last_err := None |};
  match inflight h with
  | [] => throw (gave_up (last_err h))
  | _ => hedge_go n req h arrivals
  end.

(** ** Embeddings, caches, costs *)

Definition embed_text (req : EmbeddingRequest) : M W EmbeddingResponse :=
  w ← gets id;
  match w_embedder w, w_providers w with
  | Some p, _ =>
    let '(p, r) := embed req p in
    _ ← modify (set_embedder (Some p)); lift (of_result r)
  | None, p :: ps =>
    let '(p, r) := embed req p in
    _ ← modify (set_providers (p :: ps)); lift (of_result r)
  | None, [] => throw (provider "no providers configured")
  end.

(** A call whose error is logged and dropped. *)
Definition ok {A} (m : M W A) : M W (option A) := λ w,
  match m w with
  | (w, Ret a) => (w, Ret (Some a))
  | (w, Stop (Throw _)) => (w, Ret None)
  | (w, Stop s) => (w, Stop s)
  end.

Definition embed_canonical (req : ChatRequest) (embedding_model : string) : M W (option (list f32)) :=
  let text := canonical_request req in
  if is_empty text then mret None else
  r ← ok (embed_text {| er_model := embedding_model; er_input := [text] |});
  mret (r ≫= λ r, head (em_vectors r)).

Definition cache_lookup (req : ChatRequest) : M W (option ChatResponse) :=
  now ← now_ms;
  c ← gets w_cache;
  let '(c, r) := ExactCache.get (cache_key req) now (ttl_ms (cache_cfg gw)) c in
  _ ← modify (set_cache c); mret r.
Definition cache_store (req : ChatRequest) (r : ChatResponse) : M W () :=
  now ← now_ms;
  modify (λ w, set_cache (ExactCache.insert (cache_key req) r now (ttl_ms (cache_cfg gw)) (w_cache w)) w).

Definition on_cost (e : CostEvent) : M W () :=
  if has_observer gw then modify (λ w, set_costs (w_costs w ++ [e]) w) else mret ().
Definition emit_cost_live (r : ChatResponse) : M W () :=
  p ← gets provider_name;
  on_cost {| ce_provider := p; ce_model := served_model r; ce_prompt_tokens := prompt_tokens (usage r);
             ce_completion_tokens := completion_tokens (usage r); ce_cost_usd := cost_usd (usage r);
             ce_cache := None; ce_estimated_savings_usd := f64_zero |}.
Definition emit_cost_hit (kind : string) (r : ChatResponse) : M W () :=
  p ← gets provider_name;
  on_cost {| ce_provider := p; ce_model := served_model r; ce_prompt_tokens := prompt_tokens (usage r);
             ce_completion_tokens := completion_tokens (usage r); ce_cost_usd := f64_zero;
             ce_cache := Some kind; ce_estimated_savings_usd := cost_usd (usage r) |}.

(** [chat]; the arrivals are those of a hedged dispatch. *)
Definition chat_request (req : ChatRequest) (arrivals : list arrival) : M W ChatResponse :=
  let cached := match mode (cache_cfg gw) with Off => false | _ => true end in
  exact ← (if cached then cache_lookup req else mret None);
  match exact with
  | Some hit => _ ← emit_cost_hit "exact" hit; mret (zero_cost hit)
  | None =>
    embedding_model ← gets (resolve_embedding_model None);
    query_vec ← (if mode (cache_cfg gw) is Semantic then embed_canonical req embedding_model else mret None);
    similar ←
      match query_vec with
      | Some qv =>
        now ← now_ms;
        c ← gets w_semantic;
        let '(c, r) := lookup_semantic (param_key req) embedding_model qv
          (similarity_threshold (cache_cfg gw)) (ttl_ms (cache_cfg gw)) now c in
        _ ← modify (set_semantic c);
        mret (match r with Ok hit => hit | Err _ => None end)
      | None => mret None
      end;
    match similar with
    | Some hit => _ ← emit_cost_hit "semantic" hit; mret (zero_cost hit)
    | None =>
      response ← (if enabled (hedge_cfg gw) then dispatch_hedged req arrivals else dispatch_sequential req);
      _ ← (if cached then cache_store req response else mret ());
      _ ← match query_vec with
          | Some qv =>
            now ← now_ms;
            modify (λ w, set_semantic
              (store_semantic (param_key req) embedding_model qv response now (w_semantic w)).1 w)
          | None => mret ()
          end;
      _ ← emit_cost_live response;
      mret response
    end
  end.

(** [chat_stream]: one attempt per candidate; the stream's events are metered as
    they are read ([metered]). *)
Fixpoint stream_go (req : ChatRequest) (cands : list nat) (hops : Z) (last_err : option Error)
    : M W (list (result ChatStreamEvent)) :=
  match cands with
  | [] => throw (gave_up last_err)
  | i :: cands =>
    if Z.ltb (max_failovers gw) hops then throw (gave_up last_err) else
    ok ← breaker_allow i;
    if negb ok then stream_go req cands hops last_err else
    _ ← send i;
    p ← gets (λ w, w_providers w !! i) ≫= λ o, lift (expect o);
    let '(p, r) := Chat.chat_stream req p in
    _ ← modify (λ w, set_providers (<[i := p]> (w_providers w)) w);
    match r with
    | Ok stream => _ ← breaker_success i; mret stream
    | Err err =>
      if negb (is_transient err) then throw err else
      _ ← breaker_failure i;
      stream_go req cands (hops + 1) (Some err)
    end
  end.
Definition chat_stream (req : ChatRequest) : M W (list (result ChatStreamEvent)) :=
  n ← gets (λ w, length (w_providers w));
  stream_go req (seq 0 n) 0 None.
Definition metered (ev : result ChatStreamEvent) : M W (result ChatStreamEvent) :=
  _ ← match ev with Ok (Done resp) => emit_cost_live resp | _ => mret () end;
  mret ev.
End gateway.
