(* ===== verification/GatewayInv.v ===== *)
(** * What the gateway sends, and what it answers from its cache

    A request reaches a bounded number of candidates a bounded number of times,
    never one whose breaker refuses it, whether dispatch is sequential or
    hedged; and a cached answer is served without sending anything. *)
From stdpp Require Import base tactics list numbers strings gmap.
From Stdlib Require Import Lia ZArith Ascii.
From S2P Require Import Prelude.
From S2P Require Import RustStr.
From S2P Require Import F64.
From S2P Require Import Common.
From S2P Require Import Effect.
From S2P Require Import JsonValue.
From S2P Require Import Resilience.
From S2P Require Import ResilienceInv.
From S2P Require Import Chat.
From S2P Require Import Gateway.
Local Open Scope Z_scope.

Definition times (i : nat) (l : list nat) : nat := length (List.filter (Nat.eqb i) l).

Lemma times_app i l l' : times i (l ++ l') = (times i l + times i l')%nat.
Proof. unfold times. by rewrite List.filter_app, length_app. Qed.

Lemma times_one i j : times i [j] = if Nat.eqb i j then 1%nat else 0%nat.
Proof. unfold times. cbn. by destruct (Nat.eqb i j). Qed.

Section gateway.
Context `{HP : AIProvider P, HB : CircuitBreaker B, HC : SemanticCacheStore ChatResponse C, HJ : Jitter J,
  HE : Monotonic E, HT : ChatText}.
Context (gw : Gateway).
Notation W := (World P B C J E).

(** Breakers in a state that refuses requests whatever the time. *)
Context (refusing : B → Prop).
Context (Href : ∀ now b, refusing b → (allow now b).2 = false ∧ refusing (allow now b).1).

Definition refuses (w : W) (i : nat) : Prop := ∃ b, w_breakers w !! i = Some b ∧ refusing b.

Definition well_formed (w : W) : Prop := length (w_breakers w) = length (w_providers w).

(** From [w0] to [w], only the candidates in [used] were sent to, no refusing one
    among them, and none more often than allowed. *)
Record sends (used : list nat) (w0 w : W) : Prop := {
  s_length : length (w_breakers w) = length (w_providers w) ∧ length (w_providers w) = length (w_providers w0);
  s_log : ∃ l, w_sent w = w_sent w0 ++ l ∧
    ∀ i, (0 < times i l)%nat → i ∈ used ∧ (times i l <= attempts gw)%nat;
  s_refuses i : refuses w0 i → refuses w i ∧ i ∉ used }.

Definition sent_to (w0 w : W) (i : nat) : nat := times i (drop (length (w_sent w0)) (w_sent w)).

Lemma sends_log (w0 w : W) l : w_sent w = w_sent w0 ++ l → ∀ i, sent_to w0 w i = times i l.
Proof. intros Hl i. unfold sent_to. by rewrite Hl, drop_app_length. Qed.

(** Steps that touch neither the breakers nor the log. *)
Record quiet (w w' : W) : Prop := {
  q_breakers : w_breakers w' = w_breakers w;
  q_sent : w_sent w' = w_sent w;
  q_providers : length (w_providers w') = length (w_providers w) }.

#[local] Instance quiet_preorder : PreOrder quiet.
Proof.
  split; [by intros w|]. intros w1 w2 w3 [B1 S1 P1] [B2 S2 P2].
  split; [by rewrite B2|by rewrite S2|by rewrite P2].
Qed.

Lemma sends_quiet used w0 w w' : sends used w0 w → quiet w w' →
  sends used w0 w' ∧ ∀ i, sent_to w0 w' i = sent_to w0 w i.
Proof.
  intros [Hl Hlog Hr] [Hb Hs Hp]. split.
  - split.
    + by rewrite Hb, Hp.
    + by rewrite Hs.
    + intros i Hi. destruct (Hr i Hi) as [(b & Hbi & Hrb) Hu]. split; [|done]. exists b. by rewrite Hb.
  - intros i. unfold sent_to. by rewrite Hs.
Qed.

Lemma sends_refl w : well_formed w → sends [] w w.
Proof.
  intros Hw. split; [done| |].
  - exists []. split; [by rewrite app_nil_r|]. intros i Hi. cbn in Hi. lia.
  - intros i Hi. split; [done|]. apply not_elem_of_nil.
Qed.

Lemma sends_use used w0 w i : sends used w0 w → ¬ refuses w0 i → sends (used ++ [i]) w0 w.
Proof.
  intros [Hl (l & Hlog & Ht) Hr] Hi. split; [done| |].
  - exists l. split; [done|]. intros k Hk. destruct (Ht k Hk). split; [set_solver|done].
  - intros k Hk. destruct (Hr k Hk) as [? Hu]. split; [done|].
    intros [?|E1%list_elem_of_singleton]%elem_of_app; [done|]. by subst.
Qed.

Notation kept used w0 n w' := (sends used w0 w' ∧ ∀ k, sent_to w0 w' k = n k).

Lemma quiet_wp {A} used w0 w (m : M W A) : sends used w0 w →
  (∀ a w', m w = (w', a) → quiet w w' ∧ ∃ v, a = Ret v) →
  wp m (λ _ w', kept used w0 (sent_to w0 w) w') (λ _ _, False) w.
Proof.
  intros Hs Hm. unfold wp. destruct (m w) as [w' a] eqn:E1.
  destruct (Hm a w' eq_refl) as [Hq [v ->]]. by apply sends_quiet.
Qed.

Lemma lookup_provider_breaker used w0 w i : sends used w0 w → (i < length (w_providers w0))%nat →
  is_Some (w_breakers w !! i) ∧ is_Some (w_providers w !! i).
Proof. intros [[Hb Hp] _ _] Hi. split; apply lookup_lt_is_Some_2; lia. Qed.

Lemma now_ms_quiet (w : W) : ∃ t w', now_ms w = (w', Ret t) ∧ quiet w w' ∧ w_cache w' = w_cache w.
Proof. unfold now_ms. destruct (elapsed_ms (w_clock w)) as [e t]. by eexists _, _. Qed.

(** Replacing a breaker by a state that refuses if it did. *)
Lemma sends_breaker used w0 w i b b' :
  sends used w0 w → w_breakers w !! i = Some b → (refuses w0 i → refusing b → refusing b') →
  kept used w0 (sent_to w0 w) (set_breakers (<[i:=b']> (w_breakers w)) w).
Proof.
  intros [[Hb Hp] Hlog Hr] Hi Hbb. split; [|done]. split; cbn; [by rewrite length_insert|done|].
  intros k Hk. destruct (Hr k Hk) as [(bk & Hbk & Hrk) Hu]. split; [|done]. unfold refuses. cbn.
  destruct (decide (k = i)) as [->|Hne].
  - exists b'. rewrite list_lookup_insert_eq by (by apply lookup_lt_Some in Hi).
    split; [done|]. apply Hbb; [done|]. congruence.
  - exists bk. by rewrite list_lookup_insert_ne.
Qed.

Lemma allow_wp used w0 w i : sends used w0 w → (i < length (w_providers w0))%nat →
  wp (breaker_allow i)
    (λ v w', kept used w0 (sent_to w0 w) w' ∧ (v = true → ¬ refuses w0 i)) (λ _ _, False) w.
Proof.
  intros Hs Hi. unfold breaker_allow, mbind, M_bind, gets, lift, modify, mret, M_ret, wp.
  destruct (now_ms_quiet w) as (t & w1 & -> & Hq & _). destruct (sends_quiet _ _ _ _ Hs Hq) as [Hs1 Hn].
  destruct (lookup_provider_breaker _ _ _ _ Hs1 Hi) as [[b Hb] _]. rewrite Hb. cbn [expect].
  destruct (allow t b) as [b' v] eqn:Ha. split.
  - destruct (sends_breaker used w0 w1 i b b' Hs1 Hb) as [Hs2 Hn2].
    + intros _ Hrb. destruct (Href t b Hrb) as [_ Hr']. by rewrite Ha in Hr'.
    + split; [done|]. intros k. by rewrite Hn2.
  - intros -> Hr. destruct (s_refuses _ _ _ Hs1 i Hr) as [(b0 & Hb0 & Hrb) _].
    assert (b0 = b) as -> by congruence. destruct (Href t b Hrb) as [Hv _]. by rewrite Ha in Hv.
Qed.

Lemma success_wp used w0 w i : sends used w0 w → (i < length (w_providers w0))%nat → i ∈ used →
  wp (breaker_success i) (λ _ w', kept used w0 (sent_to w0 w) w') (λ _ _, False) w.
Proof.
  intros Hs Hi Hu. unfold breaker_success, mbind, M_bind, gets, lift, modify, wp.
  destruct (lookup_provider_breaker _ _ _ _ Hs Hi) as [[b Hb] _]. rewrite Hb. cbn [expect].
  apply (sends_breaker used w0 w i b _ Hs Hb). intros Hr. by destruct (s_refuses _ _ _ Hs i Hr).
Qed.

Lemma failure_wp used w0 w i : sends used w0 w → (i < length (w_providers w0))%nat → i ∈ used →
  wp (breaker_failure i) (λ _ w', kept used w0 (sent_to w0 w) w') (λ _ _, False) w.
Proof.
  intros Hs Hi Hu. unfold breaker_failure, mbind, M_bind, gets, lift, modify, wp.
  destruct (now_ms_quiet w) as (t & w1 & -> & Hq & _). destruct (sends_quiet _ _ _ _ Hs Hq) as [Hs1 Hn].
  destruct (lookup_provider_breaker _ _ _ _ Hs1 Hi) as [[b Hb] _]. rewrite Hb. cbn [expect].
  destruct (sends_breaker used w0 w1 i b (on_failure t b) Hs1 Hb) as [Hs2 Hn2].
  - intros Hr. by destruct (s_refuses _ _ _ Hs i Hr).
  - split; [done|]. intros k. by rewrite Hn2.
Qed.

Lemma send_wp used w0 w i : sends used w0 w → i ∈ used → (sent_to w0 w i < attempts gw)%nat →
  wp (send i)
    (λ _ w', sends used w0 w' ∧
       ∀ k, sent_to w0 w' k = (sent_to w0 w k + if Nat.eqb k i then 1 else 0)%nat)
    (λ _ _, False) w.
Proof.
  intros [Hl (l & Hlog & Ht) Hr] Hu Hlt. unfold wp, send, modify.
  rewrite (sends_log w0 w l Hlog) in Hlt.
  assert (w_sent w ++ [i] = w_sent w0 ++ (l ++ [i])) as E1 by (by rewrite Hlog, <-app_assoc).
  assert (∀ k, sent_to w0 (set_sent (w_sent w ++ [i]) w) k = (times k l + if Nat.eqb k i then 1 else 0)%nat) as Hk.
  { intros k. unfold sent_to. cbn. by rewrite E1, drop_app_length, times_app, times_one. }
  split.
  - split; cbn; [done| |done]. exists (l ++ [i]). split; [done|]. intros k.
    rewrite times_app, times_one. destruct (Nat.eqb_spec k i) as [->|Hne]; [|rewrite Nat.add_0_r; apply Ht].
    intros _. split; [done|lia].
  - intros k. by rewrite Hk, (sends_log w0 w l Hlog).
Qed.

Lemma reply_wp used w0 w i req : sends used w0 w → (i < length (w_providers w0))%nat →
  wp (reply i req) (λ _ w', kept used w0 (sent_to w0 w) w') (λ _ _, False) w.
Proof.
  intros Hs Hi. unfold reply, mbind, M_bind, gets, lift, modify, mret, M_ret, wp.
  destruct (lookup_provider_breaker _ _ _ _ Hs Hi) as [_ [p Hp]]. rewrite Hp. cbn [expect].
  destruct (chat req p) as [p' r]. apply sends_quiet; [done|]. split; cbn; [done..|]. by rewrite length_insert.
Qed.

(** The end of an attempt leaves room for another only below the maximum. *)
Lemma attempt_end_wp used w0 w i attempt r :
  sends used w0 w → (i < length (w_providers w0))%nat → i ∈ used →
  wp (attempt_end gw i attempt r)
    (λ o w', kept used w0 (sent_to w0 w) w' ∧
       match o with inr _ => attempt < Resilience.max_attempts (retry gw) | _ => True end)
    (λ _ _, False) w.
Proof.
  intros Hs Hi Hu. unfold attempt_end. destruct r as [resp|err].
  - apply wp_bind. eapply wp_mono; [by apply success_wp|intros [] w' Hk; by apply wp_ret|done].
  - destruct (negb (is_transient err)); [by apply wp_ret; split|].
    apply wp_bind. eapply wp_mono; [by apply failure_wp| |done]. intros [] w' Hk.
    destruct (Z.ltb_spec attempt (Resilience.max_attempts (retry gw))) as [Hlt|]; [|by apply wp_ret].
    destruct (retry_after err); [by apply wp_ret|]. apply wp_gets_bind.
    destruct (backoff_with_jitter _ _ _) as [j ms]. apply wp_bind. unfold modify, wp at 1.
    apply wp_ret. split; [|done]. destruct Hk as [Hs' Hn].
    destruct (sends_quiet used w0 w' (set_jitter j w') Hs' ltac:(by split)) as [Hs2 Hn2].
    split; [done|]. intros k. by rewrite Hn2.
Qed.

Lemma try_provider_wp used w0 w i req : sends used w0 w → (i < length (w_providers w0))%nat → i ∈ used →
  sent_to w0 w i = 0%nat →
  wp (try_provider gw i req)
    (λ _ w', sends used w0 w' ∧ ∀ k, k ≠ i → sent_to w0 w' k = sent_to w0 w k) (λ _ _, False) w.
Proof.
  intros Hs Hi Hu H0. unfold try_provider.
  assert (∀ fuel attempt w', sends used w0 w' → Z.of_nat (sent_to w0 w' i) = attempt → 0 <= attempt →
    Z.of_nat fuel + attempt = Z.of_nat (attempts gw) → (0 < fuel)%nat →
    wp (try_provider_go gw fuel i req attempt)
      (λ _ w2, sends used w0 w2 ∧ ∀ k, k ≠ i → sent_to w0 w2 k = sent_to w0 w' k) (λ _ _, False) w') as Hgo.
  2: { apply Hgo; [done|lia|lia|lia|]. unfold attempts. lia. }
  clear w Hs H0. induction fuel as [|fuel IH]; intros attempt w Hs Ha H0a Hf Hpos; [lia|]. cbn [try_provider_go].
  apply wp_bind. eapply wp_mono; [apply send_wp; [done|done|lia]| |done].
  intros [] w1 [Hs1 Hn1]. apply wp_bind. eapply wp_mono; [by apply reply_wp| |done].
  intros r w2 [Hs2 Hn2]. apply wp_bind. eapply wp_mono; [by apply attempt_end_wp| |done].
  intros o w3 [[Hs3 Hn3] Ho].
  assert (∀ k, k ≠ i → sent_to w0 w3 k = sent_to w0 w k) as Hne.
  { intros k Hk. rewrite Hn3, Hn2, Hn1. apply Nat.eqb_neq in Hk. rewrite Hk. lia. }
  assert (Z.of_nat (sent_to w0 w3 i) = attempt + 1) as Hi3.
  { rewrite Hn3, Hn2, Hn1, Nat.eqb_refl. lia. }
  destruct o as [res|delay]; [by apply wp_ret|].
  apply wp_bind. unfold sleep_for, modify, wp at 1.
  destruct (sends_quiet used w0 w3 (set_clock (sleep_ms delay (w_clock w3)) w3) Hs3 ltac:(by split)) as [Hs4 Hn4].
  eapply wp_mono; [apply IH; [done| |lia|lia|]| |done].
  - rewrite Hn4. lia.
  - unfold attempts in Hf. lia.
  - intros _ w5 [Hs5 Hn5]. split; [done|]. intros k Hk. rewrite Hn5, Hn4 by done. by apply Hne.
Qed.

(** ** Dispatch *)

(** What a whole dispatch may have sent. *)
Definition within_budget (w0 w : W) : Prop := ∃ used,
  NoDup used ∧ Z.of_nat (length used) <= max_failovers gw + 1 ∧
  (∀ i, i ∈ used → (i < length (w_providers w0))%nat) ∧ sends used w0 w.

Lemma within_budget_quiet w0 w w' : within_budget w0 w → quiet w w' → within_budget w0 w'.
Proof. intros (u & ? & ? & ? & Hs) Hq. exists u. split_and!; try done. by eapply sends_quiet. Qed.

Lemma sequential_wp w0 req k i hops last used w : 0 <= max_failovers gw →
  sends used w0 w → NoDup used → (∀ j, j ∈ used → (j < i)%nat) → hops = Z.of_nat (length used) →
  hops <= max_failovers gw + 1 → (i + k = length (w_providers w0))%nat →
  (∀ j, (i <= j)%nat → sent_to w0 w j = 0%nat) →
  wp (sequential_go gw req (seq i k) hops last)
    (λ _ w', within_budget w0 w') (λ s w', within_budget w0 w' ∧ ∃ e, s = Throw e) w.
Proof.
  intros Hmf. revert i hops last used w. induction k as [|k IH]; intros i hops last used w Hs Hnd Hlt Hh Hle Hik Hz;
    cbn [seq sequential_go].
  { apply wp_fail. split; [|by eexists]. exists used. split_and!; [done|lia| |done]. intros j Hj.
    specialize (Hlt j Hj). lia. }
  destruct (Z.ltb_spec (max_failovers gw) hops) as [Hgt|Hle'].
  { apply wp_fail. split; [|by eexists]. exists used. split_and!; [done|lia| |done]. intros j Hj.
    specialize (Hlt j Hj). lia. }
  apply wp_bind. eapply wp_mono; [apply (allow_wp used w0); [done|lia]| |done].
  intros v w1 [[Hs1 Hn1] Hv]. destruct v; cbn [negb].
  2: { apply (IH (S i) _ _ used); try done; [|lia|].
    - intros j Hj. specialize (Hlt j Hj). lia.
    - intros j Hj. rewrite Hn1. apply Hz. lia. }
  pose proof (sends_use used w0 w1 i Hs1 (Hv eq_refl)) as Hs1'.
  assert (i ∉ used) as Hiu by (intros Hin; specialize (Hlt i Hin); lia).
  assert (NoDup (used ++ [i])) as Hnd'.
  { apply NoDup_app. split_and!; [done| |apply NoDup_singleton]. intros x Hx ->%list_elem_of_singleton. done. }
  apply wp_bind. eapply wp_mono; [apply (try_provider_wp (used ++ [i]) w0); [done|lia|set_solver|]| |done].
  { rewrite Hn1. by apply Hz. }
  intros r w2 [Hs2 Hn2].
  assert (∀ j, j ∈ used ++ [i] → (j < S i)%nat) as Hlt'.
  { intros j [Hj| ->%list_elem_of_singleton]%elem_of_app; [specialize (Hlt j Hj)|]; lia. }
  assert (within_budget w0 w2) as Hwb.
  { exists (used ++ [i]). split_and!; [done|rewrite length_app; cbn; lia| |done].
    intros j Hj. specialize (Hlt' j Hj). lia. }
  destruct r as [resp|[err transient]]; [by apply wp_ret|].
  destruct (negb transient); [apply wp_fail; by split; [|eexists]|].
  apply (IH (S i) _ _ (used ++ [i])); try done; [rewrite length_app; cbn; lia|lia|lia|].
  intros j Hj. rewrite Hn2, Hn1 by lia. apply Hz. lia.
Qed.

Lemma dispatch_sequential_wp w0 w req : 0 <= max_failovers gw → well_formed w0 → quiet w0 w →
  wp (dispatch_sequential gw req)
    (λ _ w', within_budget w0 w') (λ s w', within_budget w0 w' ∧ ∃ e, s = Throw e) w.
Proof.
  intros Hmf Hw Hq. unfold dispatch_sequential. apply wp_gets_bind.
  destruct (sends_quiet [] w0 w0 w (sends_refl w0 Hw) Hq) as [Hs Hn].
  rewrite (q_providers _ _ Hq).
  apply (sequential_wp w0 req _ 0 0 None []); try done; [constructor|by intros j ?%not_elem_of_nil|lia|].
  intros j _. rewrite Hn. unfold sent_to. by rewrite drop_all.
Qed.

(** A hedged dispatch: every call in flight is a candidate of its own, which has
    been sent to as often as its attempt says. *)
Record hedging (w0 : W) (used : list nat) (h : Hedge) (w : W) : Prop := {
  hg_sends : sends used w0 w;
  hg_used : NoDup used ∧ Z.of_nat (length used) = launched h ∧ launched h <= max_failovers gw + 1;
  hg_next : (next h <= length (w_providers w0))%nat ∧ ∀ j, j ∈ used → (j < next h)%nat;
  hg_later j : (next h <= j)%nat → sent_to w0 w j = 0%nat;
  hg_flight : NoDup (if_index <$> inflight h);
  hg_calls t : t ∈ inflight h → if_index t ∈ used ∧ Z.of_nat (sent_to w0 w (if_index t)) = if_attempt t ∧
    match if_phase t with Calling => True | Waiting => if_attempt t < Z.of_nat (attempts gw) end }.

Lemma hedging_budget w0 used h w : hedging w0 used h w → within_budget w0 w.
Proof.
  intros Hh. destruct (hg_used _ _ _ _ Hh) as (? & ? & ?). exists used. split_and!; [done|lia| |apply Hh].
  intros i Hi. destruct (hg_next _ _ _ _ Hh) as [? Hlt]. specialize (Hlt i Hi). lia.
Qed.

Lemma launch_one_wp w0 used h w fuel : hedging w0 used h w →
  wp (launch_one gw fuel (length (w_providers w0)) h)
    (λ h' w', ∃ used', hedging w0 used' h' w') (λ _ _, False) w.
Proof.
  revert h w. induction fuel as [|fuel IH]; intros h w Hh; cbn [launch_one]; [apply wp_ret; by exists used|].
  destruct (_ && _ && _) eqn:Eg; [|apply wp_ret; by exists used]. to_prop.
  match goal with Hn : Nat.ltb (next h) _ = true |- _ => apply Nat.ltb_lt in Hn as Hnext end.
  destruct Hh as [Hs (Hnd & Hlen & Hle) [Hn Hlt] Hz Hf Hc].
  apply wp_bind. eapply wp_mono; [apply (allow_wp used w0); [done|lia]| |done].
  intros v w1 [[Hs1 Hn1] Hv]. destruct v; cbn [negb].
  2: { apply IH. split; cbn; try done.
    - split; [lia|]. intros j Hj. specialize (Hlt j Hj). lia.
    - intros j Hj. rewrite Hn1. apply Hz. lia.
    - intros t Ht. rewrite Hn1. by apply Hc. }
  pose proof (sends_use used w0 w1 (next h) Hs1 (Hv eq_refl)) as Hs1'.
  assert (next h ∉ used) as Hiu by (intros Hin; specialize (Hlt _ Hin); lia).
  apply wp_bind. eapply wp_mono; [apply (send_wp (used ++ [next h])); [done|set_solver|]| |done].
  { rewrite Hn1, Hz by lia. unfold attempts. lia. }
  intros [] w2 [Hs2 Hn2]. apply wp_ret. exists (used ++ [next h]). split; cbn; try done.
  - split_and!; [|rewrite length_app; cbn; lia|lia].
    apply NoDup_app. split_and!; [done| |apply NoDup_singleton]. intros x Hx ->%list_elem_of_singleton. done.
  - split; [lia|]. intros j [Hj| ->%list_elem_of_singleton]%elem_of_app; [specialize (Hlt j Hj)|]; lia.
  - intros j Hj. rewrite Hn2, Hn1, Hz by lia. by rewrite (proj2 (Nat.eqb_neq j (next h))) by lia.
  - rewrite fmap_app. apply NoDup_app. split_and!; [done| |apply NoDup_singleton].
    intros x (t & -> & Ht)%list_elem_of_fmap Hx%list_elem_of_singleton. apply Hiu.
    cbn in Hx. rewrite <-Hx. by apply Hc.
  - intros t [Ht| ->%list_elem_of_singleton]%elem_of_app.
    + destruct (Hc t Ht) as (Hu & Hat & Hph). split_and!; [set_solver| |done].
      rewrite Hn2, Hn1, (proj2 (Nat.eqb_neq (if_index t) (next h))) by (specialize (Hlt _ Hu); lia). lia.
    + cbn. split_and!; [set_solver| |done]. rewrite Hn2, Hn1, Hz, Nat.eqb_refl by lia. lia.
Qed.

(** Changing the call at a position in flight. *)
Lemma hedging_step w0 used h w w' j t t' :
  hedging w0 used h w → inflight h !! j = Some t → if_index t' = if_index t →
  sends used w0 w' → (∀ k, k ≠ if_index t → sent_to w0 w' k = sent_to w0 w k) →
  Z.of_nat (sent_to w0 w' (if_index t)) = if_attempt t' →
  match if_phase t' with Calling => True | Waiting => if_attempt t' < Z.of_nat (attempts gw) end →
  hedging w0 used (set_inflight (<[j:=t']> (inflight h)) h) w'.
Proof.
  intros [Hs Hu [Hn Hlt] Hz Hf Hc] Hj Hi Hs' Hne Hat Hph.
  destruct (Hc t (list_elem_of_lookup_2 _ _ _ Hj)) as (Hused & _).
  assert (if_index <$> <[j:=t']> (inflight h) = if_index <$> inflight h) as Efm.
  { rewrite list_fmap_insert, Hi. apply list_insert_id. by rewrite list_lookup_fmap, Hj. }
  split; cbn; try done.
  - intros k Hk. rewrite Hne; [by apply Hz|]. intros ->. specialize (Hlt _ Hused). lia.
  - by rewrite Efm.
  - intros x (k & Hk)%list_elem_of_lookup. destruct (decide (k = j)) as [->|Hkj].
    + rewrite list_lookup_insert_eq in Hk by (by apply lookup_lt_Some in Hj). injection Hk as <-.
      by rewrite Hi.
    + rewrite list_lookup_insert_ne in Hk by done. destruct (Hc x (list_elem_of_lookup_2 _ _ _ Hk)) as (? & ? & ?).
      split_and!; [done| |done]. rewrite Hne; [done|]. intros Heq. apply Hkj.
      eapply (NoDup_lookup _ _ _ (if_index x) Hf); by rewrite list_lookup_fmap, ?Hk, ?Hj; cbn; rewrite ?Heq.
Qed.

Lemma hedging_drop w0 used h w w' j e : hedging w0 used h w → sends used w0 w' →
  (∀ k, sent_to w0 w' k = sent_to w0 w k) →
  hedging w0 used {| inflight := delete j (inflight h); next := next h; launched := launched h;
                     last_err := Some e |} w'.
Proof.
  intros [Hs Hu Hn Hz Hf Hc] Hs' Hk. split; cbn; try done.
  - intros i Hi. rewrite Hk. by apply Hz.
  - eapply sublist_NoDup; [exact Hf|]. apply fmap_sublist, sublist_delete.
  - intros t Ht. rewrite Hk. apply Hc. eapply elem_of_sublist; [exact Ht|apply sublist_delete].
Qed.

Lemma hedge_go_wp w0 req used h w arrivals : hedging w0 used h w →
  wp (hedge_go gw (length (w_providers w0)) req h arrivals)
    (λ _ w', within_budget w0 w') (λ s w', within_budget w0 w' ∧ (s = Exhausted ∨ ∃ e, s = Throw e)) w.
Proof.
  revert used h w. induction arrivals as [|a arrivals IH]; intros used h w Hh; cbn [hedge_go].
  { apply wp_fail. split; [by eapply hedging_budget|by left]. }
  assert (∀ used h w, hedging w0 used h w →
    wp (h ← launch_one gw (length (w_providers w0)) (length (w_providers w0)) h;
        match inflight h with
        | [] => throw (gave_up (last_err h))
        | _ => hedge_go gw (length (w_providers w0)) req h arrivals
        end) (λ _ w', within_budget w0 w')
      (λ s w', within_budget w0 w' ∧ (s = Exhausted ∨ ∃ e, s = Throw e)) w) as Hre.
  { clear used h w Hh. intros used h w Hh. apply wp_bind.
    eapply wp_mono; [by apply (launch_one_wp w0 used)| |done]. intros h' w' [used' Hh'].
    destruct (inflight h'); [|by apply (IH used')].
    apply wp_fail. split; [by eapply hedging_budget|right; by eexists]. }
  destruct a as [j|j|].
  - destruct (inflight h !! j) as [[i k []]|] eqn:Ej; [|by apply (IH used)..].
    destruct (hg_calls _ _ _ _ Hh _ (list_elem_of_lookup_2 _ _ _ Ej)) as (Hu & Hat & _). cbn in Hu, Hat.
    assert (i < length (w_providers w0))%nat as Hi.
    { destruct (hg_next _ _ _ _ Hh) as [? Hlt]. specialize (Hlt i Hu). lia. }
    apply wp_bind. eapply wp_mono; [by apply (reply_wp used w0), Hi; apply Hh| |done]. intros r w1 [Hs1 Hn1].
    apply wp_bind. eapply wp_mono; [by apply (attempt_end_wp used w0)| |done]. intros o w2 [[Hs2 Hn2] Ho].
    assert (∀ k, sent_to w0 w2 k = sent_to w0 w k) as Hn by (intros x; by rewrite Hn2, Hn1).
    destruct o as [[resp|[err transient]]|delay].
    + apply wp_ret. eapply (hedging_budget _ _ _ _ (hedging_drop w0 used h w w2 j (provider "") Hh Hs2 Hn)).
    + pose proof (hedging_drop w0 used h w w2 j err Hh Hs2 Hn) as Hd.
      destruct (negb transient); [|by apply (Hre used)].
      apply wp_fail. split; [by eapply hedging_budget|right; by eexists].
    + apply (IH used). apply (hedging_step w0 used h w w2 j _ _ Hh Ej); try done; cbn; [by rewrite Hn|].
      unfold attempts. lia.
  - destruct (inflight h !! j) as [[i k []]|] eqn:Ej; [by apply (IH used)| |by apply (IH used)].
    destruct (hg_calls _ _ _ _ Hh _ (list_elem_of_lookup_2 _ _ _ Ej)) as (Hu & Hat & Hlt). cbn in Hu, Hat, Hlt.
    apply wp_bind. eapply wp_mono; [apply (send_wp used w0); [apply Hh|done|lia]| |done].
    intros [] w1 [Hs1 Hn1]. apply (IH used).
    apply (hedging_step w0 used h w w1 j _ _ Hh Ej); try done; cbn.
    + intros x Hx. rewrite Hn1. apply Nat.eqb_neq in Hx. rewrite Hx. lia.
    + rewrite Hn1, Nat.eqb_refl. lia.
  - destruct (can_hedge _ _ _); [by apply (Hre used)|by apply (IH used)].
Qed.

Lemma dispatch_hedged_wp w0 w req arrivals : 0 <= max_failovers gw → well_formed w0 → quiet w0 w →
  wp (dispatch_hedged gw req arrivals) (λ _ w', within_budget w0 w')
    (λ s w', within_budget w0 w' ∧ (s = Exhausted ∨ ∃ e, s = Throw e)) w.
Proof.
  intros Hmf Hw Hq. unfold dispatch_hedged. apply wp_gets_bind.
  destruct (sends_quiet [] w0 w0 w (sends_refl w0 Hw) Hq) as [Hs Hn]. rewrite (q_providers _ _ Hq).
  apply wp_bind. eapply wp_mono; [apply (launch_one_wp w0 [])| |done].
  - split; cbn; try done.
    + split_and!; [constructor|lia|lia].
    + split; [lia|]. by intros j ?%not_elem_of_nil.
    + intros j _. rewrite Hn. unfold sent_to. by rewrite drop_all.
    + constructor.
    + by intros t ?%not_elem_of_nil.
  - intros h' w' [used' Hh']. destruct (inflight h'); [|by apply (hedge_go_wp w0 req used')].
    apply wp_fail. split; [by eapply hedging_budget|right; by eexists].
Qed.

(** ** The rest of a chat *)

(** Calls that leave the breakers and the log as they are and return. *)
Definition calm {A} (m : M W A) : Prop := ∀ w, wp m (λ _ w', quiet w w') (λ _ _, False) w.

Lemma calm_wp {A D} (m : M W A) (k : A → M W D) w0 w Q R : calm m → quiet w0 w →
  (∀ a w', quiet w0 w' → wp (k a) Q R w') → wp (m ≫= k) Q R w.
Proof.
  intros Hm Hq Hk. apply wp_bind. eapply wp_mono; [apply Hm| |done].
  intros a w' Hq'. apply Hk. by etransitivity.
Qed.

Lemma calm_ret {A} (a : A) : calm (mret a).
Proof. intros w. by apply wp_ret. Qed.

Lemma calm_bind {A D} (m : M W A) (k : A → M W D) : calm m → (∀ a, calm (k a)) → calm (m ≫= k).
Proof.
  intros Hm Hk w. eapply calm_wp; [done|reflexivity|]. intros a w' Hq.
  eapply wp_mono; [apply Hk| |done]. intros d w2 Hq2. by etransitivity.
Qed.

Lemma calm_gets {A} (f : W → A) : calm (gets f).
Proof. intros w. unfold wp, gets. reflexivity. Qed.

Lemma calm_modify (f : W → W) : (∀ w, quiet w (f w)) → calm (modify f).
Proof. intros Hf w. apply Hf. Qed.

Lemma calm_now : calm now_ms.
Proof. intros w. unfold wp. by destruct (now_ms_quiet w) as (t & w' & -> & Hq & _). Qed.

Lemma calm_ok_embed er : calm (ok (embed_text er)).
Proof.
  intros w. unfold wp, ok, embed_text, mbind, M_bind, gets, modify, lift, throw, fail. cbn.
  destruct (w_embedder w) as [p|]; [|destruct (w_providers w) as [|p ps] eqn:Ep].
  - destruct (embed er p) as [p' [r|e]]; cbn; by split.
  - cbn. reflexivity.
  - destruct (embed er p) as [p' [r|e]]; cbn; (split; cbn; [done..|by rewrite Ep]).
Qed.

Lemma calm_on_cost ev : calm (on_cost gw ev).
Proof. unfold on_cost. destruct (has_observer gw); [|by apply calm_ret]. by apply calm_modify. Qed.

Lemma calm_emit_live r : calm (emit_cost_live gw r).
Proof. apply calm_bind; [apply calm_gets|intros p; apply calm_on_cost]. Qed.

Lemma calm_emit_hit k r : calm (emit_cost_hit gw k r).
Proof. apply calm_bind; [apply calm_gets|intros p; apply calm_on_cost]. Qed.

Lemma calm_cache_lookup req : calm (cache_lookup gw req).
Proof.
  apply calm_bind; [apply calm_now|]. intros now. apply calm_bind; [apply calm_gets|]. intros c.
  destruct (ExactCache.get _ _ _ _) as [c' r]. apply calm_bind; [by apply calm_modify|]. intros []. apply calm_ret.
Qed.

Lemma calm_cache_store req r : calm (cache_store gw req r).
Proof. apply calm_bind; [apply calm_now|]. intros now. by apply calm_modify. Qed.

Lemma calm_embed_canonical req m : calm (embed_canonical req m).
Proof.
  unfold embed_canonical. destruct (is_empty _); [apply calm_ret|].
  apply calm_bind; [apply calm_ok_embed|]. intros r. apply calm_ret.
Qed.

Lemma calm_cached b req : calm (if b : bool then cache_lookup gw req else mret None).
Proof. destruct b; [apply calm_cache_lookup|apply calm_ret]. Qed.

#[local] Hint Resolve calm_ret calm_gets calm_now calm_emit_live calm_emit_hit calm_cache_lookup
  calm_cache_store calm_embed_canonical calm_cached : core.

Lemma calm_tail {A} (m : M W A) w0 w : calm m → within_budget w0 w →
  wp m (λ _ w', within_budget w0 w') (λ s w', within_budget w0 w' ∧ (s = Exhausted ∨ ∃ e, s = Throw e)) w.
Proof.
  intros Hm Hw. eapply wp_mono; [apply Hm| |done]. intros a w' Hq. by eapply within_budget_quiet.
Qed.

Lemma chat_request_wp w req arrivals : 0 <= max_failovers gw → well_formed w →
  wp (chat_request gw req arrivals) (λ _ w', within_budget w w')
    (λ s w', within_budget w w' ∧ (s = Exhausted ∨ ∃ e, s = Throw e)) w.
Proof.
  intros Hmf Hw.
  assert (∀ w', quiet w w' → within_budget w w') as Hquiet.
  { intros w' Hq. eapply within_budget_quiet; [|exact Hq]. exists [].
    split_and!; [constructor|cbn; lia|by intros i ?%not_elem_of_nil|by apply sends_refl]. }
  unfold chat_request. eapply calm_wp; [auto|reflexivity|]. intros exact w1 Hq1.
  destruct exact as [hit|].
  { apply calm_tail; [|by apply Hquiet]. apply calm_bind; [auto|]. intros []. auto. }
  eapply calm_wp; [auto|exact Hq1|]. intros em w2 Hq2.
  eapply calm_wp; [by destruct (mode (cache_cfg gw)); auto|exact Hq2|]. intros qv w3 Hq3.
  eapply calm_wp; [|exact Hq3|].
  { destruct qv as [qv|]; [|auto]. apply calm_bind; [auto|]. intros now. apply calm_bind; [auto|]. intros c.
    destruct (lookup_semantic _ _ _ _ _ _ _) as [c' r]. apply calm_bind; [by apply calm_modify|]. intros []. auto. }
  intros similar w4 Hq4. destruct similar as [hit|].
  { apply calm_tail; [|by apply Hquiet]. apply calm_bind; [auto|]. intros []. auto. }
  apply wp_bind. eapply wp_mono with (Q := λ _ w', within_budget w w')
    (E := λ s w', within_budget w w' ∧ (s = Exhausted ∨ ∃ e, s = Throw e)).
  { destruct (enabled (hedge_cfg gw)); [by apply dispatch_hedged_wp|].
    eapply wp_mono; [by apply dispatch_sequential_wp|done|]. intros s w' [? ?]. by split; [|right]. }
  - intros resp w5 Hb. apply calm_tail; [|done].
    apply calm_bind; [by destruct (mode (cache_cfg gw)); auto|]. intros [].
    apply calm_bind; [|intros []; apply calm_bind; [auto|intros []; auto]].
    destruct qv as [qv|]; [|auto]. apply calm_bind; [auto|]. intros now. by apply calm_modify.
  - done.
Qed.
End gateway.

(** ** The clock advances and the cache rests during a dispatch *)

Section cached.
Context `{HP : AIProvider P, HB : CircuitBreaker B, HC : SemanticCacheStore ChatResponse C, HJ : Jitter J,
  HE : Monotonic E, HL : !MonotonicLaws E, HT : ChatText}.
Context (gw : Gateway).
Notation W := (World P B C J E).

Record steadily (w w' : W) : Prop := {
  st_clock : reads (w_clock w) <= reads (w_clock w');
  st_cache : w_cache w' = w_cache w }.

#[local] Instance steadily_preorder : PreOrder steadily.
Proof.
  split; [by intros w|]. intros w1 w2 w3 [C1 K1] [C2 K2]. split; [lia|by rewrite K2].
Qed.

Definition steady {A} (m : M W A) : Prop := ∀ w, steadily w (m w).1.

Lemma steady_ret {A} (a : A) : steady (mret a).
Proof. intros w. reflexivity. Qed.
Lemma steady_lift {A} (o : outcome A) : steady (lift o).
Proof. intros w. reflexivity. Qed.
Lemma steady_fail {A} s : steady (fail (A := A) s).
Proof. intros w. reflexivity. Qed.
Lemma steady_gets {A} (f : W → A) : steady (gets f).
Proof. intros w. reflexivity. Qed.
Lemma steady_bind {A D} (m : M W A) (k : A → M W D) : steady m → (∀ a, steady (k a)) → steady (m ≫= k).
Proof.
  intros Hm Hk w. unfold mbind, M_bind. pose proof (Hm w) as H1. destruct (m w) as [w' [a|s]]; [|done].
  etransitivity; [exact H1|apply Hk].
Qed.
Lemma steady_modify (f : W → W) : (∀ w, steadily w (f w)) → steady (modify f).
Proof. intros Hf w. apply Hf. Qed.
Lemma steady_now : steady now_ms.
Proof.
  intros w. unfold now_ms. pose proof (elapsed_mono (w_clock w)) as H1.
  destruct (elapsed_ms (w_clock w)) as [e t]. by split.
Qed.
Lemma steady_sleep d : steady (sleep_for d).
Proof. apply steady_modify. intros w. split; [apply sleep_mono|done]. Qed.

#[local] Hint Resolve steady_ret steady_lift steady_fail steady_gets steady_now steady_sleep : steady.
Local Ltac steady_step :=
  first [ apply steady_bind; [|intros ?]
        | by apply steady_modify
        | solve [auto with steady]
        | case_goal ].
Local Ltac steadily := repeat steady_step.

Lemma steady_try_provider i req : steady (try_provider gw i req).
Proof.
  unfold try_provider. generalize (attempts gw) as fuel. intros fuel. generalize 0 as attempt.
  induction fuel as [|fuel IH]; intros attempt; cbn [try_provider_go]; [auto with steady|].
  unfold send, reply, attempt_end, breaker_success, breaker_failure. steadily; apply IH.
Qed.

Lemma steady_sequential req : steady (dispatch_sequential gw req).
Proof.
  unfold dispatch_sequential. apply steady_bind; [auto with steady|]. intros n.
  generalize (seq 0 n) as cands, 0 as hops, (None (A := Error)) as last. intros cands.
  induction cands as [|i cands IH]; intros hops last; cbn [sequential_go]; [apply steady_fail|].
  unfold breaker_allow, throw. steadily; try apply IH. apply steady_try_provider.
Qed.

Lemma steady_launch fuel n h : steady (launch_one gw fuel n h).
Proof.
  revert h. induction fuel as [|fuel IH]; intros h; cbn [launch_one]; [apply steady_ret|].
  unfold breaker_allow, send. steadily; apply IH.
Qed.

Lemma steady_hedged req arrivals : steady (dispatch_hedged gw req arrivals).
Proof.
  assert (∀ n arrivals h, steady (hedge_go gw n req h arrivals)) as Hgo.
  { intros n. clear arrivals. intros arrivals. induction arrivals as [|a arrivals IH]; intros h; cbn [hedge_go].
    { apply steady_fail. }
    unfold send, reply, attempt_end, breaker_success, breaker_failure, throw.
    steadily; try apply IH; apply steady_launch. }
  unfold dispatch_hedged, throw. steadily; try apply Hgo. apply steady_launch.
Qed.

Lemma steady_dispatch req arrivals :
  steady (if enabled (hedge_cfg gw) then dispatch_hedged gw req arrivals else dispatch_sequential gw req).
Proof. destruct (enabled _); [apply steady_hedged|apply steady_sequential]. Qed.

Lemma steady_live r : steady (emit_cost_live gw r).
Proof. unfold emit_cost_live, on_cost. steadily. Qed.

(** ** A stored answer *)

Definition cache_ok (c : ExactCache.t ChatResponse) : Prop := ∃ s,
  holds_list c s ∧ (length s <= ExactCache.cap c)%nat ∧ (0 < ExactCache.cap c)%nat ∧
  0 <= ExactCache.tick c < u64_max - 1.

(** What was just inserted is found until it expires. *)
Lemma insert_then_get c key r now now' ttl :
  cache_ok c → u64_saturating_sub now' now <= ttl →
  (ExactCache.get key now' ttl (ExactCache.insert key r now ttl c)).2 = Some r.
Proof.
  intros (s & Hs & Hl & Hc & Ht) Hfresh.
  destruct (insert_lru c s key r now ttl Hs ltac:(lia) Hl) as (s' & Hs' & Hl' & Hc' & Ht' & He).
  pose proof (get_lru _ s' key now' ttl Hs' ltac:(lia) Hl') as Hg.
  destruct (ExactCache.get key now' ttl _) as [c2 r2]. destruct Hg as (s2 & _ & _ & _ & _ & Hg).
  rewrite <-He in Hg. unfold lru_insert in Hg.
  rewrite (proj2 (Nat.eqb_neq (ExactCache.cap c) 0)) in Hg by lia.
  destruct (ExactCache.cap c) as [|n]; [lia|]. unfold lru_get in Hg. cbn [take List.find fst] in Hg.
  rewrite String.eqb_refl in Hg. unfold fresh in Hg. cbn [fst snd] in Hg.
  rewrite (proj2 (Z.leb_le _ _) Hfresh) in Hg. cbn. congruence.
Qed.

Lemma chat_miss_stores req arrivals w w' r :
  mode (cache_cfg gw) = Exact → ExactCache.entries (w_cache w) !! cache_key req = None →
  chat_request gw req arrivals w = (w', Ret r) →
  ∃ t, reads (w_clock w) <= t ∧
    w_cache w' = ExactCache.insert (cache_key req) r t (ttl_ms (cache_cfg gw)) (w_cache w).
Proof.
  intros Hm Hmiss Hr. unfold chat_request in Hr. rewrite Hm in Hr.
  apply bind_Ret_inv in Hr as (w1 & exact & Hl & Hr).
  assert (exact = None ∧ steadily w w1) as [-> Hst1].
  { unfold cache_lookup in Hl. apply bind_Ret_inv in Hl as (wa & t & Hn & Hl).
    pose proof (steady_now w) as Hst. rewrite Hn in Hst. cbn in Hst.
    unfold mbind, M_bind, gets, modify, mret, M_ret in Hl. rewrite (st_cache _ _ Hst) in Hl.
    unfold ExactCache.get in Hl. rewrite Hmiss in Hl. injection Hl as <- <-. split; [done|].
    split; cbn; [by apply Hst|done]. }
  apply bind_Ret_inv in Hr as (w2 & em & [= <- <-] & Hr).
  apply bind_Ret_inv in Hr as (w3 & qv & [= <- <-] & Hr).
  apply bind_Ret_inv in Hr as (w4 & sim & [= <- <-] & Hr).
  apply bind_Ret_inv in Hr as (w5 & resp & Hd & Hr).
  pose proof (steady_dispatch req arrivals w1) as Hst2. rewrite Hd in Hst2. cbn in Hst2.
  apply bind_Ret_inv in Hr as (w6 & [] & Hs & Hr).
  unfold cache_store in Hs. apply bind_Ret_inv in Hs as (wa & t & Hn & Hs).
  pose proof (steady_now w5) as Hst3. rewrite Hn in Hst3. cbn in Hst3.
  injection Hs as <-. apply bind_Ret_inv in Hr as (w7 & [] & [= <-] & Hr).
  apply bind_Ret_inv in Hr as (w8 & [] & Hc & [= <- <-]).
  match type of Hc with emit_cost_live _ _ ?w0 = _ => pose proof (steady_live resp w0) as Hst4 end.
  rewrite Hc in Hst4. cbn in Hst4. exists t. split.
  - unfold now_ms in Hn. pose proof (elapsed_law (w_clock w5)) as Hlaw.
    destruct (elapsed_ms (w_clock w5)) as [e t']. injection Hn as <- <-. cbn in Hlaw. subst t'.
    pose proof (st_clock _ _ Hst1). pose proof (st_clock _ _ Hst2). lia.
  - rewrite (st_cache _ _ Hst4). cbn. by rewrite (st_cache _ _ Hst3), (st_cache _ _ Hst2), (st_cache _ _ Hst1).
Qed.

Lemma chat_hit req arrivals w r t :
  mode (cache_cfg gw) = Exact → (elapsed_ms (w_clock w)).2 = t →
  (ExactCache.get (cache_key req) t (ttl_ms (cache_cfg gw)) (w_cache w)).2 = Some r →
  ∃ w', chat_request gw req arrivals w = (w', Ret (zero_cost r)) ∧ quiet w w' ∧
    w_providers w' = w_providers w.
Proof.
  intros Hm Ht Hg. unfold chat_request. rewrite Hm. unfold cache_lookup, now_ms, mbind, M_bind, gets, modify, mret, M_ret.
  destruct (elapsed_ms (w_clock w)) as [e t'] eqn:Hclk. cbn in Ht. subst t'. cbn [set_clock w_cache].
  destruct (ExactCache.get _ _ _ _) as [c r']. cbn in Hg. subst r'.
  unfold emit_cost_hit, on_cost, mbind, M_bind, gets, modify, mret, M_ret.
  destruct (has_observer gw); eexists; (split; [reflexivity|by split]).
Qed.
End cached.

(** ** Properties *)

Section properties.
Context `{HP : AIProvider P, HB : CircuitBreaker B, HC : SemanticCacheStore ChatResponse C, HJ : Jitter J,
  HE : Monotonic E, HT : ChatText}.
Notation W := (World P B C J E).

(** A chat sends a bounded number of requests and only where it may.
    However the candidates answer and in whatever order the replies of a hedged
    dispatch arrive: at most [max_failovers + 1] candidates are sent to, each at
    most as often as the retry policy allows and none whose breaker refuses; a
    breaker that refuses at any time still does, and no index is out of range. *)
Theorem chat_within_budget gw refusing req arrivals (w w' : W) o :
  (∀ now b, refusing b → (allow now b).2 = false ∧ refusing (allow now b).1) →
  0 <= max_failovers gw → well_formed w → chat_request gw req arrivals w = (w', o) →
  well_formed w' ∧ o ≠ Stop Panicked ∧
  (∃ used l, w_sent w' = w_sent w ++ l ∧ NoDup used ∧ Z.of_nat (length used) <= max_failovers gw + 1 ∧
     ∀ i, i ∈ l → i ∈ used ∧ (i < length (w_providers w))%nat ∧
       Z.of_nat (times i l) <= Z.max 1 (Resilience.max_attempts (retry gw)) ∧ ¬ refuses refusing w i) ∧
  ∀ i, refuses refusing w i → refuses refusing w' i.
Proof.
  intros Href Hmf Hw Hr. pose proof (chat_request_wp gw refusing Href w req arrivals Hmf Hw) as Hwp.
  unfold wp in Hwp. rewrite Hr in Hwp.
  assert (within_budget gw refusing w w' ∧ o ≠ Stop Panicked) as [(used & Hnd & Hlen & Hlt & Hs) Hp].
  { destruct o as [r|s]; [done|]. destruct Hwp as [Hb [->|[e ->]]]; done. }
  destruct Hs as [[Hb Hpr] (l & Hlog & Ht) Hrf]. split_and!; [done|done| |by intros i Hi; apply Hrf].
  exists used, l. split_and!; try done. intros i Hi.
  assert (0 < times i l)%nat as Hpos.
  { apply list_elem_of_split in Hi as (l1 & l2 & ->). change (i :: l2) with ([i] ++ l2).
    rewrite !times_app, times_one, Nat.eqb_refl. lia. }
  destruct (Ht i Hpos) as [Hu Hat]. split_and!; [done|by apply Hlt| |].
  - unfold attempts in Hat. lia.
  - intros Hrw. by destruct (Hrf i Hrw).
Qed.

(** An answer is cached.  In exact mode, after a chat that missed the cache
    and succeeded, the same request is answered from the cache as long as no
    more than the entry's lifetime has gone by since the first chat began: the
    same response at no cost, nothing is sent, no provider is asked. *)
Theorem second_chat_is_cached `{!MonotonicLaws E} gw req arrivals arrivals' (w w1 w2 : W) r :
  mode (cache_cfg gw) = Exact → cache_ok (w_cache w) →
  ExactCache.entries (w_cache w) !! cache_key req = None →
  chat_request gw req arrivals w = (w1, Ret r) →
  w_cache w2 = w_cache w1 → 0 <= reads (w_clock w2) - reads (w_clock w) <= ttl_ms (cache_cfg gw) →
  ∃ w3, chat_request gw req arrivals' w2 = (w3, Ret (zero_cost r)) ∧
    w_sent w3 = w_sent w2 ∧ w_providers w3 = w_providers w2 ∧ w_breakers w3 = w_breakers w2.
Proof.
  intros Hm Hok Hmiss Hr Hc Ht.
  destruct (chat_miss_stores gw req arrivals w w1 r Hm Hmiss Hr) as (t & Hle & Hst).
  destruct (chat_hit gw req arrivals' w2 r (reads (w_clock w2)) Hm (elapsed_law _)) as (w3 & Hw3 & [Hb Hs _] & Hp).
  { rewrite Hc, Hst. apply insert_then_get; [done|]. unfold u64_saturating_sub. lia. }
  by exists w3.
Qed.
End properties.

(** ** A lost trial *)

(** Half-open, with every trial request given out. *)
Definition exhausted (b : LocalCircuitBreaker) : Prop :=
  status b = HalfOpen ∧ half_open_max_calls (cfg b) <= half_open_calls b.

Lemma exhausted_refuses now b : exhausted b → (allow now b).2 = false ∧ exhausted (allow now b).1.
Proof.
  intros [Hs Hc]. cbn [allow local_circuit_breaker]. unfold local_allow. rewrite Hs.
  by rewrite (proj2 (Z.ltb_ge _ _) Hc).
Qed.

Section lost.
Context `{HP : AIProvider P, HC : SemanticCacheStore ChatResponse C, HJ : Jitter J, HE : Monotonic E, HT : ChatText}.
Notation W := (World P LocalCircuitBreaker C J E).

Definition chats (gw : Gateway) (reqs : list (ChatRequest * list arrival)) (w : W) : W :=
  foldl (λ w r, (chat_request gw r.1 r.2 w).1) w reqs.

(** A breaker whose trial request never reported back blocks its provider for
    good: no later chat sends to it, whatever the time. *)
Lemma lost_trial_blocks_provider gw reqs (w : W) i :
  0 <= max_failovers gw → well_formed w → refuses exhausted w i →
  refuses exhausted (chats gw reqs w) i ∧ ∃ l, w_sent (chats gw reqs w) = w_sent w ++ l ∧ i ∉ l.
Proof.
  intros Hmf. revert w. induction reqs as [|[req arrivals] reqs IH]; intros w Hw Hi.
  { split; [done|]. exists []. split; [by rewrite app_nil_r|apply not_elem_of_nil]. }
  change (chats gw ((req, arrivals) :: reqs) w) with (chats gw reqs (chat_request gw req arrivals w).1).
  pose proof (chat_request_wp gw exhausted exhausted_refuses w req arrivals Hmf Hw) as Hwp.
  unfold wp in Hwp. destruct (chat_request gw req arrivals w) as [w1 o]. cbn [fst].
  assert (within_budget gw exhausted w w1) as (used & _ & _ & _ & [[Hb Hp] (l & Hl & Ht) Hr]).
  { by destruct o; [|destruct Hwp]. }
  destruct (Hr i Hi) as [Hi1 Hu]. destruct (IH w1 Hb Hi1) as [Hfin (l' & Hl' & Hn)]. split; [done|].
  exists (l ++ l'). split; [by rewrite Hl', Hl, app_assoc|].
  intros [Hin|Hin]%elem_of_app; [|done]. destruct (Ht i) as [? _]; [|done].
  apply list_elem_of_split in Hin as (l1 & l2 & ->). change (i :: l2) with ([i] ++ l2).
  rewrite !times_app, times_one, Nat.eqb_refl. lia.
Qed.
End lost.

(** ** A gateway of scripted providers *)

Definition scripted : Type := list (result ChatResponse).
#[export] Instance scripted_provider : AIProvider scripted := {|
  name _ := "scripted";
  chat _ p := match p with r :: p => (p, r) | [] => ([], Err (provider "out of script")) end;
  Chat.chat_stream _ p := (p, Err (provider "no streams"));
  supports_embeddings _ := false;
  embed _ p := (p, embed_unsupported "scripted") |}.

(** A clock that stands still but for the sleeps. *)
#[export] Instance still_clock : Monotonic Z := {| elapsed_ms t := (t, t); sleep_ms d t := t + Z.max 0 d |}.
#[export] Program Instance still_clock_laws : MonotonicLaws Z := {| reads t := t |}.
Next Obligation. done. Qed.
Next Obligation. intros e. cbn. lia. Qed.
Next Obligation. intros d e. cbn. lia. Qed.

Definition chat_text_example : ChatText := {|
  messages_json ms := inr (join_with "," (omap content ms));
  tools_json ts := inr (join_with "," (map ts_name ts));
  debug_temperature t := if t is Some _ then "Some(_)" else "None";
  debug_tool_choice c := if c is Some _ then "Some(_)" else "None";
  debug_response_format f := if f is Some _ then "Some(_)" else "None" |}.

Definition hello : ChatRequest := ChatRequest_new "gpt-4o" [user "hello"].
Definition reply_example : ChatResponse := {|
  message := assistant "hi"; served_model := "gpt-4o"; usage := Usage_new 3 1 f64_one; finish_reason := "stop" |}.
Definition cached_gateway : Gateway := {|
  retry := RetryConfig_default; max_failovers := 2;
  cache_cfg := {| mode := Exact; ttl_ms := 1000; similarity_threshold := f32_zero; max_entries := 2 |};
  embedding_model := None; hedge_cfg := HedgeConfig_default; has_observer := true |}.

Definition gateway_example (providers : list scripted) (breakers : list LocalCircuitBreaker) (now : Z)
    : World scripted LocalCircuitBreaker (InMemorySemanticCache.t ChatResponse) FixedJitter Z := {|
  w_providers := providers; w_embedder := None; w_breakers := breakers;
  w_cache := ExactCache.new 2; w_semantic := InMemorySemanticCache.with_max_entries 2;
  w_costs := []; w_jitter := {| fixed_ms := 0 |}; w_clock := now; w_sent := [] |}.

(** The primary fails three times in a row; the second candidate answers. *)
Definition failover_example :=
  gateway_example [[Err (provider "500"); Err (provider "500"); Err (provider "500")]; [Ok reply_example]]
    (replicate 2 (LocalCircuitBreaker_new BreakerConfig_default)) 0.

Example failover_retries_then_moves_on :
  let r := @chat_request _ _ _ _ _ _ _ _ _ _ chat_text_example cached_gateway hello [] failover_example in
  w_sent r.1 = [0; 0; 0; 1]%nat ∧ r.2 = Ret reply_example.
Proof. vm_compute. done. Qed.

Lemma chat_within_budget_witness :
  let r := @chat_request _ _ _ _ _ _ _ _ _ _ chat_text_example cached_gateway hello [] failover_example in
  well_formed r.1 ∧ r.2 ≠ Stop Panicked.
Proof.
  intros r.
  destruct (@chat_within_budget _ _ _ _ _ _ _ _ _ _ chat_text_example cached_gateway exhausted hello []
    failover_example r.1 r.2 exhausted_refuses ltac:(cbn; lia) eq_refl (surjective_pairing _)) as (Hw & Hp & _).
  split; [exact Hw|exact Hp].
Defined.

Lemma empty_cache_ok : cache_ok (ExactCache.new 2).
Proof.
  exists []. split; [apply holds_new|]. cbn. unfold u64_max, u64_modulus. lia.
Qed.

Lemma second_chat_is_cached_witness :
  let w1 := (@chat_request _ _ _ _ _ _ _ _ _ _ chat_text_example cached_gateway hello [] failover_example).1 in
  ∃ w3, @chat_request _ _ _ _ _ _ _ _ _ _ chat_text_example cached_gateway hello [] w1 =
    (w3, Ret (zero_cost reply_example)) ∧ w_sent w3 = w_sent w1.
Proof.
  intros w1.
  destruct (@second_chat_is_cached _ _ _ _ _ _ _ _ _ _ chat_text_example _ cached_gateway hello [] []
    failover_example w1 w1 reply_example eq_refl empty_cache_ok eq_refl) as (w3 & Hw3 & Hs & _).
  - vm_compute. reflexivity.
  - reflexivity.
  - vm_compute. split; congruence.
  - exists w3. split; [exact Hw3|exact Hs].
Defined.

(** After five failures and the cool-down the trial request is answered with a
    client error: the breaker hears of neither a success nor a failure. *)
Definition tripped : LocalCircuitBreaker := {|
  cfg := BreakerConfig_default; status := Open; consecutive_failures := 5; open_until_ms := 15000;
  half_open_calls := 0 |}.
Example client_error_loses_the_trial :
  refuses exhausted
    (@chat_request _ _ _ _ _ _ _ _ _ _ chat_text_example cached_gateway hello []
       (gateway_example [[Err (invalid "400"); Ok reply_example]] [tripped] 15000)).1 0.
Proof. eexists. split; [vm_compute; reflexivity|]. vm_compute. split; [done|congruence]. Qed.

(** The semantic cache's keys leave the attachments of a message out: requests
    that differ in an image only are the same to it. *)
Example attachments_not_in_semantic_key `{ChatText} a b :
  let ask img := ChatRequest_new "gpt-4o" [with_part (image_base64 "image/png" img) (user "what is this?")] in
  canonical_request (ask a) = canonical_request (ask b) ∧ param_key (ask a) = param_key (ask b).
Proof. done. Qed.
