(* ===== verification/Manifest.v ===== *)
(** * Plugin manifests

    crates/wovyr-plugin/src/manifest.rs, permissions.rs and verify.rs: the
    manifest and its validation, the supply-chain policy, permission grants with
    wildcards, digests and the trust store.  YAML, semantic versions, SHA-256 and
    ed25519 are third-party code: parameters. *)
From stdpp Require Import base tactics list numbers strings gmap.
From Stdlib Require Import ZArith Ascii.
From S2P Require Import Prelude.
From S2P Require Import RustStr.
From S2P Require Import Common.
From S2P Require Import Effect.
Local Open Scope Z_scope.

Definition PLUGIN_API_VERSION : string := "plugin.wovyr.io/v1".

Record Metadata := {
  md_name : string; md_version : string; md_publisher : string;
  md_description : string; md_license : string; md_homepage : string }.
Record Compatibility := { platform_api_range : string }.
Record Dependency := { dep_name : string; dep_version : string }.
Inductive CapabilityKind := KTool | KProvider | KMemoryBackend | KPolicy | KWorkflowActivity.
#[export] Instance CapabilityKind_eq_dec : EqDecision CapabilityKind.
Proof. solve_decision. Defined.
Record CapabilityDescriptor := {
  cap_kind : CapabilityKind; cap_id : string; cap_entry : string; cap_sandbox : string }.
Record Artifact := { art_path : string; art_digest : string }.
Record SbomComponent := { sc_component : string; sc_version : string; sc_license : string }.
Record Sbom := { components : list SbomComponent }.
Record Provenance := { builder : string; source : string; built_at : string }.

Record PluginManifest := {
  api_version : string;
  kind : string;
  metadata : Metadata;
  compatibility : Compatibility;
  dependencies : list Dependency;
  permissions : list string;
  capabilities : list CapabilityDescriptor;
  artifacts : list Artifact;
  sbom : option Sbom;
  provenance : option Provenance }.

(** The semver crate: versions, requirements and their order. *)
Class Semver (V R : Type) := {
  parse_version : string → string + V;
  parse_req : string → string + R;
  req_matches : R → V → bool;
  version_cmp : V → V → comparison;
  show_version : V → string }.

(** SHA-256 and the verification algorithms of the ring crate, called with the
    public key, the message and the signature. *)
Class PluginCrypto := {
  digest : string → string;
  ed25519_verify : string → string → string → bool;
  ecdsa_p256_verify : string → string → string → bool }.

Class ManifestYaml := { manifest_from_str : string → string + PluginManifest }.

(** Text between backquotes, as the error messages have it. *)
Definition ticked (s : string) : string := "`" +:+ (s +:+ "`").

Definition qualified_id (m : PluginManifest) : string :=
  md_publisher (metadata m) +:+ ("/" +:+ md_name (metadata m)).
Definition reference (m : PluginManifest) : string :=
  qualified_id m +:+ ("@" +:+ md_version (metadata m)).
Definition tool_capabilities (m : PluginManifest) : list CapabilityDescriptor :=
  List.filter (λ c, bool_decide (cap_kind c = KTool)) (capabilities m).

(** ** The supply-chain policy *)

Record ProvenancePolicy := {
  require_provenance : bool; require_sbom : bool; allowed_builders : list string }.
Definition ProvenancePolicy_default : ProvenancePolicy :=
  {| require_provenance := false; require_sbom := false; allowed_builders := [] |}.

Definition provenance_check (p : ProvenancePolicy) (m : PluginManifest) : result () :=
  if require_sbom p && match sbom m with None => true | _ => false end then
    Err (invalid ("plugin " +:+ (ticked (qualified_id m) +:+ " has no SBOM, which this node requires")))
  else
    let restricted := match allowed_builders p with [] => false | _ => true end in
    match provenance m with
    | None =>
      if require_provenance p || restricted then
        Err (invalid ("plugin " +:+ (ticked (qualified_id m) +:+
          " has no build provenance, which this node requires")))
      else Ok ()
    | Some prov =>
      if restricted then
        if existsb (λ b, String.eqb b (builder prov)) (allowed_builders p) then Ok ()
        else Err (forbidden ("plugin " +:+ (ticked (qualified_id m) +:+
          (" was built by " +:+ (ticked (builder prov) +:+ ", not a trusted builder")))))
      else Ok ()
    end.

(** ** Validation *)

Section validate.
Context `{Semver V R}.

Definition parse_version_req (range : string) : result R :=
  match parse_req (join_with "," (split_whitespace range)) with
  | inr r => Ok r
  | inl e => Err (invalid ("invalid version requirement " +:+ (ticked range +:+ (": " +:+ e))))
  end.

Fixpoint check_capabilities (seen : list string) (caps : list CapabilityDescriptor) : result () :=
  match caps with
  | [] => Ok ()
  | c :: caps =>
    if is_empty (trim (cap_id c)) then Err (invalid "capability id must not be empty")
    else if bool_decide (cap_id c ∈ seen) then
      Err (invalid ("duplicate capability id " +:+ ticked (cap_id c)))
    else check_capabilities (cap_id c :: seen) caps
  end.

Fixpoint check_dependencies (deps : list Dependency) : result () :=
  match deps with
  | [] => Ok ()
  | d :: deps =>
    if is_empty (trim (dep_name d)) then Err (invalid "dependency name must not be empty") else
    match parse_version_req (dep_version d) with
    | Ok _ => check_dependencies deps
    | Err e => Err (invalid ("dependency " +:+ (ticked (dep_name d) +:+ (": " +:+ error_display e))))
    end
  end.

Fixpoint check_identity (fields : list (string * string)) : result () :=
  match fields with
  | [] => Ok ()
  | (field, value) :: fields =>
    if is_empty (trim value) then Err (invalid ("plugin " +:+ (field +:+ " must not be empty")))
    else check_identity fields
  end.

Definition validate (m : PluginManifest) : result () :=
  if negb (String.eqb (api_version m) PLUGIN_API_VERSION) then
    Err (invalid ("unsupported plugin apiVersion " +:+ (ticked (api_version m) +:+
      (" (expected " +:+ (ticked PLUGIN_API_VERSION +:+ ")")))))
  else if negb (String.eqb (kind m) "Plugin") then
    Err (invalid ("unsupported manifest kind " +:+ (ticked (kind m) +:+ " (expected `Plugin`)")))
  else
    _ ← check_identity [("metadata.name", md_name (metadata m)); ("metadata.version", md_version (metadata m));
                        ("metadata.publisher", md_publisher (metadata m))];
    _ ← match parse_version (md_version (metadata m)) with
        | inr _ => Ok ()
        | inl e => Err (invalid ("plugin version " +:+ (ticked (md_version (metadata m)) +:+
            (" is not valid semver: " +:+ e))))
        end;
    _ ← check_capabilities [] (capabilities m);
    check_dependencies (dependencies m).

Definition from_yaml `{ManifestYaml} (yaml : string) : result PluginManifest :=
  match manifest_from_str yaml with
  | inl e => Err (invalid ("invalid plugin manifest: " +:+ e))
  | inr m => _ ← validate m; Ok m
  end.
End validate.

(** ** Permissions *)

Definition segment_matches (granted wanted : string) : bool :=
  match strip_suffix "*" granted with
  | Some prefix => starts_with prefix wanted
  | None => String.eqb granted wanted
  end.

Fixpoint all_segments (g w : list string) : bool :=
  match g, w with
  | a :: g, b :: w => segment_matches a b && all_segments g w
  | _, _ => true
  end.

Definition grant_covers (granted wanted : string) : bool :=
  let g := split_char ":" granted in
  let w := split_char ":" wanted in
  if negb (Nat.eqb (length g) (length w)) then false else all_segments g w.

Definition missing_grants (declared granted : list string) : list string :=
  List.filter (λ d, negb (existsb (λ g, grant_covers g d) granted)) declared.

Definition is_broad (permission : string) : bool := contains_char "*" permission.

(** ** Digests and signatures *)

(** [u8::from_str_radix(.., 16)] on two bytes. *)
Definition hex_value (c : ascii) : option N :=
  let n := byte_of c in
  if byte_in 48 57 c then Some (n - 48)%N
  else if byte_in 97 102 c then Some (n - 87)%N
  else if byte_in 65 70 c then Some (n - 55)%N
  else None.
Definition hex_byte (a b : ascii) : option ascii :=
  if Ascii.eqb a "+" then ascii_of_N <$> hex_value b
  else x ← hex_value a; y ← hex_value b; Some (ascii_of_N (16 * x + y)).

Definition at_boundary (rest : string) : bool :=
  match rest with String c _ => negb (is_continuation c) | "" => true end.

(** [hex::decode]: slicing off a character boundary panics. *)
Fixpoint hex_decode_go (s : string) : outcome string :=
  match s with
  | String a (String b rest) =>
    if negb (at_boundary rest) then Stop Panicked else
    match hex_byte a b with
    | None => Stop (Throw (invalid "invalid hex: invalid digit found in string"))
    | Some c => t ← hex_decode_go rest; Ret (String c t)
    end
  | _ => Ret ""
  end.
Definition hex_decode (s : string) : outcome string :=
  if Nat.eqb (String.length s mod 2) 0 then hex_decode_go s
  else Stop (Throw (invalid "hex string has odd length")).

Definition hex_digit_char (n : N) : ascii := ascii_of_N (if N.ltb n 10 then 48 + n else 87 + n).
Fixpoint hex_encode (bytes : string) : string :=
  match bytes with
  | "" => ""
  | String b bytes =>
    String (hex_digit_char (byte_of b / 16)) (String (hex_digit_char (byte_of b mod 16)) (hex_encode bytes))
  end.

Fixpoint str_map (f : ascii → ascii) (s : string) : string :=
  match s with "" => "" | String c s => String (f c) (str_map f s) end.
Definition eq_ignore_ascii_case (a b : string) : bool := String.eqb (str_map ascii_lower a) (str_map ascii_lower b).

Section crypto.
Context `{PluginCrypto}.

Definition verify_digest (declared bytes : string) : result () :=
  match strip_prefix "sha256:" declared with
  | None => Err (invalid ("unsupported artifact digest " +:+ (ticked declared +:+ " (expected `sha256:<hex>`)")))
  | Some hex =>
    let actual := hex_encode (digest bytes) in
    if eq_ignore_ascii_case actual hex then Ok ()
    else Err (invalid ("artifact digest mismatch: declared " +:+ (ticked declared +:+
      (", computed " +:+ ticked ("sha256:" +:+ actual)))))
  end.

Record TrustStore := { keys : gmap string string }.
Definition TrustStore_new : TrustStore := {| keys := ∅ |}.
Definition trust (publisher public_key : string) (t : TrustStore) : TrustStore :=
  {| keys := <[publisher := public_key]> (keys t) |}.
Definition TrustStore_verify (t : TrustStore) (publisher message signature : string) : result () :=
  match keys t !! publisher with
  | None => Err (invalid ("untrusted plugin publisher " +:+ ticked publisher))
  | Some key =>
    if ed25519_verify key message signature then Ok ()
    else Err (invalid ("plugin signature verification failed for publisher " +:+ ticked publisher))
  end.
End crypto.
