(* ===== verification/ToolRegistry.v ===== *)
(** * The tool registry

    crates/wovyr-tools/src/tool.rs and registry.rs: tool metadata, permission
    checks and the registry, over tools that are a parameter (the built-in tools
    and the plugins' wrappers implement [Tool]). *)
From stdpp Require Import base tactics list numbers strings gmap.
From Stdlib Require Import ZArith.
From S2P Require Import Prelude.
From S2P Require Import RustStr.
From S2P Require Import Common.
From S2P Require Import Effect.
From S2P Require Import JsonValue.

Record ToolMetadata := {
  tm_id : string; tm_version : string; tm_category : string; tm_description : string;
  tm_permissions : list string; tm_strict : bool }.
Definition ToolMetadata_new (id version category description : string) : ToolMetadata := {|
  tm_id := id; tm_version := version; tm_category := category; tm_description := description;
  tm_permissions := []; tm_strict := false |}.
Definition with_permissions (perms : list string) (m : ToolMetadata) : ToolMetadata := {|
  tm_id := tm_id m; tm_version := tm_version m; tm_category := tm_category m;
  tm_description := tm_description m; tm_permissions := perms; tm_strict := tm_strict m |}.
Definition with_strict (strict : bool) (m : ToolMetadata) : ToolMetadata := {|
  tm_id := tm_id m; tm_version := tm_version m; tm_category := tm_category m;
  tm_description := tm_description m; tm_permissions := tm_permissions m; tm_strict := strict |}.

Inductive TrustClass := FirstParty | Verified | Untrusted.
Record ToolContext := {
  tx_execution_id : string; tx_agent_id : string; tx_workdir : string; tx_tenant : string;
  granted_permissions : option (list string); egress_allowlist : option (list string);
  trust_class : TrustClass }.
Record ToolRequest := { parameters : Value }.
Record ToolResponse := { success : bool; payload : Value }.
Definition ToolResponse_success (v : Value) : ToolResponse := {| success := true; payload := v |}.

Inductive ToolError :=
  | ToolValidation (m : string) | PermissionDenied (m : string) | ToolNetwork (m : string)
  | ToolInternal (m : string).
Definition tool_error_display (e : ToolError) : string :=
  match e with
  | ToolValidation m => "validation error: " +:+ m
  | PermissionDenied m => "permission denied: " +:+ m
  | ToolNetwork m => "network error: " +:+ m
  | ToolInternal m => "internal error: " +:+ m
  end.

Definition check_permissions (required : list string) (ctx : ToolContext) : ToolError + () :=
  match granted_permissions ctx with
  | None => inr ()
  | Some granted =>
    match List.filter (λ p, negb (existsb (String.eqb p) granted)) required with
    | [] => inr ()
    | missing => inl (PermissionDenied ("tool requires ungranted permission(s): " +:+ join_with ", " missing))
    end
  end.

(** [trait Tool], with the state [X] tools act on. *)
Class Tool (T X : Type) := {
  tool_metadata_of : T → ToolMetadata;
  tool_input_schema : T → Value;
  tool_execute : T → ToolContext → ToolRequest → X → X * (ToolError + ToolResponse) }.

Section registry.
Context `{Tool T X}.

Definition registry : Type := gmap string T.
Definition register (t : T) (r : registry) : registry := <[tm_id (tool_metadata_of t) := t]> r.
Definition unregister (id : string) (r : registry) : registry := delete id r.
Definition contains (id : string) (r : registry) : bool := bool_decide (is_Some (r !! id)).
Definition ids (r : registry) : list string := btree_keys r.
Definition registered_metadata (r : registry) : list ToolMetadata := tool_metadata_of ∘ snd <$> btree_iter r.

Definition execute (id : string) (ctx : ToolContext) (req : ToolRequest) (r : registry) (x : X)
    : X * (ToolError + ToolResponse) :=
  match r !! id with
  | None => (x, inl (ToolValidation ("unknown tool `" +:+ (id +:+ "`"))))
  | Some t =>
    match check_permissions (tm_permissions (tool_metadata_of t)) ctx with
    | inl e => (x, inl e)
    | inr _ => tool_execute t ctx req x
    end
  end.

(** A tool runs only when it is registered and all it requires is granted;
    otherwise the call is an error and nothing has run. *)
Lemma execute_authorized id ctx req r x :
  match r !! id with
  | Some t =>
    if match granted_permissions ctx with
       | None => true
       | Some granted => forallb (λ p, existsb (String.eqb p) granted) (tm_permissions (tool_metadata_of t))
       end
    then execute id ctx req r x = tool_execute t ctx req x
    else ∃ m, execute id ctx req r x = (x, inl (PermissionDenied m))
  | None => ∃ m, execute id ctx req r x = (x, inl (ToolValidation m))
  end.
Proof.
  unfold execute. destruct (r !! id) as [t|]; [|by eexists]. unfold check_permissions.
  destruct (granted_permissions ctx) as [granted|]; [|done].
  destruct (forallb _ _) eqn:Hall.
  - destruct (List.filter _ _) as [|p ps] eqn:Hf; [done|]. exfalso.
    assert (p ∈ p :: ps) as Hp by by left. rewrite <-Hf in Hp. apply filter_elem in Hp as [Hp Hn].
    rewrite forallb_elem in Hall. rewrite (Hall p Hp) in Hn. done.
  - destruct (List.filter _ _) as [|p ps] eqn:Hf; [|by eexists]. exfalso.
    apply not_true_iff_false in Hall. apply Hall. apply forallb_elem. intros p Hp.
    destruct (existsb _ granted) eqn:E; [done|]. exfalso. apply (not_elem_of_nil p). rewrite <-Hf.
    apply filter_elem. by rewrite E.
Qed.
End registry.
Arguments registry : clear implicits.
