(* ===== verification/AgentContext.v ===== *)
(** * Token estimates and the agent's context window

    crates/wovyr-provider/src/tokenizer.rs and crates/wovyr-agent/src/context.rs:
    the deterministic token estimator, and the compaction that keeps a growing
    history under a token budget.  Token counts are [usize]s far below the
    machine's bound: naturals. *)
From stdpp Require Import base tactics list numbers strings.
From Stdlib Require Import Lia.
From S2P Require Import Prelude.
From S2P Require Import RustStr.
From S2P Require Import Chat.

(** ** Counting tokens *)

Definition PER_MESSAGE_OVERHEAD : nat := 4.
Definition PER_TOOL_OVERHEAD : nat := 8.

Class TokenCounter (K : Type) := count : K → string → nat.

Definition list_sum_of {A} (f : A → nat) (l : list A) : nat := sum_list_with f l.

Definition count_message `{TokenCounter K} (counter : K) (msg : Message) : nat :=
  PER_MESSAGE_OVERHEAD
  + match content msg with Some c => count counter c | None => 0 end
  + list_sum_of (λ call, count counter (tc_name call) + count counter (tc_arguments call) + PER_MESSAGE_OVERHEAD)
      (tool_calls msg)
  + match m_name msg with Some n => count counter n | None => 0 end.

Inductive HeuristicTokenizer := Heuristic.

(** [usize::div_ceil] by four. *)
Definition div_ceil_4 (n : nat) : nat := (n + 3) / 4.

Section tokenizer.
Context `{Unicode}.

Fixpoint count_chars (cs : list char) (alnum_run tokens : nat) : nat :=
  match cs with
  | [] => if Nat.ltb 0 alnum_run then tokens + div_ceil_4 alnum_run else tokens
  | c :: cs =>
    if is_alphanumeric c then count_chars cs (S alnum_run) tokens
    else
      let tokens := if Nat.ltb 0 alnum_run then tokens + div_ceil_4 alnum_run else tokens in
      count_chars cs 0 (tokens + 1)
  end.

#[export] Instance heuristic_tokenizer : TokenCounter HeuristicTokenizer := λ _ text,
  let tokens := foldl (λ tokens chunk, count_chars (chars chunk) 0 tokens) 0 (split_whitespace text) in
  if Nat.eqb tokens 0 && negb (is_empty (trim text)) then 1 else tokens.
End tokenizer.

(** ** Compaction *)

Inductive CompactionStrategy := DropOldest.
Record ContextPolicy := { max_prompt_tokens : nat; strategy : CompactionStrategy }.
Definition ContextPolicy_default : ContextPolicy :=
  {| max_prompt_tokens := Z.to_nat 96000; strategy := DropOldest |}.

Record Compacted := { c_messages : list Message; dropped_messages : nat; tokens_after : nat }.

(** The leading system messages, and how many there are. *)
Fixpoint leading_system (ms : list Message) : nat :=
  match ms with
  | m :: ms => if bool_decide (role m = RSystem) then S (leading_system ms) else 0
  | [] => 0
  end.

Definition preamble_end (ms : list Message) : nat :=
  let i := leading_system ms in
  match ms !! i with
  | Some m => if bool_decide (role m = RUser) then S i else i
  | None => i
  end.

(** [rounds.last_mut().unwrap().push(msg)] *)
Definition push_last (rounds : list (list Message)) (msg : Message) : list (list Message) :=
  match last rounds with
  | Some r => removelast rounds ++ [r ++ [msg]]
  | None => rounds
  end.

Definition group_step (rounds : list (list Message)) (msg : Message) : list (list Message) :=
  if bool_decide (role msg = RAssistant) || bool_decide (rounds = []) then rounds ++ [[msg]]
  else push_last rounds msg.
Definition group_rounds (tail : list Message) : list (list Message) := foldl group_step [] tail.

Section compact.
Context `{TokenCounter K}.

Definition total (counter : K) (tools_overhead : nat) (ms : list Message) : nat :=
  tools_overhead + list_sum_of (count_message counter) ms.

(** The loop that drops rounds from the front. *)
Fixpoint drop_rounds (counter : K) (tools_overhead max : nat) (preamble : list Message)
    (rounds : list (list Message)) : list (list Message) :=
  match rounds with
  | [] => []
  | _ :: rest =>
    if Nat.leb (total counter tools_overhead (preamble ++ concat rounds)) max then rounds
    else drop_rounds counter tools_overhead max preamble rest
  end.

Definition compact (messages : list Message) (tools_overhead : nat) (policy : ContextPolicy) (counter : K)
    : Compacted :=
  if Nat.leb (total counter tools_overhead messages) (max_prompt_tokens policy) then
    {| c_messages := messages; dropped_messages := 0; tokens_after := total counter tools_overhead messages |}
  else
    let n := preamble_end messages in
    let preamble := take n messages in
    let rounds := group_rounds (drop n messages) in
    let rounds := drop_rounds counter tools_overhead (max_prompt_tokens policy) preamble rounds in
    let out := preamble ++ concat rounds in
    {| c_messages := out; dropped_messages := length messages - length out;
       tokens_after := total counter tools_overhead out |}.
End compact.

(** ** Histories of the agent loop *)

(** What is always kept: system messages, then the user's turn. *)
Definition is_preamble (pre : list Message) : Prop := ∃ sys u,
  pre = sys ++ [u] ∧ Forall (λ m, role m = RSystem) sys ∧ role u = RUser.

(** A tool round: an assistant message with calls and, in order, their results. *)
Definition tool_round (r : list Message) : Prop := ∃ a results,
  r = a :: results ∧ role a = RAssistant ∧ tool_calls a ≠ [] ∧
  Forall2 (λ call m, role m = RTool ∧ tool_call_id m = Some (tc_id call)) (tool_calls a) results.

Lemma preamble_end_app pre rest : is_preamble pre → preamble_end (pre ++ rest) = length pre.
Proof.
  intros (sys & u & -> & Hsys & Hu).
  assert (leading_system ((sys ++ [u]) ++ rest) = length sys) as Hl.
  { induction Hsys as [|m sys Hm Hsys IH]; cbn.
    - by rewrite Hu.
    - rewrite bool_decide_eq_true_2 by done. by f_equal. }
  unfold preamble_end. rewrite Hl, <-app_assoc. rewrite lookup_app_r by lia.
  rewrite Nat.sub_diag. cbn. rewrite bool_decide_eq_true_2 by done. rewrite length_app. cbn. lia.
Qed.

Lemma push_last_app rounds r msg : push_last (rounds ++ [r]) msg = rounds ++ [r ++ [msg]].
Proof. unfold push_last. rewrite last_snoc. by rewrite removelast_last. Qed.

Lemma group_results rounds r results : Forall (λ m, role m = RTool) results →
  foldl group_step (rounds ++ [r]) results = rounds ++ [r ++ results].
Proof.
  revert r. induction results as [|m results IH]; intros r Hres; [by rewrite app_nil_r|].
  inversion_clear Hres as [|? ? Hm Hrest]. cbn [foldl]. unfold group_step at 2.
  rewrite Hm. cbn [bool_decide decide]. rewrite (bool_decide_eq_false_2 (rounds ++ [r] = [])).
  2: { by destruct rounds. }
  rewrite bool_decide_eq_false_2 by done. cbn [orb]. rewrite push_last_app, IH by done.
  by rewrite <-app_assoc.
Qed.

Lemma tool_round_results a results : tool_round (a :: results) →
  role a = RAssistant ∧ Forall (λ m, role m = RTool) results.
Proof.
  intros (a' & results' & [= -> ->] & Ha & _ & Hres). split; [done|].
  induction Hres as [|? ? ? ? [Hm _] _ IH]; by constructor.
Qed.

(** Grouping finds the rounds of a history again. *)
Lemma group_rounds_of rounds : Forall tool_round rounds → group_rounds (concat rounds) = rounds.
Proof.
  unfold group_rounds. intros Hr. change rounds with ([] ++ rounds) at 2.
  generalize ([] : list (list Message)) as done. induction Hr as [|r rounds Hr Hrs IH]; intros acc.
  - by rewrite app_nil_r.
  - assert (∃ a results, r = a :: results) as (a & results & ->) by (destruct Hr as (? & ? & -> & _); eauto).
    apply tool_round_results in Hr as [Ha Hres]. cbn [concat]. rewrite foldl_app. cbn [foldl].
    unfold group_step at 3. rewrite bool_decide_eq_true_2 by done. cbn [orb].
    rewrite group_results by done. rewrite IH. by rewrite <-app_assoc.
Qed.

(** Grouping loses nothing, whatever the history. *)
Lemma concat_group_rounds tail : concat (group_rounds tail) = tail.
Proof.
  assert (∀ acc, concat (foldl group_step acc tail) = concat acc ++ tail) as Hg; [|by apply (Hg [])].
  induction tail as [|m tail IH]; intros acc; [by rewrite app_nil_r|]. cbn [foldl]. rewrite IH.
  unfold group_step. destruct (_ || _) eqn:E.
  - rewrite concat_app. cbn. by rewrite <-app_assoc.
  - apply orb_false_elim in E as [_ Hne]. apply bool_decide_eq_false in Hne.
    destruct acc as [|r acc] using rev_ind; [done|]. rewrite push_last_app, !concat_app. cbn.
    rewrite !app_nil_r, <-!app_assoc. done.
Qed.

Section correct.
Context `{TokenCounter K} (counter : K) (overhead : nat) (policy : ContextPolicy).
Notation fits ms := (total counter overhead ms ≤ max_prompt_tokens policy)%nat.

Lemma drop_rounds_spec pre rounds : ∃ k,
  drop_rounds counter overhead (max_prompt_tokens policy) pre rounds = drop k rounds ∧
  (k ≤ length rounds)%nat ∧ (fits (pre ++ concat (drop k rounds)) ∨ k = length rounds) ∧
  ∀ j, (j < k)%nat → ¬ fits (pre ++ concat (drop j rounds)).
Proof.
  induction rounds as [|r rounds (k & Hk & Hle & Hf & Hmin)].
  - exists 0%nat. split_and!; try done; [by right|lia].
  - cbn [drop_rounds]. destruct (Nat.leb_spec (total counter overhead (pre ++ concat (r :: rounds))) (max_prompt_tokens policy)).
    + exists 0%nat. split_and!; [done|lia|by left|lia].
    + exists (S k). cbn [drop length]. split_and!; [done|lia|destruct Hf; auto with lia|].
      intros [|j] Hj; cbn [drop]; [lia|]. apply Hmin. lia.
Qed.

Lemma total_app a b : total counter overhead (a ++ b) =
  (total counter overhead a + list_sum_of (count_message counter) b)%nat.
Proof. unfold total, list_sum_of. rewrite sum_list_with_app. lia. Qed.

(** Compacting a history of the agent loop drops the least number of its oldest
    rounds that makes the prompt fit, and nothing else. *)
Lemma compact_rounds pre rounds : is_preamble pre → Forall tool_round rounds → ∃ k,
  (k ≤ length rounds)%nat ∧
  c_messages (compact (pre ++ concat rounds) overhead policy counter) = pre ++ concat (drop k rounds) ∧
  dropped_messages (compact (pre ++ concat rounds) overhead policy counter) = length (concat (take k rounds)) ∧
  tokens_after (compact (pre ++ concat rounds) overhead policy counter) =
    total counter overhead (pre ++ concat (drop k rounds)) ∧
  (fits (pre ++ concat (drop k rounds)) ∨ k = length rounds) ∧
  ∀ j, (j < k)%nat → ¬ fits (pre ++ concat (drop j rounds)).
Proof.
  intros Hpre Hr. unfold compact.
  destruct (Nat.leb_spec (total counter overhead (pre ++ concat rounds)) (max_prompt_tokens policy)) as [Hfit|Hover].
  { exists 0%nat. cbn. split_and!; try done; [lia|by left|lia]. }
  rewrite preamble_end_app, take_app_length, drop_app_length, group_rounds_of by done.
  destruct (drop_rounds_spec pre rounds) as (k & -> & Hle & Hf & Hmin). exists k. cbn. split_and!; try done.
  rewrite <-(take_drop k rounds) at 1. rewrite concat_app, !length_app. lia.
Qed.
End correct.

(** ** Properties *)

(** The context budget is kept by forgetting the oldest rounds.  For the
    history of an agent run (system messages, the user's turn, tool rounds) and
    any token counter: compaction keeps the system messages and the user's turn,
    drops the least number of whole rounds, the oldest first, for which the
    prompt fits, drops all of them only when nothing less fits, and reports what
    it dropped and the size of what is left. *)
Theorem compact_forgets_oldest_rounds `{TokenCounter K} (counter : K) overhead policy pre rounds :
  is_preamble pre → Forall tool_round rounds →
  let fits ms := (total counter overhead ms ≤ max_prompt_tokens policy)%nat in
  let r := compact (pre ++ concat rounds) overhead policy counter in
  ∃ k, (k ≤ length rounds)%nat ∧ c_messages r = pre ++ concat (drop k rounds) ∧
    dropped_messages r = length (concat (take k rounds)) ∧
    tokens_after r = total counter overhead (c_messages r) ∧
    (fits (c_messages r) ∨ k = length rounds) ∧
    ∀ j, (j < k)%nat → ¬ fits (pre ++ concat (drop j rounds)).
Proof.
  intros Hpre Hr fits r. destruct (compact_rounds counter overhead policy pre rounds Hpre Hr)
    as (k & Hk & Hm & Hd & Ht & Hf & Hmin). subst r. exists k. rewrite Hm. auto 10.
Qed.

(** ** A concrete history *)

Definition unicode_example : Unicode := {|
  is_alphanumeric := char_sat is_ascii_alphanumeric; to_lowercase := to_ascii_lowercase |}.
#[local] Existing Instance unicode_example.

Definition call_example (id : string) : Message := {|
  role := RAssistant; content := None; parts := [];
  tool_calls := [{| tc_id := id; tc_name := "search"; tc_arguments := "{}" |}];
  tool_call_id := None; m_name := None |}.
Definition round_example (id : string) : list Message :=
  [call_example id; tool_result id "search" "the result of the search"].

Lemma tool_round_example id : tool_round (round_example id).
Proof.
  eexists _, _. split_and!; [done..|]. constructor; [by split|constructor].
Qed.

Definition preamble_example : list Message := [system "You are careful."; user "Tell me more."].
Lemma is_preamble_example : is_preamble preamble_example.
Proof. exists [system "You are careful."], (user "Tell me more."). split_and!; try done. by repeat constructor. Qed.

(** Two of three rounds are dropped to stay within 45 tokens. *)
Lemma compact_forgets_oldest_rounds_witness :
  let rounds := map round_example ["a"; "b"; "c"] in
  let policy := {| max_prompt_tokens := 45; strategy := DropOldest |} in
  let r := compact (preamble_example ++ concat rounds) 0 policy Heuristic in
  c_messages r = preamble_example ++ round_example "c" ∧ dropped_messages r = 4%nat ∧
  ∃ k, c_messages r = preamble_example ++ concat (drop k rounds).
Proof.
  intros rounds policy r. split; [by vm_compute|]. split; [by vm_compute|].
  destruct (compact_forgets_oldest_rounds Heuristic 0 policy preamble_example rounds is_preamble_example)
    as (k & _ & Hk & _); [|by exists k].
  repeat constructor; apply tool_round_example.
Defined.
