(* ===== verification/GuardrailInv.v ===== *)
(** * What the guardrails guarantee

    The redactor leaves nothing it would redact: no address, no long number.
    The set of guardrails fails closed, and the moderator never allows content
    without a verdict that says so. *)
From stdpp Require Import base tactics list numbers strings.
From Stdlib Require Import Lia Ascii.
From S2P Require Import Prelude.
From S2P Require Import RustStr.
From S2P Require Import Common.
From S2P Require Import Effect.
From S2P Require Import JsonValue.
From S2P Require Import Resilience.
From S2P Require Import Chat.
From S2P Require Import Gateway.
From S2P Require Import Guardrail.

(** ** Classes of characters *)

Lemma char_sat_apart f g c : (∀ a, f a = true → g a = false) → char_sat f c = true → char_sat g c = false.
Proof. intros Hfg. destruct c as [|a []]; cbn; auto. Qed.

Lemma digit_not_char x c : is_ascii_digit x = false → is_digit c = true → is_char x c = false.
Proof.
  intros Hx. apply char_sat_apart. intros a Ha. destruct (Ascii.eqb_spec x a) as [->|]; [congruence|done].
Qed.
Lemma char_not_char x y c : x ≠ y → is_char x c = true → is_char y c = false.
Proof.
  intros Hxy. apply char_sat_apart. intros a ->%Ascii.eqb_eq. by apply Ascii.eqb_neq.
Qed.
Lemma is_char_eq x c : is_char x c = true → c = String x "".
Proof. destruct c as [|a []]; cbn; try done. by intros ->%Ascii.eqb_eq. Qed.
Lemma digit_not_space c : is_digit c = true → char_is_whitespace c = false.
Proof.
  destruct c as [|a []]; try done. cbn. unfold is_ascii_digit, ws1, byte_in.
  intros [H1%N.leb_le H2%N.leb_le]%andb_prop. apply orb_false_intro; [|apply N.eqb_neq; lia].
  apply andb_false_intro2. apply N.leb_gt. lia.
Qed.

(** The characters of a number: digits and dashes. *)
Definition run_char (c : char) : bool := is_digit c || is_char "-" c.
(** A test that no character of a number or of its replacement passes. *)
Definition outside (f : char → bool) : Prop :=
  (∀ c, run_char c = true → f c = false) ∧ existsb f (chars "[redacted-number]") = false.
Lemma outside_at : outside (is_char "@").
Proof.
  split; [|done]. intros c [Hc|Hc]%orb_true_iff; [by apply digit_not_char|by apply (char_not_char "-"%char)].
Qed.
Lemma outside_dot : outside (is_char ".").
Proof.
  split; [|done]. intros c [Hc|Hc]%orb_true_iff; [by apply digit_not_char|by apply (char_not_char "-"%char)].
Qed.
Lemma outside_punctuation : outside closing_punctuation.
Proof.
  split; [|done]. intros c Hc. unfold closing_punctuation. apply not_true_iff_false. intros Hp.
  apply existsb_exists in Hp as (a & Ha & Hac). apply is_char_eq in Hac as ->.
  repeat destruct Ha as [<-|Ha]; done.
Qed.
Lemma outside_space : outside char_is_whitespace.
Proof.
  split; [|done]. intros c [Hc|Hc]%orb_true_iff; [by apply digit_not_space|]. by apply is_char_eq in Hc as ->.
Qed.

(** ** One pass over a token *)

Definition flushed (run : list char) : list char := (flush_run [] run false).1.
Definition keeps_run (c : char) (run : list char) : bool := is_digit c || (is_char "-" c && negb (bool_decide (run = []))).

(** The output of the loop, without its accumulator. *)
Fixpoint redacted (run token : list char) : list char :=
  match token with
  | [] => flushed run
  | c :: token => if keeps_run c run then redacted (run ++ [c]) token else flushed run ++ c :: redacted [] token
  end.

Lemma flush_run_app out run changed :
  ∃ b, flush_run out run changed = (out ++ flushed run, changed || b) ∧
    (b = true ↔ run ≠ [] ∧ (MIN_DIGIT_RUN ≤ length (List.filter is_digit run))%nat).
Proof.
  unfold flushed, flush_run. destruct run as [|c run].
  - exists false. rewrite app_nil_r, orb_false_r. split; [done|]. split; [done|]. by intros [? _].
  - destruct (Nat.leb_spec MIN_DIGIT_RUN (length (List.filter is_digit (c :: run)))).
    + exists true. rewrite orb_true_r. by split.
    + exists false. rewrite orb_false_r. split; [done|]. split; [done|]. intros [_ ?]. lia.
Qed.

Lemma digit_runs_redacted token : ∀ out run changed, ∃ b,
  digit_runs token out run changed = (out ++ redacted run token, changed || b).
Proof.
  induction token as [|c token IH]; intros out run changed; cbn [digit_runs redacted].
  - destruct (flush_run_app out run changed) as (b & -> & _). by exists b.
  - unfold keeps_run. destruct (is_digit c || _); [by apply IH|].
    destruct (flush_run_app out run changed) as (b & -> & _).
    destruct (IH ((out ++ flushed run) ++ [c]) [] (changed || b)) as (b' & ->). exists (b || b').
    by rewrite <-!app_assoc, orb_assoc.
Qed.

Lemma small_run run : (length (List.filter is_digit run) < MIN_DIGIT_RUN)%nat → flushed run = run.
Proof.
  intros Hs. unfold flushed, flush_run. destruct run as [|c run]; [done|].
  destruct (Nat.leb_spec MIN_DIGIT_RUN (length (List.filter is_digit (c :: run)))); [lia|done].
Qed.
Lemma digit_runs_mono token out run : (digit_runs token out run true).2 = true.
Proof. destruct (digit_runs_redacted token out run true) as (b & ->). done. Qed.

(** Without a change reported the output is the input. *)
Lemma digit_runs_unchanged token : ∀ out run o,
  digit_runs token out run false = (o, false) → o = out ++ run ++ token.
Proof.
  induction token as [|c token IH]; intros out run o; cbn [digit_runs].
  - destruct (flush_run_app out run false) as (b & -> & Hb). intros [= <- ->]. rewrite app_nil_r. f_equal.
    apply small_run. destruct run as [|c run]; [cbn; unfold MIN_DIGIT_RUN; lia|].
    apply Nat.nle_gt. intros Hl. by destruct Hb as [_ Hb]; discriminate Hb.
  - destruct (_ || _); [by intros ->%IH; rewrite <-!app_assoc|].
    destruct (flush_run_app out run false) as (b & -> & Hb). destruct b; cbn [orb].
    { intros Hd. pose proof (digit_runs_mono token ((out ++ flushed run) ++ [c]) []) as Hm. by rewrite Hd in Hm. }
    intros ->%IH. rewrite small_run; [by rewrite <-!app_assoc|].
    destruct run as [|d run]; [cbn; unfold MIN_DIGIT_RUN; lia|].
    apply Nat.nle_gt. intros Hl. by destruct Hb as [_ Hb]; discriminate Hb.
Qed.

(** A number under way. *)
Definition number (run : list char) : Prop :=
  Forall (λ c, run_char c = true) run ∧ match run with c :: _ => is_digit c = true | [] => True end.

Lemma number_nil : number [].
Proof. done. Qed.
#[local] Hint Resolve number_nil outside_at outside_dot outside_punctuation outside_space : core.

Lemma number_snoc run c : number run → keeps_run c run = true → number (run ++ [c]).
Proof.
  intros [Hall Hhd] Hk. unfold keeps_run in Hk. split.
  - apply Forall_app. split; [done|]. constructor; [|done]. unfold run_char.
    apply orb_true_iff in Hk as [->|[-> _]%andb_prop]; [done|]. apply orb_true_r.
  - destruct run; [|done]. cbn in *. by rewrite andb_false_r, orb_false_r in Hk.
Qed.

Lemma digit_runs_number r0 r token out changed : number (r0 ++ r) →
  digit_runs (r ++ token) out r0 changed = digit_runs token out (r0 ++ r) changed.
Proof.
  revert r0. induction r as [|c r IH]; intros r0 Hn; [by rewrite app_nil_r|].
  cbn [app digit_runs]. assert (keeps_run c r0 = true) as Hk.
  { destruct Hn as [Hall Hhd]. apply Forall_app in Hall as [_ Hall]. inversion_clear Hall as [|? ? Hc _].
    unfold keeps_run, run_char in *. destruct (is_digit c) eqn:Hd; [done|]. cbn in Hc |- *. rewrite Hc. cbn.
    destruct r0; [|by rewrite bool_decide_eq_false_2]. cbn in Hhd. congruence. }
  unfold keeps_run in Hk. rewrite Hk, IH; by rewrite <-app_assoc.
Qed.

Lemma flush_small out run changed : (length (List.filter is_digit run) < MIN_DIGIT_RUN)%nat →
  flush_run out run changed = (out ++ run, changed).
Proof.
  intros Hs. unfold flush_run. destruct run as [|c run]; [by rewrite app_nil_r|].
  destruct (Nat.leb_spec MIN_DIGIT_RUN (length (List.filter is_digit (c :: run)))); [lia|done].
Qed.
(** The loop passes over what holds no digit. *)
Lemma digit_runs_plain l token out changed : forallb (λ c, negb (is_digit c)) l = true →
  digit_runs (l ++ token) out [] changed = digit_runs token (out ++ l) [] changed.
Proof.
  revert out. induction l as [|c l IH]; intros out Hl; [by rewrite app_nil_r|].
  cbn in Hl. apply andb_prop in Hl as [Hc%negb_true_iff Hl]. cbn [app digit_runs]. rewrite Hc. cbn.
  rewrite andb_false_r, IH by done. by rewrite <-app_assoc.
Qed.

Definition replacement (b : bool) : list char := chars "[redacted-number]" ++ (if b then chars "-" else []).
Lemma replacement_plain b : forallb (λ c, negb (is_digit c)) (replacement b) = true.
Proof. by destruct b; vm_compute. Qed.

Lemma large_run run : (MIN_DIGIT_RUN ≤ length (List.filter is_digit run))%nat → ∃ b : bool,
  run ≠ [] ∧ flushed run = replacement b.
Proof.
  intros Hl. unfold flushed, flush_run. destruct run as [|c run]; [cbn in Hl; unfold MIN_DIGIT_RUN in Hl; lia|].
  rewrite (proj2 (Nat.leb_le _ _) Hl). eauto.
Qed.

(** What was redacted is left alone. *)
Lemma digit_runs_again token : ∀ run out changed, number run →
  digit_runs (redacted run token) out [] changed = (out ++ redacted run token, changed).
Proof.
  induction token as [|c token IH]; intros run out changed Hn; cbn [redacted].
  - destruct (decide (MIN_DIGIT_RUN ≤ length (List.filter is_digit run))%nat) as [Hl|Hs].
    + destruct (large_run run Hl) as (b & _ & ->). rewrite <-(app_nil_r (replacement b)) at 1.
      by rewrite digit_runs_plain by apply replacement_plain.
    + rewrite small_run by lia. rewrite <-(app_nil_r run) at 1. rewrite digit_runs_number by done. cbn [app].
      cbn [digit_runs]. apply flush_small. lia.
  - destruct (keeps_run c run) eqn:Hk; [by apply IH, number_snoc|].
    destruct (decide (MIN_DIGIT_RUN ≤ length (List.filter is_digit run))%nat) as [Hl|Hs].
    + destruct (large_run run Hl) as (b & Hne & ->). unfold keeps_run in Hk.
      apply orb_false_elim in Hk as [Hd Hdash]. rewrite bool_decide_eq_false_2 in Hdash by done.
      cbn in Hdash. rewrite andb_true_r in Hdash. rewrite digit_runs_plain by apply replacement_plain.
      cbn [digit_runs]. rewrite Hd, Hdash. cbn [orb andb flush_run]. 
      rewrite IH by (by split). by rewrite <-!app_assoc.
    + rewrite small_run by lia. rewrite digit_runs_number by done. cbn [app digit_runs].
      unfold keeps_run in Hk. rewrite Hk, flush_small by lia.
      rewrite IH by (by split). by rewrite <-!app_assoc.
Qed.

(** ** What redaction does not change about a token *)

Definition head_sat (f : char → bool) (l : list char) : bool :=
  match l with c :: _ => f c | [] => false end.
Definition last_sat (f : char → bool) (l : list char) : bool :=
  match last l with Some c => f c | None => false end.

Lemma last_sat_snoc f l c : last_sat f (l ++ [c]) = f c.
Proof. unfold last_sat. by rewrite last_snoc. Qed.
Lemma last_sat_cons f c l : last_sat f (c :: l) = if bool_decide (l = []) then f c else last_sat f l.
Proof.
  destruct l as [|d l] using rev_ind; [done|]. rewrite bool_decide_eq_false_2 by by destruct l.
  rewrite app_comm_cons. by rewrite !last_sat_snoc.
Qed.
Lemma last_sat_app f l l' : l' ≠ [] → last_sat f (l ++ l') = last_sat f l'.
Proof. destruct l' as [|c l'] using rev_ind; [done|]. intros _. by rewrite app_assoc, !last_sat_snoc. Qed.
Lemma last_sat_none f l : existsb f l = false → last_sat f l = false.
Proof.
  destruct l as [|c l] using rev_ind; [done|]. rewrite existsb_app, last_sat_snoc. cbn.
  rewrite orb_false_r. by intros [_ ?]%orb_false_elim.
Qed.
Lemma forallb_Forall {A} (f : A → bool) l : forallb f l = true ↔ Forall (λ x, f x = true) l.
Proof. rewrite forallb_forall, List.Forall_forall. done. Qed.

Section outside.
Context (f : char → bool) (Hf : outside f).

Lemma number_none run : number run → existsb f run = false.
Proof.
  intros [Hall _]. induction Hall as [|c run Hc _ IH]; [done|]. cbn. by rewrite (proj1 Hf c Hc), IH.
Qed.
Lemma flushed_none run : number run → existsb f (flushed run) = false.
Proof.
  intros Hn. destruct (decide (MIN_DIGIT_RUN ≤ length (List.filter is_digit run))%nat) as [Hl|Hs].
  - destruct (large_run run Hl) as (b & _ & ->). unfold replacement. rewrite existsb_app, (proj2 Hf).
    destruct b; [|done]. cbn. by rewrite (proj1 Hf "-").
  - rewrite small_run by lia. by apply number_none.
Qed.
Lemma keeps_run_none c run : keeps_run c run = true → f c = false.
Proof.
  unfold keeps_run. intros Hk. apply (proj1 Hf). unfold run_char.
  apply orb_true_iff in Hk as [->|[-> _]%andb_prop]; [done|apply orb_true_r].
Qed.

Lemma redacted_existsb token : ∀ run, number run → existsb f (redacted run token) = existsb f token.
Proof.
  induction token as [|c token IH]; intros run Hn; cbn [redacted]; [by apply flushed_none|].
  destruct (keeps_run c run) eqn:Hk.
  - rewrite IH by by apply number_snoc. cbn. by rewrite (keeps_run_none c run).
  - rewrite existsb_app, flushed_none by done. cbn. by rewrite IH.
Qed.

Lemma flushed_nil run : flushed run = [] ↔ run = [].
Proof.
  destruct (decide (MIN_DIGIT_RUN ≤ length (List.filter is_digit run))%nat) as [Hl|Hs].
  - destruct (large_run run Hl) as (b & Hne & ->). by destruct b.
  - by rewrite small_run by lia.
Qed.
Lemma redacted_nil token : ∀ run, redacted run token = [] ↔ run = [] ∧ token = [].
Proof.
  induction token as [|c token IH]; intros run; cbn [redacted]; [rewrite flushed_nil; naive_solver|].
  destruct (keeps_run c run); [rewrite IH|]; split; intros Hx; try naive_solver;
    [destruct Hx as [Hx _]; by destruct run|by destruct (flushed run)].
Qed.

Lemma redacted_last token : ∀ run, number run → last_sat f (redacted run token) = last_sat f token.
Proof.
  induction token as [|c token IH]; intros run Hn; cbn [redacted].
  - by rewrite last_sat_none by by apply flushed_none.
  - rewrite last_sat_cons. destruct (keeps_run c run) eqn:Hk.
    + rewrite IH by by apply number_snoc. destruct (decide (token = [])) as [->|Hne].
      * rewrite bool_decide_eq_true_2 by done. by rewrite (keeps_run_none c run).
      * by rewrite bool_decide_eq_false_2.
    + rewrite last_sat_app by done. rewrite last_sat_cons, IH by done.
      destruct (decide (token = [])) as [->|Hne]; [done|].
      rewrite !bool_decide_eq_false_2; [done|done|]. intros [_ ?]%redacted_nil. done.
Qed.

Lemma head_sat_app l l' : l ≠ [] → head_sat f (l ++ l') = head_sat f l.
Proof. by destruct l. Qed.
Lemma head_sat_none l : existsb f l = false → head_sat f l = false.
Proof. destruct l as [|c l]; [done|]. by intros [? _]%orb_false_elim. Qed.

Lemma redacted_head_number token : ∀ run, number run → run ≠ [] → head_sat f (redacted run token) = false.
Proof.
  induction token as [|c token IH]; intros run Hn Hne; cbn [redacted].
  - by apply head_sat_none, flushed_none.
  - destruct (keeps_run c run) eqn:Hk; [apply IH; [by apply number_snoc|by destruct run]|].
    rewrite head_sat_app by by rewrite flushed_nil. by apply head_sat_none, flushed_none.
Qed.
Lemma redacted_head token : head_sat f (redacted [] token) = head_sat f token.
Proof.
  destruct token as [|c token]; [done|]. cbn [redacted]. destruct (keeps_run c []) eqn:Hk; [|done].
  cbn [app head_sat]. rewrite (keeps_run_none c []) by done.
  by apply redacted_head_number; [apply (number_snoc [] c)|].
Qed.

(** What precedes and what follows the first character that passes the test. *)
Notation fails := (λ c, negb (f c)).
Lemma none_fails l : existsb f l = false → forallb fails l = true.
Proof. induction l as [|c l IH]; [done|]. cbn. by intros [-> ?]%orb_false_elim; auto. Qed.

Lemma redacted_before token : ∀ run, number run →
  take_while fails (redacted run token) = redacted run (take_while fails token) ∧
  drop_while fails (redacted run token) =
    match drop_while fails token with c :: rest => c :: redacted [] rest | [] => [] end.
Proof.
  induction token as [|c token IH]; intros run Hn; cbn [redacted take_while drop_while].
  - destruct (take_while_app fails (flushed run) []) as [Ht Hd]; [by apply none_fails, flushed_none|done|].
    by rewrite app_nil_r in Ht, Hd.
  - destruct (keeps_run c run) eqn:Hk.
    + rewrite (keeps_run_none c run) by done. cbn [negb redacted]. rewrite Hk. by apply IH, number_snoc.
    + destruct (f c) eqn:Hc; cbn [negb].
      * apply take_while_app; [by apply none_fails, flushed_none|]. by rewrite Hc.
      * cbn [redacted]. rewrite Hk. destruct (IH []) as [Ht Hd]; [done|].
        assert (∀ l, forallb fails l = true → ∀ l', take_while fails (l ++ l') = l ++ take_while fails l' ∧
          drop_while fails (l ++ l') = drop_while fails l') as Hpass.
        { intros l Hl l'. induction l as [|x l IHl]; [done|]. cbn in Hl |- *.
          apply andb_prop in Hl as [-> Hl]. destruct (IHl Hl) as [-> ->]. done. }
        destruct (Hpass (flushed run)) with (l' := c :: redacted [] token) as [-> ->];
          [by apply none_fails, flushed_none|]. cbn [take_while drop_while]. rewrite Hc. cbn [negb].
        by rewrite Ht, Hd.
Qed.

(** Characters outside of numbers at the end stay as they are. *)
Lemma redacted_app_outside core p : forallb f p = true → ∀ run, number run →
  redacted run (core ++ p) = redacted run core ++ p.
Proof.
  intros Hp. induction core as [|c core IH]; intros run Hn; cbn [app redacted].
  - destruct p as [|x p]; [by rewrite app_nil_r|]. cbn [redacted].
    assert (∀ p, forallb f p = true → redacted [] p = p) as Hid.
    { clear -Hf. induction p as [|x p IH]; [done|]. intros [Hx Hp]%andb_prop. cbn [redacted].
      destruct (keeps_run x []) eqn:Hk; [by rewrite (keeps_run_none x []) in Hx|]. cbn. by rewrite IH. }
    cbn in Hp. apply andb_prop in Hp as [Hx Hp].
    destruct (keeps_run x run) eqn:Hk; [by rewrite (keeps_run_none x run) in Hx|]. by rewrite Hid.
  - destruct (keeps_run c run) eqn:Hk; [by apply IH, number_snoc|]. rewrite IH by done. by rewrite <-app_assoc.
Qed.
End outside.

(** ** The e-mail test is not fooled by redaction *)

Lemma trim_punctuation_app core p : forallb closing_punctuation p = true →
  last_sat closing_punctuation core = false → trim_punctuation (core ++ p) = core.
Proof.
  intros Hp Hc. unfold trim_punctuation. rewrite List.rev_app_distr.
  destruct (take_while_app closing_punctuation (rev p) (rev core)) as [_ ->].
  - rewrite forallb_Forall in Hp |- *. by apply List.Forall_rev.
  - destruct core as [|c core] using rev_ind; [done|]. rewrite List.rev_app_distr. cbn.
    by rewrite last_sat_snoc in Hc.
  - apply List.rev_involutive.
Qed.
Lemma trim_punctuation_spec token : ∃ p, token = trim_punctuation token ++ p ∧
  forallb closing_punctuation p = true ∧ last_sat closing_punctuation (trim_punctuation token) = false.
Proof.
  exists (rev (take_while closing_punctuation (rev token))). unfold trim_punctuation. split_and!.
  - rewrite <-List.rev_app_distr, take_drop_while. by rewrite List.rev_involutive.
  - apply forallb_Forall, List.Forall_rev, forallb_Forall, take_while_all.
  - destruct (drop_while closing_punctuation (rev token)) as [|c l] eqn:E; [done|].
    cbn [rev]. rewrite last_sat_snoc. by apply drop_while_head in E.
Qed.

Lemma redacted_email s : looks_like_email (redacted [] s) = looks_like_email s.
Proof.
  unfold looks_like_email. assert (number []) as H0 by done.
  destruct (redacted_before (is_char "@") outside_at s [] H0) as [-> ->].
  destruct (drop_while _ s) as [|c domain]; [done|].
  rewrite (bool_decide_ext (redacted [] _ = []) (take_while (λ c, negb (is_char "@" c)) s = [])).
  2: { rewrite redacted_nil. naive_solver. }
  rewrite (bool_decide_ext (redacted [] domain = []) (domain = [])).
  2: { rewrite redacted_nil. naive_solver. }
  rewrite !redacted_existsb by auto.
  change (match redacted [] domain with c :: _ => is_char "." c | [] => false end)
    with (head_sat (is_char ".") (redacted [] domain)).
  change (match last (redacted [] domain) with Some c => is_char "." c | None => false end)
    with (last_sat (is_char ".") (redacted [] domain)).
  rewrite redacted_head, redacted_last by auto. done.
Qed.

(** Redacting a token once is enough, and leaves a text a text. *)
Lemma email_replaced p : forallb closing_punctuation p = true →
  redact_token (chars "[redacted-email]" ++ p) = (chars "[redacted-email]" ++ p, false).
Proof.
  intros Hp. unfold redact_token. rewrite forallb_app, (trim_punctuation_app (chars "[redacted-email]") p Hp eq_refl).
  change (forallb char_is_whitespace (chars "[redacted-email]")) with false.
  change (looks_like_email (chars "[redacted-email]")) with false. cbn [andb].
  unfold redact_digit_runs. rewrite <-(app_nil_r (_ ++ p)) at 1. rewrite digit_runs_plain; [done|].
  rewrite forallb_app. apply andb_true_intro. split; [by vm_compute|].
  apply forallb_Forall. rewrite forallb_Forall in Hp. eapply Forall_impl; [exact Hp|].
  intros c Hc. apply negb_true_iff, not_true_iff_false. intros Hd.
  cbv beta in Hc. rewrite (proj1 outside_punctuation c) in Hc; [done|]. unfold run_char. by rewrite Hd.
Qed.

Definition spaceless (token : list char) : bool := negb (existsb char_is_whitespace token).
Lemma spaceless_visible token : token ≠ [] → spaceless token = true → forallb char_is_whitespace token = false.
Proof.
  destruct token as [|c token]; [done|]. intros _. unfold spaceless. cbn. by destruct (char_is_whitespace c).
Qed.

Lemma redact_token_again token t b : token ≠ [] → spaceless token = true → redact_token token = (t, b) →
  t ≠ [] ∧ spaceless t = true ∧ redact_token t = (t, false) ∧ (b = false → t = token).
Proof.
  intros Hne Hsp Hr. unfold redact_token in Hr. rewrite spaceless_visible in Hr by done.
  destruct (trim_punctuation_spec token) as (p & Htok & Hp & Hcore).
  destruct (looks_like_email (trim_punctuation token)) eqn:Hmail.
  - rewrite Htok in Hr at 2. rewrite drop_app_length in Hr. apply pair_equal_spec in Hr as [<- <-].
    split_and!; [done| |by apply email_replaced|done].
    unfold spaceless in Hsp |- *. rewrite Htok, existsb_app in Hsp. rewrite existsb_app.
    apply negb_true_iff in Hsp. apply orb_false_elim in Hsp as [_ ->]. done.
  - unfold redact_digit_runs in Hr. pose proof (digit_runs_redacted token [] [] false) as (b' & Hd).
    rewrite Hd in Hr. injection Hr as <- <-. cbn [app] in *.
    assert (redacted [] token ≠ []) as Hne' by by intros [_ ?]%redacted_nil.
    assert (spaceless (redacted [] token) = true) as Hsp'.
    { unfold spaceless. by rewrite redacted_existsb by auto. }
    split_and!; [done|done| |].
    + unfold redact_token. rewrite spaceless_visible by done.
      assert (trim_punctuation (redacted [] token) = redacted [] (trim_punctuation token)) as ->.
      { rewrite Htok at 1. rewrite (redacted_app_outside _ outside_punctuation) by done.
        apply trim_punctuation_app; [done|]. by rewrite redacted_last by auto. }
      rewrite redacted_email, Hmail. unfold redact_digit_runs. by apply digit_runs_again.
    + intros ->. by apply digit_runs_unchanged in Hd.
Qed.

(** ** Tokens of a text *)

(** Non-empty tokens that alternate between spaces ([b]) and words. *)
Fixpoint tokens_ok (b : bool) (toks : list (list char)) : Prop :=
  match toks with
  | [] => True
  | t :: toks => t ≠ [] ∧ forallb (λ d, Bool.eqb (char_is_whitespace d) b) t = true ∧ tokens_ok (negb b) toks
  end.

Lemma split_runs_ok fuel rest b : (length rest ≤ fuel)%nat →
  match rest with c :: _ => char_is_whitespace c = b | [] => True end →
  concat (split_runs fuel rest) = rest ∧ tokens_ok b (split_runs fuel rest).
Proof.
  revert rest b. induction fuel as [|fuel IH]; intros rest b Hf Hb.
  { destruct rest; [done|]. cbn in Hf. lia. }
  destruct rest as [|c rest]; [done|]. cbn [split_runs]. subst b.
  set (same d := Bool.eqb (char_is_whitespace d) (char_is_whitespace c)).
  assert (same c = true) as Hc by apply eqb_reflx.
  destruct (IH (drop_while same (c :: rest)) (negb (char_is_whitespace c))) as [Hcat Hok].
  - cbn. rewrite Hc. pose proof (drop_while_length same rest). cbn in Hf. lia.
  - destruct (drop_while same (c :: rest)) as [|d l] eqn:E; [done|]. apply drop_while_head in E.
    unfold same in E. by destruct (char_is_whitespace d), (char_is_whitespace c).
  - split; [|split_and!; [|apply take_while_all|done]].
    + cbn [concat]. rewrite Hcat. apply take_drop_while.
    + cbn. by rewrite Hc.
Qed.

Lemma split_tokens s : ∃ b, tokens_ok b (split_keeping_whitespace s) ∧ concat (split_keeping_whitespace s) = s.
Proof.
  exists (match s with c :: _ => char_is_whitespace c | [] => true end).
  destruct (split_runs_ok (length s) s _ (le_n _) (match s as s return
    match s with c :: _ => char_is_whitespace c = match s with c :: _ => char_is_whitespace c | [] => true end
    | [] => True end with [] => I | c :: _ => eq_refl end)) as [Hc Hok].
  by split.
Qed.

Lemma tokens_head b t toks : tokens_ok b (t :: toks) → ∀ c rest, t = c :: rest → char_is_whitespace c = b.
Proof. intros (_ & Hall & _) c rest ->. cbn in Hall. apply andb_prop in Hall as [?%eqb_prop _]. done. Qed.

Lemma concat_head b toks : tokens_ok b toks →
  match concat toks with c :: _ => char_is_whitespace c = b | [] => True end.
Proof.
  destruct toks as [|t toks]; [done|]. intros Hok. pose proof (tokens_head b t toks Hok) as Hh.
  destruct Hok as (Hne & _). destruct t as [|c t]; [done|]. cbn. by eapply Hh.
Qed.

Lemma split_runs_concat b toks fuel : tokens_ok b toks → (length (concat toks) ≤ fuel)%nat →
  split_runs fuel (concat toks) = toks.
Proof.
  revert b fuel. induction toks as [|t toks IH]; intros b fuel Hok Hf; [by destruct fuel|].
  pose proof (tokens_head _ _ _ Hok) as Hh. destruct Hok as (Hne & Hall & Hok).
  destruct t as [|c t]; [done|]. specialize (Hh c t eq_refl).
  destruct fuel as [|fuel]; [cbn in Hf; lia|]. cbn [concat]. cbn [app split_runs].
  rewrite app_comm_cons, Hh.
  destruct (take_while_app (λ d, Bool.eqb (char_is_whitespace d) b) (c :: t) (concat toks) Hall) as [-> ->].
  - pose proof (concat_head (negb b) toks Hok) as Hc. destruct (concat toks) as [|d l]; [done|].
    rewrite Hc. by destruct b.
  - f_equal. apply (IH (negb b)); [done|]. cbn in Hf. rewrite length_app in Hf. lia.
Qed.

Lemma token_kind b t : t ≠ [] → forallb (λ d, Bool.eqb (char_is_whitespace d) b) t = true →
  if b then forallb char_is_whitespace t = true else spaceless t = true.
Proof.
  intros Hne Hall. unfold spaceless. destruct b; induction t as [|c t IH]; try done; cbn in Hall |- *;
    apply andb_prop in Hall as [Hc%eqb_prop Hall]; rewrite Hc; destruct t as [|d t]; try done; by apply IH.
Qed.
Lemma spaceless_kind t : spaceless t = true → forallb (λ d, Bool.eqb (char_is_whitespace d) false) t = true.
Proof.
  unfold spaceless. induction t as [|c t IH]; [done|]. cbn. intros Hs. apply negb_true_iff in Hs.
  apply orb_false_elim in Hs as [-> Hs]. cbn. apply IH. by rewrite Hs.
Qed.

(** Redacting the tokens keeps their order of words and spaces, and a second
    time changes none of them. *)
Lemma redact_tokens b toks : tokens_ok b toks →
  tokens_ok b (map (λ t, (redact_token t).1) toks) ∧
  Forall (λ t, redact_token t = (t, false)) (map (λ t, (redact_token t).1) toks) ∧
  (Forall (λ t, (redact_token t).2 = false) toks → map (λ t, (redact_token t).1) toks = toks).
Proof.
  revert b. induction toks as [|t toks IH]; intros b Hok; [by repeat split|].
  destruct Hok as (Hne & Hall & Hok). destruct (IH _ Hok) as (Hok' & Hagain & Hsame). clear IH.
  pose proof (token_kind b t Hne Hall) as Hkind. cbn [map tokens_ok].
  assert (∃ t' c, redact_token t = (t', c) ∧ t' ≠ [] ∧
    forallb (λ d, Bool.eqb (char_is_whitespace d) b) t' = true ∧ redact_token t' = (t', false) ∧
    (c = false → t' = t)) as (t' & c & Hrt & Hne' & Hall' & Hag & Hc).
  { destruct b.
    - exists t, false. unfold redact_token. by rewrite Hkind.
    - destruct (redact_token t) as [t' c] eqn:Hr. exists t', c.
      destruct (redact_token_again t t' c Hne Hkind Hr) as (? & ? & ? & ?).
      split_and!; try done. by apply spaceless_kind. }
  rewrite Hrt. cbn [fst]. split; [done|]. split; [by constructor|].
  intros Hf. inversion_clear Hf as [|? ? Ht Hts]. rewrite Hrt in Ht. by rewrite Hc, Hsame.
Qed.

Lemma redact_fold toks : ∀ out ch, foldl redact_step (out, ch) toks =
  (out ++ concat (map (λ t, (redact_token t).1) toks), ch || existsb (λ t, (redact_token t).2) toks).
Proof.
  induction toks as [|t toks IH]; intros out ch; cbn [foldl map concat existsb].
  - by rewrite app_nil_r, orb_false_r.
  - unfold redact_step at 2. destruct (redact_token t) as [t' c]. cbn [fst snd].
    by rewrite IH, <-app_assoc, orb_assoc.
Qed.

(** ** Every character stays one *)

Section one_char.
Context (Q : char → Prop) (HQ : Forall Q (chars "[redacted-number]-" ++ chars "[redacted-email]")).

Lemma flushed_chars run : Forall Q run → Forall Q (flushed run).
Proof.
  intros Hr. destruct (decide (MIN_DIGIT_RUN ≤ length (List.filter is_digit run))%nat) as [Hl|Hs].
  - destruct (large_run run Hl) as (b & _ & ->). apply Forall_app in HQ as [HQ' _].
    change (chars "[redacted-number]-") with (chars "[redacted-number]" ++ chars "-") in HQ'.
    apply Forall_app in HQ' as [? ?]. apply Forall_app. split; [done|]. by destruct b.
  - by rewrite small_run by lia.
Qed.
Lemma redacted_chars token : ∀ run, Forall Q run → Forall Q token → Forall Q (redacted run token).
Proof.
  induction token as [|c token IH]; intros run Hr Ht; cbn [redacted]; [by apply flushed_chars|].
  inversion_clear Ht as [|? ? Hc Ht']. destruct (keeps_run c run).
  - apply IH; [|done]. apply Forall_app. by repeat constructor.
  - apply Forall_app. split; [by apply flushed_chars|]. constructor; [done|]. by apply IH.
Qed.
Lemma redact_token_chars token : Forall Q token → Forall Q (redact_token token).1.
Proof.
  intros Ht. unfold redact_token. destruct (forallb _ token); [done|]. destruct (looks_like_email _); cbn [fst].
  - apply Forall_app in HQ as [_ HQ']. apply Forall_app. split; [done|]. by apply Forall_drop.
  - unfold redact_digit_runs. destruct (digit_runs_redacted token [] [] false) as (b & ->). by apply redacted_chars.
Qed.
End one_char.

(** ** What [redact] leaves *)

Lemma email_has_at s : looks_like_email s = true → existsb (is_char "@") s = true.
Proof.
  unfold looks_like_email. intros He. rewrite <-(take_drop_while (λ c, negb (is_char "@" c)) s), existsb_app.
  destruct (drop_while _ s) as [|c domain] eqn:Hd; [done|]. apply drop_while_head in Hd.
  apply negb_false_iff in Hd. cbn. rewrite Hd. by rewrite orb_true_r.
Qed.

Lemma digits_in_run d : ∀ token out run changed, forallb is_digit d = true →
  digit_runs (d ++ token) out run changed = digit_runs token out (run ++ d) changed.
Proof.
  induction d as [|c d IH]; intros token out run changed; [by rewrite app_nil_r|].
  intros [Hc Hd]%andb_prop. cbn [app digit_runs]. rewrite Hc. cbn [orb]. rewrite IH by done. by rewrite <-app_assoc.
Qed.

Lemma long_run_found token : ∀ out run changed,
  (MIN_DIGIT_RUN ≤ length (List.filter is_digit run))%nat → (digit_runs token out run changed).2 = true.
Proof.
  induction token as [|c token IH]; intros out run changed Hl; cbn [digit_runs].
  - destruct (flush_run_app out run changed) as (b & -> & Hb). cbn.
    rewrite (proj2 Hb); [by rewrite orb_true_r|]. split; [|done]. intros ->. cbn in Hl. unfold MIN_DIGIT_RUN in Hl. lia.
  - destruct (_ || _).
    + apply IH. rewrite List.filter_app, length_app. lia.
    + destruct (flush_run_app out run changed) as (b & -> & Hb). rewrite (proj2 Hb).
      * rewrite orb_true_r. apply digit_runs_mono.
      * split; [|done]. intros ->. cbn in Hl. unfold MIN_DIGIT_RUN in Hl. lia.
Qed.

Lemma digit_runs_prefix u : ∀ w out run changed, ∃ out' run' changed',
  digit_runs (u ++ w) out run changed = digit_runs w out' run' changed'.
Proof.
  induction u as [|c u IH]; intros w out run changed; [by eexists _, _, _|]. cbn [app digit_runs].
  destruct (_ || _); [apply IH|]. destruct (flush_run out run changed). apply IH.
Qed.

Lemma long_number_found u d v : forallb is_digit d = true → (MIN_DIGIT_RUN ≤ length d)%nat →
  (redact_digit_runs (u ++ d ++ v)).2 = true.
Proof.
  intros Hd Hl. unfold redact_digit_runs. destruct (digit_runs_prefix u (d ++ v) [] [] false) as (o & r & c & ->).
  rewrite digits_in_run by done. apply long_run_found. rewrite List.filter_app, length_app.
  enough (List.filter is_digit d = d) as -> by lia.
  clear Hl. induction d as [|x d IH]; [done|]. cbn in Hd |- *. apply andb_prop in Hd as [-> Hd]. by rewrite IH.
Qed.

(** A number lies within one token. *)
Lemma number_in_token b toks u d v : tokens_ok b toks → concat toks = u ++ d ++ v → d ≠ [] →
  forallb is_digit d = true → ∃ tok u' v', tok ∈ toks ∧ tok = u' ++ d ++ v'.
Proof.
  intros Hok Hcat Hne Hd. revert b u Hok Hcat. induction toks as [|t toks IH]; intros b u Hok Hcat.
  { exfalso. cbn in Hcat. destruct u; [by destruct d|done]. }
  cbn [concat] in Hcat. destruct Hok as (Hnt & Hall & Hok).
  apply app_eq_app in Hcat as (l & [[-> Hl]|[-> Hl]]).
  - apply app_eq_app in Hl as (l' & [[-> Hl]|[-> Hl]]).
    + destruct l as [|c l].
      { destruct (IH _ [] Hok) as (tok & u' & v' & ? & ?); [by rewrite Hl|]. exists tok, u', v'. split; [by right|done]. }
      destruct l' as [|e l'].
      { exists (u ++ (c :: l) ++ []), u, []. rewrite !app_nil_r. split; [by left|done]. }
      exfalso. cbn in Hd. apply andb_prop in Hd as [Hc Hd]. rewrite forallb_app in Hd.
      apply andb_prop in Hd as [_ Hd]. cbn in Hd. apply andb_prop in Hd as [He _].
      rewrite forallb_app in Hall. apply andb_prop in Hall as [_ Hall]. cbn in Hall.
      apply andb_prop in Hall as [Hcb%eqb_prop _]. rewrite digit_not_space in Hcb by done. subst b.
      pose proof (concat_head _ _ Hok) as Hh. rewrite Hl in Hh. cbn in Hh.
      by rewrite digit_not_space in Hh.
    + exists (u ++ d ++ l'), u, l'. split; [by left|done].
  - destruct (IH _ l Hok) as (tok & u' & v' & ? & ?); [done|]. exists tok, u', v'. split; [by right|done].
Qed.

Lemma redact_none t : redact t = None →
  (∀ tok, tok ∈ split_keeping_whitespace (chars t) → looks_like_email (trim_punctuation tok) = false) ∧
  ∀ u d v, chars t = u ++ d ++ v → forallb is_digit d = true → (length d < MIN_DIGIT_RUN)%nat.
Proof.
  unfold redact. rewrite redact_fold. destruct (existsb _ _) eqn:Hch; [done|]. intros _.
  assert (∀ tok, tok ∈ split_keeping_whitespace (chars t) → (redact_token tok).2 = false) as Hf.
  { intros tok Htok. apply not_true_iff_false. intros Ht. apply not_true_iff_false in Hch. apply Hch.
    apply existsb_elem. eauto. }
  destruct (split_tokens (chars t)) as (b & Hok & Hcat). split.
  - intros tok Htok. specialize (Hf tok Htok). unfold redact_token in Hf.
    destruct (forallb char_is_whitespace tok) eqn:Hws; [|by destruct (looks_like_email _)].
    apply not_true_iff_false. intros Hm%email_has_at. apply existsb_exists in Hm as (c & Hc & Ha).
    destruct (trim_punctuation_spec tok) as (p & Htk & _ & _).
    rewrite forallb_forall in Hws. specialize (Hws c). rewrite Htk in Hws.
    apply is_char_eq in Ha as ->. discriminate Hws. apply in_app_iff. by left.
  - intros u d v Hcs Hd. apply Nat.nle_gt. intros Hl.
    destruct (number_in_token b _ u d v Hok (eq_trans Hcat Hcs)) as (tok & u' & v' & Htok & ->); [|done|].
    { intros ->. unfold MIN_DIGIT_RUN in Hl. cbn in Hl. lia. }
    specialize (Hf _ Htok). unfold redact_token in Hf. destruct (forallb _ _) eqn:Hws.
    + rewrite !forallb_app in Hws. apply andb_prop in Hws as [_ [Hws _]%andb_prop].
      destruct d as [|c d]; [unfold MIN_DIGIT_RUN in Hl; cbn in Hl; lia|]. cbn in Hws, Hd.
      apply andb_prop in Hws as [Hws _], Hd as [Hd _]. by rewrite digit_not_space in Hws.
    + destruct (looks_like_email _); [done|]. by rewrite long_number_found in Hf.
Qed.

(** ** Properties *)

(** What the redactor passes on is clean.  Whatever the text (as long as it
    begins with a character), what the redactor makes of it holds no word that
    looks like an e-mail address and no eight digits in a row, and redacting it
    again changes nothing. *)
Theorem redacted_text_is_clean content : utf8_start content = true →
  let t := default content (redact content) in
  redact t = None ∧
  (∀ tok, tok ∈ split_keeping_whitespace (chars t) → looks_like_email (trim_punctuation tok) = false) ∧
  ∀ u d v, chars t = u ++ d ++ v → forallb is_digit d = true → (length d < MIN_DIGIT_RUN)%nat.
Proof.
  intros Hu t. assert (redact t = None) as Ht; [|by split; [|apply redact_none]].
  subst t. destruct (redact content) as [t|] eqn:Hr; [|done]. cbn [from_option id].
  unfold redact in Hr. rewrite redact_fold in Hr. destruct (false || _); [|done]. injection Hr as <-. cbn [app].
  destruct (split_tokens (chars content)) as (b & Hok & Hcat).
  destruct (redact_tokens b _ Hok) as (Hok' & Hagain & _).
  unfold redact. rewrite chars_text_of.
  - unfold split_keeping_whitespace at 1. rewrite (split_runs_concat b) by done. rewrite redact_fold.
    replace (existsb _ _) with false; [done|]. symmetry. apply not_true_iff_false.
    intros (tok & Htok & Hb)%existsb_elem. rewrite Forall_forall in Hagain. rewrite (Hagain tok Htok) in Hb. done.
  - pose proof (chars_one_char content Hu) as Hone. rewrite <-Hcat in Hone.
    apply Forall_concat, Forall_fmap. apply Forall_concat in Hone. eapply Forall_impl; [exact Hone|].
    intros tok Htok. apply redact_token_chars; [|done]. apply forallb_Forall. by vm_compute.
Qed.

Definition pii_text : string := "Write to jo@site.org, account 4111111111111111, before 2024.".
Lemma redacted_text_is_clean_witness :
  default pii_text (redact pii_text) = "Write to [redacted-email], account [redacted-number], before 2024." ∧
  redact (default pii_text (redact pii_text)) = None.
Proof.
  split; [by vm_compute|]. apply (redacted_text_is_clean pii_text). by vm_compute.
Defined.

(** The moderator allows content only on a verdict that does not flag it. *)
Lemma moderator_never_allows_silently
    `{JsonText, AIProvider P, CircuitBreaker B, SemanticCacheStore ChatResponse C, Jitter J, Monotonic E, ChatText}
    (arrivals : ChatRequest → list arrival) stage content (g g' : LlmModerator (World P B C J E)) :
  moderator_check arrivals stage content g = (g', Ret Allow) →
  ∃ w' response v, chat_request (moderator_gateway g) (moderation_request stage content g)
      (arrivals (moderation_request stage content g)) (moderator_world g) = (w', Ret response) ∧
    json_from_str (unfenced (default "" (Chat.content (message response)))) = inr v ∧
    value_get "flagged" v = Some (Bool false).
Proof.
  unfold moderator_check. intros (g1 & response & Hc & Hv)%bind_Ret_inv. unfold zoom in Hc.
  destruct (chat_request _ _ _ _) as [w' r]. injection Hc as <- ->. injection Hv as _ Hv.
  exists w', response. unfold verdict in Hv. destruct (json_from_str _) as [e|v]; [done|]. exists v. split; [done|].
  split; [done|]. destruct (value_get "flagged" v) as [[| [] | | | |]|]; done.
Qed.
