(* ===== verification/Prompt.v ===== *)
(** * Prompt templates

    crates/wovyr-agent/src/prompt.rs: named, versioned prompt bodies with typed
    variables, the registry with its immutable versions, and the resolution of a
    reference by pin, by experiment or to the latest version. *)
From stdpp Require Import base tactics list numbers strings gmap.
From Stdlib Require Import Lia ZArith Ascii.
From S2P Require Import Prelude.
From S2P Require Import RustStr.
From S2P Require Import Common.
From S2P Require Import Effect.
From S2P Require Import JsonValue.
From S2P Require Import WorkflowDef.
From S2P Require Import Guardrail.
Local Open Scope Z_scope.

Inductive VariableType := VString | VInteger | VNumber | VBoolean.

Definition vt_matches (t : VariableType) (v : Value) : bool :=
  match t, v with
  | VString, Str _ => true
  | VInteger, Num (PosInt _) | VInteger, Num (NegInt _) => true
  | VNumber, Num _ => true
  | VBoolean, Bool _ => true
  | _, _ => false
  end.
Definition label (t : VariableType) : string :=
  match t with VString => "string" | VInteger => "integer" | VNumber => "number" | VBoolean => "boolean" end.

Record VariableSpec := { var_name : string; var_type : VariableType; var_default : option Value }.
Record PromptTemplate := {
  pt_name : string; pt_version : Z; pt_body : string; pt_variables : list VariableSpec }.

(** ** The body *)

Inductive Segment := Text (s : string) | Placeholder (name : string).

Definition identifier_char (c : ascii) : bool := is_ascii_alphanumeric c || Ascii.eqb c "_".
Definition is_identifier (s : string) : bool :=
  match s with
  | "" => false
  | String c rest =>
    (is_ascii_upper c || is_ascii_lower c || Ascii.eqb c "_") && str_all identifier_char rest
  end.

(** The loop; every pass consumes an opening. *)
Fixpoint segments_go (fuel : nat) (rest : string) : list Segment :=
  let tail := if is_empty rest then [] else [Text rest] in
  match fuel with
  | O => tail
  | S fuel =>
    match split_once "{{" rest with
    | None => tail
    | Some (head, inner) =>
      (if is_empty head then [] else [Text head]) ++
      match split_once "}}" inner with
      | Some (braced, rest) =>
        let name := trim braced in
        (if is_identifier name then Placeholder name else Text ("{{" +:+ (braced +:+ "}}")))
        :: segments_go fuel rest
      | None => [Text ("{{" +:+ inner)]
      end
    end
  end.
Definition segments (body : string) : list Segment := segments_go (String.length body) body.

(** ** Validation and rendering *)

Definition named (t : PromptTemplate) (rest : string) : string :=
  "prompt template `" +:+ (pt_name t +:+ ("` v" +:+ (show_Z (pt_version t) +:+ rest))).

Fixpoint check_variables (t : PromptTemplate) (seen : list string) (vars : list VariableSpec) : result (list string) :=
  match vars with
  | [] => Ok seen
  | v :: vars =>
    if existsb (String.eqb (var_name v)) seen then
      Err (invalid (named t (" declares variable `" +:+ (var_name v +:+ "` twice"))))
    else
      match var_default v with
      | Some d =>
        if vt_matches (var_type v) d then check_variables t (var_name v :: seen) vars
        else Err (invalid (named t (": variable `" +:+ (var_name v +:+ ("` default is not a " +:+ label (var_type v))))))
      | None => check_variables t (var_name v :: seen) vars
      end
  end.

Fixpoint check_segments (t : PromptTemplate) (seen : list string) (segs : list Segment) : result () :=
  match segs with
  | [] => Ok ()
  | Placeholder name :: segs =>
    if existsb (String.eqb name) seen then check_segments t seen segs
    else Err (invalid (named t (" references undeclared variable `{{" +:+ (name +:+ "}}`"))))
  | Text _ :: segs => check_segments t seen segs
  end.

Definition validate_template (t : PromptTemplate) : result () :=
  if is_empty (trim (pt_name t)) then Err (invalid "prompt template name must not be empty") else
  if is_empty (trim (pt_body t)) then Err (invalid (named t " has an empty body")) else
  seen ← check_variables t [] (pt_variables t);
  check_segments t seen (segments (pt_body t)).

Section render.
Context `{JsonText}.

Definition find_variable (t : PromptTemplate) (name : string) : option VariableSpec :=
  List.find (λ v, String.eqb (var_name v) name) (pt_variables t).

Definition rendered_value (v : Value) : string :=
  match v with Str s => s | v => json_display v end.

Definition render_placeholder (t : PromptTemplate) (supplied : gmap string Value) (name : string) : result string :=
  spec ← ok_or (invalid (named t (" references undeclared variable `" +:+ (name +:+ "`")))) (find_variable t name);
  value ← ok_or (invalid (named t (" requires variable `" +:+ (name +:+ "` and no default is declared"))))
    (match supplied !! name with Some v => Some v | None => var_default spec end);
  if vt_matches (var_type spec) value then Ok (rendered_value value)
  else Err (invalid (named t (": variable `" +:+ (name +:+ ("` must be a " +:+ (label (var_type spec) +:+
         (", got " +:+ json_display value))))))).

Fixpoint render_segments (t : PromptTemplate) (supplied : gmap string Value) (segs : list Segment) (out : string)
    : result string :=
  match segs with
  | [] => Ok out
  | Text s :: segs => render_segments t supplied segs (out +:+ s)
  | Placeholder name :: segs =>
    s ← render_placeholder t supplied name;
    render_segments t supplied segs (out +:+ s)
  end.

Definition render (t : PromptTemplate) (supplied : gmap string Value) : result string :=
  match List.find (λ name, negb (existsb (λ v, String.eqb (var_name v) name) (pt_variables t))) (btree_keys supplied) with
  | Some name => Err (invalid (named t (" declares no variable `" +:+ (name +:+ "`"))))
  | None => render_segments t supplied (segments (pt_body t)) ""
  end.
End render.

(** ** References *)

Record AbArm := { arm_version : Z; arm_weight : Z }.
Record PromptSpec := {
  ps_template : string; ps_version : option Z; ps_ab : option (list AbArm); ps_variables : gmap string Value }.

Definition validate_spec (s : PromptSpec) : result () :=
  if is_empty (trim (ps_template s)) then Err (invalid "spec.prompt.template must not be empty") else
  match ps_ab s with
  | None => Ok ()
  | Some arms =>
    if (match ps_version s with Some _ => true | None => false end) then
      Err (invalid "spec.prompt sets both `version` and `ab` — pin or experiment, not both")
    else match arms with
    | [] => Err (invalid "spec.prompt.ab must declare at least one arm")
    | _ =>
      if forallb (λ a, Z.eqb (arm_weight a) 0) arms then
        Err (invalid "spec.prompt.ab arms have zero total weight — no arm can be assigned")
      else Ok ()
    end
  end.

(** ** The registry *)

Abbreviation PromptRegistry := (gmap string (gmap Z PromptTemplate)).
Definition PromptRegistry_new : PromptRegistry := ∅.

Definition register (t : PromptTemplate) (r : PromptRegistry) : PromptRegistry * result () :=
  match validate_template t with
  | Err e => (r, Err e)
  | Ok _ =>
    let versions := default ∅ (r !! pt_name t) in
    match versions !! pt_version t with
    | Some _ =>
      (<[pt_name t := versions]> r,
       Err (Conflict (named t " is already registered — versions are immutable, register a new version instead")))
    | None => (<[pt_name t := <[pt_version t := t]> versions]> r, Ok ())
    end
  end.

(** [from_yaml], past the YAML parser. *)
Fixpoint register_all (ts : list PromptTemplate) (r : PromptRegistry) : result PromptRegistry :=
  match ts with
  | [] => Ok r
  | t :: ts => let '(r, res) := register t r in _ ← res; register_all ts r
  end.
Definition registry_from_yaml (prompts : string + list PromptTemplate) : result PromptRegistry :=
  match prompts with
  | inl e => Err (invalid ("invalid prompt registry document: " +:+ e))
  | inr ts => register_all ts PromptRegistry_new
  end.

Definition get (name : string) (version : Z) (r : PromptRegistry) : result PromptTemplate :=
  ok_or (NotFound ("prompt template `" +:+ (name +:+ ("` v" +:+ (show_Z version +:+ " is not registered")))))
    (r !! name ≫= λ versions, versions !! version).

(** [versions.values().next_back()]: the value of the greatest key. *)
Definition later (kv acc : Z * PromptTemplate) : Z * PromptTemplate :=
  if Z.leb acc.1 kv.1 then kv else acc.
Definition last_version (versions : gmap Z PromptTemplate) : option PromptTemplate :=
  match map_to_list versions with
  | [] => None
  | kv :: l => Some (foldr later kv l).2
  end.
Definition latest (name : string) (r : PromptRegistry) : result PromptTemplate :=
  ok_or (NotFound ("prompt template `" +:+ (name +:+ "` is not registered"))) (r !! name ≫= last_version).

Definition total_weight (arms : list AbArm) : Z := foldr Z.add 0 (map arm_weight arms).

(** The loop over the arms. *)
Fixpoint pick_arm (bucket : Z) (arms : list AbArm) : option AbArm :=
  match arms with
  | [] => None
  | a :: arms => if Z.ltb bucket (arm_weight a) then Some a else pick_arm (bucket - arm_weight a) arms
  end.

Definition unit_separator : string := String (ascii_of_nat 31) "".

(** The remainder by zero and the index of the fallback panic. *)
Definition assign_arm (template unit : string) (arms : list AbArm) : outcome Z :=
  let total := total_weight arms in
  if Z.eqb total 0 then Stop Panicked else
  let bucket := fnv_bytes fnv_offset (template +:+ (unit_separator +:+ unit)) mod total in
  match pick_arm bucket arms with
  | Some a => Ret (arm_version a)
  | None => a ← expect (last arms); Ret (arm_version a)
  end.

Section resolve.
Context `{JsonText}.

Definition resolve (spec : PromptSpec) (ab_unit : option string) (r : PromptRegistry) : outcome string :=
  _ ← of_result (validate_spec spec);
  template ←
    match ps_version spec, ps_ab spec with
    | Some version, _ => of_result (get (ps_template spec) version r)
    | None, Some arms =>
      unit ← of_result (ok_or (invalid ("prompt template `" +:+ (ps_template spec +:+
        "` declares an A/B experiment; resolution requires a unit key (user/session id) to assign an arm"))) ab_unit);
      version ← assign_arm (ps_template spec) unit arms;
      of_result (get (ps_template spec) version r)
    | None, None => of_result (latest (ps_template spec) r)
    end;
  of_result (render template (ps_variables spec)).
End resolve.

(** ** Prompts stay what they were

    Registered versions never change, so a pinned or assigned reference renders
    the same text for good; an experiment splits its units by weight; rendering
    replaces the declared placeholders and nothing else. *)

(** *** The registry *)

Definition entry (name : string) (version : Z) (r : PromptRegistry) : option PromptTemplate :=
  r !! name ≫= λ versions, versions !! version.

(** What an attempt to register [t] does to every entry. *)
Lemma register_entry t r name version :
  entry name version (register t r).1 =
    match entry name version r with
    | Some t' => Some t'
    | None =>
      if is_ok (validate_template t) && String.eqb name (pt_name t) && Z.eqb version (pt_version t) then Some t else None
    end.
Proof.
  unfold register, entry. cbv zeta. destruct (validate_template t) as [[]|e]; cbn [is_ok andb fst].
  2: { by destruct (r !! name ≫= _). }
  destruct (String.eqb_spec name (pt_name t)) as [->|Hn]; cbn [andb].
  - destruct (default ∅ (r !! pt_name t) !! pt_version t) as [t0|] eqn:Hv; cbn [fst]; rewrite lookup_insert_eq; cbn.
    + destruct (r !! pt_name t) as [vs|]; cbn in Hv |- *; [|by rewrite lookup_empty in Hv].
      destruct (vs !! version) as [t'|] eqn:Hl; [done|]. destruct (Z.eqb_spec version (pt_version t)) as [->|]; [|done].
      congruence.
    + destruct (Z.eqb_spec version (pt_version t)) as [->|Hne].
      * rewrite lookup_insert_eq. destruct (r !! pt_name t) as [vs|]; cbn in Hv |- *; [by rewrite Hv|done].
      * rewrite lookup_insert_ne by done. destruct (r !! pt_name t) as [vs|]; cbn; [by destruct (vs !! version)|].
        by rewrite lookup_empty.
  - destruct (default ∅ _ !! _); cbn [fst]; rewrite lookup_insert_ne by done; by destruct (r !! name ≫= _).
Qed.

Definition register_attempts (ts : list PromptTemplate) (r : PromptRegistry) : PromptRegistry :=
  foldl (λ r t, (register t r).1) r ts.

Lemma attempts_keep ts r name version t : entry name version r = Some t →
  entry name version (register_attempts ts r) = Some t.
Proof.
  revert r. induction ts as [|t0 ts IH]; intros r Hr; [done|]. apply IH. by rewrite register_entry, Hr.
Qed.

Lemma get_entry name version r t : get name version r = Ok t ↔ entry name version r = Some t.
Proof. unfold get, entry. destruct (r !! name ≫= _); cbn; split; congruence. Qed.

(** *** Assignment to the arms *)

Lemma total_weight_app a b : total_weight (a ++ b) = total_weight a + total_weight b.
Proof. unfold total_weight. induction a as [|x a IH]; cbn; [done|]. cbn in IH. rewrite IH. lia. Qed.

Lemma pick_arm_at pre a post b : Forall (λ x, 0 <= arm_weight x) pre →
  total_weight pre <= b < total_weight pre + arm_weight a → pick_arm b (pre ++ a :: post) = Some a.
Proof.
  intros Hpre. revert b. induction Hpre as [|x pre Hx Hpre IH]; intros b Hb; cbn in Hb |- *.
  - by rewrite (proj2 (Z.ltb_lt _ _)) by lia.
  - assert (0 <= total_weight pre) as H0.
    { clear -Hpre. induction Hpre as [|y pre Hy _ IH]; cbn; [lia|]. unfold total_weight in IH. lia. }
    fold (total_weight pre) in Hb. rewrite (proj2 (Z.ltb_ge _ _)) by lia. apply IH. lia.
Qed.

Lemma bucket_arm arms b : Forall (λ x, 0 <= arm_weight x) arms → 0 <= b < total_weight arms →
  ∃ pre a post, arms = pre ++ a :: post ∧ total_weight pre <= b < total_weight pre + arm_weight a.
Proof.
  intros Harms. revert b. induction Harms as [|a arms Ha Harms IH]; intros b Hb; [cbn in Hb; lia|].
  cbn in Hb. fold (total_weight arms) in Hb. destruct (decide (b < arm_weight a)) as [Hlt|Hge].
  - exists [], a, arms. split; [done|]. cbn. lia.
  - destruct (IH (b - arm_weight a)) as (pre & x & post & -> & Hx); [lia|].
    exists (a :: pre), x, post. split; [done|]. cbn. fold (total_weight pre). lia.
Qed.

Lemma assign_arm_bucket template unit arms : Forall (λ x, 0 <= arm_weight x) arms → total_weight arms ≠ 0 →
  ∃ pre a post, arms = pre ++ a :: post ∧ assign_arm template unit arms = Ret (arm_version a) ∧
    total_weight pre <= fnv_bytes fnv_offset (template +:+ (unit_separator +:+ unit)) mod total_weight arms
      < total_weight pre + arm_weight a.
Proof.
  intros Harms Ht. assert (0 <= total_weight arms) as H0.
  { clear -Harms. induction Harms as [|y pre Hy _ IH]; cbn; [lia|]. unfold total_weight in IH. lia. }
  pose proof (Z.mod_pos_bound (fnv_bytes fnv_offset (template +:+ (unit_separator +:+ unit))) (total_weight arms)) as Hm.
  destruct (bucket_arm arms _ Harms (Hm ltac:(lia))) as (pre & a & post & Harm & Hb). exists pre, a, post.
  split; [done|]. split; [|done]. unfold assign_arm. rewrite (proj2 (Z.eqb_neq _ _) Ht).
  rewrite Harm at 2. rewrite (pick_arm_at pre a post); [done| |done].
  rewrite Harm in Harms. by apply Forall_app in Harms as [? _].
Qed.

Lemma valid_spec_weight spec arms : validate_spec spec = Ok () → ps_ab spec = Some arms →
  Forall (λ x, 0 <= arm_weight x) arms → total_weight arms ≠ 0.
Proof.
  unfold validate_spec. destruct (is_empty _); [done|]. intros Hv Hab Harms. rewrite Hab in Hv.
  destruct (ps_version spec); [done|]. destruct arms as [|a arms]; [done|].
  destruct (forallb _ (a :: arms)) eqn:Hz; [done|]. intros Ht. apply not_true_iff_false in Hz. apply Hz.
  apply forallb_forall. clear Hv Hz Hab. generalize dependent (a :: arms). clear.
  intros arms Harms Ht. assert (∀ l, Forall (λ x, 0 <= arm_weight x) l → 0 <= total_weight l) as Hpos.
  { induction 1 as [|y pre Hy _ IH]; cbn; [lia|]. unfold total_weight in IH. lia. }
  induction Harms as [|x arms Hx Harms IH]; [done|]. cbn in Ht. fold (total_weight arms) in Ht.
  pose proof (Hpos _ Harms). intros y [->|Hy]; [apply Z.eqb_eq; lia|]. apply IH; [lia|done].
Qed.

(** *** Rendering *)

(** The source text of a segment. *)
Definition segment_source (s : Segment) (source : string) : Prop :=
  match s with
  | Text t => source = t
  | Placeholder name => ∃ braced, source = "{{" +:+ (braced +:+ "}}") ∧ trim braced = name ∧ is_identifier name = true
  end.

Fixpoint concat_strings (l : list string) : string :=
  match l with [] => "" | s :: l => s +:+ concat_strings l end.

Lemma segments_source body : ∃ sources,
  Forall2 segment_source (segments body) sources ∧ body = concat_strings sources.
Proof.
  unfold segments. generalize (String.length body) as fuel. intros fuel.
  assert (∀ rest, ∃ sources, Forall2 segment_source (if is_empty rest then [] else [Text rest]) sources ∧
    rest = concat_strings sources) as Htail.
  { intros [|c rest]; [by exists []|]. exists [String c rest]. split; [by repeat constructor|]. cbn. by rewrite str_app_nil_r. }
  revert body. induction fuel as [|fuel IH]; intros body; cbn [segments_go]; [apply Htail|].
  destruct (split_once "{{" body) as [[head inner]|] eqn:Ho; [|apply Htail]. apply split_once_app in Ho as ->.
  destruct (Htail head) as (hs & Hhs & Hhead).
  enough (∃ sources, Forall2 segment_source
    match split_once "}}" inner with
    | Some (braced, rest) =>
      (if is_identifier (trim braced) then Placeholder (trim braced) else Text ("{{" +:+ (braced +:+ "}}")))
      :: segments_go fuel rest
    | None => [Text ("{{" +:+ inner)]
    end sources ∧ "{{" +:+ inner = concat_strings sources) as (sources & Hs & Hi).
  { exists (hs ++ sources). split; [by apply Forall2_app|]. rewrite Hhead at 1. rewrite Hi. clear.
    induction hs as [|h hs IH]; [done|]. cbn [app concat_strings]. by rewrite <-IH, str_app_assoc. }
  destruct (split_once "}}" inner) as [[braced rest]|] eqn:Hc.
  - apply split_once_app in Hc as ->. destruct (IH rest) as (sources & Hs & Hr).
    exists (("{{" +:+ (braced +:+ "}}")) :: sources). split.
    + constructor; [|done]. destruct (is_identifier (trim braced)) eqn:Hid; [|done]. cbn. eauto.
    + cbn [concat_strings]. rewrite <-Hr. by rewrite !str_app_assoc.
  - exists ["{{" +:+ inner]. split; [by repeat constructor|]. cbn [concat_strings]. by rewrite str_app_nil_r.
Qed.

Section render.
Context `{JsonText}.

(** What a segment becomes. *)
Definition segment_rendered (t : PromptTemplate) (supplied : gmap string Value) (s : Segment) (out : string) : Prop :=
  match s with
  | Text text => out = text
  | Placeholder name => ∃ spec value,
      find_variable t name = Some spec ∧
      match supplied !! name with Some v => Some v | None => var_default spec end = Some value ∧
      vt_matches (var_type spec) value = true ∧ out = rendered_value value
  end.

Lemma render_placeholder_Ok t supplied name out :
  render_placeholder t supplied name = Ok out ↔ segment_rendered t supplied (Placeholder name) out.
Proof.
  unfold render_placeholder, segment_rendered. split.
  - intros (spec & Hs & Hr)%result_bind_Ok. destruct (find_variable t name) as [spec'|]; [|done].
    injection Hs as ->. apply result_bind_Ok in Hr as (v & Hv & Hr).
    destruct (match supplied !! name with Some v => Some v | None => var_default spec end) as [v'|] eqn:E; [|done].
    injection Hv as ->. destruct (vt_matches _ _) eqn:Hm; [|done]. injection Hr as <-. eauto 10.
  - intros (spec & v & -> & Hv & Hm & ->). cbn [ok_or mbind result_bind]. rewrite Hv. cbn. by rewrite Hm.
Qed.

Lemma render_segments_Ok t supplied segs : ∀ out res, render_segments t supplied segs out = Ok res ↔
  ∃ outs, Forall2 (segment_rendered t supplied) segs outs ∧ res = out +:+ concat_strings outs.
Proof.
  induction segs as [|[text|name] segs IH]; intros out res; cbn [render_segments].
  - split.
    + intros [= <-]. exists []. split; [done|]. cbn. by rewrite str_app_nil_r.
    + intros (outs & Ho & ->). inversion Ho; subst. cbn. by rewrite str_app_nil_r.
  - rewrite IH. split.
    + intros (outs & Ho & ->). exists (text :: outs). split; [by constructor|]. cbn. by rewrite str_app_assoc.
    + intros (outs & Ho & ->). inversion Ho as [|? ? ? outs' Ht Hrest]; subst. cbn in Ht. subst. exists outs'.
      split; [done|]. cbn. by rewrite str_app_assoc.
  - rewrite result_bind_Ok. split.
    + intros (s & Hs & (outs & Ho & ->)%IH). exists (s :: outs). split; [|cbn; by rewrite str_app_assoc].
      constructor; [by apply render_placeholder_Ok|done].
    + intros (outs & Ho & ->). inversion Ho as [|? s ? outs' Ht Hrest]; subst. exists s.
      split; [by apply render_placeholder_Ok|]. apply IH. exists outs'. split; [done|]. cbn. by rewrite str_app_assoc.
Qed.

Lemma render_Ok t supplied out : render t supplied = Ok out ↔
  (∀ name, is_Some (supplied !! name) → ∃ v, v ∈ pt_variables t ∧ var_name v = name) ∧
  ∃ outs, Forall2 (segment_rendered t supplied) (segments (pt_body t)) outs ∧ out = concat_strings outs.
Proof.
  unfold render. destruct (List.find _ _) as [name|] eqn:Hf.
  - split; [done|]. intros [Hd _]. exfalso. apply find_Some_elem in Hf as [Hn Hno].
    apply negb_true_iff, not_true_iff_false in Hno. apply Hno, existsb_elem.
    apply btree_keys_elem in Hn. destruct (Hd name Hn) as (v & Hv & <-). exists v. split; [done|apply String.eqb_refl].
  - rewrite render_segments_Ok. split; [|by intros [_ ?]]. intros (outs & Ho & ->). split; [|by exists outs].
    intros name Hn. pose proof (find_None_elem _ _ name Hf) as Hx.
    rewrite btree_keys_elem in Hx. specialize (Hx Hn). cbv beta in Hx. apply negb_false_iff, existsb_elem in Hx as (v & Hv & He).
    exists v. split; [done|]. by apply String.eqb_eq.
Qed.
End render.

(** *** Properties *)

Lemma resolve_of `{JsonText} spec unit r text : resolve spec unit r = Ret text ↔
  validate_spec spec = Ok () ∧ ∃ t, render t (ps_variables spec) = Ok text ∧
    match ps_version spec, ps_ab spec with
    | Some version, _ => entry (ps_template spec) version r = Some t
    | None, Some arms => ∃ u version, unit = Some u ∧ assign_arm (ps_template spec) u arms = Ret version ∧
        entry (ps_template spec) version r = Some t
    | None, None => latest (ps_template spec) r = Ok t
    end.
Proof.
  unfold resolve. destruct (validate_spec spec) as [[]|e]; [|by split; [done|intros [? _]]].
  cbn [of_result mbind outcome_bind]. split.
  - intros Hr. split; [done|].
    assert (∀ o : outcome PromptTemplate, (o ≫= λ t, of_result (render t (ps_variables spec))) = Ret text →
      ∃ t, o = Ret t ∧ render t (ps_variables spec) = Ok text) as Hstep.
    { intros [t|] Ho; [|done]. exists t. split; [done|]. cbn in Ho. destruct (render _ _); [by injection Ho as ->|done]. }
    apply Hstep in Hr as (t & Ht & Hr). exists t. split; [done|].
    destruct (ps_version spec) as [version|]; [|destruct (ps_ab spec) as [arms|]].
    + apply get_entry. by destruct (get _ _ _); [injection Ht as ->|].
    + destruct unit as [u|]; [|done]. cbn in Ht. destruct (assign_arm _ _ _) as [version|] eqn:Ha; [|done]. cbn in Ht.
      exists u, version. split_and!; try done. apply get_entry. by destruct (get _ _ _); [injection Ht as ->|].
    + by destruct (latest _ _); [injection Ht as ->|].
  - intros (_ & t & Hr & Ht). destruct (ps_version spec) as [version|]; [|destruct (ps_ab spec) as [arms|]].
    + apply get_entry in Ht. rewrite Ht. cbn. by rewrite Hr.
    + destruct Ht as (u & version & -> & Ha & Ht%get_entry). cbn. rewrite Ha. cbn. rewrite Ht. cbn. by rewrite Hr.
    + rewrite Ht. cbn. by rewrite Hr.
Qed.

(** A pinned prompt never changes.  A reference that pins a version, or
    assigns one by experiment, renders for a unit what it rendered before,
    whatever is registered, or refused, after: versions are immutable. *)
Theorem settled_prompt_never_changes `{JsonText} spec unit r ts text :
  ps_version spec ≠ None ∨ ps_ab spec ≠ None → resolve spec unit r = Ret text →
  resolve spec unit (register_attempts ts r) = Ret text.
Proof.
  intros Hset (Hv & t & Hr & Ht)%resolve_of. apply resolve_of. split; [done|]. exists t. split; [done|].
  destruct (ps_version spec) as [version|]; [by apply attempts_keep|].
  destruct (ps_ab spec) as [arms|]; [|by destruct Hset].
  destruct Ht as (u & version & ? & ? & Ht). exists u, version. split_and!; try done. by apply attempts_keep.
Qed.

(** An experiment splits its units by weight.  For a valid reference every
    unit is assigned an arm: the one in whose share of the range of the total
    weight the unit's hash falls, so each arm owns exactly as many of the equal
    buckets as its weight says, an arm of weight zero gets no unit, and the
    fallback of the assignment is never reached. *)
Theorem experiment_splits_by_weight spec unit arms :
  validate_spec spec = Ok () → ps_ab spec = Some arms → Forall (λ a, is_u32 (arm_weight a)) arms →
  let total := total_weight arms in
  0 < total ∧
  (∀ pre a post b, arms = pre ++ a :: post → total_weight pre <= b < total_weight pre + arm_weight a →
     pick_arm b arms = Some a) ∧
  ∃ pre a post, arms = pre ++ a :: post ∧ assign_arm (ps_template spec) unit arms = Ret (arm_version a) ∧
    total_weight pre <= fnv_bytes fnv_offset (ps_template spec +:+ (unit_separator +:+ unit)) mod total
      < total_weight pre + arm_weight a.
Proof.
  intros Hv Hab Hw total. assert (Forall (λ x, 0 <= arm_weight x) arms) as Harms.
  { eapply Forall_impl; [exact Hw|]. intros a Ha. apply Ha. }
  pose proof (valid_spec_weight spec arms Hv Hab Harms) as Ht. split; [|split].
  - destruct (assign_arm_bucket (ps_template spec) unit arms Harms Ht) as (pre & a & post & _ & _ & Hb).
    subst total. enough (0 <= total_weight arms) by lia.
    clear -Harms. induction Harms as [|y pre Hy _ IH]; cbn; [lia|]. unfold total_weight in IH. lia.
  - intros pre a post b -> Hb. apply pick_arm_at; [|done]. by apply Forall_app in Harms as [? _].
  - by apply assign_arm_bucket.
Qed.

(** Rendering replaces the declared placeholders and nothing else.  The
    body is cut into pieces that make it up again; rendering succeeds exactly
    when every supplied name is declared and every placeholder has a value, its
    own or the default, of its declared type, and the result is the body with
    those values in the places of the placeholders. *)
Theorem render_replaces_placeholders `{JsonText} t supplied out :
  (∃ sources, Forall2 segment_source (segments (pt_body t)) sources ∧ pt_body t = concat_strings sources) ∧
  (render t supplied = Ok out ↔
    (∀ name, is_Some (supplied !! name) → ∃ v, v ∈ pt_variables t ∧ var_name v = name) ∧
    ∃ outs, Forall2 (segment_rendered t supplied) (segments (pt_body t)) outs ∧ out = concat_strings outs).
Proof. split; [apply segments_source|apply render_Ok]. Qed.

(** *** A concrete registry *)

#[local] Instance json_text_example : JsonText := {|
  json_from_str _ := inr Null; json_display v := match v with Num (PosInt n) => show_Z n | _ => "?" end |}.

Definition greeting (version : Z) (body : string) : PromptTemplate := {|
  pt_name := "greet"; pt_version := version; pt_body := body;
  pt_variables := [{| var_name := "who"; var_type := VString; var_default := Some (Str "there") |}] |}.
Definition greetings : PromptRegistry :=
  register_attempts [greeting 1 "Hello {{who}}!"; greeting 2 "Good day {{ who }}."] ∅.
Definition pinned_greeting : PromptSpec := {|
  ps_template := "greet"; ps_version := Some 1; ps_ab := None; ps_variables := {["who" := Str "Ada"]} |}.

Lemma settled_prompt_never_changes_witness :
  resolve pinned_greeting None (register_attempts [greeting 1 "Changed"; greeting 3 "Hey {{who}}"] greetings) =
    Ret "Hello Ada!".
Proof.
  apply settled_prompt_never_changes; [by left|]. vm_compute. reflexivity.
Defined.

Definition split_greeting : PromptSpec := {|
  ps_template := "greet"; ps_version := None;
  ps_ab := Some [{| arm_version := 1; arm_weight := 3 |}; {| arm_version := 2; arm_weight := 1 |}];
  ps_variables := ∅ |}.
Lemma experiment_splits_by_weight_witness : ∃ v,
  assign_arm "greet" "user-7" [{| arm_version := 1; arm_weight := 3 |}; {| arm_version := 2; arm_weight := 1 |}] = Ret v.
Proof.
  destruct (experiment_splits_by_weight split_greeting "user-7"
    [{| arm_version := 1; arm_weight := 3 |}; {| arm_version := 2; arm_weight := 1 |}])
    as (_ & _ & pre & a & post & _ & Ha & _); [by vm_compute|done| |by exists (arm_version a)].
  repeat constructor; vm_compute; congruence.
Defined.
