(* ===== verification/AgentDef.v ===== *)
(** * Agent definitions

    crates/wovyr-agent/src/definition.rs, memory.rs and events.rs: the parsed
    manifest of an agent with its validation, the retriever that grounds a run,
    and the events a run reports.  The YAML parser is a parameter. *)
From stdpp Require Import base tactics list numbers strings gmap.
From Stdlib Require Import ZArith.
From S2P Require Import Prelude.
From S2P Require Import RustStr.
From S2P Require Import F64.
From S2P Require Import Common.
From S2P Require Import Effect.
From S2P Require Import JsonValue.
From S2P Require Import Chat.
From S2P Require Import Gateway.
From S2P Require Import Guardrail.
From S2P Require Import Prompt.

Record Retrieval := { rt_strategy : option string; rt_limit : option nat }.
Record MemorySpec := { mem_enabled : bool; mem_namespace : option string; mem_retrieval : Retrieval; mem_tags : list string }.

Record Spec := {
  instructions : string;
  prompt : option PromptSpec;
  pinned_model : option string;
  model_selector : option ModelSelector;
  spec_temperature : option f32;
  spec_max_tokens : option Z;
  max_steps : option nat;
  spec_tools : list string;
  mcp_servers : list string;
  permissions : option (list string);
  memory : option MemorySpec }.

Record AgentDefinition := {
  api_version : option string; kind : option string; agent_name : string; spec : Spec }.

Definition set_spec (s : Spec) (d : AgentDefinition) : AgentDefinition := {|
  api_version := api_version d; kind := kind d; agent_name := agent_name d; spec := s |}.
Definition set_instructions (text : string) (s : Spec) : Spec := {|
  instructions := text; prompt := prompt s; pinned_model := pinned_model s; model_selector := model_selector s;
  spec_temperature := spec_temperature s; spec_max_tokens := spec_max_tokens s; max_steps := max_steps s;
  spec_tools := spec_tools s; mcp_servers := mcp_servers s; permissions := permissions s; memory := memory s |}.
Definition set_tools (l : list string) (s : Spec) : Spec := {|
  instructions := instructions s; prompt := prompt s; pinned_model := pinned_model s;
  model_selector := model_selector s; spec_temperature := spec_temperature s;
  spec_max_tokens := spec_max_tokens s; max_steps := max_steps s; spec_tools := l;
  mcp_servers := mcp_servers s; permissions := permissions s; memory := memory s |}.

Definition selector (d : AgentDefinition) : ModelSelector :=
  default ModelSelector_default (model_selector (spec d)).

Definition with_additional_tools (d : AgentDefinition) (ids : list string) : AgentDefinition :=
  set_spec (set_tools
    (foldl (λ l id, if existsb (String.eqb id) l then l else l ++ [id]) (spec_tools (spec d)) ids) (spec d)) d.

Definition resolve_instructions `{JsonText} (d : AgentDefinition) (registry : PromptRegistry) (ab_unit : option string)
    : outcome AgentDefinition :=
  match prompt (spec d) with
  | None => Ret d
  | Some p => text ← resolve p ab_unit registry; Ret (set_spec (set_instructions text (spec d)) d)
  end.

Definition validate_agent (d : AgentDefinition) : result () :=
  if (match kind d with Some k => negb (String.eqb k "Agent") | None => false end) then
    Err (invalid ("unsupported kind `" +:+ (default "" (kind d) +:+ "`, expected `Agent`")))
  else if is_empty (trim (agent_name d)) then Err (invalid "metadata.name must not be empty")
  else
    match prompt (spec d), is_empty (trim (instructions (spec d))) with
    | None, true =>
      Err (invalid "spec.instructions must not be empty (or reference a template via spec.prompt)")
    | Some _, false =>
      Err (invalid "spec sets both `instructions` and `prompt` — inline text or a template reference, not both")
    | Some p, true => validate_spec p
    | None, false => Ok ()
    end.

(** [serde_yaml::from_str] at [AgentDefinition]; an error is its message. *)
Definition agent_from_yaml (parsed : string + AgentDefinition) : result AgentDefinition :=
  match parsed with
  | inl e => Err (invalid ("invalid agent manifest: " +:+ e))
  | inr d => _ ← validate_agent d; Ok d
  end.

(** ** Retrieval and events *)

Record RetrievedContext := { rc_source : string; rc_content : string; rc_score : f32 }.

Class ContextRetriever (R : Type) :=
  retrieve : string → MemorySpec → R → R * result (list RetrievedContext).

Inductive RunEvent :=
  | EvStart (model provider : string)
  | EvMemoryRetrieved (source : string) (score : f32)
  | EvDelta (text : string)
  | EvToolCallDelta (index : nat) (name arguments : string)
  | EvReasoningDelta (text : string)
  | EvToolCall (name arguments : string)
  | EvToolResult (name : string) (ok : bool)
  | EvUiFrame (frame_id : string) (frame : Value)
  | EvDone (usage : Usage).
