(* ===== verification/Agent.v ===== *)
(** * The agent runtime

    crates/wovyr-agent/src/runtime.rs: the options of a run and the run loop,
    which streams the model, executes the tools it asks for and feeds their
    results back, until an answer or the end of the step budget.  The world of a
    run is the gateway's, the state tools act on, the retriever, the guardrails
    and the events emitted; [a_requests] and [a_calls] record the requests handed
    to the gateway and the executions of tools, in order.  The tool calls of one
    turn run concurrently: each is one step, in any order. *)
From stdpp Require Import base tactics list numbers strings gmap.
From Stdlib Require Import Lia ZArith.
From S2P Require Import Prelude.
From S2P Require Import RustStr.
From S2P Require Import F64.
From S2P Require Import Common.
From S2P Require Import Effect.
From S2P Require Import JsonValue.
From S2P Require Import Resilience.
From S2P Require Import Chat.
From S2P Require Import Gateway.
From S2P Require Import ToolRegistry.
From S2P Require Import AgentContext.
From S2P Require Import Guardrail.
From S2P Require Import AgentDef.

Definition DEFAULT_MAX_STEPS : nat := 8.
Definition DEFAULT_STEP_RETRIES : nat := 2.
Definition FORCED_FINAL_ANSWER_NOTE : string :=
  "The step budget for this run is exhausted and tools are no longer available. Provide your best final answer now, using only the information already gathered.".

(** ** Options *)

Record RunOptions (G : Type) := {
  input : Value;
  max_steps_option : option nat;
  tenant : string;
  hosted : bool;
  opt_egress_allowlist : option (list string);
  opt_trust_class : TrustClass;
  context : ContextPolicy;
  step_retries : nat;
  guardrails : list G }.
Arguments input {G} _.
Arguments max_steps_option {G} _.
Arguments tenant {G} _.
Arguments hosted {G} _.
Arguments opt_egress_allowlist {G} _.
Arguments opt_trust_class {G} _.
Arguments context {G} _.
Arguments step_retries {G} _.
Arguments guardrails {G} _.

Definition RunOptions_new {G} (v : Value) : RunOptions G := {|
  input := v; max_steps_option := None; tenant := ""; hosted := false; opt_egress_allowlist := None;
  opt_trust_class := FirstParty; context := ContextPolicy_default; step_retries := DEFAULT_STEP_RETRIES;
  guardrails := [] |}.

Definition with_tenant {G} (t : string) (o : RunOptions G) : RunOptions G := {|
  input := input o; max_steps_option := max_steps_option o; tenant := t; hosted := hosted o; opt_egress_allowlist := opt_egress_allowlist o;
  opt_trust_class := opt_trust_class o; context := context o; step_retries := step_retries o; guardrails := guardrails o |}.
Definition with_max_steps {G} (n : nat) (o : RunOptions G) : RunOptions G := {|
  input := input o; max_steps_option := Some n; tenant := tenant o; hosted := hosted o; opt_egress_allowlist := opt_egress_allowlist o;
  opt_trust_class := opt_trust_class o; context := context o; step_retries := step_retries o; guardrails := guardrails o |}.
Definition with_hosted {G} (h : bool) (o : RunOptions G) : RunOptions G := {|
  input := input o; max_steps_option := max_steps_option o; tenant := tenant o; hosted := h; opt_egress_allowlist := opt_egress_allowlist o;
  opt_trust_class := opt_trust_class o; context := context o; step_retries := step_retries o; guardrails := guardrails o |}.
Definition with_egress_allowlist {G} (hosts : list string) (o : RunOptions G) : RunOptions G := {|
  input := input o; max_steps_option := max_steps_option o; tenant := tenant o; hosted := hosted o; opt_egress_allowlist := Some hosts;
  opt_trust_class := opt_trust_class o; context := context o; step_retries := step_retries o; guardrails := guardrails o |}.
Definition with_trust_class {G} (t : TrustClass) (o : RunOptions G) : RunOptions G := {|
  input := input o; max_steps_option := max_steps_option o; tenant := tenant o; hosted := hosted o; opt_egress_allowlist := opt_egress_allowlist o;
  opt_trust_class := t; context := context o; step_retries := step_retries o; guardrails := guardrails o |}.
Definition with_context_policy {G} (c : ContextPolicy) (o : RunOptions G) : RunOptions G := {|
  input := input o; max_steps_option := max_steps_option o; tenant := tenant o; hosted := hosted o; opt_egress_allowlist := opt_egress_allowlist o;
  opt_trust_class := opt_trust_class o; context := c; step_retries := step_retries o; guardrails := guardrails o |}.
Definition with_step_retries {G} (n : nat) (o : RunOptions G) : RunOptions G := {|
  input := input o; max_steps_option := max_steps_option o; tenant := tenant o; hosted := hosted o; opt_egress_allowlist := opt_egress_allowlist o;
  opt_trust_class := opt_trust_class o; context := context o; step_retries := n; guardrails := guardrails o |}.
Definition with_guardrail {G} (g : G) (o : RunOptions G) : RunOptions G := {|
  input := input o; max_steps_option := max_steps_option o; tenant := tenant o; hosted := hosted o; opt_egress_allowlist := opt_egress_allowlist o;
  opt_trust_class := opt_trust_class o; context := context o; step_retries := step_retries o; guardrails := guardrails o ++ [g] |}.

Record AgentOutput := { out_text : string; out_usage : Usage; out_steps : nat }.

Definition user_prompt `{JsonText} (v : Value) : string :=
  match v with
  | Object m => match assoc "message" m ≫= as_str with Some s => s | None => json_display v end
  | Str s => s
  | other => json_display other
  end.

Definition format_context (hits : list RetrievedContext) : string :=
  match hits with
  | [] => "Retrieved knowledge: (none found in the knowledge base)"
  | _ =>
    foldl (λ block hit, block +:+ ("[" +:+ (rc_source hit +:+ ("] " +:+ (rc_content hit +:+ String newline "")))))
      ("Retrieved knowledge (answer using only this; cite the source):" +:+ String newline "") hits
  end.

(** [WOVYR_UNRESTRICTED_TOOLS] as the environment has it. *)
Definition unrestricted_tools_escape_hatch (var : option string) : bool :=
  match var with Some v => String.eqb v "1" | None => false end.

(** ** The world of a run *)

Record Execution := { ex_tool : string; ex_context : ToolContext; ex_parameters : Value }.

Record AgentWorld (GW X R G : Type) := {
  a_gateway : GW; a_tools : X; a_retriever : R; a_guardrails : list G;
  a_events : list RunEvent; a_requests : list ChatRequest; a_calls : list Execution }.
Arguments a_gateway {GW X R G} _.
Arguments a_tools {GW X R G} _.
Arguments a_retriever {GW X R G} _.
Arguments a_guardrails {GW X R G} _.
Arguments a_events {GW X R G} _.
Arguments a_requests {GW X R G} _.
Arguments a_calls {GW X R G} _.

Record ToolOutcome := { result_text : string; ok : bool }.
Definition failed (text : string) : ToolOutcome := {| result_text := text; ok := false |}.

(** What the loop carries from step to step. *)
Record Progress := { p_messages : list Message; p_usage : Usage; p_steps : nat; p_text : string }.

(** The order in which the calls of a turn run, from what the runtime picks. *)
Definition turn_order (picks : list nat) (n : nat) : list nat :=
  let picked := remove_dups (List.filter (λ i, Nat.ltb i n) picks) in
  picked ++ List.filter (λ i, negb (existsb (Nat.eqb i) picked)) (seq 0 n).

Definition assoc_nat {A} (i : nat) (l : list (nat * A)) : option A := snd <$> List.find (λ p, Nat.eqb i p.1) l.

Section agent.
Context `{HU : Unicode, HJT : JsonText}.
Context `{HP : AIProvider P, HB : CircuitBreaker B, HC : SemanticCacheStore ChatResponse C, HJ : Jitter J, HE : Monotonic E}.
Context `{HT : Tool T X, HR : ContextRetriever R, HG : Guardrail G}.
Context (gw : Gateway) (tools : registry T) (def : AgentDefinition) (opts : RunOptions G).
(** [WOVYR_UNRESTRICTED_TOOLS], and the order tool calls run in, per step. *)
Context (env_unrestricted : option string) (schedule : nat → list nat).
Notation GW := (World P B C J E).
Notation W := (AgentWorld GW X R G).

Definition set_gateway (x : GW) (w : W) : W := {|
  a_gateway := x; a_tools := a_tools w; a_retriever := a_retriever w; a_guardrails := a_guardrails w;
  a_events := a_events w; a_requests := a_requests w; a_calls := a_calls w |}.
Definition set_tools_state (x : X) (w : W) : W := {|
  a_gateway := a_gateway w; a_tools := x; a_retriever := a_retriever w; a_guardrails := a_guardrails w;
  a_events := a_events w; a_requests := a_requests w; a_calls := a_calls w |}.
Definition set_retriever (x : R) (w : W) : W := {|
  a_gateway := a_gateway w; a_tools := a_tools w; a_retriever := x; a_guardrails := a_guardrails w;
  a_events := a_events w; a_requests := a_requests w; a_calls := a_calls w |}.
Definition set_guardrails (x : list G) (w : W) : W := {|
  a_gateway := a_gateway w; a_tools := a_tools w; a_retriever := a_retriever w; a_guardrails := x;
  a_events := a_events w; a_requests := a_requests w; a_calls := a_calls w |}.
Definition push_event (e : RunEvent) (w : W) : W := {|
  a_gateway := a_gateway w; a_tools := a_tools w; a_retriever := a_retriever w; a_guardrails := a_guardrails w;
  a_events := a_events w ++ [e]; a_requests := a_requests w; a_calls := a_calls w |}.
Definition push_request (r : ChatRequest) (w : W) : W := {|
  a_gateway := a_gateway w; a_tools := a_tools w; a_retriever := a_retriever w; a_guardrails := a_guardrails w;
  a_events := a_events w; a_requests := a_requests w ++ [r]; a_calls := a_calls w |}.
Definition push_call (x : Execution) (w : W) : W := {|
  a_gateway := a_gateway w; a_tools := a_tools w; a_retriever := a_retriever w; a_guardrails := a_guardrails w;
  a_events := a_events w; a_requests := a_requests w; a_calls := a_calls w ++ [x] |}.

Definition emit (e : RunEvent) : M W () := modify (push_event e).
Definition gateway_call {A} (m : M GW A) : M W A := zoom a_gateway set_gateway m.
Definition apply (stage : GuardrailStage) (content : string) : M W string :=
  zoom a_guardrails set_guardrails (apply_guardrails stage content).

(** ** One model call *)

(** The loop of [stream_chat] over the events of the stream. *)
Fixpoint read_stream (buffer : bool) (events : list (result ChatStreamEvent)) (completed : option ChatResponse)
    : M W ChatResponse :=
  match events with
  | [] => lift (of_result (ok_or (provider "model stream ended without a final response") completed))
  | event :: events =>
    event ← gateway_call (metered gw event);
    match event with
    | Err e => throw e
    | Ok (Done response) => read_stream buffer events (Some response)
    | Ok event =>
      if buffer then read_stream buffer events completed
      else
        _ ← match event with
            | Delta text => if is_empty text then mret () else emit (EvDelta text)
            | ToolCallDelta index _ name arguments => emit (EvToolCallDelta index name arguments)
            | ReasoningDelta text => if is_empty text then mret () else emit (EvReasoningDelta text)
            | Done _ => mret ()
            end;
        read_stream buffer events completed
    end
  end.

Definition stream_chat (request : ChatRequest) (buffer : bool) : M W ChatResponse :=
  _ ← modify (push_request request);
  events ← gateway_call (chat_stream gw request);
  read_stream buffer events None.

(** The retry loop of a step; [retries] is what is left of them. *)
Fixpoint model_step (retries : nat) (request : ChatRequest) (buffer : bool) : M W ChatResponse :=
  r ← catch (stream_chat request buffer);
  match r with
  | Ok response => mret response
  | Err err =>
    match retries with
    | S retries => if is_transient err then model_step retries request buffer else throw err
    | O => throw err
    end
  end.

(** ** Tool calls *)

Definition resolve_tool (id : string) : result ToolSpec :=
  tool ← ok_or (config ("agent references unknown tool `" +:+ (id +:+ "`"))) (tools !! id);
  let meta := tool_metadata_of tool in
  Ok {| ts_name := tm_id meta; ts_description := tm_description meta;
        ts_parameters := tool_input_schema tool; ts_strict := tm_strict meta |}.
Definition resolve_tools : result (list ToolSpec) := collect resolve_tool (spec_tools (spec def)).

Definition granted : option (list string) :=
  match permissions (spec def) with
  | Some perms => Some perms
  | None => if hosted opts && negb (unrestricted_tools_escape_hatch env_unrestricted) then Some [] else None
  end.

Definition show_nat (n : nat) : string := show_Z (Z.of_nat n).
Definition execution_id (step idx : nat) : string :=
  agent_name def +:+ ("-s" +:+ (show_nat step +:+ ("-t" +:+ show_nat idx))).
Definition tool_context (step idx : nat) : ToolContext := {|
  tx_execution_id := execution_id step idx; tx_agent_id := agent_name def; tx_workdir := "."; tx_tenant := tenant opts;
  granted_permissions := granted; egress_allowlist := opt_egress_allowlist opts; trust_class := opt_trust_class opts |}.

Definition call_parameters (call : ToolCall) : string + Value :=
  if is_empty (trim (tc_arguments call)) then inr (Object []) else json_from_str (tc_arguments call).

Definition execute_tool_call (step idx : nat) (call : ToolCall) : M W ToolOutcome :=
  match tools !! tc_name call with
  | None => mret (failed ("error: tool `" +:+ (tc_name call +:+ "` is not available")))
  | Some tool =>
    match call_parameters call with
    | inl e =>
      mret (failed ("error: the arguments for tool `" +:+ (tc_name call +:+ ("` are not valid JSON (" +:+ (e +:+
        "). Re-issue the tool call with well-formed JSON arguments.")))))
    | inr params =>
      let ctx := tool_context step idx in
      match check_permissions (tm_permissions (tool_metadata_of tool)) ctx with
      | inl e => mret (failed ("error: " +:+ tool_error_display e))
      | inr _ =>
        _ ← modify (push_call {| ex_tool := tc_name call; ex_context := ctx; ex_parameters := params |});
        x ← gets a_tools;
        let '(x, r) := tool_execute tool ctx {| parameters := params |} x in
        _ ← modify (set_tools_state x);
        mret (match r with
              | inr resp => {| result_text := json_display (payload resp); ok := success resp |}
              | inl e => failed ("error: " +:+ tool_error_display e)
              end)
      end
    end
  end.

(** [join_all]: every call runs, their results come in the order of the calls. *)
Fixpoint run_calls (step : nat) (calls : list ToolCall) (order : list nat) : M W (list (nat * ToolOutcome)) :=
  match order with
  | [] => mret []
  | idx :: order =>
    match calls !! idx with
    | None => run_calls step calls order
    | Some call =>
      outcome ← execute_tool_call step idx call;
      rest ← run_calls step calls order;
      mret ((idx, outcome) :: rest)
    end
  end.
Definition join_all (step : nat) (calls : list ToolCall) : M W (list ToolOutcome) :=
  outcomes ← run_calls step calls (turn_order (schedule step) (length calls));
  mret (omap (λ idx, assoc_nat idx outcomes) (seq 0 (length calls))).

Fixpoint announce (calls : list ToolCall) : M W () :=
  match calls with
  | [] => mret ()
  | call :: calls => _ ← emit (EvToolCall (tc_name call) (tc_arguments call)); announce calls
  end.

(** The loop that reports the results and adds them to the history. *)
Fixpoint report (outcomes : list (ToolCall * ToolOutcome)) (messages : list Message) : M W (list Message) :=
  match outcomes with
  | [] => mret messages
  | (call, outcome) :: outcomes =>
    _ ← emit (EvToolResult (tc_name call) (ok outcome));
    report outcomes (messages ++ [tool_result (tc_id call) (tc_name call) (result_text outcome)])
  end.

(** ** The loop *)

Definition max_steps_of : nat :=
  match max_steps_option opts with
  | Some n => n
  | None => default DEFAULT_MAX_STEPS (max_steps (spec def))
  end.

Definition tools_overhead (specs : list ToolSpec) : nat :=
  list_sum_of (λ t, count Heuristic (ts_name t) + count Heuristic (ts_description t)
    + count Heuristic (json_display (ts_parameters t)) + PER_TOOL_OVERHEAD) specs.

Definition step_request (model : string) (specs : list ToolSpec) (messages : list Message) (last_step : bool)
    : ChatRequest :=
  let forced := last_step && negb (bool_decide (length specs = 0)) in {|
  Chat.model := model;
  messages := if forced then messages ++ [system FORCED_FINAL_ANSWER_NOTE] else messages;
  temperature := spec_temperature (spec def); max_tokens := spec_max_tokens (spec def);
  Chat.tools := if forced then [] else specs;
  tool_choice := None; response_format := None |}.

Fixpoint steps_loop (model : string) (specs : list ToolSpec) (buffer : bool) (steps : list nat) (st : Progress)
    : M W Progress :=
  match steps with
  | [] => mret st
  | step :: steps =>
    let messages := c_messages (compact (p_messages st) (tools_overhead specs) (context opts) Heuristic) in
    let request := step_request model specs messages (Nat.eqb (step + 1) max_steps_of) in
    response ← model_step (step_retries opts) request buffer;
    let usage := Usage_add (p_usage st) (Chat.usage response) in
    match tool_calls (message response) with
    | [] => mret {| p_messages := messages; p_usage := usage; p_steps := S (p_steps st);
                    p_text := default "" (Chat.content (message response)) |}
    | calls =>
      let messages := messages ++ [message response] in
      _ ← announce calls;
      outcomes ← join_all step calls;
      messages ← report (zip calls outcomes) messages;
      steps_loop model specs buffer steps
        {| p_messages := messages; p_usage := usage; p_steps := S (p_steps st); p_text := p_text st |}
    end
  end.

Fixpoint surface (hits : list RetrievedContext) : M W () :=
  match hits with
  | [] => mret ()
  | hit :: hits => _ ← emit (EvMemoryRetrieved (rc_source hit) (rc_score hit)); surface hits
  end.

(** The grounding: the system messages of a run. *)
Definition ground (has_retriever : bool) (prompt : string) : M W (list Message) :=
  let instructions := [system (instructions (spec def))] in
  match memory (spec def) with
  | Some mem =>
    if has_retriever && mem_enabled mem then
      r ← gets a_retriever;
      let '(r, hits) := retrieve prompt mem r in
      _ ← modify (set_retriever r);
      hits ← lift (of_result hits);
      _ ← surface hits;
      mret (instructions ++ [system (format_context hits)])
    else mret instructions
  | None => mret instructions
  end.

Definition unresolved : Error :=
  config (match prompt (spec def) with
    | Some p => "agent `" +:+ (agent_name def +:+ ("` references prompt template `" +:+ (Prompt.ps_template p +:+
        "` — resolve it against a PromptRegistry (AgentDefinition::resolve_instructions) before running")))
    | None => "agent `" +:+ (agent_name def +:+ "` has empty instructions")
    end).

(** The end of a run, after the loop. *)
Definition finish (buffer : bool) (st : Progress) : M W AgentOutput :=
  if Nat.eqb (p_steps st) max_steps_of && is_empty (p_text st) then
    throw (Runtime ("agent did not finish within " +:+ (show_nat max_steps_of +:+ " steps")))
  else
    text ← (if buffer : bool then
              text ← apply Output (p_text st);
              _ ← (if is_empty text then mret () else emit (EvDelta text));
              mret text
            else mret (p_text st));
    _ ← emit (EvDone (p_usage st));
    mret {| out_text := text; out_usage := p_usage st; out_steps := p_steps st |}.

Definition run_agent_inner (has_retriever : bool) : M W AgentOutput :=
  _ ← modify (set_guardrails (guardrails opts));
  if is_empty (trim (instructions (spec def))) then throw unresolved else
  w ← gets Datatypes.id;
  let model := resolve_model (pinned_model (spec def)) (selector def) (a_gateway w) in
  _ ← emit (EvStart model (provider_name (a_gateway w)));
  specs ← lift (of_result resolve_tools);
  prompt ← apply Input (user_prompt (input opts));
  buffer ← gets (λ w, checks_output (a_guardrails w));
  preamble ← ground has_retriever prompt;
  st ← steps_loop model specs buffer (seq 0 max_steps_of)
         {| p_messages := preamble ++ [user prompt]; p_usage := Usage_default; p_steps := 0; p_text := "" |};
  finish buffer st.

Definition run_agent : M W AgentOutput := run_agent_inner false.
Definition run_agent_with_memory : M W AgentOutput := run_agent_inner true.
End agent.
