(* ===== verification/AgentInv.v ===== *)
(** * What an agent run does to the world

    A program logic for the run loop: what a call adds to the three logs of a
    run (the events, the requests handed to the gateway, the executions of
    tools), whatever the providers answer and the tools do; and the
    specification of every call in it. *)
From stdpp Require Import base tactics list numbers strings gmap.
From Stdlib Require Import Lia ZArith.
From S2P Require Import Prelude.
From S2P Require Import RustStr.
From S2P Require Import F64.
From S2P Require Import Common.
From S2P Require Import Effect.
From S2P Require Import JsonValue.
From S2P Require Import Resilience.
From S2P Require Import Chat.
From S2P Require Import Gateway.
From S2P Require Import GatewayInv.
From S2P Require Import ToolRegistry.
From S2P Require Import AgentContext.
From S2P Require Import Guardrail.
From S2P Require Import AgentDef.
From S2P Require Import Agent.

(** ** Logs *)

Record Log := { l_events : list RunEvent; l_requests : list ChatRequest; l_calls : list Execution }.
Definition nothing : Log := {| l_events := []; l_requests := []; l_calls := [] |}.
Definition logs_app (d d' : Log) : Log := {|
  l_events := l_events d ++ l_events d'; l_requests := l_requests d ++ l_requests d'; l_calls := l_calls d ++ l_calls d' |}.
Infix "⊕" := logs_app (at level 50, left associativity) : wovyr_scope.
Local Open Scope wovyr_scope.
Definition event_log (e : RunEvent) : Log := {| l_events := [e]; l_requests := []; l_calls := [] |}.
Definition request_log (r : ChatRequest) : Log := {| l_events := []; l_requests := [r]; l_calls := [] |}.
Definition call_log (x : Execution) : Log := {| l_events := []; l_requests := []; l_calls := [x] |}.

Lemma logs_nothing_l d : nothing ⊕ d = d.
Proof. by destruct d. Qed.
Lemma logs_nothing_r d : d ⊕ nothing = d.
Proof. destruct d. unfold logs_app. cbn. by rewrite !app_nil_r. Qed.
Lemma logs_assoc d1 d2 d3 : d1 ⊕ d2 ⊕ d3 = d1 ⊕ (d2 ⊕ d3).
Proof. unfold logs_app. cbn. by rewrite !app_assoc. Qed.

(** What the code relies on: an assistant's reply has the assistant's role. *)
Definition reply_ok (ev : result ChatStreamEvent) : Prop :=
  match ev with Ok (Done r) => role (message r) = RAssistant | _ => True end.
Class AssistantReplies (P : Type) `{AIProvider P} :=
  assistant_replies : ∀ req p, match (Chat.chat_stream req p).2 with Ok evs => Forall reply_ok evs | Err _ => True end.

(** A guardrail keeps its stages, and its checks return or fail. *)
Class GuardrailLaws (G : Type) `{Guardrail G} := {
  stages_fixed st c g st' : applies_to (check st c g).1 st' = applies_to g st';
  check_returns st c g s : (check st c g).2 = Stop s → ∃ e, s = Throw e }.

(** ** Streams of the gateway *)

Section stream.
Context `{HP : AIProvider P, HB : CircuitBreaker B, HC : SemanticCacheStore ChatResponse C, HJ : Jitter J, HE : Monotonic E}.
Context {HA : AssistantReplies P} (gw : Gateway).
Notation GW := (World P B C J E).

Notation shape w w' := (well_formed w' ∧ length (w_providers w') = length (w_providers w)) (only parsing).

Lemma quiet_shape (w w' : GW) : well_formed w → quiet w w' → shape w w'.
Proof. intros Hw [Hb Hs Hp]. unfold well_formed. by rewrite Hb, Hp. Qed.

Lemma allow_shape (w : GW) i : well_formed w → (i < length (w_providers w))%nat →
  wp (breaker_allow i) (λ _ w', shape w w') (λ _ _, False) w.
Proof.
  intros Hw Hi. unfold breaker_allow. destruct (now_ms_quiet w) as (t & w1 & Hn & Hq & _).
  destruct (quiet_shape _ _ Hw Hq) as [Hw1 Hp1].
  destruct (lookup_lt_is_Some_2 (w_breakers w1) i) as [b Hb]; [unfold well_formed in Hw1; lia|].
  unfold wp, mbind, M_bind, gets, modify, lift. rewrite Hn. cbn. rewrite Hb. cbn.
  destruct (allow t b) as [b' v]. cbn. unfold well_formed. cbn. rewrite length_insert. by rewrite Hw1.
Qed.
Lemma success_shape (w : GW) i : well_formed w → (i < length (w_providers w))%nat →
  wp (breaker_success i) (λ _ w', shape w w') (λ _ _, False) w.
Proof.
  intros Hw Hi. unfold breaker_success.
  destruct (lookup_lt_is_Some_2 (w_breakers w) i) as [b Hb]; [unfold well_formed in Hw; lia|].
  unfold wp, mbind, M_bind, gets, modify, lift. cbn. rewrite Hb. cbn. unfold well_formed. cbn.
  rewrite length_insert. by rewrite Hw.
Qed.
Lemma failure_shape (w : GW) i : well_formed w → (i < length (w_providers w))%nat →
  wp (breaker_failure i) (λ _ w', shape w w') (λ _ _, False) w.
Proof.
  intros Hw Hi. unfold breaker_failure. destruct (now_ms_quiet w) as (t & w1 & Hn & Hq & _).
  destruct (quiet_shape _ _ Hw Hq) as [Hw1 Hp1].
  destruct (lookup_lt_is_Some_2 (w_breakers w1) i) as [b Hb]; [unfold well_formed in Hw1; lia|].
  unfold wp, mbind, M_bind, gets, modify, lift. rewrite Hn. cbn. rewrite Hb. cbn.
  unfold well_formed. cbn. rewrite length_insert. by rewrite Hw1.
Qed.

Lemma stream_go_wp req cands hops last (w : GW) n : well_formed w → length (w_providers w) = n →
  Forall (λ i, (i < n)%nat) cands →
  wp (stream_go gw req cands hops last) (λ evs w', well_formed w' ∧ Forall reply_ok evs)
    (λ s w', well_formed w' ∧ ∃ e, s = Throw e) w.
Proof.
  intros Hw Hn Hc. revert hops last w Hw Hn. induction Hc as [|i cands Hi Hc IH]; intros hops last w Hw Hn; cbn [stream_go].
  { apply wp_fail. eauto. }
  destruct (Z.ltb _ _); [apply wp_fail; eauto|].
  eapply wp_call with (R := λ _ w', shape w w').
  { eapply wp_mono; [apply allow_shape; [done|by rewrite Hn]|done|done]. }
  intros ok w1 [Hw1 Hp1]. destruct ok; cbn [negb]; [|apply IH; [done|by rewrite Hp1]].
  apply wp_bind. unfold send, modify. unfold wp at 1. cbn.
  set (w2 := set_sent _ w1). assert (well_formed w2 ∧ w_providers w2 = w_providers w1) as [Hw2 Hp2] by done.
  destruct (lookup_lt_is_Some_2 (w_providers w2) i) as [p Hp]; [rewrite Hp2, Hp1, Hn; done|].
  apply wp_assoc, wp_gets_bind. rewrite Hp. apply wp_lift_bind. cbn [expect].
  pose proof (assistant_replies req p) as Hrep. destruct (Chat.chat_stream req p) as [p' r]. cbn in Hrep.
  apply wp_bind. unfold wp at 1, modify. set (w3 := set_providers _ w2).
  assert (well_formed w3 ∧ length (w_providers w3) = length (w_providers w2)) as [Hw3 Hp3].
  { unfold well_formed, w3. cbn. rewrite length_insert. done. }
  destruct r as [stream|err].
  - eapply wp_call with (R := λ _ w', shape w3 w').
    + eapply wp_mono; [apply success_shape; [done|by rewrite Hp3, Hp2, Hp1, Hn]|done|done].
    + intros [] w4 [Hw4 _]. by apply wp_ret.
  - destruct (is_transient err); cbn [negb]; [|apply wp_fail; eauto].
    eapply wp_call with (R := λ _ w', shape w3 w').
    + eapply wp_mono; [apply failure_shape; [done|by rewrite Hp3, Hp2, Hp1, Hn]|done|done].
    + intros [] w4 [Hw4 Hp4]. apply IH; [done|]. by rewrite Hp4, Hp3, Hp2, Hp1.
Qed.

Lemma chat_stream_wp req (w : GW) : well_formed w →
  wp (chat_stream gw req) (λ evs w', well_formed w' ∧ Forall reply_ok evs) (λ s w', well_formed w' ∧ ∃ e, s = Throw e) w.
Proof.
  intros Hw. unfold chat_stream. apply wp_gets_bind. apply (stream_go_wp _ _ _ _ _ (length (w_providers w))); [done..|].
  apply Forall_forall. intros i Hi. cbv beta in Hi. apply elem_of_seq in Hi. cbn in Hi |- *. lia.
Qed.

Lemma metered_wp ev (w : GW) : well_formed w →
  wp (metered gw ev) (λ ev' w', well_formed w' ∧ ev' = ev) (λ _ _, False) w.
Proof.
  intros Hw. unfold metered. apply wp_bind. eapply wp_mono with (Q := λ _ w', well_formed w') (E := λ _ _, False).
  - destruct ev as [[]|]; try by apply wp_ret. eapply wp_mono; [apply calm_emit_live| |done].
    intros [] w' Hq. by destruct (quiet_shape _ _ Hw Hq).
  - intros [] w' Hw'. by apply wp_ret.
  - done.
Qed.
End stream.

(** ** The order of the calls of a turn *)

Lemma turn_order_perm picks n : turn_order picks n ≡ₚ seq 0 n.
Proof.
  apply NoDup_Permutation.
  - unfold turn_order. apply NoDup_app. split_and!; [apply NoDup_remove_dups| |apply NoDup_filter_bool, NoDup_seq].
    intros i Hi [_ Hn]%filter_elem. apply negb_true_iff, not_true_iff_false in Hn. apply Hn.
    apply existsb_elem. exists i. split; [done|apply Nat.eqb_refl].
  - apply NoDup_seq.
  - intros i. unfold turn_order. rewrite elem_of_app, elem_of_remove_dups, !filter_elem, elem_of_seq, Nat.ltb_lt.
    split; [intros [[_ ?]|[? _]]; lia|]. intros Hi.
    destruct (existsb (Nat.eqb i) (remove_dups (List.filter (λ i, Nat.ltb i n) picks))) eqn:E; [left|by right].
    apply existsb_elem in E as (j & Hj & ->%Nat.eqb_eq). apply elem_of_remove_dups, filter_elem in Hj as [? ?]. split; [done|lia].
Qed.

Lemma assoc_nat_in {A} i (l : list (nat * A)) : i ∈ l.*1 → is_Some (assoc_nat i l).
Proof.
  unfold assoc_nat. induction l as [|[j a] l IH]; [by intros ?%not_elem_of_nil|]. cbn.
  intros [->|Hi]%elem_of_cons; [by rewrite Nat.eqb_refl|]. destruct (Nat.eqb i j); [done|auto].
Qed.

(** ** A logic for the logs *)

Section runs.
Context `{HU : Unicode, HJT : JsonText}.
Context `{HP : AIProvider P, HB : CircuitBreaker B, HC : SemanticCacheStore ChatResponse C, HJ : Jitter J, HE : Monotonic E}.
Context `{HT : Tool T X, HR : ContextRetriever R, HG : Guardrail G}.
Context {HA : AssistantReplies P} {HGL : GuardrailLaws G}.
Context (gw : Gateway) (tools : registry T) (def : AgentDefinition) (opts : RunOptions G).
Context (env_unrestricted : option string) (schedule : nat → list nat).
(** Whether a guardrail checks the output. *)
Context (b : bool).
Notation GW := (World P B C J E).
Notation W := (AgentWorld GW X R G).

Definition sound (w : W) : Prop := well_formed (a_gateway w) ∧ checks_output (a_guardrails w) = b.

Record grew (w w' : W) (d : Log) : Prop := {
  g_events : a_events w' = a_events w ++ l_events d;
  g_requests : a_requests w' = a_requests w ++ l_requests d;
  g_calls : a_calls w' = a_calls w ++ l_calls d }.

Lemma grew_nothing w w' : a_events w' = a_events w → a_requests w' = a_requests w → a_calls w' = a_calls w →
  grew w w' nothing.
Proof. intros. split; by rewrite app_nil_r. Qed.
Lemma grew_trans w1 w2 w3 d1 d2 : grew w1 w2 d1 → grew w2 w3 d2 → grew w1 w3 (d1 ⊕ d2).
Proof. intros [E1 R1 C1] [E2 R2 C2]. split; cbn; by rewrite ?E2, ?E1, ?R2, ?R1, ?C2, ?C1, app_assoc. Qed.

(** [runs m Φ Ψ]: from any sound world [m] returns [a] with logs [Φ a], or throws
    with logs [Ψ]; it does nothing else. *)
Definition runs {A} (m : M W A) (Φ : A → Log → Prop) (Ψ : Log → Prop) : Prop := ∀ w, sound w →
  wp m (λ a w', sound w' ∧ ∃ d, grew w w' d ∧ Φ a d)
    (λ s w', sound w' ∧ (∃ e, s = Throw e) ∧ ∃ d, grew w w' d ∧ Ψ d) w.

Lemma runs_mono {A} (m : M W A) (Φ Φ' : A → Log → Prop) (Ψ Ψ' : Log → Prop) :
  runs m Φ Ψ → (∀ a d, Φ a d → Φ' a d) → (∀ d, Ψ d → Ψ' d) → runs m Φ' Ψ'.
Proof.
  intros Hm HΦ HΨ w Hw. eapply wp_mono; [by apply Hm| |]; cbn.
  - intros a w' (? & d & ? & ?). eauto 6.
  - intros s w' (? & ? & d & ? & ?). split_and!; eauto.
Qed.

Lemma runs_ret {A} (a : A) (Φ : A → Log → Prop) Ψ : Φ a nothing → runs (mret a) Φ Ψ.
Proof. intros Ha w Hw. apply wp_ret. split; [done|]. exists nothing. split; [by apply grew_nothing|done]. Qed.

Lemma runs_throw {A} e (Φ : A → Log → Prop) (Ψ : Log → Prop) : Ψ nothing → runs (throw e) Φ Ψ.
Proof. intros Ha w Hw. apply wp_fail. split_and!; [done|eauto|]. exists nothing. split; [by apply grew_nothing|done]. Qed.

Lemma runs_bind {A D} (m : M W A) (k : A → M W D) (Φ1 : A → Log → Prop) (Φ : D → Log → Prop) Ψ :
  runs m Φ1 Ψ → (∀ a d1, Φ1 a d1 → runs (k a) (λ x d2, Φ x (d1 ⊕ d2)) (λ d2, Ψ (d1 ⊕ d2))) → runs (m ≫= k) Φ Ψ.
Proof.
  intros Hm Hk w Hw. apply wp_bind. eapply wp_mono; [by apply Hm| |done]. cbn.
  intros a w' (Hw' & d1 & Hd1 & Ha). eapply wp_mono; [by apply (Hk a d1)| |]; cbn.
  - intros x w2 (? & d2 & ? & ?). split; [done|]. exists (d1 ⊕ d2). split; [by eapply grew_trans|done].
  - intros s w2 (? & ? & d2 & ? & ?). split_and!; [done|done|]. exists (d1 ⊕ d2). split; [by eapply grew_trans|done].
Qed.

(** A call that leaves the logs alone. *)
Lemma runs_quiet_bind {A D} (m : M W A) (k : A → M W D) (R1 : A → Prop) (Φ : D → Log → Prop) (Ψ : Log → Prop) :
  runs m (λ a d, d = nothing ∧ R1 a) (λ d, d = nothing) → Ψ nothing →
  (∀ a, R1 a → runs (k a) Φ Ψ) → runs (m ≫= k) Φ Ψ.
Proof.
  intros Hm H0 Hk. eapply runs_bind; [eapply runs_mono; [done|done|by intros ? ->]|].
  intros a d1 [-> Ha]. eapply runs_mono; [by apply Hk| |]; intros; by rewrite logs_nothing_l.
Qed.

Lemma runs_gets_bind {A D} (f : W → A) (k : A → M W D) Φ Ψ :
  (∀ w, sound w → runs (k (f w)) Φ Ψ) → runs (gets f ≫= k) Φ Ψ.
Proof. intros Hk w Hw. apply wp_gets_bind. by apply Hk. Qed.

Lemma runs_result {A} (r : result A) (Φ : A → Log → Prop) (Ψ : Log → Prop) :
  match r with Ok a => Φ a nothing | Err _ => Ψ nothing end → runs (lift (of_result r)) Φ Ψ.
Proof. destruct r as [a|e]; intros Hr; [by apply runs_ret|by apply runs_throw]. Qed.

Lemma runs_catch {A} (m : M W A) Φ Ψ :
  runs m Φ Ψ → runs (catch m) (λ r d, match r with Ok a => Φ a d | Err _ => Ψ d end) (λ _, False).
Proof.
  intros Hm w Hw. apply wp_catch. eapply wp_mono; [by apply Hm|done|].
  intros s w' (? & [e ->] & d & ? & ?). eauto.
Qed.

Lemma runs_modify (f : W → W) d : (∀ w, sound w → sound (f w) ∧ grew w (f w) d) →
  runs (modify f) (λ _ d', d' = d) (λ _, False).
Proof. intros Hf w Hw. destruct (Hf w Hw). unfold wp, modify. eauto. Qed.

Lemma runs_emit e : runs (emit e) (λ _ d, d = event_log e) (λ _, False).
Proof. apply runs_modify. intros w Hw. split; [done|]. split; cbn; by rewrite ?app_nil_r. Qed.

Lemma runs_gateway {A} (m : M GW A) (Q : A → Prop) :
  (∀ g, well_formed g → wp m (λ a g', well_formed g' ∧ Q a) (λ s g', well_formed g' ∧ ∃ e, s = Throw e) g) →
  runs (gateway_call m) (λ a d, d = nothing ∧ Q a) (λ d, d = nothing).
Proof.
  intros Hm w [Hg Hb]. unfold wp, gateway_call, zoom. specialize (Hm (a_gateway w) Hg). unfold wp in Hm.
  destruct (m (a_gateway w)) as [g' [a|s]].
  - destruct Hm as [Hg' Ha]. split; [by split|]. exists nothing. split; [by apply grew_nothing|done].
  - destruct Hm as [Hg' He]. split; [by split|]. split; [done|]. exists nothing. split; [by apply grew_nothing|done].
Qed.

(** ** Guardrails *)

Lemma apply_guardrails_laws stage gs : ∀ content,
  checks_output (apply_guardrails stage content gs).1 = checks_output gs ∧
  ∀ s, (apply_guardrails stage content gs).2 = Stop s → ∃ e, s = Throw e.
Proof.
  induction gs as [|g gs IH]; intros content; [done|]. cbn [apply_guardrails].
  destruct (applies_to g stage); cbn [negb].
  - pose proof (stages_fixed stage content g Output) as Hst. pose proof (check_returns stage content g) as Hret.
    destruct (check stage content g) as [g' [[|replacement|reason]|s]]; cbn [fst snd] in Hst, Hret.
    + destruct (IH content) as [Hc Hs]. destruct (apply_guardrails stage content gs) as [gs' r]. unfold checks_output in *. cbn in *.
      by rewrite Hst, Hc.
    + destruct (IH replacement) as [Hc Hs]. destruct (apply_guardrails stage replacement gs) as [gs' r]. unfold checks_output in *. cbn in *.
      by rewrite Hst, Hc.
    + cbn. rewrite Hst. split; [done|]. intros s [= <-]. eauto.
    + destruct (Hret s eq_refl) as [e ->]. cbn. rewrite Hst. split; [done|]. intros s [= <-]. eauto.
  - destruct (IH content) as [Hc Hs]. destruct (apply_guardrails stage content gs) as [gs' r]. unfold checks_output in *. cbn in *.
    by rewrite Hc.
Qed.

Lemma runs_apply stage content :
  runs (apply stage content)
    (λ t d, d = nothing ∧ ∃ gs gs', apply_guardrails stage content gs = (gs', Ret t)) (λ d, d = nothing).
Proof.
  intros w [Hg Hb]. unfold wp, apply, zoom. destruct (apply_guardrails_laws stage (a_guardrails w) content) as [Hc Hs].
  destruct (apply_guardrails stage content (a_guardrails w)) as [gs [t|s]] eqn:Ha; cbn in Hc, Hs |- *.
  - split; [split; [done|cbn; by rewrite Hc]|]. exists nothing. split; [by apply grew_nothing|]. eauto.
  - split; [split; [done|cbn; by rewrite Hc]|]. split; [by apply Hs|]. exists nothing. split; [by apply grew_nothing|done].
Qed.

(** ** One model call *)

(** The events that carry text of the model. *)
Definition model_text (e : RunEvent) : bool :=
  match e with EvDelta _ | EvToolCallDelta _ _ _ | EvReasoningDelta _ => true | _ => false end.

(** Nothing is sent or executed; with buffering nothing is emitted. *)
Record streamed (buffer : bool) (n : nat) (request : ChatRequest) (d : Log) : Prop := {
  st_requests : l_requests d = replicate n request;
  st_calls : l_calls d = [];
  st_events : buffer = true → l_events d = [] }.

Lemma streamed_app buffer n n' req d d' : streamed buffer n req d → streamed buffer n' req d' →
  streamed buffer (n + n') req (d ⊕ d').
Proof.
  intros [R1 C1 E1] [R2 C2 E2]. split; cbn; [by rewrite R1, R2, replicate_add|by rewrite C1, C2|].
  intros Hbuf. by rewrite E1, E2.
Qed.

Lemma runs_read_stream buffer req events : Forall reply_ok events → ∀ completed,
  match completed with Some r => role (message r) = RAssistant | None => True end →
  runs (read_stream gw buffer events completed)
    (λ r d, role (message r) = RAssistant ∧ streamed buffer 0 req d) (streamed buffer 0 req).
Proof.
  induction 1 as [|ev events Hev Hevs IH]; intros completed Hc; cbn [read_stream].
  { apply runs_result. destruct completed as [r|]; cbn; by repeat split. }
  eapply runs_quiet_bind with (R1 := λ ev', ev' = ev).
  { apply runs_gateway. intros g Hg. eapply wp_mono; [by apply metered_wp|done|done]. }
  { by repeat split. }
  intros ? ->. destruct ev as [[text|index id name arguments|text|response]|e].
  4: { by apply IH. }
  4: { apply runs_throw. by repeat split. }
  all: destruct buffer; [by apply IH|].
  all: eapply runs_bind with (Φ1 := λ _ d, streamed false 0 req d).
  all: try (intros [] d1 Hd1; eapply runs_mono; [by apply IH| |]; cbn;
    [intros r d [Hr Hd]; split; [done|by apply (streamed_app false 0 0)]|intros d Hd; by apply (streamed_app false 0 0)]).
  - destruct (is_empty text); [by apply runs_ret|]. by eapply runs_mono; [apply runs_emit|intros ? ? ->|].
  - by eapply runs_mono; [apply runs_emit|intros ? ? ->|].
  - destruct (is_empty text); [by apply runs_ret|]. by eapply runs_mono; [apply runs_emit|intros ? ? ->|].
Qed.

Lemma runs_stream_chat req buffer :
  runs (stream_chat gw req buffer) (λ r d, role (message r) = RAssistant ∧ streamed buffer 1 req d) (streamed buffer 1 req).
Proof.
  unfold stream_chat. eapply runs_bind with (Φ1 := λ _ d, d = request_log req).
  { eapply runs_mono; [apply (runs_modify _ (request_log req))|done|done].
    intros w Hw. split; [done|]. split; cbn; by rewrite ?app_nil_r. }
  intros [] d1 ->.
  assert (∀ d, streamed buffer 0 req d → streamed buffer 1 req (request_log req ⊕ d)) as Hone.
  { intros d Hd. apply (streamed_app buffer 1 0); [|done]. by split. }
  eapply runs_quiet_bind with (R1 := λ evs, Forall reply_ok evs).
  - apply runs_gateway. intros g Hg. by apply chat_stream_wp.
  - apply Hone. by split.
  - intros evs Hevs. eapply runs_mono; [by apply (runs_read_stream buffer req)|intros r d [? ?]; auto|auto].
Qed.

Lemma runs_model_step retries req buffer :
  runs (model_step gw retries req buffer)
    (λ r d, role (message r) = RAssistant ∧ ∃ n, (1 ≤ n ≤ S retries)%nat ∧ streamed buffer n req d)
    (λ d, ∃ n, (1 ≤ n ≤ S retries)%nat ∧ streamed buffer n req d).
Proof.
  induction retries as [|retries IH]; cbn [model_step].
  all: eapply runs_bind; [eapply runs_mono; [apply runs_catch, runs_stream_chat|done|done]|].
  all: intros [response|err] d1 Hd1; cbv beta iota in Hd1.
  1, 3: destruct Hd1 as [Hr Hd1]; apply runs_ret; rewrite logs_nothing_r; split; [done|]; exists 1%nat; split; [lia|done].
  1: apply runs_throw; rewrite logs_nothing_r; exists 1%nat; split; [lia|done].
  destruct (is_transient err); [|apply runs_throw; rewrite logs_nothing_r; exists 1%nat; split; [lia|done]].
  eapply runs_mono; [apply IH| |]; cbn.
  - intros r d [Hr (n & Hn & Hd)]. split; [done|]. exists (1 + n)%nat. split; [lia|by apply streamed_app].
  - intros d (n & Hn & Hd). exists (1 + n)%nat. split; [lia|by apply streamed_app].
Qed.

(** ** Tool calls *)

(** A call at position [idx] of step [step] that may run: its tool is registered,
    all the tool requires is granted, and it runs in the context of the position. *)
Definition authorised (position : nat * nat) (x : Execution) : Prop :=
  ex_context x = tool_context def opts env_unrestricted position.1 position.2 ∧
  ∃ tool, tools !! ex_tool x = Some tool ∧
    match granted def opts env_unrestricted with
    | Some perms => ∀ p, p ∈ tm_permissions (tool_metadata_of tool) → p ∈ perms
    | None => True
    end.

Lemma permissions_checked required ctx : check_permissions required ctx = inr () →
  match granted_permissions ctx with Some perms => ∀ p, p ∈ required → p ∈ perms | None => True end.
Proof.
  unfold check_permissions. destruct (granted_permissions ctx) as [perms|]; [|done].
  destruct (List.filter _ required) as [|q qs] eqn:Hf; [|done]. intros _ p Hp.
  destruct (existsb (String.eqb p) perms) eqn:Hex.
  - by apply existsb_elem in Hex as (p' & Hp' & ->%String.eqb_eq).
  - exfalso. apply (not_elem_of_nil p). rewrite <-Hf. apply filter_elem. by rewrite Hex.
Qed.

(** Nothing is emitted or sent; the executions are those at [positions]. *)
Record executed (positions : list (nat * nat)) (d : Log) : Prop := {
  xc_events : l_events d = [];
  xc_requests : l_requests d = [];
  xc_calls : Forall2 authorised positions (l_calls d) }.

Lemma executed_app ps ps' d d' : executed ps d → executed ps' d' → executed (ps ++ ps') (d ⊕ d').
Proof.
  intros [E1 R1 C1] [E2 R2 C2]. split; cbn; [by rewrite E1, E2|by rewrite R1, R2|by apply Forall2_app].
Qed.
Lemma executed_nothing : executed [] nothing.
Proof. by split. Qed.

Lemma runs_execute step idx call :
  runs (execute_tool_call tools def opts env_unrestricted step idx call)
    (λ _ d, ∃ ps, (ps = [] ∨ ps = [(step, idx)]) ∧ executed ps d) (λ _, False).
Proof.
  unfold execute_tool_call.
  assert (∀ o, runs (mret o) (λ (_ : ToolOutcome) d, ∃ ps, (ps = [] ∨ ps = [(step, idx)]) ∧ executed ps d)
    (λ _, False)) as Hnone.
  { intros o. apply runs_ret. exists []. split; [by left|apply executed_nothing]. }
  destruct (tools !! tc_name call) as [tool|] eqn:Htool; [|apply Hnone].
  destruct (call_parameters call) as [e|params]; [apply Hnone|]. cbv zeta.
  destruct (check_permissions _ _) as [e|[]] eqn:Hperm; [apply Hnone|].
  set (x := {| ex_tool := tc_name call; ex_context := _; ex_parameters := params |}).
  eapply runs_bind with (Φ1 := λ _ d, d = call_log x).
  { eapply runs_mono; [apply (runs_modify _ (call_log x))|done|done].
    intros w Hw. split; [done|]. split; cbn; by rewrite ?app_nil_r. }
  intros [] d1 ->. apply runs_gets_bind. intros w Hw. destruct (tool_execute _ _ _ _) as [y r].
  eapply runs_bind with (Φ1 := λ _ d, d = nothing).
  - eapply runs_mono; [apply (runs_modify _ nothing)|done|done].
    intros w' Hw'. split; [done|]. by apply grew_nothing.
  - intros [] d ->. apply runs_ret. rewrite !logs_nothing_r. exists [(step, idx)]. split; [by right|].
    split; [done|done|]. constructor; [|done]. split; [done|]. exists tool. split; [done|].
    apply (permissions_checked _ _ Hperm).
Qed.

Lemma runs_run_calls step calls order :
  runs (run_calls tools def opts env_unrestricted step calls order)
    (λ outs d, outs.*1 = List.filter (λ i, Nat.ltb i (length calls)) order ∧
      ∃ idxs, idxs `sublist_of` order ∧ executed (pair step <$> idxs) d) (λ _, False).
Proof.
  induction order as [|idx order IH]; cbn [run_calls].
  { apply runs_ret. split; [done|]. exists []. split; [done|apply executed_nothing]. }
  destruct (calls !! idx) as [call|] eqn:Hcall.
  - eapply runs_bind; [apply runs_execute|]. intros outcome d1 (ps & Hps & Hd1).
    eapply runs_bind; [apply IH|]. intros rest d2 (Hrest & idxs & Hsub & Hd2).
    apply runs_ret. rewrite logs_nothing_r. apply lookup_lt_Some in Hcall. cbn [fmap list_fmap List.filter].
    rewrite (proj2 (Nat.ltb_lt _ _) Hcall). cbn. split; [by f_equal|].
    destruct Hps as [->| ->].
    + exists idxs. split; [by apply sublist_cons|]. by apply (executed_app []).
    + exists (idx :: idxs). split; [by apply sublist_skip|]. by apply (executed_app [_]).
  - apply lookup_ge_None in Hcall. cbn [List.filter]. rewrite (proj2 (Nat.ltb_ge _ _) Hcall).
    eapply runs_mono; [apply IH| |done]. intros outs d (Ho & idxs & Hsub & Hd). split; [done|].
    exists idxs. split; [by apply sublist_cons|done].
Qed.

Lemma runs_join_all step calls :
  runs (join_all tools def opts env_unrestricted schedule step calls)
    (λ outs d, length outs = length calls ∧
      ∃ idxs, NoDup idxs ∧ Forall (λ i, (i < length calls)%nat) idxs ∧ executed (pair step <$> idxs) d) (λ _, False).
Proof.
  unfold join_all. eapply runs_bind; [apply runs_run_calls|]. intros outs d (Houts & idxs & Hsub & Hd).
  pose proof (turn_order_perm (schedule step) (length calls)) as Hperm.
  apply runs_ret. rewrite logs_nothing_r. split.
  - rewrite <-(length_seq (length calls) 0) at 2.
    assert (∀ i, i ∈ seq 0 (length calls) → is_Some (assoc_nat i outs)) as Hall.
    { intros i Hi. apply assoc_nat_in. rewrite Houts. apply filter_elem. split; [by rewrite Hperm|].
      apply elem_of_seq in Hi. apply Nat.ltb_lt. lia. }
    clear -Hall. induction (seq 0 (length calls)) as [|i l IH]; [done|]. cbn.
    destruct (Hall i) as [o ->]; [by left|]. cbn. f_equal. apply IH. intros j Hj. apply Hall. by right.
  - exists idxs. split_and!; [| |done].
    + eapply sublist_NoDup; [|exact Hsub]. rewrite Hperm. apply NoDup_seq.
    + apply Forall_forall. intros i Hi. pose proof (elem_of_sublist _ _ _ Hi Hsub) as Hin.
      rewrite Hperm in Hin. apply elem_of_seq in Hin. cbn in Hin |- *. lia.
Qed.

Lemma runs_announce calls :
  runs (announce calls)
    (λ _ d, d = {| l_events := (λ c, EvToolCall (tc_name c) (tc_arguments c)) <$> calls; l_requests := []; l_calls := [] |})
    (λ _, False).
Proof.
  induction calls as [|call calls IH]; [by apply runs_ret|]. cbn [announce].
  eapply runs_bind; [apply runs_emit|]. intros [] d ->. eapply runs_mono; [apply IH| |done].
  intros [] d ->. done.
Qed.

(** The results answer the calls in their order. *)
Definition answers (call : ToolCall) (m : Message) : Prop := role m = RTool ∧ tool_call_id m = Some (tc_id call).

Lemma runs_report calls outcomes messages : length outcomes = length calls →
  runs (report (zip calls outcomes) messages)
    (λ ms d, ∃ results, ms = messages ++ results ∧ Forall2 answers calls results ∧
      l_requests d = [] ∧ l_calls d = [] ∧ Forall (λ e, model_text e = false) (l_events d)) (λ _, False).
Proof.
  revert outcomes messages. induction calls as [|call calls IH]; intros [|outcome outcomes] messages Hlen; try done.
  - apply runs_ret. exists []. rewrite app_nil_r. by repeat split.
  - cbn [zip zip_with report]. eapply runs_bind; [apply runs_emit|]. intros [] d ->.
    eapply runs_mono; [apply IH; by injection Hlen| |done]. intros ms d (results & -> & Hres & Hr & Hc & He).
    eexists (_ :: results). split; [by rewrite <-app_assoc|]. cbn. split_and!; [by constructor|done|done|by constructor].
Qed.

(** ** The loop *)

Section loop.
Context (model : string) (specs : list ToolSpec) (buffer : bool) (pre : list Message) (Hpre : is_preamble pre).

Definition forced (step : nat) : bool :=
  Nat.eqb (step + 1) (max_steps_of def opts) && negb (bool_decide (length specs = 0%nat)).

(** The request of a step: the preamble and complete tool rounds, within the
    budget unless nothing is left to drop; on the last step the tools are taken
    away and the note is added. *)
Definition request_ok (step : nat) (req : ChatRequest) : Prop := ∃ rounds, Forall tool_round rounds ∧
  messages req = pre ++ concat rounds ++ (if forced step then [system FORCED_FINAL_ANSWER_NOTE] else []) ∧
  Chat.tools req = (if forced step then [] else specs) ∧ Chat.model req = model ∧
  ((total Heuristic (tools_overhead specs) (pre ++ concat rounds) ≤ max_prompt_tokens (context opts))%nat ∨ rounds = []).

(** The logs of the steps from [k] on: one group of equal requests per step. *)
Record loop_log (k : nat) (groups : list (nat * ChatRequest)) (d : Log) : Prop := {
  ll_requests : l_requests d = groups ≫= λ g, replicate g.1 g.2;
  ll_groups j g : groups !! j = Some g → (1 ≤ g.1 ≤ S (step_retries opts))%nat ∧ request_ok (k + j) g.2;
  ll_calls : ∃ positions, NoDup positions ∧ Forall (λ p, (k ≤ p.1)%nat) positions ∧
    Forall2 authorised positions (l_calls d);
  ll_events : buffer = true → Forall (λ e, model_text e = false) (l_events d) }.

Lemma loop_log_nil k : loop_log k [] nothing.
Proof. split; [done|done| |done]. exists []. split_and!; by constructor. Qed.

(** A step's requests, executions and events, then those of the steps after it. *)
Lemma loop_log_step k n req d1 idxs d2 d3 groups d4 : (1 ≤ n ≤ S (step_retries opts))%nat → request_ok k req →
  streamed buffer n req d1 → NoDup idxs → executed (pair k <$> idxs) d2 →
  l_requests d3 = [] → l_calls d3 = [] → Forall (λ e, model_text e = false) (l_events d3) →
  loop_log (S k) groups d4 → ∀ d, l_requests d = l_requests d1 ++ l_requests d2 ++ l_requests d3 ++ l_requests d4 →
  l_calls d = l_calls d1 ++ l_calls d2 ++ l_calls d3 ++ l_calls d4 → l_events d ≡ₚ l_events d1 ++ l_events d2 ++ l_events d3 ++ l_events d4 →
  loop_log k ((n, req) :: groups) d.
Proof.
  intros Hn Hreq [R1 C1 E1] Hnd [E2 R2 C2] R3 C3 E3 [R4 G4 (ps & Hps & Hge & C4) E4] d HR' HC' HE'. split.
  - rewrite HR', R1, R2, R3, R4. done.
  - intros [|j] g Hg.
    + injection Hg as <-. rewrite Nat.add_0_r. done.
    + rewrite Nat.add_succ_r. by apply G4.
  - exists ((pair k <$> idxs) ++ ps). split_and!.
    + apply NoDup_app. split_and!; [| |done].
      * apply NoDup_fmap_2; [|done]. intros i j Hij. by injection Hij.
      * intros p (i & -> & _)%list_elem_of_fmap Hp. rewrite Forall_forall in Hge. specialize (Hge _ Hp). cbn in Hge. lia.
    + apply Forall_app. split; [|eapply Forall_impl; [exact Hge|]; cbn; lia].
      apply Forall_fmap, Forall_forall. cbn. lia.
    + rewrite HC', C1, C3. cbn [app]. by apply Forall2_app.
  - intros Hb. rewrite HE', (E1 Hb), E2. cbn [app]. apply Forall_app. split; [done|]. by apply E4.
Qed.

Lemma tool_round_of response results : role response = RAssistant → tool_calls response ≠ [] →
  Forall2 answers (tool_calls response) results → tool_round (response :: results).
Proof. intros Hr Hc Hres. exists response, results. by repeat split. Qed.

Lemma step_request_ok k rounds : Forall tool_round rounds → ∃ rounds', Forall tool_round rounds' ∧
  c_messages (compact (pre ++ concat rounds) (tools_overhead specs) (context opts) Heuristic) = pre ++ concat rounds' ∧
  request_ok k (step_request def model specs (pre ++ concat rounds') (Nat.eqb (k + 1) (max_steps_of def opts))).
Proof.
  intros Hr. destruct (compact_rounds Heuristic (tools_overhead specs) (context opts) pre rounds Hpre Hr)
    as (j & Hj & Hm & _ & _ & Hfit & _).
  exists (drop j rounds). split; [by apply Forall_drop|]. split; [done|]. exists (drop j rounds).
  split; [by apply Forall_drop|]. unfold step_request, forced. cbn.
  split_and!; [|done|done|].
  - destruct (_ && _); [by rewrite <-app_assoc|by rewrite app_nil_r].
  - destruct Hfit as [Hfit| ->]; [by left|right]. by rewrite drop_all.
Qed.

Lemma runs_steps_loop n : ∀ k st rounds, p_messages st = pre ++ concat rounds → Forall tool_round rounds →
  runs (steps_loop gw tools def opts env_unrestricted schedule model specs buffer (seq k n) st)
    (λ st' d, ∃ groups, (length groups ≤ n)%nat ∧ p_steps st' = (p_steps st + length groups)%nat ∧ loop_log k groups d)
    (λ d, ∃ groups, (length groups ≤ n)%nat ∧ loop_log k groups d).
Proof.
  induction n as [|n IH]; intros k st rounds Hms Hr; cbn [seq steps_loop].
  { apply runs_ret. exists []. split_and!; [done|cbn; lia|apply loop_log_nil]. }
  rewrite Hms. destruct (step_request_ok k rounds Hr) as (rounds' & Hr' & -> & Hreq).
  set (req := step_request _ _ _ _ _) in *.
  assert (∀ m d1, (1 ≤ m ≤ S (step_retries opts))%nat → streamed buffer m req d1 → loop_log k [(m, req)] d1) as Hlast.
  { intros m d1 Hm Hd1. eapply (loop_log_step k m req d1 [] nothing nothing [] nothing);
      try first [done|apply executed_nothing|apply loop_log_nil|apply NoDup_nil_2]; cbn; by rewrite ?app_nil_r. }
  eapply runs_bind; [eapply runs_mono; [apply runs_model_step|done|]|].
  { intros d (m & Hm & Hd). exists [(m, req)]. split; [cbn; lia|by apply Hlast]. }
  intros response d1 [Hrole (m & Hm & Hd1)]. destruct (tool_calls (message response)) as [|call calls] eqn:Hcalls.
  { apply runs_ret. rewrite logs_nothing_r. exists [(m, req)]. split_and!; [cbn; lia|cbn; lia|by apply Hlast]. }
  rewrite <-Hcalls. eapply runs_bind; [eapply runs_mono; [apply runs_announce|done|done]|]. intros [] d2 ->.
  eapply runs_bind; [eapply runs_mono; [apply runs_join_all|done|done]|]. intros outcomes d3 (Hlen & idxs & Hnd & _ & Hd3).
  eapply runs_bind; [eapply runs_mono; [by apply runs_report|done|done]|].
  intros ms d4 (results & -> & Hres & R4 & C4 & E4).
  assert (tool_round (message response :: results)) as Hround by (apply tool_round_of; [done|by rewrite Hcalls|done]).
  set (d2 := {| l_events := _; l_requests := []; l_calls := [] |}).
  assert (∀ groups d5, loop_log (S k) groups d5 → loop_log k ((m, req) :: groups) (d1 ⊕ (d2 ⊕ (d3 ⊕ (d4 ⊕ d5))))) as Hstep.
  { intros groups d5 Hd5. eapply (loop_log_step k m req d1 idxs d3 (d2 ⊕ d4) groups d5); try done.
    - cbn. apply Forall_app. split; [|done]. by apply Forall_fmap, Forall_true.
    - cbn. destruct Hd3 as [Ed3 _ _]. by rewrite Ed3, <-!app_assoc. }
  eapply runs_mono.
  - apply (IH (S k) _ (rounds' ++ [message response :: results])); cbn.
    + rewrite concat_app. cbn. by rewrite app_nil_r, <-!app_assoc.
    + apply Forall_app. by repeat constructor.
  - cbn. intros st' d5 (groups & Hl & Hs & Hd5). exists ((m, req) :: groups).
    split_and!; [cbn; lia|cbn; lia|by apply Hstep].
  - cbn. intros d5 (groups & Hl & Hd5). exists ((m, req) :: groups). split; [cbn; lia|by apply Hstep].
Qed.
End loop.
End runs.
