(* ===== verification/AgentProps.v ===== *)
(** * What an agent run guarantees

    A run ends within its budget of model calls; every request it makes keeps
    the instructions and the user's turn, is a valid history and respects the
    context budget; a tool runs only when it is registered and permitted; and
    what the guardrails refuse goes nowhere.  Examples show where the code does
    less than it says. *)
From stdpp Require Import base tactics list numbers strings gmap.
From Stdlib Require Import Lia ZArith.
From S2P Require Import Prelude.
From S2P Require Import RustStr.
From S2P Require Import F64.
From S2P Require Import Common.
From S2P Require Import Effect.
From S2P Require Import JsonValue.
From S2P Require Import Resilience.
From S2P Require Import Chat.
From S2P Require Import Gateway.
From S2P Require Import GatewayInv.
From S2P Require Import ToolRegistry.
From S2P Require Import AgentContext.
From S2P Require Import Guardrail.
From S2P Require Import AgentDef.
From S2P Require Import Agent.
From S2P Require Import AgentInv.
Local Open Scope wovyr_scope.

Section run.
Context `{HU : Unicode, HJT : JsonText}.
Context `{HP : AIProvider P, HB : CircuitBreaker B, HC : SemanticCacheStore ChatResponse C, HJ : Jitter J, HE : Monotonic E}.
Context `{HT : Tool T X, HR : ContextRetriever R, HG : Guardrail G}.
Context {HA : AssistantReplies P} {HGL : GuardrailLaws G}.
Context (gw : Gateway) (tools : registry T) (def : AgentDefinition) (opts : RunOptions G).
Context (env_unrestricted : option string) (schedule : nat → list nat).
Notation GW := (World P B C J E).
Notation W := (AgentWorld GW X R G).
Notation max := (max_steps_of def opts).
Notation checked := (checks_output (guardrails opts)).
Notation runs := (runs checked).

(** The requests and the executions of a run whose history starts with [pre]. *)
Record run_log (model : string) (specs : list ToolSpec) (pre : list Message) (groups : list (nat * ChatRequest))
    (d : Log) : Prop := {
  rl_requests : l_requests d = groups ≫= λ g, replicate g.1 g.2;
  rl_steps : (length groups ≤ max)%nat;
  rl_groups j g : groups !! j = Some g →
    (1 ≤ g.1 ≤ S (step_retries opts))%nat ∧ request_ok def opts model specs pre j g.2;
  rl_calls : ∃ positions, NoDup positions ∧ Forall2 (authorised tools def opts env_unrestricted) positions (l_calls d) }.

(** Logs of events that carry no text of the model. *)
Record remarks (d : Log) : Prop := {
  rm_requests : l_requests d = []; rm_calls : l_calls d = [];
  rm_events : Forall (λ e, model_text e = false) (l_events d) }.

Lemma remarks_app d d' : remarks d → remarks d' → remarks (d ⊕ d').
Proof. intros [R1 C1 E1] [R2 C2 E2]. split; cbn; [by rewrite R1|by rewrite C1|by apply Forall_app]. Qed.
Lemma remarks_nothing : remarks nothing.
Proof. by split. Qed.

(** The messages a run starts with: its instructions, what grounds it, and the
    user's turn as the guardrails left it. *)
Definition opening (prompt : string) (pre : list Message) : Prop := ∃ context,
  pre = system (instructions (spec def)) :: context ++ [user prompt] ∧ Forall (λ m, role m = RSystem) context.

Lemma opening_preamble prompt pre : opening prompt pre → is_preamble pre.
Proof.
  intros (ctx & -> & Hctx). exists (system (instructions (spec def)) :: ctx), (user prompt).
  split_and!; [done|by constructor|done].
Qed.

Lemma runs_surface hits : runs (surface hits : M W ()) (λ _ d, remarks d) (λ _, False).
Proof.
  induction hits as [|hit hits IH]; [by apply runs_ret|]. cbn [surface].
  eapply runs_bind; [apply runs_emit|]. intros [] d ->. eapply runs_mono; [apply IH| |done].
  intros [] d Hd. apply remarks_app; [|done]. by repeat constructor.
Qed.

Lemma runs_ground hr prompt :
  runs (ground def hr prompt : M W (list Message)) (λ pre d, remarks d ∧ opening prompt (pre ++ [user prompt])) remarks.
Proof.
  unfold ground. assert (opening prompt ([system (instructions (spec def))] ++ [user prompt])) as Hopen
    by (by exists []).
  destruct (memory (spec def)) as [mem|]; [|apply runs_ret; split; [apply remarks_nothing|done]].
  destruct (hr && mem_enabled mem); [|apply runs_ret; split; [apply remarks_nothing|done]].
  apply runs_gets_bind. intros w _. destruct (retrieve prompt mem _) as [r hits].
  eapply runs_quiet_bind with (R1 := λ _, True); [|apply remarks_nothing|].
  { eapply runs_mono; [apply (runs_modify _ _ nothing)|by intros [] d ->|done].
    intros w' Hw'. split; [done|]. by apply grew_nothing. }
  intros [] _. eapply runs_quiet_bind with (R1 := λ _, True); [|apply remarks_nothing|].
  { apply runs_result. by destruct hits. }
  intros hits' _. eapply runs_bind; [eapply runs_mono; [apply runs_surface|done|done]|].
  intros [] d Hd. apply runs_ret. rewrite logs_nothing_r. split; [done|].
  exists [system (format_context hits')]. split; [done|]. by repeat constructor.
Qed.

(** The run after its input has passed the guardrails. *)
Definition after_input (hr : bool) (model : string) (specs : list ToolSpec) (prompt : string) : M W AgentOutput :=
  buffer ← gets (λ w : W, checks_output (a_guardrails w));
  preamble ← ground def hr prompt;
  st ← steps_loop gw tools def opts env_unrestricted schedule model specs buffer (seq 0 max)
         {| p_messages := preamble ++ [user prompt]; p_usage := Usage_default; p_steps := 0; p_text := "" |};
  finish def opts buffer st.

(** What is emitted when the output is checked: no text of the model, or the
    text the guardrails passed. *)
Definition guarded (text : option string) (d : Log) : Prop :=
  checked = true → ∀ e, e ∈ l_events d → model_text e = true → ∃ t, text = Some t ∧ e = EvDelta t.

Definition ran (prompt model : string) (specs : list ToolSpec) (steps : option nat) (text : option string) (d : Log) : Prop :=
  ∃ pre groups, opening prompt pre ∧ run_log model specs pre groups d ∧ guarded text d ∧
    match steps with Some n => n = length groups | None => True end.

Lemma remarks_guarded text d : remarks d → guarded text d.
Proof. intros [_ _ He] _ e Hin Ht. rewrite Forall_forall in He. by rewrite (He e Hin) in Ht. Qed.

Lemma ran_of prompt model specs pre groups steps text d1 d2 d3 : remarks d1 → opening prompt pre →
  (length groups ≤ max)%nat →
  loop_log tools def opts env_unrestricted model specs checked pre 0 groups d2 →
  l_requests d3 = [] → l_calls d3 = [] → guarded text d3 →
  match steps with Some n => n = length groups | None => True end →
  ran prompt model specs steps text (d1 ⊕ (d2 ⊕ d3)).
Proof.
  intros Hd1 Hopen Hlen [R2 G2 (ps & Hnd & _ & C2) E2] R3 C3 Hg3 Hsteps. exists pre, groups.
  split; [done|]. split; [|split; [|done]].
  - split; cbn.
    + by rewrite (rm_requests _ Hd1), R3, app_nil_r.
    + done.
    + intros j g Hg. by apply G2.
    + exists ps. rewrite (rm_calls _ Hd1), C3, app_nil_r. done.
  - intros Hb e. cbn. rewrite !elem_of_app. intros [Hin|[Hin|Hin]] Ht.
    + by apply (remarks_guarded text d1 Hd1 Hb e Hin).
    + specialize (E2 Hb). rewrite Forall_forall in E2. by rewrite (E2 e Hin) in Ht.
    + by apply (Hg3 Hb e).
Qed.

Lemma runs_after_input hr model specs prompt :
  runs (after_input hr model specs prompt)
    (λ out d, ran prompt model specs (Some (out_steps out)) (Some (out_text out)) d ∧
      (checked = true → ∃ gs gs' raw, apply_guardrails Output raw gs = (gs', Ret (out_text out))))
    (ran prompt model specs None None).
Proof.
  unfold after_input. apply runs_gets_bind. intros w [_ Hb]. rewrite Hb.
  eapply runs_bind; [eapply runs_mono; [apply runs_ground|done|]|].
  { intros d Hd. exists [system (instructions (spec def)); user prompt], [].
    split; [by exists []|]. split; [|split; [by apply remarks_guarded|done]].
    destruct Hd as [R0 C0 _]. split; [done|cbn; lia|done|]. exists []. rewrite C0. split; constructor. }
  intros pre d1 [Hd1 Hopen].
  eapply runs_bind; [eapply runs_mono; [apply (runs_steps_loop gw tools def opts env_unrestricted schedule checked model specs checked _ (opening_preamble _ _ Hopen) max 0 _ [])| |]|]; cbn.
  - by rewrite app_nil_r.
  - constructor.
  - intros st d H'. exact H'.
  - intros d (groups & Hlen & Hd). rewrite <-(logs_nothing_r d).
    eapply (ran_of _ _ _ _ _ _ _ d1 d nothing); try done; by intros _ e ?%not_elem_of_nil.
  - intros st d2 (groups & Hlen & Hsteps & Hd2).
    assert (∀ steps text d3, l_requests d3 = [] → l_calls d3 = [] → guarded text d3 →
      match steps with Some n => n = length groups | None => True end →
      ran prompt model specs steps text (d1 ⊕ (d2 ⊕ d3))) as Hran by (intros; by eapply ran_of).
    unfold finish. destruct (_ && _).
    { apply runs_throw. apply Hran; try done. by intros _ e ?%not_elem_of_nil. }
    eapply runs_bind with (Φ1 := λ text d, (checked = true → ∃ gs gs' raw, apply_guardrails Output raw gs = (gs', Ret text)) ∧
      l_requests d = [] ∧ l_calls d = [] ∧ guarded (Some text) d).
    + destruct checked eqn:Hck.
      * eapply runs_quiet_bind; [apply runs_apply|apply Hran; try done; by intros _ e ?%not_elem_of_nil|].
        intros text (gs & gs' & Ha). destruct (is_empty text).
        -- eapply runs_bind; [by apply runs_ret with (Φ := λ _ d, d = nothing)|]. intros [] d ->.
           apply runs_ret. rewrite logs_nothing_r. split_and!; [eauto|done|done|]. by intros _ e ?%not_elem_of_nil.
        -- eapply runs_bind; [eapply runs_mono; [apply runs_emit|done|done]|]. intros [] d ->.
           apply runs_ret. rewrite logs_nothing_r. split_and!; [eauto|done|done|].
           intros _ e ->%list_elem_of_singleton _. eauto.
      * apply runs_ret. split_and!; [done|done|done|]. unfold guarded. by rewrite Hck.
    + intros text d3 (Hout & R3 & C3 & Hg3).
      eapply runs_bind; [eapply runs_mono; [apply runs_emit|done|done]|]. intros [] d4 ->.
      apply runs_ret. rewrite logs_nothing_r. cbn [out_text out_steps]. split; [|done].
      apply Hran; cbn; [by rewrite R3|by rewrite C3| |by rewrite Hsteps].
      intros Hc e. cbn. rewrite elem_of_app. intros [Hin|Hin] Ht; [by apply Hg3|].
      apply list_elem_of_singleton in Hin as ->. done.
Qed.

(** ** The output check *)

(** Code between the two checks leaves the guardrails alone. *)
Definition keeps {A} (m : M W A) : Prop := ∀ w, a_guardrails (m w).1 = a_guardrails w.

Lemma keeps_then {A D} (m : M W A) (k : A → M W D) : keeps m → (∀ a, keeps (k a)) → keeps (m ≫= k).
Proof.
  intros Hm Hk w. specialize (Hm w). unfold mbind, M_bind. destruct (m w) as [w1 [a|s]]; [|done].
  by rewrite Hk.
Qed.
Lemma keeps_catch {A} (m : M W A) : keeps m → keeps (catch m).
Proof. intros Hm w. specialize (Hm w). unfold catch. by destruct (m w) as [w1 [a|[]]]. Qed.
Lemma keeps_gateway {A} (m : M GW A) : keeps (gateway_call m).
Proof. intros w. unfold gateway_call, zoom. by destruct (m (a_gateway w)). Qed.

Create HintDb keeps.
#[local] Hint Resolve keeps_catch keeps_gateway : keeps.
#[local] Hint Extern 1 (keeps (mbind _ _)) => apply keeps_then; [|intros ?] : keeps.
#[local] Hint Extern 2 (keeps (match ?x with _ => _ end)) => destruct x : keeps.
#[local] Hint Extern 3 (keeps _) => (intros w; reflexivity) : keeps.

Lemma keeps_read_stream buffer events completed : keeps (read_stream gw buffer events completed).
Proof.
  revert completed. induction events as [|event events IH]; intros completed; cbn [read_stream]; auto 12 with keeps.
Qed.
#[local] Hint Resolve keeps_read_stream : keeps.
Lemma keeps_model_step retries request buffer : keeps (model_step gw retries request buffer).
Proof. induction retries as [|n IH]; cbn [model_step]; unfold stream_chat; auto 12 with keeps. Qed.
Lemma keeps_execute_tool_call step idx call :
  keeps (execute_tool_call tools def opts env_unrestricted step idx call).
Proof. unfold execute_tool_call. auto 12 with keeps. Qed.
#[local] Hint Resolve keeps_model_step keeps_execute_tool_call : keeps.
Lemma keeps_run_calls step calls order : keeps (run_calls tools def opts env_unrestricted step calls order).
Proof. induction order as [|i order IH]; cbn [run_calls]; auto 12 with keeps. Qed.
Lemma keeps_announce calls : keeps (announce calls : M W ()).
Proof. induction calls as [|c calls IH]; cbn [announce]; auto with keeps. Qed.
Lemma keeps_report outcomes messages : keeps (report outcomes messages : M W (list Message)).
Proof. revert messages. induction outcomes as [|[c o] l IH]; intros ms; cbn [report]; auto with keeps. Qed.
#[local] Hint Resolve keeps_run_calls keeps_announce keeps_report : keeps.
Lemma keeps_surface hits : keeps (surface hits : M W ()).
Proof. induction hits as [|h hits IH]; cbn [surface]; auto with keeps. Qed.
#[local] Hint Resolve keeps_surface : keeps.




(** ** The whole run *)

Definition accepted (prompt : string) : Prop :=
  (apply_guardrails Input (user_prompt (input opts)) (guardrails opts)).2 = Ret prompt.

Lemma ran_after d0 prompt model specs steps text d : remarks d0 → ran prompt model specs steps text d →
  ran prompt model specs steps text (d0 ⊕ d).
Proof.
  intros Hd0 (pre & groups & Hopen & [R1 S1 G1 C1] & Hg & Hs). exists pre, groups. split; [done|].
  split; [|split; [|done]].
  - split; cbn; [by rewrite (rm_requests _ Hd0)|done|done|by rewrite (rm_calls _ Hd0)].
  - intros Hb e. cbn. rewrite elem_of_app. intros [Hin|Hin]; [by apply (remarks_guarded text d0)|by apply Hg].
Qed.

(** What a run returns, and its logs. *)
Definition outcome_ok (o : outcome AgentOutput) (d : Log) : Prop :=
  match o with
  | Ret out => ∃ prompt model specs, accepted prompt ∧ resolve_tools tools def = Ok specs ∧
      ran prompt model specs (Some (out_steps out)) (Some (out_text out)) d ∧
      (checked = true → ∃ gs gs' raw, apply_guardrails Output raw gs = (gs', Ret (out_text out)))
  | Stop s => (∃ e, s = Throw e) ∧
      (remarks d ∨ ∃ prompt model specs, accepted prompt ∧ resolve_tools tools def = Ok specs ∧
        ran prompt model specs None None d)
  end.

Lemma run_agent_logs hr (w : W) : well_formed (a_gateway w) →
  ∃ d, grew w (run_agent_inner gw tools def opts env_unrestricted schedule hr w).1 d ∧
    outcome_ok (run_agent_inner gw tools def opts env_unrestricted schedule hr w).2 d.
Proof.
  intros Hw.
  enough (wp (run_agent_inner gw tools def opts env_unrestricted schedule hr)
    (λ out w', ∃ d, grew w w' d ∧ outcome_ok (Ret out) d)
    (λ s w', ∃ d, grew w w' d ∧ outcome_ok (Stop s) d) w) as Hwp.
  { unfold wp in Hwp. by destruct (run_agent_inner _ _ _ _ _ _ _ _) as [w' [out|s]]. }
  unfold run_agent_inner. apply wp_bind. unfold modify. unfold wp at 1.
  set (w0 := set_guardrails (guardrails opts) w).
  assert (grew w w0 nothing) as Hg0 by by apply grew_nothing.
  destruct (is_empty (trim (instructions (spec def)))).
  { apply wp_fail. exists nothing. split; [done|]. split; [eauto|]. left. apply remarks_nothing. }
  apply wp_gets_bind. cbv zeta. apply wp_bind. unfold emit, modify. unfold wp at 1.
  set (start := EvStart _ _). set (w1 := push_event start w0).
  assert (remarks (event_log start)) as Hstart by by repeat constructor.
  assert (grew w w1 (event_log start)) as Hg1.
  { rewrite <-(logs_nothing_l (event_log start)). eapply grew_trans; [exact Hg0|]. split; cbn; by rewrite ?app_nil_r. }
  apply wp_lift_bind. destruct (resolve_tools tools def) as [specs|e] eqn:Hspecs; cbn [of_result].
  2: { exists (event_log start). split; [done|]. split; [eauto|by left]. }
  apply wp_bind. unfold apply, zoom. unfold wp at 1.
  destruct (apply_guardrails_laws Input (a_guardrails w1) (user_prompt (input opts))) as [Hck Hstop].
  change (a_guardrails w1) with (guardrails opts) in *.
  destruct (apply_guardrails Input (user_prompt (input opts)) (guardrails opts)) as [gs [prompt|s]] eqn:Ha; cbn in Hck, Hstop.
  2: { exists (event_log start). destruct (Hstop s eq_refl) as [e ->]. split; [|split; [eauto|by left]].
       destruct Hg1 as [H1 H2 H3]. by split. }
  assert (accepted prompt) as Hacc by by (unfold accepted; rewrite Ha).
  set (w2 := set_guardrails gs w1). assert (grew w w2 (event_log start)) as Hg2 by by (destruct Hg1; split).
  assert (sound checked w2) as Hsound by by split.
  eapply wp_mono; [apply (runs_after_input hr _ specs prompt w2 Hsound)| |]; cbn.
  - intros out w' (_ & d & Hg & Hran & Hout). exists (event_log start ⊕ d). split; [by eapply grew_trans|].
    eexists prompt, _, specs. split_and!; try done. by apply ran_after.
  - intros s w' (_ & He & d & Hg & Hran). exists (event_log start ⊕ d). split; [by eapply grew_trans|].
    split; [done|]. right. eexists prompt, _, specs. split_and!; try done. by apply ran_after.
Qed.

(** ** Properties *)

Lemma grew_requests (w w' : W) d : grew w w' d → drop (length (a_requests w)) (a_requests w') = l_requests d.
Proof. intros Hg. by rewrite (g_requests _ _ _ Hg), drop_app_length. Qed.

Lemma length_groups (groups : list (nat * ChatRequest)) bound :
  (∀ j g, groups !! j = Some g → (g.1 ≤ bound)%nat) →
  (length (groups ≫= λ g, replicate g.1 g.2) ≤ length groups * bound)%nat.
Proof.
  induction groups as [|g groups IH]; intros Hb; cbn; [lia|]. rewrite length_app, length_replicate.
  specialize (Hb 0%nat g eq_refl) as H0. specialize (IH (λ j, Hb (S j))). lia.
Qed.

Lemma outcome_groups o d : outcome_ok o d → ∃ prompt model specs pre groups,
  run_log model specs pre groups d ∧ (groups = [] ∨ accepted prompt ∧ opening prompt pre ∧ resolve_tools tools def = Ok specs) ∧
  match o with Ret out => out_steps out = length groups | Stop s => ∃ e, s = Throw e end.
Proof.
  destruct o as [out|s].
  - intros (prompt & model & specs & Hacc & Hsp & (pre & groups & Hopen & Hlog & _ & Hs) & _).
    exists prompt, model, specs, pre, groups. eauto 10.
  - intros [He [Hd|(prompt & model & specs & Hacc & Hsp & (pre & groups & Hopen & Hlog & _ & Hs))]].
    + exists "", "", [], [], []. split; [|by auto]. destruct Hd as [R0 C0 _]. split; [done|cbn; lia|done|].
      exists []. rewrite C0. split; constructor.
    + exists prompt, model, specs, pre, groups. eauto 10.
Qed.

(** C10: an agent run ends, within its budget.  Whatever the providers answer and
    the tools do: the run returns an answer or an error; it makes at most
    [max_steps] steps of at most [step_retries + 1] requests each, the equal
    requests of a step in a row, and reports the number of its steps; and the
    last step the budget allows offers the model no tools. *)
Theorem agent_run_within_budget hr (w w' : W) o :
  well_formed (a_gateway w) → run_agent_inner gw tools def opts env_unrestricted schedule hr w = (w', o) →
  match o with Ret _ => True | Stop s => ∃ e, s = Throw e end ∧
  ∃ groups, drop (length (a_requests w)) (a_requests w') = (groups ≫= λ g, replicate g.1 g.2) ∧
    (length groups ≤ max)%nat ∧
    (length (groups ≫= λ g, replicate g.1 g.2) ≤ max * S (step_retries opts))%nat ∧
    (∀ j g, groups !! j = Some g → (1 ≤ g.1 ≤ S (step_retries opts))%nat ∧ (S j = max → Chat.tools g.2 = [])) ∧
    match o with Ret out => out_steps out = length groups | Stop _ => True end.
Proof.
  intros Hw Hrun. destruct (run_agent_logs hr w Hw) as (d & Hg & Hok). rewrite Hrun in Hg, Hok. cbn [fst snd] in *.
  apply outcome_groups in Hok as (prompt & model & specs & pre & groups & [R1 S1 G1 _] & Hsp & Ho).
  split; [by destruct o|]. exists groups. split_and!.
  - by rewrite (grew_requests _ _ _ Hg).
  - done.
  - etransitivity; [apply (length_groups groups (S (step_retries opts)))|by apply Nat.mul_le_mono_r].
    intros j g Hj. by destruct (G1 j g Hj) as [[_ ?] _].
  - intros j g Hj. destruct (G1 j g Hj) as [Hn (rounds & _ & _ & Htools & _)]. split; [done|]. intros Hlast.
    rewrite Htools. unfold forced. rewrite Nat.add_1_r, Hlast, Nat.eqb_refl. by destruct specs.
  - by destruct o.
Qed.

(** What the closing note adds, at most. *)
Lemma note_within (specs : list ToolSpec) history (note : bool) budget :
  (total Heuristic (tools_overhead specs) history ≤ budget)%nat →
  (total Heuristic (tools_overhead (if note then [] else specs))
     (history ++ if note then [system FORCED_FINAL_ANSWER_NOTE] else []) ≤
   budget + if note then count_message Heuristic (system FORCED_FINAL_ANSWER_NOTE) else 0)%nat.
Proof.
  intros Hfit. destruct note; [|by rewrite app_nil_r, Nat.add_0_r].
  rewrite total_app. unfold total in *. cbn [list_sum_of sum_list_with]. change (tools_overhead []) with 0%nat. lia.
Qed.

(** C11: every request of a run is a valid history.  It opens with the agent's
    instructions, system messages that ground it, and the user's turn as the
    guardrails left it; complete tool rounds follow, each an assistant message
    with the results of its calls; it offers the tools of the definition, or none
    with the note that asks for the final answer.  The history without that note
    and the tools of the definition are within the context budget unless no
    round is left to drop; the request as it is sent is within the budget and,
    where the note ends it, the tokens of the note (the note is added after the
    history was cut to fit). *)
Theorem agent_requests_are_valid hr (w w' : W) o req :
  well_formed (a_gateway w) → run_agent_inner gw tools def opts env_unrestricted schedule hr w = (w', o) →
  req ∈ drop (length (a_requests w)) (a_requests w') →
  ∃ prompt context rounds specs (note : bool), accepted prompt ∧ Forall (λ m, role m = RSystem) context ∧
    Forall tool_round rounds ∧ resolve_tools tools def = Ok specs ∧
    let history := system (instructions (spec def)) :: context ++ user prompt :: concat rounds in
    messages req = history ++ (if note then [system FORCED_FINAL_ANSWER_NOTE] else []) ∧
    Chat.tools req = (if note then [] else specs) ∧
    ((total Heuristic (tools_overhead specs) history ≤ max_prompt_tokens (Agent.context opts))%nat ∧
     (total Heuristic (tools_overhead (Chat.tools req)) (messages req) ≤
       max_prompt_tokens (Agent.context opts) +
       (if note then count_message Heuristic (system FORCED_FINAL_ANSWER_NOTE) else 0))%nat
     ∨ rounds = []).
Proof.
  intros Hw Hrun Hreq. destruct (run_agent_logs hr w Hw) as (d & Hg & Hok). rewrite Hrun in Hg, Hok. cbn [fst snd] in *.
  rewrite (grew_requests _ _ _ Hg) in Hreq.
  apply outcome_groups in Hok as (prompt & model & specs & pre & groups & [R1 _ G1 _] & Hsp & _).
  rewrite R1 in Hreq. apply list_elem_of_bind in Hreq as ([n req'] & Hin & Hgr). cbn in Hin.
  apply elem_of_replicate in Hin as [-> _]. apply list_elem_of_lookup in Hgr as [j Hj].
  destruct (G1 j _ Hj) as [_ (rounds & Hr & Hm & Ht & _ & Hfit)]. cbn in Hm, Ht.
  destruct Hsp as [->|(Hacc & (ctx & -> & Hctx) & Hsp)]; [done|].
  assert ((system (instructions (spec def)) :: ctx ++ [user prompt]) ++ concat rounds =
    system (instructions (spec def)) :: ctx ++ user prompt :: concat rounds) as Heq
    by (cbn; by rewrite <-app_assoc).
  rewrite app_assoc, Heq in Hm. rewrite Heq in Hfit.
  exists prompt, ctx, rounds, specs, (forced def opts specs j). split_and!; try done.
  destruct Hfit as [Hfit| ->]; [left|by right]. split; [done|]. rewrite Ht, Hm.
  by apply note_within.
Qed.

(** C8: a tool runs only when it is registered and permitted.  Every execution
    of a run is of a registered tool, all of whose permissions are granted: those
    of the definition, or, when it declares none, none at all on a hosted run
    without the escape hatch and any otherwise.  It runs for the run's tenant, in
    a context of its own step and position. *)
Theorem tools_run_only_when_permitted hr (w w' : W) o :
  well_formed (a_gateway w) → run_agent_inner gw tools def opts env_unrestricted schedule hr w = (w', o) →
  ∃ positions, NoDup positions ∧
    Forall2 (λ p x,
      tx_tenant (ex_context x) = tenant opts ∧ tx_execution_id (ex_context x) = execution_id def p.1 p.2 ∧
      ∃ tool, tools !! ex_tool x = Some tool ∧
        match permissions (spec def) with
        | Some perms => ∀ q, q ∈ tm_permissions (tool_metadata_of tool) → q ∈ perms
        | None => hosted opts = true → unrestricted_tools_escape_hatch env_unrestricted = false →
            tm_permissions (tool_metadata_of tool) = []
        end) positions (drop (length (a_calls w)) (a_calls w')).
Proof.
  intros Hw Hrun. destruct (run_agent_logs hr w Hw) as (d & Hg & Hok). rewrite Hrun in Hg, Hok. cbn [fst snd] in *.
  apply outcome_groups in Hok as (prompt & model & specs & pre & groups & [_ _ _ (positions & Hnd & Hc)] & _).
  exists positions. split; [done|]. rewrite (g_calls _ _ _ Hg), drop_app_length.
  eapply Forall2_impl; [exact Hc|]. intros p x (Hctx & tool & Htool & Hperm).
  rewrite Hctx. split; [done|]. split; [done|]. exists tool. split; [done|]. unfold granted in Hperm.
  destruct (permissions (spec def)); [done|]. intros Hh He. rewrite Hh, He in Hperm. cbn in Hperm.
  destruct (tm_permissions (tool_metadata_of tool)) as [|q qs]; [done|]. exfalso.
  apply (not_elem_of_nil q), Hperm. by left.
Qed.

End run.

(** ** A concrete run *)

#[local] Existing Instance unicode_example.
#[local] Instance json_text_example : JsonText := {|
  json_from_str s := if String.eqb s "{" then inl "EOF while parsing" else inr (Str s);
  json_display v := match v with Str s => s | _ => "null" end |}.

(** A model that follows a script of answers and tool calls. *)
Definition script : Type := list (string * list ToolCall).
Definition turn_reply (turn : string * list ToolCall) : ChatResponse := {|
  message := {| role := RAssistant; content := Some turn.1; parts := []; tool_calls := turn.2;
                tool_call_id := None; m_name := None |};
  served_model := "script"; usage := Usage_new 1 1 f64_zero; finish_reason := "stop" |}.
#[local] Instance script_provider : AIProvider script := {|
  name _ := "script";
  Chat.chat _ p := match p with t :: p => (p, Ok (turn_reply t)) | [] => ([], Err (provider "out of script")) end;
  Chat.chat_stream _ p :=
    match p with
    | t :: p => (p, Ok [Ok (Delta t.1); Ok (Done (turn_reply t))])
    | [] => ([], Err (provider "out of script"))
    end;
  supports_embeddings _ := false;
  embed _ p := (p, embed_unsupported "script") |}.
#[local] Instance script_replies : AssistantReplies script.
Proof. intros req [|t p]; cbn; [done|]. by repeat constructor. Qed.

#[local] Instance pii_laws : GuardrailLaws PiiRedactor.
Proof. split; done. Qed.

(** A tool that counts its executions. *)
Record CountingTool := { counting_id : string; counting_permissions : list string }.
#[local] Instance counting_tool : Tool CountingTool nat := {|
  tool_metadata_of t := with_permissions (counting_permissions t) (ToolMetadata_new (counting_id t) "1.0.0" "test" "counts");
  tool_input_schema _ := Object [];
  tool_execute t _ req n := (S n, inr (ToolResponse_success (parameters req))) |}.
#[local] Instance no_retriever : ContextRetriever () := λ _ _ r, (r, Ok []).

Definition counters : registry CountingTool :=
  register {| counting_id := "count"; counting_permissions := [] |}
    (register {| counting_id := "shell"; counting_permissions := ["process.spawn"] |} ∅).

Definition agent_example (listed : list string) : AgentDefinition := {|
  api_version := None; kind := Some "Agent"; agent_name := "helper";
  spec := {|
    instructions := "Be brief."; prompt := None; pinned_model := None; model_selector := None;
    spec_temperature := None; spec_max_tokens := None; AgentDef.max_steps := None; spec_tools := listed;
    mcp_servers := []; AgentDef.permissions := None; memory := None |} |}.
Definition options_example (steps : nat) : RunOptions PiiRedactor := {|
  input := Object [("message", Str "mail jo@site.org")]; max_steps_option := Some steps; tenant := "acme"; hosted := true;
  opt_egress_allowlist := None; opt_trust_class := FirstParty; Agent.context := ContextPolicy_default;
  step_retries := 1; guardrails := [Pii] |}.
Definition call (id name arguments : string) : ToolCall := {| tc_id := id; tc_name := name; tc_arguments := arguments |}.

Notation ExampleGateway := (World script LocalCircuitBreaker (InMemorySemanticCache.t ChatResponse) FixedJitter Z).
Definition world_example (turns : script) : AgentWorld ExampleGateway nat () PiiRedactor := {|
  a_gateway := {|
    w_providers := [turns]; w_embedder := None; w_breakers := [LocalCircuitBreaker_new BreakerConfig_default];
    w_cache := ExactCache.new 2; w_semantic := InMemorySemanticCache.with_max_entries 2;
    w_costs := []; w_jitter := {| fixed_ms := 0 |}; w_clock := 0%Z; w_sent := [] |};
  a_tools := 0%nat; a_retriever := (); a_guardrails := []; a_events := []; a_requests := []; a_calls := [] |}.

Definition run_example (listed : list string) (steps : nat) (turns : script) :=
  run_agent Gateway_default counters (agent_example listed) (options_example steps) None (λ _, [1; 0]%nat)
    (world_example turns).

(** Two calls in one turn, one of them not permitted, then an answer. *)
Definition two_calls : script :=
  [("", [call "a" "count" "x"; call "b" "shell" ""]); ("call 12345678 now", [])].
Definition two_calls_run := run_example ["count"] 4 two_calls.

Example two_calls_outcome :
  (out_text <$> match two_calls_run.2 with Ret out => Some out | Stop _ => None end) = Some "call [redacted-number] now" ∧
  ex_tool <$> a_calls two_calls_run.1 = ["count"] ∧ a_tools two_calls_run.1 = 1%nat ∧
  length (a_requests two_calls_run.1) = 2%nat.
Proof. vm_compute. done. Qed.

Lemma agent_run_within_budget_witness : (length (a_requests two_calls_run.1) ≤ 8)%nat.
Proof.
  destruct (agent_run_within_budget Gateway_default counters (agent_example ["count"]) (options_example 4) None
    (λ _, [1; 0]%nat) false (world_example two_calls) two_calls_run.1 two_calls_run.2 eq_refl (surjective_pairing _))
    as (_ & groups & Hr & _ & Hlen & _).
  change (a_requests two_calls_run.1) with (drop 0 (a_requests two_calls_run.1)).
  change 0%nat with (length (a_requests (world_example two_calls))) at 1. rewrite Hr. exact Hlen.
Defined.

Lemma agent_requests_are_valid_witness : ∃ prompt,
  accepted (options_example 4) prompt ∧ prompt = "mail [redacted-email]".
Proof.
  destruct (a_requests two_calls_run.1) as [|req reqs] eqn:Hreqs; [by vm_compute in Hreqs|].
  destruct (agent_requests_are_valid Gateway_default counters (agent_example ["count"]) (options_example 4) None
    (λ _, [1; 0]%nat) false (world_example two_calls) two_calls_run.1 two_calls_run.2 req eq_refl (surjective_pairing _))
    as (prompt & _ & _ & _ & _ & Hacc & _).
  { change (req ∈ a_requests two_calls_run.1). rewrite Hreqs. by left. }
  exists prompt. split; [done|]. vm_compute in Hacc. congruence.
Defined.

Lemma tools_run_only_when_permitted_witness : ∃ positions, NoDup positions ∧
  Forall2 (λ p x, tx_execution_id (ex_context x) = execution_id (agent_example ["count"]) p.1 p.2)
    positions (a_calls two_calls_run.1).
Proof.
  destruct (tools_run_only_when_permitted Gateway_default counters (agent_example ["count"]) (options_example 4) None
    (λ _, [1; 0]%nat) false (world_example two_calls) two_calls_run.1 two_calls_run.2 eq_refl (surjective_pairing _))
    as (positions & Hnd & Hall).
  exists positions. split; [done|]. eapply Forall2_impl; [exact Hall|]. intros p x (_ & Hid & _). exact Hid.
Defined.


(** ** Where the code does less than it says *)

(** The arguments of a tool call are emitted as the model wrote them, although
    the output is checked. *)
Example tool_arguments_bypass_the_output_guardrails :
  EvToolCall "count" "jo@site.org" ∈
    a_events (run_example ["count"] 4 [("", [call "a" "count" "jo@site.org"]); ("done", [])]).1.
Proof. vm_compute. set_solver. Qed.

(** A registered tool that the definition does not list runs when the model asks
    for it. *)
Example unlisted_tool_runs : a_tools (run_example [] 4 [("", [call "a" "count" ""]); ("done", [])]).1 = 1%nat.
Proof. vm_compute. reflexivity. Qed.

(** An empty answer on the last step is reported as no answer; a step earlier it
    is one. *)
Example empty_answer_on_the_last_step :
  (run_example [] 1 [("", [])]).2 = Stop (Throw (Runtime "agent did not finish within 1 steps")) ∧
  (out_text <$> match (run_example [] 2 [("", [])]).2 with Ret out => Some out | Stop _ => None end) = Some "".
Proof. vm_compute. done. Qed.

(** The note of the last step is not part of what the budget is checked for. *)
Example note_exceeds_the_budget :
  let opts := {|
    input := Str "hi"; max_steps_option := Some 1%nat; tenant := ""; hosted := false; opt_egress_allowlist := None;
    opt_trust_class := FirstParty; Agent.context := {| max_prompt_tokens := 26; strategy := DropOldest |};
    step_retries := 0; guardrails := [] : list PiiRedactor |} in
  let w := (run_agent Gateway_default counters (agent_example ["count"]) opts None (λ _, [])
    (world_example [("done", [])])).1 in
  total Heuristic (tools_overhead [{| ts_name := "count"; ts_description := "counts"; ts_parameters := Object []; ts_strict := false |}])
    [system "Be brief."; user "hi"] = 26%nat ∧
  map (λ r, Nat.ltb 26 (total Heuristic 0 (messages r))) (a_requests w) = [true].
Proof. vm_compute. done. Qed.
