(* ===== verification/Keyless.v ===== *)
(** * Keyless plugin signatures

    crates/wovyr-plugin/src/keyless.rs: identity certificates, the transparency
    log, signing and offline verification.  Keys and the signature algorithms
    (the ring crate) are parameters; a call that decodes hexadecimal text that is
    not ASCII panics, so the calls return an [outcome]. *)
From stdpp Require Import base tactics list numbers strings gmap pretty.
From Stdlib Require Import ZArith Ascii Lia.
From S2P Require Import Prelude.
From S2P Require Import RustStr.
From S2P Require Import Common.
From S2P Require Import Effect.
From S2P Require Import Manifest.
Local Open Scope Z_scope.

(** ** Identities, certificates and log entries *)

Record SignerIdentity := { issuer : string; subject : string }.
#[export] Instance SignerIdentity_eq_dec : EqDecision SignerIdentity.
Proof. solve_decision. Defined.

Record IdentityCert := {
  public_key : string; identity : SignerIdentity;
  not_before_ms : Z; not_after_ms : Z; cert_signature : string }.

(** The fields of a signed text, each behind a line feed. *)
Fixpoint newline_fields (fields : list string) : string :=
  match fields with
  | [] => ""
  | f :: fields => String newline (f +:+ newline_fields fields)
  end.

Definition canonical_bytes (c : IdentityCert) : string :=
  "wovyr-identity-cert.v1" +:+ newline_fields
    [issuer (identity c); subject (identity c); public_key c;
     show_Z (not_before_ms c); show_Z (not_after_ms c)].

Record LogEntryRef := {
  uuid : string; log_index : Z; integrated_time_ms : Z; log_id : string;
  body : string; signed_entry_timestamp : string }.

Definition set_canonical_bytes (e : LogEntryRef) (body_digest : string) : string :=
  "wovyr-set.v1" +:+ newline_fields
    [uuid e; show_Z (log_index e); show_Z (integrated_time_ms e); log_id e; body_digest].

Definition body_digest_hex `{PluginCrypto} (artifact signature_hex public_key_hex : string) : string :=
  hex_encode (digest (hex_encode (digest artifact) +:+ newline_fields [signature_hex; public_key_hex])).

Definition dquote : ascii := "034"%char.
Definition backslash : ascii := "092"%char.

(** RFC 8785 escaping; the bytes of a multi-byte character are kept. *)
Definition jcs_escape_char (c : ascii) : string :=
  let escaped (x : ascii) := String backslash (String x "") in
  if Ascii.eqb c dquote then escaped dquote
  else if Ascii.eqb c backslash then escaped backslash
  else if Ascii.eqb c "008"%char then escaped "b"%char
  else if Ascii.eqb c "012"%char then escaped "f"%char
  else if Ascii.eqb c newline then escaped "n"%char
  else if Ascii.eqb c carriage_return then escaped "r"%char
  else if Ascii.eqb c "009"%char then escaped "t"%char
  else if N.ltb (byte_of c) 32 then
    String backslash ("u00" +:+ hex_encode (String c ""))
  else String c "".
Fixpoint jcs_escape (s : string) : string :=
  match s with "" => "" | String c s => jcs_escape_char c +:+ jcs_escape s end.

(** A text between double quotes, and a member of a JSON object. *)
Definition quoted (s : string) : string := String dquote (s +:+ String dquote "").

Definition rekor_set_payload (e : LogEntryRef) : string :=
  "{" +:+ (quoted "body" +:+ (":" +:+ (quoted (jcs_escape (body e)) +:+
  ("," +:+ (quoted "integratedTime" +:+ (":" +:+ (show_Z (integrated_time_ms e / 1000) +:+
  ("," +:+ (quoted "logID" +:+ (":" +:+ (quoted (jcs_escape (log_id e)) +:+
  ("," +:+ (quoted "logIndex" +:+ (":" +:+ (show_Z (log_index e) +:+ "}"))))))))))))))).

(** ** Checks of a signature *)

(** [.is_ok()] of a call that may panic. *)
Definition succeeds {A} (o : outcome A) : outcome bool :=
  match o with
  | Ret _ => Ret true
  | Stop (Throw _) => Ret false
  | Stop s => Stop s
  end.
(** [.map_err(|_| e)] *)
Definition or_error {A} (e : Error) (o : outcome A) : outcome A :=
  match o with Stop (Throw _) => Stop (Throw e) | o => o end.
(** [.iter().any(f)] *)
Fixpoint any {A} (f : A → outcome bool) (l : list A) : outcome bool :=
  match l with
  | [] => Ret false
  | a :: l => b ← f a; if b : bool then Ret true else any f l
  end.
Definition ensure (b : bool) (e : Error) : outcome () := if b then Ret () else Stop (Throw e).

(** A byte string from its codes. *)
Definition bytes_of (l : list N) : string := foldr (λ n s, String (ascii_of_N n) s) "" l.
Definition ED25519_SPKI_PREFIX : string :=
  bytes_of [0x30; 0x2a; 0x30; 0x05; 0x06; 0x03; 0x2b; 0x65; 0x70; 0x03; 0x21; 0x00]%N.
Definition P256_SPKI_PREFIX : string :=
  bytes_of [0x30; 0x59; 0x30; 0x13; 0x06; 0x07; 0x2a; 0x86; 0x48; 0xce; 0x3d; 0x02; 0x01; 0x06; 0x08;
            0x2a; 0x86; 0x48; 0xce; 0x3d; 0x03; 0x01; 0x07; 0x03; 0x42; 0x00]%N.

Section checks.
Context `{PluginCrypto}.

(** The algorithm and the raw key of a pinned key. *)
Definition pinned_algorithm (key : string) : outcome ((string → string → string → bool) * string) :=
  let unsupported := Stop (Throw (invalid
    ("unsupported pinned key encoding (" +:+ (show_Z (str_len key) +:+ " bytes)")))) in
  if Z.eqb (str_len key) 32 then Ret (ed25519_verify, key)
  else if Z.eqb (str_len key) 44 then
    match strip_prefix ED25519_SPKI_PREFIX key with Some raw => Ret (ed25519_verify, raw) | None => unsupported end
  else if Z.eqb (str_len key) 65 then
    match key with
    | String "004"%char _ => Ret (ecdsa_p256_verify, key)
    | _ => unsupported
    end
  else if Z.eqb (str_len key) 91 then
    match strip_prefix P256_SPKI_PREFIX key with Some raw => Ret (ecdsa_p256_verify, raw) | None => unsupported end
  else unsupported.

Definition verify_with_pinned_key (key_hex message signature_hex : string) : outcome () :=
  key ← hex_decode key_hex;
  sig ← hex_decode signature_hex;
  '(alg, raw) ← pinned_algorithm key;
  ensure (alg raw message sig) (invalid "signature verification failed against pinned key").

Definition verify_ed25519 (public_key_hex message signature_hex : string) : outcome () :=
  key ← hex_decode public_key_hex;
  sig ← hex_decode signature_hex;
  ensure (ed25519_verify key message sig) (invalid "ed25519 signature verification failed").
End checks.

(** ** Bundles, roots and policies *)

Record KeylessBundle := { cert : IdentityCert; signature : string; log_entry : option LogEntryRef }.
Record KeylessRoot := { ca_public_keys : list string; log_public_keys : list string }.
Record IdentityRule := { rule_issuer : string; rule_subject : string; rule_publisher : string }.
Record IdentityPolicy := { allow : list IdentityRule; require_transparency : bool }.
Definition IdentityPolicy_default : IdentityPolicy := {| allow := []; require_transparency := true |}.

Definition pattern_matches (pattern value : string) : bool :=
  match strip_suffix "*" pattern with
  | Some prefix => starts_with prefix value
  | None => String.eqb pattern value
  end.

Definition allows (p : IdentityPolicy) (i : SignerIdentity) (publisher : string) : bool :=
  existsb (λ r, String.eqb (rule_issuer r) (issuer i) && pattern_matches (rule_subject r) (subject i)
                && pattern_matches (rule_publisher r) publisher) (allow p).

Section verify.
Context `{PluginCrypto}.

(** The bytes a log signs for an entry: Rekor's own body, or the event. *)
Definition set_bytes (manifest : string) (b : KeylessBundle) (e : LogEntryRef) : string :=
  if is_empty (body e) then set_canonical_bytes e (body_digest_hex manifest (signature b) (public_key (cert b)))
  else rekor_set_payload e.

Definition check_log_entry (manifest : string) (b : KeylessBundle) (root : KeylessRoot) (e : LogEntryRef)
    : outcome () :=
  _ ← ensure (negb (Z.ltb (integrated_time_ms e) (not_before_ms (cert b))
                    || Z.ltb (not_after_ms (cert b)) (integrated_time_ms e)))
        (invalid "transparency-log entry falls outside the certificate validity window");
  match log_public_keys root with
  | [] => Ret ()
  | ks =>
    set_ok ← any (λ k, succeeds (verify_with_pinned_key k (set_bytes manifest b e) (signed_entry_timestamp e))) ks;
    ensure set_ok (invalid
      "transparency-log signed entry timestamp does not verify against a pinned log key")
  end.

Definition verify_keyless (manifest : string) (b : KeylessBundle) (root : KeylessRoot) (policy : IdentityPolicy)
    (publisher : string) : outcome SignerIdentity :=
  let id := identity (cert b) in
  ca_ok ← any (λ ca, succeeds (verify_ed25519 ca (canonical_bytes (cert b)) (cert_signature (cert b))))
            (ca_public_keys root);
  _ ← ensure ca_ok (invalid "keyless certificate is not signed by a pinned CA");
  _ ← ensure (allows policy id publisher)
        (Forbidden ("identity " +:+ (ticked (subject id) +:+ (" (issuer " +:+ (ticked (issuer id) +:+
          (") is not allowed to sign for publisher " +:+ ticked publisher))))));
  _ ← or_error (invalid "keyless manifest signature verification failed")
        (verify_ed25519 (public_key (cert b)) manifest (signature b));
  match log_entry b with
  | None =>
    _ ← ensure (negb (require_transparency policy))
          (invalid "keyless bundle carries no transparency-log entry, which this policy requires");
    Ret id
  | Some e => _ ← check_log_entry manifest b root e; Ret id
  end.
End verify.

(** ** Signing *)

(** ring's ed25519 key pairs. *)
Class KeyPairs (K : Type) := {
  from_pkcs8 : string → option K;
  pair_public : K → string;
  pair_sign : K → string → string }.

(** What ring documents of them: public keys have 32 bytes, and the signature
    of a pair verifies under its public key. *)
Class KeyPairLaws (K : Type) `{KeyPairs K} `{PluginCrypto} := {
  pair_public_length k : String.length (pair_public k) = 32%nat;
  pair_sign_verifies k m : ed25519_verify (pair_public k) m (pair_sign k m) = true }.

Class CertificateAuthority (CA : Type) := {
  issue : CA → SignerIdentity → string → Z → result IdentityCert }.
Class TransparencyLog (L : Type) := {
  log_append : string → string → string → L → L * result LogEntryRef }.

Definition DEFAULT_CERT_TTL_MS : Z := 10 * 60 * 1000.
Definition CLOCK_SKEW_ALLOWANCE_MS : Z := 60 * 1000.

Section signing.
Context `{PluginCrypto} {K : Type} `{KeyPairs K}.

Record InMemoryCa := { ca_key : K; ttl_ms : Z }.
Definition InMemoryCa_from_pkcs8 (pkcs8 : string) : result InMemoryCa :=
  match from_pkcs8 pkcs8 with
  | Some k => Ok {| ca_key := k; ttl_ms := DEFAULT_CERT_TTL_MS |}
  | None => Err (invalid "invalid ed25519 pkcs8 for CA")
  end.
Definition with_ttl_ms (t : Z) (ca : InMemoryCa) : InMemoryCa := {| ca_key := ca_key ca; ttl_ms := t |}.
Definition ca_public_key_hex (ca : InMemoryCa) : string := hex_encode (pair_public (ca_key ca)).

Definition signed_by (k : K) (c : IdentityCert) : IdentityCert := {|
  public_key := public_key c; identity := identity c; not_before_ms := not_before_ms c;
  not_after_ms := not_after_ms c; cert_signature := hex_encode (pair_sign k (canonical_bytes c)) |}.

#[global] Instance in_memory_ca : CertificateAuthority InMemoryCa := {|
  issue ca i ephemeral now_ms := Ok (signed_by (ca_key ca) {|
    public_key := ephemeral; identity := i;
    not_before_ms := u64_saturating_sub now_ms CLOCK_SKEW_ALLOWANCE_MS;
    not_after_ms := u64_wrapping_add now_ms (ttl_ms ca); cert_signature := "" |}) |}.

Record InMemoryTransparencyLog := { log_key : K; log_now_ms : Z; entries : list string }.
Definition InMemoryTransparencyLog_from_pkcs8 (pkcs8 : string) (now_ms : Z) : result InMemoryTransparencyLog :=
  match from_pkcs8 pkcs8 with
  | Some k => Ok {| log_key := k; log_now_ms := now_ms; entries := [] |}
  | None => Err (invalid "invalid ed25519 pkcs8 for transparency log")
  end.
Definition log_public_key_hex (l : InMemoryTransparencyLog) : string := hex_encode (pair_public (log_key l)).

Definition witnessed (k : K) (event : string) (e : LogEntryRef) : LogEntryRef := {|
  uuid := uuid e; log_index := log_index e; integrated_time_ms := integrated_time_ms e;
  log_id := log_id e; body := body e;
  signed_entry_timestamp := hex_encode (pair_sign k (set_canonical_bytes e event)) |}.

#[global] Instance in_memory_log : TransparencyLog InMemoryTransparencyLog := {|
  log_append artifact sig pk l :=
    let event := body_digest_hex artifact sig pk in
    let n := Z.of_nat (length (entries l)) in
    let e := {|
      uuid := hex_encode (digest (show_Z n +:+ newline_fields [event]));
      log_index := n; integrated_time_ms := log_now_ms l;
      log_id := hex_encode (digest (pair_public (log_key l))); body := "";
      signed_entry_timestamp := "" |} in
    ({| log_key := log_key l; log_now_ms := log_now_ms l; entries := entries l ++ [event] |},
     Ok (witnessed (log_key l) event e)) |}.

Definition sign_keyless {CA L} `{CertificateAuthority CA} `{TransparencyLog L} (manifest : string)
    (i : SignerIdentity) (ephemeral_pkcs8 : string) (ca : CA) (log : option L) (now_ms : Z)
    : option L * result KeylessBundle :=
  match from_pkcs8 ephemeral_pkcs8 with
  | None => (log, Err (invalid "invalid ephemeral ed25519 pkcs8"))
  | Some k =>
    let public_hex := hex_encode (pair_public k) in
    match issue ca i public_hex now_ms with
    | Err e => (log, Err e)
    | Ok c =>
      let sig := hex_encode (pair_sign k manifest) in
      match log with
      | None => (None, Ok {| cert := c; signature := sig; log_entry := None |})
      | Some l =>
        let '(l', r) := log_append manifest sig public_hex l in
        (Some l', e ← r; Ok {| cert := c; signature := sig; log_entry := Some e |})
      end
    end
  end.
End signing.
Arguments InMemoryCa K : clear implicits.
Arguments InMemoryTransparencyLog K : clear implicits.

(** ** Keyless signatures verify, and what a verified one is worth

    The round trip of signing and verifying, the meaning of a verified bundle,
    and two limits of the scheme: certificates whose fields hold line feeds have
    a common signed text, and an entry of a Rekor-style log is not bound to the
    manifest it is presented with. *)

(** *** Hexadecimal text *)

(** Decided on the 256 bytes. *)
Definition all_bytes : list ascii := ascii_of_N ∘ N.of_nat <$> seq 0 256.

Lemma all_bytes_elem (c : ascii) : c ∈ all_bytes.
Proof.
  apply list_elem_of_fmap. exists (N.to_nat (N_of_ascii c)). split.
  - simpl. by rewrite N2Nat.id, ascii_N_embedding.
  - apply elem_of_seq. pose proof (N_ascii_bounded c). lia.
Qed.

Lemma byte_forall (f : ascii → bool) : forallb f all_bytes = true → ∀ c, f c = true.
Proof. intros Hf c. rewrite forallb_elem in Hf. apply Hf, all_bytes_elem. Qed.

Lemma hex_byte_digits c :
  hex_byte (hex_digit_char (byte_of c / 16)) (hex_digit_char (byte_of c mod 16)) = Some c.
Proof.
  assert (∀ c, bool_decide (hex_byte (hex_digit_char (byte_of c / 16)) (hex_digit_char (byte_of c mod 16)) = Some c)
               = true) as Hb by (apply byte_forall; vm_compute; done).
  by specialize (Hb c); apply bool_decide_eq_true in Hb.
Qed.

Lemma hex_digit_ascii c : is_continuation (hex_digit_char (byte_of c / 16)) = false.
Proof.
  apply negb_true_iff. revert c. apply byte_forall. vm_compute. done.
Qed.

Lemma hex_encode_boundary b : at_boundary (hex_encode b) = true.
Proof. destruct b as [|c b]; [done|]. simpl. by rewrite hex_digit_ascii. Qed.

Lemma hex_encode_length b : String.length (hex_encode b) = (2 * String.length b)%nat.
Proof. induction b as [|c b IH]; simpl in *; lia. Qed.

Lemma hex_round_trip b : hex_decode (hex_encode b) = Ret b.
Proof.
  unfold hex_decode. rewrite hex_encode_length, Nat.mul_comm, Nat.Div0.mod_mul. simpl.
  induction b as [|c b IH]; [done|]. cbn [hex_encode hex_decode_go].
  rewrite hex_encode_boundary, hex_byte_digits. simpl. by rewrite IH.
Qed.

(** *** The checks *)

Lemma any_spec {A} (f : A → outcome bool) l :
  (∀ x, x ∈ l → ∃ b, f x = Ret b) →
  any f l = Ret (existsb (λ x, match f x with Ret true => true | _ => false end) l).
Proof.
  induction l as [|x l IH]; intros Hf; [done|]. simpl. destruct (Hf x) as [b ->]; [set_solver|].
  simpl. destruct b; [done|]. apply IH. set_solver.
Qed.

Lemma any_true {A} (f : A → outcome bool) l x :
  (∀ y, y ∈ l → ∃ b, f y = Ret b) → x ∈ l → f x = Ret true → any f l = Ret true.
Proof.
  intros Hf Hx Hfx. rewrite any_spec by done. f_equal. apply existsb_elem. exists x. by rewrite Hfx.
Qed.

Lemma any_Ret_true {A} (f : A → outcome bool) l : any f l = Ret true → ∃ x, x ∈ l ∧ f x = Ret true.
Proof.
  induction l as [|x l IH]; simpl; [done|]. destruct (f x) as [[]|s] eqn:E; simpl; [|intros H|done].
  - eexists. split; [left|done].
  - destruct (IH H) as (y & ? & ?). eexists. split; [by right|done].
Qed.

Lemma ensure_bind {A} b e (k : () → outcome A) a : ensure b e ≫= k = Ret a ↔ b = true ∧ k () = Ret a.
Proof. destruct b; simpl; naive_solver. Qed.

Lemma or_error_bind {A} e (o : outcome ()) (k : () → outcome A) a :
  or_error e o ≫= k = Ret a ↔ o = Ret () ∧ k () = Ret a.
Proof. destruct o as [[]|[]]; simpl; naive_solver. Qed.

Lemma succeeds_true (o : outcome ()) : succeeds o = Ret true ↔ o = Ret ().
Proof. destruct o as [[]|[]]; simpl; naive_solver. Qed.

(** Hexadecimal text of the pinned keys: a byte slice never leaves a character. *)
Definition decodable (s : string) : Prop := hex_decode s ≠ Stop Panicked.

Lemma hex_decode_stops s : match hex_decode s with Ret _ | Stop (Throw _) | Stop Panicked => True | _ => False end.
Proof.
  unfold hex_decode. destruct (Nat.eqb _ _); [|done]. revert s. fix IH 1. intros [|a [|b s]]; simpl; [done..|].
  destruct (negb _); [done|]. destruct (hex_byte a b); [|done]. specialize (IH s).
  destruct (hex_decode_go s) as [|[]]; done.
Qed.

Lemma decodable_cases s : decodable s → (∃ b, hex_decode s = Ret b) ∨ ∃ e, hex_decode s = Stop (Throw e).
Proof. unfold decodable. pose proof (hex_decode_stops s). repeat case_match; try done; eauto. Qed.

Section verified.
Context `{PluginCrypto}.

Lemma verify_ed25519_decodable pk m s :
  decodable pk → decodable s → ∃ b, succeeds (verify_ed25519 pk m s) = Ret b.
Proof.
  intros [[k Hk]|[e Hk]]%decodable_cases [[g Hg]|[e' Hg]]%decodable_cases; unfold verify_ed25519;
    rewrite Hk; simpl; rewrite ?Hg; simpl; try by eexists.
  destruct (ed25519_verify k m g); by eexists.
Qed.

Lemma verify_pinned_decodable pk m s :
  decodable pk → decodable s → ∃ b, succeeds (verify_with_pinned_key pk m s) = Ret b.
Proof.
  intros [[k Hk]|[e Hk]]%decodable_cases [[g Hg]|[e' Hg]]%decodable_cases; unfold verify_with_pinned_key;
    rewrite Hk; simpl; rewrite ?Hg; simpl; try by eexists.
  assert ((∃ a, pinned_algorithm k = Ret a) ∨ ∃ e, pinned_algorithm k = Stop (Throw e)) as [[[alg raw] ->]|[e ->]];
    [|simpl; destruct (alg raw m g); by eexists|by eexists].
  unfold pinned_algorithm. repeat case_match; eauto.
Qed.

(** What a verified bundle has been checked for. *)
Lemma verify_keyless_Ret m b root policy pub i :
  verify_keyless m b root policy pub = Ret i →
  i = identity (cert b) ∧ allows policy i pub = true
  ∧ (∃ ca, ca ∈ ca_public_keys root ∧ verify_ed25519 ca (canonical_bytes (cert b)) (cert_signature (cert b)) = Ret ())
  ∧ verify_ed25519 (public_key (cert b)) m (signature b) = Ret ()
  ∧ match log_entry b with
    | None => require_transparency policy = false
    | Some e => check_log_entry m b root e = Ret ()
    end.
Proof.
  unfold verify_keyless. destruct (any _ _) as [ca_ok|s] eqn:Ha; [|done]. cbn [mbind outcome_bind].
  intros (-> & (Hal & (Hs & Hl)%or_error_bind)%ensure_bind)%ensure_bind.
  apply any_Ret_true in Ha as (ca & Hca & Hv%succeeds_true).
  destruct (log_entry b) as [e|].
  - destruct (check_log_entry _ _ _ _) as [[]|s]; [|done]. by injection Hl as <-; eauto 10.
  - apply ensure_bind in Hl as [Hr%negb_true_iff [= <-]]. eauto 10.
Qed.

Lemma check_log_entry_Ret m b root e :
  check_log_entry m b root e = Ret () ↔
  not_before_ms (cert b) <= integrated_time_ms e <= not_after_ms (cert b)
  ∧ (log_public_keys root ≠ [] →
     any (λ k, succeeds (verify_with_pinned_key k (set_bytes m b e) (signed_entry_timestamp e)))
       (log_public_keys root) = Ret true).
Proof.
  unfold check_log_entry. rewrite ensure_bind, negb_true_iff, orb_false_iff, !Z.ltb_ge.
  split; intros [Ht Hk]; (split; [lia|]).
  - destruct (log_public_keys root) as [|k ks]; [done|]. intros _.
    destruct (any _ _) as [[]|]; done.
  - destruct (log_public_keys root) as [|k ks]; [done|]. by rewrite Hk.
Qed.
End verified.

(** *** Signing, then verifying *)

Section round_trip.
Context {K : Type} `{CR : PluginCrypto} `{KP : KeyPairs K} {KL : KeyPairLaws K}.

Lemma verify_ed25519_signed k m :
  verify_ed25519 (hex_encode (pair_public k)) m (hex_encode (pair_sign k m)) = Ret ().
Proof. unfold verify_ed25519. rewrite !hex_round_trip. simpl. by rewrite pair_sign_verifies. Qed.

Lemma verify_pinned_signed k m :
  verify_with_pinned_key (hex_encode (pair_public k)) m (hex_encode (pair_sign k m)) = Ret ().
Proof.
  unfold verify_with_pinned_key. rewrite !hex_round_trip. simpl. unfold pinned_algorithm, str_len.
  rewrite pair_public_length. simpl. by rewrite pair_sign_verifies.
Qed.

Lemma decodable_hex b : decodable (hex_encode b).
Proof. unfold decodable. by rewrite hex_round_trip. Qed.
Hint Resolve decodable_hex : core.

Lemma any_pinned (check : string → string → string → outcome ()) keys key m s :
  (∀ k m s, decodable k → decodable s → ∃ b, succeeds (check k m s) = Ret b) →
  (∀ k, k ∈ keys → decodable k) → decodable s → key ∈ keys → check key m s = Ret () →
  any (λ k, succeeds (check k m s)) keys = Ret true.
Proof. intros Hc Hd Hs Hk Hv. apply any_true with key; [auto|done|]. by rewrite Hv. Qed.

(** A manifest signed without a long-lived key, its event witnessed by the
    log while the certificate is valid, verifies offline for the signer, at
    every verifier that pins the two keys and allows the identity. *)
Theorem keyless_round_trip m i eph k ca log root policy publisher now :
  from_pkcs8 eph = Some k → 0 <= now → 0 <= ttl_ms ca → now + ttl_ms ca < u64_modulus →
  now - CLOCK_SKEW_ALLOWANCE_MS <= log_now_ms log <= now + ttl_ms ca → 0 <= log_now_ms log →
  allows policy i publisher = true →
  (∀ key, key ∈ ca_public_keys root ++ log_public_keys root → decodable key) →
  ca_public_key_hex ca ∈ ca_public_keys root → log_public_key_hex log ∈ log_public_keys root →
  ∃ log' b,
    sign_keyless (K := K) m i eph ca (Some log) now = (Some log', Ok b)
    ∧ entries log' = entries log ++ [body_digest_hex m (signature b) (public_key (cert b))]
    ∧ verify_keyless m b root policy publisher = Ret i.
Proof.
  intros Hk Hn Ht Hw Hl Hl0 Ha Hd Hca Hlog. unfold sign_keyless. rewrite Hk. cbn -[hex_encode body_digest_hex].
  do 2 eexists. split_and!; [done|done|]. unfold verify_keyless. cbn -[hex_encode body_digest_hex verify_ed25519].
  rewrite (any_pinned verify_ed25519) with (key := ca_public_key_hex ca);
    [|apply verify_ed25519_decodable|set_solver|done|done|apply verify_ed25519_signed].
  cbn [mbind outcome_bind ensure]. rewrite Ha. cbn [mbind outcome_bind ensure].
  rewrite verify_ed25519_signed. cbn [mbind outcome_bind or_error].
  rewrite (proj2 (check_log_entry_Ret _ _ _ _)); [done|]. cbn -[hex_encode body_digest_hex].
  split; [unfold_ints; rewrite Z.mod_small by lia; lia|]. intros _.
  apply (any_pinned verify_with_pinned_key) with (key := log_public_key_hex log);
    [apply verify_pinned_decodable|set_solver|done|done|apply verify_pinned_signed].
Qed.
End round_trip.

(** *** Limits of the scheme *)

Section limits.
Context `{PluginCrypto}.

(** The fields of a certificate are separated by line feeds which they may hold
    themselves: the authority's signature on one certificate is a signature on
    another one, for another identity. *)
Lemma certificate_text_is_shared x y z pk nb na s :
  let c i := {| public_key := pk; identity := i; not_before_ms := nb; not_after_ms := na; cert_signature := s |} in
  canonical_bytes (c {| issuer := x +:+ String newline y; subject := z |}) =
  canonical_bytes (c {| issuer := x; subject := y +:+ String newline z |}).
Proof. unfold canonical_bytes. cbn [identity issuer subject public_key newline_fields]. by rewrite !str_app_assoc. Qed.

Lemma newline_fields_inj l l' :
  length l = length l' → Forall (λ s, str_all (other_than newline) s = true) l →
  Forall (λ s, str_all (other_than newline) s = true) l' →
  newline_fields l = newline_fields l' → l = l'.
Proof.
  assert (∀ ws, Forall (λ s, str_all (other_than newline) s = true) ws →
    split_char newline (newline_fields ws) = "" :: ws) as Hs.
  { induction 1 as [|s ws Hs Hws IH]; [done|].
    change (newline_fields (s :: ws)) with ("" +:+ String newline (s +:+ newline_fields ws)).
    rewrite split_char_first by done. f_equal. destruct ws as [|s' ws].
    - by rewrite str_app_nil_r, split_char_absent.
    - cbn [newline_fields] in *. rewrite split_char_first by done. f_equal.
      cbn [split_char] in IH. rewrite Ascii.eqb_refl in IH. by injection IH. }
  intros _ Hl1 Hl2 E. assert ("" :: l = "" :: l') as [=] by by rewrite <-(Hs l), <-(Hs l'), E. done.
Qed.

(** Without line feeds in the identity and the key, the text determines the
    certificate up to its signature. *)
Lemma certificate_text_inj c c' :
  (∀ x, x ∈ [c; c'] → Forall (λ s, str_all (other_than newline) s = true)
     [issuer (identity x); subject (identity x); public_key x; show_Z (not_before_ms x); show_Z (not_after_ms x)]) →
  canonical_bytes c = canonical_bytes c' →
  identity c = identity c' ∧ public_key c = public_key c'
  ∧ not_before_ms c = not_before_ms c' ∧ not_after_ms c = not_after_ms c'.
Proof.
  intros Hn E. apply str_app_inj_l in E. apply newline_fields_inj in E; [|done|apply Hn; set_solver..].
  destruct c as [? [??] ???], c' as [? [??] ???]. simpl in *. injection E as -> -> -> E1 E2.
  apply (inj pretty) in E1, E2. done.
Qed.

(** A Rekor-style entry, which carries its own body, is checked against that
    body only: it verifies as well for any other manifest the ephemeral key is
    made to sign, whenever that happens. *)
Lemma rekor_entry_replays m m' b s' e root policy pub i :
  log_entry b = Some e → body e ≠ "" → verify_keyless m b root policy pub = Ret i →
  verify_ed25519 (public_key (cert b)) m' s' = Ret () →
  verify_keyless m' {| cert := cert b; signature := s'; log_entry := Some e |} root policy pub = Ret i.
Proof.
  intros Hb He Hv Hs'. revert Hv. unfold verify_keyless. cbn [cert signature log_entry]. rewrite Hb.
  destruct (any _ _) as [[]|]; [|done..]. cbn [mbind outcome_bind ensure].
  destruct (allows _ _ _); [|done]. cbn [mbind outcome_bind ensure].
  rewrite Hs'. rewrite or_error_bind. intros [_ Hr]. cbn [mbind outcome_bind or_error]. revert Hr.
  assert (check_log_entry m b root e = check_log_entry m' {| cert := cert b; signature := s'; log_entry := Some e |} root e)
    as ->; [|done].
  unfold check_log_entry. cbn [cert]. assert (∀ n c, set_bytes n c e = rekor_set_payload e) as Hset.
  { intros n c. unfold set_bytes. by destruct (body e). }
  by rewrite !Hset.
Qed.
End limits.

(** *** A concrete run: two keys whose signature of a text is the key and the text *)

Module Toy.
Definition key_text (k : bool) : string := if k then "11111111111111111111111111111111" else "00000000000000000000000000000000".
#[global] Instance crypto : PluginCrypto := {|
  digest m := m; ed25519_verify pk m s := String.eqb s (pk +:+ m); ecdsa_p256_verify _ _ _ := false |}.
#[global] Instance pairs : KeyPairs bool := {|
  from_pkcs8 s := if String.eqb s "ephemeral" then Some true else None;
  pair_public := key_text; pair_sign k m := key_text k +:+ m |}.
#[global] Instance pair_laws : KeyPairLaws bool.
Proof. split; [by intros []|]. intros k m. simpl. by rewrite String.eqb_refl. Qed.

Definition ca : InMemoryCa bool := {| ca_key := false; ttl_ms := DEFAULT_CERT_TTL_MS |}.
Definition log : InMemoryTransparencyLog bool := {| log_key := false; log_now_ms := 1000000; entries := [] |}.
Definition signer : SignerIdentity := {| issuer := "https://ci.example.com"; subject := "release@acme.dev" |}.
Definition root : KeylessRoot :=
  {| ca_public_keys := [ca_public_key_hex ca]; log_public_keys := [log_public_key_hex log] |}.
Definition policy : IdentityPolicy := {|
  allow := [{| rule_issuer := "https://ci.example.com"; rule_subject := "release@acme.*"; rule_publisher := "acme" |}];
  require_transparency := true |}.
End Toy.

Lemma keyless_round_trip_witness :
  ∃ log' b,
    sign_keyless (K := bool) "kind: Plugin" Toy.signer "ephemeral" Toy.ca (Some Toy.log) 1000000 = (Some log', Ok b)
    ∧ entries log' = entries Toy.log ++ [body_digest_hex "kind: Plugin" (signature b) (public_key (cert b))]
    ∧ verify_keyless "kind: Plugin" b Toy.root Toy.policy "acme" = Ret Toy.signer.
Proof.
  apply (keyless_round_trip "kind: Plugin" Toy.signer "ephemeral" true Toy.ca Toy.log Toy.root Toy.policy "acme" 1000000);
    try reflexivity; try (split; discriminate); try discriminate.
  - intros key Hkey. apply list_elem_of_In in Hkey. destruct Hkey as [<-|[<-|[]]]; vm_compute; discriminate.
  - left.
  - left.
Defined.
