(* ===== verification/Resolve.v ===== *)
(** * Plugin dependency resolution

    crates/wovyr-plugin/src/resolve.rs over the catalog of crates/wovyr-plugin/
    src/engine.rs ([InstalledPlugin], [PluginState]): the best installed match of
    a dependency, the order in which a plugin and what it needs are enabled, and
    the dependents of a plugin. *)
From stdpp Require Import base tactics list numbers strings gmap relations.
From Stdlib Require Import ZArith Ascii Lia.
From S2P Require Import Prelude.
From S2P Require Import RustStr.
From S2P Require Import Common.
From S2P Require Import Effect.
From S2P Require Import Manifest.

Inductive PluginState := Disabled | Enabled.
#[export] Instance PluginState_eq_dec : EqDecision PluginState.
Proof. solve_decision. Defined.

(** A catalogued plugin; [previous] is the version it replaced. *)
Inductive InstalledPlugin := mk_installed {
  manifest : PluginManifest;
  state : PluginState;
  granted_permissions : list string;
  artifact_dir : option string;
  previous : option InstalledPlugin }.

Definition set_state (s : PluginState) (p : InstalledPlugin) : InstalledPlugin :=
  mk_installed (manifest p) s (granted_permissions p) (artifact_dir p) (previous p).
Definition set_previous (o : option InstalledPlugin) (p : InstalledPlugin) : InstalledPlugin :=
  mk_installed (manifest p) (state p) (granted_permissions p) (artifact_dir p) o.

Abbreviation Catalog := (gmap string InstalledPlugin).
Definition catalog_values (c : Catalog) : list InstalledPlugin := snd <$> btree_iter c.

(** [{:?}] of a list of strings. *)
Definition debug_char (c : ascii) : string :=
  let n := byte_of c in
  let escaped (t : string) := String "092"%char t in
  if N.eqb n 0 then escaped "0"
  else if N.eqb n 9 then escaped "t"
  else if N.eqb n 10 then escaped "n"
  else if N.eqb n 13 then escaped "r"
  else if N.eqb n 34 then escaped (String "034"%char "")
  else if N.eqb n 92 then escaped (String "092"%char "")
  else if N.ltb n 16 then escaped ("u{" +:+ (String (hex_digit_char n) "}"))
  else if N.ltb n 32 || N.eqb n 127 then escaped ("u{" +:+ (hex_encode (String c "") +:+ "}"))
  else String c "".
Fixpoint debug_chars (s : string) : string :=
  match s with "" => "" | String c s => debug_char c +:+ debug_chars s end.
Definition debug_string (s : string) : string :=
  String "034"%char (debug_chars s +:+ String "034"%char "").
Definition debug_strings (l : list string) : string := "[" +:+ (join_with ", " (debug_string <$> l) +:+ "]").

Section resolve.
Context `{Semver V R}.

(** ** Matching a dependency *)

Definition version_of (p : InstalledPlugin) : string := md_version (metadata (manifest p)).
Definition id_of (p : InstalledPlugin) : string := qualified_id (manifest p).
Definition dependencies_of (p : InstalledPlugin) : list Dependency := dependencies (manifest p).

Definition name_matches (d : Dependency) (p : InstalledPlugin) : bool :=
  String.eqb (dep_name d) (id_of p) || String.eqb (dep_name d) (md_name (metadata (manifest p))).

Definition satisfies (d : Dependency) (p : InstalledPlugin) : result bool :=
  if negb (name_matches d p) then Ok false else
  req ← parse_version_req (dep_version d);
  version ← match parse_version (version_of p) with
            | inr v => Ok v
            | inl e => Err (invalid ("installed version is not valid semver: " +:+ e))
            end;
  Ok (req_matches req version).

(** [max_by]: the last of the greatest. *)
Fixpoint max_version (l : list (V * string)) : option (V * string) :=
  match l with
  | [] => None
  | a :: l =>
    match max_version l with
    | None => Some a
    | Some b => if bool_decide (version_cmp a.1 b.1 = Gt) then Some a else Some b
    end
  end.

Definition by_name (d : Dependency) (c : Catalog) : list InstalledPlugin :=
  List.filter (name_matches d) (catalog_values c).

(** The plugins of a list whose version a requirement admits. *)
Definition matching (req : R) (ps : list InstalledPlugin) : list (V * string) :=
  omap (λ p, match parse_version (version_of p) with
             | inr v => if req_matches req v then Some (v, id_of p) else None
             | inl _ => None
             end) ps.

Definition resolve_dep (d : Dependency) (c : Catalog) : result string :=
  match by_name d c with
  | [] => Err (invalid ("dependency " +:+ (ticked (dep_name d) +:+ (" (" +:+ (dep_version d +:+ ") is not installed")))))
  | ps =>
    req ← parse_version_req (dep_version d);
    match max_version (matching req ps) with
    | Some (_, id) => Ok id
    | None => Err (invalid ("dependency " +:+ (ticked (dep_name d) +:+ (" requires " +:+ (ticked (dep_version d) +:+
        (", but installed version(s) " +:+ (debug_strings (version_of <$> ps) +:+ " do not satisfy it")))))))
    end
  end.

(** ** The order in which plugins are enabled *)

Record Visit := { order : list string; visited : gset string; on_path : gset string }.

(** The loop over the dependencies of a plugin. *)
Fixpoint visit_deps (visit : string → Visit → outcome Visit) (c : Catalog) (deps : list Dependency) (s : Visit)
    : outcome Visit :=
  match deps with
  | [] => Ret s
  | d :: deps =>
    id ← of_result (resolve_dep d c);
    s ← visit id s;
    visit_deps visit c deps s
  end.

Fixpoint visit (fuel : nat) (c : Catalog) (id : string) (s : Visit) : outcome Visit :=
  match fuel with
  | O => Stop Exhausted
  | S fuel =>
    if bool_decide (id ∈ visited s) then Ret s
    else if bool_decide (id ∈ on_path s) then
      Stop (Throw (invalid ("plugin dependency cycle involving " +:+ ticked id)))
    else
      p ← of_result (ok_or (NotFound ("plugin " +:+ (ticked id +:+ " is not installed"))) (c !! id));
      s ← visit_deps (visit fuel c) c (dependencies_of p)
            {| order := order s; visited := visited s; on_path := {[id]} ∪ on_path s |};
      Ret {| order := order s ++ [id]; visited := {[id]} ∪ visited s; on_path := on_path s ∖ {[id]} |}
  end.

(** A path never holds a plugin twice, so the recursion is no deeper than the catalog. *)
Definition enable_order (target : string) (c : Catalog) : outcome (list string) :=
  s ← visit (S (size c)) c target {| order := []; visited := ∅; on_path := ∅ |};
  Ret (order s).

(** ** Dependents *)

Definition is_satisfied_by (q : InstalledPlugin) (d : Dependency) : bool :=
  match satisfies d q with Ok b => b | Err _ => false end.

Definition dependents (target : string) (c : Catalog) : list string :=
  match c !! target with
  | None => []
  | Some q =>
    fst <$> List.filter (λ kp, negb (String.eqb kp.1 target) && existsb (is_satisfied_by q) (dependencies_of kp.2))
              (btree_iter c)
  end.

Definition breaks (q : InstalledPlugin) (new_version : V) (d : Dependency) : bool :=
  name_matches d q
  && match parse_version_req (dep_version d) with
     | Ok req => negb (req_matches req new_version)
     | Err _ => true
     end.

Definition dependents_broken_by (target : string) (new_version : V) (c : Catalog) : list string :=
  match c !! target with
  | None => []
  | Some q =>
    fst <$> List.filter (λ kp, negb (String.eqb kp.1 target) && existsb (breaks q new_version) (dependencies_of kp.2))
              (btree_iter c)
  end.
End resolve.

(** ** Dependency resolution is correct

    A dependency resolves to the greatest admitted version; the enable order
    exists exactly for a plugin whose dependencies can be enabled, and lists
    everything it needs, once, dependencies first. *)

(** What the semver crate documents of its order. *)
Class SemverLaws (V R : Type) `{Semver V R} := {
  version_cmp_refl v : version_cmp v v = Eq;
  version_cmp_trans u v w : version_cmp u v ≠ Gt → version_cmp v w ≠ Gt → version_cmp u w ≠ Gt;
  version_cmp_flip u v : version_cmp u v = Gt → version_cmp v u ≠ Gt }.

Lemma catalog_values_elem (c : Catalog) p : p ∈ catalog_values c ↔ ∃ id, c !! id = Some p.
Proof.
  unfold catalog_values. rewrite list_elem_of_fmap. split.
  - intros ([id q] & -> & Hq%btree_iter_elem). eauto.
  - intros [id Hid]. exists (id, p). by rewrite btree_iter_elem.
Qed.

Lemma ok_fun {A} (r : result A) a b : r = Ok a → r = Ok b → a = b.
Proof. by intros -> [= ->]. Qed.

(** *** A dependency resolves to the best match *)

Section best.
Context `{SV : Semver V R}.
Implicit Types (c : Catalog) (d : Dependency) (p : InstalledPlugin).

Lemma satisfies_true d p :
  satisfies d p = Ok true ↔
  name_matches d p = true ∧ ∃ req v, parse_version_req (dep_version d) = Ok req
    ∧ parse_version (version_of p) = inr v ∧ req_matches req v = true.
Proof.
  unfold satisfies. destruct (name_matches d p); simpl; [|naive_solver].
  destruct (parse_version_req _) as [req|e]; simpl; [|naive_solver].
  destruct (parse_version _) as [e|v]; simpl; [naive_solver|].
  split; [intros [= Hm]; eauto 10|]. intros (_ & ? & ? & [= <-] & [= <-] & ->). done.
Qed.

Lemma matching_elem req ps v id :
  (v, id) ∈ matching req ps ↔
  ∃ p, p ∈ ps ∧ id_of p = id ∧ parse_version (version_of p) = inr v ∧ req_matches req v = true.
Proof.
  unfold matching. rewrite list_elem_of_omap. split.
  - intros (p & Hp & Hm). destruct (parse_version _) as [|v'] eqn:Hv; [done|]. destruct (req_matches req v') eqn:?; [|done].
    simplify_eq. eauto 10.
  - intros (p & Hp & <- & Hv & Hm). exists p. by rewrite Hv, Hm.
Qed.

Lemma max_version_elem (l : list (V * string)) a : max_version l = Some a → a ∈ l.
Proof.
  revert a. induction l as [|b l IH]; intros a; simpl; [done|]. destruct (max_version l) as [b'|].
  - case_bool_decide; intros [= <-]; [left|right; auto].
  - intros [= <-]. left.
Qed.

Lemma max_version_None (l : list (V * string)) : max_version l = None → l = [].
Proof. destruct l as [|b l]; simpl; [done|]. destruct (max_version l); [case_bool_decide|]; done. Qed.

Lemma max_version_greatest {SL : SemverLaws V R} (l : list (V * string)) a :
  max_version l = Some a → ∀ b, b ∈ l → version_cmp b.1 a.1 ≠ Gt.
Proof.
  revert a. induction l as [|b l IH]; intros a; simpl; [done|]. destruct (max_version l) as [m|] eqn:Hm.
  - case_bool_decide as Hc; intros [= <-] x [->|Hx]%elem_of_cons; [by rewrite version_cmp_refl| |done|by apply IH].
    eapply version_cmp_trans; [by apply IH|by apply version_cmp_flip].
  - apply max_version_None in Hm as ->. intros [= <-] x Hx. apply list_elem_of_singleton in Hx as ->.
    by rewrite version_cmp_refl.
Qed.

Lemma by_name_elem d c p : p ∈ by_name d c ↔ name_matches d p = true ∧ ∃ k, c !! k = Some p.
Proof. unfold by_name. rewrite filter_elem, catalog_values_elem. naive_solver. Qed.

(** A resolved dependency names an installed plugin that satisfies it. *)
Lemma resolve_dep_Ok d c id :
  resolve_dep d c = Ok id →
  ∃ k p v req, c !! k = Some p ∧ id_of p = id ∧ satisfies d p = Ok true
    ∧ parse_version_req (dep_version d) = Ok req ∧ parse_version (version_of p) = inr v
    ∧ max_version (matching req (by_name d c)) = Some (v, id).
Proof.
  unfold resolve_dep. destruct (by_name d c) as [|p0 ps0] eqn:Hn; [done|]. rewrite <-Hn. clear Hn.
  destruct (parse_version_req _) as [req|e] eqn:Hreq; [|done]. cbn [mbind result_bind].
  destruct (max_version _) as [[v id']|] eqn:Hm; [|done]. intros [= ->].
  apply max_version_elem in Hm as Hin. apply matching_elem in Hin as (p & Hp & Hid & Hv & Hr).
  apply by_name_elem in Hp as [Hnm [k Hk]]. exists k, p, v, req. split_and!; try done. apply satisfies_true. eauto 10.
Qed.

Lemma resolve_dep_some d c k p : c !! k = Some p → satisfies d p = Ok true → ∃ id, resolve_dep d c = Ok id.
Proof.
  intros Hk (Hn & req & v & Hreq & Hv & Hr)%satisfies_true. unfold resolve_dep.
  assert (p ∈ by_name d c) as Hp by (apply by_name_elem; eauto).
  destruct (by_name d c) as [|p0 ps0] eqn:Hb; [set_solver|]. rewrite Hreq. cbn [mbind result_bind].
  destruct (max_version _) as [[? ?]|] eqn:Hm; [eauto|]. exfalso. apply max_version_None in Hm.
  apply (not_elem_of_nil (v, id_of p)). rewrite <-Hm. apply matching_elem. eauto.
Qed.

(** A dependency resolves exactly when an installed plugin has its name and
    an admitted version, and then to such a plugin of the greatest version. *)
Theorem resolve_dep_highest {SL : SemverLaws V R} d c :
  match resolve_dep d c with
  | Ok id => ∃ k p v, c !! k = Some p ∧ id_of p = id ∧ satisfies d p = Ok true ∧ parse_version (version_of p) = inr v
      ∧ ∀ k' q v', c !! k' = Some q → satisfies d q = Ok true → parse_version (version_of q) = inr v' →
          version_cmp v' v ≠ Gt
  | Err _ => ∀ k p, c !! k = Some p → satisfies d p ≠ Ok true
  end.
Proof.
  destruct (resolve_dep d c) as [id|e] eqn:Hr.
  - apply resolve_dep_Ok in Hr as (k & p & v & req & Hk & Hid & Hs & Hreq & Hv & Hm). exists k, p, v. split_and!; try done.
    intros k' q v' Hk' (Hn & req' & v'' & Hreq' & Hv'' & Hr)%satisfies_true Hv'. simplify_eq.
    apply (max_version_greatest _ _ Hm (v', id_of q)). apply matching_elem. exists q. rewrite by_name_elem.
    rewrite Hv'' in Hv'. injection Hv' as ->. rewrite Hreq in Hreq'. injection Hreq' as ->. eauto 10.
  - intros k p Hk Hs. destruct (resolve_dep_some d c k p) as [id Hid]; [done..|]. congruence.
Qed.
End best.

Section order.
Context `{SV : Semver V R}.
Implicit Types (c : Catalog) (id : string) (s : Visit).

(** [id] needs [d]: a dependency of it resolves to [d]. *)
Definition needs c (id d : string) : Prop :=
  ∃ p dep, c !! id = Some p ∧ dep ∈ dependencies_of p ∧ resolve_dep dep c = Ok d.

(** Everything [id] needs is installed, at admitted versions, without a cycle. *)
Inductive Enableable c : string → Prop :=
  | enableable id p : c !! id = Some p →
      (∀ dep, dep ∈ dependencies_of p → ∃ d, resolve_dep dep c = Ok d) →
      (∀ d, needs c id d → Enableable c d) →
      Enableable c id.

(** Dependencies first, nothing twice. *)
Inductive Topological c : list string → Prop :=
  | topological_nil : Topological c []
  | topological_snoc l id p : Topological c l → id ∉ l → c !! id = Some p →
      (∀ dep, dep ∈ dependencies_of p → ∃ d, resolve_dep dep c = Ok d ∧ d ∈ l) →
      Topological c (l ++ [id]).

Lemma topological_nodup c l : Topological c l → NoDup l.
Proof.
  induction 1 as [|l id p Hl IH Hid Hp Hd]; [constructor|]. apply NoDup_app. split_and!; [done| |apply NoDup_singleton].
  intros x Hx. rewrite list_elem_of_singleton. by intros ->.
Qed.

Lemma topological_enableable c l : Topological c l → ∀ id, id ∈ l → Enableable c id.
Proof.
  induction 1 as [|l id p Hl IH Hid Hp Hd]; [set_solver|]. intros x [Hx|Hx]%elem_of_app; [auto|].
  apply list_elem_of_singleton in Hx as ->. apply enableable with p; [done| |].
  - intros dep Hdep. destruct (Hd dep Hdep) as (d & ? & _). eauto.
  - intros d (q & dep & Hq & Hdep & Hr). simplify_eq.
    destruct (Hd dep Hdep) as (d' & Hr' & ?). rewrite (ok_fun _ _ _ Hr Hr'). auto.
Qed.

Lemma topological_closed c l : Topological c l → ∀ id d, id ∈ l → needs c id d → d ∈ l.
Proof.
  induction 1 as [|l id p Hl IH Hid Hp Hd]; [set_solver|]. intros x d [Hx|Hx]%elem_of_app Hn.
  - apply elem_of_app. left. eauto.
  - apply list_elem_of_singleton in Hx as ->. destruct Hn as (q & dep & Hq & Hdep & Hr). simplify_eq.
    destruct (Hd dep Hdep) as (d' & Hr' & ?). rewrite (ok_fun _ _ _ Hr Hr'). apply elem_of_app. by left.
Qed.

Lemma topological_rtc c l id d : Topological c l → id ∈ l → rtc (needs c) id d → d ∈ l.
Proof. intros Hl Hid Hr. induction Hr; [done|]. eauto using topological_closed. Qed.

Lemma enableable_needs c id d : Enableable c id → needs c id d → Enableable c d.
Proof. destruct 1. auto. Qed.

(** What can be enabled is on no cycle. *)
Lemma enableable_acyclic c id : Enableable c id → ¬ tc (needs c) id id.
Proof.
  induction 1 as [id p Hp Hd Hn IH]. intros Ht. inversion Ht as [? ? Hid|? y ? Hid Hy]; subst.
  - exact (IH _ Hid Ht).
  - apply (IH _ Hid). by eapply tc_r.
Qed.

(** *** The visit *)

(** The state between two visits: [order] lists what is done. *)
Definition Consistent c s : Prop := Topological c (order s) ∧ visited s = list_to_set (order s).

(** What a visit of the plugins [ids] has added. *)
Definition Extended c (ids : string → Prop) s s' : Prop :=
  Consistent c s' ∧ on_path s' = on_path s ∧ (∃ l, order s' = order s ++ l)
  ∧ (∀ x, x ∈ order s' → x ∈ order s ∨ ∃ id, ids id ∧ rtc (needs c) id x)
  ∧ ∀ id, ids id → id ∈ order s'.

Definition good_end c (ids : string → Prop) s (o : outcome Visit) : Prop :=
  match o with
  | Ret s' => Extended c ids s s'
  | Stop (Throw _) => ¬ (∀ id, ids id → Enableable c id ∧ ∀ x, x ∈ on_path s → ¬ rtc (needs c) id x)
  | Stop _ => False
  end.

Lemma extended_trans c (A B : string → Prop) s s1 s2 :
  Extended c A s s1 → Extended c B s1 s2 → Extended c (λ x, A x ∨ B x) s s2.
Proof.
  intros (HC1 & HP1 & [l1 HL1] & HN1 & HI1) (HC2 & HP2 & [l2 HL2] & HN2 & HI2). split_and!; [done|congruence| | |].
  - exists (l1 ++ l2). by rewrite HL2, HL1, app_assoc.
  - intros x [Hx|(id & Hid & Hr)]%HN2; [|eauto]. destruct (HN1 x Hx) as [?|(id & Hid & Hr)]; eauto.
  - intros id [Hid|Hid]; [|auto]. rewrite HL2. apply elem_of_app. left. auto.
Qed.

(** The loop over dependencies, given what [visit] does for each. *)
Lemma visit_deps_spec (visit : string → Visit → outcome Visit) c deps s :
  Consistent c s →
  (∀ dep d s', dep ∈ deps → resolve_dep dep c = Ok d → Consistent c s' → on_path s' = on_path s →
     good_end c (eq d) s' (visit d s')) →
  match visit_deps visit c deps s with
  | Ret s' => Extended c (λ d, ∃ dep, dep ∈ deps ∧ resolve_dep dep c = Ok d) s s'
              ∧ ∀ dep, dep ∈ deps → ∃ d, resolve_dep dep c = Ok d
  | Stop (Throw _) =>
    ¬ ((∀ dep, dep ∈ deps → ∃ d, resolve_dep dep c = Ok d)
       ∧ ∀ dep d, dep ∈ deps → resolve_dep dep c = Ok d →
           Enableable c d ∧ ∀ x, x ∈ on_path s → ¬ rtc (needs c) d x)
  | Stop _ => False
  end.
Proof.
  revert s. induction deps as [|dep deps IH]; intros s HC Hv; cbn [visit_deps].
  - split; [|set_solver]. split_and!; [done|done|by exists []; rewrite app_nil_r|eauto|].
    intros id (dep & Hdep & _). set_solver.
  - destruct (resolve_dep dep c) as [d|e] eqn:Hr; cbn [of_result mbind outcome_bind].
    2: { intros [Hall _]. destruct (Hall dep) as [d Hd]; [set_solver|]. congruence. }
    pose proof (Hv dep d s ltac:(set_solver) Hr HC eq_refl) as Hd.
    destruct (visit d s) as [s1|[]]; cbn [mbind outcome_bind good_end] in *; try done.
    2: { intros [_ Hall]. apply Hd. intros ? <-. apply (Hall dep d); [set_solver|done]. }
    destruct Hd as (HC1 & HP1 & Hl1 & HN1 & HI1).
    assert (Extended c (eq d) s s1) as HE by done.
    specialize (IH s1 HC1). destruct (visit_deps visit c deps s1) as [s2|[]]; cbn [mbind outcome_bind] in *.
    + destruct IH as [HE2 Hall].
      { intros dep' d' s' ? ? ? ?. apply (Hv dep'); [set_solver|done|done|congruence]. }
      split.
      * destruct (extended_trans _ _ _ _ _ _ HE HE2) as (? & ? & ? & HN & HI). split_and!; [done..| |].
        -- intros x [?|(id & [<-|(dep' & ? & ?)] & ?)]%HN; [by left|right..]; eexists; (split; [|done]).
           ++ exists dep. split; [left|done].
           ++ exists dep'. split; [by right|done].
        -- intros id (dep' & [->|?]%elem_of_cons & ?); apply HI; [left; congruence|right; eauto].
      * intros dep' [->|?]%elem_of_cons; [eauto|auto].
    + intros [Hall Hen]. apply IH.
      * intros dep' d' s' ? ? ? ?. apply (Hv dep'); [set_solver|done|done|congruence].
      * rewrite HP1. split; [intros; apply Hall; set_solver|intros ? ? ?; apply Hen; set_solver].
    + apply IH. intros dep' d' s' ? ? ? ?. apply (Hv dep'); [set_solver|done|done|congruence].
    + apply IH. intros dep' d' s' ? ? ? ?. apply (Hv dep'); [set_solver|done|done|congruence].
    + apply IH. intros dep' d' s' ? ? ? ?. apply (Hv dep'); [set_solver|done|done|congruence].
Qed.

Lemma needs_tc c id d : needs c id d → rtc (needs c) d id → tc (needs c) id id.
Proof. intros Hn Hr. by eapply tc_rtc_r; [apply tc_once|]. Qed.

Lemma extended_snoc c id p s s1 s2 :
  id ∉ order s → id ∉ on_path s → c !! id = Some p →
  order s1 = order s → on_path s1 = {[id]} ∪ on_path s →
  (∀ dep, dep ∈ dependencies_of p → ∃ d, resolve_dep dep c = Ok d) →
  Extended c (λ d, ∃ dep, dep ∈ dependencies_of p ∧ resolve_dep dep c = Ok d) s1 s2 →
  Extended c (eq id) s {| order := order s2 ++ [id]; visited := {[id]} ∪ visited s2; on_path := on_path s2 ∖ {[id]} |}.
Proof.
  intros Hid HidP Hp HO HP Hall ([HT HV] & HP2 & [l Hl] & HN & HI). unfold Extended, Consistent.
  cbn [order visited on_path]. rewrite HO in *. split_and!.
  - apply topological_snoc with p; [done| |done|].
    + intros Hin. destruct (HN id Hin) as [?|(d & (dep & Hdep & Hr) & Hrtc)]; [done|].
      apply (enableable_acyclic c id); [by eapply topological_enableable|].
      eapply needs_tc; [|done]. by exists p, dep.
    + intros dep Hdep. destruct (Hall dep Hdep) as [d Hd]. exists d. split; [done|]. apply HI. eauto.
  - rewrite list_to_set_app_L, HV. simpl. set_solver.
  - rewrite HP2, HP. set_solver.
  - exists (l ++ [id]). by rewrite Hl, app_assoc.
  - intros x [Hx|Hx]%elem_of_app; [|apply list_elem_of_singleton in Hx as ->; right; by exists id].
    destruct (HN x Hx) as [?|(d & (dep & Hdep & Hr) & Hrtc)]; [by left|right].
    exists id. split; [done|]. eapply rtc_l; [by exists p, dep|done].
  - intros ? <-. apply elem_of_app. right. by left.
Qed.

Lemma path_grows c id (P : gset string) :
  is_Some (c !! id) → id ∉ P → (size (dom c ∖ ({[id]} ∪ P)) < size (dom c ∖ P))%nat.
Proof. intros Hid%elem_of_dom HP. apply subset_size. set_solver. Qed.

Lemma visit_spec fuel c id s :
  Consistent c s → (size (dom c ∖ on_path s) < fuel)%nat → good_end c (eq id) s (visit fuel c id s).
Proof.
  revert id s. induction fuel as [|fuel IH]; intros id s HC Hf; [lia|]. cbn [visit].
  destruct HC as [HT HV]. case_bool_decide as Hdone.
  { rewrite HV, elem_of_list_to_set in Hdone. split_and!; [done|done|by exists []; rewrite app_nil_r|eauto|].
    by intros ? <-. }
  rewrite HV, elem_of_list_to_set in Hdone. case_bool_decide as Hpath.
  { intros Hen. by apply (proj2 (Hen id eq_refl) id Hpath). }
  destruct (c !! id) as [p|] eqn:Hp; cbn [ok_or of_result mbind outcome_bind].
  2: { intros Hen. destruct (proj1 (Hen id eq_refl)). congruence. }
  set (s1 := {| order := order s; visited := visited s; on_path := {[id]} ∪ on_path s |}).
  assert (∀ dep d s', dep ∈ dependencies_of p → resolve_dep dep c = Ok d → Consistent c s' →
    on_path s' = on_path s1 → good_end c (eq d) s' (visit fuel c d s')) as Hrec.
  { intros dep d s' _ _ HC' HP'. apply IH; [done|]. rewrite HP'. apply Nat.lt_le_trans with (size (dom c ∖ on_path s)); [|lia].
    apply path_grows; [by eexists|done]. }
  pose proof (visit_deps_spec (visit fuel c) c (dependencies_of p) s1 ltac:(done) Hrec) as Hloop.
  destruct (visit_deps _ _ _ _) as [s2|[]]; cbn [mbind outcome_bind] in *; try done.
  - destruct Hloop as [HE Hall]. by apply (extended_snoc c id p s s1 s2).
  - intros Hen. apply Hloop. destruct (Hen id eq_refl) as [He Hno]. pose proof (enableable_acyclic c id He) as Hac.
    destruct He as [id q Hq Hd Hn]. simplify_eq. split; [done|]. intros dep d Hdep Hr.
    assert (needs c id d) as Hnd by (by exists p, dep). split; [auto|].
    intros x [Hx|Hx]%elem_of_union Hrtc.
    + apply elem_of_singleton in Hx as ->. exact (Hac (needs_tc _ _ _ Hnd Hrtc)).
    + eapply (Hno x Hx), rtc_l; done.
Qed.

Lemma enable_order_spec target c :
  match enable_order target c with
  | Ret l => Enableable c target ∧ Topological c l ∧ last l = Some target
             ∧ ∀ x, x ∈ l ↔ rtc (needs c) target x
  | Stop (Throw _) => ¬ Enableable c target
  | Stop _ => False
  end.
Proof.
  unfold enable_order. set (s0 := {| order := []; visited := ∅; on_path := ∅ |}).
  assert (good_end c (eq target) s0 (visit (S (size c)) c target s0)) as Hv.
  { apply visit_spec; [split; [apply topological_nil|done]|].
    apply Nat.lt_le_trans with (S (size (dom c))); [|apply le_n_S, Nat.eq_le_incl, size_dom]. apply Nat.lt_succ_r, subseteq_size. set_solver. }
  assert (last_spec : ∀ s, Extended c (eq target) s0 s →
            last (order s) = Some target).
  { intros s (HC & _ & _ & HN & HI). destruct HC as [HT _]. specialize (HI target eq_refl).
    inversion HT as [E|l id p Hl Hid Hp Hd E]; rewrite <-E in *; [set_solver|]. rewrite last_snoc. f_equal.
    destruct (HN id) as [?|(? & <- & Hr)]; [apply elem_of_app; right; by left|set_solver|].
    apply elem_of_app in HI as [HI|HI%list_elem_of_singleton]; [|done].
    destruct Hid. by eapply topological_rtc. }
  destruct (visit _ _ _ _) as [s|[]]; cbn [mbind outcome_bind]; simpl in Hv; [|try done..].
  - specialize (last_spec s Hv). destruct Hv as ([HT _] & _ & _ & HN & HI). specialize (HI target eq_refl).
    split_and!; [by eapply topological_enableable|done|done|]. intros x. split.
    + intros [Hx|(? & <- & Hr)]%HN; [set_solver|done].
    + by apply topological_rtc.
  - intros He. apply Hv. intros ? <-. split; [done|set_solver].
Qed.
(** Enabling a plugin finds an order exactly when everything it needs is
    installed, at admitted versions, without a cycle; the order lists what the
    plugin transitively needs, each plugin once and after what it needs itself,
    and ends with the plugin.  In every other case the call is an error: the
    search always ends. *)
Theorem enable_order_correct target c :
  match enable_order target c with
  | Ret l => Enableable c target ∧ Topological c l ∧ last l = Some target
             ∧ ∀ x, x ∈ l ↔ rtc (needs c) target x
  | Stop (Throw _) => ¬ Enableable c target
  | Stop _ => False
  end.
Proof. apply enable_order_spec. Qed.

Lemma enable_order_topological target c :
  match enable_order target c with
  | Ret l => Topological c l ∧ target ∈ l
  | Stop (Throw _) => True
  | Stop _ => False
  end.
Proof.
  pose proof (enable_order_spec target c) as Ho. destruct (enable_order target c) as [l|[]]; [|done..].
  destruct Ho as (_ & ? & _ & Hl). split; [done|]. by apply Hl.
Qed.
End order.
