(* ===== verification/PluginEngine.v ===== *)
(** * The plugin engine

    crates/wovyr-plugin/src/engine.rs: packages and their [.wovyrpkg] envelope,
    the verification and staging of a package, and the lifecycle of a plugin over
    the catalog, the tool registry of the host and the staging directory.  The
    calls of the operating system succeed; a file is named by the text of its
    path. *)
From stdpp Require Import base tactics list numbers strings gmap.
From Stdlib Require Import ZArith Ascii.
From S2P Require Import Prelude.
From S2P Require Import RustStr.
From S2P Require Import Common.
From S2P Require Import Effect.
From S2P Require Import JsonValue.
From S2P Require Import Manifest.
From S2P Require Import ToolRegistry.
From S2P Require Import Keyless.
From S2P Require Import Resolve.

(** ** Packages *)

Record Package := {
  manifest_yaml : string; pkg_signature : string; pkg_artifacts : gmap string string;
  keyless_bundle : option KeylessBundle }.
Definition Package_new (yaml sig : string) : Package :=
  {| manifest_yaml := yaml; pkg_signature := sig; pkg_artifacts := ∅; keyless_bundle := None |}.
Definition with_artifact (path bytes : string) (p : Package) : Package := {|
  manifest_yaml := manifest_yaml p; pkg_signature := pkg_signature p;
  pkg_artifacts := <[path := bytes]> (pkg_artifacts p); keyless_bundle := keyless_bundle p |}.
Definition with_keyless (b : option KeylessBundle) (p : Package) : Package := {|
  manifest_yaml := manifest_yaml p; pkg_signature := pkg_signature p;
  pkg_artifacts := pkg_artifacts p; keyless_bundle := b |}.

Record WovyrPkg := {
  pk_manifest : string; pk_signature : string; pk_artifacts : gmap string string;
  pk_keyless : option KeylessBundle }.

(** [serde_json::to_vec_pretty] and [from_slice] at [WovyrPkg]; an error is its message. *)
Class PackageSerde := {
  envelope_to_vec : WovyrPkg → string + string;
  envelope_from_slice : string → string + WovyrPkg }.

Definition to_wovyrpkg `{PackageSerde} (p : Package) : result string :=
  match envelope_to_vec {|
    pk_manifest := manifest_yaml p; pk_signature := hex_encode (pkg_signature p);
    pk_artifacts := hex_encode <$> pkg_artifacts p; pk_keyless := keyless_bundle p |} with
  | inr bytes => Ok bytes
  | inl e => Err (Json e)
  end.

Fixpoint decode_artifacts (l : list (string * string)) (p : Package) : outcome Package :=
  match l with
  | [] => Ret p
  | (path, hex) :: l => bytes ← hex_decode hex; decode_artifacts l (with_artifact path bytes p)
  end.

Definition from_wovyrpkg `{PackageSerde} (bytes : string) : outcome Package :=
  match envelope_from_slice bytes with
  | inl e => Stop (Throw (invalid ("invalid .wovyrpkg: " +:+ e)))
  | inr env =>
    sig ← hex_decode (pk_signature env);
    p ← decode_artifacts (btree_iter (pk_artifacts env)) (Package_new (pk_manifest env) sig);
    Ret (with_keyless (pk_keyless env) p)
  end.

Section package.
Context `{Semver V R} `{ManifestYaml} `{PluginCrypto}.

Definition package_manifest (p : Package) : result PluginManifest := from_yaml (manifest_yaml p).

Definition verify_package (t : TrustStore) (p : Package) : result PluginManifest :=
  m ← from_yaml (manifest_yaml p);
  _ ← TrustStore_verify t (md_publisher (metadata m)) (manifest_yaml p) (pkg_signature p);
  Ok m.

Definition verify_keyless_package (root : KeylessRoot) (policy : IdentityPolicy) (p : Package)
    : outcome PluginManifest :=
  m ← of_result (from_yaml (manifest_yaml p));
  b ← of_result (ok_or (invalid "package carries no keyless signature bundle") (keyless_bundle p));
  _ ← verify_keyless (manifest_yaml p) b root policy (md_publisher (metadata m));
  Ret m.
End package.

(** ** Tools of a plugin *)

Record CapabilityCall := {
  cc_plugin : string; cc_capability_id : string; cc_entry : string; cc_sandbox : string;
  cc_artifact_dir : option string; cc_declared_permissions : list string; cc_ctx : ToolContext }.

(** [trait CapabilityRuntime], acting on the state [X] of the tools. *)
Class CapabilityRuntime (RT X : Type) := {
  invoke : RT → CapabilityCall → ToolRequest → X → X * (ToolError + ToolResponse) }.

Inductive NotLoadedRuntime := NotLoaded.
#[export] Instance not_loaded_runtime X : CapabilityRuntime NotLoadedRuntime X := {|
  invoke _ call _ x := (x, inl (ToolInternal ("capability " +:+ (ticked (cc_capability_id call) +:+
    (" of plugin " +:+ (ticked (cc_plugin call) +:+
     " cannot execute: the plugin sandbox loader is not yet available")))))) |}.

Record PluginTool (RT : Type) := {
  pt_plugin_ref : string; pt_metadata : ToolMetadata; pt_entry : string; pt_sandbox : string;
  pt_artifact_dir : option string; pt_runtime : RT }.
Arguments pt_plugin_ref {RT} _.
Arguments pt_metadata {RT} _.
Arguments pt_entry {RT} _.
Arguments pt_sandbox {RT} _.
Arguments pt_artifact_dir {RT} _.
Arguments pt_runtime {RT} _.

Definition capability_call {RT} (t : PluginTool RT) (ctx : ToolContext) : CapabilityCall := {|
  cc_plugin := pt_plugin_ref t; cc_capability_id := tm_id (pt_metadata t); cc_entry := pt_entry t;
  cc_sandbox := pt_sandbox t; cc_artifact_dir := pt_artifact_dir t;
  cc_declared_permissions := tm_permissions (pt_metadata t); cc_ctx := ctx |}.

(** The tools of the host [B], and those of plugins. *)
#[export] Instance host_tool {B RT X} `{Tool B X} `{CapabilityRuntime RT X} : Tool (B + PluginTool RT) X := {|
  tool_metadata_of t := match t with inl b => tool_metadata_of b | inr p => pt_metadata p end;
  tool_input_schema t := match t with inl b => tool_input_schema b | inr _ => Object [("type", Str "object")] end;
  tool_execute t ctx req x :=
    match t with
    | inl b => tool_execute b ctx req x
    | inr p => invoke (pt_runtime p) (capability_call p ctx) req x
    end |}.

Definition tool_metadata (m : PluginManifest) (cap : CapabilityDescriptor) : ToolMetadata :=
  let description :=
    if is_empty (md_description (metadata m)) then "plugin capability " +:+ ticked (cap_id cap)
    else md_description (metadata m) in
  with_permissions (permissions m)
    (ToolMetadata_new (cap_id cap) (md_version (metadata m)) "plugin" description).

(** ** The engine *)

Inductive PluginEvent :=
  | EvInstalled (reference : string) | EvEnabled (reference : string) | EvDisabled (reference : string)
  | EvUpgraded (reference : string) | EvRolledBack (reference : string) | EvUninstalled (reference : string).

Record PluginEngine (V RT : Type) := {
  engine_trust : TrustStore; engine_keyless : option (KeylessRoot * IdentityPolicy); platform_api : V;
  runtime : RT; staging_dir : option string; provenance_policy : ProvenancePolicy;
  plugins : Catalog; events : list PluginEvent }.
Arguments engine_trust {V RT} _.
Arguments engine_keyless {V RT} _.
Arguments platform_api {V RT} _.
Arguments runtime {V RT} _.
Arguments staging_dir {V RT} _.
Arguments provenance_policy {V RT} _.
Arguments plugins {V RT} _.
Arguments events {V RT} _.

Definition PluginEngine_new {V} (platform : V) (t : TrustStore) : PluginEngine V NotLoadedRuntime := {|
  engine_trust := t; engine_keyless := None; platform_api := platform; runtime := NotLoaded;
  staging_dir := None; provenance_policy := ProvenancePolicy_default; plugins := ∅; events := [] |}.

(** The engine, the host's tool registry and the files. *)
Record PluginWorld (V RT B : Type) := {
  engine : PluginEngine V RT; tools : registry (B + PluginTool RT); disk : gmap string string }.
Arguments engine {V RT B} _.
Arguments tools {V RT B} _.
Arguments disk {V RT B} _.

(** [Path::join]: an absolute path replaces the other one. *)
Definition path_join (dir path : string) : string :=
  if starts_with "/" path then path
  else if is_empty dir || ends_with "/" dir then dir +:+ path
  else dir +:+ ("/" +:+ path).

Section engine.
Context `{SV : Semver V R} `{MY : ManifestYaml} `{CR : PluginCrypto}.
Context {RT B X : Type} `{TB : Tool B X} `{RX : CapabilityRuntime RT X}.
Local Abbreviation W := (PluginWorld V RT B).
Implicit Types (e : PluginEngine V RT).

Definition set_engine e (w : W) : W := {| engine := e; tools := tools w; disk := disk w |}.
Definition set_tools (r : registry (B + PluginTool RT)) (w : W) : W :=
  {| engine := engine w; tools := r; disk := disk w |}.
Definition set_disk (d : gmap string string) (w : W) : W := {| engine := engine w; tools := tools w; disk := d |}.
Definition set_plugins (c : Catalog) e : PluginEngine V RT := {|
  engine_trust := engine_trust e; engine_keyless := engine_keyless e; platform_api := platform_api e;
  runtime := runtime e; staging_dir := staging_dir e; provenance_policy := provenance_policy e;
  plugins := c; events := events e |}.
Definition push_event (v : PluginEvent) e : PluginEngine V RT := {|
  engine_trust := engine_trust e; engine_keyless := engine_keyless e; platform_api := platform_api e;
  runtime := runtime e; staging_dir := staging_dir e; provenance_policy := provenance_policy e;
  plugins := plugins e; events := events e ++ [v] |}.

Definition catalog_of (w : W) : Catalog := plugins (engine w).
Definition update_plugins (f : Catalog → Catalog) : M W () :=
  modify (λ w, set_engine (set_plugins (f (catalog_of w)) (engine w)) w).
Definition emit (v : PluginEvent) : M W () := modify (λ w, set_engine (push_event v (engine w)) w).

(** [with_catalog] and [catalog] *)
Definition with_catalog (ps : list InstalledPlugin) e : PluginEngine V RT :=
  set_plugins (foldl (λ c p, <[id_of p := p]> c) ∅ ps) e.
Definition catalog e : list InstalledPlugin := catalog_values (plugins e).
Definition installed e : list string := btree_keys (plugins e).

(** ** Verification and staging *)

Definition check_compatibility (m : PluginManifest) e : result () :=
  let range := trim (platform_api_range (compatibility m)) in
  if is_empty range then Ok () else
  req ← parse_version_req range;
  if req_matches req (platform_api e) then Ok ()
  else Err (invalid ("plugin " +:+ (ticked (qualified_id m) +:+ (" requires platform API " +:+ (ticked range +:+
    (", but this platform is " +:+ ticked (show_version (platform_api e)))))))).

Definition check_signature (p : Package) (m : PluginManifest) e : outcome () :=
  match keyless_bundle p, engine_keyless e with
  | Some b, Some (root, policy) =>
    _ ← verify_keyless (manifest_yaml p) b root policy (md_publisher (metadata m)); Ret ()
  | _, _ =>
    of_result (TrustStore_verify (engine_trust e) (md_publisher (metadata m)) (manifest_yaml p) (pkg_signature p))
  end.

Fixpoint resolve_all (deps : list Dependency) (c : Catalog) : result () :=
  match deps with
  | [] => Ok ()
  | d :: deps => _ ← resolve_dep d c; resolve_all deps c
  end.

Definition check_grants (m : PluginManifest) (grants : list string) : result () :=
  match missing_grants (permissions m) grants with
  | [] => Ok ()
  | missing => Err (invalid ("plugin " +:+ (ticked (qualified_id m) +:+
      (" requests ungranted permission(s): " +:+ join_with ", " missing))))
  end.

(** Where a version is staged. *)
Definition staged_dir (m : PluginManifest) (root : string) : string :=
  path_join (path_join (path_join root (md_publisher (metadata m))) (md_name (metadata m)))
    (md_version (metadata m)).

Fixpoint stage_artifacts (p : Package) (m : PluginManifest) (dir : option string) (l : list Artifact) : M W () :=
  match l with
  | [] => mret ()
  | a :: l =>
    bytes ← lift (of_result (ok_or (invalid ("plugin " +:+ (ticked (qualified_id m) +:+ (" declares artifact " +:+
              (ticked (art_path a) +:+ " but the package omits its bytes"))))) (pkg_artifacts p !! art_path a)));
    _ ← lift (of_result (verify_digest (art_digest a) bytes));
    _ ← match dir with
        | Some d => modify (λ w, set_disk (<[path_join d (art_path a) := bytes]> (disk w)) w)
        | None => mret ()
        end;
    stage_artifacts p m dir l
  end.

Definition verify_and_stage (p : Package) (m : PluginManifest) (grants : list string) : M W (option string) :=
  e ← gets engine;
  _ ← lift (check_signature p m e);
  _ ← lift (of_result (check_compatibility m e));
  _ ← lift (of_result (resolve_all (dependencies m) (plugins e)));
  _ ← lift (of_result (check_grants m grants));
  _ ← lift (of_result (provenance_check (provenance_policy e) m));
  let dir := staged_dir m <$> staging_dir e in
  _ ← stage_artifacts p m dir (artifacts m);
  mret dir.

(** ** Routing capabilities *)

Definition register_tools_in (rt : RT) (p : InstalledPlugin) (r : registry (B + PluginTool RT))
    : registry (B + PluginTool RT) :=
  foldl (λ r cap, register (inr {|
    pt_plugin_ref := reference (manifest p); pt_metadata := tool_metadata (manifest p) cap;
    pt_entry := cap_entry cap; pt_sandbox := cap_sandbox cap; pt_artifact_dir := artifact_dir p;
    pt_runtime := rt |}) r) r (tool_capabilities (manifest p)).
Definition unregister_tools_in (p : InstalledPlugin) (r : registry (B + PluginTool RT))
    : registry (B + PluginTool RT) :=
  foldl (λ r cap, unregister (cap_id cap) r) r (tool_capabilities (manifest p)).

Definition register_tools (p : InstalledPlugin) : M W () :=
  modify (λ w, set_tools (register_tools_in (runtime (engine w)) p (tools w)) w).
Definition unregister_tools (p : InstalledPlugin) : M W () :=
  modify (λ w, set_tools (unregister_tools_in p (tools w)) w).
(** Both are done for enabled plugins only. *)
Definition when_enabled (s : PluginState) (m : M W ()) : M W () :=
  if bool_decide (s = Enabled) then m else mret ().

(** ** The lifecycle *)

Definition not_installed {A} (id : string) : M W A :=
  throw (NotFound ("plugin " +:+ (ticked id +:+ " is not installed"))).

Definition install (p : Package) (grants : list string) : M W InstalledPlugin :=
  m ← lift (of_result (from_yaml (manifest_yaml p)));
  let id := qualified_id m in
  c ← gets catalog_of;
  match c !! id with
  | Some _ => throw (invalid ("plugin " +:+ (ticked id +:+ " is already installed (upgrade is a separate operation)")))
  | None =>
    dir ← verify_and_stage p m grants;
    let entry := mk_installed m Disabled grants dir None in
    _ ← update_plugins (insert id entry);
    _ ← emit (EvInstalled (reference m));
    mret entry
  end.

(** The grants on file, then the new ones that are not among them. *)
Definition effective_grants (on_file grants : list string) : list string :=
  foldl (λ l g, if existsb (String.eqb g) l then l else l ++ [g]) on_file grants.

Definition upgrade (p : Package) (grants : list string) : M W () :=
  m ← lift (of_result (from_yaml (manifest_yaml p)));
  let id := qualified_id m in
  c ← gets catalog_of;
  match c !! id with
  | None => throw (NotFound ("plugin " +:+ (ticked id +:+ " is not installed (use install)")))
  | Some current =>
    if String.eqb (md_version (metadata m)) (version_of current) then
      throw (invalid ("plugin " +:+ (ticked id +:+ (" is already at version " +:+ version_of current))))
    else
      new_version ← lift (match parse_version (md_version (metadata m)) with
                          | inr v => Ret v
                          | inl e => Stop (Throw (invalid ("new version is not valid semver: " +:+ e)))
                          end);
      match dependents_broken_by id new_version c with
      | _ :: _ as broken =>
        throw (invalid ("cannot upgrade " +:+ (ticked id +:+ (" to " +:+ (show_version new_version +:+
          (": would break dependent(s): " +:+ join_with ", " broken))))))
      | [] =>
        let effective := effective_grants (granted_permissions current) grants in
        dir ← verify_and_stage p m effective;
        let st := state current in
        _ ← when_enabled st (unregister_tools current);
        let upgraded := mk_installed m st effective dir (Some (set_previous None current)) in
        _ ← when_enabled st (register_tools upgraded);
        _ ← update_plugins (insert id upgraded);
        emit (EvUpgraded (reference m))
      end
  end.

Definition rollback (id : string) : M W () :=
  c ← gets catalog_of;
  match c !! id with
  | None => not_installed id
  | Some current =>
    match previous current with
    | None => throw (invalid ("plugin " +:+ (ticked id +:+ " has no previous version to roll back to")))
    | Some prior =>
      let st := state current in
      _ ← when_enabled st (unregister_tools current);
      let restored := set_state st prior in
      _ ← when_enabled st (register_tools restored);
      _ ← update_plugins (insert id restored);
      emit (EvRolledBack (reference (manifest restored)))
    end
  end.

Fixpoint enable_each (order : list string) : M W () :=
  match order with
  | [] => mret ()
  | id :: order =>
    c ← gets catalog_of;
    p ← lift (expect (c !! id));
    _ ← (if bool_decide (state p = Enabled) then mret () else
           _ ← register_tools p;
           _ ← update_plugins (insert id (set_state Enabled p));
           emit (EvEnabled (reference (manifest p))));
    enable_each order
  end.

Definition enable (id : string) : M W () :=
  c ← gets catalog_of;
  match c !! id with
  | None => not_installed id
  | Some _ =>
    order ← lift (enable_order id c);
    enable_each order
  end.

Definition register_enabled (w : W) : W :=
  foldl (λ w p, if bool_decide (state p = Enabled)
                then set_tools (register_tools_in (runtime (engine w)) p (tools w)) w else w)
    w (catalog_values (catalog_of w)).

Definition disable (id : string) : M W () :=
  c ← gets catalog_of;
  match c !! id with
  | None => not_installed id
  | Some p =>
    if bool_decide (state p = Disabled) then mret () else
    let enabled d := match c !! d with Some q => bool_decide (state q = Enabled) | None => false end in
    match List.filter enabled (dependents id c) with
    | _ :: _ as ds =>
      throw (invalid ("cannot disable " +:+ (ticked id +:+ (": still required by enabled plugin(s): " +:+
        join_with ", " ds))))
    | [] =>
      _ ← unregister_tools p;
      _ ← update_plugins (insert id (set_state Disabled p));
      emit (EvDisabled (reference (manifest p)))
    end
  end.

Definition uninstall (id : string) : M W () :=
  c ← gets catalog_of;
  if negb (bool_decide (is_Some (c !! id))) then not_installed id else
  match dependents id c with
  | _ :: _ as ds =>
    throw (invalid ("cannot uninstall " +:+ (ticked id +:+ (": still required by installed plugin(s): " +:+
      join_with ", " ds))))
  | [] =>
    _ ← disable id;
    c ← gets catalog_of;
    p ← lift (expect (c !! id));
    _ ← update_plugins (delete id);
    emit (EvUninstalled (reference (manifest p)))
  end.
End engine.
