(* ===== verification/PluginInv.v ===== *)
(** * The lifecycle of plugins keeps the catalog sound

    Whatever sequence of installs, upgrades, enables, disables and uninstalls an
    operator runs, every installed plugin has its dependencies installed and
    every enabled one has them enabled; a call that fails changes neither the
    catalog nor the host's tools.  A rollback is not checked against either, and
    an upgrade in place does not enable new dependencies: two counterexamples. *)
From stdpp Require Import base tactics list numbers strings gmap.
From Stdlib Require Import ZArith Ascii Lia.
From S2P Require Import Prelude.
From S2P Require Import RustStr.
From S2P Require Import Common.
From S2P Require Import Effect.
From S2P Require Import JsonValue.
From S2P Require Import Manifest.
From S2P Require Import ToolRegistry.
From S2P Require Import Keyless.
From S2P Require Import Resolve.
From S2P Require Import PluginEngine.

Definition name_of (p : InstalledPlugin) : string := md_name (metadata (manifest p)).

Section sound.
Context `{SV : Semver V R}.
Implicit Types (c : Catalog) (p q : InstalledPlugin) (id : string).

(** Some plugin of the catalog with property [Q] satisfies the dependency. *)
Definition satisfied_in c (Q : InstalledPlugin → Prop) (dep : Dependency) : Prop :=
  ∃ k q, c !! k = Some q ∧ Q q ∧ satisfies dep q = Ok true.
Definition present (_ : InstalledPlugin) : Prop := True.
Definition live q : Prop := state q = Enabled.

Record Sound c : Prop := {
  sound_keys id p : c !! id = Some p → id_of p = id;
  sound_deps id p dep : c !! id = Some p → dep ∈ dependencies_of p → satisfied_in c present dep;
  sound_live id p dep : c !! id = Some p → live p → dep ∈ dependencies_of p → satisfied_in c live dep }.

Lemma sound_empty : Sound ∅.
Proof. by split. Qed.

Lemma satisfied_in_mono c c' Q dep : c ⊆ c' → satisfied_in c Q dep → satisfied_in c' Q dep.
Proof. intros Hc (k & q & Hk & HQ & Hs). exists k, q. split; [|done]. by eapply lookup_weaken. Qed.

Lemma resolve_all_satisfied c deps :
  resolve_all deps c = Ok () → ∀ dep, dep ∈ deps → satisfied_in c present dep.
Proof.
  induction deps as [|d deps IH]; cbn [resolve_all]; [set_solver|]. intros (id & Hid & Hr)%result_bind_Ok.
  intros dep [->|Hdep]%elem_of_cons; [|by apply IH].
  apply resolve_dep_Ok in Hid as (k & p & ? & ? & Hk & _ & Hs & _). by exists k, p.
Qed.

Lemma resolved_at c dep id : Sound c → resolve_dep dep c = Ok id →
  ∃ p, c !! id = Some p ∧ satisfies dep p = Ok true.
Proof.
  intros HS (k & p & ? & ? & Hk & <- & Hs & _)%resolve_dep_Ok. exists p.
  by rewrite (sound_keys _ HS k p Hk).
Qed.

Lemma dependents_elem target c d :
  d ∈ dependents target c ↔
  ∃ q p dep, c !! target = Some q ∧ d ≠ target ∧ c !! d = Some p ∧ dep ∈ dependencies_of p ∧ satisfies dep q = Ok true.
Proof.
  unfold dependents. destruct (c !! target) as [q|]; [|set_solver]. rewrite list_elem_of_fmap. split.
  - intros ([k p] & -> & [Hk%btree_iter_elem [Hn (dep & Hdep & Hs)%existsb_elem]%andb_prop]%filter_elem).
    apply negb_true_iff, String.eqb_neq in Hn. exists q, p, dep. split_and!; try done.
    unfold is_satisfied_by in Hs. destruct (satisfies dep q); [by subst|done].
  - intros (q' & p & dep & [= <-] & Hn & Hp & Hdep & Hs). exists (d, p). split; [done|].
    rewrite filter_elem, btree_iter_elem. split; [done|]. apply andb_true_intro. split.
    + by apply negb_true_iff, String.eqb_neq.
    + apply existsb_elem. exists dep. unfold is_satisfied_by. by rewrite Hs.
Qed.

Lemma no_broken_dependents target v c k q p dep :
  dependents_broken_by target v c = [] → c !! target = Some q → c !! k = Some p → k ≠ target →
  dep ∈ dependencies_of p → name_matches dep q = true →
  ∃ req, parse_version_req (dep_version dep) = Ok req ∧ req_matches req v = true.
Proof.
  unfold dependents_broken_by. intros Hb Hq Hp Hk Hdep Hn. rewrite Hq in Hb.
  destruct (breaks q v dep) eqn:Hbr.
  - exfalso. apply (not_elem_of_nil k). rewrite <-Hb. apply list_elem_of_fmap. exists (k, p). split; [done|].
    rewrite filter_elem, btree_iter_elem. split; [done|]. apply andb_true_intro. split.
    + by apply negb_true_iff, String.eqb_neq.
    + apply existsb_elem. eauto.
  - unfold breaks in Hbr. rewrite Hn in Hbr. simpl in Hbr. destruct (parse_version_req _) as [req|]; [|done].
    apply negb_false_iff in Hbr. eauto.
Qed.

(** ** Each operation on the catalog *)

Lemma sound_install c id p :
  Sound c → c !! id = None → id_of p = id → state p = Disabled →
  (∀ dep, dep ∈ dependencies_of p → satisfied_in c present dep) →
  Sound (<[id := p]> c).
Proof.
  intros HS Hid Hp Hst Hdeps. pose proof (insert_subseteq c id p Hid) as Hsub. split.
  - intros k q [[-> ->]|[_ Hk]]%lookup_insert_Some; [done|by apply (sound_keys _ HS)].
  - intros k q dep [[-> ->]|[_ Hk]]%lookup_insert_Some Hdep; (eapply satisfied_in_mono; [done|]); [auto|].
    by eapply (sound_deps _ HS).
  - intros k q dep [[-> ->]|[_ Hk]]%lookup_insert_Some Hl Hdep; [unfold live in Hl; congruence|].
    eapply satisfied_in_mono; [done|]. by eapply (sound_live _ HS).
Qed.

(** The plugins that satisfy something for a third one, when nothing that
    depends on [id] has property [Q]. *)
Lemma satisfier_elsewhere c (Q : InstalledPlugin → Prop) id k p dep (Q' : InstalledPlugin → Prop) :
  (∀ d q, d ∈ dependents id c → c !! d = Some q → ¬ Q q) → c !! k = Some p → Q p → k ≠ id →
  dep ∈ dependencies_of p → satisfied_in c Q' dep →
  ∃ k' q, k' ≠ id ∧ c !! k' = Some q ∧ Q' q ∧ satisfies dep q = Ok true.
Proof.
  intros Hno Hk HQ Hne Hdep (k' & q & Hk' & HQ' & Hs). destruct (decide (k' = id)) as [->|]; [|by exists k', q].
  exfalso. eapply (Hno k p); [|done..]. apply dependents_elem. by exists q, p, dep.
Qed.

Lemma sound_disable c id p :
  Sound c → c !! id = Some p → (∀ d q, d ∈ dependents id c → c !! d = Some q → ¬ live q) →
  Sound (<[id := set_state Disabled p]> c).
Proof.
  intros HS Hp Hno. split.
  - intros k q [[-> <-]|[_ Hk]]%lookup_insert_Some; [exact (sound_keys _ HS k p Hp)|by apply (sound_keys _ HS)].
  - assert (∀ dep, satisfied_in c present dep → satisfied_in (<[id := set_state Disabled p]> c) present dep) as Hmono.
    { intros dep (k & q & Hk & _ & Hs). destruct (decide (k = id)) as [->|Hne].
      - simplify_eq. exists id, (set_state Disabled p). by rewrite lookup_insert_eq.
      - exists k, q. by rewrite lookup_insert_ne. }
    intros k q dep [[-> <-]|[_ Hk]]%lookup_insert_Some Hdep; apply Hmono;
      [exact (sound_deps _ HS k p dep Hp Hdep)|by eapply (sound_deps _ HS)].
  - intros k q dep [[-> <-]|[Hne Hk]]%lookup_insert_Some Hl Hdep; [done|].
    destruct (satisfier_elsewhere c live id k q dep live) as (k' & q' & Hne' & Hk' & Hl' & Hs'); try done.
    { by eapply (sound_live _ HS). }
    exists k', q'. by rewrite lookup_insert_ne.
Qed.

Lemma sound_delete c id : Sound c → dependents id c = [] → Sound (delete id c).
Proof.
  intros HS Hno. assert (∀ d q, d ∈ dependents id c → c !! d = Some q → ¬ present q) as Hno' by (rewrite Hno; set_solver).
  split.
  - intros k q [_ Hk]%lookup_delete_Some. by apply (sound_keys _ HS).
  - intros k q dep [Hne Hk]%lookup_delete_Some Hdep.
    destruct (satisfier_elsewhere c present id k q dep present) as (k' & q' & Hne' & Hk' & Hl' & Hs'); try done.
    { by eapply (sound_deps _ HS). }
    exists k', q'. by rewrite lookup_delete_ne.
  - intros k q dep [Hne Hk]%lookup_delete_Some Hl Hdep.
    destruct (satisfier_elsewhere c present id k q dep live) as (k' & q' & Hne' & Hk' & Hl' & Hs'); try done.
    { by eapply (sound_live _ HS). }
    exists k', q'. by rewrite lookup_delete_ne.
Qed.

(** The catalog once the plugins of [l] are enabled. *)
Definition enabled_in (l : list string) c : Catalog := foldl (λ c id, alter (set_state Enabled) id c) c l.

Lemma set_state_idem p s : set_state s (set_state s p) = set_state s p.
Proof. done. Qed.
Lemma set_state_same p : set_state (state p) p = p.
Proof. by destruct p. Qed.

Lemma enabled_in_lookup l c id :
  enabled_in l c !! id = if bool_decide (id ∈ l) then set_state Enabled <$> c !! id else c !! id.
Proof.
  revert c. induction l as [|x l IH]; intros c; [done|].
  change (enabled_in (x :: l) c) with (enabled_in l (alter (set_state Enabled) x c)). rewrite IH. destruct (decide (x = id)) as [->|Hne].
  - rewrite lookup_alter_eq, (bool_decide_eq_true_2 (id ∈ id :: l)) by left.
    case_bool_decide; [|done]. by destruct (c !! id).
  - rewrite lookup_alter_ne by done. rewrite (bool_decide_ext (id ∈ x :: l) (id ∈ l)); [done|].
    rewrite elem_of_cons. naive_solver.
Qed.

Lemma enabled_in_live l c id p : c !! id = Some p → (id ∈ l ∨ live p) →
  ∃ p', enabled_in l c !! id = Some p' ∧ live p' ∧ ∀ dep, satisfies dep p' = satisfies dep p.
Proof.
  intros Hp Hor. rewrite enabled_in_lookup, Hp. case_bool_decide as Hin.
  - by exists (set_state Enabled p).
  - destruct Hor; [done|]. by exists p.
Qed.

Lemma enabled_in_inv l c id p : enabled_in l c !! id = Some p →
  ∃ p0, c !! id = Some p0 ∧ manifest p = manifest p0 ∧ (id ∈ l ∨ p = p0).
Proof.
  rewrite enabled_in_lookup. case_bool_decide; [|by eauto]. intros (p0 & Hp0 & ->)%fmap_Some. by exists p0; eauto.
Qed.

Lemma topological_dep c l id p dep : Topological c l → id ∈ l → c !! id = Some p → dep ∈ dependencies_of p →
  ∃ d, resolve_dep dep c = Ok d ∧ d ∈ l.
Proof.
  induction 1 as [|l id' p' Hl IH Hid' Hp' Hd]; [set_solver|]. intros [Hx|Hx]%elem_of_app Hp Hdep.
  - destruct (IH Hx Hp Hdep) as (d & ? & ?). exists d. split; [done|]. apply elem_of_app. by left.
  - apply list_elem_of_singleton in Hx as ->. simplify_eq. destruct (Hd dep Hdep) as (d & ? & ?).
    exists d. split; [done|]. apply elem_of_app. by left.
Qed.

Lemma sound_enable c l : Sound c → Topological c l → Sound (enabled_in l c).
Proof.
  intros HS HT. split.
  - intros k p (p0 & Hp0 & Hm & _)%enabled_in_inv. pose proof (sound_keys _ HS k p0 Hp0).
    unfold id_of in *. by rewrite Hm.
  - intros k p dep (p0 & Hp0 & Hm & _)%enabled_in_inv Hdep. unfold dependencies_of in Hdep. rewrite Hm in Hdep.
    destruct (sound_deps _ HS k p0 dep Hp0 Hdep) as (k' & q & Hk' & _ & Hs).
    destruct (decide (k' ∈ l)) as [Hin|Hin].
    + exists k', (set_state Enabled q). by rewrite enabled_in_lookup, Hk', bool_decide_eq_true_2.
    + exists k', q. by rewrite enabled_in_lookup, Hk', bool_decide_eq_false_2.
  - intros k p dep Hp Hl Hdep. destruct (enabled_in_inv l c k p Hp) as (p0 & Hp0 & Hm & Hor).
    unfold dependencies_of in Hdep. rewrite Hm in Hdep.
    assert (∃ d q, c !! d = Some q ∧ (d ∈ l ∨ live q) ∧ satisfies dep q = Ok true) as (d & q & Hd & Hor' & Hs).
    { destruct Hor as [Hin| ->].
      - destruct (topological_dep c l k p0 dep HT Hin Hp0 Hdep) as (d & Hr & Hdl).
        destruct (resolved_at c dep d HS Hr) as (q & ? & ?). eauto 10.
      - destruct (sound_live _ HS k p0 dep Hp0 Hl Hdep) as (d & q & ? & ? & ?). eauto 10. }
    destruct (enabled_in_live l c d q Hd Hor') as (q' & Hq' & Hlq & Hsat). exists d, q'. by rewrite Hsat.
Qed.

Lemma sound_upgrade c id p p' v :
  Sound c → c !! id = Some p → id_of p' = id → name_of p' = name_of p → state p' = state p →
  parse_version (version_of p') = inr v → dependents_broken_by id v c = [] →
  (∀ dep, dep ∈ dependencies_of p' → name_matches dep p' = false) →
  (∀ dep, dep ∈ dependencies_of p' → satisfied_in c present dep) →
  (live p → ∀ dep, dep ∈ dependencies_of p' → satisfied_in c live dep) →
  Sound (<[id := p']> c).
Proof.
  intros HS Hp Hid' Hname Hst Hv Hb Hself Hdeps Hlive. pose proof (sound_keys _ HS id p Hp) as Hid.
  assert (∀ dep, name_matches dep p' = name_matches dep p) as Hnm.
  { intros dep. unfold name_matches, name_of in *. by rewrite Hid, Hid', Hname. }
  assert (∀ (Q : InstalledPlugin → Prop) k q dep, (Q p → Q p') → c !! k = Some q → k ≠ id → dep ∈ dependencies_of q →
            satisfied_in c Q dep → satisfied_in (<[id := p']> c) Q dep) as Hkeep.
  { intros Q k q dep HQ Hk Hne Hdep (k' & q' & Hk' & HQ' & Hs). destruct (decide (k' = id)) as [->|Hne'].
    - simplify_eq. exists (id_of p'), p'. rewrite lookup_insert_eq. split_and!; [done|auto|].
      apply satisfies_true in Hs as (Hn & req & v' & Hreq & _ & _). apply satisfies_true. rewrite Hnm. split; [done|].
      destruct (no_broken_dependents _ v c k p q dep Hb Hp Hk Hne Hdep Hn) as (req' & ? & ?). eauto 10.
    - exists k', q'. by rewrite lookup_insert_ne. }
  assert (∀ Q dep, dep ∈ dependencies_of p' → satisfied_in c Q dep → satisfied_in (<[id := p']> c) Q dep) as Hown.
  { intros Q dep Hdep (k & q & Hk & HQ & Hs). exists k, q. split; [|done]. rewrite lookup_insert_ne; [done|].
    intros <-. simplify_eq. apply satisfies_true in Hs as [Hn _]. rewrite <-Hnm, Hself in Hn by done. done. }
  split.
  - intros k q [[-> <-]|[_ Hk]]%lookup_insert_Some; [done|by apply (sound_keys _ HS)].
  - intros k q dep [[-> <-]|[Hne Hk]]%lookup_insert_Some Hdep; [auto|].
    eapply Hkeep; [done|done|done|done|]. by eapply (sound_deps _ HS).
  - intros k q dep [[-> <-]|[Hne Hk]]%lookup_insert_Some Hl Hdep.
    + apply Hown, Hlive; [done| |done]. unfold live in *. congruence.
    + eapply (Hkeep live); [unfold live; congruence|done|done|done|]. by eapply (sound_live _ HS).
Qed.
End sound.

(** ** Calls end with a value, an error, or a panic on text that is not hexadecimal *)

Definition plain {A} (o : outcome A) : Prop :=
  match o with Ret _ | Stop (Throw _) | Stop Panicked => True | _ => False end.

Lemma plain_bind {A B} (m : outcome A) (k : A → outcome B) :
  plain m → (∀ a, plain (k a)) → plain (m ≫= k).
Proof. destruct m as [a|[]]; simpl; auto. Qed.
Lemma plain_ensure b e : plain (ensure b e).
Proof. by destruct b. Qed.
Lemma plain_succeeds {A} (o : outcome A) : plain o → plain (succeeds o).
Proof. by destruct o as [|[]]. Qed.
Lemma plain_or_error {A} e (o : outcome A) : plain o → plain (or_error e o).
Proof. by destruct o as [|[]]. Qed.
Lemma plain_any {A} (f : A → outcome bool) l : (∀ a, plain (f a)) → plain (any f l).
Proof. intros Hf. induction l as [|a l IH]; simpl; [done|]. apply plain_bind; [done|]. by intros []. Qed.
Lemma plain_hex s : plain (hex_decode s).
Proof. pose proof (hex_decode_stops s). by destruct (hex_decode s) as [|[]]. Qed.
#[local] Hint Resolve plain_bind plain_ensure plain_succeeds plain_or_error plain_any plain_hex : core.

Section keyless_plain.
Context `{CR : PluginCrypto}.

Lemma plain_verify_ed25519 k m s : plain (verify_ed25519 k m s).
Proof. unfold verify_ed25519. auto 10. Qed.

Lemma plain_verify_pinned k m s : plain (verify_with_pinned_key k m s).
Proof.
  unfold verify_with_pinned_key. apply plain_bind; [auto|]. intros key. apply plain_bind; [auto|]. intros sig.
  apply plain_bind; [|intros [alg raw]; auto]. unfold pinned_algorithm. by repeat case_match.
Qed.
Hint Resolve plain_verify_ed25519 plain_verify_pinned : core.

Lemma plain_verify_keyless m b root policy pub : plain (verify_keyless m b root policy pub).
Proof.
  unfold verify_keyless. apply plain_bind; [auto|]. intros ca_ok. apply plain_bind; [auto|]. intros _.
  apply plain_bind; [auto|]. intros _. apply plain_bind; [auto|]. intros _.
  destruct (log_entry b) as [e|]; [|apply plain_bind; [auto|done]].
  apply plain_bind; [|done]. unfold check_log_entry. apply plain_bind; [auto|]. intros _.
  destruct (log_public_keys root); [done|]. apply plain_bind; auto.
Qed.
End keyless_plain.

(** ** The calls *)

Section lifecycle.
Context `{SV : Semver V R} `{MY : ManifestYaml} `{CR : PluginCrypto}.
Context {RT B X : Type} `{TB : Tool B X} `{RX : CapabilityRuntime RT X}.
Local Abbreviation W := (PluginWorld V RT B).
Implicit Types w : W.

Inductive Op :=
  | OpInstall (p : Package) (grants : list string) | OpUpgrade (p : Package) (grants : list string)
  | OpRollback (id : string) | OpEnable (id : string) | OpDisable (id : string) | OpUninstall (id : string).

Definition run (o : Op) : M W () :=
  match o with
  | OpInstall p g => _ ← install p g; mret ()
  | OpUpgrade p g => upgrade p g
  | OpRollback id => rollback id
  | OpEnable id => enable id
  | OpDisable id => disable id
  | OpUninstall id => uninstall id
  end.

(** Files apart, nothing has changed. *)
Definition same w w' : Prop := engine w' = engine w ∧ tools w' = tools w.

(** A failed call: an error, or a panic that needs a keyless package. *)
Definition closed w (s : stop) w' : Prop :=
  same w w' ∧ match s with
              | Throw _ => True
              | Panicked => engine_keyless (engine w) ≠ None
              | _ => False
              end.

Lemma closed_throw w w' e : same w w' → closed w (Throw e) w'.
Proof. by split. Qed.

Lemma wp_result {A C} w w0 (r : result A) (k : A → M W C) Q :
  same w0 w → (∀ a, r = Ok a → wp (k a) Q (closed w0) w) → wp (lift (of_result r) ≫= k) Q (closed w0) w.
Proof. intros Hs Hk. apply wp_lift_bind. destruct r; simpl; [auto|done]. Qed.

Lemma same_trans w1 w2 w3 : same w1 w2 → same w2 w3 → same w1 w3.
Proof. intros [] []. split; congruence. Qed.

Lemma wp_stage_artifacts p m dir l w :
  wp (stage_artifacts p m dir l) (λ _ w', same w w') (closed w) w.
Proof.
  assert (∀ w', same w w' → wp (stage_artifacts p m dir l) (λ _ w', same w w') (closed w) w') as Hgen; [|by apply Hgen].
  induction l as [|a l IH]; intros w' Hs; cbn [stage_artifacts]; [by apply wp_ret|].
  apply wp_result; [done|]. intros bytes _. apply wp_result; [done|]. intros _ _. apply wp_bind.
  destruct dir as [d|]; [|by apply wp_ret, IH]. unfold wp at 1, modify. apply IH. destruct Hs as [He Ht]. by split.
Qed.

Lemma wp_verify_and_stage p m g w :
  wp (verify_and_stage p m g) (λ _ w', same w w' ∧ resolve_all (dependencies m) (catalog_of w) = Ok ()) (closed w) w.
Proof.
  unfold verify_and_stage. apply wp_gets_bind, wp_lift_bind.
  assert (∀ (a : ()) , wp (_ ← lift (of_result (check_compatibility m (engine w)));
    _ ← lift (of_result (resolve_all (dependencies m) (plugins (engine w))));
    _ ← lift (of_result (check_grants m g));
    _ ← lift (of_result (provenance_check (provenance_policy (engine w)) m));
    _ ← stage_artifacts p m (staged_dir m <$> staging_dir (engine w)) (artifacts m);
    mret (staged_dir m <$> staging_dir (engine w)))
    (λ _ w', same w w' ∧ resolve_all (dependencies m) (catalog_of w) = Ok ()) (closed w) w) as Hrest.
  { intros _. apply wp_result; [done|]. intros _ _. apply wp_result; [done|]. intros [] Hr.
    apply wp_result; [done|]. intros _ _. apply wp_result; [done|]. intros _ _.
    eapply wp_call; [apply wp_stage_artifacts|]. intros [] w' Hs. by apply wp_ret. }
  unfold check_signature.
  destruct (keyless_bundle p) as [b|]; [destruct (engine_keyless (engine w)) as [[root policy]|] eqn:Hk|].
  2,3: destruct (TrustStore_verify _ _ _ _) as [[]|]; simpl; [by apply (Hrest tt)|by apply closed_throw].
  pose proof (plain_verify_keyless (manifest_yaml p) b root policy (md_publisher (metadata m))) as Hp.
  destruct (verify_keyless _ _ _ _ _) as [|[]]; simpl; try done; [by apply (Hrest tt)|].
  split; [done|]. by rewrite Hk.
Qed.

Lemma wp_throw {A} w e Q : wp (throw (A := A) e) Q (closed w) w.
Proof. by apply wp_fail, closed_throw. Qed.
Hint Resolve wp_throw : core.

(** The calls that end a successful operation. *)
Lemma wp_settle (f : Catalog → Catalog) v Q E w :
  (∀ w', catalog_of w' = f (catalog_of w) → Q () w') → wp (_ ← update_plugins f; emit v) Q E w.
Proof. intros HQ. by apply HQ. Qed.

Lemma wp_settle_ret {A} (f : Catalog → Catalog) v (a : A) Q E w :
  (∀ w', catalog_of w' = f (catalog_of w) → Q a w') → wp (_ ← update_plugins f; _ ← emit v; mret a) Q E w.
Proof. intros HQ. by apply HQ. Qed.

(** Registering or withdrawing tools leaves the catalog alone. *)
Lemma wp_when_enabled {C} st (m : M W ()) (k : () → M W C) Q E w :
  (∀ w', (m w').2 = Ret () ∧ catalog_of (m w').1 = catalog_of w') →
  (∀ w', catalog_of w' = catalog_of w → wp (k ()) Q E w') → wp (when_enabled st m ≫= k) Q E w.
Proof.
  intros Hm Hk. apply wp_bind. unfold when_enabled. case_bool_decide; [|by apply wp_ret, Hk].
  specialize (Hm w). unfold wp at 1. destruct (m w) as [w' o]. simpl in Hm. destruct Hm as [-> Hc]. by apply Hk.
Qed.

Lemma wp_install p g w :
  wp (install p g) (λ entry w', ∃ m, from_yaml (manifest_yaml p) = Ok m ∧ manifest entry = m ∧ state entry = Disabled
      ∧ catalog_of w !! qualified_id m = None ∧ resolve_all (dependencies m) (catalog_of w) = Ok ()
      ∧ catalog_of w' = <[qualified_id m := entry]> (catalog_of w)) (closed w) w.
Proof.
  unfold install. apply wp_result; [done|]. intros m Hm. apply wp_gets_bind.
  destruct (catalog_of w !! qualified_id m) eqn:Hid; [auto|].
  eapply wp_call; [apply wp_verify_and_stage|]. intros dir w' [[He Ht] Hr].
  apply wp_settle_ret. intros w2 ->. exists m. unfold catalog_of in *. rewrite He. by split_and!.
Qed.

Lemma wp_upgrade p g w :
  wp (upgrade p g) (λ _ w', ∃ m cur new v, from_yaml (manifest_yaml p) = Ok m ∧ manifest new = m ∧ state new = state cur
      ∧ catalog_of w !! qualified_id m = Some cur ∧ resolve_all (dependencies m) (catalog_of w) = Ok ()
      ∧ parse_version (md_version (metadata m)) = inr v ∧ dependents_broken_by (qualified_id m) v (catalog_of w) = []
      ∧ catalog_of w' = <[qualified_id m := new]> (catalog_of w)) (closed w) w.
Proof.
  unfold upgrade. apply wp_result; [done|]. intros m Hm. apply wp_gets_bind.
  destruct (catalog_of w !! qualified_id m) as [cur|] eqn:Hid; [|auto].
  destruct (String.eqb _ _); [auto|]. apply wp_lift_bind.
  destruct (parse_version _) as [e|v] eqn:Hv; [by apply closed_throw|].
  destruct (dependents_broken_by _ _ _) eqn:Hb; [|auto].
  eapply wp_call; [apply wp_verify_and_stage|]. intros dir w1 [[He Ht] Hr].
  apply wp_when_enabled; [done|]. intros w2 H2. apply wp_when_enabled; [done|]. intros w3 H3.
  apply wp_settle. intros w4 ->. rewrite H3, H2.
  assert (catalog_of w1 = catalog_of w) as -> by (unfold catalog_of; by rewrite He).
  eexists m, cur, (mk_installed m _ _ _ _), v. by split_and!.
Qed.

Lemma wp_rollback id w :
  wp (rollback id) (λ _ w', ∃ cur prior, catalog_of w !! id = Some cur ∧ previous cur = Some prior
      ∧ catalog_of w' = <[id := set_state (state cur) prior]> (catalog_of w)) (closed w) w.
Proof.
  unfold rollback. apply wp_gets_bind. destruct (catalog_of w !! id) as [cur|] eqn:Hid; [|by apply wp_throw].
  destruct (previous cur) as [prior|] eqn:Hp; [|auto].
  apply wp_when_enabled; [done|]. intros w2 H2. apply wp_when_enabled; [done|]. intros w3 H3.
  apply wp_settle. intros w4 ->. exists cur, prior. by rewrite H3, H2.
Qed.

Lemma wp_enable_each l w E :
  (∀ id, id ∈ l → is_Some (catalog_of w !! id)) →
  wp (enable_each l) (λ _ w', catalog_of w' = enabled_in l (catalog_of w)) E w.
Proof.
  revert w. induction l as [|id l IH]; intros w Hl; [by apply wp_ret|]. cbn [enable_each].
  apply wp_gets_bind. destruct (Hl id) as [p Hp]; [left|]. rewrite Hp. apply wp_lift_bind. cbn [expect].
  change (enabled_in (id :: l) (catalog_of w)) with (enabled_in l (alter (set_state Enabled) id (catalog_of w))).
  apply wp_bind. case_bool_decide as Hst.
  - apply wp_ret. assert (alter (set_state Enabled) id (catalog_of w) = catalog_of w) as ->; [|apply IH; set_solver].
    apply alter_id. intros q Hq. simplify_eq. rewrite <-Hst. apply set_state_same.
  - apply wp_bind. unfold wp at 1, register_tools, modify. apply wp_settle. intros w' Hw'.
    assert (catalog_of w' = alter (set_state Enabled) id (catalog_of w)) as <-.
    { rewrite Hw'. apply map_eq. intros k. destruct (decide (k = id)) as [->|].
      - by rewrite lookup_insert_eq, lookup_alter_eq, Hp.
      - by rewrite lookup_insert_ne, lookup_alter_ne. }
    apply IH. intros k Hk. rewrite Hw'. apply lookup_insert_is_Some'. right. apply Hl. by right.
Qed.

Lemma wp_enable id w :
  wp (enable id) (λ _ w', ∃ l, Topological (catalog_of w) l ∧ id ∈ l ∧ catalog_of w' = enabled_in l (catalog_of w))
    (closed w) w.
Proof.
  unfold enable. apply wp_gets_bind. destruct (catalog_of w !! id) as [p|] eqn:Hid; [|by apply wp_throw].
  apply wp_lift_bind. pose proof (enable_order_topological id (catalog_of w)) as Ho.
  destruct (enable_order _ _) as [l|[]]; [|by apply closed_throw|done..]. destruct Ho as [HT Hin].
  eapply wp_mono; [apply wp_enable_each|by eauto|done]. intros k Hk.
  destruct (topological_enableable _ _ HT k Hk) as [? q Hq]. by eexists.
Qed.

Lemma wp_disable id w :
  wp (disable id) (λ _ w', ∃ p, catalog_of w !! id = Some p
      ∧ (state p = Disabled ∧ catalog_of w' = catalog_of w
         ∨ (∀ d q, d ∈ dependents id (catalog_of w) → catalog_of w !! d = Some q → ¬ live q)
           ∧ catalog_of w' = <[id := set_state Disabled p]> (catalog_of w))) (closed w) w.
Proof.
  unfold disable. apply wp_gets_bind. destruct (catalog_of w !! id) as [p|] eqn:Hid; [|by apply wp_throw].
  case_bool_decide; [apply wp_ret; eauto|]. destruct (List.filter _ _) as [|d ds] eqn:Hf; [|auto].
  apply wp_bind. unfold wp at 1, unregister_tools, modify. apply wp_settle. intros w' Hw'.
  exists p. split; [done|right]. split; [|done]. intros d q Hd Hq Hl. apply (not_elem_of_nil d).
  rewrite <-Hf. apply filter_elem. rewrite Hq. split; [done|]. by apply bool_decide_eq_true_2.
Qed.

Lemma wp_uninstall id w :
  wp (uninstall id) (λ _ w', is_Some (catalog_of w !! id) ∧ dependents id (catalog_of w) = []
      ∧ catalog_of w' = delete id (catalog_of w)) (closed w) w.
Proof.
  unfold uninstall. apply wp_gets_bind. case_bool_decide as Hid; [|by apply wp_throw]. simpl.
  destruct (dependents id (catalog_of w)) eqn:Hd; [|auto].
  eapply wp_call; [apply wp_disable|]. intros [] w1 (p & Hp & Hor). apply wp_gets_bind.
  assert (∃ q, catalog_of w1 !! id = Some q) as [q Hq].
  { destruct Hor as [[_ ->]|[_ ->]]; [eauto|]. rewrite lookup_insert_eq. eauto. }
  rewrite Hq. apply wp_lift_bind. cbn [expect]. apply wp_settle. intros w2 ->. split_and!; [done..|].
  destruct Hor as [[_ ->]|[_ ->]]; [done|]. by rewrite delete_insert_eq.
Qed.

Lemma run_closed o w : wp (run o) (λ _ _, True) (closed w) w.
Proof.
  destruct o; cbn [run].
  - eapply wp_call; [apply wp_install|]. intros entry w' _. by apply wp_ret.
  - eapply wp_mono; [apply wp_upgrade|done|done].
  - eapply wp_mono; [apply wp_rollback|done|done].
  - eapply wp_mono; [apply wp_enable|done|done].
  - eapply wp_mono; [apply wp_disable|done|done].
  - eapply wp_mono; [apply wp_uninstall|done|done].
Qed.

(** C29: a lifecycle call that does not succeed is an error (or, for a keyless
    package, a panic on malformed hexadecimal text), and has changed neither
    the catalog, the events nor the tools of the host. *)
Theorem lifecycle_fails_closed o w w' s :
  run o w = (w', Stop s) →
  engine w' = engine w ∧ tools w' = tools w
  ∧ match s with
    | Throw _ => True
    | Panicked => engine_keyless (engine w) ≠ None
    | _ => False
    end.
Proof. intros Hr. pose proof (run_closed o w) as Hc. unfold wp in Hc. rewrite Hr in Hc. by destruct Hc as [[] ?]. Qed.

(** The calls the invariant is about: a new version keeps the name of the plugin
    (the qualified id can be split in two ways when a publisher has a slash),
    does not depend on its own plugin, and the dependencies of the new version of
    an enabled plugin are enabled beforehand; no rollback. *)
Definition permitted (o : Op) w : Prop :=
  match o with
  | OpUpgrade p _ => ∀ m, from_yaml (manifest_yaml p) = Ok m →
      (∀ cur, catalog_of w !! qualified_id m = Some cur → name_of cur = md_name (metadata m))
      ∧ (∀ dep, dep ∈ dependencies m → dep_name dep ≠ qualified_id m ∧ dep_name dep ≠ md_name (metadata m))
      ∧ ∀ cur, catalog_of w !! qualified_id m = Some cur → live cur →
          ∀ dep, dep ∈ dependencies m → satisfied_in (catalog_of w) live dep
  | OpRollback _ => False
  | _ => True
  end.

(** A call, whatever comes of it. *)
Definition call w w' : Prop := ∃ o, permitted o w ∧ (run o w).1 = w'.

Lemma run_sound o w :
  permitted o w → Sound (catalog_of w) → wp (run o) (λ _ w', Sound (catalog_of w')) (λ _ w', Sound (catalog_of w')) w.
Proof.
  intros Hp HS.
  assert (∀ s w', closed w s w' → Sound (catalog_of w')) as Hcl by (intros s w' [[He _] _]; unfold catalog_of; by rewrite He).
  destruct o as [p g|p g|id|id|id|id]; cbn [run permitted] in *.
  - eapply wp_call.
    + eapply wp_mono; [apply wp_install|exact (λ a w' H, H)|done].
    + intros e w' (m & Hm & <- & Hst & Hno & Hr & Hc). apply wp_ret. rewrite Hc.
      apply sound_install; [done|done|done|done|by apply resolve_all_satisfied].
  - eapply wp_mono; [apply wp_upgrade| |done].
    intros [] w' (m & cur & new & v & Hm & <- & Hst & Hcur & Hr & Hv & Hb & ->). destruct (Hp _ Hm) as (Hf & Hself & Hlive).
    apply sound_upgrade with cur v; try done; [by rewrite (Hf cur Hcur)| |by apply resolve_all_satisfied|by apply Hlive].
    intros dep [H1 H2]%Hself. unfold name_matches. by apply orb_false_iff; split; apply String.eqb_neq.
  - done.
  - eapply wp_mono; [apply wp_enable| |done]. intros [] w' (l & HT & _ & ->). by apply sound_enable.
  - eapply wp_mono; [apply wp_disable| |done]. intros [] w' (p & Hq & [[_ ->]|[Hno ->]]); [done|by apply sound_disable].
  - eapply wp_mono; [apply wp_uninstall| |done]. intros [] w' (_ & Hd & ->). by apply sound_delete.
Qed.

(** Whatever permitted calls are made from an empty catalog, successful or
    not, every installed plugin has its dependencies installed at admitted
    versions, and every enabled plugin has them enabled. *)
Theorem plugin_dependencies_hold w w' :
  catalog_of w = ∅ → rtc call w w' →
  ∀ id p dep, catalog_of w' !! id = Some p → dep ∈ dependencies_of p →
    satisfied_in (catalog_of w') present dep ∧ (live p → satisfied_in (catalog_of w') live dep).
Proof.
  intros Hw Hc. assert (Sound (catalog_of w')) as HS.
  { assert (Sound (catalog_of w)) as HS by (rewrite Hw; apply sound_empty). clear Hw.
    induction Hc as [|w1 w2 w3 (o & Hp & <-) _ IH]; [done|]. apply IH.
    pose proof (run_sound o w1 Hp HS) as Hr. unfold wp in Hr. by destruct (run o w1) as [? []]. }
  intros id p dep Hid Hdep. split; [by eapply (sound_deps _ HS)|]. intros Hl. by eapply (sound_live _ HS).
Qed.
End lifecycle.

(** ** The single-file format *)

Section wovyrpkg.
Context `{PS : PackageSerde}.

(** serde_json reads back what it writes. *)
Definition envelope_round_trip : Prop :=
  ∀ e bytes, envelope_to_vec e = inr bytes → envelope_from_slice bytes = inr e.

Lemma decode_artifacts_encoded (l : list (string * string)) p :
  decode_artifacts (prod_map id hex_encode <$> l) p = Ret (foldl (λ p kb, with_artifact kb.1 kb.2 p) p l).
Proof.
  revert p. induction l as [|[path bytes] l IH]; intros p; [done|]. cbn [fmap list_fmap prod_map decode_artifacts].
  rewrite hex_round_trip. cbn [mbind outcome_bind]. by rewrite IH.
Qed.

Lemma with_artifacts (l : list (string * string)) p :
  foldl (λ p kb, with_artifact kb.1 kb.2 p) p l = {|
    manifest_yaml := manifest_yaml p; pkg_signature := pkg_signature p;
    pkg_artifacts := foldl (λ m kb, <[kb.1 := kb.2]> m) (pkg_artifacts p) l; keyless_bundle := keyless_bundle p |}.
Proof. revert p. induction l as [|a l IH]; intros p; [by destruct p|]. cbn [foldl]. by rewrite IH. Qed.

(** A package written as a single file is read back as it was. *)
Theorem wovyrpkg_round_trip p bytes :
  envelope_round_trip → to_wovyrpkg p = Ok bytes → from_wovyrpkg bytes = Ret p.
Proof.
  intros Hrt. unfold to_wovyrpkg. destruct (envelope_to_vec _) as [|b] eqn:Hb; [done|]. intros [= ->].
  unfold from_wovyrpkg. rewrite (Hrt _ _ Hb). cbn [pk_signature pk_manifest pk_artifacts pk_keyless].
  rewrite hex_round_trip. cbn [mbind outcome_bind]. rewrite btree_iter_fmap, decode_artifacts_encoded, with_artifacts.
  cbn [mbind outcome_bind manifest_yaml pkg_signature pkg_artifacts keyless_bundle Package_new].
  unfold with_keyless. cbn [manifest_yaml pkg_signature pkg_artifacts]. rewrite insert_btree_iter. by destruct p.
Qed.
End wovyrpkg.

(** ** Concrete runs: a plugin [base], and [app] that depends on it *)

Module PluginToy.
#[global] Instance semver : Semver Z Z := {|
  parse_version s := match parse_u32 s with Some v => inr v | None => inl "not a number" end;
  parse_req s := match parse_u32 s with Some v => inr v | None => inl "not a number" end;
  req_matches r v := Z.leb r v; version_cmp := Z.compare; show_version := show_Z |}.
#[global] Instance crypto : PluginCrypto := {|
  digest m := m; ed25519_verify pk m s := String.eqb s (pk +:+ m); ecdsa_p256_verify _ _ _ := false |}.

Definition plugin (name version : string) (deps : list Dependency) : PluginManifest := {|
  api_version := PLUGIN_API_VERSION; kind := "Plugin";
  metadata := {| md_name := name; md_version := version; md_publisher := "acme"; md_description := "";
                 md_license := ""; md_homepage := "" |};
  compatibility := {| platform_api_range := "" |}; dependencies := deps; permissions := [];
  capabilities := [{| cap_kind := KTool; cap_id := name +:+ ".run"; cap_entry := "run.wasm"; cap_sandbox := "wasm" |}];
  artifacts := []; sbom := None; provenance := None |}.
Definition on_base (v : string) : list Dependency := [{| dep_name := "base"; dep_version := v |}].
#[global] Instance yaml : ManifestYaml := {|
  manifest_from_str s :=
    if String.eqb s "base 1" then inr (plugin "base" "1" [])
    else if String.eqb s "base 2" then inr (plugin "base" "2" [])
    else if String.eqb s "app 1" then inr (plugin "app" "1" [])
    else if String.eqb s "app 2" then inr (plugin "app" "2" (on_base "1"))
    else if String.eqb s "app 3" then inr (plugin "app" "3" (on_base "2"))
    else inl "unknown" |}.
#[global] Instance no_tools : Tool Empty_set () := {|
  tool_metadata_of (b : Empty_set) := match b with end;
  tool_input_schema (b : Empty_set) := match b with end;
  tool_execute (b : Empty_set) _ _ x := match b with end |}.

Definition package (text : string) : Package := Package_new text ("key" +:+ text).
Definition start : PluginWorld Z NotLoadedRuntime Empty_set := {|
  engine := PluginEngine_new 1%Z (trust "acme" "key" TrustStore_new); tools := ∅; disk := ∅ |}.
Definition run_all (os : list Op) (w : PluginWorld Z NotLoadedRuntime Empty_set) :=
  foldl (λ w o, (run (X := ()) o w).1) w os.
Definition installs : list Op :=
  [OpInstall (package "base 1") []; OpInstall (package "app 2") []; OpEnable "acme/app"; OpDisable "acme/base"].

Lemma rtc_run_all os w :
  Forall (λ o, ∀ w : PluginWorld Z NotLoadedRuntime Empty_set, permitted o w) os → rtc (call (X := ())) w (run_all os w).
Proof.
  intros Hos. revert w. induction Hos as [|o os Ho Hos IH]; intros w; [constructor|].
  eapply rtc_l; [by exists o|]. apply IH.
Qed.
End PluginToy.
Import PluginToy.

Lemma plugin_dependencies_hold_witness :
  let w := run_all installs start in
  ∃ p, catalog_of w !! "acme/app" = Some p ∧ live p
    ∧ satisfied_in (catalog_of w) live {| dep_name := "base"; dep_version := "1" |}.
Proof.
  set (w := run_all installs start).
  assert (Hp : ∃ p, catalog_of w !! "acme/app" = Some p ∧ live p ∧ dependencies_of p = on_base "1").
  { eexists. split; [vm_compute; reflexivity|]. split; reflexivity. }
  destruct Hp as (p & Hp & Hl & Hd). exists p. split; [exact Hp|split; [exact Hl|]].
  refine (proj2 (plugin_dependencies_hold (X := ()) start w _ _ "acme/app" p _ Hp _) Hl).
  - reflexivity.
  - apply rtc_run_all. constructor; [|constructor; [|constructor; [|constructor; [|constructor]]]]; intros w'.
    all: exact I.
  - rewrite Hd. left.
Defined.

Lemma lifecycle_fails_closed_witness :
  let w := run_all installs start in
  let r := run (X := ()) (OpUninstall "acme/base") w in
  engine r.1 = engine w ∧ tools r.1 = tools w.
Proof.
  intros w r.
  assert (Hr : ∃ e, r = (r.1, Stop (Throw e))) by (eexists; vm_compute; reflexivity).
  destruct Hr as [e Hr].
  pose proof (lifecycle_fails_closed (X := ()) (OpUninstall "acme/base") w r.1 (Throw e) Hr) as (He & Ht & _).
  split; assumption.
Defined.

(** A rollback of [base] below what the installed [app] requires is accepted. *)
Lemma rollback_breaks_dependents :
  let w := run_all [OpInstall (package "base 1") []; OpUpgrade (package "base 2") [];
                    OpInstall (package "app 3") []; OpRollback "acme/base"] start in
  ∃ p e, catalog_of w !! "acme/app" = Some p
    ∧ resolve_dep {| dep_name := "base"; dep_version := "2" |} (catalog_of w) = Err e
    ∧ dependencies_of p = on_base "2".
Proof. do 2 eexists. split_and!; vm_compute; reflexivity. Qed.

(** An upgrade of the enabled [app] to a version that needs [base] leaves
    [base] disabled. *)
Lemma upgrade_leaves_dependency_disabled :
  let w := run_all [OpInstall (package "base 1") []; OpInstall (package "app 1") []; OpEnable "acme/app";
                    OpUpgrade (package "app 2") []] start in
  ∃ p q, catalog_of w !! "acme/app" = Some p ∧ live p ∧ dependencies_of p = on_base "1"
    ∧ catalog_of w !! "acme/base" = Some q ∧ state q = Disabled.
Proof. do 2 eexists. split_and!; vm_compute; reflexivity. Qed.

(** The single-file format, with a serializer of one envelope. *)
#[export] Instance IdentityCert_eq_dec : EqDecision IdentityCert.
Proof. solve_decision. Defined.
#[export] Instance LogEntryRef_eq_dec : EqDecision LogEntryRef.
Proof. solve_decision. Defined.
#[export] Instance KeylessBundle_eq_dec : EqDecision KeylessBundle.
Proof. solve_decision. Defined.
#[export] Instance WovyrPkg_eq_dec : EqDecision WovyrPkg.
Proof. solve_decision. Defined.

Definition one_envelope (e : WovyrPkg) : PackageSerde := {|
  envelope_to_vec e' := if decide (e' = e) then inr "{}" else inl "other";
  envelope_from_slice s := if String.eqb s "{}" then inr e else inl "other" |}.

Lemma wovyrpkg_round_trip_witness :
  let p := with_artifact "run.wasm" "asm" (package "app 2") in
  let PS := one_envelope {| pk_manifest := "app 2"; pk_signature := hex_encode "keyapp 2";
                            pk_artifacts := {["run.wasm" := hex_encode "asm"]}; pk_keyless := None |} in
  @from_wovyrpkg PS "{}" = Ret p.
Proof.
  intros p PS. apply (wovyrpkg_round_trip (PS := PS)).
  - intros e bytes. simpl. destruct (decide _) as [->|]; [intros [= <-]; reflexivity|discriminate].
  - vm_compute. reflexivity.
Defined.
