(* ===== verification/Scheduler.v ===== *)
(** * Fair scheduling of sandboxed work

    [FairScheduler] of crates/wovyr-tools/src/scheduler.rs: bounded, weighted,
    tenant-fair admission by smooth weighted round-robin.  The scheduler's mutex
    makes each call one step on the state; the credits are [i64]s whose
    release-profile arithmetic wraps around. *)
From stdpp Require Import base tactics list numbers strings gmap.
From Stdlib Require Import Lia ZArith.
From S2P Require Import Prelude.
From S2P Require Import Effect.
Local Open Scope Z_scope.

Definition i64_wrap (z : Z) : Z := (z + 2 ^ 63) mod 2 ^ 64 - 2 ^ 63.
Definition i64_wrapping_add (x y : Z) : Z := i64_wrap (x + y).
Definition i64_wrapping_sub (x y : Z) : Z := i64_wrap (x - y).

Record TenantQueue (T : Type) := { weight : Z; current_weight : Z; items : list T }.
Arguments weight {T} _.
Arguments current_weight {T} _.
Arguments items {T} _.

Record FairScheduler (T : Type) := {
  tenants : gmap string (TenantQueue T);
  max_in_flight : Z;
  in_flight : Z }.
Arguments tenants {T} _.
Arguments max_in_flight {T} _.
Arguments in_flight {T} _.

Section scheduler.
Context {T : Type}.
Notation S := (FairScheduler T).

Definition new (max_in_flight : Z) : S :=
  {| tenants := ∅; max_in_flight := Z.max max_in_flight 1; in_flight := 0 |}.

Definition set_tenants (m : gmap string (TenantQueue T)) (s : S) : S :=
  {| tenants := m; max_in_flight := max_in_flight s; in_flight := in_flight s |}.
Definition set_in_flight (n : Z) (s : S) : S :=
  {| tenants := tenants s; max_in_flight := max_in_flight s; in_flight := n |}.

(** [submit]: the weight is read on a tenant's first submission only. *)
Definition submit (tenant : string) (w : Z) (item : T) : M S () :=
  modify (λ s,
    let q := default {| weight := Z.max w 1; current_weight := 0; items := [] |} (tenants s !! tenant) in
    set_tenants (<[tenant := {| weight := weight q; current_weight := current_weight q;
                                items := items q ++ [item] |}]> (tenants s)) s).

Definition has_items (q : TenantQueue T) : bool := match items q with [] => false | _ => true end.

(** The queues with work, in the order of the map. *)
Definition backlogged (m : gmap string (TenantQueue T)) : list (string * TenantQueue T) :=
  List.filter (λ kq, has_items kq.2) (btree_iter m).

Definition total_weight (m : gmap string (TenantQueue T)) : Z :=
  foldl (λ t kq, i64_wrapping_add t (weight kq.2)) 0 (backlogged m).

Definition credited (q : TenantQueue T) : TenantQueue T :=
  if has_items q then
    {| weight := weight q; current_weight := i64_wrapping_add (current_weight q) (weight q);
       items := items q |}
  else q.

(** [Iterator::max_by_key]: the last of the largest. *)
Definition max_by_weight (l : list (string * TenantQueue T)) : option (string * TenantQueue T) :=
  foldl (λ best kq,
    match best with
    | Some b => if Z.ltb (current_weight kq.2) (current_weight b.2) then Some b else Some kq
    | None => Some kq
    end) None l.

Definition debited (total : Z) (q : TenantQueue T) : TenantQueue T :=
  {| weight := weight q; current_weight := i64_wrapping_sub (current_weight q) total;
     items := items q |}.

Definition poll : M S (option (string * T)) :=
  s ← gets id;
  if Z.leb (max_in_flight s) (in_flight s) then mret None else
  let total := total_weight (tenants s) in
  if Z.eqb total 0 then mret None else
  _ ← modify (λ s, set_tenants (credited <$> tenants s) s);
  s ← gets id;
  match fst <$> max_by_weight (backlogged (tenants s)) with
  | None => mret None
  | Some best =>
    q ← lift (expect (tenants s !! best));
    let q := debited total q in
    _ ← modify (λ s, set_tenants (<[best := q]> (tenants s)) s);
    '(item, rest) ← lift (expect match items q with [] => None | x :: l => Some (x, l) end);
    _ ← modify (λ s, set_tenants (<[best := {| weight := weight q; current_weight := current_weight q;
                                               items := rest |}]> (tenants s)) s);
    _ ← modify (λ s, set_in_flight (in_flight s + 1) s);
    mret (Some (best, item))
  end.

Definition complete : M S () := modify (λ s, set_in_flight (u64_saturating_sub (in_flight s) 1) s).

Definition pending (s : S) : nat := foldr (λ kq n, length (items kq.2) + n)%nat 0%nat (btree_iter (tenants s)).

(** ** Sequences of calls *)

Inductive call := Submit (tenant : string) (weight : Z) (item : T) | Poll | Complete.

(** The admissions of a sequence of calls, in order. *)
Fixpoint admissions (calls : list call) : M S (list (string * T)) :=
  match calls with
  | [] => mret []
  | Submit t w x :: calls => _ ← submit t w x; admissions calls
  | Complete :: calls => _ ← complete; admissions calls
  | Poll :: calls =>
    r ← poll;
    rest ← admissions calls;
    mret (option_list r ++ rest)
  end.

(** What was submitted for, and admitted from, one tenant. *)
Definition submitted_to (t : string) (calls : list call) : list T :=
  omap (λ c, match c with Submit t' _ x => if String.eqb t t' then Some x else None | _ => None end) calls.
Definition admitted_from (t : string) (l : list (string * T)) : list T :=
  snd <$> List.filter (λ kx, String.eqb t kx.1) l.
End scheduler.
Arguments call T : clear implicits.

Example weighted_interleaving :
  (admissions ([Submit "a" 2 1; Submit "a" 2 2; Submit "b" 1 3; Submit "a" 2 4] ++ replicate 4 Poll)
     (new 10)).2 = Ret [("a", 1); ("b", 3); ("a", 2); ("a", 4)].
Proof. vm_compute. reflexivity. Qed.

(** ** Fairness of the scheduler

    The credits of smooth weighted round-robin stay within a bound that depends
    only on the weights and the number of tenants, whatever the backlogs do; no
    starvation and proportional shares follow. *)

(** *** One round on abstract accounts *)

Section round.
Context (names : list string) (w c : string → Z) (act : string → bool) (b : string).
Let n : Z := Z.of_nat (length names).
Let W : Z := sum_over w names.
Let total : Z := sum_if act w names.

(** Every set of [k] accounts holds at most [W k (n - k) / 2]. *)
Definition bounded_sets (c : string → Z) : Prop :=
  ∀ p, 2 * sum_if p c names <= W * (count_if p names * (n - count_if p names)).

Definition after_round (k : string) : Z :=
  c k + (if act k then w k else 0) - (if bool_decide (k = b) then total else 0).

Context (Hnd : NoDup names) (Hb : b ∈ names) (Hact : act b = true).
Context (Hw : ∀ k, k ∈ names → 0 <= w k).
Context (Hbest : ∀ k, k ∈ names → act k = true → c k + w k <= c b + w b).

Lemma sum_after_round p :
  sum_if p after_round names =
    sum_if p c names + sum_if (λ k, p k && act k) w names - (if p b then total else 0).
Proof.
  assert ((if p b then total else 0) =
    sum_over (λ k, if decide (k = b) then (if p k then total else 0) else 0) names) as ->.
  { by rewrite (sum_over_single (λ k, if p k then total else 0) names b Hnd Hb). }
  assert (∀ x y z, x = y - z ↔ x + z = y) as Hsub by lia. apply Hsub.
  unfold sum_if. rewrite <-!sum_over_add. apply sum_over_ext. intros k _. unfold after_round.
  destruct (decide (k = b)) as [->|Hne].
  - rewrite bool_decide_eq_true_2 by done. destruct (p b), (act b); cbn; lia.
  - rewrite bool_decide_eq_false_2 by done. destruct (p k), (act k); cbn; lia.
Qed.

Lemma sums_nonneg p : 0 <= sum_if p w names.
Proof. apply sum_over_nonneg. intros k Hk. destruct (p k); [by apply Hw|done]. Qed.

Lemma round_arith (k j x y z w' wb : Z) :
  1 <= j <= k → k < n →
  2 * (x + y + z) <= W * ((k + 1) * (n - (k + 1))) →
  2 * x <= W * ((k - j) * (n - (k - j))) →
  y + w' <= j * (z + wb) → w' + wb <= W →
  2 * (x + y + w') <= W * (k * (n - k)).
Proof.
  intros Hj Hk Hi Hii Hiii Hiv.
  assert (0 <= W) as HW by (by apply sum_over_nonneg).
  assert (j * (2 * (x + y + z)) <= j * (W * ((k + 1) * (n - (k + 1))))) as H1
    by (apply Z.mul_le_mono_nonneg_l; lia).
  assert (j * (w' + wb) <= j * W) as H2 by (apply Z.mul_le_mono_nonneg_l; lia).
  assert (2 * j * W <= j * (j + 1) * W) as H3.
  { apply Z.mul_le_mono_nonneg_r; [done|]. rewrite (Z.mul_comm 2). apply Z.mul_le_mono_nonneg_l; lia. }
  assert (j * (W * ((k + 1) * (n - (k + 1)))) + W * ((k - j) * (n - (k - j))) =
    (j + 1) * (W * (k * (n - k))) - j * (j + 1) * W) as H4 by ring.
  apply (Z.mul_le_mono_pos_l _ _ (j + 1)); lia.
Qed.

Lemma bounded_after_round : bounded_sets c → bounded_sets after_round.
Proof.
  intros Hinv p. rewrite sum_after_round.
  pose proof (sums_nonneg (λ k, p k && act k)) as Hnn.
  destruct (p b) eqn:Hpb.
  { assert (sum_if (λ k, p k && act k) w names <= total).
    { apply sum_over_le. intros k Hk. pose proof (Hw k Hk). destruct (p k), (act k); cbn; lia. }
    specialize (Hinv p). lia. }
  rewrite Z.sub_0_r. set (pa := λ k, p k && act k) in *.
  set (j := count_if pa names). set (k := count_if p names).
  pose proof (count_if_bounds pa names) as Hj. fold j in Hj.
  assert (j <= k) as Hjk.
  { apply sum_over_le. intros x _. unfold pa. by destruct (p x), (act x). }
  assert (sum_if (λ x, p x || bool_decide (x = b)) (λ _, 1) names = k + 1) as Hk1
    by (by rewrite (sum_if_insert p (λ _, 1) names b Hnd Hb Hpb)).
  pose proof (count_if_bounds (λ x, p x || bool_decide (x = b)) names) as Hkn.
  unfold count_if in Hkn. rewrite Hk1 in Hkn. fold n in Hkn.
  destruct (decide (j = 0)) as [Hj0|Hj0].
  { assert (sum_if pa w names = 0) as ->; [|specialize (Hinv p); fold k in Hinv; lia].
    apply sum_over_zero. intros x Hx. by rewrite (count_if_zero pa names x Hj0 Hx). }
  pose proof (Hinv (λ x, p x || bool_decide (x = b))) as Hi.
  rewrite (sum_if_insert p c names b Hnd Hb Hpb) in Hi. unfold count_if in Hi. rewrite Hk1 in Hi.
  pose proof (Hinv (λ x, p x && negb (act x))) as Hii.
  assert (count_if (λ x, p x && negb (act x)) names = k - j) as Hkj.
  { unfold k, j, count_if. rewrite (sum_if_split p act). fold pa. lia. }
  rewrite Hkj in Hii. rewrite (sum_if_split p act c) in Hi |- *. fold pa in Hi |- *.
  assert (sum_if pa c names + sum_if pa w names <= j * (c b + w b)) as Hiii.
  { unfold j, count_if, sum_if. rewrite Z.mul_comm, <-sum_over_scale, <-sum_over_add. apply sum_over_le.
    intros x Hx. destruct (pa x) eqn:E; [|lia]. unfold pa in E. apply andb_prop in E as [_ E].
    specialize (Hbest x Hx E). lia. }
  assert (sum_if pa w names + w b <= W) as Hiv.
  { assert (pa b = false) as Hpab by (unfold pa; by rewrite Hpb).
    rewrite <-(sum_if_insert pa w names b Hnd Hb Hpab). apply sum_over_le.
    intros x Hx. pose proof (Hw x Hx). destruct (pa x || _); lia. }
  pose proof (round_arith k j (sum_if (λ a, p a && negb (act a)) c names) (sum_if pa c names) (c b)
    (sum_if pa w names) (w b) ltac:(lia) ltac:(lia) ltac:(lia) ltac:(lia) ltac:(lia) ltac:(lia)). lia.
Qed.

Lemma sum_zero_after_round : sum_over c names = 0 → sum_over after_round names = 0.
Proof.
  intros H0. pose proof (sum_after_round (λ _, true)) as H. unfold sum_if in H. cbv iota in H.
  change (sum_over (λ a, after_round a) names) with (sum_over after_round names) in H.
  change (sum_over (λ a, c a) names) with (sum_over c names) in H. rewrite H, H0.
  unfold total, sum_if. cbn. lia.
Qed.
End round.

(** *** The accounts of a scheduler *)

Lemma btree_keys_length {V} (m : gmap string V) : length (btree_keys m) = size m.
Proof. rewrite btree_keys_perm. apply size_dom. Qed.

Section accounts.
Context {T : Type}.
Implicit Types (m : gmap string (TenantQueue T)) (s : FairScheduler T).

Definition credit m (k : string) : Z := from_option current_weight 0 (m !! k).
Definition share m (k : string) : Z := from_option weight 0 (m !! k).
Definition active m (k : string) : bool := from_option has_items false (m !! k).
Definition all_weights m : Z := sum_over (share m) (btree_keys m).

(** The weights are [u32]s, there is no more than a [u16] of tenants: the
    credits then fit an [i64]. *)
Definition max_tenants : Z := 65535.

Record fair s : Prop := {
  fair_weight k q : tenants s !! k = Some q → 1 <= weight q < 2 ^ 32;
  fair_zero : sum_over (credit (tenants s)) (btree_keys (tenants s)) = 0;
  fair_sets : bounded_sets (btree_keys (tenants s)) (share (tenants s)) (credit (tenants s));
  fair_slots : 0 <= in_flight s <= max_in_flight s }.

Lemma i64_wrap_small z : - 2 ^ 63 <= z < 2 ^ 63 → i64_wrap z = z.
Proof. intros Hz. unfold i64_wrap. rewrite Z.mod_small by lia. lia. Qed.

Lemma share_nonneg s k : fair s → 0 <= share (tenants s) k < 2 ^ 32.
Proof.
  intros Hf. unfold share. destruct (tenants s !! k) as [q|] eqn:E; cbn; [|lia].
  pose proof (fair_weight s Hf k q E). lia.
Qed.

Lemma all_weights_bound s : fair s → Z.of_nat (size (tenants s)) <= max_tenants →
  0 <= all_weights (tenants s) <= Z.of_nat (size (tenants s)) * (2 ^ 32 - 1).
Proof.
  intros Hf Hn. split; [apply sum_over_nonneg; intros k _; by apply share_nonneg|].
  rewrite <-btree_keys_length. transitivity (sum_over (λ _ : string, (2 ^ 32 - 1) * 1) (btree_keys (tenants s))).
  - apply sum_over_le. intros k _. pose proof (share_nonneg s k Hf). lia.
  - rewrite sum_over_scale. pose proof (count_if_length (btree_keys (tenants s))) as H.
    unfold count_if, sum_if in H. rewrite H. lia.
Qed.

(** No account is further from zero than half the weights times the other
    tenants. *)
Lemma credit_bound s k : fair s → k ∈ btree_keys (tenants s) →
  - (all_weights (tenants s) * (Z.of_nat (size (tenants s)) - 1)) <= 2 * credit (tenants s) k <=
  all_weights (tenants s) * (Z.of_nat (size (tenants s)) - 1).
Proof.
  intros Hf Hk. pose proof (btree_keys_nodup (tenants s)) as Hnd.
  pose proof (fair_sets s Hf (λ x, false || bool_decide (x = k))) as H1.
  pose proof (fair_sets s Hf (λ x, negb (bool_decide (x = k)))) as H2. unfold count_if in H1, H2.
  rewrite !(sum_if_insert (λ _, false) _ _ _ Hnd Hk eq_refl) in H1.
  rewrite !(sum_if_except _ _ _ Hnd Hk), (fair_zero s Hf) in H2.
  assert (∀ f : string → Z, sum_if (λ _, false) f (btree_keys (tenants s)) = 0) as E
    by (intros f; by apply sum_over_zero). rewrite !E in H1.
  pose proof (count_if_length (btree_keys (tenants s))) as E'. unfold count_if, sum_if in E'. rewrite E' in H2.
  rewrite btree_keys_length in H1, H2. fold (all_weights (tenants s)) in H1, H2. lia.
Qed.

Lemma credits_fit s k : fair s → Z.of_nat (size (tenants s)) <= max_tenants → k ∈ btree_keys (tenants s) →
  - 2 ^ 63 <= credit (tenants s) k - all_weights (tenants s) ∧
  credit (tenants s) k + all_weights (tenants s) < 2 ^ 63 ∧ all_weights (tenants s) < 2 ^ 63.
Proof.
  intros Hf Hn Hk. pose proof (all_weights_bound s Hf Hn) as HW. pose proof (credit_bound s k Hf Hk) as Hc.
  assert (1 <= Z.of_nat (size (tenants s)) <= 65535) as Hs.
  { unfold max_tenants in Hn. split; [|done]. rewrite <-btree_keys_length.
    destruct (btree_keys (tenants s)); [by apply not_elem_of_nil in Hk|]. cbn [length]. lia. }
  set (n := Z.of_nat (size (tenants s))) in *. set (W := all_weights (tenants s)) in *.
  assert (W * (n - 1) <= n * (2 ^ 32 - 1) * (n - 1)) by (apply Z.mul_le_mono_nonneg_r; lia).
  assert (n * (n - 1) <= 65535 * 65534) by nia. lia.
Qed.

(** *** A poll is a round *)

Lemma total_weight_sum m t0 l :
  0 <= t0 → (∀ k, k ∈ l → is_Some (m !! k) ∧ 0 <= share m k) →
  t0 + sum_over (share m) l < 2 ^ 63 →
  foldl (λ t kq, i64_wrapping_add t (weight kq.2)) t0
    (List.filter (λ kq, has_items kq.2) (omap (λ k, pair k <$> m !! k) l)) =
    t0 + sum_if (active m) (share m) l.
Proof.
  revert t0. induction l as [|k l IH]; intros t0 Ht Hl Hsum; [cbn; lia|].
  assert (∀ x, x ∈ l → is_Some (m !! x) ∧ 0 <= share m x) as Hl' by set_solver.
  destruct (Hl k ltac:(set_solver)) as [[q Hq] Hk].
  pose proof (sum_over_nonneg (share m) l ltac:(intros a Ha; by apply Hl')).
  cbn [omap list_omap sum_over sum_if] in *. unfold sum_if. cbn [sum_over]. fold (sum_if (active m) (share m) l).
  rewrite Hq. cbn [fmap option_fmap option_map List.filter snd].
  assert (active m k = has_items q) as -> by (unfold active; by rewrite Hq).
  assert (share m k = weight q) as Hw by (unfold share; by rewrite Hq). rewrite Hw in *.
  destruct (has_items q); [|rewrite IH by (done || lia); lia]. cbn [foldl snd]. unfold i64_wrapping_add at 2.
  rewrite i64_wrap_small by lia. rewrite IH by (done || lia). lia.
Qed.

Lemma max_by_weight_spec (l : list (string * TenantQueue T)) :
  match max_by_weight l with
  | None => l = []
  | Some b => b ∈ l ∧ ∀ e, e ∈ l → current_weight e.2 <= current_weight b.2
  end.
Proof.
  unfold max_by_weight. induction l as [|e l IH] using rev_ind; [done|]. rewrite foldl_app. cbn [foldl].
  destruct (foldl _ None l) as [b|].
  - destruct IH as [Hb Hmax]. destruct (Z.ltb_spec (current_weight e.2) (current_weight b.2)).
    + split; [set_solver|]. intros x [Hx| ->%list_elem_of_singleton]%elem_of_app; [by apply Hmax|lia].
    + split; [set_solver|]. intros x [Hx| ->%list_elem_of_singleton]%elem_of_app; [|lia].
      specialize (Hmax x Hx). lia.
  - subst l. split; [set_solver|]. intros x ->%list_elem_of_singleton. lia.
Qed.

Lemma backlogged_elem m k q : (k, q) ∈ backlogged m ↔ m !! k = Some q ∧ has_items q = true.
Proof. unfold backlogged. by rewrite filter_elem, btree_iter_elem. Qed.

Lemma active_true m k : active m k = true ↔ ∃ q, m !! k = Some q ∧ has_items q = true.
Proof.
  unfold active. destruct (m !! k) as [q|]; cbn; [|naive_solver]. split; [by exists q|].
  by intros (? & [= <-] & ?).
Qed.

Lemma lookup_accounts m k q : m !! k = Some q →
  credit m k = current_weight q ∧ share m k = weight q ∧ active m k = has_items q.
Proof. intros Hq. unfold credit, share, active. by rewrite Hq. Qed.

(** The queue of tenant [k] after [best] has been admitted. *)
Definition queue_after m (best : string) (k : string) (q : TenantQueue T) : TenantQueue T :=
  {| weight := weight q;
     current_weight := after_round (btree_keys m) (share m) (credit m) (active m) best k;
     items := if bool_decide (k = best) then tail (items q) else items q |}.

Record admits s (best : string) (x : T) s' : Prop := {
  admits_item q : tenants s !! best = Some q → ∃ rest, items q = x :: rest;
  admits_known : is_Some (tenants s !! best);
  admits_best k : active (tenants s) k = true →
    credit (tenants s) k + share (tenants s) k <= credit (tenants s) best + share (tenants s) best;
  admits_queues k : tenants s' !! k = queue_after (tenants s) best k <$> tenants s !! k;
  admits_slot : in_flight s < max_in_flight s ∧ in_flight s' = in_flight s + 1;
  admits_max : max_in_flight s' = max_in_flight s }.

Lemma share_all_weights s k : fair s → k ∈ btree_keys (tenants s) →
  share (tenants s) k <= all_weights (tenants s).
Proof. intros Hf Hk. apply sum_over_member; [done|]. intros x _. by apply share_nonneg. Qed.

Lemma active_weights s : fair s →
  0 <= sum_if (active (tenants s)) (share (tenants s)) (btree_keys (tenants s)) <= all_weights (tenants s).
Proof.
  intros Hf. split.
  - apply sum_over_nonneg. intros k _. pose proof (share_nonneg s k Hf). destruct (active _ k); lia.
  - apply sum_over_le. intros k _. pose proof (share_nonneg s k Hf). destruct (active _ k); lia.
Qed.

Lemma poll_total s : fair s → Z.of_nat (size (tenants s)) <= max_tenants →
  total_weight (tenants s) = sum_if (active (tenants s)) (share (tenants s)) (btree_keys (tenants s)).
Proof.
  intros Hf Hn. destruct (decide (btree_keys (tenants s) = [])) as [E|E].
  { unfold total_weight, backlogged, btree_iter. by rewrite E. }
  assert (∃ k, k ∈ btree_keys (tenants s)) as [k0 Hk0].
  { destruct (btree_keys (tenants s)) as [|k l]; [done|]. exists k. by left. }
  destruct (credits_fit s k0 Hf Hn Hk0) as (_ & _ & HW).
  unfold total_weight, backlogged, btree_iter. rewrite total_weight_sum; [lia|lia| |done].
  intros k Hk. split; [by apply btree_keys_elem|]. by apply share_nonneg.
Qed.

Lemma credited_value s k q : fair s → Z.of_nat (size (tenants s)) <= max_tenants →
  tenants s !! k = Some q →
  current_weight (credited q) =
    credit (tenants s) k + (if active (tenants s) k then share (tenants s) k else 0).
Proof.
  intros Hf Hn Hq. assert (k ∈ btree_keys (tenants s)) as Hk by (apply btree_keys_elem; eauto).
  pose proof (credits_fit s k Hf Hn Hk) as Hc. pose proof (share_all_weights s k Hf Hk) as Hsh.
  pose proof (share_nonneg s k Hf) as Hnn. pose proof (all_weights_bound s Hf Hn) as HW.
  unfold credited. revert Hc Hsh Hnn. unfold credit, share, active. rewrite Hq. cbn.
  intros. destruct (has_items q); cbn; [|lia]. unfold i64_wrapping_add. apply i64_wrap_small. lia.
Qed.

Lemma debited_value s best q : fair s → Z.of_nat (size (tenants s)) <= max_tenants →
  tenants s !! best = Some q → has_items q = true →
  current_weight (debited (total_weight (tenants s)) (credited q)) =
    after_round (btree_keys (tenants s)) (share (tenants s)) (credit (tenants s)) (active (tenants s))
      best best.
Proof.
  intros Hf Hn Hq Hi. assert (best ∈ btree_keys (tenants s)) as Hk by (apply btree_keys_elem; eauto).
  pose proof (credits_fit s best Hf Hn Hk) as Hc. pose proof (share_all_weights s best Hf Hk) as Hsh.
  pose proof (active_weights s Hf) as Ht. pose proof (share_nonneg s best Hf) as Hnn.
  cbn [debited current_weight]. rewrite (credited_value s best q), poll_total by done.
  unfold i64_wrapping_sub, after_round. rewrite bool_decide_eq_true_2 by done.
  apply i64_wrap_small. destruct (active (tenants s) best); lia.
Qed.

Lemma credited_items (q : TenantQueue T) : has_items (credited q) = has_items q ∧
  items (credited q) = items q ∧ weight (credited q) = weight q.
Proof. unfold credited. by destruct (has_items q) eqn:E; cbn. Qed.

Lemma poll_admits s : fair s → Z.of_nat (size (tenants s)) <= max_tenants →
  match poll s with
  | (s', Ret None) => s' = s ∧ (max_in_flight s <= in_flight s ∨ ∀ k, active (tenants s) k = false)
  | (s', Ret (Some (best, x))) => admits s best x s'
  | (_, Stop _) => False
  end.
Proof.
  intros Hf Hn. unfold poll, mbind, M_bind, gets, mret, M_ret. cbn [id].
  destruct (Z.leb_spec (max_in_flight s) (in_flight s)) as [Hfull|Hfree]; [by auto|].
  rewrite poll_total by done.
  destruct (Z.eqb_spec (sum_if (active (tenants s)) (share (tenants s)) (btree_keys (tenants s))) 0) as [H0|H0].
  { split; [done|]. right. intros k. destruct (active (tenants s) k) eqn:E; [|done]. exfalso.
    pose proof (proj1 (active_true _ _) E) as (q & Hq & _).
    pose proof (fair_weight s Hf k q Hq). destruct (lookup_accounts _ _ _ Hq) as (_ & Hsh & _).
    assert (share (tenants s) k <= 0); [|lia]. rewrite <-H0.
    transitivity (if active (tenants s) k then share (tenants s) k else 0); [by rewrite E|].
    apply (sum_over_member (λ a, if active (tenants s) a then share (tenants s) a else 0)).
    - apply btree_keys_elem. by exists q.
    - intros b _. cbv beta. pose proof (share_nonneg s b Hf). destruct (active _ b); lia. }
  unfold modify at 1. cbn [set_tenants tenants].
  pose proof (max_by_weight_spec (backlogged (credited <$> tenants s))) as Hmax.
  destruct (max_by_weight _) as [[best qb]|]; cbn [fmap option_fmap option_map fst].
  2: { exfalso. apply H0, sum_over_zero. intros k Hk. destruct (active (tenants s) k) eqn:E; [|done].
    exfalso. apply active_true in E as (q & Hq & E). apply (not_elem_of_nil (k, credited q)). rewrite <-Hmax. apply backlogged_elem.
    rewrite lookup_fmap, Hq. split; [done|]. by rewrite (proj1 (credited_items q)). }
  destruct Hmax as [[Hqb Hib]%backlogged_elem Hbest].
  rewrite lookup_fmap in Hqb. apply fmap_Some in Hqb as (q & Hq & ->).
  destruct (credited_items q) as (Hi & Hitems & Hweight). rewrite Hi in Hib.
  rewrite lookup_fmap, Hq. cbn [fmap option_fmap option_map expect lift].
  unfold modify at 1. cbn [items debited]. rewrite Hitems. unfold has_items in Hib.
  destruct (items q) as [|x rest] eqn:Hrest; [done|]. cbn [expect modify].
  split; cbn.
  - intros q' [= <-]%(eq_trans (eq_sym Hq)). by exists rest.
  - by eexists.
  - intros k Hk. pose proof (proj1 (active_true _ _) Hk) as (qk & Hqk & Hik).
    assert (active (tenants s) best = true) as Ha.
    { apply active_true. exists q. split; [done|]. unfold has_items. by rewrite Hrest. }
    pose proof (Hbest (k, credited qk)) as H. cbn [snd] in H.
    rewrite (credited_value s k qk), (credited_value s best q), Hk, Ha in H by done.
    apply H. apply backlogged_elem. rewrite lookup_fmap, Hqk.
    split; [done|]. by rewrite (proj1 (credited_items qk)).
  - intros k. rewrite insert_insert_eq. destruct (decide (k = best)) as [->|Hne].
    + rewrite lookup_insert_eq, Hq. cbn [fmap option_fmap option_map]. f_equal. unfold queue_after.
      rewrite bool_decide_eq_true_2 by done. f_equal; [done| |by rewrite Hrest].
      rewrite <-poll_total by done. apply debited_value; [done..|]. unfold has_items. by rewrite Hrest.
    + rewrite lookup_insert_ne, lookup_fmap by done. destruct (tenants s !! k) as [qk|] eqn:Hqk; [|done].
      cbn [fmap option_fmap option_map]. f_equal. unfold queue_after.
      rewrite bool_decide_eq_false_2 by done. destruct (credited_items qk) as (_ & Hik & Hwk).
      pose proof (credited_value s k qk Hf Hn Hqk) as Hv. destruct (credited qk). cbn in *. subst.
      f_equal. unfold after_round. rewrite bool_decide_eq_false_2 by done. lia.
  - done.
  - done.
Qed.

(** *** Every call keeps the accounts fair *)

Lemma bounded_sets_ext names names' (w w' c c' : string → Z) :
  names ≡ₚ names' → (∀ k, k ∈ names → w k = w' k) → (∀ k, k ∈ names → c k = c' k) →
  bounded_sets names w c → bounded_sets names' w' c'.
Proof.
  intros Hp Hw Hc Hb p. unfold sum_if, count_if. specialize (Hb p). unfold sum_if, count_if in Hb.
  unfold sum_if in Hb |- *. rewrite <-!(sum_over_permutation _ names names' Hp).
  rewrite <-(sum_over_ext w w' names Hw).
  rewrite <-(sum_over_ext (λ a, if p a then c a else 0) (λ a, if p a then c' a else 0) names)
    by (intros k Hk; by rewrite (Hc k Hk)).
  by rewrite <-(Permutation_length Hp).
Qed.

Lemma bounded_sets_perm names names' (w c : string → Z) :
  names ≡ₚ names' → bounded_sets names w c → bounded_sets names' w c.
Proof. intros Hp. by apply bounded_sets_ext. Qed.

Lemma bounded_sets_cons names (w c : string → Z) k :
  (∀ x, x ∈ names → 0 <= w x) → 0 <= w k → c k = 0 →
  bounded_sets names w c → bounded_sets (k :: names) w c.
Proof.
  intros Hw Hk Hc Hb p. specialize (Hb p). pose proof (count_if_bounds p names) as Hn.
  assert (0 <= sum_over w names) as HW by (by apply sum_over_nonneg).
  unfold count_if, sum_if in *. cbn [sum_over length]. rewrite Hc, Nat2Z.inj_succ.
  set (S := sum_over (λ a, if p a then c a else 0) names) in *.
  set (n := sum_over (λ a, if p a then 1 else 0) names) in *.
  set (W := sum_over w names) in *. set (N := Z.of_nat (length names)) in *.
  assert (0 <= n * (N - n)) by (apply Z.mul_nonneg_nonneg; lia).
  destruct (p k).
  - assert (W * (n * (N - n)) <= (w k + W) * ((1 + n) * (Z.succ N - (1 + n)))); [|lia].
    apply Z.mul_le_mono_nonneg; lia.
  - assert (W * (n * (N - n)) <= (w k + W) * ((0 + n) * (Z.succ N - (0 + n)))); [|lia].
    apply Z.mul_le_mono_nonneg; lia.
Qed.

Lemma fair_new n : fair (new n).
Proof.
  split; cbn; try done. lia.
Qed.

Definition submitted s (t : string) (w : Z) (x : T) : FairScheduler T := (submit t w x s).1.

Lemma submitted_lookup s t w x k :
  tenants (submitted s t w x) !! k =
    if bool_decide (k = t) then
      Some {| weight := from_option weight (Z.max w 1) (tenants s !! t);
              current_weight := credit (tenants s) t;
              items := from_option items [] (tenants s !! t) ++ [x] |}
    else tenants s !! k.
Proof.
  unfold submitted, submit, modify. cbn. destruct (decide (k = t)) as [->|Hne].
  - rewrite lookup_insert_eq, bool_decide_eq_true_2 by done. unfold credit. by destruct (tenants s !! t).
  - by rewrite lookup_insert_ne, bool_decide_eq_false_2 by done.
Qed.

(** What later states keep of earlier ones. *)
Definition grows s s' : Prop :=
  all_weights (tenants s) <= all_weights (tenants s') ∧
  (size (tenants s) <= size (tenants s'))%nat ∧
  ∀ k, is_Some (tenants s !! k) →
    is_Some (tenants s' !! k) ∧ share (tenants s') k = share (tenants s) k.

#[local] Instance grows_preorder : PreOrder grows.
Proof.
  split; [by intros s; split_and!|]. intros s1 s2 s3 (W1 & N1 & S1) (W2 & N2 & S2).
  split_and!; [lia..|]. intros k Hk. destruct (S1 k Hk) as [Hk2 <-]. by apply S2.
Qed.

Lemma grows_same s s' :
  (∀ k, is_Some (tenants s' !! k) ↔ is_Some (tenants s !! k)) →
  (∀ k, share (tenants s') k = share (tenants s) k) →
  btree_keys (tenants s') = btree_keys (tenants s) ∧ grows s s'.
Proof.
  intros Hd Hs. assert (btree_keys (tenants s') = btree_keys (tenants s)) as E.
  { apply btree_keys_dom, set_eq. intros k. rewrite !elem_of_dom. apply Hd. }
  split; [done|]. unfold grows, all_weights. rewrite <-!btree_keys_length, E.
  split_and!; [|done|intros k Hk; by rewrite Hd]. apply sum_over_le. intros k _. by rewrite Hs.
Qed.

Lemma submitted_shares s t w x k : is_Some (tenants s !! k) →
  is_Some (tenants (submitted s t w x) !! k) ∧
  share (tenants (submitted s t w x)) k = share (tenants s) k ∧
  credit (tenants (submitted s t w x)) k = credit (tenants s) k.
Proof.
  intros [q Hq]. unfold share, credit. rewrite submitted_lookup. destruct (decide (k = t)) as [->|Hne].
  - rewrite bool_decide_eq_true_2 by done. cbn. unfold credit. rewrite Hq. by split; [eexists|].
  - rewrite bool_decide_eq_false_2, Hq by done. by split; [eexists|].
Qed.

Lemma submitted_keys s t w x :
  btree_keys (tenants (submitted s t w x)) ≡ₚ
    (if tenants s !! t is Some _ then btree_keys (tenants s) else t :: btree_keys (tenants s)).
Proof.
  destruct (tenants s !! t) as [q|] eqn:Ht.
  - apply reflexive_eq, btree_keys_dom, set_eq. intros k. rewrite !elem_of_dom, submitted_lookup.
    destruct (decide (k = t)) as [->|Hne].
    + rewrite bool_decide_eq_true_2, Ht by done. split; by eexists.
    + by rewrite bool_decide_eq_false_2 by done.
  - unfold submitted, submit, modify. cbn. by apply btree_keys_insert_fresh.
Qed.

Lemma fair_submit s t w x : fair s → is_u32 w → fair (submitted s t w x) ∧ grows s (submitted s t w x).
Proof.
  intros Hf Hw. pose proof (submitted_keys s t w x) as Hkeys.
  set (s' := submitted s t w x) in *.
  assert (∀ k, k ∈ btree_keys (tenants s) → share (tenants s) k = share (tenants s') k) as Hsh
    by (intros k Hk%btree_keys_elem; by destruct (submitted_shares s t w x k Hk) as (? & ? & ?)).
  assert (∀ k, k ∈ btree_keys (tenants s) → credit (tenants s) k = credit (tenants s') k) as Hcr
    by (intros k Hk%btree_keys_elem; by destruct (submitted_shares s t w x k Hk) as (? & ? & ?)).
  assert (∀ k q, tenants s' !! k = Some q → 1 <= weight q < 2 ^ 32) as Hweight.
  { intros k q. unfold s'. rewrite submitted_lookup. destruct (bool_decide (k = t)).
    - intros [= <-]. cbn. destruct (tenants s !! t) as [q'|] eqn:Hq'; cbn; [by apply (fair_weight s Hf t)|].
      unfold is_u32, u32_modulus in Hw. lia.
    - by apply (fair_weight s Hf). }
  assert (credit (tenants s') t = credit (tenants s) t) as Ht.
  { unfold credit at 1, s'. rewrite submitted_lookup. by rewrite bool_decide_eq_true_2. }
  assert (0 <= share (tenants s') t) as Hpos.
  { unfold share. destruct (tenants s' !! t) as [q|] eqn:E; cbn; [|lia]. apply Hweight in E. lia. }
  pose proof (bounded_sets_ext _ _ _ _ _ _ (Permutation_refl _) Hsh Hcr (fair_sets s Hf)) as Hb.
  assert (sum_over (credit (tenants s')) (btree_keys (tenants s)) = 0) as H0
    by (by rewrite <-(sum_over_ext _ _ _ Hcr), fair_zero).
  assert (sum_over (share (tenants s')) (btree_keys (tenants s)) = all_weights (tenants s)) as HW
    by (by rewrite <-(sum_over_ext _ _ _ Hsh)).
  destruct (tenants s !! t) as [q|] eqn:Hq.
  - split; [split; [done| | |by apply Hf]|split_and!].
    + by rewrite (sum_over_permutation _ _ _ Hkeys).
    + by apply (bounded_sets_perm _ _ _ _ (symmetry Hkeys)).
    + unfold all_weights at 2. rewrite (sum_over_permutation _ _ _ Hkeys). lia.
    + by rewrite <-!btree_keys_length, Hkeys.
    + intros k Hk. by destruct (submitted_shares s t w x k Hk) as (? & ? & _).
  - assert (credit (tenants s') t = 0) as Hz by (rewrite Ht; unfold credit; by rewrite Hq).
    split; [split; [done| | |by apply Hf]|split_and!].
    + rewrite (sum_over_permutation _ _ _ Hkeys). cbn [sum_over]. lia.
    + apply (bounded_sets_perm _ _ _ _ (symmetry Hkeys)).
      apply bounded_sets_cons; [|done..]. intros k Hk. rewrite <-Hsh by done. by apply share_nonneg.
    + unfold all_weights at 2. rewrite (sum_over_permutation _ _ _ Hkeys). cbn [sum_over]. lia.
    + rewrite <-!btree_keys_length, Hkeys. cbn. lia.
    + intros k Hk. by destruct (submitted_shares s t w x k Hk) as (? & ? & _).
Qed.

Lemma fair_admits s best x s' : fair s → admits s best x s' → fair s' ∧ grows s s'.
Proof.
  intros Hf Ha.
  assert (∀ k, is_Some (tenants s' !! k) ↔ is_Some ((tenants s) !! k)) as Hd.
  { intros k. rewrite (admits_queues s best x s' Ha), fmap_is_Some. done. }
  assert (∀ k, share (tenants s') k = share (tenants s) k) as Hsh.
  { intros k. unfold share. rewrite (admits_queues s best x s' Ha). by destruct (tenants s !! k). }
  destruct (grows_same s s' Hd Hsh) as [Hkeys Hg]. split; [|done].
  assert (∀ k, k ∈ btree_keys (tenants s) →
    after_round (btree_keys (tenants s)) (share (tenants s)) (credit (tenants s)) (active (tenants s)) best k = credit (tenants s') k) as Hcr.
  { intros k Hk%btree_keys_elem. unfold credit at 2. rewrite (admits_queues s best x s' Ha).
    destruct Hk as [q Hq]. by rewrite Hq. }
  assert (best ∈ btree_keys (tenants s)) as Hbest by (apply btree_keys_elem, Ha).
  assert (active (tenants s) best = true) as Hact.
  { destruct (admits_known s best x s' Ha) as [q Hq].
    destruct (admits_item s best x s' Ha q Hq) as [rest Hrest].
    apply active_true. exists q. split; [done|]. unfold has_items. by rewrite Hrest. }
  pose proof (btree_keys_nodup (tenants s)) as Hnd.
  split.
  - intros k q. rewrite (admits_queues s best x s' Ha). intros (q0 & Hq0 & ->)%fmap_Some.
    exact (fair_weight s Hf k q0 Hq0).
  - rewrite Hkeys, <-(sum_over_ext _ _ _ Hcr). apply sum_zero_after_round; [done..|]. by apply Hf.
  - rewrite Hkeys. apply (bounded_sets_ext _ _ (share (tenants s)) _
      _ _ (Permutation_refl _) ltac:(intros k _; by rewrite Hsh) Hcr).
    apply bounded_after_round; [done..| | |by apply Hf].
    + intros k _. by apply share_nonneg.
    + intros k _. apply (admits_best s best x s' Ha).
  - destruct (admits_slot s best x s' Ha). rewrite (admits_max s best x s' Ha).
    pose proof (fair_slots s Hf). lia.
Qed.

Definition completed s : FairScheduler T := (complete s).1.

Lemma fair_complete s : fair s → fair (completed s) ∧ grows s (completed s).
Proof.
  intros Hf. split; [|by split_and!]. split; [apply Hf..|]. unfold completed, complete, modify. cbn.
  pose proof (fair_slots s Hf). unfold u64_saturating_sub. lia.
Qed.

(** *** Induction over a run *)

(** Without a hypothesis: no call removes a tenant. *)
Lemma poll_size s : size (tenants (poll s).1) = size (tenants s).
Proof.
  unfold poll, mbind, M_bind, gets, mret, M_ret, modify. cbn [id].
  destruct (Z.leb _ _); [done|]. destruct (Z.eqb _ 0); [done|].
  destruct (fst <$> _) as [best|]; cbn; [|by rewrite map_size_fmap].
  destruct ((credited <$> tenants s) !! best) as [q|] eqn:Hq; cbn; [|by rewrite map_size_fmap].
  destruct (items q) as [|x rest]; cbn; rewrite ?insert_insert_eq, map_size_insert_Some by (by eexists);
    by rewrite map_size_fmap.
Qed.

Lemma admissions_size calls s : (size (tenants s) <= size (tenants (admissions calls s).1))%nat.
Proof.
  revert s. induction calls as [|[t w x| |] calls IH]; intros s; [done|..];
    cbn [admissions]; unfold mbind, M_bind.
  - etransitivity; [|apply IH]. unfold modify. cbn. destruct (tenants s !! t) as [q|] eqn:Ht.
    + by rewrite map_size_insert_Some by (by eexists).
    + rewrite map_size_insert_None by done. lia.
  - pose proof (poll_size s) as Hp. destruct (poll s) as [s1 [r|st]]; cbn in *; [|lia].
    specialize (IH s1). destruct (admissions calls s1) as [s2 [l|st]]; cbn in *; lia.
  - etransitivity; [|apply IH]. done.
Qed.

Definition call_ok (c : call T) : Prop := match c with Submit _ w _ => is_u32 w | _ => True end.

(** A run from a fair state that ends with no more tenants than the bound
    returns, and is made of submissions, completions, idle polls and
    admissions. *)
Lemma run_ind (P : FairScheduler T → list (call T) → list (string * T) → FairScheduler T → Prop) :
  (∀ s, fair s → P s [] [] s) →
  (∀ s t w x calls l s', fair s → is_u32 w → fair s' → P (submitted s t w x) calls l s' →
    P s (Submit t w x :: calls) l s') →
  (∀ s calls l s', fair s → fair s' → P (completed s) calls l s' → P s (Complete :: calls) l s') →
  (∀ s calls l s', fair s → fair s' → P s calls l s' → P s (Poll :: calls) l s') →
  (∀ s best x s1 calls l s', fair s → admits s best x s1 → fair s1 → fair s' → P s1 calls l s' →
    P s (Poll :: calls) ((best, x) :: l) s') →
  ∀ calls s s' o, Forall call_ok calls → fair s → Z.of_nat (size (tenants s')) <= max_tenants →
    admissions calls s = (s', o) →
    ∃ l, o = Ret l ∧ fair s' ∧ grows s s' ∧ P s calls l s'.
Proof.
  intros Hnil Hsub Hcomp Hidle Hadm calls. induction calls as [|c calls IH]; intros s s' o Hok Hf Hn.
  { intros [= <- <-]. exists []. split_and!; try done; auto. }
  apply Forall_cons in Hok as [Hc Hok]. destruct c as [t w x| |]; cbn [admissions].
  - destruct (fair_submit s t w x Hf Hc) as [Hf1 Hg1]. intros Hr.
    destruct (IH (submitted s t w x) s' o Hok Hf1 Hn Hr) as (l & -> & Hf' & Hg & HP).
    exists l. split_and!; [done|done|by etransitivity|]. by apply Hsub.
  - unfold mbind, M_bind, mret, M_ret. pose proof (poll_size s) as Hsz.
    destruct (poll s) as [s1 op] eqn:Hp. cbn in Hsz. intros Hr.
    assert (Z.of_nat (size (tenants s)) <= max_tenants) as Hn0.
    { rewrite <-Hsz. transitivity (Z.of_nat (size (tenants s'))); [|done].
      pose proof (admissions_size calls s1). destruct op as [r|st]; [|by injection Hr as <- _; lia].
      destruct (admissions calls s1) as [s2 [l|st]]; injection Hr as <- _; cbn in *; lia. }
    pose proof (poll_admits s Hf Hn0) as Ha. rewrite Hp in Ha.
    destruct op as [[[best x]|]|st]; [| |done].
    + destruct (fair_admits s best x s1 Hf Ha) as [Hf1 Hg1].
      destruct (admissions calls s1) as [s2 o2] eqn:Hrest.
      assert (s2 = s') as -> by (by destruct o2; injection Hr).
      destruct (IH s1 s' o2 Hok Hf1 Hn Hrest) as (l & -> & Hf' & Hg & HP). injection Hr as <-.
      exists ((best, x) :: l). split_and!; [done|done|by etransitivity|]. by eapply Hadm.
    + destruct Ha as [-> _]. destruct (admissions calls s) as [s2 o2] eqn:Hrest.
      assert (s2 = s') as -> by (by destruct o2; injection Hr).
      destruct (IH s s' o2 Hok Hf Hn Hrest) as (l & -> & Hf' & Hg & HP). injection Hr as <-.
      exists l. split_and!; [done|done|done|]. by apply Hidle.
  - destruct (fair_complete s Hf) as [Hf1 Hg1]. intros Hr.
    destruct (IH (completed s) s' o Hok Hf1 Hn Hr) as (l & -> & Hf' & Hg & HP).
    exists l. split_and!; [done|done|by etransitivity|]. by apply Hcomp.
Qed.
End accounts.

(** *** Properties *)

Section properties.
Context {T : Type}.
Implicit Types (s : FairScheduler T) (calls : list (call T)) (l : list (string * T)).

(** The states that calls lead to. *)
Definition reachable s : Prop :=
  ∃ n calls l, Forall call_ok calls ∧ admissions calls (new n) = (s, Ret l).

Lemma reachable_fair s : reachable s → Z.of_nat (size (tenants s)) <= max_tenants → fair s.
Proof.
  intros (n & calls & l & Hok & Hr) Hn.
  destruct (run_ind (λ _ _ _ _, True) ltac:(done) ltac:(done) ltac:(done) ltac:(done) ltac:(done)
    calls (new n) s (Ret l) Hok (fair_new n) Hn Hr) as (_ & _ & Hf & _). done.
Qed.

Lemma admits_active s best x s' k : fair s → admits s best x s' → k ≠ best →
  active (tenants s') k = active (tenants s) k.
Proof.
  intros Hf Ha Hk. unfold active. rewrite (admits_queues s best x s' Ha).
  destruct (tenants s !! k) as [q|]; [|done]. cbn [fmap option_fmap option_map from_option].
  unfold queue_after, has_items. cbn. by rewrite bool_decide_eq_false_2.
Qed.

Lemma admits_credit s best x s' k : admits s best x s' → is_Some (tenants s !! k) →
  credit (tenants s') k = credit (tenants s) k + (if active (tenants s) k then share (tenants s) k else 0) -
    (if bool_decide (k = best) then sum_if (active (tenants s)) (share (tenants s)) (btree_keys (tenants s)) else 0).
Proof.
  intros Ha [q Hq]. unfold credit at 1. rewrite (admits_queues s best x s' Ha), Hq. done.
Qed.

Lemma admits_active_before s best x s' k : admits s best x s' →
  active (tenants s') k = true → active (tenants s) k = true.
Proof.
  intros Ha. rewrite !active_true. intros (q & Hq & Hi). rewrite (admits_queues s best x s' Ha) in Hq.
  apply fmap_Some in Hq as (q0 & Hq0 & ->). exists q0. split; [done|].
  revert Hi. unfold has_items. cbn. case_bool_decide; [|done]. by destruct (items q0).
Qed.

Lemma active_known m k : active m k = true → is_Some ((m : gmap string (TenantQueue T)) !! k).
Proof. intros (q & Hq & _)%active_true. by exists q. Qed.

(** While a waiting tenant is passed over, its credit grows by its weight at
    each admission. *)
Lemma passed_over t calls s s' o :
  Forall call_ok calls → fair s → Z.of_nat (size (tenants s')) <= max_tenants →
  admissions calls s = (s', o) →
  ∃ l, o = Ret l ∧ fair s' ∧ grows s s' ∧
    (active (tenants s) t = true → t ∉ l.*1 →
     active (tenants s') t = true ∧
     credit (tenants s') t = credit (tenants s) t + Z.of_nat (length l) * share (tenants s) t).
Proof.
  apply (run_ind (λ s _ l s', active (tenants s) t = true → t ∉ l.*1 →
     active (tenants s') t = true ∧
     credit (tenants s') t = credit (tenants s) t + Z.of_nat (length l) * share (tenants s) t));
    clear s s' o calls.
  - intros s _ Ha _. split; [done|]. cbn. lia.
  - intros s k w x calls l s' _ _ _ IH Ha Hl.
    destruct (submitted_shares s k w x t (active_known _ _ Ha)) as (_ & Hsh & Hc).
    rewrite Hsh, Hc in IH. apply IH; [|done]. apply active_true in Ha as (q & Hq & Hi).
    apply active_true. rewrite submitted_lookup. destruct (decide (t = k)) as [->|Hne].
    + rewrite bool_decide_eq_true_2 by done. eexists. split; [done|]. cbn.
      by destruct (from_option items [] (tenants s !! k)).
    + rewrite bool_decide_eq_false_2 by done. by exists q.
  - intros s calls l s' _ _ IH. exact IH.
  - intros s calls l s' _ _ IH. exact IH.
  - intros s best x s1 calls l s' Hf Hadm Hf1 _ IH Ha [Hne Hl]%not_elem_of_cons.
    assert (active (tenants s1) t = true) as Ha1 by (by rewrite (admits_active s best x s1)).
    destruct (IH Ha1 Hl) as [? ->]. split; [done|].
    destruct (fair_admits s best x s1 Hf Hadm) as [_ (_ & _ & Hsh)].
    destruct (Hsh t (active_known _ _ Ha)) as [_ ->].
    rewrite (admits_credit s best x s1 t Hadm (active_known _ _ Ha)), Ha.
    rewrite bool_decide_eq_false_2 by done. cbn [length]. lia.
Qed.

Lemma grows_bound s s' : fair s → Z.of_nat (size (tenants s')) <= max_tenants → grows s s' →
  1 <= Z.of_nat (size (tenants s)) →
  all_weights (tenants s) * (Z.of_nat (size (tenants s)) - 1) <=
  all_weights (tenants s') * (Z.of_nat (size (tenants s')) - 1).
Proof.
  intros Hf Hn (HW & Hsz & _) H1. pose proof (all_weights_bound s Hf ltac:(lia)).
  apply Z.mul_le_mono_nonneg; lia.
Qed.

Lemma active_key s k : active (tenants s) k = true →
  k ∈ btree_keys (tenants s) ∧ 1 <= Z.of_nat (size (tenants s)).
Proof.
  intros Hk. assert (k ∈ btree_keys (tenants s)) as Hin by by apply btree_keys_elem, active_known.
  split; [done|]. rewrite <-btree_keys_length.
  destruct (btree_keys (tenants s)); [by apply not_elem_of_nil in Hin|]. cbn. lia.
Qed.

(** No tenant starves.  Whatever calls led to a state of the scheduler and
    whatever calls follow, arrivals and departures of other tenants included: as
    long as a tenant with queued work is passed over, the number of admissions
    times its weight stays below the total weight times the number of other
    tenants.  (Of up to 65535 tenants, which is what keeps the [i64] credits from
    wrapping around; no call panics.) *)
Theorem no_starvation t calls s s' o :
  reachable s → Forall call_ok calls → admissions calls s = (s', o) →
  Z.of_nat (size (tenants s')) <= max_tenants →
  ∃ l, o = Ret l ∧
    (active (tenants s) t = true → t ∉ l.*1 →
     Z.of_nat (length l) * share (tenants s) t <=
       all_weights (tenants s') * (Z.of_nat (size (tenants s')) - 1)).
Proof.
  intros Hs Hok Hr Hn. pose proof (admissions_size calls s) as Hsz. rewrite Hr in Hsz. cbn in Hsz.
  pose proof (reachable_fair s Hs ltac:(lia)) as Hf.
  destruct (passed_over t calls s s' o Hok Hf Hn Hr) as (l & -> & Hf' & Hg & Hl).
  exists l. split; [done|]. intros Ha Hnot. destruct (Hl Ha Hnot) as [Ha' Hc].
  destruct (active_key s t Ha) as [Hk H1]. destruct (active_key s' t Ha') as [Hk' _].
  pose proof (credit_bound s t Hf Hk). pose proof (credit_bound s' t Hf' Hk').
  pose proof (grows_bound s s' Hf Hn Hg H1). lia.
Qed.

Definition queue_of s (t : string) : list T := from_option items [] (tenants s !! t).

(** The scheduler is a bounded queue per tenant: what was submitted for a
    tenant is what was admitted from it, in order, followed by what still waits;
    the slots in use stay within the bound; and a poll comes back empty only
    when every slot is taken or nothing waits. *)
Theorem scheduler_keeps_order n calls s' o :
  Forall call_ok calls → admissions calls (new n) = (s', o) →
  Z.of_nat (size (tenants s')) <= max_tenants →
  ∃ l, o = Ret l ∧
    (∀ t, submitted_to t calls = admitted_from t l ++ queue_of s' t) ∧
    0 <= in_flight s' <= max_in_flight s' ∧
    match poll s' with
    | (s'', Ret None) => s'' = s' ∧ (max_in_flight s' <= in_flight s' ∨ ∀ t, queue_of s' t = [])
    | (s'', Ret (Some (t, x))) => ∃ rest, queue_of s' t = x :: rest
    | (_, Stop _) => False
    end.
Proof.
  intros Hok Hr Hn.
  destruct (run_ind (λ s calls l s', ∀ t, queue_of s t ++ submitted_to t calls = admitted_from t l ++ queue_of s' t))
    with (calls := calls) (s := new (T := T) n) (s' := s') (o := o) as (l & -> & Hf' & _ & Hq); try done.
  - intros s _ t. cbn. by rewrite app_nil_r.
  - intros s k w x cs l s1 _ _ _ IH t. rewrite <-IH. unfold queue_of. rewrite submitted_lookup.
    cbn. destruct (decide (t = k)) as [->|Hne].
    + rewrite bool_decide_eq_true_2, String.eqb_refl by done. cbn. by rewrite <-app_assoc.
    + rewrite bool_decide_eq_false_2 by done. apply String.eqb_neq in Hne. by rewrite Hne.
  - intros s best x s1 cs l s2 Hf Ha _ _ IH t. unfold admitted_from. cbn [List.filter fst].
    unfold queue_of. destruct (decide (t = best)) as [->|Hne].
    + rewrite String.eqb_refl. cbn. unfold admitted_from, queue_of in IH. rewrite <-IH.
      destruct (admits_known s best x s1 Ha) as [q Hq]. rewrite Hq. cbn.
      destruct (admits_item s best x s1 Ha q Hq) as [rest Hrest].
      rewrite (admits_queues s best x s1 Ha), Hq. cbn. rewrite Hrest, bool_decide_eq_true_2 by done. done.
    + pose proof (proj2 (String.eqb_neq t best) Hne) as ->. unfold admitted_from, queue_of in IH. rewrite <-IH.
      rewrite (admits_queues s best x s1 Ha). destruct (tenants s !! t); cbn; [|done].
      by rewrite bool_decide_eq_false_2.
  - apply fair_new.
  - exists l. split; [done|]. split; [intros t; by rewrite <-Hq|]. split; [apply Hf'|].
    pose proof (poll_admits s' Hf' Hn) as Hp. destruct (poll s') as [s'' [[[t x]|]|st]]; [| |done].
    + destruct (admits_known s' t x s'' Hp) as [q Hq']. unfold queue_of. rewrite Hq'.
      by apply (admits_item s' t x s'' Hp).
    + destruct Hp as [-> [Hp|Hp]]; [by auto|]. split; [done|]. right. intros t. specialize (Hp t).
      unfold queue_of. unfold active in Hp. destruct (tenants s' !! t) as [q|]; [|done]. cbn in *.
      unfold has_items in Hp. by destruct (items q).
Qed.

Definition is_submit (c : call T) : bool := match c with Submit _ _ _ => true | _ => false end.
Definition times_admitted (t : string) l : Z := Z.of_nat (length (admitted_from t l)).

(** Between two states with the same tenants waiting, the credits are the
    entitlements less the admissions. *)
Lemma credits_balance calls s s' o :
  Forall call_ok calls → fair s → Z.of_nat (size (tenants s')) <= max_tenants →
  admissions calls s = (s', o) →
  ∃ l, o = Ret l ∧ fair s' ∧ grows s s' ∧
    (existsb is_submit calls = false →
     (∀ k, active (tenants s') k = true → active (tenants s) k = true) ∧
     ((∀ k, active (tenants s) k = true → active (tenants s') k = true) →
      let total := sum_if (active (tenants s)) (share (tenants s)) (btree_keys (tenants s)) in
      ∀ k, active (tenants s) k = true →
        credit (tenants s') k = credit (tenants s) k + Z.of_nat (length l) * share (tenants s) k -
          times_admitted k l * total)).
Proof.
  apply (run_ind (λ s calls l s', existsb is_submit calls = false →
     (∀ k, active (tenants s') k = true → active (tenants s) k = true) ∧
     ((∀ k, active (tenants s) k = true → active (tenants s') k = true) →
      let total := sum_if (active (tenants s)) (share (tenants s)) (btree_keys (tenants s)) in
      ∀ k, active (tenants s) k = true →
        credit (tenants s') k = credit (tenants s) k + Z.of_nat (length l) * share (tenants s) k -
          times_admitted k l * total)));
    clear s s' o calls.
  - intros s _ _. split; [done|]. intros _ total k _. change (times_admitted k []) with 0. cbn [length]. lia.
  - done.
  - intros s calls l s' _ _ IH. exact IH.
  - intros s calls l s' _ _ IH. exact IH.
  - intros s best x s1 calls l s' Hf Ha Hf1 _ IH Hno. destruct (IH Hno) as [Hback Heq].
    assert (∀ k, active (tenants s1) k = true → active (tenants s) k = true) as Hb1
      by (intros k; by eapply admits_active_before).
    split; [by auto|]. intros Hstay total k Hk.
    assert (∀ k, active (tenants s1) k = active (tenants s) k) as Hsame.
    { intros i. destruct (active (tenants s) i) eqn:E; [by apply Hback, Hstay|].
      destruct (active (tenants s1) i) eqn:E1; [|done]. apply Hb1 in E1. by rewrite E1 in E. }
    destruct (fair_admits s best x s1 Hf Ha) as [_ (_ & _ & Hsh)].
    destruct (grows_same s s1) as [Hkeys _].
    { intros i. rewrite (admits_queues s best x s1 Ha). by rewrite fmap_is_Some. }
    { intros i. unfold share. rewrite (admits_queues s best x s1 Ha). by destruct (tenants s !! i). }
    rewrite (Heq ltac:(intros i Hi; apply Hstay, Hb1, Hi)) by (by rewrite Hsame).
    rewrite Hkeys. assert (sum_if (active (tenants s1)) (share (tenants s1)) (btree_keys (tenants s)) = total) as ->.
    { apply sum_over_ext. intros i Hi%btree_keys_elem. rewrite Hsame. by destruct (Hsh i Hi) as [_ ->]. }
    destruct (Hsh k (active_known _ _ Hk)) as [_ ->].
    rewrite (admits_credit s best x s1 k Ha (active_known _ _ Hk)), Hk. fold total.
    unfold times_admitted, admitted_from. cbn [List.filter fst length].
    destruct (decide (k = best)) as [->|Hne].
    + rewrite bool_decide_eq_true_2, String.eqb_refl by done. cbn [fmap list_fmap length]. lia.
    + rewrite bool_decide_eq_false_2 by done. apply String.eqb_neq in Hne. rewrite Hne. lia.
Qed.

(** Shares are proportional to the weights.  While the same tenants wait, each
    one's number of admissions is its weight's part of all admissions, up to a
    constant that does not depend on how long this goes on. *)
Theorem proportional_shares calls s s' o :
  reachable s → existsb is_submit calls = false → admissions calls s = (s', o) →
  Z.of_nat (size (tenants s')) <= max_tenants →
  ∃ l, o = Ret l ∧
    ((∀ k, active (tenants s) k = true → active (tenants s') k = true) →
     let total := sum_if (active (tenants s)) (share (tenants s)) (btree_keys (tenants s)) in
     ∀ t, active (tenants s) t = true →
       Z.abs (times_admitted t l * total - Z.of_nat (length l) * share (tenants s) t) <=
         all_weights (tenants s') * (Z.of_nat (size (tenants s')) - 1)).
Proof.
  intros Hs Hno Hr Hn. pose proof (admissions_size calls s) as Hsz. rewrite Hr in Hsz. cbn in Hsz.
  pose proof (reachable_fair s Hs ltac:(lia)) as Hf.
  assert (Forall call_ok calls) as Hok.
  { clear -Hno. induction calls as [|[] calls IH]; try done; constructor; (done || by apply IH). }
  destruct (credits_balance calls s s' o Hok Hf Hn Hr) as (l & -> & Hf' & Hg & Hl).
  exists l. split; [done|]. intros Hstay total t Ht. destruct (Hl Hno) as [_ Heq].
  specialize (Heq Hstay t Ht). fold total in Heq.
  destruct (active_key s t Ht) as [Hk H1]. destruct (active_key s' t (Hstay t Ht)) as [Hk' _].
  pose proof (credit_bound s t Hf Hk). pose proof (credit_bound s' t Hf' Hk').
  pose proof (grows_bound s s' Hf Hn Hg H1). lia.
Qed.
End properties.

(** *** Two tenants, one twice as heavy *)

Definition busy_example : FairScheduler Z :=
  (admissions [Submit "a" 2 1; Submit "a" 2 2; Submit "a" 2 3; Submit "b" 1 4; Submit "b" 1 5] (new 10)).1.

Lemma busy_reachable : reachable busy_example.
Proof.
  exists 10, [Submit "a" 2 1; Submit "a" 2 2; Submit "a" 2 3; Submit "b" 1 4; Submit "b" 1 5], [].
  split; [by repeat constructor|]. vm_compute. reflexivity.
Qed.

Lemma no_starvation_witness :
  ∃ l, (admissions [Poll] busy_example).2 = Ret l ∧ l = [("a", 1)] ∧
    (active (tenants busy_example) "b" = true → "b" ∉ l.*1 →
     Z.of_nat (length l) * share (tenants busy_example) "b" <=
       all_weights (tenants (admissions [Poll] busy_example).1) *
       (Z.of_nat (size (tenants (admissions [Poll] busy_example).1)) - 1)).
Proof.
  destruct (no_starvation "b" [Poll] busy_example (admissions [Poll] busy_example).1
    (admissions [Poll] busy_example).2 busy_reachable ltac:(by repeat constructor)
    (surjective_pairing _) ltac:(vm_compute; discriminate)) as (l & Hl & H).
  exists l. split; [exact Hl|]. split; [|exact H]. injection Hl as <-. vm_compute. reflexivity.
Defined.
