(* ===== verification/Cron.v ===== *)
(** * Cron expressions

    [crates/wovyr-workflow/src/cron.rs]: the parser into bit masks, the civil
    calendar, and the search for the next fire time. *)
From stdpp Require Import base tactics list numbers strings.
From Stdlib Require Import Lia ZArith Ascii.
From S2P Require Import Prelude.
From S2P Require Import RustStr.
From S2P Require Import Common.
Local Open Scope Z_scope.

Definition MAX_LOOKAHEAD_MINUTES : Z := 4 * 366 * 24 * 60.

Record Cron := {
  minutes : Z;
  hours : Z;
  doms : Z;
  months : Z;
  dows : Z;
  dom_restricted : bool;
  dow_restricted : bool;
}.

Definition MONTH_NAMES : list string :=
  ["jan"; "feb"; "mar"; "apr"; "may"; "jun"; "jul"; "aug"; "sep"; "oct"; "nov"; "dec"].
Definition DOW_NAMES : list string := ["sun"; "mon"; "tue"; "wed"; "thu"; "fri"; "sat"].

(** ** Parsing *)

(** [Iterator::position] *)
Fixpoint position (x : string) (l : list string) : option Z :=
  match l with
  | [] => None
  | y :: l => if String.eqb y x then Some 0 else Z.succ <$> position x l
  end.

Definition parse_value (token : string) (names : option (list string)) (min max : Z) : result Z :=
  match parse_u32 token with
  | Some n => Ok n
  | None =>
    let bad := Err (Invalid ("invalid cron value `" +:+ token +:+ "` (expected " +:+ show_Z min
                             +:+ "..=" +:+ show_Z max +:+ " or a name)")) in
    match names with
    | Some names =>
      match position (to_ascii_lowercase token) names with
      | Some idx => Ok (idx + Z.min min 1)
      | None => bad
      end
    | None => bad
    end
  end.

(** One part of a field: its bounds and its step. *)
Definition parse_part (names : option (list string)) (min max : Z) (part : string)
    : result (Z * Z * Z) :=
  let part := trim part in
  '(range_part, step) ←
    match split_once "/" part with
    | Some (r, s) =>
      match parse_u32 s with
      | None => Err (Invalid ("invalid cron step `" +:+ s +:+ "`"))
      | Some step =>
        if Z.eqb step 0 then Err (Invalid "cron step must be > 0") else Ok (trim r, step)
      end
    | None => Ok (part, 1)
    end;
  '(lo, hi) ←
    (if String.eqb range_part "*" then Ok (min, max)
     else
       match split_once "-" range_part with
       | Some (a, b) =>
         lo ← parse_value (trim a) names min max;
         hi ← parse_value (trim b) names min max;
         Ok (lo, hi)
       | None => v ← parse_value range_part names min max; Ok (v, v)
       end);
  if Z.ltb lo min || Z.ltb max hi || Z.ltb hi lo then
    Err (Invalid ("cron value out of range or inverted in `" +:+ part +:+ "` (expected "
                  +:+ show_Z min +:+ "..=" +:+ show_Z max +:+ ")"))
  else Ok (lo, hi, step).

(** The loop that sets the bits [v], [v + step], ... up to [hi]; the addition is
    a [u32]'s. *)
Fixpoint mark (fuel : nat) (v hi step mask : Z) : option Z :=
  match fuel with
  | O => None
  | S fuel =>
    if Z.leb v hi
    then mark fuel (u32_wrapping_add v step) hi step (Z.lor mask (Z.shiftl 1 v))
    else Some mask
  end.

(** More iterations than there are values in a field: a step moves up, or,
    when it wraps around, down. *)
Definition mark_fuel : nat := 130.

(** [None] when the fuel does not last: it does ([CronInv.parse_field_total]). *)
Fixpoint parse_parts (names : option (list string)) (min max : Z) (parts : list string) (mask : Z)
    : option (result Z) :=
  match parts with
  | [] => Some (Ok mask)
  | part :: parts =>
    match parse_part names min max part with
    | Err e => Some (Err e)
    | Ok (lo, hi, step) =>
      mask ← mark mark_fuel lo hi step mask;
      parse_parts names min max parts mask
    end
  end.

Definition parse_field (spec : string) (min max : Z) (names : option (list string))
    : option (result Z) :=
  let spec := trim spec in
  if is_empty spec then Some (Err (Invalid "empty cron field"))
  else parse_parts names min max (split_char ","%char spec) 0.

Definition normalize (expr : string) : string :=
  let lower := to_ascii_lowercase expr in
  if String.eqb lower "@hourly" then "0 * * * *"
  else if String.eqb lower "@daily" || String.eqb lower "@midnight" then "0 0 * * *"
  else if String.eqb lower "@weekly" then "0 0 * * 0"
  else if String.eqb lower "@monthly" then "0 0 1 * *"
  else if String.eqb lower "@yearly" || String.eqb lower "@annually" then "0 0 1 1 *"
  else expr.

(** Sequencing of results that a loop may not deliver. *)
Definition and_then {A B} (x : option (result A)) (k : A → option (result B)) : option (result B) :=
  match x with
  | None => None
  | Some (Err e) => Some (Err e)
  | Some (Ok a) => k a
  end.

Definition parse (expr : string) : option (result Cron) :=
  let expr := trim expr in
  let fields := split_whitespace (normalize expr) in
  match fields with
  | [f0; f1; f2; f3; f4] =>
    and_then (parse_field f0 0 59 None) (λ minutes,
    and_then (parse_field f1 0 23 None) (λ hours,
    and_then (parse_field f2 1 31 None) (λ doms,
    and_then (parse_field f3 1 12 (Some MONTH_NAMES)) (λ months,
    and_then (parse_field f4 0 7 (Some DOW_NAMES)) (λ dows,
    let dows := if Z.eqb (Z.land dows (Z.shiftl 1 7)) 0 then dows
                else Z.lor (Z.ldiff dows (Z.shiftl 1 7)) 1 in
    Some (Ok {| minutes := minutes; hours := hours; doms := doms; months := months; dows := dows;
                dom_restricted := negb (String.eqb (trim f2) "*");
                dow_restricted := negb (String.eqb (trim f4) "*") |}))))))
  | _ =>
    Some (Err (Invalid ("cron expression must have 5 fields (got "
      +:+ show_Z (Z.of_nat (length fields)) +:+ "): `" +:+ expr +:+ "`")))
  end.

(** ** The calendar *)

(** Days since 1970-01-01 to (year, month, day). *)
Definition civil_from_days (z : Z) : Z * Z * Z :=
  let z := z + 719468 in
  let era := Z.quot (if Z.leb 0 z then z else z - 146096) 146097 in
  let doe := z - era * 146097 in
  let yoe := (doe - doe / 1460 + doe / 36524 - doe / 146096) / 365 in
  let y := yoe + era * 400 in
  let doy := doe - (365 * yoe + yoe / 4 - yoe / 100) in
  let mp := (5 * doy + 2) / 153 in
  let d := doy - (153 * mp + 2) / 5 + 1 in
  let m := if Z.ltb mp 10 then mp + 3 else mp - 9 in
  (if Z.leb m 2 then y + 1 else y, m, d).

Record civil := { c_year : Z; c_month : Z; c_day : Z; c_hour : Z; c_minute : Z; c_weekday : Z }.

Definition civil_fields (epoch_secs : Z) : civil :=
  let days := epoch_secs / 86400 in
  let rem := epoch_secs mod 86400 in
  let '(year, month, day) := civil_from_days days in
  {| c_year := year; c_month := month; c_day := day;
     c_hour := rem / 3600; c_minute := rem mod 3600 / 60;
     c_weekday := (days mod 7 + 4) mod 7 |}.

(** ** The next fire time *)

Definition has_bit (mask v : Z) : bool := negb (Z.eqb (Z.land mask (Z.shiftl 1 v)) 0).

Definition matches (c : Cron) (month day dow hour minute : Z) : bool :=
  if negb (has_bit (minutes c) minute) || negb (has_bit (hours c) hour)
     || negb (has_bit (months c) month)
  then false
  else
    let dom_ok := has_bit (doms c) day in
    let dow_ok := has_bit (dows c) dow in
    match dom_restricted c, dow_restricted c with
    | true, true => dom_ok || dow_ok
    | true, false => dom_ok
    | false, true => dow_ok
    | false, false => true
    end.

Fixpoint scan (fuel : nat) (c : Cron) (minute_idx : Z) : option Z :=
  match fuel with
  | O => None
  | S fuel =>
    let f := civil_fields (u64_wrapping_mul minute_idx 60) in
    if matches c (c_month f) (c_day f) (c_weekday f) (c_hour f) (c_minute f)
    then Some (u64_wrapping_mul minute_idx 60000)
    else scan fuel c (minute_idx + 1)
  end.

Definition next_after (c : Cron) (after_ms : Z) : option Z :=
  scan (Z.to_nat MAX_LOOKAHEAD_MINUTES) c (after_ms / 60000 + 1).

Example next_quarter : (and_then (parse "*/15 9-17 * jan-mar MON,Fri") (λ c, Some (Ok (next_after c 0))))
  = Some (Ok (Some 118800000)).
Proof. by vm_compute. Qed.
