(* ===== verification/CronInv.v ===== *)
(** * Cron against a calendar

    The civil-date algorithm is the Gregorian calendar, a field's mask is the
    set its text denotes, and the search finds the next matching minute. *)
From stdpp Require Import base tactics list numbers strings.
From Stdlib Require Import Lia ZArith Ascii.
From S2P Require Import Prelude.
From S2P Require Import RustStr.
From S2P Require Import Common.
From S2P Require Import Cron.
Local Open Scope Z_scope.

(** ** The Gregorian calendar, day by day *)

Definition leap (y : Z) : bool :=
  Z.eqb (y mod 4) 0 && (negb (Z.eqb (y mod 100) 0) || Z.eqb (y mod 400) 0).

Definition month_length (y m : Z) : Z :=
  if Z.eqb m 2 then (if leap y then 29 else 28)
  else if Z.eqb m 4 || Z.eqb m 6 || Z.eqb m 9 || Z.eqb m 11 then 30
  else 31.

Definition next_day (date : Z * Z * Z) : Z * Z * Z :=
  let '(y, m, d) := date in
  if Z.ltb d (month_length y m) then (y, m, d + 1)
  else if Z.ltb m 12 then (y, m + 1, 1)
  else (y + 1, 1, 1).

(** ** The algorithm's years and months

    Both start in March: year [y] of an era of 400 years starts on day
    [start y] of the era, and day [doy] of a year falls in month [month doy]. *)

Definition start (y : Z) : Z := 365 * y + y / 4 - y / 100 + y / 400.
Definition year_of (doe : Z) : Z := (doe - doe / 1460 + doe / 36524 - doe / 146096) / 365.
Definition month_day (doy : Z) : Z * Z :=
  let mp := (5 * doy + 2) / 153 in
  (if Z.ltb mp 10 then mp + 3 else mp - 9, doy - (153 * mp + 2) / 5 + 1).

(** A property of all numbers below a bound, by evaluation. *)
Fixpoint all_below (n : nat) (f : Z → bool) : bool :=
  match n with O => true | S n => f (Z.of_nat n) && all_below n f end.
Lemma all_below_spec n f : all_below n f = true → ∀ z, 0 <= z < Z.of_nat n → f z = true.
Proof.
  induction n as [|n IH]; intros H z Hz; [lia|]. simpl in H. apply andb_prop in H as [Hn H].
  destruct (decide (z = Z.of_nat n)) as [->|Hne]; [done|]. apply IH; [done|lia].
Qed.

(** Dividing does not move further apart. *)
Lemma div_lipschitz n a b : 0 < n → a <= b → b / n <= a / n + (b - a).
Proof.
  intros Hn Hab. transitivity ((a + (b - a) * n) / n).
  - apply Z.div_le_mono; nia.
  - rewrite Z.div_add by lia. lia.
Qed.

Lemma year_of_mono a b : 0 <= a → a <= b → b <= 146095 → year_of a <= year_of b.
Proof.
  intros Ha Hab Hb. unfold year_of. apply Z.div_le_mono; [lia|].
  rewrite !(Z.div_small _ 146096) by lia.
  pose proof (div_lipschitz 1460 a b ltac:(lia) Hab).
  assert (a / 36524 <= b / 36524) by (apply Z.div_le_mono; lia). lia.
Qed.

(** The last day of year [y] of an era; the 400th is one day longer. *)
Definition year_end (y : Z) : Z := start (y + 1) - 1.

Definition year_bounds_ok (y : Z) : bool :=
  Z.eqb (year_of (start y)) y && Z.eqb (year_of (Z.min (year_end y) 146095)) y &&
  Z.eqb (year_end y - start y) (if leap (y + 1) then 365 else 364).

Lemma year_bounds y : 0 <= y < 400 → year_bounds_ok y = true.
Proof. apply (all_below_spec 400). by vm_compute. Qed.

Lemma start_mono a b : 0 <= a → a <= b → start a <= start b.
Proof.
  intros Ha Hab. unfold start.
  pose proof (div_lipschitz 100 a b ltac:(lia) Hab).
  assert (a / 4 <= b / 4) by (apply Z.div_le_mono; lia).
  assert (a / 400 <= b / 400) by (apply Z.div_le_mono; lia). lia.
Qed.

Lemma year_of_unique y doe : 0 <= y < 400 → start y <= doe <= year_end y → year_of doe = y.
Proof.
  intros Hy Hdoe. pose proof (year_bounds y Hy) as Hb. unfold year_bounds_ok in Hb.
  apply andb_prop in Hb as [Hb _]. apply andb_prop in Hb as [Hs%Z.eqb_eq He%Z.eqb_eq].
  pose proof (start_mono 0 y ltac:(lia) ltac:(lia)) as H0. change (start 0) with 0 in H0.
  pose proof (start_mono (y + 1) 400 ltac:(lia) ltac:(lia)) as H4. change (start 400) with 146097 in H4.
  unfold year_end in *.
  destruct (decide (doe <= 146095)) as [Hle|Hgt].
  - pose proof (year_of_mono (start y) doe ltac:(lia) ltac:(lia) Hle).
    pose proof (year_of_mono doe (Z.min (start (y + 1) - 1) 146095) ltac:(lia) ltac:(lia) ltac:(lia)).
    lia.
  - assert (doe = 146096) as -> by lia.
    rewrite Z.min_r in He by lia. by rewrite <- He.
Qed.

Lemma year_exists doe n :
  0 <= doe < start (Z.of_nat n) → ∃ y, 0 <= y < Z.of_nat n ∧ start y <= doe <= year_end y.
Proof.
  induction n as [|n IH]; intros Hdoe; [change (start (Z.of_nat 0)) with 0 in Hdoe; lia|].
  destruct (decide (doe < start (Z.of_nat n))) as [Hlt|Hge].
  - destruct IH as (y & ? & ?); [lia|]. exists y. split; [lia|done].
  - exists (Z.of_nat n). split; [lia|]. unfold year_end.
    replace (Z.of_nat n + 1) with (Z.of_nat (S n)) by lia. lia.
Qed.

(** *** Months of a year that starts in March *)

(** One day on, within a year: February apart, the month's length decides; and
    February's days are 337 to 365. *)
Definition month_step_ok (doy : Z) : bool :=
  let '(m, d) := month_day doy in
  if Z.eqb m 2 then Z.eqb d (doy - 336) && Z.leb 337 doy && bool_decide (month_day (doy + 1) = (2, d + 1))
  else Z.ltb doy 337 && bool_decide (month_day (doy + 1) =
    (if Z.ltb d (month_length 2001 m) then (m, d + 1) else if Z.ltb m 12 then (m + 1, 1) else (1, 1))).

Lemma month_step doy : 0 <= doy < 366 → month_step_ok doy = true.
Proof. apply (all_below_spec 366). by vm_compute. Qed.

(** Day [doy] of year [y] of an era, as a calendar date. *)
Definition date_of (era y doy : Z) : Z * Z * Z :=
  let '(m, d) := month_day doy in
  (if Z.leb m 2 then y + era * 400 + 1 else y + era * 400, m, d).

Lemma civil_date_of era y doy :
  0 <= era → 0 <= y < 400 → 0 <= doy <= year_end y - start y →
  civil_from_days (era * 146097 + start y + doy - 719468) = date_of era y doy.
Proof.
  intros He Hy Hd.
  pose proof (start_mono 0 y ltac:(lia) ltac:(lia)) as H0. change (start 0) with 0 in H0.
  pose proof (start_mono (y + 1) 400 ltac:(lia) ltac:(lia)) as H4. change (start 400) with 146097 in H4.
  unfold year_end in Hd. unfold civil_from_days.
  set (x := era * 146097 + start y + doy - 719468 + 719468).
  assert (x = (start y + doy) + era * 146097) as Hx by (unfold x; lia).
  assert (0 <= start y + doy < 146097) as Hr by lia.
  rewrite (proj2 (Z.leb_le 0 x)) by lia. rewrite Z.quot_div_nonneg by lia.
  assert (x / 146097 = era) as -> by (rewrite Hx, Z.div_add, Z.div_small by lia; lia).
  replace (x - era * 146097) with (start y + doy) by lia.
  change ((start y + doy - (start y + doy) / 1460 + (start y + doy) / 36524
    - (start y + doy) / 146096) / 365) with (year_of (start y + doy)).
  rewrite (year_of_unique y) by (unfold year_end; lia).
  replace (start y + doy - (365 * y + y / 4 - y / 100)) with doy.
  2: { unfold start. rewrite (Z.div_small y 400) by lia. lia. }
  unfold date_of, month_day. done.
Qed.

(** Equality of dates, component by component. *)
Ltac date_eq := repeat apply (f_equal2 pair); lia.

Lemma leap_era y era : leap (y + era * 400) = leap y.
Proof.
  unfold leap. replace (y + era * 400) with (y + (era * 100) * 4) at 1 by lia.
  replace (y + era * 400) with (y + (era * 4) * 100) at 1 by lia.
  by rewrite !Z.mod_add by lia.
Qed.

Lemma date_next era y doy :
  0 <= era → 0 <= y < 400 → 0 <= doy <= year_end y - start y →
  next_day (date_of era y doy) =
    if Z.ltb doy (year_end y - start y) then date_of era y (doy + 1)
    else if Z.ltb y 399 then date_of era (y + 1) 0
    else date_of (era + 1) 0 0.
Proof.
  intros He Hy Hd. pose proof (year_bounds y Hy) as Hb. unfold year_bounds_ok in Hb.
  apply andb_prop in Hb as [_ Hlen%Z.eqb_eq].
  assert (0 <= doy < 366) as Hd' by (destruct (leap (y + 1)); lia).
  pose proof (month_step doy Hd') as Hm. unfold month_step_ok in Hm. unfold date_of.
  destruct (month_day doy) as [m d] eqn:Hmd.
  rewrite Hlen. destruct (Z.eqb_spec m 2) as [->|Hm2].
  - apply andb_prop in Hm as [Hm Hnext%bool_decide_eq_true].
    apply andb_prop in Hm as [Hdd%Z.eqb_eq Hge%Z.leb_le].
    rewrite Hnext. change (month_day 0) with (3, 1). cbn [next_day Z.leb Z.compare Pos.compare Pos.compare_cont].
    unfold month_length. cbn [Z.eqb Pos.eqb]. change (2 <=? 2) with true. change (3 <=? 2) with false.
    change (2 <? 12) with true. cbn [next_day].
    replace (y + era * 400 + 1) with (y + 1 + era * 400) by lia. rewrite leap_era.
    destruct (leap (y + 1)).
    + destruct (Z.ltb_spec d 29), (Z.ltb_spec doy 365); try lia; [date_eq|].
      destruct (Z.ltb_spec y 399); date_eq.
    + destruct (Z.ltb_spec d 28), (Z.ltb_spec doy 364); try lia; [date_eq|].
      destruct (Z.ltb_spec y 399); date_eq.
  - apply andb_prop in Hm as [Hlt%Z.ltb_lt Hnext%bool_decide_eq_true].
    rewrite (proj2 (Z.ltb_lt doy (if leap (y + 1) then 365 else 364))) by (destruct (leap (y + 1)); lia).
    rewrite Hnext. cbn [next_day].
    assert (∀ y', month_length y' m = month_length 2001 m) as Hml.
    { intros y'. unfold month_length. by rewrite (proj2 (Z.eqb_neq m 2)). }
    rewrite Hml. destruct (d <? month_length 2001 m); [done|].
    destruct (Z.ltb_spec m 12), (Z.leb_spec m 2); cbv beta iota; try lia;
      try (destruct (Z.leb_spec (m + 1) 2); try lia); change (1 <=? 2) with true;
      cbv beta iota; first [reflexivity|date_eq].
Qed.

Lemma date_exists z :
  0 <= z → ∃ era y doy, 0 <= era ∧ 0 <= y < 400 ∧ 0 <= doy <= year_end y - start y ∧
    z = era * 146097 + start y + doy - 719468.
Proof.
  intros Hz. set (x := z + 719468). pose proof (Z.mod_pos_bound x 146097 ltac:(lia)) as Hm.
  destruct (year_exists (x mod 146097) 400) as (y & Hy & Hs).
  { change (start (Z.of_nat 400)) with 146097. lia. }
  exists (x / 146097), y, (x mod 146097 - start y). split; [apply Z.div_pos; lia|].
  split; [lia|]. split; [lia|]. pose proof (Z.div_mod x 146097 ltac:(lia)). lia.
Qed.

Lemma civil_next z : 0 <= z → civil_from_days (z + 1) = next_day (civil_from_days z).
Proof.
  intros Hz. destruct (date_exists z Hz) as (era & y & doy & He & Hy & Hd & ->).
  rewrite civil_date_of, date_next by done.
  pose proof (start_mono y (y + 1) ltac:(lia) ltac:(lia)) as Hmono.
  destruct (Z.ltb_spec doy (year_end y - start y)).
  - rewrite <- civil_date_of by lia. f_equal. lia.
  - unfold year_end in *. destruct (Z.ltb_spec y 399).
    + rewrite <- civil_date_of; try lia; [f_equal; lia|].
      pose proof (start_mono (y + 1) (y + 1 + 1) ltac:(lia) ltac:(lia)).
      pose proof (year_bounds (y + 1) ltac:(lia)) as Hb. unfold year_bounds_ok in Hb.
      apply andb_prop in Hb as [_ Hlen%Z.eqb_eq]. rewrite Hlen. destruct (leap _); lia.
    + assert (y = 399) as -> by lia. rewrite <- civil_date_of; [|lia..|].
      * f_equal. change (start (399 + 1)) with 146097 in *. change (start 0) with 0. lia.
      * change (year_end 0 - start 0) with 364. lia.
Qed.

Lemma next_days (n : nat) : civil_from_days (Z.of_nat n) = Nat.iter n next_day (1970, 1, 1).
Proof.
  induction n as [|n IH]; [by vm_compute|].
  rewrite Nat2Z.inj_succ, <-Z.add_1_r, civil_next by lia. cbn [Nat.iter nat_rect]. by rewrite IH.
Qed.

(** The closed formula for the date is the calendar. Whatever number of
    days has passed since 1970-01-01, [civil_fields] gives the date reached by
    counting the days off one at a time with the Gregorian rules of month
    length and leap year, with the time of day and the day of the week (a
    Thursday at the start). *)
Theorem calendar_counts_days (days : nat) (hour minute second : Z)
    (Hhour : 0 <= hour < 24) (Hminute : 0 <= minute < 60) (Hsecond : 0 <= second < 60) :
  civil_fields (Z.of_nat days * 86400 + hour * 3600 + minute * 60 + second) =
    let '(year, month, day) := Nat.iter days next_day (1970, 1, 1) in
    {| c_year := year; c_month := month; c_day := day; c_hour := hour; c_minute := minute;
       c_weekday := (Z.of_nat days + 4) mod 7 |}.
Proof.
  unfold civil_fields. set (rem := hour * 3600 + minute * 60 + second).
  replace (Z.of_nat days * 86400 + hour * 3600 + minute * 60 + second)
    with (rem + Z.of_nat days * 86400) by lia.
  assert (0 <= rem < 86400) as Hrem by lia.
  rewrite Z.div_add, Z.mod_add, (Z.div_small rem), (Z.mod_small rem), Z.add_0_l by lia.
  rewrite next_days. destruct (Nat.iter _ _ _) as [[y m] d].
  f_equal.
  - symmetry. apply Z.div_unique with (minute * 60 + second); lia.
  - replace (rem mod 3600) with (minute * 60 + second).
    + symmetry. apply Z.div_unique with second; lia.
    + apply Z.mod_unique with hour; lia.
  - by rewrite Z.add_mod_idemp_l.
Qed.

(** 29 February 2000, 12:34:56, a Tuesday. *)
Lemma calendar_counts_days_witness :
  civil_fields (Z.of_nat 11016 * 86400 + 12 * 3600 + 34 * 60 + 56) =
  {| c_year := 2000; c_month := 2; c_day := 29; c_hour := 12; c_minute := 34; c_weekday := 2 |}.
Proof.
  transitivity (let '(year, month, day) := Nat.iter 11016 next_day (1970, 1, 1) in
    {| c_year := year; c_month := month; c_day := day; c_hour := 12; c_minute := 34;
       c_weekday := (Z.of_nat 11016 + 4) mod 7 |}).
  - apply (calendar_counts_days 11016 12 34 56); lia.
  - vm_compute. reflexivity.
Defined.

(** ** The next fire time *)

(** The cron fires in the minute that starts [k] minutes after the epoch. *)
Definition fires_at (c : Cron) (k : Z) : bool :=
  let f := civil_fields (k * 60) in
  matches c (c_month f) (c_day f) (c_weekday f) (c_hour f) (c_minute f).

Lemma scan_least c fuel k :
  0 <= k → (k + Z.of_nat fuel) * 60000 < u64_modulus →
  match scan fuel c k with
  | Some t => ∃ j, t = j * 60000 ∧ k <= j < k + Z.of_nat fuel ∧ fires_at c j = true ∧
      ∀ i, k <= i < j → fires_at c i = false
  | None => ∀ i, k <= i < k + Z.of_nat fuel → fires_at c i = false
  end.
Proof.
  revert k. induction fuel as [|fuel IH]; intros k Hk Hmax; cbn [scan]; [intros i Hi; lia|].
  unfold u64_wrapping_mul. rewrite !Z.mod_small by (unfold u64_modulus in *; lia).
  fold (fires_at c k). destruct (fires_at c k) eqn:Hfire.
  - exists k. split_and!; try lia; done.
  - specialize (IH (k + 1) ltac:(lia) ltac:(lia)).
    assert (∀ i, k <= i → i = k ∨ k + 1 <= i) as Hcase by lia.
    destruct (scan fuel c (k + 1)) as [t|].
    + destruct IH as (j & -> & Hj & Hj' & Hbefore). exists j. split_and!; try lia; try done.
      intros i Hi. destruct (Hcase i ltac:(lia)) as [->|]; [done|]. apply Hbefore. lia.
    + intros i Hi. destruct (Hcase i ltac:(lia)) as [->|]; [done|]. apply IH. lia.
Qed.

(** A fire time found within the range of [u64] milliseconds is the first one. *)
Lemma next_after_Some c after_ms t :
  0 <= after_ms → (after_ms / 60000 + 1 + MAX_LOOKAHEAD_MINUTES) * 60000 < u64_modulus →
  next_after c after_ms = Some t →
  after_ms < t ∧ ∃ k, t = k * 60000 ∧ fires_at c k = true ∧
    ∀ i, after_ms < i * 60000 < t → fires_at c i = false.
Proof.
  intros Hafter Hmax Hn. pose proof (Z.div_pos after_ms 60000 Hafter ltac:(lia)) as Hdiv.
  pose proof (Z.mul_succ_div_gt after_ms 60000 ltac:(lia)) as Hgt.
  unfold next_after in Hn.
  assert (Z.of_nat (Z.to_nat MAX_LOOKAHEAD_MINUTES) = MAX_LOOKAHEAD_MINUTES) as Hl
    by (apply Z2Nat.id; unfold MAX_LOOKAHEAD_MINUTES; lia).
  pose proof (scan_least c (Z.to_nat MAX_LOOKAHEAD_MINUTES) (after_ms / 60000 + 1)) as H.
  rewrite Hl in H. specialize (H ltac:(lia) ltac:(lia)). rewrite Hn in H.
  destruct H as (j & -> & Hj & Hfire & Hbefore). split; [lia|]. exists j. do 2 (split; [done|]).
  intros i Hi. apply Hbefore. split; [|lia].
  enough (after_ms / 60000 < i) by lia. apply Z.div_lt_upper_bound; lia.
Qed.

(** [next_after] finds the next fire time and no later one. An answer is a
    whole minute strictly after the given instant at which every field of the
    expression matches, and no minute in between matches; without an answer, no
    minute of the four years searched does. (The hypothesis keeps the search
    within the range of [u64] milliseconds.) *)
Theorem next_after_least (c : Cron) (after_ms : Z)
    (Hafter : 0 <= after_ms)
    (Hmax : (after_ms / 60000 + 1 + MAX_LOOKAHEAD_MINUTES) * 60000 < u64_modulus) :
  match next_after c after_ms with
  | Some t => after_ms < t ∧ ∃ k, t = k * 60000 ∧ fires_at c k = true ∧
      ∀ i, after_ms < i * 60000 < t → fires_at c i = false
  | None => ∀ i, after_ms < i * 60000 → i <= after_ms / 60000 + MAX_LOOKAHEAD_MINUTES →
      fires_at c i = false
  end.
Proof.
  destruct (next_after c after_ms) as [t|] eqn:Hn; [by apply next_after_Some|].
  intros i Hi Hle. unfold next_after in Hn.
  assert (0 <= MAX_LOOKAHEAD_MINUTES) as Hl by (unfold MAX_LOOKAHEAD_MINUTES; lia).
  pose proof (Z.div_pos after_ms 60000 Hafter ltac:(lia)) as Hdiv.
  pose proof (scan_least c (Z.to_nat MAX_LOOKAHEAD_MINUTES) (after_ms / 60000 + 1)) as H.
  rewrite Z2Nat.id in H by done. specialize (H ltac:(lia) ltac:(lia)). rewrite Hn in H.
  apply H. split; [|lia]. enough (after_ms / 60000 < i) by lia. apply Z.div_lt_upper_bound; lia.
Qed.

(** Every leap day at midnight, asked for on the 27th of February 2024. *)
Definition leap_day : Cron :=
  {| minutes := 1; hours := 1; doms := Z.shiftl 1 29; months := 4; dows := 127;
     dom_restricted := true; dow_restricted := false |}.

Lemma next_after_least_witness : 1709000000000 < 1709164800000 ∧ ∃ k, 1709164800000 = k * 60000 ∧
  fires_at leap_day k = true ∧
  ∀ i, 1709000000000 < i * 60000 < 1709164800000 → fires_at leap_day i = false.
Proof.
  assert (next_after leap_day 1709000000000 = Some 1709164800000) as E
    by (vm_compute; reflexivity).
  assert (0 <= 1709000000000) as H1 by lia.
  assert ((1709000000000 / 60000 + 1 + MAX_LOOKAHEAD_MINUTES) * 60000 < u64_modulus) as H2
    by (vm_compute; reflexivity).
  pose proof (next_after_least leap_day 1709000000000 H1 H2) as H.
  rewrite E in H. exact H.
Defined.

(** ** What a cron expression means

    The syntax of an expression, its meaning as sets of values, and the proof
    that [parse] of a written expression has that meaning. *)

(** *** The syntax *)

Inductive field := Minute | Hour | Day | Month | Weekday.

Definition field_min (f : field) : Z := match f with Day | Month => 1 | _ => 0 end.
Definition field_max (f : field) : Z :=
  match f with Minute => 59 | Hour => 23 | Day => 31 | Month => 12 | Weekday => 7 end.
Definition field_names (f : field) : option (list string) :=
  match f with Month => Some MONTH_NAMES | Weekday => Some DOW_NAMES | _ => None end.

(** A value is a number or the [i]-th name of the field. *)
Inductive cron_value := Num (n : Z) | Named (i : nat).
Inductive cron_range := All | One (v : cron_value) | Span (a b : cron_value).
Record cron_item := { item_range : cron_range; item_step : option Z }.
Record cron_expr := { e_minute : list cron_item; e_hour : list cron_item; e_day : list cron_item;
                      e_month : list cron_item; e_weekday : list cron_item }.

Definition names_of (f : field) : list string := default [] (field_names f).

Definition print_value (f : field) (v : cron_value) : string :=
  match v with Num n => show_Z n | Named i => nth i (names_of f) "" end.
Definition print_range (f : field) (r : cron_range) : string :=
  match r with
  | All => "*"
  | One v => print_value f v
  | Span a b => print_value f a +:+ String "-" (print_value f b)
  end.
Definition print_item (f : field) (i : cron_item) : string :=
  match item_step i with
  | None => print_range f (item_range i)
  | Some s => print_range f (item_range i) +:+ String "/" (show_Z s)
  end.
Definition print_field (f : field) (l : list cron_item) : string :=
  join_with "," (map (print_item f) l).
Definition print_expr (e : cron_expr) : string :=
  join_with " " [print_field Minute (e_minute e); print_field Hour (e_hour e);
                 print_field Day (e_day e); print_field Month (e_month e);
                 print_field Weekday (e_weekday e)].

(** *** The meaning *)

(** Months are counted from one, the days of the week from zero. *)
Definition value_of (f : field) (v : cron_value) : Z :=
  match v with Num n => n | Named i => Z.of_nat i + field_min f end.
Definition range_of (f : field) (r : cron_range) : Z * Z :=
  match r with
  | All => (field_min f, field_max f)
  | One v => (value_of f v, value_of f v)
  | Span a b => (value_of f a, value_of f b)
  end.
Definition step_of (i : cron_item) : Z := default 1 (item_step i).

Definition in_steps (lo hi step v : Z) : bool :=
  (lo <=? v) && (v <=? hi) && ((v - lo) mod step =? 0).
Definition item_has (f : field) (v : Z) (i : cron_item) : bool :=
  let '(lo, hi) := range_of f (item_range i) in in_steps lo hi (step_of i) v.
Definition field_has (f : field) (l : list cron_item) (v : Z) : bool := existsb (item_has f v) l.

(** The field is written as a plain star. *)
Definition is_star (l : list cron_item) : bool :=
  match l with
  | [ {| item_range := All; item_step := None |} ] => true
  | _ => false
  end.

(** Minute, hour and month must match, and the day: if the day of the month and
    the day of the week are both restricted, either; otherwise both (one of the
    two is then a star). A Sunday is 0 or 7. *)
Definition expr_matches (e : cron_expr) (month day dow hour minute : Z) : bool :=
  let dom_ok := field_has Day (e_day e) day in
  let dow_ok := field_has Weekday (e_weekday e) dow
                || ((dow =? 0) && field_has Weekday (e_weekday e) 7) in
  field_has Minute (e_minute e) minute && field_has Hour (e_hour e) hour
  && field_has Month (e_month e) month
  && (if negb (is_star (e_day e)) && negb (is_star (e_weekday e))
      then dom_ok || dow_ok else dom_ok && dow_ok).

(** *** Well-formed expressions *)

Definition value_ok (f : field) (v : cron_value) : bool :=
  match v with
  | Num n => (0 <=? n) && (n <? 100)
  | Named i => Nat.ltb i (length (names_of f))
  end.
Definition range_ok (f : field) (r : cron_range) : bool :=
  let '(lo, hi) := range_of f r in
  (match r with All => true | One v => value_ok f v | Span a b => value_ok f a && value_ok f b end)
  && (field_min f <=? lo) && (hi <=? field_max f) && (lo <=? hi).
Definition item_ok (f : field) (i : cron_item) : bool :=
  range_ok f (item_range i) && (0 <? step_of i) && (step_of i <? 100).
Definition field_ok (f : field) (l : list cron_item) : bool :=
  (match l with [] => false | _ => true end) && forallb (item_ok f) l.
Definition expr_ok (e : cron_expr) : bool :=
  field_ok Minute (e_minute e) && field_ok Hour (e_hour e) && field_ok Day (e_day e)
  && field_ok Month (e_month e) && field_ok Weekday (e_weekday e).

(** *** Written values *)

Definition word (s : string) : Prop := str_all is_ascii_alphanumeric s = true ∧ s ≠ "".
Definition word_dec (s : string) : bool := str_all is_ascii_alphanumeric s && negb (is_empty s).

Lemma word_dec_spec s : word_dec s = true ↔ word s.
Proof. unfold word_dec, word. rewrite andb_true_iff, negb_true_iff. destruct s; naive_solver. Qed.

Definition reads_back (f : field) (v : cron_value) : bool :=
  match parse_value (print_value f v) (field_names f) (field_min f) (field_max f) with
  | Ok z => z =? value_of f v
  | Err _ => false
  end.

Definition number_ok (n : nat) : bool :=
  let s := show_Z (Z.of_nat n) in
  word_dec s && bool_decide (parse_u32 s = Some (Z.of_nat n)).

Lemma numbers_ok : forallb number_ok (seq 0 100) = true.
Proof. by vm_compute. Qed.

Lemma names_ok f :
  forallb (λ i, word_dec (print_value f (Named i)) && reads_back f (Named i))
    (seq 0 (length (names_of f))) = true.
Proof. by destruct f; vm_compute. Qed.

Lemma number_spec n : 0 <= n < 100 → word (show_Z n) ∧ parse_u32 (show_Z n) = Some n.
Proof.
  intros Hn. pose proof numbers_ok as H. rewrite forallb_forall in H.
  specialize (H (Z.to_nat n)). unfold number_ok in H. rewrite Z2Nat.id in H by lia.
  assert (In (Z.to_nat n) (seq 0 100)) as Hin by (apply in_seq; lia).
  apply H, andb_prop in Hin as [Hw%word_dec_spec Hp%bool_decide_eq_true]. done.
Qed.

Lemma value_spec f v : value_ok f v = true →
  word (print_value f v) ∧
  parse_value (print_value f v) (field_names f) (field_min f) (field_max f) = Ok (value_of f v).
Proof.
  destruct v as [n|i]; cbn [value_ok print_value value_of].
  - intros [H1%Z.leb_le H2%Z.ltb_lt]%andb_prop. destruct (number_spec n) as [Hw Hp]; [lia|].
    split; [done|]. unfold parse_value. by rewrite Hp.
  - intros Hi%Nat.ltb_lt. pose proof (names_ok f) as H. rewrite forallb_forall in H.
    assert (In i (seq 0 (length (names_of f)))) as Hin by (apply in_seq; lia).
    apply H, andb_prop in Hin as [Hw%word_dec_spec Hr]. split; [done|].
    unfold reads_back in Hr. cbn [print_value value_of] in Hr.
    destruct (parse_value _ _ _ _); [|done]. by apply Z.eqb_eq in Hr as ->.
Qed.

(** *** Written items *)

Definition item_char (c : ascii) : bool :=
  is_ascii_alphanumeric c || Ascii.eqb c "-" || Ascii.eqb c "/" || Ascii.eqb c "*".

Lemma alphanumeric_other c :
  is_ascii_alphanumeric c = true →
  other_than "-" c = true ∧ other_than "/" c = true ∧ other_than "*" c = true ∧
  item_char c = true.
Proof. destruct c as [[] [] [] [] [] [] [] []]; vm_compute; done. Qed.

Lemma item_char_other c :
  item_char c = true → other_than "," c = true ∧ other_than " " c = true ∧ printable c = true.
Proof. destruct c as [[] [] [] [] [] [] [] []]; vm_compute; done. Qed.

Lemma word_all f s : (∀ c, is_ascii_alphanumeric c = true → f c = true) → word s → str_all f s = true.
Proof. intros Hf [Hs _]. by eapply str_all_impl. Qed.

Lemma word_not_star s t : word s → String.eqb (s +:+ t) "*" = false.
Proof.
  intros [Hs Hne]. destruct s as [|c s]; [done|]. cbn [str_all] in Hs. apply andb_prop in Hs as [Hc _].
  apply alphanumeric_other in Hc as (_ & _ & Hc & _). unfold other_than in Hc.
  apply negb_true_iff in Hc. rewrite str_app_cons. cbn [String.eqb]. rewrite Ascii.eqb_sym. by rewrite Hc.
Qed.

Lemma word_trim s : word s → trim s = s.
Proof.
  intros Hs. apply trim_printable. apply (word_all _ _ (λ c H, proj2 (proj2 (item_char_other c
    (proj2 (proj2 (proj2 (alphanumeric_other c H)))))))). done.
Qed.

Lemma range_words f r : range_ok f r = true →
  match r with
  | All => True
  | One v => value_ok f v = true
  | Span a b => value_ok f a = true ∧ value_ok f b = true
  end ∧
  field_min f <= (range_of f r).1 ∧ (range_of f r).1 <= (range_of f r).2 ∧
  (range_of f r).2 <= field_max f.
Proof.
  unfold range_ok. destruct (range_of f r) as [lo hi].
  intros [[[Hr H1%Z.leb_le]%andb_prop H2%Z.leb_le]%andb_prop H3%Z.leb_le]%andb_prop.
  split; [|done]. destruct r; [done..|]. by apply andb_prop in Hr.
Qed.

Lemma range_chars f r (g : ascii → bool) : range_ok f r = true →
  (∀ c, is_ascii_alphanumeric c = true → g c = true) → g "-"%char = true → g "*"%char = true →
  str_all g (print_range f r) = true ∧ print_range f r ≠ "".
Proof.
  intros [Hr _]%range_words Hg Hdash Hstar. destruct r as [|v|a b]; cbn [print_range].
  - split; [|done]. cbn [str_all]. by rewrite Hstar.
  - apply value_spec in Hr as [Hw _]. split; [by apply word_all|apply Hw].
  - destruct Hr as [[Ha _]%value_spec [Hb _]%value_spec]. split.
    + rewrite str_all_app. cbn [str_all]. rewrite Hdash, !word_all by done. done.
    + destruct Ha as [_ Ha]. by destruct (print_value f a).
Qed.

Lemma item_chars f i : item_ok f i = true →
  str_all item_char (print_item f i) = true ∧ print_item f i ≠ "".
Proof.
  intros [[Hr Hs1%Z.ltb_lt]%andb_prop Hs2%Z.ltb_lt]%andb_prop.
  destruct (range_chars f (item_range i) item_char Hr) as [Hc Hne]; [|done..|].
  { intros c Hc. apply (alphanumeric_other c Hc). }
  unfold print_item, step_of in *. destruct (item_step i) as [s|]; [|done]. cbn [default] in *.
  destruct (number_spec s) as [Hw _]; [simpl in *; lia|]. split.
  - rewrite str_all_app, Hc. cbn [str_all]. apply (word_all item_char) in Hw; [by rewrite Hw|].
    intros c Hc'. apply (alphanumeric_other c Hc').
  - by destruct (print_range f (item_range i)).
Qed.

Lemma parse_range f r : range_ok f r = true →
  (if String.eqb (print_range f r) "*" then Ok (field_min f, field_max f)
   else
     match split_once "-" (print_range f r) with
     | Some (a, b) =>
       lo ← parse_value (trim a) (field_names f) (field_min f) (field_max f);
       hi ← parse_value (trim b) (field_names f) (field_min f) (field_max f);
       Ok (lo, hi)
     | None =>
       v ← parse_value (print_range f r) (field_names f) (field_min f) (field_max f); Ok (v, v)
     end) = Ok (range_of f r).
Proof.
  intros [Hr _]%range_words. destruct r as [|v|a b]; cbn [print_range range_of]; [done|..].
  - apply value_spec in Hr as [Hw Hp].
    rewrite <-(str_app_nil_r (print_value f v)), word_not_star, str_app_nil_r by done.
    rewrite split_once_other, Hp; [done|]. apply (word_all _ _ (λ c H, proj1 (alphanumeric_other c H)) Hw).
  - destruct Hr as [[Ha Hpa]%value_spec [Hb Hpb]%value_spec].
    rewrite word_not_star, split_once_first, !word_trim, Hpa, Hpb by
      (done || apply (word_all _ _ (λ c H, proj1 (alphanumeric_other c H)) Ha)). done.
Qed.

Lemma range_trim f r : range_ok f r = true → trim (print_range f r) = print_range f r.
Proof.
  intros Hr. apply trim_printable. apply range_chars; [done| |done..].
  intros c Hc. apply (item_char_other c), (alphanumeric_other c Hc).
Qed.

(** The range of a written item and its step. *)
Lemma split_item f i : item_ok f i = true →
  match split_once "/" (print_item f i) with
  | Some (r, s) =>
    match parse_u32 s with
    | None => Err (Invalid ("invalid cron step `" +:+ s +:+ "`"))
    | Some step =>
      if Z.eqb step 0 then Err (Invalid "cron step must be > 0") else Ok (trim r, step)
    end
  | None => Ok (print_item f i, 1)
  end = Ok (print_range f (item_range i), step_of i).
Proof.
  intros [[Hr Hs1%Z.ltb_lt]%andb_prop Hs2%Z.ltb_lt]%andb_prop.
  destruct (range_chars f (item_range i) (other_than "/") Hr) as [Hslash _]; [|done..|].
  { intros c Hc'. apply (alphanumeric_other c Hc'). }
  unfold print_item, step_of in *. destruct (item_step i) as [s|]; simpl in *.
  - rewrite split_once_first by done. destruct (number_spec s) as [_ ->]; [lia|].
    rewrite (proj2 (Z.eqb_neq s 0)) by lia. by rewrite range_trim.
  - by rewrite split_once_other.
Qed.

Lemma parse_item f i : item_ok f i = true →
  parse_part (field_names f) (field_min f) (field_max f) (print_item f i) =
    Ok (range_of f (item_range i), step_of i).
Proof.
  intros Hi. pose proof (item_chars f i Hi) as [Hc _]. pose proof (split_item f i Hi) as Hsplit.
  unfold parse_part. rewrite trim_printable.
  2: { eapply str_all_impl; [|exact Hc]. intros c Hc'. apply (item_char_other c Hc'). }
  rewrite Hsplit. apply andb_prop in Hi as [[Hr _]%andb_prop _].
  destruct (range_words f (item_range i) Hr) as (_ & H1 & H2 & H3).
  cbn [mbind result_bind]. rewrite parse_range by done. cbn [mbind result_bind].
  destruct (range_of f (item_range i)) as [lo hi]. simpl in H1, H2, H3.
  by rewrite !(proj2 (Z.ltb_ge _ _)) by lia.
Qed.

(** *** The bits of a field *)

Lemma has_bit_testbit mask v : 0 <= v → has_bit mask v = Z.testbit mask v.
Proof.
  intros Hv. unfold has_bit. rewrite Z.shiftl_1_l. destruct (Z.testbit mask v) eqn:E.
  - apply negb_true_iff, Z.eqb_neq. intros H. apply (f_equal (λ x, Z.testbit x v)) in H.
    by rewrite Z.land_spec, E, Z.pow2_bits_true, Z.bits_0 in H.
  - apply negb_false_iff, Z.eqb_eq. apply Z.bits_inj'. intros n Hn.
    rewrite Z.land_spec, Z.bits_0. destruct (decide (n = v)) as [->|Hne]; [by rewrite E|].
    by rewrite Z.pow2_bits_false, andb_false_r by done.
Qed.

Lemma bit_set mask v w : 0 <= v → 0 <= w →
  has_bit (Z.lor mask (Z.shiftl 1 w)) v = has_bit mask v || (v =? w).
Proof.
  intros Hv Hw. rewrite !has_bit_testbit, Z.lor_spec, Z.shiftl_1_l by done. f_equal.
  destruct (Z.eqb_spec v w) as [->|]; [by apply Z.pow2_bits_true|by apply Z.pow2_bits_false].
Qed.

Lemma in_steps_from lo hi step v : 0 < step → lo <= hi →
  in_steps lo hi step v = (v =? lo) || in_steps (lo + step) hi step v.
Proof.
  intros Hstep Hlo. unfold in_steps.
  replace (v - (lo + step)) with (v - lo + (-1) * step) by lia. rewrite Z.mod_add by lia.
  destruct (Z.eqb_spec v lo) as [->|Hne]; cbn [orb].
  - rewrite Z.sub_diag, Z.mod_0_l by lia. rewrite !(proj2 (Z.leb_le _ _)) by lia. done.
  - destruct (Z.eqb_spec ((v - lo) mod step) 0) as [Hm|]; [|by rewrite !andb_false_r].
    rewrite !andb_true_r. apply Z.mod_divide in Hm as [k Hk]; [|lia].
    assert (lo <= v → lo + step <= v) as Hfar by (destruct (Z.le_gt_cases k 0); nia).
    destruct (Z.leb_spec lo v), (Z.leb_spec (lo + step) v), (Z.leb_spec v hi);
      try reflexivity; exfalso; lia.
Qed.

Lemma mark_spec fuel lo hi step mask :
  0 <= lo → 0 < step → hi + step < u32_modulus → hi - lo < Z.of_nat fuel - 1 → (0 < fuel)%nat →
  ∃ mask', mark fuel lo hi step mask = Some mask' ∧
    ∀ v, 0 <= v → has_bit mask' v = has_bit mask v || in_steps lo hi step v.
Proof.
  revert lo mask. induction fuel as [|fuel IH]; intros lo mask Hlo Hstep Hmax Hfuel Hpos; [lia|].
  cbn [mark]. destruct (Z.leb_spec lo hi) as [Hle|Hgt].
  - rewrite u32_wrapping_add_small by (unfold is_u32; lia).
    destruct (IH (lo + step) (Z.lor mask (Z.shiftl 1 lo))) as (mask' & -> & Hbits); try lia.
    exists mask'. split; [done|]. intros v Hv.
    by rewrite Hbits, bit_set, (in_steps_from lo), orb_assoc by lia.
  - exists mask. split; [done|]. intros v Hv. unfold in_steps.
    destruct (Z.leb_spec lo v), (Z.leb_spec v hi); try lia; by rewrite orb_false_r.
Qed.

Lemma parse_items f l mask : forallb (item_ok f) l = true →
  ∃ mask', parse_parts (field_names f) (field_min f) (field_max f) (map (print_item f) l) mask
           = Some (Ok mask') ∧
    ∀ v, 0 <= v → has_bit mask' v = has_bit mask v || field_has f l v.
Proof.
  revert mask. induction l as [|i l IH]; intros mask; cbn [forallb map parse_parts].
  - intros _. exists mask. split; [done|]. intros v _. by rewrite orb_false_r.
  - intros [Hi Hl]%andb_prop. rewrite parse_item by done.
    apply andb_prop in Hi as [[Hr Hs1%Z.ltb_lt]%andb_prop Hs2%Z.ltb_lt].
    destruct (range_words f (item_range i) Hr) as (_ & H1 & H2 & H3).
    destruct (range_of f (item_range i)) as [lo hi] eqn:Hrange. simpl in H1, H2, H3.
    assert (0 <= field_min f ∧ field_max f <= 59) as [H0 H59] by (destruct f; simpl; lia).
    destruct (mark_spec mark_fuel lo hi (step_of i) mask) as (m1 & Hm1 & Hb1);
      [lia|lia|unfold u32_modulus; lia|unfold mark_fuel; lia|unfold mark_fuel; lia|].
    cbn [mbind option_bind]. rewrite Hm1. cbn [mbind option_bind].
    destruct (IH m1 Hl) as (m2 & -> & Hb2). exists m2. split; [done|]. intros v Hv.
    rewrite Hb2, Hb1 by done. unfold field_has. cbn [existsb].
    unfold item_has at 2. by rewrite Hrange, orb_assoc.
Qed.

Lemma print_field_chars f l : field_ok f l = true →
  str_all printable (print_field f l) = true ∧ print_field f l ≠ "" ∧
  split_char "," (print_field f l) = map (print_item f) l.
Proof.
  intros [Hne Hl]%andb_prop. destruct l as [|i l]; [done|]. clear Hne. unfold print_field.
  rewrite forallb_forall in Hl.
  assert (Forall (λ s, str_all item_char s = true ∧ s ≠ "") (map (print_item f) (i :: l))) as Hall.
  { apply List.Forall_forall. intros s (j & <- & Hj)%in_map_iff. by apply item_chars, Hl. }
  cbn [map] in *. split_and!.
  - clear Hl. revert Hall. generalize (print_item f i). induction (map (print_item f) l) as [|w' ws IH];
      intros w [[Hw _] Hall]%Forall_cons; cbn [join_with];
      (assert (str_all printable w = true) as Hp by
        (eapply str_all_impl; [|exact Hw]; intros c Hc; apply (item_char_other c Hc))); [done|].
    rewrite str_app_cons, str_app_nil, str_all_app, Hp. cbn [str_all]. by apply IH.
  - apply Forall_cons in Hall as [[_ Hw] _]. destruct (map _ l); cbn [join_with]; [done|].
    by destruct (print_item f i).
  - apply split_char_joined. eapply Forall_impl; [exact Hall|]. intros s [Hs _].
    eapply str_all_impl; [|exact Hs]. intros c Hc. apply (item_char_other c Hc).
Qed.

Lemma parse_printed_field f l : field_ok f l = true →
  ∃ mask, parse_field (print_field f l) (field_min f) (field_max f) (field_names f) = Some (Ok mask) ∧
    ∀ v, 0 <= v → has_bit mask v = field_has f l v.
Proof.
  intros Hok. destruct (print_field_chars f l Hok) as (Hp & Hne & Hsplit).
  apply andb_prop in Hok as [_ Hl]. destruct (parse_items f l 0 Hl) as (mask & Hm & Hbits).
  exists mask. split.
  - unfold parse_field. rewrite trim_printable by done.
    destruct (is_empty _) eqn:E; [by destruct (print_field f l)|]. by rewrite Hsplit.
  - intros v Hv. rewrite Hbits by done. unfold has_bit. by rewrite Z.land_0_l.
Qed.

(** *** Written expressions *)

Lemma ascii_lower_space c : Ascii.eqb " " (ascii_lower c) = Ascii.eqb " " c.
Proof. destruct c as [[] [] [] [] [] [] [] []]; vm_compute; done. Qed.

Lemma lowercase_space s : contains_char " " (to_ascii_lowercase s) = contains_char " " s.
Proof.
  induction s as [|c s IH]; [done|]. cbn [to_ascii_lowercase contains_char].
  by rewrite ascii_lower_space, IH.
Qed.

(** A text with a space in it is no macro. *)
Lemma normalize_spaced s : contains_char " " s = true → normalize s = s.
Proof.
  rewrite <-lowercase_space. unfold normalize. intros Hs.
  assert (∀ m, contains_char " " m = false → String.eqb (to_ascii_lowercase s) m = false) as Hno.
  { intros m Hm. apply String.eqb_neq. intros E. by rewrite E, Hm in Hs. }
  by rewrite !Hno.
Qed.

Lemma contains_char_app a s t : contains_char a (s +:+ t) = contains_char a s || contains_char a t.
Proof.
  induction s as [|c s IH]; [done|]. rewrite str_app_cons. cbn [contains_char].
  by rewrite IH, orb_assoc.
Qed.

Lemma print_field_star f l : field_ok f l = true → String.eqb (print_field f l) "*" = is_star l.
Proof.
  intros [Hne Hl]%andb_prop. destruct l as [|[r st] l]; [done|]. cbn [forallb] in Hl.
  apply andb_prop in Hl as [[[Hr _]%andb_prop _]%andb_prop _]. cbn [item_range] in Hr.
  assert (∀ t, r ≠ All → String.eqb (print_range f r +:+ t) "*" = false) as Hstar.
  { intros t Hr'. apply range_words in Hr as [Hr _]. destruct r as [|v|a b]; [done|..]; cbn [print_range].
    - apply value_spec in Hr as [Hw _]. by apply word_not_star.
    - destruct Hr as [[Hw _]%value_spec _]. rewrite str_app_assoc. by apply word_not_star. }
  unfold print_field. cbn [map].
  assert (join_with "," (print_item f {| item_range := r; item_step := st |} :: map (print_item f) l)
    = print_range f r +:+ ((match st with Some s => String "/" (show_Z s) | None => "" end)
      +:+ match l with [] => "" | _ => String "," (join_with "," (map (print_item f) l)) end)) as ->.
  { unfold print_item at 1. cbn [item_step item_range].
    destruct st, l; cbn [map join_with]; rewrite ?str_app_nil, ?str_app_nil_r, ?str_app_assoc; done. }
  destruct r as [|v|a b]; cbn [is_star]; [|destruct st, l; by apply Hstar..].
  destruct st as [s|]; [done|]. destruct l; done.
Qed.

Lemma star_has f l v : is_star l = true → field_min f <= v <= field_max f → field_has f l v = true.
Proof.
  destruct l as [|[[] []] []]; try done. intros _ Hv. unfold field_has, item_has, in_steps, step_of.
  cbn. rewrite !(proj2 (Z.leb_le _ _)), Z.mod_1_r by lia. done.
Qed.

(** The seventh day is the first. *)
Lemma sunday_bits mask v : 0 <= v <= 6 →
  has_bit (if Z.eqb (Z.land mask (Z.shiftl 1 7)) 0 then mask
           else Z.lor (Z.ldiff mask (Z.shiftl 1 7)) 1) v
  = has_bit mask v || ((v =? 0) && has_bit mask 7).
Proof.
  intros Hv. fold (negb (negb (Z.eqb (Z.land mask (Z.shiftl 1 7)) 0))).
  assert (Z.eqb (Z.land mask (Z.shiftl 1 7)) 0 = negb (has_bit mask 7)) as ->
    by (unfold has_bit; by rewrite negb_involutive).
  destruct (has_bit mask 7) eqn:E7; cbn [negb]; [|by rewrite andb_false_r, orb_false_r].
  change 1 with (Z.shiftl 1 0) at 2. rewrite bit_set, andb_true_r by lia. f_equal.
  rewrite !has_bit_testbit, Z.ldiff_spec, Z.shiftl_1_l, Z.pow2_bits_false by lia.
  by rewrite andb_true_r.
Qed.

Lemma print_expr_words e : expr_ok e = true →
  trim (print_expr e) = print_expr e ∧ normalize (print_expr e) = print_expr e ∧
  split_whitespace (print_expr e) =
    [print_field Minute (e_minute e); print_field Hour (e_hour e); print_field Day (e_day e);
     print_field Month (e_month e); print_field Weekday (e_weekday e)].
Proof.
  intros [[[[H1 H2]%andb_prop H3]%andb_prop H4]%andb_prop H5]%andb_prop.
  apply print_field_chars in H1 as (P1 & N1 & _), H2 as (P2 & N2 & _), H3 as (P3 & N3 & _),
    H4 as (P4 & N4 & _), H5 as (P5 & N5 & _). split_and!.
  - assert (print_expr e = print_field Minute (e_minute e) +:+
      ((" " +:+ (print_field Hour (e_hour e) +:+ (" " +:+ (print_field Day (e_day e) +:+
         (" " +:+ (print_field Month (e_month e) +:+ " ")))))) +:+ print_field Weekday (e_weekday e)))
      as -> by (unfold print_expr; cbn [join_with]; by rewrite !str_app_assoc).
    by apply trim_words.
  - apply normalize_spaced. unfold print_expr. cbn [join_with]. rewrite !contains_char_app.
    change (contains_char " " " ") with true. by rewrite orb_true_l, orb_true_r.
  - apply split_whitespace_joined. by repeat constructor.
Qed.

(** [parse] reads a written expression as it is meant. Every expression in
    the syntax (stars, values by number or name, ranges, steps and lists), with
    its values in range, is accepted, and the parsed expression matches exactly
    the instants that the sets written in the five fields describe: a Sunday may
    be 0 or 7, and a day matches one of the two day fields when both are
    restricted and both fields otherwise. *)
Theorem parse_printed (e : cron_expr) (He : expr_ok e = true) :
  ∃ c, parse (print_expr e) = Some (Ok c) ∧
    ∀ month day dow hour minute,
      1 <= month → 1 <= day <= 31 → 0 <= dow <= 6 → 0 <= hour → 0 <= minute →
      matches c month day dow hour minute = expr_matches e month day dow hour minute.
Proof.
  destruct (print_expr_words e He) as (Htrim & Hnorm & Hwords).
  unfold parse. rewrite Htrim, Hnorm, Hwords. clear Htrim Hnorm Hwords.
  apply andb_prop in He as [[[[H1 H2]%andb_prop H3]%andb_prop H4]%andb_prop H5].
  destruct (print_field_chars _ _ H3) as (P3 & _), (print_field_chars _ _ H5) as (P5 & _).
  rewrite !trim_printable, !print_field_star by done.
  destruct (parse_printed_field Minute _ H1) as (m1 & E1 & B1).
  destruct (parse_printed_field Hour _ H2) as (m2 & E2 & B2).
  destruct (parse_printed_field Day _ H3) as (m3 & E3 & B3).
  destruct (parse_printed_field Month _ H4) as (m4 & E4 & B4).
  destruct (parse_printed_field Weekday _ H5) as (m5 & E5 & B5).
  cbn [field_min field_max field_names] in *. rewrite E1, E2, E3, E4, E5. cbn [and_then].
  eexists. split; [reflexivity|]. intros month day dow hour minute Hm Hd Hw Hh Hmin.
  unfold matches, expr_matches.
  cbn [minutes hours doms months dows dom_restricted dow_restricted].
  rewrite sunday_bits, B1, B2, B3, B4, !B5 by lia.
  destruct (field_has Minute _ _), (field_has Hour _ _), (field_has Month _ _); try reflexivity.
  cbn [negb orb andb].
  destruct (is_star (e_day e)) eqn:S3, (is_star (e_weekday e)) eqn:S5; cbn [negb andb].
  - by rewrite !star_has by (done || simpl; lia).
  - by rewrite (star_has Day) by (done || simpl; lia).
  - rewrite (star_has Weekday _ dow) by (done || simpl; lia). by rewrite andb_true_r.
  - done.
Qed.

(** [*/15 9-17 1,15 jan-mar 1-5,7] *)
Definition office_hours : cron_expr :=
  {| e_minute := [ {| item_range := All; item_step := Some 15 |} ];
     e_hour := [ {| item_range := Span (Num 9) (Num 17); item_step := None |} ];
     e_day := [ {| item_range := One (Num 1); item_step := None |};
                {| item_range := One (Num 15); item_step := None |} ];
     e_month := [ {| item_range := Span (Named 0) (Named 2); item_step := None |} ];
     e_weekday := [ {| item_range := Span (Num 1) (Num 5); item_step := None |};
                    {| item_range := One (Num 7); item_step := None |} ] |}.

Example office_hours_text : print_expr office_hours = "*/15 9-17 1,15 jan-mar 1-5,7".
Proof. by vm_compute. Qed.

Lemma parse_printed_witness : ∃ c, parse "*/15 9-17 1,15 jan-mar 1-5,7" = Some (Ok c) ∧
  ∀ month day dow hour minute,
    1 <= month → 1 <= day <= 31 → 0 <= dow <= 6 → 0 <= hour → 0 <= minute →
    matches c month day dow hour minute = expr_matches office_hours month day dow hour minute.
Proof.
  assert (expr_ok office_hours = true) as H by (vm_compute; reflexivity).
  rewrite <-office_hours_text. exact (parse_printed office_hours H).
Defined.

(** *** The loop ends on every text *)

Lemma parse_digits_nonneg s acc n : 0 <= acc → parse_digits acc s = Some n → 0 <= n.
Proof.
  revert acc. induction s as [|c s IH]; intros acc Hacc; cbn [parse_digits]; [by intros [= <-]|].
  unfold is_ascii_digit, byte_in, digit_value. destruct (N.leb_spec 48 (byte_of c)); [|done].
  destruct (N.leb (byte_of c) 57); [|done]. apply IH. lia.
Qed.

Lemma parse_u32_bounds s n : parse_u32 s = Some n → is_u32 n.
Proof.
  unfold parse_u32, parse_unsigned. set (body := match s with String "+" r => r | _ => s end).
  destruct body as [|c b] eqn:E; [done|]. intros (m & Hm & Hle)%bind_Some.
  destruct (Z.leb_spec m u32_max); [|done]. injection Hle as ->.
  apply parse_digits_nonneg in Hm; [|done]. unfold is_u32, u32_max in *. lia.
Qed.

Lemma parse_part_bounds names min max part lo hi step :
  parse_part names min max part = Ok (lo, hi, step) → min <= lo ∧ hi <= max ∧ 1 <= step < u32_modulus.
Proof.
  unfold parse_part. intros ([r s] & Hrs & H)%result_bind_Ok.
  assert (1 <= s < u32_modulus) as Hs.
  { destruct (split_once "/" (trim part)) as [[r' s']|]; [|by injection Hrs as <- <-].
    destruct (parse_u32 s') as [st|] eqn:E; [|done]. apply parse_u32_bounds in E.
    destruct (Z.eqb_spec st 0); [done|]. injection Hrs as <- <-. unfold is_u32 in E. lia. }
  apply result_bind_Ok in H as ([lo' hi'] & _ & H).
  destruct (Z.ltb_spec lo' min), (Z.ltb_spec max hi'), (Z.ltb_spec hi' lo'); try done.
  by injection H as <- <- <-.
Qed.

Lemma mark_total fuel lo hi step mask :
  0 <= lo → hi <= 59 → 1 <= step < u32_modulus →
  (if step <? 100 then hi - lo < Z.of_nat fuel - 1 else lo < Z.of_nat fuel - 1) → (0 < fuel)%nat →
  mark fuel lo hi step mask ≠ None.
Proof.
  revert lo mask. induction fuel as [|fuel IH]; intros lo mask Hlo Hhi Hstep Hfuel Hpos; [lia|].
  cbn [mark]. destruct (Z.leb_spec lo hi) as [Hle|]; [|done].
  destruct (Z.ltb_spec step 100) as [Hsmall|Hlarge].
  - apply IH; rewrite ?(proj2 (Z.ltb_lt step 100)) by done;
      rewrite ?u32_wrapping_add_small by (unfold is_u32, u32_modulus in *; lia); lia.
  - destruct (Z.le_gt_cases u32_modulus (lo + step)) as [Hwrap|Hno].
    + assert (u32_wrapping_add lo step = lo + step - u32_modulus) as ->.
      { unfold u32_wrapping_add. symmetry. apply Z.mod_unique with 1; unfold u32_modulus in *; lia. }
      apply IH; rewrite ?(proj2 (Z.ltb_ge step 100)) by done; lia.
    + rewrite u32_wrapping_add_small by (unfold is_u32; lia).
      destruct fuel as [|fuel]; [lia|]. cbn [mark].
      rewrite (proj2 (Z.leb_gt (lo + step) hi)) by lia. done.
Qed.

Lemma parse_field_total spec f : parse_field spec (field_min f) (field_max f) (field_names f) ≠ None.
Proof.
  unfold parse_field. destruct (is_empty (trim spec)); [done|]. generalize 0.
  assert (0 <= field_min f ∧ field_max f <= 59) as [Hmin Hmax] by (destruct f; simpl; lia).
  induction (split_char "," (trim spec)) as [|part parts IH]; intros mask; [done|]. cbn [parse_parts].
  destruct (parse_part _ _ _ part) as [[[lo hi] step]|e] eqn:E; [|done].
  apply parse_part_bounds in E as (Hlo & Hhi & Hstep).
  destruct (mark mark_fuel lo hi step mask) as [m|] eqn:Em; [apply IH|].
  destruct (Z.le_gt_cases lo hi) as [Hle|Hgt].
  - exfalso. revert Em. apply mark_total; try lia; unfold mark_fuel; [|lia].
    destruct (step <? 100); lia.
  - unfold mark_fuel in Em. cbn [mark] in Em. by rewrite (proj2 (Z.leb_gt lo hi)) in Em.
Qed.

Lemma parse_some expr : parse expr ≠ None.
Proof.
  unfold parse. destruct (split_whitespace _) as [|f0 [|f1 [|f2 [|f3 [|f4 []]]]]]; try done.
  pose proof (parse_field_total f0 Minute). pose proof (parse_field_total f1 Hour).
  pose proof (parse_field_total f2 Day). pose proof (parse_field_total f3 Month).
  pose proof (parse_field_total f4 Weekday). cbn [field_min field_max field_names] in *.
  unfold and_then.
  repeat match goal with
  | |- context [match parse_field ?a ?b ?c ?d with _ => _ end] =>
    destruct (parse_field a b c d) as [[?|?]|]; try done
  end.
Qed.

(** Parsing always ends. The loop that sets the bits of a range adds the
    step with the wrap-around of a [u32], yet for no text, however large its
    steps, does it run forever: every text yields an expression or an error. *)
Theorem parse_total (expr : string) : ∃ r, parse expr = Some r.
Proof. pose proof (parse_some expr). destruct (parse expr) as [r|]; [by exists r|done]. Qed.
