(* ===== verification/Schedule.v ===== *)
(** * Recurring schedules

    [crates/wovyr-workflow/src/schedule.rs]: schedules and their stores, the
    advance to the next tick, and the dispatcher that starts due executions. *)
From stdpp Require Import base tactics list numbers strings gmap sorting.
From Stdlib Require Import Lia ZArith Ascii.
From S2P Require Import Prelude.
From S2P Require Import RustStr.
From S2P Require Import Common.
From S2P Require Import JsonValue.
From S2P Require Import State.
From S2P Require Import Executor.
From S2P Require Import Template.
From S2P Require Import WorkflowDef.
From S2P Require Import ExecState.
From S2P Require Import Store.
From S2P Require Import Effect.
From S2P Require Import Timer.
From S2P Require Import Engine.
From S2P Require Import Worker.
From S2P Require Import Cron.
From S2P Require Import CronInv.
Local Open Scope Z_scope.

Inductive OverlapPolicy := OverlapSkip | OverlapAllow.
#[export] Instance OverlapPolicy_eq_dec : EqDecision OverlapPolicy.
Proof. solve_decision. Defined.

Record Schedule := {
  sc_id : string;
  sc_workflow_name : string;
  sc_input : Value;
  sc_interval_ms : Z;
  sc_cron : option string;
  sc_next_fire_ms : Z;
  sc_paused : bool;
  sc_overlap : OverlapPolicy;
  sc_last_execution_id : option string;
}.

Definition every (id workflow_name : string) (interval_ms first_fire_ms : Z) : Schedule := {|
  sc_id := id; sc_workflow_name := workflow_name; sc_input := Null; sc_interval_ms := interval_ms;
  sc_cron := None; sc_next_fire_ms := first_fire_ms; sc_paused := false;
  sc_overlap := OverlapSkip; sc_last_execution_id := None |}.

Definition set_next_fire (next : Z) (s : Schedule) : Schedule := {|
  sc_id := sc_id s; sc_workflow_name := sc_workflow_name s; sc_input := sc_input s;
  sc_interval_ms := sc_interval_ms s; sc_cron := sc_cron s; sc_next_fire_ms := next;
  sc_paused := sc_paused s; sc_overlap := sc_overlap s;
  sc_last_execution_id := sc_last_execution_id s |}.
Definition set_last_execution (e : string) (s : Schedule) : Schedule := {|
  sc_id := sc_id s; sc_workflow_name := sc_workflow_name s; sc_input := sc_input s;
  sc_interval_ms := sc_interval_ms s; sc_cron := sc_cron s; sc_next_fire_ms := sc_next_fire_ms s;
  sc_paused := sc_paused s; sc_overlap := sc_overlap s; sc_last_execution_id := Some e |}.
Definition with_input (input : Value) (s : Schedule) : Schedule := {|
  sc_id := sc_id s; sc_workflow_name := sc_workflow_name s; sc_input := input;
  sc_interval_ms := sc_interval_ms s; sc_cron := sc_cron s; sc_next_fire_ms := sc_next_fire_ms s;
  sc_paused := sc_paused s; sc_overlap := sc_overlap s;
  sc_last_execution_id := sc_last_execution_id s |}.
Definition with_overlap (overlap : OverlapPolicy) (s : Schedule) : Schedule := {|
  sc_id := sc_id s; sc_workflow_name := sc_workflow_name s; sc_input := sc_input s;
  sc_interval_ms := sc_interval_ms s; sc_cron := sc_cron s; sc_next_fire_ms := sc_next_fire_ms s;
  sc_paused := sc_paused s; sc_overlap := overlap;
  sc_last_execution_id := sc_last_execution_id s |}.

(** The next fire time of a cron expression, or the error [no_time expr]. *)
Definition cron_next (no_time : string) (expr : string) (now : Z) : outcome Z :=
  match parse expr with
  | None => Stop Exhausted
  | Some r =>
    parsed ← of_result r;
    of_result (ok_or (Invalid ("cron `" +:+ expr +:+ no_time)) (next_after parsed now))
  end.

(** [Schedule::cron] *)
Definition cron_schedule (id workflow_name expr : string) (now_ms : Z) : outcome Schedule :=
  first_fire ← cron_next "` has no upcoming fire time" expr now_ms;
  Ret {| sc_id := id; sc_workflow_name := workflow_name; sc_input := Null; sc_interval_ms := 0;
         sc_cron := Some expr; sc_next_fire_ms := first_fire; sc_paused := false;
         sc_overlap := OverlapSkip; sc_last_execution_id := None |}.

(** The loop over missed ticks. *)
Fixpoint skip_ticks (fuel : nat) (interval now next : Z) : outcome Z :=
  match fuel with
  | O => Stop Exhausted
  | S fuel =>
    if Z.leb next now then skip_ticks fuel interval now (u64_saturating_add next interval)
    else Ret next
  end.

(** As many rounds as there are ticks up to [now], and one to see it. *)
Definition tick_fuel (interval now next : Z) : nat := S (Z.to_nat ((now - next) / interval + 1)).

Definition advance_past (now : Z) (s : Schedule) : outcome Schedule :=
  match sc_cron s with
  | Some expr =>
    next ← cron_next "` has no further fire time" expr now;
    Ret (set_next_fire next s)
  | None =>
    let first := u64_saturating_add (sc_next_fire_ms s) (sc_interval_ms s) in
    next ← skip_ticks (tick_fuel (sc_interval_ms s) now first) (sc_interval_ms s) now first;
    Ret (set_next_fire next s)
  end.

(** ** Stores *)

Class ScheduleStore (R : Type) := {
  save_schedule : Schedule → R → R * result ();
  get_schedule : string → R → R * result (option Schedule);
  list_schedules : R → R * result (list Schedule);
  remove_schedule : string → R → R * result ();
}.

(** [ScheduleStore::next_deadline]: the default implementation. *)
Definition next_deadline_of_schedules `{ScheduleStore R} (s : R) : R * result (option Z) :=
  let '(s, r) := list_schedules s in
  (s, all ← r; Ok (list_min (map sc_next_fire_ms (List.filter (λ s, negb (sc_paused s)) all)))).

(** The schedules, by id; a failed write happened or did not. *)
Class ScheduleStoreLaws (R : Type) `{ScheduleStore R} := {
  schedules_of : R → gmap string Schedule;
  save_schedule_law sch s :
    let '(s', r) := save_schedule sch s in
    schedules_of s' = <[sc_id sch := sch]> (schedules_of s) ∨
    ((∃ e, r = Err e) ∧ schedules_of s' = schedules_of s);
  list_schedules_law s :
    let '(s', r) := list_schedules s in
    schedules_of s' = schedules_of s ∧
    ∀ l, r = Ok l → l = map snd (btree_iter (schedules_of s));
}.

Module InMemoryScheduleStore.
Definition t : Type := gmap string Schedule.
Definition new : t := ∅.
#[global] Instance schedule_store : ScheduleStore t := {
  save_schedule sch s := (<[sc_id sch := sch]> s, Ok ());
  get_schedule id s := (s, Ok (s !! id));
  list_schedules s := (s, Ok (map snd (btree_iter s)));
  remove_schedule id s := (delete id s, Ok ());
}.
#[global] Program Instance laws : ScheduleStoreLaws t := { schedules_of s := s }.
Next Obligation. intros sch s. by left. Qed.
Next Obligation. intros s. split; [done|]. by intros l [= <-]. Qed.
End InMemoryScheduleStore.

(** [serde_json::to_string_pretty] and [from_str] at a map of schedules. *)
Class ScheduleSerde := {
  schedules_to_string : gmap string Schedule → string + string;
  schedules_from_str : string → string + gmap string Schedule;
}.
Definition ScheduleSerde_roundtrip (s : ScheduleSerde) : Prop :=
  ∀ all, ∃ json, schedules_to_string all = inr json ∧ schedules_from_str json = inr all.

Module FileScheduleStore.
Section file.
Context `{ScheduleSerde}.

(** The text of [schedules.json], if it exists. *)
Record t := { file : option string }.

Definition load_all (s : t) : result (gmap string Schedule) :=
  match file s with
  | None => Ok ∅
  | Some text =>
    match schedules_from_str text with inr all => Ok all | inl e => Err (Json e) end
  end.

Definition save_all (all : gmap string Schedule) (s : t) : t * result () :=
  match schedules_to_string all with
  | inr json => ({| file := Some json |}, Ok ())
  | inl e => (s, Err (Json e))
  end.

#[global] Instance schedule_store : ScheduleStore t := {
  save_schedule sch s :=
    match load_all s with
    | Ok all => save_all (<[sc_id sch := sch]> all) s
    | Err e => (s, Err e)
    end;
  get_schedule id s := (s, all ← load_all s; Ok (all !! id));
  list_schedules s := (s, all ← load_all s; Ok (map snd (btree_iter all)));
  remove_schedule id s :=
    match load_all s with
    | Ok all =>
      match all !! id with
      | Some _ => save_all (delete id all) s
      | None => (s, Ok ())
      end
    | Err e => (s, Err e)
    end;
}.
End file.
End FileScheduleStore.

(** ** The dispatcher *)

Section dispatcher.
Context {St T X R : Type}.
Context `{EventLog St, CheckpointStore St, TimerStore T, ScheduleStore R}.
Context `{ActivityExecutor X, Clock X, Sleep X, SerdeJson, DefinitionSerde}.
Context (eng : Engine) (resolver : string → option Definition_).

(** The schedules and the engine's world. *)
Notation WW := (R * World St T X)%type.

Definition on_schedules {A} (f : R → R * result A) : M WW A := λ sw,
  let '(s, r) := f sw.1 in ((s, sw.2), of_result r).

(** Whether the previous execution of the schedule is still active. *)
Definition still_active (sch : Schedule) : M WW bool :=
  match sc_overlap sch, sc_last_execution_id sch with
  | OverlapSkip, Some prev =>
    found ← in_engine (query prev);
    mret (match found with
          | Some state => negb (WorkflowState.is_terminal (es_status state))
          | None => false
          end)
  | _, _ => mret false
  end.

Definition run_id (sch : Schedule) : string := sc_id sch +:+ ("-" +:+ show_Z (sc_next_fire_ms sch)).

Definition reschedule (now : Z) (sch : Schedule) : M WW () :=
  sch ← lift (advance_past now sch);
  on_schedules (save_schedule sch).

Fixpoint poll_go (now : Z) (schedules : list Schedule) (started : list string) : M WW (list string) :=
  match schedules with
  | [] => mret started
  | sch :: schedules =>
    if sc_paused sch || Z.ltb now (sc_next_fire_ms sch) then poll_go now schedules started
    else
      active ← still_active sch;
      if active : bool then
        _ ← reschedule now sch;
        poll_go now schedules started
      else
        match resolver (sc_workflow_name sch) with
        | None => poll_go now schedules started
        | Some def =>
          let exec_id := run_id sch in
          _ ← in_engine (run eng def exec_id (sc_input sch));
          _ ← reschedule now (set_last_execution exec_id sch);
          poll_go now schedules (started ++ [exec_id])
        end
  end.

Definition poll : M WW (list string) :=
  now ← gets (λ sw : WW, now_millis (w_env sw.2));
  all ← on_schedules list_schedules;
  poll_go now all [].
End dispatcher.
