(* ===== verification/ScheduleInv.v ===== *)
(** * Schedules advance and fire once

    The advance of a schedule to its next tick, and what one poll of the
    dispatcher does to every schedule. *)
From stdpp Require Import base tactics list numbers strings gmap sorting.
From Stdlib Require Import Lia ZArith Ascii.
From S2P Require Import Prelude.
From S2P Require Import RustStr.
From S2P Require Import Common.
From S2P Require Import JsonValue.
From S2P Require Import State.
From S2P Require Import Executor.
From S2P Require Import Template.
From S2P Require Import WorkflowDef.
From S2P Require Import ExecState.
From S2P Require Import Store.
From S2P Require Import Effect.
From S2P Require Import Timer.
From S2P Require Import Engine.
From S2P Require Import EngineInv.
From S2P Require Import Scenario.
From S2P Require Import Worker.
From S2P Require Import Cron.
From S2P Require Import CronInv.
From S2P Require Import Schedule.
Local Open Scope Z_scope.

(** ** The next tick *)

(** An instant from which the search of a cron expression stays within [u64]. *)
Definition clock_ok (now : Z) : Prop :=
  0 <= now ∧ (now / 60000 + 1 + MAX_LOOKAHEAD_MINUTES) * 60000 < u64_modulus.

Lemma clock_ok_max now : clock_ok now → 0 <= now < u64_max.
Proof.
  intros [H0 Hm]. unfold u64_max. split; [done|].
  pose proof (Z.mul_succ_div_gt now 60000 ltac:(lia)). unfold MAX_LOOKAHEAD_MINUTES in Hm. lia.
Qed.

Lemma skip_ticks_spec fuel interval now next :
  0 < interval → now < u64_max → next <= u64_max → (0 < fuel)%nat →
  (next <= now → (now - next) / interval + 1 < Z.of_nat fuel) →
  ∃ k, 0 <= k ∧ skip_ticks fuel interval now next = Ret (Z.min (next + k * interval) u64_max) ∧
    now < Z.min (next + k * interval) u64_max ∧ (0 < k → next + (k - 1) * interval <= now).
Proof.
  intros Hi Hnow. revert next. induction fuel as [|fuel IH]; intros next Hmax Hpos Hf; [lia|].
  cbn [skip_ticks]. destruct (Z.leb_spec next now) as [Hle|Hgt].
  - specialize (Hf Hle).
    assert (0 <= (now - next) / interval) as Hd by (apply Z.div_pos; lia).
    unfold u64_saturating_add.
    set (d := (now - next) / interval) in *.
    destruct (IH (Z.min (next + interval) u64_max)) as (k & Hk & Hs & Hlt & Hprev); [lia|lia| |].
    { intros Hle'. subst d. rewrite Z.min_l by lia.
      replace (now - (next + interval)) with (now - next + (-1) * interval) by lia.
      rewrite Z.div_add by lia. lia. }
    destruct (Z.le_gt_cases (next + interval) u64_max) as [Hsmall|Hlarge].
    + rewrite (Z.min_l (next + interval) u64_max) in * by lia. exists (k + 1).
      replace (next + (k + 1) * interval) with (next + interval + k * interval) by lia.
      split_and!; [lia| |lia|].
      * done.
      * intros _. destruct (Z.eq_dec k 0) as [->|]; [lia|]. specialize (Hprev ltac:(lia)). lia.
    + exists 1. replace (next + 1 * interval) with (next + interval) by lia.
      rewrite (Z.min_r (next + interval) u64_max) in * by lia.
      split_and!; [lia| |lia|intros; lia]. rewrite Hs. f_equal. nia.
  - exists 0. replace (next + 0 * interval) with next by lia. split_and!; try lia.
    by rewrite Z.min_l.
Qed.

Lemma tick_fuel_enough interval now next : 0 < interval → next <= now →
  (now - next) / interval + 1 < Z.of_nat (tick_fuel interval now next).
Proof.
  intros Hi Hle. unfold tick_fuel.
  assert (0 <= (now - next) / interval) by (apply Z.div_pos; lia). lia.
Qed.

(** The advance of an interval schedule, due or not. *)
Lemma advance_interval now s :
  0 <= now < u64_max → 0 <= sc_next_fire_ms s → sc_cron s = None → 0 < sc_interval_ms s →
  ∃ k next, 1 <= k ∧ next = Z.min (sc_next_fire_ms s + k * sc_interval_ms s) u64_max ∧
    advance_past now s = Ret (set_next_fire next s) ∧ now < next ∧
    (sc_next_fire_ms s <= now → sc_next_fire_ms s + (k - 1) * sc_interval_ms s <= now).
Proof.
  intros Hnow Hnext Hcron Hi. unfold advance_past. rewrite Hcron.
  set (first := u64_saturating_add (sc_next_fire_ms s) (sc_interval_ms s)).
  destruct (skip_ticks_spec (tick_fuel (sc_interval_ms s) now first) (sc_interval_ms s) now first)
    as (k & Hk & -> & Hlt & Hprev); [done|lia|subst first; unfold u64_saturating_add; lia| | |].
  { unfold tick_fuel. lia. }
  { by apply tick_fuel_enough. }
  exists (k + 1). eexists. split; [lia|]. split; [|split; [reflexivity|split; [done|]]].
  - subst first. unfold u64_saturating_add. nia.
  - intros Hdue. destruct (Z.eq_dec k 0) as [->|]; [lia|]. specialize (Hprev ltac:(lia)).
    subst first. unfold u64_saturating_add in Hprev. nia.
Qed.

Lemma advance_cron now s expr :
  clock_ok now → sc_cron s = Some expr →
  match advance_past now s with
  | Ret s' => ∃ c k, parse expr = Some (Ok c) ∧ s' = set_next_fire (k * 60000) s ∧
      now < k * 60000 ∧ fires_at c k = true ∧
      ∀ i, now < i * 60000 < k * 60000 → fires_at c i = false
  | Stop r => ∃ e, r = Throw e
  end.
Proof.
  intros [H0 Hm] Hcron. unfold advance_past, cron_next. rewrite Hcron.
  pose proof (parse_some expr) as Hp. destruct (parse expr) as [[c|e]|]; [|by eexists|done].
  cbn. destruct (next_after c now) as [t|] eqn:Hn; [|by eexists].
  destruct (next_after_Some c now t H0 Hm Hn) as (Hlt & k & -> & Hk). cbn. by exists c, k.
Qed.

(** A schedule advances to its next tick and skips the missed ones.  An
    interval schedule moves by the least positive number of intervals (up to the
    largest [u64]) that brings it past [now], so the loop ends and no two ticks
    are made up for; a cron schedule moves to the first matching minute after
    [now], or the advance is an error.  Nothing else of the schedule changes. *)
Theorem advance_past_next_tick now s :
  clock_ok now → 0 <= sc_next_fire_ms s <= now → (sc_cron s = None → 0 < sc_interval_ms s) →
  match sc_cron s with
  | None => ∃ k next, 1 <= k ∧ next = Z.min (sc_next_fire_ms s + k * sc_interval_ms s) u64_max ∧
      advance_past now s = Ret (set_next_fire next s) ∧ now < next ∧
      sc_next_fire_ms s + (k - 1) * sc_interval_ms s <= now
  | Some expr =>
    match advance_past now s with
    | Ret s' => ∃ c k, parse expr = Some (Ok c) ∧ s' = set_next_fire (k * 60000) s ∧
        now < k * 60000 ∧ fires_at c k = true ∧
        ∀ i, now < i * 60000 < k * 60000 → fires_at c i = false
    | Stop r => ∃ e, r = Throw e
    end
  end.
Proof.
  intros Hclock Hnext Hi. destruct (sc_cron s) as [expr|] eqn:Hcron; [by apply advance_cron|].
  destruct (advance_interval now s) as (k & next & ? & ? & ? & ? & Hprev);
    [by apply clock_ok_max|lia|done|by apply Hi|].
  exists k, next. split_and!; try done. apply Hprev. lia.
Qed.

(** Due at 1000 every 300 ms, polled at 2000: the next tick is 2200. *)
Lemma advance_past_next_tick_witness :
  ∃ k next, 1 <= k ∧ next = Z.min (1000 + k * 300) u64_max ∧
    advance_past 2000 (every "s" "w" 300 1000) = Ret (set_next_fire next (every "s" "w" 300 1000)) ∧
    2000 < next ∧ 1000 + (k - 1) * 300 <= 2000.
Proof.
  apply (advance_past_next_tick 2000 (every "s" "w" 300 1000)).
  - split; [lia|vm_compute; reflexivity].
  - cbn. lia.
  - intros _. cbn. lia.
Defined.

(** With an interval of zero, the loop over missed ticks never ends: no fuel
    suffices. *)
Lemma zero_interval_diverges fuel now next : 0 <= next <= now → next <= u64_max →
  skip_ticks fuel 0 now next = Stop Exhausted.
Proof.
  intros Hn Hm. induction fuel as [|fuel IH]; [done|]. cbn [skip_ticks].
  destruct (Z.leb_spec next now); [|lia].
  replace (u64_saturating_add next 0) with next; [done|]. unfold u64_saturating_add. lia.
Qed.

(** ** One poll *)

(** A schedule whose advance ends and lands past [now]. *)
Definition advances (now : Z) (s : Schedule) : Prop :=
  match advance_past now s with
  | Ret s' => ∃ next, s' = set_next_fire next s ∧ now < next
  | Stop r => ∃ e, r = Throw e
  end.

Definition ticking (s : Schedule) : Prop :=
  0 <= sc_next_fire_ms s ∧ (sc_cron s = None → 0 < sc_interval_ms s).

Lemma ticking_advances now s : clock_ok now → ticking s → advances now s.
Proof.
  intros Hclock [Hn Hi]. unfold advances. destruct (sc_cron s) as [expr|] eqn:Hcron.
  - pose proof (advance_cron now s expr Hclock Hcron) as Ha.
    destruct (advance_past now s); [|done]. destruct Ha as (c & k & _ & -> & Hlt & _). by exists (k * 60000).
  - destruct (advance_interval now s) as (k & next & _ & _ & -> & Hlt & _);
      [by apply clock_ok_max|done|done|by apply Hi|]. by exists next.
Qed.

Definition due_at (now : Z) (s : Schedule) : bool :=
  negb (sc_paused s || Z.ltb now (sc_next_fire_ms s)).

(** What a poll makes of one schedule. *)
Inductive polled (resolver : string → option Definition_) (now : Z) (started : list string)
    (s : Schedule) : Schedule → Prop :=
  | polled_idle : due_at now s = false → polled resolver now started s s
  | polled_unresolved : resolver (sc_workflow_name s) = None → polled resolver now started s s
  | polled_skipped next prev :
      due_at now s = true → sc_overlap s = OverlapSkip → sc_last_execution_id s = Some prev →
      now < next → polled resolver now started s (set_next_fire next s)
  | polled_started next :
      due_at now s = true → run_id s ∈ started → now < next →
      polled resolver now started s (set_next_fire next (set_last_execution (run_id s) s)).

Lemma polled_mono resolver now started started' s s' :
  (∀ e, e ∈ started → e ∈ started') → polled resolver now started s s' → polled resolver now started' s s'.
Proof.
  intros Hsub [Hd|Hr|next prev Hd Ho Hl Hn|next Hd Hin Hn].
  - by apply polled_idle.
  - by apply polled_unresolved.
  - by eapply polled_skipped.
  - apply polled_started; auto.
Qed.

Section poll.
Context {St T X R : Type}.
Context `{HEL : EventLog St, HCS : CheckpointStore St, HTS : TimerStore T, HSS : ScheduleStore R}.
Context `{HAE : ActivityExecutor X, HCL : Clock X, HSL : Sleep X, HSJ : SerdeJson, HDS : DefinitionSerde}.
Context `{HLAWS : !StoreLaws St, HTL : !TimerStoreLaws T, HSC : !ScheduleStoreLaws R}.
Context (eng : Engine) (resolver : string → option Definition_).
Context (Hres : resolver_loaded eng) (Hself : ∀ name d, resolver name = Some d → loaded d).
Notation W := (World St T X).

Lemma wp_query_ready e s (w : W) :
  ready_world w →
  wp (in_engine (Q := R) (query e)) (λ found sw, sw.1 = s ∧ ready_world sw.2 ∧ found = snap w e)
    (λ r sw, sw.1 = s ∧ ready_world sw.2 ∧ proper r) (s, w).
Proof.
  intros Hw. assert (during e (λ _, False) w w) as HI by (apply during_refl; apply Hw).
  apply wp_in_engine. eapply wp_mono; [by apply (wp_latest e (λ _, False) w e w HI)|..].
  - intros o w' (Hd & -> & _). split; [done|]. split; [by eapply during_ready|done].
  - intros r w' [Hd Hp]. split; [done|]. split; [by eapply during_ready|done].
Qed.

Lemma wp_run_ready d e input s (w : W) :
  loaded d → ready_world w →
  wp (in_engine (Q := R) (run eng d e input)) (λ r sw, sw.1 = s ∧ ready_world sw.2 ∧ driven sw.2 e r.1)
    (λ r sw, sw.1 = s ∧ ready_world sw.2 ∧ proper r) (s, w).
Proof.
  intros Hd Hw. apply wp_in_engine. eapply wp_mono.
  - apply (wp_run eng Hres); [done|apply Hw|]. intros x _. rewrite (proj2 Hw). set_solver.
  - intros r w' [Hdur Hret]. split; [done|]. split; [by eapply during_ready|by eapply returned_driven].
  - intros r w' [Hdur Hp]. split; [done|]. split; [by eapply during_ready|done].
Qed.

(** Advancing and saving one schedule. *)
Lemma wp_reschedule now sch s (w : W) :
  ready_world w → advances now sch →
  wp (reschedule now sch)
    (λ _ sw, sw.2 = w ∧ ∃ next, now < next ∧
       schedules_of sw.1 = <[sc_id sch := set_next_fire next sch]> (schedules_of s))
    (λ r sw, sw.2 = w ∧ proper r ∧ (schedules_of sw.1 = schedules_of s ∨
       ∃ next, now < next ∧ schedules_of sw.1 = <[sc_id sch := set_next_fire next sch]> (schedules_of s)))
    (s, w).
Proof.
  intros Hw Ha. unfold advances in Ha. unfold reschedule. apply wp_lift_bind.
  destruct (advance_past now sch) as [sch'|r].
  - destruct Ha as (next & -> & Hlt). unfold wp, on_schedules. cbn [fst snd].
    pose proof (save_schedule_law (set_next_fire next sch) s) as Hlaw.
    destruct (save_schedule _ s) as [s' [u|e]]; cbn.
    + destruct Hlaw as [Hs|[[e He] _]]; [|done]. split; [done|]. by exists next.
    + split; [done|]. split; [done|]. destruct Hlaw as [Hs|[_ Hs]]; [right|by left]. by exists next.
  - destruct Ha as [e ->]. split; [done|]. split; [done|]. by left.
Qed.

Lemma wp_still_active sch s (w : W) :
  ready_world w →
  wp (still_active (R := R) sch)
    (λ a sw, sw.1 = s ∧ ready_world sw.2 ∧
       (a = true → sc_overlap sch = OverlapSkip ∧ ∃ prev, sc_last_execution_id sch = Some prev))
    (λ r sw, sw.1 = s ∧ ready_world sw.2 ∧ proper r) (s, w).
Proof.
  intros Hw. unfold still_active.
  destruct (sc_overlap sch); [|by apply wp_ret]. destruct (sc_last_execution_id sch) as [prev|]; [|by apply wp_ret].
  eapply wp_call; [by apply wp_query_ready|]. intros found [s' w'] (Hs & Hw' & _).
  apply wp_ret. cbn in *. split; [done|]. split; [done|]. intros _. split; [done|by exists prev].
Qed.

(** A poll of the schedules [l] from [s] that started [r]. *)
Definition poll_post (now : Z) (l : list Schedule) (started : list string) (s : R)
    (r : list string) (sw : R * W) : Prop :=
  ready_world sw.2 ∧
  (∃ fired, r = started ++ map run_id fired ∧ fired `sublist_of` List.filter (due_at now) l) ∧
  (∀ id, id ∉ map sc_id l → schedules_of sw.1 !! id = schedules_of s !! id) ∧
  (∀ sch, sch ∈ l → ∃ sch', schedules_of sw.1 !! sc_id sch = Some sch' ∧
     polled resolver now r sch sch').

Definition poll_stop (now : Z) (s : R) (r : stop) (sw : R * W) : Prop :=
  ready_world sw.2 ∧ proper r ∧
  ∀ id, schedules_of sw.1 !! id = schedules_of s !! id ∨
    ∃ sch', schedules_of sw.1 !! id = Some sch' ∧ now < sc_next_fire_ms sch'.

(** The first schedule has been dealt with, [head] started for it. *)
Lemma poll_post_cons now sch l started head s s1 r sw sch' :
  sc_id sch ∉ map sc_id l →
  (head = [] ∨ head = [sch] ∧ due_at now sch = true) →
  schedules_of s1 !! sc_id sch = Some sch' →
  (∀ id, id ≠ sc_id sch → schedules_of s1 !! id = schedules_of s !! id) →
  polled resolver now (started ++ map run_id head) sch sch' →
  poll_post now l (started ++ map run_id head) s1 r sw → poll_post now (sch :: l) started s r sw.
Proof.
  intros Hnotin Hhead Hs1 Hframe Hpolled (Hw & (fired & -> & Hfired) & Hout & Hin).
  split; [done|]. split; [|split].
  - exists (head ++ fired). rewrite map_app, app_assoc. split; [done|]. cbn [List.filter].
    destruct Hhead as [->|[-> ->]]; cbn; [|by constructor].
    destruct (due_at now sch); [by constructor|done].
  - intros id Hid. cbn in Hid. apply not_elem_of_cons in Hid as [Hne Hid].
    by rewrite Hout, Hframe.
  - intros q [->|Hq]%elem_of_cons.
    + exists sch'. rewrite Hout by done. split; [done|]. eapply polled_mono; [|done].
      intros e He. apply elem_of_app. by left.
    + by apply Hin.
Qed.

Lemma poll_stop_step now s s1 id sch' r sw :
  (∀ id', id' ≠ id → schedules_of s1 !! id' = schedules_of s !! id') →
  schedules_of s1 !! id = schedules_of s !! id ∨
    (schedules_of s1 !! id = Some sch' ∧ now < sc_next_fire_ms sch') →
  poll_stop now s1 r sw → poll_stop now s r sw.
Proof.
  intros Hframe Hid (Hw & Hp & Hs). split; [done|]. split; [done|]. intros id'.
  destruct (decide (id' = id)) as [->|Hne].
  - destruct (Hs id) as [->|]; [|by right]. destruct Hid as [->|[-> Hlt]]; [by left|]. right. eauto.
  - destruct (Hs id') as [->|]; [|by right]. left. by apply Hframe.
Qed.

Lemma poll_stop_now now s s' r w :
  ready_world w → proper r →
  (schedules_of s' = schedules_of s ∨
     ∃ id sch', now < sc_next_fire_ms sch' ∧ schedules_of s' = <[id := sch']> (schedules_of s)) →
  poll_stop now s r (s', w).
Proof.
  intros Hw Hp Hs. split; [done|]. split; [done|]. cbn. intros id.
  destruct Hs as [->|(id' & sch' & Hlt & ->)]; [by left|].
  destruct (decide (id = id')) as [->|Hne]; [right; rewrite lookup_insert_eq; eauto|left].
  by rewrite lookup_insert_ne.
Qed.

(** Advance, save and go on: the common end of a skipped and of a started tick. *)
Lemma wp_reschedule_then now sch0 sch l started head s (w : W) :
  clock_ok now → ready_world w → ticking sch → sc_id sch = sc_id sch0 →
  sc_id sch0 ∉ map sc_id l →
  (head = [] ∨ head = [sch0] ∧ due_at now sch0 = true) →
  (∀ next, now < next → polled resolver now (started ++ map run_id head) sch0 (set_next_fire next sch)) →
  (∀ s1, (∀ id, id ≠ sc_id sch0 → schedules_of s1 !! id = schedules_of s !! id) →
     wp (poll_go eng resolver now l (started ++ map run_id head))
       (poll_post now l (started ++ map run_id head) s1) (poll_stop now s1) (s1, w)) →
  wp (reschedule now sch ≫= λ _, poll_go eng resolver now l (started ++ map run_id head))
    (poll_post now (sch0 :: l) started s) (poll_stop now s) (s, w).
Proof.
  intros Hclock Hw Htick Hid Hnotin Hhead Hpolled IH.
  eapply wp_call; [eapply wp_mono; [by apply wp_reschedule; [|by apply ticking_advances]|..]|].
  - intros u sw Hsw. exact Hsw.
  - intros r [s1 w1] (Heq & Hp & Hs). cbn in *. subst w1. apply poll_stop_now; [done|done|].
    destruct Hs as [->|(next & Hlt & ->)]; [by left|]. right. by exists (sc_id sch), (set_next_fire next sch).
  - intros _ [s1 w1] (Heq & next & Hlt & Hs). cbn in *. subst w1. rewrite Hid in Hs.
    assert (∀ id, id ≠ sc_id sch0 → schedules_of s1 !! id = schedules_of s !! id) as Hframe
      by (intros id Hne; by rewrite Hs, lookup_insert_ne).
    assert (schedules_of s1 !! sc_id sch0 = Some (set_next_fire next sch)) as Hs1
      by (by rewrite Hs, lookup_insert_eq).
    eapply wp_mono; [by apply IH|..].
    + intros r sw Hpost. eapply poll_post_cons; eauto.
    + intros r sw Hstop. eapply poll_stop_step; eauto.
Qed.

Lemma wp_poll_go now l started s (w : W) :
  clock_ok now → ready_world w → NoDup (map sc_id l) →
  (∀ sch, sch ∈ l → schedules_of s !! sc_id sch = Some sch ∧ ticking sch) →
  wp (poll_go eng resolver now l started) (poll_post now l started s) (poll_stop now s) (s, w).
Proof using Hres Hself HLAWS HTL.
  intros Hclock. revert started s w. induction l as [|sch l IH]; intros started s w Hw Hnd Hl.
  { apply wp_ret. split; [done|]. split; [exists []; split; [by rewrite app_nil_r|constructor]|].
    split; [done|]. by intros sch ?%not_elem_of_nil. }
  cbn [map] in Hnd. apply NoDup_cons in Hnd as [Hnotin Hnd]. destruct (Hl sch) as [Hsch Htick]; [by left|].
  assert (∀ started s1 w1, ready_world w1 →
    (∀ id, id ≠ sc_id sch → schedules_of s1 !! id = schedules_of s !! id) →
    wp (poll_go eng resolver now l started) (poll_post now l started s1) (poll_stop now s1) (s1, w1)) as IH'.
  { intros started1 s1 w1 Hw1 Hframe. apply IH; [done..|]. intros q Hq.
    rewrite Hframe; [apply Hl; by right|]. intros Heq. apply Hnotin. rewrite <-Heq.
    by apply list_elem_of_fmap_2. }
  assert (∀ w1, ready_world w1 → polled resolver now started sch sch →
    wp (poll_go eng resolver now l started) (poll_post now (sch :: l) started s) (poll_stop now s) (s, w1))
    as Hkeep.
  { intros w1 Hw1 Hp. eapply wp_mono; [apply IH'; done| |done]. intros r sw Hpost.
    eapply (poll_post_cons now sch l started []); cbn; rewrite ?app_nil_r; eauto. }
  cbn [poll_go]. fold (due_at now sch).
  destruct (sc_paused sch || Z.ltb now (sc_next_fire_ms sch)) eqn:Hdue.
  { apply Hkeep; [done|]. apply polled_idle. unfold due_at. by rewrite Hdue. }
  assert (due_at now sch = true) as Hdue' by (unfold due_at; by rewrite Hdue).
  eapply wp_call; [eapply wp_mono; [by apply wp_still_active|intros a sw Ha; exact Ha|]|].
  { intros r [s1 w1] (Hs1 & Hw1 & Hp). cbn in *. subst s1. apply poll_stop_now; [done|done|by left]. }
  intros [|] [s1 w1] (Hs1 & Hw1 & Hact); cbn in Hs1, Hw1; subst s1.
  - destruct (Hact eq_refl) as (Ho & prev & Hprev).
    pose proof (wp_reschedule_then now sch sch l started [] s w1) as Hthen. cbn [map] in Hthen.
    rewrite app_nil_r in Hthen. apply Hthen; auto. intros next Hlt. by eapply polled_skipped.
  - destruct (resolver (sc_workflow_name sch)) as [d|] eqn:Hd; [|apply Hkeep; [done|by apply polled_unresolved]].
    eapply wp_call; [eapply wp_mono; [apply wp_run_ready; [by eapply Hself|done]|intros r sw Hr; exact Hr|]|].
    { intros r [s1 w2] (Hs1 & Hw2 & Hp). cbn in *. subst s1. apply poll_stop_now; [done|done|by left]. }
    intros r [s1 w2] (Hs1 & Hw2 & _). cbn in Hs1, Hw2. subst s1.
    apply (wp_reschedule_then now sch (set_last_execution (run_id sch) sch) l started [sch] s w2); auto.
    intros next Hlt. apply polled_started; [done| |done]. apply elem_of_app. right. cbn. by left.
Qed.
End poll.

Lemma listed_schedules (m : gmap string Schedule) :
  (∀ id sch, m !! id = Some sch → sc_id sch = id) →
  map sc_id (map snd (btree_iter m)) = btree_keys m.
Proof.
  intros Hm. transitivity (map fst (btree_iter m)).
  - assert (∀ p, p ∈ btree_iter m → sc_id p.2 = p.1) as Hp
      by (intros [id sch] Hin%btree_iter_elem; by apply Hm).
    clear Hm. induction (btree_iter m) as [|p l IH]; [done|]. cbn. rewrite Hp, IH; [done| |by left].
    intros q Hq. apply Hp. by right.
  - unfold btree_iter. assert (∀ k, k ∈ btree_keys m → is_Some (m !! k)) as Hk
      by (intros k Hk; by apply btree_keys_elem).
    induction (btree_keys m) as [|k l IH]; [done|]. cbn.
    destruct (Hk k) as [v ->]; [by left|]. cbn. rewrite IH; [done|]. intros k' Hk'. apply Hk. by right.
Qed.

(** A poll starts every due schedule at most once and moves it into the
    future.  One poll at time [now], over a lawful store of ticking schedules
    kept under their ids: the executions started are those of some of the due
    schedules, in the order of their ids; every schedule that is paused or not
    yet due stays as it is, as does one whose workflow cannot be resolved; any
    other due schedule is saved with a next fire time after [now], with its run
    started or skipped because it names a previous one; nothing is added or
    removed, and the engine's store stays consistent.  A poll that fails has
    done this to some of the schedules and left the others. *)
Theorem poll_starts_due_once {St T X R} `{StoreLaws St, TimerStoreLaws T, ScheduleStoreLaws R}
    `{ActivityExecutor X, Clock X, Sleep X, SerdeJson, DefinitionSerde}
    eng resolver (s s' : R) (w w' : World St T X) o :
  resolver_loaded eng → (∀ name d, resolver name = Some d → loaded d) → ready_world w →
  clock_ok (now_millis (w_env w)) →
  (∀ id sch, schedules_of s !! id = Some sch → sc_id sch = id ∧ ticking sch) →
  poll eng resolver (s, w) = ((s', w'), o) →
  let now := now_millis (w_env w) in
  ready_world w' ∧
  match o with
  | Ret started =>
      (∃ fired, started = map run_id fired ∧
         fired `sublist_of` List.filter (due_at now) (map snd (btree_iter (schedules_of s)))) ∧
      ∀ id, match schedules_of s !! id with
            | Some sch => ∃ sch', schedules_of s' !! id = Some sch' ∧ polled resolver now started sch sch'
            | None => schedules_of s' !! id = None
            end
  | Stop r => proper r ∧
      ∀ id, schedules_of s' !! id = schedules_of s !! id ∨
        ∃ sch', schedules_of s' !! id = Some sch' ∧ now < sc_next_fire_ms sch'
  end.
Proof.
  intros Hres Hself Hw Hclock Hkeys Hp now. fold now in Hclock.
  unfold poll in Hp. unfold mbind, M_bind, gets in Hp. cbn [snd] in Hp. fold now in Hp.
  unfold on_schedules at 1 in Hp. cbn [fst snd] in Hp.
  pose proof (list_schedules_law s) as Hlist. destruct (list_schedules s) as [s1 r].
  destruct Hlist as [Hs1 Hl]. destruct r as [l|e]; cbn in Hp.
  2: { injection Hp as <- <- <-. split; [done|]. split; [done|]. intros id. left. by rewrite Hs1. }
  specialize (Hl l eq_refl). subst l.
  assert (∀ id sch, schedules_of s !! id = Some sch → sc_id sch = id) as Hid by (intros; by apply Hkeys).
  pose proof (listed_schedules _ Hid) as Hmap.
  pose proof (wp_poll_go eng resolver Hres Hself now (map snd (btree_iter (schedules_of s))) [] s1 w Hclock Hw) as Hwp.
  rewrite Hmap in Hwp. specialize (Hwp (btree_keys_nodup _)).
  unfold wp in Hwp. rewrite Hp in Hwp. destruct o as [started|r].
  - destruct Hwp as (Hw' & (fired & -> & Hfired) & Hout & Hin).
    { intros sch ([id sch'] & -> & Hin%btree_iter_elem)%list_elem_of_fmap. cbn.
      rewrite Hs1, (Hid id) by done. split; [done|]. by eapply Hkeys. }
    split; [done|]. split; [by exists fired|]. intros id.
    destruct (schedules_of s !! id) as [sch|] eqn:Hsch.
    + destruct (Hin sch) as (sch' & Hl' & Hpol).
      { apply list_elem_of_fmap. exists (id, sch). split; [done|]. by apply btree_iter_elem. }
      rewrite (Hid id) in Hl' by done. by exists sch'.
    + cbn in Hout. rewrite Hout; [by rewrite Hs1|]. rewrite Hmap, btree_keys_elem, Hsch. by intros [].
  - destruct Hwp as (Hw' & Hpr & Hall).
    { intros sch ([id sch'] & -> & Hin%btree_iter_elem)%list_elem_of_fmap. cbn.
      rewrite Hs1, (Hid id) by done. split; [done|]. by eapply Hkeys. }
    split; [done|]. split; [done|]. cbn in Hall. intros id.
    destruct (Hall id) as [->|]; [left; by rewrite Hs1|by right].
Qed.

(** One schedule due at 1000, the time of the example world. *)
Definition schedules_example : InMemoryScheduleStore.t :=
  {[ "nightly" := every "nightly" "diamond" 300 400 ]}.
Definition schedule_world : SWorld := fresh 100 handlers_for_all [].

Lemma poll_starts_due_once_witness :
  match poll scenario_engine (λ _, Some diamond) (schedules_example, schedule_world) with
  | ((s', w'), Ret started) => started = ["nightly-400"] ∧ ready_world w' ∧
      ∃ sch', s' !! "nightly" = Some sch' ∧
        polled (λ _, Some diamond) 1000 started (every "nightly" "diamond" 300 400) sch'
  | _ => False
  end.
Proof.
  destruct (poll scenario_engine (λ _, Some diamond) (schedules_example, schedule_world))
    as [[s' w'] o] eqn:Hp.
  assert (o = Ret ["nightly-400"]) as ->.
  { apply (f_equal snd) in Hp. cbn [snd] in Hp. rewrite <- Hp. vm_compute. reflexivity. }
  split; [reflexivity|].
  destruct (poll_starts_due_once scenario_engine (λ _, Some diamond) schedules_example s'
    schedule_world w' (Ret ["nightly-400"])) as (Hw & _ & Hall).
  - exact scenario_resolver_loaded.
  - intros name d [= <-]. apply diamond_loaded.
  - split; [apply fresh_stored|reflexivity].
  - split; [cbn; lia|vm_compute; reflexivity].
  - intros id sch Hl. cbn in Hl. unfold schedules_example in Hl.
    apply lookup_singleton_Some in Hl as [<- <-]. split; [reflexivity|]. split; cbn; [lia|]. intros _. lia.
  - exact Hp.
  - split; [exact Hw|]. specialize (Hall "nightly"). exact Hall.
Defined.
