(* ===== verification/Dispatch.v ===== *)
(** * The dispatchers' loops

    [crates/wovyr-workflow/src/timer.rs], [TimerDispatcher]: firing the timers
    that are due; and the adaptive loop that it shares with the schedule
    dispatcher, which sleeps until the next deadline. *)
From stdpp Require Import base tactics list numbers strings gmap sorting.
From Stdlib Require Import Lia ZArith Ascii.
From S2P Require Import Prelude.
From S2P Require Import RustStr.
From S2P Require Import Common.
From S2P Require Import JsonValue.
From S2P Require Import State.
From S2P Require Import Event.
From S2P Require Import Executor.
From S2P Require Import Template.
From S2P Require Import WorkflowDef.
From S2P Require Import ExecState.
From S2P Require Import Store.
From S2P Require Import Effect.
From S2P Require Import Timer.
From S2P Require Import Engine.
From S2P Require Import EngineInv.
From S2P Require Import Worker.
From S2P Require Import Schedule.

(** [run_adaptive]: [stops] are the answers of [should_stop], one per round; a
    caller that never stops the loop gives it a list as long as it runs. *)
Section adaptive.
Context {W : Type}.
Context (poll : M W (list string)) (now : M W Z) (next_deadline_ms : M W (option Z))
  (sleep_for : Z → M W ()) (max_interval : Z).

Fixpoint run_adaptive (stops : list bool) : M W () :=
  match stops with
  | [] => fail Exhausted
  | true :: _ => mret ()
  | false :: stops =>
    _ ← poll;
    now ← now;
    next ← next_deadline_ms;
    let wait := match next with
                | Some next => u64_saturating_sub next now
                | None => max_interval
                end in
    _ ← sleep_for (Z.min wait max_interval);
    run_adaptive stops
  end.
End adaptive.

Section dispatcher.
Context {St T X : Type}.
Context `{HEL : EventLog St, HCS : CheckpointStore St, HTS : TimerStore T}.
Context `{HAE : ActivityExecutor X, HCL : Clock X, HSL : Sleep X, HSJ : SerdeJson, HDS : DefinitionSerde}.
Context (eng : Engine) (resolver : string → option Definition_).
Notation W := (World St T X).

(** The dispatcher's timers are the engine's: a dispatcher has a store. *)
Definition timers {A} (f : T → T * outcome A) : M W A :=
  r ← on_timers f; lift (expect r).

Fixpoint poll_timers_go (due : list PendingTimer) (fired : list string) : M W (list string) :=
  match due with
  | [] => mret fired
  | timer :: due =>
    found ← query (pt_execution_id timer);
    match found with
    | None =>
      _ ← timers (cancel_timer (pt_execution_id timer) (pt_timer_id timer));
      poll_timers_go due fired
    | Some state =>
      match resolver (es_workflow_name state) with
      | None => poll_timers_go due fired
      | Some def =>
        _ ← fire_timer eng def (pt_execution_id timer) (pt_timer_id timer);
        _ ← timers (cancel_timer (pt_execution_id timer) (pt_timer_id timer));
        poll_timers_go due (fired ++ [pt_timer_id timer])
      end
    end
  end.

Definition poll_timers : M W (list string) :=
  now ← gets (λ w, now_millis (w_env w));
  due ← timers (due now);
  poll_timers_go due [].

Definition timer_next_deadline_ms : M W (option Z) := timers next_deadline.

Definition run_timers (max_interval : Z) : list bool → M W () :=
  run_adaptive poll_timers (gets (λ w, now_millis (w_env w))) timer_next_deadline_ms
    sleep_ms max_interval.

(** ** What a poll touches *)

Context `{HLAWS : !StoreLaws St, HTL : !TimerStoreLaws T}.
Context (Hres : resolver_loaded eng) (Hself : ∀ name d, resolver name = Some d → loaded d).

(** Only the executions in [P] and their sub-workflows have been worked on. *)
Record among (P : string → Prop) (w0 w : W) : Prop := {
  am_stored : stored w;
  am_locks : w_locks w = w_locks w0;
  am_logs : ∀ id, log w0 id `prefix_of` log w id;
  am_frame : ∀ id, (∀ c, P c → ¬ within c id) → log w id = log w0 id ∧ snap w id = snap w0 id;
  am_calls : ∃ new, w_calls w = w_calls w0 ++ new ∧
    ∀ e ctx, (e, ctx) ∈ new → ∃ c, P c ∧ within c e;
}.

Lemma among_refl P w : stored w → among P w w.
Proof.
  intros Hs. split; try done. exists []. split; [by rewrite app_nil_r|]. by intros ? ? ?%not_elem_of_nil.
Qed.

Lemma among_during P c keep w0 w : P c → during c keep w0 w → among P w0 w.
Proof.
  intros Hc [Hs Hlog Hf Hl (new & Hcalls & Hnew)]. split; try done.
  - intros id Hid. by apply Hf, Hid.
  - exists new. split; [done|]. intros e ctx He. exists c. split; [done|]. by apply (Hnew e ctx).
Qed.

Lemma among_trans P w0 w1 w2 : among P w0 w1 → among P w1 w2 → among P w0 w2.
Proof.
  intros [Hs Hl Hlog Hf (new & Hc & Hn)] [Hs' Hl' Hlog' Hf' (new' & Hc' & Hn')]. split.
  - done.
  - congruence.
  - intros id. etrans; [apply Hlog|apply Hlog'].
  - intros id Hid. destruct (Hf' id Hid) as [-> ->]. by apply Hf.
  - exists (new ++ new'). rewrite Hc', Hc, app_assoc. split; [done|].
    intros e ctx [He|He]%elem_of_app; [by eapply Hn|by eapply Hn'].
Qed.

Lemma wp_timers {A} (f : T → T * outcome A) c w :
  stored w → (∀ t, settles (f t).2) →
  wp (timers f) (λ _ w', during c (λ _, False) w w')
    (λ s w', during c (λ _, False) w w' ∧ proper s) w.
Proof.
  intros Hs Hf. unfold timers. eapply wp_call; [by apply (wp_on_timers c _ w _ w (during_refl _ _ _ Hs))|].
  intros [a|] w' (Hd & _); apply wp_lift; done.
Qed.

Lemma wp_poll_timers_go P l fired w :
  ready_world w → (∀ t, t ∈ l → P (pt_execution_id t)) →
  wp (poll_timers_go l fired)
    (λ r w', among P w w' ∧ ∃ done, r = fired ++ map pt_timer_id done ∧ done `sublist_of` l)
    (λ s w', among P w w' ∧ proper s) w.
Proof using Hres Hself HLAWS HTL.
  revert fired w. induction l as [|t l IH]; intros fired w [Hs Hl] HP; cbn [poll_timers_go].
  { apply wp_ret. split; [by apply among_refl|]. exists []. by rewrite app_nil_r. }
  set (c := pt_execution_id t). assert (P c) as Hc by (apply HP; by left).
  assert (∀ w1 fired done, among P w w1 → (done = [] ∨ done = [t]) → fired = map pt_timer_id done →
    ∀ fired0, wp (poll_timers_go l (fired0 ++ fired))
      (λ r w', among P w w' ∧ ∃ done, r = fired0 ++ map pt_timer_id done ∧ done `sublist_of` t :: l)
      (λ s w', among P w w' ∧ proper s) w1) as Hnext.
  { intros w1 f1 done1 Ham Hdone -> fired0. eapply wp_mono; [apply IH| |].
    - split; [apply Ham|]. rewrite (am_locks _ _ _ Ham). done.
    - intros t' Ht'. apply HP. by right.
    - intros r w2 (Ham2 & done2 & -> & Hsub). split; [by eapply among_trans|].
      exists (done1 ++ done2). rewrite map_app, app_assoc. split; [done|].
      destruct Hdone as [->| ->]; cbn; by constructor.
    - intros s w2 [Ham2 Hp]. split; [by eapply among_trans|done]. }
  eapply wp_call; [eapply wp_mono|].
  { apply (wp_latest c (λ _, False) w c w). by apply during_refl. }
  { intros o w1 (Hd & _). exact (among_during P c _ _ _ Hc Hd). }
  { intros s w1 [Hd Hp]. split; [by eapply among_during|done]. }
  intros found w1 Ham1. destruct found as [state|].
  - destruct (resolver (es_workflow_name state)) as [d|] eqn:Hd.
    2: { pose proof (Hnext w1 [] [] Ham1 (or_introl eq_refl) eq_refl fired) as Hn. by rewrite app_nil_r in Hn. }
    unfold fire_timer. eapply wp_call; [eapply wp_mono|].
    { apply (wp_deliver eng Hres c (λ _, False) d _ _ w1); [by eapply Hself|by intros x|apply Ham1| |by intros ? _ x].
      intros x _. rewrite (am_locks _ _ _ Ham1), Hl. set_solver. }
    { intros r w2 [Hdur _]. exact (among_trans _ _ _ _ Ham1 (among_during P c _ _ _ Hc Hdur)). }
    { intros s w2 [Hdur Hp]. split; [exact (among_trans _ _ _ _ Ham1 (among_during P c _ _ _ Hc Hdur))|done]. }
    intros r w2 Ham2. eapply wp_call; [eapply wp_mono|].
    { apply (wp_timers _ c w2); [apply Ham2|]. intros t'. apply cancel_settles. }
    { intros u w3 Hdur. exact (among_trans _ _ _ _ Ham2 (among_during P c _ _ _ Hc Hdur)). }
    { intros s w3 [Hdur Hp]. split; [exact (among_trans _ _ _ _ Ham2 (among_during P c _ _ _ Hc Hdur))|done]. }
    intros u w3 Ham3. by apply (Hnext w3 [pt_timer_id t] [t]); auto.
  - eapply wp_call; [eapply wp_mono|].
    { apply (wp_timers _ c w1); [apply Ham1|]. intros t'. apply cancel_settles. }
    { intros u w3 Hdur. exact (among_trans _ _ _ _ Ham1 (among_during P c _ _ _ Hc Hdur)). }
    { intros s w3 [Hdur Hp]. split; [exact (among_trans _ _ _ _ Ham1 (among_during P c _ _ _ Hc Hdur))|done]. }
    intros u w3 Ham3. pose proof (Hnext w3 [] [] Ham3 (or_introl eq_refl) eq_refl fired) as Hn. by rewrite app_nil_r in Hn.
Qed.

(** A poll of the timers ends and is confined to the executions of due timers:
    what it fires are due timers, in the order of their deadlines; no other
    execution's log or snapshot changes, and no activity of another execution
    is called. *)
Theorem timer_poll_confined w w' o l t :
  ready_world w → w_timers w = Some t → (due (now_millis (w_env w)) t).2 = Ret l →
  poll_timers w = (w', o) →
  among (λ e, e ∈ map pt_execution_id l) w w' ∧
  match o with
  | Ret fired => ∃ hit, fired = map pt_timer_id hit ∧ hit `sublist_of` l
  | Stop s => proper s
  end.
Proof using Hres Hself HLAWS HTL.
  intros Hw Ht Hdue Hp. unfold poll_timers, timers, on_timers, mbind, M_bind, gets in Hp.
  rewrite Ht in Hp. destruct (due (now_millis (w_env w)) t) as [t' r]. cbn in Hdue. subst r. cbn in Hp.
  set (w1 := set_timers (Some t') w) in Hp.
  assert (among (λ e, e ∈ map pt_execution_id l) w w1) as Ham1.
  { split; try done; [apply Hw|]. exists [].
    split; [by rewrite app_nil_r|]. by intros ? ? ?%not_elem_of_nil. }
  pose proof (wp_poll_timers_go (λ e, e ∈ map pt_execution_id l) l [] w1) as Hwp.
  unfold wp in Hwp. rewrite Hp in Hwp. destruct o as [fired|s].
  - destruct Hwp as (Ham & hit & -> & Hsub); [done| |].
    { intros q Hq. by apply (list_elem_of_fmap_2 pt_execution_id). }
    split; [by eapply among_trans|]. by exists hit.
  - destruct Hwp as [Ham Hpr]; [done| |].
    { intros q Hq. by apply (list_elem_of_fmap_2 pt_execution_id). }
    split; [by eapply among_trans|done].
Qed.
End dispatcher.

(** [ScheduleDispatcher::next_deadline_ms] and [run_adaptive]. *)
Section schedules.
Context {St T X R : Type}.
Context `{EventLog St, CheckpointStore St, TimerStore T, ScheduleStore R}.
Context `{ActivityExecutor X, Clock X, Sleep X, SerdeJson, DefinitionSerde}.
Context (eng : Engine) (resolver : string → option Definition_).

Definition schedule_next_deadline_ms : M (R * World St T X) (option Z) :=
  on_schedules next_deadline_of_schedules.

Definition run_schedules (max_interval : Z) : list bool → M (R * World St T X) () :=
  run_adaptive (poll eng resolver) (gets (λ sw, now_millis (w_env sw.2))) schedule_next_deadline_ms
    (λ ms, in_engine (sleep_ms ms)) max_interval.
End schedules.
