(* ===== verification/AuditLog.v ===== *)
(** * The audit log

    [crates/wovyr-audit/src]: the audited event, the hash-chained append-only
    log with its keyed head anchor, the sinks, and the paged reads.  The hash
    functions and the JSON (de)serializers are the libraries'. *)
From stdpp Require Import base tactics list numbers strings sorting.
From Stdlib Require Import Lia ZArith Ascii.
From S2P Require Import Prelude.
From S2P Require Import RustStr.
From S2P Require Import Common.
Local Open Scope Z_scope.

(** ** [event.rs] *)

Inductive ActorType := User | Service | ApiKey | System.
Record Actor := { principal : string; actor_type : ActorType; tenant : string }.
Record Resource := { resource_type : string; resource_id : string }.
Inductive Outcome := Allowed | Denied | ErrorOutcome.

Record AuditEvent := {
  timestamp_ms : Z;
  actor : Actor;
  action : string;
  resource : Resource;
  ae_outcome : Outcome;
  reason : option string;
  request_id : option string;
}.

Definition AuditEvent_new (timestamp_ms : Z) (principal tenant action resource_type resource_id : string)
    : AuditEvent := {|
  timestamp_ms := timestamp_ms;
  actor := {| principal := principal; actor_type := User; tenant := tenant |};
  action := action;
  resource := {| resource_type := resource_type; resource_id := resource_id |};
  ae_outcome := Allowed; reason := None; request_id := None |}.
Definition with_actor_type (t : ActorType) (e : AuditEvent) : AuditEvent := {|
  timestamp_ms := timestamp_ms e;
  actor := {| principal := principal (actor e); actor_type := t; tenant := tenant (actor e) |};
  action := action e; resource := resource e; ae_outcome := ae_outcome e;
  reason := reason e; request_id := request_id e |}.
Definition denied (why : string) (e : AuditEvent) : AuditEvent := {|
  timestamp_ms := timestamp_ms e; actor := actor e; action := action e; resource := resource e;
  ae_outcome := Denied; reason := Some why; request_id := request_id e |}.
Definition errored (why : string) (e : AuditEvent) : AuditEvent := {|
  timestamp_ms := timestamp_ms e; actor := actor e; action := action e; resource := resource e;
  ae_outcome := ErrorOutcome; reason := Some why; request_id := request_id e |}.
Definition with_request_id (id : string) (e : AuditEvent) : AuditEvent := {|
  timestamp_ms := timestamp_ms e; actor := actor e; action := action e; resource := resource e;
  ae_outcome := ae_outcome e; reason := reason e; request_id := Some id |}.

(** ** [log.rs]: the chain *)

Record AuditEntry := {
  id : string;
  seq : Z;
  event : AuditEvent;
  prev_hash : string;
  hash : string;
}.

Record HeadAnchor := { anchor_seq : Z; anchor_hash : string; anchor_mac : string }.
Record NotarizedHead := { head_seq : Z; head_hash : string; head_mac_of : string }.

(** The hashes and the serializers.  [audit_body] is [serde_json::to_vec] of the
    triple, which does not fail. *)
Class AuditCrypto := {
  sha256 : string → string;
  hmac_sha256 : string → string → string;
  audit_body : string → Z → AuditEvent → string;
}.
Class AuditSerde := {
  entry_to_string : AuditEntry → string + string;
  entry_from_str : string → string + AuditEntry;
  anchor_to_string : HeadAnchor → string + string;
  anchor_from_str : string → string + HeadAnchor;
}.

Definition hex_digit (n : N) : ascii := ascii_of_N (if N.ltb n 10 then 48 + n else 87 + n).

(** Lowercase hexadecimal, two digits for a byte. *)
Fixpoint hex_lower (bytes : string) : string :=
  match bytes with
  | "" => ""
  | String b bytes =>
    String (hex_digit (byte_of b / 16)) (String (hex_digit (byte_of b mod 16)) (hex_lower bytes))
  end.

Section chain.
Context `{AuditCrypto}.

Definition chain_hash (key : option string) (prev_hash id : string) (seq : Z) (event : AuditEvent)
    : string :=
  let body := audit_body id seq event in
  match key with
  | Some k => hex_lower (hmac_sha256 k (prev_hash +:+ body))
  | None => hex_lower (sha256 (prev_hash +:+ body))
  end.

(** [u64::to_le_bytes] *)
Fixpoint le_bytes (n : nat) (z : Z) : string :=
  match n with
  | O => ""
  | S n => String (ascii_of_N (Z.to_N (z mod 256))) (le_bytes n (z / 256))
  end.

Definition head_message (seq : Z) (hash : string) : string :=
  "wovyr-audit-head:v1:" +:+ (le_bytes 8 seq +:+ (":" +:+ hash)).
Definition head_mac (key : string) (seq : Z) (hash : string) : string :=
  hex_lower (hmac_sha256 key (head_message seq hash)).
End chain.

(** ** Sinks *)

Record AuditFilter := {
  f_tenant : option string;
  f_principal : option string;
  f_action : option string;
  f_limit : option nat;
  f_after_ms : option Z;
  f_before_ms : option Z;
}.

(** [Option::is_none_or] *)
Definition is_none_or {A} (p : A → bool) (o : option A) : bool :=
  match o with None => true | Some a => p a end.

Definition matches (f : AuditFilter) (e : AuditEntry) : bool :=
  is_none_or (λ t, String.eqb (tenant (actor (event e))) t) (f_tenant f)
  && is_none_or (λ p, String.eqb (principal (actor (event e))) p) (f_principal f)
  && is_none_or (λ a, String.eqb (action (event e)) a) (f_action f)
  && is_none_or (λ from, Z.leb from (timestamp_ms (event e))) (f_after_ms f)
  && is_none_or (λ to, Z.leb (timestamp_ms (event e)) to) (f_before_ms f).

Record AuditPage := { entries : list AuditEntry; next_cursor : option Z }.

(** [sort_by_key(Reverse(seq))] is stable. *)
Definition seq_ge (a b : AuditEntry) : Prop := seq b <= seq a.
#[export] Instance seq_ge_dec : RelDecision seq_ge.
Proof. unfold seq_ge. intros a b. apply _. Defined.

Definition wanted (f : AuditFilter) (before_seq : option Z) (e : AuditEntry) : bool :=
  matches f e && is_none_or (λ b, Z.ltb (seq e) b) before_seq.

(** [AuditSink::query_page]: the default implementation, on the whole log. *)
Definition page_of (f : AuditFilter) (before_seq : option Z) (limit : nat) (all : list AuditEntry)
    : AuditPage :=
  let found := merge_sort seq_ge (List.filter (wanted f before_seq) all) in
  let page := take limit found in
  {| entries := page;
     next_cursor := if Nat.ltb limit (length found) then seq <$> last page else None |}.

Class AuditSink (K : Type) := {
  append_entry : AuditEntry → K → K * result ();
  all_entries : K → result (list AuditEntry);
  query_page : AuditFilter → option Z → nat → K → result AuditPage;
}.

Module InMemoryAuditSink.
Definition t : Type := list AuditEntry.
Definition new : t := [].
#[global] Instance audit_sink : AuditSink t := {
  append_entry e k := (k ++ [e], Ok ());
  all_entries k := Ok k;
  query_page f before limit k := Ok (page_of f before limit k);
}.
End InMemoryAuditSink.

(** ** The bounded backward scan *)

(** The pieces of a buffer: those ended by a line feed, and what follows the
    last one if it is not empty. *)
Definition raw_lines (s : string) : list string :=
  let pieces := split_char newline s in
  let last := List.last pieces "" in
  removelast pieces ++ (if is_empty last then [] else [last]).

(** [u8::is_ascii_whitespace] *)
Definition is_ascii_whitespace (c : ascii) : bool :=
  N.eqb (byte_of c) 32 || N.eqb (byte_of c) 9 || N.eqb (byte_of c) 10
  || N.eqb (byte_of c) 12 || N.eqb (byte_of c) 13.

Section scan.
Context `{AuditSerde}.

Definition parse_entry (line : string) : result AuditEntry :=
  match entry_from_str line with inr e => Ok e | inl m => Err (Json m) end.

(** The lines of one buffer, last first: go on with what was collected, or
    return the page. *)
Fixpoint scan_lines (f : AuditFilter) (before_seq : option Z) (limit : nat) (ls : list string)
    (collected : list AuditEntry) : result (list AuditEntry + AuditPage) :=
  match ls with
  | [] => Ok (inl collected)
  | line :: ls =>
    if str_all is_ascii_whitespace line then scan_lines f before_seq limit ls collected
    else
      entry ← parse_entry line;
      if negb (is_none_or (λ b, Z.ltb (seq entry) b) before_seq)
      then scan_lines f before_seq limit ls collected
      else if negb (matches f entry) then scan_lines f before_seq limit ls collected
      else
        let collected := collected ++ [entry] in
        if Nat.ltb limit (length collected) then
          let page := take limit collected in
          Ok (inr {| entries := page; next_cursor := seq <$> last page |})
        else scan_lines f before_seq limit ls collected
  end.

Fixpoint scan_go (fuel : nat) (f : AuditFilter) (before_seq : option Z) (limit : nat)
    (chunk_bytes : Z) (contents : string) (pos : Z) (carry : string) (collected : list AuditEntry)
    (bytes_read : Z) : option (result (AuditPage * Z)) :=
  match fuel with
  | O => None
  | S fuel =>
    if Z.leb pos 0 then Some (Ok ({| entries := collected; next_cursor := None |}, bytes_read))
    else
      let read_size := Z.min chunk_bytes pos in
      let chunk_start := pos - read_size in
      let buf := String.substring (Z.to_nat chunk_start) (Z.to_nat read_size) contents +:+ carry in
      let bytes_read := bytes_read + read_size in
      match (if Z.eqb chunk_start 0 then Some ("", buf) else split_once (String newline "") buf) with
      | None =>
        scan_go fuel f before_seq limit chunk_bytes contents chunk_start buf collected bytes_read
      | Some (carry, text) =>
        match scan_lines f before_seq limit (reverse (raw_lines text)) collected with
        | Err e => Some (Err e)
        | Ok (inr page) => Some (Ok (page, bytes_read))
        | Ok (inl collected) =>
          scan_go fuel f before_seq limit chunk_bytes contents chunk_start carry collected bytes_read
        end
      end
  end.

Definition READ_CHUNK_BYTES : Z := 64 * 1024.

(** A round for every byte suffices; [None] otherwise, which does not happen
    ([scan_reverse_pages]). *)
Definition scan_reverse (file : option string) (f : AuditFilter) (before_seq : option Z) (limit : nat)
    (chunk_bytes : Z) : option (result (AuditPage * Z)) :=
  match file with
  | None => Some (Ok ({| entries := []; next_cursor := None |}, 0))
  | Some contents =>
    scan_go (S (String.length contents)) f before_seq limit chunk_bytes contents
      (str_len contents) "" [] 0
  end.
End scan.

Module FileAuditSink.
Section file.
Context `{AuditSerde}.

(** The text of [audit.jsonl], if it exists. *)
Record t := { file : option string }.
Definition new : t := {| file := None |}.

Definition append (e : AuditEntry) (k : t) : t * result () :=
  match entry_to_string e with
  | inl m => (k, Err (Json m))
  | inr line => ({| file := Some (default "" (file k) +:+ (line +:+ String newline "")) |}, Ok ())
  end.

Definition all (k : t) : result (list AuditEntry) :=
  match file k with
  | None => Ok []
  | Some text => collect parse_entry (List.filter (λ l, negb (is_empty (trim l))) (lines text))
  end.

#[global] Instance audit_sink : AuditSink t := {
  append_entry := append;
  all_entries := all;
  query_page f before limit k :=
    match scan_reverse (file k) f before limit READ_CHUNK_BYTES with
    | Some r => '(page, _) ← r; Ok page
    | None => Err (Runtime "unreachable")
    end;
}.
End file.
End FileAuditSink.

(** ** The log *)

(** What a log was opened with; [open_keyed] gives it a directory for the head
    anchor along with the key. *)
Record AuditLog := { al_key : option string; al_notarizer : bool }.
Definition AuditLog_open : AuditLog := {| al_key := None; al_notarizer := false |}.
Definition AuditLog_open_keyed (key : string) : AuditLog := {| al_key := Some key; al_notarizer := false |}.
Definition with_notarization (l : AuditLog) : AuditLog := {| al_key := al_key l; al_notarizer := true |}.

(** The sink, the text of [audit.head], and the heads handed to the hook. *)
Record AuditStore (K : Type) := { sink : K; head_file : option string; notarized : list NotarizedHead }.
Arguments sink {K} _.
Arguments head_file {K} _.
Arguments notarized {K} _.
Arguments Build_AuditStore {K} _ _ _.

Section log.
Context {K : Type} `{AuditSink K, AuditCrypto, AuditSerde}.
Context (log : AuditLog).

Definition write_anchor (key : string) (seq : Z) (hash : string) (s : AuditStore K) : AuditStore K * result () :=
  let anchor := {| anchor_seq := seq; anchor_hash := hash; anchor_mac := head_mac key seq hash |} in
  match anchor_to_string anchor with
  | inl e => (s, Err (Json e))
  | inr text => ({| sink := sink s; head_file := Some text; notarized := notarized s |}, Ok ())
  end.

Definition read_anchor (s : AuditStore K) : result (option HeadAnchor) :=
  match head_file s with
  | None => Ok None
  | Some text => match anchor_from_str text with inr a => Ok (Some a) | inl e => Err (Json e) end
  end.

(** The position of the next entry and the hash it links to. *)
Definition tip (existing : list AuditEntry) : Z * string :=
  match last existing with
  | Some e => (seq e + 1, hash e)
  | None => (0, "")
  end.

Definition record (event : AuditEvent) (s : AuditStore K) : AuditStore K * result AuditEntry :=
  match all_entries (sink s) with
  | Err e => (s, Err e)
  | Ok existing =>
    let '(seq, prev_hash) := tip existing in
    let id := "aud-" +:+ show_Z seq in
    let hash := chain_hash (al_key log) prev_hash id seq event in
    let entry := {| id := id; seq := seq; event := event; prev_hash := prev_hash; hash := hash |} in
    let '(k, r) := append_entry entry (sink s) in
    let s := {| sink := k; head_file := head_file s; notarized := notarized s |} in
    match r with
    | Err e => (s, Err e)
    | Ok _ =>
      match al_key log with
      | None => (s, Ok entry)
      | Some key =>
        let '(s, r) := write_anchor key seq hash s in
        match r with
        | Err e => (s, Err e)
        | Ok _ =>
          let head := {| head_seq := seq; head_hash := hash; head_mac_of := head_mac key seq hash |} in
          (if al_notarizer log
           then {| sink := sink s; head_file := head_file s; notarized := notarized s ++ [head] |}
           else s, Ok entry)
        end
      end
    end
  end.

Definition query (f : AuditFilter) (s : AuditStore K) : result (list AuditEntry) :=
  entries ← all_entries (sink s);
  let entries := List.filter (matches f) entries in
  Ok (match f_limit f with
      | Some limit => take limit (reverse entries)
      | None => entries
      end).

Fixpoint verify_chain (i : Z) (prev : string) (entries : list AuditEntry) : result () :=
  match entries with
  | [] => Ok ()
  | e :: entries =>
    if negb (Z.eqb (seq e) i) then
      Err (invalid ("audit chain: entry " +:+ show_Z i +:+ " has out-of-order seq " +:+ show_Z (seq e)))
    else if negb (String.eqb (prev_hash e) prev) then
      Err (invalid ("audit chain broken at seq " +:+ show_Z (seq e) +:+ ": prev_hash mismatch"))
    else if negb (String.eqb (hash e) (chain_hash (al_key log) (prev_hash e) (id e) (seq e) (event e)))
    then
      Err (invalid ("audit chain broken at seq " +:+ show_Z (seq e)
                    +:+ ": hash mismatch (record tampered)"))
    else verify_chain (i + 1) (hash e) entries
  end.

Definition verify_anchor (key : string) (entries : list AuditEntry) (anchor : option HeadAnchor)
    : result () :=
  match anchor with
  | Some anchor =>
    if negb (String.eqb (head_mac key (anchor_seq anchor) (anchor_hash anchor)) (anchor_mac anchor))
    then Err (invalid "audit head anchor tampered: MAC mismatch")
    else
      match last entries with
      | Some last =>
        if Z.ltb (seq last) (anchor_seq anchor) then
          Err (invalid ("audit log truncated: head anchor commits to seq " +:+ show_Z (anchor_seq anchor)
                        +:+ " but the log ends at seq " +:+ show_Z (seq last)))
        else
          match entries !! Z.to_nat (anchor_seq anchor) with
          | Some anchored =>
            if String.eqb (hash anchored) (anchor_hash anchor) then Ok ()
            else Err (invalid ("audit head anchor mismatch at seq " +:+ show_Z (anchor_seq anchor)
                               +:+ ": log diverged from the anchored head"))
          | None => Err (invalid ("audit head anchor mismatch at seq " +:+ show_Z (anchor_seq anchor)
                                  +:+ ": log diverged from the anchored head"))
          end
      | None =>
        Err (invalid ("audit log empty but head anchor commits to seq " +:+ show_Z (anchor_seq anchor)))
      end
  | None =>
    match entries with
    | [] => Ok ()
    | _ => Err (invalid "audit head anchor missing for a non-empty keyed log (removed?)")
    end
  end.

Definition verify (s : AuditStore K) : result () :=
  entries ← all_entries (sink s);
  _ ← verify_chain 0 "" entries;
  match al_key log with
  | None => Ok ()
  | Some key =>
    anchor ← read_anchor s;
    verify_anchor key entries anchor
  end.
End log.
