(* ===== verification/AuditInv.v ===== *)
(** * The audit log is faithful and tamper-evident

    A recorded log verifies; a manipulated one does not, within what the head
    anchor commits to; and the bounded backward scan pages as the full one. *)
From stdpp Require Import countable base tactics list numbers strings sorting.
From Stdlib Require Import Lia ZArith Ascii.
From S2P Require Import Prelude.
From S2P Require Import RustStr.
From S2P Require Import Common.
From S2P Require Import FileStoreInv.
From S2P Require Import AuditLog.
Local Open Scope Z_scope.

(** ** Lawful sinks *)

(** A sink that holds a list of entries gives it back, and takes one more. *)
Class AuditSinkLaws (K : Type) `{AuditSink K} := {
  holds : K → list AuditEntry → Prop;
  all_law k l : holds k l → all_entries k = Ok l;
  append_law e k l : holds k l → ∃ k', append_entry e k = (k', Ok ()) ∧ holds k' (l ++ [e]);
}.

#[export] Program Instance memory_sink_laws : AuditSinkLaws InMemoryAuditSink.t := {
  holds k l := k = l }.
Next Obligation. by intros k l ->. Qed.
Next Obligation. intros e k l ->. by eexists. Qed.

(** The library's documented round trip: a value is written and read back; an
    entry is written on one line. *)
Record AuditSerde_roundtrip (s : AuditSerde) : Prop := {
  entry_roundtrip e : ∃ line, entry_to_string e = inr line ∧ json_line line ∧ entry_from_str line = inr e;
  anchor_roundtrip a : ∃ text, anchor_to_string a = inr text ∧ anchor_from_str text = inr a;
}.

Section file_sink.
Context `{Hs : AuditSerde} (Hrt : AuditSerde_roundtrip Hs).

Definition entry_line (e : AuditEntry) (line : string) : Prop :=
  json_line line ∧ entry_from_str line = inr e.

Lemma entry_lines_plain l ls : Forall2 entry_line l ls → Forall plain_line ls.
Proof. induction 1 as [|e line l ls [Hl _] _ IH]; constructor; [|done]. by apply json_line_plain. Qed.

Program Definition file_sink_laws : AuditSinkLaws FileAuditSink.t := {|
  holds k l := ∃ ls, default "" (FileAuditSink.file k) = text_of_lines ls ∧ Forall2 entry_line l ls |}.
Next Obligation.
  intros k l (ls & Htext & Hls). cbn. unfold FileAuditSink.all.
  assert (collect parse_entry (List.filter (λ l, negb (is_empty (trim l))) ls) = Ok l) as Hc.
  { apply collect_Ok. clear Htext. induction Hls as [|e line l ls [Hl He] _ IH]; [constructor|].
    simpl. destruct (json_line_plain line Hl) as (_ & -> & _). constructor; [|done].
    unfold parse_entry. by rewrite He. }
  destruct (FileAuditSink.file k) as [text|]; simpl in Htext.
  - rewrite Htext, lines_text; [done|by eapply entry_lines_plain].
  - destruct ls as [|line ls]; [by inversion Hls|]. simpl in Htext. by destruct line.
Qed.
Next Obligation.
  intros e k l (ls & Htext & Hls). cbn. unfold FileAuditSink.append.
  destruct (entry_roundtrip _ Hrt e) as (line & -> & Hj & He). eexists. split; [done|].
  exists (ls ++ [line]). cbn. split; [by rewrite text_of_lines_app, Htext|].
  apply Forall2_app; [done|]. constructor; [by split|constructor].
Qed.
End file_sink.

(** ** A recorded log *)

Section recorded.
Context `{AuditCrypto}.

(** The entries are a chain that starts at [i] after [prev]. *)
Fixpoint chained (key : option string) (i : Z) (prev : string) (es : list AuditEntry) : Prop :=
  match es with
  | [] => True
  | e :: es =>
    seq e = i ∧ id e = "aud-" +:+ show_Z i ∧ prev_hash e = prev ∧
    hash e = chain_hash key prev (id e) i (event e) ∧ chained key (i + 1) (hash e) es
  end.

Lemma chained_verifies log i prev es :
  chained (al_key log) i prev es → verify_chain log i prev es = Ok ().
Proof.
  revert i prev. induction es as [|e es IH]; intros i prev; [done|].
  intros (Hi & _ & Hp & Hh & Hes). cbn [verify_chain].
  rewrite Hi, Z.eqb_refl, Hp, String.eqb_refl, <-Hh, String.eqb_refl. by apply IH.
Qed.

Lemma chained_snoc key i prev es e :
  chained key i prev es →
  seq e = i + Z.of_nat (length es) → id e = "aud-" +:+ show_Z (seq e) →
  prev_hash e = default prev (hash <$> last es) →
  hash e = chain_hash key (prev_hash e) (id e) (seq e) (event e) →
  chained key i prev (es ++ [e]).
Proof.
  revert i prev. induction es as [|e' es IH]; intros i prev; cbn [chained app].
  - cbn. intros _ Hs Hid Hp Hh. rewrite Z.add_0_r in Hs. rewrite <-Hs. cbn in Hp. rewrite <-Hp. done.
  - intros (Hi & Hid' & Hp' & Hh' & Hes) Hs Hid Hp Hh. do 4 (split; [done|]).
    apply IH; [done| |done| |done].
    + rewrite Hs. cbn [length]. lia.
    + rewrite Hp. destruct es as [|e'' es]; [done|]. rewrite last_cons_cons.
      by destruct (last (e'' :: es)) eqn:E; [|apply last_None in E].
Qed.

Lemma chained_lookup key i prev es n e : chained key i prev es → es !! n = Some e → seq e = i + Z.of_nat n.
Proof.
  revert i prev n. induction es as [|e' es IH]; intros i prev n; [done|].
  intros (Hi & _ & _ & _ & Hes). destruct n as [|n]; cbn.
  - intros [= <-]. lia.
  - intros Hn. rewrite (IH _ _ _ Hes Hn). lia.
Qed.

Lemma chained_tip key es : chained key 0 "" es →
  tip es = (Z.of_nat (length es), default "" (hash <$> last es)).
Proof.
  intros Hc. unfold tip. destruct (last es) as [e|] eqn:E.
  - cbn. f_equal. rewrite last_lookup in E. rewrite (chained_lookup _ _ _ _ _ _ Hc E).
    destruct es; [done|]. cbn [length pred]. lia.
  - by apply last_None in E as ->.
Qed.
End recorded.

Section recording.
Context {K : Type} `{HSK : AuditSink K, HC : AuditCrypto, HS : AuditSerde}.
Context `{HL : !AuditSinkLaws K} (Hrt : AuditSerde_roundtrip HS).
Context (log : AuditLog).

(** The anchor an honest log keeps. *)
Definition anchor_for (key : string) (es : list AuditEntry) : option HeadAnchor :=
  (λ e, {| anchor_seq := seq e; anchor_hash := hash e; anchor_mac := head_mac key (seq e) (hash e) |})
    <$> last es.

(** The store of a log of entries: the sink holds them, and with a key the
    head anchor commits to the last one. *)
Definition stores (s : AuditStore K) (es : list AuditEntry) : Prop :=
  holds (sink s) es ∧ chained (al_key log) 0 "" es ∧
  ∀ key, al_key log = Some key → read_anchor s = Ok (anchor_for key es).

(** The entry that recording an event makes. *)
Definition next_entry (ev : AuditEvent) (es : list AuditEntry) : AuditEntry :=
  let n := Z.of_nat (length es) in
  let prev := default "" (hash <$> last es) in
  {| id := "aud-" +:+ show_Z n; seq := n; event := ev; prev_hash := prev;
     hash := chain_hash (al_key log) prev ("aud-" +:+ show_Z n) n ev |}.

Lemma next_entry_chained ev es :
  chained (al_key log) 0 "" es → chained (al_key log) 0 "" (es ++ [next_entry ev es]).
Proof. intros Hc. by apply chained_snoc. Qed.

Lemma record_step ev s es : stores s es →
  ∃ s', record log ev s = (s', Ok (next_entry ev es)) ∧ stores s' (es ++ [next_entry ev es]).
Proof using Hrt.
  intros (Hh & Hc & Ha). set (e := next_entry ev es).
  destruct (append_law e _ _ Hh) as (k & Happ & Hk).
  pose proof (next_entry_chained ev es Hc) as Hc'. fold e in Hc'.
  unfold record. rewrite (all_law _ _ Hh), (chained_tip _ _ Hc).
  cbv beta iota zeta. unfold e at 1, next_entry in Happ. cbv zeta in Happ. rewrite Happ. clear Happ.
  destruct (al_key log) as [key|] eqn:Hkey; cbv beta iota.
  - unfold write_anchor. cbn [sink head_file notarized].
    assert (next_entry ev es = e) as He by done. unfold next_entry in He. rewrite Hkey in He. cbv zeta in He.
    rewrite He.
    change (Z.of_nat (length es)) with (seq e).
    change (chain_hash (Some key) (default "" (hash <$> last es)) ("aud-" +:+ show_Z (seq e)) (seq e) ev)
      with (chain_hash (Some key) (prev_hash e) (id e) (seq e) (event e)).
    assert (chain_hash (Some key) (prev_hash e) (id e) (seq e) (event e) = hash e) as ->
      by (unfold e, next_entry; by rewrite Hkey).
    destruct (anchor_roundtrip _ Hrt {| anchor_seq := seq e; anchor_hash := hash e;
      anchor_mac := head_mac key (seq e) (hash e) |}) as (text & -> & Hfrom).
    eexists. split; [reflexivity|]. split; [by destruct (al_notarizer log)|]. split; [by rewrite Hkey|].
    intros key' Hk'. rewrite Hkey in Hk'. injection Hk' as <-. unfold read_anchor, anchor_for. rewrite last_snoc.
    by destruct (al_notarizer log); cbn; rewrite Hfrom.
  - assert (next_entry ev es = e) as He by done. unfold next_entry in He. rewrite Hkey in He. cbv zeta in He.
    rewrite He. eexists. split; [done|]. split; [done|]. rewrite Hkey. by split.
Qed.

Fixpoint record_all (evs : list AuditEvent) (s : AuditStore K) : AuditStore K * list (result AuditEntry) :=
  match evs with
  | [] => (s, [])
  | ev :: evs =>
    let '(s, r) := record log ev s in
    let '(s, rs) := record_all evs s in
    (s, r :: rs)
  end.

Lemma record_all_stores evs s es0 : stores s es0 →
  ∃ s' es, record_all evs s = (s', map Ok es) ∧ stores s' (es0 ++ es) ∧ map event es = evs.
Proof using Hrt.
  revert s es0. induction evs as [|ev evs IH]; intros s es0 Hs.
  - exists s, []. by rewrite app_nil_r.
  - destruct (record_step ev s es0 Hs) as (s1 & Hr & Hs1). cbn [record_all]. rewrite Hr.
    destruct (IH s1 _ Hs1) as (s2 & es & -> & Hs2 & Hev).
    exists s2, (next_entry ev es0 :: es). split; [done|]. rewrite <-app_assoc in Hs2. split; [done|].
    cbn. by rewrite Hev.
Qed.

Lemma stores_verifies s es : stores s es → verify log s = Ok ().
Proof.
  intros (Hh & Hc & Ha). unfold verify. rewrite (all_law _ _ Hh). cbn.
  rewrite chained_verifies by done. cbn. destruct (al_key log) as [key|] eqn:Hkey; [|done].
  rewrite (Ha key eq_refl). cbn. unfold verify_anchor, anchor_for.
  destruct (last es) as [e|] eqn:El; cbn; [|by apply last_None in El as ->].
  rewrite String.eqb_refl. cbn. rewrite Z.ltb_irrefl.
  rewrite last_lookup in El. rewrite (chained_lookup _ _ _ _ _ _ Hc El), Z.add_0_l, Nat2Z.id, El.
  by rewrite String.eqb_refl.
Qed.
End recording.

(** ** Tampering *)

Section tampering.
Context `{HC : AuditCrypto}.

(** Lowercase hexadecimal digits. *)
Definition is_hex (c : ascii) : bool := byte_in 48 57 c || byte_in 97 102 c.

Lemma hex_lower_hex s : str_all is_hex (hex_lower s) = true.
Proof.
  assert (∀ c, is_hex (hex_digit (byte_of c / 16)) = true ∧ is_hex (hex_digit (byte_of c mod 16)) = true) as Hd
    by (intros [[] [] [] [] [] [] [] []]; by vm_compute).
  induction s as [|c s IH]; [done|]. cbn [hex_lower str_all]. destruct (Hd c) as [-> ->]. done.
Qed.

(** What the log relies on of the serializer: the triple is written as a JSON
    array that determines it. *)
Record AuditCrypto_ok : Prop := {
  body_is_array i n ev : ∃ rest, audit_body i n ev = String "[" rest;
  body_determines i n ev i' n' ev' : audit_body i n ev = audit_body i' n' ev' → i = i' ∧ n = n' ∧ ev = ev';
}.

(** The messages whose MACs an honest log of the entries [es] has computed. *)
Definition issued (es : list AuditEntry) (m : string) : Prop :=
  (∃ e, e ∈ es ∧ m = prev_hash e +:+ audit_body (id e) (seq e) (event e)) ∨
  (∃ e, e ∈ es ∧ m = head_message (seq e) (hash e)).

(** The attacker holds no key: a tag that is the MAC of some message at all is
    the MAC of a message the honest log has authenticated. *)
Definition unforged (key : string) (es : list AuditEntry) (tag : string) : Prop :=
  ∀ m, hex_lower (hmac_sha256 key m) = tag → issued es m.

Lemma hex_no_bracket p : str_all is_hex p = true → str_all (other_than "[") p = true.
Proof.
  apply str_all_impl. intros c. unfold other_than. destruct (Ascii.eqb_spec "[" c) as [<-|]; [|done].
  by vm_compute.
Qed.

Lemma bracket_decompose p q b b' :
  str_all is_hex p = true → str_all is_hex q = true →
  p +:+ String "[" b = q +:+ String "[" b' → p = q ∧ b = b'.
Proof.
  intros Hp%hex_no_bracket Hq%hex_no_bracket E.
  pose proof (split_once_first "[" p b Hp) as H1. rewrite E, (split_once_first "[" q b' Hq) in H1.
  by injection H1 as -> ->.
Qed.

Lemma chain_message_no_head p b n h :
  str_all is_hex p = true → p +:+ String "[" b ≠ head_message n h.
Proof.
  unfold head_message. destruct p as [|c p]; [done|]. intros [Hc _]%andb_prop. rewrite str_app_cons.
  intros [= -> _]. by vm_compute in Hc.
Qed.

Lemma le_bytes_length n z : String.length (le_bytes n z) = n.
Proof. revert z. induction n as [|n IH]; intros z; [done|]. cbn. by rewrite IH. Qed.

Lemma str_app_inj_length (a b s t : string) :
  String.length a = String.length b → a +:+ s = b +:+ t → a = b ∧ s = t.
Proof.
  revert b. induction a as [|c a IH]; intros [|d b]; try done.
  rewrite !str_app_cons. intros [= Hl] [= -> E]. by destruct (IH b Hl E) as [-> ->].
Qed.

Lemma le_bytes_inj n z z' : 0 <= z < 256 ^ Z.of_nat n → 0 <= z' < 256 ^ Z.of_nat n →
  le_bytes n z = le_bytes n z' → z = z'.
Proof.
  revert z z'. induction n as [|n IH]; intros z z' Hz Hz'.
  - change (256 ^ Z.of_nat 0) with 1 in *. lia.
  - rewrite Nat2Z.inj_succ, Z.pow_succ_r in * by lia. cbn [le_bytes]. intros [= Hb Hr].
    assert (z mod 256 = z' mod 256) as Hm.
    { pose proof (Z.mod_pos_bound z 256 ltac:(lia)). pose proof (Z.mod_pos_bound z' 256 ltac:(lia)).
      apply (f_equal N_of_ascii) in Hb. rewrite !N_ascii_embedding in Hb by lia. lia. }
    assert (z / 256 = z' / 256) as Hd.
    { apply IH; [| |done]; (split; [apply Z.div_pos; lia|apply Z.div_lt_upper_bound; lia]). }
    rewrite (Z.div_mod z 256), (Z.div_mod z' 256) by lia. by rewrite Hm, Hd.
Qed.

Lemma head_message_inj n h n' h' : is_u64 n → is_u64 n' →
  head_message n h = head_message n' h' → n = n' ∧ h = h'.
Proof.
  intros Hn Hn' E. unfold head_message in E. apply str_app_inj_l in E.
  apply str_app_inj_length in E as [E1 E2]; [|by rewrite !le_bytes_length].
  split.
  - apply (le_bytes_inj 8); [exact Hn|exact Hn'|done].
  - by injection E2.
Qed.

(** Hashes of a keyed chain are hexadecimal, and so are its links. *)
Lemma chained_hex key i prev es e : str_all is_hex prev = true →
  chained (Some key) i prev es → e ∈ es →
  str_all is_hex (prev_hash e) = true ∧ hash e = hex_lower (hmac_sha256 key (prev_hash e +:+ audit_body (id e) (seq e) (event e))).
Proof.
  revert i prev. induction es as [|e' es IH]; intros i prev Hp; [by intros _ ?%not_elem_of_nil|].
  intros (Hi & _ & Hprev & Hh & Hes) [->|He]%elem_of_cons.
  - rewrite Hprev, Hi. split; [done|]. by rewrite Hh.
  - eapply (IH (i + 1)); [|done|done]. rewrite Hh. apply hex_lower_hex.
Qed.

(** A presented entry with an unforged tag is an entry of the honest log. *)
Lemma unforged_entry key es e : AuditCrypto_ok → chained (Some key) 0 "" es →
  str_all is_hex (prev_hash e) = true →
  hash e = chain_hash (Some key) (prev_hash e) (id e) (seq e) (event e) →
  unforged key es (hash e) → e ∈ es.
Proof.
  intros Hok Hc Hp Hh Hu. cbn in Hh. destruct (body_is_array Hok (id e) (seq e) (event e)) as [b Hb].
  destruct (Hu _ (eq_sym Hh)) as [(e' & He' & Hm)|(e' & He' & Hm)].
  - destruct (chained_hex key 0 "" es e' eq_refl Hc He') as [Hp' Hh'].
    destruct (body_is_array Hok (id e') (seq e') (event e')) as [b' Hb'].
    rewrite Hb, Hb' in Hm. apply bracket_decompose in Hm as [Hpp Hbb]; [|done..].
    assert (audit_body (id e) (seq e) (event e) = audit_body (id e') (seq e') (event e')) as Hbody
      by (by rewrite Hb, Hb', Hbb).
    destruct (body_determines Hok _ _ _ _ _ _ Hbody) as (Hid & Hseq & Hev).
    assert (e = e') as ->; [|done].
    assert (hash e = hash e') as Hhh by (by rewrite Hh, Hh', Hpp, Hbody).
    destruct e, e'. cbn in *. congruence.
  - rewrite Hb in Hm. by apply chain_message_no_head in Hm.
Qed.

(** The accepted entries are those of the honest log, position by position. *)
Lemma verified_prefix key es i prev es' : AuditCrypto_ok → chained (Some key) 0 "" es →
  str_all is_hex prev = true → 0 <= i →
  verify_chain (AuditLog_open_keyed key) i prev es' = Ok () →
  (∀ e, e ∈ es' → unforged key es (hash e)) →
  ∀ n e, es' !! n = Some e → es !! (Z.to_nat i + n)%nat = Some e.
Proof.
  intros Hok Hc. revert i prev. induction es' as [|e' es' IH]; intros i prev Hp Hi; [done|].
  cbn [verify_chain]. intros Hv Hu.
  destruct (Z.eqb_spec (seq e') i) as [Hseq|]; [|done].
  destruct (String.eqb_spec (prev_hash e') prev) as [Hprev|]; [|done].
  destruct (String.eqb_spec (hash e')
    (chain_hash (al_key (AuditLog_open_keyed key)) (prev_hash e') (id e') (seq e') (event e'))) as [Hh|]; [|done].
  cbn in Hv. intros [|n] e; cbn.
  - intros [= <-]. assert (e' ∈ es) as Hin.
    { eapply unforged_entry; [done|done|by rewrite Hprev|done|]. apply Hu. by left. }
    apply list_elem_of_lookup in Hin as [j Hj].
    pose proof (chained_lookup _ _ _ _ _ _ Hc Hj) as Hs.
    replace (Z.to_nat i + 0)%nat with j by lia. done.
  - intros Hn. replace (Z.to_nat i + S n)%nat with (Z.to_nat (i + 1) + n)%nat by lia.
    eapply (IH (i + 1) (hash e')); [|lia|done| |done].
    + rewrite Hh. apply hex_lower_hex.
    + intros e0 He0. apply Hu. by right.
Qed.
End tampering.

(** ** Properties *)

(** An honest log verifies.  Recording any events into an empty log, keyed
    or not, over any lawful sink, succeeds; the sink then holds one entry per
    event, in order, numbered from zero and chained by their hashes, and
    [verify] accepts the log with its head anchor. *)
Theorem recorded_log_verifies {K} `{AuditSink K, AuditCrypto, HS : AuditSerde, !AuditSinkLaws K}
    log evs (s : AuditStore K) :
  AuditSerde_roundtrip HS → holds (sink s) [] → head_file s = None →
  ∃ s' es, record_all log evs s = (s', map Ok es) ∧ all_entries (sink s') = Ok es ∧
    map event es = evs ∧ chained (al_key log) 0 "" es ∧ verify log s' = Ok ().
Proof.
  intros Hrt Hh Hhead.
  assert (stores log s []) as Hs.
  { split; [done|]. split; [done|]. intros key _. unfold read_anchor. by rewrite Hhead. }
  destruct (record_all_stores Hrt log evs s [] Hs) as (s' & es & Hr & Hs' & Hev).
  exists s', es. split; [done|]. split; [by apply all_law, Hs'|]. split; [done|].
  split; [apply Hs'|by eapply stores_verifies].
Qed.

(** C30: a manipulated keyed log is detected.  Let an honest keyed log hold the
    entries [es], and let anyone without the key replace its files.  If [verify]
    accepts what they left, with every tag in it either no MAC at all or one
    that the honest log has issued, then the entries are a prefix of [es], and
    either nothing is left, not even the anchor, or the anchor is one the honest
    log issued and every entry up to the anchored one is still there; with the
    latest anchor in place nothing was changed or cut off. *)
Theorem tampering_detected {K} `{AuditSink K, HC : AuditCrypto, AuditSerde}
    key es (s' : AuditStore K) es' :
  AuditCrypto_ok → chained (Some key) 0 "" es → is_u64 (Z.of_nat (length es)) →
  all_entries (sink s') = Ok es' →
  (∀ e, e ∈ es' → unforged key es (hash e)) →
  (∀ a, read_anchor s' = Ok (Some a) → is_u64 (anchor_seq a) ∧ unforged key es (anchor_mac a)) →
  verify (AuditLog_open_keyed key) s' = Ok () →
  es' `prefix_of` es ∧
  (es' = [] ∧ read_anchor s' = Ok None ∨
   ∃ a n e, read_anchor s' = Ok (Some a) ∧ es !! n = Some e ∧ anchor_seq a = Z.of_nat n ∧
     anchor_hash a = hash e ∧ (n < length es')%nat) ∧
  (read_anchor s' = Ok (anchor_for key es) → es' = es).
Proof.
  intros Hok Hc Hlen Hall Hu Hua Hv. unfold verify in Hv. rewrite Hall in Hv. cbn in Hv.
  destruct (verify_chain _ 0 "" es') as [[]|] eqn:Hvc; [|done]. cbn in Hv.
  pose proof (verified_prefix key es 0 "" es' Hok Hc eq_refl ltac:(lia) Hvc Hu) as Hpos.
  assert (es' `prefix_of` es) as Hprefix.
  { exists (drop (length es') es). apply list_eq. intros n.
    destruct (es' !! n) as [e|] eqn:En.
    - rewrite lookup_app_l by (by eapply lookup_lt_Some). rewrite En. by apply (Hpos n).
    - apply lookup_ge_None in En. rewrite lookup_app_r, lookup_drop by done. f_equal. lia. }
  assert (es' = [] ∧ read_anchor s' = Ok None ∨
   ∃ a n e, read_anchor s' = Ok (Some a) ∧ es !! n = Some e ∧ anchor_seq a = Z.of_nat n ∧
     anchor_hash a = hash e ∧ (n < length es')%nat) as Hanchor.
  { destruct (read_anchor s') as [[a|]|]; [|by left; destruct es'|done]. right. cbn in Hv.
    destruct (Hua a eq_refl) as [Hu64 Hua']. unfold verify_anchor in Hv.
    destruct (String.eqb_spec (head_mac key (anchor_seq a) (anchor_hash a)) (anchor_mac a)) as [Hmac|]; [|done].
    cbn in Hv. destruct (last es') as [l|]; [|done]. destruct (Z.ltb (seq l) (anchor_seq a)); [done|].
    destruct (es' !! Z.to_nat (anchor_seq a)) as [e|] eqn:En; [|done].
    exists a, (Z.to_nat (anchor_seq a)), e. split; [done|]. split; [by apply (Hpos _ _ En)|].
    split; [unfold is_u64 in Hu64; lia|]. destruct (String.eqb_spec (hash e) (anchor_hash a)) as [Hhash|]; [|done].
    split; [done|]. by eapply lookup_lt_Some. }
  split; [done|]. split; [done|]. intros Hlatest. destruct Hprefix as [rest ->].
  destruct Hanchor as [[-> Hnone]|(a & n & e & Ha & Hn & Hseq & _ & Hlt)].
  - rewrite Hnone in Hlatest. injection Hlatest as Hl. unfold anchor_for in Hl. cbn in Hl.
    destruct (last rest) eqn:E; [done|]. by apply last_None in E as ->.
  - rewrite Ha in Hlatest. injection Hlatest as Hl. unfold anchor_for in Hl. symmetry in Hl.
    apply fmap_Some in Hl as (l & Hl & ->). cbn in Hseq. rewrite last_lookup in Hl.
    rewrite (chained_lookup _ _ _ _ _ _ Hc Hl), length_app in Hseq.
    destruct rest; [by rewrite app_nil_r|]. cbn [length] in Hseq. lia.
Qed.

(** ** An example *)

#[export] Instance ActorType_eq_dec : EqDecision ActorType.
Proof. solve_decision. Defined.
#[export] Instance Actor_eq_dec : EqDecision Actor.
Proof. solve_decision. Defined.
#[export] Instance Resource_eq_dec : EqDecision Resource.
Proof. solve_decision. Defined.
#[export] Instance Outcome_eq_dec : EqDecision Outcome.
Proof. solve_decision. Defined.
#[export] Instance AuditEvent_eq_dec : EqDecision AuditEvent.
Proof. solve_decision. Defined.
#[export] Instance AuditEntry_eq_dec : EqDecision AuditEntry.
Proof. solve_decision. Defined.
#[export] Instance HeadAnchor_eq_dec : EqDecision HeadAnchor.
Proof. solve_decision. Defined.

#[export] Instance ActorType_countable : Countable ActorType.
Proof.
  refine (inj_countable' (λ t, match t with User => 0%nat | Service => 1 | ApiKey => 2 | System => 3 end)%nat
    (λ n, match n with 0 => User | 1 => Service | 2 => ApiKey | _ => System end)%nat _). by intros [].
Defined.
#[export] Instance Outcome_countable : Countable Outcome.
Proof.
  refine (inj_countable' (λ t, match t with Allowed => 0%nat | Denied => 1 | ErrorOutcome => 2 end)%nat
    (λ n, match n with 0 => Allowed | 1 => Denied | _ => ErrorOutcome end)%nat _). by intros [].
Defined.
#[export] Instance Actor_countable : Countable Actor.
Proof.
  refine (inj_countable' (λ a, (principal a, actor_type a, tenant a))
    (λ '(p, t, n), {| principal := p; actor_type := t; tenant := n |}) _). by intros [].
Defined.
#[export] Instance Resource_countable : Countable Resource.
Proof.
  refine (inj_countable' (λ r, (resource_type r, resource_id r))
    (λ '(t, i), {| resource_type := t; resource_id := i |}) _). by intros [].
Defined.
#[export] Instance AuditEvent_countable : Countable AuditEvent.
Proof.
  refine (inj_countable' (λ e, (timestamp_ms e, actor e, action e, resource e, ae_outcome e, reason e, request_id e))
    (λ '(t, a, n, r, o, w, q), {| timestamp_ms := t; actor := a; action := n; resource := r;
                                  ae_outcome := o; reason := w; request_id := q |}) _). by intros [].
Defined.
#[export] Instance AuditEntry_countable : Countable AuditEntry.
Proof.
  refine (inj_countable' (λ e, (id e, seq e, event e, prev_hash e, hash e))
    (λ '(i, s, v, p, h), {| id := i; seq := s; event := v; prev_hash := p; hash := h |}) _). by intros [].
Defined.
#[export] Instance HeadAnchor_countable : Countable HeadAnchor.
Proof.
  refine (inj_countable' (λ a, (anchor_seq a, anchor_hash a, anchor_mac a))
    (λ '(s, h, m), {| anchor_seq := s; anchor_hash := h; anchor_mac := m |}) _). by intros [].
Defined.

(** A stand-in for the hash functions and JSON: an injective MAC that writes
    the key and the message down, and texts of binary digits. *)
Definition audit_crypto_example : AuditCrypto := {|
  sha256 m := m;
  hmac_sha256 k m := k +:+ String ":" m;
  audit_body i n ev := String "[" (countable_text (i, n, ev)) |}.
Definition audit_serde_example : AuditSerde := {|
  entry_to_string e := inr (in_braces (countable_text e));
  entry_from_str s := match out_of_braces s ≫= read_countable with Some e => inr e | None => inl "syntax" end;
  anchor_to_string a := inr (countable_text a);
  anchor_from_str s := match read_countable s with Some a => inr a | None => inl "syntax" end |}.

Lemma pos_text_plain p : str_all (other_than newline) (pos_text p) = true.
Proof. induction p as [p IH|p IH|]; cbn; by rewrite ?IH. Qed.

Lemma audit_serde_example_roundtrip : AuditSerde_roundtrip audit_serde_example.
Proof.
  split.
  - intros e. exists (in_braces (countable_text e)). split; [done|]. split.
    + split; [|by eexists]. cbn. rewrite str_all_app. unfold countable_text. by rewrite pos_text_plain.
    + cbn [entry_from_str audit_serde_example]. rewrite out_of_braces_in. cbn [mbind option_bind].
      by rewrite read_countable_text.
  - intros a. eexists. split; [done|]. cbn. by rewrite read_countable_text.
Qed.

Definition audit_events_example : list AuditEvent :=
  [AuditEvent_new 1 "ada" "acme" "secret.create" "secret" "secret://acme/token";
   denied "missing scope" (AuditEvent_new 2 "bob" "acme" "secret.read" "secret" "secret://acme/token");
   AuditEvent_new 3 "ada" "acme" "agent.run" "agent" "a1"].

(** The keyed log of three events in a file. *)
Definition empty_audit_file : AuditStore FileAuditSink.t :=
  {| sink := FileAuditSink.new; head_file := None; notarized := [] |}.

Lemma recorded_log_verifies_witness :
  let s' := (@record_all _ (@FileAuditSink.audit_sink audit_serde_example) audit_crypto_example
    audit_serde_example (AuditLog_open_keyed "k") audit_events_example empty_audit_file).1 in
  @verify _ (@FileAuditSink.audit_sink audit_serde_example) audit_crypto_example audit_serde_example
    (AuditLog_open_keyed "k") s' = Ok ().
Proof.
  intros s'. pose proof (@recorded_log_verifies _ (@FileAuditSink.audit_sink audit_serde_example)
    audit_crypto_example audit_serde_example (file_sink_laws audit_serde_example_roundtrip)
    (AuditLog_open_keyed "k") audit_events_example empty_audit_file audit_serde_example_roundtrip) as H.
  destruct H as (s2 & es & Hr & _ & _ & _ & Hv); [exists []; split; [reflexivity|constructor]|reflexivity|].
  unfold s'. rewrite Hr. exact Hv.
Defined.

(** The log of the example, entry by entry. *)
Definition keyed_example : AuditLog := AuditLog_open_keyed "k".
Definition entries_example : list AuditEntry :=
  foldl (λ es ev, es ++ [@next_entry audit_crypto_example keyed_example ev es]) [] audit_events_example.

Lemma hex_lower_inj s t : hex_lower s = hex_lower t → s = t.
Proof.
  assert (∀ b, ascii_of_N (16 * (byte_of b / 16) + byte_of b mod 16) = b) as Hb
    by (intros [[] [] [] [] [] [] [] []]; by vm_compute).
  assert (∀ n, (n < 16)%N → byte_of (hex_digit n) = if N.ltb n 10 then 48 + n else 87 + n)%N as Hd.
  { intros n Hn. unfold hex_digit, byte_of. apply N_ascii_embedding. destruct (N.ltb_spec n 10); lia. }
  assert (∀ n m, (n < 16)%N → (m < 16)%N → hex_digit n = hex_digit m → n = m) as Hinj.
  { intros n m Hn Hm E. apply (f_equal byte_of) in E. rewrite !Hd in E by done.
    destruct (N.ltb_spec n 10), (N.ltb_spec m 10); lia. }
  revert t. induction s as [|b s IH]; intros [|c t]; try done. cbn [hex_lower]. intros [= E1 E2 E3].
  assert (∀ x, byte_of x < 256)%N as Hbyte by (intros [[] [] [] [] [] [] [] []]; by vm_compute).
  apply Hinj in E1; [|apply N.Div0.div_lt_upper_bound, Hbyte..].
  apply Hinj in E2; [|by apply N.mod_lt..].
  by rewrite <-(Hb b), <-(Hb c), E1, E2, (IH t).
Qed.

Lemma example_unforged es e : @chained audit_crypto_example (Some "k") 0 "" es → e ∈ es →
  @unforged audit_crypto_example "k" es (hash e) ∧
  @unforged audit_crypto_example "k" es (@head_mac audit_crypto_example "k" (seq e) (hash e)).
Proof.
  intros Hc He. destruct (chained_hex "k" 0 "" es e eq_refl Hc He) as [_ Hh]. split.
  - intros m Hm. rewrite Hh in Hm. apply hex_lower_inj in Hm. cbn in Hm. injection Hm as Hm.
    left. by exists e.
  - intros m Hm. unfold head_mac in Hm. apply hex_lower_inj in Hm. cbn in Hm. injection Hm as Hm.
    right. by exists e.
Qed.

Lemma example_chained evs es : @chained audit_crypto_example (Some "k") 0 "" es →
  @chained audit_crypto_example (Some "k") 0 ""
    (foldl (λ es ev, es ++ [@next_entry audit_crypto_example keyed_example ev es]) es evs).
Proof.
  revert es. induction evs as [|ev evs IH]; intros es Hc; [done|]. cbn [foldl]. apply IH.
  by apply (@next_entry_chained audit_crypto_example keyed_example).
Qed.

Lemma entries_example_chained : @chained audit_crypto_example (Some "k") 0 "" entries_example.
Proof. by apply example_chained. Qed.

Lemma entries_example_u64 : is_u64 (Z.of_nat (length entries_example)).
Proof. unfold entries_example. cbn. unfold is_u64, u64_modulus. lia. Qed.

Lemma audit_crypto_example_ok : @AuditCrypto_ok audit_crypto_example.
Proof.
  split.
  - intros i n ev. by eexists.
  - intros i n ev i' n' ev' E. cbn in E. injection E as E.
    apply (f_equal (@read_countable (string * Z * AuditEvent) _ _)) in E.
    rewrite !read_countable_text in E. by injection E as -> -> ->.
Qed.

(** The tail is cut off and an old anchor, that of the first [n] entries, is put
    back: such a log still verifies. *)
Definition rolled_back (n : nat) : AuditStore InMemoryAuditSink.t :=
  let first := take n entries_example in
  {| sink := first;
     head_file := countable_text <$> @anchor_for audit_crypto_example "k" first; notarized := [] |}.

Lemma rolled_back_anchor n :
  @read_anchor _ audit_serde_example (rolled_back n) =
    Ok (@anchor_for audit_crypto_example "k" (take n entries_example)).
Proof.
  unfold read_anchor, rolled_back. cbn [head_file].
  destruct (@anchor_for audit_crypto_example "k" (take n entries_example)) as [a|]; [|done].
  cbn [fmap option_fmap option_map anchor_from_str audit_serde_example]. by rewrite read_countable_text.
Qed.

Lemma chained_take `{AuditCrypto} key i prev n es : chained key i prev es → chained key i prev (take n es).
Proof.
  revert i prev es. induction n as [|n IH]; intros i prev [|e es]; [done..|].
  intros (? & ? & ? & ? & Hes). cbn [take chained]. do 4 (split; [done|]). by apply IH.
Qed.

Lemma rolled_back_verifies n :
  @verify _ _ audit_crypto_example audit_serde_example keyed_example (rolled_back n) = Ok ().
Proof.
  apply (@stores_verifies _ _ audit_crypto_example audit_serde_example memory_sink_laws keyed_example _
    (take n entries_example)).
  split; [done|]. split; [by apply chained_take, entries_example_chained|].
  intros key [= <-]. apply rolled_back_anchor.
Qed.

Lemma rolled_back_presents n :
  (∀ e, e ∈ take n entries_example → @unforged audit_crypto_example "k" entries_example (hash e)) ∧
  (∀ a, @read_anchor _ audit_serde_example (rolled_back n) = Ok (Some a) →
     is_u64 (anchor_seq a) ∧ @unforged audit_crypto_example "k" entries_example (anchor_mac a)).
Proof.
  pose proof entries_example_chained as Hc.
  assert (∀ e, e ∈ take n entries_example → e ∈ entries_example) as Hsub.
  { intros e He. rewrite <-(take_drop n entries_example). apply elem_of_app. by left. }
  split; [intros e He; by apply (example_unforged _ _ Hc), Hsub|].
  intros a Ha. rewrite rolled_back_anchor in Ha. injection Ha as Ha. unfold anchor_for in Ha.
  apply fmap_Some in Ha as (e & He & ->). cbn [anchor_seq anchor_mac].
  assert (e ∈ entries_example) as Hin by (by apply Hsub, last_Some_elem_of).
  split; [|by apply (example_unforged _ _ Hc)].
  apply list_elem_of_lookup in Hin as [j Hj]. rewrite (chained_lookup _ _ _ _ _ _ Hc Hj).
  apply lookup_lt_Some in Hj. pose proof entries_example_u64 as Hlen. unfold is_u64 in *. lia.
Qed.

Lemma tampering_detected_witness :
  take 1 entries_example `prefix_of` entries_example ∧
  (@read_anchor _ audit_serde_example (rolled_back 1) = Ok (@anchor_for audit_crypto_example "k" entries_example) →
   take 1 entries_example = entries_example).
Proof.
  destruct (rolled_back_presents 1) as [Hu Ha].
  destruct (@tampering_detected _ InMemoryAuditSink.audit_sink audit_crypto_example audit_serde_example
    "k" entries_example (rolled_back 1) (take 1 entries_example) audit_crypto_example_ok
    entries_example_chained entries_example_u64 eq_refl Hu Ha (rolled_back_verifies 1)) as (Hp & _ & Hl).
  split; [exact Hp|exact Hl].
Defined.

(** ** The bounded backward scan

    Reading the audit file backward in chunks of any size gives the page that
    reading it whole, filtering and sorting gives. *)

(** *** Pieces of a buffer *)

Lemma split_char_app_sep a s t : split_char a (s +:+ String a t) = split_char a s ++ split_char a t.
Proof.
  induction s as [|c s IH].
  - rewrite str_app_nil. cbn [split_char]. by rewrite Ascii.eqb_refl.
  - rewrite str_app_cons. cbn [split_char]. rewrite IH. destruct (Ascii.eqb a c); [done|].
    destruct (split_char_cons a s) as (w & ws & ->). done.
Qed.

Lemma split_once_absent_all p s : split_once (String p "") s = None → str_all (other_than p) s = true.
Proof.
  induction s as [|c s IH]; [done|]. cbn [split_once strip_prefix str_all].
  unfold other_than at 1. destruct (Ascii.eqb p c); [done|]. intros H. cbn. apply IH.
  by destruct (split_once (String p "") s).
Qed.

Lemma split_once_first_inv p s a b : split_once (String p "") s = Some (a, b) →
  s = a +:+ String p b.
Proof. intros H. by apply split_once_app in H. Qed.

Section pieces.
Context `{AuditSerde}.

(** The lines that count: those that are not blank. *)
Definition blank (l : string) : bool := str_all is_ascii_whitespace l.
Definition text_lines (s : string) : list string := List.filter (λ l, negb (blank l)) (raw_lines s).

Lemma text_lines_pieces s :
  text_lines s = List.filter (λ l, negb (blank l)) (split_char newline s).
Proof.
  unfold text_lines, raw_lines. destruct (split_char_cons newline s) as (w & ws & ->).
  pose proof (app_removelast_last (l := w :: ws) "" ltac:(done)) as E.
  set (init := removelast (w :: ws)) in *. set (l := List.last (w :: ws) "") in *.
  rewrite E, !List.filter_app. f_equal. by destruct l.
Qed.

Lemma text_lines_app s t : text_lines (s +:+ String newline t) = text_lines s ++ text_lines t.
Proof. by rewrite !text_lines_pieces, split_char_app_sep, List.filter_app. Qed.

(** *** Scanning lines *)

(** Scanning a list of parsed entries. *)
Fixpoint scan_entries (f : AuditFilter) (before : option Z) (limit : nat) (es : list AuditEntry)
    (collected : list AuditEntry) : list AuditEntry + AuditPage :=
  match es with
  | [] => inl collected
  | e :: es =>
    if wanted f before e then
      let collected := collected ++ [e] in
      if Nat.ltb limit (length collected) then
        let page := take limit collected in
        inr {| entries := page; next_cursor := seq <$> last page |}
      else scan_entries f before limit es collected
    else scan_entries f before limit es collected
  end.

Lemma scan_lines_entries f before limit ls es collected :
  collect parse_entry (List.filter (λ l, negb (blank l)) ls) = Ok es →
  scan_lines f before limit ls collected = Ok (scan_entries f before limit es collected).
Proof.
  revert es collected. induction ls as [|l ls IH]; intros es collected.
  - intros [= <-]. done.
  - cbn [List.filter scan_lines]. unfold blank at 1. destruct (str_all is_ascii_whitespace l); [apply IH|].
    cbn [negb collect]. intros (e & He & (es' & Hes & [= <-])%result_bind_Ok)%result_bind_Ok.
    rewrite He. cbn [mbind result_bind scan_entries]. unfold wanted.
    destruct (is_none_or _ before); cbn [negb]; [|rewrite andb_false_r; by apply IH].
    rewrite andb_true_r. destruct (matches f e); cbn [negb]; [|by apply IH].
    destruct (Nat.ltb limit _); [done|]. by apply IH.
Qed.

Lemma scan_entries_app f before limit es es' collected :
  scan_entries f before limit (es ++ es') collected =
    match scan_entries f before limit es collected with
    | inl collected => scan_entries f before limit es' collected
    | inr page => inr page
    end.
Proof.
  revert collected. induction es as [|e es IH]; intros collected; [done|]. cbn [app scan_entries].
  destruct (wanted f before e); [|apply IH]. destruct (Nat.ltb limit _); [done|apply IH].
Qed.

Lemma collect_app {A B} (g : A → result B) l l' bs :
  collect g (l ++ l') = Ok bs ↔ ∃ bs1 bs2, bs = bs1 ++ bs2 ∧ collect g l = Ok bs1 ∧ collect g l' = Ok bs2.
Proof.
  rewrite collect_Ok. split.
  - intros (b1 & b2 & ? & ? & ->)%Forall2_app_inv_l. exists b1, b2. by rewrite !collect_Ok.
  - intros (b1 & b2 & -> & H1%collect_Ok & H2%collect_Ok). by apply Forall2_app.
Qed.

Lemma collect_reverse {A B} (g : A → result B) l bs :
  collect g l = Ok bs → collect g (reverse l) = Ok (reverse bs).
Proof.
  rewrite !collect_Ok. induction 1 as [|a b l bs Hab _ IH]; [constructor|].
  rewrite !reverse_cons. apply Forall2_app; [done|by constructor].
Qed.

Lemma filter_reverse {A} (g : A → bool) (l : list A) : List.filter g (reverse l) = reverse (List.filter g l).
Proof.
  induction l as [|a l IH]; [done|]. rewrite reverse_cons, List.filter_app, IH. cbn [List.filter].
  destruct (g a); [by rewrite reverse_cons|by rewrite app_nil_r].
Qed.

(** *** Pages *)

Lemma scan_entries_page f before limit l c :
  (length c <= limit)%nat →
  let m := c ++ List.filter (wanted f before) l in
  scan_entries f before limit l c =
    if Nat.ltb limit (length m)
    then inr {| entries := take limit m; next_cursor := seq <$> last (take limit m) |}
    else inl m.
Proof.
  revert c. induction l as [|e l IH]; intros c Hc; cbn [scan_entries List.filter].
  - rewrite app_nil_r. by rewrite (proj2 (Nat.ltb_ge _ _)).
  - destruct (wanted f before e); [|by apply IH]. cbv zeta.
    destruct (Nat.ltb_spec limit (length (c ++ [e]))) as [Hlt|Hge].
    + replace (c ++ e :: List.filter (wanted f before) l)
        with ((c ++ [e]) ++ List.filter (wanted f before) l) by (by rewrite <-app_assoc).
      rewrite (proj2 (Nat.ltb_lt limit _)) by (rewrite (length_app (c ++ [e])); lia).
      by rewrite (take_app_le (c ++ [e])) by lia.
    + rewrite IH by lia. cbv zeta. by rewrite <-app_assoc.
Qed.

(** The entries of an append-only log have increasing numbers. *)
Definition ascending (es : list AuditEntry) : Prop := StronglySorted (λ a b, seq a < seq b) es.

Lemma ascending_filter (p : AuditEntry → bool) es : ascending es → ascending (List.filter p es).
Proof.
  unfold ascending. induction 1 as [|e es Hes IH Hall]; cbn; [constructor|].
  destruct (p e); [|done]. constructor; [done|]. apply Forall_forall. intros x [Hx _]%filter_elem.
  rewrite Forall_forall in Hall. by apply Hall.
Qed.

Lemma sort_ascending es : ascending es → merge_sort seq_ge es = reverse es.
Proof.
  intros Hes.
  assert (Transitive seq_ge) as Htr by (intros a b c; unfold seq_ge; lia).
  assert (Total seq_ge) as Htot by (intros a b; unfold seq_ge; lia).
  assert (∀ a b, a ∈ es → b ∈ es → seq a = seq b → a = b) as Hinj.
  { clear -Hes. induction Hes as [|e es _ IH Hall]; intros a b Ha Hb Hab; [by apply not_elem_of_nil in Ha|].
    rewrite Forall_forall in Hall.
    apply elem_of_cons in Ha as [->|Ha], Hb as [->|Hb]; [done|..|by apply IH].
    - specialize (Hall b Hb). cbn in Hall. lia.
    - specialize (Hall a Ha). cbn in Hall. lia. }
  apply (Sorted_unique_strong seq_ge).
  - intros a b. rewrite merge_sort_Permutation, elem_of_reverse. unfold seq_ge. intros Ha Hb H1 H2.
    apply Hinj; [done..|lia].
  - by apply Sorted_merge_sort.
  - apply StronglySorted_Sorted. clear -Hes. induction Hes as [|e es _ IH Hall]; [constructor|].
    rewrite reverse_cons. apply StronglySorted_app_2; [|done|repeat constructor].
    intros x1 x2 H1 ->%list_elem_of_singleton. rewrite elem_of_reverse in H1. rewrite Forall_forall in Hall.
    specialize (Hall x1 H1). cbn in Hall. unfold seq_ge. lia.
  - by rewrite merge_sort_Permutation, reverse_Permutation.
Qed.

Lemma page_of_scan f before limit es : ascending es →
  page_of f before limit es =
    match scan_entries f before limit (reverse es) [] with
    | inl c => {| entries := c; next_cursor := None |}
    | inr page => page
    end.
Proof.
  intros Hes. rewrite scan_entries_page by (cbn; lia). cbv zeta. cbn [app]. unfold page_of.
  rewrite filter_reverse, sort_ascending by by apply ascending_filter.
  destruct (Nat.ltb_spec limit (length (reverse (List.filter (wanted f before) es)))) as [|Hge]; [done|].
  by rewrite take_ge.
Qed.

(** *** The loop over the chunks *)

Lemma substring_all (s : string) : String.substring 0 (String.length s) s = s.
Proof. induction s as [|c s IH]; [done|]. cbn. by rewrite IH. Qed.

Lemma substring_app (s : string) a b :
  String.substring 0 (a + b) s = String.substring 0 a s +:+ String.substring a b s.
Proof.
  revert a. induction s as [|c s IH]; intros [|a]; [by destruct b|done|done|].
  cbn [Nat.add String.substring]. by rewrite str_app_cons, IH.
Qed.

(** What is left to scan: the bytes before [pos] and the carried tail. *)
Definition rest_of (contents : string) (pos : Z) (carry : string) : string :=
  String.substring 0 (Z.to_nat pos) contents +:+ carry.

Lemma rest_of_chunk contents pos start carry : 0 <= start <= pos →
  rest_of contents pos carry =
    rest_of contents start
      (String.substring (Z.to_nat start) (Z.to_nat (pos - start)) contents +:+ carry).
Proof.
  intros Hs. unfold rest_of. rewrite <-str_app_assoc, <-substring_app. do 2 f_equal. lia.
Qed.

Definition finish (r : list AuditEntry + AuditPage) : AuditPage :=
  match r with inl c => {| entries := c; next_cursor := None |} | inr page => page end.

Lemma scan_lines_text f before limit text es collected :
  collect parse_entry (text_lines text) = Ok es →
  scan_lines f before limit (reverse (raw_lines text)) collected =
    Ok (scan_entries f before limit (reverse es) collected).
Proof.
  intros Hes. apply scan_lines_entries. rewrite filter_reverse. by apply collect_reverse.
Qed.

Lemma scan_go_page f before limit chunk contents fuel pos carry collected n es :
  1 <= chunk → 0 <= pos < Z.of_nat fuel → (pos = 0 → carry = "") → 0 <= n →
  collect parse_entry (text_lines (rest_of contents pos carry)) = Ok es →
  ∃ n', n <= n' <= n + pos ∧
    scan_go fuel f before limit chunk contents pos carry collected n =
      Some (Ok (finish (scan_entries f before limit (reverse es) collected), n')).
Proof.
  intros Hchunk. revert pos carry collected n es.
  induction fuel as [|fuel IH]; intros pos carry collected n es Hpos Hcarry Hn Hes; [lia|].
  cbn [scan_go]. destruct (Z.leb_spec pos 0) as [Hz|Hp].
  { assert (pos = 0) as -> by lia. rewrite Hcarry in Hes by done.
    assert (rest_of contents 0 "" = "") as E by (by destruct contents).
    rewrite E in Hes. injection Hes as <-. exists n. split; [lia|done]. }
  set (size := Z.min chunk pos). set (start := pos - size).
  assert (1 <= size <= pos) as Hsize by (unfold size; lia).
  rewrite (rest_of_chunk contents pos start) in Hes by (unfold start; lia).
  replace (pos - start) with size in Hes by (unfold start; lia).
  set (buf := String.substring _ _ contents +:+ carry) in *.
  destruct (Z.eqb_spec start 0) as [H0|H0].
  - rewrite H0 in Hes. assert (rest_of contents 0 buf = buf) as E by (by destruct contents).
    rewrite E in Hes. rewrite (scan_lines_text _ _ _ _ es) by done.
    destruct (scan_entries f before limit (reverse es) collected) as [c|page]; cbn [finish].
    + destruct fuel as [|fuel]; [lia|]. cbn [scan_go]. rewrite H0. cbn.
      exists (n + size). split; [lia|done].
    + exists (n + size). split; [lia|done].
  - destruct (split_once (String newline "") buf) as [[a b]|] eqn:Hsplit.
    + apply split_once_first_inv in Hsplit. rewrite Hsplit in Hes. unfold rest_of in Hes.
      rewrite <-str_app_assoc, text_lines_app in Hes. fold (rest_of contents start a) in Hes.
      apply collect_app in Hes as (es1 & es2 & -> & Hes1 & Hes2).
      rewrite (scan_lines_text _ _ _ _ es2) by done. rewrite reverse_app, scan_entries_app.
      destruct (scan_entries f before limit (reverse es2) collected) as [c|page].
      * destruct (IH start a c (n + size) es1) as (n' & Hn' & ->); try done; [unfold start; lia|lia|].
        exists n'. split; [unfold start in *; lia|done].
      * exists (n + size). split; [lia|done].
    + destruct (IH start buf collected (n + size) es) as (n' & Hn' & ->); try done; [unfold start; lia|lia|].
      exists n'. split; [unfold start in *; lia|done].
Qed.
End pieces.

(** The bounded read is the full read.  On a file that holds a log of
    entries with increasing numbers, for every filter, cursor, page size and
    chunk size, reading the file backward chunk by chunk gives exactly the page,
    cursor included, that reading every entry, filtering, sorting by descending
    number and cutting off gives; and it never reads more than the file. *)
Theorem scan_reverse_pages `{AuditSerde} file es ls f before limit chunk :
  default "" file = text_of_lines ls → Forall2 entry_line es ls → ascending es → 1 <= chunk →
  ∃ n, 0 <= n <= str_len (default "" file) ∧
    scan_reverse file f before limit chunk = Some (Ok (page_of f before limit es, n)).
Proof.
  intros Htext Hls Hes Hchunk. rewrite page_of_scan by done.
  assert (collect parse_entry (text_lines (text_of_lines ls)) = Ok es) as Hc.
  { rewrite text_lines_pieces, split_text_of_lines by by eapply entry_lines_plain.
    rewrite List.filter_app. cbn. rewrite app_nil_r. apply collect_Ok.
    clear -Hls. induction Hls as [|e l es ls [[_ [body Hl]] He] _ IH]; [constructor|]. cbn [List.filter].
    assert (blank l = false) as -> by (by rewrite Hl). constructor; [|done].
    unfold parse_entry. by rewrite He. }
  unfold scan_reverse. destruct file as [contents|]; cbn [from_option id] in Htext |- *.
  - rewrite <-Htext in Hc.
    destruct (scan_go_page f before limit chunk contents (S (String.length contents)) (str_len contents)
      "" [] 0 es) as (n & Hn & ->); [done|unfold str_len; lia|done|lia| |].
    { unfold rest_of, str_len. by rewrite Nat2Z.id, substring_all, str_app_nil_r. }
    exists n. split; [unfold Datatypes.id; lia|done].
  - destruct ls as [|l ls]; [|by destruct l]. apply Forall2_nil_inv_r in Hls as ->.
    exists 0. split; [unfold str_len; cbn; lia|done].
Qed.

(** The three entries of the example log, one per line. *)
Definition lines_example : list string := (λ e, in_braces (countable_text e)) <$> entries_example.
Definition every_event : AuditFilter := {|
  f_tenant := None; f_principal := None; f_action := None; f_limit := None; f_after_ms := None;
  f_before_ms := None |}.

Lemma lines_example_entries : Forall2 (@entry_line audit_serde_example) entries_example lines_example.
Proof.
  unfold lines_example. apply Forall2_fmap_r, Forall_Forall2_diag, Forall_forall. intros e _.
  unfold entry_line. split.
  - split; [|by eexists]. cbn. rewrite str_all_app. unfold countable_text. by rewrite pos_text_plain.
  - cbn [entry_from_str audit_serde_example]. rewrite out_of_braces_in. cbn [mbind option_bind].
    by rewrite read_countable_text.
Qed.

Lemma entries_example_ascending : ascending entries_example.
Proof. repeat constructor. Qed.

Lemma scan_reverse_pages_witness :
  ∃ n, 0 <= n <= str_len (text_of_lines lines_example) ∧
    @scan_reverse audit_serde_example (Some (text_of_lines lines_example)) every_event (Some 2) 1 7 =
      Some (Ok (page_of every_event (Some 2) 1 entries_example, n)).
Proof.
  exact (@scan_reverse_pages audit_serde_example (Some (text_of_lines lines_example)) entries_example
    lines_example every_event (Some 2) 1 7 eq_refl lines_example_entries entries_example_ascending
    ltac:(lia)).
Defined.
