(* ===== verification/Tenancy.v ===== *)
(** * Tenancy: organizations, projects, roles and quotas

    [crates/wovyr-tenancy/src]: the catalog of organizations, projects,
    memberships and quota limits with its in-memory and file-backed stores,
    the built-in roles and the scopes they grant, and the quota checks. *)
From stdpp Require Import base tactics list numbers strings gmap sorting.
From Stdlib Require Import Lia ZArith Ascii SpecFloat.
From S2P Require Import Prelude.
From S2P Require Import RustStr.
From S2P Require Import F64.
From S2P Require Import Common.
From S2P Require Import JsonValue.
Local Open Scope Z_scope.

(** ** [rbac.rs] *)

Inductive Role := Viewer | Editor | ProjectAdmin | OrgAdmin | PlatformAdmin.
#[export] Instance Role_eq_dec : EqDecision Role.
Proof. solve_decision. Defined.

(** [<domain>:<action>] with a non-empty domain. *)
Definition is_well_formed (scope action : string) : bool :=
  match strip_suffix action scope with
  | Some domain => ends_with ":" domain && Z.ltb 1 (str_len domain)
  | None => false
  end.
Definition is_read (scope : string) : bool := is_well_formed scope "read".
Definition is_write (scope : string) : bool :=
  is_well_formed scope "write"
  || String.eqb scope "workflows:run" || String.eqb scope "tools:invoke" || String.eqb scope "agents:run".

Definition grants (r : Role) (scope : string) : bool :=
  match r with
  | PlatformAdmin => true
  | OrgAdmin => negb (String.eqb scope "platform.admin")
  | ProjectAdmin =>
    negb (String.eqb scope "platform.admin" || String.eqb scope "org.admin"
          || String.eqb scope "users:admin")
  | Editor => is_read scope || is_write scope
  | Viewer => is_read scope
  end.

Definition any_grants (roles : list Role) (scope : string) : bool :=
  existsb (λ r, grants r scope) roles.

Record TenantContext := {
  tc_tenant : string;
  tc_project : option string;
  tc_principal : string;
  tc_roles : list Role;
}.
Definition can (c : TenantContext) (scope : string) : bool := any_grants (tc_roles c) scope.
Definition authorize (c : TenantContext) (scope : string) : result () :=
  if can c scope then Ok ()
  else Err (forbidden ("principal `" +:+ tc_principal c +:+ "` lacks required scope `"
                       +:+ scope +:+ "`")).

(** ** [model.rs] *)

(** ASCII letters and digits in lower case, every run of other characters one
    dash; bytes of a longer character are one such run. *)
Fixpoint slug_go (out : string) (last_dash : bool) (s : string) : string :=
  match s with
  | "" => out
  | String c s =>
    if is_ascii_alphanumeric c then slug_go (out +:+ String (ascii_lower c) "") false s
    else if negb last_dash && negb (is_empty out) then slug_go (out +:+ "-") true s
    else slug_go out last_dash s
  end.
Definition slug (s : string) : string := trim_end_matches "-" (slug_go "" false s).

Record Organization := { org_id : string; org_name : string; org_tenant : string }.
Definition Organization_new (tenant name : string) : Organization := {|
  org_id := "org-" +:+ slug tenant +:+ "-" +:+ slug name;
  org_name := name; org_tenant := tenant |}.

Inductive ProjectStatus := Active | Suspended | Deleted.

Record Project := {
  prj_id : string;
  prj_name : string;
  prj_organization : string;
  prj_tenant : string;
  prj_settings : gmap string Value;
  prj_status : ProjectStatus;
  prj_version : Z;
}.
Definition Project_new (org : Organization) (name : string) : Project := {|
  prj_id := "prj-" +:+ slug (org_name org) +:+ "-" +:+ slug name;
  prj_name := name; prj_organization := org_id org; prj_tenant := org_tenant org;
  prj_settings := ∅; prj_status := Active; prj_version := 1 |}.
Definition set_status (st : ProjectStatus) (p : Project) : Project := {|
  prj_id := prj_id p; prj_name := prj_name p; prj_organization := prj_organization p;
  prj_tenant := prj_tenant p; prj_settings := prj_settings p; prj_status := st;
  prj_version := prj_version p |}.

Inductive MemberScope := InOrganization (id : string) | InProject (id : string).
#[export] Instance MemberScope_eq_dec : EqDecision MemberScope.
Proof. solve_decision. Defined.

Record Membership := { m_user : string; m_role : Role; m_scope : MemberScope }.
#[export] Instance Membership_eq_dec : EqDecision Membership.
Proof. solve_decision. Defined.

Record QuotaLimits := {
  llm_cost_per_day_usd : option f64;
  llm_tokens_per_day : option Z;
  concurrent_agent_runs : option Z;
  max_mcp_connections : option Z;
  day_reset_offset_minutes : option Z;
}.
Definition QuotaLimits_default : QuotaLimits := {|
  llm_cost_per_day_usd := None; llm_tokens_per_day := None; concurrent_agent_runs := None;
  max_mcp_connections := None; day_reset_offset_minutes := None |}.

(** ** [quota.rs] *)

(** [f64::log10], whose precision the standard library leaves open. *)
Class Libm := { f64_log10 : f64 → f64 }.

(** [-x.floor() as i32]: saturating, NaN to 0. *)
Definition neg_floor_as_i32 (x : f64) : Z :=
  match x with
  | S754_nan | S754_zero _ => 0
  | S754_infinity s => if s then 2 ^ 31 - 1 else - 2 ^ 31
  | S754_finite s m e =>
    let z := if s then Z.neg m else Z.pos m in
    let floor := if Z.leb 0 e then z * 2 ^ e else z / 2 ^ (- e) in
    Z.max (- 2 ^ 31) (Z.min (2 ^ 31 - 1) (- floor))
  end.

Definition one_cent : f64 := f64_of_ratio false 1 100.

Section quota.
Context `{Libm}.

Definition usd_places (v : f64) : nat :=
  let magnitude := SFabs v in
  if f64_eqb magnitude f64_zero || f64_leb one_cent magnitude then 2
  else Z.to_nat (Z.max 2 (Z.min 8 (neg_floor_as_i32 (f64_log10 magnitude) + 2))).
Definition usd_precision (values : list f64) : nat :=
  match map usd_places values with
  | [] => 2
  | p :: ps => foldl Nat.max p ps
  end.

Definition check_llm_cost (q : QuotaLimits) (spent_today adding : f64) : result () :=
  match llm_cost_per_day_usd q with
  | Some limit =>
    if f64_ltb limit (f64_add spent_today adding) then
      let p := usd_precision [spent_today; adding; limit] in
      Err (quota_exceeded ("llm_cost_per_day_usd: " +:+ show_f64_fixed p spent_today +:+ " + "
             +:+ show_f64_fixed p adding +:+ " exceeds limit " +:+ show_f64_fixed p limit))
    else Ok ()
  | None => Ok ()
  end.
End quota.

Definition check_count (metric : string) (limit : option Z) (current delta : Z) : result () :=
  match limit with
  | Some limit =>
    if Z.ltb limit (u64_saturating_add current delta) then
      Err (quota_exceeded (metric +:+ ": " +:+ show_Z current +:+ " + " +:+ show_Z delta
             +:+ " exceeds limit " +:+ show_Z limit))
    else Ok ()
  | None => Ok ()
  end.
Definition check_concurrent_runs (q : QuotaLimits) (current : Z) : result () :=
  check_count "concurrent_agent_runs" (concurrent_agent_runs q) current 1.
Definition check_llm_tokens (q : QuotaLimits) (used_today adding : Z) : result () :=
  check_count "llm_tokens_per_day" (llm_tokens_per_day q) used_today adding.
Definition check_mcp_connections (q : QuotaLimits) (current : Z) : result () :=
  check_count "max_mcp_connections" (max_mcp_connections q) current 1.

(** ** [store.rs]: the catalog *)

Record TenancyState := {
  orgs : gmap string Organization;
  projects : gmap string Project;
  memberships : list Membership;
  quotas : gmap string QuotaLimits;
}.
Definition TenancyState_default : TenancyState :=
  {| orgs := ∅; projects := ∅; memberships := []; quotas := ∅ |}.
Definition set_orgs (m : gmap string Organization) (s : TenancyState) : TenancyState :=
  {| orgs := m; projects := projects s; memberships := memberships s; quotas := quotas s |}.
Definition set_projects (m : gmap string Project) (s : TenancyState) : TenancyState :=
  {| orgs := orgs s; projects := m; memberships := memberships s; quotas := quotas s |}.
Definition set_memberships (l : list Membership) (s : TenancyState) : TenancyState :=
  {| orgs := orgs s; projects := projects s; memberships := l; quotas := quotas s |}.
Definition set_quotas (m : gmap string QuotaLimits) (s : TenancyState) : TenancyState :=
  {| orgs := orgs s; projects := projects s; memberships := memberships s; quotas := m |}.

Module TenancyState.
Definition create_org (org : Organization) (s : TenancyState) : TenancyState * result Organization :=
  match orgs s !! org_id org with
  | Some _ => (s, Err (conflict ("organization `" +:+ org_name org +:+ "` already exists")))
  | None => (set_orgs (<[org_id org := org]> (orgs s)) s, Ok org)
  end.

Definition create_project (p : Project) (s : TenancyState) : TenancyState * result Project :=
  match orgs s !! prj_organization p with
  | None => (s, Err (NotFound ("organization `" +:+ prj_organization p +:+ "` does not exist")))
  | Some _ =>
    match projects s !! prj_id p with
    | Some _ => (s, Err (conflict ("project `" +:+ prj_name p +:+ "` already exists")))
    | None => (set_projects (<[prj_id p := p]> (projects s)) s, Ok p)
    end
  end.

Definition update_project (p : Project) (s : TenancyState) : TenancyState * result () :=
  match projects s !! prj_id p with
  | None => (s, Err (NotFound ("project `" +:+ prj_id p +:+ "` not found")))
  | Some _ => (set_projects (<[prj_id p := p]> (projects s)) s, Ok ())
  end.

Definition delete_project (id : string) (s : TenancyState) : TenancyState * result () :=
  match projects s !! id with
  | None => (s, Err (NotFound ("project `" +:+ id +:+ "` not found")))
  | Some p => (set_projects (<[id := set_status Deleted p]> (projects s)) s, Ok ())
  end.

(** Everything but the assignments of one user in one scope. *)
Definition other_assignment (user : string) (scope : MemberScope) (x : Membership) : bool :=
  negb (String.eqb (m_user x) user && bool_decide (m_scope x = scope)).

Definition add_membership (m : Membership) (s : TenancyState) : TenancyState * result () :=
  (set_memberships
     (List.filter (other_assignment (m_user m) (m_scope m)) (memberships s) ++ [m]) s, Ok ()).

Definition remove_membership (user : string) (scope : MemberScope) (s : TenancyState)
    : TenancyState * result () :=
  let before := length (memberships s) in
  let s := set_memberships (List.filter (other_assignment user scope) (memberships s)) s in
  if Nat.eqb (length (memberships s)) before then
    (s, Err (NotFound ("no membership for user `" +:+ user +:+ "` in the given scope")))
  else (s, Ok ()).

(** The readers and the quota writer are written in the stores. *)
Definition list_orgs (tenant : string) (s : TenancyState) : list Organization :=
  List.filter (λ o, String.eqb (org_tenant o) tenant) (map snd (btree_iter (orgs s))).
Definition list_projects (tenant : string) (s : TenancyState) : list Project :=
  List.filter (λ p, String.eqb (prj_tenant p) tenant) (map snd (btree_iter (projects s))).
Definition memberships_for_user (user : string) (s : TenancyState) : list Membership :=
  List.filter (λ m, String.eqb (m_user m) user) (memberships s).
Definition list_memberships (scope : MemberScope) (s : TenancyState) : list Membership :=
  List.filter (λ m, bool_decide (m_scope m = scope)) (memberships s).
Definition set_quota (target : string) (limits : QuotaLimits) (s : TenancyState)
    : TenancyState * result () :=
  (set_quotas (<[target := limits]> (quotas s)) s, Ok ()).
End TenancyState.

(** ** The stores *)

Class TenancyStore (T : Type) := {
  create_org : Organization → T → T * result Organization;
  get_org : string → T → result (option Organization);
  list_orgs : string → T → result (list Organization);
  create_project : Project → T → T * result Project;
  get_project : string → T → result (option Project);
  list_projects : string → T → result (list Project);
  update_project : Project → T → T * result ();
  delete_project : string → T → T * result ();
  add_membership : Membership → T → T * result ();
  remove_membership : string → MemberScope → T → T * result ();
  memberships_for_user : string → T → result (list Membership);
  list_memberships : MemberScope → T → result (list Membership);
  set_quota : string → QuotaLimits → T → T * result ();
  get_quota : string → T → result (option QuotaLimits);
}.

Module InMemoryTenancyStore.
Definition t : Type := TenancyState.
Definition new : t := TenancyState_default.
#[global] Instance tenancy_store : TenancyStore t := {
  create_org := TenancyState.create_org;
  get_org id s := Ok (orgs s !! id);
  list_orgs tenant s := Ok (TenancyState.list_orgs tenant s);
  create_project := TenancyState.create_project;
  get_project id s := Ok (projects s !! id);
  list_projects tenant s := Ok (TenancyState.list_projects tenant s);
  update_project := TenancyState.update_project;
  delete_project := TenancyState.delete_project;
  add_membership := TenancyState.add_membership;
  remove_membership := TenancyState.remove_membership;
  memberships_for_user user s := Ok (TenancyState.memberships_for_user user s);
  list_memberships scope s := Ok (TenancyState.list_memberships scope s);
  set_quota := TenancyState.set_quota;
  get_quota target s := Ok (quotas s !! target);
}.
End InMemoryTenancyStore.

(** [serde_json] at the catalog; an error is its message. *)
Class TenancySerde := {
  tenancy_to_string : TenancyState → string + string;
  tenancy_from_str : string → string + TenancyState;
}.

(** The catalog is one JSON file, [None] when missing.  The lock files and the
    calls of the operating system succeed. *)
Module FileTenancyStore.
Section file.
Context `{TenancySerde}.
Definition t : Type := option string.

Definition load (file : t) : result TenancyState :=
  match file with
  | None => Ok TenancyState_default
  | Some bytes =>
    match tenancy_from_str bytes with
    | inr s => Ok s
    | inl e => Err (invalid ("corrupt tenancy store: " +:+ e))
    end
  end.

Definition save (s : TenancyState) (file : t) : t * result () :=
  match tenancy_to_string s with
  | inr json => (Some json, Ok ())
  | inl e => (file, Err (Json e))
  end.

Definition with_mut {A} (f : TenancyState → TenancyState * result A) (file : t) : t * result A :=
  match load file with
  | Err e => (file, Err e)
  | Ok state =>
    match f state with
    | (_, Err e) => (file, Err e)
    | (state, Ok out) =>
      match save state file with
      | (file, Err e) => (file, Err e)
      | (file, Ok _) => (file, Ok out)
      end
    end
  end.

Definition with_ref {A} (f : TenancyState → A) (file : t) : result A :=
  f <$> load file.

#[global] Instance tenancy_store : TenancyStore t := {
  create_org org := with_mut (TenancyState.create_org org);
  get_org id := with_ref (λ s, orgs s !! id);
  list_orgs tenant := with_ref (TenancyState.list_orgs tenant);
  create_project p := with_mut (TenancyState.create_project p);
  get_project id := with_ref (λ s, projects s !! id);
  list_projects tenant := with_ref (TenancyState.list_projects tenant);
  update_project p := with_mut (TenancyState.update_project p);
  delete_project id := with_mut (TenancyState.delete_project id);
  add_membership m := with_mut (TenancyState.add_membership m);
  remove_membership user scope := with_mut (TenancyState.remove_membership user scope);
  memberships_for_user user := with_ref (TenancyState.memberships_for_user user);
  list_memberships scope := with_ref (TenancyState.list_memberships scope);
  set_quota target limits := with_mut (TenancyState.set_quota target limits);
  get_quota target := with_ref (λ s, quotas s !! target);
}.
End file.
End FileTenancyStore.

(** ** One call of a store *)

Inductive tenancy_op :=
  | CreateOrg (o : Organization) | GetOrg (id : string) | ListOrgs (tenant : string)
  | CreateProject (p : Project) | GetProject (id : string) | ListProjects (tenant : string)
  | UpdateProject (p : Project) | DeleteProject (id : string)
  | AddMembership (m : Membership) | RemoveMembership (user : string) (scope : MemberScope)
  | MembershipsForUser (user : string) | ListMemberships (scope : MemberScope)
  | SetQuota (target : string) (limits : QuotaLimits) | GetQuota (target : string).

Inductive tenancy_answer :=
  | AUnit (r : result ())
  | AOrg (r : result Organization) | AOrgOpt (r : result (option Organization))
  | AOrgs (r : result (list Organization))
  | AProject (r : result Project) | AProjectOpt (r : result (option Project))
  | AProjects (r : result (list Project))
  | AMembers (r : result (list Membership)) | AQuotaOpt (r : result (option QuotaLimits)).

Definition tenancy_step `{TenancyStore T} (op : tenancy_op) (t : T) : T * tenancy_answer :=
  match op with
  | CreateOrg o => prod_map id AOrg (create_org o t)
  | GetOrg i => (t, AOrgOpt (get_org i t))
  | ListOrgs i => (t, AOrgs (list_orgs i t))
  | CreateProject p => prod_map id AProject (create_project p t)
  | GetProject i => (t, AProjectOpt (get_project i t))
  | ListProjects i => (t, AProjects (list_projects i t))
  | UpdateProject p => prod_map id AUnit (update_project p t)
  | DeleteProject i => prod_map id AUnit (delete_project i t)
  | AddMembership m => prod_map id AUnit (add_membership m t)
  | RemoveMembership u sc => prod_map id AUnit (remove_membership u sc t)
  | MembershipsForUser u => (t, AMembers (memberships_for_user u t))
  | ListMemberships sc => (t, AMembers (list_memberships sc t))
  | SetQuota i q => prod_map id AUnit (set_quota i q t)
  | GetQuota i => (t, AQuotaOpt (get_quota i t))
  end.

Fixpoint tenancy_answers `{TenancyStore T} (ops : list tenancy_op) (t : T) : list tenancy_answer :=
  match ops with
  | [] => []
  | op :: ops => let '(t, a) := tenancy_step op t in a :: tenancy_answers ops t
  end.

(** The catalogs a sequence of calls goes through. *)
Fixpoint catalogs (ops : list tenancy_op) (s : InMemoryTenancyStore.t) : list TenancyState :=
  s :: match ops with
       | [] => []
       | op :: ops => catalogs ops (tenancy_step op s).1
       end.

(** ** What the clients of a store rely on

    A store in good order reads as a catalog, and every call is the catalog's
    as long as the outcome is a catalog the store can keep. *)
Class TenancyStoreLaws (T : Type) `{TenancyStore T} := {
  reads : T → TenancyState → Prop;
  keeps : TenancyState → Prop;
  step_reads op t (s : InMemoryTenancyStore.t) : reads t s → keeps (tenancy_step op s).1 →
    ∃ t', tenancy_step op t = (t', (tenancy_step op s).2) ∧ reads t' (tenancy_step op s).1;
}.
