(* ===== verification/TenancyInv.v ===== *)
(** * Tenancy: the privilege ladder, the catalog and the quotas

    What a role grants, what the stores keep, when a quota admits. *)
From stdpp Require Import base tactics list numbers strings gmap sorting.
From Stdlib Require Import Lia ZArith Ascii SpecFloat.
From S2P Require Import Prelude.
From S2P Require Import RustStr.
From S2P Require Import F64.
From S2P Require Import Common.
From S2P Require Import JsonValue.
From S2P Require Import Tenancy.
Local Open Scope Z_scope.

(** ** Roles *)

(** The order of the roles, as the tests of [rbac.rs] list it. *)
Definition rank (r : Role) : nat :=
  match r with
  | Viewer => 0 | Editor => 1 | ProjectAdmin => 2 | OrgAdmin => 3 | PlatformAdmin => 4
  end.

(** A scope [<domain>:<action>] with a domain. *)
Definition scope_of (action scope : string) : Prop :=
  ∃ domain, domain ≠ "" ∧ scope = domain +:+ (":" +:+ action).

Lemma is_well_formed_spec scope action :
  is_well_formed scope action = true ↔ scope_of action scope.
Proof.
  unfold is_well_formed, scope_of. destruct (strip_suffix action scope) as [d|] eqn:Hs.
  - apply strip_suffix_Some in Hs as ->. rewrite andb_true_iff, Z.ltb_lt. split.
    + intros [He Hl]. unfold ends_with in He.
      destruct (strip_suffix ":" d) as [d'|] eqn:Hd; [|done].
      apply strip_suffix_Some in Hd as ->. exists d'. split; [|by rewrite str_app_assoc].
      intros ->. by vm_compute in Hl.
    + intros (d' & Hne & Heq). rewrite <-str_app_assoc in Heq. apply str_app_inj_r in Heq as ->.
      unfold ends_with. rewrite (proj2 (strip_suffix_Some ":" _ d') eq_refl). split; [done|].
      rewrite str_len_app. unfold str_len. destruct d'; simpl; [done|lia].
  - split; [done|]. intros (d' & _ & ->). rewrite <-str_app_assoc in Hs.
    by rewrite (proj2 (strip_suffix_Some action _ (d' +:+ ":")) eq_refl) in Hs.
Qed.

Definition actions : list string := ["workflows:run"; "tools:invoke"; "agents:run"].

Lemma is_write_spec scope : is_write scope = true ↔ scope_of "write" scope ∨ scope ∈ actions.
Proof.
  unfold is_write, actions. rewrite !orb_true_iff, is_well_formed_spec, !String.eqb_eq.
  set_solver.
Qed.

(** No reading or writing scope is one of those kept from project admins. *)
Lemma admin_scopes_above_write scope :
  scope ∈ ["platform.admin"; "org.admin"; "users:admin"] →
  is_read scope = false ∧ is_write scope = false.
Proof. rewrite !elem_of_cons, elem_of_nil. intros [->|[->|[->|[]]]]; by vm_compute. Qed.

Lemma grants_admin r scope :
  (rank ProjectAdmin <= rank r)%nat →
  grants r scope = false ↔
  (r = ProjectAdmin ∧ scope ∈ ["platform.admin"; "org.admin"; "users:admin"])
  ∨ (r = OrgAdmin ∧ scope = "platform.admin").
Proof.
  intros Hr. destruct r; cbn in Hr; try lia; cbn [grants].
  - rewrite negb_false_iff, !orb_true_iff, !String.eqb_eq. set_solver.
  - rewrite negb_false_iff, String.eqb_eq. naive_solver.
  - naive_solver.
Qed.

(** The built-in roles are a strict privilege ladder with nothing in
    between: a higher role grants whatever a lower one does; a viewer grants
    exactly the scopes [<domain>:read] with a domain, an editor those, the
    scopes [<domain>:write] with a domain and the three actions; a project
    admin is refused exactly the three administration scopes above it and an
    organization admin exactly [platform.admin]. *)
Theorem roles_form_a_ladder :
  (∀ r r' s, (rank r <= rank r')%nat → grants r s = true → grants r' s = true) ∧
  (∀ s, grants Viewer s = true ↔ scope_of "read" s) ∧
  (∀ s, grants Editor s = true ↔ scope_of "read" s ∨ scope_of "write" s ∨ s ∈ actions) ∧
  (∀ s, grants ProjectAdmin s = false ↔ s ∈ ["platform.admin"; "org.admin"; "users:admin"]) ∧
  (∀ s, grants OrgAdmin s = false ↔ s = "platform.admin").
Proof.
  split_and!.
  - intros r r' s Hr Hg.
    destruct (decide (rank ProjectAdmin <= rank r')%nat) as [Ha|Ha].
    + destruct (grants r' s) eqn:E; [done|]. apply grants_admin in E; [|done].
      assert (s ∈ ["platform.admin"; "org.admin"; "users:admin"]) as Hs by set_solver.
      pose proof (admin_scopes_above_write s Hs) as [Hrd Hwr].
      assert (grants r s = false); [|congruence].
      destruct (decide (rank ProjectAdmin <= rank r)%nat) as [Hra|Hra].
      * apply grants_admin; [done|]. destruct E as [[-> _]|[-> ->]], r; cbn in Hr, Hra; try lia; eauto.
      * destruct r; cbn in Hra; try lia; cbn [grants]; by rewrite Hrd, ?Hwr.
    + destruct r, r'; cbn in Hr, Ha; try lia; try done. cbn [grants] in *. by rewrite Hg.
  - intros s. apply is_well_formed_spec.
  - intros s. cbn [grants]. unfold is_read. by rewrite orb_true_iff, is_well_formed_spec, is_write_spec.
  - intros s. rewrite grants_admin by done. naive_solver.
  - intros s. rewrite grants_admin by (cbn; lia). naive_solver.
Qed.

(** Authorization is the union of the roles, and refuses without one. *)
Lemma authorize_spec c s :
  authorize c s = Ok () ↔ ∃ r, r ∈ tc_roles c ∧ grants r s = true.
Proof.
  unfold authorize, can, any_grants. rewrite <-existsb_elem. by destruct (existsb _ _).
Qed.
Lemma authorize_cases c s :
  authorize c s = Ok () ∨ ∃ m, authorize c s = Err (Forbidden m).
Proof. unfold authorize. destruct (can c s); [by left|right; by eexists]. Qed.
Lemma authorize_no_role c s : tc_roles c = [] → authorize c s ≠ Ok ().
Proof. intros Hr [r [Hin _]]%authorize_spec. rewrite Hr in Hin. by apply not_elem_of_nil in Hin. Qed.

(** ** Quotas *)

Lemma check_count_spec metric limit current delta :
  (check_count metric limit current delta = Ok () ↔
   ∀ l, limit = Some l → u64_saturating_add current delta <= l) ∧
  (check_count metric limit current delta ≠ Ok () →
   ∃ m, check_count metric limit current delta = Err (QuotaExceeded m)).
Proof.
  unfold check_count. destruct limit as [l|]; [|split; [by split|done]].
  destruct (Z.ltb_spec l (u64_saturating_add current delta)).
  - split; [|by eexists]. split; [done|]. intros Hl. specialize (Hl l eq_refl). lia.
  - split; [|done]. split; [|done]. by intros _ ? [= <-].
Qed.

(** Below the last machine integer the saturation does not show. *)
Lemma check_concurrent_runs_Ok q current :
  is_u64 current → (∀ l, concurrent_agent_runs q = Some l → l < u64_max) →
  check_concurrent_runs q current = Ok () ↔
  ∀ l, concurrent_agent_runs q = Some l → current + 1 <= l.
Proof.
  intros Hc Hl. unfold check_concurrent_runs. rewrite (proj1 (check_count_spec _ _ _ _)).
  split; intros H l Hq; specialize (H l Hq); specialize (Hl l Hq); unfold_ints; lia.
Qed.

(** ** The catalog *)

(** Keys are the ids, a project's organization exists, and a user has one role
    in a scope. *)
Record catalog_ok (s : TenancyState) : Prop := {
  ok_orgs id o : orgs s !! id = Some o → org_id o = id;
  ok_projects id p : projects s !! id = Some p → prj_id p = id;
  ok_project_org id p : projects s !! id = Some p → is_Some (orgs s !! prj_organization p);
  ok_members : NoDup (map (λ m, (m_user m, m_scope m)) (memberships s));
}.

Lemma catalog_ok_default : catalog_ok TenancyState_default.
Proof. by split; try apply NoDup_nil. Qed.

Lemma other_assignment_spec user scope x :
  TenancyState.other_assignment user scope x = true ↔ (m_user x, m_scope x) ≠ (user, scope).
Proof.
  unfold TenancyState.other_assignment. rewrite negb_true_iff, andb_false_iff, bool_decide_eq_false.
  destruct (String.eqb_spec (m_user x) user); split; naive_solver.
Qed.

(** Callers that replace a project leave it in an organization that exists. *)
Definition op_ok (op : tenancy_op) (s : TenancyState) : Prop :=
  match op with UpdateProject p => is_Some (orgs s !! prj_organization p) | _ => True end.

Lemma orgs_grow op (s : InMemoryTenancyStore.t) id :
  is_Some (orgs s !! id) → is_Some (orgs (tenancy_step op s).1 !! id).
Proof.
  intros Hid. destruct op; try done; simpl.
  - unfold TenancyState.create_org. destruct (orgs s !! org_id o) eqn:E; simpl; [done|].
    destruct (decide (org_id o = id)) as [->|]; [by rewrite lookup_insert_eq|by rewrite lookup_insert_ne].
  - unfold TenancyState.create_project. repeat case_goal; done.
  - unfold TenancyState.update_project. by case_goal.
  - unfold TenancyState.delete_project. by case_goal.
  - unfold TenancyState.remove_membership. by case_match.
Qed.

Lemma catalog_ok_insert_org o s :
  catalog_ok s → orgs s !! org_id o = None → catalog_ok (set_orgs (<[org_id o := o]> (orgs s)) s).
Proof.
  intros [Ho Hp Hpo Hm] Hn. split; try done; simpl.
  - intros id o'. rewrite lookup_insert_Some. naive_solver.
  - intros id p Hip. destruct (Hpo id p Hip) as [o' Ho'].
    rewrite lookup_insert_ne by congruence. by eexists.
Qed.

Lemma catalog_ok_insert_project id p s :
  catalog_ok s → prj_id p = id → is_Some (orgs s !! prj_organization p) →
  catalog_ok (set_projects (<[id := p]> (projects s)) s).
Proof.
  intros [Ho Hp Hpo Hm] Hid Horg. split; try done; simpl; intros id' p'; rewrite lookup_insert_Some; naive_solver.
Qed.

Lemma catalog_ok_filter_members user scope s :
  catalog_ok s →
  catalog_ok (set_memberships (List.filter (TenancyState.other_assignment user scope) (memberships s)) s).
Proof. intros [Ho Hp Hpo Hm]. split; try done. simpl. by apply NoDup_fmap_filter. Qed.

Lemma catalog_ok_step op (s : InMemoryTenancyStore.t) :
  catalog_ok s → op_ok op s → catalog_ok (tenancy_step op s).1.
Proof.
  intros Hok Hop. destruct op; try done; simpl.
  - unfold TenancyState.create_org. case_goal; simpl; [done|]. by apply catalog_ok_insert_org.
  - unfold TenancyState.create_project. case_goal; simpl; [|done]. case_goal; simpl; [done|].
    apply catalog_ok_insert_project; [done..|]. by eexists.
  - unfold TenancyState.update_project. case_goal; simpl; [|done]. by apply catalog_ok_insert_project.
  - unfold TenancyState.delete_project. case_goal; simpl; [|done].
    apply catalog_ok_insert_project; simpl; [done|by eapply ok_projects|by eapply ok_project_org].
  - pose proof (catalog_ok_filter_members (m_user m) (m_scope m) s Hok) as [Ho Hp Hpo Hm].
    split; try done. simpl in *. rewrite List.map_app. apply NoDup_app. split; [done|].
    split; [|apply NoDup_singleton].
    intros k (x & -> & [_ Hx]%filter_elem)%list_elem_of_fmap. simpl.
    rewrite list_elem_of_singleton. by apply other_assignment_spec in Hx.
  - unfold TenancyState.remove_membership. case_match; by apply catalog_ok_filter_members.
  - destruct Hok. by split.
Qed.

(** ** The file store is the catalog *)

(** The JSON library keeps a catalog: it writes it, and reads the same back. *)
Definition serde_keeps `{TenancySerde} (s : TenancyState) : Prop :=
  ∃ json, tenancy_to_string s = inr json ∧ tenancy_from_str json = inr s.

Lemma filter_all_length {A} (f : A → bool) l : length (List.filter f l) = length l → List.filter f l = l.
Proof.
  induction l as [|x l IH]; simpl; [done|]. destruct (f x); simpl.
  - intros [= Hl]. by rewrite IH.
  - intros Hl. pose proof (List.filter_length_le f l). lia.
Qed.

#[export] Instance memory_laws : TenancyStoreLaws InMemoryTenancyStore.t.
Proof.
  refine {| reads t s := t = s; keeps _ := True |}.
  intros op t s -> _. exists (tenancy_step op s).1. split; [apply surjective_pairing|done].
Defined.

Section file.
Context `{HS : TenancySerde}.

(** A failed change writes nothing, and the catalog it failed on is the one it
    was given. *)
Lemma with_mut_reads {A} (f : TenancyState → TenancyState * result A) file s :
  FileTenancyStore.load file = Ok s → (∀ e, (f s).2 = Err e → (f s).1 = s) → serde_keeps (f s).1 →
  ∃ file', FileTenancyStore.with_mut f file = (file', (f s).2) ∧
    FileTenancyStore.load file' = Ok (f s).1.
Proof.
  intros Hl Hf (json & Hw & Hr). unfold FileTenancyStore.with_mut. rewrite Hl.
  destruct (f s) as [s' [out|e]] eqn:E; simpl in *.
  - unfold FileTenancyStore.save. rewrite Hw. eexists. split; [done|]. simpl. by rewrite Hr.
  - eexists. split; [done|]. by rewrite (Hf e eq_refl).
Qed.

Lemma failed_step_unchanged :
  (∀ o s e, (TenancyState.create_org o s).2 = Err e → (TenancyState.create_org o s).1 = s) ∧
  (∀ p s e, (TenancyState.create_project p s).2 = Err e → (TenancyState.create_project p s).1 = s) ∧
  (∀ p s e, (TenancyState.update_project p s).2 = Err e → (TenancyState.update_project p s).1 = s) ∧
  (∀ i s e, (TenancyState.delete_project i s).2 = Err e → (TenancyState.delete_project i s).1 = s) ∧
  (∀ u sc s e, (TenancyState.remove_membership u sc s).2 = Err e →
     (TenancyState.remove_membership u sc s).1 = s).
Proof.
  unfold TenancyState.create_org, TenancyState.create_project, TenancyState.update_project,
    TenancyState.delete_project.
  split_and!; intros; repeat case_match; simplify_eq/=; try done.
  unfold TenancyState.remove_membership in *. simpl in *.
  destruct (Nat.eqb_spec (length (List.filter (TenancyState.other_assignment u sc) (memberships s)))
    (length (memberships s))); [|done].
  simpl. rewrite filter_all_length by done. by destruct s.
Qed.

#[export] Instance file_laws : TenancyStoreLaws FileTenancyStore.t.
Proof.
  refine {| reads file s := FileTenancyStore.load file = Ok s; keeps := serde_keeps |}.
  destruct failed_step_unchanged as (H1 & H2 & H3 & H4 & H5).
  intros op file s Hl Hk. destruct op; simpl in Hk |- *;
    try (unfold FileTenancyStore.with_ref; rewrite Hl; by exists file);
    match goal with
    | |- context [FileTenancyStore.with_mut ?f file] =>
      destruct (with_mut_reads f file s) as (file' & -> & Hr); [done| |done|by exists file']
    end; eauto; done.
Defined.
End file.

(** A store in good order answers like the catalog. *)
Lemma store_answers `{TenancyStoreLaws T} ops t (s : InMemoryTenancyStore.t) :
  reads t s → Forall keeps (catalogs ops s) → tenancy_answers ops t = tenancy_answers ops s.
Proof.
  revert t s. induction ops as [|op ops IH]; intros t s Hr Hk; [done|]. cbn [catalogs] in Hk.
  inversion_clear Hk as [|?? _ Hk']. cbn [tenancy_answers].
  assert (keeps (tenancy_step op s).1) as Hs by (destruct ops; by inversion Hk').
  destruct (step_reads op t s Hr Hs) as (t' & -> & Hr').
  destruct (tenancy_step op s) as [s' a]. f_equal. by apply IH.
Qed.

(** Every call of a sequence is [op_ok] where it is made. *)
Fixpoint ops_ok (ops : list tenancy_op) (s : InMemoryTenancyStore.t) : Prop :=
  match ops with
  | [] => True
  | op :: ops => op_ok op s ∧ ops_ok ops (tenancy_step op s).1
  end.

Lemma catalogs_ok ops (s : InMemoryTenancyStore.t) :
  catalog_ok s → ops_ok ops s → Forall catalog_ok (catalogs ops s).
Proof.
  revert s. induction ops as [|op ops IH]; intros s Hs Hops; cbn [catalogs]; constructor; try done.
  destruct Hops as [Hop Hops]. apply IH; [by apply catalog_ok_step|done].
Qed.

(** The file-backed tenancy store is the catalog: from a missing file, any
    sequence of its fourteen operations answers exactly as the in-memory
    catalog does, errors included, as long as the JSON library keeps the
    catalogs gone through; and each of them, when replaced projects stay in an
    existing organization, keys every record by its id, has the organization
    of every project, and at most one role per user and scope. *)
Theorem file_tenancy_refines_catalog `{TenancySerde} ops :
  Forall serde_keeps (catalogs ops TenancyState_default) → ops_ok ops TenancyState_default →
  tenancy_answers (T := FileTenancyStore.t) ops None
    = tenancy_answers (T := InMemoryTenancyStore.t) ops InMemoryTenancyStore.new ∧
  Forall catalog_ok (catalogs ops TenancyState_default).
Proof.
  intros Hk Hops. split.
  - by apply (store_answers (T := FileTenancyStore.t)).
  - apply catalogs_ok; [apply catalog_ok_default|done].
Qed.

(** ** An example *)

#[export] Instance Organization_eq_dec : EqDecision Organization.
Proof. solve_decision. Defined.
#[export] Instance ProjectStatus_eq_dec : EqDecision ProjectStatus.
Proof. solve_decision. Defined.
#[export] Instance Project_eq_dec : EqDecision Project.
Proof. solve_decision. Defined.
#[export] Instance QuotaLimits_eq_dec : EqDecision QuotaLimits.
Proof. solve_decision. Defined.
#[export] Instance TenancyState_eq_dec : EqDecision TenancyState.
Proof. solve_decision. Defined.

(** A library that knows the catalogs of a table. *)
Definition table_serde (l : list TenancyState) : TenancySerde :=
  {| tenancy_to_string := table_write l; tenancy_from_str := table_read l |}.

Definition acme_org : Organization := Organization_new "acme" "Platform Team".
Definition support_bot : Project := Project_new acme_org "Support Bot!".
Definition member (user : string) (role : Role) : Membership :=
  {| m_user := user; m_role := role; m_scope := InProject (prj_id support_bot) |}.
Definition runs_quota (n : Z) : QuotaLimits := {|
  llm_cost_per_day_usd := None; llm_tokens_per_day := None; concurrent_agent_runs := Some n;
  max_mcp_connections := None; day_reset_offset_minutes := None |}.

Definition tenancy_session : list tenancy_op :=
  [CreateOrg acme_org; CreateOrg acme_org; CreateProject support_bot;
   AddMembership (member "u1" Viewer); AddMembership (member "u1" Editor);
   MembershipsForUser "u1"; SetQuota (prj_id support_bot) (runs_quota 5); GetQuota "prj-nope";
   UpdateProject (set_status Suspended support_bot); DeleteProject (prj_id support_bot);
   GetProject "prj-platform-team-support-bot"; RemoveMembership "u2" (InProject "p")].

(** The session's answers: a conflict, a replaced role, a soft delete. *)
Lemma tenancy_session_example :
  let answers := tenancy_answers tenancy_session InMemoryTenancyStore.new in
  answers !! 1%nat = Some (AOrg (Err (Conflict "organization `Platform Team` already exists"))) ∧
  answers !! 5%nat = Some (AMembers (Ok [member "u1" Editor])) ∧
  answers !! 10%nat = Some (AProjectOpt (Ok (Some (set_status Deleted support_bot)))) ∧
  answers !! 11%nat
    = Some (AUnit (Err (NotFound "no membership for user `u2` in the given scope"))).
Proof. by vm_compute. Qed.

Definition session_serde : TenancySerde := table_serde (catalogs tenancy_session TenancyState_default).

Lemma file_tenancy_refines_catalog_witness :
  let serde := session_serde in
  (Forall serde_keeps (catalogs tenancy_session TenancyState_default) ∧
   ops_ok tenancy_session TenancyState_default) ∧
  tenancy_answers (T := FileTenancyStore.t) tenancy_session None
    = tenancy_answers (T := InMemoryTenancyStore.t) tenancy_session InMemoryTenancyStore.new.
Proof.
  intros serde.
  assert (Forall (serde_keeps) (catalogs tenancy_session TenancyState_default)) as Hk.
  { apply Forall_forall. intros s Hs. by apply table_write_elem. }
  assert (ops_ok tenancy_session TenancyState_default) as Ho.
  { repeat split. by eexists. }
  split; [by split|]. by apply file_tenancy_refines_catalog.
Defined.
