(* ===== verification/Events.v ===== *)
(** * Domain events and outbound webhooks

    [crates/wovyr-events/src] and [crates/wovyr-server/src/webhooks.rs],
    [webhook_outbox.rs]: the event record, subscriptions and their topic
    patterns, the signature, the retry policy, the subscription stores, the
    durable outbox with its dead-letter queue, delivery, dispatch and
    recovery. *)
From stdpp Require Import base tactics list numbers strings gmap sorting.
From Stdlib Require Import Lia ZArith Ascii.
From S2P Require Import Prelude.
From S2P Require Import RustStr.
From S2P Require Import Common.
From S2P Require Import JsonValue.
From S2P Require Import Executor.
From S2P Require Import AuditLog.
Local Open Scope Z_scope.

(** ** [event.rs] *)

Definition EVENT_SCHEMA_VERSION : string := "1".

Record Event := {
  ev_id : string;
  event_type : string;
  ev_version : string;
  ev_tenant : string;
  ev_timestamp_ms : Z;
  ev_payload : Value;
}.
Definition Event_new (id event_type tenant : string) (timestamp_ms : Z) (payload : Value) : Event := {|
  ev_id := id; event_type := event_type; ev_version := EVENT_SCHEMA_VERSION; ev_tenant := tenant;
  ev_timestamp_ms := timestamp_ms; ev_payload := payload |}.

(** ** [retry.rs] *)

Record BackoffPolicy := { base_ms : Z; max_attempts : Z; max_delay_ms : Z }.
Definition BackoffPolicy_default : BackoffPolicy :=
  {| base_ms := 1000; max_attempts := 6; max_delay_ms := 300000 |}.

Definition delay_ms (p : BackoffPolicy) (attempt : Z) : Z :=
  let shift := Z.min (Z.max (attempt - 1) 0) 63 in
  let scaled := u64_saturating_mul (base_ms p) (Z.shiftl 1 shift) in
  Z.min scaled (max_delay_ms p).
Definition should_retry (p : BackoffPolicy) (attempts : Z) : bool := Z.ltb attempts (max_attempts p).

(** ** [sign.rs] *)

(** The digests of the hashing libraries. *)
Class WebhookCrypto := {
  digest_sha256 : string → string;
  mac_sha256 : string → string → string;
}.

Section sign.
Context `{WebhookCrypto}.

Definition sign (secret body : string) : string :=
  "sha256=" +:+ hex_lower (mac_sha256 secret body).

(** The bytes that differ, or-ed together. *)
Fixpoint xor_fold (acc : N) (a b : string) : N :=
  match a, b with
  | String x a, String y b => xor_fold (N.lor acc (N.lxor (byte_of x) (byte_of y))) a b
  | _, _ => acc
  end.
Definition verify (secret body signature : string) : bool :=
  let expected := sign secret body in
  Nat.eqb (String.length expected) (String.length signature)
  && N.eqb (xor_fold 0 expected signature) 0.
End sign.

(** ** [subscription.rs] *)

Record WebhookSubscription := {
  sub_id : string;
  sub_tenant : string;
  sub_url : string;
  sub_events : list string;
  sub_secret : string;
  sub_active : bool;
}.

Definition topic_matches (pattern event_type : string) : bool :=
  if String.eqb pattern "*" then true
  else match strip_suffix "*" pattern with
       | Some prefix => starts_with prefix event_type
       | None => String.eqb pattern event_type
       end.
Definition sub_matches (s : WebhookSubscription) (event_type : string) : bool :=
  sub_active s && existsb (λ p, topic_matches p event_type) (sub_events s).

Section subscription.
Context `{WebhookCrypto}.

Definition derive_id (tenant url : string) (events : list string) : string :=
  let topics := merge_sort String.le events in
  let digest := digest_sha256 (tenant +:+ "|" +:+ url +:+ "|" +:+ join_with "," topics) in
  "wh-" +:+ hex_lower (String.substring 0 8 digest).

Definition WebhookSubscription_new (tenant url : string) (events : list string) (secret : string)
    : WebhookSubscription := {|
  sub_id := derive_id tenant url events; sub_tenant := tenant; sub_url := url; sub_events := events;
  sub_secret := secret; sub_active := true |}.
End subscription.

(** ** [store.rs] *)

Abbreviation WebhookState := (gmap string WebhookSubscription) (only parsing).

Class WebhookStore (W : Type) := {
  register : WebhookSubscription → W → W * result WebhookSubscription;
  get_webhook : string → W → result (option WebhookSubscription);
  list_webhooks : string → W → result (list WebhookSubscription);
  delete_webhook : string → W → W * result ();
}.

(** [WebhookStore::matching]: the default method. *)
Definition matching `{WebhookStore W} (tenant event_type : string) (w : W)
    : result (list WebhookSubscription) :=
  subs ← list_webhooks tenant w;
  Ok (List.filter (λ s, sub_matches s event_type) subs).

Definition of_tenant (tenant : string) (m : WebhookState) : list WebhookSubscription :=
  List.filter (λ s, String.eqb (sub_tenant s) tenant) (map snd (btree_iter m)).
Definition webhook_not_found (id : string) : Error := NotFound ("webhook `" +:+ id +:+ "` not found").

Module InMemoryWebhookStore.
Definition t : Type := WebhookState.
Definition new : t := ∅.
#[global] Instance webhook_store : WebhookStore t := {
  register sub m := (<[sub_id sub := sub]> m, Ok sub);
  get_webhook id m := Ok (m !! id);
  list_webhooks tenant m := Ok (of_tenant tenant m);
  delete_webhook id m :=
    match m !! id with
    | None => (m, Err (webhook_not_found id))
    | Some _ => (delete id m, Ok ())
    end;
}.
End InMemoryWebhookStore.

Class WebhookSerde := {
  webhooks_to_string : WebhookState → string + string;
  webhooks_from_str : string → string + WebhookState;
}.

Module FileWebhookStore.
Section file.
Context `{WebhookSerde}.
Definition t : Type := option string.
Definition load (file : t) : result WebhookState :=
  match file with
  | None => Ok ∅
  | Some bytes =>
    match webhooks_from_str bytes with
    | inr m => Ok m
    | inl e => Err (invalid ("corrupt webhook store: " +:+ e))
    end
  end.
Definition save (m : WebhookState) (file : t) : t * result () :=
  match webhooks_to_string m with
  | inr json => (Some json, Ok ())
  | inl e => (file, Err (Json e))
  end.

#[global] Instance webhook_store : WebhookStore t := {
  register sub file :=
    match load file with
    | Err e => (file, Err e)
    | Ok m =>
      match save (<[sub_id sub := sub]> m) file with
      | (file, Ok _) => (file, Ok sub)
      | (file, Err e) => (file, Err e)
      end
    end;
  get_webhook id file := (λ m : WebhookState, m !! id) <$> load file;
  list_webhooks tenant file := of_tenant tenant <$> load file;
  delete_webhook id file :=
    match load file with
    | Err e => (file, Err e)
    | Ok m =>
      match m !! id with
      | None => (file, Err (webhook_not_found id))
      | Some _ => save (delete id m) file
      end
    end;
}.
End file.
End FileWebhookStore.

(** ** [webhook_outbox.rs] *)

Record OutboxEntry := {
  ob_delivery_id : string;
  ob_tenant : string;
  ob_sub_id : string;
  ob_event : Event;
  ob_enqueued_at_ms : Z;
}.
Record DeadLetter := {
  dl_delivery_id : string;
  dl_tenant : string;
  dl_sub_id : string;
  dl_url : string;
  dl_event_type : string;
  dl_attempts : Z;
  dl_failed_at_ms : Z;
}.
Record OutboxDoc := { doc_pending : list OutboxEntry; doc_dlq : list DeadLetter }.

Class OutboxSerde := {
  outbox_to_string : OutboxDoc → string + string;
  outbox_from_str : string → string + OutboxDoc;
}.

(** The outbox in memory, and its file: [None] when it has no path, the text
    when there is one. *)
Record WebhookOutbox := {
  ob_pending : gmap string OutboxEntry;
  ob_dlq : list DeadLetter;
  ob_file : option (option string);
}.

Module WebhookOutbox.
Section outbox.
Context `{OutboxSerde}.

Definition new (file : option (option string)) : WebhookOutbox :=
  let doc :=
    match file with
    | Some (Some bytes) => match outbox_from_str bytes with inr doc => Some doc | inl _ => None end
    | _ => None
    end in
  match doc with
  | Some doc =>
    {| ob_pending := foldl (λ m e, <[ob_delivery_id e := e]> m) ∅ (doc_pending doc);
       ob_dlq := doc_dlq doc; ob_file := file |}
  | None => {| ob_pending := ∅; ob_dlq := []; ob_file := file |}
  end.

(** A document that does not encode is logged, not written. *)
Definition persist (o : WebhookOutbox) : WebhookOutbox :=
  match ob_file o with
  | None => o
  | Some _ =>
    match outbox_to_string {| doc_pending := map snd (btree_iter (ob_pending o)); doc_dlq := ob_dlq o |} with
    | inr bytes => {| ob_pending := ob_pending o; ob_dlq := ob_dlq o; ob_file := Some (Some bytes) |}
    | inl _ => o
    end
  end.

Definition enqueue (e : OutboxEntry) (o : WebhookOutbox) : WebhookOutbox :=
  persist {| ob_pending := <[ob_delivery_id e := e]> (ob_pending o); ob_dlq := ob_dlq o;
             ob_file := ob_file o |}.

Definition remove (delivery_id : string) (o : WebhookOutbox) : WebhookOutbox :=
  match ob_pending o !! delivery_id with
  | None => o
  | Some _ =>
    persist {| ob_pending := delete delivery_id (ob_pending o); ob_dlq := ob_dlq o; ob_file := ob_file o |}
  end.

Definition dead_letter (delivery_id url event_type : string) (attempts failed_at_ms : Z)
    (o : WebhookOutbox) : WebhookOutbox :=
  match ob_pending o !! delivery_id with
  | None => o
  | Some entry =>
    persist
      {| ob_pending := delete delivery_id (ob_pending o);
         ob_dlq := ob_dlq o ++
           [{| dl_delivery_id := ob_delivery_id entry; dl_tenant := ob_tenant entry;
               dl_sub_id := ob_sub_id entry; dl_url := url; dl_event_type := event_type;
               dl_attempts := attempts; dl_failed_at_ms := failed_at_ms |}];
         ob_file := ob_file o |}
  end.

Definition pending (o : WebhookOutbox) : list OutboxEntry := map snd (btree_iter (ob_pending o)).
Definition depths (o : WebhookOutbox) : nat * nat := (size (ob_pending o), length (ob_dlq o)).
Definition dead_letters (tenant : string) (o : WebhookOutbox) : list DeadLetter :=
  reverse (List.filter (λ d, String.eqb (dl_tenant d) tenant) (ob_dlq o)).
End outbox.
End WebhookOutbox.

(** ** [webhooks.rs]: delivery *)

(** The port that posts: the HTTP status, or a transport error. *)
Class WebhookSender (X : Type) := {
  post : string → string → string → string → X → X * (string + Z);
}.
(** The wall clock behind the jitter, in nanoseconds below the second. *)
Class Nanos (X : Type) := subsec_nanos : X → Z.
(** [serde_json::to_vec] of an event. *)
Class EventBody := event_to_vec : Event → string + string.

Section deliver.
Context {X : Type} `{WebhookSender X, Sleep X, Nanos X, WebhookCrypto, EventBody}.

Definition jitter_ms (base_ms : Z) (x : X) : Z :=
  if Z.eqb base_ms 0 then 0 else subsec_nanos x mod base_ms.

Definition accepted (r : string + Z) : bool :=
  match r with inr status => Z.leb 200 status && Z.ltb status 300 | inl _ => false end.

(** Attempts after [attempt] ones, each after the sleep its failure asks for. *)
Fixpoint deliver_go (fuel : nat) (policy : BackoffPolicy) (sub : WebhookSubscription) (event : Event)
    (body signature : string) (attempt : Z) (x : X) : X * option bool :=
  match fuel with
  | O => (x, None)
  | S fuel =>
    let attempt := attempt + 1 in
    let '(x, answer) := post (sub_url sub) signature (event_type event) body x in
    if accepted answer then (x, Some true)
    else if negb (should_retry policy attempt) then (x, Some false)
    else
      let delay := u64_saturating_add (delay_ms policy attempt) (jitter_ms (base_ms policy) x) in
      deliver_go fuel policy sub event body signature attempt (sleep delay x)
  end.

Definition event_body (event : Event) : string :=
  match event_to_vec event with inr body => body | inl _ => "" end.

(** One attempt for each the policy allows, and one in any case: [None] does
    not happen ([deliver_ends]). *)
Definition deliver (policy : BackoffPolicy) (sub : WebhookSubscription) (event : Event) (x : X)
    : X * option bool :=
  let body := event_body event in
  deliver_go (S (Z.to_nat (max_attempts policy))) policy sub event body
    (sign (sub_secret sub) body) 0 x.
End deliver.

(** ** [webhooks.rs]: dispatch, settlement and recovery

    A delivery task that was spawned and has not settled yet is [in_flight]. *)

Record DeliveryTask := { task_delivery_id : string; task_sub : WebhookSubscription; task_event : Event }.

Record WebhookWorld (W : Type) := {
  webhooks : W;
  outbox : WebhookOutbox;
  event_counter : Z;
  in_flight : list DeliveryTask;
}.
Arguments webhooks {W} _.
Arguments outbox {W} _.
Arguments event_counter {W} _.
Arguments in_flight {W} _.
Arguments Build_WebhookWorld {W} _ _ _ _.

Section dispatch.
Context {W : Type} `{WebhookStore W, OutboxSerde}.

Definition set_outbox (o : WebhookOutbox) (w : WebhookWorld W) : WebhookWorld W :=
  {| webhooks := webhooks w; outbox := o; event_counter := event_counter w; in_flight := in_flight w |}.
Definition spawn_delivery (t : DeliveryTask) (w : WebhookWorld W) : WebhookWorld W :=
  {| webhooks := webhooks w; outbox := outbox w; event_counter := event_counter w;
     in_flight := in_flight w ++ [t] |}.

Definition delivery_id_of (event : Event) (sub : WebhookSubscription) : string :=
  ev_id event +:+ "::" +:+ sub_id sub.

Definition dispatch_one (now : Z) (event : Event) (w : WebhookWorld W) (sub : WebhookSubscription)
    : WebhookWorld W :=
  let delivery_id := delivery_id_of event sub in
  let w :=
    set_outbox (WebhookOutbox.enqueue
      {| ob_delivery_id := delivery_id; ob_tenant := ev_tenant event; ob_sub_id := sub_id sub;
         ob_event := event; ob_enqueued_at_ms := now |} (outbox w)) w in
  spawn_delivery {| task_delivery_id := delivery_id; task_sub := sub; task_event := event |} w.

Definition dispatch (now : Z) (event : Event) (w : WebhookWorld W) : WebhookWorld W :=
  let subs := match matching (ev_tenant event) (event_type event) (webhooks w) with
              | Ok subs => subs
              | Err _ => []
              end in
  foldl (dispatch_one now event) w subs.

Definition emit (now : Z) (event_type tenant : string) (payload : Value) (w : WebhookWorld W)
    : WebhookWorld W :=
  let id := "evt_" +:+ show_Z (event_counter w) in
  let w := {| webhooks := webhooks w; outbox := outbox w;
              event_counter := u64_wrapping_add (event_counter w) 1; in_flight := in_flight w |} in
  dispatch now (Event_new id event_type tenant now payload) w.

(** A task that ends with [delivered] settles the outbox. *)
Definition settle (policy : BackoffPolicy) (now : Z) (t : DeliveryTask) (delivered : bool)
    (w : WebhookWorld W) : WebhookWorld W :=
  set_outbox
    (if delivered then WebhookOutbox.remove (task_delivery_id t) (outbox w)
     else WebhookOutbox.dead_letter (task_delivery_id t) (sub_url (task_sub t))
            (event_type (task_event t)) (max_attempts policy) now (outbox w)) w.

(** One recovered entry: its subscription is looked up again. *)
Definition recover_one (w : WebhookWorld W) (e : OutboxEntry) : WebhookWorld W :=
  match get_webhook (ob_sub_id e) (webhooks w) with
  | Ok (Some sub) =>
    spawn_delivery {| task_delivery_id := ob_delivery_id e; task_sub := sub; task_event := ob_event e |} w
  | _ => set_outbox (WebhookOutbox.remove (ob_delivery_id e) (outbox w)) w
  end.
Definition recover_outbox (w : WebhookWorld W) : WebhookWorld W :=
  foldl recover_one w (WebhookOutbox.pending (outbox w)).

(** A process that starts on what is on disk: the subscriptions, the outbox
    file and a counter of its own. *)
Definition start (webhooks : W) (file : option (option string)) : WebhookWorld W :=
  recover_outbox {| webhooks := webhooks; outbox := WebhookOutbox.new file; event_counter := 1;
                    in_flight := [] |}.
End dispatch.
