(* ===== verification/EventsInv.v ===== *)
(** * Webhook delivery is journaled

    The signature check, the retry schedule, the attempts of one delivery, and
    the outbox as the journal of the deliveries in flight. *)
From stdpp Require Import base tactics list numbers strings gmap sorting pretty.
From Stdlib Require Import Lia ZArith Ascii.
From S2P Require Import Prelude.
From S2P Require Import RustStr.
From S2P Require Import Common.
From S2P Require Import JsonValue.
From S2P Require Import Executor.
From S2P Require Import AuditLog.
From S2P Require Import Events.
Local Open Scope Z_scope.

(** ** Signatures *)

Lemma byte_of_inj c d : byte_of c = byte_of d → c = d.
Proof. unfold byte_of. intros H. by rewrite <-(ascii_N_embedding c), H, ascii_N_embedding. Qed.

Lemma xor_fold_zero acc a b :
  String.length a = String.length b →
  xor_fold acc a b = 0%N ↔ acc = 0%N ∧ a = b.
Proof.
  revert acc b. induction a as [|x a IH]; intros acc [|y b]; try done; simpl.
  - naive_solver.
  - intros [= Hl]. rewrite IH, N.lor_eq_0_iff, N.lxor_eq_0_iff by done.
    split; [|naive_solver]. intros [[-> Hxy%byte_of_inj] ->]. by subst.
Qed.

Lemma verify_spec `{WebhookCrypto} secret body signature :
  verify secret body signature = true ↔ signature = sign secret body.
Proof.
  unfold verify. rewrite andb_true_iff, Nat.eqb_eq, N.eqb_eq. split.
  - intros [Hl Hx]. by apply xor_fold_zero in Hx as [_ ->].
  - intros ->. split; [done|]. by apply xor_fold_zero.
Qed.

(** ** The retry schedule *)

Lemma delay_ms_spec p attempt :
  1 <= attempt → is_u64 (base_ms p) → 0 <= max_delay_ms p < u64_modulus →
  delay_ms p attempt = Z.min (base_ms p * 2 ^ Z.min (attempt - 1) 63) (max_delay_ms p).
Proof.
  intros Ha Hb Hm. unfold delay_ms. rewrite Z.shiftl_1_l, (Z.max_l (attempt - 1) 0) by lia.
  unfold_ints. lia.
Qed.

Lemma delay_ms_capped p attempt : delay_ms p attempt <= max_delay_ms p.
Proof. unfold delay_ms. lia. Qed.

Lemma delay_ms_grows p attempt :
  1 <= attempt → is_u64 (base_ms p) → 0 <= max_delay_ms p < u64_modulus →
  delay_ms p attempt <= delay_ms p (attempt + 1).
Proof.
  intros Ha Hb Hm. rewrite !delay_ms_spec by (done || lia).
  assert (2 ^ Z.min (attempt - 1) 63 <= 2 ^ Z.min (attempt + 1 - 1) 63)
    by (apply Z.pow_le_mono_r; lia).
  unfold is_u64 in Hb. nia.
Qed.

(** ** One delivery *)

Section deliver.
Context {X : Type} `{WebhookSender X, Sleep X, Nanos X, WebhookCrypto, EventBody}.
Context (policy : BackoffPolicy) (sub : WebhookSubscription) (event : Event).

(** The answers of the first [n] attempts, each made after the sleep of the
    one before it. *)
Fixpoint attempts_from (n : nat) (attempt : Z) (x : X) : list (string + Z) :=
  match n with
  | O => []
  | S n =>
    let body := event_body event in
    let '(x, answer) := post (sub_url sub) (sign (sub_secret sub) body) (event_type event) body x in
    let delay := u64_saturating_add (delay_ms policy (attempt + 1)) (jitter_ms (base_ms policy) x) in
    answer :: attempts_from n (attempt + 1) (sleep delay x)
  end.

Lemma deliver_go_spec fuel attempt x :
  0 <= attempt → (Z.to_nat (max_attempts policy - attempt) < fuel)%nat →
  ∃ n b, (deliver_go fuel policy sub event (event_body event)
            (sign (sub_secret sub) (event_body event)) attempt x).2 = Some b ∧
    1 <= Z.of_nat n <= Z.max 1 (max_attempts policy - attempt) ∧
    forallb (λ a, negb (accepted a)) (take (n - 1) (attempts_from n attempt x)) = true ∧
    (accepted <$> last (attempts_from n attempt x)) = Some b ∧
    (b = false → Z.of_nat n = Z.max 1 (max_attempts policy - attempt)).
Proof.
  revert attempt x. induction fuel as [|fuel IH]; intros attempt x Ha Hf; [lia|].
  cbn [deliver_go]. destruct (post _ _ _ _ x) as [x' answer] eqn:Hpost.
  destruct (accepted answer) eqn:Hacc.
  { exists 1%nat, true. cbn [attempts_from]. rewrite Hpost. cbn. rewrite Hacc. split_and!; try done; lia. }
  unfold should_retry. destruct (Z.ltb_spec (attempt + 1) (max_attempts policy)) as [Hlt|Hge]; cbn [negb].
  - set (x'' := sleep _ x').
    destruct (IH (attempt + 1) x'') as (n & b & Hd & Hn & Hinit & Hlast & Hb); [lia|lia|].
    exists (S n), b. split; [done|]. split; [lia|].
    cbn [attempts_from]. rewrite Hpost. fold x''.
    destruct n as [|n]; [lia|]. rewrite Nat.sub_succ, Nat.sub_0_r in *. cbn [take forallb].
    rewrite Hacc. cbn [negb andb]. split_and!; [|rewrite last_cons; by destruct (last _)|intros Hf'; specialize (Hb Hf'); lia].
    by replace (S n - 1)%nat with n in Hinit by lia.
  - exists 1%nat, false. cbn [attempts_from]. rewrite Hpost. cbn. rewrite Hacc. split_and!; try done; lia.
Qed.
End deliver.

(** A webhook delivery ends: with any sender, clock and jitter, it makes
    between one and [max_attempts] attempts (one even when the policy allows
    none), stops at the first answer in the 200s and then reports success, and
    reports failure only after every allowed attempt was refused. *)
Theorem delivery_ends_within_attempts
    {X} `{WebhookSender X, Sleep X, Nanos X, WebhookCrypto, EventBody} policy sub event (x : X) :
  0 <= max_attempts policy →
  ∃ n b, (deliver policy sub event x).2 = Some b ∧
    1 <= Z.of_nat n <= Z.max 1 (max_attempts policy) ∧
    forallb (λ a, negb (accepted a)) (take (n - 1) (attempts_from policy sub event n 0 x)) = true ∧
    (accepted <$> last (attempts_from policy sub event n 0 x)) = Some b ∧
    (b = false → Z.of_nat n = Z.max 1 (max_attempts policy)).
Proof.
  intros Hm. unfold deliver.
  destruct (deliver_go_spec policy sub event (S (Z.to_nat (max_attempts policy))) 0 x) as (n & b & Hs);
    [lia|lia|]. rewrite Z.sub_0_r in Hs. by exists n, b.
Qed.

(** A subscriber that answers from a script, and a clock that is always the
    same. *)
Module Scripted.
Definition world : Type := list (string + Z).
#[global] Instance sender : WebhookSender world := {|
  post _ _ _ _ x := match x with [] => ([], inl "closed") | a :: x => (x, a) end |}.
#[global] Instance sleeper : Sleep world := λ _ x, x.
#[global] Instance nanos : Nanos world := λ _, 7.
#[global] Instance crypto : WebhookCrypto := {| digest_sha256 s := s; mac_sha256 k s := k +:+ s |}.
#[global] Instance body : EventBody := λ e, inr (ev_id e).
End Scripted.

Definition example_sub : WebhookSubscription := {|
  sub_id := "wh-1"; sub_tenant := "acme"; sub_url := "https://hooks.example.com/x";
  sub_events := ["project.*"]; sub_secret := "shh"; sub_active := true |}.
Definition example_event : Event := Event_new "evt_1" "project.created" "acme" 0 Null.

Lemma delivery_ends_within_attempts_witness :
  0 <= max_attempts BackoffPolicy_default ∧
  ∃ n b, (deliver (X := Scripted.world) BackoffPolicy_default example_sub example_event
            [inr 500; inl "timeout"; inr 204]).2 = Some b ∧
    1 <= Z.of_nat n <= 6 ∧
    forallb (λ a, negb (accepted a))
      (take (n - 1) (attempts_from (X := Scripted.world) BackoffPolicy_default example_sub example_event n 0
                       [inr 500; inl "timeout"; inr 204])) = true ∧
    (accepted <$> last (attempts_from (X := Scripted.world) BackoffPolicy_default example_sub example_event n 0
                          [inr 500; inl "timeout"; inr 204])) = Some b ∧
    (b = false → Z.of_nat n = 6).
Proof.
  split; [by vm_compute|].
  apply (delivery_ends_within_attempts (X := Scripted.world) BackoffPolicy_default example_sub example_event
           [inr 500; inl "timeout"; inr 204]).
  by vm_compute.
Defined.

(** ** Delivery ids *)

Definition not_colon (c : ascii) : bool := other_than ":"%char c.

Lemma show_Z_no_colon n : 0 <= n → str_all not_colon (show_Z n) = true.
Proof.
  intros Hn. destruct (show_Z_digits n Hn) as (Hd & _). revert Hd. apply str_all_impl.
  intros c. unfold not_colon, other_than. destruct (Ascii.eqb_spec ":" c) as [<-|]; done.
Qed.

Definition event_id_of (n : Z) : string := "evt_" +:+ show_Z n.

Lemma delivery_id_inj n n' s s' :
  0 <= n → 0 <= n' → event_id_of n +:+ "::" +:+ s = event_id_of n' +:+ "::" +:+ s' → n = n' ∧ s = s'.
Proof.
  intros Hn Hn' Heq. unfold event_id_of in Heq. rewrite !str_app_assoc in Heq.
  apply str_app_inj_l in Heq.
  assert (∀ m t, 0 <= m → split_once ":" (show_Z m +:+ "::" +:+ t) = Some (show_Z m, ":" +:+ t)) as Hsp.
  { intros m t Hm. rewrite (str_app_cons _ ":" t). apply split_once_first. by apply show_Z_no_colon. }
  pose proof (Hsp n s Hn) as H1. rewrite Heq, Hsp in H1 by done. simplify_eq. split; [|done].
  by apply (inj pretty).
Qed.

(** ** The subscription stores *)

Class WebhookStoreLaws (W : Type) `{WebhookStore W} := {
  store_ok : W → Prop;
  register_ok sub w : store_ok w → store_ok (register sub w).1;
  delete_ok id w : store_ok w → store_ok (delete_webhook id w).1;
  list_ok tenant w l : store_ok w → list_webhooks tenant w = Ok l →
    NoDup (map sub_id l) ∧ Forall (λ s, sub_tenant s = tenant) l;
}.

Definition keyed_by_id (m : WebhookState) : Prop := keyed sub_id m.

Lemma of_tenant_ok tenant m : keyed_by_id m →
  NoDup (map sub_id (of_tenant tenant m)) ∧ Forall (λ s, sub_tenant s = tenant) (of_tenant tenant m).
Proof.
  intros Hm. split.
  - apply NoDup_fmap_filter. rewrite List.map_map.
    replace (map (λ x, sub_id x.2) (btree_iter m)) with (map fst (btree_iter m)).
    + apply btree_iter_nodup.
    + apply map_ext_in. intros [k s] Hin%list_elem_of_In%btree_iter_elem. simpl. by rewrite (Hm k s).
  - apply Forall_forall. intros s [_ Hs]%filter_elem. by apply String.eqb_eq in Hs.
Qed.

#[export] Instance memory_webhook_laws : WebhookStoreLaws InMemoryWebhookStore.t.
Proof.
  refine {| store_ok := keyed_by_id |}.
  - intros sub w. apply (keyed_insert sub_id).
  - intros id w Hw. simpl. case_match; [by apply keyed_delete|done].
  - intros tenant w l Hw [= <-]. by apply of_tenant_ok.
Defined.

Section file_store.
Context `{HS : WebhookSerde}.
(** What the JSON library writes it reads back. *)
Definition WebhookSerde_reads : Prop :=
  ∀ m json, webhooks_to_string m = inr json → webhooks_from_str json = inr m.
Definition file_keyed (file : FileWebhookStore.t) : Prop :=
  ∀ m, FileWebhookStore.load file = Ok m → keyed_by_id m.

Lemma file_keyed_save m file : WebhookSerde_reads →
  keyed_by_id m → file_keyed file → file_keyed (FileWebhookStore.save m file).1.
Proof.
  intros Hrt Hm Hf. unfold FileWebhookStore.save. destruct (webhooks_to_string m) as [e|json] eqn:Hw; [done|].
  intros m'. simpl. rewrite (Hrt m json Hw). by intros [= <-].
Qed.

Definition file_webhook_laws (Hrt : WebhookSerde_reads) : WebhookStoreLaws FileWebhookStore.t.
Proof.
  refine {| store_ok := file_keyed |}.
  - intros sub file Hf. simpl. destruct (FileWebhookStore.load file) as [m|e] eqn:Hl; [|done].
    pose proof (file_keyed_save (<[sub_id sub := sub]> m) file Hrt) as Hs.
    destruct (FileWebhookStore.save _ file) as [file' [?|?]]; simpl in *;
      (apply Hs; [by apply (keyed_insert sub_id), (Hf m)|done]).
  - intros id file Hf. simpl. destruct (FileWebhookStore.load file) as [m|e] eqn:Hl; [|done].
    destruct (m !! id); [|done]. apply file_keyed_save; [done|by apply (keyed_delete sub_id), (Hf m)|done].
  - intros tenant file l Hf. simpl. destruct (FileWebhookStore.load file) as [m|e] eqn:Hl; [|done].
    intros [= <-]. by apply of_tenant_ok, Hf.
Defined.
End file_store.

(** ** The journal *)

Section journal.
Context `{HO : OutboxSerde}.

Definition doc_of (o : WebhookOutbox) : OutboxDoc :=
  {| doc_pending := WebhookOutbox.pending o; doc_dlq := ob_dlq o |}.
(** The JSON library keeps a document. *)
Definition outbox_keeps (d : OutboxDoc) : Prop :=
  ∃ text, outbox_to_string d = inr text ∧ outbox_from_str text = inr d.

(** Entries under their ids, and a file that opens as the outbox it is. *)
Record outbox_ok (o : WebhookOutbox) : Prop := {
  oo_keys k e : ob_pending o !! k = Some e → ob_delivery_id e = k;
  oo_file f : ob_file o = Some f → outbox_keeps (doc_of o) → WebhookOutbox.new (ob_file o) = o;
}.

Lemma load_pending (m : gmap string OutboxEntry) :
  (∀ k e, m !! k = Some e → ob_delivery_id e = k) →
  foldl (λ m e, <[ob_delivery_id e := e]> m) ∅ (map snd (btree_iter m)) = m.
Proof.
  intros Hm. rewrite <-(insert_btree_iter m) at 2.
  assert (Forall (λ p, ob_delivery_id p.2 = p.1) (btree_iter m)) as Hall.
  { apply Forall_forall. intros [k e] Hin%btree_iter_elem. by apply Hm. }
  generalize (∅ : gmap string OutboxEntry). induction Hall as [|[k e] l Hk _ IH]; intros m0; [done|].
  simpl in *. by rewrite IH, Hk.
Qed.

Lemma persist_ok pending dlq file :
  (∀ k e, pending !! k = Some e → ob_delivery_id e = k) →
  outbox_ok (WebhookOutbox.persist {| ob_pending := pending; ob_dlq := dlq; ob_file := file |}).
Proof.
  intros Hk. unfold WebhookOutbox.persist. simpl. destruct file as [f|]; [|by split].
  destruct (outbox_to_string _) as [e|text] eqn:Hw; split; simpl; try done.
  - intros f' _ (text & Hw' & _). unfold doc_of, WebhookOutbox.pending in Hw'. simpl in Hw'. congruence.
  - intros f' _ (text' & Hw' & Hr). unfold doc_of, WebhookOutbox.pending in Hw', Hr. simpl in Hw', Hr.
    rewrite Hw in Hw'. injection Hw' as <-. unfold WebhookOutbox.new. rewrite Hr. simpl.
    by rewrite load_pending.
Qed.

Lemma persist_pending o : ob_pending (WebhookOutbox.persist o) = ob_pending o.
Proof. unfold WebhookOutbox.persist. by repeat case_match. Qed.

Lemma enqueue_ok e o : outbox_ok o → outbox_ok (WebhookOutbox.enqueue e o).
Proof.
  intros [Hk _]. apply persist_ok. intros k e'. rewrite lookup_insert_Some. naive_solver.
Qed.
Lemma remove_ok id o : outbox_ok o → outbox_ok (WebhookOutbox.remove id o).
Proof.
  intros Ho. unfold WebhookOutbox.remove. case_match; [|done]. destruct Ho as [Hk _].
  apply persist_ok. intros k e'. rewrite lookup_delete_Some. naive_solver.
Qed.
Lemma dead_letter_ok id url ty n now o : outbox_ok o → outbox_ok (WebhookOutbox.dead_letter id url ty n now o).
Proof.
  intros Ho. unfold WebhookOutbox.dead_letter. case_match; [|done]. destruct Ho as [Hk _].
  apply persist_ok. intros k e'. rewrite lookup_delete_Some. naive_solver.
Qed.

Lemma remove_pending id o : ob_pending (WebhookOutbox.remove id o) = delete id (ob_pending o).
Proof.
  unfold WebhookOutbox.remove. destruct (ob_pending o !! id) eqn:E; [by rewrite persist_pending|].
  by rewrite delete_id.
Qed.
Lemma dead_letter_pending id url ty n now o :
  ob_pending (WebhookOutbox.dead_letter id url ty n now o) = delete id (ob_pending o).
Proof.
  unfold WebhookOutbox.dead_letter. destruct (ob_pending o !! id) eqn:E; [by rewrite persist_pending|].
  by rewrite delete_id.
Qed.
End journal.

(** ** The life of a process *)

Section process.
Context {W : Type} `{HL : WebhookStoreLaws W} `{HO : OutboxSerde}.
Context (policy : BackoffPolicy).

(** What happens to the webhooks of a running process: a mutation emits, a
    delivery task ends, subscriptions come and go.  The counter of events is
    not exhausted. *)
Inductive webhook_step : WebhookWorld W → WebhookWorld W → Prop :=
  | step_emit now ty tenant payload w :
      event_counter w < u64_max →
      webhook_step w (emit now ty tenant payload w)
  | step_settle now pre t post delivered w :
      in_flight w = pre ++ t :: post →
      webhook_step w (settle policy now t delivered
        {| webhooks := webhooks w; outbox := outbox w; event_counter := event_counter w;
           in_flight := pre ++ post |})
  | step_register sub w :
      webhook_step w {| webhooks := (register sub (webhooks w)).1; outbox := outbox w;
                        event_counter := event_counter w; in_flight := in_flight w |}
  | step_delete id w :
      webhook_step w {| webhooks := (delete_webhook id (webhooks w)).1; outbox := outbox w;
                        event_counter := event_counter w; in_flight := in_flight w |}.

(** A delivery in flight: its event is one of this process, it goes to a
    subscription of the event's tenant, and the outbox holds it. *)
Record task_ok (o : WebhookOutbox) (counter : Z) (t : DeliveryTask) : Prop := {
  tk_id : task_delivery_id t = delivery_id_of (task_event t) (task_sub t);
  tk_tenant : sub_tenant (task_sub t) = ev_tenant (task_event t);
  tk_event : ∃ n, 1 <= n < counter ∧ ev_id (task_event t) = event_id_of n;
  tk_entry : ∃ e, ob_pending o !! task_delivery_id t = Some e ∧
    ob_event e = task_event t ∧ ob_sub_id e = sub_id (task_sub t);
}.

Record journaled (w : WebhookWorld W) : Prop := {
  j_store : store_ok (webhooks w);
  j_counter : 1 <= event_counter w <= u64_max;
  j_outbox : outbox_ok (outbox w);
  j_tasks : Forall (task_ok (outbox w) (event_counter w)) (in_flight w);
  j_ids : NoDup (map task_delivery_id (in_flight w));
  j_pending k : is_Some (ob_pending (outbox w) !! k) → k ∈ map task_delivery_id (in_flight w);
}.

Lemma task_ok_mono o o' c c' t :
  ob_pending o' !! task_delivery_id t = ob_pending o !! task_delivery_id t → c <= c' →
  task_ok o c t → task_ok o' c' t.
Proof.
  intros Hp Hc [Hid Ht (n & Hn & He) (e & Hl & Hs)]. split; [done|done| |].
  - exists n. split; [lia|done].
  - exists e. by rewrite Hp.
Qed.

(** A new event is under an id of its own. *)
Lemma task_id_fresh o c t sid : task_ok o c t → 0 <= c → task_delivery_id t ≠ event_id_of c +:+ "::" +:+ sid.
Proof.
  intros [Hid _ (n & Hn & He) _] Hc Heq. rewrite Hid in Heq. unfold delivery_id_of in Heq.
  rewrite He in Heq. apply delivery_id_inj in Heq as [-> _]; lia.
Qed.

(** The entries of one event are journaled one after the other. *)
Lemma dispatch_subs now ev c subs (w : WebhookWorld W) :
  journaled w → event_counter w = c + 1 → 1 <= c → ev_id ev = event_id_of c →
  NoDup (map sub_id subs) → Forall (λ s, sub_tenant s = ev_tenant ev) subs →
  (∀ t s, t ∈ in_flight w → s ∈ subs → task_delivery_id t ≠ delivery_id_of ev s) →
  journaled (foldl (dispatch_one now ev) w subs).
Proof.
  intros Hj Hc Hc1 Hev. revert w Hj Hc.
  induction subs as [|s subs IH]; intros w Hj Hc Hnd Hten Hfresh; [done|].
  simpl in Hnd. apply NoDup_cons in Hnd as [Hs Hnd]. apply Forall_cons in Hten as [Ht Hten].
  cbn [foldl]. apply IH; try done.
  - destruct Hj as [Hst Hct Hob Htk Hids Hpend].
    assert (delivery_id_of ev s ∉ map task_delivery_id (in_flight w)) as Hnew.
    { intros (t & Heq & Hin)%list_elem_of_fmap. by apply (Hfresh t s Hin); [set_solver|]. }
    split; cbn -[WebhookOutbox.enqueue]; [done|done|by apply enqueue_ok| | |].
    + unfold WebhookOutbox.enqueue. apply Forall_app. split.
      * apply Forall_forall. intros t Hin. rewrite Forall_forall in Htk.
        eapply task_ok_mono; [|done|by apply Htk]. rewrite persist_pending. simpl.
        apply lookup_insert_ne. intros Heq. apply Hnew. rewrite Heq. by apply list_elem_of_fmap_2.
      * apply Forall_singleton. split; simpl; [done|done|exists c; split; [lia|done]|].
        eexists. rewrite persist_pending. simpl. by rewrite lookup_insert_eq.
    + rewrite List.map_app. apply NoDup_app. split; [done|]. split; [|apply NoDup_singleton].
      simpl. intros k Hk ->%list_elem_of_singleton. done.
    + intros k. unfold WebhookOutbox.enqueue. rewrite persist_pending, List.map_app, elem_of_app. simpl.
      destruct (decide (delivery_id_of ev s = k)) as [<-|Hne]; [set_solver|].
      rewrite lookup_insert_ne by done. intros Hk. left. by apply Hpend.
  - intros t s' [Hin|Heq%list_elem_of_singleton]%elem_of_app Hs'; [apply Hfresh; set_solver|].
    subst t. cbn. unfold delivery_id_of. intros Heq. apply str_app_inj_l, str_app_inj_l in Heq.
    apply Hs. rewrite Heq. by apply list_elem_of_fmap_2.
Qed.

Lemma emit_journaled now ty tenant payload w :
  journaled w → event_counter w < u64_max → journaled (emit now ty tenant payload w).
Proof.
  intros Hj Hmax. pose proof (j_counter w Hj) as Hc. unfold emit, dispatch. cbn [webhooks ev_tenant Event_new].
  assert (u64_wrapping_add (event_counter w) 1 = event_counter w + 1) as ->.
  { unfold_ints. rewrite Z.mod_small; lia. }
  set (ev := Event_new _ _ _ _ _). set (w1 := Build_WebhookWorld _ _ _ _).
  assert (journaled w1) as Hj1.
  { destruct Hj as [Hst _ Hob Htk Hids Hpend]. split; simpl; try done; [lia|].
    eapply Forall_impl; [done|]. intros t. by apply task_ok_mono; [|lia]. }
  unfold matching. destruct (list_webhooks tenant (webhooks w)) as [l|e] eqn:Hl; [|done].
  destruct (list_ok tenant (webhooks w) l (j_store w Hj) Hl) as [Hnd Hten].
  apply (dispatch_subs _ _ (event_counter w)); try done; [lia| | |].
  - by apply NoDup_fmap_filter.
  - apply Forall_forall. intros s [Hs _]%filter_elem. rewrite Forall_forall in Hten. by apply Hten.
  - intros t s Hin _. pose proof (j_tasks w Hj) as Htk. rewrite Forall_forall in Htk.
    eapply task_id_fresh; [by apply Htk|lia].
Qed.

Lemma settle_journaled now pre t post delivered w :
  journaled w → in_flight w = pre ++ t :: post →
  journaled (settle policy now t delivered
    {| webhooks := webhooks w; outbox := outbox w; event_counter := event_counter w;
       in_flight := pre ++ post |}).
Proof.
  intros [Hst Hct Hob Htk Hids Hpend] Hin. rewrite Hin in Htk, Hids, Hpend.
  rewrite List.map_app in Hids. simpl in Hids.
  assert (task_delivery_id t ∉ map task_delivery_id (pre ++ post)) as Hnot.
  { rewrite List.map_app. apply NoDup_app in Hids as (_ & Hd & Hp%NoDup_cons). set_solver. }
  assert (ob_pending (outbox (settle policy now t delivered
    {| webhooks := webhooks w; outbox := outbox w; event_counter := event_counter w;
       in_flight := pre ++ post |})) = delete (task_delivery_id t) (ob_pending (outbox w))) as Hpe.
  { unfold settle. simpl. destruct delivered; [apply remove_pending|apply dead_letter_pending]. }
  split.
  - done.
  - done.
  - unfold settle. simpl. destruct delivered; [by apply remove_ok|by apply dead_letter_ok].
  - cbn [in_flight settle set_outbox]. apply Forall_forall. intros t' Hin'. rewrite Forall_forall in Htk.
    eapply task_ok_mono; [|done|apply Htk; set_solver].
    rewrite Hpe. apply lookup_delete_ne. intros Heq. apply Hnot. rewrite Heq. by apply list_elem_of_fmap_2.
  - cbn [in_flight settle set_outbox]. rewrite List.map_app.
    apply NoDup_app in Hids as (H1 & H2 & [H3 H4]%NoDup_cons). apply NoDup_app. set_solver.
  - intros k. rewrite Hpe. cbn [in_flight settle set_outbox]. intros [e He].
    apply lookup_delete_Some in He as [Hne He].
    specialize (Hpend k (mk_is_Some _ _ He)). rewrite List.map_app in Hpend |- *. set_solver.
Qed.

Lemma webhook_step_journaled w w' : journaled w → webhook_step w w' → journaled w'.
Proof.
  intros Hj Hstep. destruct Hstep.
  - by apply emit_journaled.
  - by apply settle_journaled.
  - destruct Hj. split; try done. by apply register_ok.
  - destruct Hj. split; try done. by apply delete_ok.
Qed.

Lemma btree_iter_empty {V} : btree_iter (∅ : gmap string V) = [].
Proof. by unfold btree_iter, btree_keys; rewrite dom_empty_L, elements_empty. Qed.

(** A process that starts on an empty journal. *)
Definition fresh_start (w : WebhookWorld W) : Prop :=
  ∃ ws f, store_ok ws ∧ (f = None ∨ f = Some None) ∧ w = start ws f.

Lemma fresh_start_journaled w : fresh_start w → journaled w.
Proof.
  intros (ws & f & Hs & Hf & ->).
  assert (start ws f = {| webhooks := ws; outbox := {| ob_pending := ∅; ob_dlq := []; ob_file := f |};
                          event_counter := 1; in_flight := [] |}) as ->.
  { destruct Hf as [-> | ->]; unfold start, recover_outbox, WebhookOutbox.pending; cbn; by rewrite btree_iter_empty. }
  split; cbn; [done|by vm_compute| |by constructor|by constructor|].
  - split; cbn; [done|]. intros f' ->. by destruct Hf as [| [= ->]].
  - intros k [e He]. by rewrite lookup_empty in He.
Qed.

Lemma recover_all l w e sub :
  e ∈ l → get_webhook (ob_sub_id e) (webhooks w) = Ok (Some sub) →
  {| task_delivery_id := ob_delivery_id e; task_sub := sub; task_event := ob_event e |}
    ∈ in_flight (foldl recover_one w l).
Proof.
  assert (∀ l (w : WebhookWorld W) t, t ∈ in_flight w → t ∈ in_flight (foldl recover_one w l)) as Hmono.
  { clear. induction l as [|e l IH]; intros w t Ht; [done|]. cbn [foldl]. apply IH.
    unfold recover_one. case_match; [case_match|]; simpl; set_solver. }
  revert w. induction l as [|e' l IH]; intros w Hin Hget; [by apply not_elem_of_nil in Hin|].
  cbn [foldl]. apply elem_of_cons in Hin as [<-|Hin].
  - apply Hmono. unfold recover_one. rewrite Hget. simpl. set_solver.
  - apply IH; [done|]. unfold recover_one. case_match; [case_match|]; done.
Qed.

(** A store that fails to answer loses the entry as a deleted subscription
    would. *)
Lemma recovery_drops_on_store_error w e err :
  get_webhook (ob_sub_id e) (webhooks w) = Err err →
  ob_pending (outbox (recover_one w e)) = delete (ob_delivery_id e) (ob_pending (outbox w)) ∧
  in_flight (recover_one w e) = in_flight w.
Proof. intros Hg. unfold recover_one. rewrite Hg. split; [apply remove_pending|done]. Qed.

(** A crash, and a start on what the journal holds. *)
Lemma crash_recovers w t sub f :
  journaled w → t ∈ in_flight w → ob_file (outbox w) = Some f → outbox_keeps (doc_of (outbox w)) →
  get_webhook (sub_id (task_sub t)) (webhooks w) = Ok (Some sub) →
  {| task_delivery_id := task_delivery_id t; task_sub := sub; task_event := task_event t |}
    ∈ in_flight (start (webhooks w) (ob_file (outbox w))).
Proof.
  intros [Hst Hct [Hk Hnew] Htk Hids Hpend] Hin Hf Hkeep Hget.
  rewrite Forall_forall in Htk. destruct (Htk t Hin) as [Hid Hten _ (e & He & Hev & Hsid)].
  unfold start, recover_outbox. cbn [outbox]. rewrite (Hnew f Hf Hkeep).
  rewrite <-Hev, <-(Hk _ _ He). apply recover_all; simpl; [|by rewrite Hsid].
  unfold WebhookOutbox.pending. apply list_elem_of_fmap. exists (task_delivery_id t, e).
  split; [done|]. by apply btree_iter_elem.
Qed.
End process.

(** No webhook delivery in flight is lost by a crash of the process that
    dispatched it: from a start on an empty journal, after any emissions,
    settlements and changes of the subscriptions, the journal holds exactly
    the deliveries in flight, each goes to a subscription of its event's
    tenant, and a start on the journal's file puts each of them back in flight
    when its subscription still exists. *)
Theorem deliveries_are_journaled `{HL : WebhookStoreLaws W} `{OutboxSerde} policy (w0 w : WebhookWorld W) :
  fresh_start w0 → rtc (webhook_step policy) w0 w →
  (∀ k, is_Some (ob_pending (outbox w) !! k) ↔ k ∈ map task_delivery_id (in_flight w)) ∧
  Forall (λ t, sub_tenant (task_sub t) = ev_tenant (task_event t)) (in_flight w) ∧
  ∀ t sub f, t ∈ in_flight w → ob_file (outbox w) = Some f → outbox_keeps (doc_of (outbox w)) →
    get_webhook (sub_id (task_sub t)) (webhooks w) = Ok (Some sub) →
    {| task_delivery_id := task_delivery_id t; task_sub := sub; task_event := task_event t |}
      ∈ in_flight (start (webhooks w) (ob_file (outbox w))).
Proof.
  intros Hf Hsteps.
  assert (journaled w) as Hj.
  { apply fresh_start_journaled in Hf. induction Hsteps; [done|]. eauto using webhook_step_journaled. }
  split_and!.
  - intros k. split; [apply (j_pending w Hj)|]. intros (t & -> & Hin)%list_elem_of_fmap.
    pose proof (j_tasks w Hj) as Htk. rewrite Forall_forall in Htk.
    destruct (tk_entry _ _ t (Htk t Hin)) as (e & He & _). by eexists.
  - eapply Forall_impl; [apply (j_tasks w Hj)|]. intros t. apply tk_tenant.
  - intros t sub f. by apply crash_recovers.
Qed.

(** ** Examples *)

#[export] Instance Event_eq_dec : EqDecision Event.
Proof. solve_decision. Defined.
#[export] Instance OutboxEntry_eq_dec : EqDecision OutboxEntry.
Proof. solve_decision. Defined.
#[export] Instance DeadLetter_eq_dec : EqDecision DeadLetter.
Proof. solve_decision. Defined.
#[export] Instance OutboxDoc_eq_dec : EqDecision OutboxDoc.
Proof. solve_decision. Defined.

Definition table_outbox (l : list OutboxDoc) : OutboxSerde :=
  {| outbox_to_string := table_write l; outbox_from_str := table_read l |}.

Definition one_subscriber : InMemoryWebhookStore.t := {["wh-1" := example_sub]}.
Definition first_event : Event := Event_new "evt_1" "project.created" "acme" 5 (Str "a").
Definition later_event : Event := Event_new "evt_1" "project.deleted" "acme" 9 (Str "b").
Definition entry_of (e : Event) : OutboxEntry := {|
  ob_delivery_id := "evt_1::wh-1"; ob_tenant := "acme"; ob_sub_id := "wh-1"; ob_event := e;
  ob_enqueued_at_ms := ev_timestamp_ms e |}.
Definition example_outbox : OutboxSerde := table_outbox
  [{| doc_pending := [entry_of first_event]; doc_dlq := [] |};
   {| doc_pending := [entry_of later_event]; doc_dlq := [] |};
   {| doc_pending := []; doc_dlq := [] |}].
#[local] Existing Instance example_outbox.

(** The process emits one event and crashes. *)
Definition first_process : WebhookWorld InMemoryWebhookStore.t :=
  emit 5 "project.created" "acme" (Str "a") (start one_subscriber (Some None)).
Definition task_of (e : Event) : DeliveryTask :=
  {| task_delivery_id := "evt_1::wh-1"; task_sub := example_sub; task_event := e |}.

Lemma deliveries_are_journaled_witness :
  (fresh_start (start one_subscriber (Some None)) ∧
   rtc (webhook_step BackoffPolicy_default) (start one_subscriber (Some None)) first_process) ∧
  in_flight first_process = [task_of first_event] ∧
  (∀ k, is_Some (ob_pending (outbox first_process) !! k) ↔
        k ∈ map task_delivery_id (in_flight first_process)) ∧
  task_of first_event ∈ in_flight (start (webhooks first_process) (ob_file (outbox first_process))).
Proof.
  assert (fresh_start (start one_subscriber (Some None))) as Hf.
  { exists one_subscriber, (Some None). split; [|by auto]. simpl. intros id s.
    unfold one_subscriber. rewrite lookup_singleton_Some. by intros [<- <-]. }
  assert (rtc (webhook_step BackoffPolicy_default) (start one_subscriber (Some None)) first_process) as Hs.
  { apply rtc_once, step_emit. by vm_compute. }
  destruct (deliveries_are_journaled BackoffPolicy_default _ _ Hf Hs) as (Hk & _ & Hcrash).
  assert (in_flight first_process = [task_of first_event]) as Hin by (vm_compute; reflexivity).
  split; [by split|]. split; [done|]. split; [exact Hk|].
  apply (Hcrash (task_of first_event) example_sub (Some "0")).
  - rewrite Hin. by left.
  - by vm_compute.
  - exists "0". split; vm_compute; reflexivity.
  - by vm_compute.
Defined.

(** The counter of events is not durable: after a restart the next event takes
    the id of the recovered one, its journal entry replaces the recovered one,
    and the end of the first delivery removes it.  A second crash loses the
    second delivery: not in flight, not pending, not dead-lettered. *)
Theorem restart_reuses_event_ids :
  let restarted := start (webhooks first_process) (ob_file (outbox first_process)) in
  let second := emit 9 "project.deleted" "acme" (Str "b") restarted in
  let settled := settle BackoffPolicy_default 10 (task_of first_event) true
    {| webhooks := webhooks second; outbox := outbox second; event_counter := event_counter second;
       in_flight := [task_of later_event] |} in
  in_flight second = [task_of first_event; task_of later_event] ∧
  in_flight settled = [task_of later_event] ∧
  start (webhooks settled) (ob_file (outbox settled))
  = {| webhooks := one_subscriber;
       outbox := {| ob_pending := ∅; ob_dlq := []; ob_file := Some (Some "2") |};
       event_counter := 1; in_flight := [] |}.
Proof. by vm_compute. Qed.

(** Two subscriptions of different tenants under one id: the parts of the
    digested text are not delimited. *)
Theorem subscription_ids_collide `{WebhookCrypto} secret secret' :
  let a := WebhookSubscription_new "acme" "x|https://y" ["*"] secret in
  let b := WebhookSubscription_new "acme|x" "https://y" ["*"] secret' in
  sub_tenant a ≠ sub_tenant b ∧ sub_id a = sub_id b ∧
  of_tenant "acme" (register (W := InMemoryWebhookStore.t) b (register a InMemoryWebhookStore.new).1).1 = [].
Proof.
  intros a b. assert (sub_id a = sub_id b) as Hid by done. split_and!; [done|done|].
  change (of_tenant "acme" (<[sub_id b := b]> (<[sub_id a := a]> ∅)) = []).
  rewrite Hid, insert_insert_eq. unfold of_tenant.
  apply elem_of_nil_inv. intros s [Hin Ht]%filter_elem.
  apply list_elem_of_fmap in Hin as ([k s'] & -> & Hk%btree_iter_elem). simpl in Ht.
  rewrite insert_empty, lookup_singleton_Some in Hk.
  destruct Hk as [_ <-]. done.
Qed.
