(* ===== verification/Http.v ===== *)
(** * The conventions of the HTTP surface

    [crates/wovyr-server/src/hardening.rs] and [agents.rs] ([ApiError]):
    headers, error envelopes, cursor pagination, entity tags, and the
    idempotency store with its middleware. *)
From stdpp Require Import base tactics list numbers strings gmap.
From Stdlib Require Import Lia ZArith Ascii.
From S2P Require Import Prelude.
From S2P Require Import RustStr.
From S2P Require Import Common.
From S2P Require Import JsonValue.
From S2P Require Import Effect.
Local Open Scope Z_scope.

(** ** Headers, requests and responses *)

(** The first value of each header, by its lower-case name. *)
Abbreviation HeaderMap := (gmap string string) (only parsing).

(** [HeaderValue::to_str]: visible ASCII, spaces and tabs. *)
Definition header_char (c : ascii) : bool := byte_in 32 126 c || N.eqb (byte_of c) 9.
Definition header (headers : HeaderMap) (name : string) : option string :=
  v ← headers !! name;
  if str_all header_char v then Some v else None.

Definition non_empty (v : option string) : option string :=
  s ← v; if is_empty s then None else Some s.

(** A body is bytes. *)
Record Response := {
  status : Z;
  response_headers : HeaderMap;
  body : string;
}.
Record Request := {
  method : string;
  path : string;
  headers : HeaderMap;
  request_body : string;
}.

(** [serde_json] at values. *)
Class HttpJson := {
  value_to_vec : Value → string;
  value_from_slice : string → option Value;
}.

Definition is_success (status : Z) : bool := Z.leb 200 status && Z.ltb status 300.

(** ** [ApiError] *)

Record ApiError := { ae_status : Z; ae_code : string; ae_message : string }.
Definition ApiError_new (status : Z) (code message : string) : ApiError :=
  {| ae_status := status; ae_code := code; ae_message := message |}.

(** [impl From<Error> for ApiError] *)
Definition ApiError_from (e : Error) : ApiError :=
  match e with
  | Config m | Invalid m => ApiError_new 400 "validation_failed" m
  | NotFound m => ApiError_new 404 "not_found" m
  | Forbidden m => ApiError_new 403 "forbidden" m
  | Conflict m => ApiError_new 409 "conflict" m
  | QuotaExceeded m => ApiError_new 429 "quota_exceeded" m
  | Provider m _ => ApiError_new 502 "provider_error" m
  | other => ApiError_new 500 "internal_error" (error_display other)
  end.

Definition json_headers : HeaderMap := {["content-type" := "application/json"]}.
Definition json_response `{HttpJson} (status : Z) (v : Value) : Response :=
  {| status := status; response_headers := json_headers; body := value_to_vec v |}.
Definition empty_response (status : Z) : Response :=
  {| status := status; response_headers := ∅; body := "" |}.

Definition error_envelope (e : ApiError) : Value :=
  Object [("error", Object
    [("code", Str (ae_code e)); ("message", Str (ae_message e));
     ("type", Str (if Z.leb 400 (ae_status e) && Z.leb (ae_status e) 499 then "client_error"
                   else "server_error"));
     ("status", json_u64 (ae_status e))])].
Definition ApiError_into_response `{HttpJson} (e : ApiError) : Response :=
  json_response (ae_status e) (error_envelope e).

(** ** Pagination *)

Definition DEFAULT_LIMIT : Z := 25.
Definition MAX_LIMIT : Z := 100.

Record PageQuery := { pq_limit : option Z; pq_cursor : option string }.
Record Page := { page_limit : Z; page_offset : Z }.

Definition hex_digit_of (n : N) : ascii := ascii_of_N (if N.ltb n 10 then 48 + n else 87 + n).
(** [format!("{b:02x}")] of each byte. *)
Fixpoint hex_bytes (s : string) : string :=
  match s with
  | "" => ""
  | String b s => String (hex_digit_of (byte_of b / 16)) (String (hex_digit_of (byte_of b mod 16)) (hex_bytes s))
  end.
Definition encode_cursor (offset : Z) : string := hex_bytes (show_Z offset).

Definition hex_value (c : ascii) : option N :=
  if byte_in 48 57 c then Some (byte_of c - 48)%N
  else if byte_in 97 102 c then Some (byte_of c - 87)%N
  else if byte_in 65 70 c then Some (byte_of c - 55)%N
  else None.
(** [u8::from_str_radix(_, 16)] of two bytes: a sign counts as none. *)
Definition byte_from_hex (a b : ascii) : option ascii :=
  if Ascii.eqb a "+" then n ← hex_value b; Some (ascii_of_N n)
  else h ← hex_value a; l ← hex_value b; Some (ascii_of_N (16 * h + l)).

(** The slices [cursor[i..i + 2]] in order, up to the first that is no byte.
    Slicing inside a character panics. *)
Fixpoint cursor_bytes (s : string) : outcome (option string) :=
  match s with
  | String a (String b rest) =>
    if is_continuation a || match rest with String c _ => is_continuation c | "" => false end
    then Stop Panicked
    else
      match byte_from_hex a b with
      | None => Ret None
      | Some byte =>
        match cursor_bytes rest with
        | Ret (Some bytes) => Ret (Some (String byte bytes))
        | o => o
        end
      end
  | _ => Ret (Some "")
  end.

(** Bytes that are no UTF-8 are no number either. *)
Definition decode_cursor (cursor : string) : outcome (option Z) :=
  if negb (Z.eqb (str_len cursor mod 2) 0) then Ret None
  else
    match cursor_bytes cursor with
    | Ret bytes => Ret (s ← bytes; parse_u64 s)
    | Stop s => Stop s
    end.

Definition page (q : PageQuery) : outcome Page :=
  let limit := Z.max 1 (Z.min MAX_LIMIT (default DEFAULT_LIMIT (pq_limit q))) in
  match pq_cursor q with
  | None => Ret {| page_limit := limit; page_offset := 0 |}
  | Some cursor =>
    match decode_cursor cursor with
    | Ret offset => Ret {| page_limit := limit; page_offset := default 0 offset |}
    | Stop s => Stop s
    end
  end.

(** The window of a list: a slice whose start is past its end panics. *)
Definition window {A} (items : list A) (p : Page) : outcome (list A * bool * Z) :=
  let total := Z.of_nat (length items) in
  let end_ := Z.min (u64_wrapping_add (page_offset p) (page_limit p)) total in
  let start := Z.min (page_offset p) total in
  if Z.ltb end_ start then Stop Panicked
  else Ret (take (Z.to_nat (end_ - start)) (drop (Z.to_nat start) items), Z.ltb end_ total, end_).

Definition paginate (items : list Value) (p : Page) : outcome Value :=
  match window items p with
  | Stop s => Stop s
  | Ret (data, has_more, end_) =>
    Ret (Object
      [("data", Array data); ("has_more", Bool has_more);
       ("next_cursor", if has_more then Str (encode_cursor end_) else Null);
       ("total_estimate", json_u64 (Z.of_nat (length items)))])
  end.

(** ** Entity tags *)

Definition quote : string := String (ascii_of_N 34) "".
Definition etag (version : Z) : string := quote +:+ show_Z version +:+ quote.
Definition if_match (headers : HeaderMap) : option Z :=
  s ← header headers "if-match";
  let s := trim_start_matches "W/" (trim s) in
  parse_u64 (trim_end_matches quote (trim_start_matches quote s)).

(** ** Idempotency keys *)

Record IdempotencyEntry := { ie_body : Value; ie_inserted_at_ms : Z }.
Record PersistedEntry := { pe_key : string; pe_body : Value; pe_inserted_at_ms : Z }.

Class IdempotencySerde := {
  entry_to_line : PersistedEntry → string + string;
  entry_from_line : string → string + PersistedEntry;
}.

(** The entries, the queue of their insertions, and the log: its line count as
    the store keeps it and the text of the file, [None] without a path. *)
Record IdempotencyStore := {
  is_entries : gmap string IdempotencyEntry;
  is_order : list string;
  is_log_lines : Z;
  is_ttl_ms : Z;
  is_max_entries : nat;
  is_file : option string;
}.

Module IdempotencyStore.
Section store.
Context `{IdempotencySerde}.

Definition unit_separator : string := String (ascii_of_N 31) "".
Definition scoped (tenant key : string) : string := tenant +:+ unit_separator +:+ key.

Definition load_line (s : IdempotencyStore) (line : string) : IdempotencyStore :=
  if is_empty (trim line) then s
  else
    match entry_from_line line with
    | inl _ => s
    | inr r =>
      {| is_entries := <[pe_key r := {| ie_body := pe_body r; ie_inserted_at_ms := pe_inserted_at_ms r |}]>
                         (is_entries s);
         is_order := is_order s ++ [pe_key r]; is_log_lines := is_log_lines s + 1;
         is_ttl_ms := is_ttl_ms s; is_max_entries := is_max_entries s; is_file := is_file s |}
    end.

(** [new_with_path]; a path without a file is the empty text. *)
Definition new_with_path (ttl_ms : Z) (max_entries : nat) (file : option string) : IdempotencyStore :=
  foldl load_line
    {| is_entries := ∅; is_order := []; is_log_lines := 0; is_ttl_ms := ttl_ms;
       is_max_entries := max_entries; is_file := file |}
    (lines (default "" file)).

Definition set_cache (entries : gmap string IdempotencyEntry) (order : list string)
    (s : IdempotencyStore) : IdempotencyStore :=
  {| is_entries := entries; is_order := order; is_log_lines := is_log_lines s;
     is_ttl_ms := is_ttl_ms s; is_max_entries := is_max_entries s; is_file := is_file s |}.

Definition expired (now ttl_ms : Z) (e : option IdempotencyEntry) : bool :=
  match e with
  | None => true
  | Some e => Z.ltb ttl_ms (u64_saturating_sub now (ie_inserted_at_ms e))
  end.

(** The front of the queue while it is expired, or over capacity. *)
Fixpoint evict_go (now ttl_ms : Z) (max_entries : nat) (make_room : bool)
    (entries : gmap string IdempotencyEntry) (order : list string)
    : gmap string IdempotencyEntry * list string :=
  match order with
  | [] => (entries, [])
  | front :: rest =>
    let over_capacity := make_room && Nat.leb max_entries (size entries) in
    if negb (expired now ttl_ms (entries !! front)) && negb over_capacity then (entries, order)
    else evict_go now ttl_ms max_entries make_room (delete front entries) rest
  end.
Definition evict (now : Z) (make_room : bool) (s : IdempotencyStore) : IdempotencyStore :=
  let '(entries, order) :=
    evict_go now (is_ttl_ms s) (is_max_entries s) make_room (is_entries s) (is_order s) in
  set_cache entries order s.

Definition get (now : Z) (tenant key : string) (s : IdempotencyStore) : IdempotencyStore * option Value :=
  let s := evict now false s in
  (s, ie_body <$> is_entries s !! scoped tenant key).

Definition append_line (r : PersistedEntry) (s : IdempotencyStore) : IdempotencyStore :=
  match is_file s, entry_to_line r with
  | Some text, inr line =>
    {| is_entries := is_entries s; is_order := is_order s; is_log_lines := is_log_lines s;
       is_ttl_ms := is_ttl_ms s; is_max_entries := is_max_entries s;
       is_file := Some (text +:+ (line +:+ String newline "")) |}
  | _, _ => s
  end.

(** The lines of a list of entries; the first that does not encode fails it. *)
Fixpoint snapshot_text (rs : list PersistedEntry) : option string :=
  match rs with
  | [] => Some ""
  | r :: rs =>
    match entry_to_line r with
    | inr line => text ← snapshot_text rs; Some (line +:+ (String newline "" +:+ text))
    | inl _ => None
    end
  end.
Definition write_snapshot (rs : list PersistedEntry) (s : IdempotencyStore) : IdempotencyStore :=
  match snapshot_text rs with
  | Some text =>
    {| is_entries := is_entries s; is_order := is_order s; is_log_lines := is_log_lines s;
       is_ttl_ms := is_ttl_ms s; is_max_entries := is_max_entries s; is_file := Some text |}
  | None => s
  end.

Definition persisted (k : string) (e : IdempotencyEntry) : PersistedEntry :=
  {| pe_key := k; pe_body := ie_body e; pe_inserted_at_ms := ie_inserted_at_ms e |}.
Definition records (s : IdempotencyStore) : list PersistedEntry :=
  omap (λ k, persisted k <$> is_entries s !! k) (is_order s).

Definition set_log_lines (n : Z) (s : IdempotencyStore) : IdempotencyStore :=
  {| is_entries := is_entries s; is_order := is_order s; is_log_lines := n; is_ttl_ms := is_ttl_ms s;
     is_max_entries := is_max_entries s; is_file := is_file s |}.

(** [now] and [inserted_at_ms] are two readings of the clock. *)
Definition put (now inserted_at_ms : Z) (tenant key : string) (body : Value) (s : IdempotencyStore)
    : IdempotencyStore :=
  let s := evict now true s in
  let scoped_key := scoped tenant key in
  let entry := {| ie_body := body; ie_inserted_at_ms := inserted_at_ms |} in
  let s := set_cache (<[scoped_key := entry]> (is_entries s)) (is_order s ++ [scoped_key]) s in
  let s := set_log_lines (u64_wrapping_add (is_log_lines s) 1) s in
  match is_file s with
  | None => s
  | Some _ =>
    if Z.leb (u64_saturating_mul (Z.of_nat (is_max_entries s)) 2) (is_log_lines s) then
      let rs := records s in
      write_snapshot rs (set_log_lines (Z.of_nat (length rs)) s)
    else append_line (persisted scoped_key entry) s
  end.
End store.
End IdempotencyStore.

Definition idempotency_key (headers : HeaderMap) : option string :=
  non_empty (header headers "idempotency-key").

Definition is_replay_eligible (method path : string) : bool :=
  (String.eqb method "POST" || String.eqb method "PUT" || String.eqb method "PATCH"
   || String.eqb method "DELETE")
  && negb (ends_with ":query" path) && negb (ends_with ":stream" path).

(** The tenant a request names, as every handler reads it. *)
Definition DEFAULT_TENANT : string := "default".
Definition run_tenant (headers : HeaderMap) : string :=
  default DEFAULT_TENANT (header headers "x-wovyr-tenant").

Section middleware.
Context `{HttpJson, IdempotencySerde}.

(** [StatusCode::from_u16] *)
Definition status_of (v : Value) : Z :=
  match value_get "status" v ≫= as_u64 with
  | Some s => if Z.leb 100 s && Z.leb s 999 then s else 200
  | None => 200
  end.
Definition replay_cached (cached : Value) : Response :=
  match value_get "body" cached with
  | Some Null | None => empty_response (status_of cached)
  | Some v => json_response (status_of cached) v
  end.

Definition MAX_REPLAY_BODY : Z := 16 * 1024 * 1024.

(** The handler behind the middleware runs on its own state; the clock is read
    at the lookup and twice at the insertion. *)
Definition idempotency_middleware {S} (now now' now'' : Z) (next : Request → S → S * Response)
    (request : Request) (w : IdempotencyStore * S) : (IdempotencyStore * S) * Response :=
  let '(store, s) := w in
  if negb (is_replay_eligible (method request) (path request)) then
    let '(s, response) := next request s in ((store, s), response)
  else
    match idempotency_key (headers request) with
    | None => let '(s, response) := next request s in ((store, s), response)
    | Some key =>
      let tenant := run_tenant (headers request) in
      let scoped_key := method request +:+ " " +:+ path request +:+ IdempotencyStore.unit_separator +:+ key in
      match IdempotencyStore.get now tenant scoped_key store with
      | (store, Some cached) => ((store, s), replay_cached cached)
      | (store, None) =>
        let '(s, response) := next request s in
        if negb (is_success (status response)) then ((store, s), response)
        else if Z.ltb MAX_REPLAY_BODY (str_len (body response)) then
          ((store, s), {| status := status response; response_headers := response_headers response; body := "" |})
        else
          let cacheable := if is_empty (body response) then Some Null else value_from_slice (body response) in
          match cacheable with
          | Some v =>
            ((IdempotencyStore.put now' now'' tenant scoped_key
                (Object [("status", json_u64 (status response)); ("body", v)]) store, s), response)
          | None => ((store, s), response)
          end
      end
    end.
End middleware.

(** ** The HTTP conventions hold

    Cursors and entity tags read back, pages cover a list, and the idempotency
    store is bounded, replays and survives a restart. *)

(** *** Cursors *)

Definition digit_char (c : ascii) : Prop := is_ascii_digit c = true.

(** The two hexadecimal digits of a decimal digit. *)
Lemma hex_of_digit c : is_ascii_digit c = true →
  ∃ a b, hex_bytes (String c "") = String a (String b "") ∧ is_continuation a = false ∧
    byte_from_hex a b = Some c.
Proof.
  intros Hc. unfold hex_bytes. eexists _, _. split; [done|]. revert Hc.
  destruct c as [[] [] [] [] [] [] [] []]; vm_compute; try discriminate; by split.
Qed.

Lemma cursor_bytes_hex s : str_all is_ascii_digit s = true →
  cursor_bytes (hex_bytes s) = Ret (Some s) ∧
  str_len (hex_bytes s) mod 2 = 0 ∧
  match hex_bytes s with String c _ => is_continuation c = false | "" => True end.
Proof.
  induction s as [|c s IH]; [done|]. cbn [str_all]. intros [Hc Hs]%andb_prop.
  destruct (IH Hs) as (Hb & Hl & Hh). destruct (hex_of_digit c Hc) as (a & b & Hab & Ha & Hby).
  assert (hex_bytes (String c s) = String a (String b (hex_bytes s))) as ->.
  { cbn [hex_bytes] in *. by injection Hab as -> ->. }
  split_and!; [| |done].
  2: { unfold str_len in *. cbn [String.length].
       replace (Z.of_nat (S (S _))) with (Z.of_nat (String.length (hex_bytes s)) + 1 * 2) by lia.
       by rewrite Z.mod_add by lia. }
  cbn [cursor_bytes]. rewrite Ha, Hby, Hb.
  destruct (hex_bytes s) as [|d r]; [done|]. by rewrite Hh.
Qed.

Lemma cursor_round_trip n : 0 <= n <= u64_max → decode_cursor (encode_cursor n) = Ret (Some n).
Proof.
  intros Hn. unfold decode_cursor, encode_cursor.
  destruct (show_Z_digits n) as (Hd & _); [lia|].
  destruct (cursor_bytes_hex _ Hd) as (-> & -> & _). cbn.
  unfold parse_u64. by rewrite parse_unsigned_show.
Qed.

(** *** Pages *)

(** What a client reads of a page. *)
Definition page_data (v : Value) : list Value :=
  match value_get "data" v with Some (Array l) => l | _ => [] end.
Definition page_next (v : Value) : option string := value_get "next_cursor" v ≫= as_str.

(** A client that follows the cursors, at most [fuel] pages of them. *)
Fixpoint walk (fuel : nat) (limit : option Z) (cursor : option string) (items : list Value)
    : outcome (list (list Value)) :=
  match fuel with
  | O => Stop Exhausted
  | S fuel =>
    match page {| pq_limit := limit; pq_cursor := cursor |} with
    | Stop s => Stop s
    | Ret p =>
      match paginate items p with
      | Stop s => Stop s
      | Ret v =>
        match page_next v with
        | None => Ret [page_data v]
        | Some c =>
          match walk fuel limit (Some c) items with
          | Ret pages => Ret (page_data v :: pages)
          | Stop s => Stop s
          end
        end
      end
    end
  end.

Definition limit_of (limit : option Z) : Z := Z.max 1 (Z.min MAX_LIMIT (default DEFAULT_LIMIT limit)).

Lemma limit_of_bounds limit : 1 <= limit_of limit <= MAX_LIMIT.
Proof. unfold limit_of, MAX_LIMIT. lia. Qed.

(** One page at an offset within the list. *)
Lemma paginate_at {A} (items : list A) limit offset :
  1 <= limit <= MAX_LIMIT → 0 <= offset <= Z.of_nat (length items) →
  Z.of_nat (length items) < 2 ^ 63 →
  let end_ := Z.min (offset + limit) (Z.of_nat (length items)) in
  window items {| page_limit := limit; page_offset := offset |}
  = Ret (take (Z.to_nat limit) (drop (Z.to_nat offset) items), Z.ltb end_ (Z.of_nat (length items)), end_).
Proof.
  intros Hl Ho Hlen end_. unfold window. cbn [page_limit page_offset]. unfold MAX_LIMIT in Hl.
  assert (u64_wrapping_add offset limit = offset + limit) as ->.
  { unfold_ints. rewrite Z.mod_small; lia. }
  fold end_. rewrite (Z.min_l offset) by lia.
  destruct (Z.ltb_spec end_ offset); [lia|]. f_equal. f_equal. f_equal.
  destruct (Z.le_gt_cases (offset + limit) (Z.of_nat (length items))).
  - f_equal. lia.
  - rewrite !take_ge; [done|rewrite length_drop; lia..].
Qed.

Definition cursor_of (offset : Z) : option string :=
  if Z.eqb offset 0 then None else Some (encode_cursor offset).

(** From any offset, the pages that remain are the items that remain. *)
Lemma walk_covers fuel limit offset items :
  0 <= offset <= Z.of_nat (length items) → Z.of_nat (length items) < 2 ^ 63 →
  Z.of_nat (length items) - offset < Z.of_nat fuel * limit_of limit →
  ∀ cursor, cursor = Some (encode_cursor offset) ∨ (cursor = None ∧ offset = 0) →
  ∃ pages, walk fuel limit cursor items = Ret pages ∧
    concat pages = drop (Z.to_nat offset) items ∧
    Forall (λ p, Z.of_nat (length p) <= limit_of limit) pages.
Proof.
  revert offset. induction fuel as [|fuel IH]; intros offset Ho Hlen Hf cursor Hc; [lia|].
  pose proof (limit_of_bounds limit) as Hl. cbn [walk].
  assert (page {| pq_limit := limit; pq_cursor := cursor |}
          = Ret {| page_limit := limit_of limit; page_offset := offset |}) as ->.
  { unfold page. cbn [pq_limit pq_cursor]. destruct Hc as [-> | [-> ->]]; [|done].
    rewrite cursor_round_trip by (unfold u64_max, u64_modulus; lia). done. }
  unfold paginate. rewrite paginate_at by done.
  set (end_ := Z.min _ _). set (n := Z.of_nat (length items)) in *.
  assert (Z.of_nat (length (take (Z.to_nat (limit_of limit)) (drop (Z.to_nat offset) items))) <= limit_of limit)
    as Hpage by (rewrite length_take; lia).
  destruct (Z.ltb_spec end_ n) as [Hlt|Hge]; cbn [page_next value_get assoc as_str].
  - destruct (IH end_) with (cursor := Some (encode_cursor end_)) as (pages & Hw & Hcat & Hall);
      [lia|lia|lia|by left|].
    unfold page_next, page_data. cbn. rewrite Hw. eexists. split; [done|]. split.
    + cbn. rewrite Hcat. replace (Z.to_nat end_) with (Z.to_nat offset + Z.to_nat (limit_of limit))%nat by lia.
      rewrite <-drop_drop. apply take_drop.
    + by constructor.
  - unfold page_next, page_data. cbn. eexists. split; [done|]. split; [|by constructor].
    cbn. rewrite app_nil_r. apply take_ge. rewrite length_drop. lia.
Qed.

(** Following the cursors of a paginated endpoint visits every item: with
    any requested limit, the client that starts without a cursor ends after
    finitely many pages, none longer than the clamped limit (1 to 100), and
    their concatenation is the whole list in its order, nothing twice; and
    every cursor the server hands out reads back as its offset. *)
Theorem pages_cover_the_list limit items :
  Z.of_nat (length items) < 2 ^ 63 →
  (∃ pages, walk (S (length items)) limit None items = Ret pages ∧ concat pages = items ∧
     Forall (λ p, Z.of_nat (length p) <= limit_of limit <= MAX_LIMIT) pages) ∧
  ∀ n, 0 <= n <= u64_max → decode_cursor (encode_cursor n) = Ret (Some n).
Proof.
  intros Hlen. split; [|apply cursor_round_trip]. pose proof (limit_of_bounds limit) as Hl.
  destruct (walk_covers (S (length items)) limit 0 items) with (cursor := None : option string)
    as (pages & Hw & Hc & Hp); [lia|done|nia|by right|].
  exists pages. split; [done|]. split; [done|]. eapply Forall_impl; [done|]. simpl. lia.
Qed.

Lemma pages_cover_the_list_witness :
  let items := [json_u64 1; json_u64 2; json_u64 3; json_u64 4; json_u64 5] in
  Z.of_nat (length items) < 2 ^ 63 ∧
  walk 6 (Some 2) None items
    = Ret [[json_u64 1; json_u64 2]; [json_u64 3; json_u64 4]; [json_u64 5]] ∧
  ∃ pages, walk 6 (Some 2) None items = Ret pages ∧ concat pages = items.
Proof.
  intros items. assert (Z.of_nat (length items) < 2 ^ 63) as Hlen by (vm_compute; reflexivity).
  split; [done|]. split; [by vm_compute|].
  destruct (pages_cover_the_list (Some 2) items Hlen) as ((pages & Hw & Hc & _) & _). by exists pages.
Defined.

(** A cursor the server never hands out stops the handler with a panic: one
    with a character of two bytes, or one with the last offset of the machine
    on a list longer than a page. *)
Theorem hostile_cursors_panic items limit :
  100 < Z.of_nat (length items) < 2 ^ 63 →
  page {| pq_limit := limit; pq_cursor := Some ("a" +:+ String (ascii_of_N 195) (String (ascii_of_N 169) "b")) |}
    = Stop Panicked ∧
  ∃ p, page {| pq_limit := limit; pq_cursor := Some (encode_cursor u64_max) |} = Ret p ∧
    paginate items p = Stop Panicked.
Proof.
  intros Hlen. split; [by vm_compute|].
  eexists. unfold page. cbn [pq_cursor pq_limit]. rewrite cursor_round_trip by done.
  split; [done|]. fold (limit_of limit). pose proof (limit_of_bounds limit) as Hl. unfold MAX_LIMIT in Hl.
  unfold paginate, window. cbn [page_limit page_offset]. change (default 0 (Some u64_max)) with u64_max.
  assert (u64_wrapping_add u64_max (limit_of limit) = limit_of limit - 1) as ->.
  { unfold_ints. replace (2 ^ 64 - 1 + limit_of limit) with (limit_of limit - 1 + 1 * 2 ^ 64) by lia.
    rewrite Z.mod_add by lia. rewrite Z.mod_small; lia. }
  rewrite (Z.min_l (limit_of limit - 1)) by lia. rewrite (Z.min_r u64_max) by (unfold_ints; lia).
  destruct (Z.ltb_spec (limit_of limit - 1) (Z.of_nat (length items))); [done|lia].
Qed.

(** *** Entity tags *)

Lemma strip_all_stop fuel pat s : strip_prefix pat s = None → strip_all fuel pat s = s.
Proof. intros H. destruct fuel; cbn [strip_all]; [done|]. by rewrite H. Qed.

Lemma digits_no_quote s t : str_all is_ascii_digit s = true → s ≠ "" →
  strip_prefix quote (s +:+ t) = None.
Proof.
  destruct s as [|c s]; [done|]. cbn [str_all]. intros [Hc _]%andb_prop _. rewrite str_app_cons.
  unfold quote. cbn [strip_prefix]. destruct (Ascii.eqb_spec (ascii_of_N 34) c) as [<-|]; done.
Qed.

Lemma unquote s : str_all is_ascii_digit s = true → s ≠ "" →
  trim_end_matches quote (trim_start_matches quote (quote +:+ s +:+ quote)) = s.
Proof.
  intros Hd Hne. unfold trim_start_matches. rewrite str_length_app.
  change (String.length quote) with 1%nat. cbn [Nat.add strip_all].
  rewrite strip_prefix_app, strip_all_stop by (by apply digits_no_quote).
  unfold trim_end_matches. rewrite rev_app_distr, str_length_app.
  change (String.length quote) with 1%nat.
  rewrite Nat.add_1_r. cbn [strip_all]. change (String.rev quote) with quote. rewrite strip_prefix_app.
  rewrite strip_all_stop; [apply rev_involutive|].
  rewrite <-(str_app_nil_r (String.rev s)). apply digits_no_quote; [by rewrite str_all_rev|].
  intros He. apply Hne. by rewrite <-(rev_involutive s), He.
Qed.

Lemma if_match_etag (hs : gmap string string) n : 0 <= n <= u64_max →
  if_match (<["if-match" := etag n]> hs) = Some n.
Proof.
  intros Hn. destruct (show_Z_digits n) as (Hd & Hne & _); [lia|].
  assert (str_all printable (etag n) = true) as Hp.
  { assert (str_all printable (show_Z n) = true) as Hs.
    { revert Hd. apply str_all_impl. intros c. unfold is_ascii_digit, printable, byte_in.
      rewrite !andb_true_iff, !N.leb_le. lia. }
    unfold etag. by rewrite !str_all_app, Hs. }
  unfold if_match, header. rewrite lookup_insert_eq. cbn [mbind option_bind].
  assert (str_all header_char (etag n) = true) as ->.
  { revert Hp. apply str_all_impl. intros c. unfold header_char, printable, byte_in.
    rewrite !andb_true_iff, orb_true_iff, andb_true_iff, !N.leb_le. lia. }
  cbn [mbind option_bind]. rewrite trim_printable by done. unfold trim_start_matches at 2. rewrite strip_all_stop by done.
  unfold etag. rewrite unquote by done. unfold parse_u64. by apply parse_unsigned_show.
Qed.
