(* ===== verification/IdempotencyInv.v ===== *)
(** * Retries replay

    The idempotency store keeps a response for its lifetime, is bounded, and
    its log survives a restart; the middleware replays it without running the
    handler. *)
From stdpp Require Import base tactics list numbers strings gmap.
From Stdlib Require Import Lia ZArith Ascii.
From S2P Require Import Prelude.
From S2P Require Import RustStr.
From S2P Require Import Common.
From S2P Require Import JsonValue.
From S2P Require Import Effect.
From S2P Require Import Http.
Local Open Scope Z_scope.

(** ** Eviction *)

Section evict.
Context (now ttl : Z) (max : nat).
Implicit Types (m : gmap string IdempotencyEntry) (order : list string).

Lemma size_list_to_set_le (l : list string) : (size (list_to_set l : gset string) ≤ length l)%nat.
Proof.
  induction l as [|x l IH]; [done|]. simpl.
  rewrite size_union_alt, size_singleton.
  pose proof (subseteq_size ((list_to_set l : gset string) ∖ {[x]}) (list_to_set l) ltac:(set_solver)). lia.
Qed.

Definition queued m order : Prop := ∀ k, is_Some (m !! k) → k ∈ order.

Lemma evict_go_queued mk m order :
  queued m order →
  let '(m', order') := IdempotencyStore.evict_go now ttl max mk m order in
  queued m' order' ∧ m' ⊆ m ∧ (∃ gone, order = gone ++ order') ∧
  (mk = true → (size m' < max)%nat ∨ m' = ∅).
Proof.
  revert m. induction order as [|k order IH]; intros m Hq; cbn [IdempotencyStore.evict_go].
  - split; [done|]. split; [done|]. split; [by exists []|]. intros _. right.
    apply map_empty. intros k. apply eq_None_not_Some. intros Hk. by apply Hq, not_elem_of_nil in Hk.
  - destruct (_ && _) eqn:E.
    + split; [done|]. split; [done|]. split; [by exists []|]. intros ->.
      apply andb_prop in E as [_ E]. cbn [andb] in E. apply negb_true_iff, Nat.leb_gt in E. by left.
    + assert (queued (delete k m) order) as Hq'.
      { intros k' [e He]. apply lookup_delete_Some in He as [Hne He].
        specialize (Hq k' (mk_is_Some _ _ He)). apply elem_of_cons in Hq as [->|]; done. }
      specialize (IH _ Hq'). destruct (IdempotencyStore.evict_go _ _ _ _ _ _) as [m' order'].
      destruct IH as (H1 & H2 & [gone ->] & H4). split; [done|].
      split; [|split; [by exists (k :: gone)|done]].
      etrans; [done|]. apply delete_subseteq.
Qed.

(** An entry that is not expired goes only for room, and only from the front. *)
Lemma evict_go_keeps mk m order k e :
  m !! k = Some e → IdempotencyStore.expired now ttl (Some e) = false →
  (mk = true → ∀ pre post, order = pre ++ k :: post → k ∉ pre → queued m order →
     (length post + 1 < max)%nat) →
  queued m order → k ∈ order →
  (IdempotencyStore.evict_go now ttl max mk m order).1 !! k = Some e.
Proof.
  intros Hk Hexp. revert m Hk. induction order as [|k' order IH]; intros m Hk Hroom Hq Hin;
    [by apply not_elem_of_nil in Hin|].
  cbn [IdempotencyStore.evict_go]. destruct (_ && _) eqn:E; [done|].
  assert (queued (delete k' m) order) as Hq'.
  { intros k'' [e' He']. apply lookup_delete_Some in He' as [Hne He'].
    specialize (Hq k'' (mk_is_Some _ _ He')). apply elem_of_cons in Hq as [->|]; done. }
  destruct (decide (k' = k)) as [->|Hne].
  - exfalso. rewrite Hk, Hexp in E. cbn [negb andb] in E. apply negb_false_iff in E.
    destruct mk; [|done]. cbn [andb] in E. apply Nat.leb_le in E.
    specialize (Hroom eq_refl [] order eq_refl ltac:(by intros ?%not_elem_of_nil) Hq).
    assert (size m ≤ length (k :: order))%nat; [|cbn in *; lia].
    rewrite <-size_dom. transitivity (size (list_to_set (k :: order) : gset string)).
    + apply subseteq_size. intros k' Hk'%elem_of_dom. rewrite elem_of_list_to_set. by apply Hq.
    + apply size_list_to_set_le.
  - apply IH; [by rewrite lookup_delete_ne| |done|].
    + intros Hmk pre post -> Hpre _. apply (Hroom Hmk (k' :: pre) post); [done| |done].
      intros [->|]%elem_of_cons; done.
    + apply elem_of_cons in Hin as [->|]; done.
Qed.
End evict.

(** ** The operations *)

Section store.
Context `{HI : IdempotencySerde}.
Implicit Types (s : IdempotencyStore).

Definition scoped : string → string → string := IdempotencyStore.scoped.
Definition queue_ok s : Prop := queued (is_entries s) (is_order s).

Lemma evict_spec now mk s :
  queue_ok s →
  let s' := IdempotencyStore.evict now mk s in
  queue_ok s' ∧ is_entries s' ⊆ is_entries s ∧ (∃ gone, is_order s = gone ++ is_order s') ∧
  (mk = true → (size (is_entries s') < is_max_entries s)%nat ∨ is_entries s' = ∅) ∧
  is_max_entries s' = is_max_entries s ∧ is_ttl_ms s' = is_ttl_ms s ∧ is_file s' = is_file s ∧
  is_log_lines s' = is_log_lines s.
Proof.
  intros Hq. unfold IdempotencyStore.evict.
  pose proof (evict_go_queued now (is_ttl_ms s) (is_max_entries s) mk _ _ Hq) as H.
  destruct (IdempotencyStore.evict_go _ _ _ _ _ _) as [m' order'].
  destruct H as (H1 & H2 & H3 & H4). by split_and!.
Qed.

(** A put leaves its entry last in the queue, and keeps to the file only. *)
Lemma put_spec now ins tenant key body s :
  let s1 := IdempotencyStore.evict now true s in
  let s' := IdempotencyStore.put now ins tenant key body s in
  is_entries s' = <[scoped tenant key := {| ie_body := body; ie_inserted_at_ms := ins |}]> (is_entries s1) ∧
  is_order s' = is_order s1 ++ [scoped tenant key] ∧
  is_max_entries s' = is_max_entries s1 ∧ is_ttl_ms s' = is_ttl_ms s1.
Proof.
  intros s1 s'. unfold s', IdempotencyStore.put. fold s1. cbn.
  destruct (is_file s1) as [text|] eqn:Hf; [|done].
  destruct (_ <=? _).
  - unfold IdempotencyStore.write_snapshot. by case_match.
  - unfold IdempotencyStore.append_line. by repeat case_match.
Qed.

Lemma put_queue_ok now ins tenant key body s :
  queue_ok s → queue_ok (IdempotencyStore.put now ins tenant key body s).
Proof.
  intros Hq. destruct (put_spec now ins tenant key body s) as (He & Ho & _).
  destruct (evict_spec now true s Hq) as (Hq1 & _). intros k. rewrite He, Ho, elem_of_app.
  destruct (decide (scoped tenant key = k)) as [<-|Hne]; [set_solver|].
  rewrite lookup_insert_ne by done. intros Hk. left. by apply Hq1.
Qed.

(** The store never holds more than its bound once it is written to. *)
Lemma put_bounded now ins tenant key body s :
  queue_ok s →
  (size (is_entries (IdempotencyStore.put now ins tenant key body s)) ≤ Nat.max 1 (is_max_entries s))%nat.
Proof.
  intros Hq. destruct (put_spec now ins tenant key body s) as (-> & _).
  destruct (evict_spec now true s Hq) as (_ & _ & _ & Hsz & _). rewrite map_size_insert.
  destruct (Hsz eq_refl) as [Hlt| ->]; [case_match; unfold id; lia|]. rewrite lookup_empty, map_size_empty. lia.
Qed.

Inductive idem_op :=
  | IGet (now : Z) (tenant key : string)
  | IPut (now inserted_at_ms : Z) (tenant key : string) (body : Value).
Definition idem_step s (op : idem_op) : IdempotencyStore :=
  match op with
  | IGet now tenant key => (IdempotencyStore.get now tenant key s).1
  | IPut now ins tenant key body => IdempotencyStore.put now ins tenant key body s
  end.
Definition idem_now (op : idem_op) : Z := match op with IGet now _ _ | IPut now _ _ _ _ => now end.
Definition puts (ops : list idem_op) : nat :=
  length (List.filter (λ op, match op with IPut _ _ _ _ _ => true | _ => false end) ops).

(** ** A response is kept *)

(** The entry of [k], with at most [n] insertions behind it in the queue. *)
Record keeps_entry (k : string) (e : IdempotencyEntry) (n : nat) s : Prop := {
  ke_queue : queue_ok s;
  ke_entry : is_entries s !! k = Some e;
  ke_order : ∃ pre post, is_order s = pre ++ k :: post ∧ k ∉ pre ∧ (length post ≤ n)%nat;
}.

Lemma first_occurrence {A} `{EqDecision A} (k : A) pre post pre' post' :
  pre ++ k :: post = pre' ++ k :: post' → k ∉ pre → k ∉ pre' → pre = pre' ∧ post = post'.
Proof.
  revert pre'. induction pre as [|x pre IH]; intros [|y pre'] Heq Hp Hp'; simplify_eq/=; try set_solver.
Qed.

Lemma evict_keeps_entry now mk k e n s :
  keeps_entry k e n s → IdempotencyStore.expired now (is_ttl_ms s) (Some e) = false →
  (mk = true → (n + 1 < is_max_entries s)%nat) →
  keeps_entry k e n (IdempotencyStore.evict now mk s).
Proof.
  intros [Hq He (pre & post & Ho & Hpre & Hn)] Hexp Hroom.
  destruct (evict_spec now mk s Hq) as (Hq' & _ & [gone Hg] & _).
  assert (is_entries (IdempotencyStore.evict now mk s) !! k = Some e) as He'.
  { unfold IdempotencyStore.evict.
    pose proof (evict_go_keeps now (is_ttl_ms s) (is_max_entries s) mk (is_entries s) (is_order s) k e
                  He Hexp) as Hkeep.
    destruct (IdempotencyStore.evict_go _ _ _ _ _ _) as [m' order']. apply Hkeep; [|done|].
    - intros Hmk pre' post' Ho' Hpre' _. rewrite Ho in Ho'.
      destruct (first_occurrence k pre post pre' post' Ho' Hpre Hpre') as [<- <-].
      specialize (Hroom Hmk). lia.
    - rewrite Ho. set_solver. }
  split; [done|done|].
  set (order' := is_order (IdempotencyStore.evict now mk s)) in *.
  assert (k ∈ order') as Hin by (apply Hq'; by eexists).
  destruct (list_elem_of_split_l order' k Hin) as (pre' & post' & Heq & Hpre').
  exists pre', post'. split; [done|]. split; [done|].
  assert (length post' ≤ length post)%nat; [|lia].
  rewrite Ho, Heq in Hg.
  destruct (decide (k ∈ gone)) as [Hgone|Hgone].
  - assert (length (pre ++ k :: post) = length (gone ++ pre' ++ k :: post')) as Hlen by (by rewrite Hg).
    destruct (list_elem_of_split_l gone k Hgone) as (g1 & g2 & -> & Hg1).
    rewrite <-app_assoc in Hg. cbn in Hg.
    destruct (first_occurrence k _ _ _ _ Hg Hpre Hg1) as [-> ->]. rewrite !length_app. cbn. lia.
  - rewrite app_assoc in Hg. destruct (first_occurrence k _ _ _ _ Hg Hpre) as [_ ->]; [set_solver|done].
Qed.

(** Operations within the lifetime of the entry, at other keys, with room. *)
Definition spares (k : string) (e : IdempotencyEntry) (ttl : Z) (ops : list idem_op) : Prop :=
  Forall (λ op, IdempotencyStore.expired (idem_now op) ttl (Some e) = false ∧
    match op with IPut _ _ t key _ => scoped t key ≠ k | _ => True end) ops.

Lemma step_keeps_entry k e n s op :
  keeps_entry k e n s → IdempotencyStore.expired (idem_now op) (is_ttl_ms s) (Some e) = false →
  match op with IPut _ _ t key _ => scoped t key ≠ k ∧ (n + 1 < is_max_entries s)%nat | _ => True end →
  keeps_entry k e (n + puts [op]) (idem_step s op) ∧
  is_ttl_ms (idem_step s op) = is_ttl_ms s ∧ is_max_entries (idem_step s op) = is_max_entries s.
Proof.
  intros Hk Hexp Hop. destruct op as [now t key|now ins t key body]; cbn [idem_now] in Hexp; cbn.
  - rewrite Nat.add_0_r. destruct (evict_spec now false s (ke_queue _ _ _ _ Hk)) as (_ & _ & _ & _ & -> & -> & _).
    split; [|done]. by apply evict_keeps_entry.
  - destruct Hop as [Hne Hroom].
    destruct (evict_spec now true s (ke_queue _ _ _ _ Hk)) as (_ & _ & _ & _ & Hmax & Httl & _).
    destruct (evict_keeps_entry now true k e n s Hk Hexp ltac:(done)) as [Hq He (pre & post & Ho & Hpre & Hn)].
    pose proof (put_queue_ok now ins t key body s (ke_queue _ _ _ _ Hk)) as Hq'.
    destruct (put_spec now ins t key body s) as (He' & Ho' & Hmax' & Httl').
    split; [|by rewrite Hmax', Httl']. split; [done| |].
    + by rewrite He', lookup_insert_ne.
    + exists pre, (post ++ [scoped t key]). rewrite Ho', Ho, <-app_assoc. split; [done|]. split; [done|].
      rewrite length_app. cbn. lia.
Qed.

Lemma run_keeps_entry k e n s ops :
  keeps_entry k e n s → spares k e (is_ttl_ms s) ops → (n + puts ops < is_max_entries s)%nat →
  keeps_entry k e (n + puts ops) (foldl idem_step s ops) ∧
  is_ttl_ms (foldl idem_step s ops) = is_ttl_ms s.
Proof.
  revert n s. induction ops as [|op ops IH]; intros n s Hk Hsp Hroom; [by rewrite Nat.add_0_r|].
  apply Forall_cons in Hsp as [[Hexp Hop] Hsp]. cbn [foldl].
  assert (puts (op :: ops) = puts [op] + puts ops)%nat as Hp.
  { unfold puts. cbn. by destruct op. }
  rewrite Hp in Hroom |- *. rewrite Nat.add_assoc in Hroom |- *.
  destruct (step_keeps_entry k e n s op Hk Hexp) as (Hk' & Httl & Hmax).
  { destruct op; [done|]. split; [done|]. cbn in Hroom. lia. }
  rewrite <-Httl in Hsp. rewrite <-Hmax in Hroom.
  destruct (IH _ _ Hk' Hsp Hroom) as [H1 H2]. split; [done|]. by rewrite H2.
Qed.

Lemma put_keeps_entry now ins tenant key body s :
  queue_ok s → scoped tenant key ∉ is_order s →
  keeps_entry (scoped tenant key) {| ie_body := body; ie_inserted_at_ms := ins |} 0
    (IdempotencyStore.put now ins tenant key body s).
Proof.
  intros Hq Hnew. destruct (put_spec now ins tenant key body s) as (He & Ho & _).
  destruct (evict_spec now true s Hq) as (_ & _ & [gone Hg] & _).
  split; [by apply put_queue_ok|by rewrite He, lookup_insert_eq|].
  eexists _, []. split; [by rewrite Ho|]. split; [|done]. rewrite Hg in Hnew. set_solver.
Qed.

Lemma keeps_entry_get now tenant key e n s :
  keeps_entry (scoped tenant key) e n s → IdempotencyStore.expired now (is_ttl_ms s) (Some e) = false →
  (IdempotencyStore.get now tenant key s).2 = Some (ie_body e).
Proof.
  intros Hk Hexp. cbn. destruct (evict_keeps_entry now false _ _ _ s Hk Hexp ltac:(done)) as [_ He _].
  unfold scoped in He. by rewrite He.
Qed.

(** ** The log *)

(** A record the JSON library keeps, on a line of its own. *)
Definition line_keeps (r : PersistedEntry) : Prop :=
  ∃ line, entry_to_line r = inr line ∧ entry_from_line line = inr r ∧ plain_line line ∧
    is_empty (trim line) = false.

Definition load_entry (m : gmap string IdempotencyEntry) (line : string) : gmap string IdempotencyEntry :=
  if is_empty (trim line) then m
  else match entry_from_line line with
       | inl _ => m
       | inr r => <[pe_key r := {| ie_body := pe_body r; ie_inserted_at_ms := pe_inserted_at_ms r |}]> m
       end.

Lemma load_lines_spec ls s :
  queue_ok s →
  let s' := foldl IdempotencyStore.load_line s ls in
  is_entries s' = foldl load_entry (is_entries s) ls ∧ queue_ok s' ∧ is_ttl_ms s' = is_ttl_ms s.
Proof.
  revert s. induction ls as [|l ls IH]; intros s Hq; [done|]. cbn [foldl].
  assert (is_entries (IdempotencyStore.load_line s l) = load_entry (is_entries s) l ∧
          queue_ok (IdempotencyStore.load_line s l) ∧
          is_ttl_ms (IdempotencyStore.load_line s l) = is_ttl_ms s) as (He & Hq' & Ht).
  { unfold IdempotencyStore.load_line, load_entry. destruct (is_empty _); [done|].
    destruct (entry_from_line l) as [|r]; [done|]. split_and!; [done| |done].
    intros k. cbn. rewrite elem_of_app. destruct (decide (pe_key r = k)) as [<-|Hne]; [set_solver|].
    rewrite lookup_insert_ne by done. intros Hk. left. by apply Hq. }
  destruct (IH _ Hq') as (H1 & H2 & H3). split_and!; [by rewrite H1, He|done|by rewrite H3].
Qed.

Lemma new_with_path_spec ttl max file :
  let s := IdempotencyStore.new_with_path ttl max file in
  queue_ok s ∧ is_entries s = foldl load_entry ∅ (lines (default "" file)) ∧ is_ttl_ms s = ttl.
Proof.
  intros s. unfold s, IdempotencyStore.new_with_path.
  set (s0 := Build_IdempotencyStore _ _ _ _ _ _).
  destruct (load_lines_spec (lines (default "" file)) s0) as (H1 & H2 & H3); [|by split_and!].
  intros k [e He]. unfold s0 in He. cbn in He. by rewrite lookup_empty in He.
Qed.

(** The text holds lines from which every live entry loads. *)
Record log_ok s : Prop := {
  lo_queue : queue_ok s;
  lo_kept k e : is_entries s !! k = Some e → line_keeps (IdempotencyStore.persisted k e);
  lo_log : ∃ ls, is_file s = Some (text_of_lines ls) ∧ Forall plain_line ls ∧
    is_entries s ⊆ foldl load_entry ∅ ls;
}.

Lemma load_entry_kept m k e line :
  entry_from_line line = inr (IdempotencyStore.persisted k e) → is_empty (trim line) = false →
  load_entry m line = <[k := e]> m.
Proof. intros Hr Ht. unfold load_entry. rewrite Ht, Hr. cbn. by destruct e. Qed.

(** A snapshot of the records of a store loads every entry of it. *)
Lemma snapshot_loads (m : gmap string IdempotencyEntry) order :
  (∀ k e, m !! k = Some e → line_keeps (IdempotencyStore.persisted k e)) →
  ∃ ls, IdempotencyStore.snapshot_text (omap (λ k, IdempotencyStore.persisted k <$> m !! k) order)
      = Some (text_of_lines ls) ∧ Forall plain_line ls ∧
    ∀ m0 k e, m !! k = Some e → (k ∈ order ∨ m0 !! k = Some e) → foldl load_entry m0 ls !! k = Some e.
Proof.
  intros Hm. induction order as [|k order IH].
  - exists []. split; [done|]. split; [done|]. intros m0 k e _ [[]%not_elem_of_nil|]; done.
  - destruct IH as (ls & Htext & Hplain & Hload).
    set (f := λ k, IdempotencyStore.persisted k <$> m !! k) in *.
    assert (omap f (k :: order) = match f k with Some r => r :: omap f order | None => omap f order end)
      as -> by done.
    unfold f at 1. destruct (m !! k) as [e|] eqn:Hk; cbn [fmap option_fmap option_map].
    + destruct (Hm k e Hk) as (line & Hw & Hr & Hp & Ht).
      exists (line :: ls). cbn [IdempotencyStore.snapshot_text]. rewrite Hw, Htext. split; [done|]. split; [by constructor|].
      intros m0 k' e' Hk' Hin. cbn [foldl]. rewrite (load_entry_kept _ _ _ _ Hr Ht).
      apply Hload; [done|]. destruct (decide (k = k')) as [->|Hne].
      * right. rewrite lookup_insert_eq. congruence.
      * rewrite lookup_insert_ne by done. destruct Hin as [[->|]%elem_of_cons|]; [done|by left|by right].
    + exists ls. split; [done|]. split; [done|]. intros m0 k' e' Hk' Hin. apply Hload; [done|].
      destruct Hin as [[->|]%elem_of_cons|]; [congruence|by left|by right].
Qed.

Definition op_kept (op : idem_op) : Prop :=
  match op with
  | IGet _ _ _ => True
  | IPut _ ins t key body =>
    line_keeps (IdempotencyStore.persisted (scoped t key) {| ie_body := body; ie_inserted_at_ms := ins |})
  end.

Lemma evict_log_ok now mk s : log_ok s → log_ok (IdempotencyStore.evict now mk s).
Proof.
  intros [Hq Hk (ls & Hf & Hp & Hl)].
  destruct (evict_spec now mk s Hq) as (Hq' & Hsub & _ & _ & _ & _ & Hfile & _). split; [done| |].
  - intros k e He. apply Hk. by eapply lookup_weaken.
  - exists ls. rewrite Hfile. split_and!; [done|done|by etrans].
Qed.

Lemma put_log_ok now ins t key body s :
  log_ok s → op_kept (IPut now ins t key body) → log_ok (IdempotencyStore.put now ins t key body s).
Proof.
  intros Hs Hop. pose proof (evict_log_ok now true s Hs) as [Hq1 Hk1 (ls & Hf & Hp & Hl)].
  destruct (put_spec now ins t key body s) as (He & Ho & _).
  pose proof (put_queue_ok now ins t key body s (lo_queue s Hs)) as Hq.
  set (e := {| ie_body := body; ie_inserted_at_ms := ins |}) in *.
  assert (∀ k' e', <[scoped t key := e]> (is_entries (IdempotencyStore.evict now true s)) !! k' = Some e' →
            line_keeps (IdempotencyStore.persisted k' e')) as Hkept.
  { intros k' e'. rewrite lookup_insert_Some. intros [[<- <-]|[_ Hk']]; [exact Hop|by apply Hk1]. }
  split; [done|by rewrite He|]. rewrite He.
  unfold IdempotencyStore.put. fold (scoped t key). fold e.
  unfold IdempotencyStore.set_log_lines, IdempotencyStore.set_cache.
  cbn [is_file is_entries is_order is_log_lines is_max_entries is_ttl_ms]. rewrite Hf. destruct (_ <=? _).
  - destruct (snapshot_loads (<[scoped t key := e]> (is_entries (IdempotencyStore.evict now true s)))
      (is_order (IdempotencyStore.evict now true s) ++ [scoped t key]) Hkept) as (ls' & Htext & Hp' & Hload).
    unfold IdempotencyStore.write_snapshot, IdempotencyStore.records. cbn [is_entries is_order].
    rewrite Htext. cbn [is_file]. exists ls'. split_and!; [done|done|].
    apply map_subseteq_spec. intros k' e' Hk'. apply Hload; [done|]. left. apply elem_of_app.
    destruct (decide (scoped t key = k')) as [<-|Hne]; [right; by apply list_elem_of_singleton|].
    left. apply Hq1. rewrite lookup_insert_ne in Hk' by done. by eexists.
  - destruct Hop as (line & Hw & Hr & Hpl & Ht).
    unfold IdempotencyStore.append_line. cbn [is_file]. unfold IdempotencyStore.persisted. cbn [ie_body ie_inserted_at_ms e].
    unfold IdempotencyStore.persisted in Hw, Hr. cbn [ie_body ie_inserted_at_ms e] in Hw, Hr. rewrite Hw. cbn [is_file].
    exists (ls ++ [line]). rewrite text_of_lines_app. split; [done|]. split; [by apply Forall_app; split; [|constructor]|].
    rewrite foldl_app. cbn [foldl]. unfold load_entry at 1. rewrite Ht, Hr. cbn. by apply insert_mono.
Qed.

Lemma step_log_ok s op : log_ok s → op_kept op → log_ok (idem_step s op).
Proof. destruct op; cbn [idem_step]; [intros H _; by apply evict_log_ok|apply put_log_ok]. Qed.

Lemma run_log_ok s ops : log_ok s → Forall op_kept ops → log_ok (foldl idem_step s ops).
Proof.
  revert s. induction ops as [|op ops IH]; intros s Hs Hops; [done|].
  apply Forall_cons in Hops as [Hop Hops]. cbn [foldl]. apply IH; [by apply step_log_ok|done].
Qed.

(** A store opened on the log has every live entry of the one that wrote it. *)
Lemma log_ok_reload s ttl max :
  log_ok s → is_entries s ⊆ is_entries (IdempotencyStore.new_with_path ttl max (is_file s)).
Proof.
  intros [_ _ (ls & Hf & Hp & Hl)]. destruct (new_with_path_spec ttl max (is_file s)) as (_ & -> & _).
  rewrite Hf. change (default "" (Some (text_of_lines ls))) with (text_of_lines ls). by rewrite lines_text.
Qed.
End store.

(** A response remembered for an idempotency key is replayed, and the store
    is bounded.  After a put under a key not in the queue, and then fewer than
    [max_entries] other puts and any gets, all within the lifetime of the
    response, a get of the key returns the response; a put never leaves more
    than the bound (or one); and when the JSON library keeps the records put,
    a store opened on the log the operations wrote, from an empty one, replays
    the same response. *)
Theorem responses_are_replayed `{IdempotencySerde} s now ins tenant key body ops now' :
  let e := {| ie_body := body; ie_inserted_at_ms := ins |} in
  let s1 := foldl idem_step (IdempotencyStore.put now ins tenant key body s) ops in
  queue_ok s → scoped tenant key ∉ is_order s →
  spares (scoped tenant key) e (is_ttl_ms s) ops → (puts ops < is_max_entries s)%nat →
  IdempotencyStore.expired now' (is_ttl_ms s) (Some e) = false →
  (IdempotencyStore.get now' tenant key s1).2 = Some body ∧
  (∀ n i t k b, (size (is_entries (IdempotencyStore.put n i t k b s)) ≤ Nat.max 1 (is_max_entries s))%nat) ∧
  (log_ok s → op_kept (IPut now ins tenant key body) → Forall op_kept ops →
   (IdempotencyStore.get now' tenant key
      (IdempotencyStore.new_with_path (is_ttl_ms s) (is_max_entries s) (is_file s1))).2 = Some body).
Proof.
  intros e s1 Hq Hnew Hsp Hroom Hexp.
  pose proof (put_keeps_entry now ins tenant key body s Hq Hnew) as Hk. fold e in Hk.
  destruct (put_spec now ins tenant key body s) as (_ & _ & Hmax & Httl).
  destruct (evict_spec now true s Hq) as (_ & _ & _ & _ & Hmax' & Httl' & _).
  rewrite Hmax' in Hmax. rewrite Httl' in Httl.
  destruct (run_keeps_entry _ e 0 _ ops Hk) as [Hk1 Httl1]; [by rewrite Httl|by rewrite Hmax|].
  fold s1 in Hk1, Httl1. split_and!.
  - by rewrite (keeps_entry_get _ _ _ e _ _ Hk1) by (by rewrite Httl1, Httl).
  - intros. by apply put_bounded.
  - intros Hlog Hop Hops.
    assert (log_ok s1) as Hlog1 by (apply run_log_ok; [by apply put_log_ok|done]).
    set (r := IdempotencyStore.new_with_path _ _ _).
    destruct (new_with_path_spec (is_ttl_ms s) (is_max_entries s) (is_file s1)) as (Hqr & _ & Htr). fold r in Hqr, Htr.
    assert (is_entries r !! scoped tenant key = Some e) as Her.
    { eapply lookup_weaken; [apply (ke_entry _ _ _ _ Hk1)|]. by apply log_ok_reload. }
    assert (keeps_entry (scoped tenant key) e (length (is_order r)) r) as Hkr.
    { split; [done|done|]. destruct (list_elem_of_split_l (is_order r) (scoped tenant key)) as (pre & post & Heq & Hpre).
      - apply Hqr. by eexists.
      - exists pre, post. split; [done|]. split; [done|]. rewrite Heq, length_app. cbn. lia. }
    by rewrite (keeps_entry_get _ _ _ e _ _ Hkr) by (by rewrite Htr).
Qed.

(** ** The middleware *)

(** The key under which the middleware remembers a request. *)
Definition replay_key (req : Request) (key : string) : string :=
  method req +:+ " " +:+ path req +:+ IdempotencyStore.unit_separator +:+ key.

(** [req'] repeats [req]: the same route, idempotency key and named tenant. *)
Record repeats (req' req : Request) (key : string) : Prop := {
  rp_method : method req' = method req;
  rp_path : path req' = path req;
  rp_key : idempotency_key (headers req') = Some key;
  rp_tenant : run_tenant (headers req') = run_tenant (headers req);
}.

(** What the middleware remembers of a handler's answer: a success whose body is
    within the limit and empty or JSON. *)
Definition remembered `{HttpJson} (response : Response) : option Value :=
  if is_success (status response) && Z.leb (str_len (body response)) MAX_REPLAY_BODY then
    if is_empty (body response) then Some Null else value_from_slice (body response)
  else None.
(** The answer made of it. *)
Definition replayed `{HttpJson} (status : Z) (v : Value) : Response :=
  match v with Null => empty_response status | v => json_response status v end.

Lemma replay_cached_replayed `{HttpJson} status v : is_success status = true →
  replay_cached (Object [("status", json_u64 status); ("body", v)]) = replayed status v.
Proof.
  intros Hok. unfold replay_cached, status_of. cbn [value_get assoc String.eqb].
  change (assoc "body" [("status", json_u64 status); ("body", v)]) with (Some v).
  change (assoc "status" [("status", json_u64 status); ("body", v)]) with (Some (json_u64 status)).
  cbn. unfold is_success in Hok. apply andb_prop in Hok as [Hlo%Z.leb_le Hhi%Z.ltb_lt].
  destruct (Z.leb_spec 100 status); [|lia]. destruct (Z.leb_spec status 999); [|lia]. cbn. by destruct v.
Qed.

(** A key that is not in the queue is not in the store. *)
Lemma get_unknown `{IdempotencySerde} now tenant key store :
  queue_ok store → scoped tenant key ∉ is_order store →
  let store0 := IdempotencyStore.evict now false store in
  IdempotencyStore.get now tenant key store = (store0, None) ∧ queue_ok store0 ∧
  scoped tenant key ∉ is_order store0 ∧ is_ttl_ms store0 = is_ttl_ms store.
Proof.
  intros Hq Hnew store0. destruct (evict_spec now false store Hq) as (Hq0 & _ & [gone Hg] & _ & _ & Httl & _).
  fold store0 in Hq0, Hg, Httl.
  assert (scoped tenant key ∉ is_order store0) as Hnew0 by (rewrite Hg in Hnew; set_solver).
  split_and!; [|done..]. unfold IdempotencyStore.get. fold store0. f_equal.
  destruct (is_entries store0 !! IdempotencyStore.scoped tenant key) eqn:E; [|done].
  exfalso. apply Hnew0, Hq0. by eexists.
Qed.

(** A remembered answer is found again within its lifetime. *)
Lemma put_get `{IdempotencySerde} now1 ins now2 tenant key v store :
  queue_ok store → scoped tenant key ∉ is_order store →
  IdempotencyStore.expired now2 (is_ttl_ms store) (Some {| ie_body := v; ie_inserted_at_ms := ins |}) = false →
  (IdempotencyStore.get now2 tenant key (IdempotencyStore.put now1 ins tenant key v store)).2 = Some v.
Proof.
  intros Hq Hnew Hexp. pose proof (put_keeps_entry now1 ins tenant key v store Hq Hnew) as Hk.
  destruct (put_spec now1 ins tenant key v store) as (_ & _ & _ & Httl).
  destruct (evict_spec now1 true store Hq) as (_ & _ & _ & _ & _ & Httl' & _).
  apply (keeps_entry_get _ _ _ {| ie_body := v; ie_inserted_at_ms := ins |} 0); [done|]. by rewrite Httl, Httl'.
Qed.

(** The middleware on a key it does not know: the handler runs, and its answer is
    stored when it is one to remember. *)
Lemma middleware_unknown `{HttpJson, IdempotencySerde} {S} (next : Request → S → S * Response)
    now0 now1 ins req key store s :
  let tenant := run_tenant (headers req) in
  is_replay_eligible (method req) (path req) = true → idempotency_key (headers req) = Some key →
  queue_ok store → scoped tenant (replay_key req key) ∉ is_order store →
  let store0 := IdempotencyStore.evict now0 false store in
  let '(s', response) := next req s in
  let '((store1, s1), answer) := idempotency_middleware now0 now1 ins next req (store, s) in
  s1 = s' ∧
  match remembered response with
  | Some v => answer = response ∧
      store1 = IdempotencyStore.put now1 ins tenant (replay_key req key)
                 (Object [("status", json_u64 (status response)); ("body", v)]) store0
  | None => store1 = store0
  end.
Proof.
  intros tenant Hel Hkey Hq Hnew store0. unfold idempotency_middleware. rewrite Hel, Hkey. cbn [negb].
  fold (replay_key req key) tenant. destruct (get_unknown now0 tenant (replay_key req key) store Hq Hnew) as (-> & _).
  destruct (next req s) as [s' response]. unfold remembered.
  destruct (is_success (status response)); cbn [negb andb]; [|done].
  rewrite Z.leb_antisym. destruct (Z.ltb MAX_REPLAY_BODY (str_len (body response))); cbn [negb]; [done|].
  by destruct (if is_empty (body response) then Some Null else value_from_slice (body response)).
Qed.

(** C37: a retry of a successful mutation is answered from the store and not run
    again, and a retry of anything else is.  Take a request on an eligible
    route (a mutating method, no [:query] or [:stream]) with an idempotency key
    that is not in the queue, and then a request with the same method, path,
    key and named tenant.  If the first was answered with success and a body
    within the replay limit that is empty or JSON, the second, within the
    lifetime of that answer, gets its status and body and the handlers' state
    stays as the first left it, whatever the handler.  If the first was not
    answered so, the handler runs for the second.  The other headers and the
    body of the second request do not matter, its principal included: a stored
    answer is replayed before any handler authorizes the caller (the comment of
    the middleware says the opposite). *)
Theorem retries_are_not_executed `{HttpJson, IdempotencySerde} {S} (next next' : Request → S → S * Response)
    now0 now1 ins now2 now3 now4 req req' key store s s' response :
  is_replay_eligible (method req) (path req) = true → idempotency_key (headers req) = Some key →
  repeats req' req key →
  queue_ok store → scoped (run_tenant (headers req)) (replay_key req key) ∉ is_order store →
  next req s = (s', response) →
  let first := idempotency_middleware now0 now1 ins next req (store, s) in
  let retry := idempotency_middleware now2 now3 now4 next' req' first.1 in
  first.1.2 = s' ∧
  match remembered response with
  | Some v =>
    let entry := {| ie_body := Object [("status", json_u64 (status response)); ("body", v)];
                    ie_inserted_at_ms := ins |} in
    first.2 = response ∧
    (IdempotencyStore.expired now2 (is_ttl_ms store) (Some entry) = false →
     retry.1.2 = s' ∧ retry.2 = replayed (status response) v)
  | None => retry.1.2 = (next' req' s').1
  end.
Proof.
  intros Hel Hkey [Hm Hp Hkey' Hten] Hq Hnew Hnext. cbv zeta.
  pose proof (middleware_unknown next now0 now1 ins req key store s Hel Hkey Hq Hnew) as Hfirst. cbv zeta in Hfirst.
  destruct (get_unknown now0 _ _ store Hq Hnew) as (_ & Hq0 & Hnew0 & Httl). rewrite Hnext in Hfirst.
  destruct (idempotency_middleware now0 now1 ins next req (store, s)) as [[store1 s1] answer].
  destruct Hfirst as [-> Hfirst]. split; [done|]. cbn [fst snd].
  assert (replay_key req' key = replay_key req key) as Hk by (unfold replay_key; congruence).
  rewrite <-Hm, <-Hp in Hel. rewrite <-Hten, <-Hk in Hnew0, Hfirst.
  destruct (remembered response) as [v|] eqn:Hrem.
  - destruct Hfirst as [-> ->]. split; [done|]. intros Hexp. rewrite <-Httl in Hexp.
    pose proof (put_get now1 ins now2 _ _ _ _ Hq0 Hnew0 Hexp) as Hget.
    unfold idempotency_middleware. rewrite Hel, Hkey'. cbn [negb]. fold (replay_key req' key).
    destruct (IdempotencyStore.get now2 _ _ _) as [store2 o]. cbn [snd] in Hget. subst o. split; [done|].
    apply replay_cached_replayed. unfold remembered in Hrem. by destruct (is_success (status response)).
  - subst store1.
    pose proof (middleware_unknown next' now2 now3 now4 req' key _ s' Hel Hkey' Hq0 Hnew0) as Hretry. cbv zeta in Hretry.
    destruct (next' req' s') as [s2 r2]. destruct (idempotency_middleware _ _ _ _ req' _) as [[store2 s3] answer2].
    by destruct Hretry.
Qed.

(** ** Examples *)

Lemma log_ok_empty `{IdempotencySerde} ttl max : log_ok (IdempotencyStore.new_with_path ttl max (Some "")).
Proof.
  split.
  - intros k [e He]. change (None = Some e) in He. done.
  - intros k e He. change (None = Some e) in He. done.
  - by exists [].
Qed.

#[export] Instance PersistedEntry_eq_dec : EqDecision PersistedEntry.
Proof. solve_decision. Defined.

Definition record_of (key : string) (body : Value) (ins : Z) : PersistedEntry :=
  {| pe_key := scoped "acme" key; pe_body := body; pe_inserted_at_ms := ins |}.
Definition example_records : list PersistedEntry :=
  [record_of "k" (Str "created") 10; record_of "k2" (Str "deleted") 30].
Definition example_idempotency : IdempotencySerde :=
  {| entry_to_line := table_write example_records; entry_from_line := table_read example_records |}.

Lemma responses_are_replayed_witness :
  let serde := example_idempotency in
  let s := IdempotencyStore.new_with_path 1000 2 (Some "") in
  let e := {| ie_body := Str "created"; ie_inserted_at_ms := 10 |} in
  let ops := [IGet 20 "acme" "k"; IPut 30 30 "acme" "k2" (Str "deleted"); IGet 40 "acme" "k2"] in
  let s1 := foldl idem_step (IdempotencyStore.put 10 10 "acme" "k" (Str "created") s) ops in
  (queue_ok s ∧ spares (scoped "acme" "k") e 1000 ops ∧ log_ok s ∧ Forall op_kept ops) ∧
  is_file s1 = Some (text_of_lines ["0"; "1"]) ∧
  (IdempotencyStore.get 900 "acme" "k" s1).2 = Some (Str "created") ∧
  (IdempotencyStore.get 900 "acme" "k" (IdempotencyStore.new_with_path 1000 2 (is_file s1))).2
    = Some (Str "created").
Proof.
  intros serde s e ops s1.
  assert (log_ok s) as Hlog by apply log_ok_empty.
  assert (spares (scoped "acme" "k") e 1000 ops) as Hsp.
  { repeat constructor; by vm_compute. }
  assert (op_kept (IPut 10 10 "acme" "k" (Str "created"))) as Hop.
  { exists "0". split_and!; [by vm_compute..]. }
  assert (Forall op_kept ops) as Hops.
  { repeat constructor. exists "1". split_and!; by vm_compute. }
  destruct (responses_are_replayed s 10 10 "acme" "k" (Str "created") ops 900) as (H1 & _ & H2);
    [apply (lo_queue s Hlog)|by apply not_elem_of_nil|exact Hsp|by vm_compute; lia|by vm_compute|].
  split; [by split_and!; [apply (lo_queue s Hlog)|..]|]. split; [by vm_compute|].
  split; [exact H1|]. by apply H2.
Defined.

(** The handler counts its runs and answers with its count. *)
Definition counting (req : Request) (n : Z) : Z * Response :=
  (n + 1, {| status := 201; response_headers := json_headers; body := "run" |}).
Definition refusing (req : Request) (n : Z) : Z * Response :=
  (n + 1, {| status := 503; response_headers := json_headers; body := "run" |}).
Definition text_json : HttpJson := {|
  value_to_vec v := match v with Str s => s | _ => "" end;
  value_from_slice s := Some (Str s) |}.
Definition request_of (principal : string) : Request := {|
  method := "POST"; path := "/api/v1/projects";
  headers := <["x-wovyr-tenant" := "acme"]> (<["x-wovyr-principal" := principal]>
               {["idempotency-key" := "k"]});
  request_body := "" |}.

(** The second caller is another principal: it gets the first one's response.
    A refusal is not remembered. *)
Lemma retries_are_not_executed_witness :
  let serde := example_idempotency in
  let json := text_json in
  let store := IdempotencyStore.new_with_path 1000 2 None in
  let req := request_of "admin" in
  let req' := request_of "mallory" in
  let retry handler := idempotency_middleware 20 21 21 handler req'
    (idempotency_middleware 10 11 11 handler req (store, 0)).1 in
  ((retry counting).1.2 = 1 ∧ (retry counting).2 = json_response 201 (Str "run")) ∧
  (retry refusing).1.2 = 2.
Proof.
  intros serde json store req req' retry.
  assert (repeats req' req "k") as Hrep by (split; by vm_compute).
  assert (queue_ok store) as Hq by (intros k [e He]; change (None = Some e) in He; done).
  split.
  - destruct (retries_are_not_executed counting counting 10 11 11 20 21 21 req req' "k" store 0 1
      (json_response 201 (Str "run"))) as (_ & _ & Hr);
      [by vm_compute|by vm_compute|exact Hrep|exact Hq|by apply not_elem_of_nil|reflexivity|].
    exact (Hr eq_refl).
  - destruct (retries_are_not_executed refusing refusing 10 11 11 20 21 21 req req' "k" store 0 1
      {| status := 503; response_headers := json_headers; body := "run" |}) as (_ & Hr);
      [by vm_compute|by vm_compute|exact Hrep|exact Hq|by apply not_elem_of_nil|reflexivity|].
    exact Hr.
Defined.
