(* ===== verification/TenantRoutes.v ===== *)
(** * The tenancy and webhook routes

    [crates/wovyr-server/src/tenancy.rs], the management routes of
    [webhooks.rs], and [audit.rs]: who a request acts as, with which roles,
    and the handlers behind that check. *)
From stdpp Require Import base tactics list numbers strings gmap sorting.
From Stdlib Require Import Lia ZArith Ascii SpecFloat.
From S2P Require Import Prelude.
From S2P Require Import RustStr.
From S2P Require Import F64.
From S2P Require Import Common.
From S2P Require Import JsonValue.
From S2P Require Import Effect.
From S2P Require Import AuditLog.
From S2P Require Import Events.
From S2P Require Import Tenancy.
From S2P Require Import Http.
Local Open Scope Z_scope.

(** ** Handlers

    A handler changes the application state and answers, answers an error, or
    panics. *)
Inductive answer (A : Type) :=
  | Answer (a : A)
  | Refuse (e : ApiError)
  | HandlerPanic.
Arguments Answer {A} _.
Arguments Refuse {A} _.
Arguments HandlerPanic {A}.

Section handler_monad.
Context {S : Type}.
Definition H (A : Type) : Type := S → S * answer A.
#[global] Instance H_ret : MRet H := λ A a s, (s, Answer a).
#[global] Instance H_bind : MBind H := λ A B k m s,
  match m s with
  | (s, Answer a) => k a s
  | (s, Refuse e) => (s, Refuse e)
  | (s, HandlerPanic) => (s, HandlerPanic)
  end.
Definition refuse {A} (e : ApiError) : H A := λ s, (s, Refuse e).
(** [?] on a [Result] of the workspace. *)
Definition try {A} (r : result A) : H A := λ s,
  match r with Ok a => (s, Answer a) | Err e => (s, Refuse (ApiError_from e)) end.
Definition reading {A} (f : S → A) : H A := λ s, (s, Answer (f s)).
Definition changing (f : S → S) : H () := λ s, (f s, Answer ()).
Definition outcome_of {A} (o : outcome A) : H A := λ s,
  match o with
  | Ret a => (s, Answer a)
  | Stop (Throw e) => (s, Refuse (ApiError_from e))
  | Stop _ => (s, HandlerPanic)
  end.
End handler_monad.
Arguments H S A : clear implicits.

(** The part of [AppState] these routes work on. *)
Record AppState (T K W : Type) := {
  tenancy : T;
  audit_store : AuditStore K;
  hooks : WebhookWorld W;
}.
Arguments tenancy {T K W} _.
Arguments audit_store {T K W} _.
Arguments hooks {T K W} _.
Arguments Build_AppState {T K W} _ _ _.

(** ** The JSON of the resources *)

Definition organization_json (o : Organization) : Value :=
  Object [("id", Str (org_id o)); ("name", Str (org_name o)); ("tenant", Str (org_tenant o))].
Definition project_status_json (st : ProjectStatus) : Value :=
  Str match st with Active => "active" | Suspended => "suspended" | Deleted => "deleted" end.
Definition project_json (p : Project) : Value :=
  Object [("id", Str (prj_id p)); ("name", Str (prj_name p));
          ("organization", Str (prj_organization p)); ("tenant", Str (prj_tenant p));
          ("settings", Object (btree_iter (prj_settings p)));
          ("status", project_status_json (prj_status p)); ("version", json_u64 (prj_version p))].
Definition role_json (r : Role) : Value :=
  Str match r with
      | Viewer => "viewer" | Editor => "editor" | ProjectAdmin => "project_admin"
      | OrgAdmin => "org_admin" | PlatformAdmin => "platform_admin"
      end.
Definition scope_json (s : MemberScope) : Value :=
  match s with
  | InOrganization id => Object [("kind", Str "organization"); ("id", Str id)]
  | InProject id => Object [("kind", Str "project"); ("id", Str id)]
  end.
Definition membership_json (m : Membership) : Value :=
  Object [("user", Str (m_user m)); ("role", role_json (m_role m)); ("scope", scope_json (m_scope m))].
(** Unset limits are left out; a limit that is no number is [null]. *)
Definition limits_json (q : QuotaLimits) : Value :=
  let int z := Num (if Z.ltb z 0 then NegInt z else PosInt z) in
  let field {A} name (f : A → Value) (o : option A) : list (string * Value) :=
    match o with Some a => [(name, f a)] | None => [] end in
  Object
    (field "llm_cost_per_day_usd"
       (λ x, match number_from_f64 x with Some n => Num n | None => Null end) (llm_cost_per_day_usd q)
     ++ field "llm_tokens_per_day" json_u64 (llm_tokens_per_day q)
     ++ field "concurrent_agent_runs" json_u64 (concurrent_agent_runs q)
     ++ field "max_mcp_connections" json_u64 (max_mcp_connections q)
     ++ field "day_reset_offset_minutes" int (day_reset_offset_minutes q)).

(** ** Who acts *)

Definition principal (headers : HeaderMap) : string :=
  match header headers "x-wovyr-principal" with
  | Some p => p
  | None => default "" (a ← header headers "authorization"; strip_prefix "Bearer " a)
  end.

(** [Err] and [None] alike. *)
Definition ok_flatten {A} (r : result (option A)) : option A :=
  match r with Ok o => o | Err _ => None end.
Definition or_empty {A} (r : result (list A)) : list A :=
  match r with Ok l => l | Err _ => [] end.

Section context.
Context {T : Type} `{TenancyStore T}.
(** [WOVYR_PLATFORM_ADMINS], when set. *)
Context (platform_admins : option string).

Definition is_platform_admin (principal : string) : bool :=
  negb (is_empty principal)
  && match platform_admins with
     | Some v => existsb (λ p, String.eqb (trim p) principal) (split_char ","%char v)
     | None => false
     end.

(** Whether an assignment applies to a request in [project] or, without one,
    in [tenant]. *)
Definition applies (t : T) (tenant : string) (project project_org : option string) (m : Membership) : bool :=
  match m_scope m with
  | InProject p => bool_decide (project = Some p)
  | InOrganization o =>
    match project with
    | Some _ => bool_decide (project_org = Some o)
    | None =>
      match ok_flatten (get_org o t) with
      | Some org => String.eqb (org_tenant org) tenant
      | None => false
      end
    end
  end.

Definition context (t : T) (headers : HeaderMap) (project : option string) : TenantContext :=
  let tenant := run_tenant headers in
  let principal := principal headers in
  let admin := if is_platform_admin principal then [PlatformAdmin] else [] in
  let roles :=
    if is_empty principal then admin
    else
      let project_org := prj_organization <$> (p ← project; ok_flatten (get_project p t)) in
      admin ++ map m_role
        (List.filter (applies t tenant project project_org) (or_empty (memberships_for_user principal t))) in
  {| tc_tenant := tenant; tc_project := project; tc_principal := principal; tc_roles := roles |}.

(** Whether an assignment is in one of the tenant's organizations. *)
Definition in_tenant (t : T) (tenant_orgs : list string) (m : Membership) : bool :=
  match m_scope m with
  | InOrganization o => bool_decide (o ∈ tenant_orgs)
  | InProject p =>
    match ok_flatten (get_project p t) with
    | Some pr => bool_decide (prj_organization pr ∈ tenant_orgs)
    | None => false
    end
  end.

Definition tenant_context (t : T) (headers : HeaderMap) : TenantContext :=
  let tenant := run_tenant headers in
  let principal := principal headers in
  let admin := if is_platform_admin principal then [PlatformAdmin] else [] in
  let roles :=
    if is_empty principal then admin
    else
      let tenant_orgs := map org_id (or_empty (list_orgs tenant t)) in
      admin ++ map m_role
        (List.filter (in_tenant t tenant_orgs) (or_empty (memberships_for_user principal t))) in
  {| tc_tenant := tenant; tc_project := None; tc_principal := principal; tc_roles := roles |}.

Definition tenant_authorize (t : T) (headers : HeaderMap) (scope : string) : result string :=
  let ctx := tenant_context t headers in
  _ ← authorize ctx scope;
  Ok (tc_tenant ctx).
End context.

(** ** The routes *)

Section routes.
Context {T K W : Type} `{TenancyStore T, AuditSink K, AuditCrypto, AuditSerde, WebhookStore W,
  OutboxSerde, WebhookCrypto, HttpJson}.
Context (platform_admins : option string) (log : AuditLog).
(** The clock of the request. *)
Context (now : Z).

Abbreviation ST := (AppState T K W) (only parsing).

Definition set_tenancy (t : T) (s : ST) : ST :=
  {| tenancy := t; audit_store := audit_store s; hooks := hooks s |}.
Definition on_tenancy {A} (f : T → T * result A) : H ST A := λ s,
  let '(t, r) := f (tenancy s) in try r (set_tenancy t s).
Definition ask_tenancy {A} (f : T → result A) : H ST A := λ s, try (f (tenancy s)) s.
Definition on_webhooks {A} (f : W → W * result A) : H ST A := λ s,
  let '(w, r) := f (webhooks (hooks s)) in
  try r {| tenancy := tenancy s; audit_store := audit_store s;
           hooks := {| webhooks := w; outbox := outbox (hooks s); event_counter := event_counter (hooks s);
                       in_flight := in_flight (hooks s) |} |}.

Definition request_id_of (headers : HeaderMap) : option string := header headers "x-request-id".

Definition audit_event (headers : HeaderMap) (tenant action resource_type resource_id : string) : AuditEvent :=
  let event := AuditEvent_new now (principal headers) tenant action resource_type resource_id in
  match request_id_of headers with
  | Some id => with_request_id id event
  | None => event
  end.
(** A sink that fails is logged. *)
Definition audit (headers : HeaderMap) (tenant action resource_type resource_id : string) : H ST () :=
  changing (λ s,
    {| tenancy := tenancy s;
       audit_store := (record log (audit_event headers tenant action resource_type resource_id)
                         (audit_store s)).1;
       hooks := hooks s |}).
Definition emit_event (ty tenant : string) (payload : Value) : H ST () :=
  changing (λ s, {| tenancy := tenancy s; audit_store := audit_store s;
                    hooks := emit now ty tenant payload (hooks s) |}).

Definition ctx_for (headers : HeaderMap) (project : option string) : H ST TenantContext :=
  reading (λ s, context platform_admins (tenancy s) headers project).

Definition not_found (what : string) : ApiError := ApiError_new 404 "not_found" (what +:+ " not found").
Definition found {A} (what : string) (o : option A) : H ST A :=
  match o with Some a => mret a | None => refuse (not_found what) end.

(** A page of values. *)
Definition paged (q : PageQuery) (items : list Value) : H ST Response :=
  p ← outcome_of (page q);
  v ← outcome_of (paginate items p);
  mret (json_response 200 v).

Definition with_etag (version : Z) (r : Response) : Response := {|
  status := status r; response_headers := <["etag" := etag version]> (response_headers r); body := body r |}.

Definition list_orgs_route (headers : HeaderMap) (q : PageQuery) : H ST Response :=
  ctx ← ctx_for headers None;
  _ ← try (authorize ctx "projects:read");
  orgs ← ask_tenancy (list_orgs (tc_tenant ctx));
  paged q (map organization_json orgs).

Definition create_org_route (headers : HeaderMap) (name : string) : H ST Response :=
  ctx ← ctx_for headers None;
  _ ← try (authorize ctx "org.admin");
  org ← on_tenancy (create_org (Organization_new (tc_tenant ctx) name));
  _ ← audit headers (tc_tenant ctx) "organization.create" "organization" (org_id org);
  _ ← emit_event "organization.created" (tc_tenant ctx) (organization_json org);
  mret (json_response 201 (organization_json org)).

Definition list_projects_route (headers : HeaderMap) (q : PageQuery) : H ST Response :=
  ctx ← ctx_for headers None;
  _ ← try (authorize ctx "projects:read");
  ps ← ask_tenancy (list_projects (tc_tenant ctx));
  paged q (map project_json ps).

Definition create_project_route (headers : HeaderMap) (name organization : string) : H ST Response :=
  ctx ← ctx_for headers None;
  _ ← try (authorize ctx "projects:admin");
  org ← ask_tenancy (get_org organization);
  org ← found "organization" org;
  project ← on_tenancy (create_project (Project_new org name));
  _ ← audit headers (tc_tenant ctx) "project.create" "project" (prj_id project);
  _ ← emit_event "project.created" (tc_tenant ctx) (project_json project);
  mret (with_etag (prj_version project) (json_response 201 (project_json project))).

Definition get_project_route (headers : HeaderMap) (id : string) : H ST Response :=
  ctx ← ctx_for headers (Some id);
  _ ← try (authorize ctx "projects:read");
  project ← ask_tenancy (get_project id);
  project ← found "project" project;
  mret (with_etag (prj_version project) (json_response 200 (project_json project))).

(** What a patch makes of a project. *)
Definition patched (settings : option (gmap string Value)) (st : option ProjectStatus) (p : Project) : Project := {|
  prj_id := prj_id p; prj_name := prj_name p; prj_organization := prj_organization p;
  prj_tenant := prj_tenant p; prj_settings := default (prj_settings p) settings;
  prj_status := default (prj_status p) st; prj_version := u64_wrapping_add (prj_version p) 1 |}.

Definition stale (id : string) (p : Project) (expected : Z) : ApiError :=
  ApiError_new 409 "conflict"
    ("project `" +:+ id +:+ "` is at version " +:+ show_Z (prj_version p) +:+ ", but If-Match was "
     +:+ show_Z expected).

Definition patch_project_route (headers : HeaderMap) (id : string)
    (settings : option (gmap string Value)) (st : option ProjectStatus) : H ST Response :=
  ctx ← ctx_for headers (Some id);
  _ ← try (authorize ctx "projects:admin");
  project ← ask_tenancy (get_project id);
  project ← found "project" project;
  _ ← match if_match headers with
      | Some expected =>
        if Z.eqb expected (prj_version project) then mret () else refuse (stale id project expected)
      | None => mret ()
      end;
  let project := patched settings st project in
  _ ← on_tenancy (update_project project);
  _ ← audit headers (tc_tenant ctx) "project.update" "project" id;
  _ ← emit_event "project.updated" (tc_tenant ctx) (project_json project);
  mret (with_etag (prj_version project) (json_response 200 (project_json project))).

Definition delete_project_route (headers : HeaderMap) (id : string) : H ST Response :=
  ctx ← ctx_for headers (Some id);
  _ ← try (authorize ctx "projects:admin");
  _ ← on_tenancy (delete_project id);
  _ ← audit headers (tc_tenant ctx) "project.delete" "project" id;
  _ ← emit_event "project.deleted" (tc_tenant ctx) (Object [("id", Str id)]);
  mret (empty_response 204).

Definition list_members_route (headers : HeaderMap) (id : string) : H ST Response :=
  ctx ← ctx_for headers (Some id);
  _ ← try (authorize ctx "projects:read");
  members ← ask_tenancy (list_memberships (InProject id));
  mret (json_response 200 (Object [("members", Array (map membership_json members))])).

Definition add_member_route (headers : HeaderMap) (id user : string) (role : Role) : H ST Response :=
  ctx ← ctx_for headers (Some id);
  _ ← try (authorize ctx "projects:admin");
  let m := {| m_user := user; m_role := role; m_scope := InProject id |} in
  _ ← on_tenancy (add_membership m);
  _ ← audit headers (tc_tenant ctx) "member.add" "membership" user;
  _ ← emit_event "member.added" (tc_tenant ctx) (membership_json m);
  mret (json_response 201 (membership_json m)).

Definition remove_member_route (headers : HeaderMap) (id uid : string) : H ST Response :=
  ctx ← ctx_for headers (Some id);
  _ ← try (authorize ctx "projects:admin");
  _ ← on_tenancy (remove_membership uid (InProject id));
  _ ← audit headers (tc_tenant ctx) "member.remove" "membership" uid;
  _ ← emit_event "member.removed" (tc_tenant ctx) (Object [("user", Str uid); ("project", Str id)]);
  mret (empty_response 204).

Definition require_project (id : string) : H ST () :=
  project ← ask_tenancy (get_project id);
  _ ← found "project" project;
  mret ().

Definition quota_json (q : QuotaLimits) : Value := Object [("scope", Str "project"); ("limits", limits_json q)].

Definition get_quota_route (headers : HeaderMap) (id : string) : H ST Response :=
  ctx ← ctx_for headers (Some id);
  _ ← try (authorize ctx "projects:read");
  _ ← require_project id;
  limits ← ask_tenancy (get_quota id);
  mret (json_response 200 (quota_json (default QuotaLimits_default limits))).

Definition set_quota_route (headers : HeaderMap) (id : string) (limits : QuotaLimits) : H ST Response :=
  ctx ← ctx_for headers (Some id);
  _ ← try (authorize ctx "org.admin");
  _ ← require_project id;
  _ ← on_tenancy (set_quota id limits);
  _ ← audit headers (tc_tenant ctx) "quota.update" "project" id;
  _ ← emit_event "quota.updated" (tc_tenant ctx)
        (Object [("project", Str id); ("limits", limits_json limits)]);
  mret (json_response 200 (quota_json limits)).

(** ** Webhook management *)

Definition webhook_json (s : WebhookSubscription) : Value :=
  Object [("id", Str (sub_id s)); ("url", Str (sub_url s)); ("events", Array (map Str (sub_events s)));
          ("active", Bool (sub_active s))].
Definition dead_letter_json (d : DeadLetter) : Value :=
  Object [("delivery_id", Str (dl_delivery_id d)); ("url", Str (dl_url d));
          ("event_type", Str (dl_event_type d)); ("attempts", json_u64 (dl_attempts d));
          ("failed_at_ms", json_u64 (dl_failed_at_ms d))].

Definition list_dead_letters_route (headers : HeaderMap) (q : PageQuery) : H ST Response :=
  ctx ← ctx_for headers None;
  _ ← try (authorize ctx "projects:read");
  letters ← reading (λ s, WebhookOutbox.dead_letters (tc_tenant ctx) (outbox (hooks s)));
  paged q (map dead_letter_json letters).

Definition list_webhooks_route (headers : HeaderMap) (q : PageQuery) : H ST Response :=
  ctx ← ctx_for headers None;
  _ ← try (authorize ctx "projects:read");
  subs ← on_webhooks (λ w, (w, list_webhooks (tc_tenant ctx) w));
  paged q (map webhook_json subs).

Definition register_webhook_route (headers : HeaderMap) (url : string) (events : list string) (secret : string)
    : H ST Response :=
  ctx ← ctx_for headers None;
  _ ← try (authorize ctx "org.admin");
  saved ← on_webhooks (register (WebhookSubscription_new (tc_tenant ctx) url events secret));
  _ ← audit headers (tc_tenant ctx) "webhook.create" "webhook" (sub_id saved);
  mret (json_response 201
    (Object [("id", Str (sub_id saved)); ("url", Str (sub_url saved));
             ("events", Array (map Str (sub_events saved)))])).

Definition delete_webhook_route (headers : HeaderMap) (id : string) : H ST Response :=
  ctx ← ctx_for headers None;
  _ ← try (authorize ctx "org.admin");
  _ ← on_webhooks (delete_webhook id);
  _ ← audit headers (tc_tenant ctx) "webhook.delete" "webhook" id;
  mret (empty_response 204).

(** ** The routers: a request's route, with what was extracted of it *)

Inductive route :=
  | ListOrgsR (q : PageQuery) | CreateOrgR (name : string)
  | ListProjectsR (q : PageQuery) | CreateProjectR (name organization : string)
  | GetProjectR (id : string)
  | PatchProjectR (id : string) (settings : option (gmap string Value)) (st : option ProjectStatus)
  | DeleteProjectR (id : string)
  | ListMembersR (id : string) | AddMemberR (id user : string) (role : Role) | RemoveMemberR (id uid : string)
  | GetQuotaR (id : string) | SetQuotaR (id : string) (limits : QuotaLimits)
  | ListDeadLettersR (q : PageQuery) | ListWebhooksR (q : PageQuery)
  | RegisterWebhookR (url : string) (events : list string) (secret : string) | DeleteWebhookR (id : string).

Definition run_route (r : route) (headers : HeaderMap) : H ST Response :=
  match r with
  | ListOrgsR q => list_orgs_route headers q
  | CreateOrgR name => create_org_route headers name
  | ListProjectsR q => list_projects_route headers q
  | CreateProjectR name org => create_project_route headers name org
  | GetProjectR id => get_project_route headers id
  | PatchProjectR id settings st => patch_project_route headers id settings st
  | DeleteProjectR id => delete_project_route headers id
  | ListMembersR id => list_members_route headers id
  | AddMemberR id user role => add_member_route headers id user role
  | RemoveMemberR id uid => remove_member_route headers id uid
  | GetQuotaR id => get_quota_route headers id
  | SetQuotaR id limits => set_quota_route headers id limits
  | ListDeadLettersR q => list_dead_letters_route headers q
  | ListWebhooksR q => list_webhooks_route headers q
  | RegisterWebhookR url events secret => register_webhook_route headers url events secret
  | DeleteWebhookR id => delete_webhook_route headers id
  end.
End routes.
