(* ===== verification/TenantRoutesInv.v ===== *)
(** * The routes act for their callers

    Where roles come from, what a refused request leaves untouched, what a
    granted one records, and where the tenant boundary is not held. *)
From stdpp Require Import base tactics list numbers strings gmap sorting.
From Stdlib Require Import Lia ZArith Ascii SpecFloat.
From S2P Require Import Prelude.
From S2P Require Import RustStr.
From S2P Require Import F64.
From S2P Require Import Common.
From S2P Require Import JsonValue.
From S2P Require Import Effect.
From S2P Require Import AuditLog.
From S2P Require Import AuditInv.
From S2P Require Import Events.
From S2P Require Import EventsInv.
From S2P Require Import Tenancy.
From S2P Require Import TenancyInv.
From S2P Require Import Http.
From S2P Require Import TenantRoutes.
Local Open Scope Z_scope.

(** ** Inversion of the handlers *)

Lemma H_bind_Answer {S A B} (m : H S A) (k : A → H S B) s s' b :
  (m ≫= k) s = (s', Answer b) ↔ ∃ s1 a, m s = (s1, Answer a) ∧ k a s1 = (s', Answer b).
Proof.
  unfold mbind, H_bind. destruct (m s) as [s1 [a|e|]]; split; try naive_solver.
Qed.
Lemma try_Answer {S A} (r : result A) (s s' : S) a : try r s = (s', Answer a) ↔ s' = s ∧ r = Ok a.
Proof. unfold try. destruct r; naive_solver. Qed.

(** Takes the steps of a handler that answered out of a hypothesis. *)
Ltac inv_handler :=
  repeat match goal with
  | Hr : (_ ≫= _) _ = (_, Answer _) |- _ =>
    let s := fresh "s" in let a := fresh "a" in let Hm := fresh "Hm" in
    apply H_bind_Answer in Hr as (s & a & Hm & Hr)
  | Hr : try _ _ = (_, Answer _) |- _ => apply try_Answer in Hr as [-> Hr]
  | Hr : mret _ _ = (_, Answer _) |- _ => unfold mret, H_ret in Hr; simplify_eq
  | Hr : reading _ _ = (_, Answer _) |- _ => unfold reading in Hr; simplify_eq
  | Hr : ctx_for _ _ _ _ = (_, Answer _) |- _ => unfold ctx_for, reading in Hr; simplify_eq
  end.

(** ** Where roles come from *)

Section roles.
Context {T : Type} `{TL : TenancyStoreLaws T} (platform_admins : option string).
Implicit Types (t : T) (s : InMemoryTenancyStore.t).

Definition in_order t s : Prop := reads t s ∧ keeps s.

Lemma get_project_reads t s id : in_order t s → get_project id t = Ok (projects s !! id).
Proof. intros [Hr Hk]. destruct (step_reads (GetProject id) t s Hr Hk) as (t' & Heq & _). by injection Heq. Qed.
Lemma get_org_reads t s id : in_order t s → get_org id t = Ok (orgs s !! id).
Proof. intros [Hr Hk]. destruct (step_reads (GetOrg id) t s Hr Hk) as (t' & Heq & _). by injection Heq. Qed.
Lemma list_orgs_reads t s tenant : in_order t s → list_orgs tenant t = Ok (TenancyState.list_orgs tenant s).
Proof. intros [Hr Hk]. destruct (step_reads (ListOrgs tenant) t s Hr Hk) as (t' & Heq & _). by injection Heq. Qed.
Lemma list_projects_reads t s tenant :
  in_order t s → list_projects tenant t = Ok (TenancyState.list_projects tenant s).
Proof. intros [Hr Hk]. destruct (step_reads (ListProjects tenant) t s Hr Hk) as (t' & Heq & _). by injection Heq. Qed.
Lemma memberships_reads t s user :
  in_order t s → memberships_for_user user t = Ok (TenancyState.memberships_for_user user s).
Proof. intros [Hr Hk]. destruct (step_reads (MembershipsForUser user) t s Hr Hk) as (t' & Heq & _). by injection Heq. Qed.

(** The reach of an assignment: the project it names; for an organization, the
    projects it owns, and without a project the organization itself when it is
    of the tenant the request names. *)
Definition reaches s (tenant : string) (project : option string) (m : Membership) : Prop :=
  match m_scope m, project with
  | InProject p, _ => project = Some p
  | InOrganization o, Some p => ∃ pr, projects s !! p = Some pr ∧ prj_organization pr = o
  | InOrganization o, None => ∃ org, orgs s !! o = Some org ∧ org_tenant org = tenant
  end.

(** A role that is in effect for a request. *)
Definition in_effect s (headers : HeaderMap) (covers : Membership → Prop) (r : Role) : Prop :=
  (r = PlatformAdmin ∧ is_platform_admin platform_admins (principal headers) = true) ∨
  (principal headers ≠ "" ∧ ∃ m, m ∈ memberships s ∧ m_user m = principal headers ∧ m_role m = r ∧ covers m).

Lemma applies_spec t s tenant project m :
  in_order t s →
  applies t tenant project (prj_organization <$> (p ← project; ok_flatten (get_project p t))) m = true ↔
  reaches s tenant project m.
Proof.
  intros Ht. unfold applies, reaches. destruct (m_scope m) as [o|p].
  - destruct project as [p|].
    + cbn [mbind option_bind]. rewrite (get_project_reads t s) by done. cbn [ok_flatten].
      rewrite bool_decide_eq_true. destruct (projects s !! p); naive_solver.
    + rewrite (get_org_reads t s) by done. cbn [ok_flatten].
      destruct (orgs s !! o) as [org|]; [rewrite String.eqb_eq|]; naive_solver.
  - by rewrite bool_decide_eq_true.
Qed.

Lemma in_admins principal r :
  r ∈ (if is_platform_admin platform_admins principal then [PlatformAdmin] else []) ↔
  r = PlatformAdmin ∧ is_platform_admin platform_admins principal = true.
Proof. destruct (is_platform_admin platform_admins principal); set_solver. Qed.

Lemma roles_spec t s headers (f : Membership → bool) (covers : Membership → Prop) r :
  in_order t s → (∀ m, f m = true ↔ covers m) →
  let p := principal headers in
  let admin := if is_platform_admin platform_admins p then [PlatformAdmin] else [] in
  r ∈ (if is_empty p then admin
       else admin ++ map m_role (List.filter f (or_empty (memberships_for_user p t)))) ↔
  in_effect s headers covers r.
Proof.
  intros Ht Hf p admin. unfold in_effect. fold p.
  destruct (is_empty p) eqn:Hp.
  - destruct p; [|done]. unfold admin. rewrite in_admins. naive_solver.
  - rewrite elem_of_app. unfold admin at 1. rewrite in_admins. rewrite (memberships_reads t s) by done.
    cbn [or_empty]. apply or_iff_compat_l. rewrite list_elem_of_fmap. split.
    + intros (m & -> & [[Hm Hu]%filter_elem Hfm]%filter_elem). apply String.eqb_eq in Hu.
      split; [by intros ->|]. exists m. split_and!; try done. by apply Hf.
    + intros (_ & m & Hm & Hu & <- & Hc). exists m. split; [done|]. apply filter_elem. split; [|by apply Hf].
      apply filter_elem. split; [done|]. by apply String.eqb_eq.
Qed.

(** The roles of a request are exactly the caller's assignments that reach it,
    and platform administration when the environment lists the caller. *)
Lemma context_roles t s headers project r :
  in_order t s →
  r ∈ tc_roles (context platform_admins t headers project) ↔
  in_effect s headers (reaches s (run_tenant headers) project) r.
Proof.
  intros Ht. cbn [context tc_roles]. apply roles_spec; [done|]. intros m. by apply applies_spec.
Qed.

(** Assignments within the tenant: one of its organizations, or a project of
    one of them. *)
Definition of_the_tenant s (tenant : string) (m : Membership) : Prop :=
  ∃ o org, orgs s !! o = Some org ∧ org_tenant org = tenant ∧
    match m_scope m with
    | InOrganization o' => o' = o
    | InProject p => ∃ pr, projects s !! p = Some pr ∧ prj_organization pr = o
    end.

Lemma tenant_orgs_spec t s tenant o : in_order t s → catalog_ok s →
  o ∈ map org_id (or_empty (list_orgs tenant t)) ↔ ∃ org, orgs s !! o = Some org ∧ org_tenant org = tenant.
Proof.
  intros Ht Hok. rewrite (list_orgs_reads t s) by done. cbn [or_empty]. unfold TenancyState.list_orgs.
  rewrite list_elem_of_fmap. split.
  - intros (org & -> & [Hin Hten]%filter_elem). apply String.eqb_eq in Hten.
    apply list_elem_of_fmap in Hin as ([k org'] & -> & Hk%btree_iter_elem). simpl in *.
    exists org'. by rewrite (ok_orgs s Hok k org' Hk).
  - intros (org & Ho & Hten). exists org. rewrite (ok_orgs s Hok o org Ho). split; [done|].
    apply filter_elem. split; [|by apply String.eqb_eq]. apply list_elem_of_fmap. exists (o, org).
    split; [done|]. by apply btree_iter_elem.
Qed.

Lemma in_tenant_spec t s tenant m : in_order t s → catalog_ok s →
  in_tenant t (map org_id (or_empty (list_orgs tenant t))) m = true ↔ of_the_tenant s tenant m.
Proof.
  intros Ht Hok. unfold in_tenant, of_the_tenant. destruct (m_scope m) as [o|p].
  - rewrite bool_decide_eq_true, (tenant_orgs_spec t s) by done. naive_solver.
  - rewrite (get_project_reads t s) by done. cbn [ok_flatten].
    destruct (projects s !! p) as [pr|]; [|naive_solver].
    rewrite bool_decide_eq_true, (tenant_orgs_spec t s) by done. naive_solver.
Qed.

Lemma tenant_context_roles t s headers r :
  in_order t s → catalog_ok s →
  r ∈ tc_roles (tenant_context platform_admins t headers) ↔
  in_effect s headers (of_the_tenant s (run_tenant headers)) r.
Proof.
  intros Ht Hok. cbn [tenant_context tc_roles]. apply roles_spec; [done|].
  intros m. by apply in_tenant_spec.
Qed.
End roles.

(** A tenant named in a header is not a tenant granted.  An operation on
    tenant-owned resources is authorized exactly when a role in effect grants
    its scope, where the roles in effect are the caller's assignments in
    organizations of the named tenant, or in projects of those organizations,
    and platform administration for the principals the environment lists; the
    tenant returned is the one named; and a caller without a principal is
    always refused. *)
Theorem tenant_authorization_needs_membership `{TenancyStoreLaws T} admins (t : T) s headers scope :
  in_order t s → catalog_ok s →
  (tenant_authorize admins t headers scope = Ok (run_tenant headers) ↔
   ∃ r, grants r scope = true ∧ in_effect admins s headers (of_the_tenant s (run_tenant headers)) r) ∧
  (∀ tenant, tenant_authorize admins t headers scope = Ok tenant → tenant = run_tenant headers) ∧
  (principal headers = "" → ∃ m, tenant_authorize admins t headers scope = Err (Forbidden m)).
Proof.
  intros Ht Hok. unfold tenant_authorize. set (ctx := tenant_context admins t headers).
  assert (tc_tenant ctx = run_tenant headers) as Hten by done.
  split_and!.
  - transitivity (authorize ctx scope = Ok ()).
    + rewrite result_bind_Ok. split; [by intros ([] & -> & _)|]. intros ->. exists (). by rewrite Hten.
    + rewrite authorize_spec. unfold ctx. setoid_rewrite (tenant_context_roles admins t s); [|done..].
      naive_solver.
  - intros tenant (? & _ & Hr)%result_bind_Ok. rewrite Hten in Hr. by injection Hr.
  - intros Hp. destruct (authorize_cases ctx scope) as [Hok'|[m Hm]].
    + apply authorize_spec in Hok' as (r & Hr & _). apply (tenant_context_roles admins t s) in Hr; [|done..].
      exfalso. destruct Hr as [[_ Ha]|[Hne _]]; [|done]. rewrite Hp in Ha. done.
    + exists m. by rewrite Hm.
Qed.

(** ** Every route checks first *)

Definition route_scope (r : route) : string :=
  match r with
  | ListOrgsR _ | ListProjectsR _ | GetProjectR _ | ListMembersR _ | GetQuotaR _
  | ListDeadLettersR _ | ListWebhooksR _ => "projects:read"
  | CreateOrgR _ | SetQuotaR _ _ | RegisterWebhookR _ _ _ | DeleteWebhookR _ => "org.admin"
  | CreateProjectR _ _ | PatchProjectR _ _ _ | DeleteProjectR _ | AddMemberR _ _ _
  | RemoveMemberR _ _ => "projects:admin"
  end.
Definition route_project (r : route) : option string :=
  match r with
  | GetProjectR id | PatchProjectR id _ _ | DeleteProjectR id | ListMembersR id | AddMemberR id _ _
  | RemoveMemberR id _ | GetQuotaR id | SetQuotaR id _ => Some id
  | _ => None
  end.
(** The action a route leaves in the audit trail, if it changes anything. *)
Definition route_action (r : route) : option string :=
  match r with
  | CreateOrgR _ => Some "organization.create" | CreateProjectR _ _ => Some "project.create"
  | PatchProjectR _ _ _ => Some "project.update" | DeleteProjectR _ => Some "project.delete"
  | AddMemberR _ _ _ => Some "member.add" | RemoveMemberR _ _ => Some "member.remove"
  | SetQuotaR _ _ => Some "quota.update" | RegisterWebhookR _ _ _ => Some "webhook.create"
  | DeleteWebhookR _ => Some "webhook.delete"
  | _ => None
  end.

Section routes.
Context {T K W : Type} `{HT : TenancyStore T, HK : AuditSink K, HC : AuditCrypto, HAS : AuditSerde,
  HW : WebhookStore W, HO : OutboxSerde, HWC : WebhookCrypto, HJ : HttpJson}.
Context (admins : option string) (log : AuditLog) (now : Z).

Abbreviation ST := (AppState T K W) (only parsing).
Abbreviation run r h := (run_route admins log now r h).
Abbreviation ctx_of s r h := (context admins (tenancy s) h (route_project r)).

Lemma run_route_checks r headers (s : ST) e :
  authorize (ctx_of s r headers) (route_scope r) = Err e →
  run r headers s = (s, Refuse (ApiError_from e)).
Proof.
  intros Ha. destruct r; cbn [run_route route_scope route_project] in *;
    match goal with |- ?f = _ => unfold mbind, H_bind, try, ctx_for, reading,
      list_orgs_route, create_org_route, list_projects_route, create_project_route, get_project_route,
      patch_project_route, delete_project_route, list_members_route, add_member_route, remove_member_route,
      get_quota_route, set_quota_route, list_dead_letters_route, list_webhooks_route, register_webhook_route,
      delete_webhook_route end; unfold mbind, H_bind, ctx_for, reading, try; by rewrite Ha.
Qed.

Lemma run_route_authorized r headers (s s' : ST) resp :
  run r headers s = (s', Answer resp) → authorize (ctx_of s r headers) (route_scope r) = Ok ().
Proof.
  intros Hr. destruct (authorize (ctx_of s r headers) (route_scope r)) as [[]|e] eqn:Ha; [done|].
  rewrite (run_route_checks _ _ _ _ Ha) in Hr. done.
Qed.
(** What a handler leaves alone: everything, or the audit trail. *)
Definition still {A} (m : H ST A) : Prop := ∀ s, (m s).1 = s.
Definition quiet {A} (m : H ST A) : Prop := ∀ s, audit_store (m s).1 = audit_store s.
(** A handler that records an action when it answers, and only then. *)
Definition audits {A} (headers : HeaderMap) (tenant action : string) (m : H ST A) : Prop := ∀ s,
  match m s with
  | (s', Answer _) => ∃ rt rid, audit_store s'
      = (record log (audit_event now headers tenant action rt rid) (audit_store s)).1
  | (s', _) => audit_store s' = audit_store s
  end.

Lemma still_quiet {A} (m : H ST A) : still m → quiet m.
Proof. intros Hm s. by rewrite Hm. Qed.
Lemma still_bind {A B} (m : H ST A) (k : A → H ST B) : still m → (∀ a, still (k a)) → still (m ≫= k).
Proof.
  intros Hm Hk s. unfold mbind, H_bind. specialize (Hm s).
  destruct (m s) as [s1 [a|e|]]; cbn in *; by rewrite ?Hk.
Qed.
Lemma quiet_bind {A B} (m : H ST A) (k : A → H ST B) : quiet m → (∀ a, quiet (k a)) → quiet (m ≫= k).
Proof.
  intros Hm Hk s. unfold mbind, H_bind. specialize (Hm s).
  destruct (m s) as [s1 [a|e|]]; cbn in *; [|done..]. by rewrite Hk.
Qed.
Lemma audits_bind {A B} h t action (m : H ST A) (k : A → H ST B) :
  quiet m → (∀ a, audits h t action (k a)) → audits h t action (m ≫= k).
Proof.
  intros Hm Hk s. unfold mbind, H_bind. specialize (Hm s). destruct (m s) as [s1 [a|e|]]; cbn in *; [|done..].
  rewrite <-Hm. apply Hk.
Qed.
Lemma audits_here {A} h t action rt rid (k : () → H ST A) :
  (∀ s, ∃ s' a, k () s = (s', Answer a) ∧ audit_store s' = audit_store s) →
  audits h t action (audit log now h t action rt rid ≫= k).
Proof.
  intros Hk s. unfold mbind, H_bind, audit, changing.
  destruct (Hk {| tenancy := tenancy s;
    audit_store := (record log (audit_event now h t action rt rid) (audit_store s)).1;
    hooks := hooks s |}) as (s' & a & -> & ->). by do 2 eexists.
Qed.

(** The tenant of a handler's context is the one the headers name. *)
Lemma audits_ctx {B} h p action (k : TenantContext → H ST B) :
  (∀ ctx, audits h (tc_tenant ctx) action (k ctx)) →
  audits h (run_tenant h) action (ctx_for admins h p ≫= k).
Proof. intros Hk s. apply (Hk (context admins (tenancy s) h p) s). Qed.

Lemma still_ret {A} (a : A) : still (mret a).
Proof. done. Qed.
Lemma still_refuse {A} e : still (@refuse _ A e).
Proof. done. Qed.
Lemma still_try {A} (r : result A) : still (try r).
Proof. by destruct r. Qed.
Lemma still_reading {A} (f : ST → A) : still (reading f).
Proof. done. Qed.
Lemma still_ask {A} (f : T → result A) : still (ask_tenancy f).
Proof. intros s. apply still_try. Qed.
Lemma still_outcome {A} (o : outcome A) : still (outcome_of o).
Proof. destruct o as [|[]]; done. Qed.
Lemma still_found {A} what (o : option A) : still (found what o).
Proof. by destruct o. Qed.
Lemma still_subscriptions tenant : still (on_webhooks (λ w, (w, list_webhooks tenant w))).
Proof. intros [t k [w o c f]]. cbn. by destruct (list_webhooks tenant w). Qed.
Lemma quiet_tenancy {A} (f : T → T * result A) : quiet (on_tenancy f).
Proof. intros s. unfold on_tenancy. destruct (f (tenancy s)) as [t r]. by rewrite still_try. Qed.
Lemma quiet_webhooks {A} (f : W → W * result A) : quiet (on_webhooks f).
Proof. intros s. unfold on_webhooks. destruct (f _) as [w r]. by rewrite still_try. Qed.

Local Hint Resolve still_bind still_ret still_refuse still_try still_reading still_ask still_outcome
  still_found still_subscriptions still_quiet quiet_tenancy quiet_webhooks : handlers.
Lemma still_paged q items : still (paged q items).
Proof. unfold paged. auto 6 with handlers. Qed.
Lemma still_ctx_for h p : still (ctx_for admins h p).
Proof. done. Qed.
Lemma still_require_project id : still (require_project id).
Proof. unfold require_project. auto 6 with handlers. Qed.
Local Hint Resolve still_paged still_ctx_for still_require_project : handlers.

(** A change leaves one record of the caller's action in the named tenant when
    it is answered and none otherwise; a reading leaves everything. *)
Lemma run_route_audits r headers :
  match route_action r with
  | None => still (run r headers)
  | Some action => audits headers (run_tenant headers) action (run r headers)
  end.
Proof.
  destruct r; cbn [run_route route_action];
    unfold list_orgs_route, create_org_route, list_projects_route, create_project_route, get_project_route,
      patch_project_route, delete_project_route, list_members_route, add_member_route, remove_member_route,
      get_quota_route, set_quota_route, list_dead_letters_route, list_webhooks_route, register_webhook_route,
      delete_webhook_route; try (by auto 12 with handlers).
  all: apply audits_ctx; intros ctx.
  all: repeat first
    [ apply audits_here; intros s; do 2 eexists; split; reflexivity
    | apply audits_bind; [repeat case_match; by auto with handlers|intros] ].
Qed.
End routes.

(** A change leaves a mark and only a change does.  With the audit trail
    in good order (its sink holds a chain of entries and, with a key, the head
    anchor commits to the last), an answered request that changes the catalog,
    the assignments, the quotas or the subscriptions leaves the trail in good
    order with exactly one more entry, which names the calling principal, the
    tenant of the request and the action; the same request refused, for
    whatever reason and at whatever step, leaves the trail as it was; and a
    reading request leaves the whole state as it was. *)
Theorem mutations_are_audited `{TenancyStore T, AuditSink K, AuditCrypto, HAS : AuditSerde, WebhookStore W,
    OutboxSerde, WebhookCrypto, HttpJson, !AuditSinkLaws K} admins log now r headers
    (s s' : AppState T K W) a es :
  AuditSerde_roundtrip HAS → stores log (audit_store s) es →
  run_route admins log now r headers s = (s', a) →
  (route_action r = None → s' = s) ∧
  (∀ action, route_action r = Some action →
    match a with
    | Answer _ => ∃ rt rid,
      stores log (audit_store s')
        (es ++ [next_entry log (audit_event now headers (run_tenant headers) action rt rid) es])
    | _ => audit_store s' = audit_store s
    end).
Proof.
  intros Hrt Hs Hr. pose proof (run_route_audits admins log now r headers) as Ha.
  destruct (route_action r) as [action|].
  - split; [done|]. intros ? [= <-]. specialize (Ha s). rewrite Hr in Ha.
    destruct a; [|done..]. destruct Ha as (rt & rid & Ha). exists rt, rid. rewrite Ha.
    by destruct (record_step Hrt log (audit_event now headers (run_tenant headers) action rt rid) _ _ Hs)
      as (k & -> & Hk).
  - split; [|done]. intros _. specialize (Ha s). by rewrite Hr in Ha.
Qed.

(** C12: every route of the tenancy and webhook APIs fails closed.  A caller to
    whom no role in effect grants the route's scope gets 403, and nothing
    changes: not the catalog, the audit trail, the subscriptions or the
    outbox.  Whoever gets an answer acts under a role that grants the scope
    and is in effect: an assignment of the caller that reaches the route's
    project (the project itself, or the organization that owns it) or, on a
    route without a project, an organization of the tenant the request names,
    or platform administration. *)
Theorem routes_fail_closed `{TenancyStoreLaws T, AuditSink K, AuditCrypto, AuditSerde, WebhookStore W,
    OutboxSerde, WebhookCrypto, HttpJson} admins log now r headers (st : AppState T K W) s :
  in_order (tenancy st) s →
  let granted := ∃ role, grants role (route_scope r) = true ∧
    in_effect admins s headers (reaches s (run_tenant headers) (route_project r)) role in
  (¬ granted → ∃ m, run_route admins log now r headers st = (st, Refuse (ApiError_new 403 "forbidden" m))) ∧
  (∀ st' resp, run_route admins log now r headers st = (st', Answer resp) → granted).
Proof.
  intros Ht granted.
  assert (authorize (context admins (tenancy st) headers (route_project r)) (route_scope r) = Ok () ↔ granted) as Hg.
  { rewrite authorize_spec. unfold granted. setoid_rewrite (context_roles admins (tenancy st) s); [|done].
    naive_solver. }
  split.
  - intros Hn. destruct (authorize_cases (context admins (tenancy st) headers (route_project r)) (route_scope r))
      as [Hok|[m Hm]]; [by apply Hg in Hok|].
    exists m. by rewrite (run_route_checks _ _ _ _ _ _ _ Hm).
  - intros st' resp Hr. apply Hg. by apply run_route_authorized in Hr.
Qed.

(** ** Patches *)

Section patches.
Context {T K W : Type} `{HL : TenancyStoreLaws T, AuditSink K, AuditCrypto, AuditSerde, WebhookStore W,
  OutboxSerde, WebhookCrypto, HttpJson}.
Context (admins : option string) (log : AuditLog) (now : Z).
Implicit Types st : AppState T K W.

(** The two halves of a patch: the reading with its checks, and the writing of
    what was read. *)
Definition patch_reads (headers : HeaderMap) (id : string) : H (AppState T K W) (TenantContext * Project) :=
  ctx ← ctx_for admins headers (Some id);
  _ ← try (authorize ctx "projects:admin");
  project ← ask_tenancy (get_project id);
  project ← found "project" project;
  _ ← match if_match headers with
      | Some expected =>
        if Z.eqb expected (prj_version project) then mret () else refuse (stale id project expected)
      | None => mret ()
      end;
  mret (ctx, project).
Definition patch_writes (headers : HeaderMap) (id : string)
    (settings : option (gmap string Value)) (status : option ProjectStatus) (read : TenantContext * Project)
    : H (AppState T K W) Response :=
  let '(ctx, project) := read in
  let project := patched settings status project in
  _ ← on_tenancy (update_project project);
  _ ← audit log now headers (tc_tenant ctx) "project.update" "project" id;
  _ ← emit_event now "project.updated" (tc_tenant ctx) (project_json project);
  mret (with_etag (prj_version project) (json_response 200 (project_json project))).

Lemma H_assoc {S A B C} (m : H S A) (k : A → H S B) (k' : B → H S C) s :
  ((m ≫= k) ≫= k') s = (m ≫= λ a, k a ≫= k') s.
Proof. unfold mbind, H_bind. by destruct (m s) as [s1 []]. Qed.
Lemma H_bind_ext {S A B} (m : H S A) (k k' : A → H S B) s :
  (∀ a s, k a s = k' a s) → (m ≫= k) s = (m ≫= k') s.
Proof. intros Hk. unfold mbind, H_bind. destruct (m s) as [s1 []]; auto. Qed.

Lemma patch_halves headers id settings status st :
  patch_project_route admins log now headers id settings status st
    = (patch_reads headers id ≫= patch_writes headers id settings status) st.
Proof.
  unfold patch_project_route, patch_reads.
  repeat (rewrite H_assoc; apply H_bind_ext; intros ? ?). done.
Qed.

Lemma found_Answer {A} what (o : option A) st st' a :
  found what o st = (st', Answer a) → st' = st ∧ o = Some a.
Proof. destruct o; cbn; [|done]. unfold mret, H_ret. intros Hr. by simplify_eq. Qed.

Lemma patch_reads_still headers id : still (patch_reads headers id).
Proof.
  apply still_bind; [done|]. intros ctx. apply still_bind; [apply still_try|]. intros _.
  apply still_bind; [apply still_ask|]. intros o. apply still_bind; [apply still_found|]. intros p.
  apply still_bind; [by repeat case_match|done].
Qed.

(** What the reading half finds, when the store is in good order. *)
Lemma patch_reads_Answer headers id st st' read s : in_order (tenancy st) s →
  patch_reads headers id st = (st', Answer read) →
  st' = st ∧ ∃ p, projects s !! id = Some p ∧
    read = (context admins (tenancy st) headers (Some id), p) ∧
    ∀ n, if_match headers = Some n → n = prj_version p.
Proof.
  intros Ht Hr. unfold patch_reads in Hr. inv_handler.
  unfold ask_tenancy in *. inv_handler. rewrite (get_project_reads _ s) in * by done. simplify_eq.
  match goal with Hf : found _ _ _ = _ |- _ => apply found_Answer in Hf as [-> Hp] end.
  destruct (if_match headers) as [n|]; [destruct (Z.eqb_spec n (prj_version a2)); [|done]|];
    inv_handler; split; try done; eexists; split_and!; try done.
  by intros ? [= <-].
Qed.

Definition with_project (p : Project) (s : TenancyState) : TenancyState :=
  set_projects (<[prj_id p := p]> (projects s)) s.

Lemma patch_writes_Answer headers id settings status st st' ctx p s resp :
  in_order (tenancy st) s → is_Some (projects s !! prj_id p) →
  keeps (with_project (patched settings status p) s) →
  patch_writes headers id settings status (ctx, p) st = (st', Answer resp) →
  in_order (tenancy st') (with_project (patched settings status p) s).
Proof.
  intros [Ht Hk0] [q Hq] Hk Hr. unfold patch_writes in Hr. inv_handler.
  unfold emit_event, audit, changing in *. simplify_eq. cbn [tenancy].
  unfold on_tenancy in *. destruct (update_project _ _) as [t r] eqn:Hu. inv_handler. subst. cbn.
  set (p' := patched settings status p) in *.
  assert ((tenancy_step (UpdateProject p') (s : InMemoryTenancyStore.t)).1 = with_project p' s) as Hstep.
  { cbn. unfold TenancyState.update_project. cbn [prj_id p' patched]. by rewrite Hq. }
  destruct (step_reads (UpdateProject p') (tenancy st) s Ht) as (t' & Heq & Hr'); [by rewrite Hstep|].
  rewrite Hstep in Hr'. cbn in Heq. unfold tenancy_step in Heq. rewrite Hu in Heq. injection Heq as -> _.
  by split.
Qed.

(** The reading half of a patch that expects another version is refused. *)
Lemma patch_reads_stale headers id n st s p :
  in_order (tenancy st) s → projects s !! id = Some p → if_match headers = Some n → prj_version p ≠ n →
  ∃ e, patch_reads headers id st = (st, Refuse e) ∧
    (e = stale id p n ∨ ∃ m, e = ApiError_new 403 "forbidden" m).
Proof.
  intros Ht Hp Hn Hv. unfold patch_reads, mbind, H_bind, ctx_for, reading, try.
  destruct (authorize_cases (context admins (tenancy st) headers (Some id)) "projects:admin") as [->|[m ->]].
  - unfold ask_tenancy. rewrite (get_project_reads _ s), Hp by done. cbn. rewrite Hn.
    destruct (Z.eqb_spec n (prj_version p)); [by subst|]. eexists. split; [done|]. by left.
  - eexists. split; [done|]. right. by exists m.
Qed.
End patches.

(** A patch that names a version replaces that version and no other.  When
    a patch with an [If-Match] of version [n] is answered, the project was at
    version [n] and the catalog now holds the patched project at the next
    version, everything else as it was; and a second patch with the same
    [If-Match], whatever it sets and whoever sends it, is then refused, as
    stale or as forbidden, and changes nothing. *)
Theorem stale_patches_are_refused `{TenancyStoreLaws T, AuditSink K, AuditCrypto, AuditSerde, WebhookStore W,
    OutboxSerde, WebhookCrypto, HttpJson} admins log now now' h1 h2 id n set1 stat1 set2 stat2
    (st st' : AppState T K W) resp s :
  in_order (tenancy st) s → catalog_ok s →
  (∀ p, projects s !! id = Some p → keeps (with_project (patched set1 stat1 p) s)) →
  if_match h1 = Some n → if_match h2 = Some n →
  run_route admins log now (PatchProjectR id set1 stat1) h1 st = (st', Answer resp) →
  (∃ p, projects s !! id = Some p ∧ prj_version p = n ∧
    in_order (tenancy st') (with_project (patched set1 stat1 p) s)) ∧
  ∃ e, run_route admins log now' (PatchProjectR id set2 stat2) h2 st' = (st', Refuse e) ∧
    (ae_status e = 409 ∨ ae_status e = 403).
Proof.
  intros Ht Hok Hk Hh1 Hh2 Hr. cbn [run_route] in *. rewrite patch_halves in Hr |- *.
  apply H_bind_Answer in Hr as (s1 & read & Hr & Hw).
  apply (patch_reads_Answer _ _ _ _ _ _ s) in Hr as (-> & p & Hp & -> & Hv); [|done].
  specialize (Hv n Hh1). pose proof (ok_projects s Hok _ _ Hp) as Hid.
  assert (in_order (tenancy st') (with_project (patched set1 stat1 p) s)) as Ht'.
  { eapply patch_writes_Answer; [done| |by apply Hk|done]. rewrite Hid. by eexists. }
  split; [by exists p|].
  edestruct (patch_reads_stale admins h2 id n st' (with_project (patched set1 stat1 p) s) (patched set1 stat1 p)) as (e & He & Hs); [exact Ht'| |exact Hh2| |].
  - cbn. rewrite Hid. apply lookup_insert_eq.
  - cbn. rewrite <-Hv. unfold_ints. intros Hn. pose proof (Z.div_mod (n + 1) (2 ^ 64)). lia.
  - exists e. split; [unfold mbind, H_bind; by rewrite He|].
    destruct Hs as [->|[m ->]]; [by left|by right].
Qed.

(** ** The catalog stays well formed *)

Section well_formed.
Context {K W : Type} `{AuditSink K, AuditCrypto, AuditSerde, WebhookStore W, OutboxSerde, WebhookCrypto, HttpJson}.
Context (admins : option string) (log : AuditLog) (now : Z).

Abbreviation ST := (AppState InMemoryTenancyStore.t K W) (only parsing).

Definition preserving {A} (m : H ST A) : Prop := ∀ s : ST, catalog_ok (tenancy s) → catalog_ok (tenancy (m s).1).

Lemma preserving_bind {A B} (m : H ST A) (k : A → H ST B) :
  preserving m → (∀ a, preserving (k a)) → preserving (m ≫= k).
Proof.
  intros Hm Hk s Hs. unfold mbind, H_bind. specialize (Hm s Hs).
  destruct (m s) as [s1 [a|e|]]; cbn in *; [by apply Hk|done..].
Qed.
Lemma still_preserving {A} (m : H ST A) : still m → preserving m.
Proof. intros Hm s. by rewrite Hm. Qed.
Lemma preserving_audit h t action rt rid : preserving (audit log now h t action rt rid).
Proof. by intros s. Qed.
Lemma preserving_emit ty t v : preserving (emit_event now ty t v).
Proof. by intros s. Qed.
Lemma preserving_webhooks {A} (f : W → W * result A) : preserving (on_webhooks f).
Proof. intros s Hs. unfold on_webhooks. destruct (f _) as [w [|]]; exact Hs. Qed.
Lemma preserving_tenancy {A} (f : InMemoryTenancyStore.t → InMemoryTenancyStore.t * result A) :
  (∀ t, catalog_ok t → catalog_ok (f t).1) → preserving (on_tenancy f).
Proof.
  intros Hf s Hs. unfold on_tenancy. specialize (Hf _ Hs). destruct (f (tenancy s)) as [t [|]]; exact Hf.
Qed.
(** A call that the catalog takes as it is. *)
Lemma preserving_op {A} op (f : InMemoryTenancyStore.t → InMemoryTenancyStore.t * result A) :
  (∀ t, (f t).1 = (tenancy_step op (t : InMemoryTenancyStore.t)).1) → (∀ t, op_ok op t) → preserving (on_tenancy f).
Proof. intros Hf Hop. apply preserving_tenancy. intros t Ht. rewrite Hf. by apply catalog_ok_step. Qed.

(** The write of a patch is of a project of the catalog. *)
Lemma preserving_patch headers id settings status :
  preserving (patch_project_route admins log now headers id settings status).
Proof.
  intros s Hs. rewrite patch_halves. unfold mbind at 1, H_bind at 1.
  pose proof (patch_reads_still admins headers id s) as Hst.
  destruct (patch_reads admins headers id s) as [s1 r] eqn:E. cbn in Hst. subst s1.
  destruct r as [read|e|]; [|done..].
  destruct (patch_reads_Answer admins headers id s s read (tenancy s)) as (_ & p & Hp & -> & _); [by split|done|].
  pose proof (ok_projects _ Hs _ _ Hp) as Hid. pose proof (ok_project_org _ Hs _ _ Hp) as Horg.
  unfold patch_writes. set (p' := patched settings status p).
  assert (catalog_ok (tenancy_step (UpdateProject p') (tenancy s : InMemoryTenancyStore.t)).1) as Hu
    by by apply catalog_ok_step.
  cbn in Hu. unfold mbind at 1, H_bind at 1, on_tenancy. cbn [update_project InMemoryTenancyStore.tenancy_store].
  destruct (TenancyState.update_project p' (tenancy s)) as [t [[]|e]]; done.
Qed.

Lemma preserving_route r headers : preserving (run_route admins log now r headers).
Proof.
  pose proof (run_route_audits admins log now r headers) as Hstill.
  destruct r; cbn [route_action run_route] in *;
    try (by apply still_preserving); try apply preserving_patch.
  all: unfold create_org_route, create_project_route, delete_project_route, add_member_route,
    remove_member_route, set_quota_route, register_webhook_route, delete_webhook_route.
  all: repeat first
    [ apply preserving_audit | apply preserving_emit | apply preserving_webhooks
    | match goal with
      | |- preserving (on_tenancy (create_org ?o)) => apply (preserving_op (CreateOrg o))
      | |- preserving (on_tenancy (create_project ?p)) => apply (preserving_op (CreateProject p))
      | |- preserving (on_tenancy (delete_project ?i)) => apply (preserving_op (DeleteProject i))
      | |- preserving (on_tenancy (add_membership ?m)) => apply (preserving_op (AddMembership m))
      | |- preserving (on_tenancy (remove_membership ?u ?c)) => apply (preserving_op (RemoveMembership u c))
      | |- preserving (on_tenancy (set_quota ?i ?l)) => apply (preserving_op (SetQuota i l))
      end; done
    | apply still_preserving; (apply still_try || apply still_ask || apply still_found || apply still_require_project || done)
    | apply preserving_bind; [|intros] ].
Qed.

(** The requests of a server, each at its own instant. *)
Definition serve (reqs : list (Z * route * HeaderMap)) (s : ST) : ST :=
  foldl (λ s '(at_, r, headers), (run_route admins log at_ r headers s).1) s reqs.
End well_formed.

(** C36: The catalog stays well typed: whatever requests the server takes, from
    whomever, at whatever instants, granted or refused, its organizations and
    projects stay filed under their own ids, every project belongs to an
    organization of the catalog, and no user holds two roles in one scope. *)
Theorem routes_keep_the_catalog_well_formed {K W : Type} `{AuditSink K, AuditCrypto, AuditSerde,
    WebhookStore W, OutboxSerde, WebhookCrypto, HttpJson} admins log
    reqs (s : AppState InMemoryTenancyStore.t K W) :
  catalog_ok (tenancy s) → catalog_ok (tenancy (serve admins log reqs s)).
Proof.
  revert s. induction reqs as [|[[at_ r] headers] reqs IH]; intros s Hs; cbn; [done|].
  apply IH. by apply (preserving_route admins log at_).
Qed.

(** ** An example: two tenants, and what crosses between them *)

Definition http_json_example : HttpJson := {|
  value_to_vec v := match v with Str s => s | _ => "json" end; value_from_slice s := Some (Str s) |}.
#[local] Existing Instance http_json_example.
(** A stand-in for the hash functions that keeps the evaluated entries short. *)
#[local] Instance audit_crypto_short : AuditCrypto := {|
  sha256 _ := "h"; hmac_sha256 _ _ := "m"; audit_body id _ _ := id |}.
#[local] Existing Instance audit_serde_example.
#[local] Instance outbox_json_example : OutboxSerde := table_outbox [].
#[local] Existing Instance Scripted.crypto.

Definition example_app : Type := AppState InMemoryTenancyStore.t InMemoryAuditSink.t InMemoryWebhookStore.t.

Definition other_org : Organization := Organization_new "evil" "Evil Inc".
Definition in_org (user : string) (role : Role) (org : Organization) : Membership :=
  {| m_user := user; m_role := role; m_scope := InOrganization (org_id org) |}.

(** Tenant [acme] with a project and its admins, tenant [evil] with its own. *)
Definition two_tenants : TenancyState := {|
  orgs := {[org_id acme_org := acme_org; org_id other_org := other_org]};
  projects := {[prj_id support_bot := support_bot]};
  memberships := [in_org "ada" OrgAdmin acme_org; member "pat" ProjectAdmin; in_org "eve" OrgAdmin other_org];
  quotas := ∅ |}.
Definition example_state : example_app := {|
  tenancy := two_tenants;
  audit_store := {| sink := InMemoryAuditSink.new; head_file := None; notarized := [] |};
  hooks := start {["wh-1" := example_sub]} None |}.
Definition asks (tenant user : string) : HeaderMap :=
  <["x-wovyr-tenant" := tenant]> {["x-wovyr-principal" := user]}.
Definition with_if_match (n : Z) (h : HeaderMap) : HeaderMap := <["if-match" := etag n]> h.
Definition runs (r : route) (h : HeaderMap) (s : example_app) : example_app * answer Response :=
  run_route (T := InMemoryTenancyStore.t) None (AuditLog_open_keyed "k") 7 r h s.
Definition status_of (a : answer Response) : Z :=
  match a with Answer r => status r | Refuse e => ae_status e | HandlerPanic => 0 end.

(** An answer found by running a request. *)
Lemma runs_Answer r h s : (if (runs r h s).2 is Answer _ then true else false) = true →
  ∃ s' resp, runs r h s = (s', Answer resp).
Proof. destruct (runs r h s) as [s' [resp| |]]; [|done..]. by exists s', resp. Qed.

Lemma two_tenants_ok : catalog_ok two_tenants.
Proof.
  split; cbv beta iota delta [orgs projects two_tenants].
  - by intros id o [[<- <-]|[_ [<- <-]%lookup_singleton_Some]]%lookup_insert_Some.
  - by intros id p [<- <-]%lookup_singleton_Some.
  - intros id p [<- <-]%lookup_singleton_Some.
    exists acme_org. vm_compute. reflexivity.
  - apply (bool_decide_unpack _). vm_compute. exact I.
Qed.
Lemma example_in_order : in_order (tenancy example_state) two_tenants.
Proof. by split. Qed.

Lemma routes_fail_closed_witness :
  in_order (tenancy example_state) two_tenants ∧
  (∃ m, runs (GetProjectR (prj_id support_bot)) (asks "acme" "eve") example_state
        = (example_state, Refuse (ApiError_new 403 "forbidden" m))) ∧
  ∃ role, grants role "projects:admin" = true ∧
    in_effect None two_tenants (asks "acme" "pat")
      (reaches two_tenants "acme" (Some (prj_id support_bot))) role.
Proof.
  split; [exact example_in_order|]. split.
  - apply (routes_fail_closed None (AuditLog_open_keyed "k") 7 (GetProjectR (prj_id support_bot))
      (asks "acme" "eve") example_state two_tenants example_in_order).
    intros (role & _ & [[_ Ha]|(_ & m & Hm & Hu & _ & Hr)]); [vm_compute in Ha; discriminate|].
    change (m ∈ [in_org "ada" OrgAdmin acme_org; member "pat" ProjectAdmin; in_org "eve" OrgAdmin other_org]) in Hm.
    rewrite !elem_of_cons, elem_of_nil in Hm.
    destruct Hm as [->|[->|[->|[]]]]; try (vm_compute in Hu; discriminate).
    change (∃ pr, ({[prj_id support_bot := support_bot]} : gmap string Project) !! prj_id support_bot = Some pr ∧
              prj_organization pr = org_id other_org) in Hr.
    destruct Hr as (pr & [_ <-]%lookup_singleton_Some & Ho). vm_compute in Ho. discriminate.
  - destruct (runs_Answer (DeleteProjectR (prj_id support_bot)) (asks "acme" "pat") example_state)
      as (st' & resp & E); [vm_compute; reflexivity|].
    pose proof (proj2 (routes_fail_closed None (AuditLog_open_keyed "k") 7 (DeleteProjectR (prj_id support_bot))
      (asks "acme" "pat") example_state two_tenants example_in_order) st' resp E) as Hg.
    assert (run_tenant (asks "acme" "pat") = "acme") as Ht by (vm_compute; reflexivity).
    rewrite Ht in Hg. exact Hg.
Defined.

Lemma tenant_authorization_needs_membership_witness :
  (in_order (tenancy example_state) two_tenants ∧ catalog_ok two_tenants) ∧
  tenant_authorize None (tenancy example_state) (asks "acme" "pat") "secrets:write" = Ok "acme" ∧
  ∃ r, grants r "secrets:write" = true ∧
    in_effect None two_tenants (asks "acme" "pat") (of_the_tenant two_tenants "acme") r.
Proof.
  split; [exact (conj example_in_order two_tenants_ok)|].
  assert (tenant_authorize None (tenancy example_state) (asks "acme" "pat") "secrets:write" = Ok "acme") as Ha
    by (vm_compute; reflexivity).
  split; [done|].
  by apply (tenant_authorization_needs_membership None (tenancy example_state) two_tenants (asks "acme" "pat")
    "secrets:write" example_in_order two_tenants_ok).
Defined.

Lemma mutations_are_audited_witness :
  let s' := (runs (CreateOrgR "New Team") (asks "acme" "ada") example_state).1 in
  stores (AuditLog_open_keyed "k") (audit_store example_state) [] ∧
  ∃ rt rid, stores (AuditLog_open_keyed "k") (audit_store s')
    [next_entry (AuditLog_open_keyed "k")
       (audit_event 7 (asks "acme" "ada") "acme" "organization.create" rt rid) []].
Proof.
  intros s'.
  assert (stores (K := InMemoryAuditSink.t) (AuditLog_open_keyed "k") (audit_store example_state) []) as Hs
    by (split_and!; [done..|by intros key [= <-]]).
  split; [exact Hs|].
  destruct (runs_Answer (CreateOrgR "New Team") (asks "acme" "ada") example_state)
    as (s1 & resp & E); [vm_compute; reflexivity|].
  unfold s'. rewrite E.
  destruct (mutations_are_audited None (AuditLog_open_keyed "k") 7 (CreateOrgR "New Team")
    (asks "acme" "ada") example_state s1 (Answer resp) [] audit_serde_example_roundtrip Hs E) as [_ Hm].
  exact (Hm _ eq_refl).
Defined.

Lemma stale_patches_are_refused_witness :
  let patch := PatchProjectR (prj_id support_bot) None (Some Suspended) in
  let h := with_if_match 1 (asks "acme" "pat") in
  let st' := (runs patch h example_state).1 in
  (in_order (tenancy example_state) two_tenants ∧ catalog_ok two_tenants) ∧
  status_of (runs patch h example_state).2 = 200 ∧
  ∃ e, runs (PatchProjectR (prj_id support_bot) None (Some Active)) (with_if_match 1 (asks "acme" "ada")) st'
       = (st', Refuse e) ∧ (ae_status e = 409 ∨ ae_status e = 403).
Proof.
  intros patch h st'. split; [exact (conj example_in_order two_tenants_ok)|].
  split; [vm_compute; reflexivity|].
  assert (if_match h = Some 1 ∧ if_match (with_if_match 1 (asks "acme" "ada")) = Some 1) as [H1 H2]
    by (split; vm_compute; reflexivity).
  destruct (runs_Answer patch h example_state) as (s1 & resp & E); [vm_compute; reflexivity|].
  unfold st'. rewrite E.
  exact (proj2 (stale_patches_are_refused None (AuditLog_open_keyed "k") 7 7 h
    (with_if_match 1 (asks "acme" "ada")) (prj_id support_bot) 1 None (Some Suspended) None (Some Active)
    example_state s1 resp two_tenants example_in_order two_tenants_ok (λ p _, I) H1 H2 E)).
Defined.

Lemma routes_keep_the_catalog_well_formed_witness :
  let reqs := [(7, CreateOrgR "New Team", asks "acme" "ada");
               (8, CreateProjectR "Notes" (org_id acme_org), asks "acme" "ada");
               (9, AddMemberR (prj_id support_bot) "pat" Editor, asks "acme" "pat")] in
  let s' := serve None (AuditLog_open_keyed "k") reqs example_state in
  catalog_ok two_tenants ∧ catalog_ok (tenancy s') ∧
  (size (orgs two_tenants) < size (orgs (tenancy s')))%nat.
Proof.
  intros reqs s'. split; [exact two_tenants_ok|]. split.
  - exact (routes_keep_the_catalog_well_formed None (AuditLog_open_keyed "k") reqs example_state two_tenants_ok).
  - vm_compute. lia.
Defined.

(** The tenant boundary is not held everywhere: an administrator of an
    organization of the tenant [evil] creates a project in an organization of
    [acme], whose id it knows, and deletes a webhook of [acme]. *)
Lemma other_tenants_are_reached :
  let create := CreateProjectR "Trojan" (org_id acme_org) in
  let '(s1, a1) := runs create (asks "evil" "eve") example_state in
  let '(s2, a2) := runs (DeleteWebhookR "wh-1") (asks "evil" "eve") example_state in
  status_of a1 = 201 ∧
  (prj_tenant <$> projects (tenancy s1) !! "prj-platform-team-trojan") = Some "acme" ∧
  (sub_tenant <$> webhooks (hooks example_state) !! "wh-1") = Some "acme" ∧
  status_of a2 = 204 ∧ webhooks (hooks s2) !! "wh-1" = None.
Proof. vm_compute. by repeat split. Qed.

(** A project administrator hands out roles above its own: the colleague it
    makes an organization administrator of the project then sets the quota the
    project administrator may not set. *)
Lemma project_admins_escalate :
  let p := prj_id support_bot in
  let raise := AddMemberR p "pat" OrgAdmin in
  let quota := SetQuotaR p QuotaLimits_default in
  let h := asks "acme" "pat" in
  status_of (runs quota h example_state).2 = 403 ∧
  status_of (runs raise h example_state).2 = 201 ∧
  status_of (runs quota h (runs raise h example_state).1).2 = 200.
Proof. split_and!; vm_compute; reflexivity. Qed.

(** A suspended project takes members, a deleted one too, and a patch brings it
    back. *)
Lemma suspended_projects_operate :
  let p := prj_id support_bot in
  let h := asks "acme" "pat" in
  let '(s1, _) := runs (PatchProjectR p None (Some Suspended)) h example_state in
  let '(s2, a2) := runs (AddMemberR p "zoe" Editor) h s1 in
  let '(s3, _) := runs (DeleteProjectR p) h s2 in
  let '(s4, a4) := runs (AddMemberR p "yan" Editor) h s3 in
  let '(_, a5) := runs (PatchProjectR p None (Some Active)) h s4 in
  status_of a2 = 201 ∧ status_of a4 = 201 ∧ status_of a5 = 200.
Proof. vm_compute. by repeat split. Qed.

(** The check of a patch and its write are two calls of the store: of two
    requests with the same [If-Match] that both check before either writes,
    both are answered and the second overwrites the first. *)
Lemma interleaved_patches_overwrite :
  let p := prj_id support_bot in
  let h := with_if_match 1 (asks "acme" "pat") in
  let read := patch_reads (T := InMemoryTenancyStore.t) (K := InMemoryAuditSink.t)
    (W := InMemoryWebhookStore.t) None h p in
  let write settings := patch_writes (T := InMemoryTenancyStore.t) (K := InMemoryAuditSink.t)
    (W := InMemoryWebhookStore.t) (AuditLog_open_keyed "k") 7 h p (Some {[settings := Null]}) None in
  let both : H example_app (Response * Response) :=
    r1 ← read; r2 ← read; a1 ← write "first" r1; a2 ← write "second" r2; mret (a1, a2) in
  let '(s, a) := both example_state in
  (if a is Answer (a1, a2) then status a1 = 200 ∧ status a2 = 200 else False) ∧
  (prj_version <$> projects (tenancy s) !! p) = Some 2 ∧
  ((λ p, bool_decide (is_Some (prj_settings p !! "first"))) <$> projects (tenancy s) !! p) = Some false.
Proof. vm_compute. by repeat split. Qed.
