(* ===== verification/Quota.v ===== *)
(** * Run quotas

    [crates/wovyr-server/src/tenancy.rs], the run path: the admission of agent
    runs under a project's limits, the permits that hold a concurrency slot, and
    the persisted day accumulator.  The shared Redis counter is not modelled
    (an optional feature of the build); calls of the operating system
    succeed. *)
From stdpp Require Import base tactics list numbers strings gmap sorting.
From Stdlib Require Import Lia ZArith Ascii SpecFloat.
From S2P Require Import Prelude.
From S2P Require Import RustStr.
From S2P Require Import F64.
From S2P Require Import Common.
From S2P Require Import Tenancy.
From S2P Require Import Http.
From S2P Require Import JsonValue.
From S2P Require Import TenancyInv.
Local Open Scope Z_scope.

(** A project's day, its dollars and its tokens. *)
Definition DayUsage : Type := Z * f64 * Z.

(** What a file may hold for a project: with tokens, or as older servers wrote
    it. *)
Inductive StoredDayUsage := V2 (day : Z) (usd : f64) (tokens : Z) | V1 (day : Z) (usd : f64).
Definition day_usage_of (v : StoredDayUsage) : DayUsage :=
  match v with V2 day usd tokens => (day, usd, tokens) | V1 day usd => (day, usd, 0) end.

(** [serde_json] at the accumulator. *)
Class QuotaSerde := {
  usage_to_vec : gmap string DayUsage → string + string;
  usage_from_slice : string → option (gmap string StoredDayUsage);
}.

(** The tracker, with its file: [None] without a path, the text when the file
    exists. *)
Record QuotaTracker := {
  concurrent : gmap string Z;
  cost : gmap string DayUsage;
  qt_file : option (option string);
}.
Record RunPermit := { rp_project : string; rp_metered : bool }.

Definition set_concurrent (m : gmap string Z) (q : QuotaTracker) : QuotaTracker :=
  {| concurrent := m; cost := cost q; qt_file := qt_file q |}.
Definition set_cost (m : gmap string DayUsage) (q : QuotaTracker) : QuotaTracker :=
  {| concurrent := concurrent q; cost := m; qt_file := qt_file q |}.

(** ** The day bucket *)

Definition u64_as_i64 (n : Z) : Z := if Z.ltb n (2 ^ 63) then n else n - 2 ^ 64.
Definition i64_wrapping_add (x y : Z) : Z := (x + y + 2 ^ 63) mod 2 ^ 64 - 2 ^ 63.

Definition day_bucket (epoch_secs offset_minutes : Z) : Z :=
  let offset_secs := Z.max (-1440) (Z.min 1440 offset_minutes) * 60 in
  Z.max 0 (i64_wrapping_add (u64_as_i64 epoch_secs) offset_secs / 86400).

Section tracker.
Context `{QuotaSerde}.

Definition QuotaTracker_new (file : option (option string)) : QuotaTracker := {|
  concurrent := ∅;
  cost :=
    match file with
    | Some (Some bytes) => default ∅ ((λ m : gmap string StoredDayUsage, day_usage_of <$> m) <$> usage_from_slice bytes)
    | _ => ∅
    end;
  qt_file := file |}.

Definition concurrent_total (q : QuotaTracker) : Z :=
  foldl u64_wrapping_add 0 (map snd (btree_iter (concurrent q))).

Definition persist (cost : gmap string DayUsage) (q : QuotaTracker) : QuotaTracker :=
  match qt_file q with
  | None => q
  | Some _ =>
    match usage_to_vec cost with
    | inr bytes => {| concurrent := concurrent q; cost := Quota.cost q; qt_file := Some (Some bytes) |}
    | inl _ => q
    end
  end.

(** [RunPermit::drop] *)
Definition drop_permit (p : RunPermit) (q : QuotaTracker) : QuotaTracker :=
  if negb (rp_metered p) then q
  else
    match concurrent q !! rp_project p with
    | Some c => set_concurrent (<[rp_project p := Z.max 0 (c - 1)]> (concurrent q)) q
    | None => q
    end.

(** What the accumulator says of a day: another day reads as zero. *)
Definition used_on (day : Z) (project : string) (q : QuotaTracker) : f64 * Z :=
  match cost q !! project with
  | Some (d, c, t) => if Z.eqb d day then (c, t) else (f64_zero, 0)
  | None => (f64_zero, 0)
  end.

Definition unmetered (project : string) : RunPermit := {| rp_project := project; rp_metered := false |}.

Context {T : Type} `{TenancyStore T, Libm}.

(** [now] is the clock in seconds. *)
Definition admit_run (now : Z) (t : T) (project : option string) (q : QuotaTracker)
    : QuotaTracker * (ApiError + RunPermit) :=
  match project with
  | None => (q, inr (unmetered ""))
  | Some project =>
    match get_quota project t with
    | Err e => (q, inl (ApiError_from e))
    | Ok None => (q, inr (unmetered project))
    | Ok (Some limits) =>
      let day := day_bucket now (default 0 (day_reset_offset_minutes limits)) in
      let current := default 0 (concurrent q !! project) in
      match check_concurrent_runs limits current with
      | Err e => (q, inl (ApiError_from e))
      | Ok _ =>
        let '(spent, tokens_used) := used_on day project q in
        match (_ ← check_llm_cost limits spent f64_zero; check_llm_tokens limits tokens_used 0) with
        | Err e => (q, inl (ApiError_from e))
        | Ok _ =>
          (set_concurrent (<[project := u64_wrapping_add current 1]> (concurrent q)) q,
           inr {| rp_project := project; rp_metered := true |})
        end
      end
    end
  end.

(** [record_run_usage] up to the end of its lock: the accumulator, and the
    snapshot to write. *)
Definition add_usage (now : Z) (t : T) (project : string) (usd : f64) (tokens : Z) (q : QuotaTracker)
    : QuotaTracker * gmap string DayUsage :=
  let offset :=
    match get_quota project t with
    | Ok (Some limits) => default 0 (day_reset_offset_minutes limits)
    | _ => 0
    end in
  let day := day_bucket now offset in
  let '(d, c, n) := default (day, f64_zero, 0) (cost q !! project) in
  let '(c, n) := if Z.eqb d day then (c, n) else (f64_zero, 0) in
  let entry := (day, f64_add c usd, u64_saturating_add n tokens) in
  let m := <[project := entry]> (cost q) in
  (set_cost m q, m).

Definition record_run_usage (now : Z) (t : T) (project : option string) (usd : f64) (tokens : Z)
    (q : QuotaTracker) : QuotaTracker :=
  match project with
  | None => q
  | Some project =>
    let '(q, snapshot) := add_usage now t project usd tokens q in
    persist snapshot q
  end.
End tracker.

(** ** Quotas hold

    The slots of a project are its running runs, under any interleaving; what
    admission decides; where the day of a budget turns. *)

(** *** The day *)

Definition clamped (offset_minutes : Z) : Z := Z.max (-1440) (Z.min 1440 offset_minutes) * 60.

Lemma day_bucket_spec e o : 86400 <= e < 2 ^ 62 → day_bucket e o = (e + clamped o) / 86400.
Proof.
  intros He. unfold day_bucket, clamped, i64_wrapping_add, u64_as_i64. set (c := Z.max _ _ * 60).
  assert (-86400 <= c <= 86400) by lia.
  destruct (Z.ltb_spec e (2 ^ 63)); [|lia].
  rewrite (Z.mod_small (e + c + 2 ^ 63)) by lia.
  replace (e + c + 2 ^ 63 - 2 ^ 63) with (e + c) by lia. apply Z.max_r, Z.div_pos; lia.
Qed.

(** The day of a budget turns at local midnight and at no other instant: at
    the second that completes a whole number of days on the clock of the quota
    (UTC moved by the configured minutes, at most a day either way) the bucket
    goes up by one, and at any other second it stays. *)
Theorem budget_day_turns_at_local_midnight e o :
  86400 <= e < 2 ^ 62 - 1 →
  day_bucket (e + 1) o = day_bucket e o + (if Z.eqb ((e + 1 + clamped o) mod 86400) 0 then 1 else 0) ∧
  0 <= day_bucket e o ∧
  (-1440 <= o <= 1440 → day_bucket e o = (e + o * 60) / 86400).
Proof.
  intros He. rewrite !day_bucket_spec by lia. unfold clamped. set (c := Z.max _ _ * 60).
  assert (-86400 <= c <= 86400) by lia. split; [|split; [apply Z.div_pos; lia|]].
  - replace (e + 1 + c) with ((e + c) + 1) by lia.
    pose proof (Z.div_mod (e + c) 86400). pose proof (Z.mod_pos_bound (e + c) 86400).
    pose proof (Z.div_mod (e + c + 1) 86400). pose proof (Z.mod_pos_bound (e + c + 1) 86400).
    destruct (Z.eqb_spec ((e + c + 1) mod 86400) 0); lia.
  - intros Ho. unfold c. by replace (Z.max (-1440) (Z.min 1440 o)) with o by lia.
Qed.

Lemma budget_day_turns_at_local_midnight_witness :
  86400 <= 1700000000 < 2 ^ 62 - 1 ∧
  (day_bucket 1700000001 330 = day_bucket 1700000000 330) ∧
  day_bucket 1700000000 330 = (1700000000 + 330 * 60) / 86400.
Proof.
  assert (86400 <= 1700000000 < 2 ^ 62 - 1) as He by lia.
  destruct (budget_day_turns_at_local_midnight 1700000000 330 He) as (H1 & _ & H2).
  split; [exact He|]. split; [etransitivity; [exact H1|vm_compute; reflexivity]|by apply H2].
Defined.

(** *** What admission decides *)

Lemma check_llm_cost_cases `{Libm} q spent adding :
  check_llm_cost q spent adding =
    Ok () ∧ (∀ l, llm_cost_per_day_usd q = Some l → f64_ltb l (f64_add spent adding) = false) ∨
  (∃ m, check_llm_cost q spent adding = Err (QuotaExceeded m)) ∧
  ∃ l, llm_cost_per_day_usd q = Some l ∧ f64_ltb l (f64_add spent adding) = true.
Proof.
  unfold check_llm_cost. destruct (llm_cost_per_day_usd q) as [l|]; [|by left].
  destruct (f64_ltb l _) eqn:E.
  - right. split; by eexists.
  - left. split; [done|]. by intros ? [= <-].
Qed.
Lemma check_count_cases metric limit current delta :
  check_count metric limit current delta = Ok () ∧ (∀ l, limit = Some l → u64_saturating_add current delta <= l) ∨
  (∃ m, check_count metric limit current delta = Err (QuotaExceeded m)) ∧
  ∃ l, limit = Some l ∧ l < u64_saturating_add current delta.
Proof.
  unfold check_count. destruct limit as [l|]; [|by left].
  destruct (Z.ltb_spec l (u64_saturating_add current delta)); [right|left].
  - split; by eexists.
  - split; [done|]. by intros ? [= <-].
Qed.

(** The slots of a project, and room for one more run under limits. *)
Definition slots (q : QuotaTracker) (project : string) : Z := default 0 (concurrent q !! project).
Definition has_room (limits : QuotaLimits) (day : Z) (project : string) (q : QuotaTracker) : Prop :=
  (∀ l, concurrent_agent_runs limits = Some l → u64_saturating_add (slots q project) 1 <= l) ∧
  (∀ l, llm_cost_per_day_usd limits = Some l →
     f64_ltb l (f64_add (used_on day project q).1 f64_zero) = false) ∧
  (∀ l, llm_tokens_per_day limits = Some l → u64_saturating_add (used_on day project q).2 0 <= l).

(** Admission is exactly the project's limits.  A run of a project with
    limits is admitted when one more run is within the concurrency limit and
    what the project used in its current day, dollars and tokens, is not over
    the budgets (usage of another day counts as nothing): then its slot is
    taken and nothing else changes.  Otherwise it is refused with 429 and
    nothing changes.  A run without a project or without limits is admitted
    and takes no slot. *)
Theorem admission_is_the_limits `{TenancyStore T, Libm} now (t : T) project limits q :
  (∀ p, get_quota p t = Ok None → admit_run now t (Some p) q = (q, inr (unmetered p))) ∧
  admit_run now t None q = (q, inr (unmetered "")) ∧
  (get_quota project t = Ok (Some limits) →
   let day := day_bucket now (default 0 (day_reset_offset_minutes limits)) in
   (has_room limits day project q →
      admit_run now t (Some project) q
        = (set_concurrent (<[project := u64_wrapping_add (slots q project) 1]> (concurrent q)) q,
           inr {| rp_project := project; rp_metered := true |})) ∧
   (¬ has_room limits day project q →
      ∃ m, admit_run now t (Some project) q = (q, inl (ApiError_new 429 "quota_exceeded" m)))).
Proof.
  split; [intros p Hp; unfold admit_run; by rewrite Hp|]. split; [done|]. intros Hq day.
  unfold admit_run. rewrite Hq. fold day. fold (slots q project). unfold has_room, check_concurrent_runs,
    check_llm_tokens.
  destruct (used_on day project q) as [spent tokens]. cbn [fst snd].
  destruct (check_count_cases "concurrent_agent_runs" (concurrent_agent_runs limits) (slots q project) 1)
    as [[-> Hc]|[[m ->] (l & Hl & Hlt)]]; [|split; [intros [Hr _]; specialize (Hr l Hl); lia|by eexists]].
  destruct (check_llm_cost_cases limits spent f64_zero)
    as [[-> Hd]|[[m ->] (l & Hl & Hlt)]]; [|split; [intros (_ & Hr & _); specialize (Hr l Hl); congruence|by eexists]].
  destruct (check_count_cases "llm_tokens_per_day" (llm_tokens_per_day limits) tokens 0)
    as [[Hk Ht]|[[m Hk] (l & Hl & Hlt)]]; unfold mbind, result_bind; rewrite Hk;
    [|split; [intros (_ & _ & Hr); specialize (Hr l Hl); lia|by eexists]].
  split; [done|]. intros Hn. exfalso. by apply Hn.
Qed.

(** *** Running runs *)

Section runs.
Context {T : Type} `{HT : TenancyStore T, HL : Libm, HS : QuotaSerde}.
Implicit Types (q : QuotaTracker) (live : list RunPermit).

(** What the server does with a tracker: a run asks to be admitted, a running
    run ends, a finished run's usage is recorded. *)
Inductive run_op :=
  | AdmitRun (now : Z) (t : T) (project : option string)
  | EndRun (i : nat)
  | RecordRun (now : Z) (t : T) (project : option string) (usd : f64) (tokens : Z).

Definition run_step (st : QuotaTracker * list RunPermit) (op : run_op) : QuotaTracker * list RunPermit :=
  let '(q, live) := st in
  match op with
  | AdmitRun now t project =>
    match admit_run now t project q with
    | (q, inr permit) => (q, live ++ [permit])
    | (q, inl _) => (q, live)
    end
  | EndRun i =>
    match live !! i with
    | Some permit => (drop_permit permit q, delete i live)
    | None => (q, live)
    end
  | RecordRun now t project usd tokens => (record_run_usage now t project usd tokens q, live)
  end.

Definition holds_slot (p : string) (r : RunPermit) : bool := rp_metered r && String.eqb (rp_project r) p.
(** The metered runs of a project that run. *)
Definition running (p : string) live : Z := Z.of_nat (length (List.filter (holds_slot p) live)).

Definition counts q live : Prop := ∀ p, slots q p = running p live.

Lemma running_app p live live' : running p (live ++ live') = running p live + running p live'.
Proof. unfold running. rewrite List.filter_app, length_app. lia. Qed.
Lemma running_cons p r live : running p (r :: live) = (if holds_slot p r then 1 else 0) + running p live.
Proof. unfold running. cbn [List.filter]. destruct (holds_slot p r); cbn [length]; lia. Qed.
Lemma running_delete p i r live : live !! i = Some r →
  running p live = (if holds_slot p r then 1 else 0) + running p (delete i live).
Proof.
  revert live. induction i as [|i IH]; intros [|x live] Hl; try done; simpl in Hl.
  - simplify_eq. apply running_cons.
  - change (delete (S i) (x :: live)) with (x :: delete i live). rewrite !running_cons, (IH live) by done. lia.
Qed.
Lemma running_bounds p live : 0 <= running p live <= Z.of_nat (length live).
Proof. unfold running. pose proof (List.filter_length_le (holds_slot p) live). lia. Qed.

Lemma record_concurrent now t project usd tokens q :
  concurrent (record_run_usage now t project usd tokens q) = concurrent q.
Proof.
  unfold record_run_usage, add_usage, persist. destruct project as [p|]; [|done].
  repeat case_match; by simplify_eq.
Qed.

Lemma slots_insert p p' c q :
  slots (set_concurrent (<[p := c]> (concurrent q)) q) p' = if String.eqb p p' then c else slots q p'.
Proof.
  unfold slots. cbn [concurrent set_concurrent]. destruct (String.eqb_spec p p') as [->|].
  - by rewrite lookup_insert_eq.
  - by rewrite lookup_insert_ne.
Qed.

(** An admission either takes no slot or takes the project's next one. *)
Lemma admit_run_cases now t project q :
  (∃ e, admit_run now t project q = (q, inl e)) ∨
  (∃ p, admit_run now t project q = (q, inr (unmetered p))) ∨
  ∃ p limits, project = Some p ∧ get_quota p t = Ok (Some limits) ∧
    (∀ l, concurrent_agent_runs limits = Some l → u64_saturating_add (slots q p) 1 <= l) ∧
    admit_run now t project q
      = (set_concurrent (<[p := u64_wrapping_add (slots q p) 1]> (concurrent q)) q,
         inr {| rp_project := p; rp_metered := true |}).
Proof.
  unfold admit_run. destruct project as [p|]; [|right; left; by eexists].
  destruct (get_quota p t) as [[limits|]|e] eqn:Hq; [|right; left; by eexists|left; by eexists].
  fold (slots q p). unfold check_concurrent_runs.
  destruct (check_count_cases "concurrent_agent_runs" (concurrent_agent_runs limits) (slots q p) 1)
    as [[-> Hc]|[[m ->] _]]; [|left; by eexists].
  destruct (used_on _ _ _) as [spent tokens].
  destruct (check_llm_cost limits spent f64_zero ≫= _) as [[]|e]; [|left; by eexists].
  right. right. by exists p, limits.
Qed.

Lemma run_step_counts q live op : counts q live → Z.of_nat (length live) < u64_max →
  let '(q', live') := run_step (q, live) op in
  counts q' live' ∧ (length live' <= S (length live))%nat.
Proof.
  intros Hc Hn. destruct op as [now t project|i|now t project usd tokens]; cbn [run_step].
  - destruct (admit_run_cases now t project q) as [[e ->]|[[p ->]|(p & limits & _ & _ & _ & ->)]].
    + split; [done|lia].
    + split; [|rewrite length_app; cbn; lia]. intros p'. rewrite running_app, Hc.
      unfold running at 3. cbn. lia.
    + split; [|rewrite length_app; cbn; lia]. intros p'. rewrite running_app, slots_insert, running_cons.
      cbn [holds_slot rp_metered rp_project andb]. rewrite !Hc. unfold running at 4. cbn.
      pose proof (running_bounds p live). destruct (String.eqb_spec p p') as [->|]; [|lia].
      unfold u64_wrapping_add. rewrite Z.mod_small by (unfold_ints; lia). lia.
  - destruct (live !! i) as [r|] eqn:Hl; [|split; [done|lia]].
    split; [|rewrite length_delete by done; lia].
    intros p. pose proof (running_delete p i r live Hl) as Hr.
    pose proof (running_delete (rp_project r) i r live Hl) as Hp. rewrite <-Hc in Hp.
    unfold drop_permit, holds_slot in *. rewrite String.eqb_refl in Hp.
    destruct (rp_metered r); cbn [negb andb] in *; [|rewrite Hc; lia].
    pose proof (running_bounds (rp_project r) (delete i live)). unfold slots in Hp.
    destruct (concurrent q !! rp_project r) as [c|] eqn:Ec; cbn [default] in Hp; [|lia].
    rewrite slots_insert. destruct (String.eqb_spec (rp_project r) p) as [Heq|]; [subst p; cbn in Hp; lia|].
    rewrite Hc. lia.
  - split; [|lia]. intros p. unfold slots. rewrite record_concurrent. apply Hc.
Qed.

Lemma run_steps_count ops q live : counts q live →
  Z.of_nat (length live + length ops) < u64_max →
  let '(q', live') := foldl run_step (q, live) ops in
  counts q' live' ∧ (length live' <= length live + length ops)%nat.
Proof.
  revert q live. induction ops as [|op ops IH]; intros q live Hc Hn; cbn [foldl length]; [split; [done|lia]|].
  pose proof (run_step_counts q live op Hc) as Hs. destruct (run_step (q, live) op) as [q1 live1].
  destruct Hs as [Hc1 Hl1]; [cbn in Hn; lia|]. cbn in Hn.
  specialize (IH q1 live1 Hc1). destruct (foldl run_step (q1, live1) ops) as [q2 live2].
  destruct IH as [Hc2 Hl2]; [lia|]. split; [done|lia].
Qed.

(** The limit every admission of a project is made under. *)
Definition admitted_under (p : string) (l : Z) (op : run_op) : Prop :=
  match op with
  | AdmitRun _ t (Some p') => p' = p → ∃ limits, get_quota p t = Ok (Some limits) ∧
      concurrent_agent_runs limits = Some l
  | _ => True
  end.

Lemma run_step_bound p l q live op : counts q live → admitted_under p l op → 0 <= l < u64_max →
  running p live <= l → running p (run_step (q, live) op).2 <= l.
Proof.
  intros Hc Hop Hl Hr. destruct op as [now t project|i|now t project usd tokens]; cbn [run_step]; [| |done].
  - destruct (admit_run_cases now t project q) as [[e ->]|[[p' ->]|(p' & limits & -> & Hq & Hroom & ->)]];
      [done|..]; cbn [snd]; rewrite running_app; unfold running at 2; cbn; [lia|].
    destruct (String.eqb_spec p' p) as [->|]; cbn; [|lia].
    destruct (Hop eq_refl) as (limits' & Hq' & Hlim). rewrite Hq in Hq'. injection Hq' as <-.
    specialize (Hroom l Hlim). rewrite Hc in Hroom. unfold_ints. lia.
  - destruct (live !! i) as [r|] eqn:Hi; [|done]. cbn [snd].
    pose proof (running_delete p i r live Hi). destruct (holds_slot p r); lia.
Qed.

Lemma run_steps_bound p l ops q live : counts q live → Forall (admitted_under p l) ops → 0 <= l < u64_max →
  Z.of_nat (length live + length ops) < u64_max →
  running p live <= l → running p (foldl run_step (q, live) ops).2 <= l.
Proof.
  revert q live. induction ops as [|op ops IH]; intros q live Hc Hops Hl Hn Hr; cbn [foldl]; [done|].
  inversion Hops as [|? ? Hop Hops']; subst. cbn [length] in Hn.
  pose proof (run_step_counts q live op Hc) as Hs. pose proof (run_step_bound p l q live op Hc Hop Hl Hr) as Hb.
  destruct (run_step (q, live) op) as [q1 live1]. destruct Hs as [Hc1 Hl1]; [lia|].
  apply IH; try done. lia.
Qed.

Lemma foldl_wrapping_sum l (acc : Z) :
  foldl u64_wrapping_add acc l mod u64_modulus = (acc + foldr Z.add 0 l) mod u64_modulus.
Proof.
  revert acc. induction l as [|x l IH]; intros acc; cbn [foldl foldr]; [by rewrite Z.add_0_r|].
  rewrite IH. unfold u64_wrapping_add. rewrite Z.add_mod_idemp_l by done. f_equal. lia.
Qed.
Lemma foldl_wrapping_exact l : 0 <= foldr Z.add 0 l <= u64_max →
  foldl u64_wrapping_add 0 l = foldr Z.add 0 l.
Proof.
  intros Hl. pose proof (foldl_wrapping_sum l 0) as Hs. rewrite Z.add_0_l in Hs.
  assert (0 <= foldl u64_wrapping_add 0 l < u64_modulus) as Hb.
  { destruct l as [|x l] using rev_ind; cbn; [done|]. rewrite foldl_app. cbn. apply Z.mod_pos_bound. done. }
  rewrite !Z.mod_small in Hs by (unfold_ints; lia). done.
Qed.

(** The slots of one permit over distinct projects. *)
Lemma slot_sum r ks : NoDup ks → (rp_metered r = true → rp_project r ∈ ks) →
  foldr Z.add 0 (map (λ k, if holds_slot k r then 1 else 0) ks) = if rp_metered r then 1 else 0.
Proof.
  unfold holds_slot. destruct (rp_metered r); cbn [andb].
  - intros Hnd Hin. specialize (Hin eq_refl). induction Hnd as [|k ks Hk Hnd IH]; [by apply not_elem_of_nil in Hin|].
    cbn. destruct (String.eqb_spec (rp_project r) k) as [<-|Hne].
    + enough (foldr Z.add 0 (map (λ k, if String.eqb (rp_project r) k then 1 else 0) ks) = 0) by lia.
      clear -Hk. induction ks as [|k ks IH]; [done|]. cbn. apply not_elem_of_cons in Hk as [Hne Hk].
      destruct (String.eqb_spec (rp_project r) k); [done|]. rewrite IH by done. done.
    + rewrite IH; [done|]. apply elem_of_cons in Hin as [?|]; done.
  - intros _ _. induction ks as [|k ks IH]; [done|]. cbn. by rewrite IH.
Qed.
Lemma running_sum live ks : NoDup ks → (∀ r, r ∈ live → rp_metered r = true → rp_project r ∈ ks) →
  foldr Z.add 0 (map (λ k, running k live) ks) = Z.of_nat (length (List.filter rp_metered live)).
Proof.
  intros Hnd. induction live as [|r live IH]; intros Hin.
  - clear. induction ks as [|k ks IH]; [done|]. cbn in *. by rewrite IH.
  - assert (foldr Z.add 0 (map (λ k, running k (r :: live)) ks)
      = foldr Z.add 0 (map (λ k, if holds_slot k r then 1 else 0) ks)
        + foldr Z.add 0 (map (λ k, running k live) ks)) as ->.
    { clear. induction ks as [|k ks IH]; [done|]. cbn [map foldr]. rewrite IH, running_cons. lia. }
    rewrite slot_sum; [|done|intros; apply Hin; [by left|done]].
    rewrite IH by (intros; apply Hin; [by right|done]). cbn [List.filter].
    destruct (rp_metered r); cbn [length]; lia.
Qed.

Lemma counts_total q live : counts q live → Z.of_nat (length live) <= u64_max →
  concurrent_total q = Z.of_nat (length (List.filter rp_metered live)).
Proof.
  intros Hc Hn. unfold concurrent_total. set (kvs := btree_iter (concurrent q)).
  assert (map snd kvs = map (λ k, running k live) (fst <$> kvs)) as ->.
  { rewrite map_map. apply map_ext_in. intros [k c] Hin%list_elem_of_In%btree_iter_elem.
    cbn. rewrite <-Hc. unfold slots. by rewrite Hin. }
  assert (foldr Z.add 0 (map (λ k, running k live) (fst <$> kvs))
    = Z.of_nat (length (List.filter rp_metered live))) as Hs.
  { apply running_sum; [apply btree_iter_nodup|]. intros r Hr Hm.
    pose proof (Hc (rp_project r)) as Hp. unfold slots in Hp.
    destruct (concurrent q !! rp_project r) as [c|] eqn:Ec.
    - apply list_elem_of_fmap. exists (rp_project r, c). split; [done|]. by apply btree_iter_elem.
    - exfalso. apply list_elem_of_split in Hr as (l1 & l2 & ->). cbn in Hp. revert Hp.
      rewrite running_app, running_cons. unfold holds_slot at 1. rewrite Hm, String.eqb_refl. cbn.
      pose proof (running_bounds (rp_project r) l1). pose proof (running_bounds (rp_project r) l2). lia. }
  rewrite foldl_wrapping_exact, Hs; [done|].
  pose proof (List.filter_length_le rp_metered live). rewrite Hs. lia.
Qed.
End runs.

(** C34: the slots of a project are its running runs.  From a start of the
    server, after any interleaving of admissions, ends of runs and records of
    usage, by any clock and against any catalog, a project's slots are exactly
    its metered runs that have not ended (a crashed count would throttle it, a
    lost one would let it through), the in-flight gauge is their number over
    all projects, and, when every admission of the project was made under the
    same concurrency limit, no more of its runs run than the limit says. *)
Theorem runs_stay_within_quota `{TenancyStore T, Libm, QuotaSerde} (file : option (option string))
    (ops : list (run_op (T := T))) project limit :
  Z.of_nat (length ops) < u64_max → 0 <= limit < u64_max →
  let '(q, live) := foldl run_step (QuotaTracker_new file, []) ops in
  (∀ p, slots q p = running p live) ∧
  concurrent_total q = Z.of_nat (length (List.filter rp_metered live)) ∧
  (Forall (admitted_under project limit) ops → running project live <= limit).
Proof.
  intros Hn Hl. assert (counts (QuotaTracker_new file) []) as Hc by done.
  pose proof (run_steps_count ops _ _ Hc) as Hs.
  pose proof (run_steps_bound project limit ops _ _ Hc) as Hb.
  destruct (foldl run_step (QuotaTracker_new file, []) ops) as [q live].
  destruct Hs as [Hc' Hlen]; [cbn; lia|]. split; [done|]. split.
  - apply counts_total; [done|]. cbn in Hlen. lia.
  - intros Hops. apply Hb; try done. unfold running. cbn. lia.
Qed.

(** *** Usage across a restart *)

(** The JSON library keeps an accumulator: it writes it, and reads the same
    days, dollars and tokens back. *)
Definition usage_keeps `{QuotaSerde} (m : gmap string DayUsage) : Prop :=
  ∃ bytes stored, usage_to_vec m = inr bytes ∧ usage_from_slice bytes = Some stored ∧ day_usage_of <$> stored = m.

(** The day in which a store puts a project's usage. *)
Definition quota_day `{TenancyStore T} (now : Z) (t : T) (project : string) : Z :=
  day_bucket now match get_quota project t with
                 | Ok (Some limits) => default 0 (day_reset_offset_minutes limits)
                 | _ => 0
                 end.

(** Recorded usage counts, and counts after a crash.  Recording a run adds
    its dollars and its tokens (which saturate) to what the project used in its
    current day and leaves the other projects' usage alone; and when the
    process dies after it, the tracker opened on the file has the same usage
    for every project and day, so the budgets admit and refuse what they did,
    and no slot, since no run runs. *)
Theorem usage_survives_a_restart `{TenancyStore T, QuotaSerde} now (t : T) project usd tokens
    (q : QuotaTracker) file :
  qt_file q = Some file →
  let q' := record_run_usage now t (Some project) usd tokens q in
  usage_keeps (cost q') →
  let day := quota_day now t project in
  used_on day project q'
    = (f64_add (used_on day project q).1 usd, u64_saturating_add (used_on day project q).2 tokens) ∧
  (∀ p d, p ≠ project → used_on d p q' = used_on d p q) ∧
  let q'' := QuotaTracker_new (qt_file q') in
  (∀ p d, used_on d p q'' = used_on d p q') ∧ ∀ p, slots q'' p = 0.
Proof.
  intros Hf q' (bytes & stored & Hw & Hr & Hs) day.
  set (entry := (day, f64_add (used_on day project q).1 usd, u64_saturating_add (used_on day project q).2 tokens)).
  assert (cost q' = <[project := entry]> (cost q) ∧ qt_file q' = Some (Some bytes)) as [Hc Hq].
  { revert Hw. unfold q', record_run_usage, add_usage. fold (quota_day now t project). fold day.
    unfold entry, used_on. destruct (cost q !! project) as [[[d c] n]|] eqn:E; cbn [default from_option id];
      [destruct (Z.eqb_spec d day)|rewrite Z.eqb_refl];
      unfold persist; cbn [qt_file set_cost]; rewrite Hf; cbn [fst snd];
      destruct (usage_to_vec (<[_ := _]> (cost q))) eqn:?; cbn [cost set_cost qt_file];
      intros; split; congruence. }
  split; [|split; [|intros q''; split]].
  - unfold used_on at 1. rewrite Hc, lookup_insert_eq. cbn. by rewrite Z.eqb_refl.
  - intros p d Hp. unfold used_on. by rewrite Hc, lookup_insert_ne.
  - intros p d. unfold q'', used_on. rewrite Hq. cbn. rewrite Hr. cbn. by rewrite Hs.
  - intros p. unfold q''. by rewrite Hq.
Qed.

(** *** An example *)

#[local] Instance libm_example : Libm := {| f64_log10 _ := f64_zero |}.

#[export] Instance DayUsage_eq_dec : EqDecision DayUsage.
Proof. unfold DayUsage. apply _. Defined.

(** A library that writes the accumulators of a table, and reads them as files
    with tokens. *)
Definition table_usage (l : list (gmap string DayUsage)) : QuotaSerde := {|
  usage_to_vec := table_write l;
  usage_from_slice s :=
    match table_read l s with
    | inr m => Some ((λ '(d, c, n), V2 d c n) <$> m)
    | inl _ => None
    end |}.

Lemma table_usage_keeps l m : m ∈ l → usage_keeps (H := table_usage l) m.
Proof.
  intros Hm. destruct (table_write_elem l m Hm) as (bytes & Hw & Hr).
  exists bytes, ((λ '(d, c, n), V2 d c n) <$> m). split; [done|]. cbn. rewrite Hr. split; [done|].
  rewrite <-map_fmap_compose. rewrite <-(map_fmap_id m) at 2. apply map_fmap_ext. by intros i [[d c] n] _.
Qed.

Definition two_runs_at_most (t : TenancyState) : TenancyState :=
  (TenancyState.set_quota "p" (runs_quota 2) t).1.
Definition quota_catalog : InMemoryTenancyStore.t := two_runs_at_most TenancyState_default.
Definition noon : Z := 1700000000.
Definition noon_day : Z := day_bucket noon 0.
Definition usage_of (l : list (string * DayUsage)) : gmap string DayUsage := list_to_map l.

Lemma admission_is_the_limits_witness :
  let q := QuotaTracker_new (H := table_usage []) None in
  get_quota "p" quota_catalog = Ok (Some (runs_quota 2)) ∧
  admit_run noon quota_catalog (Some "p") q
    = (set_concurrent (<["p" := 1]> ∅) q, inr {| rp_project := "p"; rp_metered := true |}).
Proof.
  intros q. assert (get_quota "p" quota_catalog = Ok (Some (runs_quota 2))) as Hq by (vm_compute; reflexivity).
  split; [exact Hq|].
  apply (admission_is_the_limits noon quota_catalog "p" (runs_quota 2) q); [exact Hq|].
  split_and!; intros l Hl; try (vm_compute in Hl; discriminate). injection Hl as <-. by vm_compute.
Defined.

(** Two runs start, a third is refused, one ends and another starts. *)
Definition quota_session : list (run_op (T := InMemoryTenancyStore.t)) :=
  let starts := AdmitRun noon quota_catalog (Some "p") in
  [starts; starts; starts; AdmitRun noon quota_catalog None; EndRun 0; starts;
   RecordRun noon quota_catalog (Some "p") f64_one 10].

Lemma runs_stay_within_quota_witness :
  let serde := table_usage [] in
  let '(q, live) := foldl run_step (QuotaTracker_new None, []) quota_session in
  (Z.of_nat (length quota_session) < u64_max ∧ 0 <= 2 < u64_max) ∧
  length live = 3%nat ∧ slots q "p" = 2 ∧ concurrent_total q = 2 ∧ running "p" live <= 2.
Proof.
  intros serde.
  assert (Z.of_nat (length quota_session) < u64_max) as Hn by by vm_compute.
  assert (0 <= 2 < u64_max) as Hl by by vm_compute.
  assert (Forall (admitted_under "p" 2) quota_session) as Hops.
  { repeat constructor; intros _; exists (runs_quota 2); split; vm_compute; reflexivity. }
  pose proof (runs_stay_within_quota None quota_session "p" 2 Hn Hl) as Hr.
  assert ((length (foldl run_step (QuotaTracker_new None, []) quota_session).2,
           running "p" (foldl run_step (QuotaTracker_new None, []) quota_session).2,
           length (List.filter rp_metered (foldl run_step (QuotaTracker_new None, []) quota_session).2))
          = (3%nat, 2, 2%nat)) as Hv by (vm_compute; reflexivity).
  destruct (foldl run_step _ quota_session) as [q live]. destruct Hr as (Hs & Ht & Hb).
  cbn [snd] in Hv. injection Hv as Hv1 Hv2 Hv3.
  split; [exact (conj Hn Hl)|]. split; [exact Hv1|]. split; [by rewrite Hs|].
  split; [by rewrite Ht, Hv3|exact (Hb Hops)].
Defined.

Definition usage_files : list (gmap string DayUsage) :=
  [usage_of [("p", (noon_day, f64_one, 10))];
   usage_of [("p", (noon_day, f64_of_Z 2, 17))];
   usage_of [("o", (noon_day, f64_one, 5)); ("p", (noon_day, f64_one, 10))]].

Lemma usage_survives_a_restart_witness :
  let serde := table_usage usage_files in
  let q := record_run_usage noon quota_catalog (Some "p") f64_one 10 (QuotaTracker_new (Some None)) in
  let q' := record_run_usage noon quota_catalog (Some "p") f64_one 7 q in
  let q'' := QuotaTracker_new (qt_file q') in
  (qt_file q = Some (Some "0") ∧ usage_keeps (cost q')) ∧
  used_on noon_day "p" q' = (f64_add f64_one f64_one, 17) ∧
  used_on noon_day "p" q'' = used_on noon_day "p" q'.
Proof.
  intros serde q q' q''.
  assert (qt_file q = Some (Some "0")) as Hf by (vm_compute; reflexivity).
  assert (usage_keeps (cost q')) as Hk.
  { apply table_usage_keeps. apply list_elem_of_In. right. left. vm_compute. reflexivity. }
  destruct (usage_survives_a_restart noon quota_catalog "p" f64_one 7 q (Some "0") Hf Hk) as (H1 & _ & H2 & _).
  split; [exact (conj Hf Hk)|]. split; [|apply H2].
  etransitivity; [exact H1|]. vm_compute. reflexivity.
Defined.

(** The file is written after the lock is given up.  Of two runs that end
    together, the one whose snapshot is older may write last: the file then
    misses the other's usage, and a restart forgets it. *)
Lemma late_snapshot_forgets_usage :
  let serde := table_usage usage_files in
  let '(q1, older) := add_usage noon quota_catalog "p" f64_one 10 (QuotaTracker_new (Some None)) in
  let '(q2, newer) := add_usage noon quota_catalog "o" f64_one 5 q1 in
  let q3 := persist older (persist newer q2) in
  let q4 := QuotaTracker_new (qt_file q3) in
  used_on noon_day "o" q3 = (f64_add f64_zero f64_one, 5) ∧ used_on noon_day "o" q4 = (f64_zero, 0).
Proof. vm_compute. by repeat split. Qed.
