(* ===== verification/RateLimit.v ===== *)
(** * Rate limiting

    [crates/wovyr-server/src/rate_limit.rs]: the in-process token buckets, the
    keys of a request, and the middleware.  The shared Redis buckets are not
    modelled (an optional feature of the build). *)
From stdpp Require Import base tactics list numbers strings gmap fin_sets.
From Stdlib Require Import Lia ZArith Ascii SpecFloat.
From S2P Require Import Prelude.
From S2P Require Import RustStr.
From S2P Require Import F64.
From S2P Require Import JsonValue.
From S2P Require Import Common.
From S2P Require Import Http.
Local Open Scope Z_scope.

(** Instants are nanoseconds of a monotonic clock. *)
Record Bucket := { tokens : f64; last_refill : Z }.

(** The buckets behind their mutex, which a panic under it poisons. *)
Record LocalBuckets := {
  buckets : gmap string Bucket;
  checks_since_sweep : Z;
  poisoned : bool;
}.
Definition LocalBuckets_new : LocalBuckets :=
  {| buckets := ∅; checks_since_sweep := 0; poisoned := false |}.

Definition SWEEP_INTERVAL : Z := 256.

(** Allowed, told to retry after some nanoseconds, or a panic. *)
Inductive verdict := Allowed | RetryAfter (ns : Z) | CheckPanics.

Record RateLimiter := { capacity : f64; refill_per_sec : f64; local : LocalBuckets }.
Definition RateLimiter_new (capacity per_minute : Z) : RateLimiter := {|
  capacity := f64_of_Z capacity; refill_per_sec := f64_div (f64_of_Z per_minute) (f64_of_Z 60);
  local := LocalBuckets_new |}.

Section check.
Context (capacity refill_per_sec : f64).

(** The buckets after the sweep of a check, if it is due, and the count of
    checks. *)
Definition sweep (l : LocalBuckets) : gmap string Bucket * Z :=
  if Z.leb SWEEP_INTERVAL (checks_since_sweep l)
  then (filter (λ kb, f64_ltb (tokens kb.2) capacity = true) (buckets l), 0)
  else (buckets l, u64_wrapping_add (checks_since_sweep l) 1).

(** A bucket at an instant, before its token is taken. *)
Definition refilled (now : Z) (b : Bucket) : f64 :=
  let elapsed := as_secs_f64 (Z.max 0 (now - last_refill b)) in
  f64_min (f64_add (tokens b) (f64_mul elapsed refill_per_sec)) capacity.

Definition local_check (now : Z) (key : string) (l : LocalBuckets) : LocalBuckets * verdict :=
  if poisoned l then (l, CheckPanics)
  else
    let '(m, n) := sweep l in
    let bucket := default {| tokens := capacity; last_refill := now |} (m !! key) in
    let t := refilled now bucket in
    let set t := <[key := {| tokens := t; last_refill := now |}]> m in
    let store t p := {| buckets := set t; checks_since_sweep := n; poisoned := p |} in
    if f64_leb f64_one t then (store (f64_sub t f64_one) false, Allowed)
    else
      match from_secs_f64 (f64_div (f64_sub f64_one t) refill_per_sec) with
      | Some ns => (store t false, RetryAfter ns)
      | None => (store t true, CheckPanics)
      end.
End check.

Definition check (now : Z) (key : string) (r : RateLimiter) : RateLimiter * verdict :=
  let '(l, v) := local_check (capacity r) (refill_per_sec r) now key (local r) in
  ({| capacity := capacity r; refill_per_sec := refill_per_sec r; local := l |}, v).

(** ** Keys *)

(** [peer]: the address of the connection, when there is one. *)
Definition rate_limit_key (headers : HeaderMap) (peer : option string) : string :=
  match non_empty (header headers "x-wovyr-principal") with
  | Some principal => "principal:" +:+ principal
  | None =>
    match non_empty (trim <$> (v ← header headers "x-forwarded-for"; head (split_char ","%char v))) with
    | Some fwd => "ip:" +:+ fwd
    | None => match peer with Some ip => "ip:" +:+ ip | None => "anonymous" end
    end
  end.
Definition tenant_key (headers : HeaderMap) : string :=
  "tenant:" +:+ default "default" (non_empty (header headers "x-wovyr-tenant")).

Section enforce.
Context `{HttpJson}.

Definition rate_limited_response (retry_after_ns : Z) : Response :=
  let r := ApiError_into_response (ApiError_new 429 "rate_limited" "rate limit exceeded") in
  {| status := status r;
     response_headers := <["retry-after" := show_Z (Z.max 1 (retry_after_ns / 10 ^ 9))]> (response_headers r);
     body := body r |}.

(** The limiters of a tier, the tenant one optional, and the state of the rest
    of the server; [None] is a panic. *)
Definition enforce {S} (now : Z) (peer : option string) (next : Request → S → S * Response) (req : Request)
    (st : RateLimiter * option RateLimiter * S) : RateLimiter * option RateLimiter * S * option Response :=
  let '(limiter, tenant_limiter, s) := st in
  let '(limiter, v) := check now (rate_limit_key (headers req) peer) limiter in
  match v with
  | CheckPanics => (limiter, tenant_limiter, s, None)
  | RetryAfter ns => (limiter, tenant_limiter, s, Some (rate_limited_response ns))
  | Allowed =>
    match tenant_limiter with
    | None => let '(s, r) := next req s in (limiter, None, s, Some r)
    | Some tl =>
      let '(tl, v) := check now (tenant_key (headers req)) tl in
      match v with
      | CheckPanics => (limiter, Some tl, s, None)
      | RetryAfter ns => (limiter, Some tl, s, Some (rate_limited_response ns))
      | Allowed => let '(s, r) := next req s in (limiter, Some tl, s, Some r)
      end
    end
  end.
End enforce.

(** ** Budgets hold

    A burst is the capacity, callers do not share budgets, a refused caller
    spends nothing of its tenant; and what the sweep never does. *)

(** *** The tokens of a bucket *)

Lemma f64_add_fits x y : f64_fits x → f64_fits y → f64_fits (f64_add x y).
Proof.
  intros Hx Hy. unfold f64_add, SFadd.
  destruct x as [[]|[]| |sx mx ex], y as [[]|[]| |sy my ey]; try done.
  unfold binary_normalize. destruct (_ + _); [done|apply binary_round_fits..].
Qed.

Section buckets.
Context (n : Z) (Hn : 1 <= n < 2 ^ 32) (refill : f64).

Abbreviation cap := (f64_of_Z n).

Lemma cap_finite : ∃ m e, cap = S754_finite false m e ∧ -53 < e <= 0.
Proof using Hn. destruct (f64_of_Z_exact n) as (m & e & ? & ? & _); [lia|]. by exists m, e. Qed.

(** Fewer tokens than the capacity. *)
Definition spent (b : Bucket) : Prop := f64_fits (tokens b) ∧ f64_ltb (tokens b) cap = true.
Definition all_spent (l : LocalBuckets) : Prop := ∀ k b, buckets l !! k = Some b → spent b.

Lemma refilled_bounded now b : f64_fits (tokens b) →
  let t := refilled cap refill now b in
  f64_fits t ∧ f64_is_nan t = false ∧ f64_ltb cap t = false.
Proof using Hn.
  intros Hb t. destruct cap_finite as (m & e & Hcap & _).
  assert (f64_ltb cap cap = false) as Hrefl by (rewrite f64_ltb_of_Z, Z.ltb_irrefl by lia; done).
  assert (f64_is_nan cap = false) as Hnan by by rewrite Hcap.
  unfold t, refilled, f64_min. set (x := f64_add _ _).
  assert (f64_fits x) as Hx by (apply f64_add_fits; [done|apply f64_mul_fits]).
  destruct (f64_is_nan x) eqn:Hxn; [by split_and!; [apply f64_of_Z_fits|..]|]. rewrite Hnan.
  destruct (f64_ltb cap x) eqn:Hlt; by split_and!; [apply f64_of_Z_fits || done|..].
Qed.

(** Taking a token from at least one leaves fewer than the capacity. *)
Lemma taken_spent t now : f64_fits t → f64_ltb cap t = false → f64_leb f64_one t = true →
  spent {| tokens := f64_sub t f64_one; last_refill := now |}.
Proof using Hn.
  intros Ht Hcap Hone. destruct cap_finite as (m & e & Hc & He). unfold spent. rewrite Hc in *. cbn [tokens].
  destruct t as [s|[]| |[] mt et]; try done.
  rewrite f64_one_finite in Hone. apply f64_leb_finite in Hone.
  assert (e <> et → et < e) as Hle.
  { apply not_true_iff_false in Hcap. rewrite f64_ltb_finite in Hcap. lia. }
  destruct (f64_sub_one_ltb mt et Ht) as [Hlt Hfit]; [lia|]. split; [done|].
  by eapply f64_below_trans.
Qed.
Lemma kept_spent t now : f64_fits t → f64_is_nan t = false → f64_leb f64_one t = false →
  spent {| tokens := t; last_refill := now |}.
Proof using Hn.
  intros Ht Hnan Hone. destruct cap_finite as (m & e & Hc & He). split; [done|]. cbn [tokens]. rewrite Hc.
  rewrite f64_one_finite in Hone. apply f64_not_leb_ltb in Hone; [|done].
  eapply f64_below_trans; [done|]. rewrite <-Hc, <-f64_one_finite.
  change f64_one with (f64_of_Z 1). rewrite f64_ltb_of_Z by lia. apply Z.ltb_ge. lia.
Qed.

(** The sweep finds no rested bucket. *)
Lemma sweep_nothing l : all_spent l → (sweep cap l).1 = buckets l.
Proof.
  intros Hl. unfold sweep. destruct (Z.leb _ _); [|done]. cbn [fst].
  apply map_filter_id. intros k b Hb. by apply Hl in Hb as [_ ?].
Qed.

(** A check: the bucket of its key after it, the others as they were. *)
Lemma local_check_all_spent now key l : all_spent l → all_spent (local_check cap refill now key l).1.
Proof using Hn.
  intros Hl. unfold local_check. destruct (poisoned l); [done|].
  pose proof (sweep_nothing l Hl) as Hs. destruct (sweep cap l) as [m c]. cbn in Hs. subst m.
  set (b := default _ _).
  assert (f64_fits (tokens b)) as Hb.
  { unfold b. destruct (buckets l !! key) as [b'|] eqn:E; cbn; [by apply Hl in E as []|apply f64_of_Z_fits]. }
  destruct (refilled_bounded now b Hb) as (Hf & Hnan & Hle).
  assert (∀ t p, spent {| tokens := t; last_refill := now |} →
    all_spent {| buckets := <[key := {| tokens := t; last_refill := now |}]> (buckets l);
                 checks_since_sweep := c; poisoned := p |}) as Hset.
  { intros t p Ht k b'. cbn. rewrite lookup_insert_Some. intros [[_ <-]|[_ Hk]]; [done|by eapply Hl]. }
  destruct (f64_leb f64_one _) eqn:Hone; [by apply Hset, taken_spent|].
  destruct (from_secs_f64 _); by apply Hset, kept_spent.
Qed.

Lemma local_check_other now key l k : all_spent l → k ≠ key →
  buckets (local_check cap refill now key l).1 !! k = buckets l !! k.
Proof.
  intros Hl Hk. unfold local_check. destruct (poisoned l); [done|].
  pose proof (sweep_nothing l Hl) as Hs. destruct (sweep cap l) as [m c]. cbn in Hs. subst m.
  repeat case_match; cbn; by rewrite lookup_insert_ne.
Qed.
Lemma local_check_dom now key l : all_spent l → poisoned l = false →
  dom (buckets (local_check cap refill now key l).1) = {[key]} ∪ dom (buckets l).
Proof.
  intros Hl Hp. unfold local_check. rewrite Hp.
  pose proof (sweep_nothing l Hl) as Hs. destruct (sweep cap l) as [m c]. cbn in Hs. subst m.
  repeat case_match; cbn; by rewrite dom_insert_L.
Qed.

(** A check reads its own bucket only. *)
Lemma local_check_local now key l l' : all_spent l → all_spent l' →
  poisoned l = false → poisoned l' = false → buckets l !! key = buckets l' !! key →
  (local_check cap refill now key l).2 = (local_check cap refill now key l').2 ∧
  poisoned (local_check cap refill now key l).1 = poisoned (local_check cap refill now key l').1 ∧
  buckets (local_check cap refill now key l).1 !! key = buckets (local_check cap refill now key l').1 !! key.
Proof.
  intros Hl Hl' Hp Hp' Hk. unfold local_check. rewrite Hp, Hp'.
  pose proof (sweep_nothing l Hl) as Hs. destruct (sweep cap l) as [m c]. cbn in Hs. subst m.
  pose proof (sweep_nothing l' Hl') as Hs'. destruct (sweep cap l') as [m' c']. cbn in Hs'. subst m'.
  rewrite Hk. repeat case_match; cbn; split_and!; try done; by rewrite !lookup_insert_eq.
Qed.

(** *** Sequences of checks *)

Definition checks_go (l : LocalBuckets) (qs : list (Z * string)) : LocalBuckets :=
  foldl (λ l q, (local_check cap refill q.1 q.2 l).1) l qs.
Fixpoint verdicts (l : LocalBuckets) (qs : list (Z * string)) : list verdict :=
  match qs with
  | [] => []
  | (now, key) :: qs => let '(l, v) := local_check cap refill now key l in v :: verdicts l qs
  end.

Lemma poisoned_check now key l : poisoned (local_check cap refill now key l).1 = false → poisoned l = false.
Proof. unfold local_check. destruct (poisoned l) eqn:E; [|done]. cbn. congruence. Qed.
Lemma poisoned_checks qs l : poisoned (checks_go l qs) = false → poisoned l = false.
Proof.
  revert l. induction qs as [|[now key] qs IH]; intros l; [done|]. intros H.
  exact (poisoned_check _ _ _ (IH _ H)).
Qed.
Lemma checks_all_spent qs l : all_spent l → all_spent (checks_go l qs).
Proof using Hn.
  revert l. induction qs as [|[now key] qs IH]; intros l Hl; [done|]. by apply IH, local_check_all_spent.
Qed.
End buckets.

Definition of_key (key : string) (q : Z * string) : bool := String.eqb q.2 key.

(** The verdicts of one key's checks among all. *)
Definition verdicts_of (n : Z) (refill : f64) (key : string) (l : LocalBuckets) (qs : list (Z * string))
    : list verdict :=
  map snd (List.filter (λ qv, of_key key qv.1) (zip qs (verdicts n refill l qs))).

Lemma checks_of_key_alone n refill key qs l l' : 1 <= n < 2 ^ 32 →
  all_spent n l → all_spent n l' → poisoned l' = false → buckets l !! key = buckets l' !! key →
  poisoned (checks_go n refill l qs) = false →
  verdicts_of n refill key l qs = verdicts n refill l' (List.filter (of_key key) qs).
Proof.
  intros Hn. revert l l'. induction qs as [|[now k] qs IH]; intros l l' Hl Hl' Hp' Hk Hp; [done|].
  cbn [checks_go foldl fst snd] in Hp. fold (checks_go n refill) in Hp.
  pose proof (poisoned_checks n refill qs _ Hp) as Hp1. pose proof (poisoned_check n refill now k l Hp1) as Hp0.
  unfold verdicts_of. cbn [verdicts List.filter].
  pose proof (local_check_all_spent n Hn refill now k l Hl) as Hl1.
  destruct (String.eqb_spec k key) as [->|Hne].
  - destruct (local_check_local n refill now key l l' Hl Hl' Hp0 Hp' Hk) as (Hv & Hpp & Hb).
    pose proof (local_check_all_spent n Hn refill now key l' Hl') as Hl1'.
    assert (of_key key (now, key) = true) as Hof by apply String.eqb_refl. rewrite Hof. cbn [verdicts].
    destruct (local_check (f64_of_Z n) refill now key l) as [l1 v].
    destruct (local_check (f64_of_Z n) refill now key l') as [l1' v'].
    cbn [fst snd zip zip_with List.filter map] in *. rewrite Hof. cbn [map snd]. subst v'.
    f_equal. apply (IH l1 l1'); try done. congruence.
  - pose proof (local_check_other n refill now k l key Hl) as Ho.
    assert (of_key key (now, k) = false) as Hof by by apply String.eqb_neq. rewrite Hof.
    destruct (local_check (f64_of_Z n) refill now k l) as [l1 v].
    cbn [fst snd zip zip_with List.filter map] in *. rewrite Hof.
    apply (IH l1 l'); try done. by rewrite Ho.
Qed.

Lemma all_spent_new n : all_spent n LocalBuckets_new.
Proof. intros k b. cbn. by rewrite lookup_empty. Qed.

(** Callers do not share budgets.  Whatever the interleaving of checks by
    different keys, as long as no check panics, the checks of one key get
    exactly the verdicts they would get if that key were alone: neither the
    other keys nor the sweeps change one admission or one retry time. *)
Theorem callers_do_not_share_budgets n per_minute qs key :
  1 <= n < 2 ^ 32 →
  let r := RateLimiter_new n per_minute in
  poisoned (checks_go n (refill_per_sec r) (local r) qs) = false →
  verdicts_of n (refill_per_sec r) key (local r) qs
    = verdicts n (refill_per_sec r) (local r) (List.filter (of_key key) qs).
Proof. intros Hn r Hp. by apply checks_of_key_alone; try apply all_spent_new. Qed.

(** A sweep never finds a rested bucket, so no bucket is ever dropped: after any
    checks the limiter holds one for every key it has seen. *)
Theorem buckets_are_never_dropped n per_minute qs :
  1 <= n < 2 ^ 32 →
  let r := RateLimiter_new n per_minute in
  let l := checks_go n (refill_per_sec r) (local r) qs in
  poisoned l = false → dom (buckets l) = list_to_set (C := gset string) (map snd qs).
Proof.
  intros Hn r. cbn zeta. set (f := refill_per_sec r). clearbody f.
  assert (∀ l, all_spent n l → poisoned (checks_go n f l qs) = false →
    dom (buckets (checks_go n f l qs)) = dom (buckets l) ∪ list_to_set (map snd qs)) as Hg.
  { induction qs as [|[now k] qs IH]; intros l Hl Hp; [cbn; set_solver|].
    change (checks_go n f l ((now, k) :: qs)) with (checks_go n f (local_check (f64_of_Z n) f now k l).1 qs) in *.
    cbn [map snd].
    pose proof (poisoned_check n f now k l (poisoned_checks n f qs _ Hp)) as Hp0.
    rewrite IH by (try done; by apply local_check_all_spent). rewrite local_check_dom by done. set_solver. }
  intros Hp. rewrite Hg by (try done; apply all_spent_new). cbn. set_solver.
Qed.

(** *** A burst *)

Section burst.
Context (n : Z) (Hn : 1 <= n < 2 ^ 32) (refill : f64) (Hfin : f64_is_finite refill = true) (now : Z) (key : string).

Definition full_of (k : Z) : Bucket := {| tokens := f64_of_Z k; last_refill := now |}.

(** No time passes, no token comes. *)
Lemma refilled_at_once k : 0 <= k <= n → refilled (f64_of_Z n) refill now (full_of k) = f64_of_Z k.
Proof using Hn Hfin.
  intros Hk. unfold refilled, full_of. cbn [tokens last_refill]. rewrite Z.sub_diag.
  assert (as_secs_f64 (Z.max 0 0) = f64_zero) as -> by by vm_compute.
  assert (∃ s, f64_mul f64_zero refill = S754_zero s) as [s ->].
  { destruct refill as [s|s| |s m e]; try done; cbn; by eexists. }
  assert (f64_ltb (f64_of_Z n) (f64_of_Z k) = false) as Hle by (rewrite f64_ltb_of_Z by lia; lia).
  destruct (cap_finite n Hn) as (mc & ec & Hc & _).
  destruct (decide (k = 0)) as [->|Hk0].
  - change (f64_of_Z 0) with f64_zero in *. destruct s; unfold f64_min; rewrite Hc in *; by cbn.
  - destruct (f64_of_Z_exact k) as (m & e & Hm & _); [lia|]. rewrite Hm in *.
    unfold f64_add, SFadd, f64_min. rewrite Hc in *. cbn [f64_is_nan]. by rewrite Hle.
Qed.

Lemma one_leb_of_Z k : 0 <= k <= n → f64_leb f64_one (f64_of_Z k) = bool_decide (1 <= k).
Proof using Hn.
  intros Hk. destruct (decide (k = 0)) as [->|]; [done|]. rewrite bool_decide_true by lia.
  destruct (f64_leb f64_one (f64_of_Z k)) eqn:E; [done|]. exfalso.
  destruct (f64_of_Z_exact k) as (m & e & Hm & _); [lia|].
  rewrite f64_one_finite in E. apply f64_not_leb_ltb in E; [|by rewrite Hm].
  rewrite <-f64_one_finite in E. change f64_one with (f64_of_Z 1) in E. rewrite f64_ltb_of_Z in E by lia. lia.
Qed.

Lemma check_at_once k l : 0 <= k <= n → all_spent n l → poisoned l = false →
  default (full_of n) (buckets l !! key) = full_of k →
  let '(l', v) := local_check (f64_of_Z n) refill now key l in
  (v = Allowed ↔ 1 <= k) ∧ (poisoned l' = false → buckets l' !! key = Some (full_of (Z.max 0 (k - 1)))) ∧
  (1 <= k → poisoned l' = false).
Proof using Hn Hfin.
  intros Hk Hl Hp Hb. unfold local_check. rewrite Hp.
  pose proof (sweep_nothing n l Hl) as Hs. destruct (sweep (f64_of_Z n) l) as [m c]. cbn in Hs. subst m.
  change {| tokens := f64_of_Z n; last_refill := now |} with (full_of n). rewrite Hb, refilled_at_once by done.
  rewrite one_leb_of_Z by done. case_bool_decide.
  - cbn. rewrite lookup_insert_eq. split_and!; [by split|intros _|done].
    unfold full_of. rewrite f64_sub_one_of_Z by lia. by rewrite Z.max_r by lia.
  - assert (k = 0) as -> by lia.
    destruct (from_secs_f64 _); cbn; split_and!; try done; try lia. intros _. by rewrite lookup_insert_eq.
Qed.

Lemma burst_go j k l : 0 <= k <= n → all_spent n l → poisoned l = false →
  default (full_of n) (buckets l !! key) = full_of k →
  ∀ i v, verdicts n refill l (replicate j (now, key)) !! i = Some v → (v = Allowed ↔ Z.of_nat i < k).
Proof using Hn Hfin.
  revert k l. induction j as [|j IH]; intros k l Hk Hl Hp Hb i v; [done|]. cbn [replicate verdicts].
  pose proof (check_at_once k l Hk Hl Hp Hb) as Hc.
  pose proof (local_check_all_spent n Hn refill now key l Hl) as Hl1.
  destruct (local_check (f64_of_Z n) refill now key l) as [l1 v1]. cbn [fst] in Hl1.
  destruct Hc as (Hv & Hb1 & Hp1). destruct i as [|i]; cbn [lookup list_lookup].
  - intros [= <-]. rewrite Hv. lia.
  - intros Hi. destruct (poisoned l1) eqn:Epo.
    + assert (k = 0) as -> by (destruct (decide (1 <= k)) as [H1|]; [by specialize (Hp1 H1)|lia]).
      enough (v ≠ Allowed) by (split; [done|lia]).
      clear -Epo Hi. revert i Hi. induction j as [|j IH]; [done|]. cbn [replicate verdicts].
      unfold local_check. rewrite Epo. intros [|i]; cbn; [by intros [= <-]|]. exact (IH i).
    + rewrite (IH (Z.max 0 (k - 1)) l1 ltac:(lia) Hl1 Epo ltac:(by rewrite Hb1) i v Hi). lia.
Qed.
End burst.

(** A burst is the capacity.  Of any number of checks that a key the
    limiter has no bucket for makes at one instant, exactly the first
    [capacity] are admitted, not one more and not one less, floating point or
    not. *)
Theorem burst_is_the_capacity n refill now key j l :
  1 <= n < 2 ^ 32 → f64_is_finite refill = true →
  all_spent n l → poisoned l = false → buckets l !! key = None →
  ∀ i v, verdicts n refill l (replicate j (now, key)) !! i = Some v → (v = Allowed ↔ Z.of_nat i < n).
Proof.
  intros Hn Hfin Hl Hp Hb. apply (burst_go n Hn refill Hfin now key j n); [lia|done..|]. by rewrite Hb.
Qed.

(** *** The middleware *)

(** A refused caller spends nothing of its tenant and runs nothing.  The
    handler runs exactly when the caller's bucket and, with a tenant ceiling,
    the tenant's admit, and its response is the answer; a caller its own bucket
    refuses leaves the tenant's buckets as they were; and whoever is refused
    gets 429 with a retry time of at least a second, the rest of the server
    untouched. *)
Theorem refused_callers_spend_nothing `{HttpJson} {S} now peer (next : Request → S → S * Response) req
    limiter tenant_limiter s limiter' tenant_limiter' s' resp :
  enforce now peer next req (limiter, tenant_limiter, s) = (limiter', tenant_limiter', s', Some resp) →
  let caller := (check now (rate_limit_key (headers req) peer) limiter).2 in
  let tenant := (λ tl, (check now (tenant_key (headers req)) tl).2) <$> tenant_limiter in
  (caller = Allowed ∧ (∀ v, tenant = Some v → v = Allowed) ∧ next req s = (s', resp)) ∨
  (s' = s ∧ status resp = 429 ∧ (∃ ns, response_headers resp !! "retry-after" = Some (show_Z ns) ∧ 1 <= ns) ∧
   (caller ≠ Allowed → tenant_limiter' = tenant_limiter) ∧
   (caller = Allowed → ∃ ns, tenant = Some (RetryAfter ns))).
Proof.
  unfold enforce. destruct (check now (rate_limit_key _ _) limiter) as [l1 [|ns|]]; [| |done].
  - destruct tenant_limiter as [tl|]; cbn [fmap option_fmap option_map].
    + destruct (check now (tenant_key _) tl) as [tl1 [|ns|]] eqn:E; [| |done].
      * destruct (next req s) as [s1 r] eqn:En. intros [= <- <- <- <-]. left. split_and!; try done.
        cbn. by intros v [= <-].
      * intros [= <- <- <- <-]. right. split_and!; try done.
        -- eexists. split; [by apply lookup_insert_eq|lia].
        -- intros _. by exists ns.
    + destruct (next req s) as [s1 r] eqn:En. intros [= <- <- <- <-]. left. by split_and!.
  - intros [= <- <- <- <-]. right. split_and!; try done.
    eexists. split; [by apply lookup_insert_eq|lia].
Qed.

(** *** Examples *)

#[export] Instance verdict_eq_dec : EqDecision verdict.
Proof. solve_decision. Defined.

Definition second : Z := 10 ^ 9.
(** Two callers at a limiter of two requests a minute. *)
Definition busy_checks : list (Z * string) :=
  [(0, "ada"); (0, "bob"); (0, "ada"); (0, "ada"); (second, "bob"); (31 * second, "ada"); (31 * second, "ada")].

Lemma callers_do_not_share_budgets_witness :
  let r := RateLimiter_new 2 2 in
  (1 <= 2 < 2 ^ 32 ∧ poisoned (checks_go 2 (refill_per_sec r) (local r) busy_checks) = false) ∧
  verdicts_of 2 (refill_per_sec r) "ada" (local r) busy_checks
    = verdicts 2 (refill_per_sec r) (local r) [(0, "ada"); (0, "ada"); (0, "ada"); (31 * second, "ada"); (31 * second, "ada")] ∧
  (λ v, bool_decide (v = Allowed)) <$> verdicts_of 2 (refill_per_sec r) "ada" (local r) busy_checks
    = [true; true; false; true; false].
Proof.
  intros r. assert (1 <= 2 < 2 ^ 32) as Hn by lia.
  assert (poisoned (checks_go 2 (refill_per_sec r) (local r) busy_checks) = false) as Hp
    by (vm_compute; reflexivity).
  split; [exact (conj Hn Hp)|]. split; [exact (callers_do_not_share_budgets 2 2 busy_checks "ada" Hn Hp)|].
  vm_compute. reflexivity.
Defined.

Lemma burst_is_the_capacity_witness :
  let r := RateLimiter_new 3 60 in
  let vs := verdicts 3 (refill_per_sec r) (local r) (replicate 5 (0, "ada")) in
  (1 <= 3 < 2 ^ 32 ∧ f64_is_finite (refill_per_sec r) = true ∧ all_spent 3 (local r) ∧
   poisoned (local r) = false ∧ buckets (local r) !! "ada" = None) ∧
  vs !! 2%nat = Some Allowed ∧ vs !! 3%nat = Some (RetryAfter second) ∧
  (∀ v, vs !! 3%nat = Some v → v ≠ Allowed).
Proof.
  intros r vs. assert (1 <= 3 < 2 ^ 32) as Hn by lia.
  assert (f64_is_finite (refill_per_sec r) = true) as Hf by (vm_compute; reflexivity).
  assert (all_spent 3 (local r)) as Ha by apply all_spent_new.
  assert (poisoned (local r) = false) as Hp by done.
  assert (buckets (local r) !! "ada" = None) as Hb by done.
  split; [by split_and!|]. split; [vm_compute; reflexivity|]. split; [vm_compute; reflexivity|].
  intros v Hv Had. apply (burst_is_the_capacity 3 (refill_per_sec r) 0 "ada" 5 (local r) Hn Hf Ha Hp Hb 3 v Hv) in Had.
  lia.
Defined.

Definition plain_json : HttpJson := {| value_to_vec _ := "{}"; value_from_slice _ := None |}.
Definition plain_request (principal : string) : Request := {|
  method := "GET"; path := "/"; request_body := "";
  headers := <["x-wovyr-tenant" := "acme"]> {["x-wovyr-principal" := principal]} |}.
Definition counted (req : Request) (n : Z) : Z * Response :=
  (n + 1, {| status := 200; response_headers := ∅; body := "" |}).

(** The caller's second request of the minute: the handler has run once. *)
Lemma refused_callers_spend_nothing_witness :
  let json := plain_json in
  let req := plain_request "ada" in
  let '(l1, t1, s1, _) := enforce 0 None counted req (RateLimiter_new 1 1, Some (RateLimiter_new 9 9), 0) in
  let '(l2, t2, s2, r2) := enforce 0 None counted req (l1, t1, s1) in
  s1 = 1 ∧ s2 = 1 ∧ t2 = t1 ∧ (status <$> r2) = Some 429.
Proof.
  intros json req.
  destruct (enforce 0 None counted req (RateLimiter_new 1 1, Some (RateLimiter_new 9 9), 0)) as [[[l1 t1] s1] r1] eqn:E1.
  assert ((enforce 0 None counted req (RateLimiter_new 1 1, Some (RateLimiter_new 9 9), 0)).1.2 = 1) as Hs1
    by (vm_compute; reflexivity).
  assert ((check 0 (rate_limit_key (headers req) None)
    (enforce 0 None counted req (RateLimiter_new 1 1, Some (RateLimiter_new 9 9), 0)).1.1.1).2 = RetryAfter (60 * second)) as Hv
    by (vm_compute; reflexivity).
  rewrite E1 in Hs1, Hv. cbn [fst snd] in Hs1, Hv. subst s1.
  destruct (enforce 0 None counted req (l1, t1, 1)) as [[[l2 t2] s2] [r2|]] eqn:E2.
  - destruct (refused_callers_spend_nothing 0 None counted req l1 t1 1 l2 t2 s2 r2 E2)
      as [(Hc & _)|(-> & Hst & _ & Ht & _)].
    + rewrite Hv in Hc. discriminate.
    + split_and!; [done|done| |cbn; by rewrite Hst]. apply Ht. by rewrite Hv.
  - exfalso. unfold enforce in E2. destruct (check 0 _ l1) as [l v]. cbn [snd] in Hv. by subst v.
Defined.

(** A limit of zero a minute, which the environment may set, does not refuse: it
    divides by a refill of zero, panics while it holds the mutex, and every
    later check of every caller panics on the poisoned mutex. *)
Lemma zero_limit_poisons :
  let '(r1, v1) := check 0 "ada" (RateLimiter_new 0 0) in
  v1 = CheckPanics ∧ poisoned (local r1) = true ∧
  ∀ now key, check now key r1 = (r1, CheckPanics).
Proof.
  assert (check 0 "ada" (RateLimiter_new 0 0)
    = ({| capacity := f64_zero; refill_per_sec := f64_zero;
          local := {| buckets := {["ada" := {| tokens := f64_zero; last_refill := 0 |}]};
                      checks_since_sweep := 1; poisoned := true |} |}, CheckPanics)) as -> by (vm_compute; reflexivity).
  by split_and!.
Qed.
