(* ===== verification/Auth.v ===== *)
(** * Credentials

    [crates/wovyr-server/src/auth.rs]: the authentication modes, the middleware
    that puts the verified principal in the request, and the API-key stores
    with their cache.  Tokens, hashes, random keys and the JSON of the key file
    are the libraries'. *)
From stdpp Require Import base tactics list numbers strings gmap sorting.
From Stdlib Require Import Lia ZArith Ascii.
From S2P Require Import Prelude.
From S2P Require Import RustStr.
From S2P Require Import Common.
From S2P Require Import JsonValue.
From S2P Require Import Http.
Local Open Scope Z_scope.

(** ** Modes *)

Inductive AuthMode := Jwt | ApiKey | DisabledLoopback.
(** From [WOVYR_AUTH_MODE]. *)
Definition AuthMode_from_env (v : option string) : AuthMode :=
  match v with
  | Some m => if String.eqb m "jwt" then Jwt else if String.eqb m "apikey" then ApiKey else DisabledLoopback
  | None => DisabledLoopback
  end.
(** From [WOVYR_ALLOW_ANONYMOUS], in a server that is not the crate's own test
    build. *)
Definition resolve_anonymous_allowed (v : option string) : bool :=
  match v with Some v => String.eqb v "1" | None => false end.

Definition check_anonymous_bind (allowed is_loopback : bool) (addr : string) : result () :=
  if allowed && negb is_loopback then
    Err (Config ("WOVYR_ALLOW_ANONYMOUS=1 is refused on a non-loopback bind (" +:+ addr
      +:+ "); set WOVYR_AUTH_MODE=jwt or apikey (and unset WOVYR_ALLOW_ANONYMOUS) for a network-reachable server"))
  else Ok ().

(** ** The request *)

(** [HeaderValue::from_str]: whether a text is a header value. *)
Class HeaderValues := { is_header_value : string → bool }.

Definition bearer_token (headers : HeaderMap) : option string :=
  non_empty (a ← header headers "authorization"; strip_prefix "Bearer " a).

Definition with_headers (h : HeaderMap) (req : Request) : Request :=
  {| method := method req; path := path req; headers := h; request_body := request_body req |}.
Definition set_verified_principal `{HeaderValues} (principal : string) (req : Request) : Request :=
  with_headers
    (if is_header_value principal then <["x-wovyr-principal" := principal]> (headers req)
     else delete "x-wovyr-principal" (headers req)) req.

Definition unauthorized `{HttpJson} (msg : string) : Response :=
  ApiError_into_response (ApiError_new 401 "unauthorized" msg).

(** ** JSON web tokens *)

Inductive Algorithm := HS256 | RS256.
Record Validation := { alg : Algorithm; issuer : option string; audience : option string }.
Inductive DecodingKey := FromSecret (secret : string) | FromRsaPem (pem : string).

(** [jsonwebtoken]: whether a PEM text is a key, and the subject of a token that
    verifies; an error is its message. *)
Class JwtLib := {
  rsa_pem : string → string + ();
  jwt_decode : string → DecodingKey → Validation → string + string;
}.

(** The environment's [WOVYR_JWT_*]. *)
Record JwtEnv := {
  hs_secret : option string; rs_public_key : option string;
  jwt_issuer : option string; jwt_audience : option string;
}.

Section jwt.
Context `{JwtLib} (env : JwtEnv).

Definition jwt_decoding_key : string + DecodingKey :=
  match hs_secret env with
  | Some secret => inr (FromSecret secret)
  | None =>
    match rs_public_key env with
    | Some pem => match rsa_pem pem with inr _ => inr (FromRsaPem pem) | inl e => inl e end
    | None => inl "WOVYR_AUTH_MODE=jwt requires WOVYR_JWT_HS_SECRET (HS256) or WOVYR_JWT_RS_PUBLIC_KEY (RS256, PEM)"
    end
  end.
Definition jwt_validation : Validation := {|
  alg := match rs_public_key env with Some _ => RS256 | None => HS256 end;
  issuer := jwt_issuer env; audience := jwt_audience env |}.
Definition verify_jwt_bearer (token : string) : string + string :=
  match jwt_decoding_key with
  | inl e => inl e
  | inr key => jwt_decode token key jwt_validation
  end.
End jwt.

(** ** API keys *)

Definition LAST_USED_PERSIST_INTERVAL_MS : Z := 60000.

Record KeyRecord := {
  key_id : string;
  kr_principal : string;
  created_at_ms : Z;
  expires_at_ms : option Z;
  revoked : bool;
  last_used_ms : option Z;
}.
Definition is_live (now : Z) (r : KeyRecord) : bool :=
  negb (revoked r) && match expires_at_ms r with None => true | Some e => Z.ltb now e end.

(** The metadata of a key is its record; the hash is the map's key. *)
Abbreviation KeyMap := (gmap string KeyRecord) (only parsing).

Class KeyHash := { sha256_hex : string → string }.

(** [&hash[..hash.len().min(12)]], of a hash in hexadecimal. *)
Definition key_id_for (hash : string) : string := "key_" +:+ String.substring 0 12 hash.
Definition new_key (id principal : string) (now : Z) (expires : option Z) : KeyRecord := {|
  key_id := id; kr_principal := principal; created_at_ms := now; expires_at_ms := expires;
  revoked := false; last_used_ms := None |}.
Definition set_last_used (now : Z) (r : KeyRecord) : KeyRecord := {|
  key_id := key_id r; kr_principal := kr_principal r; created_at_ms := created_at_ms r;
  expires_at_ms := expires_at_ms r; revoked := revoked r; last_used_ms := Some now |}.
Definition set_revoked (r : KeyRecord) : KeyRecord := {|
  key_id := key_id r; kr_principal := kr_principal r; created_at_ms := created_at_ms r;
  expires_at_ms := expires_at_ms r; revoked := true; last_used_ms := last_used_ms r |}.
Definition expire_by (deadline : Z) (r : KeyRecord) : KeyRecord := {|
  key_id := key_id r; kr_principal := kr_principal r; created_at_ms := created_at_ms r;
  expires_at_ms := Some match expires_at_ms r with Some e => Z.min e deadline | None => deadline end;
  revoked := revoked r; last_used_ms := last_used_ms r |}.

Section keys.
Context `{KeyHash}.

Definition hash_key (raw : string) : string := sha256_hex raw.

Definition resolve_live_key (now : Z) (raw : string) (m : KeyMap) : KeyMap * (option string * bool) :=
  match m !! hash_key raw with
  | None => (m, (None, false))
  | Some r =>
    if negb (is_live now r) then (m, (None, false))
    else
      let should_persist :=
        match last_used_ms r with
        | None => true
        | Some lu => Z.leb LAST_USED_PERSIST_INTERVAL_MS (Z.max 0 (now - lu))
        end in
      (if should_persist then <[hash_key raw := set_last_used now r]> m else m,
       (Some (kr_principal r), should_persist))
  end.

(** What the operator's commands make of the map. *)
Definition insert_key (raw principal : string) (now : Z) (expires : option Z) (m : KeyMap) : KeyMap :=
  <[hash_key raw := new_key (key_id_for (hash_key raw)) principal now expires]> m.
Definition revoke_in (id : string) (m : KeyMap) : KeyMap :=
  (λ r, if String.eqb (key_id r) id then set_revoked r else r) <$> m.
Definition expire_in (id : string) (deadline : Z) (m : KeyMap) : KeyMap :=
  (λ r, if String.eqb (key_id r) id then expire_by deadline r else r) <$> m.
Definition has_id (id : string) (kr : string * KeyRecord) : bool := String.eqb (key_id kr.2) id.
End keys.

(** The key store the server is given: the clock, then the raw key. *)
Class ApiKeyStore (K : Type) := { principal_for : Z → string → K → K * option string }.

Module InMemoryApiKeyStore.
Definition t : Type := gmap string KeyRecord.
Definition insert `{KeyHash} (now : Z) (raw principal : string) (s : t) : t :=
  insert_key raw principal now None s.
#[global] Instance api_key_store `{KeyHash} : ApiKeyStore t := {|
  principal_for now raw s := let '(s, (p, _)) := resolve_live_key now raw s in (s, p) |}.
End InMemoryApiKeyStore.

(** [serde_json] at the key file, in its current and its older form. *)
Class KeySerde := {
  keys_to_vec : gmap string KeyRecord → string + string;
  keys_from_slice : string → option (gmap string KeyRecord);
  old_keys_from_slice : string → option (gmap string string);
}.

(** The key file, with its modification time, and one process's cache of it.
    [tick] is the time the file system stamps on a write; the calls of the
    operating system succeed. *)
Record CachedKeys := { ck_mtime : Z; ck_map : gmap string KeyRecord }.
Record FileApiKeyStore := { kf : option (string * Z); cache : option CachedKeys }.

Module FileKeys.
Section file.
Context `{KeyHash, KeySerde}.

Definition load (now : Z) (s : FileApiKeyStore) : KeyMap :=
  match kf s with
  | None => ∅
  | Some (bytes, _) =>
    match keys_from_slice bytes with
    | Some m => m
    | None =>
      match old_keys_from_slice bytes with
      | Some old => map_imap (λ hash principal, Some (new_key (key_id_for hash) principal now None)) old
      | None => ∅
      end
    end
  end.

Definition load_cached (now : Z) (s : FileApiKeyStore) : FileApiKeyStore * KeyMap :=
  match kf s with
  | None => (s, load now s)
  | Some (_, mtime) =>
    let miss :=
      let m := load now s in
      ({| kf := kf s; cache := Some {| ck_mtime := mtime; ck_map := m |} |}, m) in
    match cache s with
    | Some c => if Z.eqb (ck_mtime c) mtime then (s, ck_map c) else miss
    | None => miss
    end
  end.

Definition save (tick : Z) (m : KeyMap) (s : FileApiKeyStore) : FileApiKeyStore * result () :=
  match keys_to_vec m with
  | inl e => (s, Err (Io e))
  | inr bytes =>
    ({| kf := Some (bytes, tick); cache := Some {| ck_mtime := tick; ck_map := m |} |}, Ok ())
  end.

(** A duration is in milliseconds. *)
Definition create_key (now tick : Z) (raw principal : string) (ttl : option Z) (s : FileApiKeyStore)
    : FileApiKeyStore * result string :=
  let m := insert_key raw principal now ((λ t, u64_wrapping_add now t) <$> ttl) (load now s) in
  match save tick m s with
  | (s, Ok _) => (s, Ok (key_id_for (hash_key raw)))
  | (s, Err e) => (s, Err e)
  end.

(** [sort_by_key] is stable. *)
Definition created_le (a b : KeyRecord) : Prop := created_at_ms a <= created_at_ms b.
#[global] Instance created_le_dec : RelDecision created_le.
Proof. intros a b. unfold created_le. apply _. Defined.
Definition list_keys (now : Z) (s : FileApiKeyStore) : list KeyRecord :=
  merge_sort created_le (map snd (btree_iter (load now s))).

Definition revoke (now tick : Z) (id : string) (s : FileApiKeyStore) : FileApiKeyStore * result bool :=
  let m := load now s in
  if existsb (has_id id) (btree_iter m) then
    match save tick (revoke_in id m) s with
    | (s, Ok _) => (s, Ok true)
    | (s, Err e) => (s, Err e)
    end
  else (s, Ok false).

Definition rotate (now tick : Z) (id : string) (grace : Z) (raw : string) (s : FileApiKeyStore)
    : FileApiKeyStore * result (option string) :=
  let m := load now s in
  match List.find (has_id id) (btree_iter m) with
  | None => (s, Ok None)
  | Some (_, r) =>
    let m := expire_in id (u64_wrapping_add now grace) m in
    let m := insert_key raw (kr_principal r) now None m in
    match save tick m s with
    | (s, Ok _) => (s, Ok (Some (key_id_for (hash_key raw))))
    | (s, Err e) => (s, Err e)
    end
  end.

Definition file_principal_for (now tick : Z) (raw : string) (s : FileApiKeyStore)
    : FileApiKeyStore * option string :=
  let '(s, m) := load_cached now s in
  let '(m, (p, changed)) := resolve_live_key now raw m in
  ((if changed then (save tick m s).1 else s), p).
Definition file_api_key_store (tick : Z) : ApiKeyStore FileApiKeyStore :=
  {| principal_for now raw s := file_principal_for now tick raw s |}.
End file.
End FileKeys.

(** ** The middleware *)

Section authenticate.
Context {K S : Type} `{ApiKeyStore K, HeaderValues, HttpJson, JwtLib}.

Definition authenticate (mode : AuthMode) (anonymous_allowed : bool) (env : JwtEnv) (now : Z)
    (next : Request → S → S * Response) (req : Request) (st : K * S) : (K * S) * Response :=
  let '(keys, s) := st in
  let run req keys := let '(s, r) := next req s in ((keys, s), r) in
  match mode with
  | DisabledLoopback =>
    if anonymous_allowed then run req keys
    else (st, unauthorized "no credential presented; set WOVYR_AUTH_MODE=jwt|apikey or WOVYR_ALLOW_ANONYMOUS=1 for local/dev use")
  | Jwt =>
    match bearer_token (headers req) with
    | None => (st, unauthorized "missing Authorization: Bearer credential")
    | Some token =>
      match verify_jwt_bearer env token with
      | inr principal => run (set_verified_principal principal req) keys
      | inl e => (st, unauthorized ("invalid bearer credential: " +:+ e))
      end
    end
  | ApiKey =>
    match bearer_token (headers req) with
    | None => (st, unauthorized "missing Authorization: Bearer credential")
    | Some token =>
      match principal_for now token keys with
      | (keys, Some principal) => run (set_verified_principal principal req) keys
      | (keys, None) => ((keys, s), unauthorized "unknown API key")
      end
    end
  end.
End authenticate.
