(* ===== verification/AuthInv.v ===== *)
(** * Who a request acts as is who it proved to be

    The middleware puts the verified principal in place of whatever the client
    sent; the key stores of any number of processes are one key map; and where
    neither holds. *)
From stdpp Require Import base tactics list numbers strings gmap sorting.
From Stdlib Require Import Lia ZArith Ascii.
From S2P Require Import Prelude.
From S2P Require Import RustStr.
From S2P Require Import Common.
From S2P Require Import JsonValue.
From S2P Require Import Http.
From S2P Require Import TenantRoutes.
From S2P Require Import Auth.
Local Open Scope Z_scope.

(** ** The middleware *)

(** The documented part of [HeaderValue::from_str]: visible ASCII is a value. *)
Class HeaderValuesLaws `{HeaderValues} := {
  visible_is_value s : str_all header_char s = true → is_header_value s = true;
}.

Section middleware.
Context {K S : Type} `{HK : ApiKeyStore K, HV : HeaderValues, HJ : HttpJson, HW : JwtLib}.

(** What a mode accepts a token for. *)
Definition verifies (mode : AuthMode) (env : JwtEnv) (now : Z) (keys : K) (token principal : string) : Prop :=
  match mode with
  | Jwt => verify_jwt_bearer env token = inr principal
  | ApiKey => (principal_for now token keys).2 = Some principal
  | DisabledLoopback => False
  end.

(** What the handlers read of the request once it carries a principal. *)
Lemma verified_header principal req :
  header (headers (set_verified_principal principal req)) "x-wovyr-principal"
    = if is_header_value principal && str_all header_char principal then Some principal else None.
Proof.
  unfold set_verified_principal, header. cbn [headers with_headers].
  destruct (is_header_value principal); cbn [andb].
  - rewrite lookup_insert_eq. done.
  - by rewrite lookup_delete_eq.
Qed.
Lemma verified_others principal req name : name ≠ "x-wovyr-principal" →
  headers (set_verified_principal principal req) !! name = headers req !! name.
Proof.
  intros Hn. unfold set_verified_principal. cbn [headers with_headers].
  destruct (is_header_value principal); [by rewrite lookup_insert_ne|by rewrite lookup_delete_ne].
Qed.

Lemma unauthorized_401 msg : status (unauthorized msg) = 401.
Proof. done. Qed.

(** The two ways a request goes through the middleware of a mode that
    verifies. *)
Lemma authenticate_cases mode anonymous env now (next : Request → S → S * Response) req keys s st' resp :
  mode ≠ DisabledLoopback →
  authenticate mode anonymous env now next req (keys, s) = (st', resp) →
  (status resp = 401 ∧ st'.2 = s ∧ (∀ token principal, bearer_token (headers req) = Some token →
     ¬ verifies mode env now keys token principal)) ∨
  ∃ token principal, bearer_token (headers req) = Some token ∧ verifies mode env now keys token principal ∧
    next (set_verified_principal principal req) s = (st'.2, resp).
Proof.
  intros Hm. unfold authenticate. destruct mode; [| |done]; destruct (bearer_token (headers req)) as [token|] eqn:Hb.
  - destruct (verify_jwt_bearer env token) as [e|p] eqn:Hv.
    + intros [= <- <-]. left. split_and!; [done..|]. intros t p [= <-]. cbn. by rewrite Hv.
    + destruct (next _ s) as [s' r] eqn:Hn. intros [= <- <-]. right. by exists token, p.
  - intros [= <- <-]. left. by split_and!.
  - cbn [verifies]. destruct (principal_for now token keys) as [keys' [p|]] eqn:Hv.
    + destruct (next _ s) as [s' r] eqn:Hn. intros [= <- <-]. right. exists token, p. by rewrite Hv.
    + intros [= <- <-]. left. split_and!; [done..|]. intros t p [= <-]. cbn. by rewrite Hv.
  - intros [= <- <-]. left. by split_and!.
Qed.
End middleware.

(** A verified principal with a character outside visible ASCII is not seen as
    one: the handlers fall back to the bearer token and act, and are audited,
    under the raw credential. *)
Lemma invisible_principals_become_their_token `{HeaderValues} p token req :
  bearer_token (headers req) = Some token → str_all header_char p = false →
  principal (headers (set_verified_principal p req)) = token.
Proof.
  intros Hb Hp. unfold principal. rewrite verified_header, Hp, andb_false_r.
  unfold bearer_token, header in *. rewrite verified_others by done. revert Hb.
  destruct (headers req !! "authorization") as [a|]; [|done]. cbn [mbind option_bind].
  destruct (str_all header_char a); [|done]. cbn [mbind option_bind].
  destruct (strip_prefix "Bearer " a) as [t|]; [|done]. cbn. destruct (is_empty t); [done|]. by intros [= ->].
Qed.

(** C13: in a mode that verifies credentials, a handler runs only for a bearer
    token that the mode accepts, and acts as the principal the token stands
    for when that principal is written in visible ASCII, whatever principal
    header the client sent: that header is replaced and the others are as they
    came.  A principal with any other character is not seen by the handlers,
    which then act as the raw token instead.  Everything else is answered 401
    and changes nothing behind the middleware. *)
Theorem handlers_act_as_the_verified_principal {K S} `{ApiKeyStore K, HeaderValuesLaws, HttpJson, JwtLib}
    mode anonymous env now (next : Request → S → S * Response) req keys s st' resp :
  mode ≠ DisabledLoopback →
  authenticate mode anonymous env now next req (keys, s) = (st', resp) →
  (status resp = 401 ∧ st'.2 = s ∧ (∀ token p, bearer_token (headers req) = Some token →
     ¬ verifies mode env now keys token p)) ∨
  ∃ token p req', bearer_token (headers req) = Some token ∧ verifies mode env now keys token p ∧
    next req' s = (st'.2, resp) ∧
    (∀ name, name ≠ "x-wovyr-principal" → headers req' !! name = headers req !! name) ∧
    principal (headers req') = if str_all header_char p then p else token.
Proof.
  intros Hm Ha. apply authenticate_cases in Ha as [?|(token & p & Hb & Hv & Hn)]; [by left| |done].
  right. exists token, p, (set_verified_principal p req). split_and!; try done.
  - intros name Hne. by apply verified_others.
  - destruct (str_all header_char p) eqn:Hvis; [|by apply invisible_principals_become_their_token].
    unfold principal. by rewrite verified_header, visible_is_value, Hvis by done.
Qed.

(** ** One key map *)

Section keys.
Context `{KH : KeyHash, KS : KeySerde}.

(** The operator's commands and the server's lookups, each a call of one
    process at a clock, with the time the file system stamps on a write. *)
Inductive key_op :=
  | CreateKey (raw principal : string) (ttl : option Z)
  | RevokeKey (id : string)
  | RotateKey (id : string) (grace : Z) (raw : string)
  | PresentKey (raw : string).
Record key_call := { kc_process : nat; kc_now : Z; kc_tick : Z; kc_op : key_op }.

Inductive key_answer :=
  | ACreated (r : result string)
  | ARevoked (r : result bool)
  | ARotated (r : result (option string))
  | APrincipal (p : option string).

(** The file that the processes share, and each one's cache. *)
Record key_world := { shared_file : option (string * Z); caches : gmap nat CachedKeys }.

Definition store_step (c : key_call) (s : FileApiKeyStore) : FileApiKeyStore * key_answer :=
  let now := kc_now c in
  let tick := kc_tick c in
  match kc_op c with
  | CreateKey raw p ttl => prod_map id ACreated (FileKeys.create_key now tick raw p ttl s)
  | RevokeKey id' => prod_map id ARevoked (FileKeys.revoke now tick id' s)
  | RotateKey id' grace raw => prod_map id ARotated (FileKeys.rotate now tick id' grace raw s)
  | PresentKey raw => prod_map id APrincipal (FileKeys.file_principal_for now tick raw s)
  end.
Definition world_step (c : key_call) (w : key_world) : key_world * key_answer :=
  let '(s, a) := store_step c {| kf := shared_file w; cache := caches w !! kc_process c |} in
  ({| shared_file := kf s; caches := partial_alter (λ _, cache s) (kc_process c) (caches w) |}, a).
Fixpoint world_answers (cs : list key_call) (w : key_world) : list key_answer :=
  match cs with
  | [] => []
  | c :: cs => let '(w, a) := world_step c w in a :: world_answers cs w
  end.

(** The same call on a key map in memory. *)
Definition map_step (c : key_call) (m : KeyMap) : KeyMap * key_answer :=
  let now := kc_now c in
  match kc_op c with
  | CreateKey raw p ttl =>
    (insert_key raw p now ((λ t, u64_wrapping_add now t) <$> ttl) m, ACreated (Ok (key_id_for (hash_key raw))))
  | RevokeKey id =>
    if existsb (has_id id) (btree_iter m) then (revoke_in id m, ARevoked (Ok true)) else (m, ARevoked (Ok false))
  | RotateKey id grace raw =>
    match List.find (has_id id) (btree_iter m) with
    | None => (m, ARotated (Ok None))
    | Some (_, r) =>
      (insert_key raw (kr_principal r) now None (expire_in id (u64_wrapping_add now grace) m),
       ARotated (Ok (Some (key_id_for (hash_key raw)))))
    end
  | PresentKey raw => let '(m, (p, _)) := resolve_live_key now raw m in (m, APrincipal p)
  end.
Fixpoint map_answers (cs : list key_call) (m : KeyMap) : list key_answer :=
  match cs with
  | [] => []
  | c :: cs => let '(m, a) := map_step c m in a :: map_answers cs m
  end.
(** The maps a sequence of calls goes through. *)
Fixpoint maps_after (cs : list key_call) (m : KeyMap) : list KeyMap :=
  match cs with
  | [] => []
  | c :: cs => let m := (map_step c m).1 in m :: maps_after cs m
  end.

(** The JSON library keeps a map. *)
Definition keys_kept (m : KeyMap) : Prop := ∃ bytes, keys_to_vec m = inr bytes ∧ keys_from_slice bytes = Some m.

(** The file holds a map, stamped no later than [t], and no cache with its
    stamp holds another. *)
Definition coherent (m : KeyMap) (t : Z) (w : key_world) : Prop :=
  match shared_file w with
  | None => m = ∅
  | Some (bytes, mtime) =>
    keys_from_slice bytes = Some m ∧ mtime <= t ∧
    ∀ p c, caches w !! p = Some c → ck_mtime c = mtime → ck_map c = m
  end ∧ ∀ p c, caches w !! p = Some c → ck_mtime c <= t.

(** Every write gets a later stamp than what was there. *)
Fixpoint ticking (t : Z) (cs : list key_call) : Prop :=
  match cs with [] => True | c :: cs => t < kc_tick c ∧ ticking (kc_tick c) cs end.

(** A process's store that reads as a map. *)
Definition reads_as (m : KeyMap) (t : Z) (s : FileApiKeyStore) : Prop :=
  match kf s with
  | None => m = ∅
  | Some (bytes, mtime) =>
    keys_from_slice bytes = Some m ∧ mtime <= t ∧
    ∀ c, cache s = Some c → ck_mtime c = mtime → ck_map c = m
  end ∧ ∀ c, cache s = Some c → ck_mtime c <= t.

Lemma load_reads now m t s : reads_as m t s → FileKeys.load now s = m.
Proof. intros [Hf _]. unfold FileKeys.load. destruct (kf s) as [[b mt]|]; [|done]. by destruct Hf as [-> _]. Qed.
Lemma load_cached_reads now m t s : reads_as m t s →
  ∃ s', FileKeys.load_cached now s = (s', m) ∧ kf s' = kf s ∧ reads_as m t s'.
Proof.
  intros Hr. pose proof (load_reads now m t s Hr) as Hl. destruct Hr as [Hf Hc]. unfold FileKeys.load_cached.
  destruct (kf s) as [[b mt]|] eqn:Hk.
  - rewrite Hl. destruct Hf as (Hb & Hmt & Hcm).
    assert (reads_as m t {| kf := Some (b, mt); cache := Some {| ck_mtime := mt; ck_map := m |} |}) as Hmiss.
    { split; cbn; [split_and!; try done; by intros ? [= <-]|by intros ? [= <-]]. }
    destruct (cache s) as [c|] eqn:Ec; [|by eexists].
    destruct (Z.eqb_spec (ck_mtime c) mt) as [Heq|]; [|by eexists].
    exists s. rewrite (Hcm c eq_refl Heq). split_and!; [done..|]. unfold reads_as. rewrite Hk, Ec.
    split; [split_and!; try done|done]. 
  - exists s. rewrite Hl. split_and!; [done..|]. unfold reads_as. by rewrite Hk.
Qed.
Lemma save_reads tick t m m' s : reads_as m t s → t < tick → keys_kept m' →
  ∃ s', FileKeys.save tick m' s = (s', Ok ()) ∧ reads_as m' tick s' ∧
    ∃ bytes, kf s' = Some (bytes, tick) ∧ cache s' = Some {| ck_mtime := tick; ck_map := m' |}.
Proof.
  intros _ Ht (bytes & Hw & Hr). unfold FileKeys.save. rewrite Hw. eexists. split; [done|]. split.
  - split; cbn; [split_and!; try done; by intros ? [= <-]|by intros ? [= <-]].
  - by exists bytes.
Qed.

(** One call of a process whose store reads as a map: the map's answer and the
    map's next state; the file was written with the call's stamp or not at
    all. *)
Lemma store_step_map c m t s : reads_as m t s → t < kc_tick c → keys_kept (map_step c m).1 →
  let '(s', a) := store_step c s in
  a = (map_step c m).2 ∧ reads_as (map_step c m).1 (kc_tick c) s' ∧
  ((map_step c m).1 = m ∧ kf s' = kf s ∨ ∃ bytes, kf s' = Some (bytes, kc_tick c)).
Proof.
  intros Hr Ht Hk. pose proof (load_reads (kc_now c) m t s Hr) as Hl.
  assert (∀ s', reads_as m t s' → reads_as m (kc_tick c) s') as Hweak.
  { intros s' [Hf Hc]. unfold reads_as. destruct (kf s') as [[b mt]|]; split.
    - destruct Hf as (? & ? & ?). split_and!; [done|lia|done].
    - intros k Hk'. specialize (Hc k Hk'). lia.
    - done.
    - intros k Hk'. specialize (Hc k Hk'). lia. }
  unfold store_step, map_step in *. destruct (kc_op c) as [raw p ttl|i|i grace raw|raw].
  - unfold FileKeys.create_key. rewrite Hl. cbn [fst] in Hk.
    destruct (save_reads (kc_tick c) t m _ s Hr Ht Hk) as (s' & -> & Hr' & b & Hb & _). cbn. by eauto 6.
  - unfold FileKeys.revoke. rewrite Hl. destruct (existsb (has_id i) (btree_iter m)); cbn [fst] in Hk.
    + destruct (save_reads (kc_tick c) t m _ s Hr Ht Hk) as (s' & -> & Hr' & b & Hb & _). cbn. by eauto 6.
    + cbn. split_and!; [done|by apply Hweak|by left].
  - unfold FileKeys.rotate. rewrite Hl. destruct (List.find (has_id i) (btree_iter m)) as [[h r]|]; cbn [fst] in Hk.
    + destruct (save_reads (kc_tick c) t m _ s Hr Ht Hk) as (s' & -> & Hr' & b & Hb & _). cbn. by eauto 6.
    + cbn. split_and!; [done|by apply Hweak|by left].
  - unfold FileKeys.file_principal_for.
    destruct (load_cached_reads (kc_now c) m t s Hr) as (s1 & -> & Hf1 & Hr1).
    destruct (resolve_live_key (kc_now c) raw m) as [m' [p changed]] eqn:E; cbn [fst] in Hk.
    destruct changed.
    + destruct (save_reads (kc_tick c) t m _ s1 Hr1 Ht Hk) as (s' & -> & Hr' & b & Hb & _). cbn. by eauto 6.
    + assert (m' = m) as ->.
      { revert E. unfold resolve_live_key. repeat case_match; intros; by simplify_eq. }
      cbn. split_and!; [done|by apply Hweak|]. by left.
Qed.

Lemma world_step_map c m t w : coherent m t w → t < kc_tick c → keys_kept (map_step c m).1 →
  let '(w', a) := world_step c w in
  a = (map_step c m).2 ∧ coherent (map_step c m).1 (kc_tick c) w'.
Proof.
  intros [Hf Hc] Ht Hk. unfold world_step.
  set (s := {| kf := shared_file w; cache := caches w !! kc_process c |}).
  assert (reads_as m t s) as Hr.
  { split; cbn; [|by intros k; apply Hc]. destruct (shared_file w) as [[b mt]|]; [|done].
    destruct Hf as (? & ? & Hcm). split_and!; [done..|]. intros k. by apply Hcm. }
  pose proof (store_step_map c m t s Hr Ht Hk) as Hs. destruct (store_step c s) as [s' a].
  destruct Hs as (-> & [Hf' Hc'] & Hw). split; [done|].
  assert (∀ p k, partial_alter (λ _, cache s') (kc_process c) (caches w) !! p = Some k →
    cache s' = Some k ∨ caches w !! p = Some k) as Hcases.
  { intros p k. destruct (decide (p = kc_process c)) as [->|Hp].
    - rewrite lookup_partial_alter_eq. by left.
    - rewrite lookup_partial_alter_ne by done. by right. }
  split; cbn [shared_file caches].
  - destruct (kf s') as [[b mt]|] eqn:Ekf; [|done]. destruct Hf' as (Hb & Hmt & Hcm). split_and!; [done..|].
    intros p k [Hk1|Hk1]%Hcases Hst; [by apply Hcm|].
    destruct Hw as [[Hm Hkf]|[bytes Hkf]].
    + rewrite Hm. unfold s in Hkf. cbn in Hkf. rewrite <-Hkf in Hf. destruct Hf as (_ & _ & Hf). by eapply Hf.
    + injection Hkf as -> ->. specialize (Hc p k Hk1). lia.
  - intros p k [Hk1|Hk1]%Hcases; [by apply Hc'|]. specialize (Hc p k Hk1). lia.
Qed.

Lemma world_answers_map cs m t w : coherent m t w → ticking t cs → Forall keys_kept (maps_after cs m) →
  world_answers cs w = map_answers cs m.
Proof.
  revert m t w. induction cs as [|c cs IH]; intros m t w Hw Ht Hk; [done|].
  destruct Ht as [Ht Hts]. cbn [maps_after] in Hk. inversion_clear Hk as [|?? Hk1 Hks].
  cbn [world_answers map_answers]. pose proof (world_step_map c m t w Hw Ht Hk1) as Hs.
  destruct (world_step c w) as [w' a], (map_step c m) as [m' a']. cbn [fst snd] in *.
  destruct Hs as [-> Hw']. f_equal. by eapply IH.
Qed.

(** ** Retired keys *)

(** A hash whose key, if any, is revoked or expired by a time. *)
Definition barred (b : Z) (h : string) (m : KeyMap) : Prop :=
  ∀ r, m !! h = Some r → revoked r = true ∨ ∃ e, expires_at_ms r = Some e ∧ e <= b.

Definition mints (h : string) (c : key_call) : Prop :=
  match kc_op c with
  | CreateKey raw _ _ | RotateKey _ _ raw => hash_key raw = h
  | _ => False
  end.

Lemma barred_fmap b h f (m : KeyMap) :
  (∀ r, revoked r = true → revoked (f r) = true) →
  (∀ r e, expires_at_ms r = Some e → ∃ e', expires_at_ms (f r) = Some e' ∧ e' <= e) →
  barred b h m → barred b h (f <$> m).
Proof.
  intros Hrev Hexp Hb r. rewrite lookup_fmap. destruct (m !! h) as [r0|] eqn:E; [|done].
  intros [= <-]. destruct (Hb r0 E) as [Hr|(e & He & Hle)]; [left; by apply Hrev|].
  destruct (Hexp r0 e He) as (e' & He' & ?). right. exists e'. split; [done|lia].
Qed.
Lemma barred_insert_ne b h raw p now e (m : KeyMap) :
  hash_key raw ≠ h → barred b h m → barred b h (insert_key raw p now e m).
Proof. intros Hn Hb r. unfold insert_key. rewrite lookup_insert_ne by done. apply Hb. Qed.

Lemma barred_step b h c (m : KeyMap) : ¬ mints h c → barred b h m → barred b h (map_step c m).1.
Proof.
  intros Hm Hb. unfold map_step, mints in *. destruct (kc_op c) as [raw p ttl|i|i grace raw|raw].
  - by apply barred_insert_ne.
  - destruct (existsb _ _); [|done]. apply barred_fmap; [..|done]; intros r; case_match; try done; eauto.
    intros e He. cbn. exists e. split; [done|lia]. intros e He. exists e. split; [done|lia].
  - destruct (List.find _ _) as [[h' r']|]; [|done]. apply barred_insert_ne; [done|].
    apply barred_fmap; [..|done]; intros r; case_match; try done; eauto.
    + intros e He. cbn. rewrite He. eexists. split; [done|lia].
    + intros e He. exists e. split; [done|lia].
  - unfold resolve_live_key. destruct (m !! hash_key raw) as [r|] eqn:E; [|done].
    destruct (negb _); [done|]. case_match; [|done]. cbn. intros r'.
    destruct (decide (hash_key raw = h)) as [<-|]; [|rewrite lookup_insert_ne by done; apply Hb].
    rewrite lookup_insert_eq. intros [= <-]. by apply Hb in E.
Qed.
Lemma barred_steps b h cs (m : KeyMap) : Forall (λ c, ¬ mints h c) cs → barred b h m →
  barred b h (foldl (λ m c, (map_step c m).1) m cs).
Proof.
  revert m. induction cs as [|c cs IH]; intros m Hm Hb; [done|]. inversion_clear Hm.
  cbn. apply IH; [done|]. by apply barred_step.
Qed.
Lemma barred_refused b h now raw (m : KeyMap) : barred b h m → hash_key raw = h → b <= now →
  (resolve_live_key now raw m).2.1 = None.
Proof.
  intros Hb Hh Hn. unfold resolve_live_key. rewrite Hh. destruct (m !! h) as [r|] eqn:E; [|done].
  unfold is_live. destruct (Hb r E) as [->|(e & -> & He)]; [done|].
  destruct (Z.ltb_spec now e); [lia|]. by rewrite andb_false_r.
Qed.

Lemma map_answers_app cs cs' m :
  map_answers (cs ++ cs') m = map_answers cs m ++ map_answers cs' (foldl (λ m c, (map_step c m).1) m cs).
Proof.
  revert m. induction cs as [|c cs IH]; intros m; [done|]. cbn. destruct (map_step c m) as [m' a] eqn:E.
  cbn [app]. by rewrite IH.
Qed.
End keys.

(** The key stores of any number of processes are one key map.  From a file
    that holds a map and empty caches, any interleaving of creations,
    revocations, rotations and lookups by any processes, each a whole and each
    write stamped later than what was there, is answered exactly as by the map
    in memory, errors and unknown keys included, as long as the JSON library
    keeps the maps gone through: no cache ever shows. *)
Theorem key_caches_do_not_show `{KeyHash, KeySerde} cs m t bytes :
  keys_from_slice bytes = Some m → ticking t cs → Forall keys_kept (maps_after cs m) →
  world_answers cs {| shared_file := Some (bytes, t); caches := ∅ |} = map_answers cs m.
Proof.
  intros Hb Ht Hk. eapply world_answers_map; [|done..].
  split; cbn; [split_and!; try done; lia || (intros p c; by rewrite lookup_empty)|intros p c; by rewrite lookup_empty].
Qed.

(** A retired key stays out.  Once an operator, in whatever process, has
    revoked a key, or rotated it and the grace time is over, every process
    refuses the key at every later call, whatever was created, rotated, revoked
    and looked up in between, unless a new key was minted with its very
    hash. *)
Theorem retired_keys_stay_out `{KeyHash, KeySerde} m t bytes retire cs present raw r :
  keys_from_slice bytes = Some m → ticking t (retire :: cs ++ [present]) →
  Forall keys_kept (maps_after (retire :: cs ++ [present]) m) →
  m !! hash_key raw = Some r →
  (kc_op retire = RevokeKey (key_id r) ∨
   ∃ grace raw', kc_op retire = RotateKey (key_id r) grace raw' ∧ hash_key raw' ≠ hash_key raw ∧
     u64_wrapping_add (kc_now retire) grace <= kc_now present) →
  Forall (λ c, ¬ mints (hash_key raw) c) cs → kc_op present = PresentKey raw →
  last (world_answers (retire :: cs ++ [present]) {| shared_file := Some (bytes, t); caches := ∅ |})
    = Some (APrincipal None).
Proof.
  intros Hb Ht Hk Hr Hop Hm Hp.
  erewrite (world_answers_map _ m t); [|split; cbn; [split_and!; try done; lia || (intros p c; by rewrite lookup_empty)|intros p c; by rewrite lookup_empty]|done..].
  set (b := kc_now present).
  assert (barred b (hash_key raw) (map_step retire m).1) as Hbar.
  { assert (hash_key raw ∈ dom m) as _ by by apply elem_of_dom_2 in Hr.
    assert ((hash_key raw, r) ∈ btree_iter m) as Hin by by apply btree_iter_elem.
    unfold map_step. destruct Hop as [->|(grace & raw' & -> & Hne & Hle)].
    - assert (existsb (has_id (key_id r)) (btree_iter m) = true) as ->.
      { apply existsb_exists. exists (hash_key raw, r). split; [by apply list_elem_of_In|apply String.eqb_refl]. }
      intros r'. cbn. unfold revoke_in. rewrite lookup_fmap, Hr. cbn. rewrite String.eqb_refl. intros [= <-]. by left.
    - destruct (List.find (has_id (key_id r)) (btree_iter m)) as [[h0 r0]|] eqn:Ef.
      + apply barred_insert_ne; [done|]. intros r'. unfold expire_in. rewrite lookup_fmap, Hr. cbn.
        rewrite String.eqb_refl. intros [= <-]. right. eexists. split; [done|]. unfold b. cbn. case_match; lia.
      + exfalso. apply list_elem_of_In in Hin. apply (List.find_none _ _ Ef) in Hin.
        unfold has_id in Hin. by rewrite String.eqb_refl in Hin. }
  cbn [map_answers]. destruct (map_step retire m) as [m1 a]. cbn [fst] in Hbar.
  rewrite map_answers_app, last_cons, last_app. cbn [map_answers].
  pose proof (barred_steps b (hash_key raw) cs m1 Hm Hbar) as Hend.
  unfold map_step at 1. rewrite Hp.
  pose proof (barred_refused b (hash_key raw) (kc_now present) raw _ Hend eq_refl ltac:(done)) as Hnone.
  destruct (resolve_live_key _ raw _) as [m2 [p ch]]. cbn in Hnone. by subst p.
Qed.

(** ** Examples *)

#[export] Instance KeyRecord_eq_dec : EqDecision KeyRecord.
Proof. solve_decision. Defined.

Definition http_json_stub : HttpJson := {| value_to_vec _ := "{}"; value_from_slice _ := None |}.
(** Header values by the documentation: visible ASCII. *)
Definition header_values_example : HeaderValues := {| is_header_value := str_all header_char |}.
#[local] Existing Instance http_json_stub.
#[local] Existing Instance header_values_example.
#[local] Instance header_values_example_laws : HeaderValuesLaws.
Proof. by split. Qed.
(** A library that accepts tokens of the form [sub:...]. *)
#[local] Instance jwt_example : JwtLib := {|
  rsa_pem _ := inr (); jwt_decode token _ _ := match strip_prefix "sub:" token with
                                               | Some p => inr p | None => inl "InvalidToken" end |}.
#[local] Instance hash_example : KeyHash := {| sha256_hex s := s |}.

Definition spoofing : Request := {|
  method := "GET"; path := "/"; request_body := "";
  headers := <["authorization" := "Bearer sub:ada"]> {["x-wovyr-principal" := "root"]} |}.
(** A handler that answers with the principal it resolves. *)
Definition who (req : Request) (n : Z) : Z * Response :=
  (n + 1, {| status := 200; response_headers := ∅; body := principal (headers req) |}).
Definition hs_env : JwtEnv := {|
  hs_secret := Some "s"; rs_public_key := None; jwt_issuer := None; jwt_audience := None |}.

Lemma handlers_act_as_the_verified_principal_witness :
  let keys : InMemoryApiKeyStore.t := ∅ in
  let '(st', resp) := authenticate Jwt false hs_env 0 who spoofing (keys, 0) in
  principal (headers spoofing) = "root" ∧ st'.2 = 1 ∧ body resp = "ada".
Proof.
  intros keys. destruct (authenticate Jwt false hs_env 0 who spoofing (keys, 0)) as [st' resp] eqn:E.
  assert (bearer_token (headers spoofing) = Some "sub:ada") as Hb by (vm_compute; reflexivity).
  assert (verify_jwt_bearer hs_env "sub:ada" = inr "ada") as Hok by (vm_compute; reflexivity).
  destruct (handlers_act_as_the_verified_principal Jwt false hs_env 0 who spoofing keys 0 st' resp)
    as [(_ & _ & Hn)|(token & p & req' & Ht & Hv & Hnext & _ & Hp)]; [done|exact E| |].
  - exfalso. exact (Hn "sub:ada" "ada" Hb Hok).
  - rewrite Hb in Ht. injection Ht as <-. cbn [verifies] in Hv. rewrite Hok in Hv. injection Hv as <-.
    unfold who in Hnext. rewrite Hp in Hnext.
    injection Hnext as <- <-. split_and!; [vm_compute; reflexivity|done|done].
Defined.

(** [json] that knows the key maps of a table. *)
Definition table_keys (l : list (gmap string KeyRecord)) : KeySerde := {|
  keys_to_vec := table_write l;
  keys_from_slice s := match table_read l s with inr m => Some m | inl _ => None end;
  old_keys_from_slice _ := None |}.
Lemma table_keys_kept l m : m ∈ l → keys_kept (KS := table_keys l) m.
Proof.
  intros Hm. destruct (table_write_elem l m Hm) as (bytes & Hw & Hr). exists bytes. split; [done|]. cbn.
  by rewrite Hr.
Qed.

(** The server is process 0, the operator's command line process 1. *)
Definition by_server (now tick : Z) (op : key_op) : key_call :=
  {| kc_process := 0; kc_now := now; kc_tick := tick; kc_op := op |}.
Definition by_operator (now tick : Z) (op : key_op) : key_call :=
  {| kc_process := 1; kc_now := now; kc_tick := tick; kc_op := op |}.
Definition minted : gmap string KeyRecord := insert_key "rawkey" "ada" 5 None ∅.
Definition key_session : list key_call :=
  [by_server 10 2 (PresentKey "rawkey"); by_server 20 3 (PresentKey "rawkey");
   by_operator 30 4 (RotateKey "key_rawkey" 1000 "newkey"); by_server 40 5 (PresentKey "rawkey");
   by_server 50 6 (PresentKey "newkey"); by_operator 60 7 (RevokeKey "key_newkey");
   by_server 70 8 (PresentKey "newkey"); by_server 1030 9 (PresentKey "rawkey")].
Definition session_keys : KeySerde := table_keys (minted :: maps_after key_session minted).

Lemma session_keys_kept cs m : maps_after cs m ⊆ minted :: maps_after key_session minted →
  Forall (keys_kept (KS := session_keys)) (maps_after cs m).
Proof. intros Hin. apply Forall_forall. intros m' Hm'. apply table_keys_kept. by apply Hin. Qed.

Lemma key_caches_do_not_show_witness :
  let serde := session_keys in
  (keys_from_slice "0" = Some minted ∧ ticking 1 key_session ∧ Forall keys_kept (maps_after key_session minted)) ∧
  world_answers key_session {| shared_file := Some ("0", 1); caches := ∅ |}
    = [APrincipal (Some "ada"); APrincipal (Some "ada"); ARotated (Ok (Some "key_newkey")); APrincipal (Some "ada");
       APrincipal (Some "ada"); ARevoked (Ok true); APrincipal None; APrincipal None].
Proof.
  intros serde.
  assert (keys_from_slice "0" = Some minted) as Hb by (vm_compute; reflexivity).
  assert (ticking 1 key_session) as Ht by (vm_compute; by repeat split).
  assert (Forall keys_kept (maps_after key_session minted)) as Hk.
  { apply session_keys_kept. intros m' Hm'. by apply elem_of_cons; right. }
  split; [by split_and!|].
  etransitivity; [exact (key_caches_do_not_show key_session minted 1 "0" Hb Ht Hk)|]. vm_compute. reflexivity.
Defined.

Lemma retired_keys_stay_out_witness :
  let retire := by_operator 30 4 (RotateKey "key_rawkey" 1000 "newkey") in
  let present := by_server 1030 9 (PresentKey "rawkey") in
  let cs := [by_server 40 5 (PresentKey "rawkey")] in
  let serde := table_keys (minted :: maps_after (retire :: cs ++ [present]) minted) in
  last (world_answers (retire :: cs ++ [present]) {| shared_file := Some ("0", 1); caches := ∅ |})
    = Some (APrincipal None).
Proof.
  intros retire present cs serde.
  apply (retired_keys_stay_out minted 1 "0" retire cs present "rawkey" (new_key "key_rawkey" "ada" 5 None)).
  - vm_compute. reflexivity.
  - vm_compute. by repeat split.
  - apply Forall_forall. intros m' Hm'. apply table_keys_kept. by apply elem_of_cons; right.
  - vm_compute. reflexivity.
  - right. exists 1000, "newkey". split_and!; [reflexivity|by vm_compute|by vm_compute].
  - repeat constructor. by vm_compute.
  - reflexivity.
Defined.

(** A lookup reads the map and may write it back, to note when the key was
    used.  An operator's revocation in between is undone by that write, for
    every process. *)
Lemma lookup_undoes_revocation :
  let used : gmap string KeyRecord := set_last_used 12 <$> minted in
  let serde := table_keys [minted; used; revoke_in "key_rawkey" minted] in
  let server := {| kf := Some ("0", 1); cache := None |} in
  let '(server, m) := FileKeys.load_cached 10 server in
  let '(operator, revoked) := FileKeys.revoke 11 2 "key_rawkey" {| kf := kf server; cache := None |} in
  let '(m, (p, changed)) := resolve_live_key 12 "rawkey" m in
  let server := (FileKeys.save 3 m {| kf := kf operator; cache := cache server |}).1 in
  revoked = Ok true ∧ (FileKeys.file_principal_for 13 4 "rawkey" operator).2 = None ∧
  (FileKeys.file_principal_for 13 4 "rawkey" {| kf := kf server; cache := None |}).2 = Some "ada".
Proof. vm_compute. by repeat split. Qed.

(** A write with the stamp of the one before it does not show: a key revoked
    within one tick of the file system's clock is accepted by the processes
    that had read the file. *)
Lemma same_stamp_hides_revocation :
  let serde := table_keys [set_last_used 10 <$> minted; revoke_in "key_rawkey" (set_last_used 10 <$> minted)] in
  let '(server, first) := FileKeys.file_principal_for 10 1 "rawkey" {| kf := Some ("0", 1); cache := None |} in
  let '(operator, revoked) := FileKeys.revoke 11 1 "key_rawkey" {| kf := kf server; cache := None |} in
  first = Some "ada" ∧ revoked = Ok true ∧
  (FileKeys.file_principal_for 12 2 "rawkey" {| kf := kf operator; cache := cache server |}).2 = Some "ada".
Proof. vm_compute. by repeat split. Qed.
