(* ===== verification/Kms.v ===== *)
(** * Keys and secrets

    [crates/wovyr-kms/src] and [crates/wovyr-secrets/src]: the root key that
    wraps versioned tenant keys that wrap data keys, the envelope of one sealed
    payload, the secret references, the vault, and the stores of both, with the
    encrypting stores of secrets and (from [crates/wovyr-events/src]) of
    webhooks.  The cipher, the random source and the JSON text are the
    libraries'; a file is its contents, and the calls of the operating system
    succeed; what is under a lock is one step. *)
From stdpp Require Import base tactics list numbers strings gmap sorting.
From Stdlib Require Import Lia ZArith Ascii.
From S2P Require Import Prelude.
From S2P Require Import RustStr.
From S2P Require Import Common.
From S2P Require Import Effect.
From S2P Require Import Events.
Local Open Scope Z_scope.

(** ** [crypto.rs] *)

(** Keys, nonces and ciphertexts are byte strings. *)
Abbreviation KeyBytes := string (only parsing).
Definition KEY_LEN : nat := 32.
Definition NONCE_LEN : nat := 12.

(** AES-256-GCM of the [ring] library: sealing refuses an over-long plaintext,
    opening anything it did not seal under the same key and nonce. *)
Class Aead := {
  aead_seal : string → string → string → option string;
  aead_open : string → string → string → option string;
}.
(** The system's random source fills a buffer or fails. *)
Class Random (W : Type) := { fill : nat → W → W * option string }.

Record Sealed := { nonce : string; ciphertext : string }.

Section crypto.
Context {W : Type} `{Aead, Random W}.

Definition random_bytes (n : nat) : M W string := λ w,
  match fill n w with
  | (w, Some bytes) => (w, Ret bytes)
  | (w, None) => (w, Stop (Throw (Runtime "failed to generate random bytes")))
  end.
Definition generate_key : M W KeyBytes := random_bytes KEY_LEN.

Definition crypto_seal (key : KeyBytes) (plaintext : string) : M W Sealed :=
  nonce_bytes ← random_bytes NONCE_LEN;
  match aead_seal key nonce_bytes plaintext with
  | None => throw (Runtime "AEAD seal failed")
  | Some c => mret {| nonce := nonce_bytes; ciphertext := c |}
  end.
Definition crypto_open (key : KeyBytes) (sealed : Sealed) : result string :=
  if negb (Nat.eqb (String.length (nonce sealed)) NONCE_LEN) then Err (invalid "malformed nonce")
  else
    match aead_open key (nonce sealed) (ciphertext sealed) with
    | None => Err (invalid "decryption failed (tampered ciphertext or wrong key)")
    | Some p => Ok p
    end.
End crypto.

(** ** [model.rs] *)

Record TenantKeyVersion := { tkv_version : Z; tkv_wrapped : Sealed }.
Record TenantKeyRecord := { tk_tenant : string; versions : list TenantKeyVersion; destroyed : bool }.
Record WrappedDataKey := { tenant_key_version : Z; dk_wrapped : Sealed }.
Record DataKey := { dk_plaintext : KeyBytes; dk_key : WrappedDataKey }.

Definition current_version (r : TenantKeyRecord) : option TenantKeyVersion := last (versions r).
Definition version_of (v : Z) (r : TenantKeyRecord) : option TenantKeyVersion :=
  List.find (λ tv, Z.eqb (tkv_version tv) v) (versions r).

(** ** [store.rs] *)

Abbreviation KmsCatalog := (gmap string TenantKeyRecord) (only parsing).
Class KmsStore (S : Type) := {
  kms_get : string → S → result (option TenantKeyRecord);
  kms_put : TenantKeyRecord → S → S * result ();
}.

Module InMemoryKmsStore.
Definition t : Type := KmsCatalog.
Definition new : t := ∅.
#[global] Instance kms_store : KmsStore t := {
  kms_get tenant m := Ok (m !! tenant);
  kms_put r m := (<[tk_tenant r := r]> m, Ok ());
}.
End InMemoryKmsStore.

(** [serde_json] at [kms.json]: the list of the catalog's values. *)
Class KmsSerde := {
  kms_to_vec : list TenantKeyRecord → string + string;
  kms_from_slice : string → string + list TenantKeyRecord;
}.

Module FileKmsStore.
Section file.
Context `{KmsSerde}.
Definition t : Type := option string.
Definition load (file : t) : result KmsCatalog :=
  match file with
  | None => Ok ∅
  | Some bytes =>
    match kms_from_slice bytes with
    | inr l => Ok (foldl (λ m r, <[tk_tenant r := r]> m) ∅ l)
    | inl e => Err (config ("parse kms.json: " +:+ e))
    end
  end.
Definition persist (m : KmsCatalog) (file : t) : t * result () :=
  match kms_to_vec (map snd (btree_iter m)) with
  | inr bytes => (Some bytes, Ok ())
  | inl e => (file, Err (config ("encode kms.json: " +:+ e)))
  end.
#[global] Instance kms_store : KmsStore t := {
  kms_get tenant file := (λ m : KmsCatalog, m !! tenant) <$> load file;
  kms_put r file :=
    match load file with
    | Err e => (file, Err e)
    | Ok m => persist (<[tk_tenant r := r]> m) file
    end;
}.
End file.
End FileKmsStore.

(** ** [root.rs] *)

(** The [hex] library. *)
Class HexCrate := { hex_text : string → string; hex_bytes_of : string → string + string }.

Section root.
Context `{HexCrate}.
Definition decode_hex_key (hex_str source : string) : result KeyBytes :=
  match hex_bytes_of hex_str with
  | inl e => Err (config (source +:+ " is not valid hex: " +:+ e))
  | inr bytes =>
    if Nat.eqb (String.length bytes) KEY_LEN then Ok bytes
    else Err (config (source +:+ " must decode to exactly 32 bytes"))
  end.
(** [from_env], given the value of the variable. *)
Definition root_from_env (var : string) (value : option string) : result KeyBytes :=
  match value with
  | None => Err (config (var +:+ " is not set"))
  | Some hex_str => decode_hex_key hex_str var
  end.
(** [from_file], on the file and the random source. *)
Definition root_from_file {R} `{Random R} : M (option string * R) KeyBytes := λ w,
  match w.1 with
  | Some hex_str => (w, of_result (decode_hex_key (trim hex_str) "root key file"))
  | None =>
    match generate_key w.2 with
    | (r, Ret key) => ((Some (hex_text key), r), Ret key)
    | (r, Stop s) => ((None, r), Stop s)
    end
  end.
End root.

(** ** [kms.rs] *)

(** The port. *)
Class Kms (W : Type) := {
  generate_data_key : string → M W DataKey;
  unwrap_data_key : string → WrappedDataKey → M W KeyBytes;
  rewrap_data_key : string → WrappedDataKey → M W WrappedDataKey;
  rotate_tenant_key : string → M W Z;
  destroy_tenant_key : string → M W ();
}.

Definition destroyed_error (tenant : string) : Error :=
  forbidden ("tenant key `" +:+ tenant +:+ "` was crypto-shredded and cannot be used again").
Definition to_key_bytes (bytes : string) : result KeyBytes :=
  if Nat.eqb (String.length bytes) KEY_LEN then Ok bytes
  else Err (invalid "unwrapped key material is not 32 bytes").

(** [LocalKms] works on its store and the random source. *)
Record LocalWorld (S R : Type) := { catalog : S; rng : R }.
Arguments catalog {S R} _.
Arguments rng {S R} _.

#[export] Instance random_local {S R} `{Random R} : Random (LocalWorld S R) := {|
  fill n w := let '(r, bytes) := fill n (rng w) in ({| catalog := catalog w; rng := r |}, bytes) |}.

Section local_kms.
Context {S R : Type} `{KmsStore S, Random R, Aead} (root_key : KeyBytes).
Abbreviation MW := (M (LocalWorld S R)) (only parsing).

Definition store_get (tenant : string) : MW (option TenantKeyRecord) := λ w,
  (w, of_result (kms_get tenant (catalog w))).
Definition store_put (r : TenantKeyRecord) : MW () := λ w,
  let '(s, res) := kms_put r (catalog w) in ({| catalog := s; rng := rng w |}, of_result res).

Definition provision (tenant : string) : MW TenantKeyRecord :=
  tenant_key ← generate_key;
  wrapped ← crypto_seal root_key tenant_key;
  let record := {| tk_tenant := tenant;
                   versions := [{| tkv_version := 1; tkv_wrapped := wrapped |}]; destroyed := false |} in
  _ ← store_put record;
  mret record.

Definition record_or_provision (tenant : string) : MW TenantKeyRecord :=
  r ← store_get tenant;
  match r with
  | Some record => if destroyed record then throw (destroyed_error tenant) else mret record
  | None => provision tenant
  end.

Definition active_record (tenant : string) : MW TenantKeyRecord :=
  r ← store_get tenant;
  match r with
  | None => throw (NotFound ("tenant `" +:+ tenant +:+ "` has no key material"))
  | Some record => if destroyed record then throw (destroyed_error tenant) else mret record
  end.

Definition unwrap_tenant_key (record : TenantKeyRecord) (version : Z) : result KeyBytes :=
  tv ← ok_or (NotFound ("tenant `" +:+ tk_tenant record +:+ "` has no key version " +:+ show_Z version))
         (version_of version record);
  plaintext ← crypto_open root_key (tkv_wrapped tv);
  to_key_bytes plaintext.

(** [expect]: a provisioned record has a version. *)
Definition current_of (record : TenantKeyRecord) : MW TenantKeyVersion :=
  lift (expect (current_version record)).

Definition local_generate (tenant : string) : MW DataKey :=
  record ← record_or_provision tenant;
  current ← current_of record;
  tenant_key ← lift (of_result (unwrap_tenant_key record (tkv_version current)));
  plaintext ← generate_key;
  wrapped ← crypto_seal tenant_key plaintext;
  mret {| dk_plaintext := plaintext;
          dk_key := {| tenant_key_version := tkv_version current; dk_wrapped := wrapped |} |}.

Definition local_unwrap (tenant : string) (wrapped : WrappedDataKey) : MW KeyBytes :=
  record ← active_record tenant;
  tenant_key ← lift (of_result (unwrap_tenant_key record (tenant_key_version wrapped)));
  plaintext ← lift (of_result (crypto_open tenant_key (dk_wrapped wrapped)));
  lift (of_result (to_key_bytes plaintext)).

Definition local_rewrap (tenant : string) (wrapped : WrappedDataKey) : MW WrappedDataKey :=
  record ← active_record tenant;
  old_tenant_key ← lift (of_result (unwrap_tenant_key record (tenant_key_version wrapped)));
  plaintext ← lift (of_result (crypto_open old_tenant_key (dk_wrapped wrapped)));
  plaintext_dek ← lift (of_result (to_key_bytes plaintext));
  current ← current_of record;
  current_tenant_key ← lift (of_result (unwrap_tenant_key record (tkv_version current)));
  rewrapped ← crypto_seal current_tenant_key plaintext_dek;
  mret {| tenant_key_version := tkv_version current; dk_wrapped := rewrapped |}.

Definition local_rotate (tenant : string) : MW Z :=
  record ← record_or_provision tenant;
  let next_version := match last (versions record) with
                      | None => 1 | Some v => u32_wrapping_add (tkv_version v) 1 end in
  tenant_key ← generate_key;
  wrapped ← crypto_seal root_key tenant_key;
  _ ← store_put {| tk_tenant := tk_tenant record;
                   versions := versions record ++ [{| tkv_version := next_version; tkv_wrapped := wrapped |}];
                   destroyed := destroyed record |};
  mret next_version.

Definition local_destroy (tenant : string) : MW () :=
  record ← active_record tenant;
  store_put {| tk_tenant := tk_tenant record; versions := []; destroyed := true |}.

Definition local_kms : Kms (LocalWorld S R) := {|
  generate_data_key := local_generate; unwrap_data_key := local_unwrap; rewrap_data_key := local_rewrap;
  rotate_tenant_key := local_rotate; destroy_tenant_key := local_destroy |}.
End local_kms.

(** ** [envelope.rs] *)

Record SealedData := { wrapped_key : WrappedDataKey; sealed : Sealed }.

Section envelope.
Context {W : Type} `{Kms W, Random W, Aead}.

Definition envelope_seal (tenant plaintext : string) : M W SealedData :=
  dek ← generate_data_key tenant;
  sealed ← crypto_seal (dk_plaintext dek) plaintext;
  mret {| wrapped_key := dk_key dek; sealed := sealed |}.
Definition envelope_open (tenant : string) (s : SealedData) : M W string :=
  dek ← unwrap_data_key tenant (wrapped_key s);
  lift (of_result (crypto_open dek (sealed s))).
End envelope.

(** ** Secret references and secrets: [reference.rs], [secret.rs] *)

Definition SCHEME : string := "secret://".
Record SecretRef := { ref_namespace : string; ref_name : string }.

Definition SecretRef_new (namespace name : string) : result SecretRef :=
  if is_empty namespace || is_empty name then
    Err (invalid "secret reference needs a non-empty namespace and name")
  else if contains_char "/" namespace then Err (invalid "secret namespace must not contain `/`")
  else Ok {| ref_namespace := namespace; ref_name := name |}.
Definition SecretRef_parse (s : string) : result SecretRef :=
  rest ← ok_or (invalid ("secret reference must start with `" +:+ SCHEME +:+ "`")) (strip_prefix SCHEME s);
  parts ← ok_or (invalid "secret reference must be `secret://<namespace>/<name>`") (split_once "/" rest);
  SecretRef_new parts.1 parts.2.
Definition read_permission (r : SecretRef) : string := "secret:read:" +:+ ref_name r.
Definition SecretRef_display (r : SecretRef) : string :=
  SCHEME +:+ ref_namespace r +:+ "/" +:+ ref_name r.

(** [SecretValue] is the value, masked where it is printed. *)
Record Secret := {
  se_namespace : string;
  se_name : string;
  se_value : string;
  se_previous : option string;
  se_version : Z;
}.
Record SecretMetadata := { md_namespace : string; md_name : string; md_version : Z; md_reference : string }.

Definition Secret_new (namespace name value : string) : Secret := {|
  se_namespace := namespace; se_name := name; se_value := value; se_previous := None; se_version := 1 |}.
Definition Secret_rotate (new_value : string) (s : Secret) : Secret := {|
  se_namespace := se_namespace s; se_name := se_name s; se_value := new_value;
  se_previous := Some (se_value s); se_version := u32_wrapping_add (se_version s) 1 |}.
Definition reference_of (namespace name : string) : string :=
  SecretRef_display {| ref_namespace := namespace; ref_name := name |}.
Definition metadata_of (s : Secret) : SecretMetadata := {|
  md_namespace := se_namespace s; md_name := se_name s; md_version := se_version s;
  md_reference := reference_of (se_namespace s) (se_name s) |}.

(** ** The order of a [BTreeMap<(String, String), V>] *)

Definition pair_le (a b : string * string) : Prop :=
  (a.1 ≠ b.1 ∧ String.le a.1 b.1) ∨ a.1 = b.1 ∧ String.le a.2 b.2.
#[export] Instance pair_le_dec : RelDecision pair_le.
Proof. intros a b. unfold pair_le. apply _. Defined.
Definition pair_iter {V} (m : gmap (string * string) V) : list ((string * string) * V) :=
  omap (λ k, pair k <$> m !! k) (merge_sort pair_le (elements (dom m))).
Definition in_namespace {V} (namespace : string) (m : gmap (string * string) V) : list V :=
  map snd (List.filter (λ kv, String.eqb kv.1.1 namespace) (pair_iter m)).

(** ** Secret stores: [store.rs] *)

(** Reading may take a key out of the key management, so every operation runs
    in the world of the store. *)
Class SecretStore (W : Type) := {
  secret_put : Secret → M W ();
  secret_get : string → string → M W (option Secret);
  secret_delete : string → string → M W bool;
  secret_list : string → M W (list SecretMetadata);
}.

Abbreviation SecretMap := (gmap (string * string) Secret) (only parsing).

Module InMemorySecretStore.
Definition t : Type := SecretMap.
Definition new : t := ∅.
#[global] Instance secret_store : SecretStore t := {
  secret_put s m := (<[(se_namespace s, se_name s) := s]> m, Ret ());
  secret_get namespace name m := (m, Ret (m !! (namespace, name)));
  secret_delete namespace name m :=
    (delete (namespace, name) m, Ret (bool_decide (is_Some (m !! (namespace, name)))));
  secret_list namespace m := (m, Ret (map metadata_of (in_namespace namespace m)));
}.
End InMemorySecretStore.

(** [serde_json] at a list of records of the file. *)
Class ListSerde (A : Type) := {
  list_to_vec : list A → string + string;
  list_from_slice : string → string + list A;
}.

(** A catalog file of records under a pair of strings: what the plaintext and
    the encrypting store have in common. *)
Section catalog_file.
Context {A : Type} `{ListSerde A} (what : string) (key : A → string * string).

Definition load_catalog (file : option string) : result (gmap (string * string) A) :=
  match file with
  | None => Ok ∅
  | Some bytes =>
    match list_from_slice bytes with
    | inr l => Ok (foldl (λ m r, <[key r := r]> m) ∅ l)
    | inl e => Err (config ("parse " +:+ what +:+ ": " +:+ e))
    end
  end.
Definition persist_catalog (m : gmap (string * string) A) (file : option string)
    : option string * result () :=
  match list_to_vec (map snd (pair_iter m)) with
  | inr bytes => (Some bytes, Ok ())
  | inl e => (file, Err (config ("encode " +:+ what +:+ ": " +:+ e)))
  end.
End catalog_file.

Module FileSecretStore.
Section file.
Context `{ListSerde Secret}.
Definition t : Type := option string.
Definition secret_key (s : Secret) : string * string := (se_namespace s, se_name s).
Definition load : t → result SecretMap := load_catalog "secrets.json" secret_key.
Definition persist (m : SecretMap) : t → t * result () := persist_catalog "secrets.json" m.

Definition load_m : M t SecretMap := λ file, (file, of_result (load file)).
Definition persist_m (m : SecretMap) : M t () := λ file,
  let '(file, r) := persist m file in (file, of_result r).

#[global] Instance secret_store : SecretStore t := {
  secret_put s := m ← load_m; persist_m (<[secret_key s := s]> m);
  secret_get namespace name := m ← load_m; mret (m !! (namespace, name));
  secret_delete namespace name :=
    m ← load_m;
    match m !! (namespace, name) with
    | Some _ => _ ← persist_m (delete (namespace, name) m); mret true
    | None => mret false
    end;
  secret_list namespace := m ← load_m; mret (map metadata_of (in_namespace namespace m));
}.
End file.
End FileSecretStore.

(** ** The encrypting secret store: [encrypted_store.rs] *)

Record EncryptedRecord := {
  er_namespace : string;
  er_name : string;
  sealed_value : SealedData;
  sealed_previous : option SealedData;
  er_version : Z;
}.

(** The world of a store that seals: what it keeps on disk, and the key
    management. *)
Record Sealing (F K : Type) := { disk : F; keys : K }.
Arguments disk {F K} _.
Arguments keys {F K} _.

Section sealing.
Context {F K : Type}.
Definition on_keys {A} : M K A → M (Sealing F K) A :=
  zoom keys (λ k w, {| disk := disk w; keys := k |}).
Definition on_disk {A} : M F A → M (Sealing F K) A :=
  zoom disk (λ f w, {| disk := f; keys := keys w |}).
End sealing.

(** [.map(f).transpose()?] *)
Definition traverse {W A B} (f : A → M W B) (o : option A) : M W (option B) :=
  match o with None => mret None | Some a => b ← f a; mret (Some b) end.
(** [.map(f).collect::<Result<Vec<_>>>()] *)
Fixpoint traverse_all {W A B} (f : A → M W B) (l : list A) : M W (list B) :=
  match l with [] => mret [] | a :: l => b ← f a; bs ← traverse_all f l; mret (b :: bs) end.

(** The files of the directory: the sealed catalog, the plaintext catalog of an
    older installation, and its backup. *)
Record SecretFiles := { enc_file : option string; plain_file : option string; backup_file : option string }.

Module EncryptedFileSecretStore.
Section store.
Context {K : Type} `{Kms K, Random K, Aead, ListSerde EncryptedRecord, ListSerde Secret}.
Definition t : Type := Sealing SecretFiles K.
Definition record_key (r : EncryptedRecord) : string * string := (er_namespace r, er_name r).

Definition load : M t (gmap (string * string) EncryptedRecord) := λ w,
  (w, of_result (load_catalog "secrets.enc.json" record_key (enc_file (disk w)))).
Definition persist (m : gmap (string * string) EncryptedRecord) : M t () :=
  on_disk (λ f,
    let '(bytes, r) := persist_catalog "secrets.enc.json" m (enc_file f) in
    ({| enc_file := bytes; plain_file := plain_file f; backup_file := backup_file f |}, of_result r)).

Definition seal (tenant plaintext : string) : M t SealedData := on_keys (envelope_seal tenant plaintext).
Definition unseal (tenant : string) (s : SealedData) : M t string :=
  bytes ← on_keys (envelope_open tenant s);
  lift (of_result (ok_or (invalid "decrypted secret value is not valid UTF-8") (from_utf8 bytes))).

Definition encrypt (s : Secret) : M t EncryptedRecord :=
  v ← seal (se_namespace s) (se_value s);
  p ← traverse (seal (se_namespace s)) (se_previous s);
  mret {| er_namespace := se_namespace s; er_name := se_name s; sealed_value := v;
          sealed_previous := p; er_version := se_version s |}.
Definition decrypt (r : EncryptedRecord) : M t Secret :=
  v ← unseal (er_namespace r) (sealed_value r);
  p ← traverse (unseal (er_namespace r)) (sealed_previous r);
  mret {| se_namespace := er_namespace r; se_name := er_name r; se_value := v; se_previous := p;
          se_version := er_version r |}.

Definition record_metadata (r : EncryptedRecord) : SecretMetadata := {|
  md_namespace := er_namespace r; md_name := er_name r; md_version := er_version r;
  md_reference := reference_of (er_namespace r) (er_name r) |}.

#[global] Instance secret_store : SecretStore t := {
  secret_put s :=
    r ← encrypt s;
    m ← load;
    persist (<[record_key r := r]> m);
  secret_get namespace name := m ← load; traverse decrypt (m !! (namespace, name));
  secret_delete namespace name :=
    m ← load;
    match m !! (namespace, name) with
    | Some _ => _ ← persist (delete (namespace, name) m); mret true
    | None => mret false
    end;
  secret_list namespace := m ← load; mret (map record_metadata (in_namespace namespace m));
}.

(** The loop of the migration: a record that is already sealed wins. *)
Fixpoint migrate_go (legacy : list Secret) (m : gmap (string * string) EncryptedRecord) (migrated : nat)
    : M t (gmap (string * string) EncryptedRecord * nat) :=
  match legacy with
  | [] => mret (m, migrated)
  | s :: legacy =>
    let key := FileSecretStore.secret_key s in
    match m !! key with
    | Some _ => migrate_go legacy m migrated
    | None => r ← encrypt s; migrate_go legacy (<[key := r]> m) (S migrated)
    end
  end.

Definition migrate_plaintext : M t nat :=
  f ← gets disk;
  match plain_file f with
  | None => mret O
  | Some bytes =>
    legacy ← lift (of_result match list_from_slice bytes with
                             | inr l => Ok l
                             | inl e => Err (config ("parse legacy secrets.json: " +:+ e))
                             end);
    m ← load;
    mn ← migrate_go legacy m 0;
    _ ← persist mn.1;
    _ ← on_disk (modify (λ f, {| enc_file := enc_file f; plain_file := None; backup_file := plain_file f |}));
    mret mn.2
  end.
End store.
End EncryptedFileSecretStore.

(** ** The vault: [vault.rs] *)

Record SecretAccess := { sa_tenant : string; granted : list string }.

Definition grant_covers (granted wanted : string) : bool :=
  let g := split_char ":" granted in
  let w := split_char ":" wanted in
  Nat.eqb (length g) (length w) &&
  forallb (λ gw, match strip_suffix "*" gw.1 with
                 | Some prefix => starts_with prefix gw.2
                 | None => String.eqb gw.1 gw.2
                 end) (zip g w).

Module Vault.
Section vault.
Context {W : Type} `{SecretStore W}.

Definition create (tenant name value : string) : M W SecretMetadata :=
  r ← lift (of_result (SecretRef_new tenant name));
  existing ← secret_get (ref_namespace r) (ref_name r);
  match existing with
  | Some _ => throw (conflict ("secret `" +:+ SecretRef_display r +:+ "` already exists"))
  | None =>
    let secret := Secret_new (ref_namespace r) (ref_name r) value in
    _ ← secret_put secret;
    mret (metadata_of secret)
  end.

Definition rotate (tenant name new_value : string) : M W SecretMetadata :=
  s ← secret_get tenant name;
  match s with
  | None => throw (NotFound ("secret `secret://" +:+ tenant +:+ "/" +:+ name +:+ "` not found"))
  | Some s =>
    let secret := Secret_rotate new_value s in
    _ ← secret_put secret;
    mret (metadata_of secret)
  end.

Definition remove (tenant name : string) : M W bool := secret_delete tenant name.
Definition metadata (tenant name : string) : M W (option SecretMetadata) :=
  s ← secret_get tenant name; mret (metadata_of <$> s).
Definition list_all (tenant : string) : M W (list SecretMetadata) := secret_list tenant.

Definition resolve (r : SecretRef) (access : SecretAccess) : M W string :=
  if negb (String.eqb (ref_namespace r) (sa_tenant access)) then
    throw (forbidden ("secret `" +:+ SecretRef_display r +:+ "` is outside tenant `"
                      +:+ sa_tenant access +:+ "`"))
  else if negb (existsb (λ g, grant_covers g (read_permission r)) (granted access)) then
    throw (forbidden ("missing grant `" +:+ read_permission r +:+ "` to read secret `"
                      +:+ SecretRef_display r +:+ "`"))
  else
    s ← secret_get (ref_namespace r) (ref_name r);
    match s with
    | None => throw (NotFound ("secret `" +:+ SecretRef_display r +:+ "` not found"))
    | Some s => mret (se_value s)
    end.
Definition resolve_str (reference : string) (access : SecretAccess) : M W string :=
  r ← lift (of_result (SecretRef_parse reference));
  resolve r access.
End vault.
End Vault.

(** ** The encrypting webhook store *)

Record EncryptedSubscription := {
  es_id : string;
  es_tenant : string;
  es_url : string;
  es_events : list string;
  sealed_secret : SealedData;
  es_active : bool;
}.

Module EncryptedFileWebhookStore.
Section store.
Context {K : Type} `{Kms K, Random K, Aead, ListSerde EncryptedSubscription}.
Definition t : Type := Sealing (option string) K.

Definition load : M t (gmap string EncryptedSubscription) := λ w,
  (w, match disk w with
      | None => Ret ∅
      | Some bytes =>
        match list_from_slice bytes with
        | inr l => Ret (foldl (λ m r, <[es_id r := r]> m) ∅ l)
        | inl e => Stop (Throw (config ("parse webhooks.enc.json: " +:+ e)))
        end
      end).
Definition persist (m : gmap string EncryptedSubscription) : M t () :=
  match list_to_vec (map snd (btree_iter m)) with
  | inr bytes => on_disk (λ _, (Some bytes, Ret ()))
  | inl e => throw (config ("encode webhooks.enc.json: " +:+ e))
  end.

Definition encrypt (s : WebhookSubscription) : M t EncryptedSubscription :=
  sealed ← on_keys (envelope_seal (sub_tenant s) (sub_secret s));
  mret {| es_id := sub_id s; es_tenant := sub_tenant s; es_url := sub_url s; es_events := sub_events s;
          sealed_secret := sealed; es_active := sub_active s |}.
Definition decrypt (r : EncryptedSubscription) : M t WebhookSubscription :=
  bytes ← on_keys (envelope_open (es_tenant r) (sealed_secret r));
  secret ← lift (of_result (ok_or (invalid "decrypted webhook secret is not valid UTF-8") (from_utf8 bytes)));
  mret {| sub_id := es_id r; sub_tenant := es_tenant r; sub_url := es_url r; sub_events := es_events r;
          sub_secret := secret; sub_active := es_active r |}.

Definition register (s : WebhookSubscription) : M t WebhookSubscription :=
  r ← encrypt s;
  m ← load;
  _ ← persist (<[es_id r := r]> m);
  mret s.
Definition get (id : string) : M t (option WebhookSubscription) :=
  m ← load; traverse decrypt (m !! id).
Definition list_all (tenant : string) : M t (list WebhookSubscription) :=
  m ← load;
  traverse_all decrypt (List.filter (λ r, String.eqb (es_tenant r) tenant) (map snd (btree_iter m))).
Definition remove (id : string) : M t () :=
  m ← load;
  match m !! id with
  | None => throw (webhook_not_found id)
  | Some _ => persist (delete id m)
  end.
End store.
End EncryptedFileWebhookStore.
