(* ===== verification/KmsInv.v ===== *)
(** * Sealed data opens for its tenant until the tenant is shredded

    The laws of the key hierarchy for its clients, that the local key manager
    keeps them over any store that keeps records, and what the vault and the
    encrypting secret store promise. *)
From stdpp Require Import countable.
From stdpp Require Import base tactics list numbers strings gmap sorting.
From Stdlib Require Import Lia ZArith Ascii.
From S2P Require Import Prelude.
From S2P Require Import RustStr.
From S2P Require Import Common.
From S2P Require Import Effect.
From S2P Require Import AuditLog.
From S2P Require Import AuditInv.
From S2P Require Import Events.
From S2P Require Import Kms.
Local Open Scope Z_scope.

(** ** The libraries *)

(** Opening undoes sealing, and refuses under any other key. *)
Class AeadLaws `{Aead} := {
  open_sealed k n p c : aead_seal k n p = Some c → aead_open k n c = Some p;
  open_other_key k k' n p c : aead_seal k n p = Some c → k' ≠ k → aead_open k' n c = None;
}.
(** A buffer is filled to its length, and never twice with the same bytes. *)
Class RandomLaws (R : Type) `{Random R} := {
  drawn : R → list string;
  fill_some n r r' b : fill n r = (r', Some b) → String.length b = n ∧ b ∉ drawn r ∧ drawn r' = b :: drawn r;
  fill_none n r r' : fill n r = (r', None) → drawn r' = drawn r;
}.
(** A list that was written reads back. *)
Class KmsSerdeLaws `{KmsSerde} := kms_reads_back l bytes : kms_to_vec l = inr bytes → kms_from_slice bytes = inr l.

(** ** Stores of key records *)

Class KmsStoreLaws (S : Type) `{KmsStore S} := {
  kms_reads : S → gmap string TenantKeyRecord → Prop;
  kms_get_reads s m tenant : kms_reads s m → kms_get tenant s = Ok (m !! tenant);
  kms_put_reads s m r s' : kms_reads s m → kms_put r s = (s', Ok ()) → kms_reads s' (<[tk_tenant r := r]> m);
  kms_put_fails s m r s' e : kms_reads s m → kms_put r s = (s', Err e) → kms_reads s' m;
}.

#[export] Instance memory_kms_laws : KmsStoreLaws InMemoryKmsStore.t.
Proof. by refine {| kms_reads s m := s = m |}; [intros s m t ->|intros s m r s' -> [= <-]|]. Defined.

#[export] Instance file_kms_laws `{KmsSerdeLaws} : KmsStoreLaws FileKmsStore.t.
Proof.
  refine {| kms_reads file m := FileKmsStore.load file = Ok m ∧ keyed tk_tenant m |}.
  - intros file m tenant [Hl _]. cbn. by rewrite Hl.
  - intros file m r file' [Hl Hk]. cbn. rewrite Hl. unfold FileKmsStore.persist.
    destruct (kms_to_vec _) as [e|bytes] eqn:E; [done|]. intros [= <-]. cbn.
    rewrite (kms_reads_back _ _ E). apply (keyed_insert _ _ r) in Hk. split; [|done]. f_equal.
    by apply insert_btree_values.
  - intros file m r file' e [Hl Hk]. cbn. rewrite Hl. unfold FileKmsStore.persist.
    destruct (kms_to_vec _); by intros [= <- _].
Defined.

(** ** The operations of a key manager, and its clients' *)

Inductive kms_op :=
  | GenerateKey (tenant : string) | UnwrapKey (tenant : string) (wd : WrappedDataKey)
  | RewrapKey (tenant : string) (wd : WrappedDataKey) | RotateKey (tenant : string)
  | DestroyKey (tenant : string)
  | SealData (tenant plaintext : string) | OpenData (tenant : string) (sd : SealedData).
Definition kms_step {W} `{Kms W, Random W, Aead} (op : kms_op) : M W () :=
  match op with
  | GenerateKey t => _ ← generate_data_key t; mret ()
  | UnwrapKey t wd => _ ← unwrap_data_key t wd; mret ()
  | RewrapKey t wd => _ ← rewrap_data_key t wd; mret ()
  | RotateKey t => _ ← rotate_tenant_key t; mret ()
  | DestroyKey t => destroy_tenant_key t
  | SealData t p => _ ← envelope_seal t p; mret ()
  | OpenData t sd => _ ← envelope_open t sd; mret ()
  end.
(** Whatever each of them answers, the next one runs. *)
Definition kms_run {W} `{Kms W, Random W, Aead} (ops : list kms_op) (w : W) : W :=
  foldl (λ w op, (kms_step op w).1) w ops.

Definition shredded_by (op : kms_op) : option string := match op with DestroyKey t => Some t | _ => None end.
Lemma shredded_by_elem t ops : DestroyKey t ∈ ops ↔ t ∈@{gset string} list_to_set (omap shredded_by ops).
Proof.
  rewrite elem_of_list_to_set, list_elem_of_omap. split.
  - intros Hin. by exists (DestroyKey t).
  - intros ([] & Hin & [= ->]). done.
Qed.

(** What a key manager promises those who seal with it. *)
Class KmsLaws (K : Type) `{Kms K, Random K, Aead} := {
  in_order : K → Prop;
  opens : K → string → SealedData → string → Prop;
  seal_law tenant p k : in_order k →
    wp (envelope_seal tenant p)
      (λ sd k', in_order k' ∧ opens k' tenant sd p ∧ ∀ t sd' p', opens k t sd' p' → opens k' t sd' p')
      (λ s k', in_order k' ∧ (∀ t sd' p', opens k t sd' p' → opens k' t sd' p') ∧ ∃ e, s = Throw e) k;
  open_law tenant sd p k : in_order k → opens k tenant sd p → envelope_open tenant sd k = (k, Ret p);
}.

(** ** The local key manager *)

Section local.
Context {S R : Type} `{HL : KmsStoreLaws S, HR : RandomLaws R, HA : AeadLaws} (root : string).
Implicit Types (m : gmap string TenantKeyRecord) (w : LocalWorld S R).

(** The catalog files every record under its tenant, a record in use has a
    version, every version unwraps to a key that was drawn, and no two tenants
    have a key in common. *)
Record kms_ok m (r : R) : Prop := {
  ok_keyed : keyed tk_tenant m;
  ok_versions t rec : m !! t = Some rec → destroyed rec = false → versions rec ≠ [];
  ok_keys t rec tv : m !! t = Some rec → tv ∈ versions rec →
    ∃ k, crypto_open root (tkv_wrapped tv) = Ok k ∧ String.length k = KEY_LEN ∧ k ∈ drawn r;
  ok_distinct t1 t2 rec1 rec2 tv1 tv2 k : m !! t1 = Some rec1 → m !! t2 = Some rec2 →
    tv1 ∈ versions rec1 → tv2 ∈ versions rec2 →
    crypto_open root (tkv_wrapped tv1) = Ok k → crypto_open root (tkv_wrapped tv2) = Ok k → t1 = t2;
}.
Definition at_ m w : Prop := kms_reads (catalog w) m ∧ kms_ok m (rng w).

(** Drawn bytes stay drawn. *)
Definition grows (r r' : R) : Prop := ∀ k, k ∈ drawn r → k ∈ drawn r'.

Lemma grows_refl r : grows r r.
Proof. by intros k. Qed.
Lemma grows_trans r1 r2 r3 : grows r1 r2 → grows r2 r3 → grows r1 r3.
Proof. intros H12 H23 k Hk. by apply H23, H12. Qed.
Local Hint Resolve grows_refl : core.

(** Versions are only ever added, except where the tenants of [X] are shredded;
    shredded stays shredded; and a key drawn before is in no version that was
    added. *)
Definition evolves (X : gset string) m (r : R) m' (r' : R) : Prop :=
  (∀ t rec, m !! t = Some rec → ∃ rec', m' !! t = Some rec' ∧
    (t ∉ X ∨ destroyed rec = true → destroyed rec' = destroyed rec ∧ versions rec `prefix_of` versions rec')) ∧
  grows r r' ∧
  ∀ t rec' tv k, m' !! t = Some rec' → tv ∈ versions rec' → crypto_open root (tkv_wrapped tv) = Ok k →
    k ∈ drawn r → ∃ rec, m !! t = Some rec ∧ tv ∈ versions rec.

Lemma keys_evolve_refl X m r r' : grows r r' → evolves X m r m r'.
Proof. intros Hg. split_and!; [|done|naive_solver]. intros t rec Ht. exists rec. by split. Qed.
Lemma keys_evolve_trans X m1 r1 m2 r2 m3 r3 : evolves X m1 r1 m2 r2 → evolves X m2 r2 m3 r3 → evolves X m1 r1 m3 r3.
Proof.
  intros (H12 & Hg12 & Hf12) (H23 & Hg23 & Hf23). split_and!.
  - intros t rec Ht. destruct (H12 t rec Ht) as (rec' & Ht' & Hp).
    destruct (H23 t rec' Ht') as (rec'' & Ht'' & Hq). exists rec''. split; [done|]. intros Hor.
    destruct (Hp Hor) as [Hd Hv]. rewrite <-Hd. destruct Hq as [Hd' Hv']; [by rewrite Hd; destruct Hor; [left|right]|].
    split; [done|]. by trans (versions rec').
  - intros k Hk. by apply Hg23, Hg12.
  - intros t rec' tv k Ht Htv Ho Hk. destruct (Hf23 t rec' tv k Ht Htv Ho (Hg12 k Hk)) as (rec & Hr & Hin). by eapply Hf12.
Qed.
Lemma keys_evolve_insert X m r r' rec : grows r r' →
  (∀ old, m !! tk_tenant rec = Some old → tk_tenant rec ∉ X ∨ destroyed old = true →
    destroyed rec = destroyed old ∧ versions old `prefix_of` versions rec) →
  (∀ tv k, tv ∈ versions rec → crypto_open root (tkv_wrapped tv) = Ok k → k ∈ drawn r →
    ∃ old, m !! tk_tenant rec = Some old ∧ tv ∈ versions old) →
  evolves X m r (<[tk_tenant rec := rec]> m) r'.
Proof.
  intros Hg Hr Hf. split_and!; [|done|].
  - intros t old Ht. destruct (decide (tk_tenant rec = t)) as [<-|Hne].
    + exists rec. rewrite lookup_insert_eq. split; [done|]. by apply Hr.
    + exists old. by rewrite lookup_insert_ne.
  - intros t rec' tv k. rewrite lookup_insert_Some. naive_solver.
Qed.

Lemma kms_ok_mono m r r' : grows r r' → kms_ok m r → kms_ok m r'.
Proof.
  intros Hd [Hk Hv Hs Hx]. split; try done. intros t rec tv Ht Htv. destruct (Hs t rec tv Ht Htv). naive_solver.
Qed.

(** A record with one more version, whose key is fresh. *)
Lemma kms_ok_insert m r rec old tv k :
  kms_ok m r → k ∈ drawn r → String.length k = KEY_LEN → crypto_open root (tkv_wrapped tv) = Ok k →
  (∀ t rec' tv', m !! t = Some rec' → tv' ∈ versions rec' → crypto_open root (tkv_wrapped tv') ≠ Ok k) →
  versions rec = old ++ [tv] → (∀ tv', tv' ∈ old → ∃ rec', m !! tk_tenant rec = Some rec' ∧ tv' ∈ versions rec') →
  kms_ok (<[tk_tenant rec := rec]> m) r.
Proof.
  intros [Hk Hv Hs Hd] Hin Hlen Hopen Hfresh Hrec Hold. split.
  - by apply keyed_insert.
  - intros t rec'. rewrite lookup_insert_Some. intros [[<- <-]|[_ Ht]] Hdes; [|by eapply Hv]. rewrite Hrec. by destruct old.
  - intros t rec' tv'. rewrite lookup_insert_Some. intros [[<- <-]|[_ Ht]] Htv; [|by eapply Hs].
    rewrite Hrec in Htv. apply elem_of_app in Htv as [Htv| ->%list_elem_of_singleton]; [|by exists k].
    destruct (Hold tv' Htv) as (rec' & Hr' & Hin'). by eapply Hs.
  - assert (∀ t rec' tv' k', <[tk_tenant rec := rec]> m !! t = Some rec' → tv' ∈ versions rec' →
      crypto_open root (tkv_wrapped tv') = Ok k' →
      (t = tk_tenant rec ∧ k' = k) ∨ k' ≠ k ∧ ∃ rec0, m !! t = Some rec0 ∧ tv' ∈ versions rec0) as Hcase.
    { intros t rec' tv' k'. rewrite lookup_insert_Some. intros [[<- <-]|[_ Ht]] Htv Ho.
      - rewrite Hrec in Htv. apply elem_of_app in Htv as [Htv| ->%list_elem_of_singleton]; [|left; split; congruence].
        destruct (Hold tv' Htv) as (rec' & Hr' & Hin'). right. split; [|by exists rec'].
        intros ->. by eapply Hfresh.
      - right. split; [|by exists rec']. intros ->. by eapply Hfresh. }
    intros t1 t2 rec1 rec2 tv1 tv2 k' Ht1 Ht2 Hv1 Hv2 Ho1 Ho2.
    destruct (Hcase _ _ _ _ Ht1 Hv1 Ho1) as [[-> ->]|[Hn1 (r1 & Hr1 & Hi1)]],
      (Hcase _ _ _ _ Ht2 Hv2 Ho2) as [[-> He]|[Hn2 (r2 & Hr2 & Hi2)]]; try done; [].
    by eapply Hd.
Qed.

(** *** The steps of an operation *)

(** A call that stops reports an error, where the catalog is [m]. *)
Definition refused m (r : R) (s : stop) w : Prop := at_ m w ∧ grows r (rng w) ∧ ∃ e, s = Throw e.

Lemma wp_random m n w : at_ m w →
  wp (random_bytes n) (λ b w', at_ m w' ∧ String.length b = n ∧ b ∉ drawn (rng w) ∧
    b ∈ drawn (rng w') ∧ grows (rng w) (rng w')) (refused m (rng w)) w.
Proof.
  intros [Hr Hok]. unfold wp, random_bytes. cbn. destruct (fill n (rng w)) as [r' [b|]] eqn:E; cbn.
  - destruct (fill_some _ _ _ _ E) as (Hlen & Hf & Hd).
    assert (grows (rng w) r') as Hg by (intros k Hk; rewrite Hd; set_solver).
    split_and!; try done; [split; [done|by eapply kms_ok_mono]|]. cbn. rewrite Hd. set_solver.
  - pose proof (fill_none _ _ _ E) as Hd.
    assert (grows (rng w) r') as Hg by (intros k Hk; by rewrite Hd).
    split_and!; [split; [done|by eapply kms_ok_mono]|done|by eexists].
Qed.

Lemma wp_crypto_seal m key p w : at_ m w →
  wp (crypto_seal key p) (λ c w', at_ m w' ∧ grows (rng w) (rng w') ∧ crypto_open key c = Ok p ∧
    ∀ key', key' ≠ key → ∃ e, crypto_open key' c = Err e) (refused m (rng w)) w.
Proof.
  intros Hat. eapply wp_call; [by apply wp_random|]. cbn. intros n w' (Hat' & Hn & _ & _ & Hg).
  destruct (aead_seal key n p) as [c|] eqn:E; [|by split_and!; [| |eexists]].
  apply wp_ret. unfold crypto_open. cbn. rewrite Hn. cbn. split_and!; [done..| |].
  - by rewrite (open_sealed _ _ _ _ E).
  - intros key' Hne. rewrite (open_other_key _ _ _ _ _ E Hne). by eexists.
Qed.

Lemma wp_store_get m tenant w : at_ m w →
  wp (store_get tenant) (λ o w', o = m !! tenant ∧ w' = w) (refused m (rng w)) w.
Proof. intros [Hr Hok]. unfold wp, store_get. by rewrite (kms_get_reads _ _ _ Hr). Qed.

Lemma wp_store_put m rec w : at_ m w → kms_ok (<[tk_tenant rec := rec]> m) (rng w) →
  wp (store_put rec) (λ _ w', at_ (<[tk_tenant rec := rec]> m) w' ∧ rng w' = rng w) (refused m (rng w)) w.
Proof.
  intros [Hr Hok] Hok'. unfold wp, store_put. destruct (kms_put rec (catalog w)) as [s [[]|e]] eqn:E; cbn.
  - split; [|done]. split; [|done]. by eapply kms_put_reads.
  - split_and!; [split; [by eapply kms_put_fails|done]|done|by eexists].
Qed.

(** What an operation leaves: a catalog that the old one evolved into. *)
Definition moved (X : gset string) m r w : Prop := ∃ m', at_ m' w ∧ evolves X m r m' (rng w).
Definition stopped (X : gset string) m r (s : stop) w : Prop := moved X m r w ∧ ∃ e, s = Throw e.
Lemma moved_here X m r w : at_ m w → grows r (rng w) → moved X m r w.
Proof. intros Hat Hg. exists m. split; [done|by apply keys_evolve_refl]. Qed.
Lemma refused_stopped X m r r' s w : grows r r' → refused m r' s w → stopped X m r s w.
Proof. intros Hg (Hat & Hg' & He). split; [apply moved_here; [done|]|done]. intros k Hk. by apply Hg', Hg. Qed.
Lemma stopped_trans X m r m' r' s w : evolves X m r m' r' → stopped X m' r' s w → stopped X m r s w.
Proof. intros Hm [(m'' & Hat & Hm') He]. split; [|done]. exists m''. split; [done|by eapply keys_evolve_trans]. Qed.

(** A step before which the catalog has not changed. *)
Lemma wp_key_step {A B} X m r (p : M (LocalWorld S R) A) (k : A → M (LocalWorld S R) B) P Q w :
  wp p P (refused m (rng w)) w → grows r (rng w) →
  (∀ a w', P a w' → wp (k a) Q (stopped X m r) w') → wp (p ≫= k) Q (stopped X m r) w.
Proof.
  intros Hp Hg Hk. eapply wp_call; [|exact Hk]. eapply wp_mono; [exact Hp|done|].
  intros s w'. by apply refused_stopped.
Qed.

(** A fresh key is added to what a tenant has. *)
Lemma wp_new_version {A} X m r tenant old v (f : Sealed → A) w :
  at_ m w → grows r (rng w) →
  (∀ rec, m !! tenant = Some rec → destroyed rec = false ∧ versions rec = old) →
  (m !! tenant = None → old = []) →
  wp (tenant_key ← generate_key;
      wrapped ← crypto_seal root tenant_key;
      _ ← store_put {| tk_tenant := tenant;
                       versions := old ++ [{| tkv_version := v; tkv_wrapped := wrapped |}]; destroyed := false |};
      mret (f wrapped))
    (λ a w', ∃ wrapped, a = f wrapped ∧
       let rec := {| tk_tenant := tenant;
                     versions := old ++ [{| tkv_version := v; tkv_wrapped := wrapped |}]; destroyed := false |} in
       at_ (<[tenant := rec]> m) w' ∧ evolves X m r (<[tenant := rec]> m) (rng w')) (stopped X m r) w.
Proof.
  intros Hat Hr Hold Hnone.
  eapply wp_key_step; [by apply wp_random|done|]. intros k w1 (Hat1 & Hlen & Hfresh & Hin & Hg).
  eapply wp_key_step; [by apply wp_crypto_seal|by eapply grows_trans|]. intros wrapped w2 (Hat2 & Hg2 & Hopen & _).
  set (rec := {| tk_tenant := tenant |}).
  assert (∀ tv, tv ∈ old → ∃ rec', m !! tenant = Some rec' ∧ tv ∈ versions rec') as Hin'.
  { intros tv Htv. destruct (m !! tenant) as [rec'|] eqn:E; [|by rewrite Hnone in Htv; set_solver].
    exists rec'. split; [done|]. by destruct (Hold rec' eq_refl) as [_ ->]. }
  assert (kms_ok (<[tk_tenant rec := rec]> m) (rng w2)) as Hok.
  { eapply (kms_ok_insert m _ rec old _ k); try done; [by apply Hat2|by apply Hg2|exact Hopen|].
    intros t rec' tv' Ht Htv Ho. destruct Hat as [_ [_ _ Hs _]].
    destruct (Hs t rec' tv' Ht Htv) as (k' & Ho' & _ & Hd). congruence. }
  eapply wp_key_step; [by apply wp_store_put|by eapply grows_trans; [eapply grows_trans|]|].
  intros _ w3 [Hat3 Hrng]. apply wp_ret. exists wrapped.
  split; [done|]. split; [done|]. rewrite Hrng.
  apply (keys_evolve_insert X m _ _ rec); [by eapply grows_trans; [eapply grows_trans|]| |].
  - intros rec' Ht _. destruct (Hold rec' Ht) as [-> <-]. split; [done|]. by eexists.
  - intros tv k'. cbn. rewrite elem_of_app, list_elem_of_singleton. intros [Htv| ->] Ho Hd; [by apply Hin'|].
    cbn in Ho. rewrite Hopen in Ho. injection Ho as ->. destruct Hfresh. by apply Hr.
Qed.

Lemma wp_record_or_provision X m r tenant w : at_ m w → grows r (rng w) →
  wp (record_or_provision root tenant)
    (λ rec w', ∃ m', at_ m' w' ∧ evolves X m r m' (rng w') ∧ m' !! tenant = Some rec ∧ destroyed rec = false)
    (stopped X m r) w.
Proof.
  intros Hat Hr. eapply wp_key_step; [by apply wp_store_get|done|].
  intros o w' [-> ->]. destruct (m !! tenant) as [rec|] eqn:Et.
  - destruct (destroyed rec) eqn:Ed; [by split; [apply moved_here|eexists]|].
    apply wp_ret. exists m. split_and!; [done|by apply keys_evolve_refl|done..].
  - unfold provision. eapply wp_mono.
    + apply (wp_new_version X m r tenant [] 1 (λ wrapped, {| tk_tenant := tenant;
        versions := [{| tkv_version := 1; tkv_wrapped := wrapped |}]; destroyed := false |})); try done.
      intros rec. by rewrite Et.
    + cbn. intros rec w' (wrapped & -> & Hat' & Hm). eexists. split_and!; try done.
      by rewrite lookup_insert_eq.
    + done.
Qed.

Lemma wp_active_record X m r tenant w : at_ m w → grows r (rng w) →
  wp (active_record tenant) (λ rec w', w' = w ∧ m !! tenant = Some rec ∧ destroyed rec = false) (stopped X m r) w.
Proof.
  intros Hat Hr. eapply wp_key_step; [by apply wp_store_get|done|].
  intros o w' [-> ->]. destruct (m !! tenant) as [rec|] eqn:Et; [|by split; [apply moved_here|eexists]].
  destruct (destroyed rec) eqn:Ed; [by split; [apply moved_here|eexists]|by apply wp_ret].
Qed.
(** *** What a wrapped key is good for *)

(** The tenant's key of the version unwraps it to [dek]. *)
Definition held m (tenant : string) (wd : WrappedDataKey) (dek : string) : Prop := ∃ rec kk,
  m !! tenant = Some rec ∧ destroyed rec = false ∧
  unwrap_tenant_key root rec (tenant_key_version wd) = Ok kk ∧
  crypto_open kk (dk_wrapped wd) = Ok dek ∧ String.length dek = KEY_LEN.
(** One drawn key opens it, which no other tenant has. *)
Definition exclusive m (r : R) (tenant : string) (wd : WrappedDataKey) : Prop := ∃ kk,
  kk ∈ drawn r ∧ (∀ k', k' ≠ kk → ∃ e, crypto_open k' (dk_wrapped wd) = Err e) ∧
  ∀ t' rec tv, t' ≠ tenant → m !! t' = Some rec → tv ∈ versions rec →
    crypto_open root (tkv_wrapped tv) ≠ Ok kk.
Definition shredded m (tenant : string) : Prop := ∃ rec, m !! tenant = Some rec ∧ destroyed rec = true.

Lemma find_prefix {A} (f : A → bool) l l' x : l `prefix_of` l' → List.find f l = Some x → List.find f l' = Some x.
Proof.
  intros [l2 ->]. induction l as [|y l IH]; cbn; [done|]. by destruct (f y).
Qed.
Lemma unwrap_prefix rec rec' v k : versions rec `prefix_of` versions rec' →
  unwrap_tenant_key root rec v = Ok k → unwrap_tenant_key root rec' v = Ok k.
Proof.
  unfold unwrap_tenant_key, version_of. intros Hp.
  destruct (List.find _ (versions rec)) as [tv|] eqn:E; [|done]. by rewrite (find_prefix _ _ _ _ Hp E).
Qed.
Lemma unwrap_in rec v k : unwrap_tenant_key root rec v = Ok k →
  ∃ tv, tv ∈ versions rec ∧ crypto_open root (tkv_wrapped tv) = Ok k.
Proof.
  unfold unwrap_tenant_key, version_of. destruct (List.find _ _) as [tv|] eqn:E; [|done]. cbn.
  apply find_Some_elem in E as [Hin _]. intros Hu. exists tv. split; [done|].
  destruct (crypto_open root (tkv_wrapped tv)) as [p|e]; [|done]. cbn in Hu. unfold to_key_bytes in Hu.
  by destruct (Nat.eqb _ _); [injection Hu as ->|].
Qed.
Lemma unwrap_current m r tenant rec tv : kms_ok m r → m !! tenant = Some rec → tv ∈ versions rec →
  ∃ k, unwrap_tenant_key root rec (tkv_version tv) = Ok k.
Proof.
  intros [_ _ Hs _] Ht Htv. unfold unwrap_tenant_key, version_of.
  destruct (List.find _ (versions rec)) as [tv'|] eqn:E.
  - apply find_Some_elem in E as [Hin _]. cbn. destruct (Hs _ _ _ Ht Hin) as (k & -> & Hlen & _). cbn.
    unfold to_key_bytes. rewrite Hlen. by exists k.
  - pose proof (find_None_elem _ _ _ E Htv) as Hn. cbn in Hn. by rewrite Z.eqb_refl in Hn.
Qed.

Lemma held_evolves X m r m' r' tenant wd dek : evolves X m r m' r' → tenant ∉ X →
  held m tenant wd dek → held m' tenant wd dek.
Proof.
  intros (Hv & _ & _) Hx (rec & kk & Ht & Hd & Hu & Ho). destruct (Hv _ _ Ht) as (rec' & Ht' & Hp).
  destruct Hp as [Hd' Hp]; [by left|]. exists rec', kk. split_and!; try apply Ho; [done|congruence|].
  by eapply unwrap_prefix.
Qed.
Lemma exclusive_evolves X m r m' r' tenant wd : evolves X m r m' r' → exclusive m r tenant wd → exclusive m' r' tenant wd.
Proof.
  intros (_ & Hg & Hf) (kk & Hin & Ho & Hx). exists kk. split_and!; [by apply Hg|done|].
  intros t' rec tv Ht' Hr Htv Hopen. destruct (Hf _ _ _ _ Hr Htv Hopen Hin) as (rec0 & Hr0 & Htv0). by eapply Hx.
Qed.
Lemma shredded_evolves X m r m' r' tenant : evolves X m r m' r' → shredded m tenant → shredded m' tenant.
Proof.
  intros (Hv & _ & _) (rec & Ht & Hd). destruct (Hv _ _ Ht) as (rec' & Ht' & Hp). exists rec'.
  split; [done|]. rewrite (proj1 (Hp (or_intror Hd))). done.
Qed.

(** Wrapping under a key of the tenant. *)
Lemma wp_wrap {A} X m r tenant rec v kk dek (f : Sealed → A) w :
  at_ m w → grows r (rng w) → m !! tenant = Some rec → destroyed rec = false →
  unwrap_tenant_key root rec v = Ok kk → String.length dek = KEY_LEN →
  wp (wrapped ← crypto_seal kk dek; mret (f wrapped))
    (λ a w', ∃ wrapped, a = f wrapped ∧ at_ m w' ∧ evolves X m r m (rng w') ∧
       let wd := {| tenant_key_version := v; dk_wrapped := wrapped |} in
       held m tenant wd dek ∧ exclusive m (rng w') tenant wd) (stopped X m r) w.
Proof.
  intros Hat Hr Ht Hd Hu Hlen.
  eapply (wp_key_step X m r); [by apply wp_crypto_seal|done|]. intros wrapped w' (Hat' & Hg & Ho & Hx).
  apply wp_ret. exists wrapped. split; [done|]. split; [done|]. split.
  { apply keys_evolve_refl. by eapply grows_trans. }
  split.
  - exists rec, kk. by split_and!.
  - destruct (unwrap_in _ _ _ Hu) as (tv' & Htv' & Hopen). destruct Hat' as [_ [_ _ Hs Hdist]].
    exists kk. split_and!; [|done|].
    + destruct (Hs _ _ _ Ht Htv') as (k & Hk & _ & Hin). congruence.
    + intros t' rec' tv2 Hne Ht' Htv2 Ho2. destruct Hne. by eapply Hdist.
Qed.

(** *** The operations *)

(** The current version of a record in use. *)
Lemma current_version_in m r tenant rec : kms_ok m r → m !! tenant = Some rec → destroyed rec = false →
  ∃ tv, current_version rec = Some tv ∧ tv ∈ versions rec.
Proof.
  intros [_ Hv _ _] Ht Hd. specialize (Hv _ _ Ht Hd). unfold current_version.
  destruct (last (versions rec)) as [tv|] eqn:E; [|by apply last_None in E].
  exists tv. split; [done|]. apply last_Some in E as [l ->]. set_solver.
Qed.

Lemma wp_generate X m r tenant w : at_ m w → grows r (rng w) →
  wp (local_generate root tenant)
    (λ dk w', ∃ m', at_ m' w' ∧ evolves X m r m' (rng w') ∧
       held m' tenant (dk_key dk) (dk_plaintext dk) ∧ exclusive m' (rng w') tenant (dk_key dk))
    (stopped X m r) w.
Proof.
  intros Hat Hr. eapply wp_call; [by apply (wp_record_or_provision X m r)|].
  intros rec w1 (m1 & Hat1 & Hm1 & Ht & Hd).
  destruct (current_version_in _ _ _ _ (proj2 Hat1) Ht Hd) as (tv & Hc & Htv).
  apply wp_lift_bind. rewrite Hc. cbn [expect].
  destruct (unwrap_current m1 _ tenant rec tv (proj2 Hat1) Ht Htv) as [kk Hu].
  apply wp_lift_bind. rewrite Hu. cbn [of_result].
  apply (wp_mono _ (λ dk w', at_ m1 w' ∧ evolves X m1 (rng w1) m1 (rng w') ∧
    held m1 tenant (dk_key dk) (dk_plaintext dk) ∧ exclusive m1 (rng w') tenant (dk_key dk)) _ (stopped X m1 (rng w1))).
  - eapply wp_key_step; [by apply wp_random|done|]. intros dek w2 (Hat2 & Hlen & _ & _ & Hg2).
    eapply wp_mono; [by apply (wp_wrap X m1 (rng w1) tenant rec (tkv_version tv) kk dek)| |done].
    cbn. by intros dk w3 (wrapped & -> & Hat3 & Hm3 & Hh & Hx).
  - intros dk w3 (Hat3 & Hm3 & Hh & Hx). exists m1. split; [done|]. split; [by eapply keys_evolve_trans|done].
  - intros s w'. by apply stopped_trans.
Qed.

Lemma unwrap_held m w tenant wd dek : at_ m w → held m tenant wd dek →
  local_unwrap root tenant wd w = (w, Ret dek).
Proof.
  intros [Hr Hok] (rec & kk & Ht & Hd & Hu & Ho & Hlen).
  unfold local_unwrap, active_record, store_get, mbind, M_bind.
  rewrite (kms_get_reads _ _ _ Hr), Ht. cbn. rewrite Hd. cbn. rewrite Hu. cbn. rewrite Ho. cbn.
  unfold to_key_bytes. by rewrite Hlen.
Qed.
Lemma active_record_shredded m w tenant : at_ m w → shredded m tenant →
  active_record tenant w = (w, Stop (Throw (destroyed_error tenant))).
Proof.
  intros [Hr Hok] (rec & Ht & Hd). unfold active_record, store_get, mbind, M_bind.
  rewrite (kms_get_reads _ _ _ Hr), Ht. cbn. by rewrite Hd.
Qed.
Lemma record_or_provision_shredded m w tenant : at_ m w → shredded m tenant →
  record_or_provision root tenant w = (w, Stop (Throw (destroyed_error tenant))).
Proof.
  intros [Hr Hok] (rec & Ht & Hd). unfold record_or_provision, store_get, mbind, M_bind.
  rewrite (kms_get_reads _ _ _ Hr), Ht. cbn. by rewrite Hd.
Qed.

Lemma wp_unwrap X m r tenant wd w : at_ m w → grows r (rng w) →
  wp (local_unwrap root tenant wd) (λ _ w', w' = w) (stopped X m r) w.
Proof.
  intros Hat Hr. eapply wp_call; [by apply (wp_active_record X m r)|]. intros rec w' (-> & Ht & Hd).
  assert (∀ e, stopped X m r (Throw e) w) as Hs by (intros e; split; [by apply moved_here|by eexists]).
  apply wp_lift_bind. destruct (unwrap_tenant_key _ _ _) as [kk|e]; cbn [of_result]; [|apply Hs].
  apply wp_lift_bind. destruct (crypto_open _ _) as [p|e]; cbn [of_result]; [|apply Hs].
  unfold wp, lift. by destruct (to_key_bytes p) as [|e]; cbn; [|apply Hs].
Qed.
Lemma unwrap_foreign m w tenant tenant' wd : at_ m w → exclusive m (rng w) tenant wd → tenant' ≠ tenant →
  ∃ e, local_unwrap root tenant' wd w = (w, Stop (Throw e)).
Proof.
  intros [Hr Hok] (kk & _ & Ho & Hx) Hne.
  unfold local_unwrap, active_record, store_get, mbind, M_bind.
  rewrite (kms_get_reads _ _ _ Hr). cbn. destruct (m !! tenant') as [rec|] eqn:Ht; [|by eexists].
  destruct (destroyed rec); [by eexists|]. cbn.
  destruct (unwrap_tenant_key root rec _) as [k|e] eqn:Hu; [|by eexists]. cbn.
  destruct (unwrap_in _ _ _ Hu) as (tv & Htv & Hopen).
  destruct (Ho k) as [e ->]; [|by eexists]. intros ->. by eapply Hx.
Qed.
Lemma held_unique m tenant wd d d' : held m tenant wd d → held m tenant wd d' → d = d'.
Proof.
  intros (rec & kk & Ht & _ & Hu & Ho & _) (rec' & kk' & Ht' & _ & Hu' & Ho' & _). congruence.
Qed.

Lemma wp_rewrap X m r tenant wd w : at_ m w → grows r (rng w) →
  wp (local_rewrap root tenant wd)
    (λ wd' w', at_ m w' ∧ evolves X m r m (rng w') ∧
       ∃ dek, held m tenant wd dek ∧ held m tenant wd' dek ∧ exclusive m (rng w') tenant wd')
    (stopped X m r) w.
Proof.
  intros Hat Hr. eapply wp_call; [by apply (wp_active_record X m r)|]. intros rec w' (-> & Ht & Hd).
  assert (∀ e, stopped X m r (Throw e) w) as Hs by (intros e; split; [by apply moved_here|by eexists]).
  apply wp_lift_bind. destruct (unwrap_tenant_key _ _ (tenant_key_version wd)) as [kk|e] eqn:Hu; cbn [of_result]; [|apply Hs].
  apply wp_lift_bind. destruct (crypto_open _ _) as [p|e] eqn:Ho; cbn [of_result]; [|apply Hs].
  apply wp_lift_bind. unfold to_key_bytes.
  destruct (Nat.eqb_spec (String.length p) KEY_LEN) as [Hlen|]; cbn [of_result]; [|apply Hs].
  destruct (current_version_in _ _ _ _ (proj2 Hat) Ht Hd) as (tv & Hc & Htv).
  apply wp_lift_bind. rewrite Hc. cbn [expect].
  destruct (unwrap_current m _ tenant rec tv (proj2 Hat) Ht Htv) as [kk' Hu'].
  apply wp_lift_bind. rewrite Hu'. cbn [of_result].
  eapply wp_mono; [by apply (wp_wrap X m r tenant rec (tkv_version tv) kk' p)| |done].
  cbn. intros wd' w' (wrapped & -> & Hat' & Hm & Hh & Hx). split; [done|]. split; [done|].
  exists p. split; [by exists rec, kk|done].
Qed.

Lemma wp_rotate X m r tenant w : at_ m w → grows r (rng w) →
  wp (local_rotate root tenant) (λ _ w', moved X m r w') (stopped X m r) w.
Proof.
  intros Hat Hr. eapply wp_call; [by apply (wp_record_or_provision X m r)|].
  intros rec w1 (m1 & Hat1 & Hm1 & Ht & Hd). rewrite Hd.
  assert (tk_tenant rec = tenant) as -> by by apply (ok_keyed _ _ (proj2 Hat1)).
  eapply wp_mono; [by apply (wp_new_version X m1 (rng w1) tenant (versions rec)); [done|done|
    intros rec'; rewrite Ht; by intros [= <-]|rewrite Ht]| |intros s w'; by apply stopped_trans].
  cbn. intros v w2 (wrapped & _ & Hat2 & Hm2). eexists. split; [done|by eapply keys_evolve_trans].
Qed.

Lemma wp_destroy X m r tenant w : at_ m w → grows r (rng w) → tenant ∈ X →
  wp (local_destroy tenant) (λ _ w', ∃ m', at_ m' w' ∧ evolves X m r m' (rng w') ∧ shredded m' tenant)
    (stopped X m r) w.
Proof.
  intros Hat Hr Hx. eapply wp_call; [by apply (wp_active_record X m r)|]. intros rec w' (-> & Ht & Hd).
  assert (tk_tenant rec = tenant) as Heq by by apply (ok_keyed _ _ (proj2 Hat)).
  set (rec' := {| tk_tenant := tk_tenant rec; versions := []; destroyed := true |}).
  assert (kms_ok (<[tk_tenant rec' := rec']> m) (rng w)) as Hok.
  { destruct Hat as [_ [Hk Hv Hs Hdist]]. split.
    - by apply keyed_insert.
    - intros t rec0. rewrite lookup_insert_Some. intros [[_ <-]|[_ Ht0]]; [done|by eapply Hv].
    - intros t rec0 tv. rewrite lookup_insert_Some. intros [[_ <-]|[_ Ht0]]; [set_solver|by eapply Hs].
    - intros t1 t2 rec1 rec2 tv1 tv2 k. rewrite !lookup_insert_Some.
      intros [[_ <-]|[_ Ht1]] [[_ <-]|[_ Ht2]]; [set_solver..|by eapply Hdist]. }
  eapply wp_mono; [by apply wp_store_put| |intros s w'; by apply refused_stopped].
  intros _ w' [Hat' Hrng]. eexists. split; [exact Hat'|]. rewrite Hrng. split.
  - apply (keys_evolve_insert X m r (rng w) rec'); [done| |set_solver].
    cbn. rewrite Heq. intros old Ho [Hn|Hdo]; [done|congruence].
  - exists rec'. split; [|done]. cbn. by rewrite Heq, lookup_insert_eq.
Qed.
(** *** Sequences of operations *)

#[local] Instance root_kms : Kms (LocalWorld S R) := local_kms root.

Lemma wp_envelope_seal X m r tenant p w : at_ m w → grows r (rng w) →
  wp (envelope_seal tenant p)
    (λ sd w', ∃ m' dek, at_ m' w' ∧ evolves X m r m' (rng w') ∧ held m' tenant (wrapped_key sd) dek ∧
       exclusive m' (rng w') tenant (wrapped_key sd) ∧ crypto_open dek (sealed sd) = Ok p)
    (stopped X m r) w.
Proof.
  intros Hat Hr. eapply wp_call; [by apply (wp_generate X m r)|].
  intros dk w1 (m1 & Hat1 & Hm1 & Hh & Hx).
  eapply wp_call.
  - eapply wp_mono; [by apply wp_crypto_seal|done|]. intros s w2 Hs.
    apply (stopped_trans X m r m1 (rng w1)); [done|]. by eapply refused_stopped.
  - intros sd w2 (Hat2 & Hg2 & Ho & _). apply wp_ret. exists m1, (dk_plaintext dk). cbn.
    assert (evolves X m1 (rng w1) m1 (rng w2)) as Hm2 by by apply keys_evolve_refl.
    split; [done|]. split; [by eapply keys_evolve_trans|]. split; [done|]. split; [by eapply exclusive_evolves|done].
Qed.
Lemma open_held m w tenant sd dek p : at_ m w → held m tenant (wrapped_key sd) dek →
  crypto_open dek (sealed sd) = Ok p → envelope_open tenant sd w = (w, Ret p).
Proof.
  intros Hat Hh Ho. unfold envelope_open, mbind, M_bind. cbn. rewrite (unwrap_held m w _ _ dek Hat Hh).
  unfold lift. by rewrite Ho.
Qed.
Lemma wp_envelope_open X m r tenant sd w : at_ m w → grows r (rng w) →
  wp (envelope_open tenant sd) (λ _ w', w' = w) (stopped X m r) w.
Proof.
  intros Hat Hr. eapply wp_call; [by apply (wp_unwrap X m r)|]. intros dek w' ->.
  unfold wp, lift. destruct (crypto_open dek _) as [p|e]; cbn; [done|]. split; [by apply moved_here|by eexists].
Qed.

Lemma kms_step_moves op m r w (X : gset string) : at_ m w → grows r (rng w) →
  (∀ t, op = DestroyKey t → t ∈ X) → moved X m r (kms_step op w).1.
Proof.
  intros Hat Hr Hx.
  assert (∀ A (p : M (LocalWorld S R) A), wp p (λ _ w', moved X m r w') (stopped X m r) w → moved X m r (p w).1) as Hwp.
  { intros A p. unfold wp. destruct (p w) as [w' [a|s]]; [done|]. by intros [? _]. }
  assert (∀ A (p : M (LocalWorld S R) A), wp p (λ _ w', moved X m r w') (stopped X m r) w →
    moved X m r ((_ ← p; mret ()) w).1) as Hthen.
  { intros A p. unfold wp, mbind, M_bind. destruct (p w) as [w' [a|s]]; [done|]. by intros [? _]. }
  destruct op as [t|t wd|t wd|t|t|t p|t sd]; cbn [kms_step]; [apply Hthen..|apply Hwp|apply Hthen|apply Hthen].
  - eapply wp_mono; [by apply (wp_generate X m r)| |done]. cbn. intros dk w' (m' & Hat' & Hm & _). by exists m'.
  - eapply wp_mono; [by apply (wp_unwrap X m r)| |done]. cbn. intros _ w' ->. by apply moved_here.
  - eapply wp_mono; [by apply (wp_rewrap X m r)| |done]. cbn. intros _ w' (Hat' & Hm & _). by exists m.
  - by apply wp_rotate.
  - eapply wp_mono; [apply (wp_destroy X m r); [done..|by apply Hx]| |done]. cbn. intros _ w' (m' & Hat' & Hm & _). by exists m'.
  - eapply wp_mono; [by apply (wp_envelope_seal X m r)| |done]. cbn. intros sd w' (m' & dek & Hat' & Hm & _). by exists m'.
  - eapply wp_mono; [by apply (wp_envelope_open X m r)| |done]. cbn. intros _ w' ->. by apply moved_here.
Qed.
Lemma kms_run_moves ops m r w (X : gset string) : at_ m w → grows r (rng w) →
  (∀ t, DestroyKey t ∈ ops → t ∈ X) → moved X m r (kms_run ops w).
Proof.
  revert m r w. induction ops as [|op ops IH]; intros m r w Hat Hr Hx; cbn; [by apply moved_here|].
  destruct (kms_step_moves op m r w X Hat Hr) as (m1 & Hat1 & Hm1); [intros t ->; apply Hx; set_solver|].
  destruct (IH m1 (rng (kms_step op w).1) (kms_step op w).1 Hat1) as (m2 & Hat2 & Hm2); [done|set_solver|].
  exists m2. split; [done|by eapply keys_evolve_trans].
Qed.

Definition local_in_order w : Prop := ∃ m, at_ m w.
Definition local_opens w tenant sd p : Prop := ∃ m dek, at_ m w ∧
  held m tenant (wrapped_key sd) dek ∧ crypto_open dek (sealed sd) = Ok p.

Lemma at_unique m m' w : at_ m w → at_ m' w → m = m'.
Proof.
  intros [Hr _] [Hr' _]. apply map_eq. intros t. pose proof (kms_get_reads _ _ t Hr) as Hg.
  rewrite (kms_get_reads _ _ t Hr') in Hg. by injection Hg.
Qed.
Lemma opens_moved m w w' tenant sd p : at_ m w → moved ∅ m (rng w) w' →
  local_opens w tenant sd p → local_opens w' tenant sd p.
Proof.
  intros Hat (m' & Hat' & Hm) (m0 & dek & Hat0 & Hh & Ho). rewrite (at_unique _ _ _ Hat0 Hat) in Hh.
  exists m', dek. split; [done|]. split; [|done]. eapply held_evolves; [done|set_solver|done].
Qed.

#[export] Instance local_kms_laws : KmsLaws (LocalWorld S R).
Proof.
  refine {| in_order := local_in_order; opens := local_opens |}.
  - intros tenant p w [m Hat].
    assert (∀ w', moved ∅ m (rng w) w' → local_in_order w' ∧
      ∀ t sd' p', local_opens w t sd' p' → local_opens w' t sd' p') as Hmoved.
    { intros w' Hm. split; [destruct Hm as (m' & Hat' & _); by exists m'|]. intros t sd' p'.
      by eapply (opens_moved m). }
    eapply wp_mono; [by apply (wp_envelope_seal ∅ m (rng w))| |].
    + intros sd w' (m' & dek & Hat' & Hm & Hh & _ & Ho). destruct (Hmoved w') as [Hi Hk]; [by exists m'|].
      split; [done|]. split; [|done]. by exists m', dek.
    + intros s w' [Hm He]. destruct (Hmoved w' Hm). done.
  - intros tenant sd p w _ (m & dek & Hat & Hh & Ho). by eapply open_held.
Defined.
End local.

(** ** The theorem of the key hierarchy *)

(** C33: Sealed data is its tenant's until the tenant is shredded.  From a key
    catalog in order, with fresh randomness and an authenticated cipher: what
    was sealed for a tenant opens to the same bytes after any operations of
    any tenants, whatever they answered - key rotations, seals, failed and
    foreign calls, and rewraps of its own key included - as long as the tenant
    itself is not shredded; no other tenant can open it, then or later; and
    once the tenant is shredded it never opens again and nothing is sealed for
    the tenant any more, whatever is called. *)
Theorem sealed_data_is_the_tenants {S R} `{KmsStoreLaws S, RandomLaws R, AeadLaws} root tenant p
    (w w1 : LocalWorld S R) sd ops :
  local_in_order root w →
  envelope_seal (H := local_kms root) tenant p w = (w1, Ret sd) →
  let run := kms_run (H := local_kms root) in
  let open_by := envelope_open (H := local_kms root) in
  let w2 := run ops w1 in
  (DestroyKey tenant ∉ ops →
    open_by tenant sd w2 = (w2, Ret p) ∧
    ∀ w3 wd, local_rewrap root tenant (wrapped_key sd) w2 = (w3, Ret wd) →
      open_by tenant {| wrapped_key := wd; sealed := sealed sd |} w3 = (w3, Ret p)) ∧
  (∀ other, other ≠ tenant → ∃ e, open_by other sd w2 = (w2, Stop (Throw e))) ∧
  ∀ w3 ops' data, local_destroy tenant w2 = (w3, Ret ()) → let w4 := run ops' w3 in
    open_by tenant sd w4 = (w4, Stop (Throw (destroyed_error tenant))) ∧
    envelope_seal (H := local_kms root) tenant data w4 = (w4, Stop (Throw (destroyed_error tenant))).
Proof.
  intros [m Hat] Hseal run open_by w2.
  pose proof (wp_envelope_seal root ∅ m (rng w) tenant p w Hat (grows_refl _)) as Hw.
  unfold wp, root_kms in Hw. rewrite Hseal in Hw. destruct Hw as (m1 & dek & Hat1 & Hm1 & Hh & Hx & Ho).
  destruct (kms_run_moves root ops m1 (rng w1) w1 (list_to_set (omap shredded_by ops)) Hat1 (grows_refl _))
    as (m2 & Hat2 & Hm2); [intros t; apply shredded_by_elem|]. change (at_ root m2 w2) in Hat2.
  split; [|split].
  - intros Hn. assert (held root m2 tenant (wrapped_key sd) dek) as Hh2.
    { eapply held_evolves; [done| |done]. rewrite <-shredded_by_elem. done. }
    split; [by eapply open_held|]. intros w3 wd Hr.
    pose proof (wp_rewrap root ∅ m2 (rng w2) tenant (wrapped_key sd) w2 Hat2 (grows_refl _)) as Hw.
    unfold wp in Hw. rewrite Hr in Hw. destruct Hw as (Hat3 & _ & dek' & Hh3 & Hh3' & _).
    rewrite (held_unique root _ _ _ _ _ Hh3 Hh2) in Hh3'. by eapply open_held.
  - intros other Hne. eapply exclusive_evolves in Hx; [|done].
    destruct (unwrap_foreign root m2 w2 tenant other (wrapped_key sd) Hat2 Hx Hne) as [e He].
    exists e. unfold open_by, envelope_open, mbind, M_bind. cbn. by rewrite He.
  - intros w3 ops' data Hd w4.
    pose proof (wp_destroy root {[tenant]} m2 (rng w2) tenant w2 Hat2 (grows_refl _)) as Hw.
    unfold wp in Hw. rewrite Hd in Hw. destruct Hw as (m3 & Hat3 & _ & Hs3); [set_solver|].
    destruct (kms_run_moves root ops' m3 (rng w3) w3 (list_to_set (omap shredded_by ops')) Hat3 (grows_refl _))
      as (m4 & Hat4 & Hm4); [intros t; apply shredded_by_elem|]. change (at_ root m4 w4) in Hat4.
    pose proof (shredded_evolves root _ _ _ _ _ _ Hm4 Hs3) as Hs4.
    unfold open_by, envelope_open, envelope_seal, local_unwrap, local_generate, mbind, M_bind. cbn.
    unfold local_unwrap, local_generate, mbind, M_bind.
    by rewrite (active_record_shredded root m4 w4 _ Hat4 Hs4), (record_or_provision_shredded root m4 w4 _ Hat4 Hs4).
Qed.

(** ** Ordered iteration over pairs *)

Lemma pair_iter_elem {V} (m : gmap (string * string) V) k v : (k, v) ∈ pair_iter m ↔ m !! k = Some v.
Proof.
  unfold pair_iter. rewrite list_elem_of_omap. split.
  - intros (k' & _ & Hv). apply fmap_Some in Hv as (v' & Hv' & [= -> ->]). done.
  - intros Hv. exists k. split; [|by rewrite Hv].
    rewrite merge_sort_Permutation, elem_of_elements, elem_of_dom. by eexists.
Qed.
Lemma pair_iter_nodup {V} (m : gmap (string * string) V) : NoDup (fst <$> pair_iter m).
Proof.
  set (ks := merge_sort pair_le (elements (dom m))).
  assert (NoDup ks) as Hks by (unfold ks; rewrite merge_sort_Permutation; apply NoDup_elements).
  assert (fst <$> pair_iter m `sublist_of` ks) as Hs; [|exact (sublist_NoDup _ _ Hks Hs)].
  unfold pair_iter. fold ks. clear Hks. induction ks as [|k l IH]; [done|]. cbn [omap list_omap].
  destruct (m !! k); simpl; by constructor.
Qed.
Lemma pair_iter_fmap {V V'} (f : V → V') (m : gmap (string * string) V) :
  pair_iter (f <$> m) = prod_map (λ k, k) f <$> pair_iter m.
Proof.
  unfold pair_iter. rewrite dom_fmap_L. induction (merge_sort _ _) as [|k l IH]; [done|].
  cbn [omap list_omap]. rewrite lookup_fmap. destruct (m !! k) as [v|]; simpl; [by f_equal|done].
Qed.
Lemma in_namespace_fmap {V V'} (f : V → V') (namespace : string) (m : gmap (string * string) V) :
  map f (in_namespace namespace m) = in_namespace namespace (f <$> m).
Proof.
  unfold in_namespace. rewrite pair_iter_fmap. induction (pair_iter m) as [|[k v] l IH]; [done|].
  cbn. destruct (String.eqb _ _); cbn; by rewrite IH.
Qed.
Lemma insert_pair_values {V} (key : V → string * string) (m : gmap (string * string) V) :
  keyed key m → foldl (λ m v, <[key v := v]> m) ∅ (map snd (pair_iter m)) = m.
Proof. intros Hk. apply insert_keyed_values; [apply pair_iter_nodup|apply pair_iter_elem|done]. Qed.

(** A catalog file: what is written is read back. *)
Class ListSerdeLaws (A : Type) `{ListSerde A} :=
  list_reads_back (l : list A) bytes : list_to_vec l = inr bytes → list_from_slice bytes = inr l.

Lemma persist_loads `{ListSerdeLaws A} what (key : A → string * string) m file : keyed key m →
  match persist_catalog what m file with
  | (file', Ok _) => load_catalog what key file' = Ok m
  | (file', Err _) => file' = file
  end.
Proof.
  intros Hk. unfold persist_catalog. destruct (list_to_vec _) as [e|bytes] eqn:E; [done|]. cbn.
  rewrite (list_reads_back _ _ E). by rewrite insert_pair_values.
Qed.

(** ** The calls of a secret store, and what they answer *)

Inductive secret_op :=
  | PutSecret (s : Secret) | GetSecret (namespace name : string)
  | DeleteSecret (namespace name : string) | ListSecrets (namespace : string).
Inductive secret_answer :=
  | AnUnit | AnSecret (s : option Secret) | AnBool (b : bool) | AnList (l : list SecretMetadata).
Definition secret_step {W} `{SecretStore W} (op : secret_op) : M W secret_answer :=
  match op with
  | PutSecret s => _ ← secret_put s; mret AnUnit
  | GetSecret namespace name => s ← secret_get namespace name; mret (AnSecret s)
  | DeleteSecret namespace name => b ← secret_delete namespace name; mret (AnBool b)
  | ListSecrets namespace => l ← secret_list namespace; mret (AnList l)
  end.
Definition is_write (op : secret_op) : bool :=
  match op with PutSecret _ | DeleteSecret _ _ => true | _ => false end.
Fixpoint secret_answers {W} `{SecretStore W} (ops : list secret_op) (w : W) : list (outcome secret_answer) :=
  match ops with
  | [] => []
  | op :: ops => let '(w', a) := secret_step op w in a :: secret_answers ops w'
  end.

(** The answers are those of a map of secrets, except that a write may be
    refused with an error, and then changes nothing. *)
Fixpoint answers_of_map (ops : list secret_op) (answers : list (outcome secret_answer))
    (m : InMemorySecretStore.t) : Prop :=
  match ops, answers with
  | [], [] => True
  | op :: ops, Ret a :: answers =>
    let '(m', a') := secret_step op m in a' = Ret a ∧ answers_of_map ops answers m'
  | op :: ops, Stop (Throw _) :: answers => is_write op = true ∧ answers_of_map ops answers m
  | _, _ => False
  end.

(** Rust strings are text. *)
Definition text_secret (s : Secret) : Prop :=
  utf8_valid (se_value s) = true ∧ ∀ p, se_previous s = Some p → utf8_valid p = true.
Definition op_text (op : secret_op) : Prop := match op with PutSecret s => text_secret s | _ => True end.

(** ** The encrypting secret store is a map of secrets *)

Section encrypted.
Context {K : Type} `{HK : KmsLaws K, HE : ListSerdeLaws EncryptedRecord, ListSerde Secret}.
Abbreviation t := (EncryptedFileSecretStore.t (K := K)) (only parsing).
Implicit Types (w : Sealing SecretFiles K) (m : gmap (string * string) Secret).

Definition record_is (k : K) (r : EncryptedRecord) (s : Secret) : Prop :=
  er_namespace r = se_namespace s ∧ er_name r = se_name s ∧ er_version r = se_version s ∧ text_secret s ∧
  opens k (se_namespace s) (sealed_value r) (se_value s) ∧
  option_Forall2 (opens k (se_namespace s)) (sealed_previous r) (se_previous s).

Definition catalog_is (k : K) (em : gmap (string * string) EncryptedRecord) m : Prop :=
  keyed EncryptedFileSecretStore.record_key em ∧ ∀ i, option_Forall2 (record_is k) (em !! i) (m !! i).
(** The file holds the secrets of [m], sealed. *)
Definition represents w m : Prop := in_order (keys w) ∧
  ∃ em, load_catalog "secrets.enc.json" EncryptedFileSecretStore.record_key (enc_file (disk w)) = Ok em ∧
    catalog_is (keys w) em m.

Definition keeps (k k' : K) : Prop := ∀ tenant sd p, opens k tenant sd p → opens k' tenant sd p.
Lemma keeps_refl k : keeps k k.
Proof. by intros t sd p. Qed.
Lemma keeps_trans k1 k2 k3 : keeps k1 k2 → keeps k2 k3 → keeps k1 k3.
Proof. intros H12 H23 t sd p Ho. by apply H23, H12. Qed.
Lemma record_is_mono k k' r s : keeps k k' → record_is k r s → record_is k' r s.
Proof.
  intros Hk (? & ? & ? & ? & Hv & Hp). split_and!; try done; [by apply Hk|].
  destruct Hp; constructor. by apply Hk.
Qed.
Lemma catalog_is_mono k k' em m : keeps k k' → catalog_is k em m → catalog_is k' em m.
Proof.
  intros Hk [Hkey Hr]. split; [done|]. intros i. destruct (Hr i); constructor. by eapply record_is_mono.
Qed.
Lemma represents_keys w m k : represents w m → in_order k → keeps (keys w) k →
  represents {| disk := disk w; keys := k |} m.
Proof. intros [_ (em & Hl & Hc)] Hk Hm. split; [done|]. exists em. split; [done|]. by eapply catalog_is_mono. Qed.

(** The keys move, the disk stays. *)
Definition sealing_post w (s : stop) w' : Prop :=
  (∃ e, s = Throw e) ∧ in_order (keys w') ∧ keeps (keys w) (keys w') ∧ disk w' = disk w.

Lemma wp_seal w tenant p : in_order (keys w) →
  wp (EncryptedFileSecretStore.seal tenant p)
    (λ sd w', in_order (keys w') ∧ keeps (keys w) (keys w') ∧ disk w' = disk w ∧ opens (keys w') tenant sd p)
    (sealing_post w) w.
Proof.
  intros Hk. pose proof (seal_law tenant p (keys w) Hk) as Hw.
  unfold wp, EncryptedFileSecretStore.seal, on_keys, zoom in *.
  destruct (envelope_seal tenant p (keys w)) as [k [sd|s]]; cbn in *.
  - by destruct Hw as (? & ? & ?).
  - by destruct Hw as (? & ? & ?).
Qed.

Lemma wp_encrypt w s : in_order (keys w) → text_secret s →
  wp (EncryptedFileSecretStore.encrypt s)
    (λ r w', in_order (keys w') ∧ keeps (keys w) (keys w') ∧ disk w' = disk w ∧ record_is (keys w') r s)
    (sealing_post w) w.
Proof.
  intros Hk Hs. eapply wp_call; [by apply wp_seal|]. intros v w1 (Hk1 & Hm1 & Hd1 & Hv).
  eapply (wp_call _ _ (λ p w2, in_order (keys w2) ∧ keeps (keys w1) (keys w2) ∧ disk w2 = disk w1 ∧
    option_Forall2 (opens (keys w2) (se_namespace s)) p (se_previous s))).
  - destruct (se_previous s) as [p|]; cbn [traverse].
    + eapply wp_call.
      * eapply wp_mono; [by apply wp_seal|done|]. intros st w2 (He & Hk2 & Hm2 & Hd2).
        split; [done|]. split; [done|]. split; [by eapply keeps_trans|congruence].
      * intros sd w2 (Hk2 & Hm2 & Hd2 & Ho). apply wp_ret.
        split; [done|]. split; [done|]. split; [done|]. by constructor.
    + apply wp_ret. split; [done|]. split; [apply keeps_refl|]. split; [done|constructor].
  - intros p w2 (Hk2 & Hm2 & Hd2 & Hp). apply wp_ret.
    split; [done|]. split; [by eapply keeps_trans|]. split; [congruence|].
    split_and!; try done. by apply Hm2.
Qed.

Lemma unseal_opens w tenant sd p : in_order (keys w) → opens (keys w) tenant sd p → utf8_valid p = true →
  EncryptedFileSecretStore.unseal tenant sd w = (w, Ret p).
Proof.
  intros Hk Ho Hp. unfold EncryptedFileSecretStore.unseal, on_keys, zoom, mbind, M_bind.
  rewrite (open_law _ _ _ _ Hk Ho). unfold lift. rewrite (from_utf8_valid _ Hp). by destruct w.
Qed.
Lemma decrypt_is w r s : in_order (keys w) → record_is (keys w) r s →
  EncryptedFileSecretStore.decrypt r w = (w, Ret s).
Proof.
  intros Hk (Hns & Hn & Hv & [Ht Htp] & Ho & Hp). unfold EncryptedFileSecretStore.decrypt, mbind, M_bind.
  rewrite Hns, (unseal_opens _ _ _ _ Hk Ho Ht). destruct s as [ns n v prev ver]; cbn in *.
  destruct Hp as [sd p Hop|]; cbn; unfold mbind, M_bind.
  - rewrite (unseal_opens _ _ _ _ Hk Hop (Htp p eq_refl)). cbn. by subst.
  - cbn. by subst.
Qed.
Lemma catalog_is_insert k em m r s : catalog_is k em m → record_is k r s →
  catalog_is k (<[EncryptedFileSecretStore.record_key r := r]> em) (<[(se_namespace s, se_name s) := s]> m).
Proof.
  intros [Hkey Hr] Hrs. split; [by apply keyed_insert|]. destruct Hrs as (Hns & Hn & Hrest) eqn:E. clear E.
  unfold EncryptedFileSecretStore.record_key. rewrite Hns, Hn. intros i.
  destruct (decide ((se_namespace s, se_name s) = i)) as [<-|Hne].
  - rewrite !lookup_insert_eq. by constructor.
  - rewrite !lookup_insert_ne by done. apply Hr.
Qed.
Lemma catalog_is_delete k em m i : catalog_is k em m → catalog_is k (delete i em) (delete i m).
Proof.
  intros [Hkey Hr]. split; [by apply keyed_delete|]. intros j.
  destruct (decide (i = j)) as [<-|Hne]; [rewrite !lookup_delete_eq; constructor|].
  rewrite !lookup_delete_ne by done. apply Hr.
Qed.
Lemma catalog_is_metadata k em m : catalog_is k em m →
  EncryptedFileSecretStore.record_metadata <$> em = metadata_of <$> m.
Proof.
  intros [_ Hr]. apply map_eq. intros i. rewrite !lookup_fmap. destruct (Hr i) as [r s (Hns & Hn & Hv & _)|]; [|done].
  cbn. unfold EncryptedFileSecretStore.record_metadata, metadata_of. by rewrite Hns, Hn, Hv.
Qed.

(** Writing a catalog: read back, or refused and left. *)
Lemma wp_persist em w : keyed EncryptedFileSecretStore.record_key em →
  wp (EncryptedFileSecretStore.persist em)
    (λ _ w', keys w' = keys w ∧ plain_file (disk w') = plain_file (disk w) ∧
       load_catalog "secrets.enc.json" EncryptedFileSecretStore.record_key (enc_file (disk w')) = Ok em)
    (λ s w', (∃ e, s = Throw e) ∧ w' = w) w.
Proof.
  intros Hk. pose proof (persist_loads "secrets.enc.json" _ em (enc_file (disk w)) Hk) as Hp.
  unfold wp, EncryptedFileSecretStore.persist, on_disk, zoom.
  destruct (persist_catalog _ em _) as [file' [[]|e]]; cbn; [done|]. subst file'.
  split; [by eexists|]. by destruct w as [[] ?].
Qed.

Lemma wp_load w m : represents w m →
  wp (EncryptedFileSecretStore.load)
    (λ em w', w' = w ∧ catalog_is (keys w) em m) (λ _ _, False) w.
Proof. intros (Hk & em & Hl & Hc). unfold wp, EncryptedFileSecretStore.load. by rewrite Hl. Qed.

Lemma secret_step_represents op w m : represents w m → op_text op →
  wp (secret_step op)
    (λ a w', ∃ m', secret_step op (m : InMemorySecretStore.t) = (m', Ret a) ∧ represents w' m')
    (λ s w', (∃ e, s = Throw e) ∧ is_write op = true ∧ represents w' m) w.
Proof.
  intros Hw Hop. pose proof Hw as (Hk & _). destruct op as [s|ns n|ns n|ns]; cbn [secret_step].
  - apply (wp_call _ _ (λ _ w', represents w' (<[(se_namespace s, se_name s) := s]> m)));
      [|intros _ w' Hw'; apply wp_ret; by eexists].
    eapply wp_call; [eapply wp_mono; [by apply wp_encrypt|done|]|].
    { intros st w' (He & Hk' & Hm & Hd). split; [done|]. split; [done|].
      destruct w'; cbn in *; subst. by apply represents_keys. }
    intros r w1 (Hk1 & Hm1 & Hd1 & Hr). assert (represents w1 m) as Hw1.
    { destruct w1; cbn in *; subst. by apply represents_keys. }
    eapply wp_call; [eapply wp_mono; [by apply wp_load|done|done]|]. intros em w2 [-> Hc].
    pose proof (catalog_is_insert _ _ _ _ _ Hc Hr) as Hc'.
    eapply wp_mono; [apply wp_persist, Hc'| |].
    + intros _ w2 (Hk2 & _ & Hl). split; [by rewrite Hk2|]. eexists. split; [exact Hl|]. by rewrite Hk2.
    + by intros st w2 [He ->].
  - eapply wp_call; [eapply wp_call; [eapply wp_mono; [by apply wp_load|done|done]|]|].
    + intros em w2 [-> Hc].
      instantiate (1 := λ o w', o = m !! (ns, n) ∧ w' = w). destruct (proj2 Hc (ns, n)) as [r s Hr|]; cbn [traverse].
      * unfold wp, mbind, M_bind. by rewrite (decrypt_is _ _ _ Hk Hr).
      * by apply wp_ret.
    + intros o w' [-> ->]. apply wp_ret. by exists m.
  - eapply wp_call; [eapply wp_call; [eapply wp_mono; [by apply wp_load|done|done]|]|].
    + intros em w2 [-> Hc].
      instantiate (1 := λ b w', b = bool_decide (is_Some (m !! (ns, n))) ∧ represents w' (delete (ns, n) m)).
      pose proof (proj2 Hc (ns, n)) as Hn. destruct (m !! (ns, n)) as [s|] eqn:Em; inversion Hn as [r s' Hr|]; subst.
      * pose proof (catalog_is_delete _ _ _ (ns, n) Hc) as Hc'.
        eapply wp_call; [eapply wp_mono; [apply wp_persist, Hc'|done|]|].
        { by intros st w2 [He ->]. }
        intros _ w2 (Hk2 & _ & Hl). apply wp_ret. split; [done|]. split; [by rewrite Hk2|].
        eexists. split; [exact Hl|]. by rewrite Hk2.
      * apply wp_ret. split; [done|]. by rewrite delete_id.
    + intros b w' [-> Hw']. apply wp_ret. by eexists.
  - eapply wp_call; [eapply wp_call; [eapply wp_mono; [by apply wp_load|done|done]|]|].
    + intros em w2 [-> Hc]. apply wp_ret.
      instantiate (1 := λ l w', l = map metadata_of (in_namespace ns m) ∧ w' = w). split; [|done].
      by rewrite !in_namespace_fmap, (catalog_is_metadata _ _ _ Hc).
    + intros l w' [-> ->]. apply wp_ret. by exists m.
Qed.
End encrypted.

(** The encrypting secret store is a map of secrets.  Over any key manager
    that keeps its promise, from a state that represents a map, any sequence
    of puts, gets, deletions and listings is answered exactly as by the map in
    memory - values, retained previous values, versions and listings in order
    - except that a write the key manager or the encoder refuses is an error
    and changes nothing: no answer is wrong, no record is lost, nothing
    panics. *)
Theorem encrypted_secrets_are_a_map {K} `{KmsLaws K, ListSerdeLaws EncryptedRecord, ListSerde Secret}
    ops (w : EncryptedFileSecretStore.t (K := K)) (m : InMemorySecretStore.t) :
  represents w m → Forall op_text ops → answers_of_map ops (secret_answers ops w) m.
Proof.
  intros Hw Hops. revert w m Hw. induction Hops as [|op ops Hop Hops IH]; intros w m Hw; [done|].
  cbn [secret_answers answers_of_map]. pose proof (secret_step_represents op w m Hw Hop) as Hs.
  unfold wp, EncryptedFileSecretStore.t in *.
  destruct (secret_step op w) as [w' [a|s]].
  - destruct Hs as (m' & -> & Hw'). split; [done|by apply IH].
  - destruct Hs as ([e ->] & Hwr & Hw'). split; [done|by apply IH].
Qed.

(** *** The migration of a plaintext vault *)

Definition adds (m : gmap (string * string) Secret) (s : Secret) : gmap (string * string) Secret :=
  match m !! FileSecretStore.secret_key s with
  | Some _ => m
  | None => <[FileSecretStore.secret_key s := s]> m
  end.

Section migration.
Context {K : Type} `{HK : KmsLaws K, HE : ListSerdeLaws EncryptedRecord, ListSerde Secret}.
Implicit Types (w : Sealing SecretFiles K) (m : gmap (string * string) Secret).

Lemma wp_migrate_go legacy em m n w : in_order (keys w) → catalog_is (keys w) em m → Forall text_secret legacy →
  wp (EncryptedFileSecretStore.migrate_go legacy em n)
    (λ mn w', in_order (keys w') ∧ keeps (keys w) (keys w') ∧ disk w' = disk w ∧
       catalog_is (keys w') mn.1 (foldl adds m legacy) ∧
       (mn.2 + size m = n + size (foldl adds m legacy))%nat) (sealing_post w) w.
Proof.
  revert em m n w. induction legacy as [|s legacy IH]; intros em m n w Hk Hc Hl; cbn [EncryptedFileSecretStore.migrate_go foldl].
  { apply wp_ret. split; [done|]. split; [apply keeps_refl|done]. }
  inversion Hl as [|? ? Hs Hl']; subst. pose proof (proj2 Hc (FileSecretStore.secret_key s)) as Hrel.
  unfold adds at 2 4. destruct (em !! FileSecretStore.secret_key s) as [r|] eqn:Ee,
    (m !! FileSecretStore.secret_key s) as [s0|] eqn:Em; try by inversion Hrel.
  - by apply IH.
  - eapply wp_call; [by apply wp_encrypt|]. intros r w1 (Hk1 & Hm1 & Hd1 & Hr).
    assert (EncryptedFileSecretStore.record_key r = FileSecretStore.secret_key s) as Hkey
      by by destruct Hr as (Hns & Hn & _); unfold EncryptedFileSecretStore.record_key; rewrite Hns, Hn.
    rewrite <-Hkey in *.
    assert (catalog_is (keys w1) (<[EncryptedFileSecretStore.record_key r := r]> em)
      (<[EncryptedFileSecretStore.record_key r := s]> m)) as Hc1.
    { replace (EncryptedFileSecretStore.record_key r) with (se_namespace s, se_name s) at 2
        by by destruct Hr as (Hns & Hn & _); unfold EncryptedFileSecretStore.record_key; rewrite Hns, Hn.
      apply catalog_is_insert; [by eapply catalog_is_mono|done]. }
    eapply wp_mono; [by apply (IH _ (<[EncryptedFileSecretStore.record_key r := s]> m) (S n) w1)| |].
    + intros mn w2 (Hk2 & Hm2 & Hd2 & Hc2 & Hsz). split; [done|]. split; [by eapply keeps_trans|].
      split; [congruence|]. split; [done|]. rewrite map_size_insert_None in Hsz by done. lia.
    + intros st w2 (He & Hk2 & Hm2 & Hd2). split; [done|]. split; [done|].
      split; [by eapply keeps_trans|congruence].
Qed.

Lemma foldl_adds_lookup legacy m i : foldl adds m legacy !! i =
  match m !! i with
  | Some s => Some s
  | None => List.find (λ s, bool_decide (FileSecretStore.secret_key s = i)) legacy
  end.
Proof.
  revert m. induction legacy as [|s legacy IH]; intros m; cbn; [by destruct (m !! i)|].
  rewrite IH. unfold adds. destruct (m !! FileSecretStore.secret_key s) as [s0|] eqn:E.
  - destruct (m !! i) eqn:Ei; [done|]. by rewrite bool_decide_eq_false_2 by congruence.
  - case_bool_decide as Hi.
    + subst i. by rewrite lookup_insert_eq, E.
    + by rewrite lookup_insert_ne.
Qed.
End migration.

(** Migrating a plaintext vault is all or nothing.  When it succeeds, every
    secret that was sealed is as it was, every other secret of the plaintext
    file is now sealed and reads back with its value, previous value and
    version, the number reported is the number added, and the plaintext file
    is retired to the backup; when any key, seal or write fails, both files
    are as they were and the migration can be tried again. *)
Theorem migration_is_all_or_nothing {K} `{KmsLaws K, ListSerdeLaws EncryptedRecord, ListSerde Secret}
    (w : EncryptedFileSecretStore.t (K := K)) m bytes legacy :
  represents w m → plain_file (disk w) = Some bytes → list_from_slice bytes = inr legacy →
  Forall text_secret legacy →
  wp EncryptedFileSecretStore.migrate_plaintext
    (λ n w', ∃ m', represents w' m' ∧
       (∀ i, m' !! i = match m !! i with
                       | Some s => Some s
                       | None => List.find (λ s, bool_decide (FileSecretStore.secret_key s = i)) legacy
                       end) ∧
       (n + size m = size m')%nat ∧ plain_file (disk w') = None ∧ backup_file (disk w') = Some bytes)
    (λ s w', (∃ e, s = Throw e) ∧ represents w' m ∧ disk w' = disk w) w.
Proof.
  intros Hw Hf Hl Ht. unfold EncryptedFileSecretStore.migrate_plaintext.
  apply wp_gets_bind. rewrite Hf. apply wp_lift_bind. rewrite Hl. cbn [of_result].
  eapply wp_call; [eapply wp_mono; [by apply wp_load|done|done]|]. intros em w0 [-> Hc].
  eapply wp_call; [eapply wp_mono; [by apply (wp_migrate_go legacy em m 0 w (proj1 Hw))|done|]|].
  { intros st w1 (He & Hk1 & Hm1 & Hd1). split; [done|]. split; [|done]. destruct w1; cbn in *; subst.
    by apply represents_keys. }
  intros [em' n] w1 (Hk1 & Hm1 & Hd1 & Hc1 & Hsz). cbn in Hc1, Hsz.
  eapply wp_call; [eapply wp_mono; [apply wp_persist, Hc1|done|]|].
  { intros st w2 [He ->]. split; [done|]. split; [|done]. destruct w1; cbn in *; subst. by apply represents_keys. }
  intros _ w2 (Hk2 & Hp2 & Hl2). cbn. exists (foldl adds m legacy). split_and!; try done.
  - split; cbn; [by rewrite Hk2|]. exists em'. by rewrite Hk2.
  - apply foldl_adds_lookup.
  - cbn. congruence.
Qed.

(** ** The vault *)

(** A grant covers a permission segment by segment; a segment that ends in a
    star stands for whatever begins with the rest. *)
Definition segment_covers (g w : string) : Prop := g = w ∨ ∃ prefix rest, g = prefix +:+ "*" ∧ w = prefix +:+ rest.
Lemma zip_forallb {A B} (f : A * B → bool) l k :
  Nat.eqb (length l) (length k) && forallb f (zip l k) = true ↔ Forall2 (λ a b, f (a, b) = true) l k.
Proof.
  revert k. induction l as [|a l IH]; intros [|b k]; cbn; try (split; [done|by inversion 1]).
  rewrite Forall2_cons, <-IH, !andb_true_iff. tauto.
Qed.
Lemma grant_covers_spec g w :
  grant_covers g w = true ↔ Forall2 segment_covers (split_char ":" g) (split_char ":" w).
Proof.
  unfold grant_covers. rewrite zip_forallb.
  enough (∀ g w, match strip_suffix "*" g with Some p => starts_with p w | None => String.eqb g w end = true
    ↔ segment_covers g w) as Hseg
    by (split; intros HF; (eapply Forall2_impl; [exact HF|]); intros g' w'; apply Hseg).
  clear g w. intros g w. unfold segment_covers. destruct (strip_suffix "*" g) as [prefix|] eqn:E.
  - apply strip_suffix_Some in E as ->. rewrite starts_with_spec. split.
    + intros [rest ->]. right. by exists prefix, rest.
    + intros [<-|(p & rest & Hp & ->)]; [by exists "*"|]. apply str_app_inj_r in Hp as ->. by exists rest.
  - rewrite String.eqb_eq. split; [by left|]. intros [->|(p & rest & -> & _)]; [done|].
    pose proof (proj2 (strip_suffix_Some "*" _ p) eq_refl). congruence.
Qed.

Definition may_read (r : SecretRef) (access : SecretAccess) : Prop :=
  ref_namespace r = sa_tenant access ∧ ∃ g, g ∈ granted access ∧ grant_covers g (read_permission r) = true.

Lemma resolve_denied {W} `{SecretStore W} r access (w : W) : ¬ may_read r access →
  ∃ m, Vault.resolve r access w = (w, Stop (Throw (Forbidden m))).
Proof.
  unfold Vault.resolve, may_read. intros Hn.
  destruct (String.eqb_spec (ref_namespace r) (sa_tenant access)) as [He|]; [|by eexists]. cbn.
  destruct (existsb _ _) eqn:Ee; [|by eexists]. apply existsb_elem in Ee. destruct Hn. by split.
Qed.
Lemma resolve_allowed {W} `{SecretStore W} r access (w : W) : may_read r access →
  Vault.resolve r access w =
    match secret_get (ref_namespace r) (ref_name r) w with
    | (w', Ret (Some s)) => (w', Ret (se_value s))
    | (w', Ret None) => (w', Stop (Throw (NotFound ("secret `" +:+ SecretRef_display r +:+ "` not found"))))
    | (w', Stop s) => (w', Stop s)
    end.
Proof.
  unfold Vault.resolve, may_read. intros [-> Hg]. rewrite String.eqb_refl. cbn. apply existsb_elem in Hg.
  rewrite Hg. cbn. unfold mbind, M_bind. by destruct (secret_get _ _ w) as [w' [[s|]|s]].
Qed.

(** The vault resolves for its tenant and its grants only, whatever store
    is behind it.  From another tenant, or without a grant that covers the
    name segment by segment, the answer is Forbidden and the store is not
    asked; otherwise it is the store's: the value it holds, not found, or its
    error. *)
Theorem vault_resolves_what_is_granted {W} `{SecretStore W} r access (w : W) :
  let covered := ref_namespace r = sa_tenant access ∧ ∃ g, g ∈ granted access ∧
    Forall2 segment_covers (split_char ":" g) (split_char ":" (read_permission r)) in
  (¬ covered → ∃ m, Vault.resolve r access w = (w, Stop (Throw (Forbidden m)))) ∧
  (covered → Vault.resolve r access w =
    match secret_get (ref_namespace r) (ref_name r) w with
    | (w', Ret (Some s)) => (w', Ret (se_value s))
    | (w', Ret None) => (w', Stop (Throw (NotFound ("secret `" +:+ SecretRef_display r +:+ "` not found"))))
    | (w', Stop s) => (w', Stop s)
    end).
Proof.
  intros covered. assert (covered ↔ may_read r access) as Hc.
  { unfold covered, may_read. by setoid_rewrite grant_covers_spec. }
  rewrite Hc. split; [apply resolve_denied|apply resolve_allowed].
Qed.

(** *** The history of a secret *)

Inductive vault_op :=
  | CreateSecret (tenant name value : string) | RotateSecret (tenant name value : string)
  | RemoveSecret (tenant name : string) | ReadSecret (r : SecretRef) (access : SecretAccess).
Definition vault_step (op : vault_op) (m : InMemorySecretStore.t) : InMemorySecretStore.t :=
  match op with
  | CreateSecret t n v => (Vault.create t n v m).1
  | RotateSecret t n v => (Vault.rotate t n v m).1
  | RemoveSecret t n => (Vault.remove t n m).1
  | ReadSecret r a => (Vault.resolve r a m).1
  end.

(** The values a tenant gave the name since it last created it, the latest
    first: none of another tenant's calls, or of calls on other names, is in
    it. *)
Definition history_step (tenant name : string) (h : list string) (op : vault_op) : list string :=
  match op with
  | CreateSecret t n v => if bool_decide ((t, n) = (tenant, name) ∧ h = []) then [v] else h
  | RotateSecret t n v => if bool_decide ((t, n) = (tenant, name) ∧ h ≠ []) then v :: h else h
  | RemoveSecret t n => if bool_decide ((t, n) = (tenant, name)) then [] else h
  | ReadSecret _ _ => h
  end.
Definition history (tenant name : string) (ops : list vault_op) : list string :=
  foldl (history_step tenant name) [] ops.
Definition secret_of_history (tenant name : string) (h : list string) : option Secret :=
  match h with
  | [] => None
  | v :: h' => Some {| se_namespace := tenant; se_name := name; se_value := v; se_previous := head h';
                       se_version := Z.of_nat (length h) |}
  end.


Definition valid_ref (tenant name : string) : Prop := SecretRef_new tenant name = Ok {| ref_namespace := tenant; ref_name := name |}.
Lemma SecretRef_new_cases tenant name :
  valid_ref tenant name ∨ ∃ m, SecretRef_new tenant name = Err (invalid m).
Proof.
  unfold valid_ref, SecretRef_new. destruct (_ || _); [right; by eexists|].
  destruct (contains_char _ _); [right; by eexists|by left].
Qed.

Lemma vault_step_cases (op : vault_op) (m : gmap (string * string) Secret) : keyed FileSecretStore.secret_key m →
  vault_step op m = match op with
    | CreateSecret t n v =>
      match SecretRef_new t n, m !! (t, n) with
      | Ok _, None => <[(t, n) := Secret_new t n v]> m
      | _, _ => m
      end
    | RotateSecret t n v => match m !! (t, n) with Some s => <[(t, n) := Secret_rotate v s]> m | None => m end
    | RemoveSecret t n => delete (t, n) m
    | ReadSecret _ _ => m
    end.
Proof.
  intros Hk. destruct op as [t n v|t n v|t n|r a]; cbn [vault_step]; try done.
  - unfold Vault.create, mbind, M_bind, lift. destruct (SecretRef_new_cases t n) as [Hr|[e Hr]]; rewrite Hr; [|done].
    cbn. unfold InMemorySecretStore.t. by destruct (m !! (t, n)).
  - unfold Vault.rotate, mbind, M_bind. cbn. unfold InMemorySecretStore.t. destruct (m !! (t, n)) as [s|] eqn:E; [|done]. cbn.
    apply Hk in E. unfold FileSecretStore.secret_key in E. by rewrite E.
  - unfold Vault.resolve. destruct (negb _); [done|]. destruct (negb _); [done|].
    unfold mbind, M_bind. cbn. unfold InMemorySecretStore.t. by destruct (m !! _).
Qed.

Lemma vault_step_history (op : vault_op) (m : gmap (string * string) Secret) tenant name h : valid_ref tenant name →
  Z.of_nat (length h) < u32_max →
  keyed FileSecretStore.secret_key m → m !! (tenant, name) = secret_of_history tenant name h →
  keyed FileSecretStore.secret_key (vault_step op m) ∧
  (vault_step op m : gmap (string * string) Secret) !! (tenant, name)
    = secret_of_history tenant name (history_step tenant name h op).
Proof.
  intros Hv Hlen Hk Hm. rewrite (vault_step_cases op m Hk).
  assert (∀ t n s, FileSecretStore.secret_key s = (t, n) → keyed FileSecretStore.secret_key (<[(t, n) := s]> m)) as Hins
    by by intros t n s <-; apply keyed_insert.
  destruct op as [t n v|t n v|t n|r a]; cbn [history_step].
  - destruct (decide ((t, n) = (tenant, name))) as [[= -> ->]|Hne].
    + rewrite Hv, Hm. destruct h as [|v0 h]; cbn [secret_of_history].
      * rewrite bool_decide_eq_true_2, lookup_insert_eq by done. split; [by apply Hins|done].
      * rewrite bool_decide_eq_false_2 by naive_solver. by split.
    + rewrite bool_decide_eq_false_2 by naive_solver.
      destruct (SecretRef_new t n), (m !! (t, n)); try by split.
      rewrite lookup_insert_ne by done. split; [by apply Hins|done].
  - destruct (decide ((t, n) = (tenant, name))) as [[= -> ->]|Hne].
    + rewrite Hm. destruct h as [|v0 h]; cbn [secret_of_history].
      * rewrite bool_decide_eq_false_2 by naive_solver. by split.
      * rewrite bool_decide_eq_true_2, lookup_insert_eq by done. split; [by apply Hins|]. unfold Secret_rotate. cbn.
        do 2 f_equal. cbn in Hlen. unfold_ints. rewrite Z.mod_small; lia.
    + rewrite bool_decide_eq_false_2 by naive_solver. destruct (m !! (t, n)) as [s|] eqn:E; [|by split].
      rewrite lookup_insert_ne by done. split; [|done]. apply Hins. by apply Hk in E.
  - split; [by apply keyed_delete|]. case_bool_decide as Hd; [rewrite Hd; apply lookup_delete_eq|].
    by rewrite lookup_delete_ne.
  - by split.
Qed.

(** The vault serves the latest value of its own tenant.  From an empty
    vault, after any interleaving of creations, rotations, deletions and reads
    by all tenants, what is stored under a tenant's name is what that tenant
    last wrote there since it created it, with the value before and the number
    of writes as its version; a reader with a covering grant gets exactly that
    value, or not found; whatever other tenants did is not in it. *)
Theorem vault_serves_the_latest_value ops tenant name access :
  valid_ref tenant name → Z.of_nat (length ops) < u32_max →
  let m : gmap (string * string) Secret := foldl (λ m op, vault_step op m) InMemorySecretStore.new ops in
  let h := history tenant name ops in
  let r := {| ref_namespace := tenant; ref_name := name |} in
  m !! (tenant, name) = secret_of_history tenant name h ∧
  (may_read r access →
   Vault.resolve r access m =
     (m, match head h with
         | Some v => Ret v
         | None => Stop (Throw (NotFound ("secret `" +:+ SecretRef_display r +:+ "` not found")))
         end)).
Proof.
  intros Hv Hlen m h r.
  assert (m !! (tenant, name) = secret_of_history tenant name h) as Hm.
  { unfold m, h, history. assert (∀ (m : gmap (string * string) Secret) h, keyed FileSecretStore.secret_key m →
      m !! (tenant, name) = secret_of_history tenant name h → Z.of_nat (length h + length ops) < u32_max →
      (foldl (λ m op, vault_step op m) m ops : gmap (string * string) Secret) !! (tenant, name)
        = secret_of_history tenant name (foldl (history_step tenant name) h ops)) as Hgo; [|by apply Hgo].
    clear -Hv. induction ops as [|op ops IH]; intros m h Hk Hm Hlen; [done|]. cbn in Hlen |- *.
    destruct (vault_step_history op m tenant name h) as [Hk' Hm']; [done|lia|done|done|].
    apply IH; [done..|]. assert (length (history_step tenant name h op) <= S (length h))%nat; [|lia].
    destruct op; cbn; try case_bool_decide; cbn; lia. }
  split; [done|]. intros Hr.
  rewrite (resolve_allowed r access m Hr). cbn.
  unfold InMemorySecretStore.t. rewrite Hm. by destruct h.
Qed.

(** ** An example: a cipher, a random source, two tenants *)

(** A stand-in for the cipher that writes the key in front of the text. *)
Definition aead_example : Aead := {|
  aead_seal k _ p := Some (hex_lower k +:+ String "|" p);
  aead_open k _ c := strip_prefix (hex_lower k +:+ "|") c |}.
#[local] Existing Instance aead_example.

Lemma hex_no_bar k : str_all (other_than "|") (hex_lower k) = true.
Proof.
  eapply str_all_impl; [|apply hex_lower_hex]. intros c. unfold other_than.
  destruct (Ascii.eqb_spec "|" c) as [<-|]; [|done]. by vm_compute.
Qed.
#[local] Instance aead_example_laws : AeadLaws.
Proof.
  split.
  - intros k n p c [= <-]. cbn. change (String "|" p) with ("|" +:+ p). rewrite <-str_app_assoc. apply strip_prefix_app.
  - intros k k' n p c [= <-] Hne. cbn. destruct (strip_prefix _ _) as [r|] eqn:E; [|done].
    apply strip_prefix_Some in E. rewrite str_app_assoc in E. change ("|" +:+ r) with (String "|" r) in E.
    pose proof (split_once_first "|" _ p (hex_no_bar k)) as Hk. rewrite E in Hk.
    rewrite (split_once_first "|" _ r (hex_no_bar k')) in Hk. injection Hk as Hk _.
    by apply hex_lower_inj in Hk.
Qed.

(** A source that remembers what it drew and draws a new letter each time. *)
Fixpoint repeat_char (n : nat) (c : ascii) : string :=
  match n with O => "" | S n => String c (repeat_char n c) end.
#[local] Instance random_example : Random (list string) := {|
  fill n l :=
    let b := repeat_char n (ascii_of_nat (65 + length l)) in
    if bool_decide (b ∈ l) then (l, None) else (b :: l, Some b) |}.
#[local] Instance random_example_laws : RandomLaws (list string).
Proof.
  refine {| drawn l := l |}; intros n l l'; cbn.
  - intros b. case_bool_decide; [done|]. intros [= <- <-]. split_and!; try done.
    clear. generalize (ascii_of_nat (65 + length l)). intros c. induction n; cbn; congruence.
  - case_bool_decide; [|done]. by intros [= ->].
Defined.

Definition root_example : string := repeat_char 32 "r".
Abbreviation ExampleKms := (LocalWorld InMemoryKmsStore.t (list string)) (only parsing).
#[local] Instance kms_example : Kms ExampleKms := local_kms root_example.
Definition fresh_kms : ExampleKms := {| catalog := InMemoryKmsStore.new; rng := [] |}.

Lemma fresh_kms_in_order : local_in_order root_example fresh_kms.
Proof. exists ∅. split; [done|]. by split. Qed.

Lemma sealed_data_is_the_tenants_witness :
  ∃ w1 sd, envelope_seal "acme" "the data" fresh_kms = (w1, Ret sd) ∧
    let ops := [RotateKey "acme"; SealData "evil" "other"; RotateKey "acme"] in
    let w2 := kms_run ops w1 in
    envelope_open "acme" sd w2 = (w2, Ret "the data") ∧
    ∃ e, envelope_open "evil" sd w2 = (w2, Stop (Throw e)).
Proof.
  destruct (envelope_seal "acme" "the data" fresh_kms) as [w1 [sd|s]] eqn:E.
  - exists w1, sd. split; [done|]. intros ops w2.
    destruct (sealed_data_is_the_tenants root_example "acme" "the data" fresh_kms w1 sd ops fresh_kms_in_order E)
      as (Ho & Hx & _).
    assert (DestroyKey "acme" ∉ ops) as Hn.
    { intros Hin. repeat (apply elem_of_cons in Hin as [Hin|Hin]; [discriminate|]). by apply not_elem_of_nil in Hin. }
    split; [exact (proj1 (Ho Hn))|]. apply Hx. discriminate.
  - exfalso. assert ((if (envelope_seal "acme" "the data" fresh_kms).2 is Ret _ then true else false) = true) as Hr
      by (vm_compute; reflexivity).
    by rewrite E in Hr.
Defined.

(** *** An encrypted vault *)

#[local] Instance Sealed_eq_dec : EqDecision Sealed.
Proof. solve_decision. Defined.
#[local] Program Instance Sealed_countable : Countable Sealed :=
  inj_countable' (λ s, (nonce s, ciphertext s)) (λ p, {| nonce := p.1; ciphertext := p.2 |}) _.
Next Obligation. by intros []. Qed.
#[local] Instance WrappedDataKey_eq_dec : EqDecision WrappedDataKey.
Proof. solve_decision. Defined.
#[local] Program Instance WrappedDataKey_countable : Countable WrappedDataKey :=
  inj_countable' (λ s, (tenant_key_version s, dk_wrapped s)) (λ p, {| tenant_key_version := p.1; dk_wrapped := p.2 |}) _.
Next Obligation. by intros []. Qed.
#[local] Instance SealedData_eq_dec : EqDecision SealedData.
Proof. solve_decision. Defined.
#[local] Program Instance SealedData_countable : Countable SealedData :=
  inj_countable' (λ s, (wrapped_key s, sealed s)) (λ p, {| wrapped_key := p.1; sealed := p.2 |}) _.
Next Obligation. by intros []. Qed.
#[local] Instance EncryptedRecord_eq_dec : EqDecision EncryptedRecord.
Proof. solve_decision. Defined.
#[local] Program Instance EncryptedRecord_countable : Countable EncryptedRecord :=
  inj_countable' (λ r, (er_namespace r, er_name r, sealed_value r, sealed_previous r, er_version r))
    (λ '(ns, n, v, p, ver), {| er_namespace := ns; er_name := n; sealed_value := v; sealed_previous := p; er_version := ver |}) _.
Next Obligation. by intros []. Qed.
#[local] Instance Secret_eq_dec : EqDecision Secret.
Proof. solve_decision. Defined.
#[local] Program Instance Secret_countable : Countable Secret :=
  inj_countable' (λ r, (se_namespace r, se_name r, se_value r, se_previous r, se_version r))
    (λ '(ns, n, v, p, ver), {| se_namespace := ns; se_name := n; se_value := v; se_previous := p; se_version := ver |}) _.
Next Obligation. by intros []. Qed.

(** A library that writes the records one to one. *)
#[local] Instance countable_serde `{Countable A} : ListSerde A := {|
  list_to_vec l := inr (countable_text l);
  list_from_slice s := match read_countable s with Some l => inr l | None => inl "expected value" end |}.
#[local] Instance countable_serde_laws `{Countable A} : ListSerdeLaws A.
Proof. intros l bytes [= <-]. cbn. by rewrite read_countable_text. Qed.

Definition fresh_vault (plain : option string) : EncryptedFileSecretStore.t (K := ExampleKms) := {|
  disk := {| enc_file := None; plain_file := plain; backup_file := None |}; keys := fresh_kms |}.
Lemma fresh_vault_represents plain : represents (fresh_vault plain) ∅.
Proof.
  split; [exact fresh_kms_in_order|]. exists ∅. split; [done|]. split; [done|]. intros i. constructor.
Qed.

Lemma encrypted_secrets_are_a_map_witness :
  let s := Secret_rotate "two" (Secret_new "acme" "db" "one") in
  let ops := [PutSecret s; GetSecret "acme" "db"; ListSecrets "acme"; DeleteSecret "acme" "db"; GetSecret "acme" "db"] in
  Forall op_text ops ∧ answers_of_map ops (secret_answers ops (fresh_vault None)) ∅.
Proof.
  intros s ops. assert (Forall op_text ops) as Hops.
  { repeat constructor; try done. intros p [= <-]. done. }
  split; [exact Hops|]. exact (encrypted_secrets_are_a_map ops (fresh_vault None) ∅ (fresh_vault_represents None) Hops).
Defined.

Lemma migration_is_all_or_nothing_witness :
  let legacy := [Secret_new "acme" "db" "one"; Secret_new "acme" "api" "two"] in
  let w := fresh_vault (Some (countable_text legacy)) in
  represents w ∅ ∧
  wp EncryptedFileSecretStore.migrate_plaintext
    (λ n w', (n = 2)%nat ∧ plain_file (disk w') = None) (λ s w', (∃ e, s = Throw e) ∧ disk w' = disk w) w.
Proof.
  intros legacy w. split; [apply fresh_vault_represents|].
  assert (list_from_slice (countable_text legacy) = inr legacy) as Hl by (cbn; by rewrite read_countable_text).
  assert (Forall text_secret legacy) as Ht by (repeat constructor; done).
  eapply wp_mono; [exact (migration_is_all_or_nothing w ∅ (countable_text legacy) legacy
    (fresh_vault_represents _) eq_refl Hl Ht)| |].
  - intros n w' (m' & _ & Hm & Hsz & Hp & _). split; [|done]. rewrite map_size_empty in Hsz.
    assert (m' = foldl adds ∅ legacy) as ->; [|rewrite Nat.add_0_r in Hsz; rewrite Hsz; vm_compute; reflexivity].
    apply map_eq. intros i. rewrite Hm, foldl_adds_lookup. done.
  - intros s w' (He & _ & Hd). by split.
Defined.

Lemma vault_resolves_what_is_granted_witness :
  let r := {| ref_namespace := "acme"; ref_name := "db" |} in
  let m : InMemorySecretStore.t := {[ ("acme", "db") := Secret_new "acme" "db" "one" ]} in
  (Vault.resolve r {| sa_tenant := "acme"; granted := ["secret:read:*"] |} m).2 = Ret "one" ∧
  ∃ e, Vault.resolve r {| sa_tenant := "evil"; granted := ["secret:read:*"] |} m = (m, Stop (Throw (Forbidden e))).
Proof.
  intros r m. split.
  - rewrite (proj2 (vault_resolves_what_is_granted r {| sa_tenant := "acme"; granted := ["secret:read:*"] |} m)).
    + vm_compute. reflexivity.
    + split; [done|]. exists "secret:read:*". split; [set_solver|]. cbn.
      constructor; [by left|]. constructor; [by left|]. constructor; [|constructor]. right. by exists "", "db".
  - apply (proj1 (vault_resolves_what_is_granted r {| sa_tenant := "evil"; granted := ["secret:read:*"] |} m)).
    by intros [? _].
Defined.

Lemma vault_serves_the_latest_value_witness :
  let ops := [CreateSecret "acme" "db" "one"; CreateSecret "evil" "db" "other"; RotateSecret "acme" "db" "two";
              RemoveSecret "evil" "db"] in
  let m : gmap (string * string) Secret := foldl (λ m op, vault_step op m) InMemorySecretStore.new ops in
  history "acme" "db" ops = ["two"; "one"] ∧
  m !! ("acme", "db") = Some {| se_namespace := "acme"; se_name := "db"; se_value := "two";
                                se_previous := Some "one"; se_version := 2 |}.
Proof.
  intros ops m. split; [vm_compute; reflexivity|].
  destruct (vault_serves_the_latest_value ops "acme" "db" {| sa_tenant := "acme"; granted := [] |}) as [Hm _];
    [vm_compute; reflexivity|vm_compute; reflexivity|].
  unfold m. rewrite Hm. vm_compute. reflexivity.
Defined.

(** A rotation reads the secret and writes it back in two calls of the store:
    of two at once both succeed, with the same version, and one value is lost. *)
Lemma concurrent_rotations_lose_one :
  let m : gmap (string * string) Secret := {[ ("acme", "db") := Secret_new "acme" "db" "one" ]} in
  let both : M InMemorySecretStore.t (option Z * option Z) :=
    s1 ← secret_get "acme" "db"; s2 ← secret_get "acme" "db";
    _ ← traverse (λ s, secret_put (Secret_rotate "two" s)) s1;
    _ ← traverse (λ s, secret_put (Secret_rotate "three" s)) s2;
    mret ((λ s, se_version (Secret_rotate "two" s)) <$> s1, (λ s, se_version (Secret_rotate "three" s)) <$> s2) in
  let '(m', a) := both m in
  a = Ret (Some 2, Some 2) ∧
  (m' : gmap (string * string) Secret) !! ("acme", "db")
    = Some {| se_namespace := "acme"; se_name := "db"; se_value := "three"; se_previous := Some "one"; se_version := 2 |}.
Proof. vm_compute. by split. Qed.

(** A grant for every secret does not cover a name with a colon, which the
    vault lets a tenant use. *)
Lemma colon_names_are_not_covered :
  SecretRef_new "acme" "db:main" = Ok {| ref_namespace := "acme"; ref_name := "db:main" |} ∧
  grant_covers "secret:read:*" (read_permission {| ref_namespace := "acme"; ref_name := "db:main" |}) = false.
Proof. split; vm_compute; reflexivity. Qed.
