(* ===== verification/Memory.v ===== *)
(** * The memory engine

    [crates/wovyr-memory/src]: records and queries, the stores (in memory, in
    files, encrypting), document chunking, ingestion, hybrid retrieval with
    reranking and diversification, compaction and re-embedding.  Scores are
    binary32; the exponential and the logarithm, the tables of Unicode and the
    JSON texts are the libraries'.  A sort by scores is the stable sort where no
    score is NaN (with NaN the library leaves the order open).  A hash map is
    iterated in the order of its keys.  Calls of the operating system succeed;
    every operation reads the clock once, and is given the reading. *)
From stdpp Require Import base tactics list numbers strings gmap sorting.
From Stdlib Require Import Lia ZArith Ascii SpecFloat.
From S2P Require Import Prelude.
From S2P Require Import RustStr.
From S2P Require Import F64.
From S2P Require Import Common.
From S2P Require Import JsonValue.
From S2P Require Import Effect.
From S2P Require Import Resilience.
From S2P Require Import Chat.
From S2P Require Import Gateway.
From S2P Require Import Guardrail.
From S2P Require Import Kms.
Local Open Scope Z_scope.

(** ** [record.rs] *)

Inductive MemoryType := Conversation | WorkflowMemory | Episodic | Semantic.
#[export] Instance MemoryType_eq_dec : EqDecision MemoryType.
Proof. solve_decision. Defined.

Definition DAY_MS : f32 := f32_of_Z 86400000.
Definition half_life (t : MemoryType) : option f32 :=
  match t with
  | Conversation => Some (f32_of_Z 2)
  | WorkflowMemory => Some (f32_of_Z 14)
  | Episodic => Some (f32_of_Z 90)
  | Semantic => None
  end.
Definition half_life_ms (t : MemoryType) : option f32 :=
  match t with
  | Conversation => Some (f32_mul (f32_of_Z 2) DAY_MS)
  | WorkflowMemory => Some (f32_mul (f32_of_Z 14) DAY_MS)
  | Episodic => Some (f32_mul (f32_of_Z 90) DAY_MS)
  | Semantic => None
  end.

Record MemoryRecord := {
  mr_id : string;
  mr_namespace : string;
  mr_content : string;
  mr_embedding : list f32;
  mr_embedding_model : string;
  mr_type : MemoryType;
  mr_importance : f32;
  mr_tags : list string;
  mr_required_scopes : list string;
  mr_sensitive : bool;
  mr_parent_id : option string;
  mr_is_parent : bool;
  mr_created_ms : Z;
  mr_seq : Z;
}.

Inductive RetrievalStrategy := ByVector | ByKeyword | Hybrid.

Record RankingWeights := { w_relevance : f32; w_recency : f32; w_importance : f32 }.
Definition RankingWeights_default : RankingWeights := {|
  w_relevance := f32_of_ratio 55 100; w_recency := f32_of_ratio 20 100; w_importance := f32_of_ratio 15 100 |}.

Record MemoryQuery := {
  q_text : string;
  q_namespace : option string;
  q_strategy : RetrievalStrategy;
  q_limit : Z;
  q_tags : list string;
  q_min_importance : f32;
  q_max_importance : option f32;
  q_created_after : option Z;
  q_created_before : option Z;
  q_weights : RankingWeights;
  q_diversity : f32;
  q_access : option (list string);
  q_expand_parents : bool;
}.
Definition MemoryQuery_new (text : string) : MemoryQuery := {|
  q_text := text; q_namespace := None; q_strategy := Hybrid; q_limit := 5; q_tags := [];
  q_min_importance := f32_zero; q_max_importance := None; q_created_after := None; q_created_before := None;
  q_weights := RankingWeights_default; q_diversity := f32_zero; q_access := None; q_expand_parents := false |}.

Record ScoreBreakdown := { b_relevance : f32; b_recency : f32; b_importance : f32; b_total : f32 }.
Record CompactionPolicy := { cp_max_importance : f32; cp_keep_recent : nat; cp_min_candidates : nat }.
Definition CompactionPolicy_default : CompactionPolicy :=
  {| cp_max_importance := f32_of_ratio 5 10; cp_keep_recent := 5; cp_min_candidates := 2 |}.
Record CompactionOutcome := { compacted : nat; summary_id : option string }.
Record ScoredMemory := {
  sm_record : MemoryRecord; sm_score : f32; sm_breakdown : ScoreBreakdown; sm_parent : option MemoryRecord }.
Record DocumentIngest := { di_parent_id : string; di_chunk_ids : list string }.
Record EmbeddingMigrationReport := {
  rep_namespace : string; rep_target_model : string; rep_scanned : nat; rep_migrated : nat;
  rep_already_current : nat; rep_parents_skipped : nat }.

(** ** [store.rs] *)

Abbreviation ScoredId := (string * f32)%type (only parsing).

Class MemoryStore (S : Type) := {
  mem_put : MemoryRecord → M S string;
  mem_all : option string → M S (list MemoryRecord);
  mem_get : list string → M S (list MemoryRecord);
  mem_delete : list string → M S ();
  mem_update : MemoryRecord → M S ();
  supports_pushdown : S → bool;
  vector_search : option string → list f32 → Z → M S (option (list ScoredId));
  keyword_search : option string → string → Z → M S (option (list ScoredId));
}.

Definition wants (ids : list string) (r : MemoryRecord) : bool := bool_decide (mr_id r ∈ ids).

(** The defaults of the trait. *)
Definition default_get {S} (all : option string → M S (list MemoryRecord)) (ids : list string)
    : M S (list MemoryRecord) :=
  records ← all None; mret (List.filter (wants ids) records).
Definition default_vector_search {S} (_ : option string) (_ : list f32) (_ : Z) : M S (option (list ScoredId)) :=
  mret None.
Definition default_keyword_search {S} (_ : option string) (_ : string) (_ : Z) : M S (option (list ScoredId)) :=
  mret None.

Definition make_id (namespace : string) (seq : Z) : string := "mem-" +:+ namespace +:+ "-" +:+ show_Z seq.
Definition filter_ns (namespace : option string) (records : list MemoryRecord) : list MemoryRecord :=
  match namespace with
  | Some ns => List.filter (λ r, String.eqb (mr_namespace r) ns) records
  | None => records
  end.

Definition set_id_seq (id : string) (seq : Z) (r : MemoryRecord) : MemoryRecord := {|
  mr_id := id; mr_namespace := mr_namespace r; mr_content := mr_content r; mr_embedding := mr_embedding r;
  mr_embedding_model := mr_embedding_model r; mr_type := mr_type r; mr_importance := mr_importance r;
  mr_tags := mr_tags r; mr_required_scopes := mr_required_scopes r; mr_sensitive := mr_sensitive r;
  mr_parent_id := mr_parent_id r; mr_is_parent := mr_is_parent r; mr_created_ms := mr_created_ms r; mr_seq := seq |}.
Definition not_found_for_update (id : string) : Error :=
  NotFound ("memory record `" +:+ id +:+ "` not found for update").

(** What a [put] makes of a record where [n] records are. *)
Definition assigned (n : nat) (r : MemoryRecord) : MemoryRecord :=
  let seq := u64_wrapping_add (Z.of_nat n) 1 in set_id_seq (make_id (mr_namespace r) seq) seq r.

(** [iter_mut().find(|r| r.id == record.id)] and the assignment to it. *)
Fixpoint replace_first (record : MemoryRecord) (l : list MemoryRecord) : option (list MemoryRecord) :=
  match l with
  | [] => None
  | r :: l =>
    if String.eqb (mr_id r) (mr_id record) then Some (record :: l)
    else cons r <$> replace_first record l
  end.

Module InMemoryStore.
Definition t : Type := list MemoryRecord.
Definition new : t := [].

Definition put (record : MemoryRecord) : M t string := λ records,
  let record := assigned (length records) record in
  (records ++ [record], Ret (mr_id record)).
Definition all (namespace : option string) : M t (list MemoryRecord) := λ records,
  (records, Ret (filter_ns namespace records)).
Definition delete (ids : list string) : M t () := λ records,
  (List.filter (λ r, negb (wants ids r)) records, Ret ()).
Definition update (record : MemoryRecord) : M t () := λ records,
  match replace_first record records with
  | Some records => (records, Ret ())
  | None => (records, Stop (Throw (not_found_for_update (mr_id record))))
  end.

#[global] Instance memory_store : MemoryStore t := {
  mem_put := put; mem_all := all; mem_get := default_get all; mem_delete := delete; mem_update := update;
  supports_pushdown _ := false;
  vector_search := default_vector_search; keyword_search := default_keyword_search;
}.
End InMemoryStore.

(** [serde_json] at [MemoryRecord] (one line) and at [SealedData]. *)
Class MemorySerde := {
  record_to_string : MemoryRecord → string + string;
  record_from_str : string → string + MemoryRecord;
}.
Class SealedSerde := {
  sealed_to_string : SealedData → string + string;
  sealed_from_str : string → string + SealedData;
}.
(** [From<serde_json::Error>] *)
Definition json_result {A} (r : string + A) : result A := match r with inr a => Ok a | inl e => Err (Json e) end.

(** One JSON-lines file per namespace, named by what is left of the namespace
    when every character that is not safe is an underscore. *)
Module MemoryFiles.
Section files.
Context `{MemorySerde}.
(** The directory, by file name; it is listed in the order of the names. *)
Definition t : Type := gmap string string.
Definition new : t := ∅.

Definition safe_char (ch : char) : ascii :=
  match ch with
  | String c "" => if is_ascii_alphanumeric c || Ascii.eqb c "-" || Ascii.eqb c "_" then c else "_"%char
  | _ => "_"%char
  end.
Definition path (namespace : string) : string :=
  foldr (λ ch s, String (safe_char ch) s) ".jsonl" (chars namespace).
(** [extension() == Some("jsonl")]: a name that starts with its only dot has
    none. *)
Definition is_jsonl (name : string) : bool :=
  match strip_suffix ".jsonl" name with Some stem => negb (is_empty stem) | None => false end.

Definition parse_lines (contents : string) : result (list MemoryRecord) :=
  collect (λ l, json_result (record_from_str l)) (List.filter (λ l, negb (is_empty (trim l))) (lines contents)).
Definition read_ns (name : string) : M t (list MemoryRecord) := λ dir,
  (dir, of_result match dir !! name with Some contents => parse_lines contents | None => Ok [] end).
Definition write (name contents : string) : M t () := modify (λ dir, <[name := contents]> dir).

(** The lines of a rewritten file. *)
Definition body_of (records : list MemoryRecord) : result string :=
  ls ← collect (λ r, json_result (record_to_string r)) records;
  let body := join_with (String newline "") ls in
  Ok (if is_empty body then body else body +:+ String newline "").

Definition put (record : MemoryRecord) : M t string :=
  let name := path (mr_namespace record) in
  present ← read_ns name;
  let record := assigned (length present) record in
  line ← lift (of_result (json_result (record_to_string record)));
  _ ← modify (λ dir, <[name := default "" (dir !! name) +:+ line +:+ String newline ""]> dir);
  mret (mr_id record).

Fixpoint read_all (names : list string) : M t (list MemoryRecord) :=
  match names with
  | [] => mret []
  | name :: names => records ← read_ns name; rest ← read_all names; mret (records ++ rest)
  end.
Definition listing : M t (list string) := gets (λ dir, List.filter is_jsonl (btree_keys dir)).
Definition all (namespace : option string) : M t (list MemoryRecord) :=
  match namespace with
  | Some ns => read_ns (path ns)
  | None => names ← listing; read_all names
  end.

Fixpoint delete_in (ids : list string) (names : list string) : M t () :=
  match names with
  | [] => mret ()
  | name :: names =>
    records ← read_ns name;
    _ ← (if existsb (wants ids) records then
           body ← lift (of_result (body_of (List.filter (λ r, negb (wants ids r)) records)));
           write name body
         else mret ());
    delete_in ids names
  end.
Definition delete (ids : list string) : M t () := names ← listing; delete_in ids names.

Definition update (record : MemoryRecord) : M t () :=
  let name := path (mr_namespace record) in
  records ← read_ns name;
  match replace_first record records with
  | None => throw (not_found_for_update (mr_id record))
  | Some records => body ← lift (of_result (body_of records)); write name body
  end.

#[global] Instance memory_store : MemoryStore t := {
  mem_put := put; mem_all := all; mem_get := default_get all; mem_delete := delete; mem_update := update;
  supports_pushdown _ := false;
  vector_search := default_vector_search; keyword_search := default_keyword_search;
}.
End files.
End MemoryFiles.

(** ** [encrypting_store.rs] *)

Definition set_content (c : string) (r : MemoryRecord) : MemoryRecord := {|
  mr_id := mr_id r; mr_namespace := mr_namespace r; mr_content := c; mr_embedding := mr_embedding r;
  mr_embedding_model := mr_embedding_model r; mr_type := mr_type r; mr_importance := mr_importance r;
  mr_tags := mr_tags r; mr_required_scopes := mr_required_scopes r; mr_sensitive := mr_sensitive r;
  mr_parent_id := mr_parent_id r; mr_is_parent := mr_is_parent r; mr_created_ms := mr_created_ms r;
  mr_seq := mr_seq r |}.

Module EncryptingMemoryStore.
Section store.
Context {S K : Type} `{MemoryStore S, Kms K, Random K, Aead, SealedSerde}.
Definition t : Type := Sealing S K.

Definition seal_if_sensitive (r : MemoryRecord) : M t MemoryRecord :=
  if mr_sensitive r then
    sealed ← on_keys (envelope_seal (mr_namespace r) (mr_content r));
    match sealed_to_string sealed with
    | inr text => mret (set_content text r)
    | inl e => throw (invalid ("encode sealed memory content: " +:+ e))
    end
  else mret r.
Definition unseal_if_sensitive (r : MemoryRecord) : M t MemoryRecord :=
  if mr_sensitive r then
    match sealed_from_str (mr_content r) with
    | inl e => throw (invalid ("corrupt sealed memory content: " +:+ e))
    | inr sealed =>
      bytes ← on_keys (envelope_open (mr_namespace r) sealed);
      match from_utf8 bytes with
      | Some text => mret (set_content text r)
      | None => throw (invalid "decrypted memory content is not valid UTF-8")
      end
    end
  else mret r.

#[global] Instance memory_store : MemoryStore t := {
  mem_put r := sealed ← seal_if_sensitive r; on_disk (mem_put sealed);
  mem_all namespace := records ← on_disk (mem_all namespace); traverse_all unseal_if_sensitive records;
  mem_get ids := records ← on_disk (mem_get ids); traverse_all unseal_if_sensitive records;
  mem_delete ids := on_disk (mem_delete ids);
  mem_update r := sealed ← seal_if_sensitive r; on_disk (mem_update sealed);
  supports_pushdown _ := false;
  vector_search := default_vector_search; keyword_search := default_keyword_search;
}.
End store.
End EncryptingMemoryStore.

(** ** [chunk.rs] *)

Module Chunk.
Record ChunkPolicy := { max_chars : nat; overlap_chars : nat }.
Definition ChunkPolicy_default : ChunkPolicy := {| max_chars := Z.to_nat 1200; overlap_chars := 200 |}.

Definition width (w : string) : nat := length (chars w).

(** How many of the words that follow a window takes: at least one. *)
Fixpoint grow (max : nat) (ws : list string) (taken len : nat) : nat :=
  match ws with
  | [] => taken
  | w :: ws =>
    let add := (width w + (if Nat.ltb 0 taken then 1 else 0))%nat in
    if Nat.ltb max (len + add) && Nat.ltb 0 taken then taken
    else grow max ws (S taken) (len + add)
  end.
(** The step back over the tail of the window: where the next one starts. *)
Fixpoint step_back (words : list string) (start overlap next covered : nat) : nat :=
  match next with
  | O => O
  | S n =>
    if Nat.ltb (start + 1) next && Nat.ltb covered overlap then
      step_back words start overlap n (covered + (width (nth n words "") + 1))
    else next
  end.
Definition window (words : list string) (start end_ : nat) : list string := take (end_ - start) (drop start words).

(** The windows, as pairs of word indices. *)
Fixpoint windows (fuel : nat) (words : list string) (max overlap start : nat) : list (nat * nat) :=
  match fuel with
  | O => []
  | S fuel =>
    let end_ := (start + grow max (drop start words) 0 0)%nat in
    if Nat.leb (length words) end_ then [(start, end_)]
    else (start, end_) :: windows fuel words max overlap (step_back words start overlap end_ 0)
  end.
Definition split (content : string) (policy : ChunkPolicy) : list string :=
  let words := split_whitespace content in
  match words with
  | [] => []
  | _ =>
    let max := Nat.max (max_chars policy) 1 in
    let overlap := Nat.min (overlap_chars policy) (max - 1) in
    map (λ '(start, end_), join_with " " (window words start end_))
      (windows (length words) words max overlap 0)
  end.
End Chunk.

(** ** [engine.rs]: scores *)

(** The exponential and the natural logarithm of the mathematics library. *)
Class Libm32 := { f32_exp : f32 → f32; f32_ln : f32 → f32 }.

Definition has_any (wanted tags : list string) : bool := existsb (λ t, bool_decide (t ∈ tags)) wanted.
Definition abac_allows (r : MemoryRecord) (q : MemoryQuery) : bool :=
  match mr_required_scopes r with
  | [] => true
  | scopes =>
    match q_access q with
    | Some grants => forallb (λ s, bool_decide (s ∈ grants)) scopes
    | None => false
    end
  end.
Definition none_or {A} (o : option A) (f : A → bool) : bool := match o with None => true | Some a => f a end.
Definition in_time_window (r : MemoryRecord) (q : MemoryQuery) : bool :=
  match q_created_after q, q_created_before q with
  | None, None => true
  | after, before =>
    Z.ltb 0 (mr_created_ms r) && none_or after (λ t, Z.leb t (mr_created_ms r))
    && none_or before (λ t, Z.leb (mr_created_ms r) t)
  end.
Definition passes_filters (r : MemoryRecord) (q : MemoryQuery) : bool :=
  negb (mr_is_parent r)
  && f32_leb (q_min_importance q) (mr_importance r)
  && none_or (q_max_importance q) (λ m, f32_leb (mr_importance r) m)
  && in_time_window r q
  && (match q_tags q with [] => true | tags => has_any tags (mr_tags r) end)
  && abac_allows r q.

(** Score descending, then id ascending: the order of every sort here. *)
Definition better_first {A} (score : A → f32) (id : A → string) (a b : A) : Prop :=
  f32_ltb (score b) (score a) = true ∨ f32_ltb (score a) (score b) = false ∧ String.le (id a) (id b).
#[export] Instance better_first_dec {A} (score : A → f32) id : RelDecision (better_first score id).
Proof. intros a b. unfold better_first. apply _. Defined.

Abbreviation Relevance := (gmap string f32) (only parsing).
(** [collect] into a map: of equal ids the last one counts. *)
Definition collect_map {V} (l : list (string * V)) : gmap string V := foldl (λ m kv, <[kv.1 := kv.2]> m) ∅ l.
Definition max_score (l : list f32) : f32 := foldl f32_max f32_zero l.
Definition normalized_by (max s : f32) : f32 := if f32_ltb f32_zero max then f32_div s max else f32_zero.

Definition ids_of (hits : list ScoredId) : list string := map fst hits.
Definition normalize (hits : list ScoredId) : Relevance :=
  let max := max_score (map snd hits) in collect_map (map (λ h, (h.1, normalized_by max h.2)) hits).

Definition vector_relevance (query : list f32) (candidates : list MemoryRecord) : Relevance :=
  collect_map (map (λ r,
    (mr_id r, f32_div (f32_add (cosine_similarity query (mr_embedding r)) f32_one) (f32_of_Z 2))) candidates).

Definition ranked_ids (scores : Relevance) : list string :=
  map fst (merge_sort (better_first snd fst) (btree_iter scores)).

Definition fuse_one (k : f32) (fused : Relevance) (list : list string) : Relevance :=
  foldl (λ fused '(rank, id),
    let part := f32_div f32_one (f32_add k (f32_add (f32_of_Z (Z.of_nat rank)) f32_one)) in
    <[id := f32_add (default f32_zero (fused !! id)) part]> fused) fused (imap pair list).
Definition reciprocal_rank_fusion (lists : list (list string)) (k : f32) : Relevance :=
  let fused : Relevance := foldl (fuse_one k) ∅ lists in
  let max := max_score (map snd (btree_iter fused)) in
  if f32_ltb f32_zero max then (λ v, f32_div v max) <$> fused else fused.

(** *** Tokens *)

(** [strip_suffix] with a stem of at least so many bytes. *)
Definition base_of (least : nat) (suffix token : string) : option string :=
  match strip_suffix suffix token with
  | Some base => if Nat.leb least (String.length base) then Some base else None
  | None => None
  end.
Fixpoint first_base (suffixes : list string) (token : string) : option string :=
  match suffixes with
  | [] => None
  | suffix :: suffixes =>
    match base_of 3 suffix token with Some base => Some base | None => first_base suffixes token end
  end.
Definition stem (token : string) : string :=
  match base_of 2 "ies" token with
  | Some base => base +:+ "y"
  | None =>
    match base_of 0 "sses" token with
    | Some base => base +:+ "ss"
    | None =>
      match first_base ["ing"; "ed"; "es"] token with
      | Some base => base
      | None =>
        match base_of 3 "s" token with
        | Some base => if existsb (λ c, ends_with c base) ["s"; "u"; "i"] then token else base
        | None => token
        end
      end
    end
  end.

Section tokens.
Context `{Unicode}.

Definition tokens (text : string) : list string :=
  map stem (List.filter (λ s, negb (is_empty s)) (alphanumeric_runs (chars (to_lowercase text)) "")).

Definition BM25_K1 : f32 := f32_of_ratio 12 10.
Definition BM25_B : f32 := f32_of_ratio 75 100.

Definition term_counts (content : string) : gmap string f32 :=
  foldl (λ tf t, <[t := f32_add (default f32_zero (tf !! t)) f32_one]> tf) ∅ (tokens content).
Definition sorted_set (l : list string) : list string := merge_sort String.le (elements (list_to_set l : gset string)).

Definition idf `{Libm32} (n : f32) (tf_maps : list (gmap string f32)) (t : string) : f32 :=
  let half := f32_of_ratio 5 10 in
  let df := f32_of_Z (Z.of_nat (length (List.filter (λ m, bool_decide (is_Some (m !! t))) tf_maps))) in
  f32_ln (f32_add f32_one (f32_div (f32_add (f32_sub n df) half) (f32_add df half))).
Definition term_score (idf tf dl avgdl : f32) : f32 :=
  let norm := f32_add tf (f32_mul BM25_K1
    (f32_add (f32_sub f32_one BM25_B) (f32_div (f32_mul BM25_B dl) avgdl))) in
  f32_div (f32_mul (f32_mul idf tf) (f32_add BM25_K1 f32_one)) norm.
Definition keyword_relevance `{Libm32} (query : string) (candidates : list MemoryRecord) : Relevance :=
  let q_terms := sorted_set (tokens query) in
  match q_terms, candidates with
  | [], _ | _, [] => collect_map (map (λ r, (mr_id r, f32_zero)) candidates)
  | _, _ =>
    let tf_maps := map (λ r, term_counts (mr_content r)) candidates in
    let doc_lens := map (λ m : gmap string f32, f32_sum (map snd (btree_iter m))) tf_maps in
    let n := f32_of_Z (Z.of_nat (length candidates)) in
    let avgdl := f32_max (f32_div (f32_sum doc_lens) n) f32_one in
    let score (tf_map : gmap string f32) (dl : f32) := f32_sum (omap (λ t,
      (λ tf, term_score (idf n tf_maps t) tf dl avgdl) <$> tf_map !! t) q_terms) in
    let scores := zip_with pair (map mr_id candidates) (zip_with score tf_maps doc_lens) in
    let max := max_score (map snd scores) in
    collect_map (map (λ s, (s.1, normalized_by max s.2)) scores)
  end.
End tokens.

(** *** Ranking *)

Section rank.
Context `{Libm32}.

Definition recency_decay (age : Z) (half_life : option f32) : f32 :=
  match half_life with
  | None => f32_one
  | Some h => f32_exp (f32_div (f32_neg (f32_of_Z age)) h)
  end.
Definition recency_decay_ms (age_ms : Z) (t : MemoryType) : f32 := recency_decay age_ms (half_life_ms t).
Definition recency_decay_seq (age : Z) (t : MemoryType) : f32 := recency_decay age (half_life t).
Definition recency (r : MemoryRecord) (max_seq now_ms : Z) : f32 :=
  if Z.ltb 0 (mr_created_ms r) then recency_decay_ms (u64_saturating_sub now_ms (mr_created_ms r)) (mr_type r)
  else recency_decay_seq (u64_saturating_sub max_seq (mr_seq r)) (mr_type r).

Definition score_record (relevance : Relevance) (q : MemoryQuery) (max_seq now_ms : Z) (r : MemoryRecord)
    : ScoredMemory :=
  let rel := default f32_zero (relevance !! mr_id r) in
  let rec := recency r max_seq now_ms in
  let imp := mr_importance r in
  let w := q_weights q in
  let total := f32_add (f32_add (f32_mul (w_relevance w) rel) (f32_mul (w_recency w) rec))
                       (f32_mul (w_importance w) imp) in
  {| sm_record := r; sm_score := total; sm_parent := None;
     sm_breakdown := {| b_relevance := rel; b_recency := rec; b_importance := imp; b_total := total |} |}.

Definition sm_id (s : ScoredMemory) : string := mr_id (sm_record s).

(** The similarity of a candidate to what is selected. *)
Definition max_sim (selected : list ScoredMemory) (cand : ScoredMemory) : f32 :=
  max_score (map (λ s, cosine_similarity (mr_embedding (sm_record cand)) (mr_embedding (sm_record s))) selected).
Definition mmr (lambda : f32) (selected : list ScoredMemory) (cand : ScoredMemory) : f32 :=
  f32_sub (f32_mul lambda (sm_score cand)) (f32_mul (f32_sub f32_one lambda) (max_sim selected cand)).
(** The index of the first greatest value above what was seen so far. *)
Fixpoint best_index (values : list f32) (i best : nat) (best_mmr : f32) : nat :=
  match values with
  | [] => best
  | v :: values =>
    if f32_ltb best_mmr v then best_index values (S i) i v else best_index values (S i) best best_mmr
  end.
Fixpoint mmr_go (fuel : nat) (lambda : f32) (limit : Z) (remaining selected : list ScoredMemory)
    : list ScoredMemory :=
  match fuel with
  | O => selected
  | S fuel =>
    if Z.leb limit (Z.of_nat (length selected)) then selected
    else
      let best := best_index (map (mmr lambda selected) remaining) 0 0 (S754_infinity true) in
      match remaining !! best with
      | None => selected
      | Some pick => mmr_go fuel lambda limit (take best remaining ++ drop (S best) remaining) (selected ++ [pick])
      end
  end.
Definition mmr_select (remaining : list ScoredMemory) (diversity : f32) (limit : Z) : list ScoredMemory :=
  mmr_go (length remaining) (f32_sub f32_one diversity) limit remaining [].

Definition rank (records : list MemoryRecord) (relevance : Relevance) (q : MemoryQuery) (now_ms : Z)
    : list ScoredMemory :=
  let max_seq := foldr Z.max 0 (map mr_seq records) in
  let scored := merge_sort (better_first sm_score sm_id) (map (score_record relevance q max_seq now_ms) records) in
  let limit := Z.max (q_limit q) 1 in
  if f32_ltb f32_zero (q_diversity q) then
    mmr_select scored (f32_clamp f32_zero f32_one (q_diversity q)) limit
  else take (Z.to_nat limit) scored.
End rank.

(** ** [rerank.rs] *)

Class Reranker (R : Type) := rerank : string → list string → M R (list f32).

(** What the engine and the reranker use of the gateway. *)
Class MemoryGateway (G : Type) := {
  gw_embed : EmbeddingRequest → M G EmbeddingResponse;
  gw_chat : ChatRequest → M G ChatResponse;
  gw_embedding_model : option string → G → string;
  gw_model : option string → ModelSelector → G → string;
  gw_supports_embeddings : G → bool;
  gw_provider_name : G → string;
}.

Definition scores_of (v : Value) : option (list f32) :=
  arr ← match v with
        | Object o => assoc "scores" o ≫= λ v, match v with Array a => Some a | _ => None end
        | Array a => Some a
        | _ => None
        end;
  mapM (λ n, f32_of_f64 <$> as_f64 n) arr.

(** The text from the first [open] to the last [close]. *)
Fixpoint find_byte (c : ascii) (s : string) (i : nat) : option nat :=
  match s with "" => None | String c' s => if Ascii.eqb c c' then Some i else find_byte c s (S i) end.
Fixpoint rfind_byte (c : ascii) (s : string) (i : nat) (found : option nat) : option nat :=
  match s with
  | "" => found
  | String c' s => rfind_byte c s (S i) (if Ascii.eqb c c' then Some i else found)
  end.
Definition span (open close : ascii) (s : string) : option string :=
  start ← find_byte open s 0;
  stop ← rfind_byte close s 0 None;
  if Nat.ltb start stop then Some (String.substring start (stop + 1 - start) s) else None.

Section reranker.
Context `{JsonText}.

Definition parsed_scores (text : string) : option (list f32) :=
  match json_from_str text with inr v => scores_of v | inl _ => None end.
Definition parse_scores (content : string) : result (list f32) :=
  match parsed_scores (trim content) with
  | Some scores => Ok scores
  | None =>
    match span "{" "}" content ≫= parsed_scores with
    | Some scores => Ok scores
    | None =>
      match span "[" "]" content ≫= parsed_scores with
      | Some scores => Ok scores
      | None => Err (provider ("reranker response is not a score list: " +:+ text_of (take 120 (chars content))))
      end
    end
  end.

Definition scores_format : ResponseFormat :=
  JsonSchema "scores" (Object [
    ("type", Str "object");
    ("properties", Object [("scores", Object [("type", Str "array"); ("items", Object [("type", Str "number")])])]);
    ("required", Array [Str "scores"]);
    ("additionalProperties", Bool false)]).
Definition scores_instruction : string :=
  let quote := String "034" "" in
  "You score document relevance. Given a query and a numbered list of documents, respond with JSON {"
  +:+ quote +:+ "scores" +:+ quote
  +:+ ": [...]}: one relevance score between 0.0 and 1.0 per document, in the listed order.".

(** [LlmReranker] is the gateway it scores through. *)
Definition llm_rerank {G} `{MemoryGateway G} (query : string) (candidates : list string) : M G (list f32) :=
  match candidates with
  | [] => mret []
  | _ =>
    let listing := join_with (String newline "")
      (imap (λ i c, show_Z (Z.of_nat i + 1) +:+ ". " +:+ c) candidates) in
    model ← gets (gw_model None ModelSelector_default);
    let request := with_response_format scores_format (ChatRequest_new model [
      system scores_instruction;
      user ("Query: " +:+ query +:+ String newline (String newline "") +:+ "Documents:" +:+ String newline "" +:+ listing)]) in
    resp ← gw_chat request;
    scores ← lift (of_result (parse_scores (default "" (content (message resp)))));
    if Nat.eqb (length scores) (length candidates) then mret (map (f32_clamp f32_zero f32_one) scores)
    else throw (provider ("reranker returned " +:+ show_Z (Z.of_nat (length scores)) +:+ " scores for "
                          +:+ show_Z (Z.of_nat (length candidates)) +:+ " candidates"))
  end.
#[global] Instance llm_reranker {G} `{MemoryGateway G} : Reranker G := llm_rerank.
End reranker.

(** ** [engine.rs]: the engine *)

Definition DEFAULT_RRF_K : f32 := f32_of_Z 60.
Definition DEFAULT_RERANK_TOP_N : Z := 20.

(** The engine's settings; its gateway, store and reranker are its world. *)
Record MemoryEngine := { rerank_top_n : Z; rrf_k : f32 }.
Record MemWorld (G S R : Type) := { mw_gateway : G; mw_store : S; mw_reranker : option R }.
Arguments mw_gateway {G S R} _.
Arguments mw_store {G S R} _.
Arguments mw_reranker {G S R} _.

Definition MemoryEngine_new {G S R} (gateway : G) (store : S) : MemoryEngine * MemWorld G S R :=
  ({| rerank_top_n := DEFAULT_RERANK_TOP_N; rrf_k := DEFAULT_RRF_K |},
   {| mw_gateway := gateway; mw_store := store; mw_reranker := None |}).
Definition MemoryEngine_try_new {G S R} `{MemoryGateway G} (gateway : G) (store : S)
    : result (MemoryEngine * MemWorld G S R) :=
  if negb (gw_supports_embeddings gateway) then
    Err (config ("memory/RAG requires an embedding provider, but the configured LLM provider `"
      +:+ gw_provider_name gateway +:+ "` cannot embed. Set OPENAI_API_KEY (its provider serves both chat and embeddings), attach a dedicated embedding provider, or run without a memory-enabled agent (RM-AR-P1 AIC-301)."))
  else Ok (MemoryEngine_new gateway store).
Definition with_reranker {G S R} (r : R) (w : MemWorld G S R) : MemWorld G S R :=
  {| mw_gateway := mw_gateway w; mw_store := mw_store w; mw_reranker := Some r |}.
Definition with_rerank_top_n (top_n : Z) (e : MemoryEngine) : MemoryEngine :=
  {| rerank_top_n := Z.max top_n 1; rrf_k := rrf_k e |}.
Definition with_rrf_k (k : f32) (e : MemoryEngine) : MemoryEngine :=
  {| rerank_top_n := rerank_top_n e; rrf_k := f32_max k f32_zero |}.
(** Given the value of [WOVYR_MEMORY_RRF_K]. *)
Definition with_rrf_k_from_env (value : option string) (e : MemoryEngine) : MemoryEngine :=
  match value with
  | None => e
  | Some raw =>
    match parse_f32 (trim raw) with
    | Some k => if f32_leb f32_zero k then with_rrf_k k e else e
    | None => e
    end
  end.

(** What the pieces of a memory have in common. *)
Record Metadata := {
  in_ns : string; in_type : MemoryType; in_importance : f32; in_tags : list string;
  in_scopes : list string; in_sensitive : bool }.

Section engine.
Context {G St R : Type} `{MemoryGateway G, MemoryStore St, Reranker R, Unicode, Libm32} (eng : MemoryEngine).
Abbreviation W := (MemWorld G St R) (only parsing).

Definition on_gateway {A} : M G A → M W A :=
  zoom mw_gateway (λ g w, {| mw_gateway := g; mw_store := mw_store w; mw_reranker := mw_reranker w |}).
Definition on_store {A} : M St A → M W A :=
  zoom mw_store (λ s w, {| mw_gateway := mw_gateway w; mw_store := s; mw_reranker := mw_reranker w |}).
Definition on_reranker {A} (r : R) (m : M R A) : M W A := λ w,
  let '(r, a) := m r in
  ({| mw_gateway := mw_gateway w; mw_store := mw_store w; mw_reranker := Some r |}, a).

Definition embedding_model_now : M W string := gets (λ w, gw_embedding_model None (mw_gateway w)).

Definition embed (text : string) : M W (list f32) :=
  model ← embedding_model_now;
  resp ← on_gateway (gw_embed {| er_model := model; er_input := [text] |});
  match em_vectors resp with
  | v :: _ => mret v
  | [] => throw (provider "embedding response was empty")
  end.
Definition embed_batch (texts : list string) : M W (list (list f32)) :=
  model ← embedding_model_now;
  resp ← on_gateway (gw_embed {| er_model := model; er_input := texts |});
  if Nat.eqb (length (em_vectors resp)) (length texts) then mret (em_vectors resp)
  else throw (provider ("embedding response returned " +:+ show_Z (Z.of_nat (length (em_vectors resp)))
                        +:+ " vectors for " +:+ show_Z (Z.of_nat (length texts)) +:+ " inputs")).

(** *** Ingestion *)

Definition record_of (md : Metadata) (content : string) (emb : list f32) (model : string) (parent : option string)
    (is_parent : bool) (now : Z) : MemoryRecord := {|
  mr_id := ""; mr_namespace := in_ns md; mr_content := content; mr_embedding := emb;
  mr_embedding_model := model; mr_type := in_type md;
  mr_importance := f32_clamp f32_zero f32_one (in_importance md); mr_tags := in_tags md;
  mr_required_scopes := in_scopes md; mr_sensitive := in_sensitive md; mr_parent_id := parent;
  mr_is_parent := is_parent; mr_created_ms := now; mr_seq := 0 |}.

Definition remember_full (md : Metadata) (content : string) (now : Z) : M W string :=
  emb ← embed content;
  model ← embedding_model_now;
  on_store (mem_put (record_of md content emb model None false now)).
Definition remember_scoped (namespace content : string) (t : MemoryType) (importance : f32)
    (tags required_scopes : list string) (now : Z) : M W string :=
  remember_full {| in_ns := namespace; in_type := t; in_importance := importance; in_tags := tags;
                   in_scopes := required_scopes; in_sensitive := false |} content now.
Definition remember (namespace content : string) (t : MemoryType) (importance : f32) (tags : list string)
    (now : Z) : M W string :=
  remember_scoped namespace content t importance tags [] now.

Fixpoint put_chunks (md : Metadata) (model parent : string) (now : Z) (chunks : list (string * list f32))
    : M W (list string) :=
  match chunks with
  | [] => mret []
  | (chunk, emb) :: chunks =>
    id ← on_store (mem_put (record_of md chunk emb model (Some parent) false now));
    ids ← put_chunks md model parent now chunks;
    mret (id :: ids)
  end.
Definition remember_document (md : Metadata) (content : string) (policy : Chunk.ChunkPolicy) (now : Z)
    : M W DocumentIngest :=
  let chunks := Chunk.split content policy in
  if Nat.leb (length chunks) 1 then
    id ← remember_full md content now;
    mret {| di_parent_id := id; di_chunk_ids := [] |}
  else
    parent ← on_store (mem_put (record_of md content [] "" None true now));
    embeddings ← embed_batch chunks;
    model ← embedding_model_now;
    ids ← put_chunks md model parent now (zip chunks embeddings);
    mret {| di_parent_id := parent; di_chunk_ids := ids |}.

(** *** Re-embedding *)

Definition BATCH : nat := 32.
(** [stale.chunks(BATCH)] *)
Fixpoint batches {A} (fuel n : nat) (l : list A) : list (list A) :=
  match fuel, l with
  | O, _ | _, [] => []
  | S fuel, l => take n l :: batches fuel n (drop n l)
  end.
Definition set_embedding (emb : list f32) (model : string) (r : MemoryRecord) : MemoryRecord := {|
  mr_id := mr_id r; mr_namespace := mr_namespace r; mr_content := mr_content r; mr_embedding := emb;
  mr_embedding_model := model; mr_type := mr_type r; mr_importance := mr_importance r;
  mr_tags := mr_tags r; mr_required_scopes := mr_required_scopes r; mr_sensitive := mr_sensitive r;
  mr_parent_id := mr_parent_id r; mr_is_parent := mr_is_parent r; mr_created_ms := mr_created_ms r;
  mr_seq := mr_seq r |}.
Definition is_current (model : string) (r : MemoryRecord) : bool := String.eqb (mr_embedding_model r) model.

Fixpoint update_batch (model : string) (batch : list (MemoryRecord * list f32)) (migrated : nat) : M W nat :=
  match batch with
  | [] => mret migrated
  | (r, emb) :: batch =>
    _ ← on_store (mem_update (set_embedding emb model r));
    update_batch model batch (S migrated)
  end.
Fixpoint migrate_batches (model : string) (bs : list (list MemoryRecord)) (migrated : nat) : M W nat :=
  match bs with
  | [] => mret migrated
  | batch :: bs =>
    embeddings ← embed_batch (map mr_content batch);
    migrated ← update_batch model (zip batch embeddings) migrated;
    migrate_batches model bs migrated
  end.
Definition migrate_embeddings (namespace : string) : M W EmbeddingMigrationReport :=
  target_model ← embedding_model_now;
  records ← on_store (mem_all (Some namespace));
  let embedded := List.filter (λ r, negb (mr_is_parent r)) records in
  let stale := List.filter (λ r, negb (is_current target_model r)) embedded in
  migrated ← migrate_batches target_model (batches (length stale) BATCH stale) 0;
  mret {| rep_namespace := namespace; rep_target_model := target_model; rep_scanned := length records;
          rep_migrated := migrated; rep_already_current := length (List.filter (is_current target_model) embedded);
          rep_parents_skipped := length (List.filter mr_is_parent records) |}.

(** *** Compaction *)

Definition older (a b : MemoryRecord) : Prop := mr_seq a <= mr_seq b.
#[local] Instance older_dec : RelDecision older.
Proof. intros a b. unfold older. apply _. Defined.
Definition compactable (policy : CompactionPolicy) (r : MemoryRecord) : bool :=
  f32_ltb (mr_importance r) (cp_max_importance policy) && negb (mr_is_parent r)
  && bool_decide (mr_parent_id r = None).
Definition candidates_of (policy : CompactionPolicy) (records : list MemoryRecord) : list MemoryRecord :=
  List.filter (compactable policy)
    (take (length records - cp_keep_recent policy) (merge_sort older records)).

Definition summarize (contents : list string) : M W string :=
  let joined := join_with (String newline "") (map (λ c, "- " +:+ c) contents) in
  model ← gets (λ w, gw_model None ModelSelector_default (mw_gateway w));
  resp ← on_gateway (gw_chat (ChatRequest_new model [
    system "Summarize the following memories into a single concise note that preserves the key facts.";
    user joined]));
  mret (default "" (content (message resp))).

Definition compress (namespace : string) (policy : CompactionPolicy) (now : Z) : M W CompactionOutcome :=
  records ← on_store (mem_all (Some namespace));
  let candidates := candidates_of policy records in
  if Nat.ltb (length candidates) (cp_min_candidates policy) then mret {| compacted := 0; summary_id := None |}
  else
    summary ← summarize (map mr_content candidates);
    id ← remember_scoped namespace summary Semantic
           (foldl f32_max f32_zero (map mr_importance candidates))
           (sorted_set (concat (map mr_tags candidates)))
           (sorted_set (concat (map mr_required_scopes candidates))) now;
    _ ← on_store (mem_delete (map mr_id candidates));
    mret {| compacted := length candidates; summary_id := Some id |}.

(** *** Retrieval *)

Definition relevance_of (q : MemoryQuery) (candidates : list MemoryRecord) : M W Relevance :=
  match q_strategy q with
  | ByKeyword => mret (keyword_relevance (q_text q) candidates)
  | ByVector => qv ← embed (q_text q); mret (vector_relevance qv candidates)
  | Hybrid =>
    qv ← embed (q_text q);
    mret (reciprocal_rank_fusion
      [ranked_ids (vector_relevance qv candidates); ranked_ids (keyword_relevance (q_text q) candidates)]
      (rrf_k eng))
  end.

Definition fused_in_process (q : MemoryQuery) : M W (list MemoryRecord * Relevance) :=
  records ← on_store (mem_all (q_namespace q));
  match List.filter (λ r, passes_filters r q) records with
  | [] => mret ([], ∅)
  | candidates => relevance ← relevance_of q candidates; mret (candidates, relevance)
  end.

(** The relevance the indexes of the store give; [None] where it has none. *)
Definition pushed_relevance (q : MemoryQuery) : M W (option Relevance) :=
  let k := Z.max (u64_saturating_mul (q_limit q) 4) 50 in
  match q_strategy q with
  | ByVector =>
    qv ← embed (q_text q);
    hits ← on_store (vector_search (q_namespace q) qv k);
    mret (normalize <$> hits)
  | ByKeyword => hits ← on_store (keyword_search (q_namespace q) (q_text q) k); mret (normalize <$> hits)
  | Hybrid =>
    qv ← embed (q_text q);
    vector ← on_store (vector_search (q_namespace q) qv k);
    keyword ← on_store (keyword_search (q_namespace q) (q_text q) k);
    match vector, keyword with
    | Some v, Some kw => mret (Some (reciprocal_rank_fusion [ids_of v; ids_of kw] (rrf_k eng)))
    | _, _ => mret None
    end
  end.
Definition fused_pushdown (q : MemoryQuery) : M W (option (list MemoryRecord * Relevance)) :=
  pushed ← pushed_relevance q;
  match pushed with
  | None => mret None
  | Some relevance =>
    match btree_keys relevance with
    | [] => mret (Some ([], ∅))
    | ids =>
      records ← on_store (mem_get ids);
      mret (Some (List.filter (λ r, passes_filters r q) records, relevance))
    end
  end.

(** The second stage: any failure of the reranker leaves the fused scores. *)
Definition reranked (top : list MemoryRecord) (scores : list f32) (relevance : Relevance) : Relevance :=
  foldl (λ m rs, <[mr_id rs.1 := f32_clamp f32_zero f32_one rs.2]> m) relevance (zip top scores).
Definition apply_rerank (q : MemoryQuery) (records : list MemoryRecord) (relevance : Relevance) : M W Relevance :=
  r ← gets mw_reranker;
  match r with
  | None => mret relevance
  | Some r =>
    let score r := default f32_zero (relevance !! mr_id r) in
    let top := take (Z.to_nat (Z.max (rerank_top_n eng) (q_limit q)))
                 (merge_sort (better_first score mr_id) records) in
    match top with
    | [] => mret relevance
    | _ =>
      scores ← catch (on_reranker r (rerank (q_text q) (map mr_content top)));
      match scores with
      | Ok scores => mret (if Nat.eqb (length scores) (length top) then reranked top scores relevance else relevance)
      | Err _ => mret relevance
      end
    end
  end.

Definition attach (parents : gmap string MemoryRecord) (s : ScoredMemory) : ScoredMemory :=
  match mr_parent_id (sm_record s) with
  | None => s
  | Some pid =>
    {| sm_record := sm_record s; sm_score := sm_score s; sm_breakdown := sm_breakdown s; sm_parent := parents !! pid |}
  end.
Definition attach_parents (results : list ScoredMemory) (q : MemoryQuery) : M W (list ScoredMemory) :=
  match sorted_set (omap (λ s, mr_parent_id (sm_record s)) results) with
  | [] => mret results
  | ids =>
    records ← on_store (mem_get ids);
    let parents := collect_map (map (λ p, (mr_id p, p)) (List.filter (λ p, abac_allows p q) records)) in
    mret (map (attach parents) results)
  end.

Definition query (q : MemoryQuery) (now : Z) : M W (list ScoredMemory) :=
  pushed ← gets (λ w, supports_pushdown (mw_store w));
  fused ← (if pushed : bool then fused_pushdown q else mret None);
  rr ← match fused with Some rr => mret rr | None => fused_in_process q end;
  relevance ← apply_rerank q rr.1 rr.2;
  let results := rank rr.1 relevance q now in
  if q_expand_parents q then attach_parents results q else mret results.
End engine.

(** The gateway of [wovyr-provider]; the arrivals are those of a hedged
    dispatch. *)
Definition provider_gateway {P B C J E}
    `{AIProvider P, CircuitBreaker B, SemanticCacheStore ChatResponse C, Jitter J, Monotonic E, ChatText}
    (gw : Gateway) (arrivals : list arrival) : MemoryGateway (World P B C J E) := {|
  gw_embed := embed_text;
  gw_chat req := chat_request gw req arrivals;
  gw_embedding_model := resolve_embedding_model gw;
  gw_model := resolve_model;
  gw_supports_embeddings := can_embed;
  gw_provider_name := provider_name |}.
