(* ===== verification/MemoryInv.v ===== *)
(** * What the memory engine shows, keeps and forgets

    The order of scores; what a query returns, over any store, gateway and
    reranker; the windows a document is cut into; compaction and re-embedding
    of a store in memory; and the encrypting store as the store it wraps. *)
From stdpp Require Import base tactics list numbers strings gmap sorting.
From Stdlib Require Import Lia ZArith Ascii SpecFloat.
From S2P Require Import Prelude.
From S2P Require Import RustStr.
From S2P Require Import F64.
From S2P Require Import Common.
From S2P Require Import Effect.
From S2P Require Import Resilience.
From S2P Require Import Chat.
From S2P Require Import Gateway.
From S2P Require Import AgentContext.
From S2P Require Import Kms.
From S2P Require Import KmsInv.
From S2P Require Import Memory.
Local Open Scope Z_scope.

(** ** The order of floats that are numbers *)

(** Class, exponent and mantissa, the latter two negated below zero: floats
    that are not NaN compare as these triples do, lexicographically. *)
Definition float_rank (x : spec_float) : Z * Z * Z :=
  match x with
  | S754_nan => (0, 0, 0)
  | S754_zero _ => (0, 0, 0)
  | S754_infinity s => (if s then -2 else 2, 0, 0)
  | S754_finite s m e => if s then (-1, - e, - Z.pos m) else (1, e, Z.pos m)
  end.
Definition rank_lt (a b : Z * Z * Z) : Prop :=
  a.1.1 < b.1.1 ∨ a.1.1 = b.1.1 ∧ (a.1.2 < b.1.2 ∨ a.1.2 = b.1.2 ∧ a.2 < b.2).

Lemma float_ltb_rank x y : f32_is_nan x = false → f32_is_nan y = false →
  f32_ltb x y = true ↔ rank_lt (float_rank x) (float_rank y).
Proof.
  intros Hx Hy. unfold f32_ltb, SFltb, rank_lt.
  destruct x as [sx|sx| |sx mx ex], y as [sy|sy| |sy my ey]; try done; cbn [SFcompare float_rank];
    try (destruct sx); try (destruct sy); cbn; try (split; intros; (done || lia)).
  - destruct (Z.compare_spec ex ey) as [->|?|?]; [|split; intros; (done || lia)..].
    change (Pos.compare_cont Eq mx my) with (mx ?= my)%positive.
    destruct (Pos.compare_spec mx my) as [->|?|?]; cbn; split; intros; (done || lia).
  - destruct (Z.compare_spec ex ey) as [->|?|?]; [|split; intros; (done || lia)..].
    change (Pos.compare_cont Eq mx my) with (mx ?= my)%positive.
    destruct (Pos.compare_spec mx my) as [->|?|?]; cbn; split; intros; (done || lia).
Qed.

Section better.
Context {A : Type} (score : A → f32) (id : A → string).

#[export] Instance better_first_total : Total (better_first score id).
Proof.
  intros a b. unfold better_first. destruct (f32_ltb (score a) (score b)) eqn:E1; [by right; left|].
  destruct (f32_ltb (score b) (score a)) eqn:E2; [by left; left|].
  destruct (base.total String.le (id a) (id b)); [left|right]; by right.
Qed.

Lemma better_first_trans a b c : f32_is_nan (score a) = false → f32_is_nan (score b) = false →
  f32_is_nan (score c) = false → better_first score id a b → better_first score id b c → better_first score id a c.
Proof.
  intros Ha Hb Hc. unfold better_first.
  pose proof (float_ltb_rank _ _ Ha Hb) as Rab. pose proof (float_ltb_rank _ _ Hb Ha) as Rba.
  pose proof (float_ltb_rank _ _ Hb Hc) as Rbc. pose proof (float_ltb_rank _ _ Hc Hb) as Rcb.
  pose proof (float_ltb_rank _ _ Ha Hc) as Rac. pose proof (float_ltb_rank _ _ Hc Ha) as Rca.
  rewrite <-!not_true_iff_false. rewrite Rab, Rba, Rbc, Rcb, Rac, Rca. unfold rank_lt.
  intros [H1|[H1 H1']] [H2|[H2 H2']]; [left; lia..|].
  destruct (decide (float_rank (score b) = float_rank (score a) ∧ float_rank (score c) = float_rank (score b)))
    as [[E1 E2]|]; [right; split; [rewrite E2, E1; lia|by etrans]|].
  right. split; [lia|by etrans].
Qed.

(** Sorted lists of numbers are sorted throughout. *)
Lemma better_first_sorted l : Sorted (better_first score id) l → Forall (λ a, f32_is_nan (score a) = false) l →
  StronglySorted (better_first score id) l.
Proof.
  induction 1 as [|a l Hl IH Hh]; intros Hn; [constructor|]. inversion Hn as [|? ? Ha Hn']; subst.
  specialize (IH Hn'). constructor; [done|]. inversion Hh as [|b l' Hab]; subst; [constructor|].
  inversion IH as [|? ? Hs Hb]; subst. constructor; [done|]. inversion Hn' as [|? ? Hnb Hnl]; subst.
  apply Forall_forall. intros c Hc. rewrite Forall_forall in Hb, Hnl.
  apply (better_first_trans a b c); auto.
Qed.
End better.

(** ** Ranking *)

Lemma mmr_go_perm fuel lambda limit remaining selected :
  length remaining = fuel →
  ∃ picked rest, mmr_go fuel lambda limit remaining selected = selected ++ picked ∧
    remaining ≡ₚ picked ++ rest ∧
    Z.of_nat (length (selected ++ picked)) = Z.max (Z.of_nat (length selected))
      (Z.min limit (Z.of_nat (length selected + length remaining))).
Proof.
  revert remaining selected. induction fuel as [|fuel IH]; intros remaining selected Hf; cbn [mmr_go].
  { apply nil_length_inv in Hf as ->. exists [], []. rewrite app_nil_r. split; [done|]. split; [done|]. cbn. lia. }
  destruct (Z.leb_spec limit (Z.of_nat (length selected))) as [Hl|Hl].
  { exists [], remaining. rewrite app_nil_r. split; [done|]. split; [done|]. lia. }
  set (best := best_index _ _ _ _). destruct (remaining !! best) as [pick|] eqn:Hp.
  - pose proof (lookup_lt_Some _ _ _ Hp) as Hlt. pose proof (take_drop_middle _ _ _ Hp) as Hmid.
    destruct (IH (take best remaining ++ drop (S best) remaining) (selected ++ [pick])) as (picked & rest & -> & Hperm & Hlen).
    { rewrite length_app, length_take, length_drop. lia. }
    exists (pick :: picked), rest. split; [by rewrite <-app_assoc|]. split.
    + rewrite <-Hmid at 1. rewrite <-Permutation_middle. cbn. by rewrite Hperm.
    + rewrite <-app_assoc in Hlen. cbn in Hlen |- *. rewrite Hlen. rewrite !length_app, length_take, length_drop. cbn. lia.
  - exfalso. apply lookup_ge_None in Hp.
    assert (∀ vs i b m, (i + length vs ≤ length remaining)%nat → (b < length remaining)%nat →
      (best_index vs i b m < length remaining)%nat) as Hb.
    { induction vs as [|v vs IHv]; intros i b m Hi Hb; cbn [best_index]; [done|].
      destruct (f32_ltb m v); apply IHv; cbn in Hi; lia. }
    enough (best < length remaining)%nat by lia. apply Hb; [rewrite length_map|]; lia.
Qed.

Section rank.
Context `{Libm32}.
Implicit Types (q : MemoryQuery) (records : list MemoryRecord).

(** The candidates of a query with their scores. *)
Definition scored_all records (relevance : gmap string f32) q now : list ScoredMemory :=
  map (score_record relevance q (foldr Z.max 0 (map mr_seq records)) now) records.
Definition rank_limit q : Z := Z.max (q_limit q) 1.

Lemma rank_perm records relevance q now : ∃ rest,
  scored_all records relevance q now ≡ₚ rank records relevance q now ++ rest ∧
  Z.of_nat (length (rank records relevance q now)) = Z.min (rank_limit q) (Z.of_nat (length records)).
Proof.
  unfold rank. fold (scored_all records relevance q now). set (all := scored_all _ _ _ _).
  assert (length all = length records) as Hl by (unfold all, scored_all; by rewrite length_map).
  pose proof (merge_sort_Permutation (better_first sm_score sm_id) all) as Hs.
  destruct (f32_ltb f32_zero (q_diversity q)).
  - unfold mmr_select. set (sorted := merge_sort _ _) in *.
    destruct (mmr_go_perm (length sorted) (f32_sub f32_one (f32_clamp f32_zero f32_one (q_diversity q)))
      (Z.max (q_limit q) 1) sorted [] eq_refl) as (picked & rest & -> & Hp & Hlen). exists rest.
    split; [by rewrite <-Hs|]. rewrite Hlen. cbn. rewrite Hs, Hl. unfold rank_limit. lia.
  - eexists. split; [by rewrite (take_drop (Z.to_nat (rank_limit q)))|].
    rewrite length_take, Hs, Hl. unfold rank_limit. lia.
Qed.

Lemma rank_elem records relevance q now s : s ∈ rank records relevance q now →
  ∃ r, r ∈ records ∧ s = score_record relevance q (foldr Z.max 0 (map mr_seq records)) now r.
Proof.
  intros Hs. destruct (rank_perm records relevance q now) as (rest & Hp & _).
  assert (s ∈ scored_all records relevance q now) as Hin by (rewrite Hp; set_solver).
  apply list_elem_of_fmap in Hin as (r & -> & Hr). eauto.
Qed.
End rank.

(** What a query ranks, it ranks best first.  The results are the
    candidates' own scores - the weighted sum of relevance, recency and
    importance, no candidate twice and none made up - and as many as the limit
    and the candidates allow; without diversification, where no score is NaN,
    they are in order, by descending score and then by id, and no candidate
    that was left out is before one that was returned. *)
Theorem results_are_best_first `{Libm32} records (relevance : gmap string f32) q now :
  let all := scored_all records relevance q now in
  let top := rank records relevance q now in
  ∃ rest, all ≡ₚ top ++ rest ∧
    Z.of_nat (length top) = Z.min (rank_limit q) (Z.of_nat (length records)) ∧
    (f32_ltb f32_zero (q_diversity q) = false → Forall (λ s, f32_is_nan (sm_score s) = false) all →
     StronglySorted (better_first sm_score sm_id) top ∧
     ∀ s left, s ∈ top → left ∈ rest → better_first sm_score sm_id s left).
Proof.
  intros all top. destruct (f32_ltb f32_zero (q_diversity q)) eqn:Hd.
  { destruct (rank_perm records relevance q now) as (rest & Hp & Hl). by exists rest. }
  set (sorted := merge_sort (better_first sm_score sm_id) all).
  assert (top = take (Z.to_nat (rank_limit q)) sorted) as Ht.
  { unfold top, rank. by rewrite Hd. }
  pose proof (merge_sort_Permutation (better_first sm_score sm_id) all) as Hs.
  exists (drop (Z.to_nat (rank_limit q)) sorted). rewrite Ht, take_drop. split; [done|].
  assert (length all = length records) as Hl by (unfold all, scored_all; by rewrite length_map).
  split; [unfold sorted; rewrite length_take, Hs, Hl; unfold rank_limit; lia|]. intros _ Hn.
  assert (StronglySorted (better_first sm_score sm_id) sorted) as Hsorted.
  { apply better_first_sorted; [apply Sorted_merge_sort, _|]. unfold sorted; by rewrite Hs. }
  rewrite <-(take_drop (Z.to_nat (rank_limit q)) sorted) in Hsorted.
  apply StronglySorted_app in Hsorted as (H1 & H2 & H3). split; [done|]. intros s l Hs' Hl'. by apply H1.
Qed.

(** ** What a query shows *)

(** The scopes a reader holds are all that the record requires. *)
Definition may_see (q : MemoryQuery) (r : MemoryRecord) : Prop :=
  mr_required_scopes r = [] ∨ ∃ grants, q_access q = Some grants ∧ mr_required_scopes r ⊆ grants.
(** What the query asks of a record, beyond its rank. *)
Record asked (q : MemoryQuery) (r : MemoryRecord) : Prop := {
  asked_parent : mr_is_parent r = false;
  asked_importance : f32_leb (q_min_importance q) (mr_importance r) = true;
  asked_max m : q_max_importance q = Some m → f32_leb (mr_importance r) m = true;
  asked_after t : q_created_after q = Some t → 0 < mr_created_ms r ∧ t <= mr_created_ms r;
  asked_before t : q_created_before q = Some t → 0 < mr_created_ms r ∧ mr_created_ms r <= t;
  asked_tags : q_tags q = [] ∨ ∃ t, t ∈ q_tags q ∧ t ∈ mr_tags r;
  asked_access : may_see q r;
}.

Lemma abac_allows_spec r q : abac_allows r q = true ↔ may_see q r.
Proof.
  unfold abac_allows, may_see. destruct (mr_required_scopes r) as [|s ss]; [by split; [left|]|].
  destruct (q_access q) as [grants|].
  - rewrite forallb_elem. split.
    + intros Hall. right. exists grants. split; [done|]. intros x Hx. apply (bool_decide_eq_true_1 _), Hall, Hx.
    + intros [?|(g & [= <-] & Hsub)]; [done|]. intros x Hx. apply bool_decide_eq_true_2, Hsub, Hx.
  - split; [done|]. intros [?|(? & ? & _)]; done.
Qed.

Lemma passes_filters_asked r q : passes_filters r q = true → asked q r.
Proof.
  unfold passes_filters, in_time_window. intros (((((Hp & Hi)%andb_true_iff & Hm)%andb_true_iff & Ht)%andb_true_iff
    & Htags)%andb_true_iff & Ha)%andb_true_iff. split.
  - by apply negb_true_iff.
  - done.
  - intros m Hq. by rewrite Hq in Hm.
  - intros t Hq. rewrite Hq in Ht. apply andb_true_iff in Ht as [[H1 H2]%andb_true_iff _]. cbn in H2. lia.
  - intros t Hq. rewrite Hq in Ht. destruct (q_created_after q); apply andb_true_iff in Ht as [[H1 _]%andb_true_iff H2];
      cbn in H2; lia.
  - destruct (q_tags q) as [|t ts]; [by left|right]. unfold has_any in Htags. apply existsb_elem in Htags as (t' & Hin & H1).
    exists t'. split; [done|]. by apply bool_decide_eq_true_1 in H1.
  - by apply abac_allows_spec.
Qed.

(** A store that gives only records of the namespace it was asked for. *)
Class ScopedStore (St : Type) `{MemoryStore St} :=
  all_scoped ns s s' l : mem_all (Some ns) s = (s', Ret l) → ∀ r, r ∈ l → mr_namespace r = ns.

Lemma filter_ns_elem ns l r : r ∈ filter_ns ns l ↔ r ∈ l ∧ ∀ n, ns = Some n → mr_namespace r = n.
Proof.
  destruct ns as [n|]; cbn; [|naive_solver]. rewrite filter_elem, String.eqb_eq. naive_solver.
Qed.
#[export] Instance in_memory_scoped : ScopedStore InMemoryStore.t.
Proof. intros ns s s' l [= <- <-] r Hr. apply (filter_ns_elem (Some ns)) in Hr. naive_solver. Qed.

Section query.
Context {G St R : Type} `{MemoryGateway G, MemoryStore St, Reranker R, Unicode, Libm32} (eng : MemoryEngine).
Implicit Types (w : MemWorld G St R) (q : MemoryQuery).

Abbreviation any := (λ _ _, True) (only parsing).
Lemma wp_any {W A} (m : M W A) (v : W) : wp m any any v.
Proof. unfold wp. by destruct (m v) as [? []]. Qed.

Lemma wp_embed_store text w : wp (embed text) (λ _ w', mw_store w' = mw_store w) (λ _ w', mw_store w' = mw_store w) w.
Proof.
  unfold wp, embed, embedding_model_now, gets, on_gateway, zoom, mbind, M_bind. cbn.
  destruct (gw_embed _ _) as [g [resp|s]]; cbn; [|done]. by destruct (em_vectors resp).
Qed.

(** Of a store that does not search, the candidates are what it has. *)
Lemma wp_in_process q w :
  wp (fused_in_process eng q) (λ rr _, ∃ s' l, mem_all (q_namespace q) (mw_store w) = (s', Ret l) ∧
    rr.1 = List.filter (λ r, passes_filters r q) l) any w.
Proof.
  unfold fused_in_process. eapply (wp_call _ _ (λ l w', ∃ s', mem_all (q_namespace q) (mw_store w) = (s', Ret l))).
  { unfold wp, on_store, zoom. destruct (mem_all _ _) as [s' [l|]]; [by eexists|done]. }
  intros l w' [s' Hl]. destruct (List.filter _ l) as [|r rs] eqn:E.
  { apply wp_ret. eauto. }
  eapply wp_call; [apply wp_any|]. intros rel w'' _. apply wp_ret. eauto.
Qed.

Lemma wp_pushdown q w :
  wp (fused_pushdown eng q) (λ o _, ∀ rr, o = Some rr → ∀ r, r ∈ rr.1 → passes_filters r q = true) any w.
Proof.
  unfold fused_pushdown. eapply wp_call; [apply wp_any|]. intros [rel|] w' _; [|by apply wp_ret].
  destruct (btree_keys rel) as [|k ks]; [apply wp_ret; intros rr [= <-] r []%not_elem_of_nil|].
  eapply wp_call; [apply wp_any|]. intros l w'' _. apply wp_ret. intros rr [= <-] r. cbn. rewrite filter_elem. naive_solver.
Qed.

(** What a result may carry as its parent. *)
Definition parent_allowed q (s : ScoredMemory) : Prop :=
  ∀ p, sm_parent s = Some p →
    q_expand_parents q = true ∧ mr_parent_id (sm_record s) = Some (mr_id p) ∧ may_see q p.

Lemma collect_map_lookup {V} (l : list (string * V)) k v : collect_map l !! k = Some v → (k, v) ∈ l.
Proof.
  unfold collect_map. intros Hk. induction l as [|[k' v'] l IH] using rev_ind; [done|].
  rewrite foldl_app in Hk. cbn in Hk. apply lookup_insert_Some in Hk as [[-> ->]|[_ Hk]]; set_solver.
Qed.

Lemma wp_attach results q w : q_expand_parents q = true → Forall (λ s, sm_parent s = None) results →
  wp (attach_parents results q) (λ rs _, map sm_record rs = map sm_record results ∧
    map sm_score rs = map sm_score results ∧ Forall (parent_allowed q) rs) any w.
Proof.
  intros Hq Hn. unfold attach_parents. destruct (sorted_set _) as [|i ids].
  { apply wp_ret. split; [done|]. split; [done|]. eapply Forall_impl; [exact Hn|]. intros s Hs p. by rewrite Hs. }
  eapply wp_call; [apply wp_any|]. intros l w' _. apply wp_ret. rewrite !map_map. split; [|split].
  - apply map_ext. intros s. unfold attach. by destruct (mr_parent_id _).
  - apply map_ext. intros s. unfold attach. by destruct (mr_parent_id _).
  - apply Forall_map. eapply Forall_impl; [exact Hn|]. intros s Hs p. unfold attach.
    destruct (mr_parent_id (sm_record s)) as [pid|] eqn:Hpid; [|by rewrite Hs]. cbn. intros Hp.
    apply collect_map_lookup, list_elem_of_fmap in Hp as (p' & [= -> <-] & Hin). rewrite filter_elem in Hin.
    split; [done|]. split; [done|]. apply abac_allows_spec, Hin.
Qed.
End query.

(** C14: A query shows only what it asked for and its reader may see.  Over any
    store, gateway and reranker, whatever the strategy: at most the limit of
    results, or one when the limit is zero; each a retrieval unit inside
    the importance range and the time window, with a wanted tag, all of whose
    required scopes the reader holds (without an access context: none required);
    a parent document is attached only when asked for, is the one the result
    names, and passes the same check.  Of a store that searches nothing itself
    (no pushdown) and keeps namespaces apart, every result is of the query's
    namespace and was stored; what a store with pushdown answers is only held
    to the filters. *)
Theorem queries_show_only_what_is_allowed {G St R} `{MemoryGateway G, MemoryStore St, Reranker R, Unicode, Libm32}
    eng q now (w w' : MemWorld G St R) results :
  query eng q now w = (w', Ret results) →
  Z.of_nat (length results) <= Z.max (q_limit q) 1 ∧
  (∀ s, s ∈ results → asked q (sm_record s) ∧ parent_allowed q s) ∧
  (supports_pushdown (mw_store w) = false → ScopedStore St → ∀ ns, q_namespace q = Some ns →
   ∀ s, s ∈ results → mr_namespace (sm_record s) = ns ∧
     ∃ s' l, mem_all (Some ns) (mw_store w) = (s', Ret l) ∧ sm_record s ∈ l).
Proof.
  intros Hq. enough (wp (query eng q now) (λ results _, Z.of_nat (length results) <= rank_limit q ∧
    (∀ s, s ∈ results → parent_allowed q s) ∧ ∀ r, r ∈ map sm_record results → passes_filters r q = true ∧
      (supports_pushdown (mw_store w) = false →
       ∃ s' l, mem_all (q_namespace q) (mw_store w) = (s', Ret l) ∧ r ∈ l)) (λ _ _, True) w) as Hw.
  { unfold wp in Hw. rewrite Hq in Hw. destruct Hw as (Hl & Hp & Hr). split; [done|]. split.
    - intros s Hs. split; [|by apply Hp]. apply passes_filters_asked, Hr, list_elem_of_fmap. eauto.
    - intros Hpush Hsc ns Hns s Hs. destruct (Hr (sm_record s)) as [_ Hin]; [apply list_elem_of_fmap; eauto|].
      destruct (Hin Hpush) as (s' & l & Hall & Hin'). rewrite Hns in Hall. split; [|by eauto].
      by eapply all_scoped. }
  unfold query. apply wp_gets_bind.
  eapply (wp_call _ _ (λ o w1, (supports_pushdown (mw_store w) = false → o = None ∧ w1 = w) ∧
    ∀ rr, o = Some rr → ∀ r, r ∈ rr.1 → passes_filters r q = true)).
  { destruct (supports_pushdown (mw_store w)).
    - eapply wp_mono; [apply wp_pushdown| |done]. intros o w1 Ho. split; [done|exact Ho].
    - apply wp_ret. by split. }
  intros fused w1 [Hpush Hf].
  eapply (wp_call _ _ (λ rr _, ∀ r, r ∈ rr.1 → passes_filters r q = true ∧
    (supports_pushdown (mw_store w) = false →
       ∃ s' l, mem_all (q_namespace q) (mw_store w) = (s', Ret l) ∧ r ∈ l))).
  { destruct fused as [rr|].
    - apply wp_ret. intros r Hr. split; [by eapply Hf|]. intros Hn. by destruct (Hpush Hn).
    - eapply wp_mono; [apply wp_in_process| |done]. intros rr w2 (s' & l & Hl & Hrr) r. rewrite Hrr, filter_elem.
      intros [Hin Hpass]. split; [done|]. intros Hn. destruct (Hpush Hn) as [_ ->]. eauto. }
  intros rr w2 Hrr. eapply wp_call; [apply wp_any|]. intros rel w3 _.
  set (top := rank rr.1 rel q now).
  assert (Z.of_nat (length top) <= rank_limit q) as Hlen.
  { destruct (rank_perm rr.1 rel q now) as (? & _ & Hl). fold top in Hl. lia. }
  assert (Forall (λ s, sm_parent s = None) top) as Hnp.
  { apply Forall_forall. intros s Hs. by apply rank_elem in Hs as (r & _ & ->). }
  assert (∀ r, r ∈ map sm_record top → r ∈ rr.1) as Hin.
  { intros r (s & -> & Hs)%list_elem_of_fmap. by apply rank_elem in Hs as (r & Hr & ->). }
  destruct (q_expand_parents q) eqn:He.
  - eapply wp_mono; [by apply wp_attach| |done]. intros rs w4 (Hrec & _ & Hall). split.
    + by rewrite <-(length_map sm_record), Hrec, length_map.
    + split; [by apply Forall_forall|]. intros r. rewrite Hrec. auto.
  - apply wp_ret. split; [done|]. split; [|auto]. intros s Hs p. rewrite Forall_forall in Hnp. by rewrite Hnp.
Qed.

(** *** A reranker that fails *)

(** It answers with an error, or with another number of scores. *)
Definition fails_on {R} `{Reranker R} (r : R) (text : string) : Prop :=
  ∀ cands, cands ≠ [] → match (rerank text cands r).2 with
                         | Ret scores => length scores ≠ length cands
                         | Stop (Throw _) => True
                         | Stop _ => False
                         end.
Definition without_reranker {G St R} (w : MemWorld G St R) : MemWorld G St R :=
  {| mw_gateway := mw_gateway w; mw_store := mw_store w; mw_reranker := None |}.

(** Operations that do not ask the reranker. *)
Section plain.
Context {G St R : Type} `{MemoryGateway G, MemoryStore St, Unicode, Libm32}.
Definition plain {A} (m : M (MemWorld G St R) A) : Prop := ∀ w,
  mw_reranker (m w).1 = mw_reranker w ∧ m (without_reranker w) = (without_reranker (m w).1, (m w).2).

Lemma plain_ret {A} (a : A) : plain (mret a).
Proof. by intros w. Qed.
Lemma plain_throw {A} e : plain (throw (A := A) e).
Proof. by intros w. Qed.
Lemma plain_gets {A} (f : MemWorld G St R → A) : (∀ w, f (without_reranker w) = f w) → plain (gets f).
Proof. intros Hf w. unfold gets. by rewrite Hf. Qed.
Lemma query_plain_bind {A B} (m : M (MemWorld G St R) A) (k : A → M (MemWorld G St R) B) :
  plain m → (∀ a, plain (k a)) → plain (m ≫= k).
Proof.
  intros Hm Hk w. destruct (Hm w) as [Hr Hw]. unfold mbind, M_bind. rewrite Hw.
  destruct (m w) as [w1 [a|s]]; cbn in *; [|done]. destruct (Hk a w1) as [Hr' Hw']. by rewrite Hr', Hw'.
Qed.
Lemma plain_gateway {A} (m : M G A) : plain (on_gateway m).
Proof. intros w. unfold on_gateway, zoom. cbn. by destruct (m (mw_gateway w)). Qed.
Lemma plain_store {A} (m : M St A) : plain (on_store m).
Proof. intros w. unfold on_store, zoom. cbn. by destruct (m (mw_store w)). Qed.

Ltac plain := repeat (apply plain_ret || apply plain_throw || apply plain_gateway || apply plain_store ||
  (apply plain_gets; done) || (apply query_plain_bind; [|intros ?]) || case_match).

Lemma plain_embed text : plain (embed text).
Proof. unfold embed, embedding_model_now. plain. Qed.
Lemma plain_pushdown eng q : plain (fused_pushdown eng q).
Proof. unfold fused_pushdown, pushed_relevance. repeat (apply plain_embed || plain). Qed.
Lemma plain_in_process eng q : plain (fused_in_process eng q).
Proof. unfold fused_in_process, relevance_of. repeat (apply plain_embed || plain). Qed.
Lemma plain_attach results q : plain (attach_parents results q).
Proof. unfold attach_parents. plain. Qed.

(** Without the reranker [m] does the same from [w]. *)
Definition agrees {A} (m : M (MemWorld G St R) A) w : Prop :=
  m (without_reranker w) = (without_reranker (m w).1, (m w).2).
Lemma agrees_plain {A B} (m : M (MemWorld G St R) A) (k : A → M (MemWorld G St R) B) w :
  plain m → (∀ a w', mw_reranker w' = mw_reranker w → agrees (k a) w') → agrees (m ≫= k) w.
Proof.
  intros Hm Hk. destruct (Hm w) as [Hr Hw]. unfold agrees, mbind, M_bind. rewrite Hw.
  destruct (m w) as [w1 [a|s]]; cbn in *; [|done]. by apply Hk.
Qed.
Lemma agrees_then {A B} (m : M (MemWorld G St R) A) (k : A → M (MemWorld G St R) B) w :
  agrees m w → (∀ a, plain (k a)) → agrees (m ≫= k) w.
Proof.
  intros Hm Hk. unfold agrees, mbind, M_bind in *. rewrite Hm.
  destruct (m w) as [w1 [a|s]]; cbn in *; [|done]. apply Hk.
Qed.
Lemma apply_rerank_agrees `{Reranker R} eng q records relevance w :
  (∀ r, mw_reranker w = Some r → fails_on r (q_text q)) → agrees (apply_rerank eng q records relevance) w.
Proof.
  intros Hfail. unfold agrees, apply_rerank, mbind, M_bind, gets. cbn.
  destruct (mw_reranker w) as [r|]; [|done]. set (top := take _ _). destruct top as [|c cs]; [done|].
  specialize (Hfail r eq_refl (map mr_content (c :: cs))). unfold catch, on_reranker. rewrite length_map in Hfail.
  destruct (rerank _ _ r) as [r' [scores|[e| | |]]]; cbn in Hfail |- *; [|done|by exfalso; apply Hfail..].
  destruct (Nat.eqb_spec (length scores) (S (length cs))); [by exfalso; apply Hfail|done].
Qed.
End plain.

(** A reranker that fails does not show.  A query over an engine whose
    reranker answers with an error or with another number of scores gives the
    very results, or the error, of the engine without one, and leaves gateway
    and store as that does. *)
Theorem failing_rerankers_do_not_show {G St R} `{MemoryGateway G, MemoryStore St, Reranker R, Unicode, Libm32}
    eng q now (w : MemWorld G St R) :
  (∀ r, mw_reranker w = Some r → fails_on r (q_text q)) →
  let '(w1, a1) := query eng q now w in
  let '(w2, a2) := query eng q now (without_reranker w) in
  a1 = a2 ∧ without_reranker w1 = w2.
Proof.
  intros Hfail. enough (agrees (query eng q now) w) as Ha by (unfold agrees in Ha; rewrite Ha; by destruct (query eng q now w)).
  unfold query. apply agrees_plain; [by apply plain_gets|]. intros pushed w1 Hr1.
  apply agrees_plain; [case_match; [apply plain_pushdown|apply plain_ret]|]. intros fused w2 Hr2.
  apply agrees_plain; [case_match; [apply plain_ret|apply plain_in_process]|]. intros rr w3 Hr3.
  apply agrees_then; [apply apply_rerank_agrees; intros r; rewrite Hr3, Hr2, Hr1; apply Hfail|].
  intros rel. case_match; [apply plain_attach|apply plain_ret].
Qed.

(** ** The windows of a document *)

(** How many characters words take up, joined by spaces. *)
Definition joined_width (ws : list string) : nat := (sum_list_with Chunk.width ws + (length ws - 1))%nat.

Lemma chars_app s t : utf8_start t = true → chars (s +:+ t) = chars s ++ chars t.
Proof.
  intros Ht. unfold utf8_start in Ht. apply negb_true_iff in Ht. induction s as [|c s IH]; [done|].
  rewrite str_app_cons. cbn [chars]. rewrite IH. destruct (chars s) as [|ch cs] eqn:E; [|cbn; by destruct (continues ch)].
  cbn. pose proof (chars_head t) as Hh. destruct (chars t) as [|ch cs]; [done|]. destruct Hh as [_ ->]. by rewrite Ht.
Qed.
Lemma width_join ws : Forall (λ w, utf8_start w = true) ws → Chunk.width (join_with " " ws) = joined_width ws.
Proof.
  unfold joined_width, Chunk.width. induction 1 as [|w [|w' ws] Hw Hws IH]; [done|cbn; lia|].
  change (join_with " " (w :: w' :: ws)) with (w +:+ (" " +:+ join_with " " (w' :: ws))).
  rewrite chars_app by done. inversion Hws as [|? ? Hw' _]; subst.
  assert (utf8_start (join_with " " (w' :: ws)) = true) as Hj.
  { destruct ws as [|w'' ws]; [done|]. cbn [join_with]. unfold utf8_start in *. by destruct w'. }
  rewrite (chars_app " ") by done. rewrite !length_app, IH. cbn. lia.
Qed.
Lemma joined_width_snoc l w : joined_width (l ++ [w]) =
  (joined_width l + (Chunk.width w + (if Nat.ltb 0 (length l) then 1 else 0)))%nat.
Proof.
  unfold joined_width. rewrite length_app. cbn. rewrite sum_list_with_app. cbn.
  destruct l; cbn; lia.
Qed.

Lemma grow_spec max pre ws : (joined_width pre ≤ max ∨ length pre ≤ 1)%nat →
  let n := Chunk.grow max ws (length pre) (joined_width pre) in
  (length pre ≤ n ≤ length (pre ++ ws))%nat ∧ (pre ++ ws ≠ [] → 0 < n)%nat ∧
  (joined_width (take n (pre ++ ws)) ≤ max ∨ n ≤ 1)%nat ∧
  (n < length (pre ++ ws) → max < joined_width (take (S n) (pre ++ ws)))%nat.
Proof.
  revert pre. induction ws as [|w ws IH]; intros pre Hpre; cbn [Chunk.grow].
  { rewrite app_nil_r, take_ge by lia. split; [lia|]. split; [destruct pre; cbn; [done|lia]|]. split; [done|lia]. }
  rewrite <-joined_width_snoc. assert (pre ++ w :: ws = (pre ++ [w]) ++ ws) as Happ by by rewrite <-app_assoc.
  destruct (Nat.ltb_spec max (joined_width (pre ++ [w]))) as [Hm|Hm];
    destruct (Nat.ltb_spec 0 (length pre)) as [Hp|Hp]; cbn [andb].
  { rewrite take_app_length, length_app. cbn. split; [lia|]. split; [lia|]. split; [done|]. intros _. rewrite Happ.
    rewrite take_app_le by (rewrite length_app; cbn; lia). rewrite take_ge; [done|]. rewrite length_app. cbn. lia. }
  all: rewrite Happ; specialize (IH (pre ++ [w])); rewrite length_app, Nat.add_1_r in IH.
  all: destruct IH as (H1 & H2 & H3 & H4); [lia|split; [lia|]; split; [done|]; by split].
Qed.

Lemma step_back_spec words start overlap next covered : (start < next)%nat →
  let n := Chunk.step_back words start overlap next covered in
  (start < n ≤ next)%nat ∧ (overlap ≤ covered → n = next)%nat.
Proof.
  revert covered. induction next as [|n IH]; intros covered Hn; cbn [Chunk.step_back]; [lia|].
  destruct (Nat.ltb_spec (start + 1) (S n)) as [H1|H1]; [|cbn; lia].
  destruct (Nat.ltb_spec covered overlap) as [H2|H2]; [|cbn; lia]. cbn [andb].
  destruct (IH (covered + (Chunk.width (nth n words "") + 1))%nat) as [? _]; [lia|]. split; [lia|]. lia.
Qed.

(** The words from [a] to [b]: some, as many as fit - a single one always does. *)
Record window_fits (words : list string) (max a b : nat) : Prop := {
  fits_range : (a < b ≤ length words)%nat;
  fits_width : (joined_width (Chunk.window words a b) ≤ max ∨ b = S a)%nat;
  fits_most : (b < length words → max < joined_width (Chunk.window words a (S b)))%nat;
}.

(** Windows over [words] from [start]: each not empty, as wide as fits, the
    next one after its start and not past its end, the last one at the end. *)
Inductive tiles (words : list string) (max overlap : nat) : nat → list (nat * nat) → Prop :=
  | tiles_last a b :
      window_fits words max a b → length words = b → tiles words max overlap a [(a, b)]
  | tiles_next a b a' l :
      window_fits words max a b → (b < length words)%nat → (a < a' ≤ b)%nat → (overlap = 0 → a' = b)%nat →
      tiles words max overlap a' l → tiles words max overlap a ((a, b) :: l).

Lemma windows_tile fuel words max overlap start :
  (start < length words)%nat → (length words - start ≤ fuel)%nat →
  tiles words max overlap start (Chunk.windows fuel words max overlap start) ∧
  (length (Chunk.windows fuel words max overlap start) ≤ length words - start)%nat.
Proof.
  revert start. induction fuel as [|fuel IH]; intros start Hs Hf; [lia|]. cbn [Chunk.windows].
  pose proof (grow_spec max [] (drop start words)) as Hg. cbn [length app joined_width sum_list_with] in Hg.
  change (joined_width []) with 0%nat in Hg. destruct Hg as (H1 & H2 & H3 & H4); [lia|].
  set (n := Chunk.grow max (drop start words) 0 0) in *. rewrite length_drop in *.
  assert (0 < n)%nat as Hn. { apply H2. intros Hd. apply (f_equal length) in Hd. rewrite length_drop in Hd. cbn in Hd. lia. }
  assert (window_fits words max start (start + n)) as Hfit.
  { constructor; [lia|unfold Chunk.window; replace (start + n - start)%nat with n by lia; destruct H3; [by left|right; lia]|].
    intros Hlt. unfold Chunk.window. replace (S (start + n) - start)%nat with (S n) by lia. apply H4. lia. }
  destruct (Nat.leb_spec (length words) (start + n)) as [Hend|Hend].
  { split; [|cbn; lia]. constructor; [done|lia]. }
  destruct (step_back_spec words start overlap (start + n) 0) as [Hb Ho]; [lia|].
  destruct (IH (Chunk.step_back words start overlap (start + n) 0)) as [Ht Hl]; [lia..|].
  split; [|cbn; lia]. eapply tiles_next; [done|lia|done| |done]. intros ->. apply Ho. lia.
Qed.

Lemma tiles_cover words max overlap a l : tiles words max overlap a l →
  Forall (λ '(b, e), window_fits words max b e) l ∧
  ∀ i, (a ≤ i < length words)%nat → ∃ b e, (b, e) ∈ l ∧ (b ≤ i < e)%nat.
Proof.
  induction 1 as [a b Hw Hb|a b a' l Hw Hb Ha Ho Ht [IHf IH]].
  - split; [by constructor; [|constructor]|]. intros i Hi. exists a, b. split; [set_solver|]. destruct Hw. lia.
  - split; [by constructor|]. intros i Hi. destruct (decide (i < b)%nat) as [Hi'|Hi'].
    + exists a, b. split; [set_solver|lia].
    + destruct (IH i) as (b' & e & Hin & Hbe); [lia|]. exists b', e. split; [set_solver|done].
Qed.

(** C39: A document is cut into windows that cover it.  The chunks of a text are
    the windows of a tiling of its words: from the first word to the last, each
    starting after the one before starts and no later than it ends (exactly
    where it ends when no overlap is asked for), each at most so many
    characters wide or a single word, and none with room for the next word;
    every word is in a chunk, and there are no more chunks than words. *)
Theorem chunks_cover_the_document text policy :
  let words := split_whitespace text in
  let max := Nat.max (Chunk.max_chars policy) 1 in
  let overlap := Nat.min (Chunk.overlap_chars policy) (max - 1) in
  Forall (λ w, utf8_start w = true) words →
  ∃ l, Chunk.split text policy = map (λ '(a, b), join_with " " (Chunk.window words a b)) l ∧
    (words = [] → l = []) ∧ (words ≠ [] → tiles words max overlap 0 l) ∧
    (length l ≤ length words)%nat ∧
    (∀ a b, (a, b) ∈ l →
      (Chunk.width (join_with " " (Chunk.window words a b)) ≤ max ∨ b = S a)%nat) ∧
    ∀ w, w ∈ words → ∃ a b, (a, b) ∈ l ∧ w ∈ Chunk.window words a b.
Proof.
  intros words max overlap Hstart. unfold Chunk.split. fold words. fold max. fold overlap.
  destruct words as [|w0 ws] eqn:Ew.
  { exists []. split; [done|]. split; [done|]. split; [done|]. split; [cbn; lia|]. split; [by intros a b []%not_elem_of_nil|].
    by intros w ?%not_elem_of_nil. }
  rewrite <-Ew in *. destruct (windows_tile (length words) words max overlap 0) as [Ht Hl]; [rewrite Ew; cbn; lia|lia|].
  eexists. split; [done|]. split; [by rewrite Ew|]. split; [done|]. split; [lia|].
  destruct (tiles_cover _ _ _ _ _ Ht) as [Hf Hc]. split.
  - intros a b Hab. rewrite Forall_forall in Hf. specialize (Hf _ Hab). cbn in Hf. rewrite width_join; [apply Hf|].
    unfold Chunk.window. by apply Forall_take, Forall_drop.
  - intros w Hw. apply list_elem_of_lookup in Hw as [i Hi]. pose proof (lookup_lt_Some _ _ _ Hi) as Hlt.
    destruct (Hc i) as (a & b & Hin & Hab); [lia|]. exists a, b. split; [done|].
    apply list_elem_of_lookup. exists (i - a)%nat. unfold Chunk.window.
    rewrite lookup_take_lt by lia. rewrite lookup_drop. by replace (a + (i - a))%nat with i by lia.
Qed.

(** ** Re-embedding a store in memory *)

(** An embedding is a function of the model and the text, and a call leaves the
    model that is configured. *)
Class EmbedLaws (G : Type) `{MemoryGateway G} := {
  emb : string → string → list f32;
  embed_law req g g' resp : gw_embed req g = (g', Ret resp) → em_vectors resp = map (emb (er_model req)) (er_input req);
  embed_keeps req g : gw_embedding_model None (gw_embed req g).1 = gw_embedding_model None g;
}.

Lemma id_inj (l : list MemoryRecord) r r' : NoDup (map mr_id l) → r ∈ l → r' ∈ l → mr_id r = mr_id r' → r = r'.
Proof.
  induction l as [|x l IH]; intros Hnd Hr Hr' Hid; [by apply not_elem_of_nil in Hr|].
  cbn in Hnd. apply NoDup_cons in Hnd as [Hx Hnd]. apply elem_of_cons in Hr as [->|Hr], Hr' as [->|Hr']; auto.
  - exfalso. apply Hx. rewrite Hid. apply list_elem_of_fmap. eauto.
  - exfalso. apply Hx. rewrite <-Hid. apply list_elem_of_fmap. eauto.
Qed.

Section migration.
Context {G R : Type} `{EmbedLaws G} (ns model : string).
Implicit Types (w : MemWorld G InMemoryStore.t R) (l : list MemoryRecord).

Definition reembedded (r : MemoryRecord) : MemoryRecord := set_embedding (emb model (mr_content r)) model r.
(** What has been done when the records with these ids are. *)
Definition upto (done : list string) (r : MemoryRecord) : MemoryRecord :=
  if bool_decide (mr_id r ∈ done) then reembedded r else r.
Lemma upto_id done r : mr_id (upto done r) = mr_id r.
Proof. unfold upto. by case_bool_decide. Qed.

Lemma replace_upto l done r : NoDup (map mr_id l) → r ∈ l → 
  replace_first (reembedded r) (map (upto done) l) = Some (map (upto (mr_id r :: done)) l).
Proof.
  induction l as [|x l IH]; intros Hnd Hr; [by apply not_elem_of_nil in Hr|].
  cbn [map replace_first]. cbn [map] in Hnd. apply NoDup_cons in Hnd as [Hx Hnd]. rewrite upto_id. change (mr_id (reembedded r)) with (mr_id r).
  destruct (String.eqb_spec (mr_id x) (mr_id r)) as [E|E].
  - assert (x = r) as ->.
    { apply elem_of_cons in Hr as [->|Hr]; [done|]. exfalso. apply Hx. rewrite E. apply list_elem_of_fmap. eauto. }
    f_equal. unfold upto at 2. rewrite bool_decide_eq_true_2 by set_solver. f_equal.
    apply map_ext_in. intros y Hy%list_elem_of_In. unfold upto.
    assert (mr_id y ≠ mr_id r) by (intros E'; apply Hx; rewrite <-E'; apply list_elem_of_fmap; eauto).
    destruct (decide (mr_id y ∈ done)).
    + rewrite !bool_decide_eq_true_2 by set_solver. done.
    + rewrite !bool_decide_eq_false_2 by set_solver. done.
  - apply elem_of_cons in Hr as [->|Hr]; [done|]. rewrite IH by done. cbn. do 2 f_equal. unfold upto.
    destruct (decide (mr_id x ∈ done)).
    + rewrite !bool_decide_eq_true_2 by set_solver. done.
    + rewrite !bool_decide_eq_false_2 by set_solver. done.
Qed.

Lemma upto_ext l d d' : (∀ i, i ∈ d ↔ i ∈ d') → map (upto d) l = map (upto d') l.
Proof. intros Hd. apply map_ext. intros r. unfold upto. by rewrite (bool_decide_ext _ _ (Hd (mr_id r))). Qed.

Definition at_store l done w : Prop :=
  mw_store w = map (upto done) l ∧ gw_embedding_model None (mw_gateway w) = model.

Lemma wp_update_batch l batch done n w : NoDup (map mr_id l) → Forall (λ r, r ∈ l) batch → at_store l done w →
  wp (update_batch model (zip batch (map (λ r, emb model (mr_content r)) batch)) n)
    (λ n' w', n' = (n + length batch)%nat ∧ at_store l (map mr_id batch ++ done) w') (λ _ _, False) w.
Proof.
  intros Hnd. revert done n w. induction batch as [|r batch IH]; intros done n w Hb Hw; cbn [map zip zip_with update_batch].
  { apply wp_ret. split; [cbn; lia|done]. }
  inversion Hb as [|? ? Hr Hb']; subst. destruct Hw as [Hs Hm].
  eapply (wp_call _ _ (λ _ w', at_store l (mr_id r :: done) w')).
  { unfold wp, on_store, zoom. cbn. unfold InMemoryStore.update. rewrite Hs.
    change (set_embedding (emb model (mr_content r)) model r) with (reembedded r).
    rewrite replace_upto by done. done. }
  intros _ w' Hw'. eapply wp_mono; [by apply IH| |done]. intros n' w'' [-> [Hs' Hm']]. split; [cbn; lia|].
  split; [|done]. rewrite Hs'. apply upto_ext. intros i. cbn. set_solver.
Qed.

Lemma wp_embed_batch l done texts w : at_store l done w →
  wp (embed_batch texts) (λ vs w', vs = map (emb model) texts ∧ at_store l done w') (λ _ w', at_store l done w') w.
Proof.
  intros [Hs Hm]. unfold embed_batch, embedding_model_now. apply wp_gets_bind. rewrite Hm.
  eapply (wp_call _ _ (λ resp w', em_vectors resp = map (emb model) texts ∧ at_store l done w')).
  { unfold wp, on_gateway, zoom. set (req := {| er_model := model |}).
    pose proof (embed_keeps req (mw_gateway w)) as Hk. pose proof (embed_law req (mw_gateway w)) as Hl.
    destruct (gw_embed req (mw_gateway w)) as [g [resp|s]]; cbn in *.
    - split; [by apply (Hl g)|]. split; [done|]. by etrans; [exact Hk|].
    - split; [done|]. by etrans; [exact Hk|]. }
  intros resp w' [Hv Hw']. rewrite Hv, length_map, Nat.eqb_refl. by apply wp_ret.
Qed.

Lemma wp_migrate_batches l bs done n w : NoDup (map mr_id l) → Forall (Forall (λ r, r ∈ l)) bs → at_store l done w →
  wp (migrate_batches model bs n)
    (λ n' w', n' = (n + length (concat bs))%nat ∧ at_store l (map mr_id (concat bs) ++ done) w')
    (λ _ w', ∃ some, some ⊆ map mr_id (concat bs) ++ done ∧ at_store l some w') w.
Proof.
  intros Hnd. revert done n w. induction bs as [|batch bs IH]; intros done n w Hb Hw; cbn [migrate_batches].
  { apply wp_ret. split; [cbn; lia|done]. }
  inversion Hb as [|? ? Hr Hb']; subst.
  eapply wp_call; [eapply wp_mono; [by apply wp_embed_batch|done|]|].
  { intros s w' Hw'. exists done. split; [set_solver|done]. }
  intros vs w1 [-> Hw1]. rewrite map_map. eapply wp_call; [eapply wp_mono; [by apply wp_update_batch|done|done]|].
  intros n1 w2 [-> Hw2]. eapply wp_mono; [by apply IH| |].
  - intros n' w3 [-> [Hs Hm]]. cbn [concat]. rewrite length_app, map_app. split; [lia|]. split; [|done]. rewrite Hs.
    apply upto_ext. set_solver.
  - intros s w3 (some & Hsub & Hs). exists some. split; [|done]. cbn [concat]. rewrite map_app. set_solver.
Qed.

Lemma batches_concat {A} fuel n (l : list A) : (0 < n)%nat → (length l ≤ fuel)%nat → concat (batches fuel n l) = l.
Proof.
  intros Hn. revert l. induction fuel as [|fuel IH]; intros l Hl; [by destruct l; [|cbn in Hl; lia]|].
  cbn [batches]. destruct l as [|a l]; [done|]. cbn [concat]. rewrite IH; [apply take_drop|].
  rewrite length_drop. cbn in *. lia.
Qed.

(** The records a migration is for. *)
Definition is_stale (r : MemoryRecord) : bool :=
  String.eqb (mr_namespace r) ns && negb (mr_is_parent r) && negb (is_current model r).
Definition stale_of l : list MemoryRecord :=
  List.filter (λ r, negb (is_current model r)) (List.filter (λ r, negb (mr_is_parent r)) (filter_ns (Some ns) l)).
Lemma stale_of_elem l r : r ∈ stale_of l ↔ r ∈ l ∧ is_stale r = true.
Proof. unfold stale_of, is_stale. cbn. rewrite !filter_elem, !andb_true_iff. naive_solver. Qed.
Lemma upto_some l some r : NoDup (map mr_id l) → r ∈ l → some ⊆ map mr_id (stale_of l) →
  upto some r = r ∨ is_stale r = true ∧ upto some r = reembedded r.
Proof.
  intros Hnd Hr Hsub. unfold upto. case_bool_decide as Hd; [right|by left]. split; [|done].
  apply Hsub in Hd. apply list_elem_of_fmap in Hd as (r' & Hid & [Hr' Hs]%stale_of_elem).
  by rewrite (id_inj l r r').
Qed.
Lemma upto_stale l r : NoDup (map mr_id l) → r ∈ l →
  upto (map mr_id (stale_of l)) r = if is_stale r then reembedded r else r.
Proof.
  intros Hnd Hr. destruct (upto_some l (map mr_id (stale_of l)) r) as [Hu|[-> Hu]]; try done.
  destruct (is_stale r) eqn:E; [|done]. unfold upto. rewrite bool_decide_eq_true_2; [done|].
  apply list_elem_of_fmap. exists r. by rewrite stale_of_elem.
Qed.
Lemma is_stale_reembedded r : is_stale (reembedded r) = false.
Proof. unfold is_stale, is_current. cbn. rewrite String.eqb_refl. apply andb_false_r. Qed.
End migration.

Lemma filter_split_length {A} (f : A → bool) (l : list A) :
  (length (List.filter f l) + length (List.filter (λ a, negb (f a)) l) = length l)%nat.
Proof. induction l as [|a l IH]; [done|]. cbn. destruct (f a); cbn; lia. Qed.
Lemma filter_twice {A} (f g : A → bool) (l : list A) : List.filter f (List.filter g l) = List.filter (λ a, g a && f a) l.
Proof. induction l as [|a l IH]; [done|]. cbn. destruct (g a); cbn; by rewrite IH. Qed.
Lemma filter_none {A} (f : A → bool) (l : list A) : (∀ a, a ∈ l → f a = false) → List.filter f l = [].
Proof.
  induction l as [|a l IH]; intros Hf; [done|]. cbn. rewrite Hf by set_solver. apply IH. set_solver.
Qed.

(** Re-embedding moves a namespace to the configured model, once.  Over a
    store in memory whose ids are distinct: when it succeeds, every embedded
    record of the namespace that carried another model, and no other record,
    carries the model and its embedding of the record's own text - ids, order,
    text, links and all else as they were - the report accounts for every
    record, and running it again changes nothing, not even the gateway; when it
    fails, each record is as it was or migrated, and none is lost. *)
Theorem reembedding_is_incremental {G R} `{EmbedLaws G} ns (w : MemWorld G InMemoryStore.t R) :
  let model := gw_embedding_model None (mw_gateway w) in
  let migrated r := if is_stale ns model r then reembedded model r else r in
  NoDup (map mr_id (mw_store w)) →
  wp (migrate_embeddings ns)
    (λ rep (w' : MemWorld G InMemoryStore.t R), mw_store w' = map migrated (mw_store w) ∧
       rep_migrated rep = length (List.filter (is_stale ns model) (mw_store w)) ∧
       (rep_migrated rep + rep_already_current rep + rep_parents_skipped rep = rep_scanned rep)%nat ∧
       ∃ again, migrate_embeddings ns w' = (w', Ret again) ∧ rep_migrated again = 0%nat)
    (λ _ (w' : MemWorld G InMemoryStore.t R), Forall2 (λ r r', r' = r ∨ is_stale ns model r = true ∧ r' = reembedded model r)
               (mw_store w) (mw_store w')) w.
Proof.
  intros model migrated Hnd. unfold migrate_embeddings at 1, embedding_model_now at 1. apply wp_gets_bind. fold model.
  eapply (wp_call _ _ (λ l w', l = filter_ns (Some ns) (mw_store w) ∧ w' = w)).
  { unfold wp, on_store, zoom. cbn. by destruct w. }
  intros l w1 [-> ->]. cbv zeta. fold model. set (bs := batches _ BATCH _).
  assert (at_store model (mw_store w) [] w) as Hat.
  { split; [|done]. rewrite <-map_id at 1. apply map_ext. intros r. unfold upto. by rewrite bool_decide_eq_false_2 by apply not_elem_of_nil. }
  assert (concat bs = stale_of ns model (mw_store w)) as Hc by by apply batches_concat; [unfold BATCH; lia|].
  assert (Forall (Forall (λ r, r ∈ mw_store w)) bs) as Hin.
  { apply Forall_forall. intros b Hb. apply Forall_forall. intros r Hr. apply (stale_of_elem ns model).
    rewrite <-Hc. apply list_elem_of_In, in_concat. exists b. by rewrite <-!list_elem_of_In. }
  eapply wp_call; [eapply wp_mono; [by apply (wp_migrate_batches model (mw_store w))|done|]|].
  - intros s w2 (some & Hsub & Hs & _). rewrite Hc, app_nil_r in Hsub. rewrite Hs.
    apply Forall2_fmap_r, Forall_Forall2_diag, Forall_forall. intros r Hr. by apply (upto_some ns model (mw_store w)).
  - intros n w2 [-> [Hs2 Hm2]]. rewrite Hc, app_nil_r in Hs2. rewrite Hc. clear bs Hc Hin. apply wp_ret. cbn [rep_migrated rep_already_current rep_parents_skipped rep_scanned].
    assert (mw_store w2 = map migrated (mw_store w)) as Hst.
    { rewrite Hs2. apply map_ext_in. intros r Hr%list_elem_of_In. by apply upto_stale. }
    split; [done|]. split; [|split].
    + cbn. f_equal. unfold stale_of. cbn. rewrite !filter_twice.
      apply filter_ext. intros r. unfold is_stale. by rewrite andb_assoc.
    + pose proof (filter_split_length (is_current model) (List.filter (λ r, negb (mr_is_parent r)) (filter_ns (Some ns) (mw_store w)))).
      pose proof (filter_split_length mr_is_parent (filter_ns (Some ns) (mw_store w))). unfold stale_of. cbn in *. lia.
    + assert (stale_of ns model (mw_store w2) = []) as Hnone.
      { unfold stale_of. apply filter_none. intros r. rewrite filter_elem, filter_ns_elem, Hst.
        intros [[(r0 & -> & Hr0)%list_elem_of_fmap Hn] Hp]. specialize (Hn ns eq_refl). unfold migrated in *.
        destruct (is_stale ns model r0) eqn:E; [apply negb_false_iff, String.eqb_refl|].
        unfold is_stale in E. rewrite Hn, String.eqb_refl, Hp in E. done. }
      destruct w2 as [g2 st2 r2]. cbn in Hm2, Hnone.
      unfold migrate_embeddings, embedding_model_now, gets, on_store, zoom, mbind, M_bind. cbn. rewrite Hm2, Hnone.
      by eexists.
Qed.

(** ** Compaction of a store in memory *)

Lemma sorted_set_elem x l : x ∈ sorted_set l ↔ x ∈ l.
Proof. unfold sorted_set. rewrite merge_sort_Permutation, elem_of_elements. apply elem_of_list_to_set. Qed.
Lemma elem_concat_iff {A} (f : MemoryRecord → list A) l x : x ∈ concat (map f l) ↔ ∃ r, r ∈ l ∧ x ∈ f r.
Proof. rewrite list_elem_of_In, <-flat_map_concat_map, in_flat_map. by setoid_rewrite list_elem_of_In. Qed.

Lemma older_trans : Transitive older.
Proof. unfold older. intros a b c. lia. Qed.
Lemma older_total : Total older.
Proof. unfold older. intros a b. lia. Qed.

(** The candidates are unimportant memories of their own, and as many records
    as are to be kept are not older. *)
Lemma candidates_spec policy l : ∃ rest kept,
  l ≡ₚ rest ++ kept ∧ length kept = Nat.min (cp_keep_recent policy) (length l) ∧
  (∀ r k, r ∈ rest → k ∈ kept → mr_seq r <= mr_seq k) ∧
  ∀ r, r ∈ candidates_of policy l → r ∈ rest ∧ f32_ltb (mr_importance r) (cp_max_importance policy) = true ∧
    mr_is_parent r = false ∧ mr_parent_id r = None.
Proof.
  unfold candidates_of. set (sorted := merge_sort older l).
  pose proof (merge_sort_Permutation older l : sorted ≡ₚ l) as Hp.
  pose proof older_trans as Ht. pose proof older_total as Hto.
  assert (StronglySorted older sorted) as Hs by by apply StronglySorted_merge_sort.
  set (n := (length l - cp_keep_recent policy)%nat). exists (take n sorted), (drop n sorted).
  rewrite take_drop. split; [done|]. rewrite length_drop, Hp. split; [lia|]. split.
  - intros r k Hr Hk. rewrite <-(take_drop n sorted) in Hs. apply StronglySorted_app in Hs as (H1 & _ & _). by apply H1.
  - intros r. rewrite filter_elem. unfold compactable. intros [Hr ((Hi & Hp'%negb_true_iff)%andb_true_iff & Hpid)%andb_true_iff].
    apply bool_decide_eq_true_1 in Hpid. done.
Qed.

Lemma wp_remember {G R} `{MemoryGateway G} md text now (w : MemWorld G InMemoryStore.t R) :
  wp (remember_full md text now)
    (λ id (w' : MemWorld G InMemoryStore.t R), ∃ e model,
       let r := assigned (length (mw_store w)) (record_of md text e model None false now) in
       id = mr_id r ∧ mw_store w' = mw_store w ++ [r])
    (λ _ (w' : MemWorld G InMemoryStore.t R), mw_store w' = mw_store w) w.
Proof.
  unfold remember_full. eapply wp_call; [eapply wp_mono; [apply wp_embed_store|intros ? ? Hp; exact Hp|done]|].
  intros e w1 Hw1. unfold embedding_model_now. apply wp_gets_bind. rewrite <-Hw1. unfold wp, on_store, zoom. cbn.
  exists e, (gw_embedding_model None (mw_gateway w1)). done.
Qed.

Lemma candidates_in policy ns l r : r ∈ candidates_of policy (filter_ns (Some ns) l) → r ∈ l ∧ mr_namespace r = ns.
Proof.
  destruct (candidates_spec policy (filter_ns (Some ns) l)) as (rest & kept & Hp & _ & _ & Hr).
  intros [Hin _]%Hr. assert (r ∈ filter_ns (Some ns) l) as Hf by (rewrite Hp; set_solver).
  apply (filter_ns_elem (Some ns)) in Hf. naive_solver.
Qed.

(** Where ids are distinct and the new one is unused, deleting by id deletes the
    candidates and nothing else. *)
Lemma delete_candidates policy ns (old : list MemoryRecord) summary :
  let cands := candidates_of policy (filter_ns (Some ns) old) in
  NoDup (map mr_id old) → (∀ r, r ∈ old → mr_id r ≠ mr_id summary) →
  ∀ r, r ∈ List.filter (λ r, negb (wants (map mr_id cands) r)) (old ++ [summary]) ↔
    (r ∈ old ∧ r ∉ cands) ∨ r = summary.
Proof.
  intros cands Hnd Hfresh r. assert (∀ r, r ∈ cands → r ∈ old) as Hc by (intros x Hx; by apply candidates_in in Hx as [? _]).
  assert (wants (map mr_id cands) summary = false) as Hsum.
  { apply bool_decide_eq_false_2. intros (x & He & Hx)%list_elem_of_fmap. apply (Hfresh x); auto. }
  assert (∀ r, r ∈ old → wants (map mr_id cands) r = true ↔ r ∈ cands) as Hwants.
  { intros x Hx. unfold wants. rewrite bool_decide_eq_true. split; [|intros; apply list_elem_of_fmap; eauto].
    intros (y & He & Hy)%list_elem_of_fmap. by rewrite (id_inj old x y) by auto. }
  rewrite filter_elem, elem_of_app, list_elem_of_singleton, negb_true_iff. split.
  - intros [[Hr| ->] Hn]; [left|by right]. split; [done|]. intros Hin%(Hwants r Hr). congruence.
  - intros [[Hr Hn]| ->]; [|by split; [right|]]. split; [by left|].
    apply not_true_iff_false. intros Hw. by apply Hn, Hwants.
Qed.

(** C35: Compaction forgets by id and widens nobody's access.  Over a store in
    memory: with too few candidates nothing changes, and when the gateway fails,
    nothing changes.  Otherwise one summary is added, under the next id of the
    namespace, and then every record goes whose id is the id of a candidate - so
    a reused id takes other records, or the summary itself, with it.  The
    required scopes and the tags of the summary are those of all candidates, so
    that who may see the summary may see each of them; candidates are unimportant
    memories of the namespace, no documents or chunks, and no newer than the
    records that are to be kept.  When the ids in the store are distinct and the
    next one is not in use, exactly the candidates are gone, none of the newest
    records is among them, and the summary is there. *)
Theorem compaction_keeps_access {G R} `{MemoryGateway G} ns policy now (w : MemWorld G InMemoryStore.t R) :
  let old := mw_store w in
  let cands := candidates_of policy (filter_ns (Some ns) old) in
  let next_id := make_id ns (u64_wrapping_add (Z.of_nat (length old)) 1) in
  wp (compress ns policy now)
    (λ out (w' : MemWorld G InMemoryStore.t R),
       if Nat.ltb (length cands) (cp_min_candidates policy) then
         out = {| compacted := 0; summary_id := None |} ∧ mw_store w' = old
       else ∃ summary,
         out = {| compacted := length cands; summary_id := Some next_id |} ∧
         mr_id summary = next_id ∧ mr_namespace summary = ns ∧
         mw_store w' = List.filter (λ r, negb (bool_decide (mr_id r ∈ map mr_id cands))) (old ++ [summary]) ∧
         (∀ x, x ∈ mr_required_scopes summary ↔ ∃ r, r ∈ cands ∧ x ∈ mr_required_scopes r) ∧
         (∀ x, x ∈ mr_tags summary ↔ ∃ r, r ∈ cands ∧ x ∈ mr_tags r) ∧
         (∀ q r, may_see q summary → r ∈ cands → may_see q r) ∧
         ∃ rest kept, filter_ns (Some ns) old ≡ₚ rest ++ kept ∧
           length kept = Nat.min (cp_keep_recent policy) (length (filter_ns (Some ns) old)) ∧
           (∀ r k, r ∈ rest → k ∈ kept → mr_seq r <= mr_seq k) ∧
           (∀ r, r ∈ cands → r ∈ rest ∧ f32_ltb (mr_importance r) (cp_max_importance policy) = true ∧
             mr_is_parent r = false ∧ mr_parent_id r = None) ∧
           (NoDup (map mr_id old) → (∀ r, r ∈ old → mr_id r ≠ next_id) →
             (∀ r, r ∈ mw_store w' ↔ (r ∈ old ∧ r ∉ cands) ∨ r = summary) ∧ summary ∉ old ∧
             ∀ k, k ∈ kept → k ∉ cands))
    (λ _ (w' : MemWorld G InMemoryStore.t R), mw_store w' = old) w.
Proof.
  intros old cands next_id. unfold compress.
  eapply (wp_call _ _ (λ l (w' : MemWorld G InMemoryStore.t R), l = filter_ns (Some ns) old ∧ w' = w)).
  { unfold wp, on_store, zoom. cbn. by destruct w. }
  intros l w1 [-> ->]. cbv zeta. fold cands. destruct (Nat.ltb (length cands) (cp_min_candidates policy)); [by apply wp_ret|].
  eapply (wp_call _ _ (λ _ (w' : MemWorld G InMemoryStore.t R), mw_store w' = old)).
  { unfold summarize. apply wp_gets_bind. unfold wp, on_gateway, zoom, mbind, M_bind. by destruct (gw_chat _ _) as [g [resp|s]]. }
  intros text w1 Hw1. unfold remember_scoped.
  eapply wp_call; [eapply wp_mono; [apply wp_remember|intros ? ? Hp; exact Hp|intros s w2 Hw2; by rewrite Hw2]|].
  rewrite Hw1. intros id w2 (e & model & -> & Hw2). set (summary := assigned _ _) in *.
  assert (∀ x, x ∈ mr_required_scopes summary ↔ ∃ r, r ∈ cands ∧ x ∈ mr_required_scopes r) as Hsc.
  { intros x. cbn. rewrite sorted_set_elem. apply elem_concat_iff. }
  unfold wp, on_store, zoom, mbind, M_bind. cbn. rewrite Hw2. exists summary.
  split; [done|]. split; [done|]. split; [done|]. split; [done|]. split; [exact Hsc|].
  split; [intros x; cbn; rewrite sorted_set_elem; apply elem_concat_iff|]. split.
  { intros q r [Hno|(grants & Hg & Hsub)] Hr; [left|right].
    - destruct (mr_required_scopes r) as [|x xs] eqn:E; [done|]. exfalso.
      assert (x ∈ mr_required_scopes summary) as Hx; [apply Hsc; exists r; rewrite E; set_solver|]. rewrite Hno in Hx. set_solver.
    - exists grants. split; [done|]. intros x Hx. apply Hsub, Hsc. eauto. }
  destruct (candidates_spec policy (filter_ns (Some ns) old)) as (rest & kept & Hp & Hl & Ho & Hr).
  exists rest, kept. split; [done|]. split; [done|]. split; [done|]. split; [exact Hr|]. intros Hnd Hfresh.
  split; [by apply delete_candidates|]. split; [intros Hin; by apply (Hfresh summary)|].
  intros k Hk Hin. destruct (Hr k Hin) as [Hrest _].
  assert (NoDup (map mr_id (filter_ns (Some ns) old))) as Hnd' by by apply NoDup_fmap_filter.
  rewrite Hp in Hnd'. unfold map in Hnd'. fold (map mr_id) in Hnd'. rewrite fmap_app in Hnd'.
  apply NoDup_app in Hnd' as (_ & Hdis & _). apply (Hdis (mr_id k)); apply list_elem_of_fmap; eauto.
Qed.

(** ** The encrypting store is the store it wraps *)

Inductive mem_op :=
  | PutMemory (r : MemoryRecord) | AllMemories (ns : option string) | GetMemories (ids : list string)
  | DeleteMemories (ids : list string) | UpdateMemory (r : MemoryRecord).
Inductive mem_answer := AnId (id : string) | Records (l : list MemoryRecord) | Done.
Definition mem_step {W} `{MemoryStore W} (op : mem_op) : M W mem_answer :=
  match op with
  | PutMemory r => id ← mem_put r; mret (AnId id)
  | AllMemories ns => l ← mem_all ns; mret (Records l)
  | GetMemories ids => l ← mem_get ids; mret (Records l)
  | DeleteMemories ids => _ ← mem_delete ids; mret Done
  | UpdateMemory r => _ ← mem_update r; mret Done
  end.
Fixpoint mem_answers {W} `{MemoryStore W} (ops : list mem_op) (w : W) : W * list (outcome mem_answer) :=
  match ops with
  | [] => (w, [])
  | op :: ops => let '(w, a) := mem_step op w in let '(w, l) := mem_answers ops w in (w, a :: l)
  end.
(** Writing a sensitive record takes a key, which may fail. *)
Definition seals (op : mem_op) : bool := match op with PutMemory r | UpdateMemory r => mr_sensitive r | _ => false end.
Definition op_utf8 (op : mem_op) : Prop :=
  match op with PutMemory r | UpdateMemory r => utf8_valid (mr_content r) = true | _ => True end.

(** The answers, and the records at the end, are those of the store in memory,
    except that a write that seals may be refused, and then changes nothing. *)
Fixpoint answers_as_plain (ops : list mem_op) (answers : list (outcome mem_answer)) (l l' : InMemoryStore.t) : Prop :=
  match ops, answers with
  | [], [] => l' = l
  | op :: ops, a :: answers =>
    (let '(l1, a1) := mem_step op l in a = a1 ∧ answers_as_plain ops answers l1 l') ∨
    (∃ e, a = Stop (Throw e)) ∧ seals op = true ∧ answers_as_plain ops answers l l'
  | _, _ => False
  end.

(** A sealed text reads back. *)
Class SealedSerdeLaws `{SealedSerde} := sealed_reads_back sd t : sealed_to_string sd = inr t → sealed_from_str t = inr sd.

Section encrypting.
Context {K : Type} `{HK : KmsLaws K, HS : SealedSerdeLaws}.
Abbreviation EW := (EncryptingMemoryStore.t (S := InMemoryStore.t) (K := K)) (only parsing).
Implicit Types (w : EW) (r e : MemoryRecord).

(** What is stored of a record: itself, or its content sealed for its namespace
    in place of the content. *)
Definition stored_as (k : K) r e : Prop :=
  if mr_sensitive r then ∃ sd text, sealed_to_string sd = inr text ∧ e = set_content text r ∧
    opens k (mr_namespace r) sd (mr_content r) ∧ utf8_valid (mr_content r) = true
  else e = r.
Definition mem_represents w (l : InMemoryStore.t) : Prop := in_order (keys w) ∧ Forall2 (stored_as (keys w)) l (disk w).

Lemma stored_as_mono k k' r e : (∀ t sd p, opens k t sd p → opens k' t sd p) → stored_as k r e → stored_as k' r e.
Proof. unfold stored_as. intros Hk. destruct (mr_sensitive r); [|done]. intros (sd & t & Ht & He & Ho & Hu). exists sd, t. auto. Qed.
Lemma stored_as_fields k r e : stored_as k r e → mr_id e = mr_id r ∧ mr_namespace e = mr_namespace r ∧
  mr_sensitive e = mr_sensitive r.
Proof. unfold stored_as. destruct (mr_sensitive r) eqn:E; [|by intros ->]. by intros (sd & t & _ & -> & _). Qed.
Lemma stored_as_assigned k r e n : stored_as k r e → stored_as k (assigned n r) (assigned n e).
Proof.
  unfold stored_as. change (mr_sensitive (assigned n r)) with (mr_sensitive r). destruct (mr_sensitive r); [|by intros ->].
  intros (sd & t & Ht & -> & Ho & Hu). by exists sd, t.
Qed.
Lemma stored_filter k (f : MemoryRecord → bool) l d : (∀ r e, stored_as k r e → f r = f e) →
  Forall2 (stored_as k) l d → Forall2 (stored_as k) (List.filter f l) (List.filter f d).
Proof.
  intros Hf. induction 1 as [|r e l d Hre Hl IH]; [constructor|]. cbn. rewrite (Hf r e Hre).
  destruct (f e); [by constructor|done].
Qed.
Lemma stored_replace k r e l d : stored_as k r e → Forall2 (stored_as k) l d →
  option_Forall2 (Forall2 (stored_as k)) (replace_first r l) (replace_first e d).
Proof.
  intros Hre. induction 1 as [|x y l d Hxy Hl IH]; cbn [replace_first]; [constructor|].
  rewrite (proj1 (stored_as_fields _ _ _ Hre)), (proj1 (stored_as_fields _ _ _ Hxy)).
  destruct (String.eqb _ _); [by constructor; constructor|]. destruct IH; constructor. by constructor.
Qed.

Lemma wp_seal_if r w : in_order (keys w) → utf8_valid (mr_content r) = true →
  wp (EncryptingMemoryStore.seal_if_sensitive r)
    (λ e w', in_order (keys w') ∧ keeps (keys w) (keys w') ∧ disk w' = disk w ∧ stored_as (keys w') r e)
    (λ s w', (∃ err, s = Throw err) ∧ mr_sensitive r = true ∧ in_order (keys w') ∧ keeps (keys w) (keys w') ∧ disk w' = disk w) w.
Proof.
  intros Hk Hu. unfold EncryptingMemoryStore.seal_if_sensitive, stored_as. destruct (mr_sensitive r).
  - eapply (wp_call _ _ (λ sd w', in_order (keys w') ∧ keeps (keys w) (keys w') ∧ disk w' = disk w ∧
      opens (keys w') (mr_namespace r) sd (mr_content r))).
    { pose proof (seal_law (mr_namespace r) (mr_content r) (keys w) Hk) as Hw. unfold wp, on_keys, zoom in *.
      destruct (envelope_seal _ _ (keys w)) as [k [sd|s]]; cbn in *; [by destruct Hw as (? & ? & ?)|].
      by destruct Hw as (? & ? & ?). }
    intros sd w' (Hk' & Hm & Hd & Ho). destruct (sealed_to_string sd) as [err|text] eqn:E.
    + by split; [eexists|].
    + apply wp_ret. split; [done|]. split; [done|]. split; [done|]. by exists sd, text.
  - apply wp_ret. split; [done|]. split; [apply keeps_refl|done].
Qed.

Lemma unseal_stored w r e : in_order (keys w) → stored_as (keys w) r e →
  EncryptingMemoryStore.unseal_if_sensitive e w = (w, Ret r).
Proof.
  intros Hk Hre. unfold EncryptingMemoryStore.unseal_if_sensitive. rewrite (proj2 (proj2 (stored_as_fields _ _ _ Hre))).
  unfold stored_as in Hre. destruct (mr_sensitive r) eqn:E; [|by subst]. destruct Hre as (sd & t & Ht & -> & Ho & Hu). cbn.
  rewrite (sealed_reads_back _ _ Ht). unfold on_keys, zoom, mbind, M_bind. rewrite (open_law _ _ _ _ Hk Ho), (from_utf8_valid _ Hu).
  destruct w, r. done.
Qed.
Lemma unseal_all w l d : in_order (keys w) → Forall2 (stored_as (keys w)) l d →
  traverse_all EncryptingMemoryStore.unseal_if_sensitive d w = (w, Ret l).
Proof.
  intros Hk. induction 1 as [|r e l d Hre Hl IH]; [done|]. cbn [traverse_all]. unfold mbind, M_bind.
  by rewrite (unseal_stored w r e), IH.
Qed.

Lemma mem_represents_keys w l k : mem_represents w l → in_order k → keeps (keys w) k →
  mem_represents {| disk := disk w; keys := k |} l.
Proof.
  intros [_ Hl] Hk Hm. split; [done|]. cbn. eapply Forall2_impl; [exact Hl|]. intros r e. by apply stored_as_mono.
Qed.

(** A step of the store in memory and what it is on the sealed records. *)
Definition same_step (op : mem_op) (m : M EW mem_answer) w l : Prop :=
  let '(w', a) := m w in let '(l', a') := mem_step op l in a = a' ∧ mem_represents w' l'.

Lemma put_same w l r e : mem_represents w l → stored_as (keys w) r e →
  same_step (PutMemory r) (on_disk (mem_put e) ≫= λ id, mret (AnId id)) w l.
Proof.
  intros [Hk Hl] Hre. pose proof (Forall2_length _ _ _ Hl) as Hlen.
  unfold same_step, mbind, M_bind, on_disk, zoom. cbn. rewrite <-Hlen, (proj1 (proj2 (stored_as_fields _ _ _ Hre))). split; [done|]. split; [done|]. cbn.
  apply Forall2_app; [done|]. constructor; [|constructor]. by apply stored_as_assigned.
Qed.
Lemma update_same w l r e : mem_represents w l → stored_as (keys w) r e →
  same_step (UpdateMemory r) (on_disk (mem_update e) ≫= λ _, mret Done) w l.
Proof.
  intros [Hk Hl] Hre. pose proof (stored_replace _ _ _ _ _ Hre Hl) as Hrep. unfold same_step. cbn.
  unfold InMemoryStore.update, mbind, M_bind, on_disk, zoom. cbn. rewrite (proj1 (stored_as_fields _ _ _ Hre)).
  by destruct Hrep as [l' d' Hld|]; (split; [done|]); split.
Qed.
(** Sealing first. *)
Lemma sealed_same op w l r (m : MemoryRecord → M EW mem_answer) : mem_represents w l → utf8_valid (mr_content r) = true →
  (∀ e w1, mem_represents w1 l → stored_as (keys w1) r e → same_step op (m e) w1 l) →
  let '(w', a) := (EncryptingMemoryStore.seal_if_sensitive r ≫= m) w in
  (let '(l', a') := mem_step op l in a = a' ∧ mem_represents w' l') ∨
  (∃ err, a = Stop (Throw err)) ∧ mr_sensitive r = true ∧ mem_represents w' l.
Proof.
  intros Hw Hu Hm. pose proof (wp_seal_if r w (proj1 Hw) Hu) as Hs. unfold wp in Hs. unfold mbind, M_bind.
  destruct (EncryptingMemoryStore.seal_if_sensitive r w) as [[d1 k1] [e|s]]; cbn in Hs.
  - destruct Hs as (Hk1 & Hkeep & -> & Hre). pose proof (mem_represents_keys _ _ _ Hw Hk1 Hkeep) as Hw1.
    specialize (Hm e _ Hw1 Hre). unfold same_step in Hm. destruct (m e _) as [w' a]. by left.
  - destruct Hs as ([err ->] & Hsens & Hk1 & Hkeep & ->). right. split; [by eexists|]. split; [done|].
    by apply mem_represents_keys.
Qed.

Lemma mem_step_represents op w l : mem_represents w l → op_utf8 op →
  let '(w', a) := mem_step op w in
  (let '(l', a') := mem_step op l in a = a' ∧ mem_represents w' l') ∨
  (∃ err, a = Stop (Throw err)) ∧ seals op = true ∧ mem_represents w' l.
Proof.
  intros Hw Hop. pose proof Hw as [Hk Hl].
  assert (∀ (m : M EW mem_answer) (m' : M EW mem_answer), m' w = m w → same_step op m w l →
    let '(w', a) := m' w in (let '(l', a') := mem_step op l in a = a' ∧ mem_represents w' l') ∨
    (∃ err, a = Stop (Throw err)) ∧ seals op = true ∧ mem_represents w' l) as Hsame.
  { intros m m' ->. unfold same_step. destruct (m w). by left. }
  destruct op as [r|ns|ids|ids|r].
  - change (mem_step (PutMemory r) w) with (((EncryptingMemoryStore.seal_if_sensitive r ≫= λ e, on_disk (mem_put e))
      ≫= λ id, mret (AnId id)) w).
    rewrite M_assoc. exact (sealed_same (PutMemory r) w l r _ Hw Hop (λ e w1, put_same w1 l r e)).
  - apply (Hsame (λ w, (w, Ret (Records (filter_ns ns l))))); [|by split].
    destruct w as [d k]. cbn in *. unfold default_get, mbind, M_bind, on_disk, zoom. cbn.
    rewrite (unseal_all _ (filter_ns ns l)); [done..|].
    destruct ns as [ns|]; [|done]. apply stored_filter; [|done]. intros r e Hre.
    by rewrite (proj1 (proj2 (stored_as_fields _ _ _ Hre))).
  - apply (Hsame (λ w, (w, Ret (Records (List.filter (wants ids) l))))); [|by split].
    destruct w as [d k]. cbn in *. unfold default_get, mbind, M_bind, on_disk, zoom. cbn.
    rewrite (unseal_all _ (List.filter (wants ids) l)); [done..|].
    apply stored_filter; [|done]. intros r e Hre. unfold wants. by rewrite (proj1 (stored_as_fields _ _ _ Hre)).
  - apply (Hsame (mem_step (DeleteMemories ids))); [done|]. split; [done|]. split; [done|]. cbn.
    apply stored_filter; [|done]. intros r e Hre. unfold wants. by rewrite (proj1 (stored_as_fields _ _ _ Hre)).
  - change (mem_step (UpdateMemory r) w) with (((EncryptingMemoryStore.seal_if_sensitive r ≫= λ e, on_disk (mem_update e))
      ≫= λ _, mret Done) w).
    rewrite M_assoc. exact (sealed_same (UpdateMemory r) w l r _ Hw Hop (λ e w1, update_same w1 l r e)).
Qed.
End encrypting.

(** C38: The encrypting memory store is the store it wraps.  Over any key manager
    that keeps its promise, any sequence of puts, listings, reads, deletions and
    updates is answered exactly as by the store in memory - contents, ids and
    errors - except that writing a sensitive record may be refused and then
    changes nothing; and what is on disk at the end is, for each of the
    records, itself or its content sealed for its namespace. *)
Theorem encrypted_memories_are_the_memories {K} `{KmsLaws K, SealedSerdeLaws} ops
    (w : EncryptingMemoryStore.t (S := InMemoryStore.t) (K := K)) (l : InMemoryStore.t) :
  mem_represents w l → Forall op_utf8 ops →
  let '(w', answers) := mem_answers ops w in
  ∃ l', answers_as_plain ops answers l l' ∧ mem_represents w' l'.
Proof.
  intros Hw Hops. revert w l Hw. induction Hops as [|op ops Hop Hops IH]; intros w l Hw; [by exists l|].
  cbn [mem_answers answers_as_plain]. pose proof (mem_step_represents op w l Hw Hop) as Hs.
  destruct (mem_step op w) as [w1 a]. destruct Hs as [Hs|(He & Hseal & Hw1)].
  - destruct (mem_step op l) as [l1 a1] eqn:El. destruct Hs as [-> Hw1]. specialize (IH w1 l1 Hw1).
    destruct (mem_answers ops w1) as [w2 answers]. destruct IH as (l' & Hans & Hw2). exists l'. split; [|done]. by left.
  - specialize (IH w1 l Hw1). destruct (mem_answers ops w1) as [w2 answers]. destruct IH as (l' & Hans & Hw2).
    exists l'. split; [|done]. by right.
Qed.

(** ** A concrete engine *)

#[local] Existing Instance AgentContext.unicode_example.
#[local] Instance libm_example : Libm32 := {| f32_exp x := f32_one; f32_ln x := x |}.
(** A gateway whose embeddings count characters and spaces. *)
#[local] Instance gateway_example : MemoryGateway () := {|
  gw_embed req g := (g, Ret {| em_model := er_model req; em_usage := Usage_default;
    em_vectors := map (λ t, [f32_of_Z (Z.of_nat (length (chars t))); f32_of_Z (Z.of_nat (length (split_char " " t)))])
                    (er_input req) |});
  gw_chat req g := (g, Ret {| message := assistant "a summary"; served_model := model req; usage := Usage_default;
                              finish_reason := "stop" |});
  gw_embedding_model _ _ := "embedder-2";
  gw_model _ _ _ := "chat";
  gw_supports_embeddings _ := true;
  gw_provider_name _ := "example" |}.
#[local] Instance gateway_example_laws : EmbedLaws ().
Proof.
  refine {| emb m t := [f32_of_Z (Z.of_nat (length (chars t))); f32_of_Z (Z.of_nat (length (split_char " " t)))] |}.
  - by intros req g g' resp [= <- <-].
  - done.
Defined.
(** A reranker that is down. *)
#[local] Instance reranker_example : Reranker () := λ _ _ r, (r, Stop (Throw (provider "overloaded"))).

Definition memory_example (id ns text : string) (importance : Z) (scopes : list string) (seq : Z) : MemoryRecord := {|
  mr_id := id; mr_namespace := ns; mr_content := text; mr_embedding := [f32_of_Z seq; f32_one];
  mr_embedding_model := "embedder-1"; mr_type := Semantic; mr_importance := f32_of_ratio importance 10;
  mr_tags := []; mr_required_scopes := scopes; mr_sensitive := false; mr_parent_id := None; mr_is_parent := false;
  mr_created_ms := 0; mr_seq := seq |}.
Definition memories_example : InMemoryStore.t := [
  memory_example "mem-acme-1" "acme" "the refund policy" 2 [] 1;
  memory_example "mem-acme-2" "acme" "salaries" 3 ["hr:read"] 2;
  memory_example "mem-evil-3" "evil" "the refund policy" 9 [] 3;
  memory_example "mem-acme-4" "acme" "refunds are paid weekly" 1 [] 4].
Definition world_example (r : option ()) : MemWorld () InMemoryStore.t () :=
  {| mw_gateway := (); mw_store := memories_example; mw_reranker := r |}.
Definition engine_example : MemoryEngine := {| rerank_top_n := DEFAULT_RERANK_TOP_N; rrf_k := DEFAULT_RRF_K |}.
Definition query_example : MemoryQuery := {|
  q_text := "refund policy"; q_namespace := Some "acme"; q_strategy := ByKeyword; q_limit := 5; q_tags := [];
  q_min_importance := f32_zero; q_max_importance := None; q_created_after := None; q_created_before := None;
  q_weights := RankingWeights_default; q_diversity := f32_zero; q_access := None; q_expand_parents := false |}.
Definition ids_in (a : outcome (list ScoredMemory)) : list string := match a with Ret l => map sm_id l | Stop _ => [] end.
Lemma query_example_ids : ids_in (query engine_example query_example 0 (world_example None)).2 = ["mem-acme-1"; "mem-acme-4"].
Proof. vm_compute. reflexivity. Qed.

Lemma queries_show_only_what_is_allowed_witness :
  ∃ w' results, query engine_example query_example 0 (world_example None) = (w', Ret results) ∧
    map sm_id results = ["mem-acme-1"; "mem-acme-4"] ∧
    ∀ s, s ∈ results → asked query_example (sm_record s) ∧ mr_namespace (sm_record s) = "acme".
Proof.
  pose proof query_example_ids as Hids. revert Hids.
  destruct (query engine_example query_example 0 (world_example None)) as [w' [results|s]] eqn:E; intros Hids; [|discriminate Hids].
  exists w', results. split; [reflexivity|]. split; [exact Hids|].
  destruct (queries_show_only_what_is_allowed _ _ _ _ _ _ E) as (_ & Hs & Hns). intros s Hin. split; [by apply Hs|].
  apply (Hns eq_refl in_memory_scoped "acme" eq_refl s Hin).
Defined.

Lemma failing_rerankers_do_not_show_witness :
  ids_in (query engine_example query_example 0 (world_example (Some ()))).2 = ["mem-acme-1"; "mem-acme-4"].
Proof.
  pose proof (failing_rerankers_do_not_show engine_example query_example 0 (world_example (Some ()))) as Hf.
  pose proof query_example_ids as Hids.
  assert (without_reranker (world_example (Some ())) = world_example None) as Hw by reflexivity. rewrite Hw in Hf. clear Hw.
  revert Hf Hids. generalize (query engine_example query_example 0 (world_example (Some ()))) as x.
  generalize (query engine_example query_example 0 (world_example None)) as y.
  intros [w2 a2] [w1 a1] Hf Hids. destruct Hf as [Ha _]; [intros r _ cands _; exact I|]. cbn in *. by rewrite Ha.
Defined.

Lemma chunks_cover_the_document_witness :
  let text := "one two three four five six" in
  let policy := {| Chunk.max_chars := 13; Chunk.overlap_chars := 4 |} in
  Chunk.split text policy = ["one two three"; "three four"; "four five six"] ∧
  ∃ l, Chunk.split text policy = map (λ '(a, b), join_with " " (Chunk.window (split_whitespace text) a b)) l ∧
    (length l ≤ length (split_whitespace text))%nat.
Proof.
  intros text policy. split; [vm_compute; reflexivity|].
  destruct (chunks_cover_the_document text policy) as (l & Hl & _ & _ & Hlen & _).
  - vm_compute. repeat constructor.
  - by exists l.
Defined.

Lemma memories_example_ids : NoDup (map mr_id memories_example).
Proof. apply (bool_decide_unpack _). vm_compute. exact I. Qed.

Lemma reembedding_is_incremental_witness :
  let w := world_example None in
  NoDup (map mr_id (mw_store w)) ∧
  wp (migrate_embeddings "acme") (λ rep w', rep_migrated rep = 3%nat ∧ rep_scanned rep = 3%nat) (λ _ _, True) w.
Proof.
  intros w. split; [exact memories_example_ids|].
  pose proof (reembedding_is_incremental "acme" w memories_example_ids) as Hw.
  unfold wp in *. destruct (migrate_embeddings "acme" w) as [w' [rep|s]] eqn:E; [|exact I].
  destruct Hw as (_ & Hm & Hsum & _). split; [rewrite Hm; vm_compute; reflexivity|].
  assert (match (migrate_embeddings "acme" w).2 with Ret rep => rep_scanned rep | Stop _ => 0%nat end = 3%nat) as Hs
    by (vm_compute; reflexivity).
  rewrite E in Hs. exact Hs.
Defined.

Lemma compaction_keeps_access_witness :
  let w := world_example None in
  let policy := {| cp_max_importance := f32_of_ratio 5 10; cp_keep_recent := 1; cp_min_candidates := 2 |} in
  map mr_id (candidates_of policy (filter_ns (Some "acme") (mw_store w))) = ["mem-acme-1"; "mem-acme-2"] ∧
  wp (compress "acme" policy 0) (λ out w', compacted out = 2%nat ∧ ∃ summary, summary ∈ mw_store w' ∧
    mr_required_scopes summary ≠ []) (λ _ w', mw_store w' = mw_store w) w.
Proof.
  intros w policy. split; [vm_compute; reflexivity|].
  assert (∀ r, r ∈ mw_store w → mr_id r ≠ make_id "acme" (u64_wrapping_add (Z.of_nat (length (mw_store w))) 1)) as Hf.
  { apply Forall_forall. vm_compute. repeat constructor; discriminate. }
  pose proof (compaction_keeps_access "acme" policy 0 w) as Hw. cbv zeta in Hw.
  eapply wp_mono; [exact Hw| |intros s w' Hs; exact Hs].
  intros out w' Hout. destruct (Nat.ltb _ _) eqn:E; [vm_compute in E; discriminate|].
  destruct Hout as (summary & -> & _ & _ & _ & Hsc & _ & _ & rest & kept & _ & _ & _ & _ & Hdistinct).
  destruct (Hdistinct memories_example_ids Hf) as [Hin _]. split; [vm_compute; reflexivity|]. exists summary.
  split; [apply Hin; by right|]. intros Hno.
  assert ("hr:read" ∈ mr_required_scopes summary) as Hhr.
  { apply Hsc. exists (memory_example "mem-acme-2" "acme" "salaries" 3 ["hr:read"] 2). split; [|apply list_elem_of_singleton; reflexivity].
    right. left. }
  rewrite Hno in Hhr. by apply not_elem_of_nil in Hhr.
Defined.

(** A key manager that wraps with the example cipher, and sealed data in a text
    that reads back. *)
#[local] Existing Instance aead_example.
#[local] Existing Instance aead_example_laws.
#[local] Existing Instance random_example.
#[local] Existing Instance random_example_laws.
#[local] Existing Instance kms_example.
#[local] Existing Instance SealedData_eq_dec.
#[local] Existing Instance SealedData_countable.
#[local] Instance sealed_serde_example : SealedSerde := {|
  sealed_to_string sd := inr (countable_text sd);
  sealed_from_str s := match read_countable s with Some sd => inr sd | None => inl "expected value" end |}.
#[local] Instance sealed_serde_example_laws : SealedSerdeLaws.
Proof. intros sd t [= <-]. cbn. by rewrite read_countable_text. Qed.

Definition sensitive_example (text : string) : MemoryRecord := {|
  mr_id := ""; mr_namespace := "acme"; mr_content := text; mr_embedding := [f32_one];
  mr_embedding_model := "embedder-2"; mr_type := Semantic; mr_importance := f32_of_ratio 1 10; mr_tags := [];
  mr_required_scopes := []; mr_sensitive := true; mr_parent_id := None; mr_is_parent := false;
  mr_created_ms := 0; mr_seq := 0 |}.
Definition sealed_store : EncryptingMemoryStore.t (S := InMemoryStore.t) (K := ExampleKms) :=
  {| disk := InMemoryStore.new; keys := fresh_kms |}.

Lemma encrypted_memories_are_the_memories_witness :
  let ops := [PutMemory (sensitive_example "the key is under the mat"); AllMemories None;
              DeleteMemories ["mem-acme-1"]; AllMemories (Some "acme")] in
  Forall op_utf8 ops ∧ let '(w', answers) := mem_answers ops sealed_store in
  ∃ l', answers_as_plain ops answers [] l' ∧ mem_represents w' l'.
Proof.
  intros ops. assert (Forall op_utf8 ops) as Hops by (repeat constructor; done). split; [exact Hops|].
  apply (encrypted_memories_are_the_memories ops sealed_store []); [|exact Hops].
  split; [exact fresh_kms_in_order|constructor].
Defined.

(** ** What the code does against its intention *)

(** Ids are the number of records plus one, so deletion frees ids for reuse:
    after one compaction and one more memory, the next compaction gives its
    summary the id of a candidate and deletes it with the candidates.  It
    reports three compacted memories and a summary; nothing is left. *)
Lemma second_compaction_forgets_everything :
  let policy keep := {| cp_max_importance := f32_of_ratio 5 10; cp_keep_recent := keep; cp_min_candidates := 2 |} in
  let m : M (MemWorld () InMemoryStore.t ()) CompactionOutcome :=
    _ ← compress "acme" (policy 1%nat) 0;
    _ ← remember "acme" "another note" Semantic (f32_of_ratio 1 10) [] 0;
    compress "acme" (policy 0%nat) 0 in
  let start : MemWorld () InMemoryStore.t () := {| mw_gateway := (); mw_reranker := None; mw_store :=
    map (λ i, memory_example (make_id "acme" i) "acme" "a note" 1 [] i) [1; 2; 3; 4] |} in
  let '(w, a) := m start in
  mw_store w = [] ∧ a = Ret {| compacted := 3; summary_id := Some "mem-acme-4" |}.
Proof. vm_compute. by split. Qed.

(** An important memory that was given the id of an old one disappears when the
    old one is compacted. *)
Lemma compaction_deletes_an_important_memory :
  let policy := {| cp_max_importance := f32_of_ratio 5 10; cp_keep_recent := 0; cp_min_candidates := 2 |} in
  let m : M (MemWorld () InMemoryStore.t ()) CompactionOutcome :=
    _ ← on_store (mem_delete ["mem-acme-1"]);
    _ ← remember "acme" "never forget this" Semantic f32_one [] 0;
    compress "acme" policy 0 in
  let start : MemWorld () InMemoryStore.t () := {| mw_gateway := (); mw_reranker := None; mw_store :=
    map (λ i, memory_example (make_id "acme" i) "acme" "a note" 1 [] i) [1; 2; 3] |} in
  map mr_content (mw_store (m start).1) = ["a summary"].
Proof. vm_compute. done. Qed.

(** The summary of sensitive memories is not sensitive: the encrypting store
    writes it as it is. *)
Lemma summaries_of_sensitive_memories_are_plain :
  let start : MemWorld () InMemoryStore.t () := {| mw_gateway := (); mw_reranker := None; mw_store :=
    map (λ i, assigned i (sensitive_example "the key is under the mat")) [0%nat; 1%nat; 2%nat] |} in
  let policy := {| cp_max_importance := f32_of_ratio 5 10; cp_keep_recent := 0; cp_min_candidates := 2 |} in
  map (λ r, (mr_content r, mr_sensitive r)) (mw_store (compress "acme" policy 0 start).1) = [("a summary", false)].
Proof. vm_compute. done. Qed.

(** The overlap of a window that cannot grow is a chunk of its own, and again. *)
Lemma overlap_repeats_what_is_covered :
  Chunk.split "aaaa b c dddddddddddd" {| Chunk.max_chars := 8; Chunk.overlap_chars := 5 |}
    = ["aaaa b c"; "b c"; "c"; "dddddddddddd"].
Proof. vm_compute. done. Qed.

(** Namespaces that differ in unsafe characters are one file, and a listing of
    one gives the records of the other. *)
#[local] Instance MemoryRecord_eq_dec : EqDecision MemoryRecord.
Proof.
  assert (EqDecision spec_float) by solve_decision. solve_decision.
Defined.
Lemma files_do_not_keep_namespaces_apart :
  let r := assigned 0 (memory_example "" "acme/secret" "salaries" 1 [] 0) in
  let serde : MemorySerde := {| record_to_string := table_write [r]; record_from_str := table_read [r] |} in
  let '(dir, _) := mem_put r MemoryFiles.new in
  map mr_namespace (match (mem_all (Some "acme secret") dir).2 with Ret l => l | Stop _ => [] end) = ["acme/secret"].
Proof. vm_compute. done. Qed.
(** The file of the empty namespace has no extension: it is neither listed with
    the others nor found by a deletion. *)
Lemma empty_namespace_is_not_listed : MemoryFiles.is_jsonl (MemoryFiles.path "") = false.
Proof. done. Qed.
