(* ===== verification/Frame.v ===== *)
(** * Frames of generated interfaces, decisions on them, and the guard

    [crates/wovyr-ui/src]: the component tree of a frame with its validation,
    and the decisions a frame admits.  [crates/wovyr-ui-guard/src/lib.rs]: the
    policies a frame is judged by.  The [serde] forms of frames and policies,
    semantic versions and the tables of Unicode are the libraries'.  A text is
    its bytes in UTF-8; replacing a range of one panics where the range does
    not end between [char]s. *)
From stdpp Require Import base tactics list numbers strings gmap.
From Stdlib Require Import Lia ZArith Ascii SpecFloat.
From S2P Require Import Prelude.
From S2P Require Import RustStr.
From S2P Require Import F64.
From S2P Require Import Common.
From S2P Require Import JsonValue.
From S2P Require Import Effect.
From S2P Require Import AuditLog.
Local Open Scope Z_scope.

(** ** [frame.rs] *)

Definition SCHEMA_VERSION : string := "1.0.0".
Definition MAX_NODES : nat := 512.
Definition MAX_DEPTH : nat := 32.

Record Provenance := {
  pv_execution_id : option string;
  pv_activity_id : option string;
  pv_run_id : option string;
  pv_model_id : option string;
  pv_prompt_ref : option string;
}.
Definition Provenance_default : Provenance :=
  {| pv_execution_id := None; pv_activity_id := None; pv_run_id := None; pv_model_id := None; pv_prompt_ref := None |}.

Inductive TextStyle := Body | Heading | Caption.
Inductive Tone := NeutralTone | Info | Success | Warning | Danger.
Inductive ActionClass := Confirm | Approve | Submit | Cancel | Reject | Destructive | Neutral.

Definition is_affirmative (c : ActionClass) : bool :=
  match c with Confirm | Approve | Submit | Destructive => true | _ => false end.

Record KeyValueEntry := { kv_key : string; kv_value : string }.
Record SelectOption := { opt_value : string; opt_label : string }.

Inductive UiNode :=
  | Column (children : list UiNode)
  | Row (children : list UiNode)
  | Card (title : option string) (children : list UiNode)
  | Divider
  | Text (text : string) (style : TextStyle)
  | Badge (text : string) (tone : Tone)
  | KeyValue (entries : list KeyValueEntry)
  | Image (url alt : string)
  | TextInput (name label : string) (placeholder : option string) (required multiline : bool)
  | NumberInput (name label : string) (min max : option f64) (required : bool)
  | Select (name label : string) (options : list SelectOption) (required : bool)
  | Checkbox (name label : string) (checked : bool)
  | Button (action label : string) (class : ActionClass).

Record UiFrame := {
  schema_version : string;
  frame_title : option string;
  provenance : Provenance;
  root : UiNode;
}.

(** The [semver] crate. *)
Class SemVersion (V : Type) := {
  parse_semver : string → string + V;
  semver_major : V → Z;
  semver_cmp : V → V → comparison;
}.

(** The derived [serde] forms of a frame and its [Debug] text, and
    [serde_json::to_string]. *)
Class UiSerde := {
  frame_of_json : Value → string + UiFrame;
  frame_to_json : UiFrame → string + Value;
  frame_debug : UiFrame → string;
  json_to_string : Value → string + string;
}.

(** *** Validation *)

(** What the walk has seen: the nodes, the input names, the action ids. *)
Record Seen := { count : nat; input_names : list string; action_ids : list string }.

Definition register_input (name label : string) (st : Seen) : result Seen :=
  if is_empty name || is_empty label then
    Err (invalid "ui input nodes require a non-empty `name` and `label`")
  else if bool_decide (name ∈ input_names st) then
    Err (invalid ("duplicate ui input name `" +:+ name +:+ "` — decision values must be unambiguous"))
  else Ok {| count := count st; input_names := input_names st ++ [name]; action_ids := action_ids st |}.

Fixpoint check_options (name : string) (options : list SelectOption) (seen : list string) : result () :=
  match options with
  | [] => Ok ()
  | opt :: options =>
    if is_empty (opt_value opt) || is_empty (opt_label opt) then
      Err (invalid ("ui select `" +:+ name +:+ "` has an option with an empty value or label"))
    else if bool_decide (opt_value opt ∈ seen) then
      Err (invalid ("ui select `" +:+ name +:+ "` has duplicate option value `" +:+ opt_value opt +:+ "`"))
    else check_options name options (seen ++ [opt_value opt])
  end.

Definition register_action (action label : string) (st : Seen) : result Seen :=
  if is_empty action || is_empty label then
    Err (invalid "ui button nodes require a non-empty `action` and `label`")
  else if bool_decide (action ∈ action_ids st) then
    Err (invalid ("duplicate ui action id `" +:+ action +:+ "` — decisions must be unambiguous"))
  else Ok {| count := count st; input_names := input_names st; action_ids := action_ids st ++ [action] |}.

(** A number may be greater than another only if neither is a NaN. *)
Definition bounds_crossed (min max : option f64) : bool :=
  match min, max with Some lo, Some hi => f64_ltb hi lo | _, _ => false end.

Fixpoint validate_node (node : UiNode) (depth : nat) (st : Seen) : result Seen :=
  let st := {| count := S (count st); input_names := input_names st; action_ids := action_ids st |} in
  if Nat.ltb MAX_NODES (count st) then
    Err (invalid ("ui frame exceeds the protocol cap of " +:+ show_Z (Z.of_nat MAX_NODES) +:+ " nodes"))
  else if Nat.ltb MAX_DEPTH depth then
    Err (invalid ("ui frame exceeds the protocol depth cap of " +:+ show_Z (Z.of_nat MAX_DEPTH)))
  else
    match node with
    | Column children | Row children | Card _ children =>
      (fix validate_children (l : list UiNode) (st : Seen) : result Seen :=
         match l with
         | [] => Ok st
         | child :: l => st ← validate_node child (depth + 1) st; validate_children l st
         end) children st
    | Divider => Ok st
    | Text text _ => if is_empty text then Err (invalid "ui text node with empty text") else Ok st
    | Badge text _ => if is_empty text then Err (invalid "ui badge node with empty text") else Ok st
    | KeyValue entries =>
      match entries with [] => Err (invalid "ui key_value node with no entries") | _ => Ok st end
    | Image url alt =>
      if is_empty url then Err (invalid "ui image node with empty url")
      else if is_empty alt then Err (invalid "ui image node requires non-empty alt text") else Ok st
    | TextInput name label _ _ _ => register_input name label st
    | NumberInput name label min max _ =>
      st ← register_input name label st;
      if bounds_crossed min max then Err (invalid ("ui number_input `" +:+ name +:+ "` has min > max")) else Ok st
    | Select name label options _ =>
      st ← register_input name label st;
      match options with
      | [] => Err (invalid ("ui select `" +:+ name +:+ "` has no options"))
      | _ => _ ← check_options name options []; Ok st
      end
    | Checkbox name label _ => register_input name label st
    | Button action label _ => register_action action label st
    end.

(** *** Walks over the tree *)

(** The children of the layout nodes. *)
Definition children_of (node : UiNode) : list UiNode :=
  match node with Column children | Row children | Card _ children => children | _ => [] end.

(** [collect]: depth first. *)
Fixpoint collect_nodes (node : UiNode) : list UiNode :=
  node :: match node with
          | Column children | Row children | Card _ children => concat (map collect_nodes children)
          | _ => []
          end.
Definition nodes (frame : UiFrame) : list UiNode := collect_nodes (root frame).

Definition is_control (n : UiNode) : bool :=
  match n with
  | TextInput _ _ _ _ _ | NumberInput _ _ _ _ _ | Select _ _ _ _ | Checkbox _ _ _ | Button _ _ _ => true
  | _ => false
  end.
Definition is_interactive (frame : UiFrame) : bool := existsb is_control (nodes frame).

Definition button_of (n : UiNode) : option (string * string * ActionClass) :=
  match n with Button action label class => Some (action, label, class) | _ => None end.
Definition actions (frame : UiFrame) : list (string * string * ActionClass) := omap button_of (nodes frame).

Section frame.
Context {V : Type} `{SemVersion V, UiSerde, AuditCrypto}.

Definition ensure_version_supported (version : string) : result () :=
  match parse_semver SCHEMA_VERSION with
  | inl e => Err (Runtime ("bad built-in schema version: " +:+ e))
  | inr ours =>
    match parse_semver version with
    | inl e => Err (invalid ("invalid ui frame schema_version `" +:+ version +:+ "`: " +:+ e))
    | inr theirs =>
      if negb (Z.eqb (semver_major theirs) (semver_major ours))
         || match semver_cmp theirs ours with Gt => true | _ => false end then
        Err (invalid ("ui frame schema_version `" +:+ version +:+ "` is newer than this runtime understands (`"
             +:+ SCHEMA_VERSION +:+ "`); refusing to render a shape it may not fully validate"))
      else Ok ()
    end
  end.

Definition validate (frame : UiFrame) : result () :=
  _ ← ensure_version_supported (schema_version frame);
  st ← validate_node (root frame) 1 {| count := 0; input_names := []; action_ids := [] |};
  match input_names st, action_ids st with
  | _ :: _, [] => Err (invalid "ui frame declares input nodes but no button to submit them")
  | _, _ => Ok ()
  end.

Definition from_value (value : Value) : result UiFrame :=
  match frame_of_json value with
  | inl e => Err (invalid ("invalid ui frame: " +:+ e))
  | inr frame => _ ← validate frame; Ok frame
  end.

Definition content_hash (frame : UiFrame) : string :=
  let value := match frame_to_json frame with inr v => v | inl _ => Null end in
  let canonical := match json_to_string value with inr s => s | inl _ => frame_debug frame end in
  hex_lower (sha256 canonical).
End frame.

(** ** [decision.rs] *)

Record UiDecision := { d_action : string; d_values : gmap string Value }.

(** The name an input node submits its value under. *)
Definition input_name (n : UiNode) : option string :=
  match n with
  | TextInput name _ _ _ _ | NumberInput name _ _ _ _ | Select name _ _ _ | Checkbox name _ _ => Some name
  | _ => None
  end.
Definition find_input (frame : UiFrame) (name : string) : option UiNode :=
  find (λ n, match input_name n with Some n => String.eqb n name | None => false end) (nodes frame).

Definition check_value (input : UiNode) (name : string) (value : Value) : result () :=
  match input with
  | TextInput _ _ _ required _ =>
    match as_str value with
    | None => Err (invalid ("input `" +:+ name +:+ "` expects a string value"))
    | Some text =>
      if required && is_empty text then Err (invalid ("required input `" +:+ name +:+ "` must be non-empty"))
      else Ok ()
    end
  | NumberInput _ _ min max _ =>
    match as_f64 value with
    | None => Err (invalid ("input `" +:+ name +:+ "` expects a numeric value"))
    | Some n =>
      let below := match min with Some lo => f64_ltb n lo | None => false end in
      let above := match max with Some hi => f64_ltb hi n | None => false end in
      if below then
        Err (invalid ("input `" +:+ name +:+ "` value " +:+ show_f64 n +:+ " is below the minimum "
             +:+ show_f64 (default f64_zero min)))
      else if above then
        Err (invalid ("input `" +:+ name +:+ "` value " +:+ show_f64 n +:+ " is above the maximum "
             +:+ show_f64 (default f64_zero max)))
      else Ok ()
    end
  | Select _ _ options _ =>
    match as_str value with
    | None => Err (invalid ("input `" +:+ name +:+ "` expects a string option value"))
    | Some chosen =>
      if existsb (λ o, String.eqb (opt_value o) chosen) options then Ok ()
      else Err (invalid ("input `" +:+ name +:+ "` value `" +:+ chosen +:+ "` is not one of the declared options"))
    end
  | Checkbox _ _ _ =>
    match value with
    | Bool _ => Ok ()
    | _ => Err (invalid ("input `" +:+ name +:+ "` expects a boolean value"))
    end
  | _ => Err (invalid ("`" +:+ name +:+ "` does not accept a submitted value"))
  end.

Fixpoint check_values (frame : UiFrame) (values : list (string * Value)) : result () :=
  match values with
  | [] => Ok ()
  | (name, value) :: values =>
    match find_input frame name with
    | None => Err (invalid ("decision supplies a value for undeclared input `" +:+ name +:+ "`"))
    | Some input => _ ← check_value input name value; check_values frame values
    end
  end.

(** The inputs whose nodes say whether they are required. *)
Definition requirement (n : UiNode) : option (string * bool) :=
  match n with
  | TextInput name _ _ required _ | NumberInput name _ _ _ required | Select name _ _ required => Some (name, required)
  | _ => None
  end.
Fixpoint check_required (decision : UiDecision) (l : list UiNode) : result () :=
  match l with
  | [] => Ok ()
  | n :: l =>
    match requirement n with
    | Some (name, required) =>
      if required && bool_decide (d_values decision !! name = None) then
        Err (invalid ("decision `" +:+ d_action decision +:+ "` requires a value for input `" +:+ name +:+ "`"))
      else check_required decision l
    | None => check_required decision l
    end
  end.

Definition declared (frame : UiFrame) : string :=
  match actions frame with
  | [] => "none"
  | l => join_with ", " (map (λ a, "`" +:+ a.1.1 +:+ "`") l)
  end.

Definition validate_decision (frame : UiFrame) (decision : UiDecision) : result () :=
  match find (λ a, String.eqb a.1.1 (d_action decision)) (actions frame) with
  | None =>
    Err (invalid ("decision action `" +:+ d_action decision +:+ "` is not declared by the frame (declared: "
         +:+ declared frame +:+ ")"))
  | Some (_, _, class) =>
    _ ← check_values frame (btree_iter (d_values decision));
    if is_affirmative class then check_required decision (nodes frame) else Ok ()
  end.

(** ** The guard ([wovyr-ui-guard/src/lib.rs]) *)

Module rules.
Definition MAX_NODES : string := "max_nodes".
Definition MAX_DEPTH : string := "max_depth".
Definition MEDIA_ORIGIN : string := "media_origin".
Definition SENSITIVE_INPUT : string := "sensitive_input".
Definition DESTRUCTIVE_ACTION : string := "destructive_action".
Definition INTENT_MISMATCH : string := "intent_mismatch".
Definition REDACT_TEXT : string := "redact_text".
Definition HOSTED_FLOOR : string := "hosted_floor".
End rules.

Definition DEFAULT_SENSITIVE_INPUT_TOKENS : list string :=
  ["password"; "passcode"; "passphrase"; "card"; "cvv"; "cvc"; "ssn"; "secret"; "token"; "iban"; "passport";
   "otp"; "pin"; "tan"; "mfa"; "2fa"; "credit"; "apikey"].
Definition NEGATIVE_LABEL_TOKENS : list string :=
  ["cancel"; "no"; "stop"; "back"; "reject"; "decline"; "abort"; "dismiss"; "never"].
Definition DESTRUCTIVE_LABEL_TOKENS : list string :=
  ["delete"; "remove"; "terminate"; "destroy"; "drop"; "wipe"; "erase"; "purge"; "revoke"].

Record PolicyRules := {
  max_nodes : nat;
  max_depth : nat;
  allow_destructive_actions : bool;
  allow_sensitive_input_names : bool;
  sensitive_input_tokens : list string;
  allowed_media_origins : list string;
  redact_text_patterns : list string;
}.
Definition PolicyRules_default : PolicyRules := {|
  max_nodes := 256; max_depth := 16; allow_destructive_actions := false; allow_sensitive_input_names := false;
  sensitive_input_tokens := []; allowed_media_origins := []; redact_text_patterns := [] |}.

Record UiPolicy := { pol_name : string; pol_version : Z; pol_rules : PolicyRules }.

(** [serde_yaml] at policies. *)
Class PolicyYaml := policy_of_yaml : string → string + UiPolicy.

Definition policy_from_yaml `{PolicyYaml} (yaml : string) : result UiPolicy :=
  match policy_of_yaml yaml with
  | inl e => Err (invalid ("invalid ui policy: " +:+ e))
  | inr policy =>
    if is_empty (pol_name policy) then Err (invalid "ui policy requires a non-empty name")
    else if Z.eqb (pol_version policy) 0 then
      Err (invalid "ui policy version must be >= 1 (versions are audited; 0 is reserved)")
    else Ok policy
  end.

Definition reference (p : UiPolicy) : string := pol_name p +:+ "@v" +:+ show_Z (pol_version p).

Inductive Verdict :=
  | Allow
  | Redact (frame : UiFrame) (fired : list string)
  | Block (rule reason : string).

Definition hosted_floor (frame : UiFrame) : Verdict :=
  if is_interactive frame then
    Block rules.HOSTED_FLOOR
      "no ui policy is configured for this tenant; interactive frames are denied by default (display-only frames pass)"
  else Allow.

Fixpoint depth_of (node : UiNode) : nat :=
  match node with
  | Column children | Row children | Card _ children => 1 + foldr Nat.max 0%nat (map depth_of children)
  | _ => 1
  end.

(** The text before the first of the separators. *)
Definition before_any (separators : ascii → bool) (s : string) : string :=
  match split_at_find separators s with Some (a, _) => a | None => s end.
Definition url_separator (c : ascii) : bool :=
  Ascii.eqb c "/" || Ascii.eqb c "?" || Ascii.eqb c "#".

(** *** Redaction *)

Definition is_char_boundary (i : nat) (text : string) : bool :=
  Nat.eqb i 0 || Nat.eqb i (String.length text)
  || match String.get i text with Some c => negb (is_continuation c) | None => false end.

(** [String::replace_range] *)
Definition replace_range (from to : nat) (with_ text : string) : outcome string :=
  if is_char_boundary from text && is_char_boundary to text && Nat.leb from to then
    Ret (String.substring 0 from text +:+ with_ +:+ String.substring to (String.length text - to) text)
  else Stop Panicked.

Definition BLOCK : string := "█".
Fixpoint repeat_str (n : nat) (s : string) : string :=
  match n with O => "" | S n => s +:+ repeat_str n s end.

(** The occurrences of [pattern] in [rest], the part of the lower-case text
    from byte [from] on; each is cut out of [text] where it was found. *)
Fixpoint scrub_pattern (fuel : nat) (pattern rest : string) (from : nat) (text : string) (hit : bool)
    : outcome (string * bool) :=
  match fuel with
  | O => Ret (text, hit)
  | S fuel =>
    match split_once pattern rest with
    | None => Ret (text, hit)
    | Some (before, after) =>
      let start := (from + String.length before)%nat in
      let end_ := (start + String.length pattern)%nat in
      text ← replace_range start end_ (repeat_str (length (chars pattern)) BLOCK) text;
      scrub_pattern fuel pattern after end_ text true
    end
  end.

Section guard.
Context `{Unicode}.

Definition sensitive_tokens (p : UiPolicy) : list string :=
  match sensitive_input_tokens (pol_rules p) with
  | [] => DEFAULT_SENSITIVE_INPUT_TOKENS
  | l => map to_lowercase l
  end.

Definition tokens (text : string) : list string :=
  List.filter (λ t, negb (is_empty t)) (alphanumeric_runs (chars (to_lowercase text)) "").

Definition origin_permits (host origin : string) : bool :=
  let origin := to_lowercase origin in
  match strip_prefix "." origin with
  | Some suffix => String.eqb host suffix || ends_with ("." +:+ suffix) host
  | None => String.eqb host origin
  end.
Definition media_violation (url : string) (allowed : list string) : option string :=
  match allowed with
  | [] => Some "frame embeds an image but the policy allows no media origins"
  | _ =>
    match match strip_prefix "https://" url with Some s => Some s | None => strip_prefix "HTTPS://" url end with
    | None => Some ("image url `" +:+ url +:+ "` is not https — media references must be https")
    | Some without_scheme =>
      let rest := before_any url_separator without_scheme in
      let host := to_lowercase (before_any (Ascii.eqb ":") rest) in
      if is_empty host then Some ("image url `" +:+ url +:+ "` has no host")
      else if existsb (origin_permits host) allowed then None
      else Some ("image origin `" +:+ host +:+ "` is not in the policy's allowed media origins")
    end
  end.

Fixpoint scrub (patterns : list string) (lower text : string) (hit : bool) : outcome (string * bool) :=
  match patterns with
  | [] => Ret (text, hit)
  | pattern :: patterns =>
    let pattern := to_lowercase pattern in
    if is_empty pattern then scrub patterns lower text hit
    else
      '(text, hit) ← scrub_pattern (String.length lower) pattern lower 0 text hit;
      scrub patterns lower text hit
  end.
Definition scrub_text (patterns : list string) (text : string) : outcome (string * bool) :=
  scrub patterns (to_lowercase text) text false.

Fixpoint scrub_entries (patterns : list string) (entries : list KeyValueEntry)
    : outcome (list KeyValueEntry * bool) :=
  match entries with
  | [] => Ret ([], false)
  | e :: entries =>
    '(v, hit) ← scrub_text patterns (kv_value e);
    '(es, hits) ← scrub_entries patterns entries;
    Ret ({| kv_key := kv_key e; kv_value := v |} :: es, hit || hits)
  end.

Fixpoint redact_node (patterns : list string) (node : UiNode) : outcome (UiNode * bool) :=
  let redact_children := fix redact_children (l : list UiNode) : outcome (list UiNode * bool) :=
    match l with
    | [] => Ret ([], false)
    | child :: l =>
      '(child, hit) ← redact_node patterns child;
      '(l, hits) ← redact_children l;
      Ret (child :: l, hit || hits)
    end in
  match node with
  | Text text style => '(text, hit) ← scrub_text patterns text; Ret (Text text style, hit)
  | Badge text tone => '(text, hit) ← scrub_text patterns text; Ret (Badge text tone, hit)
  | KeyValue entries => '(entries, hit) ← scrub_entries patterns entries; Ret (KeyValue entries, hit)
  | Column children => '(children, hit) ← redact_children children; Ret (Column children, hit)
  | Row children => '(children, hit) ← redact_children children; Ret (Row children, hit)
  | Card title children => '(children, hit) ← redact_children children; Ret (Card title children, hit)
  | node => Ret (node, false)
  end.

(** *** The rules, in the order they are checked *)

Definition class_debug (c : ActionClass) : string :=
  match c with
  | Confirm => "Confirm" | Approve => "Approve" | Submit => "Submit" | Cancel => "Cancel"
  | Reject => "Reject" | Destructive => "Destructive" | Neutral => "Neutral"
  end.
#[export] Instance ActionClass_eq_dec : EqDecision ActionClass.
Proof. solve_decision. Defined.

Definition show_nat (n : nat) : string := show_Z (Z.of_nat n).

Definition size_rule (p : UiPolicy) (frame : UiFrame) : option (string * string) :=
  if Nat.ltb (max_nodes (pol_rules p)) (length (nodes frame)) then
    Some (rules.MAX_NODES, "frame has " +:+ show_nat (length (nodes frame)) +:+ " nodes; policy `" +:+ reference p
                           +:+ "` allows " +:+ show_nat (max_nodes (pol_rules p)))
  else if Nat.ltb (max_depth (pol_rules p)) (depth_of (root frame)) then
    Some (rules.MAX_DEPTH, "frame depth " +:+ show_nat (depth_of (root frame)) +:+ " exceeds policy `" +:+ reference p
                           +:+ "` budget " +:+ show_nat (max_depth (pol_rules p)))
  else None.

Fixpoint first_violation {A} (check : A → option (string * string)) (l : list A) : option (string * string) :=
  match l with
  | [] => None
  | a :: l => match check a with Some v => Some v | None => first_violation check l end
  end.

Definition media_rule (p : UiPolicy) (n : UiNode) : option (string * string) :=
  match n with
  | Image url _ =>
    match media_violation url (allowed_media_origins (pol_rules p)) with
    | Some reason => Some (rules.MEDIA_ORIGIN, reason)
    | None => None
    end
  | _ => None
  end.

(** The name and label of an input. *)
Definition input_fields (n : UiNode) : option (string * string) :=
  match n with
  | TextInput name label _ _ _ | NumberInput name label _ _ _ | Select name label _ _ | Checkbox name label _ =>
    Some (name, label)
  | _ => None
  end.
Definition sensitive_token (p : UiPolicy) (field : string) : option string :=
  find (λ t, bool_decide (t ∈ sensitive_tokens p)) (tokens field).
Definition sensitive_rule (p : UiPolicy) (n : UiNode) : option (string * string) :=
  match input_fields n with
  | None => None
  | Some (name, label) =>
    first_violation (λ field,
      match sensitive_token p field with
      | Some token =>
        Some (rules.SENSITIVE_INPUT, "input `" +:+ name +:+ "` is named/labelled like a credential or PII prompt (matched token `"
          +:+ token +:+ "`); generated frames must never collect credentials (policy `" +:+ reference p +:+ "`)")
      | None => None
      end) [name; label]
  end.

Definition action_rule (p : UiPolicy) (a : string * string * ActionClass) : option (string * string) :=
  let '(action, label, class) := a in
  if bool_decide (class = Destructive) && negb (allow_destructive_actions (pol_rules p)) then
    Some (rules.DESTRUCTIVE_ACTION, "action `" +:+ action +:+ "` declares class `destructive`, which policy `"
          +:+ reference p +:+ "` does not allow")
  else
    let label_tokens := tokens label in
    if is_affirmative class && existsb (λ t, bool_decide (t ∈ NEGATIVE_LABEL_TOKENS)) label_tokens then
      Some (rules.INTENT_MISMATCH, "action `" +:+ action +:+ "` declares affirmative class `" +:+ class_debug class
            +:+ "` but its label reads as backing out — a deceptive control shape")
    else if negb (bool_decide (class = Destructive))
            && existsb (λ t, bool_decide (t ∈ DESTRUCTIVE_LABEL_TOKENS)) label_tokens then
      Some (rules.INTENT_MISMATCH, "action `" +:+ action +:+ "` has a destructive-reading label but declares class `"
            +:+ class_debug class +:+ "` — destructive effects must be declared as `destructive`")
    else None.

(** The first rule a frame breaks. *)
Definition first_block (p : UiPolicy) (frame : UiFrame) : option (string * string) :=
  match size_rule p frame with
  | Some v => Some v
  | None =>
    match first_violation (media_rule p) (nodes frame) with
    | Some v => Some v
    | None =>
      match (if allow_sensitive_input_names (pol_rules p) then None
             else first_violation (sensitive_rule p) (nodes frame)) with
      | Some v => Some v
      | None => first_violation (action_rule p) (actions frame)
      end
    end
  end.

Definition with_root (frame : UiFrame) (r : UiNode) : UiFrame := {|
  schema_version := schema_version frame; frame_title := frame_title frame;
  provenance := provenance frame; root := r |}.

Definition evaluate (p : UiPolicy) (frame : UiFrame) : outcome Verdict :=
  match first_block p frame with
  | Some (rule, reason) => Ret (Block rule reason)
  | None =>
    match redact_text_patterns (pol_rules p) with
    | [] => Ret Allow
    | patterns =>
      '(r, hit) ← redact_node patterns (root frame);
      Ret (if hit : bool then Redact (with_root frame r) [rules.REDACT_TEXT] else Allow)
    end
  end.
End guard.

(** ** The shape of a tree *)

(** Induction from the children of a node to the node. *)
Lemma UiNode_tree_ind (P : UiNode → Prop) :
  (∀ n, Forall P (children_of n) → P n) → ∀ n, P n.
Proof.
  intros Hstep. fix go 1. intros n. apply Hstep.
  destruct n as [l|l|? l| | | | | | | | | |]; cbn; try apply Forall_nil_2;
    (induction l; constructor; [apply go|done]).
Qed.

Lemma collect_nodes_eq n : collect_nodes n = n :: concat (map collect_nodes (children_of n)).
Proof. by destruct n. Qed.
Lemma depth_of_eq n : depth_of n = S (foldr Nat.max 0%nat (map depth_of (children_of n))).
Proof. by destruct n. Qed.

Definition collect_all (l : list UiNode) : list UiNode := concat (map collect_nodes l).
Lemma collect_all_cons n l : collect_all (n :: l) = collect_nodes n ++ collect_all l.
Proof. done. Qed.

(** *** The walk of the validation *)

Definition action_id (n : UiNode) : option string := fst ∘ fst <$> button_of n.

Fixpoint validate_all (l : list UiNode) (depth : nat) (st : Seen) : result Seen :=
  match l with
  | [] => Ok st
  | n :: l => st ← validate_node n depth st; validate_all l depth st
  end.

(** A node that is well formed by itself. *)
Definition node_ok (n : UiNode) : Prop :=
  match n with
  | Column _ | Row _ | Card _ _ | Divider => True
  | Text text _ | Badge text _ => text ≠ ""
  | KeyValue entries => entries ≠ []
  | Image url alt => url ≠ "" ∧ alt ≠ ""
  | TextInput name label _ _ _ | Checkbox name label _ => name ≠ "" ∧ label ≠ ""
  | NumberInput name label min max _ => name ≠ "" ∧ label ≠ "" ∧ bounds_crossed min max = false
  | Select name label options _ =>
    name ≠ "" ∧ label ≠ "" ∧ options ≠ [] ∧
    Forall (λ o, opt_value o ≠ "" ∧ opt_label o ≠ "") options ∧ NoDup (map opt_value options)
  | Button action label _ => action ≠ "" ∧ label ≠ ""
  end.

Definition seen_ok (st : Seen) : Prop :=
  (count st ≤ MAX_NODES)%nat ∧ NoDup (input_names st) ∧ NoDup (action_ids st).
(** The state after the nodes [l]. *)
Definition after (st : Seen) (l : list UiNode) : Seen := {|
  count := count st + length l;
  input_names := input_names st ++ omap input_name l;
  action_ids := action_ids st ++ omap action_id l |}.

Lemma after_app st l l' : after st (l ++ l') = after (after st l) l'.
Proof. unfold after. cbn. by rewrite length_app, !omap_app, !app_assoc, Nat.add_assoc. Qed.
Lemma after_nil st : after st [] = st.
Proof. destruct st. unfold after. cbn. by rewrite !app_nil_r, Nat.add_0_r. Qed.
Lemma seen_ok_app st l l' : seen_ok (after st (l ++ l')) → seen_ok (after st l).
Proof.
  unfold seen_ok, after. cbn. rewrite length_app, !omap_app, !app_assoc. intros (? & [? _]%NoDup_app & [? _]%NoDup_app).
  split; [lia|done].
Qed.

Lemma is_empty_false s : is_empty s = false ↔ s ≠ "".
Proof. by destruct s. Qed.
Lemma either_empty a b : is_empty a || is_empty b = false ↔ a ≠ "" ∧ b ≠ "".
Proof. by rewrite orb_false_iff, !is_empty_false. Qed.

Lemma check_options_ok name options seen : NoDup seen →
  check_options name options seen = Ok () ↔
  Forall (λ o, opt_value o ≠ "" ∧ opt_label o ≠ "") options ∧ NoDup (seen ++ map opt_value options).
Proof.
  revert seen. induction options as [|o options IH]; intros seen Hs; cbn.
  { rewrite app_nil_r. naive_solver. }
  rewrite Forall_cons, <-either_empty. destruct (_ || _); [naive_solver|]. case_bool_decide as Hin.
  - split; [done|]. rewrite NoDup_app. intros (_ & _ & Hd & _). by edestruct (Hd _ Hin); left.
  - rewrite IH; [|apply NoDup_app; repeat split; [done| |apply NoDup_singleton]; by intros x Hx ->%list_elem_of_singleton].
    rewrite <-app_assoc. cbn. naive_solver.
Qed.

Lemma NoDup_push {A} (l : list A) x : NoDup (l ++ [x]) ↔ NoDup l ∧ x ∉ l.
Proof.
  rewrite NoDup_app. setoid_rewrite list_elem_of_singleton. pose proof (NoDup_singleton x). naive_solver.
Qed.

Lemma register_input_ok name label st st' : NoDup (input_names st) →
  register_input name label st = Ok st' ↔
  name ≠ "" ∧ label ≠ "" ∧ NoDup (input_names st ++ [name]) ∧
  st' = {| count := count st; input_names := input_names st ++ [name]; action_ids := action_ids st |}.
Proof.
  intros Hs. unfold register_input. rewrite NoDup_push. case_bool_decide as Hin;
    destruct (is_empty name || is_empty label) eqn:E; try apply either_empty in E as [??];
    try (apply orb_true_iff in E; destruct name, label; cbn in E); naive_solver.
Qed.
Lemma register_action_ok action label st st' : NoDup (action_ids st) →
  register_action action label st = Ok st' ↔
  action ≠ "" ∧ label ≠ "" ∧ NoDup (action_ids st ++ [action]) ∧
  st' = {| count := count st; input_names := input_names st; action_ids := action_ids st ++ [action] |}.
Proof.
  intros Hs. unfold register_action. rewrite NoDup_push. case_bool_decide as Hin;
    destruct (is_empty action || is_empty label) eqn:E; try apply either_empty in E as [??];
    try (apply orb_true_iff in E; destruct action, label; cbn in E); naive_solver.
Qed.

Definition bumped (st : Seen) : Seen :=
  {| count := S (count st); input_names := input_names st; action_ids := action_ids st |}.

Section leaf.
Context (st : Seen) (Hn : (S (count st) ≤ MAX_NODES)%nat) (Hi : NoDup (input_names st)) (Ha : NoDup (action_ids st)).

Lemma after_plain n st' : input_name n = None → action_id n = None →
  Ok (bumped st) = Ok st' ↔ st' = after st [n] ∧ seen_ok st'.
Proof using All.
  intros H1 H2. unfold seen_ok, after, bumped. cbn. rewrite H1, H2. cbn. rewrite !app_nil_r, Nat.add_1_r.
  split; [intros [= <-]; cbn; split; [done|split; [lia|done]]|by intros [-> _]].
Qed.
Lemma after_input n name label st' : input_name n = Some name → action_id n = None →
  register_input name label (bumped st) = Ok st' ↔ st' = after st [n] ∧ seen_ok st' ∧ name ≠ "" ∧ label ≠ "".
Proof using All.
  intros H1 H2. rewrite register_input_ok by done. unfold seen_ok, after. cbn. rewrite H1, H2. cbn.
  rewrite app_nil_r, Nat.add_1_r. split; [intros (? & ? & ? & ->)|intros (-> & ? & ?)]; cbn in *; naive_solver lia.
Qed.
Lemma after_action n action label st' : input_name n = None → action_id n = Some action →
  register_action action label (bumped st) = Ok st' ↔ st' = after st [n] ∧ seen_ok st' ∧ action ≠ "" ∧ label ≠ "".
Proof using All.
  intros H1 H2. rewrite register_action_ok by done. unfold seen_ok, after. cbn. rewrite H1, H2. cbn.
  rewrite app_nil_r, Nat.add_1_r. split; [intros (? & ? & ? & ->)|intros (-> & ? & ?)]; cbn in *; naive_solver lia.
Qed.

Ltac as_plain :=
  match goal with |- context [after st [?n]] => rewrite (after_plain n) by done end.

Ltac as_input n :=
  rewrite result_bind_Ok; setoid_rewrite (after_input n); [|reflexivity..].

Lemma validate_leaf n d st' : children_of n = [] → (d ≤ MAX_DEPTH)%nat →
  validate_node n d st = Ok st' ↔ st' = after st [n] ∧ seen_ok st' ∧ node_ok n.
Proof using All.
  intros Hc Hd. destruct n; cbn in Hc; subst; unfold validate_node; fold (bumped st); cbn [count bumped];
    rewrite (proj2 (Nat.ltb_ge _ _) Hn), (proj2 (Nat.ltb_ge _ _) Hd);
    cbn [node_ok].
  1-4: as_plain; naive_solver.
  1-2: destruct text; cbn [is_empty]; [|as_plain]; naive_solver.
  - destruct entries; [|as_plain]; naive_solver.
  - destruct url; cbn [is_empty]; [naive_solver|]. destruct alt; cbn [is_empty]; [|as_plain]; naive_solver.
  - by apply after_input.
  - as_input (NumberInput name label min max required).
    destruct (bounds_crossed min max); naive_solver.
  - as_input (Select name label options required).
    pose proof (check_options_ok name options [] NoDup_nil_2) as Ho. cbn [app] in Ho.
    destruct options as [|o options]; [naive_solver|]. destruct (check_options _ _ _) as [[]|e]; naive_solver.
  - by apply after_input.
  - by apply after_action.
Qed.
End leaf.

Lemma validate_layout n d st c l : children_of n = c :: l → (S (count st) ≤ MAX_NODES)%nat → (d ≤ MAX_DEPTH)%nat →
  validate_node n d st = validate_all (c :: l) (d + 1) (bumped st).
Proof.
  intros Hc Hn Hd.
  assert (∀ l st, (fix validate_children (l : list UiNode) (st : Seen) : result Seen :=
      match l with
      | [] => Ok st
      | child :: l => st ← validate_node child (d + 1) st; validate_children l st
      end) l st = validate_all l (d + 1) st) as Hgo.
  { clear. intros l. induction l as [|n l IH]; intros st; [done|]. cbn [validate_all].
    unfold mbind, result_bind. by destruct (validate_node n (d + 1) st). }
  rewrite <-Hgo. destruct n; cbn in Hc; subst; try done; unfold validate_node at 1; fold validate_node; fold (bumped st);
    cbn [count bumped]; by rewrite (proj2 (Nat.ltb_ge _ _) Hn), (proj2 (Nat.ltb_ge _ _) Hd).
Qed.

(** The nodes of trees are pairwise the walk's: in the caps, with distinct
    names, and well formed each. *)
Definition walk_ok (d : nat) (ns : list UiNode) (deep : nat) (st st' : Seen) : Prop :=
  st' = after st ns ∧ seen_ok st' ∧ (d + deep ≤ S MAX_DEPTH)%nat ∧ Forall node_ok ns.

Lemma validate_all_spec l : 
  Forall (λ n, ∀ d st st', seen_ok st → validate_node n d st = Ok st' ↔ walk_ok d (collect_nodes n) (depth_of n) st st') l →
  ∀ d st st', seen_ok st → (d ≤ S MAX_DEPTH)%nat → validate_all l d st = Ok st' ↔
    walk_ok d (collect_all l) (foldr Nat.max 0%nat (map depth_of l)) st st'.
Proof.
  unfold walk_ok. induction 1 as [|n l Hn _ IH]; intros d st st' Hs Hd; cbn [validate_all].
  { unfold collect_all. cbn. rewrite after_nil. split; [intros [= <-]|naive_solver]. split_and!; try done; first [lia|constructor]. }
  rewrite result_bind_Ok, collect_all_cons, after_app, Forall_app. cbn [map foldr].
  split.
  - intros (st1 & (-> & Hs1 & Hd1 & Hf1)%Hn & (-> & Hs' & Hd' & Hf')%IH); [|done..]. split_and!; try done; lia.
  - intros (-> & Hs' & Hd' & Hf1 & Hf'). rewrite <-after_app in Hs'. pose proof (seen_ok_app _ _ _ Hs') as Hs1. rewrite after_app in Hs'.
    exists (after st (collect_nodes n)). rewrite Hn, IH by done. split_and!; try done; lia.
Qed.

Lemma validate_node_spec n : ∀ d st st', seen_ok st →
  validate_node n d st = Ok st' ↔ walk_ok d (collect_nodes n) (depth_of n) st st'.
Proof.
  induction n as [n IH] using UiNode_tree_ind. intros d st st' Hs. unfold walk_ok. rewrite collect_nodes_eq, depth_of_eq.
  fold (collect_all (children_of n)). destruct (decide (S (count st) ≤ MAX_NODES)%nat) as [Hn|Hn].
  2: { split; [unfold validate_node; destruct n; fold (bumped st); cbn [count bumped];
         rewrite (proj2 (Nat.ltb_lt _ _)) by lia; done|].
       intros (-> & (Hc & _) & _). cbn in Hc. lia. }
  destruct (decide (d ≤ MAX_DEPTH)%nat) as [Hd|Hd].
  2: { split; [unfold validate_node; destruct n; fold (bumped st); cbn [count bumped];
         rewrite (proj2 (Nat.ltb_ge _ _) Hn), (proj2 (Nat.ltb_lt _ _)) by lia; done|]. lia. }
  destruct Hs as (Hc & Hi & Ha). destruct (children_of n) as [|c l] eqn:Ec.
  { rewrite validate_leaf by done. unfold collect_all. cbn [map concat foldr]. rewrite Forall_singleton. naive_solver lia. }
  rewrite (validate_layout n d st c l) by done.
  assert (after st [n] = bumped st ∧ node_ok n) as [Hb Hk].
  { destruct (after_plain st Hn Hi Ha n (after st [n])) as [_ Hp]; [by destruct n|by destruct n|]. split; [|by destruct n].
    destruct n; cbn in Ec; try done; unfold after, bumped; cbn; by rewrite !app_nil_r, Nat.add_1_r. }
  rewrite validate_all_spec by (done || lia). unfold walk_ok.
  change (n :: collect_all (c :: l)) with ([n] ++ collect_all (c :: l)).
  rewrite after_app, Hb, Forall_app, Forall_singleton. naive_solver lia.
Qed.

(** ** Validation is well-formedness *)

(** The version of a frame is one this build reads. *)
Definition supported {V} `{SemVersion V} (version : string) : Prop :=
  ∃ ours theirs : V, parse_semver SCHEMA_VERSION = inr ours ∧ parse_semver version = inr theirs ∧
    semver_major theirs = semver_major ours ∧ semver_cmp theirs ours ≠ Gt.

Definition input_names_of (f : UiFrame) : list string := omap input_name (nodes f).
Definition action_ids_of (f : UiFrame) : list string := omap action_id (nodes f).
Definition frame_ok (f : UiFrame) : Prop :=
  (length (nodes f) ≤ MAX_NODES)%nat ∧ (depth_of (root f) ≤ MAX_DEPTH)%nat ∧ Forall node_ok (nodes f) ∧
  NoDup (input_names_of f) ∧ NoDup (action_ids_of f) ∧ (input_names_of f ≠ [] → action_ids_of f ≠ []).

Lemma ensure_version_supported_ok {V} `{SemVersion V} version :
  ensure_version_supported version = Ok () ↔ supported version.
Proof.
  unfold ensure_version_supported, supported.
  destruct (parse_semver SCHEMA_VERSION) as [e|ours]; [split; [done|naive_solver]|].
  destruct (parse_semver version) as [e|theirs]; [split; [done|naive_solver]|].
  destruct (Z.eqb_spec (semver_major theirs) (semver_major ours)), (semver_cmp theirs ours) eqn:Ec; cbn;
    (split; [intros Hok; try done; exists ours, theirs; rewrite Ec; naive_solver|intros (? & ? & [= <-] & [= <-] & ? & ?); congruence]).
Qed.

Lemma validate_ok {V} `{SemVersion V} (f : UiFrame) : validate f = Ok () ↔ supported (schema_version f) ∧ frame_ok f.
Proof.
  unfold validate. rewrite <-ensure_version_supported_ok.
  destruct (ensure_version_supported _) as [[]|e]; [|naive_solver]. cbn [mbind result_bind].
  set (st0 := {| count := 0; input_names := []; action_ids := [] |}).
  assert (seen_ok st0) as H0 by (split_and!; cbn; [lia|apply NoDup_nil_2..]).
  pose proof (λ st', validate_node_spec (root f) 1 st0 st' H0) as Hv. unfold walk_ok, seen_ok, after in Hv. cbn in Hv.
  assert (frame_ok f ↔ (length (nodes f) ≤ MAX_NODES ∧ NoDup (input_names_of f) ∧ NoDup (action_ids_of f))%nat ∧
    (1 + depth_of (root f) ≤ S MAX_DEPTH)%nat ∧ Forall node_ok (nodes f) ∧ (input_names_of f ≠ [] → action_ids_of f ≠ [])) as ->.
  { unfold frame_ok. naive_solver lia. }
  destruct (validate_node (root f) 1 st0) as [st|e] eqn:E.
  - destruct (proj1 (Hv st) eq_refl) as (-> & ? & ? & ?). cbn [input_names action_ids]. fold (nodes f) in *. fold (input_names_of f) (action_ids_of f) in *.
    destruct (input_names_of f), (action_ids_of f); naive_solver.
  - split; [done|]. intros (_ & Hs & Hd & Hf & _).
    assert (Err e = Ok {| count := length (nodes f); input_names := input_names_of f; action_ids := action_ids_of f |}); [|done].
    apply Hv. split_and!; try done; naive_solver.
Qed.

(** C18: A frame is accepted exactly when it is well formed.  Parsing a document
    gives a frame if and only if it is the frame the document denotes, its
    version is of this build's major version and not newer, it has at most 512
    nodes and 32 levels, its input names and its action ids are distinct, every
    node is well formed (texts, names, labels not empty, bounds not crossed,
    options distinct), and there is an action if there is an input. *)
Theorem frames_validate_iff_well_formed {V} `{SemVersion V, UiSerde} (v : Value) (f : UiFrame) :
  from_value v = Ok f ↔ frame_of_json v = inr f ∧ supported (schema_version f) ∧ frame_ok f.
Proof.
  unfold from_value. rewrite <-validate_ok. destruct (frame_of_json v) as [e|f']; [naive_solver|].
  rewrite result_bind_Ok. split; [intros ([] & Hv & [= ->])|intros ([= ->] & Hv)]; eauto.
Qed.

(** ** Decisions *)

(** A value that an input takes. *)
Definition value_fits (input : UiNode) (v : Value) : Prop :=
  match input with
  | TextInput _ _ _ required _ => ∃ s, v = Str s ∧ (required = true → s ≠ "")
  | NumberInput _ _ min max _ => ∃ n, v = Num n ∧
      (∀ lo, min = Some lo → f64_ltb (number_as_f64 n) lo = false) ∧
      (∀ hi, max = Some hi → f64_ltb hi (number_as_f64 n) = false)
  | Select _ _ options _ => ∃ s, v = Str s ∧ s ∈ map opt_value options
  | Checkbox _ _ _ => ∃ b, v = Bool b
  | _ => False
  end.

Lemma check_value_ok input name v : check_value input name v = Ok () ↔ value_fits input v.
Proof.
  destruct input; cbn; try (split; [done|by intros []]).
  - destruct v; cbn; try (split; [done|by intros (? & ? & ?)]). destruct required, s; cbn;
      (split; [intros Hok; try done; eexists; by split|intros (? & [= <-] & ?); naive_solver]).
  - destruct v as [| |n| | |]; cbn; try (split; [done|by intros (? & ? & ?)]).
    split.
    + intros Hok. exists n. split; [done|].
      split; intros b ->; [by destruct (f64_ltb _ b)|]. destruct min as [lo|]; [destruct (f64_ltb _ lo); [done|]|]; by destruct (f64_ltb b _).
    + intros (? & [= <-] & Hlo & Hhi). destruct min; [rewrite Hlo by done|]; (destruct max; [rewrite Hhi by done|]); done.
  - destruct v as [| | |s| |]; cbn; try (split; [done|by intros (? & ? & ?)]).
    destruct (existsb _ options) eqn:E.
    + apply existsb_elem in E as (o & Ho & <-%String.eqb_eq). split; [|done]. intros _. eexists. split; [done|].
      apply list_elem_of_fmap. eauto.
    + split; [done|]. intros (? & [= <-] & (o & -> & Ho)%list_elem_of_fmap).
      assert (existsb (λ o', String.eqb (opt_value o') (opt_value o)) options = true); [|congruence].
      apply existsb_elem. exists o. by rewrite String.eqb_refl.
  - destruct v; cbn; split; try done; try (by intros []). eauto.
Qed.

Lemma find_input_Some f name n : find_input f name = Some n → n ∈ nodes f ∧ input_name n = Some name.
Proof.
  intros [Hin Hn]%find_Some_elem. split; [done|]. destruct (input_name n) as [m|]; [|done]. by apply String.eqb_eq in Hn as ->.
Qed.
Lemma omap_NoDup_inj {A B} (g : A → option B) l a a' b :
  NoDup (omap g l) → a ∈ l → a' ∈ l → g a = Some b → g a' = Some b → a = a'.
Proof.
  induction l as [|x l IH]; [by intros _ ?%not_elem_of_nil|]. cbn.
  intros Hnd [->|Ha]%elem_of_cons [->|Ha']%elem_of_cons Hg Hg'; [done| | |].
  - rewrite Hg in Hnd. apply NoDup_cons in Hnd as [Hn _]. destruct Hn. apply list_elem_of_omap. eauto.
  - rewrite Hg' in Hnd. apply NoDup_cons in Hnd as [Hn _]. destruct Hn. apply list_elem_of_omap. eauto.
  - apply IH; try done. destruct (g x); [by apply NoDup_cons in Hnd as [_ ?]|done].
Qed.
Lemma find_input_unique f name n : NoDup (input_names_of f) → n ∈ nodes f → input_name n = Some name →
  find_input f name = Some n.
Proof.
  intros Hnd Hn Hname. destruct (find_input f name) as [m|] eqn:E.
  - apply find_input_Some in E as [Hm Hm']. by rewrite (omap_NoDup_inj _ _ m n name Hnd Hm Hn Hm' Hname).
  - unfold find_input in E. apply find_None_elem with (x := n) in E; [|done]. by rewrite Hname, String.eqb_refl in E.
Qed.

Lemma check_values_ok f l : check_values f l = Ok () ↔
  ∀ name v, (name, v) ∈ l → ∃ input, find_input f name = Some input ∧ value_fits input v.
Proof.
  induction l as [|[name v] l IH]; cbn. { split; [by intros _ ?? ?%not_elem_of_nil|done]. }
  setoid_rewrite elem_of_cons. destruct (find_input f name) as [input|] eqn:E.
  - rewrite result_bind_Ok. split.
    + intros ([] & Hc%check_value_ok & Hl). rewrite IH in Hl. intros ?? [[= -> ->]|Hin]; [|by apply Hl]. eauto.
    + intros Hall. exists (). rewrite check_value_ok, IH. split; [|naive_solver].
      destruct (Hall name v) as (? & ? & ?); [by left|]. congruence.
  - split; [done|]. intros Hall. destruct (Hall name v) as (? & ? & ?); [by left|]. congruence.
Qed.

Lemma check_required_ok d l : check_required d l = Ok () ↔
  ∀ n name, n ∈ l → requirement n = Some (name, true) → is_Some (d_values d !! name).
Proof.
  induction l as [|n l IH]; cbn. { split; [by intros _ ?? ?%not_elem_of_nil|done]. }
  setoid_rewrite elem_of_cons. destruct (requirement n) as [[name []]|] eqn:E; cbn; [|naive_solver..].
  case_bool_decide as Hv; [|rewrite not_eq_None_Some in Hv; naive_solver].
  split; [done|]. intros Hall. destruct (Hall n name) as [? Hs]; [by left|done|congruence].
Qed.

(** A decision is accepted exactly when the frame declares it.  On a well
    formed frame: its action is that of a button, every value it carries is for
    an input of the frame and fits it (text not empty where required, a number
    inside the bounds, one of the options, a truth value), and an affirmative
    action has a value for every required input. *)
Theorem decisions_are_accepted_iff_declared (f : UiFrame) (d : UiDecision) : frame_ok f →
  validate_decision f d = Ok () ↔
  ∃ label class, (d_action d, label, class) ∈ actions f ∧
    (∀ name v, d_values d !! name = Some v →
       ∃ input, input ∈ nodes f ∧ input_name input = Some name ∧ value_fits input v) ∧
    (is_affirmative class = true → ∀ n name, n ∈ nodes f → requirement n = Some (name, true) →
       is_Some (d_values d !! name)).
Proof.
  intros (_ & _ & _ & Hin & Hact & _). unfold validate_decision.
  assert (∀ name v, (name, v) ∈ btree_iter (d_values d) ↔ d_values d !! name = Some v) as Hiter by (intros; apply btree_iter_elem).
  assert (check_values f (btree_iter (d_values d)) = Ok () ↔ (∀ name v, d_values d !! name = Some v →
       ∃ input, input ∈ nodes f ∧ input_name input = Some name ∧ value_fits input v)) as Hvals.
  { rewrite check_values_ok. setoid_rewrite Hiter. split; intros Hall name v Hv; destruct (Hall name v Hv) as (input & Hi).
    - destruct Hi as [[??]%find_input_Some ?]. eauto.
    - exists input. destruct Hi as (? & ? & ?). split; [by apply find_input_unique|done]. }
  destruct (find _ (actions f)) as [[[action label] class]|] eqn:E.
  - apply find_Some_elem in E as [Ha Heq]. apply String.eqb_eq in Heq. cbn in Heq. subst action.
    rewrite result_bind_Ok. split.
    + intros ([] & Hv & Hr). rewrite Hvals in Hv. exists label, class. split_and!; [done..|]. intros Haff. rewrite Haff in Hr. by apply check_required_ok.
    + intros (label' & class' & Ha' & Hv & Hr). exists (). split; [by apply Hvals|].
      assert (class' = class) as ->; [|destruct (is_affirmative class); [by apply check_required_ok; apply Hr|done]].
      unfold actions in Ha, Ha'. apply list_elem_of_omap in Ha as (n & Hn & Hb). apply list_elem_of_omap in Ha' as (n' & Hn' & Hb').
      assert (n = n') as ->; [|congruence]. eapply (omap_NoDup_inj action_id); [done..| |]; unfold action_id; by rewrite ?Hb, ?Hb'.
  - split; [done|]. intros (label & class & Ha & _). apply find_None_elem with (x := (d_action d, label, class)) in E; [|done].
    cbn in E. by rewrite String.eqb_refl in E.
Qed.

(** ** The guard *)

Section rules.
Context `{Unicode}.

(** A host within an origin: the host itself or, where the origin starts with a
    dot, the domain or any of its subdomains. *)
Definition within_origin (host origin : string) : Prop :=
  (∃ domain, origin = "." +:+ domain ∧ (host = domain ∨ ∃ sub, host = sub +:+ ("." +:+ domain))) ∨
  ((∀ domain, origin ≠ "." +:+ domain) ∧ host = origin).

Lemma origin_permits_spec host origin :
  origin_permits host origin = true ↔ within_origin host (to_lowercase origin).
Proof.
  unfold origin_permits, within_origin. set (o := to_lowercase origin). clearbody o.
  destruct (strip_prefix "." o) as [domain|] eqn:E.
  - apply strip_prefix_Some in E. rewrite orb_true_iff, String.eqb_eq.
    assert (ends_with ("." +:+ domain) host = true ↔ ∃ sub, host = sub +:+ ("." +:+ domain)) as Hend.
    { unfold ends_with. setoid_rewrite <-strip_suffix_Some. destruct (strip_suffix _ _); naive_solver. }
    rewrite Hend, E. split; [eauto|]. intros [(domain' & Hd & ?)|[Hno _]]; [|by destruct (Hno domain)].
    apply strip_prefix_Some in Hd. rewrite strip_prefix_app in Hd. by injection Hd as ->.
  - rewrite String.eqb_eq. split.
    + intros ->. right. split; [|done]. intros domain Hd. apply strip_prefix_Some in Hd. congruence.
    + intros [(domain & Hd & _)|[_ ->]]; [apply strip_prefix_Some in Hd; congruence|done].
Qed.

(** An image of an allowed origin: over https, from a host within one of the
    origins. *)
Definition image_allowed (p : UiPolicy) (url : string) : Prop :=
  ∃ scheme rest origin, scheme ∈ ["https://"; "HTTPS://"] ∧ url = scheme +:+ rest ∧
    let host := to_lowercase (before_any (Ascii.eqb ":") (before_any url_separator rest)) in
    host ≠ "" ∧ origin ∈ allowed_media_origins (pol_rules p) ∧ within_origin host (to_lowercase origin).

(** What a frame may not do under a policy, by the rule that says so. *)
Inductive breaks (p : UiPolicy) (f : UiFrame) : string → Prop :=
  | too_many_nodes : (max_nodes (pol_rules p) < length (nodes f))%nat → breaks p f rules.MAX_NODES
  | too_deep : (max_depth (pol_rules p) < depth_of (root f))%nat → breaks p f rules.MAX_DEPTH
  | foreign_image url alt : Image url alt ∈ nodes f → ¬ image_allowed p url → breaks p f rules.MEDIA_ORIGIN
  | asks_for_secrets n name label field token : allow_sensitive_input_names (pol_rules p) = false →
      n ∈ nodes f → input_fields n = Some (name, label) → field ∈ [name; label] → token ∈ tokens field →
      token ∈ sensitive_tokens p → breaks p f rules.SENSITIVE_INPUT
  | destroys action label : (action, label, Destructive) ∈ actions f →
      allow_destructive_actions (pol_rules p) = false → breaks p f rules.DESTRUCTIVE_ACTION
  | affirms_by_backing_out action label class token : (action, label, class) ∈ actions f →
      is_affirmative class = true → token ∈ tokens label → token ∈ NEGATIVE_LABEL_TOKENS →
      breaks p f rules.INTENT_MISMATCH
  | hides_destruction action label class token : (action, label, class) ∈ actions f → class ≠ Destructive →
      token ∈ tokens label → token ∈ DESTRUCTIVE_LABEL_TOKENS → breaks p f rules.INTENT_MISMATCH.

Lemma first_violation_Some {A} (check : A → option (string * string)) l v :
  first_violation check l = Some v → ∃ a, a ∈ l ∧ check a = Some v.
Proof.
  induction l as [|a l IH]; [done|]. cbn. destruct (check a) as [w|] eqn:E.
  - intros [= <-]. exists a. split; [left|done].
  - intros (b & ? & ?)%IH. exists b. split; [by right|done].
Qed.
Lemma first_violation_None {A} (check : A → option (string * string)) l a :
  first_violation check l = None → a ∈ l → check a = None.
Proof.
  induction l as [|b l IH]; [by intros _ ?%not_elem_of_nil|]. cbn. destruct (check b) eqn:E; [done|].
  intros Hl [->|Ha]%elem_of_cons; [done|by apply IH].
Qed.

Lemma media_violation_None p url :
  media_violation url (allowed_media_origins (pol_rules p)) = None ↔ image_allowed p url.
Proof.
  unfold media_violation, image_allowed. setoid_rewrite <-origin_permits_spec. set (allowed := allowed_media_origins (pol_rules p)).
  set (stripped := match strip_prefix "https://" url with Some s => Some s | None => strip_prefix "HTTPS://" url end).
  assert (∀ rest, stripped = Some rest ↔ ∃ scheme, scheme ∈ ["https://"; "HTTPS://"] ∧ url = scheme +:+ rest) as Hs.
  { intros rest. setoid_rewrite elem_of_cons. setoid_rewrite list_elem_of_singleton. unfold stripped. split.
    - destruct (strip_prefix "https://" url) eqn:E; [intros [= ->]; exists "https://"|intros E'; exists "HTTPS://"];
        (split; [by (left + right)|by apply strip_prefix_Some]).
    - intros (? & [-> | ->] & ->); cbn; by rewrite ?strip_prefix_app. }
  transitivity (∃ rest, stripped = Some rest ∧
    let host := to_lowercase (before_any (Ascii.eqb ":") (before_any url_separator rest)) in
    host ≠ "" ∧ ∃ origin, origin ∈ allowed ∧ origin_permits host origin = true).
  2: { setoid_rewrite Hs. naive_solver. }
  clearbody stripped. destruct allowed as [|o l] eqn:Ea.
  { split; [done|]. intros (? & _ & _ & ? & []%not_elem_of_nil & _). }
  rewrite <-Ea. destruct stripped as [rest|]; [|naive_solver]. cbn. set (host := to_lowercase _).
  destruct (is_empty host) eqn:Eh.
  { split; [done|]. intros (? & [= <-] & Hne%is_empty_false & _). unfold host in Eh. congruence. }
  apply is_empty_false in Eh.
  destruct (existsb (origin_permits host) allowed) eqn:Ex.
  - apply existsb_elem in Ex. naive_solver.
  - split; [done|]. intros (? & [= <-] & _ & origin & Ho & Hp).
    assert (existsb (origin_permits host) allowed = true); [|congruence]. apply existsb_elem. eauto.
Qed.

Lemma size_rule_breaks p f : 
  match size_rule p f with
  | Some (rule, _) => breaks p f rule
  | None => (length (nodes f) ≤ max_nodes (pol_rules p))%nat ∧ (depth_of (root f) ≤ max_depth (pol_rules p))%nat
  end.
Proof.
  unfold size_rule. destruct (Nat.ltb_spec (max_nodes (pol_rules p)) (length (nodes f))); [by apply too_many_nodes|].
  destruct (Nat.ltb_spec (max_depth (pol_rules p)) (depth_of (root f))); [by apply too_deep|done].
Qed.

Lemma media_rule_breaks p f n rule reason : n ∈ nodes f → media_rule p n = Some (rule, reason) → breaks p f rule.
Proof.
  intros Hn. destruct n; try done. cbn. destruct (media_violation _ _) eqn:E; [|done]. intros [= <- <-].
  eapply foreign_image; [done|]. rewrite <-media_violation_None. congruence.
Qed.

Lemma sensitive_rule_breaks p f n rule reason : allow_sensitive_input_names (pol_rules p) = false → n ∈ nodes f →
  sensitive_rule p n = Some (rule, reason) → breaks p f rule.
Proof.
  intros Hp Hn. unfold sensitive_rule. destruct (input_fields n) as [[name label]|] eqn:E; [|done].
  intros (field & Hf & Ht)%first_violation_Some. destruct (sensitive_token p field) as [token|] eqn:Es; [|done].
  injection Ht as <- <-. apply find_Some_elem in Es as [? ?%bool_decide_eq_true_1]. by eapply asks_for_secrets.
Qed.
Lemma sensitive_rule_None p n name label field token : input_fields n = Some (name, label) →
  field ∈ [name; label] → token ∈ tokens field → token ∈ sensitive_tokens p → sensitive_rule p n ≠ None.
Proof.
  unfold sensitive_rule. intros -> Hf Ht Hs Hn. eapply first_violation_None in Hn; [|done]. cbn in Hn.
  destruct (sensitive_token p field) eqn:E; [done|]. apply find_None_elem with (x := token) in E; [|done].
  by apply bool_decide_eq_false_1 in E.
Qed.

Lemma existsb_token (l forbidden : list string) :
  existsb (λ t, bool_decide (t ∈ forbidden)) l = true ↔ ∃ t, t ∈ l ∧ t ∈ forbidden.
Proof. rewrite existsb_elem. by setoid_rewrite bool_decide_eq_true. Qed.

Lemma action_rule_breaks p f a rule reason : a ∈ actions f → action_rule p a = Some (rule, reason) → breaks p f rule.
Proof.
  destruct a as [[action label] class]. intros Ha. cbn.
  destruct (bool_decide (class = Destructive) && _) eqn:E1.
  { apply andb_true_iff in E1 as [->%bool_decide_eq_true ?%negb_true_iff]. intros [= <- <-]. by eapply destroys. }
  destruct (is_affirmative class && _) eqn:E2.
  { apply andb_true_iff in E2 as [? (? & ? & ?)%existsb_token]. intros [= <- <-]. by eapply affirms_by_backing_out. }
  destruct (negb _ && _) eqn:E3; [|done].
  apply andb_true_iff in E3 as [?%negb_true_iff%bool_decide_eq_false (? & ? & ?)%existsb_token].
  intros [= <- <-]. by eapply hides_destruction.
Qed.
Lemma action_rule_None p action label class : action_rule p (action, label, class) = None →
  (class = Destructive → allow_destructive_actions (pol_rules p) = true) ∧
  (is_affirmative class = true → ∀ t, t ∈ tokens label → t ∉ NEGATIVE_LABEL_TOKENS) ∧
  (class ≠ Destructive → ∀ t, t ∈ tokens label → t ∉ DESTRUCTIVE_LABEL_TOKENS).
Proof.
  cbn. destruct (bool_decide (class = Destructive) && _) eqn:E1; [done|].
  destruct (is_affirmative class && _) eqn:E2; [done|]. destruct (negb _ && _) eqn:E3; [done|]. intros _. split_and!.
  - intros ->. by destruct (allow_destructive_actions (pol_rules p)).
  - intros Ha t Ht Hn. rewrite Ha in E2. cbn [andb] in E2.
    assert (∃ t, t ∈ tokens label ∧ t ∈ NEGATIVE_LABEL_TOKENS) as Hx%existsb_token by eauto. congruence.
  - intros Hc t Ht Hn. rewrite bool_decide_eq_false_2 in E3 by done. cbn [andb negb] in E3.
    assert (∃ t, t ∈ tokens label ∧ t ∈ DESTRUCTIVE_LABEL_TOKENS) as Hx%existsb_token by eauto. congruence.
Qed.

Lemma first_block_breaks p f rule reason : first_block p f = Some (rule, reason) → breaks p f rule.
Proof.
  unfold first_block. pose proof (size_rule_breaks p f) as Hs. destruct (size_rule p f) as [[]|]; [by intros [= <- <-]|].
  destruct (first_violation (media_rule p) _) as [v|] eqn:Em.
  { intros [= ->]. apply first_violation_Some in Em as (n & ? & ?). by eapply media_rule_breaks. }
  destruct (allow_sensitive_input_names (pol_rules p)) eqn:Ep.
  { intros (a & ? & ?)%first_violation_Some. by eapply action_rule_breaks. }
  destruct (first_violation (sensitive_rule p) _) as [v|] eqn:Es.
  { intros [= ->]. apply first_violation_Some in Es as (n & ? & ?). by eapply sensitive_rule_breaks. }
  intros (a & ? & ?)%first_violation_Some. by eapply action_rule_breaks.
Qed.
Lemma first_block_None p f rule : first_block p f = None → ¬ breaks p f rule.
Proof.
  unfold first_block. pose proof (size_rule_breaks p f) as Hs. destruct (size_rule p f) as [[]|]; [done|].
  destruct (first_violation (media_rule p) _) as [v|] eqn:Em; [done|].
  destruct (if allow_sensitive_input_names (pol_rules p) then _ else _) as [v|] eqn:Es; [done|].
  intros Ha [Hb|Hb|url alt Hi Hb|n name label field token Hb Hn Hf Hin Ht Hs'|action label Hb Hd
    |action label class t Hb Hc Ht Hn|action label class t Hb Hc Ht Hn].
  - lia.
  - lia.
  - eapply first_violation_None in Em; [|done]. cbn in Em. apply Hb, media_violation_None. by case_match.
  - rewrite Hb in Es. eapply first_violation_None in Es; [|done]. by eapply sensitive_rule_None.
  - eapply first_violation_None in Ha; [|done]. apply action_rule_None in Ha as (H1 & _ & _). by rewrite H1 in Hd.
  - eapply first_violation_None in Ha; [|done]. apply action_rule_None in Ha as (_ & H1 & _). naive_solver.
  - eapply first_violation_None in Ha; [|done]. apply action_rule_None in Ha as (_ & _ & H1). naive_solver.
Qed.

Lemma broken_is_blocked p f rule : breaks p f rule → ∃ rule reason, evaluate p f = Ret (Block rule reason).
Proof.
  intros Hb. unfold evaluate. destruct (first_block p f) as [[]|] eqn:E; [eauto|]. by destruct (first_block_None p f rule E).
Qed.
Lemma hosted_floor_allows f : hosted_floor f = Allow ↔ ∀ n, n ∈ nodes f → is_control n = false.
Proof.
  unfold hosted_floor, is_interactive. destruct (existsb is_control (nodes f)) eqn:E.
  - apply existsb_elem in E as (n & Hn & Hc). split; [done|]. intros Hall. by rewrite Hall in Hc.
  - split; [|done]. intros _ n Hn. destruct (is_control n) eqn:Ec; [|done].
    assert (existsb is_control (nodes f) = true); [apply existsb_elem; eauto|congruence].
Qed.

(** C17: The guard refuses exactly what its rules forbid.  A frame that breaks a
    rule of the policy - too many nodes or levels, an image that is not of an
    allowed origin, an input that is named like a secret, a destructive action
    or one whose label belies its class - is blocked under a rule it breaks, and
    a frame that breaks none is not; and where no policy is configured, exactly
    the frames without a control pass. *)
Theorem verdicts_follow_the_rules (p : UiPolicy) (f : UiFrame) :
  (∀ rule reason, evaluate p f = Ret (Block rule reason) → breaks p f rule) ∧
  ((∃ rule, breaks p f rule) → ∃ rule reason, evaluate p f = Ret (Block rule reason)) ∧
  (hosted_floor f = Allow ↔ ∀ n, n ∈ nodes f → is_control n = false).
Proof.
  split_and!; [|intros [rule Hb]; by eapply broken_is_blocked|apply hosted_floor_allows].
  intros rule reason. unfold evaluate. destruct (first_block p f) as [[]|] eqn:E.
  { intros [= <- <-]. by eapply first_block_breaks. }
  destruct (redact_text_patterns _); [done|]. destruct (redact_node _ _) as [[r []]|]; done.
Qed.

(** *** Redaction *)

(** A node without the texts it displays. *)
Fixpoint skeleton (n : UiNode) : UiNode :=
  match n with
  | Column l => Column (map skeleton l)
  | Row l => Row (map skeleton l)
  | Card title l => Card title (map skeleton l)
  | Text _ style => Text "" style
  | Badge _ tone => Badge "" tone
  | KeyValue entries => KeyValue (map (λ e, {| kv_key := kv_key e; kv_value := "" |}) entries)
  | n => n
  end.

Lemma concat_collect_skeleton l : Forall (λ n, collect_nodes (skeleton n) = map skeleton (collect_nodes n)) l →
  concat (map collect_nodes (map skeleton l)) = map skeleton (concat (map collect_nodes l)).
Proof. induction 1 as [|n l Hn _ IH]; [done|]. cbn. by rewrite map_app, Hn, IH. Qed.
Lemma collect_nodes_skeleton n : collect_nodes (skeleton n) = map skeleton (collect_nodes n).
Proof.
  induction n as [n IH] using UiNode_tree_ind. apply concat_collect_skeleton in IH.
  destruct n; cbn in *; by rewrite ?IH.
Qed.
Lemma depth_of_skeleton n : depth_of (skeleton n) = depth_of n.
Proof.
  induction n as [n IH] using UiNode_tree_ind.
  assert (map depth_of (map skeleton (children_of n)) = map depth_of (children_of n)) as Hm.
  { rewrite map_map. by apply map_ext_Forall. }
  destruct n; cbn in *; by rewrite ?Hm.
Qed.

(** Walks that do not read the displayed texts see the same. *)
Lemma nodes_skeleton f f' : skeleton (root f') = skeleton (root f) → map skeleton (nodes f') = map skeleton (nodes f).
Proof. intros Hs. unfold nodes. by rewrite <-!collect_nodes_skeleton, Hs. Qed.
Lemma omap_skeleton {B} (g : UiNode → option B) l : (∀ n, g (skeleton n) = g n) → omap g (map skeleton l) = omap g l.
Proof. intros Hg. induction l as [|n l IH]; [done|]. cbn. by rewrite Hg, IH. Qed.
Lemma find_skeleton (g : UiNode → bool) l : (∀ n, g (skeleton n) = g n) → (∀ n, g n = true → skeleton n = n) →
  find g (map skeleton l) = find g l.
Proof. intros Hg Hn. induction l as [|n l IH]; [done|]. cbn. rewrite Hg. destruct (g n) eqn:E; [by rewrite Hn|done]. Qed.
Lemma check_required_skeleton d l : check_required d (map skeleton l) = check_required d l.
Proof. induction l as [|n l IH]; [done|]. cbn [map check_required]. rewrite IH. by destruct n. Qed.

Lemma same_decisions f f' d : skeleton (root f') = skeleton (root f) → validate_decision f' d = validate_decision f d.
Proof.
  intros Hs%nodes_skeleton. unfold validate_decision, declared.
  assert (actions f' = actions f) as ->.
  { unfold actions. rewrite <-(omap_skeleton button_of (nodes f')), <-(omap_skeleton button_of (nodes f)), Hs; [done|by intros []..]. }
  assert (∀ name, find_input f' name = find_input f name) as Hfind.
  { intros name. unfold find_input. rewrite <-(find_skeleton _ (nodes f')), <-(find_skeleton _ (nodes f)), Hs; [done|by intros []..]. }
  assert (∀ l, check_values f' l = check_values f l) as Hvals.
  { intros l. induction l as [|[name v] l IH]; [done|]. cbn. by rewrite Hfind, IH. }
  by rewrite Hvals, <-(check_required_skeleton d (nodes f')), <-(check_required_skeleton d (nodes f)), Hs.
Qed.

Section redaction.
Context (patterns : list string).

Fixpoint redact_all (l : list UiNode) : outcome (list UiNode * bool) :=
  match l with
  | [] => Ret ([], false)
  | child :: l =>
    '(child, hit) ← redact_node patterns child;
    '(l, hits) ← redact_all l;
    Ret (child :: l, hit || hits)
  end.
Lemma redact_layout l :
  redact_node patterns (Column l) = ('(l, hit) ← redact_all l; Ret (Column l, hit)) ∧
  redact_node patterns (Row l) = ('(l, hit) ← redact_all l; Ret (Row l, hit)) ∧
  ∀ title, redact_node patterns (Card title l) = ('(l, hit) ← redact_all l; Ret (Card title l, hit)).
Proof. done. Qed.

Lemma outcome_bind_Ret {A B} (m : outcome A) (k : A → outcome B) b :
  m ≫= k = Ret b ↔ ∃ a, m = Ret a ∧ k a = Ret b.
Proof. destruct m; cbn; naive_solver. Qed.

Lemma str_app_nonempty a b : a ≠ "" ∨ b ≠ "" → a +:+ b ≠ "".
Proof. destruct a, b; naive_solver. Qed.
Lemma chars_nonempty s : s ≠ "" → chars s ≠ [].
Proof. intros Hs Hc. pose proof (chars_head s) as Hh. by rewrite Hc in Hh. Qed.
Lemma scrub_pattern_nonempty fuel pattern rest from text hit text' hit' : pattern ≠ "" → text ≠ "" →
  scrub_pattern fuel pattern rest from text hit = Ret (text', hit') → text' ≠ "".
Proof.
  intros Hp. revert rest from text hit. induction fuel as [|fuel IH]; intros rest from text hit Ht; cbn; [by intros [= <- <-]|].
  destruct (split_once pattern rest) as [[before after]|]; [|by intros [= <- <-]].
  intros (t & Hr & Hs)%outcome_bind_Ret. eapply IH; [|done]. unfold replace_range in Hr. case_match; [|done]. injection Hr as <-.
  apply str_app_nonempty. right. apply str_app_nonempty. left.
  destruct (chars pattern) eqn:E; [by destruct (chars_nonempty pattern)|done].
Qed.
Lemma scrub_nonempty l lower text hit text' hit' : text ≠ "" → scrub l lower text hit = Ret (text', hit') → text' ≠ "".
Proof.
  revert text hit. induction l as [|pattern l IH]; intros text hit Ht; cbn; [by intros [= <- <-]|].
  destruct (is_empty (to_lowercase pattern)) eqn:E; [by apply IH|]. apply is_empty_false in E.
  intros ([t h] & Hs & Hrest)%outcome_bind_Ret. eapply IH; [|done].
  exact (scrub_pattern_nonempty _ _ _ _ _ _ _ _ E Ht Hs).
Qed.
Lemma scrub_entries_keys entries entries' hit : scrub_entries patterns entries = Ret (entries', hit) →
  map kv_key entries' = map kv_key entries.
Proof.
  revert entries' hit. induction entries as [|e entries IH]; intros entries' hit; cbn; [by intros [= <- _]|].
  intros ([v h] & _ & ([es hs] & He & [= <- _])%outcome_bind_Ret)%outcome_bind_Ret. cbn. f_equal. by eapply IH.
Qed.

(** What redaction leaves: the skeleton, and well-formed nodes well formed. *)
Definition redacts (n n' : UiNode) : Prop :=
  skeleton n' = skeleton n ∧ (Forall node_ok (collect_nodes n) → Forall node_ok (collect_nodes n')).

Lemma redact_all_redacts l l' hit :
  Forall (λ n, ∀ n' hit, redact_node patterns n = Ret (n', hit) → redacts n n') l →
  redact_all l = Ret (l', hit) →
  map skeleton l' = map skeleton l ∧ (Forall node_ok (collect_all l) → Forall node_ok (collect_all l')).
Proof.
  intros Hall. revert l' hit. induction Hall as [|n l Hn _ IH]; intros l' hit; cbn; [by intros [= <- _]|].
  intros ([n1 h1] & [Hs1 Ho1]%Hn & ([l1 h2] & [Hs2 Ho2]%IH & [= <- _])%outcome_bind_Ret)%outcome_bind_Ret. cbn [map].
  rewrite Hs1, Hs2. split; [done|]. rewrite !collect_all_cons, !Forall_app. naive_solver.
Qed.
Lemma redact_node_redacts n : ∀ n' hit, redact_node patterns n = Ret (n', hit) → redacts n n'.
Proof.
  induction n as [n IH] using UiNode_tree_ind. intros n' hit.
  assert (∀ l' hit, redact_all (children_of n) = Ret (l', hit) → _) as Hc by (intros l' h; apply redact_all_redacts; exact IH).
  destruct n; cbn [children_of] in Hc; unfold redacts;
    try (intros [= <- _]; by split);
    try (rewrite ?(proj1 (redact_layout _)), ?(proj1 (proj2 (redact_layout _))), ?(proj2 (proj2 (redact_layout _)));
         intros ([l' h] & [Hs Ho]%Hc & [= <- _])%outcome_bind_Ret; cbn; rewrite Hs; split; [done|];
         rewrite !Forall_cons; naive_solver).
  - intros ([t h] & Ht & [= <- _])%outcome_bind_Ret. split; [done|]. cbn. rewrite !Forall_singleton. cbn.
    intros Hne. exact (scrub_nonempty _ _ _ _ _ _ Hne Ht).
  - intros ([t h] & Ht & [= <- _])%outcome_bind_Ret. split; [done|]. cbn. rewrite !Forall_singleton. cbn.
    intros Hne. exact (scrub_nonempty _ _ _ _ _ _ Hne Ht).
  - intros ([es h] & Hk%scrub_entries_keys & [= <- _])%outcome_bind_Ret. cbn. rewrite !Forall_singleton. cbn. split.
    + f_equal. transitivity (map (λ k, {| kv_key := k; kv_value := "" |}) (map kv_key es)); [by rewrite map_map|].
      by rewrite Hk, map_map.
    + by destruct entries, es.
Qed.
End redaction.

Lemma same_node f f' n : skeleton (root f') = skeleton (root f) → n ∈ nodes f' → (∀ m, skeleton m = skeleton n → m = n) →
  n ∈ nodes f.
Proof.
  intros Hs%nodes_skeleton Hn Hm. apply (list_elem_of_fmap_2 skeleton) in Hn. change (fmap ?g ?l) with (map g l) in Hn.
  rewrite Hs in Hn. apply list_elem_of_fmap in Hn as (m & Heq & Hin). by rewrite <-(Hm m).
Qed.
Lemma same_names {B} (g : UiNode → option B) f f' : skeleton (root f') = skeleton (root f) → (∀ n, g (skeleton n) = g n) →
  omap g (nodes f') = omap g (nodes f).
Proof. intros Hs%nodes_skeleton Hg. by rewrite <-(omap_skeleton g (nodes f')), <-(omap_skeleton g (nodes f)), Hs. Qed.
Lemma same_size f f' : skeleton (root f') = skeleton (root f) →
  length (nodes f') = length (nodes f) ∧ depth_of (root f') = depth_of (root f).
Proof.
  intros Hs. split; [|by rewrite <-(depth_of_skeleton (root f')), <-(depth_of_skeleton (root f)), Hs].
  apply nodes_skeleton in Hs. by rewrite <-(length_map skeleton (nodes f')), <-(length_map skeleton (nodes f)), Hs.
Qed.
Lemma same_breaks p f f' rule : skeleton (root f') = skeleton (root f) → breaks p f' rule → breaks p f rule.
Proof.
  intros Hs. destruct (same_size _ _ Hs) as [Hl Hd].
  assert (actions f' = actions f) as Ha by (apply same_names; [done|by intros []]).
  intros [Hb|Hb|url alt Hi Hb|n name label field token Hb Hn Hf Hin Ht Hs'|action label Hb Hdes
    |action label class t Hb Hc Ht Hn|action label class t Hb Hc Ht Hn]; rewrite ?Ha, ?Hl, ?Hd in *; eauto using breaks.
  - eapply foreign_image; [|done]. eapply same_node; [done..|]. by intros [].
  - eapply asks_for_secrets; [done| |done..]. eapply same_node; [done..|]. by destruct n; try done; intros [].
Qed.

Lemma evaluate_redacts p f f' fired : evaluate p f = Ret (Redact f' fired) →
  skeleton (root f') = skeleton (root f) ∧ f' = with_root f (root f') ∧ (frame_ok f → frame_ok f') ∧
  ∀ rule, ¬ breaks p f' rule.
Proof.
  unfold evaluate. destruct (first_block p f) as [[]|] eqn:Eb; [done|].
  destruct (redact_text_patterns (pol_rules p)) as [|pattern patterns]; [done|].
  intros ([r hit] & [Hs Ho]%redact_node_redacts & Hr)%outcome_bind_Ret. destruct hit; [|done]. injection Hr as <- <-.
  assert (skeleton (root (with_root f r)) = skeleton (root f)) as Hs' by done. split_and!; [done|done| |].
  - intros (? & ? & Hf & ? & ? & ?). destruct (same_size _ _ Hs') as [Hl Hd].
    unfold frame_ok, input_names_of, action_ids_of. rewrite Hl, Hd, !(same_names _ f (with_root f r)) by (done || by intros []).
    split_and!; try done. by apply Ho.
  - intros rule Hb%(same_breaks p f); [|done]. by eapply first_block_None.
Qed.

(** C19: Redaction changes nothing a person acts on.  Where the guard answers a
    redacted frame, the frame has the tree of the original - the same layout,
    images, inputs and actions in the same places, only displayed texts differ -
    so it takes exactly the same decisions, is accepted where the original was,
    and breaks no rule either. *)
Theorem redaction_keeps_the_controls (p : UiPolicy) (f f' : UiFrame) fired :
  evaluate p f = Ret (Redact f' fired) →
  skeleton (root f') = skeleton (root f) ∧ (∀ d, validate_decision f' d = validate_decision f d) ∧
  (frame_ok f → frame_ok f') ∧ schema_version f' = schema_version f ∧
  ∀ rule, ¬ breaks p f' rule.
Proof.
  intros (Hs & Hf & Hok & Hb)%evaluate_redacts. split_and!; [done| |done|by rewrite Hf|done].
  intros d. by apply same_decisions.
Qed.
End rules.

(** ** Equality is decidable *)

(** The library's decision for options does not compute. *)
#[export] Instance option_dec {A} `{EqDecision A} : EqDecision (option A).
Proof.
  intros [a|] [b|]; [|by right|by right|by left]. destruct (decide (a = b)) as [->|]; [by left|right; congruence].
Defined.
#[export] Instance Provenance_eq_dec : EqDecision Provenance.
Proof. solve_decision. Defined.
#[export] Instance TextStyle_eq_dec : EqDecision TextStyle.
Proof. solve_decision. Defined.
#[export] Instance Tone_eq_dec : EqDecision Tone.
Proof. solve_decision. Defined.
#[export] Instance KeyValueEntry_eq_dec : EqDecision KeyValueEntry.
Proof. solve_decision. Defined.
#[export] Instance SelectOption_eq_dec : EqDecision SelectOption.
Proof. solve_decision. Defined.
(** Decides the last arguments in which two applications differ. *)
Ltac compare_last l r :=
  match l with ?f ?a =>
    match r with ?g ?b =>
      first [constr_eq a b; compare_last f g | destruct (decide (a = b)) as [->|]; [|right; congruence]]
    end
  end.
#[export] Instance UiNode_eq_dec : EqDecision UiNode.
Proof.
  unfold EqDecision, Decision. fix go 1. intros a b.
  assert (∀ l l' : list UiNode, {l = l'} + {l ≠ l'}) as Hl.
  { fix gol 1. intros [|x l] [|y l']; [by left|by right|by right|].
    destruct (go x y) as [->|]; [|right; congruence]. destruct (gol l l') as [->|]; [by left|right; congruence]. }
  destruct a, b; try (by right); try (by left);
    try match goal with
    | |- {Column ?l = Column ?l'} + {_} => destruct (Hl l l') as [->|]; [by left|right; congruence]
    | |- {Row ?l = Row ?l'} + {_} => destruct (Hl l l') as [->|]; [by left|right; congruence]
    | |- {Card ?t ?l = Card ?t' ?l'} + {_} =>
      destruct (Hl l l') as [->|]; [|right; congruence]; destruct (decide (t = t')) as [->|]; [by left|right; congruence]
    end;
    clear go Hl; repeat match goal with |- {?l = ?r} + {_} => compare_last l r end; by left.
Defined.
#[export] Instance UiFrame_eq_dec : EqDecision UiFrame.
Proof. solve_decision. Defined.

(** ** What the guard lets through, and concrete frames *)

(** The tables of Unicode for texts in ASCII. *)
Definition ascii_tables : Unicode := {|
  is_alphanumeric := char_sat is_ascii_alphanumeric; to_lowercase := to_ascii_lowercase |}.

(** A pattern that occurs twice: the first mask takes more bytes than what it
    covers, the second occurrence is then looked for where it no longer is, and
    the text is cut between [char]s or elsewhere. *)
Lemma second_occurrence_panics : let H := ascii_tables in scrub_text ["key"] "key key" = Stop Panicked.
Proof. reflexivity. Qed.
Lemma second_occurrence_is_shown : let H := ascii_tables in
  scrub_text ["key"] "key = 0123456789; key = 42" = Ret ("███ = 012345███9; key = 42", true).
Proof. vm_compute. reflexivity. Qed.

(** The host is read up to the first colon, but what stands before an at sign is
    no host: the image is of [evil.test]. *)
Lemma user_part_spoofs_the_origin : let H := ascii_tables in
  media_violation "https://cdn.example.com:x@evil.test/a.png" ["cdn.example.com"] = None.
Proof. reflexivity. Qed.
(** A browser ends the host at a backslash too. *)
Lemma backslash_spoofs_the_origin : let H := ascii_tables in
  media_violation "https://evil.test\.example.org/a.png" [".example.org"] = None.
Proof. reflexivity. Qed.

Definition default_policy : UiPolicy := {| pol_name := "default"; pol_version := 1; pol_rules := PolicyRules_default |}.
Definition form (input : UiNode) : UiFrame := {|
  schema_version := "1.0.0"; frame_title := None; provenance := Provenance_default;
  root := Column [Text "Order 4711 at acme" Body; input; Button "ok" "Continue" Submit; Button "no" "Not now" Cancel] |}.

(** Secrets asked for in other words than the tokens: in one word of two, in two
    words of one, or in the placeholder. *)
Lemma other_words_ask_for_secrets : let H := ascii_tables in
  evaluate default_policy (form (TextInput "cardNumber" "Your creditCard" None true false)) = Ret Allow ∧
  evaluate default_policy (form (TextInput "api_key" "API key" None true false)) = Ret Allow ∧
  evaluate default_policy (form (TextInput "answer" "Answer" (Some "your password") true false)) = Ret Allow ∧
  ∃ reason, evaluate default_policy (form (TextInput "card_number" "Number" None true false)) =
    Ret (Block rules.SENSITIVE_INPUT reason).
Proof. vm_compute. eauto. Qed.

Definition quantity : UiNode := NumberInput "quantity" "Quantity" (Some f64_one) (Some (f64_of_Z 10)) true.
Lemma quantity_form_ok : frame_ok (form quantity).
Proof.
  unfold frame_ok, input_names_of, action_ids_of, MAX_NODES, MAX_DEPTH. cbn. split_and!; try lia; try done.
  - repeat constructor; done.
  - apply NoDup_singleton.
  - apply NoDup_cons. split; [by intros ?%list_elem_of_singleton|apply NoDup_singleton].
Qed.
Definition order (quantity : Z) : UiDecision := {| d_action := "ok"; d_values := {["quantity" := json_u64 quantity]} |}.

Lemma decisions_are_accepted_iff_declared_witness :
  (validate_decision (form quantity) (order 3) = Ok () ∧
   validate_decision (form quantity) {| d_action := "no"; d_values := ∅ |} = Ok () ∧
   validate_decision (form quantity) (order 11) ≠ Ok () ∧
   validate_decision (form quantity) {| d_action := "ok"; d_values := ∅ |} ≠ Ok ()) ∧
  ∃ label class, ("ok", label, class) ∈ actions (form quantity).
Proof.
  split; [by vm_compute|].
  destruct (proj1 (decisions_are_accepted_iff_declared (form quantity) (order 3) quantity_form_ok)) as (label & class & Hin & _);
    [by vm_compute|]. by exists label, class.
Defined.

Definition hiding (pattern : string) : UiPolicy := {| pol_name := "hiding"; pol_version := 2; pol_rules := {|
  max_nodes := 8; max_depth := 2; allow_destructive_actions := false; allow_sensitive_input_names := false;
  sensitive_input_tokens := []; allowed_media_origins := []; redact_text_patterns := [pattern] |} |}.
Definition hidden_form : UiFrame :=
  with_root (form quantity)
    (Column [Text "Order 4711 at ████" Body; quantity; Button "ok" "Continue" Submit; Button "no" "Not now" Cancel]).

Lemma redaction_keeps_the_controls_witness : let H := ascii_tables in
  evaluate (hiding "ACME") (form quantity) = Ret (Redact hidden_form [rules.REDACT_TEXT]) ∧
  validate_decision hidden_form (order 3) = validate_decision (form quantity) (order 3).
Proof.
  cbv zeta. assert (@evaluate ascii_tables (hiding "ACME") (form quantity) = Ret (Redact hidden_form [rules.REDACT_TEXT])) as He
    by (vm_compute; reflexivity).
  split; [done|]. by apply (@redaction_keeps_the_controls ascii_tables _ _ _ _ He).
Defined.
