(* ===== verification/Ui.v ===== *)
(** * The generated-interface runtime

    [crates/wovyr-server/src/ui.rs] and [crates/wovyr-tools/src/ui_present.rs]:
    frames are judged, kept pending, shown to their tenant, and decided.  The
    workflow ports resolve a definition and deliver a signal; the texts of the
    stores and policies are the libraries'.  Calls of the operating system
    succeed where they write, and a policy file may be absent or unreadable;
    an operation reads the clock once, and is given the reading. *)
From stdpp Require Import base tactics list numbers strings gmap sorting.
From Stdlib Require Import Lia ZArith Ascii SpecFloat.
From S2P Require Import Prelude.
From S2P Require Import RustStr.
From S2P Require Import F64.
From S2P Require Import Common.
From S2P Require Import JsonValue.
From S2P Require Import Effect.
From S2P Require Import Executor.
From S2P Require Import AuditLog.
From S2P Require Import AuditInv.
From S2P Require Import Events.
From S2P Require Import Tenancy.
From S2P Require Import TenancyInv.
From S2P Require Import Http.
From S2P Require Import TenantRoutes.
From S2P Require Import TenantRoutesInv.
From S2P Require Import ToolRegistry.
From S2P Require Import Frame.
Local Open Scope Z_scope.

(** ** The stores *)

Record PendingFrame := {
  pf_frame_id : string;
  pf_tenant : string;
  pf_execution_id : option string;
  pf_activity_id : option string;
  pf_frame : Value;
  pf_frame_hash : string;
  pf_policy_ref : string;
  pf_created_at_ms : Z;
}.

Class PendingSerde := {
  pending_to_bytes : list PendingFrame → string + string;
  pending_of_bytes : string → string + list PendingFrame;
}.

(** First presented first, the id deciding between equals. *)
Definition presented_before (a b : PendingFrame) : Prop :=
  pf_created_at_ms a < pf_created_at_ms b ∨
  pf_created_at_ms a = pf_created_at_ms b ∧ String.le (pf_frame_id a) (pf_frame_id b).
#[export] Instance presented_before_dec : RelDecision presented_before.
Proof. intros a b. unfold presented_before. apply _. Defined.

Module UiFrameStore.
Section store.
Context `{PendingSerde}.

(** The frames by id; without a file, or with one that exists or not yet. *)
Record t := { inner : gmap string PendingFrame; file : option (option string) }.

Definition new (file : option (option string)) : t := {|
  inner :=
    match file with
    | Some (Some bytes) =>
      match pending_of_bytes bytes with
      | inr frames => foldl (λ m f, <[pf_frame_id f := f]> m) ∅ frames
      | inl _ => ∅
      end
    | _ => ∅
    end;
  file := file |}.

(** A text that does not encode is logged, and the file stays as it was. *)
Definition persist (m : gmap string PendingFrame) (file : option (option string)) : option (option string) :=
  match file with
  | None => None
  | Some old =>
    match pending_to_bytes (map snd (btree_iter m)) with
    | inr bytes => Some (Some bytes)
    | inl _ => Some old
    end
  end.

Definition upsert (frame : PendingFrame) (s : t) : t * bool :=
  let fresh := match inner s !! pf_frame_id frame with
               | Some existing => negb (String.eqb (pf_frame_hash existing) (pf_frame_hash frame))
               | None => true
               end in
  if fresh then
    let m := <[pf_frame_id frame := frame]> (inner s) in
    ({| inner := m; file := persist m (file s) |}, true)
  else (s, false).

Definition get (frame_id : string) (s : t) : option PendingFrame := inner s !! frame_id.

Definition remove (frame_id : string) (s : t) : t * option PendingFrame :=
  match inner s !! frame_id with
  | Some f => let m := delete frame_id (inner s) in ({| inner := m; file := persist m (file s) |}, Some f)
  | None => (s, None)
  end.

Definition list_of (tenant : string) (s : t) : list PendingFrame :=
  merge_sort presented_before
    (List.filter (λ f, String.eqb (pf_tenant f) tenant) (map snd (btree_iter (inner s)))).
End store.
End UiFrameStore.

Record DecidedOutcome := {
  do_frame_id : string;
  do_tenant : string;
  do_action : string;
  do_values : gmap string Value;
  do_decided_by : string;
  do_decided_at_ms : Z;
  do_frame_hash : string;
}.

Definition MAX_DECIDED_OUTCOMES : Z := 10000.

Module DecidedOutcomeStore.
Record t := { entries : gmap string DecidedOutcome; order : list string; max_entries : Z }.
Definition new (max_entries : Z) : t := {| entries := ∅; order := []; max_entries := max_entries |}.

(** The oldest go first. *)
Fixpoint evict (max_entries : Z) (order : list string) (entries : gmap string DecidedOutcome)
    : list string * gmap string DecidedOutcome :=
  match order with
  | oldest :: rest =>
    if Z.ltb max_entries (Z.of_nat (length order)) then evict max_entries rest (delete oldest entries)
    else (order, entries)
  | [] => ([], entries)
  end.
Definition record (outcome : DecidedOutcome) (s : t) : t :=
  let order := match entries s !! do_frame_id outcome with
               | None => order s ++ [do_frame_id outcome]
               | Some _ => order s
               end in
  let '(order, entries) := evict (max_entries s) order (<[do_frame_id outcome := outcome]> (entries s)) in
  {| entries := entries; order := order; max_entries := max_entries s |}.
Definition get (frame_id : string) (s : t) : option DecidedOutcome := entries s !! frame_id.
End DecidedOutcomeStore.

(** ** The runtime *)

Inductive PolicySource := Unrestricted | Floor | ByPolicy (p : UiPolicy).

(** What the directory holds under a file name: a text, or a file that cannot be
    read. *)
Abbreviation PolicyDir := (gmap string (string + string)) (only parsing).

Record UiRuntime (K : Type) := {
  ui_frames : UiFrameStore.t;
  ui_policies : gmap string UiPolicy;
  ui_policies_dir : option PolicyDir;
  ui_default_policy : option UiPolicy;
  ui_unrestricted : bool;
  ui_audit : AuditStore K;
  ui_decisions : DecidedOutcomeStore.t;
  ui_standalone_seq : Z;
}.
Arguments ui_frames {K} _.
Arguments ui_policies {K} _.
Arguments ui_policies_dir {K} _.
Arguments ui_default_policy {K} _.
Arguments ui_unrestricted {K} _.
Arguments ui_audit {K} _.
Arguments ui_decisions {K} _.
Arguments ui_standalone_seq {K} _.
Arguments Build_UiRuntime {K} _ _ _ _ _ _ _ _.

Inductive PresentError :=
  | PresentInvalid (msg : string)
  | PolicyResolution (e : Error)
  | Blocked (rule : string).

Definition into_activity_error (e : PresentError) (activity_id : string) : ActivityError :=
  Permanent match e with
  | PresentInvalid msg => "activity `" +:+ activity_id +:+ "`: invalid ui frame (" +:+ msg +:+ ")"
  | PolicyResolution err =>
    "activity `" +:+ activity_id +:+ "`: ui policy resolution failed (" +:+ error_display err +:+ "); failing closed"
  | Blocked rule => "activity `" +:+ activity_id +:+ "`: ui frame blocked by policy rule `" +:+ rule +:+ "`"
  end.
Definition into_api_error (e : PresentError) : ApiError :=
  match e with
  | PresentInvalid msg => ApiError_new 400 "validation_failed" msg
  | PolicyResolution err => ApiError_new 500 "internal_error" (error_display err)
  | Blocked rule => ApiError_new 403 "blocked" ("ui frame blocked by policy rule `" +:+ rule +:+ "`")
  end.

Definition execution_id_of (ctx : ActivityContext) : option string :=
  v ← ctx_variables ctx !! "__execution_id"; as_str v.

(** A handle of eight bytes of a hash. *)
Definition handle `{AuditCrypto} (text : string) : string :=
  "uif-" +:+ hex_lower (String.substring 0 8 (sha256 text)).
Definition unit_separator : string := String "031" "".
Definition frame_id_for `{AuditCrypto} (execution_id activity_id : string) : string :=
  handle (execution_id +:+ unit_separator +:+ activity_id).
Definition frame_id_for_standalone `{AuditCrypto} (tenant : string) (seq : Z) (content_hash : string) : string :=
  handle (tenant +:+ unit_separator +:+ le_bytes 8 seq +:+ unit_separator +:+ content_hash).

Definition sanitize `{Unicode} (tenant : string) : string :=
  text_of (map (λ c, if is_alphanumeric c || String.eqb c "-" || String.eqb c "_" then c else "_") (chars tenant)).

Section runtime.
Context {K V : Type} `{AuditSink K, AuditCrypto, AuditSerde, SemVersion V, UiSerde, PendingSerde, PolicyYaml, Unicode}.
Context (log : AuditLog).

Abbreviation W := (UiRuntime K) (only parsing).

(** From the environment: the stored frames and the policy directory, the text
    of the file [WOVYR_UI_POLICY] names where it can be read, and the value of
    [WOVYR_UNRESTRICTED_UI]. *)
Definition ui_from_env (stored : option (option string)) (dir : option PolicyDir) (policy_file : option string)
    (unrestricted : option string) (audit : AuditStore K) : W := {|
  ui_frames := UiFrameStore.new stored;
  ui_policies := ∅;
  ui_policies_dir := dir;
  ui_default_policy :=
    match policy_file with
    | Some yaml => match policy_from_yaml yaml with Ok p => Some p | Err _ => None end
    | None => None
    end;
  ui_unrestricted := match unrestricted with Some v => String.eqb v "1" | None => false end;
  ui_audit := audit;
  ui_decisions := DecidedOutcomeStore.new MAX_DECIDED_OUTCOMES;
  ui_standalone_seq := 0 |}.
Definition ui_in_memory (audit : AuditStore K) : W := {|
  ui_frames := UiFrameStore.new None; ui_policies := ∅; ui_policies_dir := None; ui_default_policy := None;
  ui_unrestricted := false; ui_audit := audit; ui_decisions := DecidedOutcomeStore.new MAX_DECIDED_OUTCOMES;
  ui_standalone_seq := 0 |}.

Definition set_frames (s : UiFrameStore.t) (w : W) : W := {|
  ui_frames := s; ui_policies := ui_policies w; ui_policies_dir := ui_policies_dir w;
  ui_default_policy := ui_default_policy w; ui_unrestricted := ui_unrestricted w; ui_audit := ui_audit w;
  ui_decisions := ui_decisions w; ui_standalone_seq := ui_standalone_seq w |}.
Definition set_decisions (d : DecidedOutcomeStore.t) (w : W) : W := {|
  ui_frames := ui_frames w; ui_policies := ui_policies w; ui_policies_dir := ui_policies_dir w;
  ui_default_policy := ui_default_policy w; ui_unrestricted := ui_unrestricted w; ui_audit := ui_audit w;
  ui_decisions := d; ui_standalone_seq := ui_standalone_seq w |}.
Definition set_audit (a : AuditStore K) (w : W) : W := {|
  ui_frames := ui_frames w; ui_policies := ui_policies w; ui_policies_dir := ui_policies_dir w;
  ui_default_policy := ui_default_policy w; ui_unrestricted := ui_unrestricted w; ui_audit := a;
  ui_decisions := ui_decisions w; ui_standalone_seq := ui_standalone_seq w |}.
Definition set_seq (n : Z) (w : W) : W := {|
  ui_frames := ui_frames w; ui_policies := ui_policies w; ui_policies_dir := ui_policies_dir w;
  ui_default_policy := ui_default_policy w; ui_unrestricted := ui_unrestricted w; ui_audit := ui_audit w;
  ui_decisions := ui_decisions w; ui_standalone_seq := n |}.
Definition set_tenant_policy (tenant : string) (policy : UiPolicy) (w : W) : W := {|
  ui_frames := ui_frames w; ui_policies := <[tenant := policy]> (ui_policies w); ui_policies_dir := ui_policies_dir w;
  ui_default_policy := ui_default_policy w; ui_unrestricted := ui_unrestricted w; ui_audit := ui_audit w;
  ui_decisions := ui_decisions w; ui_standalone_seq := ui_standalone_seq w |}.

Definition policy_for (tenant : string) (w : W) : result PolicySource :=
  if ui_unrestricted w then Ok Unrestricted
  else
    match ui_policies w !! tenant with
    | Some p => Ok (ByPolicy p)
    | None =>
      let fallback := match ui_default_policy w with Some p => ByPolicy p | None => Floor end in
      match ui_policies_dir w with
      | None => Ok fallback
      | Some dir =>
        match dir !! (sanitize tenant +:+ ".yaml") with
        | Some (inr yaml) => p ← policy_from_yaml yaml; Ok (ByPolicy p)
        | Some (inl e) => Err (Config ("ui policy for tenant `" +:+ tenant +:+ "` is unreadable: " +:+ e))
        | None => Ok fallback
        end
      end
    end.

(** A record that fails is logged. *)
Definition record_audit (event : AuditEvent) : M W () :=
  modify (λ w, set_audit (record log event (ui_audit w)).1 w).
Definition system_event (now : Z) (tenant action resource_id : string) : AuditEvent :=
  with_actor_type System (AuditEvent_new now "wovyr-ui" tenant action "ui_frame" resource_id).

(** The verdict of a source and the reference that is stored with it. *)
Definition verdict_of (source : PolicySource) (frame : UiFrame) : outcome Verdict :=
  match source with
  | Unrestricted => Ret Allow
  | Floor => Ret (hosted_floor frame)
  | ByPolicy p => evaluate p frame
  end.
Definition reference_of (source : PolicySource) : string :=
  match source with
  | Unrestricted => "unrestricted"
  | Floor => "hosted-floor"
  | ByPolicy p => reference p
  end.

Definition judge_frame (now : Z) (tenant : string) (frame_value : Value) (audit_id : string)
    (stamp : UiFrame → UiFrame) : M W (PresentError + UiFrame * string) :=
  match from_value frame_value with
  | Err e =>
    _ ← record_audit (denied ("protocol validation failed: " +:+ error_display e)
                        (system_event now tenant "ui.frame.reject" audit_id));
    mret (inl (PresentInvalid (error_display e)))
  | Ok frame =>
    let frame := stamp frame in
    source ← gets (policy_for tenant);
    match source with
    | Err e => mret (inl (PolicyResolution e))
    | Ok source =>
      verdict ← lift (verdict_of source frame);
      match verdict with
      | Allow => mret (inr (frame, reference_of source))
      | Redact frame _ => mret (inr (frame, reference_of source))
      | Block rule reason =>
        _ ← record_audit (denied ("policy `" +:+ reference_of source +:+ "` rule `" +:+ rule +:+ "`: " +:+ reason)
                            (system_event now tenant "ui.frame.block" audit_id));
        mret (inl (Blocked rule))
      end
    end
  end.

Definition stamp_provenance (execution_id activity_id : string) (frame : UiFrame) : UiFrame := {|
  schema_version := schema_version frame; frame_title := frame_title frame;
  provenance := {| pv_execution_id := Some execution_id; pv_activity_id := Some activity_id;
                   pv_run_id := pv_run_id (provenance frame); pv_model_id := pv_model_id (provenance frame);
                   pv_prompt_ref := pv_prompt_ref (provenance frame) |};
  root := root frame |}.

Definition frames_remove (frame_id : string) : M W (option PendingFrame) := λ w,
  let '(s, f) := UiFrameStore.remove frame_id (ui_frames w) in (set_frames s w, Ret f).
Definition frames_upsert (f : PendingFrame) : M W bool := λ w,
  let '(s, fresh) := UiFrameStore.upsert f (ui_frames w) in (set_frames s w, Ret fresh).

(** The [ui] activity. *)
Definition execute_ui_activity (now : Z) (ctx : ActivityContext) : M W (ActivityError + Value) :=
  let injected := match ctx_variables ctx !! ctx_id ctx with
                  | Some d => Some d
                  | None => ctx_variables ctx !! ("event." +:+ ctx_id ctx)
                  end in
  match injected with
  | Some decision =>
    _ ← match execution_id_of ctx with
        | Some execution_id => _ ← frames_remove (frame_id_for execution_id (ctx_id ctx)); mret ()
        | None => mret ()
        end;
    mret (inr decision)
  | None =>
    match execution_id_of ctx with
    | None =>
      mret (inl (Permanent ("activity `" +:+ ctx_id ctx +:+ "`: no `__execution_id` variable — `ui` activities need "
                            +:+ "the engine-stamped execution id to key their pending decision")))
    | Some execution_id =>
      let tenant := default DEFAULT_TENANT (v ← ctx_variables ctx !! "__tenant"; as_str v) in
      let frame_id := frame_id_for execution_id (ctx_id ctx) in
      match value_get "frame" (ctx_inputs ctx) with
      | None =>
        mret (inl (Permanent ("activity `" +:+ ctx_id ctx +:+ "`: `ui` activities require `inputs.frame` (a UiFrame document)")))
      | Some frame_value =>
        judged ← judge_frame now tenant frame_value frame_id (stamp_provenance execution_id (ctx_id ctx));
        match judged with
        | inl e => mret (inl (into_activity_error e (ctx_id ctx)))
        | inr (final_frame, policy_ref) =>
          let frame_hash := content_hash final_frame in
          match frame_to_json final_frame with
          | inl e =>
            mret (inl (Permanent ("activity `" +:+ ctx_id ctx +:+ "`: failed to serialize validated frame (" +:+ e +:+ ")")))
          | inr frame_json =>
            let presented := record_audit (system_event now tenant "ui.frame.present" (frame_id +:+ ":" +:+ frame_hash)) in
            match actions final_frame with
            | [] =>
              _ ← presented;
              mret (inr (Object [("frame_id", Str frame_id); ("frame_hash", Str frame_hash); ("frame", frame_json);
                                 ("presented", Bool true)]))
            | _ =>
              fresh ← frames_upsert {| pf_frame_id := frame_id; pf_tenant := tenant;
                        pf_execution_id := Some execution_id; pf_activity_id := Some (ctx_id ctx);
                        pf_frame := frame_json; pf_frame_hash := frame_hash; pf_policy_ref := policy_ref;
                        pf_created_at_ms := now |};
              _ ← (if fresh : bool then presented else mret ());
              mret (inl (Interrupted ("activity `" +:+ ctx_id ctx +:+ "` is awaiting a ui decision (frame `"
                                      +:+ frame_id +:+ "`)")))
            end
          end
        end
      end
    end
  end.

Definition present_standalone (now : Z) (tenant : string) (frame_value : Value)
    : M W (PresentError + PendingFrame) :=
  seq ← gets ui_standalone_seq;
  _ ← modify (set_seq (u64_wrapping_add seq 1));
  let audit_id := "standalone:" +:+ tenant +:+ ":" +:+ show_Z seq in
  judged ← judge_frame now tenant frame_value audit_id (λ frame, frame);
  match judged with
  | inl e => mret (inl e)
  | inr (final_frame, policy_ref) =>
    let frame_hash := content_hash final_frame in
    let frame_id := frame_id_for_standalone tenant seq frame_hash in
    match frame_to_json final_frame with
    | inl e => mret (inl (PresentInvalid ("failed to serialize validated frame: " +:+ e)))
    | inr frame_json =>
      let pending := {| pf_frame_id := frame_id; pf_tenant := tenant; pf_execution_id := None; pf_activity_id := None;
                        pf_frame := frame_json; pf_frame_hash := frame_hash; pf_policy_ref := policy_ref;
                        pf_created_at_ms := now |} in
      _ ← frames_upsert pending;
      _ ← record_audit (system_event now tenant "ui.frame.present" (frame_id +:+ ":" +:+ frame_hash));
      mret (inr pending)
    end
  end.
End runtime.

(** ** The routes and the executor *)

(** What the routes ask of the workflow runner and the engine. *)
Class UiWorkflows (F D : Type) := {
  resolve_definition : string → F → F * (ApiError + D);
  signal_event : D → string → string → Value → F → F * result ();
}.

(** The part of the application state of these routes; its audit log is the
    runtime's. *)
Record UiState (T K F : Type) := { us_tenancy : T; us_ui : UiRuntime K; us_workflows : F }.
Arguments us_tenancy {T K F} _.
Arguments us_ui {T K F} _.
Arguments us_workflows {T K F} _.
Arguments Build_UiState {T K F} _ _ _.

Definition opt_str (o : option string) : Value := match o with Some s => Str s | None => Null end.
Definition frame_body (f : PendingFrame) : Value :=
  Object [("frame_id", Str (pf_frame_id f)); ("execution_id", opt_str (pf_execution_id f));
          ("activity_id", opt_str (pf_activity_id f)); ("frame", pf_frame f); ("frame_hash", Str (pf_frame_hash f));
          ("policy_ref", Str (pf_policy_ref f)); ("created_at_ms", json_u64 (pf_created_at_ms f))].

Definition no_frame (frame_id : string) : ApiError :=
  ApiError_new 404 "not_found" ("no pending ui frame `" +:+ frame_id +:+ "`").

Section routes.
Context {T K V F D : Type} `{TenancyStore T, AuditSink K, AuditCrypto, AuditSerde, SemVersion V, UiSerde, PendingSerde,
  PolicyYaml, Unicode, UiWorkflows F D, HttpJson}.
Context (platform_admins : option string) (log : AuditLog) (now : Z).

Abbreviation ST := (UiState T K F) (only parsing).

Definition on_ui {A} (m : M (UiRuntime K) A) : H ST A := λ s,
  let '(ui, r) := m (us_ui s) in
  outcome_of r {| us_tenancy := us_tenancy s; us_ui := ui; us_workflows := us_workflows s |}.
Definition on_workflows {A} (f : F → F * A) : H ST A := λ s,
  let '(w, a) := f (us_workflows s) in
  ({| us_tenancy := us_tenancy s; us_ui := us_ui s; us_workflows := w |}, Answer a).
Definition audit_ui (headers : HeaderMap) (tenant action resource_id : string) : H ST () :=
  on_ui (modify (λ w, set_audit (record log (audit_event now headers tenant action "ui_frame" resource_id)
                                  (ui_audit w)).1 w)).
(** [?] on a result whose error is an answer already. *)
Definition or_refuse {A} (r : ApiError + A) : H ST A :=
  match r with inl e => refuse e | inr a => mret a end.

Definition authorized (headers : HeaderMap) (scope : string) : H ST string := λ s,
  try (tenant_authorize platform_admins (us_tenancy s) headers scope) s.

Definition present_handler (headers : HeaderMap) (frame : Value) : H ST Response :=
  tenant ← authorized headers "ui:write";
  pending ← on_ui (present_standalone (V := V) log now tenant frame);
  match pending with
  | inl e => refuse (into_api_error e)
  | inr pending =>
    _ ← audit_ui headers tenant "ui.frame.present.standalone" (pf_frame_id pending);
    mret (json_response 200 (frame_body pending))
  end.

Definition list_frames_handler (headers : HeaderMap) : H ST Response :=
  tenant ← authorized headers "ui:read";
  frames ← reading (λ s, UiFrameStore.list_of tenant (ui_frames (us_ui s)));
  mret (json_response 200 (Object [("data", Array (map frame_body frames))])).

(** The pending frame of the id, if it is the tenant's. *)
Definition own_frame (tenant frame_id : string) : H ST PendingFrame :=
  pending ← reading (λ s, UiFrameStore.get frame_id (ui_frames (us_ui s)));
  match pending with
  | Some pending => if String.eqb (pf_tenant pending) tenant then mret pending else refuse (no_frame frame_id)
  | None => refuse (no_frame frame_id)
  end.

Definition get_frame_handler (headers : HeaderMap) (frame_id : string) : H ST Response :=
  tenant ← authorized headers "ui:read";
  pending ← own_frame tenant frame_id;
  mret (json_response 200 (frame_body pending)).

Definition decision_payload (d : UiDecision) (decided_by : string) (pending : PendingFrame) : Value :=
  Object [("action", Str (d_action d)); ("values", Object (btree_iter (d_values d))); ("decided_by", Str decided_by);
          ("decided_at_ms", json_u64 now); ("frame_id", Str (pf_frame_id pending));
          ("frame_hash", Str (pf_frame_hash pending))].

(** What is decided is delivered: to the execution, or to the record. *)
Definition deliver_decision (tenant decided_by : string) (d : UiDecision) (pending : PendingFrame) : H ST () :=
  match pf_execution_id pending, pf_activity_id pending with
  | Some execution_id, Some activity_id =>
    def ← on_workflows (resolve_definition execution_id);
    def ← or_refuse def;
    signalled ← on_workflows (signal_event def execution_id activity_id (decision_payload d decided_by pending));
    try signalled
  | _, _ =>
    on_ui (modify (λ w, set_decisions (DecidedOutcomeStore.record
      {| do_frame_id := pf_frame_id pending; do_tenant := tenant; do_action := d_action d; do_values := d_values d;
         do_decided_by := decided_by; do_decided_at_ms := now; do_frame_hash := pf_frame_hash pending |}
      (ui_decisions w)) w))
  end.

(** A handler up to the delivery, and from there on. *)
Definition check_decision (headers : HeaderMap) (frame_id : string) (d : UiDecision) : H ST (string * PendingFrame) :=
  tenant ← authorized headers "ui:write";
  pending ← own_frame tenant frame_id;
  match from_value (V := V) (pf_frame pending) with
  | Err e =>
    refuse (ApiError_new 500 "internal_error" ("stored frame `" +:+ frame_id +:+ "` failed to decode: " +:+ error_display e))
  | Ok frame =>
    match validate_decision frame d with
    | Err e => refuse (ApiError_new 400 "validation_failed" (error_display e))
    | Ok _ => mret (tenant, pending)
    end
  end.
Definition commit_decision (headers : HeaderMap) (frame_id : string) (d : UiDecision) (checked : string * PendingFrame)
    : H ST Response :=
  let '(tenant, pending) := checked in
  _ ← deliver_decision tenant (TenantRoutes.principal headers) d pending;
  _ ← on_ui (frames_remove frame_id);
  _ ← audit_ui headers tenant "ui.decision.submit" (frame_id +:+ ":" +:+ pf_frame_hash pending);
  mret (json_response 200 (Object [("frame_id", Str frame_id); ("execution_id", opt_str (pf_execution_id pending));
                                   ("activity_id", opt_str (pf_activity_id pending)); ("status", Str "decided")])).
Definition decide_handler (headers : HeaderMap) (frame_id : string) (d : UiDecision) : H ST Response :=
  checked ← check_decision headers frame_id d;
  commit_decision headers frame_id d checked.

Definition outcome_body (o : DecidedOutcome) : Value :=
  Object [("frame_id", Str (do_frame_id o)); ("action", Str (do_action o)); ("values", Object (btree_iter (do_values o)));
          ("decided_by", Str (do_decided_by o)); ("decided_at_ms", json_u64 (do_decided_at_ms o));
          ("frame_hash", Str (do_frame_hash o))].
Definition get_decision_handler (headers : HeaderMap) (frame_id : string) : H ST Response :=
  tenant ← authorized headers "ui:read";
  outcome ← reading (λ s, DecidedOutcomeStore.get frame_id (ui_decisions (us_ui s)));
  match outcome with
  | Some outcome =>
    if String.eqb (do_tenant outcome) tenant then mret (json_response 200 (outcome_body outcome))
    else refuse (ApiError_new 404 "not_found" ("no recorded decision for frame `" +:+ frame_id +:+ "`"))
  | None => refuse (ApiError_new 404 "not_found" ("no recorded decision for frame `" +:+ frame_id +:+ "`"))
  end.

(** The executor of the server: [ui] activities here, every other one inside. *)
Definition ui_execute {X} `{ActivityExecutor X} (ctx : ActivityContext) : M (X * UiRuntime K) Execution := λ '(x, ui),
  if String.eqb (ctx_activity_type ctx) "ui" then
    let '(ui, r) := execute_ui_activity (V := V) log now ctx ui in
    ((x, ui), r ← r; Ret {| exec_progress := []; exec_result := r |})
  else let '(x, e) := Executor.execute ctx x in ((x, ui), Ret e).
End routes.

(** ** Everything that happens to the runtime *)

Inductive ui_request :=
  | PresentFrame (frame : Value)
  | ListFrames
  | GetFrame (frame_id : string)
  | Decide (frame_id : string) (d : UiDecision)
  | GetDecision (frame_id : string).

Section operations.
Context {T K V F D : Type} `{TenancyStore T, AuditSink K, AuditCrypto, AuditSerde, SemVersion V, UiSerde, PendingSerde,
  PolicyYaml, Unicode, UiWorkflows F D, HttpJson}.
Context (platform_admins : option string) (log : AuditLog).

Definition run_ui (now : Z) (headers : HeaderMap) (r : ui_request) : H (UiState T K F) Response :=
  match r with
  | PresentFrame frame => present_handler (V := V) platform_admins log now headers frame
  | ListFrames => list_frames_handler platform_admins headers
  | GetFrame frame_id => get_frame_handler platform_admins headers frame_id
  | Decide frame_id d => decide_handler (V := V) platform_admins log now headers frame_id d
  | GetDecision frame_id => get_decision_handler platform_admins headers frame_id
  end.

(** A restart: the frames are those of the file, decisions and policies of the
    process are gone, frames without a workflow are counted from zero again. *)
Definition restarted (w : UiRuntime K) : UiRuntime K := {|
  ui_frames := UiFrameStore.new (UiFrameStore.file (ui_frames w)); ui_policies := ∅;
  ui_policies_dir := ui_policies_dir w; ui_default_policy := ui_default_policy w;
  ui_unrestricted := ui_unrestricted w; ui_audit := ui_audit w;
  ui_decisions := DecidedOutcomeStore.new MAX_DECIDED_OUTCOMES; ui_standalone_seq := 0 |}.

(** Requests, activities of workflows, policies set in the process, policy files
    changed, restarts, and whatever the other components do to their state and
    to the audit log. *)
Inductive ui_op :=
  | Request (now : Z) (headers : HeaderMap) (r : ui_request)
  | Activity (now : Z) (ctx : ActivityContext)
  | SetPolicy (tenant : string) (p : UiPolicy)
  | PolicyFiles (dir : option PolicyDir)
  | Restarted
  | Elsewhere (t : T) (f : F) (a : AuditStore K).

Definition set_policies_dir (dir : option PolicyDir) (w : UiRuntime K) : UiRuntime K := {|
  ui_frames := ui_frames w; ui_policies := ui_policies w; ui_policies_dir := dir;
  ui_default_policy := ui_default_policy w; ui_unrestricted := ui_unrestricted w; ui_audit := ui_audit w;
  ui_decisions := ui_decisions w; ui_standalone_seq := ui_standalone_seq w |}.

Definition ui_step (op : ui_op) (s : UiState T K F) : UiState T K F :=
  let on_runtime f := {| us_tenancy := us_tenancy s; us_ui := f (us_ui s); us_workflows := us_workflows s |} in
  match op with
  | Request now headers r => (run_ui now headers r s).1
  | Activity now ctx => on_runtime (λ w, (execute_ui_activity (V := V) log now ctx w).1)
  | SetPolicy tenant p => on_runtime (set_tenant_policy tenant p)
  | PolicyFiles dir => on_runtime (set_policies_dir dir)
  | Restarted => on_runtime restarted
  | Elsewhere t f a => {| us_tenancy := t; us_ui := set_audit a (us_ui s); us_workflows := f |}
  end.
Definition ui_run (ops : list ui_op) (s : UiState T K F) : UiState T K F := foldl (λ s op, ui_step op s) s ops.
End operations.

(** ** The tool of a bare agent ([ui_present.rs]) *)

(** The host's way to show a frame to a person. *)
Class UiInteraction (I : Type) := ask_person : UiFrame → I → I * result UiDecision.

Record UiPresentTool := { upt_policy : option UiPolicy; upt_unrestricted : bool }.
Definition UiPresentTool_new : UiPresentTool := {| upt_policy := None; upt_unrestricted := false |}.
Definition upt_with_policy (p : UiPolicy) (t : UiPresentTool) : UiPresentTool :=
  {| upt_policy := Some p; upt_unrestricted := upt_unrestricted t |}.
Definition unrestricted (t : UiPresentTool) : UiPresentTool :=
  {| upt_policy := upt_policy t; upt_unrestricted := true |}.

Section tool.
Context {I V : Type} `{UiInteraction I, SemVersion V, UiSerde, Unicode}.

Definition tool_source (t : UiPresentTool) : PolicySource :=
  if upt_unrestricted t then Unrestricted
  else match upt_policy t with Some p => ByPolicy p | None => Floor end.

Definition show_and_ask (frame : UiFrame) : M I (ToolError + ToolResponse) := λ i,
  let '(i, answer) := ask_person frame i in
  (i, Ret match answer with
      | Err e => inl (ToolInternal ("ui interaction failed: " +:+ error_display e))
      | Ok decision =>
        match validate_decision frame decision with
        | Err e => inl (ToolValidation ("invalid decision: " +:+ error_display e))
        | Ok _ => inr (ToolResponse_success (Object [("action", Str (d_action decision));
                                                     ("values", Object (btree_iter (d_values decision)))]))
        end
      end).
Definition ui_present_execute (t : UiPresentTool) (request : ToolRequest) : M I (ToolError + ToolResponse) :=
  match value_get "frame" (parameters request) with
  | None => mret (inl (ToolValidation "missing required `frame` field"))
  | Some frame_value =>
    match from_value (V := V) frame_value with
    | Err e => mret (inl (ToolValidation ("invalid ui frame: " +:+ error_display e)))
    | Ok frame =>
      verdict ← lift (verdict_of (tool_source t) frame);
      match verdict with
      | Allow => show_and_ask frame
      | Redact frame _ => show_and_ask frame
      | Block rule reason =>
        mret (inl (PermissionDenied ("ui frame blocked by policy rule `" +:+ rule +:+ "`: " +:+ reason)))
      end
    end
  end.
End tool.

(** ** What is pending was judged *)

(** The bounds of numbers are numbers: what JSON can say of them. *)
Definition bounds_finite (n : UiNode) : Prop :=
  match n with
  | NumberInput _ _ min max _ =>
    (∀ x, min = Some x → f64_is_finite x = true) ∧ (∀ x, max = Some x → f64_is_finite x = true)
  | _ => True
  end.
Definition finite_bounds (f : UiFrame) : Prop := ∀ n, n ∈ nodes f → bounds_finite n.

(** A frame that was read holds finite bounds, and a frame that holds finite
    bounds is read back from what it is written as; likewise the stored lists. *)
Class UiSerdeLaws `{UiSerde, PendingSerde} := {
  read_is_finite v f : frame_of_json v = inr f → finite_bounds f;
  written_reads_back f v : finite_bounds f → frame_to_json f = inr v → frame_of_json v = inr f;
  stored_reads_back l bytes : pending_to_bytes l = inr bytes → pending_of_bytes bytes = inr l;
}.

Section judged.
Context {K V : Type} `{AuditSink K, AuditCrypto, AuditSerde, SemVersion V, PolicyYaml, Unicode, UiSerdeLaws}.
Context (log : AuditLog).

(** The source lets the frame [f0] through as [f]. *)
Definition passes (source : PolicySource) (f0 f : UiFrame) : Prop :=
  verdict_of source f0 = Ret Allow ∧ f = f0 ∨ ∃ fired, verdict_of source f0 = Ret (Redact f fired).

(** A frame that may be shown under a source. *)
Definition permitted (source : PolicySource) (f : UiFrame) : Prop :=
  match source with
  | Unrestricted => True
  | Floor => ∀ n, n ∈ nodes f → is_control n = false
  | ByPolicy p => ∀ rule, ¬ breaks p f rule
  end.

Definition valid (f : UiFrame) : Prop := supported (schema_version f) ∧ frame_ok f ∧ finite_bounds f.

Lemma passes_permitted source f0 f : passes source f0 f → permitted source f.
Proof.
  destruct source as [| |p]; cbn; [done| |].
  - intros [[Hv ->]|[fired Hv]]; injection Hv as Hv; [by apply hosted_floor_allows|].
    unfold hosted_floor in Hv. by destruct (is_interactive f0).
  - intros [[Hv ->]|[fired Hv]] rule; cbn in Hv.
    + intros (? & ? & ?)%broken_is_blocked. congruence.
    + by apply evaluate_redacts in Hv as (_ & _ & _ & ?).
Qed.

Lemma same_finite f f' : skeleton (root f') = skeleton (root f) → finite_bounds f → finite_bounds f'.
Proof.
  intros Hs Hf n Hn. destruct n; try done. apply Hf. eapply same_node; [done..|]. by intros [].
Qed.
Lemma passes_valid source f0 f : passes source f0 f → valid f0 → valid f.
Proof.
  destruct source as [| |p]; intros [[Hv ->]|[fired Hv]]; try done; cbn in Hv.
  - unfold hosted_floor in Hv. by destruct (is_interactive f0).
  - apply evaluate_redacts in Hv as (Hs & Hr & Hok & _). intros (Hv & Hf & Hb). split_and!; [by rewrite Hr|by apply Hok|].
    by eapply same_finite.
Qed.
Lemma from_value_valid v f : from_value v = Ok f → valid f.
Proof.
  unfold from_value. destruct (frame_of_json v) as [e|f'] eqn:E; [done|].
  intros ([] & Hv%validate_ok & [= ->])%result_bind_Ok. destruct Hv. split_and!; [done..|]. by eapply read_is_finite.
Qed.
Lemma valid_reads_back f v : valid f → frame_to_json f = inr v → from_value v = Ok f.
Proof.
  intros (Hs & Hok & Hf) Hv. unfold from_value. rewrite (written_reads_back f v) by done.
  by rewrite (proj2 (validate_ok f) (conj Hs Hok)).
Qed.

(** The source in force for a tenant: nothing where the server runs unrestricted,
    else the policy set for the tenant, else the one of its file, else the
    default policy, else the floor. *)
Inductive in_force (tenant : string) (w : UiRuntime K) : PolicySource → Prop :=
  | ForceUnrestricted : ui_unrestricted w = true → in_force tenant w Unrestricted
  | ForceTenant p : ui_unrestricted w = false → ui_policies w !! tenant = Some p → in_force tenant w (ByPolicy p)
  | ForceFile dir yaml p : ui_unrestricted w = false → ui_policies w !! tenant = None →
      ui_policies_dir w = Some dir → dir !! (sanitize tenant +:+ ".yaml") = Some (inr yaml) →
      policy_from_yaml yaml = Ok p → in_force tenant w (ByPolicy p)
  | ForceDefault source : ui_unrestricted w = false → ui_policies w !! tenant = None →
      (∀ dir, ui_policies_dir w = Some dir → dir !! (sanitize tenant +:+ ".yaml") = None) →
      match ui_default_policy w with Some p => source = ByPolicy p | None => source = Floor end →
      in_force tenant w source.

Lemma policy_for_in_force tenant w source : policy_for tenant w = Ok source → in_force tenant w source.
Proof.
  unfold policy_for. destruct (ui_unrestricted w) eqn:Eu; [intros [= <-]; by constructor|].
  destruct (ui_policies w !! tenant) as [p|] eqn:Ep; [intros [= <-]; by constructor|].
  destruct (ui_policies_dir w) as [dir|] eqn:Ed.
  - destruct (dir !! _) as [[e|yaml]|] eqn:Ef; [done| |].
    + intros (p & Hp & [= <-])%result_bind_Ok. by eapply ForceFile.
    + intros [= <-]. apply ForceDefault; [done..|congruence|by destruct (ui_default_policy w)].
  - intros [= <-]. apply ForceDefault; [done..|by rewrite Ed|by destruct (ui_default_policy w)].
Qed.

(** The pending frame [p] is what the judgement of the document [v], stamped with
    its provenance, let through: the source is the one in force for the frame's
    tenant in the runtime [w]; what is stored reads back as the frame the source
    passed, redacted where it said so, with its hash and the reference of the
    source, and under which nothing forbids it. *)
Definition judged (w : UiRuntime K) (v : Value) (stamp : UiFrame → UiFrame) (p : PendingFrame) : Prop :=
  ∃ f0 source f, from_value v = Ok f0 ∧ in_force (pf_tenant p) w source ∧ passes source (stamp f0) f ∧
    from_value (pf_frame p) = Ok f ∧ pf_frame_hash p = content_hash f ∧ pf_policy_ref p = reference_of source ∧
    valid (stamp f0) ∧ permitted source f.

(** What a run of an activity may have presented, and a request without one. *)
Record shown_by_activity (now : Z) (ctx : ActivityContext) (w : UiRuntime K) (p : PendingFrame) : Prop := {
  sa_execution : pf_execution_id p = execution_id_of ctx;
  sa_started : is_Some (execution_id_of ctx);
  sa_activity : pf_activity_id p = Some (ctx_id ctx);
  sa_tenant : pf_tenant p = default DEFAULT_TENANT (v ← ctx_variables ctx !! "__tenant"; as_str v);
  sa_time : pf_created_at_ms p = now;
  sa_judged : ∃ v, value_get "frame" (ctx_inputs ctx) = Some v ∧
    judged w v (stamp_provenance (default "" (execution_id_of ctx)) (ctx_id ctx)) p }.
Record shown_by_request (now : Z) (tenant : string) (v : Value) (w : UiRuntime K) (p : PendingFrame) : Prop := {
  sr_execution : pf_execution_id p = None;
  sr_activity : pf_activity_id p = None;
  sr_tenant : pf_tenant p = tenant;
  sr_time : pf_created_at_ms p = now;
  sr_judged : judged w v (λ f, f) p }.

(** *** The judgement of a frame *)

Lemma judge_frame_spec now tenant v audit_id stamp (w : UiRuntime K) :
  wp (judge_frame log now tenant v audit_id stamp)
    (λ r w', match r with
       | inr (f, policy_ref) => w' = w ∧ ∃ f0 source, from_value v = Ok f0 ∧ policy_for tenant w = Ok source ∧
           passes source (stamp f0) f ∧ policy_ref = reference_of source
       | inl _ => ∃ a, w' = set_audit a w
       end)
    (λ _ w', w' = w) w.
Proof.
  unfold judge_frame. destruct (from_value v) as [f0|e] eqn:Ev.
  2: { apply wp_bind. cbn. eauto. }
  apply wp_gets_bind. destruct (policy_for tenant w) as [source|e] eqn:Ep.
  2: { apply wp_ret. exists (ui_audit w). by destruct w. }
  apply wp_lift_bind. destruct (verdict_of source (stamp f0)) as [[|f fired|rule reason]|s] eqn:Ever.
  - apply wp_ret. split; [done|]. exists f0, source. split_and!; [done..| |done]. by left.
  - apply wp_ret. split; [done|]. exists f0, source. split_and!; [done..| |done]. right. eauto.
  - apply wp_bind. cbn. eauto.
  - done.
Qed.

Lemma wp_judge {B} now tenant v audit_id stamp (k : PresentError + UiFrame * string → M (UiRuntime K) B) Q E w :
  (∀ e a, wp (k (inl e)) Q E (set_audit a w)) →
  (∀ f f0 source, from_value v = Ok f0 → policy_for tenant w = Ok source → passes source (stamp f0) f →
     wp (k (inr (f, reference_of source))) Q E w) →
  (∀ s, E s w) → wp (judge_frame log now tenant v audit_id stamp ≫= k) Q E w.
Proof.
  intros Hl Hr Hs. apply wp_bind. eapply wp_mono; [apply judge_frame_spec| |intros s ? ->; apply Hs].
  intros [e|[f policy_ref]] w'; [intros [a ->]; apply Hl|]. intros (-> & f0 & source & Hv & Hp & Hpass & ->). by eapply Hr.
Qed.

(** *** The stores keep a property of what is pending *)

(** Every pending frame is under its id and has the property, and so has every
    frame the file holds. *)
Definition store_ok (J : PendingFrame → Prop) (s : UiFrameStore.t) : Prop :=
  (∀ id p, UiFrameStore.inner s !! id = Some p → pf_frame_id p = id ∧ J p) ∧
  (∀ bytes l p, UiFrameStore.file s = Some (Some bytes) → pending_of_bytes bytes = inr l → p ∈ l → J p).
Definition ui_ok (J : PendingFrame → Prop) (w : UiRuntime K) : Prop := store_ok J (ui_frames w).

Lemma frames_persist_ok J m file :
  (∀ id p, m !! id = Some p → pf_frame_id p = id ∧ J p) →
  (∀ bytes l p, file = Some (Some bytes) → pending_of_bytes bytes = inr l → p ∈ l → J p) →
  store_ok J {| UiFrameStore.inner := m; UiFrameStore.file := UiFrameStore.persist m file |}.
Proof.
  intros Hm Hf. split; [done|]. cbn. intros bytes l p Hfile Hl Hp. unfold UiFrameStore.persist in Hfile.
  destruct file as [old|]; [|done]. destruct (pending_to_bytes _) as [e|bytes'] eqn:Eb.
  - injection Hfile as ->. by eapply Hf.
  - injection Hfile as ->. apply stored_reads_back in Eb. rewrite Eb in Hl. injection Hl as <-.
    apply list_elem_of_fmap in Hp as ([k q] & -> & Hq). apply btree_iter_elem in Hq. by apply Hm in Hq as [_ ?].
Qed.
Lemma upsert_ok J f s : J f → store_ok J s →
  store_ok J (UiFrameStore.upsert f s).1.
Proof.
  intros Hf [Hs Hfile]. unfold UiFrameStore.upsert. case_match; [|done]. cbn. apply frames_persist_ok; [|done].
  intros id q [[<- <-]|[_ Hq]]%lookup_insert_Some; [done|by apply Hs].
Qed.
Lemma frames_remove_ok J id s : store_ok J s → store_ok J (UiFrameStore.remove id s).1.
Proof.
  intros [Hs Hfile]. unfold UiFrameStore.remove. case_match; [|done]. cbn. apply frames_persist_ok; [|done].
  intros id' q [_ Hq]%lookup_delete_Some. by apply Hs.
Qed.
Lemma reload_ok J s : store_ok J s → store_ok J (UiFrameStore.new (UiFrameStore.file s)).
Proof.
  intros [_ Hfile]. split; [|done]. cbn. destruct (UiFrameStore.file s) as [[bytes|]|]; [|done..].
  destruct (pending_of_bytes bytes) as [e|l] eqn:El; [done|].
  assert (∀ p, p ∈ l → J p) as Hl by (intros p; by eapply Hfile). clear Hfile El.
  assert (∀ l (m : gmap string PendingFrame), (∀ p, p ∈ l → J p) →
    (∀ id p, m !! id = Some p → pf_frame_id p = id ∧ J p) →
    ∀ id p, foldl (λ m f, <[pf_frame_id f := f]> m) m l !! id = Some p → pf_frame_id p = id ∧ J p) as Hfold.
  { clear. intros l. induction l as [|f l IH]; intros m Hl Hm; [done|]. cbn. apply IH; [set_solver|].
    intros id p [[<- <-]|[_ Hp]]%lookup_insert_Some; [|by apply Hm]. split; [done|]. apply Hl. by left. }
  by apply Hfold.
Qed.

Lemma store_ok_mono (J J' : PendingFrame → Prop) s : (∀ p, J p → J' p) → store_ok J s → store_ok J' s.
Proof. intros HJ [Hs Hf]. split; [|eauto]. intros id p Hp. destruct (Hs id p Hp). eauto. Qed.

(** *** The operations of the runtime *)

(** The parts of the runtime the operations on frames do not touch. *)
Definition same_rules (w w' : UiRuntime K) : Prop :=
  ui_policies w' = ui_policies w ∧ ui_policies_dir w' = ui_policies_dir w ∧
  ui_default_policy w' = ui_default_policy w ∧ ui_unrestricted w' = ui_unrestricted w.
Lemma policy_for_same tenant w w' : same_rules w w' → policy_for tenant w' = policy_for tenant w.
Proof. intros (Hp & Hd & Hdef & Hu). unfold policy_for. by rewrite Hp, Hd, Hdef, Hu. Qed.

Lemma stamp_valid execution_id activity_id f : valid f → valid (stamp_provenance execution_id activity_id f).
Proof. done. Qed.
(** What is judged and serialized is pending as the judgement left it. *)
Lemma judged_pending v stamp f0 source f (w : UiRuntime K) p :
  from_value v = Ok f0 → valid (stamp f0) → policy_for (pf_tenant p) w = Ok source → passes source (stamp f0) f →
  frame_to_json f = inr (pf_frame p) → pf_frame_hash p = content_hash f → pf_policy_ref p = reference_of source →
  judged w v stamp p.
Proof.
  intros Hv Hst Hp Hpass Hj Hh Hr. exists f0, source, f. split_and!; try done.
  - by apply policy_for_in_force.
  - eapply valid_reads_back; [|done]. by eapply passes_valid.
  - by eapply passes_permitted.
Qed.

Lemma frames_upsert_spec f (w : UiRuntime K) :
  frames_upsert f w = (set_frames (UiFrameStore.upsert f (ui_frames w)).1 w, Ret (UiFrameStore.upsert f (ui_frames w)).2).
Proof. unfold frames_upsert. by destruct (UiFrameStore.upsert f (ui_frames w)). Qed.
Lemma frames_remove_spec id (w : UiRuntime K) :
  frames_remove id w = (set_frames (UiFrameStore.remove id (ui_frames w)).1 w, Ret (UiFrameStore.remove id (ui_frames w)).2).
Proof. unfold frames_remove. by destruct (UiFrameStore.remove id (ui_frames w)). Qed.
Lemma record_audit_spec e (w : UiRuntime K) : record_audit log e w = (set_audit (record log e (ui_audit w)).1 w, Ret ()).
Proof. done. Qed.

Lemma execute_ui_activity_ok (J : PendingFrame → Prop) now ctx (w : UiRuntime K) :
  (∀ p, shown_by_activity now ctx w p → J p) → ui_ok J w →
  wp (execute_ui_activity log now ctx) (λ _ w', ui_ok J w') (λ _ w', ui_ok J w') w.
Proof.
  intros HJ Hw. unfold execute_ui_activity.
  destruct (match ctx_variables ctx !! ctx_id ctx with Some d => Some d | None => _ end) as [decision|].
  { apply wp_bind. destruct (execution_id_of ctx) as [execution_id|]; [|by apply wp_ret].
    unfold wp, mbind, M_bind. rewrite frames_remove_spec. cbn. by apply frames_remove_ok. }
  destruct (execution_id_of ctx) as [execution_id|] eqn:Ee; [|by apply wp_ret].
  destruct (value_get "frame" (ctx_inputs ctx)) as [v|] eqn:Ev; [|by apply wp_ret].
  cbv zeta. set (tenant := default _ _). set (frame_id := frame_id_for _ _).
  apply wp_judge; [intros e a; by apply wp_ret| |done]. intros f f0 source Hv Hp Hpass.
  destruct (frame_to_json f) as [e|json] eqn:Ej; [by apply wp_ret|].
  destruct (actions f) as [|act acts]; [by apply wp_bind|].
  set (pending := {| pf_frame_id := frame_id |}).
  assert (J pending) as Hpend.
  { apply HJ. split; [done|by rewrite Ee|done..|]. exists v. split; [done|]. rewrite Ee. cbn [default].
    eapply judged_pending; try done. apply stamp_valid. by eapply from_value_valid. }
  apply wp_bind. unfold wp at 1. rewrite frames_upsert_spec. apply wp_bind.
  destruct (UiFrameStore.upsert _ _).2; [unfold wp at 1; rewrite record_audit_spec|apply wp_ret]; apply wp_ret;
    by apply upsert_ok.
Qed.

Lemma present_standalone_ok (J : PendingFrame → Prop) now tenant v (w : UiRuntime K) :
  (∀ p, shown_by_request now tenant v w p → J p) → ui_ok J w →
  wp (present_standalone log now tenant v) (λ _ w', ui_ok J w') (λ _ w', ui_ok J w') w.
Proof.
  intros HJ Hw. unfold present_standalone. apply wp_gets_bind. apply wp_bind. unfold modify. unfold wp at 1. cbv zeta.
  set (seq := ui_standalone_seq w). set (w1 := set_seq _ w). assert (same_rules w w1) as Hsame by done.
  apply wp_judge; [intros e a; by apply wp_ret| |done]. intros f f0 source Hv Hp Hpass.
  rewrite (policy_for_same _ w w1 Hsame) in Hp.
  destruct (frame_to_json f) as [e|json] eqn:Ej; [by apply wp_ret|].
  apply wp_bind. unfold wp at 1. rewrite frames_upsert_spec. apply wp_bind. unfold wp at 1. rewrite record_audit_spec.
  apply wp_ret. apply upsert_ok; [|done]. apply HJ. split; [done..|].
  eapply (judged_pending v (λ f, f) f0 source f); try done. by eapply from_value_valid.
Qed.

(** *** Activities *)

Lemma judge_frame_passes now tenant v audit_id stamp (w w' : UiRuntime K) f policy_ref :
  judge_frame log now tenant v audit_id stamp w = (w', Ret (inr (f, policy_ref))) ↔
  w' = w ∧ ∃ f0 source, from_value v = Ok f0 ∧ policy_for tenant w = Ok source ∧
    passes source (stamp f0) f ∧ policy_ref = reference_of source.
Proof.
  split.
  - intros Hj. pose proof (judge_frame_spec now tenant v audit_id stamp w) as Hs. unfold wp in Hs. by rewrite Hj in Hs.
  - intros (-> & f0 & source & Hv & Hp & Hpass & ->). unfold judge_frame. rewrite Hv. unfold mbind, M_bind, gets, lift. rewrite Hp.
    by destruct Hpass as [[-> ->]|[fired ->]].
Qed.

Lemma removed id (s : UiFrameStore.t) :
  UiFrameStore.inner (UiFrameStore.remove id s).1 = delete id (UiFrameStore.inner s).
Proof. unfold UiFrameStore.remove. destruct (_ !! id) eqn:E; [done|]. by rewrite delete_id. Qed.
Lemma upsert_stored f (s : UiFrameStore.t) :
  ∃ p, UiFrameStore.inner (UiFrameStore.upsert f s).1 !! pf_frame_id f = Some p ∧ pf_frame_hash p = pf_frame_hash f.
Proof.
  unfold UiFrameStore.upsert. destruct (UiFrameStore.inner s !! pf_frame_id f) as [old|] eqn:E.
  - destruct (String.eqb_spec (pf_frame_hash old) (pf_frame_hash f)); cbn; [eauto|]. rewrite lookup_insert_eq. eauto.
  - cbn. rewrite lookup_insert_eq. eauto.
Qed.
Lemma upsert_known f p (s : UiFrameStore.t) : UiFrameStore.inner s !! pf_frame_id f = Some p →
  pf_frame_hash p = pf_frame_hash f → UiFrameStore.upsert f s = (s, false).
Proof. intros Hp Hh. unfold UiFrameStore.upsert. by rewrite Hp, Hh, String.eqb_refl. Qed.

(** The decision that a context carries for its activity. *)
Definition injected (ctx : ActivityContext) : option Value :=
  match ctx_variables ctx !! ctx_id ctx with
  | Some d => Some d
  | None => ctx_variables ctx !! ("event." +:+ ctx_id ctx)
  end.

(** C20: An activity waits for one decision, however often it runs.  Once an
    activity that shows a frame has been interrupted, its frame is pending; as
    long as no decision was delivered, running it again - after a crash, say -
    interrupts it again and changes nothing, neither what is pending nor the
    audit log; and when the decision is among the variables, the activity answers
    exactly that and its frame is no longer pending. *)
Theorem ui_activities_wait_for_a_decision now ctx (w w' : UiRuntime K) m :
  execute_ui_activity log now ctx w = (w', Ret (inl (Interrupted m))) →
  ∃ execution_id, execution_id_of ctx = Some execution_id ∧
    let frame_id := frame_id_for execution_id (ctx_id ctx) in
    is_Some (UiFrameStore.inner (ui_frames w') !! frame_id) ∧
    (∀ now', execute_ui_activity log now' ctx w' = (w', Ret (inl (Interrupted m)))) ∧
    ∀ now' ctx' decision, ctx_id ctx' = ctx_id ctx → execution_id_of ctx' = Some execution_id →
      injected ctx' = Some decision →
      ∃ w'', execute_ui_activity log now' ctx' w' = (w'', Ret (inr decision)) ∧
        UiFrameStore.inner (ui_frames w'') = delete frame_id (UiFrameStore.inner (ui_frames w')) ∧ ui_audit w'' = ui_audit w'.
Proof.
  intros Hrun. unfold execute_ui_activity in Hrun. fold (injected ctx) in Hrun.
  destruct (injected ctx) as [decision|] eqn:Ei; [by apply bind_Ret_inv in Hrun as (? & ? & _ & ?)|].
  destruct (execution_id_of ctx) as [execution_id|] eqn:Ee; [|done]. exists execution_id. split; [done|].
  destruct (value_get "frame" (ctx_inputs ctx)) as [v|] eqn:Ev; [|done]. cbv zeta in Hrun.
  apply bind_Ret_inv in Hrun as (w1 & [e|[f policy_ref]] & Hj & Hrun); [by destruct e|].
  apply judge_frame_passes in Hj as (-> & f0 & source & Hf0 & Hp & Hpass & ->).
  destruct (frame_to_json f) as [e|json] eqn:Ej; [done|]. destruct (actions f) as [|act acts] eqn:Eact; [done|].
  set (pending := {| pf_frame_id := _ |}) in Hrun.
  destruct (upsert_stored pending (ui_frames w)) as (p & Hp1 & Hp2).
  assert (ui_frames w' = (UiFrameStore.upsert pending (ui_frames w)).1 ∧ same_rules w w' ∧
    m = "activity `" +:+ ctx_id ctx +:+ "` is awaiting a ui decision (frame `" +:+ pf_frame_id pending +:+ "`)") as (Hfr & Hsame & Hm).
  { unfold mbind at 1, M_bind at 1 in Hrun. rewrite frames_upsert_spec in Hrun.
    destruct (UiFrameStore.upsert pending (ui_frames w)).2; cbn in Hrun; by injection Hrun as <- <-. }
  rewrite <-Hfr in Hp1. cbv zeta. split_and!; [by eexists| |].
  - intros now'. unfold execute_ui_activity. fold (injected ctx). rewrite Ei, Ee, Ev. cbv zeta. unfold mbind at 1, M_bind at 1.
    rewrite (proj2 (judge_frame_passes now' _ v _ _ w' w' f (reference_of source)));
      [|split; [done|]; exists f0, source; by rewrite (policy_for_same _ w w')].
    rewrite Ej, Eact. unfold mbind at 1, M_bind at 1. rewrite frames_upsert_spec. erewrite upsert_known; [|exact Hp1|exact Hp2].
    cbn. rewrite Hm. by destruct w'.
  - intros now' ctx' decision Hid Hex Hinj. unfold execute_ui_activity. fold (injected ctx'). rewrite Hinj, Hex, Hid.
    unfold mbind, M_bind. rewrite frames_remove_spec. eexists. split; [done|]. cbn. split; [|done]. apply removed.
Qed.
End judged.

Section requests.
Context {T K V F D : Type} `{TenancyStore T, AuditSink K, AuditCrypto, AuditSerde, SemVersion V, UiSerde, PendingSerde,
  PolicyYaml, Unicode, UiWorkflows F D, HttpJson, !UiSerdeLaws}.
Context (platform_admins : option string) (log : AuditLog).

(** A handler that keeps a property of the state, however it ends. *)
Definition preserves {S A} (I : S → Prop) (m : H S A) : Prop := ∀ s, I s → I (m s).1.
Lemma preserves_bind {S A B} I (m : H S A) (k : A → H S B) :
  preserves I m → (∀ a, preserves I (k a)) → preserves I (m ≫= k).
Proof.
  intros Hm Hk s Hs. specialize (Hm s Hs). unfold mbind, H_bind. destruct (m s) as [s1 [a|e|]]; [by apply Hk|done..].
Qed.
Lemma preserves_same {S A} (I : S → Prop) (m : H S A) : (∀ s, (m s).1 = s) → preserves I m.
Proof. intros Hm s Hs. by rewrite Hm. Qed.
Lemma try_same {S A} (r : result A) (s : S) : (try r s).1 = s.
Proof. by destruct r. Qed.

(** The frames of a state have the property [J]. *)
Definition frames_ok (J : PendingFrame → Prop) (s : UiState T K F) : Prop := ui_ok J (us_ui s).

Lemma on_ui_ok {A} J (m : M (UiRuntime K) A) (s : UiState T K F) :
  wp m (λ _ w', ui_ok J w') (λ _ w', ui_ok J w') (us_ui s) → frames_ok J ((on_ui m : H (UiState T K F) A) s).1.
Proof. unfold wp, on_ui. destruct (m (us_ui s)) as [w [a|[]]]; by intros Hm. Qed.
Lemma modify_preserves J f :
  (∀ w, ui_ok J w → ui_ok J (f w)) → preserves (frames_ok J) (on_ui (modify f) : H (UiState T K F) ()).
Proof. intros Hf s Hs. by apply on_ui_ok, Hf. Qed.
Lemma on_workflows_preserves {A} J (f : F → F * A) :
  preserves (frames_ok J) (on_workflows f : H (UiState T K F) A).
Proof. intros s Hs. unfold on_workflows. by destruct (f (us_workflows s)). Qed.

Ltac keeps_it := first [by intros s Hs | intros ? s Hs; exact Hs].

Lemma audit_ui_preserves J now headers tenant action id :
  preserves (frames_ok J) (audit_ui log now headers tenant action id : H (UiState T K F) ()).
Proof. by apply modify_preserves. Qed.
Lemma authorized_preserves J headers scope :
  preserves (frames_ok J) (authorized platform_admins headers scope : H (UiState T K F) string).
Proof. apply preserves_same. intros s. apply try_same. Qed.
Lemma own_frame_preserves J tenant id : preserves (frames_ok J) (own_frame tenant id : H (UiState T K F) PendingFrame).
Proof. apply preserves_bind; [keeps_it|]. intros [p|]; [case_match|]; keeps_it. Qed.

(** Every request but a presentation leaves at most fewer frames pending. *)
Lemma run_ui_preserves J now headers r : (∀ v, r ≠ PresentFrame v) →
  preserves (frames_ok J) (run_ui platform_admins log now headers r : H (UiState T K F) Response).
Proof.
  intros Hr. destruct r as [frame| |id|id d|id]; [by destruct (Hr frame)|..]; clear Hr; cbn;
    (apply preserves_bind; [apply authorized_preserves|intros tenant]) ||
    (apply preserves_bind; [apply preserves_bind; [apply authorized_preserves|intros tenant]|]).
  - apply preserves_bind; keeps_it.
  - apply preserves_bind; [apply own_frame_preserves|keeps_it].
  - apply preserves_bind; [apply own_frame_preserves|]. intros p.
    destruct (from_value _) as [f|e]; [destruct (validate_decision f d)|]; keeps_it.
  - intros [tenant p]. apply preserves_bind.
    { unfold deliver_decision. destruct (pf_execution_id p) as [ex|], (pf_activity_id p) as [act|]; try (by apply modify_preserves).
      apply preserves_bind; [apply on_workflows_preserves|]. intros def. apply preserves_bind; [destruct def; keeps_it|].
      intros df. apply preserves_bind; [apply on_workflows_preserves|]. intros r. apply preserves_same. intros s. apply try_same. }
    intros _. apply preserves_bind.
    { intros s Hs. apply on_ui_ok. unfold wp. rewrite frames_remove_spec. by apply frames_remove_ok. }
    intros _. apply preserves_bind; [apply audit_ui_preserves|keeps_it].
  - apply preserves_bind; [keeps_it|]. intros [o|]; [case_match|]; keeps_it.
Qed.

Lemma present_handler_ok J now headers v (s : UiState T K F) :
  (∀ tenant p, tenant_authorize platform_admins (us_tenancy s) headers "ui:write" = Ok tenant →
     shown_by_request now tenant v (us_ui s) p → J p) → frames_ok J s →
  frames_ok J (present_handler platform_admins log now headers v s).1.
Proof.
  intros HJ Hs. unfold present_handler. unfold mbind at 1, H_bind at 1, authorized at 1.
  destruct (tenant_authorize _ _ _ _) as [tenant|e] eqn:Ea; [|done]. cbn [try].
  pose proof (on_ui_ok J _ s (present_standalone_ok log J now tenant v (us_ui s) (λ p, HJ tenant p eq_refl) Hs)) as Hp.
  unfold mbind at 1, H_bind at 1. destruct (on_ui _ s) as [s1 [[e|p]|e|]]; [exact Hp| |exact Hp..]. cbn [fst] in Hp.
  clear s Hs HJ Ea. revert s1 Hp. change (preserves (frames_ok J) (_ ← audit_ui log now headers tenant "ui.frame.present.standalone" (pf_frame_id p);
    mret (json_response 200 (frame_body p)) : H (UiState T K F) Response)).
  apply preserves_bind; [apply audit_ui_preserves|keeps_it].
Qed.

(** The operation [op], in the state [s], presents the pending frame [p]: a
    request of a caller who may write for the frame's tenant, or an activity of
    the execution the frame waits for. *)
Definition presented_by (op : ui_op (T := T) (K := K) (F := F)) (s : UiState T K F) (p : PendingFrame) : Prop :=
  match op with
  | Request now headers (PresentFrame v) => ∃ tenant,
      tenant_authorize platform_admins (us_tenancy s) headers "ui:write" = Ok tenant ∧
      shown_by_request now tenant v (us_ui s) p
  | Activity now ctx => shown_by_activity now ctx (us_ui s) p
  | _ => False
  end.

Lemma ui_step_ok J op s : (∀ p, presented_by op s p → J p) → frames_ok J s →
  frames_ok J (ui_step platform_admins log op s).
Proof.
  intros HJ Hs. destruct op as [now headers r|now ctx|tenant pol|dir| |t f a]; cbn.
  - destruct r as [v| |id|id d|id]; [|by apply run_ui_preserves..].
    apply present_handler_ok; [|done]. intros tenant p Ha Hp. apply HJ. by exists tenant.
  - pose proof (execute_ui_activity_ok log J now ctx _ HJ Hs) as Hw. unfold wp in Hw. unfold frames_ok. cbn.
    by destruct (execute_ui_activity _ _ _ _) as [w [a|e]].
  - done.
  - done.
  - by apply reload_ok.
  - done.
Qed.

(** A state in which nothing is pending. *)
Definition fresh_ui (s : UiState T K F) : Prop :=
  UiFrameStore.inner (ui_frames (us_ui s)) = ∅ ∧
  (UiFrameStore.file (ui_frames (us_ui s)) = None ∨ UiFrameStore.file (ui_frames (us_ui s)) = Some None).

(** C15: Nothing reaches a person that the guard did not pass.  From a state
    without pending frames, whatever requests, workflow activities, policy
    changes and restarts happen, every pending frame goes back to the one
    operation among them that presented it: a request of a caller who may write
    for the frame's tenant, or a run of the activity whose execution the frame
    waits for.  In the runtime as that operation found it, the submitted
    document, stamped with its execution and activity where it has them, was a
    valid frame; the source in force for the frame's own tenant - its policy, the
    default policy, the floor, or nothing where the server runs unrestricted -
    let it through; and what is pending reads back as exactly the frame it let
    through, redacted where it said so, breaks none of its rules (under the floor
    it has no control at all), and carries its hash and the reference of that
    source. *)
Theorem pending_frames_passed_the_guard ops s id p : fresh_ui s →
  UiFrameStore.inner (ui_frames (us_ui (ui_run platform_admins log ops s))) !! id = Some p →
  pf_frame_id p = id ∧
  ∃ before op after, ops = before ++ op :: after ∧ presented_by op (ui_run platform_admins log before s) p.
Proof.
  intros [Hf Hfile].
  set (J ops p := ∃ before op after, ops = before ++ op :: after ∧ presented_by op (ui_run platform_admins log before s) p).
  enough (∀ ops, frames_ok (J ops) (ui_run platform_admins log ops s)) as Hall by (intros Hp; by apply (Hall ops)).
  clear id p ops. intros ops. induction ops as [|op ops IH] using rev_ind.
  { change (frames_ok (J []) s). split; [intros ??; by rewrite Hf|]. intros ???. by destruct Hfile as [-> | ->]. }
  unfold ui_run. rewrite foldl_app. cbn [foldl]. apply ui_step_ok; [|eapply store_ok_mono; [|exact IH]].
  - intros p Hp. by exists ops, op, [].
  - intros p (before & op' & after & -> & Hp). exists before, op', (after ++ [op]). by rewrite <-app_assoc.
Qed.

(** *** Decisions *)

Abbreviation ST := (UiState T K F) (only parsing).
Definition pending_of (s : ST) (id : string) : option PendingFrame := UiFrameStore.inner (ui_frames (us_ui s)) !! id.

(** The decision [d] answers the pending frame [p] of the caller's tenant. *)
Definition answers (headers : HeaderMap) (id : string) (d : UiDecision) (s : ST) (tenant : string) (p : PendingFrame) : Prop :=
  tenant_authorize platform_admins (us_tenancy s) headers "ui:write" = Ok tenant ∧
  pending_of s id = Some p ∧ pf_tenant p = tenant ∧
  ∃ f, from_value (pf_frame p) = Ok f ∧ validate_decision f d = Ok ().

Ltac refused :=
  split; [done|]; split; [done|]; intros tenant' p'; split; [intros [=]|intros (? & ? & ? & ? & ? & ?); congruence].

Lemma check_decision_spec headers id d (s : ST) :
  let '(s', a) := check_decision platform_admins headers id d s in
  s' = s ∧ a ≠ HandlerPanic ∧ ∀ tenant p, a = Answer (tenant, p) ↔ answers headers id d s tenant p.
Proof.
  unfold check_decision, authorized, answers, own_frame, mbind, H_bind, reading.
  destruct (tenant_authorize _ _ _ _) as [tenant|err] eqn:Ea; cbn; [|refused].
  change (UiFrameStore.get id (ui_frames (us_ui s))) with (pending_of s id).
  destruct (pending_of s id) as [p|] eqn:Ep; cbn; [|refused].
  destruct (String.eqb_spec (pf_tenant p) tenant) as [Ht|Ht]; cbn; [|refused].
  destruct (from_value (pf_frame p)) as [f|err] eqn:Ef; cbn; [|refused].
  destruct (validate_decision f d) as [[]|err] eqn:Ev; cbn; [|refused].
  split; [done|]. split; [done|]. intros tenant' p'. split; [intros [= <- <-]; eauto 10|]. intros (? & ? & ? & ?). congruence.
Qed.

(** What delivers a decision of a frame: a signal to its execution that was
    accepted, or the record of outcomes. *)
Definition delivered (now : Z) (headers : HeaderMap) (d : UiDecision) (s s' : ST) (tenant : string) (p : PendingFrame) : Prop :=
  let by_ := TenantRoutes.principal headers in
  match pf_execution_id p, pf_activity_id p with
  | Some execution_id, Some activity_id =>
    ui_decisions (us_ui s') = ui_decisions (us_ui s) ∧ ∃ def f1,
      resolve_definition execution_id (us_workflows s) = (f1, inr def) ∧
      signal_event def execution_id activity_id (decision_payload now d by_ p) f1 = (us_workflows s', Ok ())
  | _, _ =>
    us_workflows s' = us_workflows s ∧
    ui_decisions (us_ui s') = DecidedOutcomeStore.record
      {| do_frame_id := pf_frame_id p; do_tenant := tenant; do_action := d_action d; do_values := d_values d;
         do_decided_by := by_; do_decided_at_ms := now; do_frame_hash := pf_frame_hash p |} (ui_decisions (us_ui s))
  end.

Lemma deliver_decision_spec now headers d (s : ST) tenant p :
  let '(s', a) := deliver_decision (T := T) now tenant (TenantRoutes.principal headers) d p s in
  us_tenancy s' = us_tenancy s ∧ set_decisions (ui_decisions (us_ui s)) (us_ui s') = us_ui s ∧
  match a with
  | Answer () => delivered now headers d s s' tenant p
  | Refuse _ => us_ui s' = us_ui s
  | HandlerPanic => False
  end.
Proof.
  unfold deliver_decision, delivered. assert (∀ w : UiRuntime K, set_decisions (ui_decisions w) w = w) as Hset by by intros [].
  destruct (pf_execution_id p) as [ex|], (pf_activity_id p) as [act|]; try (cbn; split_and!; [done|by destruct (us_ui s)|done..]).
  unfold mbind, H_bind, on_workflows. destruct (resolve_definition ex (us_workflows s)) as [f1 [err|def]] eqn:Er; cbn; [split_and!; [done|apply Hset|done]|].
  destruct (signal_event _ _ _ _ f1) as [f2 [[]|err]] eqn:Es; cbn; (split; [done|split; [apply Hset|]]); [|done].
  split; [done|]. by exists def, f1.
Qed.

Lemma nothing_to_decide now headers id d (s : ST) r : pending_of s id = None →
  (decide_handler platform_admins log now headers id d s).2 ≠ Answer r.
Proof.
  intros Hp. unfold decide_handler, mbind, H_bind. pose proof (check_decision_spec headers id d s) as Hc.
  destruct (check_decision platform_admins headers id d s) as [s1 [[tenant p]|e|]]; [|done..]. destruct Hc as (-> & _ & Hc).
  destruct (proj1 (Hc tenant p) eq_refl) as (_ & ? & _). congruence.
Qed.

(** C16: A decision counts once, for the frame it answers.  Deciding succeeds
    only for a caller whose roles grant it, on a pending frame of its tenant and
    with a decision that frame admits; the decision then went to the suspended
    activity or, without one, to the record of outcomes, the audit log has
    exactly one new event that pairs caller, frame and content hash, the frame
    is no longer pending, and no later decision on it succeeds until a frame is
    presented under its id again.  A decision that is refused leaves frames,
    outcomes and audit log as they were. *)
Theorem decisions_answer_what_is_pending now headers id d (s : ST) :
  let '(s', a) := decide_handler platform_admins log now headers id d s in
  match a with
  | Answer _ => ∃ tenant p, answers headers id d s tenant p ∧ delivered now headers d s s' tenant p ∧
      UiFrameStore.inner (ui_frames (us_ui s')) = delete id (UiFrameStore.inner (ui_frames (us_ui s))) ∧
      ui_audit (us_ui s') = (record log (audit_event now headers tenant "ui.decision.submit" "ui_frame"
                                          (id +:+ ":" +:+ pf_frame_hash p)) (ui_audit (us_ui s))).1 ∧
      ∀ now' headers' d' r, (decide_handler platform_admins log now' headers' id d' s').2 ≠ Answer r
  | Refuse _ => us_ui s' = us_ui s
  | HandlerPanic => False
  end.
Proof.
  unfold decide_handler. unfold mbind at 1, H_bind at 1. pose proof (check_decision_spec headers id d s) as Hc.
  destruct (check_decision platform_admins headers id d s) as [s1 [[tenant p]|e|]]; destruct Hc as (-> & Hnp & Hc); [|done..].
  - pose proof (proj1 (Hc tenant p) eq_refl) as Hans. unfold commit_decision. unfold mbind at 1, H_bind at 1.
    pose proof (deliver_decision_spec now headers d s tenant p) as Hd.
    destruct (deliver_decision now tenant _ d p s) as [s1 [[]|e|]]; [|by destruct Hd as (_ & _ & Hd)..].
    destruct Hd as (Ht & Hw & Hd). unfold mbind, H_bind, on_ui. rewrite frames_remove_spec. cbn.
    assert (ui_frames (us_ui s1) = ui_frames (us_ui s) ∧ ui_audit (us_ui s1) = ui_audit (us_ui s)) as [Hf Ha] by (by rewrite <-Hw).
    exists tenant, p. rewrite removed, Hf, Ha. split_and!; [done|exact Hd|done..|].
    intros now' headers' d' r. apply nothing_to_decide. unfold pending_of. cbn. by rewrite removed, lookup_delete_eq.
Qed.

(** *** What a tenant sees *)

#[export] Instance presented_before_total : Total presented_before.
Proof.
  intros a b. unfold presented_before.
  destruct (Z.lt_trichotomy (pf_created_at_ms a) (pf_created_at_ms b)) as [?|[?|?]]; [by left; left| |by right; left].
  destruct (base.total String.le (pf_frame_id a) (pf_frame_id b)); [left|right]; by right.
Qed.
#[export] Instance presented_before_trans : Transitive presented_before.
Proof.
  intros a b c. unfold presented_before. intros [?|[??]] [?|[??]]; [left; lia..|]. right. split; [lia|by etrans].
Qed.

Lemma own_frame_spec tenant id (s : ST) :
  own_frame tenant id s =
  match pending_of s id with
  | Some p => if String.eqb (pf_tenant p) tenant then (s, Answer p) else (s, Refuse (no_frame id))
  | None => (s, Refuse (no_frame id))
  end.
Proof.
  unfold own_frame, mbind, H_bind, reading. change (UiFrameStore.get id (ui_frames (us_ui s))) with (pending_of s id).
  destruct (pending_of s id) as [p|]; [|done]. by destruct (String.eqb (pf_tenant p) tenant).
Qed.

(** A tenant sees its own frames and nothing of the others'.  The listing of
    a caller that may read holds exactly the pending frames of its tenant, in
    the order they were presented; and a frame that is another tenant's is
    answered, when it is read or decided, exactly as a frame that does not
    exist, and nothing changes. *)
Theorem tenants_see_their_own_frames headers tenant now (s : ST) :
  tenant_authorize platform_admins (us_tenancy s) headers "ui:read" = Ok tenant →
  (∃ l, run_ui platform_admins log now headers ListFrames s =
          (s, Answer (json_response 200 (Object [("data", Array (map frame_body l))]))) ∧
     StronglySorted presented_before l ∧
     ∀ p, p ∈ l ↔ (∃ id, pending_of s id = Some p) ∧ pf_tenant p = tenant) ∧
  ∀ id d, (∀ p, pending_of s id = Some p → pf_tenant p ≠ tenant) →
    run_ui platform_admins log now headers (GetFrame id) s = (s, Refuse (no_frame id)) ∧
    (tenant_authorize platform_admins (us_tenancy s) headers "ui:write" = Ok tenant →
     run_ui platform_admins log now headers (Decide id d) s = (s, Refuse (no_frame id))).
Proof.
  intros Ha. split.
  - exists (UiFrameStore.list_of tenant (ui_frames (us_ui s))). split_and!.
    + cbn. unfold list_frames_handler, authorized, mbind, H_bind. by rewrite Ha.
    + apply StronglySorted_merge_sort; apply _.
    + intros p. unfold UiFrameStore.list_of. rewrite merge_sort_Permutation, filter_elem, list_elem_of_fmap, String.eqb_eq.
      split; intros [Hp Ht]; (split; [|done]).
      * destruct Hp as ([id p'] & -> & Hin). apply btree_iter_elem in Hin. by exists id.
      * destruct Hp as [id Hp]. exists (id, p). split; [done|]. by apply btree_iter_elem.
  - intros id d Hother.
    assert (own_frame tenant id s = (s, Refuse (no_frame id))) as Hown.
    { rewrite own_frame_spec. destruct (pending_of s id) as [p|] eqn:E; [|done].
      by rewrite (proj2 (String.eqb_neq _ _) (Hother p eq_refl)). }
    split; [|intros Hw]; cbn; unfold get_frame_handler, decide_handler, check_decision, authorized, mbind, H_bind.
    + rewrite Ha. cbn. by rewrite Hown.
    + rewrite Hw. cbn. by rewrite Hown.
Qed.

Lemma restart_reuses_frame_ids now now' tenant v (w w1 w2 : UiRuntime K) p1 p2 : ui_standalone_seq w = 0 →
  present_standalone log now tenant v w = (w1, Ret (inr p1)) →
  present_standalone log now' tenant v (restarted w1) = (w2, Ret (inr p2)) →
  pf_frame_hash p2 = pf_frame_hash p1 → pf_frame_id p2 = pf_frame_id p1.
Proof.
  assert (∀ now (w w' : UiRuntime K) p, present_standalone log now tenant v w = (w', Ret (inr p)) →
    pf_frame_id p = frame_id_for_standalone tenant (ui_standalone_seq w) (pf_frame_hash p)) as Hid.
  { clear. intros now w w' p Hp. unfold present_standalone in Hp.
    apply bind_Ret_inv in Hp as (? & seq & [= <- <-] & Hp). apply bind_Ret_inv in Hp as (? & ? & _ & Hp). cbv zeta in Hp.
    apply bind_Ret_inv in Hp as (? & [e|[f policy_ref]] & _ & Hp); [done|].
    destruct (frame_to_json f); [done|]. apply bind_Ret_inv in Hp as (? & ? & _ & Hp).
    apply bind_Ret_inv in Hp as (? & ? & _ & Hp). by injection Hp as _ <-. }
  intros H0' H1'%Hid H2'%Hid Hh. rewrite H1', H2', Hh, H0'. done.
Qed.
End requests.

(** *** The tool *)

Section tool_laws.
Context {I V : Type} `{UiInteraction I, SemVersion V, UiSerde, Unicode}.

(** The tool shows only what the guard passed and answers only what the
    frame admits.  Whatever the call ends with, the person was not asked at all
    or was shown a frame that the tool's policy - or the floor - let through;
    and a successful call answers a decision of the person that this very frame
    admits. *)
Theorem tool_answers_valid_decisions (t : UiPresentTool) (req : ToolRequest) (i : I) :
  let '(i', answer) := ui_present_execute t req i in
  (i' = i ∨ ∃ v f0 f, value_get "frame" (parameters req) = Some v ∧ from_value v = Ok f0 ∧ passes (tool_source t) f0 f ∧
     permitted (tool_source t) f ∧ i' = (ask_person f i).1 ∧
     ∀ resp, answer = Ret (inr resp) → ∃ d, (ask_person f i).2 = Ok d ∧ validate_decision f d = Ok () ∧
       resp = ToolResponse_success (Object [("action", Str (d_action d)); ("values", Object (btree_iter (d_values d)))])) ∧
  ∀ resp, answer = Ret (inr resp) → ∃ f d, permitted (tool_source t) f ∧ (ask_person f i).2 = Ok d ∧ validate_decision f d = Ok ().
Proof.
  unfold ui_present_execute. destruct (value_get "frame" (parameters req)) as [v|] eqn:Ev; [|by split; [left|]].
  destruct (from_value v) as [f0|e] eqn:Ef; [|by split; [left|]].
  assert (∀ f, passes (tool_source t) f0 f → let '(i', answer) := show_and_ask f i in
    i' = (ask_person f i).1 ∧ ∀ resp, answer = Ret (inr resp) → ∃ d, (ask_person f i).2 = Ok d ∧ validate_decision f d = Ok () ∧
       resp = ToolResponse_success (Object [("action", Str (d_action d)); ("values", Object (btree_iter (d_values d)))])) as Hshow.
  { intros f _. unfold show_and_ask. destruct (ask_person f i) as [i1 [d|e]]; cbn; split; try done.
    intros resp. destruct (validate_decision f d) as [[]|e] eqn:Ed; [|done]. intros [= <-]. eauto. }
  unfold mbind, M_bind, lift. destruct (verdict_of (tool_source t) f0) as [[|f fired|rule reason]|st] eqn:Ever; [| | |by split; [left|]].
  3: by split; [left|].
  - assert (passes (tool_source t) f0 f0) as Hp by by left. specialize (Hshow f0 Hp). destruct (show_and_ask f0 i) as [i' a].
    destruct Hshow as [Hi Ha]. split; [right; exists v, f0, f0; split_and!; try done; by eapply passes_permitted|].
    intros resp (d & ? & ? & _)%Ha. exists f0, d. split; [by eapply passes_permitted|done].
  - assert (passes (tool_source t) f0 f) as Hp by (right; eauto). specialize (Hshow f Hp). destruct (show_and_ask f i) as [i' a].
    destruct Hshow as [Hi Ha]. split; [right; exists v, f0, f; split_and!; try done; by eapply passes_permitted|].
    intros resp (d & ? & ? & _)%Ha. exists f, d. split; [by eapply passes_permitted|done].
Qed.
End tool_laws.

(** ** An example: forms of two tenants *)

Module UiExample.
#[local] Existing Instance ascii_tables.
#[local] Existing Instance http_json_example.
#[local] Existing Instance audit_serde_example.
#[local] Instance crypto : AuditCrypto := {| sha256 s := s; hmac_sha256 _ _ := "m"; audit_body id _ _ := id |}.
#[local] Instance policies : PolicyYaml := λ _, inl "no policy".
#[local] Instance versions : SemVersion Z := {|
  parse_semver s := if String.eqb s "1.0.0" then inr 1 else inl "unknown version"; semver_major v := v; semver_cmp := Z.compare |}.

Definition form_of (n : Z) : UiFrame := form (NumberInput "quantity" "Quantity" (Some f64_one) (Some (f64_of_Z n)) true).
(** A frame whose author says which run it is of. *)
Definition forged : UiFrame := {|
  schema_version := "1.0.0"; frame_title := None;
  provenance := {| pv_execution_id := Some "exec-1"; pv_activity_id := Some "pay"; pv_run_id := Some "run-1";
                   pv_model_id := Some "gpt"; pv_prompt_ref := None |};
  root := Text "Paid" Body |}.
Definition shown (n : Z) : UiFrame := stamp_provenance "exec-1" "order" (form_of n).
Definition frames : list UiFrame := [form_of 10; form_of 20; forged; shown 10; shown 20].

(** A frame is written as its place in the table. *)
#[local] Instance frame_table : UiSerde := {|
  frame_of_json v := match v with Str s => table_read frames s | _ => inl "not a frame" end;
  frame_to_json f := match table_write frames f with inr s => inr (Str s) | inl e => inl e end;
  frame_debug _ := "frame";
  json_to_string v := match v with Str s => inr s | _ => inl "not a text" end |}.

#[local] Instance PendingFrame_eq_dec : EqDecision PendingFrame.
Proof. solve_decision. Defined.
Definition pending_order : PendingFrame := {|
  pf_frame_id := "uif-61636d651f000000"; pf_tenant := "acme"; pf_execution_id := None; pf_activity_id := None;
  pf_frame := Str "0"; pf_frame_hash := "30"; pf_policy_ref := "default@v1"; pf_created_at_ms := 7 |}.
#[local] Instance pending_table : PendingSerde := {|
  pending_to_bytes := table_write [[]; [pending_order]]; pending_of_bytes := table_read [[]; [pending_order]] |}.

Lemma frames_finite : Forall finite_bounds frames.
Proof.
  unfold finite_bounds, nodes, frames. repeat constructor; cbn;
    (intros n Hn; repeat (apply elem_of_cons in Hn as [->|Hn]; [cbn; try done; split; intros x [= <-]; vm_compute; reflexivity|]);
     by apply not_elem_of_nil in Hn).
Qed.
#[local] Instance table_laws : UiSerdeLaws.
Proof.
  split.
  - intros [| | |s| |] f; cbn; try done. unfold table_read. case_match eqn:E; [|done]. destruct p as [z f']. intros [= <-].
    apply find_some in E as [Hin _]. apply list_elem_of_In, elem_of_lookup_imap in Hin as (i & g & [= _ ->] & Hg).
    eapply Forall_lookup in Hg; [exact Hg|apply frames_finite].
  - intros f v _. cbn. destruct (table_write frames f) as [e|s] eqn:E; [done|]. intros [= <-]. by apply table_write_read.
  - intros l bytes. cbn. apply table_write_read.
Qed.

(** The executions that were signalled. *)
Definition signals : Type := list (string * string * Value).
#[local] Instance workflows : UiWorkflows signals () := {|
  resolve_definition _ f := (f, inr ()); signal_event _ ex act v f := (f ++ [(ex, act, v)], Ok ()) |}.

Definition no_audit : AuditStore InMemoryAuditSink.t := {| sink := InMemoryAuditSink.new; head_file := None; notarized := [] |}.
Definition start : UiState InMemoryTenancyStore.t InMemoryAuditSink.t signals := {|
  us_tenancy := two_tenants; us_ui := set_frames (UiFrameStore.new (Some None)) (ui_in_memory no_audit); us_workflows := [] |}.
Abbreviation op := (ui_op (T := InMemoryTenancyStore.t) (K := InMemoryAuditSink.t) (F := signals)) (only parsing).
Definition go (ops : list op) := ui_run (V := Z) None AuditLog_open ops start.

Definition present_order : list op := [
  SetPolicy "acme" default_policy; Request 7 (asks "acme" "ada") (PresentFrame (Str "0"))].
Definition order_id : string := "uif-61636d651f000000".

Lemma pending_frames_passed_the_guard_witness :
  let ops := present_order ++ [Restarted] in
  UiFrameStore.inner (ui_frames (us_ui (go ops))) !! order_id = Some pending_order ∧
  ∃ before op after, ops = before ++ op :: after ∧ presented_by (V := Z) None op (go before) pending_order.
Proof.
  intros ops.
  assert (UiFrameStore.inner (ui_frames (us_ui (go ops))) !! order_id = Some pending_order) as Hp
    by (vm_compute; reflexivity).
  split; [exact Hp|].
  apply (pending_frames_passed_the_guard (V := Z) None AuditLog_open ops start order_id pending_order);
    [|exact Hp]. split; [reflexivity|by right].
Defined.

Definition reading_headers : HeaderMap := asks "acme" "ada".
Lemma tenants_see_their_own_frames_witness :
  tenant_authorize None (us_tenancy (go present_order)) (asks "evil" "eve") "ui:read" = Ok "evil" ∧
  run_ui (V := Z) None AuditLog_open 9 (asks "evil" "eve") (GetFrame order_id) (go present_order)
    = (go present_order, Refuse (no_frame order_id)).
Proof.
  assert (tenant_authorize None (us_tenancy (go present_order)) (asks "evil" "eve") "ui:read" = Ok "evil") as Ha
    by (vm_compute; reflexivity).
  split; [exact Ha|].
  destruct (tenants_see_their_own_frames (V := Z) None AuditLog_open (asks "evil" "eve") "evil" 9 (go present_order) Ha)
    as [_ Hother]. destruct (Hother order_id (order 3)) as [Hg _]; [|exact Hg].
  intros p Hp. assert (pending_of (go present_order) order_id = Some pending_order) as Hq by (vm_compute; reflexivity).
  rewrite Hp in Hq. injection Hq as ->. discriminate.
Defined.

(** The order form as an activity of an execution. *)
Definition ask_quantity (n : string) : ActivityContext := {|
  ctx_id := "order"; ctx_activity_type := "ui"; ctx_name := None; ctx_inputs := Object [("frame", Str n)];
  ctx_variables := {["__execution_id" := Str "exec-1"; "__tenant" := Str "acme"]}; ctx_attempt := 1; ctx_progress := false |}.
Definition allowing : UiRuntime InMemoryAuditSink.t := set_tenant_policy "acme" default_policy (us_ui start).

Lemma ui_activities_wait_for_a_decision_witness :
  ∃ w' m, execute_ui_activity (V := Z) AuditLog_open 7 (ask_quantity "0") allowing = (w', Ret (inl (Interrupted m))) ∧
    execute_ui_activity (V := Z) AuditLog_open 9 (ask_quantity "0") w' = (w', Ret (inl (Interrupted m))).
Proof.
  destruct (execute_ui_activity (V := Z) AuditLog_open 7 (ask_quantity "0") allowing) as [w' a] eqn:E.
  assert (∃ m, a = Ret (inl (Interrupted m))) as [m ->] by (vm_compute in E; injection E as _ <-; eauto).
  exists w', m. split; [done|].
  destruct (ui_activities_wait_for_a_decision (V := Z) AuditLog_open 7 (ask_quantity "0") allowing w' m E) as (ex & _ & _ & Ha & _).
  apply Ha.
Defined.

(** *** What the runtime does not prevent *)

(** Two decisions that were both checked before either was delivered both
    count: both are answered, the record holds the second, and the audit log has
    an event for each. *)
Definition cancels : UiDecision := {| d_action := "no"; d_values := ∅ |}.
Definition both_decide : option (Z * Z * option string * nat) :=
  let s := go present_order in
  let '(s, c1) := check_decision (V := Z) None (asks "acme" "ada") order_id (order 3) s in
  let '(s, c2) := check_decision (V := Z) None (asks "acme" "pat") order_id cancels s in
  match c1, c2 with
  | Answer c1, Answer c2 =>
    let '(s, r1) := commit_decision AuditLog_open 8 (asks "acme" "ada") order_id (order 3) c1 s in
    let '(s, r2) := commit_decision AuditLog_open 9 (asks "acme" "pat") order_id cancels c2 s in
    Some (status_of r1, status_of r2, do_action <$> DecidedOutcomeStore.get order_id (ui_decisions (us_ui s)),
          length (List.filter (λ e, String.eqb (action (event e)) "ui.decision.submit") (sink (ui_audit (us_ui s)))))
  | _, _ => None
  end.
Lemma concurrent_decisions_both_count : both_decide = Some (200, 200, Some "no", 2%nat).
Proof. vm_compute. reflexivity. Qed.

(** An activity that shows another frame under its id replaces the pending one;
    a decision names no content, so what was decided on the first frame is
    checked against the second and recorded with the second's hash. *)
Definition shows_another : list op := [
  SetPolicy "acme" default_policy; Activity 7 (ask_quantity "0"); Activity 8 (ask_quantity "1")].
Definition order_handle : string := frame_id_for "exec-1" "order".
Lemma decisions_are_recorded_for_frames_not_seen :
  pf_frame_hash <$> pending_of (go (take 2 shows_another)) order_handle = Some (content_hash (shown 10)) ∧
  pf_frame_hash <$> pending_of (go shows_another) order_handle = Some (content_hash (shown 20)) ∧
  content_hash (shown 10) ≠ content_hash (shown 20) ∧
  status_of (run_ui (V := Z) None AuditLog_open 9 (asks "acme" "ada") (Decide order_handle (order 15)) (go (take 2 shows_another))).2 = 400 ∧
  status_of (run_ui (V := Z) None AuditLog_open 9 (asks "acme" "ada") (Decide order_handle (order 15)) (go shows_another)).2 = 200.
Proof. split_and!; vm_compute; done. Qed.

(** The author's provenance is kept: the run, model and prompt by an activity,
    all of it by a frame without one. *)
Lemma author_provenance_survives :
  pv_run_id (provenance (stamp_provenance "exec-9" "show" forged)) = Some "run-1" ∧
  pv_model_id (provenance (stamp_provenance "exec-9" "show" forged)) = Some "gpt" ∧
  match (present_standalone (V := Z) AuditLog_open 7 "acme" (Str "2") allowing).2 with
  | Ret (inr p) => pf_execution_id p = None ∧ ∃ f, from_value (pf_frame p) = Ok f ∧ pv_execution_id (provenance f) = Some "exec-1"
  | _ => False
  end.
Proof. split_and!; [reflexivity..|]. vm_compute. split; [done|]. eexists. split; reflexivity. Qed.

(** A variable with the name of the activity answers it unchecked: no frame was
    shown, nobody decided. *)
Definition prefilled : ActivityContext := {|
  ctx_id := "order"; ctx_activity_type := "ui"; ctx_name := None; ctx_inputs := Object [("frame", Str "0")];
  ctx_variables := {["order" := Str "anything"]}; ctx_attempt := 1; ctx_progress := false |}.
Lemma variables_answer_for_people :
  execute_ui_activity (V := Z) AuditLog_open 7 prefilled (us_ui start) = (us_ui start, Ret (inr (Str "anything"))).
Proof. reflexivity. Qed.

(** Tenants whose names differ in other characters have one policy file. *)
Lemma tenants_share_policy_files : sanitize "acme/eu" = sanitize "acme.eu".
Proof. reflexivity. Qed.
End UiExample.
