(* ===== verification/Market.v ===== *)
(** * The marketplace registry

    crates/wovyr-marketplace/src: listings (listing.rs), the operator's policy
    (policy.rs), the security scan (scan.rs), the vulnerability feed (vuln.rs),
    the stores (store.rs) and the registry over them (registry.rs).  JSON,
    YAML, semantic versions, digests and signatures are third-party code; the
    calls of the operating system that write succeed. *)
From stdpp Require Import base tactics list numbers strings gmap sorting.
From Stdlib Require Import Lia ZArith Ascii SpecFloat.
From S2P Require Import Prelude.
From S2P Require Import RustStr.
From S2P Require Import F64.
From S2P Require Import Common.
From S2P Require Import Effect.
From S2P Require Import JsonValue.
From S2P Require Import Manifest.
From S2P Require Import ToolRegistry.
From S2P Require Import Keyless.
From S2P Require Import Resolve.
From S2P Require Import PluginEngine.
Local Open Scope Z_scope.

(** ** [scan.rs] and [listing.rs]: the data *)

Inductive Severity := SevInfo | SevWarning | SevCritical.
#[export] Instance Severity_eq_dec : EqDecision Severity.
Proof. solve_decision. Defined.
Definition severity_rank (s : Severity) : Z :=
  match s with SevInfo => 0 | SevWarning => 1 | SevCritical => 2 end.
Definition severity_debug (s : Severity) : string :=
  match s with SevInfo => "Info" | SevWarning => "Warning" | SevCritical => "Critical" end.

Record Finding := { fd_code : string; fd_severity : Severity; fd_message : string }.
Record ScanReport := { findings : list Finding }.

(** [Iterator::max]: the last of the greatest, which are equal. *)
Definition max_severity (r : ScanReport) : option Severity :=
  foldl (λ m f, match m with
                | None => Some (fd_severity f)
                | Some s => if Z.ltb (severity_rank (fd_severity f)) (severity_rank s) then Some s
                            else Some (fd_severity f)
                end) None (findings r).

Inductive PermissionRisk := RiskLow | RiskMedium | RiskHigh.
#[export] Instance PermissionRisk_eq_dec : EqDecision PermissionRisk.
Proof. solve_decision. Defined.
Definition risk_rank (r : PermissionRisk) : Z :=
  match r with RiskLow => 0 | RiskMedium => 1 | RiskHigh => 2 end.
Definition risk_debug (r : PermissionRisk) : string :=
  match r with RiskLow => "Low" | RiskMedium => "Medium" | RiskHigh => "High" end.
Definition classify (permissions : list string) : PermissionRisk :=
  if existsb is_broad permissions then RiskHigh
  else match permissions with [] => RiskLow | _ => RiskMedium end.

Record PublishedVersion := {
  pv_version : string; pv_description : string; pv_license : string; pv_permissions : list string;
  pv_capabilities : list CapabilityKind; pv_risk : PermissionRisk; pv_scan : ScanReport;
  pv_package_digest : string; pv_package : string }.

Record Review := { rv_author : string; rv_rating : Z; rv_body : string }.

Inductive ReviewStatus :=
  | Unreviewed
  | Pending (version : string)
  | Approved (reviewer version : string)
  | Rejected (reviewer version reason : string).
Definition is_pending (s : ReviewStatus) : bool := match s with Pending _ => true | _ => false end.

Inductive AbuseReportStatus :=
  | ReportOpen
  | ReportResolved (moderator : string) (delisted : bool)
  | ReportDismissed (moderator reason : string).
Definition is_open (s : AbuseReportStatus) : bool := match s with ReportOpen => true | _ => false end.
Record AbuseReport := { ar_id : Z; ar_reporter : string; ar_reason : string; ar_status : AbuseReportStatus }.

Record ListingRecord := {
  lr_id : string; lr_publisher : string; lr_name : string; lr_categories : list string;
  lr_versions : list PublishedVersion; lr_channels : gmap string string; lr_reviews : list Review;
  lr_installs : Z; lr_verified : bool; lr_review : ReviewStatus; lr_abuse_reports : list AbuseReport;
  lr_delisted : bool }.

Record Listing := {
  li_id : string; li_publisher : string; li_name : string; li_description : string;
  li_categories : list string; li_capabilities : list CapabilityKind; li_permissions : list string;
  li_risk : PermissionRisk; li_scan_severity : option Severity; li_scan_findings : Z;
  li_versions : list string; li_channels : gmap string string; li_rating : option f64; li_reviews : Z;
  li_installs : Z; li_verified : bool; li_review : ReviewStatus }.

Definition latest (rec : ListingRecord) : option PublishedVersion := head (lr_versions rec).
Definition version (v : string) (rec : ListingRecord) : option PublishedVersion :=
  find (λ p, String.eqb (pv_version p) v) (lr_versions rec).

(** The sum of bytes stays far within 64 bits. *)
Definition rating (rec : ListingRecord) : option f64 :=
  match lr_reviews rec with
  | [] => None
  | reviews => Some (f64_div (f64_of_Z (foldl Z.add 0 (map rv_rating reviews)))
                             (f64_of_Z (Z.of_nat (length reviews))))
  end.

(** [Vec::dedup]: runs of equal elements become one. *)
Fixpoint dedup {A} `{EqDecision A} (l : list A) : list A :=
  match l with
  | a :: (b :: _) as l' => if decide (a = b) then dedup l' else a :: dedup l'
  | l => l
  end.

Definition to_listing (rec : ListingRecord) : Listing :=
  let last := latest rec in
  {| li_id := lr_id rec; li_publisher := lr_publisher rec; li_name := lr_name rec;
     li_description := default "" (pv_description <$> last);
     li_categories := lr_categories rec;
     li_capabilities := dedup (default [] (pv_capabilities <$> last));
     li_permissions := default [] (pv_permissions <$> last);
     li_risk := default RiskLow (pv_risk <$> last);
     li_scan_severity := v ← last; max_severity (pv_scan v);
     li_scan_findings := default 0 ((λ v, Z.of_nat (length (findings (pv_scan v)))) <$> last);
     li_versions := map pv_version (lr_versions rec); li_channels := lr_channels rec; li_rating := rating rec;
     li_reviews := Z.of_nat (length (lr_reviews rec)); li_installs := lr_installs rec;
     li_verified := lr_verified rec; li_review := lr_review rec |}.

(** ** [policy.rs] *)

Record RegistryPolicy := {
  allow_publishers : option (list string); max_permission_risk : PermissionRisk; blocklist : list string;
  require_verified : bool; deny_components : list string; block_scan_severity : option Severity }.
Definition RegistryPolicy_default : RegistryPolicy := {|
  allow_publishers := None; max_permission_risk := RiskHigh; blocklist := []; require_verified := false;
  deny_components := []; block_scan_severity := None |}.

Definition allows_publisher (publisher : string) (p : RegistryPolicy) : bool :=
  match allow_publishers p with
  | Some l => existsb (λ q, String.eqb q publisher) l
  | None => true
  end.
Definition is_blocked (listing_id : string) (p : RegistryPolicy) : bool :=
  existsb (λ b, String.eqb b listing_id) (blocklist p).

Definition check_publish (publisher listing_id : string) (risk : PermissionRisk) (p : RegistryPolicy) : result () :=
  if is_blocked listing_id p then
    Err (Forbidden ("listing " +:+ (ticked listing_id +:+ " is blocklisted by marketplace policy")))
  else if negb (allows_publisher publisher p) then
    Err (Forbidden ("publisher " +:+ (ticked publisher +:+ " is not in the marketplace allow-list")))
  else if Z.ltb (risk_rank (max_permission_risk p)) (risk_rank risk) then
    Err (Forbidden ("version permission risk " +:+ (ticked (risk_debug risk) +:+ (" exceeds policy maximum " +:+
      ticked (risk_debug (max_permission_risk p))))))
  else Ok ().

Definition at_or_above (ceiling : Severity) (f : Finding) : bool :=
  Z.leb (severity_rank ceiling) (severity_rank (fd_severity f)).
Definition finding_line (f : Finding) : string :=
  fd_code f +:+ (" (" +:+ (severity_debug (fd_severity f) +:+ ("): " +:+ fd_message f))).
Definition check_scan (report : ScanReport) (p : RegistryPolicy) : result () :=
  match block_scan_severity p with
  | None => Ok ()
  | Some ceiling =>
    match map finding_line (List.filter (at_or_above ceiling) (findings report)) with
    | [] => Ok ()
    | blocking => Err (Forbidden ("security scan blocks publish (policy blocks at " +:+
        (ticked (severity_debug ceiling) +:+ (" and above): " +:+ join_with "; " blocking))))
    end
  end.

(** ** [vuln.rs] *)

Record RawEvent := { ev_introduced : option string; ev_fixed : option string; ev_last_affected : option string }.
Record RawRange := { rr_kind : string; rr_events : list RawEvent }.
Record RawAffected := { ra_package : option string; ra_versions : list string; ra_ranges : list RawRange }.
Record RawEntry := {
  re_id : string; re_summary : string; re_aliases : list string; re_affected : list RawAffected }.

(** [serde_json::from_str] at a list of records, and at an object with [vulns]. *)
Class OsvJson := {
  osv_array : string → string + list RawEntry;
  osv_wrapped : string → string + list RawEntry }.

Record SemverRange (V : Type) := {
  sr_introduced : option V; sr_fixed : option V; sr_last_affected : option V }.
Arguments sr_introduced {V} _.
Arguments sr_fixed {V} _.
Arguments sr_last_affected {V} _.
Arguments Build_SemverRange {V} _ _ _.
Record Affected (V : Type) := {
  af_package : string; af_versions : list string; af_ranges : list (SemverRange V) }.
Arguments af_package {V} _.
Arguments af_versions {V} _.
Arguments af_ranges {V} _.
Arguments Build_Affected {V} _ _ _.
Record Advisory (V : Type) := {
  adv_id : string; adv_summary : string; adv_aliases : list string; adv_affected : list (Affected V) }.
Arguments adv_id {V} _.
Arguments adv_summary {V} _.
Arguments adv_aliases {V} _.
Arguments adv_affected {V} _.
Arguments Build_Advisory {V} _ _ _ _.
Record VulnFeed (V : Type) := { by_package : gmap string (list (Advisory V)) }.
Arguments by_package {V} _.
Arguments Build_VulnFeed {V} _.
Definition VulnFeed_default {V} : VulnFeed V := {| by_package := ∅ |}.

Section vuln.
Context `{Semver V R}.

Definition version_lt (a b : V) : bool := match version_cmp a b with Lt => true | _ => false end.
Definition version_le (a b : V) : bool := match version_cmp a b with Gt => false | _ => true end.

Definition range_contains (r : SemverRange V) (v : V) : bool :=
  match sr_introduced r with
  | Some intro => negb (version_lt v intro)
  | None => true
  end &&
  match sr_fixed r, sr_last_affected r with
  | Some fixed, _ => version_lt v fixed
  | None, Some last => version_le v last
  | None, None => true
  end.

Definition version_ok (s : string) : option V :=
  match parse_version s with inr v => Some v | inl _ => None end.
Definition parse_lenient (s : string) : option V :=
  let s := trim s in
  if is_empty s then None
  else
    match version_ok s with
    | Some v => Some v
    | None =>
      match version_ok (s +:+ ".0") with
      | Some v => Some v
      | None => version_ok (s +:+ ".0.0")
      end
    end.

Definition fold_event (r : SemverRange V) (e : RawEvent) : SemverRange V := {|
  sr_introduced :=
    match ev_introduced e with
    | Some v => if String.eqb v "0" then sr_introduced r else parse_lenient v
    | None => sr_introduced r
    end;
  sr_fixed := match ev_fixed e with Some v => parse_lenient v | None => sr_fixed r end;
  sr_last_affected := match ev_last_affected e with Some v => parse_lenient v | None => sr_last_affected r end |}.
Definition parse_range (r : RawRange) : SemverRange V :=
  foldl fold_event {| sr_introduced := None; sr_fixed := None; sr_last_affected := None |} (rr_events r).

Definition parse_affected (a : RawAffected) : option (Affected V) :=
  match ra_package a with
  | None => None
  | Some name =>
    if is_empty name then None
    else Some {| af_package := name; af_versions := ra_versions a;
                 af_ranges := map parse_range (List.filter (λ r, String.eqb (rr_kind r) "SEMVER") (ra_ranges a)) |}
  end.
Definition advisory_of (raw : RawEntry) : Advisory V := {|
  adv_id := re_id raw; adv_summary := re_summary raw; adv_aliases := re_aliases raw;
  adv_affected := omap parse_affected (re_affected raw) |}.

Definition push_advisory (adv : Advisory V) (m : gmap string (list (Advisory V))) (name : string)
    : gmap string (list (Advisory V)) :=
  <[name := default [] (m !! name) ++ [adv]]> m.
(** The packages an advisory is indexed under. *)
Definition indexed_names (adv : Advisory V) : list string :=
  dedup (merge_sort String.le (map af_package (adv_affected adv))).
Fixpoint index_entries (entries : list RawEntry) (m : gmap string (list (Advisory V)))
    : result (gmap string (list (Advisory V))) :=
  match entries with
  | [] => Ok m
  | raw :: entries =>
    if is_empty (re_id raw) then
      Err (Invalid "OSV feed record without an `id` — refusing a feed that can't name its own advisories")
    else
      let adv := advisory_of raw in
      index_entries entries (foldl (push_advisory adv) m (indexed_names adv))
  end.

Definition from_osv_json `{OsvJson} (json : string) : result (VulnFeed V) :=
  entries ← match osv_array json with
            | inr v => Ok v
            | inl _ =>
              match osv_wrapped json with
              | inr v => Ok v
              | inl e => Err (Invalid (
                  "OSV feed is neither an array of records nor {" +:+ (String "034" "" +:+ ("vulns" +:+
                  (String "034" "" +:+ (": […]}: " +:+ e))))))
              end
            end;
  m ← index_entries entries ∅;
  Ok {| by_package := m |}.

Definition feed_is_empty (f : VulnFeed V) : bool := Nat.eqb (size (by_package f)) 0.
Definition package_count (f : VulnFeed V) : Z := Z.of_nat (size (by_package f)).

Definition affects (name version : string) (parsed : option V) (a : Affected V) : bool :=
  String.eqb (af_package a) name
  && (existsb (λ v, String.eqb v version) (af_versions a)
      || match parsed with Some v => existsb (λ r, range_contains r v) (af_ranges a) | None => false end).
Definition advisories_for (name version : string) (f : VulnFeed V) : list (Advisory V) :=
  match by_package f !! name with
  | None => []
  | Some advisories =>
    let parsed := parse_lenient version in
    List.filter (λ adv, existsb (affects name version parsed) (adv_affected adv)) advisories
  end.
End vuln.

(** ** [scan.rs]: the scan *)

Section scan.
Context `{Semver V R} `{PluginCrypto}.

Definition finding (code : string) (severity : Severity) (message : string) : Finding :=
  {| fd_code := code; fd_severity := severity; fd_message := message |}.

Definition scan_artifact (package : Package) (a : Artifact) : list Finding :=
  match pkg_artifacts package !! art_path a with
  | None => [finding "artifact.missing" SevCritical
               ("artifact " +:+ (ticked (art_path a) +:+ " is declared but not bundled"))]
  | Some bytes =>
    if is_ok (verify_digest (art_digest a) bytes) then []
    else [finding "artifact.digest_mismatch" SevCritical
            ("artifact " +:+ (ticked (art_path a) +:+ " does not match its declared digest"))]
  end.
Definition scan_permission (perm : string) : list Finding :=
  if is_broad perm then
    [finding "permission.broad" SevWarning ("permission " +:+ (ticked perm +:+ " is a broad/wildcard grant"))]
  else [].
Definition scan_capability (cap : CapabilityDescriptor) : list Finding :=
  if String.eqb (cap_sandbox cap) "native" then
    [finding "capability.unsandboxed" SevWarning
       ("capability " +:+ (ticked (cap_id cap) +:+ " requests the native (weakest) sandbox"))]
  else [].

Definition pinned (c : SbomComponent) : string := sc_component c +:+ ("@" +:+ sc_version c).
Definition is_denied (deny_components : list string) (c : SbomComponent) : bool :=
  existsb (λ d, String.eqb d (sc_component c) || String.eqb d (pinned c)) deny_components.
Definition vulnerable (c : SbomComponent) (adv : Advisory V) : Finding :=
  let aliases := match adv_aliases adv with
                 | [] => ""
                 | l => " (aka " +:+ (join_with ", " l +:+ ")")
                 end in
  finding "component.vulnerable" SevCritical
    ("SBOM component " +:+ (ticked (pinned c) +:+ (" matches advisory " +:+
      (adv_id adv +:+ (aliases +:+ (": " +:+ adv_summary adv)))))).
Definition scan_component (deny_components : list string) (feed : VulnFeed V) (c : SbomComponent) : list Finding :=
  (if is_denied deny_components c then
     [finding "component.denied" SevCritical
        ("SBOM component " +:+ (ticked (pinned c) +:+ " is on the operator deny-list"))]
   else [])
  ++ map (vulnerable c) (advisories_for (sc_component c) (sc_version c) feed)
  ++ (if is_empty (sc_license c) then
        [finding "component.unlicensed" SevInfo
           ("SBOM component " +:+ (ticked (pinned c) +:+ " declares no license"))]
      else []).

Definition scan (package : Package) (m : PluginManifest) (deny_components : list string) (feed : VulnFeed V)
    : ScanReport := {|
  findings :=
    concat (map (scan_artifact package) (artifacts m))
    ++ concat (map scan_permission (permissions m))
    ++ concat (map scan_capability (capabilities m))
    ++ match sbom m with
       | None => [finding "sbom.missing" SevInfo "package declares no SBOM; bundled components are unknown"]
       | Some s => concat (map (scan_component deny_components feed) (components s))
       end
    ++ match provenance m with
       | None => [finding "provenance.missing" SevInfo "package declares no build provenance"]
       | Some _ => []
       end |}.
End scan.

(** ** [store.rs]: the catalog *)

Record RegistryState := { listings : gmap string ListingRecord }.
Definition RegistryState_default : RegistryState := {| listings := ∅ |}.

Definition set_versions (l : list PublishedVersion) (rec : ListingRecord) : ListingRecord := {|
  lr_id := lr_id rec; lr_publisher := lr_publisher rec; lr_name := lr_name rec;
  lr_categories := lr_categories rec; lr_versions := l; lr_channels := lr_channels rec;
  lr_reviews := lr_reviews rec; lr_installs := lr_installs rec; lr_verified := lr_verified rec;
  lr_review := lr_review rec; lr_abuse_reports := lr_abuse_reports rec; lr_delisted := lr_delisted rec |}.
Definition set_browse (categories : list string) (channels : gmap string string) (rec : ListingRecord)
    : ListingRecord := {|
  lr_id := lr_id rec; lr_publisher := lr_publisher rec; lr_name := lr_name rec;
  lr_categories := categories; lr_versions := lr_versions rec; lr_channels := channels;
  lr_reviews := lr_reviews rec; lr_installs := lr_installs rec; lr_verified := lr_verified rec;
  lr_review := lr_review rec; lr_abuse_reports := lr_abuse_reports rec; lr_delisted := lr_delisted rec |}.
Definition set_feedback (reviews : list Review) (installs : Z) (rec : ListingRecord) : ListingRecord := {|
  lr_id := lr_id rec; lr_publisher := lr_publisher rec; lr_name := lr_name rec;
  lr_categories := lr_categories rec; lr_versions := lr_versions rec; lr_channels := lr_channels rec;
  lr_reviews := reviews; lr_installs := installs; lr_verified := lr_verified rec;
  lr_review := lr_review rec; lr_abuse_reports := lr_abuse_reports rec; lr_delisted := lr_delisted rec |}.
Definition set_badge (verified : bool) (review : ReviewStatus) (rec : ListingRecord) : ListingRecord := {|
  lr_id := lr_id rec; lr_publisher := lr_publisher rec; lr_name := lr_name rec;
  lr_categories := lr_categories rec; lr_versions := lr_versions rec; lr_channels := lr_channels rec;
  lr_reviews := lr_reviews rec; lr_installs := lr_installs rec; lr_verified := verified;
  lr_review := review; lr_abuse_reports := lr_abuse_reports rec; lr_delisted := lr_delisted rec |}.
Definition set_reports (reports : list AbuseReport) (delisted : bool) (rec : ListingRecord) : ListingRecord := {|
  lr_id := lr_id rec; lr_publisher := lr_publisher rec; lr_name := lr_name rec;
  lr_categories := lr_categories rec; lr_versions := lr_versions rec; lr_channels := lr_channels rec;
  lr_reviews := lr_reviews rec; lr_installs := lr_installs rec; lr_verified := lr_verified rec;
  lr_review := lr_review rec; lr_abuse_reports := reports; lr_delisted := delisted |}.

Definition ListingRecord_new (id publisher name : string) : ListingRecord := {|
  lr_id := id; lr_publisher := publisher; lr_name := name; lr_categories := []; lr_versions := [];
  lr_channels := ∅; lr_reviews := []; lr_installs := 0; lr_verified := false; lr_review := Unreviewed;
  lr_abuse_reports := []; lr_delisted := false |}.

Definition missing_listing (id : string) : Error := NotFound ("listing " +:+ (ticked id +:+ " not found")).

Section state.
Context `{Semver V R}.

(** Newest first; texts that are no versions by their order. *)
Definition version_order (a b : PublishedVersion) : comparison :=
  match parse_version (pv_version a), parse_version (pv_version b) with
  | inr va, inr vb => version_cmp vb va
  | _, _ => String.compare (pv_version b) (pv_version a)
  end.
Definition newer_first (a b : PublishedVersion) : Prop := version_order a b ≠ Gt.
#[global] Instance newer_first_dec : RelDecision newer_first.
Proof. intros a b. unfold newer_first. apply _. Defined.
(** [sort_by] is stable. *)
Definition resort (rec : ListingRecord) : ListingRecord :=
  set_versions (merge_sort newer_first (lr_versions rec)) rec.

Definition add_categories (categories existing : list string) : list string :=
  foldl (λ l c, if bool_decide (c ∈ l) then l else l ++ [c]) existing categories.

Definition upsert_version (publisher name : string) (v : PublishedVersion) (categories : list string)
    (channel : string) (s : RegistryState) : RegistryState :=
  let id := publisher +:+ ("/" +:+ name) in
  let rec := default (ListingRecord_new id publisher name) (listings s !! id) in
  let rec := set_browse (add_categories categories (lr_categories rec))
               (<[channel := pv_version v]> (lr_channels rec)) rec in
  let kept := List.filter (λ p, negb (String.eqb (pv_version p) (pv_version v))) (lr_versions rec) in
  {| listings := <[id := resort (set_versions (kept ++ [v]) rec)]> (listings s) |}.
End state.

(** An operation on the listing of an id, which changes nothing if it fails. *)
Definition with_listing {A} (id : string) (f : ListingRecord → result (ListingRecord * A)) (s : RegistryState)
    : result (RegistryState * A) :=
  rec ← ok_or (missing_listing id) (listings s !! id);
  '(rec, a) ← f rec;
  Ok ({| listings := <[id := rec]> (listings s) |}, a).

Definition add_review (id : string) (review : Review) : RegistryState → result (RegistryState * ()) :=
  with_listing id (λ rec, Ok (set_feedback (lr_reviews rec ++ [review]) (lr_installs rec) rec, ())).
Definition set_verified (id : string) (verified : bool) : RegistryState → result (RegistryState * ()) :=
  with_listing id (λ rec, Ok (set_badge verified (lr_review rec) rec, ())).
Definition request_review (id : string) : RegistryState → result (RegistryState * ()) :=
  with_listing id (λ rec,
    if is_pending (lr_review rec) then
      Err (conflict ("listing " +:+ (ticked id +:+ " already has a pending review")))
    else
      v ← ok_or (invalid "cannot request review: no published version") (pv_version <$> latest rec);
      Ok (set_badge (lr_verified rec) (Pending v) rec, ())).
Definition no_pending_review (id : string) : Error :=
  invalid ("listing " +:+ (ticked id +:+ " has no pending review")).
Definition approve_review (id reviewer : string) : RegistryState → result (RegistryState * ()) :=
  with_listing id (λ rec,
    match lr_review rec with
    | Pending v => Ok (set_badge true (Approved reviewer v) rec, ())
    | _ => Err (no_pending_review id)
    end).
Definition reject_review (id reviewer reason : string) : RegistryState → result (RegistryState * ()) :=
  with_listing id (λ rec,
    match lr_review rec with
    | Pending v => Ok (set_badge false (Rejected reviewer v reason) rec, ())
    | _ => Err (no_pending_review id)
    end).
Definition record_install (id : string) : RegistryState → result (RegistryState * ()) :=
  with_listing id (λ rec, Ok (set_feedback (lr_reviews rec) (u64_saturating_add (lr_installs rec) 1) rec, ())).
Definition report_abuse (id reporter reason : string) : RegistryState → result (RegistryState * Z) :=
  with_listing id (λ rec,
    let n := Z.of_nat (length (lr_abuse_reports rec)) in
    Ok (set_reports (lr_abuse_reports rec ++ [{| ar_id := n; ar_reporter := reporter; ar_reason := reason;
                                                 ar_status := ReportOpen |}]) (lr_delisted rec) rec, n)).

Definition set_report_status (status : AbuseReportStatus) (r : AbuseReport) : AbuseReport :=
  {| ar_id := ar_id r; ar_reporter := ar_reporter r; ar_reason := ar_reason r; ar_status := status |}.
(** The first report of the id and its index, if it is open. *)
Definition open_report (rec : ListingRecord) (id : string) (report_id : Z) : result (nat * AbuseReport) :=
  '(idx, r) ← ok_or (NotFound ("abuse report " +:+ (ticked (show_Z report_id) +:+ (" not found on listing " +:+ ticked id))))
                (list_find (λ r, ar_id r = report_id) (lr_abuse_reports rec));
  if is_open (ar_status r) then Ok (idx, r)
  else Err (conflict ("abuse report " +:+ (ticked (show_Z report_id) +:+ (" on listing " +:+
         (ticked id +:+ " is already resolved"))))).
Definition resolve_abuse_report (id : string) (report_id : Z) (moderator : string) (delist : bool)
    : RegistryState → result (RegistryState * ()) :=
  with_listing id (λ rec,
    '(idx, r) ← open_report rec id report_id;
    Ok (set_reports (<[idx := set_report_status (ReportResolved moderator delist) r]> (lr_abuse_reports rec))
          (if delist : bool then true else lr_delisted rec) rec, ())).
Definition dismiss_abuse_report (id : string) (report_id : Z) (moderator reason : string)
    : RegistryState → result (RegistryState * ()) :=
  with_listing id (λ rec,
    '(idx, r) ← open_report rec id report_id;
    Ok (set_reports (<[idx := set_report_status (ReportDismissed moderator reason) r]> (lr_abuse_reports rec))
          (lr_delisted rec) rec, ())).

(** [trait RegistryStore] *)
Class RegistryStore (S : Type) := {
  st_upsert_version : string → string → PublishedVersion → list string → string → S → S * result ();
  st_get : string → S → result (option ListingRecord);
  st_all : S → result (list ListingRecord);
  st_add_review : string → Review → S → S * result ();
  st_set_verified : string → bool → S → S * result ();
  st_request_review : string → S → S * result ();
  st_approve_review : string → string → S → S * result ();
  st_reject_review : string → string → string → S → S * result ();
  st_record_install : string → S → S * result ();
  st_report_abuse : string → string → string → S → S * result Z;
  st_resolve_abuse_report : string → Z → string → bool → S → S * result ();
  st_dismiss_abuse_report : string → Z → string → string → S → S * result () }.

Section stores.
Context `{Semver V R}.

Definition upserting (publisher name : string) (v : PublishedVersion) (categories : list string) (channel : string)
    (s : RegistryState) : result (RegistryState * ()) :=
  Ok (upsert_version publisher name v categories channel s, ()).

(** The state behind a lock. *)
Definition in_memory {A} (f : RegistryState → result (RegistryState * A)) (s : RegistryState) : RegistryState * result A :=
  match f s with
  | Ok (s', a) => (s', Ok a)
  | Err e => (s, Err e)
  end.
#[global] Instance InMemoryRegistryStore : RegistryStore RegistryState := {|
  st_upsert_version publisher name v categories channel := in_memory (upserting publisher name v categories channel);
  st_get id s := Ok (listings s !! id);
  st_all s := Ok (map snd (btree_iter (listings s)));
  st_add_review id review := in_memory (add_review id review);
  st_set_verified id verified := in_memory (set_verified id verified);
  st_request_review id := in_memory (request_review id);
  st_approve_review id reviewer := in_memory (approve_review id reviewer);
  st_reject_review id reviewer reason := in_memory (reject_review id reviewer reason);
  st_record_install id := in_memory (record_install id);
  st_report_abuse id reporter reason := in_memory (report_abuse id reporter reason);
  st_resolve_abuse_report id report_id moderator delist := in_memory (resolve_abuse_report id report_id moderator delist);
  st_dismiss_abuse_report id report_id moderator reason :=
    in_memory (dismiss_abuse_report id report_id moderator reason) |}.

(** [serde_json] at the catalog. *)
Class RegistrySerde := {
  registry_to_bytes : RegistryState → string + string;
  registry_of_bytes : string → string + RegistryState }.
Context `{RegistrySerde}.

(** What is under a path: nothing, an error of reading it, or its bytes. *)
Abbreviation OsFile := (option (string + string)) (only parsing).
Record FileRegistryStore := { registry_json : OsFile }.

Definition load (s : FileRegistryStore) : result RegistryState :=
  match registry_json s with
  | Some (inr bytes) =>
    match registry_of_bytes bytes with
    | inr st => Ok st
    | inl e => Err (config ("corrupt registry store: " +:+ e))
    end
  | None => Ok RegistryState_default
  | Some (inl e) => Err (Io e)
  end.
Definition save (st : RegistryState) (s : FileRegistryStore) : FileRegistryStore * result () :=
  match registry_to_bytes st with
  | inl e => (s, Err (Json e))
  | inr bytes => ({| registry_json := Some (inr bytes) |}, Ok ())
  end.
Definition mutate {A} (f : RegistryState → result (RegistryState * A)) (s : FileRegistryStore)
    : FileRegistryStore * result A :=
  match load s with
  | Err e => (s, Err e)
  | Ok st =>
    match f st with
    | Err e => (s, Err e)
    | Ok (st, a) =>
      match save st s with
      | (s, Err e) => (s, Err e)
      | (s, Ok _) => (s, Ok a)
      end
    end
  end.
#[global] Instance file_registry_store : RegistryStore FileRegistryStore := {|
  st_upsert_version publisher name v categories channel := mutate (upserting publisher name v categories channel);
  st_get id s := st ← load s; Ok (listings st !! id);
  st_all s := st ← load s; Ok (map snd (btree_iter (listings st)));
  st_add_review id review := mutate (add_review id review);
  st_set_verified id verified := mutate (set_verified id verified);
  st_request_review id := mutate (request_review id);
  st_approve_review id reviewer := mutate (approve_review id reviewer);
  st_reject_review id reviewer reason := mutate (reject_review id reviewer reason);
  st_record_install id := mutate (record_install id);
  st_report_abuse id reporter reason := mutate (report_abuse id reporter reason);
  st_resolve_abuse_report id report_id moderator delist := mutate (resolve_abuse_report id report_id moderator delist);
  st_dismiss_abuse_report id report_id moderator reason :=
    mutate (dismiss_abuse_report id report_id moderator reason) |}.
End stores.

(** ** [registry.rs] *)

Definition DEFAULT_CHANNEL : string := "stable".

Record PublishOutcome := {
  po_listing_id : string; po_reference : string; po_channel : string; po_scan : ScanReport }.
Record SearchQuery := { q_text : string; q_category : option string; q_capability : option CapabilityKind }.

Record Registry (V S : Type) := {
  rg_store : S; rg_trust : TrustStore; rg_keyless : option (KeylessRoot * IdentityPolicy);
  rg_policy : RegistryPolicy; rg_vuln_feed : VulnFeed V }.
Arguments rg_store {V S} _.
Arguments rg_trust {V S} _.
Arguments rg_keyless {V S} _.
Arguments rg_policy {V S} _.
Arguments rg_vuln_feed {V S} _.
Arguments Build_Registry {V S} _ _ _ _ _.

Section registry.
Context {S : Type} `{SV : Semver V R} `{MY : ManifestYaml} `{CR : PluginCrypto} `{PS : PackageSerde} `{UN : Unicode}
  `{RS : RegistryStore S}.
Local Abbreviation RG := (Registry V S).

Definition Registry_new (store : S) (trust : TrustStore) : RG := {|
  rg_store := store; rg_trust := trust; rg_keyless := None; rg_policy := RegistryPolicy_default;
  rg_vuln_feed := VulnFeed_default |}.
Definition registry_with_keyless (root : KeylessRoot) (policy : IdentityPolicy) (r : RG) : RG := {|
  rg_store := rg_store r; rg_trust := rg_trust r; rg_keyless := Some (root, policy); rg_policy := rg_policy r;
  rg_vuln_feed := rg_vuln_feed r |}.
Definition with_policy (policy : RegistryPolicy) (r : RG) : RG := {|
  rg_store := rg_store r; rg_trust := rg_trust r; rg_keyless := rg_keyless r; rg_policy := policy;
  rg_vuln_feed := rg_vuln_feed r |}.
Definition with_vuln_feed (feed : VulnFeed V) (r : RG) : RG := {|
  rg_store := rg_store r; rg_trust := rg_trust r; rg_keyless := rg_keyless r; rg_policy := rg_policy r;
  rg_vuln_feed := feed |}.
Definition set_store (s : S) (r : RG) : RG := {|
  rg_store := s; rg_trust := rg_trust r; rg_keyless := rg_keyless r; rg_policy := rg_policy r;
  rg_vuln_feed := rg_vuln_feed r |}.

(** A call of the store. *)
Definition on_store {A} (f : S → S * result A) : M RG A := λ r,
  let '(s, a) := f (rg_store r) in (set_store s r, of_result a).

(** Who vouches for a package: its bundle, where both sides have the keyless
    mode, else its publisher's key. *)
Definition vouched (package : Package) (r : RG) : outcome PluginManifest :=
  match keyless_bundle package, rg_keyless r with
  | Some _, Some (root, policy) => verify_keyless_package root policy package
  | _, _ => of_result (verify_package (rg_trust r) package)
  end.

Definition version_of_package (m : PluginManifest) (risk : PermissionRisk) (scan : ScanReport)
    (digest package : string) : PublishedVersion := {|
  pv_version := md_version (metadata m); pv_description := md_description (metadata m);
  pv_license := md_license (metadata m); pv_permissions := permissions m;
  pv_capabilities := map cap_kind (capabilities m); pv_risk := risk; pv_scan := scan;
  pv_package_digest := digest; pv_package := package |}.

Definition package_digest (wovyrpkg : string) : string := "sha256:" +:+ hex_encode (digest wovyrpkg).

Definition publish (wovyrpkg : string) (categories : list string) (channel : option string) : M RG PublishOutcome :=
  package ← lift (from_wovyrpkg wovyrpkg);
  r ← gets id;
  m ← lift (vouched package r);
  let listing_id := qualified_id m in
  let risk := classify (permissions m) in
  _ ← lift (of_result (check_publish (md_publisher (metadata m)) listing_id risk (rg_policy r)));
  let report := scan package m (deny_components (rg_policy r)) (rg_vuln_feed r) in
  _ ← lift (of_result (check_scan report (rg_policy r)));
  let channel := default DEFAULT_CHANNEL channel in
  text ← lift (of_result (ok_or (invalid "`.wovyrpkg` is not valid UTF-8 JSON") (from_utf8 wovyrpkg)));
  let v := version_of_package m risk report (package_digest wovyrpkg) text in
  _ ← on_store (st_upsert_version (md_publisher (metadata m)) (md_name (metadata m)) v categories channel);
  mret {| po_listing_id := listing_id; po_reference := reference m; po_channel := channel; po_scan := report |}.

Definition relevance (rec : ListingRecord) (needle : string) : Z :=
  if is_empty needle then 0
  else
    (if contains_str needle (to_lowercase (lr_name rec)) then 10 else 0)
    + (if contains_str needle (to_lowercase (lr_publisher rec)) then 5 else 0)
    + (if contains_str needle (to_lowercase (lr_id rec)) then 3 else 0)
    + (match latest rec with
       | Some v => if contains_str needle (to_lowercase (pv_description v)) then 2 else 0
       | None => 0
       end)
    + (if existsb (λ c, contains_str needle (to_lowercase c)) (lr_categories rec) then 1 else 0).

(** The filters of a search. *)
Definition searchable (p : RegistryPolicy) (query : SearchQuery) (rec : ListingRecord) : bool :=
  negb (is_blocked (lr_id rec) p || lr_delisted rec)
  && negb (require_verified p && negb (lr_verified rec))
  && match q_category query with
     | Some cat => existsb (λ c, String.eqb c cat) (lr_categories rec)
     | None => true
     end
  && match q_capability query with
     | Some kind =>
       match latest rec with
       | Some v => bool_decide (kind ∈ pv_capabilities v)
       | None => false
       end
     | None => true
     end.

(** Relevance first, then the id. *)
Definition more_relevant (a b : Z * Listing) : Prop :=
  b.1 < a.1 ∨ (a.1 = b.1 ∧ String.le (li_id a.2) (li_id b.2)).
#[global] Instance more_relevant_dec : RelDecision more_relevant.
Proof. intros a b. unfold more_relevant. apply _. Defined.

Definition scored (p : RegistryPolicy) (query : SearchQuery) (rec : ListingRecord) : option (Z * Listing) :=
  let needle := to_lowercase (q_text query) in
  if searchable p query rec && (is_empty needle || Z.ltb 0 (relevance rec needle))
  then Some (relevance rec needle, to_listing rec) else None.
Definition search (query : SearchQuery) (r : RG) : result (list Listing) :=
  all ← st_all (rg_store r);
  Ok (map snd (merge_sort more_relevant (omap (scored (rg_policy r) query) all))).

Definition get (listing_id : string) (r : RG) : result (option Listing) :=
  if is_blocked listing_id (rg_policy r) then Ok None
  else
    rec ← st_get listing_id (rg_store r);
    Ok match rec with
       | Some rec =>
         if lr_delisted rec then None
         else if require_verified (rg_policy r) && negb (lr_verified rec) then None
         else Some (to_listing rec)
       | None => None
       end.

(** The version a download names: the one asked for, else that of the stable
    channel, else the newest. *)
Definition picked (wanted : option string) (rec : ListingRecord) : option PublishedVersion :=
  match wanted with
  | Some v => version v rec
  | None =>
    match v ← lr_channels rec !! DEFAULT_CHANNEL; version v rec with
    | Some v => Some v
    | None => latest rec
    end
  end.
Definition download (listing_id : string) (wanted : option string) (r : RG) : result string :=
  if is_blocked listing_id (rg_policy r) then
    Err (Forbidden ("listing " +:+ (ticked listing_id +:+ " is blocklisted")))
  else
    rec ← st_get listing_id (rg_store r);
    rec ← ok_or (missing_listing listing_id) rec;
    if lr_delisted rec then Err (Forbidden ("listing " +:+ (ticked listing_id +:+ " has been delisted")))
    else if require_verified (rg_policy r) && negb (lr_verified rec) then
      Err (Forbidden ("listing " +:+ (ticked listing_id +:+ " is not verified")))
    else
      v ← ok_or (NotFound ("listing " +:+ (ticked listing_id +:+ (" has no version " +:+
             ticked (default DEFAULT_CHANNEL wanted))))) (picked wanted rec);
      Ok (pv_package v).

Definition review (listing_id : string) (rv : Review) : M RG () :=
  if negb (Z.leb 1 (rv_rating rv) && Z.leb (rv_rating rv) 5) then throw (invalid "rating must be between 1 and 5")
  else on_store (st_add_review listing_id rv).
Definition registry_set_verified (listing_id : string) (verified : bool) : M RG () :=
  on_store (st_set_verified listing_id verified).
Definition registry_request_review (listing_id : string) : M RG () := on_store (st_request_review listing_id).
Definition registry_approve_review (listing_id reviewer : string) : M RG () :=
  on_store (st_approve_review listing_id reviewer).
Definition registry_reject_review (listing_id reviewer reason : string) : M RG () :=
  on_store (st_reject_review listing_id reviewer reason).
Definition registry_record_install (listing_id : string) : M RG () := on_store (st_record_install listing_id).
Definition registry_report_abuse (listing_id reporter reason : string) : M RG Z :=
  if is_empty (trim reason) then throw (invalid "abuse report reason must not be empty")
  else on_store (st_report_abuse listing_id reporter reason).
Definition abuse_reports (listing_id : string) (r : RG) : result (list AbuseReport) :=
  rec ← st_get listing_id (rg_store r);
  rec ← ok_or (missing_listing listing_id) rec;
  Ok (lr_abuse_reports rec).
Definition registry_resolve_abuse_report (listing_id : string) (report_id : Z) (moderator : string) (delist : bool)
    : M RG () := on_store (st_resolve_abuse_report listing_id report_id moderator delist).
Definition registry_dismiss_abuse_report (listing_id : string) (report_id : Z) (moderator reason : string)
    : M RG () := on_store (st_dismiss_abuse_report listing_id report_id moderator reason).
End registry.

(** ** Everything that happens to a registry *)

Inductive registry_op :=
  | Publish (wovyrpkg : string) (categories : list string) (channel : option string)
  | AddReview (id : string) (rv : Review)
  | SetVerified (id : string) (verified : bool)
  | RequestReview (id : string)
  | ApproveReview (id reviewer : string)
  | RejectReview (id reviewer reason : string)
  | RecordInstall (id : string)
  | ReportAbuse (id reporter reason : string)
  | ResolveReport (id : string) (report_id : Z) (moderator : string) (delist : bool)
  | DismissReport (id : string) (report_id : Z) (moderator reason : string).

Section operations.
Context {S : Type} `{SV : Semver V R} `{MY : ManifestYaml} `{CR : PluginCrypto} `{PS : PackageSerde} `{UN : Unicode}
  `{RS : RegistryStore S}.
Local Abbreviation RG := (Registry V S).

Definition run_registry (op : registry_op) : M RG () :=
  match op with
  | Publish wovyrpkg categories channel => _ ← publish wovyrpkg categories channel; mret ()
  | AddReview id rv => review id rv
  | SetVerified id verified => registry_set_verified id verified
  | RequestReview id => registry_request_review id
  | ApproveReview id reviewer => registry_approve_review id reviewer
  | RejectReview id reviewer reason => registry_reject_review id reviewer reason
  | RecordInstall id => registry_record_install id
  | ReportAbuse id reporter reason => _ ← registry_report_abuse id reporter reason; mret ()
  | ResolveReport id report_id moderator delist => registry_resolve_abuse_report id report_id moderator delist
  | DismissReport id report_id moderator reason => registry_dismiss_abuse_report id report_id moderator reason
  end.

(** The operator's files change between operations: each has its own trust
    store, keyless mode, policy and feed. *)
Record Curation := {
  cu_trust : TrustStore; cu_keyless : option (KeylessRoot * IdentityPolicy); cu_policy : RegistryPolicy;
  cu_feed : VulnFeed V }.
Definition curated (c : Curation) (s : S) : RG := {|
  rg_store := s; rg_trust := cu_trust c; rg_keyless := cu_keyless c; rg_policy := cu_policy c;
  rg_vuln_feed := cu_feed c |}.
Definition registry_step (s : S) (step : Curation * registry_op) : S :=
  rg_store (run_registry step.2 (curated step.1 s)).1.
Definition registry_run (steps : list (Curation * registry_op)) (s : S) : S := foldl registry_step s steps.
End operations.
