(* ===== verification/MarketInv.v ===== *)
(** * What the marketplace registry keeps

    Theorems about [Market]: publication admits exactly the packages that are
    vouched for and within the policy, listings stay consistent, what is served
    was admitted, moderation is final, and a search shows what can be fetched. *)
From stdpp Require Import base tactics list numbers strings gmap sorting.
From Stdlib Require Import Lia ZArith Ascii.
From S2P Require Import Prelude.
From S2P Require Import RustStr.
From S2P Require Import F64.
From S2P Require Import Common.
From S2P Require Import Effect.
From S2P Require Import Manifest.
From S2P Require Import ToolRegistry.
From S2P Require Import Keyless.
From S2P Require Import Resolve.
From S2P Require Import PluginEngine.
From S2P Require Import PluginInv.
From S2P Require Import Market.
Local Open Scope Z_scope.

(** ** Sorting where the order is one on the elements of the list *)

Lemma StronglySorted_on {A} (R : relation A) (P : A → Prop) l :
  (∀ a b c, P a → P b → P c → R a b → R b c → R a c) →
  Forall P l → Sorted R l → StronglySorted R l.
Proof.
  intros Htr. induction l as [|a l IH]; [constructor|]. intros [Ha Hl]%Forall_cons Hs.
  inversion Hs as [|? ? Hs' Hhd]; subst. specialize (IH Hl Hs'). constructor; [done|].
  destruct l as [|b l]; [constructor|]. inversion Hhd; subst. inversion IH as [|? ? _ Hall]; subst.
  constructor; [done|]. apply Forall_cons in Hl as [Hb Hl].
  rewrite Forall_forall in Hall, Hl |- *. intros c Hc. apply (Htr a b c); auto.
Qed.

(** ** Admission *)

Section market.
Context `{SV : Semver V R} `{MY : ManifestYaml} `{CR : PluginCrypto} `{PS : PackageSerde} `{UN : Unicode}.
Abbreviation Cur := (Curation (V := V)) (only parsing).

(** Who vouches for a manifest: where the package carries a bundle and the node
    has the keyless mode, the identity of the bundle; else the trusted key of
    its publisher. *)
Definition vouches (c : Cur) (p : Package) (m : PluginManifest) : Prop :=
  manifest_from_str (manifest_yaml p) = inr m ∧ validate m = Ok () ∧
  match keyless_bundle p, cu_keyless c with
  | Some b, Some (root, policy) => ∃ who, verify_keyless (manifest_yaml p) b root policy (md_publisher (metadata m)) = Ret who
  | _, _ => ∃ key, keys (cu_trust c) !! md_publisher (metadata m) = Some key
                   ∧ ed25519_verify key (manifest_yaml p) (pkg_signature p) = true
  end.

Record admitted (c : Cur) (bytes : string) (p : Package) (m : PluginManifest) : Prop := {
  adm_package : from_wovyrpkg bytes = Ret p;
  adm_vouched : vouches c p m;
  adm_unblocked : qualified_id m ∉ blocklist (cu_policy c);
  adm_publisher l : allow_publishers (cu_policy c) = Some l → md_publisher (metadata m) ∈ l;
  adm_risk : risk_rank (classify (permissions m)) ≤ risk_rank (max_permission_risk (cu_policy c));
  adm_scan ceiling f : block_scan_severity (cu_policy c) = Some ceiling →
    f ∈ findings (scan p m (deny_components (cu_policy c)) (cu_feed c)) →
    severity_rank (fd_severity f) < severity_rank ceiling;
  adm_text : utf8_valid bytes = true }.

(** The version a package is published as. *)
Definition published (c : Cur) (bytes : string) (p : Package) (m : PluginManifest) : PublishedVersion :=
  version_of_package m (classify (permissions m)) (scan p m (deny_components (cu_policy c)) (cu_feed c))
    (package_digest bytes) bytes.

Lemma from_yaml_ok yaml m : from_yaml yaml = Ok m ↔ manifest_from_str yaml = inr m ∧ validate m = Ok ().
Proof.
  unfold from_yaml. destruct (manifest_from_str yaml) as [e|m']; [naive_solver|].
  destruct (validate m') as [[]|e] eqn:E; cbn; naive_solver congruence.
Qed.

Lemma vouched_ok {S} (c : Cur) (s : S) p m : vouched p (curated c s) = Ret m ↔ vouches c p m.
Proof.
  unfold vouched, vouches. cbn [rg_keyless rg_trust curated].
  assert (of_result (verify_package (cu_trust c) p) = Ret m ↔
    manifest_from_str (manifest_yaml p) = inr m ∧ validate m = Ok () ∧
    ∃ key, keys (cu_trust c) !! md_publisher (metadata m) = Some key
           ∧ ed25519_verify key (manifest_yaml p) (pkg_signature p) = true) as Hkey.
  { transitivity (verify_package (cu_trust c) p = Ok m); [destruct (verify_package _ _); cbn; naive_solver|].
    unfold verify_package, TrustStore_verify. rewrite result_bind_Ok. setoid_rewrite from_yaml_ok.
    setoid_rewrite result_bind_Ok. split.
    - intros (m' & [Hm Hv] & ([] & Ht & [= <-])). split_and!; [done..|].
      destruct (keys _ !! _) as [key|]; [|done]. exists key. by destruct (ed25519_verify _ _ _).
    - intros (Hm & Hv & key & Hk & Hs). exists m. split; [done|]. exists (). by rewrite Hk, Hs. }
  destruct (keyless_bundle p) as [b|] eqn:Eb; [|done]. destruct (cu_keyless c) as [[root policy]|]; [|done].
  unfold verify_keyless_package. rewrite Eb. clear Hkey. cbn [ok_or of_result].
  destruct (from_yaml (manifest_yaml p)) as [m'|e] eqn:Em; cbn.
  - apply from_yaml_ok in Em as [Hm Hv]. destruct (verify_keyless _ _ _ _ _) as [who|st] eqn:Ek; cbn; split.
    + intros [= <-]. eauto.
    + intros (Hm' & _). congruence.
    + done.
    + intros (Hm' & _ & who & Hw). assert (m' = m) as -> by congruence. congruence.
  - split; [done|]. intros (Hm & Hv & _). rewrite (proj2 (from_yaml_ok _ _) (conj Hm Hv)) in Em. done.
Qed.

Lemma check_publish_ok publisher id risk p :
  check_publish publisher id risk p = Ok () ↔
  id ∉ blocklist p ∧ (∀ l, allow_publishers p = Some l → publisher ∈ l) ∧ risk_rank risk ≤ risk_rank (max_permission_risk p).
Proof.
  assert (∀ x l, existsb (λ y, String.eqb y x) l = true ↔ x ∈ l) as Hin.
  { intros x l. rewrite existsb_elem. split; [intros (y & Hy & <-%String.eqb_eq); done|exists x; by rewrite String.eqb_refl]. }
  assert (allows_publisher publisher p = true ↔ ∀ l, allow_publishers p = Some l → publisher ∈ l) as Ha.
  { unfold allows_publisher. destruct (allow_publishers p) as [l|]; [rewrite Hin|]; naive_solver. }
  unfold check_publish, is_blocked.
  destruct (existsb _ (blocklist p)) eqn:Eb; [apply Hin in Eb; naive_solver|].
  assert (id ∉ blocklist p) as Hb by (rewrite <-Hin; congruence).
  destruct (allows_publisher publisher p) eqn:El; cbn.
  - destruct (Z.ltb_spec (risk_rank (max_permission_risk p)) (risk_rank risk)); cbn.
    + split; [done|]. intros (_ & _ & ?). lia.
    + split; [|done]. intros _. split_and!; [done|by apply Ha|done].
  - split; [done|]. intros (_ & Hp & _). by apply Ha in Hp.
Qed.

Lemma check_scan_ok report p :
  check_scan report p = Ok () ↔
  ∀ ceiling f, block_scan_severity p = Some ceiling → f ∈ findings report →
    severity_rank (fd_severity f) < severity_rank ceiling.
Proof.
  unfold check_scan. destruct (block_scan_severity p) as [ceiling|]; [|naive_solver].
  destruct (List.filter (at_or_above ceiling) (findings report)) as [|f l] eqn:E; cbn.
  - split; [|done]. intros _ ? f [= <-] Hf. destruct (at_or_above ceiling f) eqn:Ef.
    + assert (f ∈ List.filter (at_or_above ceiling) (findings report)) as Hin by by apply filter_elem.
      rewrite E in Hin. by apply not_elem_of_nil in Hin.
    + unfold at_or_above in Ef. lia.
  - split; [done|]. intros Hall. assert (f ∈ List.filter (at_or_above ceiling) (findings report)) as Hin by (rewrite E; left).
    apply filter_elem in Hin as [Hf Ha]. unfold at_or_above in Ha. specialize (Hall ceiling f eq_refl Hf). lia.
Qed.

Lemma lift_bind_Ret {W A B} (o : outcome A) (k : A → M W B) w w' b :
  (lift o ≫= k) w = (w', Ret b) ↔ ∃ a, o = Ret a ∧ k a w = (w', Ret b).
Proof. rewrite bind_Ret_inv. unfold lift. split; [intros (? & a & [= <- ->] & ?); eauto|intros (a & -> & ?); eauto]. Qed.
Lemma of_result_Ret {A} (r : result A) a : of_result r = Ret a ↔ r = Ok a.
Proof. destruct r; cbn; naive_solver. Qed.

Lemma publish_ok {S} `{RegistryStore S} (c : Cur) (s : S) bytes categories channel r o :
  publish bytes categories channel (curated c s) = (r, Ret o) ↔
  ∃ p m s', admitted c bytes p m
    ∧ st_upsert_version (md_publisher (metadata m)) (md_name (metadata m)) (published c bytes p m) categories
        (default DEFAULT_CHANNEL channel) s = (s', Ok ())
    ∧ r = curated c s'
    ∧ o = {| po_listing_id := qualified_id m; po_reference := reference m;
             po_channel := default DEFAULT_CHANNEL channel;
             po_scan := scan p m (deny_components (cu_policy c)) (cu_feed c) |}.
Proof.
  unfold publish. rewrite lift_bind_Ret.
  setoid_rewrite bind_Ret_inv at 1. setoid_rewrite lift_bind_Ret. setoid_rewrite lift_bind_Ret.
  setoid_rewrite lift_bind_Ret. setoid_rewrite lift_bind_Ret. setoid_rewrite bind_Ret_inv.
  setoid_rewrite of_result_Ret. split.
  - intros (p & Hp & ? & ? & [= <- <-] & m & Hv & [] & Hc & [] & Hs & text & Ht & w & [] & Hu & [= <- <-]).
    apply vouched_ok in Hv. apply check_publish_ok in Hc as (? & ? & ?).
    assert (utf8_valid bytes = true ∧ text = bytes) as [Hutf ->].
    { unfold from_utf8 in Ht. destruct (utf8_valid bytes); cbn in Ht; naive_solver. }
    exists p, m. unfold on_store in Hu. cbn [rg_store curated] in Hu.
    destruct (st_upsert_version _ _ _ _ _ s) as [s' u] eqn:Eu. exists s'.
    injection Hu as <- Hu. apply of_result_Ret in Hu as ->.
    split_and!; [|done..]. split; try done. by apply check_scan_ok.
  - intros (p & m & s' & [? Hv ? ? ? Hscan ?] & Hu & -> & ->).
    exists p. split; [done|]. exists (curated c s), (curated c s). split; [done|].
    exists m. split; [by apply vouched_ok|]. exists (). split; [by apply check_publish_ok|].
    exists (). split; [by apply check_scan_ok|]. exists bytes. split; [by rewrite from_utf8_valid|].
    exists (curated c s'), (). split; [|done]. unfold published in Hu. unfold on_store. cbn [rg_store rg_policy rg_vuln_feed curated]. by rewrite Hu.
Qed.

(** ** The steps of a catalog *)

(** What is done to a listing. *)
Inductive handled : ListingRecord → ListingRecord → Prop :=
  | Rated rec rv : 1 ≤ rv_rating rv ≤ 5 →
      handled rec (set_feedback (lr_reviews rec ++ [rv]) (lr_installs rec) rec)
  | InstallCounted rec : handled rec (set_feedback (lr_reviews rec) (u64_saturating_add (lr_installs rec) 1) rec)
  | BadgeSet rec b : handled rec (set_badge b (lr_review rec) rec)
  | ReviewRequested rec v : is_pending (lr_review rec) = false → latest rec = Some v →
      handled rec (set_badge (lr_verified rec) (Pending (pv_version v)) rec)
  | ReviewApproved rec v reviewer : lr_review rec = Pending v →
      handled rec (set_badge true (Approved reviewer v) rec)
  | ReviewRejected rec v reviewer reason : lr_review rec = Pending v →
      handled rec (set_badge false (Rejected reviewer v reason) rec)
  | AbuseReported rec reporter reason : trim reason ≠ "" →
      handled rec (set_reports (lr_abuse_reports rec ++ [{| ar_id := Z.of_nat (length (lr_abuse_reports rec));
        ar_reporter := reporter; ar_reason := reason; ar_status := ReportOpen |}]) (lr_delisted rec) rec)
  | ReportDecided rec idx r status : lr_abuse_reports rec !! idx = Some r → is_open (ar_status r) = true →
      is_open status = false →
      handled rec (set_reports (<[idx := set_report_status status r]> (lr_abuse_reports rec))
        (match status with ReportResolved _ true => true | _ => lr_delisted rec end) rec).

Inductive market_step (c : Cur) (op : registry_op) (s : RegistryState) : RegistryState → Prop :=
  | NothingHappens : market_step c op s s
  | VersionPublished bytes p m categories channel : op = Publish bytes categories channel → admitted c bytes p m →
      market_step c op s (upsert_version (md_publisher (metadata m)) (md_name (metadata m)) (published c bytes p m)
                            categories (default DEFAULT_CHANNEL channel) s)
  | ListingHandled id rec rec' : listings s !! id = Some rec → handled rec rec' →
      market_step c op s {| listings := <[id := rec']> (listings s) |}.

Lemma in_memory_handled {A} c op s id (f : ListingRecord → result (ListingRecord * A)) :
  (∀ rec rec' a, f rec = Ok (rec', a) → handled rec rec') → market_step c op s (in_memory (with_listing id f) s).1.
Proof.
  intros Hf. unfold in_memory, with_listing. destruct (listings s !! id) as [rec|] eqn:E; cbn; [|constructor].
  destruct (f rec) as [[rec' a]|e] eqn:Ef; cbn; [|constructor]. econstructor; eauto.
Qed.

Lemma open_report_ok rec id n idx r :
  open_report rec id n = Ok (idx, r) → lr_abuse_reports rec !! idx = Some r ∧ is_open (ar_status r) = true.
Proof.
  unfold open_report. destruct (list_find _ _) as [[i r']|] eqn:E; cbn; [|done].
  apply list_find_Some in E as (Hi & _ & _). destruct (is_open _) eqn:Eo; [|done]. by intros [= <- <-].
Qed.

Lemma discarded {W A} (m : M W A) w : ((m ≫= λ _, mret ()) w).1 = (m w).1.
Proof. unfold mbind, M_bind. by destruct (m w) as [w' [a|st]]. Qed.

Lemma publish_stopped (c : Cur) (s : RegistryState) bytes categories channel :
  wp (publish bytes categories channel) (λ _ _, True) (λ _ r, r = curated c s) (curated c s).
Proof.
  unfold publish. apply wp_lift_bind. destruct (from_wovyrpkg bytes) as [p|]; [|done].
  apply wp_gets_bind. apply wp_lift_bind. destruct (vouched _ _) as [m|]; [|done].
  apply wp_lift_bind. destruct (of_result (check_publish _ _ _ _)); [|done].
  apply wp_lift_bind. destruct (of_result (check_scan _ _)); [|done].
  by apply wp_lift_bind; destruct (of_result _).
Qed.

Lemma registry_steps (c : Cur) (s : RegistryState) op : market_step c op s (registry_step s (c, op)).
Proof.
  unfold registry_step. cbn [fst snd].
  assert (∀ {A} (f : RegistryState → RegistryState * result A),
    rg_store (on_store f (curated c s)).1 = (f s).1) as Hst.
  { intros A f. unfold on_store. cbn. by destruct (f s). }
  destruct op; cbn [run_registry].
  - rewrite discarded. pose proof (publish_stopped c s wovyrpkg categories channel) as Hstop. unfold wp in Hstop.
    destruct (publish _ _ _ _) as [r [o|st]] eqn:E; [|subst; constructor].
    apply publish_ok in E as (p & m & s' & Hp & Hu & -> & _). cbn in Hu |- *. injection Hu as <-. by constructor.
  - unfold review. destruct (_ && _) eqn:Er; [|constructor]. cbn [negb]. rewrite Hst. apply in_memory_handled.
    intros rec rec' a [= <- _]. constructor. lia.
  - unfold registry_set_verified. rewrite Hst. apply in_memory_handled. intros rec rec' a [= <- _]. constructor.
  - unfold registry_request_review. rewrite Hst. apply in_memory_handled. intros rec rec' a.
    destruct (is_pending _) eqn:Ep; [done|]. destruct (latest rec) eqn:El; cbn; [|done]. intros [= <- _]. by constructor.
  - unfold registry_approve_review. rewrite Hst. apply in_memory_handled. intros rec rec' a.
    destruct (lr_review rec) eqn:Ep; try done. intros [= <- _]. by constructor.
  - unfold registry_reject_review. rewrite Hst. apply in_memory_handled. intros rec rec' a.
    destruct (lr_review rec) eqn:Ep; try done. intros [= <- _]. by constructor.
  - unfold registry_record_install. rewrite Hst. apply in_memory_handled. intros rec rec' a [= <- _]. constructor.
  - rewrite discarded. unfold registry_report_abuse. destruct (is_empty (trim reason)) eqn:Er; [constructor|].
    rewrite Hst. apply in_memory_handled. intros rec rec' a [= <- _]. constructor. intros Ht. by rewrite Ht in Er.
  - unfold registry_resolve_abuse_report. rewrite Hst. apply in_memory_handled. intros rec rec' a.
    destruct (open_report _ _ _) as [[idx r]|] eqn:Eo; cbn; [|done]. apply open_report_ok in Eo as [Hi Ho].
    intros [= <- _]. by apply (ReportDecided rec idx r (ReportResolved moderator delist)).
  - unfold registry_dismiss_abuse_report. rewrite Hst. apply in_memory_handled. intros rec rec' a.
    destruct (open_report _ _ _) as [[idx r]|] eqn:Eo; cbn; [|done]. apply open_report_ok in Eo as [Hi Ho].
    intros [= <- _]. by apply (ReportDecided rec idx r (ReportDismissed moderator reason)).
Qed.

(** ** Listings stay consistent *)

Definition names (rec : ListingRecord) : list string := map pv_version (lr_versions rec).
(** [b] is not newer than [a]. *)
Definition not_older (a b : PublishedVersion) : Prop :=
  ∃ va vb, parse_version (pv_version a) = inr va ∧ parse_version (pv_version b) = inr vb ∧ version_cmp vb va ≠ Gt.
Definition reviewed_version (s : ReviewStatus) : option string :=
  match s with Unreviewed => None | Pending v | Approved _ v | Rejected _ v _ => Some v end.

Record listing_ok (id : string) (rec : ListingRecord) : Prop := {
  lo_id : lr_id rec = id;
  lo_named : id = lr_publisher rec +:+ ("/" +:+ lr_name rec);
  lo_nonempty : lr_versions rec ≠ [];
  lo_distinct : NoDup (names rec);
  lo_newest_first : StronglySorted not_older (lr_versions rec);
  lo_parse : Forall (λ v, ∃ n, parse_version (pv_version v) = inr n) (lr_versions rec);
  lo_channels channel v : lr_channels rec !! channel = Some v → v ∈ names rec;
  lo_review v : reviewed_version (lr_review rec) = Some v → v ∈ names rec;
  lo_ratings : Forall (λ rv, 1 ≤ rv_rating rv ≤ 5) (lr_reviews rec);
  lo_installs : is_u64 (lr_installs rec);
  lo_reports i r : lr_abuse_reports rec !! i = Some r → ar_id r = Z.of_nat i ∧ trim (ar_reason r) ≠ "";
  lo_delisted : lr_delisted rec = true ↔
    ∃ r moderator, r ∈ lr_abuse_reports rec ∧ ar_status r = ReportResolved moderator true }.
Definition catalog_ok (s : RegistryState) : Prop := map_Forall listing_ok (listings s).

Lemma handled_names rec rec' : handled rec rec' → lr_versions rec' = lr_versions rec ∧ lr_channels rec' = lr_channels rec.
Proof. by destruct 1. Qed.

Lemma decided_reports (reports : list AbuseReport) idx r status :
  reports !! idx = Some r → is_open (ar_status r) = true → is_open status = false →
  (∃ r' moderator, r' ∈ <[idx := set_report_status status r]> reports ∧ ar_status r' = ReportResolved moderator true) ↔
  (∃ r' moderator, r' ∈ reports ∧ ar_status r' = ReportResolved moderator true) ∨
  ∃ moderator, status = ReportResolved moderator true.
Proof.
  intros Hi Ho Hs. assert (idx < length reports)%nat as Hlt by (by eapply lookup_lt_Some). split.
  - intros (r' & moderator & (j & Hj)%list_elem_of_lookup & Hr'). destruct (decide (j = idx)) as [->|Hne].
    + rewrite list_lookup_insert_eq in Hj by done. injection Hj as <-. cbn in Hr'. eauto.
    + rewrite list_lookup_insert_ne in Hj by done. left. exists r', moderator. split; [|done]. by eapply list_elem_of_lookup_2.
  - intros [(r' & moderator & (j & Hj)%list_elem_of_lookup & Hr')|(moderator & ->)].
    + exists r', moderator. split; [|done]. apply (list_elem_of_lookup_2 _ j). rewrite list_lookup_insert_ne; [done|].
      intros <-. rewrite Hi in Hj. injection Hj as ->. by rewrite Hr' in Ho.
    + eexists _, moderator. split; [apply (list_elem_of_lookup_2 _ idx); by apply list_lookup_insert_eq|done].
Qed.

Lemma handled_ok id rec rec' : handled rec rec' → listing_ok id rec → listing_ok id rec'.
Proof.
  intros Hh [Hid Hn He Hd Hs Hp Hc Hr Hrt Hi Hrep Hdel].
  destruct Hh as [rec rv Hrv|rec|rec b|rec v Hpend Hl|rec v reviewer Hv|rec v reviewer reason Hv|rec reporter reason Ht|rec idx r status Hx Ho Hst];
    constructor; try done; cbn in *.
  - apply Forall_app. split; [done|by constructor].
  - unfold_ints. lia.
  - intros ? [= <-]. unfold names. unfold latest in Hl.
    destruct (lr_versions rec) as [|v' l]; [done|]. injection Hl as ->. left.
  - intros ? [= <-]. apply Hr. by rewrite Hv.
  - intros ? [= <-]. apply Hr. by rewrite Hv.
  - intros i r [Hi'|[Hi' Hj]]%lookup_app_Some; [by apply Hrep|].
    destruct (i - length (lr_abuse_reports rec))%nat as [|?] eqn:E; [|done]. injection Hj as <-. cbn. split; [lia|done].
  - rewrite Hdel. setoid_rewrite elem_of_app. setoid_rewrite list_elem_of_singleton. naive_solver.
  - intros i r' Hi'. destruct (decide (i = idx)) as [->|Hne].
    + rewrite list_lookup_insert_eq in Hi' by (by eapply lookup_lt_Some). injection Hi' as <-. exact (Hrep idx r Hx).
    + rewrite list_lookup_insert_ne in Hi' by done. by apply Hrep.
  - rewrite (decided_reports _ _ _ _ Hx Ho Hst), <-Hdel. destruct status as [|moderator []|]; naive_solver.
Qed.

Section sorted.
Context {SL : SemverLaws V R}.

#[local] Instance newer_first_total : Total newer_first.
Proof.
  intros a b. unfold newer_first, version_order.
  destruct (parse_version (pv_version a)) as [ea|va], (parse_version (pv_version b)) as [eb|vb];
    try (rewrite (String.compare_antisym (pv_version a) (pv_version b)); destruct (String.compare _ _); cbn; by (left + right)).
  destruct (version_cmp vb va) eqn:E; [by left..|]. right. by apply version_cmp_flip.
Qed.

Lemma resorted l : Forall (λ v, ∃ n, parse_version (pv_version v) = inr n) l →
  StronglySorted not_older (merge_sort newer_first l).
Proof.
  intros Hp. assert (Forall (λ v, ∃ n, parse_version (pv_version v) = inr n) (merge_sort newer_first l)) as Hp'.
  { by rewrite merge_sort_Permutation. }
  assert (Sorted newer_first (merge_sort newer_first l)) as Hs by apply Sorted_merge_sort, _.
  apply (StronglySorted_on not_older (λ v, ∃ n, parse_version (pv_version v) = inr n)); [|done|].
  - intros a b c _ _ _ (va & vb & Ha & Hb & Hab) (vb' & vc & Hb' & Hc & Hbc). simplify_eq.
    exists va, vc. assert (vb' = vb) as -> by congruence. split_and!; [done..|]. by eapply version_cmp_trans.
  - induction Hs as [|a l' Hs IH Hhd]; [constructor|]. apply Forall_cons in Hp' as [(va & Ha) Hp'].
    constructor; [by apply IH|]. destruct Hhd as [|b l' Hab]; [constructor|]. constructor.
    apply Forall_cons in Hp' as [(vb & Hb) _]. exists va, vb. split_and!; [done..|].
    unfold newer_first, version_order in Hab. by rewrite Ha, Hb in Hab.
Qed.

Lemma kept_elem (v : PublishedVersion) l x :
  x ∈ List.filter (λ p, negb (String.eqb (pv_version p) (pv_version v))) l ++ [v] ↔
  x = v ∨ (x ∈ l ∧ pv_version x ≠ pv_version v).
Proof.
  rewrite elem_of_app, list_elem_of_singleton, filter_elem, negb_true_iff, String.eqb_neq. naive_solver.
Qed.

(** The listing a version is put in. *)
Definition upserted (rec : ListingRecord) (v : PublishedVersion) (categories : list string) (channel : string)
    : ListingRecord :=
  resort (set_versions (List.filter (λ p, negb (String.eqb (pv_version p) (pv_version v))) (lr_versions rec) ++ [v])
            (set_browse (add_categories categories (lr_categories rec)) (<[channel := pv_version v]> (lr_channels rec)) rec)).
Lemma upsert_version_eq publisher name v categories channel s :
  upsert_version publisher name v categories channel s =
  let id := publisher +:+ ("/" +:+ name) in
  {| listings := <[id := upserted (default (ListingRecord_new id publisher name) (listings s !! id)) v categories channel]>
                   (listings s) |}.
Proof. done. Qed.

Lemma upserted_versions rec v categories channel x :
  x ∈ lr_versions (upserted rec v categories channel) ↔ x = v ∨ (x ∈ lr_versions rec ∧ pv_version x ≠ pv_version v).
Proof. cbn. by rewrite merge_sort_Permutation, kept_elem. Qed.

Lemma upserted_names rec v categories channel x :
  x ∈ names (upserted rec v categories channel) ↔ x = pv_version v ∨ x ∈ names rec.
Proof.
  unfold names. rewrite !list_elem_of_fmap. setoid_rewrite upserted_versions. split.
  - intros (y & -> & [-> |[Hy _]]); eauto.
  - intros [-> |(y & -> & Hy)]; [eauto|]. destruct (decide (pv_version y = pv_version v)) as [Heq|Hne]; eauto.
Qed.

(** A listing, or a new one, as far as an upsert needs it. *)
Lemma upserted_ok id rec v categories channel :
  (listing_ok id rec ∨ ∃ publisher name, id = publisher +:+ ("/" +:+ name) ∧ rec = ListingRecord_new id publisher name) →
  (∃ n, parse_version (pv_version v) = inr n) → listing_ok id (upserted rec v categories channel).
Proof.
  intros Hrec Hv.
  assert (lr_id rec = id ∧ id = lr_publisher rec +:+ ("/" +:+ lr_name rec) ∧ NoDup (names rec) ∧
    Forall (λ v, ∃ n, parse_version (pv_version v) = inr n) (lr_versions rec) ∧
    (∀ ch x, lr_channels rec !! ch = Some x → x ∈ names rec) ∧
    (∀ x, reviewed_version (lr_review rec) = Some x → x ∈ names rec) ∧
    Forall (λ rv, 1 ≤ rv_rating rv ≤ 5) (lr_reviews rec) ∧ is_u64 (lr_installs rec) ∧
    (∀ i r, lr_abuse_reports rec !! i = Some r → ar_id r = Z.of_nat i ∧ trim (ar_reason r) ≠ "") ∧
    (lr_delisted rec = true ↔ ∃ r moderator, r ∈ lr_abuse_reports rec ∧ ar_status r = ReportResolved moderator true))
    as (Hid & Hn & Hd & Hp & Hc & Hr & Hrt & Hi & Hrep & Hdel).
  { destruct Hrec as [[]|(publisher & name & -> & ->)]; [done|]. cbn.
    split_and!; [done|done|apply NoDup_nil_2|constructor|by intros ?? ?%lookup_empty_Some|done|constructor|unfold_ints; lia
      |done|split; [done|by intros (? & ? & ?%not_elem_of_nil & _)]]. }
  assert (Forall (λ v, ∃ n, parse_version (pv_version v) = inr n) (lr_versions (upserted rec v categories channel))) as Hp'.
  { rewrite Forall_forall in Hp |- *. intros x [-> |[Hx _]]%upserted_versions; [done|by apply Hp]. }
  constructor; try done.
  - intros Hnil. assert (v ∈ lr_versions (upserted rec v categories channel)) as Hin by (apply upserted_versions; by left).
    rewrite Hnil in Hin. by apply not_elem_of_nil in Hin.
  - unfold names, upserted. cbn. rewrite merge_sort_Permutation, map_app. apply NoDup_app. split_and!.
    + by apply NoDup_fmap_filter.
    + intros x (y & -> & Hy)%list_elem_of_fmap [Heq|[]%not_elem_of_nil]%elem_of_cons.
      apply filter_elem in Hy as [_ Hy]. rewrite negb_true_iff, String.eqb_neq in Hy. done.
    + apply NoDup_singleton.
  - unfold upserted. cbn. apply resorted. rewrite Forall_forall in Hp |- *.
    intros x [-> |[Hx _]]%kept_elem; [done|by apply Hp].
  - intros ch x Hx. apply upserted_names. cbn in Hx. apply lookup_insert_Some in Hx as [[_ <-]|[_ Hx]]; [by left|right; by eapply Hc].
  - intros x Hx. apply upserted_names. right. by apply Hr.
Qed.

Lemma vouches_version (c : Cur) p m : vouches c p m → ∃ n, parse_version (md_version (metadata m)) = inr n.
Proof.
  intros (_ & Hv & _). unfold validate in Hv. case_match; [done|]. case_match; [done|].
  apply result_bind_Ok in Hv as ([] & _ & (? & Hp & _)%result_bind_Ok). destruct (parse_version _) as [e|n]; [done|eauto].
Qed.

Lemma step_ok (c : Cur) op s s' : market_step c op s s' → catalog_ok s → catalog_ok s'.
Proof.
  intros [|bytes p m categories channel _ Hp|id rec rec' Hrec Hh] Hs; [done|..].
  - rewrite upsert_version_eq. apply map_Forall_insert_2; [|done]. apply upserted_ok.
    + destruct (listings s !! _) as [rec|] eqn:E; cbn; [left; by eapply Hs|right; eauto].
    + by eapply vouches_version, adm_vouched.
  - apply map_Forall_insert_2; [|done]. eapply handled_ok; [done|by eapply Hs].
Qed.

Lemma run_ok (steps : list (Cur * registry_op)) : catalog_ok (registry_run steps RegistryState_default).
Proof.
  unfold registry_run. assert (catalog_ok RegistryState_default) as H0 by apply map_Forall_empty.
  revert H0. generalize RegistryState_default. induction steps as [|[c op] steps IH]; intros s Hs; [done|].
  cbn. apply IH. by eapply step_ok; [apply registry_steps|].
Qed.

(** C25: Whatever is published, rated, installed, reviewed and reported, in any
    order and under any policies, the listings of the catalog stay consistent:
    each is named by its publisher and name, holds at least one version and
    every version once, newest first, channels and the review point to versions
    it holds, ratings and install counts stay in their range, reports are
    numbered by their position, and a listing is delisted exactly if a report
    against it was resolved so. *)
Theorem listings_stay_consistent (steps : list (Cur * registry_op)) :
  catalog_ok (registry_run steps RegistryState_default).
Proof. apply run_ok. Qed.
End sorted.

(** ** What is served was admitted *)

(** The version was published by one of the steps. *)
Definition traced (steps : list (Cur * registry_op)) (id : string) (v : PublishedVersion) : Prop :=
  ∃ c bytes categories channel p m, (c, Publish bytes categories channel) ∈ steps
    ∧ admitted c bytes p m ∧ qualified_id m = id ∧ v = published c bytes p m.
Definition all_traced (steps : list (Cur * registry_op)) (s : RegistryState) : Prop :=
  ∀ id rec v, listings s !! id = Some rec → v ∈ lr_versions rec → traced steps id v.

Lemma run_snoc (steps : list (Cur * registry_op)) step (s : RegistryState) :
  registry_run (steps ++ [step]) s = registry_step (registry_run steps s) step.
Proof. unfold registry_run. by rewrite foldl_app. Qed.

Lemma run_traced (steps : list (Cur * registry_op)) : all_traced steps (registry_run steps RegistryState_default).
Proof.
  induction steps as [|[c op] steps IH] using rev_ind; [intros id rec v Hrec; exfalso; exact (lookup_empty_Some id rec Hrec)|].
  rewrite run_snoc. intros id rec v.
  assert (∀ id v, traced steps id v → traced (steps ++ [(c, op)]) id v) as Hmono.
  { intros ? ? (c' & bytes & categories & channel & p & m & Hin & ?). exists c', bytes, categories, channel, p, m.
    split; [set_solver|done]. }
  destruct (registry_steps c (registry_run steps RegistryState_default) op)
    as [|bytes p m categories channel -> Hp|id' rec0 rec' Hrec Hh]; [eauto|..].
  - rewrite upsert_version_eq. cbn. intros [[<- <-]|[_ Hrec]]%lookup_insert_Some; [|eauto].
    intros [-> |[Hv _]]%upserted_versions.
    + exists c, bytes, categories, channel, p, m. split; [set_solver|done].
    + destruct (listings _ !! _) as [rec|] eqn:E; cbn in Hv; [eauto|]. by apply not_elem_of_nil in Hv.
  - cbn. intros [[<- <-]|[_ Hrec']]%lookup_insert_Some; [|eauto]. rewrite (proj1 (handled_names _ _ Hh)). eauto.
Qed.

Lemma version_elem v rec p : version v rec = Some p → p ∈ lr_versions rec ∧ pv_version p = v.
Proof. unfold version. intros [Hin Heq%String.eqb_eq]%find_Some_elem. done. Qed.
Lemma picked_elem wanted rec p : picked wanted rec = Some p →
  p ∈ lr_versions rec ∧ ∀ v, wanted = Some v → pv_version p = v.
Proof.
  destruct wanted as [v|]; cbn; [intros [??]%version_elem; naive_solver|].
  assert (latest rec = Some p → p ∈ lr_versions rec) as Hl.
  { unfold latest. destruct (lr_versions rec); [done|]. intros [= ->]. left. }
  destruct (lr_channels rec !! _) as [v|]; cbn; [|naive_solver].
  destruct (version v rec) as [p'|] eqn:E; [|naive_solver]. intros [= <-]. split; [by eapply version_elem|done].
Qed.

(** What a download needs of the listing. *)
Definition served_listing (p : RegistryPolicy) (id : string) (rec : ListingRecord) : Prop :=
  id ∉ blocklist p ∧ lr_delisted rec = false ∧ (require_verified p = true → lr_verified rec = true).

Lemma blocked_elem id p : is_blocked id p = true ↔ id ∈ blocklist p.
Proof.
  unfold is_blocked. rewrite existsb_elem. split; [by intros (y & Hy & <-%String.eqb_eq)|].
  exists id. by rewrite String.eqb_refl.
Qed.

Lemma download_ok (c : Cur) (s : RegistryState) id wanted bytes :
  download id wanted (curated c s) = Ok bytes ↔
  ∃ rec v, listings s !! id = Some rec ∧ served_listing (cu_policy c) id rec ∧ picked wanted rec = Some v ∧ pv_package v = bytes.
Proof.
  unfold download, served_listing. cbn [rg_policy rg_store curated]. setoid_rewrite <-blocked_elem.
  destruct (is_blocked id _) eqn:Eb; [split; [done|naive_solver]|]. cbn.
  destruct (listings s !! id) as [rec|]; cbn; [|split; [done|naive_solver]].
  transitivity (lr_delisted rec = false ∧ (require_verified (cu_policy c) = true → lr_verified rec = true)
    ∧ ∃ v, picked wanted rec = Some v ∧ pv_package v = bytes); [|naive_solver].
  destruct (lr_delisted rec); [split; [done|by intros [? _]]|].
  destruct (require_verified _), (lr_verified rec); cbn; try (split; [done|by intros (_ & Hv & _); specialize (Hv eq_refl)]);
    (destruct (picked wanted rec) as [v|]; cbn; [|split; [done|by intros (_ & _ & ? & ? & _)]]);
    (split; [intros [= <-]; eauto 10|by intros (_ & _ & ? & [= <-] & <-)]).
Qed.

(** C23: What a registry serves was admitted: bytes are downloaded from a listing
    only if the same bytes were published by an earlier operation, as a package
    of that listing (and of the version that is asked for) whose manifest is
    valid, which a trusted key or, where both sides have the keyless mode, an
    accepted identity vouched for, and which was within the policy of that time:
    its listing not blocked, its publisher allowed, its risk within the ceiling,
    and no finding of its scan as severe as the gate.  And at the time of the
    download the listing is not blocked, not delisted, and verified where the
    policy asks for it. *)
Theorem served_packages_were_admitted (steps : list (Cur * registry_op)) (c : Cur) id wanted bytes :
  download id wanted (curated c (registry_run steps RegistryState_default)) = Ok bytes →
  (∃ c' categories channel p m, (c', Publish bytes categories channel) ∈ steps ∧ admitted c' bytes p m
     ∧ qualified_id m = id ∧ (∀ v, wanted = Some v → md_version (metadata m) = v)) ∧
  (∃ rec, listings (registry_run steps RegistryState_default) !! id = Some rec ∧ served_listing (cu_policy c) id rec).
Proof.
  intros (rec & v & Hrec & Hs & Hp & <-)%download_ok. split; [|eauto]. apply picked_elem in Hp as [Hv Hw].
  destruct (run_traced steps id rec v Hrec Hv) as (c' & bytes & categories & channel & p & m & Hin & Hadm & Hid & ->).
  by exists c', categories, channel, p, m.
Qed.

(** ** Moderation is final *)

(** Listings of [s'] carry on the moderation of [s]. *)
Definition carries_on (s s' : RegistryState) : Prop :=
  ∀ id rec, listings s !! id = Some rec → ∃ rec', listings s' !! id = Some rec'
    ∧ (lr_delisted rec = true → lr_delisted rec' = true)
    ∧ ∀ i r, lr_abuse_reports rec !! i = Some r →
        ∃ r', lr_abuse_reports rec' !! i = Some r' ∧ (is_open (ar_status r) = false → r' = r).

#[local] Instance carries_on_preorder : PreOrder carries_on.
Proof.
  split.
  - intros s id rec Hrec. eauto 10.
  - intros s1 s2 s3 H12 H23 id rec Hrec. destruct (H12 _ _ Hrec) as (rec2 & Hrec2 & Hd2 & Hr2).
    destruct (H23 _ _ Hrec2) as (rec3 & Hrec3 & Hd3 & Hr3). exists rec3. split_and!; [done|auto|].
    intros i r (r2 & Hi2 & He2)%Hr2. destruct (Hr3 _ _ Hi2) as (r3 & Hi3 & He3). exists r3. split; [done|].
    intros Ho. specialize (He2 Ho) as ->. by apply He3.
Qed.

Lemma handled_carries_on rec rec' : handled rec rec' →
  (lr_delisted rec = true → lr_delisted rec' = true) ∧
  ∀ i r, lr_abuse_reports rec !! i = Some r →
    ∃ r', lr_abuse_reports rec' !! i = Some r' ∧ (is_open (ar_status r) = false → r' = r).
Proof.
  destruct 1 as [| | | | | |rec reporter reason Ht|rec idx r status Hx Ho Hst]; cbn; try by eauto.
  - split; [done|]. intros i r Hi. exists r. split; [|done]. by apply lookup_app_l_Some.
  - split; [intros Hd; by destruct status as [|? []|]|]. intros i r' Hi. destruct (decide (i = idx)) as [->|Hne].
    + rewrite list_lookup_insert_eq by (by eapply lookup_lt_Some). eexists. split; [done|]. intros. congruence.
    + rewrite list_lookup_insert_ne by done. eauto.
Qed.

Lemma step_carries_on (c : Cur) op s s' : market_step c op s s' → carries_on s s'.
Proof.
  intros [|bytes p m categories channel _ Hp|id rec0 rec' Hrec0 Hh]; [done|..]; intros id' rec Hrec.
  - rewrite upsert_version_eq. cbn. destruct (decide (md_publisher (metadata m) +:+ ("/" +:+ md_name (metadata m)) = id')) as [<-|Hne].
    + rewrite lookup_insert_eq, Hrec. eexists. split_and!; [done..|]. cbn. eauto.
    + rewrite lookup_insert_ne by done. eauto 10.
  - cbn. destruct (decide (id = id')) as [<-|Hne].
    + rewrite lookup_insert_eq. assert (rec0 = rec) as -> by congruence. eexists. split; [done|]. by apply handled_carries_on.
    + rewrite lookup_insert_ne by done. eauto 10.
Qed.
Lemma run_carries_on (steps : list (Cur * registry_op)) s : carries_on s (registry_run steps s).
Proof.
  unfold registry_run. revert s. induction steps as [|[c op] steps IH]; intros s; [done|].
  cbn. etrans; [|apply IH]. eapply step_carries_on, registry_steps.
Qed.

(** ** Searching *)

(** A query that a listing answers. *)
Definition answers (q : SearchQuery) (rec : ListingRecord) : Prop :=
  (∀ cat, q_category q = Some cat → cat ∈ lr_categories rec) ∧
  (∀ kind, q_capability q = Some kind → ∃ v, latest rec = Some v ∧ kind ∈ pv_capabilities v) ∧
  let needle := to_lowercase (q_text q) in
  (needle = "" ∨ ∃ text, contains_str needle (to_lowercase text) = true ∧
     (text ∈ lr_name rec :: lr_publisher rec :: lr_id rec :: lr_categories rec
      ∨ ∃ v, latest rec = Some v ∧ text = pv_description v)).

Lemma score_nonneg (b : bool) k : 0 ≤ k → 0 ≤ if b then k else 0.
Proof. destruct b; lia. Qed.
Lemma score_pos (b : bool) r k : 0 ≤ r → 0 < k → 0 < r + (if b then k else 0) ↔ 0 < r ∨ b = true.
Proof. intros. destruct b; split; [by right|lia|left; lia|intros [?|?]; [lia|done]]. Qed.
Lemma relevance_pos rec needle : needle ≠ "" →
  0 < relevance rec needle ↔ ∃ text, contains_str needle (to_lowercase text) = true ∧
     (text ∈ lr_name rec :: lr_publisher rec :: lr_id rec :: lr_categories rec
      ∨ ∃ v, latest rec = Some v ∧ text = pv_description v).
Proof.
  intros Hne. unfold relevance. destruct (is_empty needle) eqn:E; [by destruct needle|]. clear E.
  set (f t := contains_str needle (to_lowercase t)).
  assert (existsb (λ c, contains_str needle (to_lowercase c)) (lr_categories rec) = true ↔ ∃ t, t ∈ lr_categories rec ∧ f t = true)
    as Hc by apply existsb_elem.
  transitivity (f (lr_name rec) = true ∨ f (lr_publisher rec) = true ∨ f (lr_id rec) = true
    ∨ (∃ v, latest rec = Some v ∧ f (pv_description v) = true) ∨ ∃ t, t ∈ lr_categories rec ∧ f t = true).
  - rewrite <-Hc. set (d := match latest rec with Some v => f (pv_description v) | None => false end).
    assert ((∃ v, latest rec = Some v ∧ f (pv_description v) = true) ↔ d = true) as ->.
    { unfold d. destruct (latest rec); [naive_solver|]. split; [by intros (? & ? & _)|done]. }
    replace (match latest rec with Some _ => _ | None => 0 end) with (if d then 2 else 0) by (unfold d; by destruct (latest rec)).
    rewrite !score_pos by (repeat apply Z.add_nonneg_nonneg; try apply score_nonneg; lia).
    assert ((0 < if f (lr_name rec) then 10 else 0) ↔ f (lr_name rec) = true) as Hn by (destruct (f (lr_name rec)); split; done || lia).
    unfold f in Hn |- *. rewrite Hn. tauto.
  - unfold f. split.
    + intros [Ht|[Ht|[Ht|[(v & Hv & Ht)|(t & Hin & Ht)]]]]; eexists; (split; [exact Ht|]); [left; set_solver..|eauto|left; set_solver].
    + intros (t & Ht & [[-> |[-> |[-> |Hin]%elem_of_cons]%elem_of_cons]%elem_of_cons|(v & Hv & ->)]); eauto 7.
Qed.

(** The order of the results: the more relevant first, then by id. *)
Definition before_in_results (needle : string) (a b : ListingRecord) : Prop :=
  relevance b needle < relevance a needle ∨ (relevance a needle = relevance b needle ∧ String.le (lr_id a) (lr_id b)).

Lemma more_relevant_sorted l : StronglySorted more_relevant (merge_sort more_relevant l).
Proof.
  assert (Total more_relevant).
  { intros [x a] [y b]. unfold more_relevant. cbn. destruct (Z.lt_trichotomy x y) as [?|[->|?]]; [right; by left| |left; by left].
    destruct (base.total String.le (li_id a) (li_id b)); [left|right]; by right. }
  assert (Transitive more_relevant).
  { intros [x a] [y b] [z c]. unfold more_relevant. cbn. intros [?|[-> ?]] [?|[-> ?]]; try (left; lia). right. split; [done|]. by etrans. }
  by apply StronglySorted_merge_sort.
Qed.

Lemma searchable_ok p q rec id : lr_id rec = id →
  searchable p q rec = true ↔ served_listing p id rec
    ∧ (∀ cat, q_category q = Some cat → cat ∈ lr_categories rec)
    ∧ (∀ kind, q_capability q = Some kind → ∃ v, latest rec = Some v ∧ kind ∈ pv_capabilities v).
Proof.
  intros <-. unfold searchable, served_listing. rewrite !andb_true_iff, negb_true_iff, orb_false_iff, <-blocked_elem.
  assert (∀ cat, existsb (λ c, String.eqb c cat) (lr_categories rec) = true ↔ cat ∈ lr_categories rec) as Hcat.
  { intros cat. rewrite existsb_elem. split; [by intros (y & Hy & <-%String.eqb_eq)|exists cat; by rewrite String.eqb_refl]. }
  assert (is_blocked (lr_id rec) p = false ↔ ¬ is_blocked (lr_id rec) p = true) as -> by (destruct (is_blocked _ _); naive_solver).
  assert (negb (require_verified p && negb (lr_verified rec)) = true ↔ (require_verified p = true → lr_verified rec = true)) as ->.
  { destruct (require_verified p), (lr_verified rec); cbn; naive_solver. }
  assert (match q_category q with Some cat => existsb (λ c, String.eqb c cat) (lr_categories rec) | None => true end = true
          ↔ ∀ cat, q_category q = Some cat → cat ∈ lr_categories rec) as ->.
  { destruct (q_category q); [rewrite Hcat|]; naive_solver. }
  assert (match q_capability q with
          | Some kind => match latest rec with Some v => bool_decide (kind ∈ pv_capabilities v) | None => false end
          | None => true end = true
          ↔ ∀ kind, q_capability q = Some kind → ∃ v, latest rec = Some v ∧ kind ∈ pv_capabilities v) as ->.
  { destruct (q_capability q) as [kind|]; [|naive_solver]. destruct (latest rec) as [v|].
    - rewrite bool_decide_eq_true. naive_solver.
    - split; [done|]. intros Hk. by destruct (Hk kind eq_refl) as (? & ? & _). }
  tauto.
Qed.

Lemma scored_ok p q rec x :
  scored p q rec = Some x ↔ x = (relevance rec (to_lowercase (q_text q)), to_listing rec)
    ∧ served_listing p (lr_id rec) rec ∧ answers q rec.
Proof.
  unfold scored, answers. cbn zeta. pose proof (searchable_ok p q rec _ eq_refl) as Hs.
  assert (is_empty (to_lowercase (q_text q)) || Z.ltb 0 (relevance rec (to_lowercase (q_text q))) = true ↔
    (to_lowercase (q_text q) = "" ∨ ∃ text, contains_str (to_lowercase (q_text q)) (to_lowercase text) = true ∧
     (text ∈ lr_name rec :: lr_publisher rec :: lr_id rec :: lr_categories rec
      ∨ ∃ v, latest rec = Some v ∧ text = pv_description v))) as Ht.
  { destruct (is_empty (to_lowercase (q_text q))) eqn:E.
    - split; [intros _; left; by destruct (to_lowercase (q_text q))|done].
    - assert (to_lowercase (q_text q) ≠ "") as Hne by (intros He; by rewrite He in E).
      cbn. rewrite Z.ltb_lt, relevance_pos by done. naive_solver. }
  destruct (searchable p q rec && _) eqn:E.
  - apply andb_true_iff in E as [E1%Hs E2%Ht]. split; [intros [= <-]|intros (-> & _)]; [|done]. tauto.
  - split; [done|]. intros (_ & Hserved & Hc & Hk & Htext). exfalso.
    assert (searchable p q rec = true) as E1 by (apply Hs; tauto). apply Ht in Htext. rewrite E1, Htext in E. done.
Qed.

Lemma StronglySorted_map_inv {A B} (before : relation B) (g : A → B) l :
  StronglySorted before (map g l) → StronglySorted (λ a b, before (g a) (g b)) l.
Proof.
  induction l as [|a l IH]; [constructor|]. cbn. intros Hs. inversion Hs as [|? ? Hl Hall]; subst.
  constructor; [by apply IH|].
  change (map g l) with (g <$> l) in Hall. by rewrite Forall_fmap in Hall.
Qed.

Definition result_of (q : SearchQuery) (rec : ListingRecord) : Z * Listing :=
  (relevance rec (to_lowercase (q_text q)), to_listing rec).
Lemma scored_all p q all :
  omap (scored p q) all = map (result_of q) (List.filter (λ rec, if scored p q rec then true else false) all).
Proof.
  induction all as [|rec all IH]; [done|]. cbn. destruct (scored p q rec) as [x|] eqn:E; [|done].
  apply scored_ok in E as [-> _]. cbn. by rewrite IH.
Qed.

Lemma get_ok (c : Cur) (s : RegistryState) id li :
  get id (curated c s) = Ok (Some li) ↔ ∃ rec, listings s !! id = Some rec ∧ served_listing (cu_policy c) id rec ∧ li = to_listing rec.
Proof.
  unfold get, served_listing. cbn [rg_policy rg_store curated]. setoid_rewrite <-blocked_elem.
  destruct (is_blocked id _) eqn:Eb; [split; [done|naive_solver]|]. cbn.
  destruct (listings s !! id) as [rec|]; cbn; [|split; [done|naive_solver]].
  transitivity (lr_delisted rec = false ∧ (require_verified (cu_policy c) = true → lr_verified rec = true) ∧ li = to_listing rec);
    [|naive_solver].
  destruct (lr_delisted rec); [split; [done|by intros [? _]]|].
  destruct (require_verified _), (lr_verified rec); cbn; try (split; [done|by intros (_ & Hv & _); specialize (Hv eq_refl)]);
    (split; [by intros [= <-]|by intros (_ & _ & ->)]).
Qed.

(** C28: A search returns the listings the code searches for, best first: the
    results are the projections of exactly those listings of the catalog that
    can be fetched by their id under the policy in force and that answer the
    query - they have the category it names, their newest version has the
    capability it names, and its text is in their name, publisher, id, one of
    their categories or the newest description - each once, the more relevant
    before the less relevant and equally relevant ones by id.  The text is not
    looked for in the kinds of capabilities, although the query and the design
    document say that it is (see [MarketToy.kinds_are_not_searched]): a listing
    that matches only there is not a result. *)
Theorem search_shows_what_can_be_fetched `{SL : !SemverLaws V R} (steps : list (Cur * registry_op)) (c : Cur) (q : SearchQuery) :
  let s := registry_run steps RegistryState_default in
  ∃ recs, search q (curated c s) = Ok (map to_listing recs)
    ∧ StronglySorted (before_in_results (to_lowercase (q_text q))) recs
    ∧ NoDup (map lr_id recs)
    ∧ ∀ rec, rec ∈ recs ↔ listings s !! lr_id rec = Some rec
        ∧ get (lr_id rec) (curated c s) = Ok (Some (to_listing rec)) ∧ answers q rec.
Proof.
  intros s. pose proof (run_ok steps : catalog_ok s) as Hok.
  set (all := map snd (btree_iter (listings s))).
  set (kept := List.filter (λ rec, if scored (cu_policy c) q rec then true else false) all).
  assert (∀ rec, rec ∈ all ↔ listings s !! lr_id rec = Some rec) as Hall.
  { intros rec. unfold all. rewrite list_elem_of_fmap. split.
    - intros ([id rec'] & -> & Hrec%btree_iter_elem). cbn in *. by rewrite (lo_id _ _ (Hok _ _ Hrec)).
    - intros Hrec. exists (lr_id rec, rec). by rewrite btree_iter_elem. }
  destruct (Permutation_map_inv (l1 := merge_sort more_relevant (map (result_of q) kept)) (result_of q) kept)
    as (recs & Hrecs & Hperm); [apply merge_sort_Permutation|].
  exists recs. split_and!.
  - unfold search. cbn [rg_policy rg_store curated st_all InMemoryRegistryStore mbind result_bind].
    rewrite scored_all. fold all. fold kept. by rewrite Hrecs, map_map.
  - assert (StronglySorted more_relevant (map (result_of q) recs)) as Hs by (rewrite <-Hrecs; apply more_relevant_sorted).
    by apply StronglySorted_map_inv in Hs.
  - rewrite <-Hperm. unfold kept. apply (NoDup_fmap_filter lr_id).
    assert (lr_id <$> all = fst <$> btree_iter (listings s)) as ->; [|apply btree_iter_nodup].
    unfold all. rewrite <-list_fmap_compose. apply list_fmap_ext. intros i [id rec] Hi%list_elem_of_lookup_2.
    apply btree_iter_elem in Hi. cbn. by apply lo_id, Hok.
  - intros rec. rewrite <-Hperm. unfold kept. rewrite filter_elem, Hall, get_ok.
    destruct (scored _ _ _) as [x|] eqn:E.
    + apply scored_ok in E as (_ & Hs & Ha). naive_solver.
    + split; [naive_solver|]. intros (Hrec & (rec' & Hrec' & Hs & _) & Ha). exfalso.
      assert (rec' = rec) as -> by congruence.
      rewrite (proj2 (scored_ok _ _ _ _) (conj eq_refl (conj Hs Ha))) in E. done.
Qed.

(** C27: Moderation is final: an abuse report that was decided keeps its decision
    through whatever follows, reports that are filed stay filed, and a listing
    that was once delisted is never served again - no download of any version
    succeeds and it is not shown, under any policy. *)
Theorem moderation_is_final (before after : list (Cur * registry_op)) (c : Cur) id rec :
  let s := registry_run before RegistryState_default in
  let s' := registry_run after s in
  listings s !! id = Some rec →
  (∃ rec', listings s' !! id = Some rec' ∧ ∀ i r, lr_abuse_reports rec !! i = Some r →
     ∃ r', lr_abuse_reports rec' !! i = Some r' ∧ (is_open (ar_status r) = false → r' = r)) ∧
  (lr_delisted rec = true →
     (∀ wanted bytes, download id wanted (curated c s') ≠ Ok bytes) ∧
     (∀ li, get id (curated c s') ≠ Ok (Some li))).
Proof.
  intros s s' Hrec. destruct (run_carries_on after s _ _ Hrec) as (rec' & Hrec' & Hd & Hr).
  split; [eauto|]. intros Hdel. specialize (Hd Hdel).
  split; [intros wanted bytes (rec2 & v & Hrec2 & (_ & Hd2 & _) & _)%download_ok|intros li (rec2 & Hrec2 & (_ & Hd2 & _) & _)%get_ok];
    unfold s' in *; congruence.
Qed.

(** ** The gate of the scan *)

Lemma scan_elem (p : Package) (m : PluginManifest) deny (feed : VulnFeed V) f :
  (∃ a, a ∈ artifacts m ∧ f ∈ scan_artifact p a) ∨ (∃ perm, perm ∈ permissions m ∧ f ∈ scan_permission perm)
  ∨ (∃ cap, cap ∈ capabilities m ∧ f ∈ scan_capability cap)
  ∨ (∃ b comp, sbom m = Some b ∧ comp ∈ components b ∧ f ∈ scan_component deny feed comp) →
  f ∈ findings (scan p m deny feed).
Proof.
  assert (∀ {A} (g : A → list Finding) l, (∃ a, a ∈ l ∧ f ∈ g a) → f ∈ concat (map g l)) as Hin.
  { intros A g l (a & Ha & Hf). apply list_elem_of_In, List.in_concat. exists (g a).
    split; [by apply List.in_map, list_elem_of_In|by apply list_elem_of_In]. }
  unfold scan. cbn. rewrite !elem_of_app. intros [Ha|[Hp|[Hc|(b & comp & -> & Hb)]]];
    [left|right; left|do 2 right; left|do 3 right; left]; (apply Hin; eauto).
Qed.

(** Where the policy gates publication by the scan, what is admitted is
    intact: every artifact of the manifest is in the package and has its
    declared digest, no component of its bill of materials is on the deny-list
    or matches an advisory of the feed; and where the gate is at warnings, it
    asks for no wildcard permission and no native sandbox. *)
Theorem gated_packages_are_intact (c : Cur) bytes p m ceiling :
  admitted c bytes p m → block_scan_severity (cu_policy c) = Some ceiling →
  (∀ a, a ∈ artifacts m → ∃ content, pkg_artifacts p !! art_path a = Some content
     ∧ verify_digest (art_digest a) content = Ok ()) ∧
  (∀ b comp, sbom m = Some b → comp ∈ components b →
     sc_component comp ∉ deny_components (cu_policy c) ∧ pinned comp ∉ deny_components (cu_policy c)
     ∧ advisories_for (sc_component comp) (sc_version comp) (cu_feed c) = []) ∧
  (ceiling ≠ SevCritical → (∀ perm, perm ∈ permissions m → is_broad perm = false)
     ∧ ∀ cap, cap ∈ capabilities m → cap_sandbox cap ≠ "native").
Proof.
  intros Ha Hc. set (deny := deny_components (cu_policy c)).
  assert (∀ f, severity_rank ceiling ≤ severity_rank (fd_severity f) → f ∈ findings (scan p m deny (cu_feed c)) → False) as Hno.
  { intros f Hle Hf. pose proof (adm_scan _ _ _ _ Ha ceiling f Hc Hf). lia. }
  assert (severity_rank ceiling ≤ 2) as H2 by (by destruct ceiling).
  split_and!.
  - intros a Hin. unfold deny in Hno. destruct (pkg_artifacts p !! art_path a) as [content|] eqn:E.
    + exists content. split; [done|]. destruct (verify_digest (art_digest a) content) as [[]|e] eqn:Ev; [done|exfalso].
      eapply Hno; [|apply scan_elem; left; exists a; split; [done|unfold scan_artifact; rewrite E, Ev; left]]. exact H2.
    + exfalso. eapply Hno; [|apply scan_elem; left; exists a; split; [done|unfold scan_artifact; rewrite E; left]]. exact H2.
  - intros b comp Hb Hcomp.
    assert (∀ f, severity_rank ceiling ≤ severity_rank (fd_severity f) → f ∈ scan_component deny (cu_feed c) comp → False) as Hc'.
    { intros f Hle Hf. apply (Hno f Hle), scan_elem. do 3 right. eauto. }
    destruct (is_denied deny comp) eqn:Ed.
    { exfalso. eapply Hc'; [|unfold scan_component; rewrite Ed; left]. exact H2. }
    destruct (advisories_for (sc_component comp) (sc_version comp) (cu_feed c)) as [|adv l] eqn:Eadv.
    + assert (∀ d, d = sc_component comp ∨ d = pinned comp → d ∉ deny) as Hd; [|split_and!; auto].
      intros d Hd Hin. assert (is_denied deny comp = true); [|congruence]. apply existsb_elem. exists d.
      split; [done|]. rewrite orb_true_iff, !String.eqb_eq. done.
    + exfalso. eapply Hc'; [|unfold scan_component; rewrite Ed, Eadv; left]. exact H2.
  - intros Hne. assert (severity_rank ceiling ≤ 1) as H1 by (by destruct ceiling). split.
    + intros perm Hin. destruct (is_broad perm) eqn:Eb; [exfalso|done].
      eapply Hno; [|apply scan_elem; right; left; exists perm; split; [done|unfold scan_permission; rewrite Eb; left]]. exact H1.
    + intros cap Hin Hn. eapply Hno;
        [|apply scan_elem; do 2 right; left; exists cap; split; [done|unfold scan_capability; rewrite Hn; left]]. exact H1.
Qed.

(** ** The feed *)

Lemma dedup_cons {A} `{EqDecision A} (a b : A) l :
  dedup (a :: b :: l) = if decide (a = b) then dedup (b :: l) else a :: dedup (b :: l).
Proof. done. Qed.
Lemma dedup_elem {A} `{EqDecision A} (l : list A) x : x ∈ dedup l ↔ x ∈ l.
Proof.
  induction l as [|a l IH]; [done|]. destruct l as [|b l]; [done|]. rewrite dedup_cons.
  destruct (decide (a = b)) as [->|Hne]; rewrite ?elem_of_cons, IH; set_solver.
Qed.
Lemma dedup_NoDup (l : list string) : StronglySorted String.le l → NoDup (dedup l).
Proof.
  induction l as [|a l IH]; [intros _; apply NoDup_nil_2|]. intros Hs. inversion Hs as [|? ? Hl Hall]; subst.
  destruct l as [|b l]; [apply NoDup_singleton|]. rewrite dedup_cons. destruct (decide (a = b)) as [->|Hne]; [by apply IH|].
  apply NoDup_cons. split; [|by apply IH]. rewrite dedup_elem. intros Hin.
  apply Forall_cons in Hall as [Hab _]. inversion Hl as [|? ? _ Hb]; subst.
  apply elem_of_cons in Hin as [->|Hin]; [done|]. rewrite Forall_forall in Hb.
  apply Hne, (anti_symm String.le); [done|by apply Hb].
Qed.

Lemma indexed_names_spec (adv : Advisory V) :
  NoDup (indexed_names adv) ∧ ∀ name, name ∈ indexed_names adv ↔ ∃ a, a ∈ adv_affected adv ∧ af_package a = name.
Proof.
  unfold indexed_names. split; [apply dedup_NoDup, StronglySorted_merge_sort; apply _|].
  intros name. rewrite dedup_elem, merge_sort_Permutation. rewrite list_elem_of_fmap. naive_solver.
Qed.

Lemma push_all (adv : Advisory V) ns m name : NoDup ns →
  default [] (foldl (push_advisory adv) m ns !! name) = default [] (m !! name) ++ (if bool_decide (name ∈ ns) then [adv] else []).
Proof.
  intros Hnd. revert m. induction ns as [|n ns IH]; intros m; [by rewrite app_nil_r|].
  apply NoDup_cons in Hnd as [Hn Hnd]. cbn [foldl]. rewrite IH by done. unfold push_advisory at 1.
  destruct (decide (n = name)) as [->|Hne].
  - rewrite lookup_insert_eq. cbn. rewrite bool_decide_eq_false_2, bool_decide_eq_true_2 by set_solver. by rewrite app_nil_r.
  - rewrite lookup_insert_ne by done. f_equal.
    destruct (bool_decide_reflect (name ∈ ns)), (bool_decide_reflect (name ∈ n :: ns)); set_solver.
Qed.

Lemma index_entries_lookup (entries : list RawEntry) (m m' : gmap string (list (Advisory V))) name :
  index_entries entries m = Ok m' →
  default [] (m' !! name) =
  default [] (m !! name) ++ List.filter (λ adv, bool_decide (name ∈ indexed_names adv)) (map advisory_of entries).
Proof.
  revert m. induction entries as [|raw entries IH]; intros m; cbn [index_entries]; [intros [= <-]; by rewrite app_nil_r|].
  destruct (is_empty _); [done|]. intros Hm%IH. rewrite Hm, push_all by apply indexed_names_spec. cbn [map List.filter].
  destruct (bool_decide _); by rewrite <-app_assoc.
Qed.

(** The index of the vulnerability feed loses nothing: the advisories it
    finds for a component are, in the order of the feed, exactly those of its
    records one of whose affected packages has the component's name and lists
    the version or has a range that contains it. *)
Theorem feed_index_is_a_scan `{OsvJson} json (feed : VulnFeed V) name version :
  from_osv_json json = Ok feed →
  ∃ entries, (osv_array json = inr entries ∨ osv_wrapped json = inr entries) ∧ Forall (λ e, re_id e ≠ "") entries ∧
    advisories_for name version feed =
    List.filter (λ adv, existsb (affects name version (parse_lenient version)) (adv_affected adv)) (map advisory_of entries).
Proof.
  unfold from_osv_json. intros (entries & Hj & (m & Hm & [= <-])%result_bind_Ok)%result_bind_Ok. exists entries. split_and!.
  - destruct (osv_array json) as [e|v]; [|left; congruence]. right. by destruct (osv_wrapped json); [|simplify_eq].
  - clear Hj. revert Hm. generalize (∅ : gmap string (list (Advisory V))).
    induction entries as [|raw entries IH]; intros m0; [constructor|]. cbn [index_entries].
    destruct (is_empty _) eqn:E; [done|]. intros Hm. constructor; [intros He; by rewrite He in E|by eapply IH].
  - apply (index_entries_lookup _ _ _ name) in Hm. rewrite lookup_empty in Hm. cbn in Hm.
    unfold advisories_for. cbn [by_package]. set (f adv := existsb _ (adv_affected adv)).
    transitivity (List.filter f (default [] (m !! name))); [by destruct (m !! name)|]. rewrite Hm. clear Hm Hj.
    induction entries as [|raw entries IH]; [done|]. cbn [map List.filter]. rewrite <-IH.
    destruct (bool_decide_reflect (name ∈ indexed_names (advisory_of raw))) as [Hin|Hin]; [done|].
    destruct (f (advisory_of raw)) eqn:E; [exfalso|done]. apply Hin, (indexed_names_spec (advisory_of raw)).
    apply existsb_elem in E as (a & Ha & Haf). exists a. split; [done|]. unfold affects in Haf.
    by apply andb_true_iff in Haf as [?%String.eqb_eq _].
Qed.

(** ** The file is the catalog *)

Section file.
Context `{RegistrySerde}.
(** What is written reads back. *)
Context (serde_law : ∀ st, ∃ bytes, registry_to_bytes st = inr bytes ∧ registry_of_bytes bytes = inr st).

Definition holds_state (f : FileRegistryStore) (s : RegistryState) : Prop := load f = Ok s.

Lemma mutate_same {A} (g : RegistryState → result (RegistryState * A)) f s : holds_state f s →
  (mutate g f).2 = (in_memory g s).2 ∧ holds_state (mutate g f).1 (in_memory g s).1.
Proof.
  intros Hf. unfold mutate, in_memory. rewrite Hf. destruct (g s) as [[s' a]|e]; [|done]. unfold save.
  destruct (serde_law s') as (bytes & Hb & Hr). rewrite Hb. split; [done|]. unfold holds_state, load. cbn. by rewrite Hr.
Qed.

(** Calls of the two registries that answer alike. *)
Definition alike {A} (m : M (Registry V FileRegistryStore) A) (m' : M (Registry V RegistryState) A) : Prop :=
  ∀ c f s, holds_state f s → (m (curated c f)).2 = (m' (curated c s)).2 ∧
    ∃ f' s', (m (curated c f)).1 = curated c f' ∧ (m' (curated c s)).1 = curated c s' ∧ holds_state f' s'.

Lemma alike_store {A} (g : RegistryState → result (RegistryState * A)) : alike (on_store (mutate g)) (on_store (in_memory g)).
Proof.
  intros c f s Hf. destruct (mutate_same g f s Hf) as [Hr Hs]. unfold on_store. cbn [rg_store curated].
  destruct (mutate g f) as [f' r], (in_memory g s) as [s' r']. cbn in *. subst. split; [done|]. by exists f', s'.
Qed.
Lemma alike_throw {A} e : alike (A := A) (throw e) (throw e).
Proof. intros c f s Hf. split; [done|]. by exists f, s. Qed.
Lemma alike_lift_bind {A B} (o : outcome A) (k : A → M _ B) k' : (∀ a, alike (k a) (k' a)) → alike (lift o ≫= k) (lift o ≫= k').
Proof. intros Hk c f s Hf. unfold mbind, M_bind, lift. destruct o; [by apply Hk|]. split; [done|]. by exists f, s. Qed.
Lemma alike_then {A B} (m : M _ A) m' (b : A → B) : alike m m' → alike (a ← m; mret (b a)) (a ← m'; mret (b a)).
Proof.
  intros Hm c f s Hf. destruct (Hm c f s Hf) as (Hr & f' & s' & Hf' & Hs' & Hh). unfold mbind, M_bind.
  destruct (m (curated c f)) as [w [a|st]], (m' (curated c s)) as [w' [a'|st']]; cbn in *; simplify_eq;
    (split; [done|]); by exists f', s'.
Qed.

(** A publication once its registry was consulted. *)
Definition admitting {S} `{RegistryStore S} (p : Package) (who : outcome PluginManifest) (policy : RegistryPolicy)
    (feed : VulnFeed V) (bytes : string) (categories : list string) (channel : option string)
    : M (Registry V S) PublishOutcome :=
  m ← lift who;
  _ ← lift (of_result (check_publish (md_publisher (metadata m)) (qualified_id m) (classify (permissions m)) policy));
  _ ← lift (of_result (check_scan (scan p m (deny_components policy) feed) policy));
  text ← lift (of_result (ok_or (invalid "`.wovyrpkg` is not valid UTF-8 JSON") (from_utf8 bytes)));
  _ ← on_store (st_upsert_version (md_publisher (metadata m)) (md_name (metadata m))
        (version_of_package m (classify (permissions m)) (scan p m (deny_components policy) feed) (package_digest bytes) text)
        categories (default DEFAULT_CHANNEL channel));
  mret {| po_listing_id := qualified_id m; po_reference := reference m; po_channel := default DEFAULT_CHANNEL channel;
          po_scan := scan p m (deny_components policy) feed |}.
Lemma alike_admitting p who policy feed bytes categories channel :
  alike (admitting p who policy feed bytes categories channel) (admitting p who policy feed bytes categories channel).
Proof. unfold admitting. do 4 (apply alike_lift_bind; intros ?). apply alike_then, alike_store. Qed.

Lemma alike_publish bytes categories channel : alike (publish bytes categories channel) (publish bytes categories channel).
Proof.
  apply alike_lift_bind. intros p c f s Hf.
  exact (alike_admitting p (vouched p (curated c s)) (cu_policy c) (cu_feed c) bytes categories channel c f s Hf).
Qed.

Lemma alike_run op : alike (run_registry op) (run_registry op).
Proof.
  destruct op; cbn [run_registry]; try apply alike_store.
  - apply alike_then, alike_publish.
  - unfold review. destruct (negb _); [apply alike_throw|apply alike_store].
  - apply alike_then. unfold registry_report_abuse. destruct (is_empty _); [apply alike_throw|apply alike_store].
Qed.

Lemma alike_runs (steps : list (Cur * registry_op)) f s : holds_state f s →
  holds_state (registry_run steps f) (registry_run steps s).
Proof.
  unfold registry_run. revert f s. induction steps as [|[c op] steps IH]; intros f s Hf; [done|]. cbn. apply IH.
  destruct (alike_run op c f s Hf) as (_ & f' & s' & Hf' & Hs' & Hh). unfold registry_step. cbn. by rewrite Hf', Hs'.
Qed.

(** The file of the catalog is the catalog: after any operations on a node
    that began without a file, every further operation answers as over the
    store in memory, and so does every query - a listing, a search, a download,
    the reports of a listing. *)
Theorem registry_file_refines_memory (steps : list (Cur * registry_op)) (c : Cur) :
  let f := registry_run steps {| registry_json := None |} in
  let s := registry_run steps RegistryState_default in
  (∀ op, (run_registry op (curated c f)).2 = (run_registry op (curated c s)).2) ∧
  (∀ id, get id (curated c f) = get id (curated c s)) ∧
  (∀ q, search q (curated c f) = search q (curated c s)) ∧
  (∀ id wanted, download id wanted (curated c f) = download id wanted (curated c s)) ∧
  (∀ id, abuse_reports id (curated c f) = abuse_reports id (curated c s)).
Proof.
  intros f s. assert (holds_state f s) as Hf by by apply alike_runs.
  assert (∀ id, st_get id f = st_get id s) as Hget by (intros id; cbn; by rewrite Hf).
  assert (st_all f = st_all s) as Hall by (cbn; by rewrite Hf).
  split_and!.
  - intros op. by destruct (alike_run op c f s Hf) as [-> _].
  - intros id. unfold get. cbn [rg_store rg_policy curated]. by rewrite Hget.
  - intros q. unfold search. cbn [rg_store rg_policy curated]. by rewrite Hall.
  - intros id wanted. unfold download. cbn [rg_store rg_policy curated]. by rewrite Hget.
  - intros id. unfold abuse_reports. cbn [rg_store rg_policy curated]. by rewrite Hget.
Qed.
End file.
End market.

(** ** Concrete runs *)

Module MarketToy.
Export PluginToy(semver, crypto).
#[global] Instance laws : SemverLaws Z Z.
Proof. split; cbn; intros *; rewrite ?Z.compare_refl, ?Z.compare_gt_iff, ?Z.compare_le_iff; try lia; done. Qed.
#[global] Instance unicode : Unicode := {|
  is_alphanumeric := char_sat is_ascii_alphanumeric; to_lowercase := to_ascii_lowercase |}.
(** An envelope is the text of its manifest, signed with the key [key]. *)
#[global] Instance envelope : PackageSerde := {|
  envelope_to_vec e := inr (pk_manifest e);
  envelope_from_slice s := inr {| pk_manifest := s; pk_signature := hex_encode ("key" +:+ s); pk_artifacts := ∅;
                                  pk_keyless := None |} |}.
Definition manifest_of (publisher name version : string) (kinds : list CapabilityKind) (permissions : list string)
    : PluginManifest := {|
  api_version := PLUGIN_API_VERSION; Manifest.kind := "Plugin";
  metadata := {| md_name := name; md_version := version; md_publisher := publisher; md_description := "A tool";
                 md_license := "MIT"; md_homepage := "" |};
  compatibility := {| platform_api_range := "" |}; dependencies := []; permissions := permissions;
  capabilities := imap (λ i k, {| cap_kind := k; cap_id := show_Z (Z.of_nat i); cap_entry := "run"; cap_sandbox := "wasm" |}) kinds;
  artifacts := []; sbom := Some {| components := [{| sc_component := "serde"; sc_version := "1"; sc_license := "MIT" |}] |};
  provenance := None |}.
#[global] Instance yaml : ManifestYaml := {|
  manifest_from_str s :=
    if String.eqb s "tool 1" || String.eqb s "tool 1, built again" then inr (manifest_of "acme" "tool" "1" [KTool; KProvider; KTool] [])
    else if String.eqb s "tool 2" then inr (manifest_of "acme" "tool" "2" [KTool] [])
    else if String.eqb s "wide 1" then inr (manifest_of "acme" "wide" "1" [] ["net:egress:*"])
    else if String.eqb s "b/c of a" then inr (manifest_of "a" "b/c" "1" [] [])
    else if String.eqb s "c of a/b" then inr (manifest_of "a/b" "c" "2" [] [])
    else inl "unknown" |}.

(** Records of the feed: one range of two intervals. *)
Definition introduced (v : string) : RawEvent := {| ev_introduced := Some v; ev_fixed := None; ev_last_affected := None |}.
Definition fixed (v : string) : RawEvent := {| ev_introduced := None; ev_fixed := Some v; ev_last_affected := None |}.
Definition two_intervals : RawRange := {|
  rr_kind := "SEMVER"; rr_events := [introduced "1"; fixed "3"; introduced "5"; fixed "7"] |}.
#[global] Instance osv : OsvJson := {|
  osv_array _ := inr [{| re_id := "OSV-1"; re_summary := "unsafe"; re_aliases := [];
                         re_affected := [{| ra_package := Some "serde"; ra_versions := []; ra_ranges := [two_intervals] |}] |}];
  osv_wrapped _ := inl "no object" |}.

Definition everyone : TrustStore := trust "a/b" "key" (trust "a" "key" (trust "acme" "key" TrustStore_new)).
Definition curation (p : RegistryPolicy) : Curation (V := Z) := {|
  cu_trust := everyone; cu_keyless := None; cu_policy := p; cu_feed := VulnFeed_default |}.
Definition lenient : Curation := curation RegistryPolicy_default.
Definition verified_only : Curation := curation {|
  allow_publishers := None; max_permission_risk := RiskHigh; blocklist := []; require_verified := true;
  deny_components := []; block_scan_severity := None |}.
Definition gated : Curation := curation {|
  allow_publishers := None; max_permission_risk := RiskHigh; blocklist := []; require_verified := false;
  deny_components := ["left-pad"]; block_scan_severity := Some SevWarning |}.
Definition by_anyone (ops : list registry_op) : list (Curation * registry_op) := map (pair lenient) ops.
Definition state_after (ops : list registry_op) : RegistryState := registry_run (by_anyone ops) RegistryState_default.

Definition releases : list registry_op := [Publish "tool 1" ["dev"] None; Publish "tool 2" ["cli"] (Some "beta"); Publish "wide 1" [] None].
Definition takedown : list registry_op := releases ++ [ReportAbuse "acme/tool" "eve" "malware"; ResolveReport "acme/tool" 0 "mod" true].

Lemma listings_stay_consistent_witness : catalog_ok (registry_run (by_anyone takedown) RegistryState_default).
Proof. apply (listings_stay_consistent (by_anyone takedown)). Defined.

Lemma served_packages_were_admitted_witness :
  download "acme/tool" None (curated lenient (state_after releases)) = Ok "tool 1" ∧
  (∃ c' categories channel p m, (c', Publish "tool 1" categories channel) ∈ by_anyone releases ∧ admitted c' "tool 1" p m
     ∧ qualified_id m = "acme/tool" ∧ (∀ v, None = Some v → md_version (metadata m) = v)) ∧
  (∃ rec, listings (state_after releases) !! "acme/tool" = Some rec
     ∧ served_listing (cu_policy lenient) "acme/tool" rec).
Proof.
  assert (download "acme/tool" None (curated lenient (state_after releases)) = Ok "tool 1") as Hd by (vm_compute; reflexivity).
  split; [exact Hd|]. exact (served_packages_were_admitted (by_anyone releases) lenient "acme/tool" None "tool 1" Hd).
Defined.

Definition dev_tools : SearchQuery := {| q_text := "TOOL"; q_category := Some "dev"; q_capability := Some KTool |}.
Lemma search_shows_what_can_be_fetched_witness :
  map li_id (match search dev_tools (curated lenient (state_after releases)) with Ok l => l | Err _ => [] end) = ["acme/tool"] ∧
  ∃ recs, search dev_tools (curated lenient (state_after releases)) = Ok (map to_listing recs) ∧ NoDup (map lr_id recs).
Proof.
  split; [vm_compute; reflexivity|].
  destruct (search_shows_what_can_be_fetched (by_anyone releases) lenient dev_tools) as (recs & Hs & _ & Hn & _).
  exists recs. by split.
Defined.

Lemma moderation_is_final_witness :
  ∃ rec, listings (state_after takedown) !! "acme/tool" = Some rec ∧ lr_delisted rec = true ∧
  ∀ after wanted bytes, download "acme/tool" wanted (curated lenient (registry_run after (state_after takedown))) ≠ Ok bytes.
Proof.
  destruct (listings (state_after takedown) !! "acme/tool") as [rec|] eqn:E; [|vm_compute in E; discriminate].
  exists rec. split; [reflexivity|].
  assert (lr_delisted <$> listings (state_after takedown) !! "acme/tool" = Some true) as Hd by (vm_compute; reflexivity).
  rewrite E in Hd. injection Hd as Hd. split; [exact Hd|].
  intros after. destruct (moderation_is_final (by_anyone takedown) after lenient "acme/tool" rec E) as [_ Hfinal].
  apply (Hfinal Hd).
Defined.

Lemma gated_packages_are_intact_witness :
  ∃ p m, admitted gated "tool 1" p m ∧
    ∀ b comp, sbom m = Some b → comp ∈ components b → sc_component comp ∉ ["left-pad"].
Proof.
  destruct (publish "tool 1" [] None (curated gated RegistryState_default)) as [r [o|st]] eqn:E;
    [|apply (f_equal (λ x, match x.2 with Ret _ => true | Stop _ => false end)) in E; vm_compute in E; discriminate].
  apply publish_ok in E as (p & m & s' & Hp & _). exists p, m. split; [exact Hp|].
  destruct (gated_packages_are_intact gated "tool 1" p m SevWarning Hp eq_refl) as (_ & Hsbom & _).
  intros b comp Hb Hc. apply (Hsbom b comp Hb Hc).
Defined.

Lemma feed_index_is_a_scan_witness :
  ∃ feed entries, from_osv_json "[…]" = Ok feed ∧
    advisories_for "serde" "6" feed =
    List.filter (λ adv, existsb (affects "serde" "6" (parse_lenient "6")) (adv_affected adv)) (map advisory_of entries)
    ∧ length (advisories_for "serde" "6" feed) = 1%nat.
Proof.
  destruct (from_osv_json "[…]") as [feed|e] eqn:E; [|vm_compute in E; discriminate].
  destruct (feed_index_is_a_scan "[…]" feed "serde" "6" E) as (entries & _ & _ & Hf). exists feed, entries.
  split; [reflexivity|]. split; [exact Hf|]. vm_compute in E. injection E as <-. vm_compute. reflexivity.
Defined.

(** The catalog as a text: its listings, field by field, as a tree of strings. *)
Class Tree (A : Type) := {
  to_tree : A → gen_tree string;
  of_tree : gen_tree string → option A;
  of_to_tree a : of_tree (to_tree a) = Some a }.
#[global] Instance string_tree : Tree string.
Proof.
  refine {|
  to_tree := GenLeaf; of_tree t := match t with GenLeaf s => Some s | _ => None end |}.
  done.
Defined.
Definition tree_of_countable `{Countable A} : Tree A.
Proof.
  refine {| to_tree a := GenLeaf (countable_text a); of_tree t := match t with GenLeaf s => read_countable s | _ => None end |}.
  intros a. apply read_countable_text.
Defined.
#[global] Instance Z_tree : Tree Z := tree_of_countable.
#[global] Instance bool_tree : Tree bool := tree_of_countable.
#[global] Instance prod_tree `{Tree A, Tree B} : Tree (A * B).
Proof.
  refine {|
  to_tree x := GenNode 0 [to_tree x.1; to_tree x.2];
  of_tree t := match t with GenNode _ [x; y] => a ← of_tree x; b ← of_tree y; Some (a, b) | _ => None end |}.
  intros [a b]. cbn. by rewrite !of_to_tree.
Defined.
#[global] Instance sum_tree `{Tree A, Tree B} : Tree (A + B).
Proof.
  refine {|
  to_tree x := match x with inl a => GenNode 0 [to_tree a] | inr b => GenNode 1 [to_tree b] end;
  of_tree t := match t with
               | GenNode 0 [x] => inl <$> of_tree x
               | GenNode _ [x] => inr <$> of_tree x
               | _ => None
               end |}.
  intros [a|b]; cbn; by rewrite of_to_tree.
Defined.
#[global] Instance option_tree `{Tree A} : Tree (option A).
Proof.
  refine {|
  to_tree x := GenNode 0 (match x with Some a => [to_tree a] | None => [] end);
  of_tree t := match t with GenNode _ [] => Some None | GenNode _ [x] => Some <$> of_tree x | _ => None end |}.
  intros [a|]; cbn; by rewrite ?of_to_tree.
Defined.
#[global] Instance list_tree `{Tree A} : Tree (list A).
Proof.
  refine {|
  to_tree l := GenNode 0 (to_tree <$> l); of_tree t := match t with GenNode _ l => mapM of_tree l | _ => None end |}.
  intros l. cbn. apply mapM_Some, Forall2_fmap_l, Forall_Forall2_diag, Forall_true, of_to_tree.
Defined.
#[global] Instance map_tree `{Tree A} : Tree (gmap string A).
Proof.
  refine {|
  to_tree m := to_tree (map_to_list m : list (string * A)); of_tree t := list_to_map <$> (of_tree t : option (list (string * A))) |}.
  intros m. rewrite of_to_tree. cbn. by rewrite list_to_map_to_list.
Defined.
Definition tree_text `{Tree A} (a : A) : string := countable_text (to_tree a).
Definition read_tree `{Tree A} (s : string) : option A := read_countable s ≫= of_tree.
Lemma read_tree_text `{Tree A} (a : A) : read_tree (tree_text a) = Some a.
Proof. unfold read_tree, tree_text. rewrite read_countable_text. apply of_to_tree. Qed.

#[global] Instance kind_countable : Countable CapabilityKind.
Proof.
  refine (inj_countable' (λ k, match k with KTool => 0%nat | KProvider => 1%nat | KMemoryBackend => 2%nat | KPolicy => 3%nat
                                          | KWorkflowActivity => 4%nat end)
    (λ n, match n with 0%nat => KTool | 1%nat => KProvider | 2%nat => KMemoryBackend | 3%nat => KPolicy
                     | _ => KWorkflowActivity end) _). by intros [].
Defined.
#[global] Instance kind_tree : Tree CapabilityKind := tree_of_countable.
Definition finding_parts (f : Finding) : string * Z * string := (fd_code f, severity_rank (fd_severity f), fd_message f).
Definition finding_of (x : string * Z * string) : Finding :=
  {| fd_code := x.1.1; fd_severity := if Z.eqb x.1.2 0 then SevInfo else if Z.eqb x.1.2 1 then SevWarning else SevCritical;
     fd_message := x.2 |}.
Definition version_parts (v : PublishedVersion) :=
  (pv_version v, pv_description v, pv_license v, pv_permissions v, pv_capabilities v, risk_rank (pv_risk v),
   finding_parts <$> findings (pv_scan v), pv_package_digest v, pv_package v).
Definition version_of_parts x : PublishedVersion :=
  let '(ver, description, license, perms, kinds, risk, fs, digest, package) := x in
  {| pv_version := ver; pv_description := description; pv_license := license; pv_permissions := perms;
     pv_capabilities := kinds; pv_risk := if Z.eqb risk 0 then RiskLow else if Z.eqb risk 1 then RiskMedium else RiskHigh;
     pv_scan := {| findings := finding_of <$> fs |}; pv_package_digest := digest; pv_package := package |}.
Definition review_parts (s : ReviewStatus) : list string :=
  match s with Unreviewed => [] | Pending v => [v] | Approved r v => [r; v] | Rejected r v t => [r; v; t] end.
Definition review_of (l : list string) : ReviewStatus :=
  match l with [] => Unreviewed | [v] => Pending v | [r; v] => Approved r v | r :: v :: t :: _ => Rejected r v t end.
Definition report_parts (r : AbuseReport) : Z * string * string * option (string * (bool + string)) :=
  (ar_id r, ar_reporter r, ar_reason r,
   match ar_status r with ReportOpen => None | ReportResolved m d => Some (m, inl d) | ReportDismissed m t => Some (m, inr t) end).
Definition report_of (x : Z * string * string * option (string * (bool + string))) : AbuseReport :=
  {| ar_id := x.1.1.1; ar_reporter := x.1.1.2; ar_reason := x.1.2;
     ar_status := match x.2 with None => ReportOpen | Some (m, inl d) => ReportResolved m d | Some (m, inr t) => ReportDismissed m t end |}.
Definition listing_parts (r : ListingRecord) :=
  (lr_id r, lr_publisher r, lr_name r, lr_categories r, version_parts <$> lr_versions r, lr_channels r,
   (λ rv, (rv_author rv, rv_rating rv, rv_body rv)) <$> lr_reviews r, lr_installs r, lr_verified r,
   review_parts (lr_review r), report_parts <$> lr_abuse_reports r, lr_delisted r).
Definition listing_of x : ListingRecord :=
  let '(id, publisher, name, categories, versions, channels, reviews, installs, verified, rv, reports, delisted) := x in
  {| lr_id := id; lr_publisher := publisher; lr_name := name; lr_categories := categories;
     lr_versions := version_of_parts <$> versions; lr_channels := channels;
     lr_reviews := (λ x, {| rv_author := x.1.1; rv_rating := x.1.2; rv_body := x.2 |}) <$> reviews; lr_installs := installs;
     lr_verified := verified; lr_review := review_of rv; lr_abuse_reports := report_of <$> reports; lr_delisted := delisted |}.

Lemma fmap_cancel {A B} (f : A → B) (g : B → A) (l : list A) : (∀ a, g (f a) = a) → g <$> (f <$> l) = l.
Proof. intros Hgf. induction l as [|a l IH]; [done|]. cbn. by rewrite Hgf, IH. Qed.
Lemma version_of_version_parts v : version_of_parts (version_parts v) = v.
Proof.
  destruct v as [? ? ? ? ? risk [fs] ? ?]. cbn. rewrite fmap_cancel; [by destruct risk|]. by intros [? [] ?].
Qed.
Lemma listing_of_parts r : listing_of (listing_parts r) = r.
Proof.
  destruct r as [? ? ? ? vs ? rvs ? ? rv reps ?]. cbn. rewrite !fmap_cancel; [by destruct rv|..].
  - by intros [? ? ? []].
  - by intros [].
  - apply version_of_version_parts.
Qed.
#[global] Instance registry_serde : RegistrySerde := {|
  registry_to_bytes s := inr (tree_text (listing_parts <$> listings s));
  registry_of_bytes b := match read_tree b with
                         | Some m => inr {| listings := listing_of <$> m |}
                         | None => inl "no catalog"
                         end |}.
Lemma registry_reads_back st : ∃ bytes, registry_to_bytes st = inr bytes ∧ registry_of_bytes bytes = inr st.
Proof.
  eexists. split; [done|]. cbn. rewrite read_tree_text, <-map_fmap_compose. destruct st as [m]. cbn. do 2 f_equal.
  apply map_eq. intros id. rewrite lookup_fmap. destruct (m !! id) as [r|]; cbn; [|done]. f_equal. apply listing_of_parts.
Qed.

Lemma registry_file_refines_memory_witness :
  download "acme/tool" None (curated lenient (registry_run (by_anyone releases) {| registry_json := None |})) = Ok "tool 1".
Proof.
  destruct (registry_file_refines_memory registry_reads_back (by_anyone releases) lenient) as (_ & _ & _ & Hd & _).
  rewrite Hd. vm_compute. reflexivity.
Defined.

(** ** What the code does beyond its documentation *)

(** Slashes in names: another publisher's versions go into the listing of the
    first, and its users are served them. *)
Lemma publishers_share_listings :
  (lr_publisher <$> listings (state_after [Publish "b/c of a" [] None; Publish "c of a/b" [] None]) !! "a/b/c" = Some "a") ∧
  download "a/b/c" None (curated lenient (state_after [Publish "b/c of a" [] None; Publish "c of a/b" [] None])) = Ok "c of a/b".
Proof. split; vm_compute; reflexivity. Qed.

Definition approved : list registry_op := [Publish "tool 1" [] None; RequestReview "acme/tool"; ApproveReview "acme/tool" "rev"].
(** The badge of a review of version 1 serves the unreviewed version 2, and other
    content under the version that was reviewed. *)
Lemma unreviewed_content_is_verified :
  download "acme/tool" None (curated verified_only (state_after (approved ++ [Publish "tool 2" [] None]))) = Ok "tool 2" ∧
  download "acme/tool" (Some "1") (curated verified_only (state_after (approved ++ [Publish "tool 1, built again" [] None])))
    = Ok "tool 1, built again".
Proof. split; vm_compute; reflexivity. Qed.

(** The stable channel is the version published last, not the newest. *)
Lemma stable_goes_back :
  download "acme/tool" None (curated lenient (state_after [Publish "tool 2" [] None; Publish "tool 1" [] None])) = Ok "tool 1".
Proof. vm_compute. reflexivity. Qed.

(** A search does not look at the kinds of capabilities. *)
Lemma kinds_are_not_searched :
  search {| q_text := "provider"; q_category := None; q_capability := None |} (curated lenient (state_after releases)) = Ok [] ∧
  map li_id (match search {| q_text := ""; q_category := None; q_capability := Some KTool |} (curated lenient (state_after releases))
             with Ok l => l | Err _ => [] end) = ["acme/tool"].
Proof. split; vm_compute; reflexivity. Qed.

(** The kinds of a listing repeat where equal ones are not neighbours. *)
Lemma kinds_are_listed_twice :
  li_capabilities <$> (match get "acme/tool" (curated lenient (state_after [Publish "tool 1" [] None])) with
                       | Ok o => o | Err _ => None end) = Some [KTool; KProvider; KTool].
Proof. vm_compute. reflexivity. Qed.

(** Of the intervals of a range only the last counts: a version of the first one
    has no advisory. *)
Lemma earlier_intervals_are_forgotten :
  parse_range two_intervals = {| sr_introduced := Some 5; sr_fixed := Some 7; sr_last_affected := None |} ∧
  match from_osv_json "[…]" with Ok feed => advisories_for "serde" "1" feed = [] | Err _ => False end.
Proof. split; vm_compute; reflexivity. Qed.
End MarketToy.
