(* ===== verification/MarketRoutes.v ===== *)
(** * The plugin and marketplace routes

    [crates/wovyr-server/src/plugins.rs] and [marketplace.rs]: the lifecycle of
    the node's plugins and the hosted registry, over files that are read anew by
    every request.  The texts of the files, base64 and hexadecimal digits are
    the libraries'; the calls of the operating system that write, and the locks,
    succeed. *)
From stdpp Require Import base tactics list numbers strings gmap sorting.
From Stdlib Require Import Lia ZArith Ascii SpecFloat.
From S2P Require Import Prelude.
From S2P Require Import RustStr.
From S2P Require Import F64.
From S2P Require Import Common.
From S2P Require Import JsonValue.
From S2P Require Import Effect.
From S2P Require Import AuditLog.
From S2P Require Import AuditInv.
From S2P Require Import Events.
From S2P Require Import EventsInv.
From S2P Require Import Tenancy.
From S2P Require Import Http.
From S2P Require Import TenantRoutes.
From S2P Require Import TenantRoutesInv.
From S2P Require Import Manifest.
From S2P Require Import ToolRegistry.
From S2P Require Import Keyless.
From S2P Require Import Resolve.
From S2P Require Import PluginEngine.
From S2P Require Import PluginInv.
From S2P Require Import Market.
From S2P Require Import MarketInv.
Local Open Scope Z_scope.

(** ** The files of a node *)

(** What is under a path: nothing, an error of reading it, or its bytes. *)
Abbreviation OsFile := (option (string + string)) (only parsing).
Record NodeFiles := {
  trust_json : OsFile; keyless_json : OsFile; catalog_json : OsFile; policy_json : OsFile; osv_json : OsFile;
  registry_file : FileRegistryStore; staged : gmap string string }.

(** [serde_json] at the types of the files. *)
Class NodeSerde := {
  trust_of_bytes : string → string + TrustStore;
  trust_to_bytes : TrustStore → string + string;
  keyless_of_bytes : string → string + (KeylessRoot * IdentityPolicy);
  catalog_of_bytes : string → string + list InstalledPlugin;
  catalog_to_bytes : list InstalledPlugin → string + string;
  policy_of_bytes : string → string + RegistryPolicy }.

(** The base64 and hex crates. *)
Class Encodings := {
  base64_bytes : string → option string;
  base64_text : string → string;
  hex_bytes : string → option string }.

Definition internal_error (msg : string) : ApiError := ApiError_new 500 "internal_error" msg.

(** A file of JSON: its value, or the one for a file that is not there. *)
Definition read_file {A} (of_bytes : string → string + A) (absent : A) (corrupt : string) (f : OsFile) : ApiError + A :=
  match f with
  | Some (inr bytes) =>
    match of_bytes bytes with
    | inr a => inr a
    | inl e => inl (internal_error (corrupt +:+ (": " +:+ e)))
    end
  | None => inr absent
  | Some (inl e) => inl (internal_error e)
  end.

(** ** The JSON of the resources *)

Definition kind_str (k : CapabilityKind) : string :=
  match k with
  | KTool => "tool" | KProvider => "provider" | KMemoryBackend => "memory_backend" | KPolicy => "policy"
  | KWorkflowActivity => "workflow_activity"
  end.
Definition parse_capability (s : string) : option CapabilityKind :=
  if String.eqb s "tool" then Some KTool
  else if String.eqb s "provider" then Some KProvider
  else if String.eqb s "memory_backend" then Some KMemoryBackend
  else if String.eqb s "policy" then Some KPolicy
  else if String.eqb s "workflow_activity" then Some KWorkflowActivity
  else None.
Definition strings_json (l : list string) : Value := Array (map Str l).

Definition plugin_json (p : InstalledPlugin) : Value :=
  let m := manifest p in
  Object [("id", Str (qualified_id m)); ("name", Str (md_name (metadata m))); ("version", Str (md_version (metadata m)));
          ("publisher", Str (md_publisher (metadata m))); ("description", Str (md_description (metadata m)));
          ("state", Str match state p with Disabled => "disabled" | Enabled => "enabled" end);
          ("permissions", strings_json (permissions m)); ("granted", strings_json (granted_permissions p));
          ("capabilities", Array (map (λ c, Object [("kind", Str (kind_str (cap_kind c))); ("id", Str (cap_id c))]) (capabilities m)));
          ("platform_api", Str (platform_api_range (compatibility m)))].

Definition severity_json (s : Severity) : Value :=
  Str match s with SevInfo => "info" | SevWarning => "warning" | SevCritical => "critical" end.
Definition scan_json (r : ScanReport) : Value :=
  Object [("findings", Array (map (λ f, Object [("code", Str (fd_code f)); ("severity", severity_json (fd_severity f));
                                                ("message", Str (fd_message f))]) (findings r)))].
Definition risk_json (r : PermissionRisk) : Value :=
  Str match r with RiskLow => "low" | RiskMedium => "medium" | RiskHigh => "high" end.
Definition review_json (s : ReviewStatus) : Value :=
  match s with
  | Unreviewed => Object [("state", Str "unreviewed")]
  | Pending v => Object [("state", Str "pending"); ("version", Str v)]
  | Approved r v => Object [("state", Str "approved"); ("reviewer", Str r); ("version", Str v)]
  | Rejected r v why => Object [("state", Str "rejected"); ("reviewer", Str r); ("version", Str v); ("reason", Str why)]
  end.
Definition listing_json (l : Listing) : Value :=
  Object [("id", Str (li_id l)); ("publisher", Str (li_publisher l)); ("name", Str (li_name l));
          ("description", Str (li_description l)); ("categories", strings_json (li_categories l));
          ("capabilities", Array (map (λ k, Str (kind_str k)) (li_capabilities l)));
          ("permissions", strings_json (li_permissions l)); ("risk", risk_json (li_risk l));
          ("scan_severity", match li_scan_severity l with Some s => severity_json s | None => Null end);
          ("scan_findings", json_u64 (li_scan_findings l)); ("versions", strings_json (li_versions l));
          ("channels", Object (map (λ kv, (kv.1, Str kv.2)) (btree_iter (li_channels l))));
          ("rating", match x ← li_rating l; number_from_f64 x with Some n => Num n | None => Null end);
          ("reviews", json_u64 (li_reviews l)); ("installs", json_u64 (li_installs l));
          ("verified", Bool (li_verified l)); ("review", review_json (li_review l))].
Definition report_json (r : AbuseReport) : Value :=
  Object [("id", json_u64 (ar_id r)); ("reporter", Str (ar_reporter r)); ("reason", Str (ar_reason r));
          ("status", match ar_status r with
                     | ReportOpen => Object [("state", Str "open")]
                     | ReportResolved m d => Object [("state", Str "resolved"); ("moderator", Str m); ("delisted", Bool d)]
                     | ReportDismissed m why => Object [("state", Str "dismissed"); ("moderator", Str m); ("reason", Str why)]
                     end)].
Definition component_json (c : SbomComponent) : Value :=
  Object ([("name", Str (sc_component c)); ("version", Str (sc_version c))]
          ++ if is_empty (sc_license c) then [] else [("license", Str (sc_license c))]).
Definition sbom_json (b : option Sbom) : Value :=
  match b with Some b => Object [("components", Array (map component_json (components b)))] | None => Null end.
Definition provenance_json (p : option Provenance) : Value :=
  match p with
  | Some p => Object [("builder", Str (builder p)); ("source", Str (source p)); ("built_at", Str (built_at p))]
  | None => Null
  end.

(** ** The state of the routes *)

Record MarketState (T K W : Type) := { ms_app : AppState T K W; ms_files : NodeFiles }.
Arguments ms_app {T K W} _.
Arguments ms_files {T K W} _.
Arguments Build_MarketState {T K W} _ _.

Definition set_trust_json (t : OsFile) (f : NodeFiles) : NodeFiles := {|
  trust_json := t; keyless_json := keyless_json f; catalog_json := catalog_json f; policy_json := policy_json f;
  osv_json := osv_json f; registry_file := registry_file f; staged := staged f |}.
Definition set_catalog_json (c : OsFile) (f : NodeFiles) : NodeFiles := {|
  trust_json := trust_json f; keyless_json := keyless_json f; catalog_json := c; policy_json := policy_json f;
  osv_json := osv_json f; registry_file := registry_file f; staged := staged f |}.
Definition set_registry_file (r : FileRegistryStore) (f : NodeFiles) : NodeFiles := {|
  trust_json := trust_json f; keyless_json := keyless_json f; catalog_json := catalog_json f; policy_json := policy_json f;
  osv_json := osv_json f; registry_file := r; staged := staged f |}.
Definition set_staged (d : gmap string string) (f : NodeFiles) : NodeFiles := {|
  trust_json := trust_json f; keyless_json := keyless_json f; catalog_json := catalog_json f; policy_json := policy_json f;
  osv_json := osv_json f; registry_file := registry_file f; staged := d |}.

Section routes.
Context {T K W V R B X : Type} `{TenancyStore T, AuditSink K, AuditCrypto, AuditSerde, WebhookStore W,
  OutboxSerde, WebhookCrypto, HttpJson}.
Context `{SV : !Semver V R} `{MY : ManifestYaml} `{CR : PluginCrypto} `{PS : PackageSerde} `{UN : Unicode}
  `{RSE : RegistrySerde} `{NS : NodeSerde} `{OJ : OsvJson} `{EN : Encodings} `{TB : !Tool B X}.
Context (platform_admins : option string) (log : AuditLog).
(** [Version::new(1, 0, 0)], where the files of plugins and of the marketplace
    are, the message of a task that panicked. *)
Context (platform : V) (plugins_dir staging : option string) (marketplace_dir : bool) (join_error : string).
(** The clock of the request. *)
Context (now : Z).

Abbreviation ST := (MarketState T K W) (only parsing).
Local Abbreviation PE := (PluginEngine V NotLoadedRuntime).
Local Abbreviation PW := (PluginWorld V NotLoadedRuntime B).
Local Abbreviation RG := (Registry V FileRegistryStore).

Definition on_app {A} (m : H (AppState T K W) A) : H ST A := λ s,
  let '(app, r) := m (ms_app s) in ({| ms_app := app; ms_files := ms_files s |}, r).
Definition change_files (f : NodeFiles → NodeFiles) : H ST () :=
  changing (λ s, {| ms_app := ms_app s; ms_files := f (ms_files s) |}).
(** [?] on a result whose error is an answer already. *)
Definition answered {A} (r : ApiError + A) : H ST A :=
  match r with inl e => refuse e | inr a => mret a end.
Definition ask_files {A} (f : NodeFiles → ApiError + A) : H ST A := λ s, answered (f (ms_files s)) s.
Definition permitted_tenant (headers : HeaderMap) (scope : string) : H ST string := λ s,
  try (tenant_authorize platform_admins (tenancy (ms_app s)) headers scope) s.

(** ** [plugins.rs]: the files *)

Definition in_plugins_dir (file : string) : string := default file ((λ d, path_join d file) <$> plugins_dir).
Definition load_catalog (f : NodeFiles) : ApiError + list InstalledPlugin :=
  match plugins_dir with
  | Some _ => read_file catalog_of_bytes [] ("corrupt " +:+ in_plugins_dir "catalog.json") (catalog_json f)
  | None => inr []
  end.
Definition load_keyless (f : NodeFiles) : ApiError + option (KeylessRoot * IdentityPolicy) :=
  match plugins_dir with
  | Some _ => read_file (λ b, match keyless_of_bytes b with inr k => inr (Some k) | inl e => inl e end) None
                "corrupt keyless trust config" (keyless_json f)
  | None => inr None
  end.
Definition load_trust (f : NodeFiles) : ApiError + TrustStore :=
  match plugins_dir with
  | Some _ => read_file trust_of_bytes TrustStore_new "corrupt trust store" (trust_json f)
  | None => inr TrustStore_new
  end.

(** What is written of a value, in the home directory. *)
Definition to_save (what : string) (bytes : string + string) : ApiError + string :=
  match plugins_dir with
  | None => inl (internal_error ("no home directory for " +:+ what))
  | Some _ => match bytes with inr b => inr b | inl e => inl (internal_error e) end
  end.
Definition save_catalog (catalog : list InstalledPlugin) : H ST () :=
  bytes ← answered (to_save "plugin catalog" (catalog_to_bytes catalog));
  change_files (set_catalog_json (Some (inr bytes))).
Definition save_trust (t : TrustStore) : H ST () :=
  bytes ← answered (to_save "trust store" (trust_to_bytes t));
  change_files (set_trust_json (Some (inr bytes))).
(** The lock itself is had. *)
Definition acquire_lock : H ST () :=
  match plugins_dir with
  | Some _ => mret ()
  | None => refuse (internal_error "no home directory for plugin store")
  end.

Definition engine_with (t : TrustStore) (k : option (KeylessRoot * IdentityPolicy)) (catalog : list InstalledPlugin) : PE :=
  with_catalog catalog {|
    engine_trust := t; engine_keyless := k; platform_api := platform; runtime := NotLoaded; staging_dir := staging;
    provenance_policy := ProvenancePolicy_default; plugins := ∅; events := [] |}.
Definition engine_of (f : NodeFiles) : ApiError + PE :=
  match load_trust f with
  | inl e => inl e
  | inr t =>
    match load_catalog f with
    | inl e => inl e
    | inr c =>
      match load_keyless f with
      | inl e => inl e
      | inr k => inr (engine_with t k c)
      end
    end
  end.

(** A call of the engine of the request, over a scratch tool registry. *)
Definition on_engine {A} (e : PE) (m : M PW A) : H ST (A * PE) := λ s,
  let '(w, r) := m {| engine := e; tools := ∅; disk := staged (ms_files s) |} in
  outcome_of (a ← r; Ret (a, engine w))
    {| ms_app := ms_app s; ms_files := set_staged (disk w) (ms_files s) |}.
(** Under the lock: load, call, save. *)
Definition with_engine {A} (m : M PW A) : H ST A :=
  _ ← acquire_lock;
  e ← ask_files engine_of;
  '(a, e) ← on_engine e m;
  _ ← save_catalog (catalog e);
  mret a.

(** ** [plugins.rs]: the handlers *)

Definition json_ok (fields : list (string * Value)) : H ST Response := mret (json_response 200 (Object fields)).
Definition audited (headers : HeaderMap) (tenant action resource_type resource_id : string) : H ST () :=
  on_app (audit log now headers tenant action resource_type resource_id).
Definition emitted (ty tenant : string) (payload : Value) : H ST () := on_app (emit_event now ty tenant payload).

Definition list_plugins (q : PageQuery) : H ST Response :=
  c ← ask_files load_catalog;
  on_app (paged q (map plugin_json c)).

Definition enable_plugin (headers : HeaderMap) (id : string) : H ST Response :=
  tenant ← permitted_tenant headers "plugins:admin";
  _ ← with_engine (enable id);
  _ ← audited headers tenant "plugin.enable" "plugin" id;
  json_ok [("id", Str id); ("state", Str "enabled")].
Definition disable_plugin (headers : HeaderMap) (id : string) : H ST Response :=
  tenant ← permitted_tenant headers "plugins:admin";
  _ ← with_engine (disable id);
  _ ← audited headers tenant "plugin.disable" "plugin" id;
  json_ok [("id", Str id); ("state", Str "disabled")].

Definition base64_decode (s : string) : ApiError + string :=
  match base64_bytes (trim s) with
  | Some b => inr b
  | None => inl (ApiError_new 400 "invalid_request" "wovyrpkg must be valid base64-encoded bytes")
  end.
Definition install_package (package : Package) (grants : list string) : H ST Value :=
  installed ← with_engine (install package grants);
  mret (plugin_json installed).

(** [installed["id"].as_str().unwrap_or_default()] *)
Definition id_in (v : Value) : string := default "" (i ← value_get "id" v; as_str i).
Definition install_plugin (headers : HeaderMap) (wovyrpkg : string) (grants : list string) : H ST Response :=
  tenant ← permitted_tenant headers "plugins:admin";
  bytes ← answered (base64_decode wovyrpkg);
  package ← outcome_of (from_wovyrpkg bytes);
  installed ← install_package package grants;
  _ ← audited headers tenant "plugin.install" "plugin" (id_in installed);
  mret (json_response 200 installed).
Definition upgrade_plugin (headers : HeaderMap) (wovyrpkg : string) (grants : list string) : H ST Response :=
  tenant ← permitted_tenant headers "plugins:admin";
  bytes ← answered (base64_decode wovyrpkg);
  package ← outcome_of (from_wovyrpkg bytes);
  _ ← with_engine (upgrade package grants);
  m ← try (package_manifest package);
  _ ← audited headers tenant "plugin.upgrade" "plugin" (qualified_id m);
  json_ok [("id", Str (qualified_id m)); ("status", Str "upgraded")].
Definition rollback_plugin (headers : HeaderMap) (id : string) : H ST Response :=
  tenant ← permitted_tenant headers "plugins:admin";
  _ ← with_engine (rollback id);
  _ ← audited headers tenant "plugin.rollback" "plugin" id;
  json_ok [("id", Str id); ("status", Str "rolled_back")].
Definition uninstall_plugin (headers : HeaderMap) (id : string) : H ST Response :=
  tenant ← permitted_tenant headers "plugins:admin";
  _ ← with_engine (uninstall id);
  _ ← audited headers tenant "plugin.uninstall" "plugin" id;
  json_ok [("id", Str id); ("status", Str "uninstalled")].
Definition trust_publisher (headers : HeaderMap) (publisher public_key_hex : string) : H ST Response :=
  tenant ← permitted_tenant headers "plugins:admin";
  key ← match hex_bytes public_key_hex with
        | Some k => mret k
        | None => refuse (ApiError_new 400 "invalid_request"
                            "public_key_hex must be valid hex (64 chars for a 32-byte ed25519 key)")
        end;
  _ ← acquire_lock;
  t ← ask_files load_trust;
  _ ← save_trust (trust publisher key t);
  _ ← audited headers tenant "plugin.trust" "publisher" publisher;
  json_ok [("publisher", Str publisher); ("status", Str "trusted")].

(** The tools of the enabled plugins, for a run of an agent. *)
Definition register_enabled_tools (f : NodeFiles) (r : registry (B + PluginTool NotLoadedRuntime))
    : registry (B + PluginTool NotLoadedRuntime) :=
  let t := match load_trust f with inr t => t | inl _ => TrustStore_new end in
  let c := match load_catalog f with inr c => c | inl _ => [] end in
  tools (register_enabled {| engine := engine_with t None c; tools := r; disk := staged f |}).

(** ** [marketplace.rs]: the registry of a request *)

Definition no_market_home : ApiError := internal_error "no home directory for the marketplace registry".
Definition load_policy (f : NodeFiles) : ApiError + RegistryPolicy :=
  if marketplace_dir then
    read_file policy_of_bytes RegistryPolicy_default "corrupt marketplace policy" (policy_json f)
  else inl no_market_home.
Definition load_vuln_feed (f : NodeFiles) : ApiError + VulnFeed V :=
  if marketplace_dir then
    read_file (λ b, match from_osv_json b with Ok feed => inr feed | Err e => inl (error_display e) end) VulnFeed_default
      "corrupt marketplace OSV feed" (osv_json f)
  else inl no_market_home.

(** What of the registry is not its store. *)
Definition curation_of (f : NodeFiles) : ApiError + Curation (V := V) :=
  match load_trust f with
  | inl e => inl e
  | inr t =>
    if negb marketplace_dir then inl no_market_home else
    match load_policy f with
    | inl e => inl e
    | inr p =>
      match load_vuln_feed f with
      | inl e => inl e
      | inr feed =>
        match load_keyless f with
        | inl e => inl e
        | inr k => inr {| cu_trust := t; cu_keyless := k; cu_policy := p; cu_feed := feed |}
        end
      end
    end
  end.
(** A registry is built for a request, and answers for a panic of its task. *)
Definition with_registry {A} (f : Curation (V := V) → H ST A) : H ST A := λ s,
  match (c ← ask_files curation_of; f c) s with
  | (s, HandlerPanic) => (s, Refuse (internal_error ("registry task panicked: " +:+ join_error)))
  | r => r
  end.
Definition on_registry {A} (c : Curation (V := V)) (m : M RG A) : H ST A := λ s,
  let '(r, a) := m (curated c (registry_file (ms_files s))) in
  outcome_of a {| ms_app := ms_app s; ms_files := set_registry_file (rg_store r) (ms_files s) |}.
Definition ask_registry {A} (c : Curation (V := V)) (f : RG → result A) : H ST A := λ s,
  try (f (curated c (registry_file (ms_files s)))) s.

(** ** [marketplace.rs]: the handlers *)

Definition search_listings (q : string) (category capability : option string) (p : PageQuery) : H ST Response :=
  let query := {| q_text := q; q_category := category; q_capability := k ← capability; parse_capability k |} in
  p ← outcome_of (page p);
  listings ← with_registry (λ c, ask_registry c (search query));
  v ← outcome_of (paginate (map listing_json listings) p);
  mret (json_response 200 v).

Definition listing_not_found (id : string) : ApiError := ApiError_new 404 "not_found" ("listing " +:+ (ticked id +:+ " not found")).
Definition fetched (c : Curation (V := V)) (id : string) : H ST Listing :=
  l ← ask_registry c (get id);
  match l with Some l => mret l | None => refuse (listing_not_found id) end.
Definition get_listing (id : string) : H ST Response :=
  l ← with_registry (λ c, fetched c id);
  mret (json_response 200 (listing_json l)).

Definition require_authenticated_principal (headers : HeaderMap) : H ST string :=
  let p := TenantRoutes.principal headers in
  if is_empty p then
    refuse (ApiError_new 401 "unauthorized" "marketplace:publish requires an authenticated principal")
  else mret p.
Definition public_tenant (headers : HeaderMap) : string := default "public" (header headers "x-wovyr-tenant").

Definition publish_listing (headers : HeaderMap) (wovyrpkg : string) (categories : list string) (channel : option string)
    : H ST Response :=
  _ ← require_authenticated_principal headers;
  bytes ← answered (base64_decode wovyrpkg);
  out ← with_registry (λ c, on_registry c (publish bytes categories channel));
  let tenant := public_tenant headers in
  _ ← audited headers tenant "marketplace.publish" "marketplace_listing" (po_listing_id out);
  _ ← emitted "plugin.published" tenant
        (Object [("listing", Str (po_listing_id out)); ("reference", Str (po_reference out)); ("channel", Str (po_channel out))]);
  json_ok [("listing", Str (po_listing_id out)); ("reference", Str (po_reference out)); ("channel", Str (po_channel out));
           ("status", Str "published"); ("scan", scan_json (po_scan out))].

Definition download_version (headers : HeaderMap) (id : string) (version : option string) : H ST Response :=
  bytes ← with_registry (λ c, ask_registry c (download id version));
  _ ← audited headers (run_tenant headers) "marketplace.download" "marketplace_listing" id;
  json_ok [("id", Str id); ("wovyrpkg", Str (base64_text bytes))].

(** The attestation of a package, from its bytes. *)
Definition attestation_json (id wovyrpkg : string) (t : TrustStore) (verified : bool) (deny : list string)
    (feed : VulnFeed V) : outcome Value :=
  package ← from_wovyrpkg wovyrpkg;
  let signature_verified := is_ok (verify_package t package) in
  m ← of_result (package_manifest package);
  Ret (Object [("id", Str id); ("version", Str (md_version (metadata m))); ("publisher", Str (md_publisher (metadata m)));
               ("verified", Bool verified); ("signature_verified", Bool signature_verified);
               ("risk", risk_json (classify (permissions m))); ("permissions", strings_json (permissions m));
               ("package_digest", Str (package_digest wovyrpkg)); ("sbom", sbom_json (sbom m));
               ("provenance", provenance_json (provenance m)); ("scan", scan_json (scan package m deny feed))]).
Definition version_attestation (id : string) (version : option string) : H ST Response :=
  value ← with_registry (λ c,
    listing ← fetched c id;
    bytes ← ask_registry c (download id version);
    t ← ask_files load_trust;
    outcome_of (attestation_json id bytes t (li_verified listing) (deny_components (cu_policy c)) (cu_feed c)));
  mret (json_response 200 value).

Definition review_listing (id author : string) (stars : Z) (text : string) : H ST Response :=
  _ ← with_registry (λ c, on_registry c (review id {| rv_author := author; rv_rating := stars; rv_body := text |}));
  json_ok [("id", Str id); ("status", Str "reviewed")].

Definition verify_listing (headers : HeaderMap) (id : string) (verified : bool) : H ST Response :=
  tenant ← permitted_tenant headers "marketplace:moderate";
  _ ← with_registry (λ c, on_registry c (registry_set_verified id verified));
  _ ← audited headers tenant "marketplace.listing.verify" "marketplace_listing" id;
  json_ok [("id", Str id); ("verified", Bool verified)].
Definition request_review_handler (id : string) : H ST Response :=
  _ ← with_registry (λ c, on_registry c (registry_request_review id));
  json_ok [("id", Str id); ("status", Str "pending")].

Definition actor_identity (headers : HeaderMap) (body_value : option string) (fallback : string) : string :=
  let p := TenantRoutes.principal headers in
  if negb (is_empty p) then p
  else match body_value with
       | Some r => if is_empty r then fallback else r
       | None => fallback
       end.

Definition approve_handler (headers : HeaderMap) (id : string) (reviewer : option string) : H ST Response :=
  tenant ← permitted_tenant headers "marketplace:moderate";
  let reviewer := actor_identity headers reviewer "operator" in
  _ ← with_registry (λ c, on_registry c (registry_approve_review id reviewer));
  _ ← audited headers tenant "marketplace.review.approve" "marketplace_listing" id;
  json_ok [("id", Str id); ("verified", Bool true); ("reviewer", Str reviewer)].
Definition reject_handler (headers : HeaderMap) (id : string) (reviewer : option string) (reason : string) : H ST Response :=
  tenant ← permitted_tenant headers "marketplace:moderate";
  let reviewer := actor_identity headers reviewer "operator" in
  _ ← with_registry (λ c, on_registry c (registry_reject_review id reviewer reason));
  _ ← audited headers tenant "marketplace.review.reject" "marketplace_listing" id;
  json_ok [("id", Str id); ("verified", Bool false); ("reviewer", Str reviewer); ("reason", Str reason)].

Definition install_listing (headers : HeaderMap) (id : string) (version : option string) (grants : list string)
    : H ST Response :=
  installed ← with_registry (λ c,
    bytes ← ask_registry c (download id version);
    package ← outcome_of (from_wovyrpkg bytes);
    installed ← install_package package grants;
    _ ← on_registry c (registry_record_install id);
    mret installed);
  _ ← audited headers (run_tenant headers) "marketplace.install" "marketplace_listing" id;
  json_ok [("id", Str id); ("status", Str "installed"); ("plugin", installed)].

Definition report_abuse_handler (headers : HeaderMap) (id : string) (reporter : option string) (reason : string)
    : H ST Response :=
  let reporter := actor_identity headers reporter "anonymous" in
  report_id ← with_registry (λ c, on_registry c (registry_report_abuse id reporter reason));
  let tenant := public_tenant headers in
  _ ← audited headers tenant "marketplace.abuse.report" "marketplace_listing" id;
  _ ← emitted "plugin.abuse_reported" tenant
        (Object [("listing", Str id); ("report_id", json_u64 report_id); ("reporter", Str reporter); ("reason", Str reason)]);
  json_ok [("id", Str id); ("report_id", json_u64 report_id); ("reporter", Str reporter); ("status", Str "open")].
Definition list_abuse_reports (id : string) : H ST Response :=
  reports ← with_registry (λ c, ask_registry c (abuse_reports id));
  json_ok [("reports", Array (map report_json reports))].
Definition resolve_handler (headers : HeaderMap) (id : string) (report_id : Z) (moderator : option string) (delist : bool)
    : H ST Response :=
  tenant ← permitted_tenant headers "marketplace:moderate";
  let moderator := actor_identity headers moderator "operator" in
  _ ← with_registry (λ c, on_registry c (registry_resolve_abuse_report id report_id moderator delist));
  _ ← audited headers tenant "marketplace.abuse.resolve" "marketplace_listing" id;
  _ ← (if delist then
         emitted "plugin.delisted" (public_tenant headers)
           (Object [("listing", Str id); ("report_id", json_u64 report_id); ("moderator", Str moderator)])
       else mret ());
  json_ok [("id", Str id); ("report_id", json_u64 report_id); ("moderator", Str moderator); ("delisted", Bool delist)].
Definition dismiss_handler (headers : HeaderMap) (id : string) (report_id : Z) (moderator : option string) (reason : string)
    : H ST Response :=
  tenant ← permitted_tenant headers "marketplace:moderate";
  let moderator := actor_identity headers moderator "operator" in
  _ ← with_registry (λ c, on_registry c (registry_dismiss_abuse_report id report_id moderator reason));
  _ ← audited headers tenant "marketplace.abuse.dismiss" "marketplace_listing" id;
  json_ok [("id", Str id); ("report_id", json_u64 report_id); ("moderator", Str moderator); ("reason", Str reason)].

(** ** The routers: a request's route, with what was extracted of it *)

Inductive market_request :=
  | ListPlugins (q : PageQuery)
  | EnablePlugin (id : string) | DisablePlugin (id : string)
  | InstallPlugin (wovyrpkg : string) (grants : list string) | UpgradePlugin (wovyrpkg : string) (grants : list string)
  | RollbackPlugin (id : string) | UninstallPlugin (id : string) | TrustPublisher (publisher public_key_hex : string)
  | SearchListings (q : string) (category capability : option string) (p : PageQuery)
  | GetListing (id : string)
  | PublishListing (wovyrpkg : string) (categories : list string) (channel : option string)
  | DownloadVersion (id : string) (version : option string) | VersionAttestation (id : string) (version : option string)
  | ReviewListing (id author : string) (stars : Z) (text : string)
  | VerifyListing (id : string) (verified : bool) | RequestReviewOf (id : string)
  | ApproveReviewOf (id : string) (reviewer : option string)
  | RejectReviewOf (id : string) (reviewer : option string) (reason : string)
  | InstallListing (id : string) (version : option string) (grants : list string)
  | ReportAbuseOf (id : string) (reporter : option string) (reason : string) | ListAbuseReports (id : string)
  | ResolveReportOf (id : string) (report_id : Z) (moderator : option string) (delist : bool)
  | DismissReportOf (id : string) (report_id : Z) (moderator : option string) (reason : string).

Definition run_market (r : market_request) (headers : HeaderMap) : H ST Response :=
  match r with
  | ListPlugins q => list_plugins q
  | EnablePlugin id => enable_plugin headers id
  | DisablePlugin id => disable_plugin headers id
  | InstallPlugin pkg grants => install_plugin headers pkg grants
  | UpgradePlugin pkg grants => upgrade_plugin headers pkg grants
  | RollbackPlugin id => rollback_plugin headers id
  | UninstallPlugin id => uninstall_plugin headers id
  | TrustPublisher publisher key => trust_publisher headers publisher key
  | SearchListings q category capability p => search_listings q category capability p
  | GetListing id => get_listing id
  | PublishListing pkg categories channel => publish_listing headers pkg categories channel
  | DownloadVersion id version => download_version headers id version
  | VersionAttestation id version => version_attestation id version
  | ReviewListing id author stars text => review_listing id author stars text
  | VerifyListing id verified => verify_listing headers id verified
  | RequestReviewOf id => request_review_handler id
  | ApproveReviewOf id reviewer => approve_handler headers id reviewer
  | RejectReviewOf id reviewer reason => reject_handler headers id reviewer reason
  | InstallListing id version grants => install_listing headers id version grants
  | ReportAbuseOf id reporter reason => report_abuse_handler headers id reporter reason
  | ListAbuseReports id => list_abuse_reports id
  | ResolveReportOf id report_id moderator delist => resolve_handler headers id report_id moderator delist
  | DismissReportOf id report_id moderator reason => dismiss_handler headers id report_id moderator reason
  end.
End routes.

(** ** Relations that every step of a handler keeps *)

Section keeps.
Context {T K W V R B X : Type} `{TenancyStore T, AuditSink K, AuditCrypto, AuditSerde, WebhookStore W,
  OutboxSerde, WebhookCrypto, HttpJson}.
Context `{SV : !Semver V R} `{MY : ManifestYaml} `{CR : PluginCrypto} `{PS : PackageSerde} `{UN : Unicode}
  `{RSE : RegistrySerde} `{NS : NodeSerde} `{OJ : OsvJson} `{EN : Encodings} `{TB : !Tool B X}.
Abbreviation ST := (MarketState T K W) (only parsing).

Definition keeps (P : relation ST) {A} (m : H ST A) : Prop := ∀ s, P s (m s).1.

Section relation.
Context (P : relation ST) `{!PreOrder P}.
(** The relation is about the files. *)
Context (P_app : ∀ s app, P s {| ms_app := app; ms_files := ms_files s |}).

Lemma keeps_bind {A C} (m : H ST A) (k : A → H ST C) : keeps P m → (∀ a, keeps P (k a)) → keeps P (m ≫= k).
Proof.
  intros Hm Hk s. specialize (Hm s). unfold mbind, H_bind. destruct (m s) as [s' [a|e|]]; [|done..].
  etrans; [exact Hm|apply Hk].
Qed.
Lemma keeps_still {A} (m : H ST A) : (∀ s, (m s).1 = s) → keeps P m.
Proof. intros Hm s. by rewrite Hm. Qed.
Lemma keeps_ret {A} (a : A) : keeps P (mret a : H ST A).
Proof. by apply keeps_still. Qed.
Lemma keeps_refuse {A} e : keeps P (refuse e : H ST A).
Proof. by apply keeps_still. Qed.
Lemma keeps_try {A} (r : result A) : keeps P (try r).
Proof. apply keeps_still. intros s. by destruct r. Qed.
Lemma keeps_answered {A} (r : ApiError + A) : keeps P (answered r).
Proof. apply keeps_still. intros s. by destruct r. Qed.
Lemma keeps_outcome_of {A} (o : outcome A) : keeps P (outcome_of o).
Proof. apply keeps_still. intros s. by destruct o as [a|[]]. Qed.
Lemma keeps_ask_files {A} (f : NodeFiles → ApiError + A) : keeps P (ask_files f).
Proof. intros s. apply keeps_answered. Qed.
Lemma keeps_ask_registry {A} (c : Curation (V := V)) (f : _ → result A) : keeps P (ask_registry c f).
Proof. intros s. apply keeps_try. Qed.
Lemma keeps_permitted admins headers scope : keeps P (permitted_tenant admins headers scope).
Proof. intros s. apply keeps_try. Qed.
Lemma keeps_on_app {A} (m : H (AppState T K W) A) : keeps P (on_app m).
Proof. intros s. unfold on_app. destruct (m (ms_app s)) as [app r]. apply P_app. Qed.
Lemma keeps_with_registry {A} dir market err (f : Curation (V := V) → H ST A) :
  (∀ c, keeps P (f c)) → keeps P (with_registry dir market err f).
Proof.
  intros Hf s. assert (P s ((c ← ask_files (curation_of dir market); f c) s).1) as Hk
    by (apply keeps_bind; [apply keeps_ask_files|done]).
  unfold with_registry. by destruct ((ask_files (curation_of dir market) ≫= λ c : Curation, f c) s) as [s' []].
Qed.
Lemma keeps_on_registry {A} (c : Curation (V := V)) (m : M (Registry V FileRegistryStore) A) :
  (∀ s, P s {| ms_app := ms_app s;
               ms_files := set_registry_file (rg_store (m (curated c (registry_file (ms_files s)))).1) (ms_files s) |}) →
  keeps P (on_registry c m).
Proof.
  intros Hm s. specialize (Hm s). unfold on_registry. destruct (m _) as [r a]. cbn in Hm. by destruct a as [a|[]].
Qed.
End relation.
End keeps.

#[export] Hint Resolve keeps_ret keeps_refuse keeps_try keeps_answered keeps_outcome_of keeps_ask_files keeps_ask_registry
  keeps_permitted keeps_on_app : keeps.
#[export] Hint Extern 1 (PreOrder _) => apply _ : keeps.

(** ** Who may do what *)

(** The permission a request needs of its caller. *)
Definition required_scope (r : market_request) : option string :=
  match r with
  | EnablePlugin _ | DisablePlugin _ | InstallPlugin _ _ | UpgradePlugin _ _ | RollbackPlugin _ | UninstallPlugin _
  | TrustPublisher _ _ => Some "plugins:admin"
  | VerifyListing _ _ | ApproveReviewOf _ _ | RejectReviewOf _ _ _ | ResolveReportOf _ _ _ _ | DismissReportOf _ _ _ _ =>
    Some "marketplace:moderate"
  | _ => None
  end.

(** What of a listing is left to moderators: the badge, whether it is delisted,
    the reports that are filed; a review may be asked for where none is. *)
Definition unmoderated (rec rec' : ListingRecord) : Prop :=
  lr_verified rec' = lr_verified rec ∧ lr_delisted rec' = lr_delisted rec ∧
  (∀ i r, lr_abuse_reports rec !! i = Some r → lr_abuse_reports rec' !! i = Some r) ∧
  (lr_review rec' = lr_review rec ∨ is_pending (lr_review rec) = false ∧ is_pending (lr_review rec') = true).
#[export] Instance unmoderated_preorder : PreOrder unmoderated.
Proof.
  split; [intros rec; unfold unmoderated; auto|]. intros a b c (Hv & Hd & Hr & Hs) (Hv' & Hd' & Hr' & Hs').
  unfold unmoderated. rewrite Hv', Hd'. split_and!; [done|done|eauto|].
  destruct Hs as [Hs|[Hp Hq]], Hs' as [Hs'|[Hp' Hq']].
  - left. congruence.
  - right. by rewrite <-Hs.
  - right. by rewrite Hs'.
  - by right.
Qed.
Definition left_to_moderators (s s' : RegistryState) : Prop :=
  ∀ id rec, listings s !! id = Some rec → ∃ rec', listings s' !! id = Some rec' ∧ unmoderated rec rec'.
#[export] Instance left_to_moderators_preorder : PreOrder left_to_moderators.
Proof.
  split; [intros s id rec Hrec; by exists rec|]. intros s1 s2 s3 H12 H23 id rec Hrec.
  destruct (H12 _ _ Hrec) as (rec2 & Hrec2 & ?), (H23 _ _ Hrec2) as (rec3 & Hrec3 & ?).
  exists rec3. split; [done|by etrans].
Qed.

Lemma with_listing_unmoderated {A} id (f : ListingRecord → result (ListingRecord * A)) s :
  (∀ rec rec' a, f rec = Ok (rec', a) → unmoderated rec rec') → left_to_moderators s (in_memory (with_listing id f) s).1.
Proof.
  intros Hf. unfold in_memory, with_listing. destruct (listings s !! id) as [rec|] eqn:E; cbn; [|done].
  destruct (f rec) as [[rec' a]|e] eqn:Ef; cbn; [|done]. intros id' rec0 Hrec0. cbn.
  destruct (decide (id = id')) as [<-|Hne].
  - rewrite lookup_insert_eq. exists rec'. split; [done|]. assert (rec0 = rec) as -> by congruence. by eapply Hf.
  - rewrite lookup_insert_ne by done. by exists rec0.
Qed.
Lemma upsert_unmoderated `{Semver V R} publisher name v categories channel s :
  left_to_moderators s (upsert_version publisher name v categories channel s).
Proof.
  intros id rec Hrec. rewrite upsert_version_eq. cbn. destruct (decide (publisher +:+ ("/" +:+ name) = id)) as [<-|Hne].
  - rewrite lookup_insert_eq, Hrec. eexists. split; [done|]. unfold unmoderated. cbn. auto.
  - rewrite lookup_insert_ne by done. by exists rec.
Qed.

Section access.
Context {T K W V R B X : Type} `{TenancyStore T, AuditSink K, AuditCrypto, AuditSerde, WebhookStore W,
  OutboxSerde, WebhookCrypto, HttpJson}.
Context `{SV : !Semver V R} `{MY : ManifestYaml} `{CR : PluginCrypto} `{PS : PackageSerde} `{UN : Unicode}
  `{RSE : RegistrySerde} `{NS : NodeSerde} `{OJ : OsvJson} `{EN : Encodings} `{TB : !Tool B X}.
Context (platform_admins : option string) (log : AuditLog) (platform : V) (plugins_dir staging : option string)
  (marketplace_dir : bool) (join_error : string).
Context (serde_law : ∀ st, ∃ bytes, registry_to_bytes st = inr bytes ∧ registry_of_bytes bytes = inr st).

Abbreviation ST := (MarketState T K W) (only parsing).
Definition serve (now : Z) (r : market_request) (headers : HeaderMap) : H ST Response :=
  run_market (B := B) platform_admins log platform plugins_dir staging marketplace_dir join_error now r headers.

(** A registry file whose listings are left to the moderators. *)
Definition files_left (s s' : ST) : Prop :=
  ∀ st, load (registry_file (ms_files s)) = Ok st →
    ∃ st', load (registry_file (ms_files s')) = Ok st' ∧ left_to_moderators st st'.
#[local] Instance files_left_preorder : PreOrder files_left.
Proof.
  split; [intros s st Hst; by exists st|]. intros s1 s2 s3 H12 H23 st Hst.
  destruct (H12 _ Hst) as (st2 & Hst2 & ?), (H23 _ Hst2) as (st3 & Hst3 & ?). exists st3. split; [done|by etrans].
Qed.
(** The files of plugins stay as they are. *)
Definition plugins_left (s s' : ST) : Prop :=
  trust_json (ms_files s') = trust_json (ms_files s) ∧ keyless_json (ms_files s') = keyless_json (ms_files s) ∧
  catalog_json (ms_files s') = catalog_json (ms_files s) ∧ staged (ms_files s') = staged (ms_files s).
#[local] Instance plugins_left_preorder : PreOrder plugins_left.
Proof. split; unfold plugins_left; [done|]. intros ??? (-> & -> & -> & ->) (-> & -> & -> & ->). done. Qed.

Lemma files_left_same s s' : registry_file (ms_files s') = registry_file (ms_files s) → files_left s s'.
Proof. intros Hs st Hst. exists st. by rewrite Hs. Qed.

(** Operations of the registry that are left to anyone. *)
Lemma on_registry_left {A} (c : Curation (V := V)) (m : M (Registry V FileRegistryStore) A) (m' : M (Registry V RegistryState) A) :
  alike m m' → (∀ s, left_to_moderators s (rg_store (m' (curated c s)).1)) → keeps files_left (on_registry (T := T) (K := K) (W := W) c m).
Proof.
  intros Halike Hm. apply keeps_on_registry. intros s st Hst.
  destruct (Halike c (registry_file (ms_files s)) st Hst) as (_ & f' & st' & Hf & Hs' & Hh).
  exists st'. rewrite Hf. split; [exact Hh|]. specialize (Hm st). by rewrite Hs' in Hm.
Qed.
Lemma on_registry_plugins {A} (c : Curation (V := V)) (m : M (Registry V FileRegistryStore) A) :
  keeps plugins_left (on_registry (T := T) (K := K) (W := W) c m).
Proof. by apply keeps_on_registry. Qed.

Lemma publish_left (c : Curation (V := V)) bytes categories channel (s : RegistryState) :
  left_to_moderators s (rg_store (publish bytes categories channel (curated c s)).1).
Proof.
  pose proof (publish_stopped c s bytes categories channel) as Hstop. unfold wp in Hstop.
  destruct (publish _ _ _ _) as [r [o|st]] eqn:E; [|by subst].
  apply publish_ok in E as (p & m & s' & _ & Hu & -> & _). cbn in Hu |- *. injection Hu as <-. apply upsert_unmoderated.
Qed.

Ltac keep_steps := repeat (apply keeps_bind; [apply _| |intros ?]); auto with keeps.

Lemma refused_at_once now r headers s sc e :
  required_scope r = Some sc → tenant_authorize platform_admins (tenancy (ms_app s)) headers sc = Err e →
  serve now r headers s = (s, Refuse (ApiError_from e)).
Proof.
  intros Hr He.
  assert (∀ {A} (k : string → H ST A), (permitted_tenant platform_admins headers sc ≫= k) s = (s, Refuse (ApiError_from e))) as Hk.
  { intros A k. unfold mbind, H_bind, permitted_tenant. by rewrite He. }
  destruct r; try done; injection Hr as <-; apply Hk.
Qed.

Lemma keeps_acquire_lock (P : relation ST) `{!PreOrder P} : keeps P (acquire_lock plugins_dir).
Proof. unfold acquire_lock. destruct plugins_dir; auto with keeps. Qed.
Lemma keeps_change_files (P : relation ST) (f : NodeFiles → NodeFiles) :
  (∀ s, P s {| ms_app := ms_app s; ms_files := f (ms_files s) |}) → keeps P (change_files f).
Proof. intros Hf s. apply Hf. Qed.
Lemma with_engine_left {A} (m : M (PluginWorld V NotLoadedRuntime B) A) :
  keeps files_left (with_engine (T := T) (K := K) (W := W) platform plugins_dir staging m).
Proof.
  unfold with_engine. keep_steps.
  - apply keeps_acquire_lock, _.
  - intros s. unfold on_engine. destruct (m _) as [w r].
    set (o := r ≫= _). destruct o as [x|[]]; by apply files_left_same.
  - match goal with x : A * _ |- _ => destruct x end. unfold save_catalog. keep_steps.
    apply keeps_change_files. intros s. by apply files_left_same.
Qed.
Lemma save_trust_left t : keeps files_left (save_trust plugins_dir t).
Proof. unfold save_trust. keep_steps. apply keeps_change_files. intros s. by apply files_left_same. Qed.

Lemma app_files_left s app : files_left s {| ms_app := app; ms_files := ms_files s |}.
Proof. by apply files_left_same. Qed.
Lemma app_plugins_left s app : plugins_left s {| ms_app := app; ms_files := ms_files s |}.
Proof. done. Qed.
#[local] Hint Resolve app_files_left app_plugins_left on_registry_plugins : keeps.

Ltac keep_route :=
  repeat first
    [ by auto with keeps
    | by (apply keeps_still; [apply _|intros ?])
    | apply keeps_bind; [apply _| |intros ?]
    | apply keeps_with_registry; [apply _|intros ?]
    | progress cbv zeta
    | case_match ].

Lemma open_routes_leave_plugins now r headers : required_scope r ≠ Some "plugins:admin" →
  (∀ id version grants, r ≠ InstallListing id version grants) → keeps plugins_left (serve now r headers).
Proof.
  intros Hr Hi. unfold serve. destruct r; try done; try (exfalso; by eapply Hi); clear Hr Hi; cbn [run_market];
    unfold list_plugins, search_listings, get_listing, publish_listing, download_version, version_attestation, review_listing,
      verify_listing, request_review_handler, approve_handler, reject_handler, report_abuse_handler, list_abuse_reports,
      resolve_handler, dismiss_handler, require_authenticated_principal, fetched, json_ok, audited, emitted; keep_route.
Qed.

Lemma on_store_left {A} c (f : RegistryState → RegistryState * result A) s :
  left_to_moderators s (f s).1 → left_to_moderators s (rg_store (on_store f (curated (V := V) c s)).1).
Proof. unfold on_store. cbn. by destruct (f s). Qed.

Lemma publish_route_left (c : Curation (V := V)) bytes categories channel : keeps files_left (on_registry c (publish bytes categories channel)).
Proof. eapply on_registry_left; [by apply alike_publish|apply publish_left]. Qed.
Lemma review_route_left (c : Curation (V := V)) id rv : keeps files_left (on_registry c (review id rv)).
Proof.
  eapply on_registry_left; [by apply (alike_run serde_law (AddReview id rv))|]. intros s. cbn [run_registry]. unfold review.
  destruct (negb _); [done|]. apply on_store_left, with_listing_unmoderated. intros rec rec' a [= <- _]. unfold unmoderated. auto.
Qed.
Lemma request_route_left (c : Curation (V := V)) id : keeps files_left (on_registry c (registry_request_review id)).
Proof.
  eapply on_registry_left; [by apply (alike_run serde_law (RequestReview id))|]. intros s. cbn [run_registry].
  apply on_store_left, with_listing_unmoderated. intros rec rec' a. destruct (is_pending (lr_review rec)) eqn:Ep; [done|].
  destruct (latest rec); [|done]. intros [= <- _]. unfold unmoderated. cbn. split_and!; auto.
Qed.
Lemma install_route_left (c : Curation (V := V)) id : keeps files_left (on_registry c (registry_record_install id)).
Proof.
  eapply on_registry_left; [by apply (alike_run serde_law (RecordInstall id))|]. intros s. cbn [run_registry].
  apply on_store_left, with_listing_unmoderated. intros rec rec' a [= <- _]. unfold unmoderated. auto.
Qed.
Lemma report_route_left (c : Curation (V := V)) id reporter reason : keeps files_left (on_registry c (registry_report_abuse id reporter reason)).
Proof.
  eapply on_registry_left.
  - unfold registry_report_abuse. instantiate (1 := registry_report_abuse id reporter reason). unfold registry_report_abuse.
    destruct (is_empty _); [apply alike_throw|by apply alike_store].
  - intros s. unfold registry_report_abuse. destruct (is_empty _); [done|].
    apply on_store_left, with_listing_unmoderated. intros rec rec' a [= <- _]. unfold unmoderated. cbn.
    split_and!; auto. intros i r Hr. by apply lookup_app_l_Some.
Qed.
#[local] Hint Resolve publish_route_left review_route_left request_route_left install_route_left report_route_left
  with_engine_left save_trust_left : keeps.
#[local] Hint Extern 1 (keeps _ (acquire_lock _)) => apply keeps_acquire_lock, _ : keeps.

Lemma open_routes_leave_moderation now r headers : required_scope r ≠ Some "marketplace:moderate" →
  keeps files_left (serve now r headers).
Proof.
  intros Hr. unfold serve. destruct r; try done; clear Hr; cbn [run_market];
    unfold list_plugins, enable_plugin, disable_plugin, install_plugin, upgrade_plugin, rollback_plugin, uninstall_plugin,
      trust_publisher, install_package, search_listings, get_listing, publish_listing, download_version, version_attestation,
      review_listing, request_review_handler, install_listing, report_abuse_handler, list_abuse_reports,
      require_authenticated_principal, fetched, json_ok, audited, emitted, install_package; keep_route.
Qed.

(** C24: Only their permission changes plugins and moderation: a request whose
    caller lacks the permission its route asks for is refused and changes
    nothing at all; without [plugins:admin] no request but the installation of
    a listed plugin touches the trusted keys, the catalog or the staged files;
    and without [marketplace:moderate] every listing keeps its badge, stays
    listed or delisted as it was, and keeps the reports filed against it with
    their decisions - at most a review is asked for. *)
Theorem callers_need_their_permission now r headers (s : ST) :
  let s' := (serve now r headers s).1 in
  let lacks scope := ∃ e, tenant_authorize platform_admins (tenancy (ms_app s)) headers scope = Err e in
  (∀ sc, required_scope r = Some sc → lacks sc → ∃ e, serve now r headers s = (s, Refuse e)) ∧
  (lacks "plugins:admin" → (∀ id version grants, r ≠ InstallListing id version grants) → plugins_left s s') ∧
  (lacks "marketplace:moderate" → files_left s s').
Proof.
  intros s' lacks. unfold s'. split_and!.
  - intros sc Hr (e & He). eexists. by eapply refused_at_once.
  - intros (e & He) Hi. destruct (decide (required_scope r = Some "plugins:admin")) as [Hr|Hr].
    + by rewrite (refused_at_once _ _ _ _ _ _ Hr He).
    + by apply open_routes_leave_plugins.
  - intros (e & He). destruct (decide (required_scope r = Some "marketplace:moderate")) as [Hr|Hr].
    + by rewrite (refused_at_once _ _ _ _ _ _ Hr He).
    + by apply open_routes_leave_moderation.
Qed.

(** ** Panics *)

Definition panic_free {A} (m : H ST A) : Prop := ∀ s, (m s).2 ≠ HandlerPanic.
Lemma panic_free_bind {A C} (m : H ST A) (k : A → H ST C) : panic_free m → (∀ a, panic_free (k a)) → panic_free (m ≫= k).
Proof. intros Hm Hk s. specialize (Hm s). unfold mbind, H_bind. destruct (m s) as [s' [a|e|]]; [apply Hk|done..]. Qed.
Lemma panic_free_ret {A} (a : A) : panic_free (mret a).
Proof. done. Qed.
Lemma panic_free_refuse {A} e : panic_free (A := A) (refuse e).
Proof. done. Qed.
Lemma panic_free_try {A} (r : result A) : panic_free (try r).
Proof. intros s. by destruct r. Qed.
Lemma panic_free_answered {A} (r : ApiError + A) : panic_free (answered r).
Proof. intros s. by destruct r. Qed.
Lemma panic_free_permitted headers scope : panic_free (permitted_tenant platform_admins headers scope).
Proof. intros s. apply panic_free_try. Qed.
Lemma panic_free_audited now headers tenant action ty id : panic_free (audited log now headers tenant action ty id).
Proof. done. Qed.
Lemma panic_free_emitted now ty tenant v : panic_free (emitted now ty tenant v).
Proof. done. Qed.
Lemma panic_free_with_registry {A} dir err (f : Curation (V := V) → H ST A) : panic_free (with_registry dir marketplace_dir err f).
Proof. intros s. unfold with_registry. by destruct ((ask_files _ ≫= _) s) as [s' []]. Qed.
#[local] Hint Resolve panic_free_ret panic_free_refuse panic_free_try panic_free_answered panic_free_permitted
  panic_free_audited panic_free_emitted panic_free_with_registry : panic_free.

Ltac panic_free_route :=
  repeat first
    [ by auto with panic_free
    | apply panic_free_bind; [|intros ?]
    | progress cbv zeta
    | case_match ].

Definition of_marketplace (r : market_request) : bool :=
  match r with
  | ListPlugins _ | EnablePlugin _ | DisablePlugin _ | InstallPlugin _ _ | UpgradePlugin _ _ | RollbackPlugin _
  | UninstallPlugin _ | TrustPublisher _ _ => false
  | _ => true
  end.

(** No request of the marketplace panics: whatever bytes are published,
    downloaded, attested or installed, the caller gets an answer or an error (a
    search with a cursor of a page apart). *)
Theorem marketplace_requests_never_panic now r headers s :
  of_marketplace r = true → (∀ q category capability p, r ≠ SearchListings q category capability p) →
  (serve now r headers s).2 ≠ HandlerPanic.
Proof.
  intros Hr Hs. revert s. change (panic_free (serve now r headers)). unfold serve.
  destruct r; try done; try (exfalso; by eapply Hs); clear Hr Hs; cbn [run_market];
    unfold get_listing, publish_listing, download_version, version_attestation, review_listing, verify_listing,
      request_review_handler, approve_handler, reject_handler, install_listing, report_abuse_handler, list_abuse_reports,
      resolve_handler, dismiss_handler, require_authenticated_principal, json_ok; panic_free_route.
Qed.

(** ** Dependencies, over the file of the catalog *)

Section dependencies.
(** What is written reads back. *)
Context (catalog_law : ∀ l bytes, catalog_to_bytes l = inr bytes → catalog_of_bytes bytes = inr l).

Definition catalog_map (l : list InstalledPlugin) : Catalog := foldl (λ c p, <[id_of p := p]> c) ∅ l.
Definition node_sound (s : ST) : Prop := ∀ l, load_catalog plugins_dir (ms_files s) = inr l → Sound (catalog_map l).
Definition stays_sound (s s' : ST) : Prop := node_sound s → node_sound s'.
#[local] Instance stays_sound_preorder : PreOrder stays_sound.
Proof. split; unfold stays_sound; auto. Qed.
Lemma stays_sound_catalog s s' : catalog_json (ms_files s') = catalog_json (ms_files s) → stays_sound s s'.
Proof. intros Hc Hs l. unfold load_catalog. rewrite Hc. apply Hs. Qed.

Lemma engine_of_sound s e : node_sound s → engine_of platform plugins_dir staging (ms_files s) = inr e → Sound (plugins e).
Proof.
  intros Hs. unfold engine_of. destruct (load_trust _ _); [done|]. destruct (load_catalog _ _) as [|l] eqn:El; [done|].
  destruct (load_keyless _ _); [done|]. intros [= <-]. by apply Hs.
Qed.

Abbreviation world e s := {| engine := e; tools := ∅; disk := staged (ms_files s) |}.
Lemma save_catalog_sound (c : Catalog) (s : ST) : Sound c → stays_sound s (save_catalog plugins_dir (catalog_values c) s).1.
Proof.
  intros HS Hs. unfold save_catalog, mbind, H_bind, to_save. destruct plugins_dir as [d|] eqn:Ed; [|done].
  destruct (catalog_to_bytes (catalog_values c)) as [e|bytes] eqn:Eb; [done|]. apply catalog_law in Eb as Hr.
  cbn. intros l. unfold load_catalog. rewrite Ed. cbn. rewrite Hr.
  intros [= <-]. unfold catalog_map, catalog_values. change (snd <$> btree_iter c) with (map snd (btree_iter c)).
  rewrite insert_btree_values; [done|]. intros id p Hp. by apply (sound_keys _ HS).
Qed.

Lemma with_engine_sound {A} (m : M (PluginWorld V NotLoadedRuntime B) A) s :
  (∀ e, engine_of platform plugins_dir staging (ms_files s) = inr e → Sound (plugins e) →
     wp m (λ _ w', Sound (catalog_of w')) (λ _ _, True) (world e s)) →
  stays_sound s (with_engine platform plugins_dir staging m s).1.
Proof.
  intros Hm Hs. unfold with_engine, mbind at 1, H_bind at 1, acquire_lock.
  destruct plugins_dir as [d|] eqn:Ed; [|done]. rewrite <-Ed in *. cbv beta iota.
  unfold mret, H_ret, mbind at 1, H_bind at 1, ask_files.
  destruct (engine_of _ _ _ _) as [e|e] eqn:Ee; [done|]. cbn [answered]. unfold mret, H_ret.
  specialize (Hm e eq_refl (engine_of_sound s e Hs Ee)).
  unfold mbind at 1, H_bind at 1, on_engine. unfold wp in Hm. destruct (m _) as [w [a|st]].
  - cbn. unfold mbind, H_bind.
    pose proof (save_catalog_sound (catalog_of w) {| ms_app := ms_app s; ms_files := set_staged (disk w) (ms_files s) |} Hm) as Hk.
    unfold catalog. unfold catalog_of in Hk. destruct (save_catalog _ _ _) as [s' [[]|e'|]]; by apply Hk.
  - destruct st; exact Hs.
Qed.

Lemma wp_discarded {Wd A} (m : M Wd A) (Q : Wd → Prop) E w :
  wp (_ ← m; mret ()) (λ _, Q) E w → wp m (λ _, Q) E w.
Proof. unfold wp, mbind, M_bind. by destruct (m w) as [w' [a|st]]. Qed.

(** The lifecycle calls that need no condition. *)
Lemma op_sound (o : Op) (s : ST) :
  (∀ e, engine_of platform plugins_dir staging (ms_files s) = inr e →
     permitted o (world e s : PluginWorld V NotLoadedRuntime B)) →
  stays_sound s (with_engine (B := B) platform plugins_dir staging (run o) s).1.
Proof.
  intros Hp. apply with_engine_sound. intros e He HS.
  eapply wp_mono; [by apply run_sound; [apply Hp|]|done|done].
Qed.
Lemma install_sound p grants : keeps stays_sound (with_engine (T := T) (K := K) (W := W) (B := B) platform plugins_dir staging (install p grants)).
Proof.
  intros s. apply with_engine_sound. intros e He HS. apply wp_discarded.
  eapply wp_mono; [by apply (run_sound (OpInstall p grants))|done|done].
Qed.
Lemma enable_sound id : keeps stays_sound (with_engine (T := T) (K := K) (W := W) (B := B) platform plugins_dir staging (enable id)).
Proof. intros s. by apply (op_sound (OpEnable id)). Qed.
Lemma disable_sound id : keeps stays_sound (with_engine (T := T) (K := K) (W := W) (B := B) platform plugins_dir staging (disable id)).
Proof. intros s. by apply (op_sound (OpDisable id)). Qed.
Lemma uninstall_sound id : keeps stays_sound (with_engine (T := T) (K := K) (W := W) (B := B) platform plugins_dir staging (uninstall id)).
Proof. intros s. by apply (op_sound (OpUninstall id)). Qed.

Lemma app_sound s app : stays_sound s {| ms_app := app; ms_files := ms_files s |}.
Proof. by apply stays_sound_catalog. Qed.
Lemma on_registry_sound {A} (c : Curation (V := V)) (m : M (Registry V FileRegistryStore) A) :
  keeps stays_sound (on_registry (T := T) (K := K) (W := W) c m).
Proof. apply keeps_on_registry. intros s. by apply stays_sound_catalog. Qed.
Lemma save_trust_sound t : keeps stays_sound (save_trust plugins_dir t).
Proof. unfold save_trust. keep_steps. apply keeps_change_files. intros s. by apply stays_sound_catalog. Qed.
#[local] Hint Resolve app_sound on_registry_sound save_trust_sound install_sound enable_sound disable_sound uninstall_sound : keeps.

(** An upgrade whose new version depends on what the catalog has; no rollback. *)
Definition sound_request (r : market_request) (s : ST) : Prop :=
  match r with
  | UpgradePlugin wovyrpkg grants => ∀ bytes p e, base64_decode wovyrpkg = inr bytes → from_wovyrpkg bytes = Ret p →
      engine_of platform plugins_dir staging (ms_files s) = inr e →
      permitted (OpUpgrade p grants) (world e s : PluginWorld V NotLoadedRuntime B)
  | RollbackPlugin _ => False
  | _ => True
  end.

Lemma upgrade_route_sound now headers wovyrpkg grants s : sound_request (UpgradePlugin wovyrpkg grants) s →
  stays_sound s (serve now (UpgradePlugin wovyrpkg grants) headers s).1.
Proof.
  intros Hr. unfold serve. cbn [run_market]. unfold upgrade_plugin.
  unfold mbind at 1, H_bind at 1, permitted_tenant, try. destruct (tenant_authorize _ _ _ _) as [tenant|e]; [|done].
  unfold mbind at 1, H_bind at 1, answered at 1. destruct (base64_decode wovyrpkg) as [e|bytes] eqn:Eb; [done|].
  unfold mret at 1, H_ret at 1. unfold mbind at 1, H_bind at 1, outcome_of at 1.
  destruct (from_wovyrpkg bytes) as [p|st] eqn:Ep; [|by destruct st].
  match goal with |- stays_sound s ((?m ≫= ?k) s).1 =>
    assert (stays_sound s (m s).1) as Hm; [apply (op_sound (OpUpgrade p grants)); intros e He; by eapply Hr|];
    assert (∀ a, keeps stays_sound (k a)) as Hk; [intros a|]
  end.
  - unfold json_ok, audited. keep_route.
  - unfold mbind, H_bind at 1. unfold mbind in Hk. destruct (with_engine _ _ _ _ s) as [s' [a|e|]]; [|done..].
    etrans; [exact Hm|exact (Hk a s')].
Qed.

Lemma route_sound now r headers s : sound_request r s → stays_sound s (serve now r headers s).1.
Proof.
  intros Hr. destruct r; try by apply upgrade_route_sound.
  all: match goal with |- stays_sound ?s (serve ?now ?r ?headers ?s).1 =>
         enough (keeps stays_sound (serve now r headers)) as Hk; [exact (Hk s)|] end.
  all: unfold serve; try done; cbn [run_market].
  all: unfold list_plugins, enable_plugin, disable_plugin, install_plugin, uninstall_plugin,
      trust_publisher, install_package, search_listings, get_listing, publish_listing, download_version, version_attestation,
      review_listing, verify_listing, request_review_handler, approve_handler, reject_handler, install_listing, report_abuse_handler,
      list_abuse_reports, resolve_handler, dismiss_handler,
      require_authenticated_principal, fetched, json_ok, audited, emitted, install_package; keep_route.
Qed.

(** Requests, and whatever the other components do to their state. *)
Inductive served : ST → ST → Prop :=
  | ServedOne now r headers s : sound_request r s → served s (serve now r headers s).1
  | ServedElsewhere app s : served s {| ms_app := app; ms_files := ms_files s |}.

(** C26: The catalog in the file keeps the dependencies of the plugins: whatever
    requests the plugin and marketplace routes serve on a node that began
    without a catalog - installs of any package or listing, enables, disables
    and uninstalls, but no rollback, and only upgrades to a version that keeps
    the plugin's name, does not depend on the plugin itself and, when the plugin
    is enabled, has its dependencies enabled - every installed plugin has its
    dependencies installed at admitted versions, and every enabled one has them
    enabled.  The file format reads back what it wrote. *)
Theorem served_plugins_keep_their_dependencies (s s' : ST) l :
  catalog_json (ms_files s) = None → rtc served s s' → load_catalog plugins_dir (ms_files s') = inr l →
  ∀ id p dep, catalog_map l !! id = Some p → dep ∈ dependencies_of p →
    satisfied_in (catalog_map l) present dep ∧ (live p → satisfied_in (catalog_map l) live dep).
Proof.
  intros H0' Hrun Hl. assert (node_sound s) as Hs.
  { intros l0. unfold load_catalog. rewrite H0'. destruct plugins_dir; cbn; intros [= <-]; apply sound_empty. }
  assert (node_sound s') as Hs'.
  { clear H0' Hl. induction Hrun as [|s1 s2 s3 Hstep _ IH]; [done|]. apply IH.
    destruct Hstep; [by apply route_sound|by apply app_sound]. }
  specialize (Hs' l Hl). intros id p dep Hid Hdep.
  split; [by eapply (sound_deps _ Hs')|]. intros Hlive. by eapply (sound_live _ Hs').
Qed.
End dependencies.
End access.

(** ** An example: a node whose tenant [acme] has an administrator *)

Module RoutesToy.
#[local] Existing Instance http_json_example.
#[local] Existing Instance audit_crypto_short.
#[local] Existing Instance audit_serde_example.
#[local] Existing Instance outbox_json_example.
#[local] Existing Instance Scripted.crypto.
#[local] Existing Instance PluginToy.yaml.
(** Envelopes as those of [MarketToy]; of the text [broken] the digits of the
    signature end within a character. *)
#[local] Instance envelope : PackageSerde := {|
  envelope_to_vec := envelope_to_vec;
  envelope_from_slice s :=
    if String.eqb s "broken" then
      inr {| pk_manifest := s; pk_signature := "aéa"; pk_artifacts := ∅; pk_keyless := None |}
    else envelope_from_slice (PackageSerde := MarketToy.envelope) s |}.
#[local] Instance encodings : Encodings := {|
  base64_bytes s := if String.eqb s "?" then None else Some s; base64_text s := s; hex_bytes := Some |}.

(** The texts of catalogs: of plugins of known manifests that replaced none. *)
#[local] Instance manifest_eq_dec : EqDecision PluginManifest.
Proof.
  assert (EqDecision Metadata) by solve_decision. assert (EqDecision Compatibility) by solve_decision.
  assert (EqDecision Dependency) by solve_decision. assert (EqDecision CapabilityDescriptor) by solve_decision.
  assert (EqDecision Artifact) by solve_decision. assert (EqDecision SbomComponent) by solve_decision.
  assert (EqDecision Sbom) by solve_decision. assert (EqDecision Provenance) by solve_decision. solve_decision.
Defined.
Definition known_text (m : PluginManifest) : option string :=
  find (λ y, bool_decide (manifest_from_str y = inr m)) ["base 1"; "base 2"; "app 1"; "app 2"; "app 3"].
Definition plugin_text : Type := string * bool * list string * option string.
Definition write_plugin (p : InstalledPlugin) : option plugin_text :=
  match previous p with
  | Some _ => None
  | None => (λ y, (y, bool_decide (state p = Enabled), granted_permissions p, artifact_dir p)) <$> known_text (manifest p)
  end.
Definition read_plugin (x : plugin_text) : option InstalledPlugin :=
  let '(y, enabled, granted, dir) := x in
  match manifest_from_str y with
  | inr m => Some (mk_installed m (if enabled then Enabled else Disabled) granted dir None)
  | inl _ => None
  end.
#[local] Instance node_serde : NodeSerde := {|
  trust_of_bytes b := inr (trust "acme" b TrustStore_new);
  trust_to_bytes t := match keys t !! "acme" with Some k => inr k | None => inl "no key of acme" end;
  keyless_of_bytes _ := inl "no keyless trust";
  catalog_of_bytes b :=
    match xs ← MarketToy.read_tree b; mapM read_plugin xs with Some l => inr l | None => inl "no catalog" end;
  catalog_to_bytes l := match mapM write_plugin l with Some xs => inr (MarketToy.tree_text xs) | None => inl "unknown manifest" end;
  policy_of_bytes _ := inl "no policy" |}.

Lemma read_write_plugin p x : write_plugin p = Some x → read_plugin x = Some p.
Proof.
  destruct p as [m s g d [q|]]; [done|]. unfold write_plugin. cbn [previous state granted_permissions artifact_dir manifest].
  destruct (known_text m) as [y|] eqn:Ey; [|done]. intros [= <-]. cbn [read_plugin].
  apply find_some in Ey as [_ Hy%bool_decide_eq_true]. rewrite Hy. by destruct s.
Qed.
Lemma read_write_plugins l xs : mapM write_plugin l = Some xs → mapM read_plugin xs = Some l.
Proof.
  intros Hw%mapM_Some. apply mapM_Some. induction Hw as [|p x l xs Hp _ IH]; constructor; [by apply read_write_plugin|done].
Qed.
Lemma catalog_reads_back l bytes : catalog_to_bytes l = inr bytes → catalog_of_bytes bytes = inr l.
Proof.
  cbn. destruct (mapM write_plugin l) as [xs|] eqn:E; [|done]. intros [= <-]. rewrite MarketToy.read_tree_text.
  cbn. by rewrite (read_write_plugins _ _ E).
Qed.
Definition node : Type := MarketState InMemoryTenancyStore.t InMemoryAuditSink.t InMemoryWebhookStore.t.
(** The key of [acme] is trusted, and nothing is installed or listed. *)
Definition fresh : node := {|
  ms_app := example_state;
  ms_files := {| trust_json := Some (inr "key"); keyless_json := None; catalog_json := None; policy_json := None;
                 osv_json := None; registry_file := {| registry_json := None |}; staged := ∅ |} |}.
Definition asked (r : market_request) (headers : HeaderMap) (s : node) : node * answer Response :=
  serve (B := Empty_set) None (AuditLog_open_keyed "k") 1 (Some "plugins") None true "panic" 7 r headers s.
Definition after (reqs : list (market_request * HeaderMap)) (s : node) : node :=
  foldl (λ s '(r, headers), (asked r headers s).1) s reqs.
Definition ada : HeaderMap := asks "acme" "ada".
Definition anonymous : HeaderMap := ∅.
Definition catalog_ids (s : node) : list (string * string * PluginState) :=
  match load_catalog (Some "plugins") (ms_files s) with
  | inr l => map (λ p, (id_of p, md_version (metadata (manifest p)), state p)) l
  | inl _ => []
  end.

Definition published : node := after [(PublishListing "base 1" [] None, ada); (PublishListing "app 2" [] None, ada)] fresh.
Definition flagged : node := after [(ReportAbuseOf "acme/base" None "malware", anonymous)] published.

Lemma callers_need_their_permission_witness :
  (∀ st, ∃ bytes, registry_to_bytes st = inr bytes ∧ registry_of_bytes bytes = inr st) ∧
  let takedown := ResolveReportOf "acme/base" 0 None true in
  (∃ e, asked takedown (asks "acme" "eve") flagged = (flagged, Refuse e)) ∧
  files_left flagged (asked (ReviewListing "acme/base" "eve" 1 "bad") (asks "acme" "eve") flagged).1 ∧
  status_of (asked takedown ada flagged).2 = 200.
Proof.
  split; [exact MarketToy.registry_reads_back|]. intros takedown.
  pose proof (λ r, callers_need_their_permission (B := Empty_set) None (AuditLog_open_keyed "k") 1 (Some "plugins") None true "panic"
    MarketToy.registry_reads_back 7 r (asks "acme" "eve") flagged) as Hall.
  assert (∃ e, tenant_authorize None (tenancy (ms_app flagged)) (asks "acme" "eve") "marketplace:moderate" = Err e) as Hl.
  { destruct (tenant_authorize None (tenancy (ms_app flagged)) (asks "acme" "eve") "marketplace:moderate") as [t|e] eqn:E;
      [|by exists e].
    apply (f_equal is_ok) in E. vm_compute in E. discriminate. }
  split; [|split].
  - exact (proj1 (Hall takedown) "marketplace:moderate" eq_refl Hl).
  - exact (proj2 (proj2 (Hall (ReviewListing "acme/base" "eve" 1 "bad"))) Hl).
  - vm_compute. reflexivity.
Defined.

Lemma marketplace_requests_never_panic_witness :
  (asked (PublishListing "broken" [] None) ada fresh).2 ≠ HandlerPanic ∧
  (asked (PublishListing "broken" [] None) ada fresh).2 = Refuse (internal_error "registry task panicked: panic").
Proof.
  split; [|vm_compute; reflexivity].
  by apply (marketplace_requests_never_panic None (AuditLog_open_keyed "k") 1 (Some "plugins") None true "panic"
    7 (PublishListing "broken" [] None) ada fresh).
Defined.

Definition lifecycle : list (market_request * HeaderMap) :=
  [(InstallPlugin "base 1" [], ada); (InstallPlugin "app 2" [], ada); (EnablePlugin "acme/app", ada);
   (DisablePlugin "acme/base", ada); (UninstallPlugin "acme/base", ada)].
Definition served_node : node → node → Prop :=
  served (B := Empty_set) None (AuditLog_open_keyed "k") 1 (Some "plugins") None true "panic".
Lemma after_served reqs s : (∀ r (s' : node), r ∈ map fst reqs → sound_request (T := InMemoryTenancyStore.t) (K := InMemoryAuditSink.t)
    (W := InMemoryWebhookStore.t) (B := Empty_set) 1 (Some "plugins") None r s') →
  rtc served_node s (after reqs s).
Proof.
  revert s. induction reqs as [|[r h] reqs IH]; intros s Hr; [constructor|].
  eapply rtc_l; [|apply IH; intros r' s' Hr'; apply Hr; right; exact Hr']. apply ServedOne, Hr. left.
Qed.
Lemma served_plugins_keep_their_dependencies_witness :
  let s := after lifecycle fresh in
  rtc served_node fresh s ∧
  catalog_ids s = [("acme/app", "2", Enabled); ("acme/base", "1", Enabled)] ∧
  ∀ l, load_catalog (Some "plugins") (ms_files s) = inr l →
  ∀ p, catalog_map l !! "acme/app" = Some p →
    ∀ dep, dep ∈ dependencies_of p → satisfied_in (catalog_map l) present dep.
Proof.
  intros s.
  assert (rtc served_node fresh s) as Hs.
  { apply after_served. intros r s'. cbn. rewrite !elem_of_cons, elem_of_nil. by intros [->|[->|[->|[->|[->|[]]]]]]. }
  split; [exact Hs|]. split; [vm_compute; reflexivity|]. intros l Hl p Hp dep Hdep.
  exact (proj1 (served_plugins_keep_their_dependencies None (AuditLog_open_keyed "k") 1 (Some "plugins") None true "panic"
    catalog_reads_back fresh s l eq_refl Hs Hl "acme/app" p dep Hp Hdep)).
Defined.

(** ** What the routes do beyond the documentation *)

(** The same package that [plugins:install] refuses an anonymous caller, the
    marketplace installs for it. *)
Lemma anyone_installs_listed_plugins :
  status_of (asked (InstallPlugin "base 1" []) anonymous published).2 = 403 ∧
  status_of (asked (InstallListing "acme/base" None []) anonymous published).2 = 200 ∧
  catalog_ids published = [] ∧
  catalog_ids (asked (InstallListing "acme/base" None []) anonymous published).1 = [("acme/base", "1", Disabled)].
Proof. vm_compute. by repeat split. Qed.

(** A package whose hexadecimal digits end within a character panics the handler
    of [plugins:install]. *)
Lemma malformed_packages_panic : (asked (InstallPlugin "broken" []) ada fresh).2 = HandlerPanic.
Proof. vm_compute. reflexivity. Qed.

(** Ratings and requests of a review change the registry for an anonymous caller
    and leave no entry of audit. *)
Lemma ratings_are_anonymous_and_unaudited :
  let rated := asked (ReviewListing "acme/base" "ada" 1 "bad") anonymous published in
  status_of rated.2 = 200 ∧ registry_file (ms_files rated.1) ≠ registry_file (ms_files published) ∧
  audit_store (ms_app rated.1) = audit_store (ms_app published) ∧
  status_of (asked (RequestReviewOf "acme/base") anonymous published).2 = 200.
Proof.
  intros rated. split; [vm_compute; reflexivity|]. split; [|split; vm_compute; reflexivity].
  intros Heq. apply (f_equal (λ f, match load f with Ok st => (λ r, length (lr_reviews r)) <$> listings st !! "acme/base"
                                   | Err _ => None end)) in Heq.
  vm_compute in Heq. discriminate.
Qed.

(** The badge of the one registry is taken by the administrator of any tenant: a
    platform administrator is not needed. *)
Lemma any_tenant_moderates :
  status_of (asked (VerifyListing "acme/base" true) (asks "evil" "eve") published).2 = 200 ∧
  status_of (asked (TrustPublisher "acme" "other") (asks "evil" "eve") published).2 = 200.
Proof. split; vm_compute; reflexivity. Qed.
End RoutesToy.
